(* ===== verification/_CoqProject ===== *)
-Q . S2P
Prelude.v
Names.v
Merkle.v
Accumulators.v
ResourceLimits.v
UnappliedQueue.v
ForkDatabase.v
ForkBranches.v
ForkSwitching.v
ForkSync.v
ForkLog.v
ProtocolFeatures.v
FeatureActivation.v
FeatureLifecycle.v
AbiSerializer.v
AbiTypes.v
AbiRoundtrip.v
SubjectiveBilling.v
Assets.v
AccessLists.v
ChainConfig.v
ProducerSchedule.v
BlockHeaderState.v
Dpos.v
BlockHeaders.v
Authority.v
AuthorityChecker.v
AuthorizationManager.v
AuthActions.v
Transactions.v
TransactionContext.v
TransactionBilling.v
TableIndex.v
ContractTables.v
TableInvariants.v
TableSearch.v
TableRam.v
TableRefinement.v
ActionExecution.v
ActionOrder.v
TransactionExecution.v
ExecutionInvariants.v
ContractCode.v
DeferredTransactions.v
SystemAbi.v
ChainHost.v
DeferredRam.v
ChainInvariants.v
ChainRam.v
ScheduledExecution.v
ScheduledOutcome.v
InputExecution.v
BlockExecution.v
Agreement.v
TableAgreement.v
ExecutionAgreement.v
HandlerAgreement.v
ChainAgreement.v
ContextAgreement.v
InputAgreement.v
BillingAgreement.v
ScheduledAgreement.v
ChainAccounting.v
ChainReceipts.v
BlockReplay.v
