(* ===== verification/Prelude.v ===== *)
(** * Verification of the chain library of mandel (EOSIO)

    mandel is a node of the EOSIO blockchain.  The part of it that every node
    must compute in the same way is libraries/chain (paths below are relative
    to src/libraries/chain, headers are under include/eosio/chain there).  A
    signed block arrives, its header is checked against the header state of
    its parent, it is put into the fork database, and the transactions of the
    best branch are applied to the state: accounts and permissions, resource
    limits and usage, and the tables of the contracts.

    This development translates these parts into executable functions and
    proves what they promise to each other and to their users.

    ** Files, and the code they model

    - [Prelude]: machine integers with their wrap-around ([Width]), the
      exceptions of exceptions.hpp and the monads in which code throws
      ([result] where an undo session discards the state of a throwing
      operation, [stateful] where the state written before the throw stays),
      and the lemmas and tactics the other files share.
    - [Names]: name.cpp, name.hpp.
    - [Merkle]: merkle.cpp, merkle.hpp, incremental_merkle.hpp.
    - [Accumulators], [ResourceLimits]: resource_limits_private.hpp and
      resource_limits.cpp.  The chainbase tables are finite maps; the totals,
      the pending limits, the usage averages, the elastic block limits and the
      RAM usage are all there.
    - [UnappliedQueue]: unapplied_transaction_queue.hpp, with its three
      indices.
    - [ForkDatabase], [ForkBranches]: fork_database.cpp, operations and
      invariant in the first file, branches and persistence in the second.
    - [ForkSwitching]: [push_block], [maybe_switch_forks], [pop_block],
      [log_irreversible] and [commit_block] of controller.cpp, over
      [ForkDatabase] and interfaces for the undo sessions of chainbase, the
      block log and [apply_block].  [ForkSync] and [ForkLog] have the theorems.
    - [ProtocolFeatures]: protocol_feature_manager.cpp,
      whitelisted_intrinsics.cpp, genesis_intrinsics.cpp and what controller.cpp
      does with them in [start_block], [preactivate_feature] and
      [check_protocol_features].  [FeatureActivation] and [FeatureLifecycle]
      have the theorems.
    - [AbiSerializer]: abi_serializer.cpp, abi_serializer.hpp, abi_def.hpp.
      [AbiTypes] is about what [set_abi] establishes, [AbiRoundtrip] about the
      encoder and the decoder together.
    - [SubjectiveBilling]: subjective_billing.hpp of src/plugins/producer_plugin,
      over [Accumulators].
    - [Assets]: symbol.hpp, asset.hpp, asset.cpp.
    - [ProducerSchedule]: producer_schedule.hpp.
    - [BlockHeaderState]: block_header_state.cpp, block_header.cpp and
      protocol_feature_activation.cpp.  [Dpos] and [BlockHeaders] are the
      theorems on irreversibility and on the exchange of headers.
    - [Authority], [AuthorityChecker], [AuthorizationManager]: authority.hpp,
      authority_checker.hpp, authorization_manager.cpp.
    - [AuthActions]: the native actions of eosio_contract.cpp on accounts and
      permissions, which compose [AuthorizationManager] with
      [ResourceLimits], and what controller.cpp does with the permissions of the
      producers' account at genesis and in [update_producers_authority].
    - [AccessLists], [ChainConfig], [Transactions]: the white- and blacklists
      of controller.cpp, chain_config.hpp and chain_config.cpp, and the
      transactions of transaction.hpp and transaction.cpp.
    - [TransactionContext]: transaction_context.cpp, the limits of a
      transaction, its entry points and its billing, over [ResourceLimits]
      and [AuthorizationManager].  [TransactionBilling] has its theorems.
    - [TableIndex], [ContractTables]: contract_table_objects.hpp, the database
      operations of apply_context.cpp and apply_context.hpp with the interface
      of webassembly/database.cpp and preconditions.hpp, composed with
      [ResourceLimits].  [TableInvariants], [TableSearch], [TableRam] and
      [TableRefinement] are the theorems about them.
    - [ActionExecution]: the execution of actions, of apply_context.cpp and
      transaction_context.cpp: traces, notifications, inline actions,
      sequence numbers and receipts.  It sees the database through the class
      [Host], whose instance [tables_host] is [ContractTables].  [ActionOrder]
      and [TransactionExecution] have the theorems, [ExecutionInvariants] the
      rule by which a relation that the host, the native actions and the
      bookkeeping respect holds across a transaction.
    - [ContractCode]: setcode and setabi of eosio_contract.cpp, with
      code_object.hpp.
    - [DeferredTransactions]: generated_transaction_object.hpp, and what
      apply_context.cpp, transaction_context.cpp, eosio_contract.cpp and
      controller.cpp do with the table of generated transactions; its record
      [world] is the state of the chain.  [DeferredRam] has the theorems.
    - [ChainHost]: the class [Host] implemented over the whole state: calls
      for tables and deferred transactions, the table of native handlers that
      the controller registers, [exec], [update_producers_authority], and
      genesis ([SystemAbi] is eosio_contract_abi_bin.cpp).  [ChainInvariants]
      and [ChainRam] lift the invariants of the components to it.
    - [ScheduledExecution], [InputExecution]: [push_scheduled_transaction],
      [apply_onerror] and [push_transaction] of controller.cpp, over
      [TransactionContext] and [ChainHost].  [ScheduledOutcome],
      [ChainAccounting] and [ChainReceipts] have the theorems.
    - [BlockExecution]: the loop of [apply_block] over the receipts of a block,
      and the pushes of a node that produces one.
    - [Agreement]: a relation between the runs of a producer and of a validator,
      with its rules, and a weaker one for runs that fail.  [TableAgreement],
      [ExecutionAgreement], [HandlerAgreement], [ChainAgreement],
      [ContextAgreement], [BillingAgreement], [InputAgreement] and
      [ScheduledAgreement] prove it along the code, from the tables of contracts
      up to the two pushes; [BlockReplay] has the theorem about blocks.

    ** What the theorems show

    - Blocks: the receipts that a producer puts into a block pass the loop of
      [apply_block] on a validating node, which ends in the same state.  The
      producer measures the CPU time and applies its lists, its greylist and its
      limits; the validator takes the time from the receipt and applies the
      limits of the chain.  The theorem asks that both nodes run with the checks
      of transactions on (light validation and trusted producers are left out)
      and that a contract does the same on both, that the shares of the accounts
      and the limits fit their types, and that the measured CPU time of no
      account comes near 2^63.
    - Fork database: an invariant of all reachable databases ([add], [remove],
      [mark_valid], [advance_root], [rollback_head_to_root]); the root moves
      forward without losing a descendant of it; the pending head is a best
      block; two branches meet at their nearest common ancestor; [open] undoes
      [close] as long as the irreversible numbers do not decrease along a branch
      ([monotone]).
    - Fork switching: whatever blocks arrive and wherever applying them fails,
      the head, the fork database, the undo sessions and the block log stay
      together, and the head is a best block; a node in irreversible mode
      applies exactly the blocks of its log, unless the log itself fails.  These
      theorems ask that a block does not have a lower irreversible number than
      its parent ([monotone], [keeps_lib]).  A schedule promotion can break
      this, and examples show what the code does then: a failed switch reads
      the last block of an empty branch, a produced block is not committed, the
      root cannot advance, a saved database cannot be opened.
    - Protocol features: the manager, the state and the whitelist of intrinsics
      agree after every history of preactivations, blocks, failed blocks and
      popped blocks; an activated feature comes after its dependencies; what has
      been preactivated is activated by the next block that lists it.
    - Contract tables: rows, tables, counts and iterators stay consistent
      under every sequence of calls; RAM charged is the RAM the rows take, and
      is raised only with the authorization of its payer; the calls implement
      maps with ordered iteration, the specification [call_spec].
    - Permissions: the checker is sound for the graph of permissions and exact
      when no permission depends on itself; [check_authorization] accepts only transactions
      whose declared permissions are satisfied; [satisfies] decides the
      ancestor relation; the native actions keep the tree of permissions and
      its RAM.
    - Transactions: every action that is scheduled is executed once and gets
      its receipt, receipts are numbered in the order in which they are made
      (in [ChainReceipts] for the whole chain with its native actions),
      the notifications of an action end; a transaction within its checks can
      be billed, is billed within all limits, and is accepted once.
    - The chain: from genesis on, through input and scheduled transactions
      with arbitrary contracts over the modelled intrinsics and the native
      actions, and the changes of the producers' permissions between them, every
      account but the producers' account is billed for exactly the bytes that are stored for it, apart from
      what genesis leaves unbilled to the system account
      ([update_producers_authority] changes the authorities of the producers'
      account without billing them); code is kept while accounts refer to it; a scheduled
      transaction is removed once, with its RAM, whatever becomes of it, or
      nothing changes; the activation of replace_deferred gives back what
      replacing had billed twice.
    - Resource limits: the totals are the sums of the weights after every
      operation, what the queries advertise is what billing accepts, the
      accumulators decay as specified without overflow, the elastic limits
      stay in their bounds.
    - Headers and DPOS: a block made by one node is accepted by the others;
      proposed irreversibility needs a supermajority of confirmations, the
      irreversible number is the one implied by more than two thirds, and does
      not decrease within a schedule (across a promotion it can, which is
      proved too).
    - Merkle roots, names, assets, the queue of transactions: equivalence of the
      incremental with the batch root, printing and parsing, accounting of the
      queue.
    - ABIs: the validation of an ABI ends, cyclic ones included; the decoder
      never meets an unknown type of an accepted ABI; what is encoded is decoded
      to a value with the same encoding.
    - Subjective billing: the bill of an account is the sum over its pending
      transactions and the decayed rest of its failed ones, after every history;
      applied blocks and expirations remove exactly their transactions.

    ** Bounds and fuel

    A loop of the code that is not structural is a [Fixpoint] with fuel, and
    the fuel is a quantity the loop cannot exceed: the number of stored blocks
    for the walks of the fork database, the number of pending limits for
    [process_account_limit_updates], the number of permissions for the walk to
    the root in [satisfies], the number of hashes left for the levels of a
    Merkle tree, the number of accounts for the notifications of an action,
    the number of builtin features for the list that [popped_blocks_to] unlinks,
    the number of definitions for the chains of typedefs and bases of an ABI,
    the digits of a 64-bit integer for its text.
    Theorems show that these loops return within the fuel under
    the invariant of their state.  The recursion of the authority checker is
    bounded by its own depth limit, and that of the ABI serializer by the scopes
    that its yield function admits.  Contract tables are assumed to hold less
    than 2^32 rows in a table, which is what the 32-bit count of a table can
    hold ([TableInvariants.capacity]); a transaction is assumed to schedule
    less than 2^32 actions, which is what an action ordinal can hold.

    ** Parameters

    Code outside of src/ is a parameter: the hash functions, public keys,
    signatures and the serialization of fc, the comparison of floating point
    numbers of softfloat (with the order laws that hold when no NaN is
    stored), and the functions that unpack action data.  Hypotheses on them
    are named in the sections that use them, and the witnesses instantiate
    them.

    ** Not modelled

    The undo sessions of chainbase, which is not part of src/, and [apply_block]
    as a whole are interfaces of [ForkSwitching]: the loop of [apply_block] over
    the receipts is in [BlockExecution] and the activation of features in
    [ProtocolFeatures], while the comparison of the assembled header with the
    received one is not.  The start-up of the controller from a snapshot or by
    replaying the log, the block log and the snapshots themselves are file I/O.
    The WebAssembly runtimes are third-party code and code generation; what a
    contract computes is a parameter, and so is the validation of its code.  Of
    the intrinsics of webassembly/ those for tables, deferred transactions,
    notifications, inline actions and return values, [get_sender] and
    [set_privileged] are modelled.  The others (the rest of privileged.cpp,
    crypto.cpp, the compiler builtins with floating point, console, memory and
    the like) are code of this repository that the development leaves out; so
    contracts of the model do not call the other privileged ones, which change
    resource limits, the parameters of the chain and the proposed schedule in
    the middle of a transaction.  Outside of libraries/chain, networking, the
    production of blocks on timers, the APIs over HTTP, state history and the
    programs are threads, sockets and files around the parts above; subjective
    billing is the component of the plugins that stands on its own. *)

From stdpp Require Export base decidable option list list_numbers numbers gmap strings sorting.
From Stdlib Require Export ZArith Lia Ascii.

#[global] Open Scope Z_scope.

(** ** Machine integers

    The C++ integer types are modelled by [Z] together with the explicit
    wrap-around of the operation that uses them. *)

Module Width.

Definition u8 (x : Z) : Z := x mod 2 ^ 8.
Definition u16 (x : Z) : Z := x mod 2 ^ 16.
Definition u32 (x : Z) : Z := x mod 2 ^ 32.
Definition u64 (x : Z) : Z := x mod 2 ^ 64.
Definition u128 (x : Z) : Z := x mod 2 ^ 128.

(** Two's complement reading of the low 64 bits. *)
Definition s64 (x : Z) : Z := (x + 2 ^ 63) mod 2 ^ 64 - 2 ^ 63.
Definition s32 (x : Z) : Z := (x + 2 ^ 31) mod 2 ^ 32 - 2 ^ 31.

Definition UINT16_MAX : Z := 2 ^ 16 - 1.
Definition UINT32_MAX : Z := 2 ^ 32 - 1.
Definition UINT64_MAX : Z := 2 ^ 64 - 1.
Definition UINT128_MAX : Z := 2 ^ 128 - 1.
Definition INT64_MAX : Z := 2 ^ 63 - 1.
Definition INT64_MIN : Z := - 2 ^ 63.

Abbreviation is_u8 x := (0 <= x < 2 ^ 8).
Abbreviation is_u16 x := (0 <= x < 2 ^ 16).
Abbreviation is_u32 x := (0 <= x < 2 ^ 32).
Abbreviation is_u64 x := (0 <= x < 2 ^ 64).
Abbreviation is_u128 x := (0 <= x < 2 ^ 128).
Abbreviation is_s64 x := (- 2 ^ 63 <= x < 2 ^ 63).

End Width.
Export Width.

(** ** Errors

    [EOS_ASSERT( cond, exc, msg )] throws [exc] when [cond] is false.  A
    function that may throw returns a [result]; the exception is kept, the
    message is not. *)

Inductive chain_exception :=
  | name_type_exception
  | symbol_type_exception
  | asset_type_exception
  | overflow_exception
  | parse_error_exception
  | rate_limiting_state_inconsistent
  | resource_limit_exception
  | transaction_exception
  | tx_cpu_usage_exceeded
  | tx_net_usage_exceeded
  | block_resource_exhausted
  | ram_usage_exceeded
  | not_found_exception
  | uniqueness_violation
  | permission_query_exception
  | authorization_exception
  | fork_database_exception
  | unlinkable_block_exception
  | fork_db_block_not_found
  | block_validate_exception
  | producer_double_confirm
  | wrong_producer
  | producer_schedule_exception
  | invalid_block_header_extension
  | no_block_signatures
  | wrong_signing_key
  | tx_resource_exhaustion
  | tx_duplicate
  | expired_tx_exception
  | protocol_feature_exception
  | protocol_feature_validation_exception
  | action_validate_exception
  | account_name_exists_exception
  | account_query_exception
  | invalid_permission
  | irrelevant_auth_exception
  | missing_auth_exception
  | unsatisfied_authorization
  | tx_irrelevant_sig
  | tx_not_found
  | unlinkable_min_permission_action
  | unactivated_key_type
  | key_blacklist_exception
  | table_not_in_cache
  | invalid_table_iterator
  | table_operation_not_permitted
  | table_access_violation
  | invalid_table_payer
  | db_api_exception
  | unaccessible_api
  | subjective_block_production_exception
  | unauthorized_ram_usage_increase
  | actor_whitelist_exception
  | actor_blacklist_exception
  | contract_whitelist_exception
  | contract_blacklist_exception
  | action_blacklist_exception
  | block_net_usage_exceeded
  | greylist_net_usage_exceeded
  | block_cpu_usage_exceeded
  | greylist_cpu_usage_exceeded
  | deadline_exception
  | leeway_deadline_exception
  | tx_no_auths
  | tx_exp_too_far_exception
  | invalid_ref_block_exception
  | disallowed_transaction_extensions_bad_block_exception
  | inline_action_too_big_nonprivileged
  | cfa_inside_generated_tx
  | deferred_tx_duplicate
  | invalid_transaction_extension
  | ill_formed_deferred_transaction_generation_context
  | unknown_transaction_exception
  | misc_exception
  | bad_alloc
  | set_exact_code
  | invalid_contract_vm_type
  | invalid_contract_vm_version
  | inline_action_too_big
  | action_return_value_exception
  | sig_variable_size_limit_exception
  | protocol_feature_bad_block_exception
  | protocol_feature_iterator_exception
  | database_exception
  | unsupported_abi_version_exception
  | duplicate_abi_type_def_exception
  | duplicate_abi_struct_def_exception
  | duplicate_abi_action_def_exception
  | duplicate_abi_table_def_exception
  | duplicate_abi_err_msg_def_exception
  | duplicate_abi_variant_def_exception
  | duplicate_abi_action_results_def_exception
  | invalid_type_inside_abi
  | abi_circular_def_exception
  | abi_recursion_depth_exception
  | abi_exception
  | unpack_exception
  | pack_exception
  (** an exception of fc or of the standard library *)
  | std_exception
  (** not an exception: the C++ program has no defined behaviour here *)
  | undefined_behaviour.

#[global] Instance chain_exception_eq_dec : EqDecision chain_exception.
Proof. solve_decision. Defined.

Inductive result (A : Type) :=
  | Ok (a : A)
  | Throw (e : chain_exception).
Arguments Ok {A} a.
Arguments Throw {A} e.

#[global] Instance result_ret : MRet result := fun A a => Ok a.
#[global] Instance result_bind : MBind result := fun A B f m =>
  match m with Ok a => f a | Throw e => Throw e end.
#[global] Instance result_fmap : FMap result := fun A B f m =>
  match m with Ok a => Ok (f a) | Throw e => Throw e end.

Definition EOS_ASSERT (cond : bool) (e : chain_exception) : result unit :=
  if cond then Ok tt else Throw e.

(** A range-for loop whose body updates an accumulator and may throw. *)
Fixpoint foldM {A B} (f : B -> A -> result B) (b : B) (l : list A) : result B :=
  match l with
  | [] => Ok b
  | x :: l => b' ← f b x; foldM f b' l
  end.

Definition is_Ok {A} (m : result A) : Prop := exists a, m = Ok a.

Definition is_ok {A} (m : result A) : bool :=
  match m with Ok _ => true | Throw _ => false end.

Lemma bind_ok_inv {A B} (f : A -> result B) (m : result A) (b : B) :
  m ≫= f = Ok b <-> exists a, m = Ok a /\ f a = Ok b.
Proof.
  destruct m; cbn; split; [eauto | intros (? & [= ->] & ?); done | done | ].
  by intros (? & ? & ?).
Qed.

Lemma bind_throw_inv {A B} (f : A -> result B) (m : result A) e :
  m ≫= f = Throw e <-> m = Throw e \/ exists a, m = Ok a /\ f a = Throw e.
Proof.
  destruct m; cbn; split; [ by right; eauto | | by intros [= ->]; left | ].
  - by intros [? | (? & [= ->] & ?)].
  - by intros [[= ->] | (? & ? & ?)].
Qed.

Lemma EOS_ASSERT_ok c e u : EOS_ASSERT c e = Ok u <-> c = true.
Proof. unfold EOS_ASSERT. by destruct u, c. Qed.

Lemma EOS_ASSERT_throw c e e' : EOS_ASSERT c e = Throw e' <-> c = false /\ e = e'.
Proof. unfold EOS_ASSERT. destruct c; split; [done | by intros [] | by intros [= ->] | by intros [_ ->]]. Qed.

(** Run through the binds of a hypothesis [H : m ≫= f = Ok b]: name every
    intermediate value and turn every assertion into its condition. *)
Ltac inv_ok :=
  repeat match goal with
  | H : Ok _ = Ok _ |- _ => injection H as H; subst
  | H : Throw _ = Ok _ |- _ => discriminate H
  | H : Ok _ = Throw _ |- _ => discriminate H
  | H : mret _ = Ok _ |- _ => unfold mret, result_ret in H
  | H : _ ≫= _ = Ok _ |- _ =>
      let a := fresh "r" in let Ha := fresh "Hr" in
      apply bind_ok_inv in H; destruct H as (a & Ha & H)
  | H : EOS_ASSERT _ _ = Ok _ |- _ => apply EOS_ASSERT_ok in H
  | u : unit |- _ => destruct u
  end.

Section fold.
Context {A B : Type} (f : B -> A -> result B).

Lemma foldM_app b l k : foldM f b (l ++ k) = (b' ← foldM f b l; foldM f b' k).
Proof.
  revert b. induction l as [|x l IH]; intros b; [done|]. cbn.
  destruct (f b x); [apply IH | done].
Qed.

(** Loop rule: an invariant kept by every successful iteration. *)
Lemma foldM_inv (P : B -> Prop) b l b' :
  (forall x a a', x ∈ l -> P a -> f a x = Ok a' -> P a') ->
  P b -> foldM f b l = Ok b' -> P b'.
Proof.
  revert b. induction l as [|x l IH]; intros b Hf Hb; cbn.
  { by intros [= <-]. }
  intros H. inv_ok. eapply IH; [ | | exact H].
  - intros ? ? ? ? ? ?. eapply Hf; [by right | done | done].
  - eapply Hf; [by left | done | done].
Qed.

End fold.

(** ** Arithmetic helpers *)

Lemma lor_add_low (a b k : Z) :
  0 <= k -> 0 <= b < 2 ^ k -> a mod 2 ^ k = 0 -> Z.lor a b = a + b.
Proof.
  intros Hk Hb Ha. symmetry. apply Z.add_nocarry_lor.
  apply Z.bits_inj'. intros n Hn. rewrite Z.land_spec, Z.bits_0.
  destruct (Z.lt_ge_cases n k) as [Hlt|Hge].
  - rewrite <- (Z.mod_pow2_bits_low a k n) by lia. by rewrite Ha, Z.bits_0.
  - destruct (decide (b = 0)) as [->|]; [by rewrite Z.bits_0, andb_false_r|].
    rewrite (Z.bits_above_log2 b n), andb_false_r; [done | lia | ].
    apply Z.log2_lt_pow2; [lia|].
    eapply Z.lt_le_trans; [apply Hb|]. apply Z.pow_le_mono_r; lia.
Qed.

Lemma land_ones_mod (a k : Z) : 0 <= k -> Z.land a (2 ^ k - 1) = a mod 2 ^ k.
Proof. intros. rewrite <- Z.land_ones, Z.ones_equiv by lia. f_equal; lia. Qed.

(** Positional notation is unambiguous. *)
Lemma radix_inj (P d e a b : Z) :
  0 <= a < P -> 0 <= b < P -> d * P + a = e * P + b -> d = e /\ a = b.
Proof.
  intros Ha Hb H. assert (d = e) as ->; [|lia].
  apply (f_equal (fun x => x / P)) in H.
  rewrite !Z.div_add_l, !(Z.div_small _ P) in H by lia. lia.
Qed.

Lemma u64_small x : is_u64 x -> u64 x = x.
Proof. apply Z.mod_small. Qed.
Lemma u32_small x : is_u32 x -> u32 x = x.
Proof. apply Z.mod_small. Qed.
Lemma u16_small x : is_u16 x -> u16 x = x.
Proof. apply Z.mod_small. Qed.
Lemma u8_small x : is_u8 x -> u8 x = x.
Proof. apply Z.mod_small. Qed.
Lemma u128_small x : is_u128 x -> u128 x = x.
Proof. apply Z.mod_small. Qed.

Lemma s64_small x : is_s64 x -> s64 x = x.
Proof. intros Hx. unfold s64. rewrite Z.mod_small; lia. Qed.
Lemma s64_range x : is_s64 (s64 x).
Proof. unfold s64. pose proof (Z.mod_pos_bound (x + 2 ^ 63) (2 ^ 64)). lia. Qed.

Lemma u64_range x : is_u64 (u64 x).
Proof. apply Z.mod_pos_bound. lia. Qed.
Lemma u32_range x : is_u32 (u32 x).
Proof. apply Z.mod_pos_bound. lia. Qed.
Lemma u16_range x : is_u16 (u16 x).
Proof. apply Z.mod_pos_bound. lia. Qed.
Lemma u8_range x : is_u8 (u8 x).
Proof. apply Z.mod_pos_bound. lia. Qed.
Lemma u128_range x : is_u128 (u128 x).
Proof. apply Z.mod_pos_bound. lia. Qed.

Create HintDb width.
Create Rewrite HintDb width.
#[export] Hint Resolve u64_range u32_range u16_range u8_range u128_range : width.
#[export] Hint Rewrite u64_small u32_small u16_small u8_small u128_small
  using (first [assumption | lia]) : width.

(** Turn the boolean comparisons of a hypothesis or goal into propositions. *)
Ltac bool_to_prop :=
  repeat match goal with
  | H : _ && _ = true |- _ => apply andb_true_iff in H; destruct H
  | H : _ && _ = false |- _ => apply andb_false_iff in H
  | H : _ || _ = false |- _ => apply orb_false_iff in H; destruct H
  | H : _ || _ = true |- _ => apply orb_true_iff in H
  | H : negb _ = true |- _ => apply negb_true_iff in H
  | H : negb _ = false |- _ => apply negb_false_iff in H
  | H : (_ <=? _) = true |- _ => apply Z.leb_le in H
  | H : (_ <=? _) = false |- _ => apply Z.leb_gt in H
  | H : (_ <? _) = true |- _ => apply Z.ltb_lt in H
  | H : (_ <? _) = false |- _ => apply Z.ltb_ge in H
  | H : (_ =? _) = true |- _ => apply Z.eqb_eq in H
  | H : (_ =? _) = false |- _ => apply Z.eqb_neq in H
  | H : bool_decide _ = true |- _ => apply bool_decide_eq_true in H
  | H : bool_decide _ = false |- _ => apply bool_decide_eq_false in H
  end.

(** ** Sums over a table *)

Section sum_map.
Context {K V : Type} `{Countable K} (g : K -> V -> Z).

Definition sum_map (m : gmap K V) : Z := map_fold (fun k v acc => g k v + acc) 0 m.

Lemma sum_map_empty : sum_map ∅ = 0.
Proof. apply map_fold_empty. Qed.

Lemma sum_map_delete m k v : m !! k = Some v -> sum_map m = g k v + sum_map (delete k m).
Proof. intros Hk. unfold sum_map. apply (map_fold_delete_L (fun k v acc => g k v + acc)); [intros; lia | done]. Qed.

Lemma sum_map_insert_new m k v : m !! k = None -> sum_map (<[k := v]> m) = g k v + sum_map m.
Proof. intros Hk. unfold sum_map. apply (map_fold_insert_L (fun k v acc => g k v + acc)); [intros; lia | done]. Qed.

Lemma sum_map_insert_old m k v w : m !! k = Some w ->
  sum_map (<[k := v]> m) = sum_map m - g k w + g k v.
Proof.
  intros Hk. rewrite (sum_map_delete (<[k := v]> m) k v) by apply lookup_insert_eq.
  rewrite delete_insert_eq, (sum_map_delete m k w Hk). lia.
Qed.

Lemma sum_map_nonneg m : (forall k v, m !! k = Some v -> 0 <= g k v) -> 0 <= sum_map m.
Proof.
  induction m as [|k v m Hk IH] using map_ind; intros Hg; [by rewrite sum_map_empty|].
  rewrite sum_map_insert_new by done.
  assert (0 <= g k v) by (apply Hg, lookup_insert_eq).
  assert (0 <= sum_map m); [|lia]. apply IH. intros k' v' Hk'. apply Hg.
  rewrite lookup_insert_ne; [done | congruence].
Qed.

End sum_map.

(** ** State and exceptions

    For objects without an undo session the writes made before a [throw]
    survive it: a computation returns its result or exception together with
    the state. *)

Definition stateful (S A : Type) : Type := S -> result A * S.

Section stateful.
Context {S : Type}.

#[global] Instance stateful_ret : MRet (stateful S) := fun A a s => (Ok a, s).
#[global] Instance stateful_bind : MBind (stateful S) := fun A B f m s =>
  match m s with
  | (Ok a, s') => f a s'
  | (Throw e, s') => (Throw e, s')
  end.

Definition get : stateful S S := fun s => (Ok s, s).
Definition put (s : S) : stateful S unit := fun _ => (Ok tt, s).
Definition modify (f : S -> S) : stateful S unit := fun s => (Ok tt, f s).
(** A computation that does not touch the state. *)
Definition lift {A} (m : result A) : stateful S A := fun s => (m, s).

(** A range-for loop over a list. *)
Fixpoint iterM {A} (f : A -> stateful S unit) (l : list A) : stateful S unit :=
  match l with
  | [] => mret tt
  | x :: l => f x;; iterM f l
  end.

Lemma stateful_bind_ok {A B} (m : stateful S A) (f : A -> stateful S B) s b s' :
  (m ≫= f) s = (Ok b, s') <-> exists a s1, m s = (Ok a, s1) /\ f a s1 = (Ok b, s').
Proof.
  unfold mbind, stateful_bind. destruct (m s) as [[a|e] s1]; split.
  - eauto.
  - by intros (? & ? & [= <- <-] & ?).
  - done.
  - by intros (? & ? & [=] & ?).
Qed.

Lemma stateful_ret_inv {A} (a b : A) (s s' : S) : (Ok a, s) = (Ok b, s') -> a = b /\ s = s'.
Proof. by intros [= -> ->]. Qed.

(** Loop rule for [iterM]. *)
Lemma iterM_inv {A} (P : S -> Prop) (f : A -> stateful S unit) l s s' :
  (forall x s s', x ∈ l -> P s -> f x s = (Ok tt, s') -> P s') ->
  P s -> iterM f l s = (Ok tt, s') -> P s'.
Proof.
  revert s. induction l as [|x l IH]; intros s Hf Hs H; cbn in H.
  { by injection H as <-. }
  apply stateful_bind_ok in H as ([] & s1 & H1 & H2). eapply IH; [ | |exact H2].
  - intros ? ? ? ? ? ?. eapply Hf; [by right|done|done].
  - eapply Hf; [by left|done|done].
Qed.

End stateful.

(** Run through the binds of a stateful computation that returned. *)
Ltac inv_st :=
  repeat match goal with
  | H : (_ ≫= _) _ = (Ok _, _) |- _ =>
      let a := fresh "a" in let s := fresh "s" in let Ha := fresh "Hs" in
      apply stateful_bind_ok in H; destruct H as (a & s & Ha & H)
  | H : mret _ _ = (Ok _, _) |- _ => unfold mret, stateful_ret in H
  | H : get _ = (Ok _, _) |- _ => unfold get in H
  | H : put _ _ = (Ok _, _) |- _ => unfold put in H
  | H : modify _ _ = (Ok _, _) |- _ => unfold modify in H
  | H : lift _ _ = (Ok _, _) |- _ => unfold lift in H
  | H : (Ok _, _) = (Ok _, _) |- _ => apply stateful_ret_inv in H; destruct H; subst
  | H : (Throw _, _) = (Ok _, _) |- _ => discriminate H
  | H : (?m, _) = (Ok _, _) |- _ => injection H as H <-
  | u : unit |- _ => destruct u
  end.

Lemma list_filter_all {A} (P : A -> Prop) `{forall x, Decision (P x)} (l : list A) :
  (forall x, x ∈ l -> P x) -> filter P l = l.
Proof.
  induction l as [|x l IH]; intros Hl; [done|].
  rewrite filter_cons_True by (apply Hl; left). f_equal. apply IH. intros. apply Hl. by right.
Qed.

Lemma StronglySorted_filter {A} (R : A -> A -> Prop) (P : A -> Prop)
    `{forall x, Decision (P x)} l :
  StronglySorted R l -> StronglySorted R (filter P l).
Proof.
  induction 1 as [|y l Hl IH Hy]; [constructor|]. rewrite filter_cons.
  destruct (decide (P y)); [|done]. constructor; [done|].
  apply Forall_forall. intros z Hz. apply list_elem_of_filter in Hz as [_ Hz].
  by eapply Forall_forall in Hy.
Qed.

(** ** Ordered indices *)

Section insert_upper.
Context {A : Type} (key : A -> Z).

(** Insertion into an [ordered_non_unique] index: after the elements with an
    equal key. *)
Fixpoint insert_upper (x : A) (l : list A) : list A :=
  match l with
  | [] => [x]
  | y :: l' => if key x <? key y then x :: l else y :: insert_upper x l'
  end.

Definition key_sorted : list A -> Prop := StronglySorted (fun x y => key x <= key y).

Lemma insert_upper_perm x l : insert_upper x l ≡ₚ x :: l.
Proof.
  induction l as [|y l IH]; cbn; [done|]. destruct (key x <? key y); [done|].
  rewrite IH. apply Permutation_swap.
Qed.

Lemma insert_upper_sorted x l : key_sorted l -> key_sorted (insert_upper x l).
Proof.
  induction 1 as [|y l Hl IH Hy]; cbn; [repeat constructor|].
  destruct (key x <? key y) eqn:E; bool_to_prop.
  - constructor; [by constructor|]. constructor; [lia|].
    eapply Forall_impl; [exact Hy|]. cbn. lia.
  - constructor; [done|]. rewrite insert_upper_perm. constructor; [lia|done].
Qed.

Lemma insert_upper_filter (P : A -> Prop) `{forall x, Decision (P x)} x l :
  ~ P x -> (forall y, y ∈ l -> P y) -> filter P (insert_upper x l) = l.
Proof.
  intros Hx. induction l as [|y l IH]; intros Hl; cbn [insert_upper].
  { by rewrite filter_cons_False. }
  assert (P y) as Hy by (apply Hl; left).
  assert (forall z, z ∈ l -> P z) as Hl' by (intros; apply Hl; by right).
  destruct (key x <? key y).
  - rewrite filter_cons_False, filter_cons_True by done. f_equal. by apply list_filter_all.
  - rewrite filter_cons_True by done. f_equal. by apply IH.
Qed.

Lemma key_sorted_filter (P : A -> Prop) `{forall x, Decision (P x)} l :
  key_sorted l -> key_sorted (filter P l).
Proof. apply StronglySorted_filter. Qed.

End insert_upper.

(** ** Sums and unique keys in lists *)

Definition sum_with {A} (f : A -> Z) (l : list A) : Z := foldr (fun x acc => f x + acc) 0 l.

#[global] Instance sum_with_perm {A} (f : A -> Z) : Proper ((≡ₚ) ==> (=)) (sum_with f).
Proof. unfold sum_with. induction 1; cbn [foldr]; lia. Qed.

Lemma sum_with_nonneg {A} (f : A -> Z) l : (forall x, 0 <= f x) -> 0 <= sum_with f l.
Proof.
  intros Hf. unfold sum_with. induction l as [|x l IH]; cbn [foldr]; [done|]. specialize (Hf x). lia.
Qed.

Lemma sum_with_ext {A} (f g : A -> Z) l : (forall x, x ∈ l -> f x = g x) -> sum_with f l = sum_with g l.
Proof.
  unfold sum_with. induction l as [|x l IH]; intros Hx; cbn [foldr]; [done|].
  rewrite (Hx x) by left. f_equal. apply IH. intros y Hy. apply Hx. by right.
Qed.

Lemma sum_with_app {A} (f : A -> Z) l k : sum_with f (l ++ k) = sum_with f l + sum_with f k.
Proof. unfold sum_with. induction l as [|x l IH]; cbn [foldr app]; lia. Qed.

Lemma list_filter_none {A} (P : A -> Prop) `{forall x, Decision (P x)} (l : list A) :
  (forall x, x ∈ l -> ~ P x) -> filter P l = [].
Proof.
  induction l as [|x l IH]; intros Hl; [done|].
  rewrite filter_cons_False by (apply Hl; left). apply IH. intros. apply Hl. by right.
Qed.

Lemma list_filter_filter_in {A} (P Q : A -> Prop) `{forall x, Decision (P x)}
    `{forall x, Decision (Q x)} (l : list A) :
  (forall x, x ∈ l -> P x -> Q x) -> filter P (filter Q l) = filter P l.
Proof.
  induction l as [|x l IH]; intros Hl; [done|]. rewrite !filter_cons.
  assert (filter P (filter Q l) = filter P l) as Heq
    by (apply IH; intros; apply Hl; [by right|done]).
  destruct (decide (Q x)) as [HQ|HQ]; rewrite ?filter_cons, Heq; [done|].
  destruct (decide (P x)) as [HP|HP]; [|done]. destruct HQ. apply Hl; [left|done].
Qed.

Section unique.
Context {A K : Type} `{EqDecision K} (key : A -> K).

(** Removing the element with a given key from a list without duplicates. *)
Lemma filter_key_perm l x : NoDup (key <$> l) -> x ∈ l ->
  l ≡ₚ x :: filter (fun y => key y <> key x) l.
Proof.
  induction l as [|y l IH]; intros Hd Hx; [by apply not_elem_of_nil in Hx|].
  rewrite fmap_cons in Hd. apply NoDup_cons in Hd as [Hy Hd].
  apply elem_of_cons in Hx as [<-|Hx].
  - rewrite filter_cons_False by (intros H; by apply H). constructor.
    rewrite list_filter_all; [done|]. intros z Hz Heq. apply Hy. rewrite <- Heq.
    by apply list_elem_of_fmap_2.
  - rewrite filter_cons_True.
    + rewrite Permutation_swap. constructor. by apply IH.
    + intros Heq. apply Hy. rewrite Heq. by apply list_elem_of_fmap_2.
Qed.

Lemma NoDup_key_inj l x y : NoDup (key <$> l) -> x ∈ l -> y ∈ l -> key x = key y -> x = y.
Proof.
  intros Hd Hx Hy Heq. apply list_elem_of_lookup in Hx as [i Hi], Hy as [j Hj].
  assert (i = j) as ->; [|congruence].
  eapply NoDup_lookup; [exact Hd|rewrite list_lookup_fmap, Hi; done|].
  by rewrite list_lookup_fmap, Hj, Heq.
Qed.

Lemma NoDup_fmap_filter (P : A -> Prop) `{forall x, Decision (P x)} l :
  NoDup (key <$> l) -> NoDup (key <$> filter P l).
Proof.
  intros Hd. eapply sublist_NoDup; [exact Hd|]. apply fmap_sublist, sublist_filter.
Qed.

End unique.
