(* ===== verification/Names.v ===== *)
(** * Account names: libraries/chain/name.cpp and include/eosio/chain/name.hpp

    A [name] is a 64-bit integer that packs up to thirteen characters: twelve
    5-bit digits from the most significant end and a 4-bit thirteenth one.
    Module [Name] translates the encoder, the printer and the checked
    constructor; the theorems show that printing and parsing are inverse to
    each other and exactly which strings the constructor accepts. *)

From S2P Require Import Prelude.

(** A C++ string is the list of its characters. *)
Abbreviation cstring := (list ascii).
Definition code (c : ascii) : Z := Z.of_N (N_of_ascii c).
Definition chars (s : string) : cstring := String.list_ascii_of_string s.
Arguments code _%_char.
Arguments chars _%_string.

Module Name.

Record name := mk_name { value : Z }.

#[global] Instance name_eq_dec : EqDecision name.
Proof. solve_decision. Defined.

#[global] Program Instance name_countable : Countable name :=
  inj_countable' value mk_name _.
Next Obligation. by intros []. Qed.

Definition wf (n : name) : Prop := is_u64 (value n).

Definition empty (n : name) : bool := 0 =? value n.
Definition good (n : name) : bool := negb (empty n).

(** [char_to_symbol]: the digit of a character, 0 for every other character. *)
Definition char_to_symbol (c : ascii) : Z :=
  if (code "a" <=? code c) && (code c <=? code "z") then (code c - code "a") + 6
  else if (code "1" <=? code c) && (code c <=? code "5") then (code c - code "1") + 1
  else 0.

(** The [for] loop of [string_to_uint64_t]: it stops at the end of the string
    or at index 12, and leaves the index it stopped at. *)
Fixpoint encode_loop (i : nat) (n : Z) (str : cstring) : nat * Z :=
  match str with
  | c :: str' =>
      if (i <? 12)%nat then
        encode_loop (S i)
          (Z.lor n (u64 (Z.shiftl (Z.land (char_to_symbol c) 0x1f)
                                  (64 - 5 * (Z.of_nat i + 1))))) str'
      else (i, n)
  | [] => (i, n)
  end.

Definition string_to_uint64_t (str : cstring) : Z :=
  let '(i, n) := encode_loop 0 0 str in
  if (i <? length str)%nat && (i =? 12)%nat then
    match str !! 12%nat with
    | Some c => Z.lor n (Z.land (char_to_symbol c) 0x0F)
    | None => n
    end
  else n.

Definition charmap : cstring := chars ".12345abcdefghijklmnopqrstuvwxyz".

Definition charmap_at (k : Z) : ascii :=
  match charmap !! Z.to_nat k with Some c => c | None => "."%char end.

(** One iteration of the loop of [name::to_string], on the pair of the buffer
    and the shrinking value. *)
Definition to_string_step (st : cstring * Z) (i : nat) : cstring * Z :=
  let '(str, tmp) := st in
  let c := charmap_at (Z.land tmp (if (i =? 0)%nat then 0x0f else 0x1f)) in
  (<[(12 - i)%nat := c]> str, Z.shiftr tmp (if (i =? 0)%nat then 4 else 5)).

(** [boost::algorithm::trim_right_if]. *)
Fixpoint drop_while (p : ascii -> bool) (l : cstring) : cstring :=
  match l with
  | [] => []
  | c :: l' => if p c then drop_while p l' else l
  end.
Definition trim_right_if (p : ascii -> bool) (l : cstring) : cstring :=
  reverse (drop_while p (reverse l)).
Definition is_dot (c : ascii) : bool := bool_decide (c = "."%char).

Definition to_string (n : name) : cstring :=
  trim_right_if is_dot
    (fst (foldl to_string_step (replicate 13 "."%char, value n) (seq 0 13))).

#[global] Arguments to_string : simpl never.
#[global] Arguments string_to_uint64_t : simpl never.

(** [name::set], the checked conversion used by every constructor from text. *)
Definition set (str : cstring) : result name :=
  EOS_ASSERT (length str <=? 13)%nat name_type_exception;;
  let v := mk_name (string_to_uint64_t str) in
  EOS_ASSERT (bool_decide (to_string v = str)) name_type_exception;;
  mret v.

(** ** Digits

    [digits v] are the thirteen digits of [v], most significant first, and
    [value_of] reads a list of digits back. *)

Definition digits (v : Z) : list Z :=
  ((fun i : nat => v / 2 ^ (59 - 5 * Z.of_nat i) mod 32) <$> seq 0 12) ++ [v mod 16].

Fixpoint value_of (i : nat) (ds : list Z) : Z :=
  match ds with
  | [] => 0
  | d :: ds =>
      (if (i <? 12)%nat then d mod 32 * 2 ^ (59 - 5 * Z.of_nat i)
       else if (i =? 12)%nat then d mod 16 else 0) + value_of (S i) ds
  end.

Lemma char_to_symbol_range c : 0 <= char_to_symbol c < 32.
Proof.
  unfold char_to_symbol. change (code "a") with 97. change (code "z") with 122.
  change (code "1") with 49. change (code "5") with 53.
  destruct ((97 <=? code c) && (code c <=? 122)) eqn:E1;
  destruct ((49 <=? code c) && (code c <=? 53)) eqn:E2; bool_to_prop; lia.
Qed.

Lemma char_to_symbol_charmap k : 0 <= k < 32 -> char_to_symbol (charmap_at k) = k.
Proof.
  intros Hk.
  assert (H : Forall (fun n => char_to_symbol (charmap_at (Z.of_nat n)) = Z.of_nat n)
                (seq 0 32)) by (apply (bool_decide_unpack _); vm_compute; exact I).
  rewrite Forall_forall in H.
  rewrite <- (Z2Nat.id k) by lia. apply H, elem_of_seq. lia.
Qed.

Lemma charmap_char_to_symbol c : c ∈ charmap -> charmap_at (char_to_symbol c) = c.
Proof.
  intros Hc. revert c Hc. apply Forall_forall.
  apply (bool_decide_unpack _). vm_compute. exact I.
Qed.

Lemma charmap_at_elem k : charmap_at k ∈ charmap.
Proof.
  unfold charmap_at. destruct (charmap !! Z.to_nat k) eqn:E.
  - by eapply list_elem_of_lookup_2.
  - apply list_elem_of_lookup_2 with 0%nat. reflexivity.
Qed.

Lemma charmap_at_dot k : 0 <= k < 32 -> is_dot (charmap_at k) = true <-> k = 0.
Proof.
  intros Hk. unfold is_dot. rewrite bool_decide_eq_true. split; [|by intros ->].
  intros E. rewrite <- (char_to_symbol_charmap k Hk), E. reflexivity.
Qed.

Lemma value_of_bound i ds : (i <= 12)%nat -> (i + length ds <= 13)%nat ->
  0 <= value_of i ds < 2 ^ (64 - 5 * Z.of_nat i).
Proof.
  revert i. induction ds as [|d ds IH]; intros i Hi Hl.
  { cbn [value_of]. pose proof (Z.pow_pos_nonneg 2 (64 - 5 * Z.of_nat i)). lia. }
  cbn [value_of length] in *. destruct (i <? 12)%nat eqn:E.
  - apply Nat.ltb_lt in E. specialize (IH (S i) ltac:(lia) ltac:(lia)).
    pose proof (Z.mod_pos_bound d 32). rewrite Nat2Z.inj_succ in IH.
    replace (64 - 5 * Z.of_nat i) with (5 + (59 - 5 * Z.of_nat i)) by lia.
    rewrite Z.pow_add_r by lia.
    replace (64 - 5 * Z.succ (Z.of_nat i)) with (59 - 5 * Z.of_nat i) in IH by lia.
    change (2 ^ 5) with 32. nia.
  - apply Nat.ltb_ge in E. assert (i = 12%nat) as -> by lia.
    destruct ds; [|cbn in Hl; lia]. cbn [value_of Nat.eqb].
    pose proof (Z.mod_pos_bound d 16). change (64 - 5 * Z.of_nat 12) with 4. lia.
Qed.

Lemma lor_digit (n d k : Z) : 0 <= k -> 0 <= d < 32 -> k + 5 <= 64 ->
  n mod 2 ^ (k + 5) = 0 ->
  Z.lor n (u64 (Z.shiftl (Z.land d 0x1f) k)) = n + d mod 32 * 2 ^ k.
Proof.
  intros Hk Hd Hk' Hn. change 0x1f with (2 ^ 5 - 1). rewrite land_ones_mod by lia.
  change (2 ^ 5) with 32. rewrite (Z.mod_small d) by lia.
  rewrite Z.shiftl_mul_pow2 by lia.
  assert (Hb : 0 <= d * 2 ^ k < 2 ^ (k + 5)).
  { rewrite Z.pow_add_r by lia. pose proof (Z.pow_pos_nonneg 2 k).
    change (2 ^ 5) with 32. nia. }
  rewrite u64_small.
  - by apply lor_add_low with (k + 5); [lia| |].
  - pose proof (Z.pow_le_mono_r 2 (k + 5) 64). lia.
Qed.

Lemma encode_loop_value i n s : (i <= 12)%nat -> n mod 2 ^ (64 - 5 * Z.of_nat i) = 0 ->
  encode_loop i n s = (Nat.min 12 (i + length s),
    n + value_of i (char_to_symbol <$> take (12 - i) s)).
Proof.
  revert i n. induction s as [|c s IH]; intros i n Hi Hn.
  { rewrite take_nil. cbn [encode_loop length fmap list_fmap value_of]. f_equal; lia. }
  cbn [encode_loop]. destruct (i <? 12)%nat eqn:E.
  - apply Nat.ltb_lt in E.
    replace (64 - 5 * (Z.of_nat i + 1)) with (59 - 5 * Z.of_nat i) by lia.
    rewrite lor_digit; [|lia|apply char_to_symbol_range|lia|].
    2: { rewrite <- Hn. f_equal. f_equal. lia. }
    rewrite IH; [|lia|].
    + replace (12 - i)%nat with (S (12 - S i))%nat by lia. cbn [take fmap list_fmap value_of].
      apply Nat.ltb_lt in E. rewrite E. f_equal; [cbn [length]; lia|]. lia.
    + replace (64 - 5 * Z.of_nat i) with (5 + (64 - 5 * Z.of_nat (S i))) in Hn by lia.
      replace (59 - 5 * Z.of_nat i) with (64 - 5 * Z.of_nat (S i)) by lia.
      rewrite Z.mod_add by (apply Z.pow_nonzero; lia).
      rewrite Z.pow_add_r in Hn by lia.
      apply Z.mod_divide; [apply Z.pow_nonzero; lia|].
      apply Z.mod_divide in Hn; [|apply Z.neq_mul_0; split; apply Z.pow_nonzero; lia].
      etrans; [|exact Hn]. apply Z.divide_factor_r.
  - apply Nat.ltb_ge in E. assert (i = 12%nat) as -> by lia.
    cbn. f_equal. lia.
Qed.

Lemma value_of_app i ds es :
  value_of i (ds ++ es) = value_of i ds + value_of (i + length ds) es.
Proof.
  revert i. induction ds as [|d ds IH]; intros i; cbn [app value_of length].
  - rewrite Nat.add_0_r. lia.
  - rewrite IH, <- Nat.add_succ_comm. cbn [Nat.add]. lia.
Qed.

Lemma value_of_zeros i k : value_of i (replicate k 0) = 0.
Proof.
  revert i. induction k as [|k IH]; intros i; [done|]. cbn [replicate value_of].
  rewrite IH. destruct (i <? 12)%nat, (i =? 12)%nat; reflexivity.
Qed.

Lemma string_to_uint64_value s : (length s <= 13)%nat ->
  string_to_uint64_t s = value_of 0 (char_to_symbol <$> s).
Proof.
  intros Hl. unfold string_to_uint64_t.
  rewrite encode_loop_value by (done || lia). rewrite Nat.add_0_l, Z.add_0_l.
  change (12 - 0)%nat with 12%nat.
  destruct (decide (length s <= 12)%nat) as [Hs|Hs].
  { rewrite take_ge by lia.
    replace ((Nat.min 12 (length s) <? length s)%nat) with false; [done|].
    symmetry. apply Nat.ltb_ge. lia. }
  assert (length s = 13%nat) as H13 by lia.
  rewrite Nat.min_l by lia. rewrite H13. cbn [Nat.ltb Nat.leb andb Nat.eqb].
  destruct (lookup_lt_is_Some_2 s 12) as [c Hc]; [lia|]. rewrite Hc.
  assert (s = take 12 s ++ [c]) as Hsplit.
  { rewrite <- (take_drop 12 s) at 1. f_equal.
    apply drop_S in Hc. rewrite Hc, drop_ge by lia. done. }
  rewrite Hsplit at 2. rewrite fmap_app, value_of_app, length_fmap, length_take.
  rewrite Nat.min_l by lia. cbn [fmap list_fmap value_of Nat.ltb Nat.leb Nat.eqb Nat.add].
  pose proof (char_to_symbol_range c) as Hr.
  change 0x0F with (2 ^ 4 - 1). rewrite land_ones_mod by lia.
  rewrite (lor_add_low _ _ 4); [change (2 ^ 4) with 16; lia | lia | | ].
  - apply Z.mod_pos_bound. lia.
  - (* the twelve high digits leave the low four bits clear *)
    assert (forall i ds, (i + length ds <= 12)%nat -> value_of i ds mod 2 ^ 4 = 0) as Hlow.
    { intros i ds. revert i. induction ds as [|d ds IH]; intros i Hi; [done|].
      cbn [value_of length] in *. replace (i <? 12)%nat with true by (symmetry; apply Nat.ltb_lt; lia).
      rewrite Z.add_mod, IH by lia. rewrite Z.add_0_r, Z.mod_mod by lia.
      replace (59 - 5 * Z.of_nat i) with ((55 - 5 * Z.of_nat i) + 4) by lia.
      rewrite Z.pow_add_r, Z.mul_assoc by lia. apply Z.mod_mul. lia. }
    apply Hlow. rewrite length_fmap, length_take. lia.
Qed.

(** ** Printing *)

Lemma digits_range v : Forall (fun d => 0 <= d < 32) (digits v).
Proof.
  unfold digits. apply Forall_app. split.
  - apply Forall_fmap, Forall_forall. intros i _. apply Z.mod_pos_bound. lia.
  - repeat constructor; pose proof (Z.mod_pos_bound v 16); lia.
Qed.

Lemma to_string_loop v : 0 <= v ->
  fst (foldl to_string_step (replicate 13 "."%char, v) (seq 0 13)) = charmap_at <$> digits v.
Proof.
  intros Hv. cbn [seq foldl]. unfold to_string_step. cbn [Nat.eqb Nat.sub fst replicate].
  rewrite !Z.shiftr_shiftr by lia.
  cbn [list_insert insert list_inserts].
  change 0x1f with (2 ^ 5 - 1). change 0x0f with (2 ^ 4 - 1).
  rewrite !land_ones_mod, !Z.shiftr_div_pow2 by lia. reflexivity.
Qed.

Lemma value_of_digits v : is_u64 v -> value_of 0 (digits v) = v.
Proof.
  intros Hv.
  assert (forall k, 0 <= k ->
    v / 2 ^ k mod 32 mod 32 * 2 ^ k = v mod 2 ^ (k + 5) - v mod 2 ^ k) as Ht.
  { intros k Hk. rewrite Z.mod_mod by lia. rewrite Z.pow_add_r by lia.
    rewrite Z.rem_mul_r by (try apply Z.pow_nonzero; lia). change (2 ^ 5) with 32. lia. }
  unfold digits. cbn [fmap list_fmap seq app value_of Nat.ltb Nat.leb Nat.eqb].
  rewrite !Ht by lia. rewrite Z.mod_mod by lia.
  change (v mod 16) with (v mod 2 ^ 4).
  pose (m := fun k => v mod 2 ^ k).
  assert (m 64 = v) as Hm by (apply Z.mod_small; lia).
  repeat match goal with |- context [v mod 2 ^ ?k] =>
    let k' := eval vm_compute in k in change (v mod 2 ^ k) with (m k') end.
  clearbody m. lia.
Qed.

Lemma value_of_inj i ds es : length ds = length es -> (i + length ds = 13)%nat ->
  Forall (fun d => 0 <= d < 32) ds -> Forall (fun d => 0 <= d < 32) es ->
  Forall (fun d => 0 <= d < 16) (drop (12 - i) ds) ->
  Forall (fun d => 0 <= d < 16) (drop (12 - i) es) ->
  value_of i ds = value_of i es -> ds = es.
Proof.
  revert i es. induction ds as [|d ds IH]; intros i [|e es] Hl Hi Hd He Hd' He' Hv;
    try done.
  cbn [value_of length] in *. apply Forall_cons in Hd as [Hd Hds], He as [He Hes].
  injection Hl as Hl. destruct (decide (i = 12)%nat) as [->|Hne].
  - destruct ds; [|cbn in Hi; lia]. destruct es; [|done].
    cbn in Hd', He'. apply Forall_cons in Hd' as [Hd' _], He' as [He' _].
    cbn [value_of Nat.ltb Nat.leb Nat.eqb] in Hv.
    rewrite !Z.mod_small in Hv by lia. f_equal. lia.
  - assert ((i <? 12)%nat = true) as E by (apply Nat.ltb_lt; lia). rewrite E in Hv.
    rewrite !(Z.mod_small _ 32) in Hv by lia.
    pose proof (value_of_bound (S i) ds ltac:(lia) ltac:(lia)) as B1.
    pose proof (value_of_bound (S i) es ltac:(lia) ltac:(lia)) as B2.
    replace (64 - 5 * Z.of_nat (S i)) with (59 - 5 * Z.of_nat i) in B1, B2 by lia.
    assert (d = e /\ value_of (S i) ds = value_of (S i) es) as [-> Hv']
      by (apply (radix_inj (2 ^ (59 - 5 * Z.of_nat i))); lia).
    f_equal. apply (IH (S i)); try done; try lia.
    + replace (12 - i)%nat with (S (12 - S i))%nat in Hd' by lia. done.
    + replace (12 - i)%nat with (S (12 - S i))%nat in He' by lia. done.
Qed.

(** ** Trimming *)

Lemma drop_while_split p l :
  exists t, l = t ++ drop_while p l /\ Forall (fun c => p c = true) t.
Proof.
  induction l as [|c l (t & IH & Ht)]; [by exists []|]. cbn.
  destruct (p c) eqn:E; [|by exists []].
  exists (c :: t). split; [cbn; congruence | by constructor].
Qed.

Lemma trim_right_split p l :
  exists t, l = trim_right_if p l ++ t /\ Forall (fun c => p c = true) t.
Proof.
  destruct (drop_while_split p (reverse l)) as (t & Hl & Ht).
  exists (reverse t). split; [|by rewrite Forall_reverse].
  unfold trim_right_if. rewrite <- reverse_app, <- Hl. by rewrite reverse_involutive.
Qed.

Lemma drop_while_head p c l l' : drop_while p l = c :: l' -> p c = false.
Proof.
  induction l as [|d l IH]; cbn; [done|]. destruct (p d) eqn:E; [exact IH|].
  by intros [= <- _].
Qed.

Lemma trim_right_last p l c : last (trim_right_if p l) = Some c -> p c = false.
Proof.
  unfold trim_right_if. rewrite last_reverse.
  destruct (drop_while p (reverse l)) eqn:E; [done|]. cbn. intros [= <-].
  by eapply drop_while_head.
Qed.

Lemma drop_while_app p t l : Forall (fun c => p c = true) t ->
  drop_while p (t ++ l) = drop_while p l.
Proof. induction 1 as [|c t Hc _ IH]; cbn; [done|]. by rewrite Hc. Qed.

Lemma trim_right_app p s t : Forall (fun c => p c = true) t ->
  (forall c, last s = Some c -> p c = false) -> trim_right_if p (s ++ t) = s.
Proof.
  intros Ht Hs. unfold trim_right_if. rewrite reverse_app, drop_while_app.
  2: { by rewrite Forall_reverse. }
  rewrite <- (reverse_involutive s) at 2. f_equal.
  destruct (reverse s) as [|c r] eqn:E; [done|]. cbn. rewrite Hs; [done|].
  by rewrite <- (reverse_involutive s), last_reverse, E.
Qed.

Lemma all_dots t : Forall (fun c => is_dot c = true) t ->
  t = replicate (length t) "."%char.
Proof.
  induction 1 as [|c t Hc _ IH]; [done|]. cbn. f_equal; [|exact IH].
  by apply bool_decide_eq_true in Hc.
Qed.

(** ** The two directions *)

Lemma to_string_split n : wf n -> exists k,
  charmap_at <$> digits (value n) = to_string n ++ replicate k "."%char.
Proof.
  intros Hn. unfold to_string. rewrite to_string_loop by (unfold wf in Hn; lia).
  destruct (trim_right_split is_dot (charmap_at <$> digits (value n))) as (t & Hl & Ht).
  exists (length t). by rewrite <- (all_dots t Ht).
Qed.

Lemma to_string_length n : wf n -> (length (to_string n) <= 13)%nat.
Proof.
  intros Hn. destruct (to_string_split n Hn) as [k Hk].
  apply (f_equal length) in Hk. rewrite length_fmap, length_app in Hk.
  change (length (digits (value n))) with 13%nat in Hk. lia.
Qed.

Lemma symbols_of_digits v :
  char_to_symbol <$> (charmap_at <$> digits v) = digits v.
Proof.
  rewrite <- list_fmap_compose. rewrite <- (list_fmap_id (digits v)) at 2.
  apply list_fmap_ext. intros i d Hd. apply char_to_symbol_charmap.
  exact (Forall_lookup_1 _ _ _ _ (digits_range v) Hd).
Qed.

Lemma encode_to_string n : wf n -> string_to_uint64_t (to_string n) = value n.
Proof.
  intros Hn. rewrite string_to_uint64_value by by apply to_string_length.
  destruct (to_string_split n Hn) as [k Hk].
  rewrite <- (value_of_digits (value n) Hn), <- symbols_of_digits, Hk.
  rewrite fmap_app, value_of_app, fmap_replicate.
  change (char_to_symbol ".") with 0. rewrite value_of_zeros. lia.
Qed.

(** The strings that are the normal form of some name. *)
Definition valid_name (s : cstring) : Prop :=
  (length s <= 13)%nat /\ Forall (fun c => c ∈ charmap) s /\
  (forall c, s !! 12%nat = Some c -> char_to_symbol c < 16) /\
  last s <> Some "."%char.

Definition padded (s : cstring) : list Z :=
  (char_to_symbol <$> s) ++ replicate (13 - length s) 0.

Lemma padded_value s : (length s <= 13)%nat ->
  value_of 0 (padded s) = string_to_uint64_t s.
Proof.
  intros Hs. unfold padded. rewrite value_of_app, value_of_zeros, Z.add_0_r.
  by rewrite string_to_uint64_value.
Qed.

Lemma encode_wf s : (length s <= 13)%nat -> wf (mk_name (string_to_uint64_t s)).
Proof.
  intros Hs. unfold wf. cbn [value]. rewrite <- padded_value by done.
  apply (value_of_bound 0); [lia|]. unfold padded.
  rewrite length_app, length_fmap, length_replicate. lia.
Qed.

Lemma valid_digits s : valid_name s -> digits (string_to_uint64_t s) = padded s.
Proof.
  intros (Hl & _ & H13 & _). pose proof (encode_wf s Hl) as Hwf.
  assert (Hp : length (padded s) = 13%nat).
  { unfold padded. rewrite length_app, length_fmap, length_replicate. lia. }
  apply (value_of_inj 0); [done | done | apply digits_range | | | | ].
  - apply Forall_app. split.
    + apply Forall_fmap, Forall_forall. intros c _. apply char_to_symbol_range.
    + apply Forall_replicate. lia.
  - repeat constructor; apply Z.mod_pos_bound; lia.
  - apply Forall_lookup. intros i d. rewrite lookup_drop. unfold padded.
    intros [Hd | [_ Hd]]%lookup_app_Some.
    + apply list_lookup_fmap_Some in Hd as (c & -> & Hc).
      assert (i = 0%nat) as -> by (apply lookup_lt_Some in Hc; lia).
      pose proof (char_to_symbol_range c). specialize (H13 c Hc). cbn. lia.
    + apply lookup_replicate in Hd as [-> _]. lia.
  - rewrite padded_value by done. by apply value_of_digits.
Qed.

Lemma encode_print s : valid_name s -> to_string (mk_name (string_to_uint64_t s)) = s.
Proof.
  intros Hv. pose proof (encode_wf s (proj1 Hv)) as Hwf. unfold to_string.
  rewrite to_string_loop by (unfold wf in Hwf; cbn [value] in *; lia). cbn [value].
  rewrite valid_digits by done. unfold padded. rewrite fmap_app.
  destruct Hv as (Hl & Hc & _ & Hlast).
  rewrite <- list_fmap_compose. replace (charmap_at ∘ char_to_symbol <$> s) with s.
  - apply trim_right_app.
    + rewrite fmap_replicate. apply Forall_replicate. done.
    + intros c E. unfold is_dot. apply bool_decide_eq_false. congruence.
  - symmetry. rewrite <- (list_fmap_id s) at 2. apply list_fmap_ext.
    intros i c Hi. apply charmap_char_to_symbol.
    exact (Forall_lookup_1 _ _ _ _ Hc Hi).
Qed.

Lemma to_string_valid n : wf n -> valid_name (to_string n).
Proof.
  intros Hn. destruct (to_string_split n Hn) as [k Hk].
  split_and!; [by apply to_string_length | | | ].
  - assert (Forall (fun c => c ∈ charmap) (charmap_at <$> digits (value n))) as HF.
    { apply Forall_fmap, Forall_forall. intros d _. apply charmap_at_elem. }
    rewrite Hk in HF. by apply Forall_app in HF as [HF _].
  - intros c Hc.
    assert ((charmap_at <$> digits (value n)) !! 12%nat = Some c) as H12.
    { rewrite Hk. by apply lookup_app_l_Some. }
    cbn in H12. injection H12 as <-.
    rewrite char_to_symbol_charmap; pose proof (Z.mod_pos_bound (value n) 16); lia.
  - intros E. unfold to_string in E. apply trim_right_last in E. done.
Qed.

(** C40: printing a name and parsing the text back gives the same name, for
    every 64-bit value: [name::set] accepts every string that
    [name::to_string] prints and restores the value. *)
Theorem name_print_parse (n : name) : wf n -> set (to_string n) = Ok n.
Proof.
  intros Hn. unfold set. rewrite encode_to_string by done.
  pose proof (to_string_length n Hn) as Hl. apply Nat.leb_le in Hl. rewrite Hl.
  destruct n as [v]. cbn. by rewrite bool_decide_eq_true_2.
Qed.

Lemma name_print_parse_witness : set (to_string (mk_name 6138663577826885632)) = Ok (mk_name 6138663577826885632)
  /\ to_string (mk_name 6138663577826885632) = chars "eosio".
Proof. split; [apply (name_print_parse (mk_name 6138663577826885632)); unfold wf; cbn; lia | reflexivity]. Defined.

(** The strings the checked constructor accepts are exactly those of at
    most 13 characters over [.12345a-z] whose thirteenth character, if any,
    is one of [.12345a-j] and which do not end in a dot; the value is then
    the packed one and every other string throws [name_type_exception]. *)
Theorem name_set_accepts (s : cstring) :
  (valid_name s -> set s = Ok (mk_name (string_to_uint64_t s))) /\
  (~ valid_name s -> set s = Throw name_type_exception).
Proof.
  split; intros Hv.
  - pose proof (proj1 Hv) as Hl. unfold set. apply Nat.leb_le in Hl. rewrite Hl. cbn.
    by rewrite bool_decide_eq_true_2 by by apply encode_print.
  - unfold set. destruct (length s <=? 13)%nat eqn:Hl; cbn; [|done].
    apply Nat.leb_le in Hl. rewrite bool_decide_eq_false_2; [done|].
    intros E. apply Hv. rewrite <- E. by apply to_string_valid, encode_wf.
Qed.

End Name.
