(* ===== verification/Merkle.v ===== *)
(** * Merkle roots: libraries/chain/merkle.cpp, merkle.hpp and
      incremental_merkle.hpp

    Module [Merkle] translates the batch computation [merkle], which hashes a
    deque in place level by level, and the append-only
    [incremental_merkle_impl], which keeps only the roots of the complete
    subtrees.  The SHA-256 of a pair, [digest_type::hash], belongs to the fc
    library and is a parameter.  The main theorem is that the incremental
    structure computes the batch root of the leaves appended to it. *)

From S2P Require Import Prelude.

Module Merkle.

(** [digest_type] is [fc::sha256]: four 64-bit words. *)
Record digest_type := mk_digest { h0 : Z; h1 : Z; h2 : Z; h3 : Z }.

#[global] Instance digest_eq_dec : EqDecision digest_type.
Proof. solve_decision. Defined.

#[global] Program Instance digest_countable : Countable digest_type :=
  inj_countable' (fun d => (h0 d, h1 d, h2 d, h3 d))
    (fun '(a, b, c, d) => mk_digest a b c d) _.
Next Obligation. by intros []. Qed.

(** The default constructor zeroes the words. *)
Definition digest_zero : digest_type := mk_digest 0 0 0 0.

Definition make_canonical_left (val : digest_type) : digest_type :=
  mk_digest (Z.land (h0 val) 0xFFFFFFFFFFFFFF7F) (h1 val) (h2 val) (h3 val).

Definition make_canonical_right (val : digest_type) : digest_type :=
  mk_digest (Z.lor (h0 val) 0x0000000000000080) (h1 val) (h2 val) (h3 val).

Definition is_canonical_left (val : digest_type) : bool :=
  Z.land (h0 val) 0x0000000000000080 =? 0.

Definition is_canonical_right (val : digest_type) : bool :=
  negb (Z.land (h0 val) 0x0000000000000080 =? 0).

Definition make_canonical_pair (l r : digest_type) : digest_type * digest_type :=
  (make_canonical_left l, make_canonical_right r).

(** ** Depth of the implied tree (namespace [detail]) *)

Definition next_power_of_2 (value : Z) : Z :=
  let value := u64 (value - 1) in
  let value := Z.lor value (Z.shiftr value 1) in
  let value := Z.lor value (Z.shiftr value 2) in
  let value := Z.lor value (Z.shiftr value 4) in
  let value := Z.lor value (Z.shiftr value 8) in
  let value := Z.lor value (Z.shiftr value 16) in
  let value := Z.lor value (Z.shiftr value 32) in
  u64 (value + 1).

Definition clz_power_2 (value : Z) : Z :=
  let test mask amount := if Z.land value mask =? 0 then 0 else amount in
  64 - (if value =? 0 then 0 else 1)
     - test 0x00000000FFFFFFFF 32
     - test 0x0000FFFF0000FFFF 16
     - test 0x00FF00FF00FF00FF 8
     - test 0x0F0F0F0F0F0F0F0F 4
     - test 0x3333333333333333 2
     - test 0x5555555555555555 1.

Definition calcluate_max_depth (node_count : Z) : Z :=
  if node_count =? 0 then 0
  else clz_power_2 (next_power_of_2 node_count) + 1.

(** *** Smearing the top bit *)

Lemma smear_step w x y : 0 <= w ->
  (forall m, 0 <= m -> Z.testbit y m = true <->
     exists j, 0 <= j < w /\ Z.testbit x (m + j) = true) ->
  forall m, 0 <= m -> Z.testbit (Z.lor y (Z.shiftr y w)) m = true <->
     exists j, 0 <= j < 2 * w /\ Z.testbit x (m + j) = true.
Proof.
  intros Hw Hy m Hm.
  rewrite Z.lor_spec, Z.shiftr_spec, orb_true_iff, !Hy by lia. split.
  - intros [(j & ? & ?) | (j & ? & Hj)]; [exists j; split; [lia|done]|].
    exists (w + j). split; [lia|]. by rewrite Z.add_assoc.
  - intros (j & ? & Hj). destruct (Z.lt_ge_cases j w); [left; exists j; split; [lia|done]|].
    right. exists (j - w). split; [lia|]. rewrite <- Hj. f_equal. lia.
Qed.

Lemma next_power_of_2_spec n : 1 <= n <= 2 ^ 63 -> next_power_of_2 n = 2 ^ Z.log2_up n.
Proof.
  intros Hn. unfold next_power_of_2. rewrite (u64_small (n - 1)) by lia.
  destruct (decide (n = 1)) as [->|]; [reflexivity|].
  set (x := n - 1). assert (Hx : 0 < x < 2 ^ 63) by lia.
  assert (H1 : forall m, 0 <= m -> Z.testbit x m = true <->
     exists j, 0 <= j < 1 /\ Z.testbit x (m + j) = true).
  { intros m Hm. split; [intros; exists 0; split; [lia|by rewrite Z.add_0_r]|].
    intros (j & ? & H). replace j with 0 in H by lia. by rewrite Z.add_0_r in H. }
  pose proof (smear_step 1 _ _ ltac:(lia) H1) as H2.
  pose proof (smear_step 2 _ _ ltac:(lia) H2) as H4.
  pose proof (smear_step 4 _ _ ltac:(lia) H4) as H8.
  pose proof (smear_step 8 _ _ ltac:(lia) H8) as H16.
  pose proof (smear_step 16 _ _ ltac:(lia) H16) as H32.
  pose proof (smear_step 32 _ _ ltac:(lia) H32) as H64.
  clear H1 H2 H4 H8 H16 H32. cbv zeta.
  set (y := Z.lor _ (Z.shiftr _ 32)) in *.
  assert (Hy : y = 2 ^ (Z.log2 x + 1) - 1).
  { rewrite Z.sub_1_r, <- Z.ones_equiv. apply Z.bits_inj'. intros m Hm.
    pose proof (Z.log2_nonneg x) as Hl0.
    assert (Hl : Z.log2 x < 63) by (apply Z.log2_lt_pow2; lia).
    destruct (Z.le_gt_cases m (Z.log2 x)) as [Hle|Hgt].
    - rewrite Z.ones_spec_low by lia. apply H64; [done|].
      exists (Z.log2 x - m). split; [lia|].
      replace (m + (Z.log2 x - m)) with (Z.log2 x) by lia. apply Z.bit_log2. lia.
    - rewrite Z.ones_spec_high by lia. apply not_true_is_false.
      intros (j & ? & Hj)%H64; [|done]. rewrite Z.bits_above_log2 in Hj by lia. done. }
  rewrite Hy. replace (2 ^ (Z.log2 x + 1) - 1 + 1) with (2 ^ (Z.log2 x + 1)) by lia.
  assert (Z.log2_up n = Z.log2 x + 1) as ->.
  { rewrite Z.log2_up_eqn by lia. unfold x. rewrite <- Z.sub_1_r. lia. }
  rewrite u64_small; [done|]. pose proof (Z.log2_nonneg x).
  assert (Z.log2 x < 63) by (apply Z.log2_lt_pow2; lia).
  split; [apply Z.pow_nonneg; lia | apply Z.pow_lt_mono_r; lia].
Qed.

Lemma clz_power_2_spec k : 0 <= k < 64 -> clz_power_2 (2 ^ k) = k.
Proof.
  intros Hk.
  assert (H : Forall (fun n => clz_power_2 (2 ^ Z.of_nat n) = Z.of_nat n) (seq 0 64))
    by (apply (bool_decide_unpack _); vm_compute; exact I).
  rewrite Forall_forall in H. rewrite <- (Z2Nat.id k) by lia. apply H, elem_of_seq. lia.
Qed.

Lemma max_depth_spec n : 1 <= n <= 2 ^ 63 -> calcluate_max_depth n = Z.log2_up n + 1.
Proof.
  intros Hn. unfold calcluate_max_depth. replace (n =? 0) with false by (symmetry; apply Z.eqb_neq; lia).
  rewrite next_power_of_2_spec by done. rewrite clz_power_2_spec; [done|].
  split; [apply Z.log2_up_nonneg|]. enough (Z.log2_up n <= 63) by lia.
  apply Z.log2_up_le_pow2; lia.
Qed.

Section with_hash.
(** [digest_type::hash] of a pair of digests. *)
Variable hash : digest_type * digest_type -> digest_type.

Definition combine (l r : digest_type) : digest_type := hash (make_canonical_pair l r).

(** ** The batch root: [merkle] *)

(** [ids[i] = hash( make_canonical_pair( ids[2*i], ids[2*i+1] ) )] *)
Definition merkle_write (ids : list digest_type) (i : nat) : list digest_type :=
  match ids !! (2 * i)%nat, ids !! (2 * i + 1)%nat with
  | Some l, Some r => <[i := combine l r]> ids
  | _, _ => ids
  end.

(** One turn of the outer loop: duplicate the last id when the size is odd,
    hash the pairs in place, shrink to half. *)
Definition merkle_round (ids : list digest_type) : list digest_type :=
  let ids :=
    if (length ids mod 2 =? 0)%nat then ids
    else match last ids with Some x => ids ++ [x] | None => ids end in
  take (length ids / 2) (foldl merkle_write ids (seq 0 (length ids / 2))).

Fixpoint merkle_loop (fuel : nat) (ids : list digest_type) : list digest_type :=
  match fuel with
  | O => ids
  | S fuel => if (1 <? length ids)%nat then merkle_loop fuel (merkle_round ids) else ids
  end.

(** Every turn halves the size, so the number of ids is enough fuel
    ([merkle_loop_done]). *)
Definition merkle (ids : list digest_type) : digest_type :=
  match ids with
  | [] => digest_zero
  | _ => default digest_zero (head (merkle_loop (length ids) ids))
  end.

(** ** The incremental root *)

Record incremental_merkle := mk_incremental {
  _node_count : Z;
  _active_nodes : list digest_type;
}.

Definition incremental_empty : incremental_merkle := mk_incremental 0 [].

(** The [while (current_depth > 0)] loop of [append].  [None] stands for the
    undefined behaviour of reading [*active_iter] past the end. *)
Fixpoint append_loop (current_depth : nat) (partial : bool) (index : Z)
    (top : digest_type) (active_iter updated : list digest_type)
  : option (digest_type * list digest_type) :=
  match current_depth with
  | O => Some (top, updated)
  | S current_depth =>
      if Z.land index 0x1 =? 0 then
        append_loop current_depth true (Z.shiftr index 1) (combine top top) active_iter
          (if partial then updated else updated ++ [top])
      else
        match active_iter with
        | [] => None
        | left_value :: active_iter =>
            append_loop current_depth partial (Z.shiftr index 1)
              (combine left_value top) active_iter
              (if partial then updated ++ [left_value] else updated)
        end
  end.

Definition append (im : incremental_merkle) (digest : digest_type)
  : option incremental_merkle :=
  let max_depth := calcluate_max_depth (u64 (_node_count im + 1)) in
  match append_loop (Z.to_nat (max_depth - 1)) false (_node_count im) digest
          (_active_nodes im) [] with
  | Some (top, updated) =>
      Some (mk_incremental (u64 (_node_count im + 1)) (updated ++ [top]))
  | None => None
  end.

Definition get_root (im : incremental_merkle) : digest_type :=
  if 0 <? _node_count im then default digest_zero (last (_active_nodes im))
  else digest_zero.

(** Appending the leaves of a list one after the other. *)
Fixpoint append_all (im : incremental_merkle) (ds : list digest_type)
  : option incremental_merkle :=
  match ds with
  | [] => Some im
  | d :: ds => match append im d with Some im => append_all im ds | None => None end
  end.

(** ** Levels of the tree

    [pairs] hashes the complete pairs of a level and drops an odd last node;
    [up] duplicates it as the code does. *)

Fixpoint pairs (l : list digest_type) : list digest_type :=
  match l with
  | a :: b :: l => combine a b :: pairs l
  | _ => []
  end.

Fixpoint up (l : list digest_type) : list digest_type :=
  match l with
  | a :: b :: l => combine a b :: up l
  | [a] => [combine a a]
  | [] => []
  end.

Lemma list_ind2 {A} (P : list A -> Prop) :
  P [] -> (forall a, P [a]) -> (forall a b l, P l -> P (a :: b :: l)) -> forall l, P l.
Proof.
  intros H0 H1 H2 l.
  enough (P l /\ forall a, P (a :: l)) by tauto.
  induction l as [|b l [IH1 IH2]]; split; auto.
Qed.

(** Two nodes at a time, for a statement about levels of even length. *)
Ltac level_ind l :=
  induction l as [|?|? ? l IH] using list_ind2; cbn; intros H;
  [ done
  | by apply Nat.even_spec in H
  | rewrite IH; [done|]; destruct H as [k H]; exists (k - 1)%nat; lia ].

Lemma up_snoc_even l x : Nat.Even (length l) -> up (l ++ [x]) = pairs l ++ [combine x x].
Proof. level_ind l. Qed.

Lemma up_snoc_odd l y x : Nat.Even (length l) ->
  up ((l ++ [y]) ++ [x]) = pairs l ++ [combine y x].
Proof. level_ind l. Qed.

Lemma pairs_snoc_even l x : Nat.Even (length l) -> pairs (l ++ [x]) = pairs l.
Proof. level_ind l. Qed.

Lemma pairs_snoc_odd l y x : Nat.Even (length l) ->
  pairs ((l ++ [y]) ++ [x]) = pairs l ++ [combine y x].
Proof. level_ind l. Qed.

Lemma length_pairs l : length (pairs l) = (length l / 2)%nat.
Proof.
  induction l as [|a|a b l IH] using list_ind2; [done|done|].
  cbn [pairs length]. rewrite IH. replace (S (S (length l))) with (length l + 1 * 2)%nat by lia.
  rewrite Nat.div_add by lia. lia.
Qed.

Lemma length_up l : length (up l) = ((length l + 1) / 2)%nat.
Proof.
  induction l as [|a|a b l IH] using list_ind2; [done|done|].
  cbn [up length]. rewrite IH. replace (S (S (length l)) + 1)%nat with (length l + 1 + 1 * 2)%nat by lia.
  rewrite Nat.div_add by lia. lia.
Qed.

Lemma pairs_lookup ids k l r :
  ids !! (2 * k)%nat = Some l -> ids !! (2 * k + 1)%nat = Some r ->
  pairs ids !! k = Some (combine l r).
Proof.
  revert k. induction ids as [|a|a b ids IH] using list_ind2; intros k Hl Hr.
  - done.
  - apply lookup_lt_Some in Hr. cbn in Hr. lia.
  - destruct k as [|k]; [cbn in *; congruence|].
    replace (2 * S k)%nat with (S (S (2 * k))) in * by lia. exact (IH k Hl Hr).
Qed.

(** The in-place loop never reads a cell it has already overwritten. *)
Lemma merkle_write_loop ids k : (2 * k <= length ids)%nat ->
  foldl merkle_write ids (seq 0 k) = take k (pairs ids) ++ drop k ids.
Proof.
  induction k as [|k IH]; intros Hk; [done|].
  rewrite seq_S, foldl_snoc, IH by lia. cbn [Nat.add].
  assert (Hp : length (take k (pairs ids)) = k).
  { rewrite length_take, length_pairs.
    pose proof (Nat.Div0.div_le_mono (2 * k) (length ids) 2) as Hm.
    rewrite Nat.mul_comm, Nat.div_mul in Hm by lia. lia. }
  assert (Hrd : forall j, (k <= j)%nat ->
    (take k (pairs ids) ++ drop k ids) !! j = ids !! j).
  { intros j Hj. rewrite lookup_app_r, Hp, lookup_drop by lia. f_equal. lia. }
  unfold merkle_write. rewrite !Hrd by lia.
  destruct (lookup_lt_is_Some_2 ids (2 * k)) as [l Hl]; [lia|].
  destruct (lookup_lt_is_Some_2 ids (2 * k + 1)) as [r Hr]; [lia|].
  rewrite Hl, Hr. destruct (lookup_lt_is_Some_2 ids k) as [x Hx]; [lia|].
  rewrite insert_app_r_alt by lia. rewrite Hp, Nat.sub_diag.
  rewrite (drop_S ids x k Hx). cbn [insert list_insert].
  rewrite (take_S_r _ _ _ (pairs_lookup _ _ _ _ Hl Hr)). by rewrite <- app_assoc.
Qed.

Lemma merkle_round_even ids : Nat.Even (length ids) ->
  take (length ids / 2) (foldl merkle_write ids (seq 0 (length ids / 2))) = pairs ids.
Proof.
  intros [m Hm]. rewrite Hm, (Nat.mul_comm 2), Nat.div_mul by lia.
  rewrite merkle_write_loop by lia.
  assert (length (pairs ids) = m).
  { rewrite length_pairs, Hm, (Nat.mul_comm 2), Nat.div_mul by lia. done. }
  rewrite (take_ge (pairs ids)) by lia. by rewrite take_app_length'.
Qed.

Lemma up_even ids : Nat.Even (length ids) -> up ids = pairs ids.
Proof. level_ind ids. Qed.

Lemma merkle_round_up ids : merkle_round ids = up ids.
Proof.
  unfold merkle_round. destruct (length ids mod 2 =? 0)%nat eqn:E.
  - apply Nat.eqb_eq in E. assert (Nat.Even (length ids)) as He.
    { apply Nat.Lcm0.mod_divide in E as [k E]. exists k. lia. }
    by rewrite merkle_round_even, up_even.
  - apply Nat.eqb_neq in E.
    destruct ids as [|x ids _] using rev_ind; [done|]. rewrite last_snoc.
    assert (Nat.Even (length ids)) as He.
    { rewrite length_app in E. cbn [length] in E.
      destruct (Nat.Even_or_Odd (length ids)) as [|[k Hk]]; [done|].
      exfalso. apply E. rewrite Hk. replace (2 * k + 1 + 1)%nat with ((k + 1) * 2)%nat by lia.
      apply Nat.Div0.mod_mul. }
    rewrite merkle_round_even, pairs_snoc_odd, up_snoc_even; [done..|].
    destruct He as [k Hk]. rewrite !length_app, Hk. cbn. exists (S k). lia.
Qed.

(** ** The batch loop

    [tree_root d l]: climb [d] levels.  [fits d n] says that [d] is the number
    of levels above [n] nodes. *)

Fixpoint tree_root (d : nat) (l : list digest_type) : digest_type :=
  match d with
  | O => default digest_zero (head l)
  | S d => tree_root d (up l)
  end.

Definition fits (d n : nat) : Prop :=
  match d with O => n = 1%nat | S d' => (2 ^ d' < n <= 2 ^ d)%nat end.

Lemma fits_up d n : fits (S d) n -> fits d ((n + 1) / 2).
Proof.
  unfold fits. intros [H1 H2]. destruct d as [|d].
  - assert (n = 2)%nat as -> by (cbn in *; lia). done.
  - rewrite !Nat.pow_succ_r' in *. split.
    + apply Nat.div_le_lower_bound; lia.
    + apply Nat.lt_succ_r, Nat.Div0.div_lt_upper_bound. lia.
Qed.

Lemma fits_pos d n : fits d n -> (1 <= n)%nat.
Proof. destruct d; cbn; lia. Qed.

Lemma merkle_loop_root fuel d l : fits d (length l) -> (d <= fuel)%nat ->
  exists x, merkle_loop fuel l = [x] /\ x = tree_root d l.
Proof.
  revert d l. induction fuel as [|fuel IH]; intros d l Hf Hd; cbn [merkle_loop].
  - assert (d = 0)%nat as -> by lia. cbn in Hf. destruct l as [|x [|]]; [done| |done].
    by exists x.
  - destruct (1 <? length l)%nat eqn:E.
    + apply Nat.ltb_lt in E. destruct d as [|d]; [cbn in Hf; lia|].
      rewrite merkle_round_up. cbn [tree_root]. apply IH; [|lia]. rewrite length_up. by apply fits_up.
    + apply Nat.ltb_ge in E. pose proof (fits_pos _ _ Hf).
      destruct l as [|x [|]]; cbn in *; [lia| |lia].
      assert (d = 0)%nat as ->.
      { destruct d; [done|]. cbn in Hf. pose proof (Nat.pow_nonzero 2 d). lia. }
      by exists x.
Qed.

Lemma fits_exists n : (1 <= n)%nat -> exists d, fits d n /\ (d <= n)%nat.
Proof.
  intros Hn. exists (Nat.log2_up n).
  destruct (decide (n = 1%nat)) as [->|]; [by split; [|cbn; lia]|].
  pose proof (Nat.log2_up_spec n ltac:(lia)) as Hs.
  pose proof (Nat.log2_up_pos n ltac:(lia)) as Hp. split.
  - destruct (Nat.log2_up n); [lia|]. cbn [Nat.pred] in Hs. exact Hs.
  - pose proof (Nat.log2_up_lt_lin n ltac:(lia)). lia.
Qed.

Lemma merkle_tree_root d l : fits d (length l) -> merkle l = tree_root d l.
Proof.
  intros Hf. pose proof (fits_pos _ _ Hf) as Hp.
  destruct (fits_exists (length l) Hp) as (d' & Hf' & Hd').
  destruct (merkle_loop_root (length l) d' l Hf' Hd') as (x & Hx & ->).
  assert (d <= Nat.max d d')%nat as Hd by lia.
  destruct (merkle_loop_root (Nat.max d d') d l Hf Hd) as (y & Hy & Ey).
  destruct (merkle_loop_root (Nat.max d d') d' l Hf' ltac:(lia)) as (z & Hz & Ez).
  unfold merkle. destruct l; [cbn in Hp; lia|]. rewrite Hx. cbn. congruence.
Qed.

(** ** Roots of the complete subtrees

    [peaks k l]: from the bottom, the last node of every level of odd length
    among the complete nodes above [l]. *)

Fixpoint peaks (k : nat) (l : list digest_type) : list digest_type :=
  match k with
  | O => []
  | S k =>
      (if (length l mod 2 =? 0)%nat then [] else
         match last l with Some x => [x] | None => [] end) ++ peaks k (pairs l)
  end.

Lemma peaks_even k l : Nat.Even (length l) -> peaks (S k) l = peaks k (pairs l).
Proof.
  intros [m Hm]. cbn [peaks]. rewrite Hm, Nat.mul_comm, Nat.Div0.mod_mul. done.
Qed.

Lemma peaks_odd k l x : Nat.Even (length l) ->
  peaks (S k) (l ++ [x]) = x :: peaks k (pairs l).
Proof.
  intros He. cbn [peaks]. rewrite last_snoc, pairs_snoc_even by done.
  destruct He as [m Hm]. rewrite length_app, Hm. cbn [length].
  replace ((2 * m + 1) mod 2)%nat with 1%nat; [done|].
  rewrite Nat.add_comm, Nat.mul_comm, Nat.Div0.mod_add. done.
Qed.

Lemma peaks_nil k : peaks k [] = [].
Proof. induction k; [done|]. by rewrite peaks_even by by exists 0%nat. Qed.

(** Parity of the index decides whether the complete nodes have an odd end. *)
Lemma index_parity (l : list digest_type) :
  ((Z.land (Z.of_nat (length l)) 0x1 =? 0) = true <-> Nat.Even (length l)) /\
  Z.shiftr (Z.of_nat (length l)) 1 = Z.of_nat (length (pairs l)).
Proof.
  change 0x1 with (2 ^ 1 - 1). rewrite land_ones_mod by lia. split.
  - rewrite Z.eqb_eq. change (2 ^ 1) with 2. split.
    + intros H. exists (Z.to_nat (Z.of_nat (length l) / 2)).
      pose proof (Z.div_mod (Z.of_nat (length l)) 2). lia.
    + intros [m ->]. rewrite Nat2Z.inj_mul, Z.mul_comm. apply Z.mod_mul. lia.
  - rewrite Z.shiftr_div_pow2, length_pairs, Nat2Z.inj_div by lia. done.
Qed.

Lemma even_or_snoc (l : list digest_type) :
  Nat.Even (length l) \/ exists l' x, l = l' ++ [x] /\ Nat.Even (length l').
Proof.
  destruct (Nat.Even_or_Odd (length l)) as [|[m Hm]]; [by left|]. right.
  destruct l as [|x l _] using rev_ind; [cbn in Hm; lia|].
  exists l, x. split; [done|]. rewrite length_app in Hm. cbn in Hm. exists m. lia.
Qed.

(** The loop of [append], entered with the complete nodes [F] of a level and
    the (complete or partial) last node [top] of that level. *)
Lemma append_loop_spec d k partial top F rest acc :
  fits d (length F + 1) -> (d < k)%nat ->
  exists updated top' rest',
    append_loop d partial (Z.of_nat (length F)) top (peaks k F ++ rest) acc
      = Some (top', updated) /\
    top' = tree_root d (F ++ [top]) /\
    updated ++ [top'] =
      acc ++ (if partial then peaks k F else peaks k (F ++ [top])) ++ rest'.
Proof.
  revert k partial top F rest acc.
  induction d as [|d IH]; intros k partial top F rest acc Hf Hk.
  { cbn in Hf. assert (F = []) as -> by (destruct F; cbn in *; [done|lia]).
    destruct k as [|k]; [lia|].
    exists acc, top, (if partial then [top] else []).
    split_and!; [done|done|]. destruct partial; [by rewrite peaks_nil|].
    rewrite peaks_odd by by exists 0%nat. cbn [pairs]. by rewrite peaks_nil. }
  destruct k as [|k]; [lia|].
  destruct (index_parity F) as [Hpar Hsh]. cbn [append_loop tree_root]. rewrite Hsh.
  destruct (even_or_snoc F) as [He | (F' & y & -> & He)].
  - rewrite (proj2 Hpar He), peaks_even by done.
    destruct (IH k true (combine top top) (pairs F) rest
                (if partial then acc else acc ++ [top])) as (u & t & r & H1 & H2 & H3);
      [|lia|].
    { apply fits_up in Hf. rewrite length_pairs.
      replace (length F / 2 + 1)%nat with ((length F + 1 + 1) / 2)%nat; [done|].
      replace (length F + 1 + 1)%nat with (length F + 1 * 2)%nat by lia.
      by rewrite Nat.div_add. }
    exists u, t, r. split_and!; [done|by rewrite H2, up_snoc_even|].
    rewrite H3. destruct partial; [done|]. rewrite peaks_odd by done.
    by rewrite <- !app_assoc.
  - replace (Z.land _ 0x1 =? 0) with false.
    2: { symmetry. apply not_true_is_false. intros H%Hpar. destruct He as [m Hm], H as [m' H].
         rewrite length_app, Hm in H. cbn in H. lia. }
    rewrite peaks_odd by done. cbn [app].
    destruct (IH k partial (combine y top) (pairs (F' ++ [y])) rest
                (if partial then acc ++ [y] else acc)) as (u & t & r & H1 & H2 & H3);
      [|lia|].
    { apply fits_up in Hf. rewrite length_pairs.
      replace (length (F' ++ [y]) / 2 + 1)%nat with ((length (F' ++ [y]) + 1 + 1) / 2)%nat; [done|].
      replace (length (F' ++ [y]) + 1 + 1)%nat with (length (F' ++ [y]) + 1 * 2)%nat by lia.
      by rewrite Nat.div_add. }
    rewrite pairs_snoc_even in H1, H2, H3 by done.
    exists u, t, r. split_and!; [by rewrite pairs_snoc_even by done | by rewrite H2, up_snoc_odd|].
    rewrite H3. destruct partial; [by rewrite <- !app_assoc|].
    rewrite (peaks_even k ((F' ++ [y]) ++ [top])), pairs_snoc_odd; [done|done|].
    destruct He as [m Hm]. rewrite !length_app, Hm. exists (S m). cbn. lia.
Qed.

(** The state after appending the leaves [ds]. *)
Definition represents (im : incremental_merkle) (ds : list digest_type) : Prop :=
  _node_count im = Z.of_nat (length ds) /\
  (exists rest, _active_nodes im = peaks 64 ds ++ rest) /\
  (ds <> [] -> last (_active_nodes im) = Some (merkle ds)).

Lemma represents_empty : represents incremental_empty [].
Proof. split_and!; [done | by exists [] | done]. Qed.

Lemma append_depth n : 1 <= Z.of_nat n <= 2 ^ 63 ->
  fits (Z.to_nat (calcluate_max_depth (Z.of_nat n) - 1)) n /\
  (Z.to_nat (calcluate_max_depth (Z.of_nat n) - 1) < 64)%nat.
Proof.
  intros Hn. rewrite max_depth_spec by done.
  replace (Z.log2_up (Z.of_nat n) + 1 - 1) with (Z.log2_up (Z.of_nat n)) by lia.
  pose proof (Z.log2_up_nonneg (Z.of_nat n)) as H0.
  split; [|enough (Z.log2_up (Z.of_nat n) <= 63) by lia; apply Z.log2_up_le_pow2; lia].
  destruct (decide (n = 1%nat)) as [->|Hn1]; [done|].
  pose proof (Z.log2_up_spec (Z.of_nat n) ltac:(lia)) as [Hlo Hhi].
  pose proof (Z.log2_up_pos (Z.of_nat n) ltac:(lia)) as Hp.
  set (d := Z.log2_up (Z.of_nat n)) in *.
  destruct (Z.to_nat d) as [|d'] eqn:E; [lia|].
  assert (d = Z.of_nat (S d')) as -> by lia. cbn [fits].
  replace (Z.pred (Z.of_nat (S d'))) with (Z.of_nat d') in Hlo by lia.
  split; apply Nat2Z.inj_lt || apply Nat2Z.inj_le; rewrite Nat2Z.inj_pow; done.
Qed.

Lemma append_represents im ds d : represents im ds -> Z.of_nat (length ds) + 1 <= 2 ^ 63 ->
  exists im', append im d = Some im' /\ represents im' (ds ++ [d]).
Proof.
  intros (Hn & (rest & Ha) & Hl) Hb. unfold append. rewrite Hn, Ha.
  rewrite u64_small by lia.
  replace (Z.of_nat (length ds) + 1) with (Z.of_nat (length ds + 1)) by lia.
  destruct (append_depth (length ds + 1) ltac:(lia)) as [Hf Hk].
  destruct (append_loop_spec _ 64 false d ds rest [] Hf Hk)
    as (u & t & r & -> & Ht & Hu).
  eexists. split; [done|]. split_and!; cbn [_node_count _active_nodes].
  - rewrite length_app. done.
  - exists r. exact Hu.
  - intros _. rewrite last_snoc, Ht. f_equal. symmetry. apply merkle_tree_root.
    by rewrite length_app.
Qed.

Lemma append_all_represents im ds es : represents im ds ->
  Z.of_nat (length ds + length es) <= 2 ^ 63 ->
  exists im', append_all im es = Some im' /\ represents im' (ds ++ es).
Proof.
  revert im ds. induction es as [|e es IH]; intros im ds Hr Hb; cbn [append_all].
  { exists im. by rewrite app_nil_r. }
  cbn [length] in Hb. destruct (append_represents im ds e Hr ltac:(lia)) as (im' & -> & Hr').
  destruct (IH im' (ds ++ [e]) Hr') as (im'' & ? & ?).
  { rewrite length_app. cbn [length]. lia. }
  exists im''. split; [done|]. by rewrite <- app_assoc in *.
Qed.

(** C28: appending any sequence of at most 2^63 leaves to an empty
    [incremental_merkle] never reads past its active nodes, counts the leaves
    and yields, as [get_root], exactly the root that the batch function
    [merkle] computes from the same leaves, for every hash function. *)
Theorem incremental_merkle_correct (ds : list digest_type) :
  Z.of_nat (length ds) <= 2 ^ 63 ->
  exists im, append_all incremental_empty ds = Some im /\
    _node_count im = Z.of_nat (length ds) /\ get_root im = merkle ds.
Proof.
  intros Hb. destruct (append_all_represents incremental_empty [] ds represents_empty Hb)
    as (im & Hi & Hn & _ & Hl). cbn [app] in *.
  exists im. split_and!; [done|done|]. unfold get_root. rewrite Hn.
  destruct ds as [|d ds]; [done|]. cbn [length].
  replace (0 <? Z.of_nat (S (length ds))) with true by (symmetry; apply Z.ltb_lt; lia).
  by rewrite Hl.
Qed.

(** The batch loop terminates: with the number of ids as fuel, the loop
    of [merkle] on a non-empty deque ends with exactly one id left, which is
    the value returned. *)
Theorem merkle_loop_done (ids : list digest_type) : ids <> [] ->
  merkle_loop (length ids) ids = [merkle ids].
Proof.
  intros Hne. assert (Hp : (1 <= length ids)%nat) by (destruct ids; [done|cbn; lia]).
  destruct (fits_exists _ Hp) as (d & Hf & Hd).
  destruct (merkle_loop_root (length ids) d ids Hf Hd) as (x & Hx & ->).
  rewrite Hx. f_equal. symmetry. by apply merkle_tree_root.
Qed.

End with_hash.

(** A toy hash that mixes the words, to run the definitions. *)
Definition toy_hash (p : digest_type * digest_type) : digest_type :=
  mk_digest (u64 (3 * h0 p.1 + 5 * h0 p.2 + 1)) (u64 (h1 p.1 + 7 * h1 p.2))
            (h2 p.1) (u64 (h3 p.2 + 11)).

Definition toy_leaves : list digest_type :=
  (fun n => mk_digest (Z.of_nat n) 2 3 4) <$> seq 5 7.

Lemma incremental_merkle_correct_witness :
  exists im, append_all toy_hash incremental_empty toy_leaves = Some im /\
    _node_count im = Z.of_nat (length toy_leaves) /\
    get_root im = merkle toy_hash toy_leaves.
Proof.
  apply (incremental_merkle_correct toy_hash toy_leaves).
  vm_compute. discriminate.
Defined.

Lemma merkle_loop_done_witness :
  merkle_loop toy_hash (length toy_leaves) toy_leaves = [merkle toy_hash toy_leaves].
Proof. apply (merkle_loop_done toy_hash toy_leaves). discriminate. Defined.

(** [clz_power_2] does not count leading zeros, as its comment says: on
    every power of two it returns the exponent, so [calcluate_max_depth] is
    the ceiling of the binary logarithm plus one for every node count up to
    2^63, the depth the append loop relies on. *)
Theorem max_depth_is_log2 :
  (forall k, 0 <= k < 64 -> clz_power_2 (2 ^ k) = k) /\
  (forall n, 1 <= n <= 2 ^ 63 -> calcluate_max_depth n = Z.log2_up n + 1).
Proof. split; [exact clz_power_2_spec | exact max_depth_spec]. Qed.

End Merkle.
