(* ===== verification/Accumulators.v ===== *)
(** * Rate-limiting arithmetic: namespace [impl] of
      include/eosio/chain/resource_limits_private.hpp

    Module [Accumulator] translates the ratios, the checked casts and the two
    accumulators.  All values are unsigned machine integers; every operation
    that could wrap is written with its wrap-around, and the theorems show
    when the guards of the code rule the wrap-around out. *)

From S2P Require Import Prelude.

(** [config::rate_limiting_precision] *)
Definition rate_limiting_precision : Z := 1000 * 1000.

Module Accumulator.

Record ratio := mk_ratio { numerator : Z; denominator : Z }.

#[global] Instance ratio_eq_dec : EqDecision ratio.
Proof. solve_decision. Defined.

(** [operator*( T value, const ratio<T>& r )] for an unsigned [T] with
    maximum [max]. *)
Definition ratio_mul (max value : Z) (r : ratio) : result Z :=
  EOS_ASSERT ((numerator r =? 0) || (value <=? max / numerator r))
    rate_limiting_state_inconsistent;;
  mret ((value * numerator r) mod (max + 1) / denominator r).

Definition integer_divide_ceil (num den : Z) : Z :=
  num / den + (if 0 <? num mod den then 1 else 0).

(** [downgrade_cast<uint64_t>( uint128_t )] and
    [downgrade_cast<int64_t>( uint128_t )]. *)
Definition downgrade_cast_u64 (val : Z) : result Z :=
  EOS_ASSERT ((0 <=? val) && (val <=? UINT64_MAX)) rate_limiting_state_inconsistent;;
  mret val.
Definition downgrade_cast_s64 (val : Z) : result Z :=
  EOS_ASSERT ((0 <=? val) && (val <=? INT64_MAX)) rate_limiting_state_inconsistent;;
  mret val.

Definition max_raw_value : Z := UINT64_MAX / rate_limiting_precision.

(** ** [exponential_moving_average_accumulator] *)

Record usage_accumulator := mk_usage {
  last_ordinal : Z;
  value_ex : Z;
  consumed : Z;
}.

#[global] Instance usage_accumulator_eq_dec : EqDecision usage_accumulator.
Proof. solve_decision. Defined.

Definition usage_zero : usage_accumulator := mk_usage 0 0 0.

Definition average (a : usage_accumulator) : Z :=
  integer_divide_ceil (value_ex a) rate_limiting_precision.

(** The [if( last_ordinal != ordinal )] block of [add]: decay to [ordinal]. *)
Definition decay_to (a : usage_accumulator) (ordinal window_size : Z)
  : result usage_accumulator :=
  if last_ordinal a =? ordinal then mret a
  else
    EOS_ASSERT (last_ordinal a <? ordinal) resource_limit_exception;;
    v ← (if ordinal <? u64 (last_ordinal a + window_size) then
           let delta := u32 (ordinal - last_ordinal a) in
           ratio_mul UINT64_MAX (value_ex a)
             (mk_ratio (u64 (window_size - delta)) window_size)
         else mret 0);
    mret (mk_usage ordinal v (integer_divide_ceil v rate_limiting_precision)).

Definition add (a : usage_accumulator) (units ordinal window_size : Z)
  : result usage_accumulator :=
  EOS_ASSERT (units <=? max_raw_value) rate_limiting_state_inconsistent;;
  EOS_ASSERT (units <=? UINT64_MAX - consumed a) rate_limiting_state_inconsistent;;
  value_ex_contrib ← downgrade_cast_u64
    (integer_divide_ceil (u128 (units * rate_limiting_precision)) window_size);
  EOS_ASSERT (value_ex_contrib <=? UINT64_MAX - value_ex a)
    rate_limiting_state_inconsistent;;
  a ← decay_to a ordinal window_size;
  mret (mk_usage (last_ordinal a) (u64 (value_ex a + value_ex_contrib))
          (u64 (consumed a + units))).

(** ** [exponential_decay_accumulator] *)

Record decay_accumulator := mk_decay {
  decay_last_ordinal : Z;
  decay_value_ex : Z;
}.

Definition value_ex_at (a : decay_accumulator) (ordinal window_size : Z) : result Z :=
  if decay_last_ordinal a <? ordinal then
    if ordinal <? u64 (decay_last_ordinal a + window_size) then
      let delta := u32 (ordinal - decay_last_ordinal a) in
      v ← ratio_mul UINT128_MAX (decay_value_ex a)
            (mk_ratio (u128 (window_size - delta)) window_size);
      downgrade_cast_u64 v
    else mret 0
  else mret (decay_value_ex a).

Definition value_at (a : decay_accumulator) (ordinal window_size : Z) : result Z :=
  v ← value_ex_at a ordinal window_size;
  mret (integer_divide_ceil v rate_limiting_precision).

Definition decay_add (a : decay_accumulator) (units ordinal window_size : Z)
  : result decay_accumulator :=
  EOS_ASSERT (units <=? max_raw_value) rate_limiting_state_inconsistent;;
  let units_ex := u128 (units * rate_limiting_precision) in
  a ← (if decay_last_ordinal a <? ordinal then
         v ← value_ex_at a ordinal window_size; mret (mk_decay ordinal v)
       else mret a);
  let new_value_ex := Z.min (u128 (units_ex + decay_value_ex a)) UINT64_MAX in
  v ← downgrade_cast_u64 new_value_ex;
  mret (mk_decay (decay_last_ordinal a) v).

(** ** Exactness *)

Definition wf (a : usage_accumulator) : Prop :=
  is_u32 (last_ordinal a) /\ is_u64 (value_ex a) /\ is_u64 (consumed a).

Definition decay_wf (a : decay_accumulator) : Prop :=
  is_u32 (decay_last_ordinal a) /\ is_u64 (decay_value_ex a).

(** The decayed value in exact arithmetic: linear over the window. *)
Definition decayed (v last ordinal window_size : Z) : Z :=
  if ordinal <=? last then v
  else if ordinal <? last + window_size
  then v * (window_size - (ordinal - last)) / window_size else 0.

Definition ceil_div (a b : Z) : Z := - ((- a) / b).

Lemma integer_divide_ceil_spec a b : 0 <= a -> 0 < b ->
  integer_divide_ceil a b = ceil_div a b.
Proof.
  intros Ha Hb. unfold integer_divide_ceil, ceil_div.
  pose proof (Z.div_mod a b ltac:(lia)). pose proof (Z.mod_pos_bound a b Hb).
  destruct (0 <? a mod b) eqn:E; bool_to_prop.
  - enough (- a / b = - (a / b) - 1) by lia. symmetry.
    apply Z.div_unique with (b - a mod b); lia.
  - enough (- a / b = - (a / b)) by lia. symmetry. apply Z.div_unique with 0; lia.
Qed.

Lemma ceil_div_bounds a b : 0 < b -> a <= b * ceil_div a b < a + b.
Proof.
  intros Hb. unfold ceil_div.
  pose proof (Z.div_mod (- a) b ltac:(lia)). pose proof (Z.mod_pos_bound (- a) b Hb). lia.
Qed.

Lemma ceil_div_nonneg a b : 0 <= a -> 0 < b -> 0 <= ceil_div a b.
Proof. intros Ha Hb. pose proof (ceil_div_bounds a b Hb). nia. Qed.

Lemma ceil_div_le_upper a b c : 0 < b -> a <= b * c -> ceil_div a b <= c.
Proof. intros Hb H. pose proof (ceil_div_bounds a b Hb). nia. Qed.

Lemma ceil_div_le_self a b : 0 <= a -> 0 < b -> ceil_div a b <= a.
Proof. intros Ha Hb. apply ceil_div_le_upper; nia. Qed.

Lemma ceil_div_mono a a' b : 0 < b -> a <= a' -> ceil_div a b <= ceil_div a' b.
Proof.
  intros Hb Ha. apply ceil_div_le_upper; [done|]. pose proof (ceil_div_bounds a' b Hb). lia.
Qed.

Lemma decayed_bounds v last ordinal w : 0 <= v -> 0 < w ->
  0 <= decayed v last ordinal w <= v.
Proof.
  intros Hv Hw. unfold decayed.
  destruct (ordinal <=? last) eqn:E1; [lia|].
  destruct (ordinal <? last + w) eqn:E2; [|lia]. bool_to_prop. split.
  - apply Z.div_pos; nia.
  - apply Z.div_le_upper_bound; nia.
Qed.

Lemma ratio_mul_exact max v r x : 0 <= max -> 0 <= v -> 0 <= numerator r ->
  0 < denominator r -> ratio_mul max v r = Ok x -> x = v * numerator r / denominator r.
Proof.
  intros Hm Hv Hn Hd H. unfold ratio_mul in H. inv_ok. bool_to_prop.
  rewrite Z.mod_small; [done|]. split; [nia|]. destruct Hr as [Hr|Hr]; bool_to_prop; [nia|].
  destruct (decide (numerator r = 0)); [nia|].
  pose proof (Z.mul_div_le max (numerator r) ltac:(lia)). nia.
Qed.

Lemma decay_to_exact a ordinal w a' : wf a -> is_u32 ordinal -> 0 < w < 2 ^ 32 ->
  decay_to a ordinal w = Ok a' ->
  last_ordinal a <= ordinal /\ last_ordinal a' = ordinal /\
  value_ex a' = decayed (value_ex a) (last_ordinal a) ordinal w /\
  consumed a' = (if last_ordinal a =? ordinal then consumed a
                 else ceil_div (value_ex a') rate_limiting_precision).
Proof.
  intros (Hl & Hv & Hc) Ho Hw H. unfold decay_to, decayed in *.
  destruct (last_ordinal a =? ordinal) eqn:E.
  { inv_ok. bool_to_prop. rewrite E, Z.leb_refl. split_and!; [lia|done..]. }
  inv_ok. bool_to_prop. rewrite u64_small in Hr0 by lia.
  cbn [last_ordinal value_ex consumed].
  replace (ordinal <=? last_ordinal a) with false by lia.
  destruct (ordinal <? last_ordinal a + w) eqn:E2.
  - bool_to_prop. rewrite u32_small, u64_small in Hr0 by lia.
    assert (0 <= value_ex a) by lia.
    apply ratio_mul_exact in Hr0; cbn [numerator denominator] in *; try (unfold UINT64_MAX; lia).
    subst r0. split_and!; [lia|done|done|]. apply integer_divide_ceil_spec; [|done].
    apply Z.div_pos; nia.
  - inv_ok. split_and!; [lia|done|done|]. by apply integer_divide_ceil_spec.
Qed.

Lemma precision_pos : 0 < rate_limiting_precision.
Proof. done. Qed.
#[local] Hint Resolve precision_pos : core.

Lemma max_raw_value_eq : max_raw_value = 18446744073709.
Proof. vm_compute. reflexivity. Qed.

(** A decayed average plus the units of a period stay far below 2^64. *)
Lemma average_small v : 0 <= v < 2 ^ 64 ->
  0 <= ceil_div v rate_limiting_precision <= max_raw_value + 1.
Proof.
  intros Hv. split; [apply ceil_div_nonneg; [lia|done]|]. apply ceil_div_le_upper; [done|].
  rewrite max_raw_value_eq. unfold rate_limiting_precision. lia.
Qed.

Lemma contrib_exact units w x : is_u64 units -> 0 < w ->
  downgrade_cast_u64 (integer_divide_ceil (u128 (units * rate_limiting_precision)) w) = Ok x ->
  x = ceil_div (units * rate_limiting_precision) w /\ is_u64 x.
Proof.
  intros Hu Hw H. unfold downgrade_cast_u64 in H. inv_ok. bool_to_prop.
  rewrite u128_small in * by (unfold rate_limiting_precision; lia).
  rewrite integer_divide_ceil_spec in * by (unfold rate_limiting_precision; lia).
  unfold UINT64_MAX in *. lia.
Qed.

Lemma add_exact (a a' : usage_accumulator) (units ordinal w : Z) :
  wf a -> is_u64 units -> is_u32 ordinal -> 0 < w < 2 ^ 32 ->
  add a units ordinal w = Ok a' ->
  wf a' /\ last_ordinal a <= ordinal /\ last_ordinal a' = ordinal /\
  value_ex a' = decayed (value_ex a) (last_ordinal a) ordinal w
                + ceil_div (units * rate_limiting_precision) w /\
  consumed a' = (if last_ordinal a =? ordinal then consumed a
                 else ceil_div (decayed (value_ex a) (last_ordinal a) ordinal w)
                        rate_limiting_precision) + units.
Proof.
  intros Ha Hu Ho Hw H. pose proof Ha as (Hl & Hv & Hc).
  unfold add in H. inv_ok. bool_to_prop.
  apply contrib_exact in Hr1 as [-> Hx]; [|done|lia].
  apply decay_to_exact in Hr3 as (Hle & Hlo & Hve & Hco); [|done..].
  pose proof (decayed_bounds (value_ex a) (last_ordinal a) ordinal w ltac:(lia) ltac:(lia)) as Hd.
  rewrite Hve in Hco. cbn [last_ordinal value_ex consumed] in *.
  assert (0 <= consumed r3 + units < 2 ^ 64) as Hcu.
  { rewrite Hco. destruct (last_ordinal a =? ordinal); unfold UINT64_MAX in *; [lia|].
    pose proof (average_small (decayed (value_ex a) (last_ordinal a) ordinal w) ltac:(lia)).
    pose proof max_raw_value_eq. lia. }
  rewrite Hve, !u64_small by (unfold UINT64_MAX in *; lia).
  unfold wf. cbn [last_ordinal value_ex consumed]. rewrite Hlo, <- Hco.
  unfold UINT64_MAX in *. split_and!; lia.
Qed.

(** Adding usage to the moving average is exact: whenever
    [exponential_moving_average_accumulator::add] returns, no machine
    addition, subtraction or product in it has wrapped around.  The average
    is first decayed linearly to the new ordinal (to zero after a whole
    window), then the ceiling of the units over the window is added, ordinals
    never go back and the fields stay machine integers. *)
Theorem usage_add_exact (a a' : usage_accumulator) (units ordinal w : Z) :
  wf a -> is_u64 units -> is_u32 ordinal -> 0 < w < 2 ^ 32 ->
  add a units ordinal w = Ok a' ->
  wf a' /\ last_ordinal a <= ordinal /\ last_ordinal a' = ordinal /\
  value_ex a' = decayed (value_ex a) (last_ordinal a) ordinal w
                + ceil_div (units * rate_limiting_precision) w /\
  consumed a' = (if last_ordinal a =? ordinal then consumed a
                 else ceil_div (decayed (value_ex a) (last_ordinal a) ordinal w)
                        rate_limiting_precision) + units.
Proof. apply add_exact. Qed.

Definition busy_usage : usage_accumulator := mk_usage 1000 8000000 12.

Lemma usage_add_exact_witness :
  value_ex (mk_usage 1100 7995428 18)
  = decayed 8000000 1000 1100 172800 + ceil_div (10 * rate_limiting_precision) 172800.
Proof.
  assert (add busy_usage 10 1100 172800 = Ok (mk_usage 1100 7995428 18)) as H by reflexivity.
  assert (wf busy_usage) as Hb by (unfold wf; cbn; lia).
  apply (usage_add_exact busy_usage (mk_usage 1100 7995428 18) 10 1100 172800 Hb
    ltac:(lia) ltac:(lia) ltac:(lia) H).
Defined.

(** The accumulator accepts every step of normal operation: if ordinals
    do not go back, the value times the window fits 64 bits and the new units
    fit, [add] returns (with the exact value of the previous theorem). *)
Theorem usage_add_total (a : usage_accumulator) (units ordinal w : Z) :
  wf a -> is_u32 ordinal -> 0 < w < 2 ^ 32 -> last_ordinal a <= ordinal ->
  0 <= units <= max_raw_value -> consumed a + units < 2 ^ 64 ->
  value_ex a * w < 2 ^ 64 ->
  value_ex a + ceil_div (units * rate_limiting_precision) w < 2 ^ 64 ->
  exists a', add a units ordinal w = Ok a'.
Proof.
  intros (Hl & Hv & Hc) Ho Hw Hle Hu Hcu Hvw Hsum. unfold add.
  pose proof max_raw_value_eq.
  replace (units <=? max_raw_value) with true by lia.
  replace (units <=? UINT64_MAX - consumed a) with true
    by (symmetry; apply Z.leb_le; unfold UINT64_MAX; lia).
  cbn [mbind result_bind EOS_ASSERT].
  rewrite u128_small by (unfold rate_limiting_precision; lia).
  rewrite integer_divide_ceil_spec by (unfold rate_limiting_precision; lia).
  pose proof (ceil_div_nonneg (units * rate_limiting_precision) w
    ltac:(unfold rate_limiting_precision; lia) ltac:(lia)) as Hnn.
  unfold downgrade_cast_u64.
  replace ((0 <=? _) && (_ <=? UINT64_MAX)) with true
    by (symmetry; apply andb_true_iff; rewrite !Z.leb_le; unfold UINT64_MAX; lia).
  cbn [mbind result_bind EOS_ASSERT mret result_ret].
  replace (_ <=? UINT64_MAX - value_ex a) with true
    by (symmetry; apply Z.leb_le; unfold UINT64_MAX; lia).
  cbn [mbind result_bind EOS_ASSERT]. unfold decay_to.
  destruct (last_ordinal a =? ordinal) eqn:E; [by eexists|]. bool_to_prop.
  replace (last_ordinal a <? ordinal) with true by lia.
  cbn [mbind result_bind EOS_ASSERT].
  destruct (ordinal <? u64 (last_ordinal a + w)) eqn:E2; [|by eexists].
  rewrite u64_small in E2 by lia. bool_to_prop.
  unfold ratio_mul. cbn [numerator denominator].
  rewrite u32_small, u64_small by lia.
  replace ((_ =? 0) || _) with true; [by eexists|]. symmetry.
  apply orb_true_iff. right. apply Z.leb_le, Z.div_le_lower_bound; [lia|].
  unfold UINT64_MAX. nia.
Qed.

Lemma usage_add_total_witness : exists a', add busy_usage 10 1100 172800 = Ok a'.
Proof.
  apply (usage_add_total busy_usage 10 1100 172800);
    first [unfold wf; cbn; lia | vm_compute; repeat split; discriminate].
Defined.

Lemma value_ex_at_exact a ordinal w : decay_wf a -> is_u32 ordinal -> 0 < w < 2 ^ 32 ->
  value_ex_at a ordinal w =
    Ok (decayed (decay_value_ex a) (decay_last_ordinal a) ordinal w).
Proof.
  destruct a as [l v]. intros [Hl Hv] Ho Hw. unfold value_ex_at, decayed.
  cbn [decay_last_ordinal decay_value_ex] in *. rewrite (u64_small (l + w)) by lia.
  destruct (l <? ordinal) eqn:E; [|by replace (ordinal <=? l) with true by lia].
  replace (ordinal <=? l) with false by lia.
  destruct (ordinal <? l + w) eqn:E2; [|done]. bool_to_prop.
  assert (0 <= v * (w - (ordinal - l)) / w <= v).
  { split; [apply Z.div_pos; nia | apply Z.div_le_upper_bound; nia]. }
  unfold ratio_mul. cbn [numerator denominator]. rewrite u32_small, u128_small by lia.
  replace ((_ =? 0) || _) with true.
  2: { symmetry. apply orb_true_iff. right. apply Z.leb_le, Z.div_le_lower_bound; [lia|].
       unfold UINT128_MAX. nia. }
  cbn [mbind result_bind EOS_ASSERT mret result_ret].
  rewrite (Z.mod_small (v * _)) by (unfold UINT128_MAX; nia).
  unfold downgrade_cast_u64. by replace ((0 <=? _) && _) with true by (unfold UINT64_MAX; lia).
Qed.

(** The saturating accumulator used for subjective billing never throws
    on units up to [max_raw_value]: the value decays linearly (in exact
    128-bit arithmetic) to the later of the two ordinals, the units are added
    and the sum is capped at the largest 64-bit value. *)
Theorem decay_add_saturates (a : decay_accumulator) (units ordinal w : Z) :
  decay_wf a -> is_u32 ordinal -> 0 < w < 2 ^ 32 -> 0 <= units <= max_raw_value ->
  decay_add a units ordinal w = Ok (mk_decay
    (Z.max (decay_last_ordinal a) ordinal)
    (Z.min (units * rate_limiting_precision
            + decayed (decay_value_ex a) (decay_last_ordinal a) ordinal w) UINT64_MAX)).
Proof.
  intros Ha Ho Hw Hu. pose proof max_raw_value_eq.
  pose proof (decayed_bounds (decay_value_ex a) (decay_last_ordinal a) ordinal w
    ltac:(destruct Ha; lia) ltac:(lia)) as Hd.
  unfold decay_add. replace (units <=? max_raw_value) with true by lia.
  cbn [mbind result_bind EOS_ASSERT]. rewrite value_ex_at_exact by done.
  set (d := decayed _ _ _ _) in *.
  assert ((if decay_last_ordinal a <? ordinal
           then v ← Ok d; mret (mk_decay ordinal v) else mret a)
          = Ok (mk_decay (Z.max (decay_last_ordinal a) ordinal) d)) as ->.
  { destruct (decay_last_ordinal a <? ordinal) eqn:E; bool_to_prop.
    - cbn. do 2 f_equal. lia.
    - unfold mret, result_ret. destruct a as [l v]. cbn in *. subst d. unfold decayed.
      replace (ordinal <=? l) with true by lia. do 2 f_equal. lia. }
  destruct Ha as [_ Hv]. cbn [mbind result_bind decay_last_ordinal decay_value_ex].
  rewrite !u128_small by (rewrite ?u128_small; unfold rate_limiting_precision; lia).
  unfold downgrade_cast_u64.
  by replace ((0 <=? _) && _) with true
    by (unfold UINT64_MAX, rate_limiting_precision; lia).
Qed.

Lemma decay_add_saturates_witness :
  decay_add (mk_decay 1000 (2 ^ 64 - 1)) 18000000000000 1001 10
  = Ok (mk_decay 1001 (2 ^ 64 - 1)).
Proof.
  apply (decay_add_saturates (mk_decay 1000 (2 ^ 64 - 1)) 18000000000000 1001 10);
    [unfold decay_wf; cbn; lia | lia | lia | vm_compute; split; discriminate].
Defined.

End Accumulator.
