(* ===== verification/ResourceLimits.v ===== *)
(** * Resource limits: libraries/chain/resource_limits.cpp

    Module [ResourceLimits] models [resource_limits_manager] over its four
    chainbase tables: the limits of the accounts (a row per account and, while
    a change is pending, a second row with [pending = true]), the usage of the
    accounts, the configuration and the block state.  A table is a finite map
    keyed by its unique index [by_owner]; [_db.get] throws when the row does
    not exist and [_db.create] when it does.  The deep-mind logger and the
    snapshot sections are left out.

    A thrown exception carries no state: the caller of the manager runs in a
    chainbase undo session, which discards the writes made before the throw. *)

From S2P Require Import Prelude Names Accumulators.
Import Accumulator.

Module ResourceLimits.

Abbreviation account_name := Name.name.

(** [struct elastic_limit_parameters] *)
Record elastic_limit_parameters := mk_elastic {
  target : Z;
  max : Z;
  periods : Z;
  max_multiplier : Z;
  contract_rate : ratio;
  expand_rate : ratio;
}.

#[global] Instance elastic_eq_dec : EqDecision elastic_limit_parameters.
Proof. solve_decision. Defined.

Record resource_limits_object := mk_limits {
  net_weight : Z;
  cpu_weight : Z;
  ram_bytes : Z;
}.

#[global] Instance resource_limits_object_eq_dec : EqDecision resource_limits_object.
Proof. solve_decision. Defined.

Definition default_limits : resource_limits_object := mk_limits (-1) (-1) (-1).

Record resource_usage_object := mk_usage_object {
  net_usage : usage_accumulator;
  cpu_usage : usage_accumulator;
  ram_usage : Z;
}.

Definition default_usage : resource_usage_object := mk_usage_object usage_zero usage_zero 0.

Record resource_limits_config_object := mk_config {
  cpu_limit_parameters : elastic_limit_parameters;
  net_limit_parameters : elastic_limit_parameters;
  account_cpu_usage_average_window : Z;
  account_net_usage_average_window : Z;
}.

Record resource_limits_state_object := mk_state {
  average_block_net_usage : usage_accumulator;
  average_block_cpu_usage : usage_accumulator;
  pending_net_usage : Z;
  pending_cpu_usage : Z;
  total_net_weight : Z;
  total_cpu_weight : Z;
  total_ram_bytes : Z;
  virtual_net_limit : Z;
  virtual_cpu_limit : Z;
}.

(** The tables. *)
Record manager := mk_manager {
  limits : gmap (bool * account_name) resource_limits_object;
  usage : gmap account_name resource_usage_object;
  config : resource_limits_config_object;
  state : resource_limits_state_object;
}.

Definition set_limits (m : manager) l := mk_manager l (usage m) (config m) (state m).
Definition set_usage (m : manager) u := mk_manager (limits m) u (config m) (state m).
Definition set_config (m : manager) c := mk_manager (limits m) (usage m) c (state m).
Definition set_state (m : manager) s := mk_manager (limits m) (usage m) (config m) s.

(** [_db.get]: throws on an unknown key. *)
Definition get_row {K V} `{Countable K} (t : gmap K V) (k : K) : result V :=
  match t !! k with Some v => Ok v | None => Throw not_found_exception end.

(** [_db.create]: throws when the unique key is taken. *)
Definition create_row {K V} `{Countable K} (t : gmap K V) (k : K) (v : V)
  : result (gmap K V) :=
  match t !! k with Some _ => Throw uniqueness_violation | None => Ok (<[k := v]> t) end.

(** ** Elastic limits *)

Definition update_elastic_limit (current_limit average_usage : Z)
    (params : elastic_limit_parameters) : result Z :=
  r ← (if target params <? average_usage
       then ratio_mul UINT64_MAX current_limit (contract_rate params)
       else ratio_mul UINT64_MAX current_limit (expand_rate params));
  mret (Z.min (Z.max r (max params)) (u64 (max params * max_multiplier params))).

Definition validate (p : elastic_limit_parameters) : result unit :=
  EOS_ASSERT (0 <? periods p) resource_limit_exception;;
  EOS_ASSERT (0 <? denominator (contract_rate p)) resource_limit_exception;;
  EOS_ASSERT (0 <? denominator (expand_rate p)) resource_limit_exception.

Definition update_virtual_cpu_limit (s : resource_limits_state_object)
    (cfg : resource_limits_config_object) : result resource_limits_state_object :=
  v ← update_elastic_limit (virtual_cpu_limit s) (average (average_block_cpu_usage s))
        (cpu_limit_parameters cfg);
  mret (mk_state (average_block_net_usage s) (average_block_cpu_usage s)
    (pending_net_usage s) (pending_cpu_usage s) (total_net_weight s)
    (total_cpu_weight s) (total_ram_bytes s) (virtual_net_limit s) v).

Definition update_virtual_net_limit (s : resource_limits_state_object)
    (cfg : resource_limits_config_object) : result resource_limits_state_object :=
  v ← update_elastic_limit (virtual_net_limit s) (average (average_block_net_usage s))
        (net_limit_parameters cfg);
  mret (mk_state (average_block_net_usage s) (average_block_cpu_usage s)
    (pending_net_usage s) (pending_cpu_usage s) (total_net_weight s)
    (total_cpu_weight s) (total_ram_bytes s) v (virtual_cpu_limit s)).

(** ** Initialisation *)

(** [EOS_PERCENT] with [percent_100 = 10000] *)
Definition EOS_PERCENT (value percentage : Z) : Z := u64 (value * percentage) / 10000.

(** The member initialisers of [resource_limits_config_object]. *)
Definition default_config : resource_limits_config_object :=
  mk_config
    (mk_elastic (EOS_PERCENT 200000 (10 * 100)) 200000 (60 * 1000 / 500) 1000
       (mk_ratio 99 100) (mk_ratio 1000 999))
    (mk_elastic (EOS_PERCENT (1024 * 1024) (10 * 100)) (1024 * 1024) (60 * 1000 / 500) 1000
       (mk_ratio 99 100) (mk_ratio 1000 999))
    (24 * 60 * 60 * 1000 / 500) (24 * 60 * 60 * 1000 / 500).

Definition initialize_database : manager :=
  let c := default_config in
  mk_manager ∅ ∅ c
    (mk_state usage_zero usage_zero 0 0 0 0 0
       (max (net_limit_parameters c)) (max (cpu_limit_parameters c))).

Definition initialize_account (m : manager) (account : account_name) : result manager :=
  l ← create_row (limits m) (false, account) default_limits;
  u ← create_row (usage m) account default_usage;
  mret (set_usage (set_limits m l) u).

Definition set_block_parameters (m : manager) (cpu net : elastic_limit_parameters)
  : result manager :=
  validate cpu;;
  validate net;;
  if bool_decide (cpu_limit_parameters (config m) = cpu) &&
     bool_decide (net_limit_parameters (config m) = net)
  then mret m
  else mret (set_config m (mk_config cpu net
         (account_cpu_usage_average_window (config m))
         (account_net_usage_average_window (config m)))).

(** ** Account limits *)

Definition get_account_limits (m : manager) (account : account_name)
  : result resource_limits_object :=
  match limits m !! (true, account) with
  | Some pending_buo => mret pending_buo
  | None => get_row (limits m) (false, account)
  end.

(** The returned flag says that the new RAM limit is more restrictive. *)
Definition set_account_limits (m : manager) (account : account_name)
    (ram_bytes' net_weight' cpu_weight' : Z) : result (manager * bool) :=
  old ← (match limits m !! (true, account) with
         | Some pending_limits => mret pending_limits
         | None => get_row (limits m) (false, account)
         end);
  let decreased_limit :=
    if 0 <=? ram_bytes' then (ram_bytes old <? 0) || (ram_bytes' <? ram_bytes old)
    else false in
  mret (set_limits m
          (<[(true, account) := mk_limits net_weight' cpu_weight' ram_bytes']> (limits m)),
        decreased_limit).

Definition is_unlimited_cpu (m : manager) (account : account_name) : bool :=
  match limits m !! (false, account) with
  | Some buo => cpu_weight buo =? -1
  | None => false
  end.

(** ** Usage *)

(** The body of the loop of [update_account_usage]. *)
Definition touch_account (time_slot : Z) (m : manager) (a : account_name) : result manager :=
  bu ← get_row (usage m) a;
  net ← add (net_usage bu) 0 time_slot (account_net_usage_average_window (config m));
  cpu ← add (cpu_usage bu) 0 time_slot (account_cpu_usage_average_window (config m));
  mret (set_usage m (<[a := mk_usage_object net cpu (ram_usage bu)]> (usage m))).

Definition update_account_usage (m : manager) (accounts : list account_name)
    (time_slot : Z) : result manager :=
  foldM (touch_account time_slot) m accounts.

(** [capacity * user_weight / all_user_weight] in 128-bit arithmetic. *)
Definition max_use_in_window (capacity_in_window user_weight all_user_weight : Z) : Z :=
  u128 (capacity_in_window * user_weight) / all_user_weight.

(** One account of [add_transaction_usage]. *)
Definition bill_account (cpu net time_slot : Z) (m : manager) (a : account_name)
  : result manager :=
  let s := state m in
  let c := config m in
  bu ← get_row (usage m) a;
  lim ← get_account_limits m a;
  net_acc ← add (net_usage bu) net time_slot (account_net_usage_average_window c);
  cpu_acc ← add (cpu_usage bu) cpu time_slot (account_cpu_usage_average_window c);
  let m := set_usage m (<[a := mk_usage_object net_acc cpu_acc (ram_usage bu)]> (usage m)) in
  (if (0 <=? cpu_weight lim) && (0 <? total_cpu_weight s) then
     let window_size := account_cpu_usage_average_window c in
     let capacity := u128 (virtual_cpu_limit s * window_size) in
     let cpu_used_in_window :=
       u128 (value_ex cpu_acc * window_size) / rate_limiting_precision in
     EOS_ASSERT (cpu_used_in_window <=?
                 max_use_in_window capacity (cpu_weight lim) (total_cpu_weight s))
       tx_cpu_usage_exceeded
   else mret tt);;
  (if (0 <=? net_weight lim) && (0 <? total_net_weight s) then
     let window_size := account_net_usage_average_window c in
     let capacity := u128 (virtual_net_limit s * window_size) in
     let net_used_in_window :=
       u128 (value_ex net_acc * window_size) / rate_limiting_precision in
     EOS_ASSERT (net_used_in_window <=?
                 max_use_in_window capacity (net_weight lim) (total_net_weight s))
       tx_net_usage_exceeded
   else mret tt);;
  mret m.

Definition add_pending (s : resource_limits_state_object) (cpu net : Z)
  : resource_limits_state_object :=
  mk_state (average_block_net_usage s) (average_block_cpu_usage s)
    (u64 (pending_net_usage s + net)) (u64 (pending_cpu_usage s + cpu))
    (total_net_weight s) (total_cpu_weight s) (total_ram_bytes s)
    (virtual_net_limit s) (virtual_cpu_limit s).

Definition add_transaction_usage (m : manager) (accounts : list account_name)
    (cpu net time_slot : Z) : result manager :=
  m ← foldM (bill_account cpu net time_slot) m accounts;
  let s := add_pending (state m) cpu net in
  EOS_ASSERT (pending_cpu_usage s <=? max (cpu_limit_parameters (config m)))
    block_resource_exhausted;;
  EOS_ASSERT (pending_net_usage s <=? max (net_limit_parameters (config m)))
    block_resource_exhausted;;
  mret (set_state m s).

(** [ram_delta] is a signed 64-bit integer; the comparisons convert to
    unsigned as the casts of the code do. *)
Definition add_pending_ram_usage (m : manager) (account : account_name) (ram_delta : Z)
  : result manager :=
  if ram_delta =? 0 then mret m
  else
    u ← get_row (usage m) account;
    EOS_ASSERT ((ram_delta <=? 0) || (u64 ram_delta <=? UINT64_MAX - ram_usage u))
      transaction_exception;;
    EOS_ASSERT ((0 <=? ram_delta) || (u64 (- ram_delta) <=? ram_usage u))
      transaction_exception;;
    mret (set_usage m (<[account := mk_usage_object (net_usage u) (cpu_usage u)
                                     (u64 (ram_usage u + ram_delta))]> (usage m))).

Definition verify_account_ram_usage (m : manager) (account : account_name) : result unit :=
  lim ← get_account_limits m account;
  u ← get_row (usage m) account;
  if 0 <=? ram_bytes lim then
    EOS_ASSERT (ram_usage u <=? u64 (ram_bytes lim)) ram_usage_exceeded
  else mret tt.

Definition get_account_ram_usage (m : manager) (account : account_name) : result Z :=
  u ← get_row (usage m) account; mret (s64 (ram_usage u)).

(** ** Applying the pending limits *)

(** The local lambda [update_state_and_value]: the new total; the value
    becomes [pending_value]. *)
Definition update_state_and_value (total value pending_value : Z) : result Z :=
  total ← (if 0 <? value then
             EOS_ASSERT (u64 value <=? total) rate_limiting_state_inconsistent;;
             mret (u64 (total - value))
           else mret total);
  if 0 <? pending_value then
    EOS_ASSERT (u64 pending_value <=? UINT64_MAX - total) rate_limiting_state_inconsistent;;
    mret (u64 (total + pending_value))
  else mret total.

Definition account_le (p q : account_name * resource_limits_object) : Prop :=
  Name.value p.1 <= Name.value q.1.
#[global] Instance account_le_dec p q : Decision (account_le p q).
Proof. unfold account_le. apply _. Defined.

(** The rows with [pending = true], in the order of the index [by_owner]. *)
Definition pending_rows (l : gmap (bool * account_name) resource_limits_object)
  : list (account_name * resource_limits_object) :=
  merge_sort account_le
    (omap (fun '((b, a), o) => if (b : bool) then Some (a, o) else None) (map_to_list l)).

(** [by_owner_index.lower_bound( make_tuple(true) )] *)
Definition first_pending (l : gmap (bool * account_name) resource_limits_object)
  : option (account_name * resource_limits_object) := head (pending_rows l).

(** One turn of the [while] loop on the pending row of [owner]. *)
Definition apply_pending (m : manager) (owner : account_name) (p : resource_limits_object)
  : result manager :=
  actual ← get_row (limits m) (false, owner);
  let s := state m in
  ram ← update_state_and_value (total_ram_bytes s) (ram_bytes actual) (ram_bytes p);
  cpu ← update_state_and_value (total_cpu_weight s) (cpu_weight actual) (cpu_weight p);
  net ← update_state_and_value (total_net_weight s) (net_weight actual) (net_weight p);
  let s := mk_state (average_block_net_usage s) (average_block_cpu_usage s)
    (pending_net_usage s) (pending_cpu_usage s) net cpu ram
    (virtual_net_limit s) (virtual_cpu_limit s) in
  mret (set_state (set_limits m (delete (true, owner) (<[(false, owner) := p]> (limits m)))) s).

Fixpoint apply_pending_loop (fuel : nat) (m : manager) : result manager :=
  match fuel with
  | O => mret m
  | S fuel =>
      match first_pending (limits m) with
      | None => mret m
      | Some (owner, p) => m ← apply_pending m owner p; apply_pending_loop fuel m
      end
  end.

(** Every turn removes a pending row, so the number of rows is enough fuel. *)
Definition process_account_limit_updates (m : manager) : result manager :=
  apply_pending_loop (size (limits m)) m.

Definition process_block_usage (m : manager) (block_num : Z) : result manager :=
  let c := config m in
  let s := state m in
  cpu ← add (average_block_cpu_usage s) (pending_cpu_usage s) block_num
          (periods (cpu_limit_parameters c));
  s ← update_virtual_cpu_limit
        (mk_state (average_block_net_usage s) cpu (pending_net_usage s)
           (pending_cpu_usage s) (total_net_weight s) (total_cpu_weight s)
           (total_ram_bytes s) (virtual_net_limit s) (virtual_cpu_limit s)) c;
  net ← add (average_block_net_usage s) (pending_net_usage s) block_num
          (periods (net_limit_parameters c));
  s ← update_virtual_net_limit
        (mk_state net (average_block_cpu_usage s) (pending_net_usage s) 0
           (total_net_weight s) (total_cpu_weight s) (total_ram_bytes s)
           (virtual_net_limit s) (virtual_cpu_limit s)) c;
  mret (set_state m
    (mk_state (average_block_net_usage s) (average_block_cpu_usage s) 0
       (pending_cpu_usage s) (total_net_weight s) (total_cpu_weight s)
       (total_ram_bytes s) (virtual_net_limit s) (virtual_cpu_limit s))).

(** ** Queries *)

Definition get_total_cpu_weight (m : manager) : Z := total_cpu_weight (state m).
Definition get_total_net_weight (m : manager) : Z := total_net_weight (state m).
Definition get_virtual_block_cpu_limit (m : manager) : Z := virtual_cpu_limit (state m).
Definition get_virtual_block_net_limit (m : manager) : Z := virtual_net_limit (state m).
Definition get_block_cpu_limit (m : manager) : Z :=
  u64 (max (cpu_limit_parameters (config m)) - pending_cpu_usage (state m)).
Definition get_block_net_limit (m : manager) : Z :=
  u64 (max (net_limit_parameters (config m)) - pending_net_usage (state m)).

Record account_resource_limit := mk_arl {
  used : Z;
  available : Z;
  arl_max : Z;
  last_usage_update_time : Z;
  current_used : Z;
}.

(** [config::maximum_elastic_resource_multiplier] *)
Definition maximum_elastic_resource_multiplier : Z := 1000.

(** [get_account_cpu_limit_ex] and [get_account_net_limit_ex] run the same
    computation on the CPU and on the NET columns. *)
Definition account_limit_ex (acc : usage_accumulator) (weight total virtual_limit max
    window_size greylist_limit : Z) (current_time : option Z)
  : result (account_resource_limit * bool) :=
  if (weight <? 0) || (total =? 0) then
    mret (mk_arl (-1) (-1) (-1) (last_ordinal acc) (-1), false)
  else
    let greylisted_limit := u64 (max * greylist_limit) in
    let greylisted :=
      (greylist_limit <? maximum_elastic_resource_multiplier) &&
      (greylisted_limit <? virtual_limit) in
    let capacity_in_window :=
      u128 (window_size * (if greylisted then greylisted_limit else virtual_limit)) in
    let max_user_use_in_window := max_use_in_window capacity_in_window weight total in
    let used_in_window :=
      integer_divide_ceil (u128 (value_ex acc * window_size)) rate_limiting_precision in
    available ← (if max_user_use_in_window <=? used_in_window then mret 0
                 else downgrade_cast_s64 (max_user_use_in_window - used_in_window));
    used ← downgrade_cast_s64 used_in_window;
    arl_max ← downgrade_cast_s64 max_user_use_in_window;
    current_used ←
      (match current_time with
       | Some slot =>
           if last_ordinal acc <? slot then
             history_usage ← add acc 0 slot (u32 window_size);
             downgrade_cast_s64
               (integer_divide_ceil (u128 (value_ex history_usage * window_size))
                  rate_limiting_precision)
           else mret used
       | None => mret used
       end);
    mret (mk_arl used available arl_max (last_ordinal acc) current_used, greylisted).

Definition get_account_cpu_limit_ex (m : manager) (name : account_name)
    (greylist_limit : Z) (current_time : option Z) : result (account_resource_limit * bool) :=
  u ← get_row (usage m) name;
  lim ← get_account_limits m name;
  account_limit_ex (cpu_usage u) (cpu_weight lim) (total_cpu_weight (state m))
    (virtual_cpu_limit (state m)) (max (cpu_limit_parameters (config m)))
    (account_cpu_usage_average_window (config m)) greylist_limit current_time.

Definition get_account_net_limit_ex (m : manager) (name : account_name)
    (greylist_limit : Z) (current_time : option Z) : result (account_resource_limit * bool) :=
  u ← get_row (usage m) name;
  lim ← get_account_limits m name;
  account_limit_ex (net_usage u) (net_weight lim) (total_net_weight (state m))
    (virtual_net_limit (state m)) (max (net_limit_parameters (config m)))
    (account_net_usage_average_window (config m)) greylist_limit current_time.

Definition get_account_cpu_limit (m : manager) (name : account_name) (greylist_limit : Z)
  : result (Z * bool) :=
  '(arl, greylisted) ← get_account_cpu_limit_ex m name greylist_limit None;
  mret (available arl, greylisted).

Definition get_account_net_limit (m : manager) (name : account_name) (greylist_limit : Z)
  : result (Z * bool) :=
  '(arl, greylisted) ← get_account_net_limit_ex m name greylist_limit None;
  mret (available arl, greylisted).

(** * Correctness *)

(** ** The totals of the block state *)

(** The sums of the positive limits of the rows in effect and of the rows
    waiting to be applied. *)
Definition actual_total (f : resource_limits_object -> Z) (m : manager) : Z :=
  sum_map (fun k o => if k.1 : bool then 0 else Z.max 0 (f o)) (limits m).
Definition pending_total (f : resource_limits_object -> Z) (m : manager) : Z :=
  sum_map (fun k o => if k.1 : bool then Z.max 0 (f o) else 0) (limits m).

(** The block state holds the sum of the limits in effect, and only existing
    accounts have pending limits. *)
Record totals_ok (m : manager) : Prop := {
  totals_ram : total_ram_bytes (state m) = actual_total ram_bytes m;
  totals_cpu : total_cpu_weight (state m) = actual_total cpu_weight m;
  totals_net : total_net_weight (state m) = actual_total net_weight m;
  totals_rows : forall a, is_Some (limits m !! (true, a)) -> is_Some (limits m !! (false, a));
  totals_width : forall k o, limits m !! k = Some o ->
    is_s64 (ram_bytes o) /\ is_s64 (cpu_weight o) /\ is_s64 (net_weight o);
  totals_fit : actual_total ram_bytes m < 2 ^ 64 /\ actual_total cpu_weight m < 2 ^ 64 /\
    actual_total net_weight m < 2 ^ 64;
}.

(** The limits in effect and those pending fit 64 bits together. *)
Definition headroom (f : resource_limits_object -> Z) (m : manager) : Prop :=
  actual_total f m + pending_total f m < 2 ^ 64.

Lemma actual_total_nonneg f m : 0 <= actual_total f m.
Proof. apply sum_map_nonneg. intros [[] a] o _; cbn; lia. Qed.
Lemma pending_total_nonneg f m : 0 <= pending_total f m.
Proof. apply sum_map_nonneg. intros [[] a] o _; cbn; lia. Qed.

Lemma first_pending_Some l a o : first_pending l = Some (a, o) -> l !! (true, a) = Some o.
Proof.
  unfold first_pending. intros H. apply head_Some in H as [t Ht].
  assert ((a, o) ∈ pending_rows l) as Hin by (rewrite Ht; left).
  unfold pending_rows in Hin. rewrite merge_sort_Permutation in Hin.
  apply list_elem_of_omap in Hin as ([[[] a'] o'] & Hin & [= -> ->]).
  by apply elem_of_map_to_list in Hin.
Qed.

Lemma first_pending_None l a : first_pending l = None -> l !! (true, a) = None.
Proof.
  unfold first_pending. intros H. apply head_None in H.
  destruct (l !! (true, a)) as [o|] eqn:E; [|done]. exfalso.
  assert ((a, o) ∈ pending_rows l) as Hin; [|rewrite H in Hin; by apply not_elem_of_nil in Hin].
  unfold pending_rows. rewrite merge_sort_Permutation. apply list_elem_of_omap.
  exists ((true, a), o). split; [by apply elem_of_map_to_list | done].
Qed.

Lemma update_state_and_value_exact total value pending :
  is_s64 value -> is_s64 pending -> Z.max 0 value <= total -> total < 2 ^ 64 ->
  total - Z.max 0 value + Z.max 0 pending < 2 ^ 64 ->
  update_state_and_value total value pending
  = Ok (total - Z.max 0 value + Z.max 0 pending).
Proof.
  intros Hv Hp Ht Ht2 Hs. unfold update_state_and_value.
  assert ((if 0 <? value then
             EOS_ASSERT (u64 value <=? total) rate_limiting_state_inconsistent;;
             mret (u64 (total - value))
           else mret total) = Ok (total - Z.max 0 value)) as ->.
  { destruct (0 <? value) eqn:E; bool_to_prop.
    - rewrite !u64_small by lia. replace (value <=? total) with true by lia. cbn. f_equal. lia.
    - unfold mret, result_ret. f_equal. lia. }
  cbn [mbind result_bind]. destruct (0 <? pending) eqn:E; bool_to_prop.
  - rewrite (u64_small pending) by lia.
    replace (pending <=? _) with true by (unfold UINT64_MAX; lia).
    cbn. rewrite u64_small by lia. f_equal. lia.
  - unfold mret, result_ret. f_equal. lia.
Qed.

(** ** One pending row *)

Section apply_pending.
Context (m : manager) (a : account_name) (p old : resource_limits_object).
Hypothesis Hp : limits m !! (true, a) = Some p.
Hypothesis Ho : limits m !! (false, a) = Some old.

Lemma applied_actual_total f s :
  actual_total f (set_state (set_limits m (delete (true, a) (<[(false, a) := p]> (limits m)))) s)
  = actual_total f m - Z.max 0 (f old) + Z.max 0 (f p).
Proof.
  unfold actual_total. cbn [limits set_limits set_state].
  pose proof (sum_map_delete (fun k o => if k.1 : bool then 0 else Z.max 0 (f o))
    (<[(false, a) := p]> (limits m)) (true, a) p) as H.
  rewrite lookup_insert_ne in H by done. specialize (H Hp). cbn in H.
  rewrite (sum_map_insert_old _ _ _ _ _ Ho) in H. cbn in H. lia.
Qed.

Lemma applied_pending_total f s :
  pending_total f (set_state (set_limits m (delete (true, a) (<[(false, a) := p]> (limits m)))) s)
  = pending_total f m - Z.max 0 (f p).
Proof.
  unfold pending_total. cbn [limits set_limits set_state].
  pose proof (sum_map_delete (fun k o => if k.1 : bool then Z.max 0 (f o) else 0)
    (<[(false, a) := p]> (limits m)) (true, a) p) as H.
  rewrite lookup_insert_ne in H by done. specialize (H Hp). cbn in H.
  rewrite (sum_map_insert_old _ _ _ _ _ Ho) in H. cbn in H. lia.
Qed.

Lemma old_le_total f : Z.max 0 (f old) <= actual_total f m.
Proof.
  unfold actual_total. rewrite (sum_map_delete _ _ _ _ Ho). cbn.
  assert (0 <= sum_map (fun k o => if k.1 : bool then 0 else Z.max 0 (f o))
                 (delete (false, a) (limits m))); [|lia].
  apply sum_map_nonneg. intros [[] ?] ? _; cbn; lia.
Qed.

Lemma new_le_total f : Z.max 0 (f p) <= pending_total f m.
Proof.
  unfold pending_total. rewrite (sum_map_delete _ _ _ _ Hp). cbn.
  assert (0 <= sum_map (fun k o => if k.1 : bool then Z.max 0 (f o) else 0)
                 (delete (true, a) (limits m))); [|lia].
  apply sum_map_nonneg. intros [[] ?] ? _; cbn; lia.
Qed.

Lemma apply_pending_ok : totals_ok m ->
  headroom ram_bytes m -> headroom cpu_weight m -> headroom net_weight m ->
  exists m', apply_pending m a p = Ok m' /\ totals_ok m' /\
    headroom ram_bytes m' /\ headroom cpu_weight m' /\ headroom net_weight m' /\
    limits m' = delete (true, a) (<[(false, a) := p]> (limits m)) /\
    usage m' = usage m /\ config m' = config m.
Proof.
  intros [Hr Hc Hn Hrow Hw Hf] Hhr Hhc Hhn. unfold headroom in *.
  destruct (Hw _ _ Hp) as (? & ? & ?), (Hw _ _ Ho) as (? & ? & ?).
  pose proof (old_le_total ram_bytes). pose proof (new_le_total ram_bytes).
  pose proof (old_le_total cpu_weight). pose proof (new_le_total cpu_weight).
  pose proof (old_le_total net_weight). pose proof (new_le_total net_weight).
  pose proof (pending_total_nonneg ram_bytes m).
  pose proof (pending_total_nonneg cpu_weight m).
  pose proof (pending_total_nonneg net_weight m).
  unfold apply_pending, get_row. rewrite Ho, Hr, Hc, Hn. cbn [mbind result_bind].
  rewrite !update_state_and_value_exact by lia. cbn [mbind result_bind].
  eexists. split; [reflexivity|].
  split_and!; try done; try (rewrite applied_actual_total, applied_pending_total; lia).
  split; cbn [state set_state total_ram_bytes total_cpu_weight total_net_weight];
    rewrite ?applied_actual_total; [done..| | |lia]; cbn [limits set_state set_limits].
  - intros b Hb. destruct (decide (b = a)) as [->|Hne].
    { rewrite lookup_delete_eq in Hb. by destruct Hb. }
    rewrite lookup_delete_ne, lookup_insert_ne in Hb |- * by congruence. by apply Hrow.
  - intros k o Hk. apply lookup_delete_Some in Hk as [_ Hk].
    apply lookup_insert_Some in Hk as [[_ <-]|[_ Hk]]; [split_and!; lia | by eapply Hw].
Qed.

End apply_pending.

Lemma get_account_limits_row m a o : get_account_limits m a = Ok o <->
  (limits m !! (true, a) = Some o \/
   limits m !! (true, a) = None /\ limits m !! (false, a) = Some o).
Proof.
  unfold get_account_limits, get_row, mret, result_ret.
  destruct (limits m !! (true, a)), (limits m !! (false, a)); split;
    intros H; repeat match goal with H : _ \/ _ |- _ => destruct H | H : _ /\ _ |- _ => destruct H end;
    simplify_eq; auto.
Qed.

(** Applying a pending row does not change the limits an account sees. *)
Lemma effective_limits_stable m m' a p old b : limits m !! (true, a) = Some p ->
  limits m !! (false, a) = Some old ->
  limits m' = delete (true, a) (<[(false, a) := p]> (limits m)) ->
  get_account_limits m' b = get_account_limits m b.
Proof.
  intros Hp Ho Hl. unfold get_account_limits, get_row. rewrite Hl.
  destruct (decide (b = a)) as [->|Hne].
  - by rewrite lookup_delete_eq, lookup_delete_ne, lookup_insert_eq, Hp.
  - by rewrite !lookup_delete_ne, !lookup_insert_ne by congruence.
Qed.

Lemma apply_pending_loop_ok fuel m : (size (limits m) <= fuel)%nat -> totals_ok m ->
  headroom ram_bytes m -> headroom cpu_weight m -> headroom net_weight m ->
  exists m', apply_pending_loop fuel m = Ok m' /\ totals_ok m' /\
    (forall a, limits m' !! (true, a) = None) /\
    (forall a, get_account_limits m' a = get_account_limits m a) /\
    usage m' = usage m /\ config m' = config m.
Proof.
  revert m. induction fuel as [|fuel IH]; intros m Hsz Hm Hr Hc Hn; cbn [apply_pending_loop].
  { exists m. split_and!; try done. intros a.
    assert (limits m = ∅) as -> by (apply map_size_empty_inv; lia). apply lookup_empty. }
  destruct (first_pending (limits m)) as [[a p]|] eqn:E.
  2: { exists m. split_and!; try done. intros a. by apply first_pending_None. }
  apply first_pending_Some in E.
  destruct (totals_rows _ Hm a) as [old Ho]; [by eexists|].
  destruct (apply_pending_ok m a p old E Ho Hm Hr Hc Hn)
    as (m1 & -> & Hm1 & Hr1 & Hc1 & Hn1 & Hl1 & Hu1 & Hg1).
  cbn [mbind result_bind].
  destruct (IH m1) as (m' & -> & Hm' & Hpend & Heff & Hu & Hg); try done.
  { rewrite Hl1, map_size_delete, lookup_insert_ne, E by done. cbn.
    rewrite map_size_insert, Ho. cbn. lia. }
  exists m'. split_and!; try done; [|congruence..].
  intros b. rewrite Heff. by eapply effective_limits_stable.
Qed.

(** ** The invariant of the tables *)

Definition params_ok (p : elastic_limit_parameters) : Prop :=
  is_u64 (target p) /\ is_u64 (max p) /\ 0 < periods p < 2 ^ 32 /\ is_u32 (max_multiplier p) /\
  is_u64 (numerator (contract_rate p)) /\ 0 < denominator (contract_rate p) < 2 ^ 64 /\
  is_u64 (numerator (expand_rate p)) /\ 0 < denominator (expand_rate p) < 2 ^ 64.

(** The arguments of [set_block_parameters] as machine integers, before
    [validate] has looked at them. *)
Definition params_width (p : elastic_limit_parameters) : Prop :=
  is_u64 (target p) /\ is_u64 (max p) /\ is_u32 (periods p) /\ is_u32 (max_multiplier p) /\
  is_u64 (numerator (contract_rate p)) /\ is_u64 (denominator (contract_rate p)) /\
  is_u64 (numerator (expand_rate p)) /\ is_u64 (denominator (expand_rate p)).

Definition config_ok (c : resource_limits_config_object) : Prop :=
  params_ok (cpu_limit_parameters c) /\ params_ok (net_limit_parameters c) /\
  0 < account_cpu_usage_average_window c < 2 ^ 32 /\
  0 < account_net_usage_average_window c < 2 ^ 32.

Definition usage_ok (u : resource_usage_object) : Prop :=
  wf (net_usage u) /\ wf (cpu_usage u) /\ is_u64 (ram_usage u).

Definition state_ok (s : resource_limits_state_object) : Prop :=
  wf (average_block_net_usage s) /\ wf (average_block_cpu_usage s) /\
  is_u64 (pending_net_usage s) /\ is_u64 (pending_cpu_usage s) /\
  is_u64 (virtual_net_limit s) /\ is_u64 (virtual_cpu_limit s).

Record inv (m : manager) : Prop := {
  inv_totals : totals_ok m;
  inv_accounts : forall a, is_Some (limits m !! (false, a)) <-> is_Some (usage m !! a);
  inv_usage : forall a u, usage m !! a = Some u -> usage_ok u;
  inv_config : config_ok (config m);
  inv_state : state_ok (state m);
}.

(** The operations that write the tables, on arguments of their C++ types. *)
Inductive step : manager -> manager -> Prop :=
  | step_initialize_account m a m' :
      initialize_account m a = Ok m' -> step m m'
  | step_set_block_parameters m cpu net m' : params_width cpu -> params_width net ->
      set_block_parameters m cpu net = Ok m' -> step m m'
  | step_update_account_usage m accounts slot m' : is_u32 slot ->
      update_account_usage m accounts slot = Ok m' -> step m m'
  | step_add_transaction_usage m accounts cpu net slot m' :
      is_u64 cpu -> is_u64 net -> is_u32 slot ->
      add_transaction_usage m accounts cpu net slot = Ok m' -> step m m'
  | step_add_pending_ram_usage m a delta m' : is_s64 delta ->
      add_pending_ram_usage m a delta = Ok m' -> step m m'
  | step_set_account_limits m a ram net cpu m' b : is_s64 ram -> is_s64 net -> is_s64 cpu ->
      set_account_limits m a ram net cpu = Ok (m', b) -> step m m'
  | step_process_account_limit_updates m m' :
      process_account_limit_updates m = Ok m' -> step m m'
  | step_process_block_usage m block_num m' : is_u32 block_num ->
      process_block_usage m block_num = Ok m' -> step m m'.

Definition reachable (m : manager) : Prop := rtc step initialize_database m.

Lemma usage_add_wf a a' units ordinal w : wf a -> is_u64 units -> is_u32 ordinal ->
  0 < w < 2 ^ 32 -> add a units ordinal w = Ok a' -> wf a'.
Proof. intros. by eapply add_exact. Qed.

Lemma get_row_ok {K V} `{Countable K} (t : gmap K V) k v :
  get_row t k = Ok v <-> t !! k = Some v.
Proof. unfold get_row. destruct (t !! k); split; congruence. Qed.

Lemma create_row_ok {K V} `{Countable K} (t t' : gmap K V) k v :
  create_row t k v = Ok t' <-> t !! k = None /\ t' = <[k := v]> t.
Proof.
  unfold create_row. destruct (t !! k); split; [done | by intros [] | | by intros [_ ->]].
  by intros [= <-].
Qed.

(** A change of the limits that leaves the rows in effect alone. *)
Lemma actual_total_pending_insert f m a o :
  actual_total f (set_limits m (<[(true, a) := o]> (limits m))) = actual_total f m.
Proof.
  unfold actual_total. cbn [limits set_limits].
  destruct (limits m !! (true, a)) as [p|] eqn:E.
  - rewrite (sum_map_insert_old _ _ _ _ _ E). cbn. lia.
  - rewrite (sum_map_insert_new _ _ _ _ E). cbn. lia.
Qed.

Lemma set_account_limits_totals m a ram net cpu m' b :
  is_s64 ram -> is_s64 net -> is_s64 cpu -> totals_ok m ->
  set_account_limits m a ram net cpu = Ok (m', b) -> totals_ok m'.
Proof.
  intros Hr Hn Hc [Htr Htc Htn Hrow Hw Hf] H. unfold set_account_limits in H.
  inv_ok. simplify_eq. fold (get_account_limits m a) in Hr0. apply get_account_limits_row in Hr0.
  split; rewrite ?actual_total_pending_insert; [done..| | |done]; cbn [limits set_limits].
  - intros c Hs. rewrite (lookup_insert_ne _ _ (false, c)) by done.
    rewrite lookup_insert_is_Some in Hs. destruct Hs as [[= <-]|[_ Hs]]; [|by apply Hrow].
    destruct Hr0 as [Hr0|[_ Hr0]]; [apply Hrow|]; by eexists.
  - intros k o Hk. apply lookup_insert_Some in Hk as [[_ <-]|[_ Hk]]; [done|by eapply Hw].
Qed.

Lemma initialize_account_totals m a m' : totals_ok m ->
  initialize_account m a = Ok m' -> totals_ok m'.
Proof.
  intros [Htr Htc Htn Hrow Hw Hf] H. unfold initialize_account in H. inv_ok.
  apply create_row_ok in Hr as [Hnew ->].
  assert (forall f, f default_limits = -1 ->
    actual_total f (set_usage (set_limits m (<[(false, a) := default_limits]> (limits m))) r0)
    = actual_total f m) as Ht.
  { intros f Hd. unfold actual_total. cbn [limits set_limits set_usage].
    rewrite sum_map_insert_new by done. cbn [fst]. rewrite Hd. lia. }
  split; rewrite ?Ht by done; [done..| | |done]; cbn [limits set_limits set_usage].
  - intros b. rewrite (lookup_insert_ne _ _ (true, b)) by done. intros Hs.
    rewrite lookup_insert_is_Some. destruct (decide ((false, a) = (false, b))); [by left|right].
    split; [done|by apply Hrow].
  - intros k o Hk. apply lookup_insert_Some in Hk as [[_ <-]|[_ Hk]]; [|by eapply Hw].
    cbn. lia.
Qed.

Lemma update_state_and_value_ok total value pending t :
  is_s64 value -> is_s64 pending -> is_u64 total ->
  update_state_and_value total value pending = Ok t ->
  t = total - Z.max 0 value + Z.max 0 pending /\ is_u64 t.
Proof.
  intros Hv Hp Ht H. unfold update_state_and_value in H. inv_ok.
  assert (r = total - Z.max 0 value /\ is_u64 r) as [-> Hr0].
  { destruct (0 <? value) eqn:E; inv_ok; bool_to_prop; [|lia].
    rewrite (u64_small value) in * by lia. rewrite u64_small by lia. lia. }
  destruct (0 <? pending) eqn:E; inv_ok; bool_to_prop; [|lia].
  unfold UINT64_MAX in *. rewrite (u64_small pending) in * by lia. rewrite u64_small by lia. lia.
Qed.

Lemma apply_pending_totals m a p m' : limits m !! (true, a) = Some p -> totals_ok m ->
  apply_pending m a p = Ok m' ->
  totals_ok m' /\ usage m' = usage m /\ config m' = config m /\
  (forall b, is_Some (limits m' !! (false, b)) <-> is_Some (limits m !! (false, b))) /\
  (state_ok (state m) -> state_ok (state m')).
Proof.
  intros Hp [Hr Hc Hn Hrow Hw Hf] H. unfold apply_pending in H. inv_ok.
  apply get_row_ok in Hr0 as Ho.
  destruct (Hw _ _ Hp) as (? & ? & ?), (Hw _ _ Ho) as (? & ? & ?), Hf as (? & ? & ?).
  pose proof (actual_total_nonneg ram_bytes m). pose proof (actual_total_nonneg cpu_weight m).
  pose proof (actual_total_nonneg net_weight m).
  rewrite Hr in Hr1. rewrite Hc in Hr2. rewrite Hn in Hr3.
  apply update_state_and_value_ok in Hr1 as [-> ?], Hr2 as [-> ?], Hr3 as [-> ?]; [|lia..].
  split_and!; [|done|done| |done].
  - split; cbn [state set_state total_ram_bytes total_cpu_weight total_net_weight];
      rewrite ?(applied_actual_total _ _ _ _ Hp Ho); [done..| | |lia];
      cbn [limits set_state set_limits].
    + intros b Hb. rewrite lookup_delete_is_Some, lookup_insert_is_Some in Hb |- *.
      split; [done|]. right. destruct Hb as [Hne [[=]|[_ Hb]]].
      split; [congruence|]. by apply Hrow.
    + intros k o Hk. apply lookup_delete_Some in Hk as [_ Hk].
      apply lookup_insert_Some in Hk as [[_ <-]|[_ Hk]]; [done | by eapply Hw].
  - intros b. cbn [limits set_state set_limits].
    rewrite lookup_delete_ne by done. rewrite lookup_insert_is_Some'.
    split; [intros [[= <-]|?]; [by eexists|done] | auto].
Qed.

Lemma apply_pending_loop_inv fuel m m' : inv m -> apply_pending_loop fuel m = Ok m' -> inv m'.
Proof.
  revert m. induction fuel as [|fuel IH]; intros m Hm H; cbn [apply_pending_loop] in H.
  { by inv_ok. }
  destruct (first_pending (limits m)) as [[a p]|] eqn:E; inv_ok; [|done].
  apply first_pending_Some in E.
  apply apply_pending_totals in Hr as (Ht & Hu & Hc & Ha & Hs); [|done|apply Hm].
  eapply IH; [|exact H]. destruct Hm as [_ Hacc Huse Hcfg Hst].
  split; [done|intros b; by rewrite Ha, Hu, Hacc|by rewrite Hu|by rewrite Hc|auto].
Qed.

(** Replacing the usage of an existing account by a well-formed one. *)
Lemma inv_set_usage m a u u' : inv m -> usage m !! a = Some u -> usage_ok u' ->
  inv (set_usage m (<[a := u']> (usage m))).
Proof.
  intros [Ht Hacc Huse Hcfg Hst] Hu Hok. split; cbn [limits usage set_usage config state]; [|..|done|done].
  - destruct Ht; by split.
  - intros b. rewrite Hacc, lookup_insert_is_Some'. split; [auto|].
    intros [<-|?]; [by eexists|done].
  - intros b v Hb. apply lookup_insert_Some in Hb as [[_ <-]|[_ Hb]]; [done|by eapply Huse].
Qed.

Lemma inv_set_state m s : inv m -> state_ok s ->
  total_ram_bytes s = total_ram_bytes (state m) ->
  total_cpu_weight s = total_cpu_weight (state m) ->
  total_net_weight s = total_net_weight (state m) -> inv (set_state m s).
Proof.
  intros [Ht Hacc Huse Hcfg Hst] Hs Hr Hc Hn. split; try done.
  destruct Ht. by split; cbn [state set_state]; [rewrite ?Hr, ?Hc, ?Hn..| | |].
Qed.

Lemma touch_account_inv slot m a m' : is_u32 slot -> inv m ->
  touch_account slot m a = Ok m' -> inv m'.
Proof.
  intros Hs Hm H. unfold touch_account in H. inv_ok. apply get_row_ok in Hr.
  destruct (inv_usage _ Hm _ _ Hr) as (? & ? & ?), (inv_config _ Hm) as (_ & _ & ? & ?).
  eapply inv_set_usage; [done..|]. split_and!; cbn;
    [eapply usage_add_wf; [..|exact Hr0] | eapply usage_add_wf; [..|exact Hr1] | ..]; (done || lia).
Qed.

Lemma bill_account_inv cpu net slot m a m' : is_u64 cpu -> is_u64 net -> is_u32 slot ->
  inv m -> bill_account cpu net slot m a = Ok m' -> inv m'.
Proof.
  intros Hc Hn Hs Hm H. unfold bill_account in H. inv_ok. apply get_row_ok in Hr.
  destruct (inv_usage _ Hm _ _ Hr) as (? & ? & ?), (inv_config _ Hm) as (_ & _ & ? & ?).
  eapply inv_set_usage; [done..|]. split_and!; cbn;
    [eapply usage_add_wf; [..|exact Hr1] | eapply usage_add_wf; [..|exact Hr2] | ..]; (done || lia).
Qed.

(** [validate] leaves the ratios usable. *)
Lemma validate_ok p : params_width p -> validate p = Ok tt <-> params_ok p.
Proof.
  unfold params_width, params_ok, validate. intros Hw. split.
  - intros H. inv_ok. bool_to_prop. lia.
  - intros H. replace (0 <? periods p) with true by lia.
    replace (0 <? denominator (contract_rate p)) with true by lia.
    by replace (0 <? denominator (expand_rate p)) with true by lia.
Qed.

Lemma ratio_mul_total v r : is_u64 v -> is_u64 (numerator r) -> v * numerator r < 2 ^ 64 ->
  ratio_mul UINT64_MAX v r = Ok (v * numerator r / denominator r).
Proof.
  intros Hv Hn Hp. unfold ratio_mul, UINT64_MAX.
  replace ((numerator r =? 0) || _) with true.
  - cbn [mbind result_bind EOS_ASSERT mret result_ret].
    by rewrite Z.mod_small by (split; [nia|lia]).
  - symmetry. apply orb_true_iff. rewrite Z.eqb_eq, Z.leb_le.
    destruct (decide (numerator r = 0)); [by left|right]. apply Z.div_le_lower_bound; lia.
Qed.

Lemma ratio_mul_range v r x : is_u64 v -> is_u64 (numerator r) -> 0 < denominator r ->
  ratio_mul UINT64_MAX v r = Ok x -> is_u64 x.
Proof.
  intros Hv Hn Hd H. unfold ratio_mul in H. inv_ok. unfold UINT64_MAX.
  pose proof (u64_range (v * numerator r)) as Hu. unfold u64 in Hu.
  replace (2 ^ 64 - 1 + 1) with (2 ^ 64) by lia. split; [apply Z.div_pos; lia|].
  apply Z.div_lt_upper_bound; nia.
Qed.

Lemma update_elastic_limit_range v avg p x : is_u64 v -> params_ok p ->
  update_elastic_limit v avg p = Ok x -> is_u64 x.
Proof.
  intros Hv Hp H. destruct Hp as (? & ? & ? & ? & ? & ? & ? & ?).
  unfold update_elastic_limit in H. inv_ok.
  assert (is_u64 r) by (destruct (target p <? avg); eapply ratio_mul_range; try exact Hr; lia).
  pose proof (u64_range (max p * max_multiplier p)). lia.
Qed.

Lemma process_block_usage_inv m n m' : is_u32 n -> inv m ->
  process_block_usage m n = Ok m' -> inv m'.
Proof.
  intros Hn Hm H. unfold process_block_usage in H. inv_ok.
  unfold update_virtual_cpu_limit, update_virtual_net_limit in *. inv_ok. cbn in *.
  destruct (inv_state _ Hm) as (? & ? & ? & ? & ? & ?), (inv_config _ Hm) as (Hpc & Hpn & _ & _).
  eapply update_elastic_limit_range in Hr2, Hr3; [|done..].
  apply inv_set_state; try done. cbn. split_and!; cbn; try lia.
  - eapply usage_add_wf; [..|exact Hr1]; try done. destruct Hpn; tauto.
  - eapply usage_add_wf; [..|exact Hr]; try done. destruct Hpc; tauto.
Qed.

Lemma ram_delta_exact m a d u : inv m -> is_s64 d -> usage m !! a = Some u ->
  add_pending_ram_usage m a d =
    (if (0 <=? ram_usage u + d) && (ram_usage u + d <=? UINT64_MAX) then
       Ok (if d =? 0 then m else
           set_usage m (<[a := mk_usage_object (net_usage u) (cpu_usage u) (ram_usage u + d)]>
                          (usage m)))
     else Throw transaction_exception).
Proof.
  intros Hm Hd Hu. destruct (inv_usage _ Hm _ _ Hu) as (_ & _ & Hr).
  unfold add_pending_ram_usage, get_row, UINT64_MAX. destruct (d =? 0) eqn:E; bool_to_prop.
  { replace ((0 <=? ram_usage u + d) && _) with true by lia. done. }
  rewrite Hu. cbn [mbind result_bind]. destruct (Z.lt_ge_cases 0 d).
  - rewrite (u64_small d) by lia. replace (d <=? 0) with false by lia.
    replace (0 <=? d) with true by lia. cbn [orb].
    destruct (d <=? 2 ^ 64 - 1 - ram_usage u) eqn:E1; bool_to_prop; cbn.
    + rewrite u64_small by lia. by replace ((0 <=? ram_usage u + d) && _) with true by lia.
    + by replace ((0 <=? ram_usage u + d) && _) with false by lia.
  - rewrite (u64_small (- d)) by lia. replace (d <=? 0) with true by lia.
    replace (0 <=? d) with false by lia. cbn [orb EOS_ASSERT mbind result_bind].
    destruct (- d <=? ram_usage u) eqn:E1; bool_to_prop; cbn.
    + rewrite u64_small by lia. by replace ((0 <=? ram_usage u + d) && _) with true by lia.
    + by replace ((0 <=? ram_usage u + d) && _) with false by lia.
Qed.

Lemma ram_usage_inv m a d m' : is_s64 d -> inv m ->
  add_pending_ram_usage m a d = Ok m' -> inv m'.
Proof.
  intros Hd Hm H. destruct (usage m !! a) as [u|] eqn:Hu.
  - rewrite (ram_delta_exact _ _ _ _ Hm Hd Hu) in H.
    destruct ((0 <=? ram_usage u + d) && _) eqn:E; inv_ok. bool_to_prop.
    unfold UINT64_MAX in *. destruct (d =? 0); [done|].
    destruct (inv_usage _ Hm _ _ Hu) as (? & ? & ?).
    eapply inv_set_usage; [done..|]. split_and!; cbn; (done || lia).
  - unfold add_pending_ram_usage, get_row in H. rewrite Hu in H.
    destruct (d =? 0); by inv_ok.
Qed.

(** What an account is billed for RAM, and a charge to one account. *)
Definition billed (m : manager) (a : account_name) : Z :=
  match usage m !! a with Some u => ram_usage u | None => 0 end.

Definition only_for (x a : account_name) (d : Z) : Z := if decide (a = x) then d else 0.

Lemma add_pending_ram_billed m x d m' : inv m -> is_s64 d -> add_pending_ram_usage m x d = Ok m' ->
  forall a, billed m' a = billed m a + only_for x a d.
Proof.
  intros Hinv Hd Hr a. unfold billed, only_for.
  destruct (usage m !! x) as [u|] eqn:Hu.
  - rewrite (ram_delta_exact _ _ _ _ Hinv Hd Hu) in Hr.
    destruct (_ && _); [|done]. injection Hr as <-. destruct (d =? 0) eqn:E; bool_to_prop.
    { subst d. destruct (decide _); lia. }
    cbn [usage set_usage]. destruct (decide (a = x)) as [->|Hne].
    + by rewrite lookup_insert_eq, Hu.
    + rewrite lookup_insert_ne by done. lia.
  - unfold add_pending_ram_usage, get_row in Hr. rewrite Hu in Hr.
    destruct (d =? 0) eqn:E; bool_to_prop; [|done]. injection Hr as <-. subst d.
    destruct (decide _); lia.
Qed.

Lemma initialize_account_inv m a m' : inv m -> initialize_account m a = Ok m' -> inv m'.
Proof.
  intros Hm H. pose proof (initialize_account_totals _ _ _ (inv_totals _ Hm) H) as Ht.
  destruct Hm as [_ Hacc Huse Hcfg Hst]. unfold initialize_account in H. inv_ok.
  apply create_row_ok in Hr as [Hnl ->], Hr0 as [Hnu ->].
  split; cbn [limits usage config state set_limits set_usage] in *; try done.
  - intros b. rewrite !lookup_insert_is_Some', Hacc. intuition congruence.
  - intros b v Hb. apply lookup_insert_Some in Hb as [[_ <-]|[_ Hb]]; [|by eapply Huse].
    split_and!; cbn; try lia; unfold wf; cbn; lia.
Qed.

Lemma set_account_limits_inv m a ram net cpu m' b :
  is_s64 ram -> is_s64 net -> is_s64 cpu -> inv m ->
  set_account_limits m a ram net cpu = Ok (m', b) -> inv m'.
Proof.
  intros ? ? ? Hm H.
  assert (totals_ok m') as Ht
    by (eapply set_account_limits_totals; [..|exact H]; [done..|apply Hm]).
  destruct Hm as [_ Hacc Huse Hcfg Hst]. unfold set_account_limits in H. inv_ok. simplify_eq.
  split; cbn [limits usage config state set_limits] in *; try done.
  intros c. rewrite lookup_insert_ne by done. apply Hacc.
Qed.

Lemma set_block_parameters_inv m cpu net m' : params_width cpu -> params_width net -> inv m ->
  set_block_parameters m cpu net = Ok m' -> inv m'.
Proof.
  intros Hc Hn [Ht Hacc Huse Hcfg Hst] H. unfold set_block_parameters in H. inv_ok.
  apply validate_ok in Hr, Hr0; [|done..].
  destruct (_ && _); inv_ok; split; try done.
  - by destruct Ht.
  - destruct Hcfg as (_ & _ & Hwc & Hwn). exact (conj Hr (conj Hr0 (conj Hwc Hwn))).
Qed.

Lemma initial_inv : inv initialize_database.
Proof.
  split.
  - split; cbn; try done; by intros ? [].
  - intros a. cbn. by split; intros [].
  - done.
  - vm_compute. split_and!; congruence.
  - unfold state_ok, wf. cbn. lia.
Qed.

Lemma add_transaction_usage_inv m accounts cpu net slot m' :
  is_u64 cpu -> is_u64 net -> is_u32 slot -> inv m ->
  add_transaction_usage m accounts cpu net slot = Ok m' -> inv m'.
Proof.
  intros Hc Hn Hs Hm H. unfold add_transaction_usage in H. inv_ok.
  assert (inv r) as Hi.
  { eapply (foldM_inv _ inv); [|exact Hm|exact Hr]. intros x b b' _ Hb.
    by apply bill_account_inv. }
  apply inv_set_state; try done. destruct (inv_state _ Hi) as (? & ? & ? & ? & ? & ?).
  unfold add_pending. split_and!; cbn; (done || lia || apply u64_range).
Qed.

(** C26: applying the pending limits at the end of a block is complete and
    conserves the totals.  From a state whose totals are the sums of the
    positive limits in effect, and as long as the limits in effect plus the
    pending ones fit 64 bits, the loop ends without an exception (in
    particular the subtractions never underflow), no pending row is left,
    every account keeps exactly the limits its callers already saw, and the
    totals are again the sums of the limits in effect. *)
Theorem limit_updates_conserve_totals (m : manager) :
  totals_ok m -> headroom ram_bytes m -> headroom cpu_weight m -> headroom net_weight m ->
  exists m', process_account_limit_updates m = Ok m' /\ totals_ok m' /\
    (forall a, limits m' !! (true, a) = None) /\
    (forall a, get_account_limits m' a = get_account_limits m a) /\
    usage m' = usage m /\ config m' = config m.
Proof. intros. by apply apply_pending_loop_ok. Qed.

Definition alice : account_name := Name.mk_name 3773036822876127232.
Definition bob : account_name := Name.mk_name 4390912803587006464.

(** Two accounts, one with limits in effect, both with pending ones. *)
Definition two_accounts : result manager :=
  m ← initialize_account initialize_database alice;
  m ← initialize_account m bob;
  p ← set_account_limits m alice 8000 300 100;
  m ← process_account_limit_updates p.1;
  p ← set_account_limits m alice 4000 (-1) 50;
  p ← set_account_limits p.1 bob (-1) 700 25;
  mret p.1.

Definition two_accounts_m : manager :=
  match two_accounts with Ok m => m | Throw _ => initialize_database end.

Lemma two_accounts_inv : inv two_accounts_m.
Proof.
  unfold two_accounts_m. destruct two_accounts as [m|] eqn:E; [|apply initial_inv].
  unfold two_accounts in E. inv_ok.
  destruct r1, r3, r4. cbn [fst] in *.
  pose proof (initialize_account_inv _ _ _ initial_inv Hr) as H0.
  apply (initialize_account_inv _ _ _ H0) in Hr0.
  apply set_account_limits_inv in Hr1; [|lia..|done].
  apply (apply_pending_loop_inv _ _ _ Hr1) in Hr2.
  apply set_account_limits_inv in Hr3; [|lia..|done].
  by apply set_account_limits_inv in Hr4; [|lia..|].
Qed.

Lemma limit_updates_conserve_totals_witness :
  exists m', process_account_limit_updates two_accounts_m = Ok m' /\
    total_cpu_weight (state m') = 75 /\ get_account_limits m' alice = Ok (mk_limits (-1) 50 4000).
Proof.
  destruct (limit_updates_conserve_totals two_accounts_m
    (inv_totals _ two_accounts_inv))
    as (m' & Hm' & _ & _ & Heff & _); [vm_compute; reflexivity..|].
  exists m'. split; [done|]. split; [|by rewrite Heff].
  assert (match process_account_limit_updates two_accounts_m with
          | Ok m => total_cpu_weight (state m) = 75 | Throw _ => False end) as H
    by (vm_compute; reflexivity).
  by rewrite Hm' in H.
Defined.

(** C25: every state the manager can reach, by any sequence of its writing
    operations on machine-integer arguments, satisfies the invariant: the
    totals are the sums of the positive limits in effect and fit 64 bits,
    only existing accounts have pending limits, every account with limits has
    usage and the reverse, all accumulators and counters are within their
    width, and the elastic parameters are usable (no zero period or
    denominator). *)
Theorem reachable_inv (m : manager) : reachable m -> inv m.
Proof.
  intros H. unfold reachable in H. remember initialize_database as m0 eqn:E.
  assert (inv m0) as H0 by (subst; apply initial_inv). clear E.
  induction H as [m|m m1 m2 Hs _ IH]; [done|]. apply IH. clear IH m2. destruct Hs.
  - eapply initialize_account_inv; [..|eassumption]; done.
  - eapply set_block_parameters_inv; [..|eassumption]; done.
  - eapply (foldM_inv _ inv); [|exact H0|eassumption]. intros x b b' _ Hb. by apply touch_account_inv.
  - eapply add_transaction_usage_inv; [..|eassumption]; done.
  - eapply ram_usage_inv; [..|eassumption]; done.
  - eapply set_account_limits_inv; [..|eassumption]; done.
  - eapply apply_pending_loop_inv; [..|eassumption]; done.
  - eapply process_block_usage_inv; [..|eassumption]; done.
Qed.

Lemma reachable_inv_witness :
  exists m, initialize_account initialize_database alice = Ok m /\ inv m.
Proof.
  eexists. split; [reflexivity|]. apply reachable_inv. unfold reachable.
  apply rtc_once. eapply (step_initialize_account _ alice). reflexivity.
Defined.

(** ** Billing agrees with the advertised limits *)

(** The use in the window after billing [c] units is at most the (rounded up)
    use before plus [c]: the two roundings never cost the account a unit,
    because the window is not longer than the precision. *)
Lemma used_after_billing v v' c w : 0 <= v -> 0 <= v' -> 0 <= c -> 0 < w <= rate_limiting_precision ->
  v' <= v + ceil_div (c * rate_limiting_precision) w ->
  v' * w / rate_limiting_precision <= ceil_div (v * w) rate_limiting_precision + c.
Proof.
  intros Hv Hv' Hc Hw Hle. set (P := rate_limiting_precision) in *.
  pose proof (ceil_div_bounds (c * P) w ltac:(lia)).
  pose proof (ceil_div_bounds (v * w) P ltac:(lia)).
  apply Z.lt_succ_r, Z.div_lt_upper_bound; [lia|]. nia.
Qed.

(** The share check of [add_transaction_usage] for one resource. *)
Definition within_share (acc : usage_accumulator) (weight total virtual_limit window : Z) : bool :=
  if (0 <=? weight) && (0 <? total) then
    u128 (value_ex acc * window) / rate_limiting_precision <=?
    max_use_in_window (u128 (virtual_limit * window)) weight total
  else true.

(** The capacity a query uses: capped for a greylisted account. *)
Definition capped_limit (virtual_limit pmax greylist_limit : Z) : Z :=
  if (greylist_limit <? maximum_elastic_resource_multiplier)
  then Z.min virtual_limit (u64 (pmax * greylist_limit)) else virtual_limit.

Lemma downgrade_cast_s64_ok v x : downgrade_cast_s64 v = Ok x <-> x = v /\ 0 <= v < 2 ^ 63.
Proof.
  unfold downgrade_cast_s64, INT64_MAX. split.
  - intros H. inv_ok. bool_to_prop. lia.
  - intros [-> Hv]. by replace ((0 <=? v) && _) with true by lia.
Qed.

Lemma window_product v w : is_u64 v -> 0 < w < 2 ^ 32 -> 0 <= v * w < 2 ^ 128.
Proof. intros Hv Hw. nia. Qed.

Lemma account_limit_ex_ok acc weight total virtual_limit pmax w greylist ct arl g :
  wf acc -> 0 < w < 2 ^ 32 -> is_u64 total -> 0 <= weight -> 0 < total ->
  account_limit_ex acc weight total virtual_limit pmax w greylist ct = Ok (arl, g) ->
  used arl = ceil_div (value_ex acc * w) rate_limiting_precision /\
  arl_max arl = max_use_in_window (u128 (capped_limit virtual_limit pmax greylist * w))
                  weight total /\
  available arl = Z.max 0 (arl_max arl - used arl) /\
  is_s64 (used arl) /\ is_s64 (arl_max arl) /\ 0 <= used arl /\
  (g = true <-> capped_limit virtual_limit pmax greylist < virtual_limit).
Proof.
  intros (_ & Hv & _) Hw Ht Hwt Htot H. unfold account_limit_ex in H.
  replace ((weight <? 0) || (total =? 0)) with false in H by lia.
  set (gl := u64 (pmax * greylist)) in *.
  set (gr := (greylist <? maximum_elastic_resource_multiplier) && (gl <? virtual_limit)) in *.
  assert ((if gr then gl else virtual_limit) = capped_limit virtual_limit pmax greylist /\
    (gr = true <-> capped_limit virtual_limit pmax greylist < virtual_limit)) as [Hcap Hgr].
  { subst gr. unfold capped_limit. fold gl.
    destruct (greylist <? maximum_elastic_resource_multiplier); cbn; [|lia].
    destruct (gl <? virtual_limit) eqn:E; bool_to_prop; lia. }
  rewrite Hcap, (Z.mul_comm w) in H. set (M := max_use_in_window _ _ _) in *.
  pose proof (window_product _ _ Hv Hw).
  rewrite (u128_small (value_ex acc * w)), integer_divide_ceil_spec in H
    by (unfold rate_limiting_precision; lia).
  inv_ok. simplify_eq. cbn [used arl_max available].
  apply downgrade_cast_s64_ok in Hr0 as [-> Hu], Hr1 as [-> HM].
  split_and!; try done; try lia.
  destruct (M <=? _) eqn:E; bool_to_prop.
  - inv_ok. lia.
  - apply downgrade_cast_s64_ok in Hr as [-> _]. lia.
Qed.

(** The share that a query reports is not more than the one that billing
    grants. *)
Definition capped_share_fits (weight total virtual_limit pmax w greylist : Z) : Prop :=
  max_use_in_window (u128 (capped_limit virtual_limit pmax greylist * w)) weight total
  <= max_use_in_window (u128 (virtual_limit * w)) weight total.

Lemma uncapped_share_fits weight total virtual_limit pmax w greylist :
  maximum_elastic_resource_multiplier <= greylist ->
  capped_share_fits weight total virtual_limit pmax w greylist.
Proof.
  intros Hg. unfold capped_share_fits, capped_limit. by replace (greylist <? _) with false by lia.
Qed.

(** A greylist lowers the share, unless the share overflows 128 bits. *)
Lemma small_share_fits weight total virtual_limit pmax w greylist :
  0 <= weight -> 0 < total -> 0 < w -> 0 <= virtual_limit ->
  virtual_limit * w * Z.max 1 weight < 2 ^ 128 ->
  capped_share_fits weight total virtual_limit pmax w greylist.
Proof.
  intros Hwt Ht Hw Hv Hfit. unfold capped_share_fits, max_use_in_window.
  assert (0 <= capped_limit virtual_limit pmax greylist <= virtual_limit) as Hc.
  { unfold capped_limit. pose proof (u64_range (pmax * greylist)). destruct (_ <? _); lia. }
  set (cl := capped_limit _ _ _) in *.
  assert (forall x, 0 <= x <= virtual_limit ->
    0 <= x * w <= virtual_limit * w /\ 0 <= x * w * weight <= virtual_limit * w * weight) as Hx.
  { intros x Hx. assert (0 <= x * w <= virtual_limit * w) by nia. split; nia. }
  assert (virtual_limit * w * weight < 2 ^ 128 /\ virtual_limit * w < 2 ^ 128).
  { destruct (Hx virtual_limit ltac:(lia)). destruct (Z.max_spec 1 weight) as [[? E]|[? E]];
      rewrite E in Hfit; split; nia. }
  pose proof (Hx cl Hc). pose proof (Hx virtual_limit ltac:(lia)).
  rewrite (u128_small (cl * w)), (u128_small (virtual_limit * w)) by lia.
  rewrite !u128_small by lia. apply Z.div_le_mono; lia.
Qed.

Lemma limit_then_within_share acc acc' weight total virtual_limit pmax w greylist c slot arl g :
  wf acc -> 0 < w <= rate_limiting_precision -> is_u64 total -> is_u64 c -> is_u32 slot ->
  (0 <= weight -> 0 < total -> capped_share_fits weight total virtual_limit pmax w greylist) ->
  account_limit_ex acc weight total virtual_limit pmax w greylist None = Ok (arl, g) ->
  (available arl < 0 \/ 0 < available arl /\ c <= available arl) ->
  add acc c slot w = Ok acc' ->
  within_share acc' weight total virtual_limit w = true.
Proof.
  intros Hwf Hw Ht Hc Hs Hg H Hav Hadd. unfold within_share.
  destruct ((0 <=? weight) && (0 <? total)) eqn:E; [|done]. bool_to_prop.
  specialize (Hg ltac:(lia) ltac:(lia)). unfold rate_limiting_precision in Hw.
  apply add_exact in Hadd as (Hacc' & Hlo & _ & Hv & _); [|done|done|done|lia].
  pose proof (decayed_bounds (value_ex acc) (last_ordinal acc) slot w
    ltac:(destruct Hwf; lia) ltac:(lia)).
  apply account_limit_ex_ok in H as (Hu & HM & Ha & _); [|done|lia|done|lia|lia].
  destruct Hwf as (_ & Hv0 & _), Hacc' as (_ & Hv1 & _).
  unfold capped_share_fits in Hg. rewrite <- HM in Hg.
  apply Z.leb_le. rewrite u128_small by (apply window_product; lia).
  etrans; [|exact Hg]. etrans; [eapply (used_after_billing (value_ex acc) _ c)|];
    unfold rate_limiting_precision in *; lia.
Qed.

(** [bill_account] with its two checks named. *)
Lemma bill_account_unfold cpu net slot m a u lim net_acc cpu_acc :
  usage m !! a = Some u -> get_account_limits m a = Ok lim ->
  add (net_usage u) net slot (account_net_usage_average_window (config m)) = Ok net_acc ->
  add (cpu_usage u) cpu slot (account_cpu_usage_average_window (config m)) = Ok cpu_acc ->
  bill_account cpu net slot m a =
    (EOS_ASSERT (within_share cpu_acc (cpu_weight lim) (total_cpu_weight (state m))
       (virtual_cpu_limit (state m)) (account_cpu_usage_average_window (config m)))
       tx_cpu_usage_exceeded;;
     EOS_ASSERT (within_share net_acc (net_weight lim) (total_net_weight (state m))
       (virtual_net_limit (state m)) (account_net_usage_average_window (config m)))
       tx_net_usage_exceeded;;
     mret (set_usage m (<[a := mk_usage_object net_acc cpu_acc (ram_usage u)]> (usage m)))).
Proof.
  intros Hu Hlim Hn Hc. unfold bill_account, get_row. rewrite Hu.
  cbn [mbind result_bind]. rewrite Hlim. cbn [mbind result_bind].
  rewrite Hn. cbn [mbind result_bind]. rewrite Hc. cbn [mbind result_bind].
  unfold within_share. by repeat case_match.
Qed.

Lemma totals_range m : inv m -> is_u64 (total_cpu_weight (state m)) /\
  is_u64 (total_net_weight (state m)) /\ is_u64 (total_ram_bytes (state m)).
Proof.
  intros [[Hr Hc Hn _ _ Hf] _ _ _ _]. rewrite Hr, Hc, Hn.
  pose proof (actual_total_nonneg ram_bytes m). pose proof (actual_total_nonneg cpu_weight m).
  pose proof (actual_total_nonneg net_weight m). lia.
Qed.

Lemma get_account_cpu_limit_row m a u g x b : usage m !! a = Some u ->
  get_account_cpu_limit m a g = Ok (x, b) ->
  exists lim arl, get_account_limits m a = Ok lim /\ available arl = x /\
    account_limit_ex (cpu_usage u) (cpu_weight lim) (total_cpu_weight (state m))
      (virtual_cpu_limit (state m)) (max (cpu_limit_parameters (config m)))
      (account_cpu_usage_average_window (config m)) g None = Ok (arl, b).
Proof.
  intros Hu H. unfold get_account_cpu_limit, get_account_cpu_limit_ex, get_row in H.
  rewrite Hu in H. cbn [mbind result_bind] in H. apply bind_ok_inv in H as ([arl b'] & H & Hx).
  inv_ok. simplify_eq. eauto.
Qed.

Lemma get_account_net_limit_row m a u g x b : usage m !! a = Some u ->
  get_account_net_limit m a g = Ok (x, b) ->
  exists lim arl, get_account_limits m a = Ok lim /\ available arl = x /\
    account_limit_ex (net_usage u) (net_weight lim) (total_net_weight (state m))
      (virtual_net_limit (state m)) (max (net_limit_parameters (config m)))
      (account_net_usage_average_window (config m)) g None = Ok (arl, b).
Proof.
  intros Hu H. unfold get_account_net_limit, get_account_net_limit_ex, get_row in H.
  rewrite Hu in H. cbn [mbind result_bind] in H. apply bind_ok_inv in H as ([arl b'] & H & Hx).
  inv_ok. simplify_eq. eauto.
Qed.

(** The query reports at least [units], or no limit, and the accumulator can
    hold them. *)
Definition affordable (available units : Z) : Prop :=
  available < 0 \/ 0 < available /\ units <= available.

(** What [bill_account] needs of an account: its limits as the queries report
    them under some greylist limit [gl], and room in its accumulators. *)
Record payable_by (m : manager) (cpu net slot gl : Z) (a : account_name)
    (u : resource_usage_object) (cpu_acc net_acc : usage_accumulator) : Prop := {
  pay_row : usage m !! a = Some u;
  pay_cpu : exists av g, get_account_cpu_limit m a gl = Ok (av, g) /\ affordable av cpu;
  pay_net : exists av g, get_account_net_limit m a gl = Ok (av, g) /\ affordable av net;
  pay_cpu_acc : add (cpu_usage u) cpu slot (account_cpu_usage_average_window (config m)) = Ok cpu_acc;
  pay_net_acc : add (net_usage u) net slot (account_net_usage_average_window (config m)) = Ok net_acc;
  pay_shares lim : get_account_limits m a = Ok lim ->
    (0 <= cpu_weight lim -> 0 < total_cpu_weight (state m) ->
     capped_share_fits (cpu_weight lim) (total_cpu_weight (state m)) (virtual_cpu_limit (state m))
       (max (cpu_limit_parameters (config m))) (account_cpu_usage_average_window (config m)) gl) /\
    (0 <= net_weight lim -> 0 < total_net_weight (state m) ->
     capped_share_fits (net_weight lim) (total_net_weight (state m)) (virtual_net_limit (state m))
       (max (net_limit_parameters (config m))) (account_net_usage_average_window (config m)) gl);
}.

Definition windows_precise (m : manager) : Prop :=
  account_cpu_usage_average_window (config m) <= rate_limiting_precision /\
  account_net_usage_average_window (config m) <= rate_limiting_precision.

Lemma bill_payable m a u cpu net slot gl cpu_acc net_acc :
  inv m -> is_u64 cpu -> is_u64 net -> is_u32 slot -> windows_precise m ->
  payable_by m cpu net slot gl a u cpu_acc net_acc ->
  bill_account cpu net slot m a
  = Ok (set_usage m (<[a := mk_usage_object net_acc cpu_acc (ram_usage u)]> (usage m))).
Proof.
  intros Hm Hc Hn Hs [Hwc Hwn] [Hu (avc & gc & Hqc & Hac) (avn & gn & Hqn & Han) Haddc Haddn Hsh].
  destruct (inv_config _ Hm) as (_ & _ & ? & ?), (inv_usage _ Hm _ _ Hu) as (? & ? & _).
  destruct (totals_range _ Hm) as (? & ? & _).
  destruct (get_account_cpu_limit_row _ _ _ _ _ _ Hu Hqc) as (lim & arlc & Hlim & <- & Hlc).
  destruct (get_account_net_limit_row _ _ _ _ _ _ Hu Hqn) as (lim' & arln & Hlim' & <- & Hln).
  rewrite Hlim in Hlim'. simplify_eq. destruct (Hsh _ Hlim) as [Hsc Hsn].
  erewrite bill_account_unfold by done.
  erewrite (limit_then_within_share (cpu_usage u) cpu_acc);
    [|..|exact Hlc|exact Hac|exact Haddc]; [|done || lia..].
  by erewrite (limit_then_within_share (net_usage u) net_acc);
    [|..|exact Hln|exact Han|exact Haddn]; [|done || lia..].
Qed.

(** C22: an account is not refused CPU or NET that the queries advertise.
    If [get_account_cpu_limit] and [get_account_net_limit] (without
    greylisting) each report a positive number of units that covers the [cpu]
    and the [net] to bill, or that the account is unlimited, and the
    accumulators can hold the new units, then billing the transaction at the
    same or a later slot succeeds, with exactly the two accumulators changed:
    where the queries report something left, their rounding (up) and that of the
    check (down) do not disagree.  Nothing is said of an account for which a
    query reports that nothing is left: it may have used more than its share,
    and then it is refused even 0 units.  The manager satisfies its invariant,
    the amounts and the slot have the widths of the code, and the windows are
    at most the precision of the accumulators (as the windows of genesis are). *)
Theorem advertised_limit_is_honoured (m : manager) (a : account_name) (u : resource_usage_object)
    (cpu net slot avail_cpu avail_net : Z) (gc gn : bool) (cpu_acc net_acc : usage_accumulator) :
  inv m -> is_u64 cpu -> is_u64 net -> is_u32 slot ->
  account_cpu_usage_average_window (config m) <= rate_limiting_precision ->
  account_net_usage_average_window (config m) <= rate_limiting_precision ->
  usage m !! a = Some u ->
  get_account_cpu_limit m a maximum_elastic_resource_multiplier = Ok (avail_cpu, gc) ->
  get_account_net_limit m a maximum_elastic_resource_multiplier = Ok (avail_net, gn) ->
  avail_cpu < 0 \/ 0 < avail_cpu /\ cpu <= avail_cpu ->
  avail_net < 0 \/ 0 < avail_net /\ net <= avail_net ->
  add (cpu_usage u) cpu slot (account_cpu_usage_average_window (config m)) = Ok cpu_acc ->
  add (net_usage u) net slot (account_net_usage_average_window (config m)) = Ok net_acc ->
  bill_account cpu net slot m a
  = Ok (set_usage m (<[a := mk_usage_object net_acc cpu_acc (ram_usage u)]> (usage m))).
Proof.
  intros Hm Hc Hn Hs Hwc Hwn Hu Hqc Hqn Hac Han Haddc Haddn.
  eapply bill_payable; [done..|by split|]. split; [done|eauto..|done|done|].
  intros lim _. split; intros _ _; by apply uncapped_share_fits.
Qed.

(** [two_accounts_m] after its pending limits were applied. *)
Definition billed_m : manager :=
  match process_account_limit_updates two_accounts_m with
  | Ok m => m | Throw _ => initialize_database end.

Lemma billed_m_inv : inv billed_m.
Proof.
  unfold billed_m. destruct (process_account_limit_updates _) eqn:E; [|apply initial_inv].
  eapply apply_pending_loop_inv, E. apply two_accounts_inv.
Qed.

Lemma advertised_limit_is_honoured_witness :
  get_account_cpu_limit billed_m bob 1000 = Ok (11520000000, false) /\
  is_ok (bill_account 11520000000 1000 5 billed_m bob) = true.
Proof.
  split; [vm_compute; reflexivity|].
  erewrite (advertised_limit_is_honoured billed_m bob default_usage 11520000000 1000 5
    11520000000 181193932800 false false (mk_usage 5 66666666667 11520000000)
    (mk_usage 5 5788 1000) billed_m_inv); first [reflexivity | lia | vm_compute; congruence |
    right; lia].
Defined.

(** ** RAM *)

(** The RAM counter is exact.  [add_pending_ram_usage] adds the signed
    delta when the sum is a 64-bit unsigned value and throws
    [transaction_exception] otherwise; it never wraps around (not even for
    the smallest delta, whose negation is not a signed 64-bit value). *)
Theorem ram_usage_exact (m : manager) (a : account_name) (d : Z) (u : resource_usage_object) :
  inv m -> is_s64 d -> usage m !! a = Some u ->
  add_pending_ram_usage m a d =
    (if (0 <=? ram_usage u + d) && (ram_usage u + d <=? UINT64_MAX) then
       Ok (if d =? 0 then m else
           set_usage m (<[a := mk_usage_object (net_usage u) (cpu_usage u) (ram_usage u + d)]>
                          (usage m)))
     else Throw transaction_exception).
Proof. apply ram_delta_exact. Qed.

Lemma ram_usage_exact_witness :
  add_pending_ram_usage billed_m bob (- 2 ^ 63) = Throw transaction_exception.
Proof.
  rewrite (ram_usage_exact billed_m bob (- 2 ^ 63) default_usage billed_m_inv);
    [reflexivity | lia | vm_compute; reflexivity].
Defined.

(** ** Setting limits *)

(** Setting the limits of an account takes effect for its readers at
    once: [get_account_limits] returns the new values before they are applied
    at the end of the block, no other account changes, the totals do not
    change, and the flag says exactly that the new RAM limit is more
    restrictive than the previous one (a limit where there was none, or a
    smaller limit).  It throws exactly for an unknown account. *)
Theorem set_then_get_limits (m : manager) (a : account_name) (ram net cpu : Z) :
  inv m ->
  match set_account_limits m a ram net cpu with
  | Ok (m', decreased) =>
      is_Some (usage m !! a) /\
      get_account_limits m' a = Ok (mk_limits net cpu ram) /\
      (forall b, b <> a -> get_account_limits m' b = get_account_limits m b) /\
      state m' = state m /\ usage m' = usage m /\
      exists old, get_account_limits m a = Ok old /\
        (decreased = true <-> 0 <= ram /\ (ram_bytes old < 0 \/ ram < ram_bytes old))
  | Throw e => usage m !! a = None /\ e = not_found_exception
  end.
Proof.
  intros Hm. unfold set_account_limits. fold (get_account_limits m a).
  pose proof (inv_accounts _ Hm a) as Hacc. pose proof (totals_rows _ (inv_totals _ Hm) a) as Hrow.
  destruct (get_account_limits m a) as [old|e] eqn:E; cbn [mbind result_bind mret result_ret].
  - split_and!; try done.
    + apply Hacc. apply get_account_limits_row in E as [E|[_ E]]; [apply Hrow|]; by eexists.
    + unfold get_account_limits. cbn [limits set_limits]. by rewrite lookup_insert_eq.
    + intros b Hb. unfold get_account_limits, get_row. cbn [limits set_limits].
      by rewrite !lookup_insert_ne by congruence.
    + exists old. split; [done|]. destruct (0 <=? ram) eqn:E1; bool_to_prop; lia.
  - unfold get_account_limits, get_row in E.
    destruct (limits m !! (true, a)); [done|].
    destruct (limits m !! (false, a)) eqn:E2; [done|]. simplify_eq. split; [|done].
    apply eq_None_not_Some. rewrite <- Hacc. by intros [].
Qed.

Lemma set_then_get_limits_witness :
  exists m' b, set_account_limits billed_m alice 10 20 30 = Ok (m', b) /\ b = true /\
    get_account_limits m' alice = Ok (mk_limits 20 30 10).
Proof.
  pose proof (set_then_get_limits billed_m alice 10 20 30 billed_m_inv) as H.
  assert (is_ok (set_account_limits billed_m alice 10 20 30) = true) as Hok
    by (vm_compute; reflexivity).
  destruct (set_account_limits billed_m alice 10 20 30) as [[m' b]|]; [|discriminate Hok].
  destruct H as (_ & Hget & _ & _ & _ & old & Hold & Hb). exists m', b. split; [done|].
  split; [|done]. apply Hb. vm_compute in Hold. injection Hold as <-. cbn. lia.
Defined.

(** ** Queries *)

(** What a limit query returns: the use in the window rounded up, the
    account's share of the window capacity, and their difference (never
    negative) as what is available, all as exact values.  The current use is
    never above the recorded one, and the greylist flag is set exactly when
    the cap lowers the capacity. *)
Theorem limit_query_exact (acc : usage_accumulator)
    (weight total virtual_limit pmax w greylist : Z) (slot : option Z)
    (arl : account_resource_limit) (g : bool) :
  wf acc -> 0 < w < 2 ^ 32 -> is_u64 total -> 0 <= weight -> 0 < total ->
  (forall s, slot = Some s -> is_u32 s) ->
  account_limit_ex acc weight total virtual_limit pmax w greylist slot = Ok (arl, g) ->
  used arl = ceil_div (value_ex acc * w) rate_limiting_precision /\
  arl_max arl = max_use_in_window (u128 (capped_limit virtual_limit pmax greylist * w))
                  weight total /\
  available arl = Z.max 0 (arl_max arl - used arl) /\
  current_used arl <= used arl /\
  (g = true <-> capped_limit virtual_limit pmax greylist < virtual_limit).
Proof.
  intros Hacc Hw Ht Hwt Htot Hslot H.
  pose proof (account_limit_ex_ok _ _ _ _ _ _ _ _ _ _ Hacc Hw Ht Hwt Htot H)
    as (Hu & HM & Ha & _ & _ & _ & Hg).
  split_and!; try done; try apply Hg. rewrite Hu. clear Hu HM Ha Hg.
  unfold account_limit_ex in H.
  replace ((weight <? 0) || (total =? 0)) with false in H by lia. inv_ok. simplify_eq.
  cbn [current_used]. pose proof (proj1 (proj2 Hacc)) as Hv.
  pose proof (window_product _ _ Hv Hw). pose proof precision_pos.
  rewrite (u128_small (value_ex acc * w)), integer_divide_ceil_spec in Hr0 by lia.
  apply downgrade_cast_s64_ok in Hr0 as [-> _].
  destruct slot as [s|]; [|inv_ok; lia]. destruct (last_ordinal acc <? s); inv_ok; [|lia].
  apply downgrade_cast_s64_ok in Hr2 as [-> _]. rewrite (u32_small w) in Hr0 by lia.
  apply add_exact in Hr0 as (Hwf & _ & _ & Hx & _); [|done|lia|by apply Hslot|lia].
  pose proof (window_product _ _ (proj1 (proj2 Hwf)) Hw).
  pose proof (decayed_bounds (value_ex acc) (last_ordinal acc) s w ltac:(lia) ltac:(lia)).
  rewrite Z.mul_0_l in Hx. change (ceil_div 0 w) with (- (0 / w)) in Hx.
  rewrite Z.div_0_l, Z.add_0_r in Hx by lia.
  rewrite (u128_small (value_ex _ * w)), integer_divide_ceil_spec by lia.
  apply ceil_div_mono; nia.
Qed.

Lemma limit_query_exact_witness :
  account_limit_ex (mk_usage 1000 8000000 12) 100 1000 200000 200000 172800 500 (Some 87400)
    = Ok (mk_arl 1382400 3454617600 3456000000 1000 691200, false) /\
  691200 <= 1382400.
Proof.
  assert (account_limit_ex (mk_usage 1000 8000000 12) 100 1000 200000 200000 172800 500
    (Some 87400) = Ok (mk_arl 1382400 3454617600 3456000000 1000 691200, false)) as H
    by reflexivity.
  split; [exact H|].
  apply (limit_query_exact (mk_usage 1000 8000000 12) 100 1000 200000 200000 172800 500
    (Some 87400) (mk_arl 1382400 3454617600 3456000000 1000 691200) false);
    [unfold wf; cbn; lia | lia.. | intros s [= <-]; lia | exact H].
Defined.

(** ** Elastic limits *)

(** The elastic block limit stays between the block maximum and the
    maximum times the multiplier, shrinks when the average use is above the
    target and grows otherwise (strictly, until it meets the bound, for an
    expand rate above one and a limit that is large enough for the integer
    rate to act).  The update throws only if the limit times the numerator
    does not fit 64 bits. *)
Theorem elastic_limit_bounds (v avg : Z) (p : elastic_limit_parameters) :
  is_u64 v -> params_ok p -> 1 <= max_multiplier p -> max p * max_multiplier p < 2 ^ 64 ->
  max p <= v <= max p * max_multiplier p ->
  v * numerator (contract_rate p) < 2 ^ 64 -> v * numerator (expand_rate p) < 2 ^ 64 ->
  numerator (contract_rate p) <= denominator (contract_rate p) ->
  denominator (expand_rate p) <= numerator (expand_rate p) ->
  exists v', update_elastic_limit v avg p = Ok v' /\
    max p <= v' <= max p * max_multiplier p /\
    (target p < avg -> v' <= v) /\ (avg <= target p -> v <= v') /\
    (avg <= target p -> v < max p * max_multiplier p ->
     denominator (expand_rate p) <= v * (numerator (expand_rate p) - denominator (expand_rate p)) ->
     v < v').
Proof.
  intros Hv (? & ? & ? & ? & ? & ? & ? & ?) Hm Hfit Hr Hcv Hev Hc He.
  unfold update_elastic_limit. rewrite (u64_small (max p * _)) by lia.
  destruct (target p <? avg) eqn:E; bool_to_prop.
  - rewrite ratio_mul_total by lia. cbn [mbind result_bind]. eexists. split; [reflexivity|].
    assert (v * numerator (contract_rate p) / denominator (contract_rate p) <= v)
      by (apply Z.div_le_upper_bound; nia).
    split_and!; lia.
  - rewrite ratio_mul_total by lia. cbn [mbind result_bind]. eexists. split; [reflexivity|].
    assert (v <= v * numerator (expand_rate p) / denominator (expand_rate p))
      by (apply Z.div_le_lower_bound; nia).
    split_and!; try lia. intros _ Hlt Hg.
    assert (v + 1 <= v * numerator (expand_rate p) / denominator (expand_rate p))
      by (apply Z.div_le_lower_bound; nia). lia.
Qed.

Lemma elastic_limit_bounds_witness :
  exists v', update_elastic_limit 200000 15000 (cpu_limit_parameters default_config) = Ok v' /\
    200000 < v' <= 200000000.
Proof.
  change (cpu_limit_parameters default_config) with
    (mk_elastic 20000 200000 120 1000 (mk_ratio 99 100) (mk_ratio 1000 999)).
  destruct (elastic_limit_bounds 200000 15000
    (mk_elastic 20000 200000 120 1000 (mk_ratio 99 100) (mk_ratio 1000 999))) as (v' & H & Hb & _ & _ & Hlt);
    [lia | unfold params_ok; cbn; lia | cbn; lia.. |].
  exists v'. split; [exact H|]. cbn in Hb, Hlt. lia.
Defined.

End ResourceLimits.
