(* ===== verification/UnappliedQueue.v ===== *)
(** * The queue of unapplied transactions:
      include/eosio/chain/unapplied_transaction_queue.hpp

    Module [UnappliedQueue] models the multi-index container with its three
    indices.  [by_type] and [by_expiry] are ordered and not unique, so equal
    elements keep the order in which they were linked into the index: each
    index is the list of its elements in iteration order.  [by_trx_id] is
    unique; a lookup in it is a search for the id.  The queue has no undo
    session: what an operation wrote before it throws stays.

    A stored callback is an identity; calling it is recorded in the log of
    the state. *)

From S2P Require Import Prelude Merkle.

Module UnappliedQueue.

Abbreviation transaction_id_type := Merkle.digest_type.

(** The parts of [transaction_metadata] that the queue reads, with the
    identity of the shared object ([trx_ptr]).  The sizes are what
    [get_unprunable_size] and [get_prunable_size] return. *)
Record transaction_metadata := mk_trx {
  trx_ptr : Z;
  trx_id : transaction_id_type;
  expiration : Z;
  unprunable_size : Z;
  prunable_size : Z;
}.

#[global] Instance transaction_metadata_eq_dec : EqDecision transaction_metadata.
Proof. solve_decision. Defined.

Inductive trx_enum_type :=
  | unknown | persisted | forked | aborted | incoming_persisted | incoming.

#[global] Instance trx_enum_type_eq_dec : EqDecision trx_enum_type.
Proof. solve_decision. Defined.

(** The value of the enumerator, the key of the index [by_type]. *)
Definition type_key (t : trx_enum_type) : Z :=
  match t with
  | unknown => 0 | persisted => 1 | forked => 2 | aborted => 3
  | incoming_persisted => 4 | incoming => 5
  end.

Abbreviation next_func_t := (option Z).

Record unapplied_transaction := mk_unapplied {
  trx_meta : transaction_metadata;
  expiry : Z;
  trx_type : trx_enum_type;
  return_failure_trace : bool;
  next : next_func_t;
}.

#[global] Instance unapplied_transaction_eq_dec : EqDecision unapplied_transaction.
Proof. solve_decision. Defined.

Definition id (t : unapplied_transaction) : transaction_id_type := trx_id (trx_meta t).

(** A call to a stored callback with an exception, or to the [callback]
    argument of [clear_expired]. *)
Inductive event :=
  | notified (n : Z) (e : chain_exception)
  | expired_callback (id : transaction_id_type) (t : trx_enum_type).

Record queue := mk_queue {
  by_type : list unapplied_transaction;
  by_expiry : list unapplied_transaction;
  max_transaction_queue_size : Z;
  size_in_bytes : Z;
  incoming_count : Z;
  log : list event;
}.

Definition initial_queue : queue := mk_queue [] [] (1024 * 1024 * 1024) 0 0 [].

Definition set_indices (q : queue) t e :=
  mk_queue t e (max_transaction_queue_size q) (size_in_bytes q) (incoming_count q) (log q).
Definition set_size (q : queue) s :=
  mk_queue (by_type q) (by_expiry q) (max_transaction_queue_size q) s (incoming_count q) (log q).
Definition set_incoming (q : queue) n :=
  mk_queue (by_type q) (by_expiry q) (max_transaction_queue_size q) (size_in_bytes q) n (log q).
Definition set_max_transaction_queue_size (q : queue) v :=
  mk_queue (by_type q) (by_expiry q) v (size_in_bytes q) (incoming_count q) (log q).
Definition emit (q : queue) ev :=
  mk_queue (by_type q) (by_expiry q) (max_transaction_queue_size q) (size_in_bytes q)
    (incoming_count q) (log q ++ [ev]).

Section queue.
(** [sizeof( transaction_metadata )] *)
Context (sizeof_trx : Z).

Definition op := stateful queue.

(** ** The container *)

Definition find_trx (q : queue) (i : transaction_id_type) : option unapplied_transaction :=
  snd <$> list_find (fun t => id t = i) (by_expiry q).

(** [queue.insert]: nothing happens when the id is there; the flag says
    whether the element was inserted. *)
Definition insert (t : unapplied_transaction) : op bool := fun q =>
  match find_trx q (id t) with
  | Some _ => (Ok false, q)
  | None =>
      (Ok true, set_indices q
        (insert_upper (fun t => type_key (trx_type t)) t (by_type q))
        (insert_upper expiry t (by_expiry q)))
  end.

Definition container_erase (q : queue) (i : transaction_id_type) : queue :=
  set_indices q (filter (fun t => id t <> i) (by_type q))
                (filter (fun t => id t <> i) (by_expiry q)).

(** [modify] of the type of an element: the index [by_type] links it again,
    after the elements of the new type; the index [by_expiry] keeps it in
    place. *)
Definition modify_type (q : queue) (i : transaction_id_type) (ty : trx_enum_type) : queue :=
  let upd t := mk_unapplied (trx_meta t) (expiry t) ty (return_failure_trace t) (next t) in
  match find_trx q i with
  | None => q
  | Some t =>
      set_indices q
        (insert_upper (fun t => type_key (trx_type t)) (upd t)
           (filter (fun t => id t <> i) (by_type q)))
        ((fun t => if decide (id t = i) then upd t else t) <$> by_expiry q)
  end.

(** ** Accounting *)

(** The two sizes are 32-bit and so are their sum and its double. *)
Definition calc_size (trx : transaction_metadata) : Z :=
  u64 (u32 (u32 (unprunable_size trx + prunable_size trx) * 2) + sizeof_trx).

Definition is_incoming (ty : trx_enum_type) : bool :=
  bool_decide (ty = incoming) || bool_decide (ty = incoming_persisted).

Definition added (t : unapplied_transaction) : op unit :=
  let size := calc_size (trx_meta t) in
  (if is_incoming (trx_type t) then
     modify (fun q => set_incoming q (u64 (incoming_count q + 1)));;
     q ← get;
     lift (EOS_ASSERT (u64 (size_in_bytes q + size) <? max_transaction_queue_size q)
             tx_resource_exhaustion)
   else mret tt);;
  modify (fun q => set_size q (u64 (size_in_bytes q + size))).

Definition removed (t : unapplied_transaction) (q : queue) : queue :=
  let q := if is_incoming (trx_type t) then set_incoming q (u64 (incoming_count q - 1)) else q in
  set_size q (u64 (size_in_bytes q - calc_size (trx_meta t))).

(** ** Operations *)

Definition empty (q : queue) : bool := bool_decide (by_type q = []).
Definition size (q : queue) : Z := Z.of_nat (length (by_type q)).
Definition clear : op unit := modify (fun q => set_indices q [] []).
Definition incoming_size (q : queue) : Z := incoming_count q.
Definition get_trx (q : queue) (i : transaction_id_type) : option transaction_metadata :=
  trx_meta <$> find_trx q i.

Definition call_next (n : next_func_t) (e : chain_exception) (q : queue) : queue :=
  match n with Some n => emit q (notified n e) | None => q end.

(** The loop of [clear_expired].  [clock k] is what the [k]-th call of
    [fc::time_point::now] returns. *)
Fixpoint clear_expired_loop (fuel : nat) (clock : nat -> Z) (k : nat)
    (pending_block_time deadline : Z) (q : queue) : bool * queue :=
  match fuel with
  | O => (true, q)
  | S fuel =>
      match by_expiry q with
      | [] => (true, q)
      | t :: _ =>
          if pending_block_time <? expiry t then (true, q)
          else if deadline <=? clock k then (false, q)
          else
            let q := emit q (expired_callback (id t) (trx_type t)) in
            let q := call_next (next t) expired_tx_exception q in
            let q := container_erase (removed t q) (id t) in
            clear_expired_loop fuel clock (S k) pending_block_time deadline q
      end
  end.

Definition clear_expired (clock : nat -> Z) (pending_block_time deadline : Z) (q : queue)
  : bool * queue :=
  clear_expired_loop (length (by_expiry q)) clock 0 pending_block_time deadline q.

(** What a receipt of a block holds. *)
Inductive receipt_trx :=
  | receipt_id (i : transaction_id_type)
  | receipt_packed (i : transaction_id_type).

Definition clear_receipt (q : queue) (r : receipt_trx) : queue :=
  match r with
  | receipt_id _ => q
  | receipt_packed i =>
      match find_trx q i with
      | Some t => container_erase (removed t (call_next (next t) tx_duplicate q)) (id t)
      | None => q
      end
  end.

Definition clear_applied (receipts : list receipt_trx) (q : queue) : queue :=
  if empty q then q else foldl clear_receipt q receipts.

Definition insert_and_count (t : unapplied_transaction) : op unit :=
  inserted ← insert t; if (inserted : bool) then added t else mret tt.

(** [forked_branch] holds the transactions of each block, latest block first. *)
Definition add_forked (forked_branch : list (list transaction_metadata)) : op unit :=
  iterM (iterM (fun trx => insert_and_count (mk_unapplied trx (expiration trx) forked false None)))
    (rev forked_branch).

Definition add_aborted (aborted_trxs : list transaction_metadata) : op unit :=
  iterM (fun trx => insert_and_count (mk_unapplied trx (expiration trx) aborted false None))
    aborted_trxs.

Definition add_persisted (trx : transaction_metadata) : op unit :=
  q ← get;
  match find_trx q (trx_id trx) with
  | None => insert_and_count (mk_unapplied trx (expiration trx) persisted false None)
  | Some t =>
      if bool_decide (trx_type t = persisted) then mret tt
      else
        (if is_incoming (trx_type t)
         then modify (fun q => set_incoming q (u64 (incoming_count q - 1))) else mret tt);;
        modify (fun q => modify_type q (trx_id trx) persisted)
  end.

Definition add_incoming (trx : transaction_metadata) (persist_until_expired rft : bool)
    (nxt : next_func_t) : op unit :=
  q ← get;
  match find_trx q (trx_id trx) with
  | None =>
      insert_and_count (mk_unapplied trx (expiration trx)
        (if persist_until_expired then incoming_persisted else incoming) rft nxt)
  | Some t =>
      if trx_ptr (trx_meta t) =? trx_ptr trx then mret tt
      else modify (call_next nxt tx_duplicate)
  end.

(** [erase( itr )] *)
Definition erase (t : unapplied_transaction) (q : queue) : queue :=
  container_erase (removed t q) (id t).

(** The ranges of the iterators over [by_type]. *)
Definition unapplied_range (q : queue) : list unapplied_transaction :=
  filter (fun t => type_key (trx_type t) <= type_key aborted) (by_type q).
Definition persisted_range (q : queue) : list unapplied_transaction :=
  filter (fun t => trx_type t = persisted) (by_type q).
Definition incoming_range (q : queue) : list unapplied_transaction :=
  filter (fun t => type_key incoming_persisted <= type_key (trx_type t)) (by_type q).

(** ** The invariant *)

Definition type_sorted : list unapplied_transaction -> Prop :=
  key_sorted (fun t => type_key (trx_type t)).

Definition bytes (l : list unapplied_transaction) : Z := sum_with (fun t => calc_size (trx_meta t)) l.
Definition incomings (l : list unapplied_transaction) : Z :=
  sum_with (fun t => if is_incoming (trx_type t) then 1 else 0) l.

(** The indices hold the same elements in their orders, the ids are unique,
    and the two counters are the size and the number of incoming
    transactions of the elements, up to the drifts [ds] and [dn]. *)
Record wf_with (ds dn : Z) (q : queue) : Prop := {
  wf_same : by_type q ≡ₚ by_expiry q;
  wf_ids : NoDup (id <$> by_expiry q);
  wf_by_type : type_sorted (by_type q);
  wf_by_expiry : key_sorted expiry (by_expiry q);
  wf_expiry : forall t, t ∈ by_expiry q -> expiry t = expiration (trx_meta t);
  wf_size : size_in_bytes q = u64 (bytes (by_expiry q) + ds);
  wf_incoming : incoming_count q = u64 (incomings (by_expiry q) + dn);
}.
Arguments wf_same {ds dn} q.
Arguments wf_ids {ds dn} q.
Arguments wf_by_expiry {ds dn} q.
Arguments wf_size {ds dn} q.

Lemma initial_wf : wf_with 0 0 initial_queue.
Proof. split; cbn; try done; try constructor. intros t Ht. by apply not_elem_of_nil in Ht. Qed.

Lemma u64_add_l a b : u64 (u64 a + b) = u64 (a + b).
Proof. unfold u64. apply Zplus_mod_idemp_l. Qed.
Lemma u64_sub_l a b : u64 (u64 a - b) = u64 (a - b).
Proof. unfold u64. apply Zminus_mod_idemp_l. Qed.

(** Changing a counter changes its drift. *)
Lemma set_size_with ds dn q k : wf_with ds dn q -> wf_with (ds + k) dn (set_size q (u64 (size_in_bytes q + k))).
Proof. intros []. split; try done. cbn [size_in_bytes set_size by_expiry]. rewrite wf_size0, u64_add_l. f_equal. lia. Qed.

Lemma set_incoming_with ds dn q k : wf_with ds dn q ->
  wf_with ds (dn + k) (set_incoming q (u64 (incoming_count q + k))).
Proof. intros []. split; try done. cbn [incoming_count set_incoming by_expiry]. rewrite wf_incoming0, u64_add_l. f_equal. lia. Qed.

Section drift.
Context (ds dn : Z).
Abbreviation wf := (wf_with ds dn).

Lemma find_trx_Some q i t : find_trx q i = Some t -> t ∈ by_expiry q /\ id t = i.
Proof.
  unfold find_trx. intros H. apply fmap_Some in H as ([k t'] & H & ->).
  apply list_find_Some in H as (Hk & Hid & _). split; [|done]. by eapply list_elem_of_lookup_2.
Qed.

Lemma find_trx_None q i t : find_trx q i = None -> t ∈ by_expiry q -> id t <> i.
Proof.
  unfold find_trx. intros H Ht. apply fmap_None, list_find_None in H.
  by eapply Forall_forall in H.
Qed.

Lemma find_trx_elem q t : NoDup (id <$> by_expiry q) -> t ∈ by_expiry q ->
  find_trx q (id t) = Some t.
Proof.
  intros Hq Ht. destruct (find_trx q (id t)) as [t'|] eqn:E.
  - apply find_trx_Some in E as [Ht' Hid]. f_equal.
    by eapply NoDup_key_inj.
  - by destruct (find_trx_None _ _ _ E Ht).
Qed.

(** Erasing an element of the queue keeps the counters exact. *)
Lemma erase_wf q t : wf q -> t ∈ by_expiry q -> wf (erase t q).
Proof.
  intros [Hsame Hids Hty Hex Hexp Hsz Hin] Ht.
  pose proof (filter_key_perm id _ _ Hids Ht) as Hp.
  assert (bytes (by_expiry q) = calc_size (trx_meta t)
    + bytes (filter (fun t' => id t' <> id t) (by_expiry q))) as Hb
    by (unfold bytes; rewrite Hp at 1; done).
  assert (incomings (by_expiry q) = (if is_incoming (trx_type t) then 1 else 0)
    + incomings (filter (fun t' => id t' <> id t) (by_expiry q))) as Hi
    by (unfold incomings; rewrite Hp at 1; done).
  unfold erase, container_erase, removed.
  split; destruct (is_incoming (trx_type t));
    cbn [by_type by_expiry size_in_bytes incoming_count set_indices set_size set_incoming];
    try (by rewrite Hsame); try (by apply NoDup_fmap_filter); try (by apply key_sorted_filter);
    try (intros x Hx; apply list_elem_of_filter in Hx as [_ Hx]; by apply Hexp);
    rewrite ?Hsz, ?Hin, ?u64_sub_l, ?Hb, ?Hi; f_equal; lia.
Qed.

Lemma call_next_wf q n e : wf q -> wf (call_next n e q).
Proof. intros []. destruct n; by split. Qed.

Lemma emit_wf q ev : wf q -> wf (emit q ev).
Proof. intros []. by split. Qed.

(** Inserting a new transaction that is not counted yet. *)
Lemma queue_insert_wf q t : wf q -> expiry t = expiration (trx_meta t) -> find_trx q (id t) = None ->
  wf_with (ds - calc_size (trx_meta t)) (dn - if is_incoming (trx_type t) then 1 else 0)
    (set_indices q (insert_upper (fun t => type_key (trx_type t)) t (by_type q))
       (insert_upper expiry t (by_expiry q))).
Proof.
  intros [Hsame Hids Hty Hex Hexp Hsz Hin] He E. pose proof (insert_upper_perm expiry t (by_expiry q)) as Hp.
  split; cbn [by_type by_expiry size_in_bytes incoming_count set_indices].
  - by rewrite !insert_upper_perm, Hsame.
  - rewrite Hp. constructor; [|done]. intros Ht. apply list_elem_of_fmap in Ht as (t' & Heq & Ht').
    by apply (find_trx_None _ _ _ E Ht').
  - by apply insert_upper_sorted.
  - by apply insert_upper_sorted.
  - intros x. rewrite Hp. intros Hx. apply elem_of_cons in Hx as [->|Hx]; auto.
  - rewrite Hsz. unfold bytes. rewrite Hp. f_equal. cbn. unfold sum_with. lia.
  - rewrite Hin. unfold incomings. rewrite Hp. f_equal. cbn. unfold sum_with. lia.
Qed.

(** Inserting a new transaction and counting it, when the size is accepted. *)
Lemma insert_and_count_wf q t q' : wf q -> expiry t = expiration (trx_meta t) ->
  insert_and_count t q = (Ok tt, q') -> wf q'.
Proof.
  intros Hq He H. unfold insert_and_count in H. inv_st. unfold insert in Hs.
  destruct (find_trx q (id t)) eqn:E; inv_st; cbv beta iota in H; [by inv_st|].
  pose proof (queue_insert_wf _ _ Hq He E) as Hi. unfold added in H.
  destruct (is_incoming (trx_type t)); inv_st.
  - apply (set_incoming_with _ _ _ 1), (set_size_with _ _ _ (calc_size (trx_meta t))) in Hi.
    by rewrite Z.sub_add, Z.sub_add in Hi.
  - rewrite Z.sub_0_r in Hi. apply (set_size_with _ _ _ (calc_size (trx_meta t))) in Hi. by rewrite Z.sub_add in Hi.
Qed.

Definition set_type (ty : trx_enum_type) (t : unapplied_transaction) : unapplied_transaction :=
  mk_unapplied (trx_meta t) (expiry t) ty (return_failure_trace t) (next t).

Lemma retype_perm l t ty : NoDup (id <$> l) -> t ∈ l ->
  ((fun t' => if decide (id t' = id t) then set_type ty t' else t') <$> l)
  ≡ₚ set_type ty t :: filter (fun t' => id t' <> id t) l.
Proof.
  intros Hd Ht. pose proof (filter_key_perm id _ _ Hd Ht) as Hp.
  rewrite Hp at 1. rewrite fmap_cons, decide_True by done. constructor.
  apply reflexive_eq. rewrite <- (list_fmap_id (filter _ l)) at 2.
  apply list_fmap_ext. intros k t' Hk.
  apply list_elem_of_lookup_2, list_elem_of_filter in Hk as [Hne _]. by rewrite decide_False.
Qed.

Lemma retype_sorted l t ty : key_sorted expiry l ->
  key_sorted expiry ((fun t' => if decide (id t' = id t) then set_type ty t' else t') <$> l).
Proof.
  induction 1 as [|x l Hl IH Hx]; [constructor|]. rewrite fmap_cons. constructor; [done|].
  apply Forall_fmap. eapply Forall_impl; [exact Hx|]. cbn. intros y Hy.
  by destruct (decide (id x = id t)), (decide (id y = id t)).
Qed.

(** Turning an element into one that is not incoming. *)
Lemma modify_type_wf q t ty : wf q -> t ∈ by_expiry q -> is_incoming ty = false ->
  wf (modify_type
        (if is_incoming (trx_type t) then set_incoming q (u64 (incoming_count q - 1)) else q)
        (id t) ty).
Proof.
  intros Hq Ht Hty'. pose proof (find_trx_elem _ _ (wf_ids _ Hq) Ht) as Hf.
  set (q1 := if is_incoming _ then _ else _).
  assert (by_type q1 = by_type q /\ by_expiry q1 = by_expiry q /\ size_in_bytes q1 = size_in_bytes q
    /\ find_trx q1 (id t) = Some t) as (Ht1 & He1 & Hs1 & Hf1)
    by (subst q1; by destruct (is_incoming (trx_type t))).
  destruct Hq as [Hsame Hids Hty Hex Hexp Hsz Hin].
  pose proof (filter_key_perm id _ _ Hids Ht) as Hp.
  pose proof (retype_perm _ _ ty Hids Ht) as Hr.
  assert (incoming_count q1 = u64 (incomings (filter (fun t' => id t' <> id t) (by_expiry q)) + dn)) as Hi1.
  { subst q1. unfold incomings in *. rewrite Hp in Hin. cbn [sum_with foldr] in Hin.
    destruct (is_incoming (trx_type t)); cbn [incoming_count set_incoming];
      rewrite Hin, ?u64_sub_l; f_equal; unfold sum_with; lia. }
  unfold modify_type. rewrite Hf1.
  split; cbn [by_type by_expiry size_in_bytes incoming_count set_indices];
    rewrite ?Ht1, ?He1, ?Hs1; fold (set_type ty) in *.
  - rewrite insert_upper_perm, Hr, Hsame. done.
  - rewrite Hr. rewrite Hp in Hids. exact Hids.
  - apply insert_upper_sorted, key_sorted_filter, Hty.
  - by apply retype_sorted.
  - intros x Hx. apply list_elem_of_fmap in Hx as (y & -> & Hy).
    destruct (decide (id y = id t)); cbn; by apply Hexp.
  - rewrite Hsz. unfold bytes. rewrite Hr, Hp at 1. done.
  - rewrite Hi1. unfold incomings. rewrite Hr. cbn [sum_with foldr trx_type set_type].
    by rewrite Hty'.
Qed.

(** ** Reachable queues *)

(** The public operations that return normally, with arguments that a caller
    can have; [clear] and the calls of [add_incoming] that throw are below. *)
Inductive step : queue -> queue -> Prop :=
  | step_set_max q v : step q (set_max_transaction_queue_size q v)
  | step_clear_expired q clock block_time deadline b q' :
      clear_expired clock block_time deadline q = (b, q') -> step q q'
  | step_clear_applied q receipts : step q (clear_applied receipts q)
  | step_add_forked q branch q' : add_forked branch q = (Ok tt, q') -> step q q'
  | step_add_aborted q trxs q' : add_aborted trxs q = (Ok tt, q') -> step q q'
  | step_add_persisted q trx q' : add_persisted trx q = (Ok tt, q') -> step q q'
  | step_add_incoming q trx p r n q' : add_incoming trx p r n q = (Ok tt, q') -> step q q'
  | step_erase q t : t ∈ by_type q -> step q (erase t q).

Lemma clear_expired_loop_wf fuel clock k bt dl q : wf q ->
  wf (clear_expired_loop fuel clock k bt dl q).2.
Proof.
  revert k q. induction fuel as [|fuel IH]; intros k q Hq; cbn [clear_expired_loop]; [done|].
  destruct (by_expiry q) as [|t l] eqn:E; [done|].
  destruct (bt <? expiry t); [done|]. destruct (dl <=? clock k); [done|].
  apply IH. apply (erase_wf (call_next (next t) expired_tx_exception
    (emit q (expired_callback (id t) (trx_type t))))).
  - by apply call_next_wf, emit_wf.
  - destruct (next t); cbn; rewrite E; left.
Qed.

Lemma clear_receipt_wf q r : wf q -> wf (clear_receipt q r).
Proof.
  intros Hq. destruct r as [i|i]; cbn; [done|]. destruct (find_trx q i) as [t|] eqn:E; [|done].
  apply find_trx_Some in E as [Ht _]. apply (erase_wf (call_next (next t) tx_duplicate q)).
  - by apply call_next_wf.
  - by destruct (next t).
Qed.

Lemma add_persisted_wf q trx q' : wf q -> add_persisted trx q = (Ok tt, q') -> wf q'.
Proof.
  intros Hq H. unfold add_persisted in H. inv_st.
  destruct (find_trx _ (trx_id trx)) as [t|] eqn:E; [|by eapply insert_and_count_wf in H].
  apply find_trx_Some in E as [Ht Hid]. rewrite <- Hid in *.
  pose proof (modify_type_wf _ t persisted Hq Ht eq_refl) as Hm.
  destruct (bool_decide (trx_type t = persisted)); inv_st; [done|].
  destruct (is_incoming (trx_type t)); by inv_st.
Qed.

Lemma add_incoming_wf q trx p r n q' : wf q -> add_incoming trx p r n q = (Ok tt, q') -> wf q'.
Proof.
  intros Hq H. unfold add_incoming in H. inv_st.
  destruct (find_trx _ (trx_id trx)) as [t|] eqn:E; [|by eapply insert_and_count_wf in H].
  destruct (_ =? _); inv_st; [done|by apply call_next_wf].
Qed.

Lemma queue_step_wf q q' : wf q -> step q q' -> wf q'.
Proof.
  intros Hq. destruct 1.
  - destruct Hq. by split.
  - replace q' with (b, q').2 by done. rewrite <- H. by apply clear_expired_loop_wf.
  - unfold clear_applied. destruct (empty q); [done|].
    revert q Hq. induction receipts; intros q Hq; cbn; [done|]. by apply IHreceipts, clear_receipt_wf.
  - eapply (iterM_inv wf); [|exact Hq|exact H]. intros l s s' _ Hs Hl.
    eapply (iterM_inv wf); [|exact Hs|exact Hl]. intros x s1 s2 _ Hs1. by apply insert_and_count_wf.
  - eapply (iterM_inv wf); [|exact Hq|exact H]. intros x s1 s2 _ Hs1. by apply insert_and_count_wf.
  - by eapply add_persisted_wf.
  - by eapply add_incoming_wf.
  - apply erase_wf; [done|]. by rewrite <- (wf_same _ Hq).
Qed.

(** A call of [add_incoming] that throws has put the transaction into the queue
    and counted it as incoming, but not its size. *)
Lemma refused_wf q trx p r n e q' : wf q -> add_incoming trx p r n q = (Throw e, q') ->
  wf_with (ds - calc_size trx) dn q'.
Proof.
  intros Hq H. unfold add_incoming in H. unfold mbind, stateful_bind, get in H.
  destruct (find_trx q (trx_id trx)) as [t|] eqn:E.
  { destruct (_ =? _); discriminate H. }
  set (t := mk_unapplied trx (expiration trx) _ r n) in H.
  assert (is_incoming (trx_type t) = true) as Hinc by (subst t; by destruct p).
  pose proof (queue_insert_wf q t Hq eq_refl E) as Hi. rewrite Hinc in Hi.
  apply (set_incoming_with _ _ _ 1) in Hi. rewrite Z.sub_add in Hi.
  unfold insert_and_count, insert, added, mbind, stateful_bind, lift, modify, get in H.
  change (id t) with (trx_id trx) in H. rewrite E, Hinc in H. cbn beta iota in H.
  destruct (EOS_ASSERT _ _) in H; [discriminate H|]. by injection H as _ <-.
Qed.

End drift.

(** The queue [q] and the drifts of its counters after a history of all public
    operations. *)
Inductive reached : Z -> Z -> queue -> Prop :=
  | reached_initial : reached 0 0 initial_queue
  | reached_step ds dn q q' : reached ds dn q -> step q q' -> reached ds dn q'
  | reached_clear ds dn q q' : reached ds dn q -> clear q = (Ok tt, q') ->
      reached (ds + bytes (by_type q)) (dn + incomings (by_type q)) q'
  | reached_refused ds dn q trx p r n e q' : reached ds dn q ->
      add_incoming trx p r n q = (Throw e, q') -> reached (ds - calc_size trx) dn q'.

Lemma clear_wf ds dn q q' : wf_with ds dn q -> clear q = (Ok tt, q') ->
  wf_with (ds + bytes (by_type q)) (dn + incomings (by_type q)) q'.
Proof.
  intros [Hsame _ _ _ _ Hsz Hin] [= <-]. split; cbn [by_type by_expiry set_indices size_in_bytes incoming_count].
  1-4: constructor. 1: by intros t ?%not_elem_of_nil.
  - rewrite Hsz. unfold bytes. rewrite Hsame. f_equal. cbn. lia.
  - rewrite Hin. unfold incomings. rewrite Hsame. f_equal. cbn. lia.
Qed.

Lemma reached_wf ds dn q : reached ds dn q -> wf_with ds dn q.
Proof. induction 1; eauto using initial_wf, queue_step_wf, clear_wf, refused_wf. Qed.

(** C39: after every history of the public operations, the two ordered indices
    hold the same transactions in their orders, ids are unique, every
    transaction is filed under its own expiration, and the counters
    [size_in_bytes] and [incoming_count], as 64-bit values, are the total size
    and the number of incoming transactions of the queue, up to a drift: what
    was in the queue at each call of [clear], which leaves both counters as
    they are, less the size of each transaction that [add_incoming] has refused
    with an exception, which stays in the queue without its size being counted.
    Without such calls the counters are exact. *)
Theorem queue_accounting (ds dn : Z) (q : queue) : reached ds dn q -> wf_with ds dn q.
Proof. apply reached_wf. Qed.

(** ** Expiration *)

(** What removing an expired transaction reports. *)
Definition expiry_events (t : unapplied_transaction) : list event :=
  expired_callback (id t) (trx_type t) ::
  match next t with Some n => [notified n expired_tx_exception] | None => [] end.

Definition expired (bt : Z) (t : unapplied_transaction) : Prop := expiry t <= bt.
#[local] Instance expired_dec bt t : Decision (expired bt t).
Proof. unfold expired. apply _. Defined.

(** The queue after the earliest transaction was reported and erased. *)
Definition expire_first (t : unapplied_transaction) (q : queue) : queue :=
  container_erase (removed t (call_next (next t) expired_tx_exception
    (emit q (expired_callback (id t) (trx_type t))))) (id t).

Section removal.
Context (ds dn : Z).
Abbreviation wf := (wf_with ds dn).

Lemma expire_first_spec q t l : wf q -> by_expiry q = t :: l ->
  wf (expire_first t q) /\ by_expiry (expire_first t q) = l /\
  by_type (expire_first t q) = filter (fun t' => id t' <> id t) (by_type q) /\
  log (expire_first t q) = log q ++ expiry_events t.
Proof.
  intros Hq E. split.
  { apply erase_wf; [by apply call_next_wf, emit_wf|]. destruct (next t); cbn; rewrite E; left. }
  pose proof (wf_ids _ Hq) as Hd. rewrite E, fmap_cons in Hd. apply NoDup_cons in Hd as [Hn Hd].
  assert (filter (fun t' => id t' <> id t) (by_expiry q) = l) as Hl.
  { rewrite E, filter_cons_False by (intros H; by apply H). apply list_filter_all.
    intros x Hx Heq. apply Hn. rewrite <- Heq. by apply list_elem_of_fmap_2. }
  unfold expire_first, expiry_events, container_erase, removed.
  destruct (next t), (is_incoming (trx_type t)); cbn;
    (split_and!; [exact Hl | done | by rewrite <- ?app_assoc]).
Qed.

Lemma clear_expired_loop_spec fuel clock k bt dl q b q' :
  wf q -> (length (by_expiry q) <= fuel)%nat ->
  clear_expired_loop fuel clock k bt dl q = (b, q') ->
  (b = true ->
     by_expiry q' = filter (fun t => ~ expired bt t) (by_expiry q) /\
     by_type q' = filter (fun t => ~ expired bt t) (by_type q) /\
     log q' = log q ++ (filter (expired bt) (by_expiry q) ≫= expiry_events)) /\
  ((forall j, clock j < dl) -> b = true).
Proof.
  revert k q. induction fuel as [|fuel IH]; intros k q Hq Hlen H; cbn [clear_expired_loop] in H.
  { injection H as <- <-. assert (by_expiry q = []) as E by (apply length_zero_iff_nil; lia).
    pose proof (wf_same _ Hq) as Hp. rewrite E in Hp. apply Permutation_nil_r in Hp.
    rewrite E, Hp. split; [|done]. intros _. cbn. by rewrite app_nil_r. }
  destruct (by_expiry q) as [|t l] eqn:E.
  { injection H as <- <-. pose proof (wf_same _ Hq) as Hp. rewrite E in Hp.
    apply Permutation_nil_r in Hp. rewrite E, Hp. split; [|done]. intros _. cbn. by rewrite app_nil_r. }
  destruct (bt <? expiry t) eqn:Et; bool_to_prop.
  { injection H as <- <-. split; [|done]. intros _.
    assert (forall x, x ∈ by_expiry q -> ~ expired bt x) as Hall.
    { pose proof (wf_by_expiry _ Hq) as Hs. rewrite E in Hs |- *. inversion_clear Hs.
      intros x Hx. unfold expired. apply elem_of_cons in Hx as [->|Hx]; [lia|].
      eapply Forall_forall in Hx; [|eassumption]. cbn in Hx. lia. }
    rewrite <- E, (list_filter_all _ (by_expiry q)) by done.
    rewrite (list_filter_all _ (by_type q)) by (intros x; rewrite (wf_same _ Hq); apply Hall).
    split_and!; [done..|]. rewrite (list_filter_none (expired bt)) by done. by rewrite app_nil_r. }
  destruct (dl <=? clock k) eqn:Ec; bool_to_prop.
  { injection H as <- <-. split; [done|]. intros Hc. specialize (Hc k). lia. }
  fold (expire_first t q) in H.
  destruct (expire_first_spec q t l Hq E) as (Hq1 & He1 & Ht1 & Hl1).
  eapply IH in H as [H1 H2]; [|done|rewrite He1; cbn in Hlen; lia].
  split; [|done]. intros Hb. destruct (H1 Hb) as (-> & -> & ->). rewrite He1, Ht1, Hl1.
  assert (expired bt t) as Hex by (unfold expired; lia).
  rewrite (filter_cons_False (fun t => ~ expired bt t)), (filter_cons_True (expired bt)) by auto.
  split_and!; [done| |by rewrite <- app_assoc].
  apply list_filter_filter_in. intros x Hx Hxe Heq.
  assert (x = t) as ->; [|done]. eapply NoDup_key_inj; [apply Hq| | |done].
  - by rewrite <- (wf_same _ Hq).
  - rewrite E. left.
Qed.

(** [clear_expired] removes exactly the expired transactions.  When it
    returns true, what is left, in both orders, are the transactions that
    expire after the block time, and each removed one was reported once, in
    the order of expiry, to the callback and to its own continuation.  It
    returns true whenever the deadline does not pass while it runs. *)
Theorem clear_expired_exact (clock : nat -> Z) (bt dl : Z) (q q' : queue) (b : bool) :
  wf q -> clear_expired clock bt dl q = (b, q') ->
  (b = true ->
     by_expiry q' = filter (fun t => ~ expired bt t) (by_expiry q) /\
     by_type q' = filter (fun t => ~ expired bt t) (by_type q) /\
     log q' = log q ++ (filter (expired bt) (by_expiry q) ≫= expiry_events)) /\
  ((forall j, clock j < dl) -> b = true).
Proof. intros Hq. by apply clear_expired_loop_spec. Qed.

(** ** Refused transactions *)

(** An incoming transaction that the size limit refuses is not removed:
    [add_incoming] throws [tx_resource_exhaustion], but the transaction is in
    the queue, is counted as incoming and is not counted in [size_in_bytes].
    Erasing it later still subtracts its size, which leaves the counter too
    small by that size. *)
Theorem refused_transaction_stays (q : queue) (trx : transaction_metadata) (p r : bool)
    (n : next_func_t) :
  wf q -> find_trx q (trx_id trx) = None ->
  max_transaction_queue_size q <= u64 (size_in_bytes q + calc_size trx) ->
  exists q' t, add_incoming trx p r n q = (Throw tx_resource_exhaustion, q') /\
    find_trx q' (trx_id trx) = Some t /\ trx_meta t = trx /\
    incoming_count q' = u64 (incoming_count q + 1) /\
    size_in_bytes (erase t q') = u64 (bytes (by_expiry q) + ds - calc_size trx) /\
    by_expiry (erase t q') = by_expiry q.
Proof.
  intros Hq Hnew Hbig.
  set (t := mk_unapplied trx (expiration trx)
    (if p then incoming_persisted else incoming) r n).
  assert (is_incoming (trx_type t) = true) as Hinc by (subst t; by destruct p).
  assert (forall y, y ∈ by_expiry q -> id y <> id t) as Hid
    by (intros y; by apply find_trx_None).
  set (q1 := set_incoming (set_indices q
    (insert_upper (fun t => type_key (trx_type t)) t (by_type q))
    (insert_upper expiry t (by_expiry q))) (u64 (incoming_count q + 1))).
  exists q1, t. split_and!; try done.
  - unfold add_incoming, insert_and_count, insert, added, lift, get, modify, mbind, stateful_bind.
    rewrite Hnew. fold t. change (id t) with (trx_id trx). rewrite Hnew, Hinc.
    cbn [set_indices set_incoming size_in_bytes max_transaction_queue_size].
    replace (_ <? _) with false by (symmetry; apply Z.ltb_ge; exact Hbig). done.
  - apply (find_trx_elem q1 t); cbn; rewrite insert_upper_perm; [|left].
    rewrite fmap_cons. constructor; [|apply Hq].
    intros H. apply list_elem_of_fmap in H as (y & Heq & Hy). by apply (Hid y).
  - unfold erase, container_erase, removed. rewrite Hinc. cbn.
    rewrite (wf_size _ Hq), u64_sub_l. done.
  - unfold erase, container_erase, removed. rewrite Hinc. cbn.
    apply insert_upper_filter; [intros H; by apply H|done].
Qed.

End removal.
End queue.

(** ** Witnesses *)

Definition d (n : Z) : Merkle.digest_type := Merkle.mk_digest n 0 0 0.
Definition trx (n exp : Z) : transaction_metadata := mk_trx n (d n) exp 150 50.

(** Two incoming transactions, the first made persistent. *)
Definition sample_ops : op unit :=
  add_incoming 400 (trx 1 100) false false (Some 7);;
  add_incoming 400 (trx 2 50) false false (Some 8);;
  add_persisted 400 (trx 1 100).

Definition sample : queue := (sample_ops initial_queue).2.

Lemma queue_sample_reached : reached 400 0 0 sample.
Proof.
  set (q1 := (add_incoming 400 (trx 1 100) false false (Some 7) initial_queue).2).
  set (q2 := (add_incoming 400 (trx 2 50) false false (Some 8) q1).2).
  apply (reached_step 400 0 0 q2); [|by apply (step_add_persisted 400 _ (trx 1 100))].
  apply (reached_step 400 0 0 q1); [|by apply (step_add_incoming 400 _ (trx 2 50) false false (Some 8))].
  apply (reached_step 400 0 0 initial_queue); [apply reached_initial|].
  by apply (step_add_incoming 400 _ (trx 1 100) false false (Some 7)).
Qed.

Lemma queue_sample_wf : wf_with 400 0 0 sample.
Proof. apply reached_wf, queue_sample_reached. Qed.

(** The queue is cleared and takes a third transaction. *)
Definition cleared : queue := ((clear;; add_incoming 400 (trx 3 70) false false None) sample).2.

Lemma queue_accounting_witness : wf_with 400 0 0 sample /\ wf_with 400 1600 1 cleared /\
  size_in_bytes cleared = 2400 /\ incoming_count cleared = 2.
Proof.
  split; [apply (queue_accounting 400 0 0 sample), queue_sample_reached|].
  split; [|by vm_compute]. apply (queue_accounting 400 1600 1 cleared).
  apply (reached_step 400 1600 1 (clear sample).2);
    [|by apply (step_add_incoming 400 _ (trx 3 70) false false None)].
  by apply (reached_clear 400 0 0 sample); [exact queue_sample_reached|].
Defined.

Lemma clear_expired_exact_witness :
  by_expiry (clear_expired 400 (fun _ => 0) 60 10 sample).2
  = [mk_unapplied (trx 1 100) 100 persisted false (Some 7)].
Proof.
  destruct (clear_expired_exact 400 0 0 (fun _ => 0) 60 10 sample
    (clear_expired 400 (fun _ => 0) 60 10 sample).2
    (clear_expired 400 (fun _ => 0) 60 10 sample).1 queue_sample_wf) as [H Hb].
  - apply surjective_pairing.
  - destruct H as (H & _ & _); [apply Hb; lia|]. rewrite H. reflexivity.
Defined.

(** A queue that is full for the next transaction. *)
Definition full_queue : queue := set_max_transaction_queue_size sample 2000.

Lemma refused_transaction_stays_witness :
  exists q' t, add_incoming 400 (trx 3 70) false false None full_queue
    = (Throw tx_resource_exhaustion, q') /\ find_trx q' (d 3) = Some t /\
    size_in_bytes (erase 400 t q') = 800.
Proof.
  destruct (refused_transaction_stays 400 0 0 full_queue (trx 3 70) false false None)
    as (q' & t & Ha & Hf & _ & _ & Hs & _).
  - destruct queue_sample_wf. by split.
  - reflexivity.
  - vm_compute. congruence.
  - exists q', t. split; [exact Ha|]. split; [exact Hf|]. rewrite Hs. reflexivity.
Defined.

End UnappliedQueue.
