(* ===== verification/ForkDatabase.v ===== *)
(** * The fork database: libraries/chain/fork_database.cpp

    Module [ForkDatabase] models the tree of reversible blocks.  The
    multi-index container is a finite map from block ids ([by_block_id]);
    the index [by_lib_block_num] is the list of its blocks in the order of
    its composite key, and [by_prev] is used only to enumerate the children
    of a block.  The root and the head are always set: the model starts from
    [reset].  The database has no undo session, so what an operation wrote
    before it throws stays.

    [open] and [close] are modelled on the records of the file; their
    encoding by fc::raw and the file system are left out. *)

From S2P Require Import Prelude Merkle.

Module ForkDatabase.

Abbreviation block_id_type := Merkle.digest_type.
Abbreviation digest_type := Merkle.digest_type.

(** The parts of [block_state] that the fork database reads.
    [new_protocol_features] is the [protocol_feature_activation] extension of
    the header, when there is one. *)
Record block_state := mk_block {
  id : block_id_type;
  previous : block_id_type;
  block_num : Z;
  dpos_irreversible_blocknum : Z;
  timestamp : Z;
  activated_protocol_features : list digest_type;
  new_protocol_features : option (list digest_type);
  validated : bool;
}.

#[global] Instance block_state_eq_dec : EqDecision block_state.
Proof. solve_decision. Defined.

Definition set_validated (v : bool) (b : block_state) : block_state :=
  mk_block (id b) (previous b) (block_num b) (dpos_irreversible_blocknum b) (timestamp b)
    (activated_protocol_features b) (new_protocol_features b) v.

(** [block_state::is_valid] *)
Definition is_valid (b : block_state) : bool := validated b.

Record fork_db := mk_fork_db {
  index : gmap block_id_type block_state;
  root : block_state;
  head : block_state;
}.

Definition set_index (db : fork_db) i := mk_fork_db i (root db) (head db).
Definition set_root (db : fork_db) r := mk_fork_db (index db) r (head db).
Definition set_head (db : fork_db) h := mk_fork_db (index db) (root db) h.

Definition op := stateful fork_db.

(** ** Orders *)

(** Lexicographic order of integer keys of the same length. *)
Fixpoint lex_le (a b : list Z) : bool :=
  match a, b with
  | x :: a, y :: b => (x <? y) || ((x =? y) && lex_le a b)
  | _, _ => true
  end.

(** The composite key of [by_lib_block_num]: valid blocks first, then the
    greater irreversible and block numbers, then the smaller id. *)
Definition lib_key (b : block_state) : list Z :=
  [ if is_valid b then 0 else 1; - dpos_irreversible_blocknum b; - block_num b;
    Merkle.h0 (id b); Merkle.h1 (id b); Merkle.h2 (id b); Merkle.h3 (id b) ].

Definition lib_le (a b : block_state) : Prop := lex_le (lib_key a) (lib_key b).

(** [index.get<by_lib_block_num>()] in iteration order. *)
Definition by_lib_block_num (db : fork_db) : list block_state :=
  merge_sort lib_le (snd <$> map_to_list (index db)).

Definition first_preferred (lhs rhs : block_state) : bool :=
  (dpos_irreversible_blocknum rhs <? dpos_irreversible_blocknum lhs) ||
  ((dpos_irreversible_blocknum lhs =? dpos_irreversible_blocknum rhs) &&
   (block_num rhs <? block_num lhs)).

(** The blocks whose previous block is [x]. *)
Definition children (db : fork_db) (x : block_id_type) : list block_id_type :=
  id <$> filter (fun b => previous b = x) (snd <$> map_to_list (index db)).

(** ** Queries *)

Definition get_block (db : fork_db) (i : block_id_type) : option block_state := index db !! i.

Definition get_block_header (db : fork_db) (i : block_id_type) : option block_state :=
  if decide (id (root db) = i) then Some (root db) else index db !! i.

Definition pending_head (db : fork_db) : block_state :=
  match filter (fun b => is_valid b = false) (by_lib_block_num db) with
  | b :: _ => if first_preferred b (head db) then b else head db
  | [] => head db
  end.

Fixpoint fetch_branch_loop (fuel : nat) (db : fork_db) (s : option block_state) (trim : Z)
  : list block_state :=
  match fuel, s with
  | S fuel, Some s =>
      (if block_num s <=? trim then [s] else []) ++
      fetch_branch_loop fuel db (get_block db (previous s)) trim
  | _, _ => []
  end.

Definition fetch_branch (db : fork_db) (h : block_id_type) (trim_after_block_num : Z)
  : list block_state :=
  fetch_branch_loop (size (index db)) db (get_block db h) trim_after_block_num.

Fixpoint search_loop (fuel : nat) (db : fork_db) (s : option block_state) (num : Z)
  : option block_state :=
  match fuel, s with
  | S fuel, Some s =>
      if block_num s =? num then Some s
      else search_loop fuel db (get_block db (previous s)) num
  | _, _ => None
  end.

Definition search_on_branch (db : fork_db) (h : block_id_type) (num : Z) : option block_state :=
  search_loop (size (index db)) db (get_block db h) num.

(** [(x == my->root->id) ? my->root : get_block(x)] followed by the
    assertion that the block is there. *)
Definition root_or_block (db : fork_db) (x : block_id_type) : result block_state :=
  match (if decide (x = id (root db)) then Some (root db) else get_block db x) with
  | Some b => Ok b
  | None => Throw fork_db_block_not_found
  end.

Definition block_or_throw (db : fork_db) (x : block_id_type) : result block_state :=
  match get_block db x with Some b => Ok b | None => Throw fork_db_block_not_found end.

(** The first two loops of [fetch_branch_from]: walk down from [b] while it
    is above [limit], collecting the blocks passed. *)
Fixpoint descend_to (fuel : nat) (db : fork_db) (b : block_state) (limit : Z)
    (acc : list block_state) : result (block_state * list block_state) :=
  match fuel with
  | O => Ok (b, acc)
  | S fuel =>
      if limit <? block_num b then
        p ← root_or_block db (previous b);
        descend_to fuel db p limit (acc ++ [b])
      else Ok (b, acc)
  end.

(** The third loop: walk down both branches until their previous blocks are
    the same. *)
Fixpoint descend_both (fuel : nat) (db : fork_db) (b1 b2 : block_state)
    (acc1 acc2 : list block_state)
  : result (block_state * block_state * list block_state * list block_state) :=
  match fuel with
  | O => Ok (b1, b2, acc1, acc2)
  | S fuel =>
      if decide (previous b1 = previous b2) then Ok (b1, b2, acc1, acc2)
      else
        p1 ← block_or_throw db (previous b1);
        p2 ← block_or_throw db (previous b2);
        descend_both fuel db p1 p2 (acc1 ++ [b1]) (acc2 ++ [b2])
  end.

Definition fetch_branch_from (db : fork_db) (first second : block_id_type)
  : result (list block_state * list block_state) :=
  let fuel := S (size (index db)) in
  first_branch ← root_or_block db first;
  second_branch ← root_or_block db second;
  '(first_branch, r1) ← descend_to fuel db first_branch (block_num second_branch) [];
  '(second_branch, r2) ← descend_to fuel db second_branch (block_num first_branch) [];
  if decide (id first_branch = id second_branch) then Ok (r1, r2)
  else
    '(b1, b2, r1, r2) ← descend_both fuel db first_branch second_branch r1 r2;
    Ok (r1 ++ [b1], r2 ++ [b2]).

(** ** Updates *)

Definition reset (root_bhs : block_state) : fork_db :=
  let r := set_validated true root_bhs in mk_fork_db ∅ r r.

Definition rollback_head_to_root (db : fork_db) : fork_db :=
  mk_fork_db (set_validated false <$> index db) (root db) (root db).

(** The first loop of [remove]: the deque of ids, split at the position of
    the loop into the ids already expanded and the ones still to expand. *)
Fixpoint collect (fuel : nat) (db : fork_db) (done todo : list block_id_type)
  : result (list block_id_type) :=
  match fuel with
  | O => Ok (done ++ todo)
  | S fuel =>
      match todo with
      | [] => Ok done
      | x :: todo =>
          EOS_ASSERT (negb (bool_decide (x = id (head db)))) fork_database_exception;;
          collect fuel db (done ++ [x]) (todo ++ children db x)
      end
  end.

Definition remove (i : block_id_type) : op unit :=
  db ← get;
  remove_queue ← lift (collect (S (S (size (index db)))) db [] [i]);
  put (set_index db (foldl (fun m x => delete x m) (index db) remove_queue)).

(** The loop of [advance_root]: the ids of the ancestors of a block, down to
    the root. *)
Fixpoint ancestors_loop (fuel : nat) (db : fork_db) (b : option block_state)
    (acc : list block_id_type) : result (list block_id_type) :=
  match fuel, b with
  | S fuel, Some b =>
      let acc := acc ++ [previous b] in
      let b' := get_block db (previous b) in
      EOS_ASSERT (bool_decide (is_Some b') || bool_decide (previous b = id (root db)))
        fork_database_exception;;
      ancestors_loop fuel db b' acc
  | _, _ => Ok acc
  end.

Definition advance_root (i : block_id_type) : op unit :=
  db ← get;
  match get_block db i with
  | None => lift (Throw fork_database_exception)
  | Some new_root =>
      lift (EOS_ASSERT (is_valid new_root) fork_database_exception);;
      blocks_to_remove ← lift (ancestors_loop (S (size (index db))) db (Some new_root) []);
      put (set_index db (delete i (index db)));;
      iterM remove blocks_to_remove;;
      modify (fun db => set_root db new_root)
  end.

(** The [validate] block of [fork_database_impl::add]: [validator] is the
    callback; every exception it throws becomes a [fork_database_exception]. *)
Definition check_features
    (validator : option (Z -> list digest_type -> list digest_type -> result unit))
    (prev_bh n : block_state) : result unit :=
  match validator, new_protocol_features n with
  | Some v, Some new_features =>
      match v (timestamp n) (activated_protocol_features prev_bh) new_features with
      | Ok _ => Ok tt
      | Throw _ => Throw fork_database_exception
      end
  | _, _ => Ok tt
  end.

(** [fork_database_impl::add] *)
Definition add_impl (validator : option (Z -> list digest_type -> list digest_type -> result unit))
    (n : block_state) (ignore_duplicate : bool) : op unit :=
  db ← get;
  match get_block_header db (previous n) with
  | None => lift (Throw unlinkable_block_exception)
  | Some prev_bh =>
      lift (check_features validator prev_bh n);;
      match index db !! id n with
      | Some _ =>
          if ignore_duplicate then mret tt else lift (Throw fork_database_exception)
      | None =>
          let db := set_index db (<[id n := n]> (index db)) in
          put (match by_lib_block_num db with
               | candidate :: _ => if is_valid candidate then set_head db candidate else db
               | [] => db
               end)
      end
  end.

Definition add (n : block_state) (ignore_duplicate : bool) : op unit :=
  add_impl None n ignore_duplicate.

Definition mark_valid (h : block_state) : op unit :=
  if validated h then mret tt
  else
    db ← get;
    match index db !! id h with
    | None => lift (Throw fork_database_exception)
    | Some b =>
        let db := set_index db (<[id h := set_validated true b]> (index db)) in
        put (match by_lib_block_num db with
             | candidate :: _ =>
                 if first_preferred candidate (head db) then set_head db candidate else db
             | [] => db
             end)
    end.

(** ** Saving and loading *)

Definition magic_number : Z := 0x30510FDB.
Definition min_supported_version : Z := 1.
Definition max_supported_version : Z := 1.

Record fork_db_file := mk_file {
  totem : Z;
  version : Z;
  root_bhs : block_state;
  blocks : list block_state;
  head_id : block_id_type;
}.

(** The loop of [close]: merge the blocks that are not valid and the valid
    ones, both in reverse index order, the less preferred first. *)
Fixpoint close_merge (unvalidated : list block_state) : list block_state -> list block_state :=
  fix aux (valid : list block_state) : list block_state :=
    match unvalidated, valid with
    | [], _ => valid
    | _, [] => unvalidated
    | u :: us, v :: vs => if first_preferred v u then u :: close_merge us valid else v :: aux vs
    end.

Definition close (db : fork_db) : fork_db_file * fork_db :=
  let indx := by_lib_block_num db in
  let unvalidated := rev (filter (fun b => is_valid b = false) indx) in
  let valid := rev (filter (fun b => is_valid b = true) indx) in
  (mk_file magic_number max_supported_version (root db) (close_merge unvalidated valid)
     (id (head db)),
   set_index db ∅).

(** [open] on the content of a file; the database before it is irrelevant. *)
Definition open (validator : Z -> list digest_type -> list digest_type -> result unit)
    (f : fork_db_file) : result fork_db :=
  EOS_ASSERT (totem f =? magic_number) fork_database_exception;;
  EOS_ASSERT ((min_supported_version <=? version f) && (version f <=? max_supported_version))
    fork_database_exception;;
  let '(r, db) := iterM (fun s => add_impl (Some validator) s false) (blocks f)
                    (reset (root_bhs f)) in
  r;;
  h ← (if decide (id (root db) = head_id f) then Ok (root db)
       else match get_block db (head_id f) with
            | Some b => Ok b
            | None => Throw fork_database_exception
            end);
  let db := set_head db h in
  match by_lib_block_num db with
  | candidate :: _ =>
      if is_valid candidate
      then EOS_ASSERT (negb (first_preferred candidate h)) fork_database_exception
      else EOS_ASSERT (bool_decide (id h = id (root db))) fork_database_exception
  | [] => EOS_ASSERT (bool_decide (id h = id (root db))) fork_database_exception
  end;;
  Ok db.

(** * Correctness *)

(** ** The tree *)

(** [y] is stored and its previous block is [x]. *)
Definition child (db : fork_db) (x y : block_id_type) : Prop :=
  exists b, index db !! y = Some b /\ previous b = x.
Definition descends (db : fork_db) : block_id_type -> block_id_type -> Prop := rtc (child db).

(** The invariant: the blocks form a tree over the root whose numbers grow by
    one; the head is the root or a valid block, and no valid block is preferred
    to it. *)
Record wf (db : fork_db) : Prop := {
  wf_key : forall i b, index db !! i = Some b -> id b = i;
  wf_root : index db !! id (root db) = None;
  wf_root_valid : validated (root db) = true;
  wf_link : forall i b, index db !! i = Some b ->
    exists p, get_block_header db (previous b) = Some p /\ block_num b = block_num p + 1;
  wf_above : forall i b, index db !! i = Some b -> block_num (root db) < block_num b;
  wf_head : head db = root db \/
    (index db !! id (head db) = Some (head db) /\ validated (head db) = true);
  wf_best : forall i b, index db !! i = Some b -> validated b = true ->
    first_preferred b (head db) = false;
}.

(** The irreversible numbers do not decrease from a block to the blocks on it.
    The dpos rule keeps this while the schedule does not change; after a change
    of the schedule a block can have a smaller number than its parent. *)
Definition monotone (db : fork_db) : Prop := forall i b p, index db !! i = Some b ->
  get_block_header db (previous b) = Some p ->
  dpos_irreversible_blocknum p <= dpos_irreversible_blocknum b.

(** What the walks need: keys are ids and the parent relation is ranked. *)
Record forest (rank : block_id_type -> Z) (db : fork_db) : Prop := {
  forest_key : forall i b, index db !! i = Some b -> id b = i;
  forest_rank : forall x y, child db x y -> rank x < rank y;
}.

Definition num_of (db : fork_db) (x : block_id_type) : Z :=
  match get_block_header db x with Some b => block_num b | None => 0 end.

Lemma get_block_header_index db i b : wf db -> index db !! i = Some b ->
  get_block_header db i = Some b.
Proof.
  intros Hdb Hi. unfold get_block_header. destruct (decide (id (root db) = i)) as [<-|]; [|done].
  by rewrite (wf_root _ Hdb) in Hi.
Qed.

Lemma wf_forest db : wf db -> forest (num_of db) db.
Proof.
  intros Hdb. split; [apply Hdb|]. intros x y (b & Hb & <-).
  destruct (wf_link _ Hdb _ _ Hb) as (p & Hp & Hn).
  unfold num_of. rewrite Hp, (get_block_header_index _ _ _ Hdb Hb). lia.
Qed.

Lemma descends_rank rank db x y : forest rank db -> descends db x y -> rank x <= rank y.
Proof.
  intros Hf. induction 1 as [|x z y Hxz _ IH]; [done|]. apply (forest_rank _ _ Hf) in Hxz. lia.
Qed.

Lemma child_fun db x x' y : child db x y -> child db x' y -> x = x'.
Proof. intros (b & Hb & <-) (b' & Hb' & <-). congruence. Qed.

Lemma elem_of_blocks db b : (forall i b, index db !! i = Some b -> id b = i) ->
  b ∈ (snd <$> map_to_list (index db)) <-> index db !! id b = Some b.
Proof.
  intros Hk. rewrite list_elem_of_fmap. split.
  - intros ([i b'] & -> & Hin). apply elem_of_map_to_list in Hin. cbn. by rewrite (Hk _ _ Hin).
  - intros Hb. exists (id b, b). split; [done|]. by apply elem_of_map_to_list.
Qed.

Lemma blocks_nodup db : (forall i b, index db !! i = Some b -> id b = i) ->
  NoDup (id <$> (snd <$> map_to_list (index db))).
Proof.
  intros Hk. rewrite <- list_fmap_compose.
  replace ((id ∘ snd) <$> map_to_list (index db)) with (fst <$> map_to_list (index db));
    [apply NoDup_fst_map_to_list|].
  apply list_fmap_ext. intros n [i b] Hn. apply list_elem_of_lookup_2, elem_of_map_to_list in Hn.
  cbn. symmetry. by apply Hk.
Qed.

Section collect.
Context (rank : block_id_type -> Z) (db : fork_db).
Hypothesis Hf : forest rank db.

Lemma elem_of_children x y : y ∈ children db x <-> child db x y.
Proof.
  unfold children, child. rewrite list_elem_of_fmap. split.
  - intros (b & -> & Hb). apply list_elem_of_filter in Hb as [Hp Hb].
    apply elem_of_blocks in Hb; [eauto|apply Hf].
  - intros (b & Hb & Hp). exists b. split; [symmetry; by eapply forest_key|].
    apply list_elem_of_filter. split; [done|]. apply elem_of_blocks; [apply Hf|].
    by rewrite (forest_key _ _ Hf _ _ Hb).
Qed.

Lemma children_nodup x : NoDup (children db x).
Proof. apply NoDup_fmap_filter, blocks_nodup, Hf. Qed.

(** What the first loop of [remove] has collected so far, starting from [i]. *)
Record collected (i : block_id_type) (done todo : list block_id_type) : Prop := {
  col_nodup : NoDup (done ++ todo);
  col_start : i ∈ done ++ todo;
  col_from : forall y, y ∈ done ++ todo -> y = i \/ exists x, x ∈ done /\ child db x y;
  col_desc : forall y, y ∈ done ++ todo -> descends db i y;
  col_closed : forall x y, x ∈ done -> child db x y -> y ∈ done ++ todo;
  col_head : id (head db) ∉ done;
}.

Lemma collected_start i : collected i [] [i].
Proof.
  split; cbn; [apply NoDup_singleton|by left| | | |]; try (by intros ? ? []%not_elem_of_nil).
  - intros y Hy%list_elem_of_singleton. by left.
  - intros y ->%list_elem_of_singleton. apply rtc_refl.
  - apply not_elem_of_nil.
Qed.

Lemma collected_bound i done todo : collected i done todo ->
  (length (done ++ todo) <= S (size (index db)))%nat.
Proof.
  intros [Hnd _ Hfrom _ _ _].
  assert (list_to_set (done ++ todo) ⊆ ({[ i ]} : gset block_id_type) ∪ dom (index db)) as Hsub.
  { intros y Hy. apply elem_of_list_to_set in Hy. destruct (Hfrom y Hy) as [->|(x & _ & b & Hb & _)];
      [set_solver|]. apply elem_of_union_r. by apply elem_of_dom_2 in Hb. }
  apply subseteq_size in Hsub. rewrite size_list_to_set in Hsub by done.
  rewrite <- (size_dom (index db)). etrans; [exact Hsub|].
  pose proof (size_union_alt ({[ i ]} : gset block_id_type) (dom (index db))) as Hu.
  rewrite Hu, size_singleton.
  assert (size (dom (index db) ∖ {[ i ]}) <= size (dom (index db)))%nat; [|lia].
  apply subseteq_size. set_solver.
Qed.

Lemma collected_step i done x todo : collected i done (x :: todo) -> x <> id (head db) ->
  collected i (done ++ [x]) (todo ++ children db x).
Proof.
  intros [Hnd Hst Hfrom Hdesc Hcl Hh] Hx.
  assert (forall l, (done ++ [x]) ++ todo ++ l ≡ₚ l ++ done ++ x :: todo) as Hperm
    by (intros l; solve_Permutation).
  assert (forall y, y ∈ (done ++ [x]) ++ todo ++ children db x <->
    y ∈ children db x \/ y ∈ done ++ x :: todo) as Helem
    by (intros y; by rewrite Hperm, elem_of_app).
  split.
  - rewrite Hperm. apply NoDup_app. split_and!; [apply children_nodup| |done].
    intros y Hy Hin. apply elem_of_children in Hy. destruct (Hfrom _ Hin) as [->|(x' & Hx' & Hc)].
    + apply (forest_rank _ _ Hf) in Hy.
      assert (rank i <= rank x) by (eapply descends_rank; [done|]; apply Hdesc; set_solver). lia.
    + rewrite (child_fun _ _ _ _ Hy Hc) in Hnd. apply NoDup_app in Hnd as (_ & Hnd & _).
      eapply Hnd; [exact Hx'|left].
  - apply Helem. by right.
  - intros y Hy. apply Helem in Hy as [Hy|Hy].
    + right. exists x. split; [set_solver|]. by apply elem_of_children.
    + destruct (Hfrom y Hy) as [->|(x' & Hx' & Hc)]; [by left|right]. exists x'. set_solver.
  - intros y Hy. apply Helem in Hy as [Hy|Hy]; [|by apply Hdesc].
    eapply rtc_r; [apply (Hdesc x); set_solver|by apply elem_of_children].
  - intros x' y Hx' Hc. apply Helem. apply elem_of_app in Hx' as [Hx'|Hx'].
    + right. by eapply Hcl.
    + apply list_elem_of_singleton in Hx' as ->. left. by apply elem_of_children.
  - intros Hin. apply elem_of_app in Hin as [?|Hin]; [done|].
    apply list_elem_of_singleton in Hin. congruence.
Qed.

Lemma collect_spec fuel i done todo : collected i done todo ->
  (S (S (size (index db))) <= fuel + length done)%nat ->
  match collect fuel db done todo with
  | Ok R => (forall y, y ∈ R <-> descends db i y) /\ ~ descends db i (id (head db))
  | Throw e => e = fork_database_exception /\ descends db i (id (head db))
  end.
Proof.
  revert done todo. induction fuel as [|fuel IH]; intros done todo Hc Hfuel; cbn [collect].
  { pose proof (collected_bound _ _ _ Hc) as Hb. rewrite length_app in Hb. lia. }
  destruct todo as [|x todo].
  - destruct Hc as [Hnd Hst Hfrom Hdesc Hcl Hh]. rewrite app_nil_r in *.
    assert (forall y, descends db i y -> y ∈ done) as Hall.
    { apply (rtc_ind_r (fun y => y ∈ done) i); [done|]. intros y z _ Hyz Hy. by eapply Hcl. }
    split; [|by intros ?%Hall]. intros y. split; auto.
  - destruct (decide (x = id (head db))) as [->|Hx].
    + rewrite bool_decide_true by done. cbn. split; [done|]. apply Hc. set_solver.
    + rewrite bool_decide_false by done. cbn [negb EOS_ASSERT mbind result_bind].
      apply IH; [by apply collected_step|]. rewrite length_app. cbn. lia.
Qed.

End collect.

Lemma foldl_delete_lookup (m : gmap block_id_type block_state) R y :
  foldl (fun m x => delete x m) m R !! y = if decide (y ∈ R) then None else m !! y.
Proof.
  revert m. induction R as [|x R IH]; intros m; cbn; [done|]. rewrite IH.
  destruct (decide (y ∈ R)), (decide (y ∈ x :: R)); try done; try set_solver.
  - assert (y = x) as -> by set_solver. apply lookup_delete_eq.
  - apply lookup_delete_ne. set_solver.
Qed.

Definition remove_all (R : list block_id_type) (db : fork_db) : fork_db :=
  set_index db (foldl (fun m x => delete x m) (index db) R).

Lemma remove_all_lookup R db y :
  index (remove_all R db) !! y = if decide (y ∈ R) then None else index db !! y.
Proof. apply foldl_delete_lookup. Qed.

(** [remove] in any ranked forest: it throws exactly when the head would go,
    without a change, and otherwise removes exactly the descendants. *)
Lemma remove_forest rank db i : forest rank db ->
  (descends db i (id (head db)) /\ remove i db = (Throw fork_database_exception, db)) \/
  (~ descends db i (id (head db)) /\ exists R, (forall y, y ∈ R <-> descends db i y) /\
   remove i db = (Ok tt, remove_all R db)).
Proof.
  intros Hf. unfold remove, get, lift, put, mbind, stateful_bind.
  pose proof (collect_spec rank db Hf (S (S (size (index db)))) i [] [i]) as Hc.
  destruct (collect _ db [] [i]) as [R|e].
  - right. destruct Hc as [HR Hh]; [apply collected_start|cbn; lia|]. split; [done|]. by exists R.
  - left. by destruct Hc as [-> Hh]; [apply collected_start|cbn; lia|].
Qed.

(** ** The index by irreversible block number *)

Lemma lex_le_total a b : lex_le a b = true \/ lex_le b a = true.
Proof.
  revert b. induction a as [|x a IH]; intros [|y b]; cbn; auto.
  destruct (Z.lt_trichotomy x y) as [H|[->|H]].
  - left. by replace (x <? y) with true by lia.
  - rewrite Z.ltb_irrefl, Z.eqb_refl. cbn. apply IH.
  - right. by replace (y <? x) with true by lia.
Qed.

Lemma lex_le_trans a b c : length a = length b -> length b = length c ->
  lex_le a b = true -> lex_le b c = true -> lex_le a c = true.
Proof.
  revert b c. induction a as [|x a IH]; intros [|y b] [|z c] Hab Hbc; try done; cbn in *.
  rewrite !orb_true_iff, !andb_true_iff, !Z.ltb_lt, !Z.eqb_eq.
  intros [H1|[-> H1]] [H2|[-> H2]]; try (left; lia). right. split; [done|].
  eapply IH; [| |exact H1|exact H2]; lia.
Qed.

#[local] Instance lib_le_total : Total lib_le.
Proof. intros a b. unfold lib_le. destruct (lex_le_total (lib_key a) (lib_key b)) as [->| ->]; auto. Qed.
#[local] Instance lib_le_trans : Transitive lib_le.
Proof.
  intros a b c Hab Hbc. unfold lib_le, Is_true in *.
  destruct (lex_le (lib_key a) (lib_key b)) eqn:E1, (lex_le (lib_key b) (lib_key c)) eqn:E2; try done.
  by rewrite (lex_le_trans (lib_key a) (lib_key b) (lib_key c)).
Qed.

Lemma by_lib_sorted db : StronglySorted lib_le (by_lib_block_num db).
Proof. apply StronglySorted_merge_sort; apply _. Qed.

Lemma elem_of_by_lib db b : (forall i b, index db !! i = Some b -> id b = i) ->
  b ∈ by_lib_block_num db <-> index db !! id b = Some b.
Proof. intros Hk. unfold by_lib_block_num. rewrite merge_sort_Permutation. by apply elem_of_blocks. Qed.

(** A block that comes first is valid if the other is, and is then at least
    as preferred. *)
Lemma lib_le_preferred a b : lib_le a b ->
  (validated b = true -> validated a = true) /\
  (validated a = validated b -> first_preferred b a = false).
Proof.
  unfold lib_le, lib_key, first_preferred, is_valid. cbn [lex_le]. intros H%Is_true_true.
  rewrite !orb_true_iff, !andb_true_iff, !Z.ltb_lt, !Z.eqb_eq in H.
  split.
  - intros Hb. rewrite Hb in H. destruct (validated a); [done|]. lia.
  - intros Hab. rewrite Hab in H.
    apply orb_false_iff. rewrite andb_false_iff, !Z.ltb_ge, Z.eqb_neq. lia.
Qed.

(** The first block of the index. *)
Lemma candidate_spec db c l : (forall i b, index db !! i = Some b -> id b = i) ->
  by_lib_block_num db = c :: l ->
  index db !! id c = Some c /\
  forall i b, index db !! i = Some b -> validated b = true ->
    validated c = true /\ first_preferred b c = false.
Proof.
  intros Hk E. split.
  { apply elem_of_by_lib; [done|]. rewrite E. left. }
  intros i b Hb Hv. assert (lib_le c b) as Hle.
  { assert (b ∈ by_lib_block_num db) as Hin
      by (apply elem_of_by_lib; [done|]; by rewrite (Hk _ _ Hb)).
    pose proof (by_lib_sorted db) as Hs. rewrite E in Hin, Hs. inversion_clear Hs as [|? ? _ Hall].
    apply elem_of_cons in Hin as [->|Hin]; [by destruct (lib_le_total c c)|].
    by eapply Forall_forall in Hall. }
  apply lib_le_preferred in Hle as [H1 H2]. split; [auto|]. apply H2. rewrite Hv. auto.
Qed.

Lemma by_lib_nil db i b : (forall i b, index db !! i = Some b -> id b = i) ->
  by_lib_block_num db = [] -> index db !! i = Some b -> False.
Proof.
  intros Hk E Hb. apply (not_elem_of_nil b). rewrite <- E. apply elem_of_by_lib; [done|].
  by rewrite (Hk _ _ Hb).
Qed.

(** A child is preferred to its parent, and everything to the root. *)
Lemma above_preferred b p : block_num p < block_num b ->
  dpos_irreversible_blocknum p <= dpos_irreversible_blocknum b -> first_preferred b p = true.
Proof.
  intros Hn Hd. unfold first_preferred. apply orb_true_iff.
  rewrite andb_true_iff, !Z.ltb_lt, Z.eqb_eq. lia.
Qed.

(** ** The operations keep the invariant *)

Lemma reset_wf r : wf (reset r).
Proof. split; try done. by left. Qed.

Lemma get_block_header_mono db m x b : index db ⊆ m -> get_block_header db x = Some b ->
  get_block_header (set_index db m) x = Some b.
Proof.
  intros Hm. unfold get_block_header. cbn. destruct (decide _); [done|]. intros Hx. by eapply lookup_weaken.
Qed.

(** What a block that is added must satisfy: it is not the root, and its number
    is the one after the number of its parent, from which
    [block_header_state::next] computes it. *)
Definition extends (db : fork_db) (n : block_state) : Prop :=
  id n <> id (root db) /\
  forall p, get_block_header db (previous n) = Some p -> block_num n = block_num p + 1.

(** Its irreversible number is not below that of its parent. *)
Definition keeps_lib (db : fork_db) (n : block_state) : Prop :=
  forall p, get_block_header db (previous n) = Some p ->
    dpos_irreversible_blocknum p <= dpos_irreversible_blocknum n.

Lemma header_above db x p : wf db -> get_block_header db x = Some p ->
  block_num (root db) <= block_num p.
Proof.
  intros Hdb. unfold get_block_header. destruct (decide _); [by intros [= <-]|].
  intros H%(wf_above _ Hdb). lia.
Qed.

(** The tree with a new leaf, before the head is chosen. *)
Lemma insert_leaf db n p : wf db -> extends db n -> index db !! id n = None ->
  get_block_header db (previous n) = Some p ->
  let db' := set_index db (<[id n := n]> (index db)) in
  (forall i b, index db' !! i = Some b -> id b = i) /\
  index db' !! id (root db) = None /\
  (forall i b, index db' !! i = Some b ->
    exists p, get_block_header db' (previous b) = Some p /\ block_num b = block_num p + 1) /\
  (forall i b, index db' !! i = Some b -> block_num (root db) < block_num b).
Proof.
  intros Hdb [Hroot Hext] Hnew Hp. cbn [index set_index].
  pose proof (Hext _ Hp) as Hn. pose proof (header_above _ _ _ Hdb Hp) as Ha.
  assert (index db ⊆ <[id n := n]> (index db)) as Hsub by (by apply insert_subseteq).
  split_and!.
  - intros i b Hb. apply lookup_insert_Some in Hb as [[<- <-]|[_ Hb]]; [done|by eapply wf_key].
  - rewrite lookup_insert_ne by done. apply Hdb.
  - intros i b Hb. apply lookup_insert_Some in Hb as [[<- <-]|[_ Hb]].
    + exists p. split; [by apply get_block_header_mono|done].
    + destruct (wf_link _ Hdb _ _ Hb) as (p' & Hp' & Hl). exists p'.
      split; [by apply get_block_header_mono|done].
  - intros i b Hb. apply lookup_insert_Some in Hb as [[<- <-]|[_ Hb]]; [lia|by eapply wf_above].
Qed.

(** The outcomes of [add_impl]. *)
Lemma add_impl_cases db n ign v r db' : add_impl v n ign db = (r, db') ->
  (db' = db /\ (exists e, r = Throw e)) \/
  (db' = db /\ r = Ok tt /\ ign = true /\ is_Some (index db !! id n)) \/
  (r = Ok tt /\ index db !! id n = None /\
   (exists p, get_block_header db (previous n) = Some p /\ check_features v p n = Ok tt) /\
   let db1 := set_index db (<[id n := n]> (index db)) in
   db' = match by_lib_block_num db1 with
         | candidate :: _ => if is_valid candidate then set_head db1 candidate else db1
         | [] => db1
         end).
Proof.
  intros H. unfold add_impl, get, lift, put, mbind, stateful_bind in H.
  destruct (get_block_header db (previous n)) as [p|] eqn:Ep; [|simplify_eq; eauto].
  destruct (check_features v p n) as [[]|e] eqn:Ev; [|simplify_eq; eauto].
  destruct (index db !! id n) eqn:En.
  - destruct ign; inversion H; subst; [right; left|left]; eauto.
  - inversion H; subst. right; right. split_and!; eauto.
Qed.

Lemma add_wf db n ign v r db' : wf db -> extends db n -> add_impl v n ign db = (r, db') -> wf db'.
Proof.
  intros Hdb Hext H.
  apply add_impl_cases in H as [[-> _]|[[-> _]|(_ & Hnew & (p & Hp & _) & H)]]; [done..|].
  destruct (insert_leaf _ _ _ Hdb Hext Hnew Hp) as (Hk & Hr & Hl & Ha).
  set (db1 := set_index db _) in *. cbn zeta in H.
  destruct (by_lib_block_num db1) as [|c l] eqn:E.
  { exfalso. apply (by_lib_nil db1 (id n) n Hk E). apply lookup_insert_eq. }
  destruct (candidate_spec _ _ _ Hk E) as [Hc Hbest].
  destruct (is_valid c) eqn:Ec; subst db'.
  - split; try done; [apply Hdb|by right|]. intros i b Hb Hv. by eapply Hbest.
  - assert (forall i b, index db1 !! i = Some b -> validated b = false) as Hnone.
    { intros i b Hb. destruct (validated b) eqn:Hv; [|done].
      destruct (Hbest _ _ Hb Hv). unfold is_valid in Ec. congruence. }
    split; try done; [apply Hdb| |].
    + left. destruct (wf_head _ Hdb) as [|[Hh Hv]]; [done|].
      assert (index db1 !! id (head db) = Some (head db)) as Hh'.
      { cbn. rewrite lookup_insert_ne; [done|]. intros Heq. by rewrite <- Heq, Hnew in Hh. }
      by rewrite (Hnone _ _ Hh') in Hv.
    + intros i b Hb Hv. by rewrite (Hnone _ _ Hb) in Hv.
Qed.

Lemma first_preferred_trans a b c : first_preferred a b = false -> first_preferred b c = false ->
  first_preferred a c = false.
Proof.
  unfold first_preferred. rewrite !orb_false_iff, !andb_false_iff, !Z.ltb_ge, !Z.eqb_neq. lia.
Qed.

Lemma first_preferred_asym a b : first_preferred a b = true -> first_preferred b a = false.
Proof.
  unfold first_preferred.
  rewrite !orb_false_iff, !orb_true_iff, !andb_false_iff, andb_true_iff,
    !Z.ltb_ge, !Z.ltb_lt, Z.eqb_eq, Z.eqb_neq. lia.
Qed.

Lemma set_validated_id b : validated b = true -> set_validated true b = b.
Proof. destruct b; cbn; by intros ->. Qed.

(** Changing only the [validated] flag of stored blocks keeps the tree. *)
Lemma revalidate_tree db (f : block_state -> bool) :
  wf db ->
  let db' := set_index db ((fun b => set_validated (f b) b) <$> index db) in
  (forall i b, index db' !! i = Some b -> id b = i) /\
  index db' !! id (root db) = None /\
  (forall i b, index db' !! i = Some b ->
    exists p, get_block_header db' (previous b) = Some p /\ block_num b = block_num p + 1) /\
  (forall i b, index db' !! i = Some b -> block_num (root db) < block_num b).
Proof.
  intros Hdb. cbn [index set_index]. split_and!.
  - intros i b Hb. rewrite lookup_fmap in Hb. apply fmap_Some in Hb as (b' & Hb & ->).
    cbn. by eapply wf_key.
  - rewrite lookup_fmap. by rewrite (wf_root _ Hdb).
  - intros i b Hb. rewrite lookup_fmap in Hb. apply fmap_Some in Hb as (b' & Hb & ->).
    destruct (wf_link _ Hdb _ _ Hb) as (p & Hp & Hl). cbn.
    unfold get_block_header in *. cbn. destruct (decide _); [eauto|].
    rewrite lookup_fmap, Hp. cbn. eexists. by split.
  - intros i b Hb. rewrite lookup_fmap in Hb. apply fmap_Some in Hb as (b' & Hb & ->).
    cbn. by eapply wf_above.
Qed.

Lemma rollback_wf db : wf db -> wf (rollback_head_to_root db).
Proof.
  intros Hdb. destruct (revalidate_tree db (fun _ => false) Hdb) as (Hk & Hr & Hl & Ha).
  split; try done; [apply Hdb|by left|]. cbn. intros i b Hb Hv.
  rewrite lookup_fmap in Hb. by apply fmap_Some in Hb as (b' & Hb & ->).
Qed.

Lemma mark_valid_wf db h r db' : wf db -> mark_valid h db = (r, db') -> wf db'.
Proof.
  intros Hdb H. unfold mark_valid, get, lift, put, mret, stateful_ret, mbind, stateful_bind in H.
  destruct (validated h); [by injection H as <- <-|].
  destruct (index db !! id h) as [b|] eqn:Eb; [|by injection H as <- <-].
  set (db1 := set_index db (<[id h := set_validated true b]> (index db))) in *.
  assert (db1 = set_index db ((fun x => set_validated (bool_decide (id x = id h) || validated x) x)
                                <$> index db)) as Hdb1.
  { subst db1. f_equal. apply map_eq. intros i. rewrite lookup_fmap.
    destruct (decide (i = id h)) as [->|Hne].
    - rewrite lookup_insert_eq, Eb. cbn. rewrite bool_decide_true by (by eapply wf_key). done.
    - rewrite lookup_insert_ne by done. destruct (index db !! i) as [x|] eqn:Ex; [|done]. cbn.
      rewrite bool_decide_false; [by destruct x|]. rewrite (wf_key _ Hdb _ _ Ex). done. }
  destruct (revalidate_tree db (fun x => bool_decide (id x = id h) || validated x) Hdb)
    as (Hk & Hr & Hl & Ha). rewrite <- Hdb1 in *.
  assert (head db1 = root db1 \/ (index db1 !! id (head db1) = Some (head db1) /\
    validated (head db1) = true)) as Hh.
  { destruct (wf_head _ Hdb) as [|[Hh Hv]]; [by left|right]. split; [|done]. cbn.
    destruct (decide (id h = id (head db))) as [Heq|Hne]; [|by rewrite lookup_insert_ne].
    rewrite Heq, lookup_insert_eq. rewrite Heq, Hh in Eb. simplify_eq. by rewrite set_validated_id. }
  destruct (by_lib_block_num db1) as [|c l] eqn:E.
  { exfalso. apply (by_lib_nil db1 (id h) (set_validated true b) Hk E). apply lookup_insert_eq. }
  destruct (candidate_spec _ _ _ Hk E) as [Hc Hbest].
  destruct (Hbest (id h) (set_validated true b) (lookup_insert_eq _ _ _) eq_refl) as [Hcv _].
  destruct (first_preferred c (head db1)) eqn:Ec; injection H as <- <-.
  - split; try done; [apply Hdb|by right|]. intros i x Hx Hv. by eapply Hbest.
  - split; try done; [apply Hdb|]. intros i x Hx Hv.
    eapply first_preferred_trans; [|exact Ec]. by eapply Hbest.
Qed.

(** ** Removing branches *)

Lemma child_sub db db' x y : index db' ⊆ index db -> child db' x y -> child db x y.
Proof. intros Hs (b & Hb & Hp). exists b. split; [by eapply lookup_weaken|done]. Qed.

Lemma descends_sub db db' x y : index db' ⊆ index db -> descends db' x y -> descends db x y.
Proof. intros Hs. apply rtc_subrel. intros ? ?. by apply child_sub. Qed.

Lemma forest_sub rank db db' : index db' ⊆ index db -> forest rank db -> forest rank db'.
Proof.
  intros Hs Hf. split.
  - intros i b Hb. eapply forest_key; [done|]. by eapply lookup_weaken.
  - intros x y Hc. eapply forest_rank; [done|]. by eapply child_sub.
Qed.

Lemma remove_all_sub R db : index (remove_all R db) ⊆ index db.
Proof.
  apply map_subseteq_spec. intros y b. rewrite remove_all_lookup. by destruct (decide _).
Qed.

(** A path to a block that stays survives the removal of a closed set. *)
Lemma descends_kept R db a y : (forall x z, x ∈ R -> child db x z -> z ∈ R) ->
  y ∉ R -> descends db a y -> descends (remove_all R db) a y.
Proof.
  intros Hcl Hy Hd. revert y Hd Hy. apply (rtc_ind_r (fun y => y ∉ R -> _ a y)).
  - intros _. apply rtc_refl.
  - intros z y _ Hzy IH Hy. eapply rtc_r; [apply IH; intros Hz; by eapply Hy, Hcl|].
    destruct Hzy as (b & Hb & Hp). exists b. split; [|done].
    by rewrite remove_all_lookup, decide_False.
Qed.

Lemma remove_all_app R1 R2 db : remove_all R2 (remove_all R1 db) = remove_all (R1 ++ R2) db.
Proof. unfold remove_all. cbn. by rewrite foldl_app. Qed.

(** Removing several blocks with their descendants. *)
Lemma removes_forest rank A db : forest rank db ->
  (forall a, a ∈ A -> ~ descends db a (id (head db))) ->
  exists R, (forall y, y ∈ R <-> exists a, a ∈ A /\ descends db a y) /\
    iterM remove A db = (Ok tt, remove_all R db).
Proof.
  revert db. induction A as [|a A IH]; intros db Hf Hh.
  { exists []. split; [|by destruct db]. intros y. split; [by intros ?%not_elem_of_nil|].
    by intros (a & ?%not_elem_of_nil & _). }
  destruct (remove_forest rank db a Hf) as [[Hd _]|(_ & R1 & HR1 & Hr1)];
    [by destruct (Hh a ltac:(left))|].
  pose proof (remove_all_sub R1 db) as Hsub.
  assert (forall x z, x ∈ R1 -> child db x z -> z ∈ R1) as Hcl
    by (intros x z Hx Hc; apply HR1; eapply rtc_r; [by apply HR1|done]).
  destruct (IH (remove_all R1 db)) as (R2 & HR2 & Hr2); [by eapply forest_sub| |].
  { intros x Hx Hd. apply (Hh x); [by right|]. by eapply descends_sub. }
  exists (R1 ++ R2). split.
  - intros y. rewrite elem_of_app, HR1, HR2. split.
    + intros [Hd|(x & Hx & Hd)]; [exists a; split; [left|done]|].
      exists x. split; [by right|by eapply descends_sub].
    + intros (x & Hx & Hd). apply elem_of_cons in Hx as [->|Hx]; [by left|].
      destruct (decide (y ∈ R1)) as [Hy|Hy]; [left; by apply HR1|right]. exists x.
      split; [done|by apply descends_kept].
  - cbn [iterM]. unfold mbind at 1, stateful_bind at 1. by rewrite Hr1, Hr2, remove_all_app.
Qed.

(** Taking a closed set of blocks without the head out of the tree. *)
Lemma remove_all_wf R db : wf db -> (forall x z, x ∈ R -> child db x z -> z ∈ R) ->
  id (head db) ∉ R -> wf (remove_all R db).
Proof.
  intros Hdb Hcl Hh. pose proof (remove_all_sub R db) as Hsub.
  assert (forall i b, index (remove_all R db) !! i = Some b -> index db !! i = Some b) as Hw
    by (intros i b Hb; by eapply lookup_weaken).
  split; cbn [root head remove_all set_index] in *.
  - intros i b Hb. by eapply wf_key, Hw.
  - destruct (index (remove_all R db) !! id (root db)) eqn:E; [|done].
    apply Hw in E. by rewrite (wf_root _ Hdb) in E.
  - apply Hdb.
  - intros i b Hb. pose proof (Hw _ _ Hb) as Hb'.
    destruct (wf_link _ Hdb _ _ Hb') as (p & Hp & Hl). exists p. split; [|done].
    unfold get_block_header in *. cbn [root remove_all set_index] in *.
    destruct (decide _); [done|]. fold (remove_all R db). rewrite remove_all_lookup in Hb |- *.
    destruct (decide (i ∈ R)) as [|Hi]; [done|].
    rewrite decide_False; [done|]. intros Hin. apply Hi. eapply Hcl; [exact Hin|].
    by exists b.
  - intros i b Hb. by eapply wf_above, Hw.
  - destruct (wf_head _ Hdb) as [|[Hi Hv]]; [by left|right]. split; [|done].
    fold (remove_all R db). by rewrite remove_all_lookup, decide_False.
  - intros i b Hb. by eapply wf_best, Hw.
Qed.

Lemma remove_wf db i r db' : wf db -> remove i db = (r, db') -> wf db'.
Proof.
  intros Hdb H. destruct (remove_forest _ _ i (wf_forest _ Hdb)) as [[_ E]|(Hh & R & HR & E)];
    rewrite E in H; injection H as <- <-; [done|].
  apply remove_all_wf; [done| |by rewrite HR].
  intros x z Hx Hc. apply HR. eapply rtc_r; [by apply HR|done].
Qed.

(** ** Walking to the root *)

(** Induction along the chain of parents of a stored block. *)
Lemma block_ind db (P : block_id_type -> block_state -> Prop) : wf db ->
  (forall i b, index db !! i = Some b -> previous b = id (root db) ->
     block_num b = block_num (root db) + 1 -> P i b) ->
  (forall i b p, index db !! i = Some b -> index db !! previous b = Some p ->
     block_num b = block_num p + 1 -> P (previous b) p -> P i b) ->
  forall i b, index db !! i = Some b -> P i b.
Proof.
  intros Hdb Hroot Hstep i b Hb.
  remember (Z.to_nat (block_num b - block_num (root db))) as n eqn:En. revert i b Hb En.
  induction n as [n IH] using lt_wf_ind; intros i b Hb En.
  destruct (wf_link _ Hdb _ _ Hb) as (p & Hp & Hn). unfold get_block_header in Hp.
  destruct (decide _) as [Heq|_]; [injection Hp as <-; by apply Hroot|].
  eapply Hstep; [done..|]. pose proof (wf_above _ Hdb _ _ Hp).
  eapply IH; [|done|reflexivity]. lia.
Qed.

Lemma descends_root db i b : wf db -> index db !! i = Some b -> descends db (id (root db)) i.
Proof.
  intros Hdb. revert i b. apply (block_ind db (fun i _ => descends db (id (root db)) i) Hdb).
  - intros i b Hb Hp _. apply rtc_once. by exists b.
  - intros i b p Hb _ _ IH. eapply rtc_r; [exact IH|]. by exists b.
Qed.

(** The depth of a block is at most the number of blocks. *)
Lemma depth_le_size db i b : wf db -> index db !! i = Some b ->
  block_num b - block_num (root db) <= Z.of_nat (size (index db)).
Proof.
  intros Hdb Hb.
  enough (exists l : list block_id_type, NoDup l /\
    Z.of_nat (length l) = block_num b - block_num (root db) /\
    forall x, x ∈ l -> exists b', index db !! x = Some b' /\ block_num b' <= block_num b)
    as (l & Hnd & Hlen & Hl).
  { assert (list_to_set l ⊆ (dom (index db) : gset block_id_type)) as Hsub.
    { intros x Hx. apply elem_of_list_to_set, Hl in Hx as (b' & Hb' & _).
      by apply elem_of_dom_2 in Hb'. }
    apply subseteq_size in Hsub. rewrite size_list_to_set, size_dom in Hsub by done. lia. }
  revert i b Hb. apply (block_ind db (fun i b => exists l : list block_id_type, NoDup l /\
    Z.of_nat (length l) = block_num b - block_num (root db) /\
    forall x, x ∈ l -> exists b', index db !! x = Some b' /\ block_num b' <= block_num b) Hdb).
  - intros i b Hb _ Hn. exists [i]. split_and!; [apply NoDup_singleton|cbn; lia|].
    intros x ->%list_elem_of_singleton. exists b. split; [done|lia].
  - intros i b p Hb Hp Hn (l & Hnd & Hlen & Hl). exists (i :: l). split_and!.
    + constructor; [|done]. intros Hi. destruct (Hl _ Hi) as (b' & Hb' & Hle).
      assert (b' = b) as -> by congruence. lia.
    + cbn [length]. lia.
    + intros x Hx. apply elem_of_cons in Hx as [->|Hx]; [exists b; split; [done|lia]|].
      destruct (Hl _ Hx) as (b' & Hb' & Hle). exists b'. split; [done|lia].
Qed.

Lemma descends_dec db i y : wf db -> descends db i y \/ ~ descends db i y.
Proof.
  intros Hdb. destruct (decide (y = i)) as [->|Hne]; [left; apply rtc_refl|].
  destruct (index db !! y) as [b|] eqn:Eb.
  2: { right. intros Hd. apply rtc_inv_r in Hd as [->|(z & _ & b & Hb & _)]; congruence. }
  revert y b Eb Hne. apply (block_ind db (fun y _ => y <> i -> descends db i y \/ ~ descends db i y) Hdb).
  - intros y b Hb Hp _ Hne. destruct (decide (i = id (root db))) as [->|Hi].
    + left. apply rtc_once. by exists b.
    + right. intros Hd. apply rtc_inv_r in Hd as [->|(z & Hz & b' & Hb' & Hp')]; [done|].
      simplify_eq. rewrite Hp in Hz. apply rtc_inv_r in Hz as [->|(w & _ & b'' & Hb'' & _)]; [done|].
      by rewrite (wf_root _ Hdb) in Hb''.
  - intros y b p Hb Hp _ IH Hne. destruct (decide (previous b = i)) as [<-|Hpi].
    + left. apply rtc_once. by exists b.
    + destruct (IH Hpi) as [Hd|Hd].
      * left. eapply rtc_r; [exact Hd|]. by exists b.
      * right. intros Hd'. apply rtc_inv_r in Hd' as [->|(z & Hz & b' & Hb' & Hp')]; [done|].
        by simplify_eq.
Qed.

(** The loop of [advance_root] collects proper ancestors, the root included. *)
Lemma ancestors_loop_ok db i b fuel acc : wf db -> index db !! i = Some b ->
  block_num b - block_num (root db) <= Z.of_nat fuel ->
  exists A, ancestors_loop fuel db (Some b) acc = Ok (acc ++ A) /\ id (root db) ∈ A /\
    forall a, a ∈ A -> num_of db a < num_of db i.
Proof.
  intros Hdb Hb. revert fuel acc. revert i b Hb.
  apply (block_ind db (fun i b => forall fuel acc, block_num b - block_num (root db) <= Z.of_nat fuel ->
    exists A, ancestors_loop fuel db (Some b) acc = Ok (acc ++ A) /\ id (root db) ∈ A /\
    forall a, a ∈ A -> num_of db a < num_of db i) Hdb).
  - intros i b Hb Hp Hn fuel acc Hfuel. destruct fuel as [|fuel]; [lia|]. cbn [ancestors_loop].
    exists [id (root db)]. unfold get_block. rewrite Hp, (wf_root _ Hdb).
    rewrite (bool_decide_true (_ = _)), orb_true_r by done. split_and!; [by destruct fuel|left|].
    intros a ->%list_elem_of_singleton. apply (forest_rank _ _ (wf_forest _ Hdb)). by exists b.
  - intros i b p Hb Hp Hn IH fuel acc Hfuel. pose proof (wf_above _ Hdb _ _ Hb).
    destruct fuel as [|fuel]; [lia|]. cbn [ancestors_loop].
    unfold get_block. rewrite Hp, (bool_decide_true (is_Some _)) by done.
    cbn [orb EOS_ASSERT mbind result_bind].
    destruct (IH fuel (acc ++ [previous b]) ltac:(lia)) as (A & -> & HA & Hnum).
    exists (previous b :: A). split_and!; [by rewrite <- app_assoc|by right|].
    assert (num_of db (previous b) < num_of db i) as Hlt
      by (apply (forest_rank _ _ (wf_forest _ Hdb)); by exists b).
    intros a Ha. apply elem_of_cons in Ha as [->|Ha]; [done|]. specialize (Hnum _ Ha). lia.
Qed.

(** ** Advancing the root *)

Section advance.
Context (db : fork_db) (i : block_id_type) (nr : block_state).
Hypothesis Hdb : wf db.
Hypothesis Hi : index db !! i = Some nr.

(** The database after the new root was erased from the index. *)
Definition without_root : fork_db := set_index db (delete i (index db)).

Lemma without_root_sub : index without_root ⊆ index db.
Proof. apply delete_subseteq. Qed.

Lemma child_without_root x y : child without_root x y <-> child db x y /\ y <> i.
Proof.
  unfold child. cbn. split.
  - intros (b & Hb & Hp). apply lookup_delete_Some in Hb as [Hne Hb]. split; [eauto|done].
  - intros [(b & Hb & Hp) Hne]. exists b. split; [|done]. by rewrite lookup_delete_ne.
Qed.

(** A proper ancestor of the new root no longer reaches its descendants. *)
Lemma cut_off a y : num_of db a < num_of db i -> descends db i y ->
  descends without_root a y -> False.
Proof.
  intros Ha Hiy Hay. revert y Hay Hiy.
  apply (rtc_ind_r (fun y => descends db i y -> False)).
  - intros Hd. apply (descends_rank _ _ _ _ (wf_forest _ Hdb)) in Hd. lia.
  - intros z y _ [Hzy Hne]%child_without_root IH Hd. apply IH.
    apply rtc_inv_r in Hd as [->|(z' & Hz' & Hc)]; [done|].
    by rewrite (child_fun _ _ _ _ Hzy Hc).
Qed.

(** The root still reaches every block that is not below the new root. *)
Lemma still_reached y b : index db !! y = Some b -> ~ descends db i y ->
  descends without_root (id (root db)) y.
Proof.
  intros Hb Hny. pose proof (descends_root _ _ _ Hdb Hb) as Hd. clear b Hb. revert y Hd Hny.
  apply (rtc_ind_r (fun y => ~ descends db i y -> descends without_root (id (root db)) y)).
  - intros _. apply rtc_refl.
  - intros z y _ Hzy IH Hny. eapply rtc_r; [apply IH|].
    + intros Hd. apply Hny. by eapply rtc_r.
    + apply child_without_root. split; [done|]. intros ->. apply Hny, rtc_refl.
Qed.

Lemma advance_root_ok : validated nr = true -> descends db i (id (head db)) ->
  exists db', advance_root i db = (Ok tt, db') /\ root db' = nr /\ head db' = head db /\
    (forall y b, index db' !! y = Some b <->
       index db !! y = Some b /\ y <> i /\ descends db i y).
Proof.
  intros Hv Hh.
  destruct (ancestors_loop_ok db i nr (S (size (index db))) [] Hdb Hi) as (A & HA & Hroot & Hnum).
  { pose proof (depth_le_size _ _ _ Hdb Hi). lia. }
  destruct (removes_forest (num_of db) A without_root) as (R & HR & Hrem).
  { eapply forest_sub; [apply without_root_sub|by apply wf_forest]. }
  { intros a Ha Hd. by eapply (cut_off a (id (head db))); [apply Hnum| |]. }
  exists (set_root (remove_all R without_root) nr). split_and!; [|done..|].
  - unfold advance_root, get, lift, put, modify, mbind, stateful_bind, get_block, is_valid.
    rewrite Hi, Hv. cbn [EOS_ASSERT]. rewrite HA. cbn [app]. fold without_root. by rewrite Hrem.
  - intros y b. change (index (set_root (remove_all R without_root) nr))
      with (index (remove_all R without_root)).
    rewrite remove_all_lookup. change (index without_root) with (delete i (index db)).
    destruct (decide (y ∈ R)) as [Hy|Hy].
    + split; [done|]. intros (_ & _ & Hd). apply HR in Hy as (a & Ha & Hda). exfalso.
      by eapply cut_off; [apply Hnum| |].
    + rewrite lookup_delete_Some. split; [|intros (Hb & Hne & _); split; [congruence|done]].
      intros [Hne Hb]. split_and!; [done|congruence|].
      destruct (descends_dec db i y Hdb) as [|Hny]; [done|]. destruct Hy. apply HR.
      exists (id (root db)). split; [done|]. by eapply still_reached.
Qed.

(** A proper descendant is above. *)
Lemma descends_above y b : descends db i y -> index db !! y = Some b -> y <> i ->
  block_num nr < block_num b.
Proof.
  intros Hd. revert y Hd b. apply (rtc_ind_r (fun y => forall b, index db !! y = Some b -> y <> i ->
    block_num nr < block_num b)); [done|].
  intros z y Hdz (b' & Hb' & Hpz) IH b Hb Hne. assert (b' = b) as -> by congruence. subst z.
  destruct (wf_link _ Hdb _ _ Hb) as (p & Hp & Hn).
  destruct (decide (previous b = i)) as [Heq|Hpi].
  - rewrite Heq, (get_block_header_index _ _ _ Hdb Hi) in Hp. injection Hp as <-. lia.
  - apply rtc_inv_r in Hdz as [?|(w & _ & b' & Hb'' & _)]; [done|].
    rewrite (get_block_header_index _ _ _ Hdb Hb'') in Hp. injection Hp as <-.
    specialize (IH _ Hb'' Hpi). lia.
Qed.

Lemma advance_root_wf db' : root db' = nr -> head db' = head db -> validated nr = true ->
  descends db i (id (head db)) ->
  (forall y b, index db' !! y = Some b <-> index db !! y = Some b /\ y <> i /\ descends db i y) ->
  wf db'.
Proof.
  intros Hr Hh Hv Hd Hx.
  assert (id nr = i) as Hid by (by eapply wf_key).
  split; rewrite ?Hr, ?Hh; try done.
  - intros y b [Hb _]%Hx. by eapply wf_key.
  - destruct (index db' !! id nr) eqn:E; [|done]. by apply Hx in E as (_ & [] & _).
  - intros y b (Hb & Hne & Hdy)%Hx. destruct (wf_link _ Hdb _ _ Hb) as (p & Hp & Hl).
    exists p. split; [|done]. apply rtc_inv_r in Hdy as [->|(z & Hz & b' & Hb' & Hpz)]; [done|].
    assert (b' = b) as -> by congruence. subst z. unfold get_block_header. rewrite Hr, Hid. destruct (decide (i = previous b)) as [Heq|Hn].
    + rewrite <- Heq, (get_block_header_index _ _ _ Hdb Hi) in Hp. congruence.
    + apply Hx. split_and!; [|done..]. unfold get_block_header in Hp.
      destruct (decide _) as [Heq|]; [|done]. exfalso. rewrite <- Heq in Hz, Hn.
      apply rtc_inv_r in Hz as [?|(w & _ & b' & Hb'' & _)]; [done|].
      by rewrite (wf_root _ Hdb) in Hb''.
  - intros y b (Hb & Hne & Hdy)%Hx.
    by eapply descends_above.
  - destruct (decide (id (head db) = i)) as [Heq|Hne].
    + left. destruct (wf_head _ Hdb) as [Hhr|[Hhi _]].
      * exfalso. rewrite Hhr in Heq. rewrite <- Heq, (wf_root _ Hdb) in Hi. done.
      * rewrite Heq in Hhi. congruence.
    + right. destruct (wf_head _ Hdb) as [Hhr|[Hhi Hhv]].
      * exfalso. rewrite Hhr in Hd, Hne. apply rtc_inv_r in Hd as [?|(w & _ & b' & Hb'' & _)]; [done|].
        by rewrite (wf_root _ Hdb) in Hb''.
      * split; [|done]. by apply Hx.
  - intros y b [Hb _]%Hx. by eapply wf_best.
Qed.

(** A call off the branch of the head does not succeed. *)
Lemma removes_throw rank A db1 a : forest rank db1 -> a ∈ A -> descends db1 a (id (head db1)) ->
  exists e db2, iterM remove A db1 = (Throw e, db2).
Proof.
  revert db1. induction A as [|x A IH]; intros db1 Hf Ha Hd; [by apply not_elem_of_nil in Ha|].
  cbn [iterM]. unfold mbind at 1, stateful_bind at 1.
  destruct (remove_forest rank db1 x Hf) as [[_ ->]|(Hx & R & HR & ->)]; [eauto|].
  apply elem_of_cons in Ha as [->|Ha]; [done|].
  apply IH; [by eapply forest_sub; [apply remove_all_sub|]|done|].
  apply descends_kept; [|by rewrite HR|done]. intros u z Hu Hc. apply HR. eapply rtc_r; [by apply HR|done].
Qed.

Lemma advance_root_on_branch db' : advance_root i db = (Ok tt, db') ->
  validated nr = true /\ descends db i (id (head db)).
Proof.
  unfold advance_root, get, lift, put, modify, mbind, stateful_bind, get_block, is_valid. rewrite Hi.
  destruct (validated nr) eqn:Hv; [|done]. cbn [EOS_ASSERT]. intros H1. split; [done|].
  destruct (ancestors_loop_ok db i nr (S (size (index db))) [] Hdb Hi) as (A & HA & Hroot & _).
  { pose proof (depth_le_size _ _ _ Hdb Hi). lia. }
  rewrite HA in H1. cbn [app] in H1. fold without_root in H1.
  destruct (descends_dec db i (id (head db)) Hdb) as [|Hno]; [done|].
  destruct (removes_throw (num_of db) A without_root (id (root db))) as (e & db2 & E); [|exact Hroot| |by rewrite E in H1].
  - eapply forest_sub; [apply without_root_sub|by apply wf_forest].
  - change (head without_root) with (head db).
    destruct (wf_head _ Hdb) as [->|[Hh _]]; [apply rtc_refl|by eapply still_reached].
Qed.

(** The irreversible numbers. *)
Lemma advance_root_monotone db' : root db' = nr -> monotone db ->
  (forall y b, index db' !! y = Some b <-> index db !! y = Some b /\ y <> i /\ descends db i y) ->
  monotone db'.
Proof.
  intros Hr Hm Hx y b p (Hb & _)%Hx Hp. apply (Hm y b p Hb). unfold get_block_header in Hp.
  rewrite Hr in Hp. destruct (decide _) as [Heq|_].
  - injection Hp as <-. rewrite <- Heq, (wf_key _ Hdb _ _ Hi). by apply get_block_header_index.
  - apply Hx in Hp as (Hp & _). by apply get_block_header_index.
Qed.

End advance.

(** ** Irreversible numbers *)

Lemma reset_monotone r : monotone (reset r).
Proof. intros i b p Hb. done. Qed.

Lemma monotone_index db m h : monotone db ->
  (forall i b, m !! i = Some b -> exists b', index db !! i = Some b' /\ previous b = previous b' /\
     dpos_irreversible_blocknum b = dpos_irreversible_blocknum b') ->
  monotone (mk_fork_db m (root db) h).
Proof.
  intros Hm Hs i b p Hb Hp. apply Hs in Hb as (b' & Hb & Ep & El). rewrite El. unfold get_block_header in Hp. cbn in Hp.
  destruct (decide _) as [Heq|Hne].
  - injection Hp as <-. apply (Hm i b' (root db) Hb). unfold get_block_header. by rewrite <- Ep, decide_True.
  - apply Hs in Hp as (p' & Hp & _ & ->). apply (Hm i b' p' Hb). unfold get_block_header. by rewrite <- Ep, decide_False.
Qed.

Lemma rollback_monotone db : monotone db -> monotone (rollback_head_to_root db).
Proof.
  intros Hm. apply (monotone_index db _ _ Hm). intros i b Hb. rewrite lookup_fmap in Hb.
  apply fmap_Some in Hb as (b' & Hb & ->). by exists b'.
Qed.

Lemma remove_all_monotone R db : monotone db -> monotone (remove_all R db).
Proof.
  intros Hm. apply (monotone_index db _ _ Hm). intros i b Hb. exists b. split; [|done].
  by eapply lookup_weaken; [|apply (remove_all_sub R db)].
Qed.

Lemma mark_valid_monotone db h r db' : monotone db -> mark_valid h db = (r, db') -> monotone db'.
Proof.
  intros Hm H. unfold mark_valid, get, lift, put, mret, stateful_ret, mbind, stateful_bind in H.
  destruct (validated h); [by injection H as <- <-|].
  destruct (index db !! id h) as [b|] eqn:Eb; [|by injection H as <- <-]. injection H as <- <-.
  assert (forall x, monotone (mk_fork_db (<[id h := set_validated true b]> (index db)) (root db) x)) as Ha.
  { intros x. apply (monotone_index db _ _ Hm). intros i c [[<- <-]|[_ Hc]]%lookup_insert_Some; [by exists b|by exists c]. }
  destruct (by_lib_block_num _); [apply Ha|]. destruct (first_preferred _ _); apply Ha.
Qed.

Lemma add_monotone db n ign v r db' : wf db -> monotone db -> keeps_lib db n -> extends db n ->
  add_impl v n ign db = (r, db') -> monotone db'.
Proof.
  intros Hdb Hm Hn [Hroot Hnum] H.
  apply add_impl_cases in H as [[-> _]|[[-> _]|(_ & Hnew & (p & Hp & _) & H)]]; [done..|].
  assert (forall x, monotone (mk_fork_db (<[id n := n]> (index db)) (root db) x)) as Ha.
  { intros x i b q Hb Hq. unfold get_block_header in Hq. cbn [index root] in Hb, Hq.
    assert (forall y, previous b = previous y -> index db !! id n = None ->
      get_block_header db (previous b) = Some q \/ previous b = id n /\ q = n) as Hcase.
    { intros y _ _. unfold get_block_header. destruct (decide _); [by left|].
      apply lookup_insert_Some in Hq as [[? ?]|[_ ?]]; [by right|by left]. }
    destruct (Hcase b eq_refl Hnew) as [Hq'|[Eb ->]]; apply lookup_insert_Some in Hb as [[_ <-]|[_ Hb]].
    - by apply Hn.
    - by eapply Hm.
    - lia.
    - destruct (wf_link _ Hdb _ _ Hb) as (p' & Hp' & _). unfold get_block_header in Hp'.
      rewrite Eb in Hp'. rewrite decide_False in Hp' by congruence. congruence. }
  cbn zeta in H. subst db'. destruct (by_lib_block_num _); [apply Ha|]. destruct (is_valid _); apply Ha.
Qed.

Lemma remove_monotone db i r db' : wf db -> monotone db -> remove i db = (r, db') -> monotone db'.
Proof.
  intros Hdb Hm H. destruct (remove_forest _ _ i (wf_forest _ Hdb)) as [[_ E]|(Hh & R & HR & E)];
    rewrite E in H; injection H as <- <-; [done|]. by apply remove_all_monotone.
Qed.

(** Every block is above the root. *)
Lemma monotone_root db i b : wf db -> monotone db -> index db !! i = Some b ->
  dpos_irreversible_blocknum (root db) <= dpos_irreversible_blocknum b.
Proof.
  intros Hdb Hm. revert i b. apply (block_ind db (fun _ b => _ <= dpos_irreversible_blocknum b) Hdb).
  - intros i b Hb Hp _. apply (Hm i b (root db) Hb). unfold get_block_header. by rewrite decide_True.
  - intros i b p Hb Hp _ IH. pose proof (Hm i b p Hb (get_block_header_index _ _ _ Hdb Hp)). lia.
Qed.

(** C6: advancing the root to a valid block on the branch of the head always
    succeeds.  The block becomes the root, the head does not change, and what
    is left in the database are exactly the proper descendants of the new
    root: its ancestors and every branch that does not contain it are gone,
    and no block built on it is lost.  The database stays well formed, and if
    its irreversible numbers do not decrease along a branch they still do not. *)
Theorem advance_root_keeps_descendants (db : fork_db) (i : block_id_type) (nr : block_state) :
  wf db -> index db !! i = Some nr -> validated nr = true -> descends db i (id (head db)) ->
  exists db', advance_root i db = (Ok tt, db') /\ root db' = nr /\ head db' = head db /\
    wf db' /\ (monotone db -> monotone db') /\
    (forall y b, index db' !! y = Some b <->
       index db !! y = Some b /\ y <> i /\ descends db i y).
Proof.
  intros Hdb Hi Hv Hh. destruct (advance_root_ok db i nr Hdb Hi Hv Hh) as (db' & ? & ? & ? & ?).
  exists db'. split_and!; try done; [by eapply advance_root_wf|]. intros Hm. by eapply advance_root_monotone.
Qed.

(** [remove] takes out a block with all its descendants and nothing else.
    If the head is among them it throws and changes nothing. *)
Theorem remove_exact (db : fork_db) (i : block_id_type) :
  wf db ->
  (descends db i (id (head db)) /\ remove i db = (Throw fork_database_exception, db)) \/
  (exists db', remove i db = (Ok tt, db') /\ wf db' /\ head db' = head db /\
     root db' = root db /\
     forall y b, index db' !! y = Some b <-> index db !! y = Some b /\ ~ descends db i y).
Proof.
  intros Hdb. destruct (remove_forest _ _ i (wf_forest _ Hdb)) as [?|(Hh & R & HR & E)]; [by left|].
  right. exists (remove_all R db). split_and!; try done; [by eapply remove_wf|].
  intros y b. rewrite remove_all_lookup. destruct (decide (y ∈ R)) as [Hy|Hy]; rewrite HR in Hy.
  - split; [done|]. tauto.
  - tauto.
Qed.

(** ** Reachable databases *)

(** The writing operations.  A block that is added has the number after that of
    its parent and is not the root itself.  A call of [advance_root] succeeds or
    is refused before it has written; off the branch of the head it throws after
    it has erased blocks, which is the only case left out.  The flag says
    whether all blocks that were added keep the irreversible number of their
    parents. *)
Inductive step (lib : bool) : fork_db -> fork_db -> Prop :=
  | step_reset db r : step lib db (reset r)
  | step_rollback db : step lib db (rollback_head_to_root db)
  | step_add db n ign r db' : extends db n -> (lib = true -> keeps_lib db n) ->
      add n ign db = (r, db') -> step lib db db'
  | step_mark_valid db h r db' : mark_valid h db = (r, db') -> step lib db db'
  | step_remove db i r db' : remove i db = (r, db') -> step lib db db'
  | step_advance_root db i r db' : advance_root i db = (r, db') -> r = Ok tt \/ db' = db ->
      step lib db db'.

Lemma fork_step_wf lib db db' : step lib db db' -> wf db /\ (lib = true -> monotone db) ->
  wf db' /\ (lib = true -> monotone db').
Proof.
  destruct 1 as [db r|db|db n ign r db' He Hl Ha|db h r db' Hm|db i r db' Hr|db i r db' Ha Hr]; intros [Hdb Hmon].
  - split; [apply reset_wf|intros _; apply reset_monotone].
  - split; [by apply rollback_wf|intros E; by apply rollback_monotone, Hmon].
  - split; [by eapply add_wf|]. intros E. eapply add_monotone; [exact Hdb|by apply Hmon|by apply Hl|exact He|exact Ha].
  - split; [by eapply mark_valid_wf|]. intros E. eapply mark_valid_monotone; [by apply Hmon|exact Hm].
  - split; [by eapply remove_wf|]. intros E. eapply remove_monotone; [exact Hdb|by apply Hmon|exact Hr].
  - destruct Hr as [->| ->]; [|done]. destruct (index db !! i) as [nr|] eqn:Hi.
    2: { unfold advance_root, get, mbind, stateful_bind, get_block in Ha. rewrite Hi in Ha. by injection Ha. }
    destruct (advance_root_on_branch db i nr Hdb Hi _ Ha) as [Hv Hd].
    destruct (advance_root_ok db i nr) as (db1 & E & ? & ? & ?); try done.
    assert (db' = db1) as -> by congruence.
    split; [by eapply advance_root_wf|]. intros El. eapply advance_root_monotone; try done. by apply Hmon.
Qed.

Lemma fork_steps_wf lib db db' : rtc (step lib) db db' -> wf db /\ (lib = true -> monotone db) ->
  wf db' /\ (lib = true -> monotone db').
Proof. induction 1; eauto using fork_step_wf. Qed.

(** C3: whatever the operations return or throw, every fork database reached
    from [reset] is a tree over its root in which the block numbers grow by
    one, and the head is the root or
    a valid block to which no valid block is preferred; and if every block that
    was added has an irreversible number that is not below that of its parent,
    the numbers do not decrease along any branch.  The operations are [reset],
    [rollback_head_to_root], [add], [mark_valid], [remove] and [advance_root];
    [add] does not check the number of a block, and the theorem is about blocks
    that carry the number after their parent's, as [block_header_state::next]
    computes it, and another id than the root.  A call of [advance_root] for a
    block off the branch of the head, which throws after it has erased blocks,
    is left out. *)
Theorem fork_db_invariant (lib : bool) (r : block_state) (db : fork_db) : rtc (step lib) (reset r) db ->
  wf db /\ (lib = true -> monotone db).
Proof. intros H. eapply fork_steps_wf; [exact H|]. split; [apply reset_wf|intros _; apply reset_monotone]. Qed.

Lemma pending_preferred (db : fork_db) (i : block_id_type) (b : block_state) :
  wf db -> index db !! i = Some b -> first_preferred b (pending_head db) = false.
Proof.
  intros Hdb Hb. unfold pending_head, is_valid.
  assert (b ∈ by_lib_block_num db) as Hin.
  { apply elem_of_by_lib; [apply Hdb|]. by rewrite (wf_key _ Hdb _ _ Hb). }
  pose proof (StronglySorted_filter lib_le (fun b => validated b = false) _ (by_lib_sorted db)) as Hs.
  assert (validated b = false -> b ∈ filter (fun b => validated b = false) (by_lib_block_num db))
    as Hinv by (intros; by apply list_elem_of_filter).
  destruct (filter _ _) as [|c l] eqn:E.
  { destruct (validated b) eqn:Hv; [by eapply wf_best|]. by destruct (not_elem_of_nil b (Hinv eq_refl)). }
  assert (validated c = false) as Hcv.
  { assert (c ∈ filter (fun b => validated b = false) (by_lib_block_num db)) as Hc
      by (rewrite E; left). by apply list_elem_of_filter in Hc as [? _]. }
  assert (first_preferred b c = false \/ first_preferred b (head db) = false) as Hor.
  { destruct (validated b) eqn:Hv; [right; by eapply wf_best|left].
    apply StronglySorted_cons in Hs as [Hall _].
    destruct (elem_of_cons l b c) as [Hel _]. destruct (Hel (Hinv eq_refl)) as [->|Hl].
    - unfold first_preferred. by rewrite !Z.ltb_irrefl, andb_false_r.
    - eapply Forall_forall in Hall; [|exact Hl]. apply lib_le_preferred in Hall as [_ H]. apply H.
      congruence. }
  destruct (first_preferred c (head db)) eqn:Ec; destruct Hor as [|H]; try done.
  - eapply first_preferred_trans; [exact H|by apply first_preferred_asym].
  - by eapply first_preferred_trans.
Qed.

(** The pending head is a best block of the whole database, validated or
    not: no stored block is preferred to it. *)
Theorem pending_head_best (db : fork_db) (i : block_id_type) (b : block_state) :
  wf db -> index db !! i = Some b -> first_preferred b (pending_head db) = false.
Proof. apply pending_preferred. Qed.

(** ** A sample database *)

Definition d (n : Z) : block_id_type := Merkle.mk_digest n 0 0 0.

(** The root, a block on it, two blocks on that one and a second branch. *)
Definition blk_root : block_state := mk_block (d 10) (d 9) 10 5 100 [] None false.
Definition blk_a : block_state := mk_block (d 11) (d 10) 11 5 101 [] None false.
Definition blk_b : block_state := mk_block (d 12) (d 11) 12 6 102 [] None false.
Definition blk_c : block_state := mk_block (d 13) (d 11) 12 5 103 [] None false.
Definition blk_e : block_state := mk_block (d 14) (d 10) 11 5 104 [] (Some [d 1]) false.

Definition sample_ops : op unit :=
  add blk_a false;; mark_valid blk_a;; add blk_b false;; mark_valid blk_b;;
  add blk_c false;; add blk_e false.

Definition sample : fork_db := (sample_ops (reset blk_root)).2.

Ltac solve_parent :=
  let p := fresh "p" in let Hp := fresh "Hp" in
  intros p Hp; vm_compute in Hp; injection Hp as <-; vm_compute; congruence.
Ltac solve_extends := split; [vm_compute; discriminate|solve_parent].
Ltac solve_keeps := intros _; solve_parent.

Lemma fork_sample_reachable : rtc (step true) (reset blk_root) sample.
Proof.
  eapply rtc_l; [eapply (step_add _ _ blk_a false); [solve_extends|solve_keeps|vm_compute; reflexivity]|].
  eapply rtc_l; [eapply (step_mark_valid _ _ blk_a); vm_compute; reflexivity|].
  eapply rtc_l; [eapply (step_add _ _ blk_b false); [solve_extends|solve_keeps|vm_compute; reflexivity]|].
  eapply rtc_l; [eapply (step_mark_valid _ _ blk_b); vm_compute; reflexivity|].
  eapply rtc_l; [eapply (step_add _ _ blk_c false); [solve_extends|solve_keeps|vm_compute; reflexivity]|].
  eapply rtc_once. eapply (step_add _ _ blk_e false); [solve_extends|solve_keeps|vm_compute; reflexivity].
Qed.

Lemma fork_sample_inv : wf sample /\ (true = true -> monotone sample).
Proof.
  eapply fork_steps_wf; [apply fork_sample_reachable|]. split; [apply reset_wf|intros _; apply reset_monotone].
Qed.
Lemma fork_sample_wf : wf sample.
Proof. apply fork_sample_inv. Qed.
Lemma fork_sample_monotone : monotone sample.
Proof. by apply fork_sample_inv. Qed.

(** After the sample a block with a smaller irreversible number is added to the
    head, and becomes valid. *)
Definition blk_f : block_state := mk_block (d 15) (d 12) 13 4 105 [] None false.
Definition lowered_added : fork_db := (add blk_f false sample).2.
Definition lowered : fork_db := (mark_valid blk_f lowered_added).2.

Lemma lowered_reachable : rtc (step false) (reset blk_root) lowered.
Proof.
  etrans; [apply (rtc_subrel (step true) (step false))|].
  - intros x y []; by econstructor.
  - exact fork_sample_reachable.
  - apply (rtc_l _ _ lowered_added).
    + apply (step_add false sample blk_f false (Ok tt) lowered_added); [solve_extends|intros [=]|].
      vm_compute. reflexivity.
    + apply rtc_once, (step_mark_valid false lowered_added blk_f (Ok tt) lowered). vm_compute. reflexivity.
Qed.

Lemma fork_db_invariant_witness : (wf sample /\ monotone sample /\ head sample = set_validated true blk_b) /\
  wf lowered /\ head lowered = set_validated true blk_b.
Proof.
  destruct (fork_db_invariant true blk_root sample fork_sample_reachable) as [H1 H2].
  destruct (fork_db_invariant false blk_root lowered lowered_reachable) as [H3 _].
  split; [|split; [exact H3|vm_compute; reflexivity]].
  split; [exact H1|split; [exact (H2 eq_refl)|vm_compute; reflexivity]].
Defined.

Lemma sample_a_head : descends sample (d 11) (id (head sample)).
Proof.
  apply rtc_once. exists (set_validated true blk_b). split; vm_compute; reflexivity.
Qed.

Lemma advance_root_keeps_descendants_witness :
  exists db', advance_root (d 11) sample = (Ok tt, db') /\ wf db' /\
    index db' !! d 14 = None /\ index db' !! d 13 = Some blk_c.
Proof.
  destruct (advance_root_keeps_descendants sample (d 11) (set_validated true blk_a) fork_sample_wf
    ltac:(vm_compute; reflexivity) eq_refl sample_a_head) as (db' & Ha & _ & _ & Hwf & _ & Hidx).
  exists db'. split; [done|]. split; [done|]. split.
  - destruct (index db' !! d 14) as [b|] eqn:E; [|done]. apply Hidx in E as (Hb & _ & Hd).
    vm_compute in Hb. injection Hb as <-.
    apply rtc_inv_r in Hd as [[=]|(z & Hz & b & Hb & Hp)].
    vm_compute in Hb. injection Hb as <-. subst z.
    apply rtc_inv_r in Hz as [[=]|(z & _ & b & Hb & _)]. by vm_compute in Hb.
  - apply Hidx. split_and!; [vm_compute; reflexivity|done|].
    apply rtc_once. exists blk_c. split; vm_compute; reflexivity.
Defined.

Lemma remove_exact_witness :
  remove (d 11) sample = (Throw fork_database_exception, sample).
Proof.
  destruct (remove_exact sample (d 11) fork_sample_wf) as [[_ H]|(db' & H & _)]; [exact H|].
  vm_compute in H. discriminate H.
Defined.

Lemma pending_head_best_witness :
  pending_head sample = set_validated true blk_b /\
  first_preferred blk_c (pending_head sample) = false.
Proof.
  split; [vm_compute; reflexivity|].
  apply (pending_head_best sample (d 13) blk_c fork_sample_wf). vm_compute. reflexivity.
Defined.

End ForkDatabase.
