(* ===== verification/ForkBranches.v ===== *)
(** * Branches and persistence of the fork database

    The correctness of [fetch_branch_from] (the two branches meet at the
    nearest common ancestor) and of saving and loading ([open] undoes
    [close]), for the definitions of [ForkDatabase]. *)

From S2P Require Import Prelude Merkle ForkDatabase.
Import ForkDatabase.

Module ForkBranches.

(** ** Nearest common ancestors *)

(** [b] is the root or a stored block, under its own id. *)
Definition known (db : fork_db) (b : block_state) : Prop := root_or_block db (id b) = Ok b.

(** The stored blocks [l] lead from the block [x] down to, and without, [y]. *)
Inductive branch (db : fork_db) : block_id_type -> list block_state -> block_id_type -> Prop :=
  | branch_nil x : branch db x [] x
  | branch_cons x b l y : get_block db x = Some b -> branch db (previous b) l y ->
      branch db x (b :: l) y.

Section branches.
Context (db : fork_db).
Hypothesis Hdb : wf db.

Lemma branch_app x l y k z : branch db x l y -> branch db y k z -> branch db x (l ++ k) z.
Proof. induction 1; cbn; [done|]. intros. econstructor; eauto. Qed.

Lemma root_or_block_header x b :
  root_or_block db x = Ok b <-> get_block_header db x = Some b.
Proof.
  unfold root_or_block, get_block_header, get_block.
  destruct (decide (x = id (root db))), (decide (id (root db) = x));
    [split; congruence|congruence..|].
  destruct (index db !! x); split; congruence.
Qed.

Lemma header_id x b : get_block_header db x = Some b -> id b = x.
Proof.
  unfold get_block_header. destruct (decide _) as [<-|]; [congruence|]. apply Hdb.
Qed.

Lemma known_intro x b : get_block_header db x = Some b -> known db b.
Proof. intros H. unfold known. rewrite (header_id _ _ H). by apply root_or_block_header. Qed.

Lemma known_num b : known db b -> num_of db (id b) = block_num b.
Proof. intros H%root_or_block_header. unfold num_of. by rewrite H. Qed.

(** A known block above the root is stored and its parent is known. *)
Lemma known_parent b : known db b -> block_num (root db) < block_num b ->
  exists p, index db !! id b = Some b /\ root_or_block db (previous b) = Ok p /\ known db p /\
    id p = previous b /\ block_num b = block_num p + 1.
Proof.
  intros Hb Hn. apply root_or_block_header in Hb. unfold get_block_header in Hb.
  destruct (decide _); [injection Hb as <-; lia|].
  destruct (wf_link _ Hdb _ _ Hb) as (p & Hp & Hnum). exists p.
  split_and!; [done|by apply root_or_block_header|by eapply known_intro|by apply header_id|done].
Qed.

Lemma known_above b : known db b -> block_num (root db) <= block_num b.
Proof. intros H%root_or_block_header. by apply (header_above _ _ _ Hdb) in H. Qed.

Lemma known_depth b : known db b ->
  block_num b - block_num (root db) <= Z.of_nat (size (index db)).
Proof.
  intros H%root_or_block_header. unfold get_block_header in H.
  destruct (decide _); [injection H as <-; lia|by eapply depth_le_size].
Qed.

Lemma known_eq b1 b2 : known db b1 -> known db b2 -> id b1 = id b2 -> b1 = b2.
Proof. unfold known. intros H1 H2 Heq. congruence. Qed.

(** The root is the only known block of its height. *)
Lemma known_root b : known db b -> block_num b = block_num (root db) -> b = root db.
Proof.
  intros H%root_or_block_header Hn. unfold get_block_header in H.
  destruct (decide _); [congruence|]. apply (wf_above _ Hdb) in H. lia.
Qed.

(** An ancestor of a block is the block or an ancestor of its parent. *)
Lemma descends_parent a b : known db b -> block_num (root db) < block_num b ->
  descends db a (id b) -> num_of db a < block_num b -> descends db a (previous b).
Proof.
  intros Hb Hn Hd Ha. destruct (known_parent b Hb Hn) as (p & Hi & _).
  apply rtc_inv_r in Hd as [->|(z & Hz & b' & Hb' & <-)].
  - rewrite known_num in Ha by done. lia.
  - by assert (b' = b) as -> by congruence.
Qed.

Lemma descends_height a b : known db b -> descends db a (id b) -> num_of db a <= block_num b.
Proof. intros Hb Hd. rewrite <- known_num by done. eapply descends_rank, Hd. by apply wf_forest. Qed.

(** Two ancestors of the same height are the same. *)
Lemma descends_same a b : known db b -> descends db a (id b) -> num_of db a = block_num b ->
  a = id b.
Proof.
  intros Hb Hd Ha. apply rtc_inv_r in Hd as [->|(z & Hz & Hc)]; [done|].
  pose proof (forest_rank _ _ (wf_forest _ Hdb) _ _ Hc).
  apply (descends_rank _ _ _ _ (wf_forest _ Hdb)) in Hz. rewrite known_num in H by done. lia.
Qed.

Lemma descend_to_ok fuel b limit acc : known db b -> block_num (root db) <= limit ->
  block_num b - limit <= Z.of_nat fuel ->
  exists b' l, descend_to fuel db b limit acc = Ok (b', acc ++ l) /\ branch db (id b) l (id b') /\
    known db b' /\ block_num b' = Z.min limit (block_num b) /\
    (forall a, num_of db a <= limit -> descends db a (id b) -> descends db a (id b')).
Proof.
  revert b acc. induction fuel as [|fuel IH]; intros b acc Hb Hl Hfuel; cbn [descend_to].
  { exists b, []. split_and!; [by rewrite app_nil_r|constructor|done|lia|done]. }
  destruct (limit <? block_num b) eqn:E; bool_to_prop.
  2: { exists b, []. split_and!; [by rewrite app_nil_r|constructor|done|lia|done]. }
  destruct (known_parent b Hb ltac:(lia)) as (p & Hi & Hp & Hkp & Hidp & Hn).
  rewrite Hp. cbn [mbind result_bind].
  destruct (IH p (acc ++ [b]) Hkp Hl ltac:(lia)) as (b' & l & -> & Hbr & Hk' & Hn' & Ha).
  exists b', (b :: l). split_and!; [by rewrite <- app_assoc| |done|lia|].
  - econstructor; [exact Hi|]. by rewrite <- Hidp.
  - intros a Hal Had. apply Ha; [done|]. rewrite Hidp. apply descends_parent; [done|lia|done|lia].
Qed.

(** Two different blocks of the same height are above the root. *)
Lemma distinct_above b1 b2 : known db b1 -> known db b2 -> block_num b1 = block_num b2 ->
  id b1 <> id b2 -> block_num (root db) < block_num b1.
Proof.
  intros H1 H2 Hn Hid. pose proof (known_above _ H1).
  destruct (Z.eq_dec (block_num b1) (block_num (root db))) as [Heq|]; [|lia].
  destruct Hid. by rewrite (known_root b1), (known_root b2) by (done || lia).
Qed.

Lemma descend_both_ok fuel b1 b2 acc1 acc2 : known db b1 -> known db b2 ->
  block_num b1 = block_num b2 -> id b1 <> id b2 ->
  block_num b1 - block_num (root db) <= Z.of_nat fuel ->
  exists b1' b2' l1 l2,
    descend_both fuel db b1 b2 acc1 acc2 = Ok (b1', b2', acc1 ++ l1, acc2 ++ l2) /\
    branch db (id b1) (l1 ++ [b1']) (previous b1') /\
    branch db (id b2) (l2 ++ [b2']) (previous b1') /\
    (forall a, descends db a (id b1) -> descends db a (id b2) -> descends db a (previous b1')).
Proof.
  revert b1 b2 acc1 acc2. induction fuel as [|fuel IH]; intros b1 b2 acc1 acc2 H1 H2 Hn Hid Hfuel.
  { pose proof (distinct_above _ _ H1 H2 Hn Hid). lia. }
  pose proof (distinct_above _ _ H1 H2 Hn Hid) as Hr.
  destruct (known_parent b1 H1 Hr) as (p1 & Hi1 & Hp1 & Hk1 & Hidp1 & Hn1).
  destruct (known_parent b2 H2 ltac:(lia)) as (p2 & Hi2 & Hp2 & Hk2 & Hidp2 & Hn2).
  assert (forall a, descends db a (id b1) -> descends db a (id b2) ->
    descends db a (previous b1) /\ descends db a (previous b2)) as Hanc.
  { intros a Ha1 Ha2. pose proof (descends_height _ _ H1 Ha1) as Hh.
    destruct (Z.eq_dec (num_of db a) (block_num b1)) as [Heq|Hne].
    - destruct Hid. rewrite <- (descends_same a b1), <- (descends_same a b2); (done || lia).
    - split; apply descends_parent; (done || lia). }
  cbn [descend_both]. destruct (decide (previous b1 = previous b2)) as [Heq|Hne].
  - exists b1, b2, [], []. split_and!; [by rewrite !app_nil_r| | |naive_solver].
    + econstructor; [exact Hi1|constructor].
    + econstructor; [exact Hi2|]. rewrite Heq. constructor.
  - pose proof (distinct_above p1 p2 Hk1 Hk2 ltac:(lia) ltac:(congruence)) as Hr1.
    destruct (known_parent p1 Hk1 Hr1) as (_ & Hip1 & _).
    destruct (known_parent p2 Hk2 ltac:(lia)) as (_ & Hip2 & _).
    unfold block_or_throw, get_block. rewrite <- Hidp1, Hip1, <- Hidp2, Hip2.
    cbn [mbind result_bind].
    destruct (IH p1 p2 (acc1 ++ [b1]) (acc2 ++ [b2])) as (b1' & b2' & l1 & l2 & -> & Hb1 & Hb2 & Ha);
      [done|done|lia|congruence|lia|].
    exists b1', b2', (b1 :: l1), (b2 :: l2). rewrite <- !app_assoc. split_and!; [done| | |].
    + cbn. econstructor; [exact Hi1|]. by rewrite <- Hidp1.
    + cbn. econstructor; [exact Hi2|]. by rewrite <- Hidp2.
    + intros a Ha1 Ha2. destruct (Hanc a Ha1 Ha2). apply Ha; congruence.
Qed.

Lemma fetch_branch_from_ok (first second : block_id_type) (f s : block_state) :
  root_or_block db first = Ok f -> root_or_block db second = Ok s ->
  exists r1 r2 c, fetch_branch_from db first second = Ok (r1, r2) /\
    branch db first r1 c /\ branch db second r2 c /\
    (forall a, descends db a first -> descends db a second -> descends db a c).
Proof.
  intros Hf Hs. unfold fetch_branch_from. rewrite Hf, Hs. cbn [mbind result_bind].
  assert (known db f /\ id f = first) as [Hkf <-].
  { apply root_or_block_header in Hf. split; [by eapply known_intro|by apply header_id]. }
  assert (known db s /\ id s = second) as [Hks <-].
  { apply root_or_block_header in Hs. split; [by eapply known_intro|by apply header_id]. }
  pose proof (known_depth _ Hkf). pose proof (known_depth _ Hks).
  pose proof (known_above _ Hkf). pose proof (known_above _ Hks).
  destruct (descend_to_ok (S (size (index db))) f (block_num s) []) as
    (f' & l1 & -> & Hb1 & Hk1 & Hn1 & Ha1); [done|lia|lia|]. cbn [mbind result_bind app].
  pose proof (known_above _ Hk1). pose proof (known_depth _ Hk1).
  destruct (descend_to_ok (S (size (index db))) s (block_num f') []) as
    (s' & l2 & -> & Hb2 & Hk2 & Hn2 & Ha2); [done|lia|lia|]. cbn [mbind result_bind app].
  assert (forall a, descends db a (id f) -> descends db a (id s) ->
    descends db a (id f') /\ descends db a (id s')) as Hanc.
  { intros a Haf Has. pose proof (descends_height _ _ Hks Has). pose proof (descends_height _ _ Hkf Haf).
    split; [apply Ha1|apply Ha2]; (done || lia). }
  destruct (decide (id f' = id s')) as [Heq|Hne].
  - exists l1, l2, (id f'). split_and!; [done|done|by rewrite Heq|]. intros a Haf Has.
    by apply Hanc.
  - destruct (descend_both_ok (S (size (index db))) f' s' l1 l2)
      as (b1 & b2 & k1 & k2 & -> & Hr1 & Hr2 & Hc); [done|done|lia|done|lia|].
    cbn [mbind result_bind]. exists ((l1 ++ k1) ++ [b1]), ((l2 ++ k2) ++ [b2]), (previous b1).
    rewrite <- !app_assoc. split_and!; [done|by eapply branch_app|by eapply branch_app|].
    intros a Haf Has. destruct (Hanc a Haf Has). by apply Hc.
Qed.

(** C15: for any two blocks of the database (the root included),
    [fetch_branch_from] returns the two branches that lead from them down to
    a common ancestor: it never throws and its loops end.  The ancestor is
    the nearest one: every common ancestor of the two blocks is an ancestor
    of it. *)
Theorem fetch_branch_from_nca (first second : block_id_type) (f s : block_state) :
  root_or_block db first = Ok f -> root_or_block db second = Ok s ->
  exists r1 r2 c, fetch_branch_from db first second = Ok (r1, r2) /\
    branch db first r1 c /\ branch db second r2 c /\
    (forall a, descends db a first -> descends db a second -> descends db a c).
Proof. apply fetch_branch_from_ok. Qed.

End branches.

(** ** Saving and loading *)

(** [a] is not preferred to [b]. *)
Definition pref_le (a b : block_state) : Prop := first_preferred a b = false.

Lemma pref_le_total a b : pref_le a b \/ pref_le b a.
Proof.
  unfold pref_le. destruct (first_preferred a b) eqn:E; [right|by left].
  by apply first_preferred_asym.
Qed.

Lemma StronglySorted_rev {A} (R : A -> A -> Prop) l :
  StronglySorted R l -> StronglySorted (fun x y => R y x) (rev l).
Proof.
  induction 1 as [|x l Hl IH Hx]; cbn; [constructor|]. apply StronglySorted_app_2; [|done|].
  - intros y z Hy Hz. apply list_elem_of_singleton in Hz as ->. rewrite list_elem_of_In, <- in_rev in Hy.
    apply list_elem_of_In in Hy. by eapply Forall_forall in Hx.
  - repeat constructor.
Qed.

(** The valid, or the other, blocks of the index in reverse order. *)
Lemma reverse_index_sorted db v :
  StronglySorted pref_le (rev (filter (fun b => is_valid b = v) (by_lib_block_num db))).
Proof.
  pose proof (StronglySorted_filter lib_le (fun b => is_valid b = v) _ (by_lib_sorted db)) as Hs.
  apply StronglySorted_rev in Hs.
  assert (Forall (fun b => validated b = v) (rev (filter (fun b => is_valid b = v) (by_lib_block_num db))))
    as Hv.
  { apply Forall_forall. intros b Hb. rewrite list_elem_of_In, <- in_rev, <- list_elem_of_In in Hb.
    by apply list_elem_of_filter in Hb as [? _]. }
  induction Hs as [|x l Hl IH Hx]; [constructor|].
  apply Forall_cons in Hv as [Hxv Hlv]. constructor; [by apply IH|].
  apply Forall_forall. intros y Hy. eapply Forall_forall in Hx; [|exact Hy].
  eapply Forall_forall in Hlv; [|exact Hy]. apply lib_le_preferred in Hx as [_ H].
  apply H. congruence.
Qed.

Lemma close_merge_cons x u y v : close_merge (x :: u) (y :: v) =
  if first_preferred y x then x :: close_merge u (y :: v) else y :: close_merge (x :: u) v.
Proof. done. Qed.

Lemma close_merge_perm u v : close_merge u v ≡ₚ u ++ v.
Proof.
  revert v. induction u as [|x u IH]; intros v; [by destruct v|].
  induction v as [|y v IHv]; [by rewrite app_nil_r|]. rewrite close_merge_cons.
  destruct (first_preferred y x).
  - cbn. constructor. apply IH.
  - rewrite IHv. solve_Permutation.
Qed.

Lemma close_merge_sorted u v : StronglySorted pref_le u -> StronglySorted pref_le v ->
  StronglySorted pref_le (close_merge u v).
Proof.
  revert v. induction u as [|x u IH]; intros v Hu Hv; [by destruct v|].
  induction v as [|y v IHv]; [done|]. rewrite close_merge_cons.
  apply StronglySorted_cons in Hu as Hu'. apply StronglySorted_cons in Hv as Hv'.
  destruct Hu' as [Hxu Hu'], Hv' as [Hyv Hv'].
  destruct (first_preferred y x) eqn:E.
  - apply first_preferred_asym in E. constructor; [by apply IH|].
    rewrite close_merge_perm. apply Forall_app. split; [done|]. constructor; [done|].
    eapply Forall_impl; [exact Hyv|]. cbn. intros z Hz. by eapply first_preferred_trans.
  - constructor; [by apply IHv|].
    rewrite close_merge_perm. apply Forall_app. split; [|done]. constructor; [done|].
    eapply Forall_impl; [exact Hxu|]. cbn. intros z Hz. by eapply first_preferred_trans.
Qed.

Section reload.
Context (db : fork_db) (validator : Z -> list digest_type -> list digest_type -> result unit).
Hypothesis Hdb : wf db.
(** Irreversible numbers do not decrease from a block to its children. *)
Hypothesis Hmon : monotone db.
(** The configured protocol features accept the activations of the blocks. *)
Hypothesis Hval : forall i b p, index db !! i = Some b ->
  get_block_header db (previous b) = Some p -> check_features (Some validator) p b = Ok tt.

Definition saved : list block_state := blocks (close db).1.

Lemma saved_perm : saved ≡ₚ by_lib_block_num db.
Proof.
  unfold saved. cbn. rewrite close_merge_perm, <- !Permutation_rev.
  rewrite <- (filter_app_complement (fun b => is_valid b = true) (by_lib_block_num db)) at 3.
  rewrite Permutation_app_comm. f_equiv. apply reflexive_eq, list_filter_iff.
  intros b. unfold is_valid. destruct (validated b); split; (done || congruence).
Qed.

Lemma elem_of_saved b : b ∈ saved <-> index db !! id b = Some b.
Proof. rewrite saved_perm. apply elem_of_by_lib, Hdb. Qed.

Lemma saved_nodup : NoDup (id <$> saved).
Proof.
  rewrite saved_perm. unfold by_lib_block_num. rewrite merge_sort_Permutation.
  apply blocks_nodup, Hdb.
Qed.

Lemma saved_sorted : StronglySorted pref_le saved.
Proof. apply close_merge_sorted; apply reverse_index_sorted. Qed.

(** What [open] has loaded after some of the blocks. *)
Definition loaded (pre : list block_state) (d : fork_db) : Prop :=
  root d = root db /\ forall i b, index d !! i = Some b <-> b ∈ pre /\ id b = i.

(** The parent of a saved block was saved before it. *)
Lemma parent_before pre n post p : saved = pre ++ n :: post ->
  index db !! previous n = Some p -> p ∈ pre.
Proof.
  intros E Hp. assert (index db !! id n = Some n) as Hn
    by (apply elem_of_saved; rewrite E; set_solver).
  destruct (wf_link _ Hdb _ _ Hn) as (p' & Hp' & Hnum). pose proof (Hmon _ _ _ Hn Hp') as Hd.
  rewrite (get_block_header_index _ _ _ Hdb Hp) in Hp'. injection Hp' as <-.
  assert (first_preferred n p = true) as Hpref by (apply above_preferred; lia).
  assert (p ∈ saved) as Hin by (apply elem_of_saved; by rewrite (wf_key _ Hdb _ _ Hp)).
  pose proof saved_sorted as Hs. rewrite E in Hin, Hs.
  apply elem_of_app in Hin as [|Hin]; [done|]. exfalso.
  apply StronglySorted_app_1_r, StronglySorted_cons in Hs as [Hall _].
  apply elem_of_cons in Hin as [->|Hin]; [lia|].
  eapply Forall_forall in Hall; [|exact Hin]. unfold pref_le in Hall. congruence.
Qed.

Lemma load_step pre n post d : saved = pre ++ n :: post -> loaded pre d ->
  exists d', add_impl (Some validator) n false d = (Ok tt, d') /\ loaded (pre ++ [n]) d'.
Proof.
  intros E [Hroot Hidx]. assert (index db !! id n = Some n) as Hn
    by (apply elem_of_saved; rewrite E; set_solver).
  destruct (wf_link _ Hdb _ _ Hn) as (p & Hp & _).
  assert (get_block_header d (previous n) = Some p) as Hp'.
  { unfold get_block_header in *. rewrite Hroot. destruct (decide _); [done|].
    apply Hidx. split; [by eapply parent_before|by eapply wf_key]. }
  assert (index d !! id n = None) as Hnew.
  { destruct (index d !! id n) as [b|] eqn:Eb; [|done]. apply Hidx in Eb as [Hb Hid].
    pose proof saved_nodup as Hnd. rewrite E, fmap_app, fmap_cons in Hnd.
    apply NoDup_app in Hnd as (_ & Hnd & _). destruct (Hnd (id b)); [by apply list_elem_of_fmap_2|].
    rewrite Hid. left. }
  unfold add_impl, get, lift, put, mbind, stateful_bind.
  rewrite Hp', (Hval _ _ _ Hn Hp), Hnew. eexists. split; [reflexivity|].
  assert (loaded (pre ++ [n]) (set_index d (<[id n := n]> (index d)))) as Hl.
  { split; [done|]. intros i b. cbn. rewrite lookup_insert_Some, Hidx, elem_of_app, list_elem_of_singleton.
    split; [intros [[<- <-]|[_ [? ?]]]; tauto|]. intros [[Hb| ->] <-]; [|by left].
    destruct (decide (id n = id b)) as [Heq|]; [|tauto]. exfalso.
    assert (index d !! id n = Some b) by (by apply Hidx). congruence. }
  destruct (by_lib_block_num _) as [|c l]; [done|]. by destruct (is_valid c).
Qed.

Lemma load_all post pre d : saved = pre ++ post -> loaded pre d ->
  exists d', iterM (fun s => add_impl (Some validator) s false) post d = (Ok tt, d') /\
    loaded saved d'.
Proof.
  revert pre d. induction post as [|n post IH]; intros pre d E Hd.
  { exists d. rewrite E, app_nil_r. done. }
  destruct (load_step pre n post d E Hd) as (d1 & Ha & Hd1).
  destruct (IH (pre ++ [n]) d1) as (d2 & Hi & Hd2); [by rewrite <- app_assoc|done|].
  exists d2. split; [|done]. cbn [iterM]. unfold mbind at 1, stateful_bind at 1. by rewrite Ha.
Qed.

(** C20: loading undoes saving.  For a well-formed database in which the
    irreversible number of a block is never below that of its parent, and when
    the configured protocol features accept the activations of its blocks,
    [close] writes the blocks in an order in
    which every parent precedes its children, so that [open] can link them
    again: it accepts the file and rebuilds the same database, with the same
    root, the same blocks (validated or not) and the same head.  (With a block
    whose irreversible number is below that of its parent, as the change of a
    schedule can make it, [open] can fail: [lowered_cannot_reopen].) *)
Theorem close_open_roundtrip :
  (forall pre n post p, saved = pre ++ n :: post -> index db !! previous n = Some p -> p ∈ pre) /\
  open validator (close db).1 = Ok db.
Proof.
  split; [apply parent_before|]. unfold open. cbn [totem version root_bhs blocks head_id close fst].
  rewrite Z.eqb_refl. cbn [EOS_ASSERT mbind result_bind andb].
  assert (loaded [] (reset (root db))) as H0.
  { split; [apply set_validated_id, Hdb|]. intros i b. cbn. rewrite lookup_empty. set_solver. }
  destruct (load_all saved [] _ eq_refl H0) as (d & Hd & Hroot & Hidx).
  change (close_merge _ _) with saved. rewrite Hd. cbn [mbind result_bind].
  assert (index d = index db) as Hi.
  { apply map_eq. intros i. apply option_eq. intros b. rewrite Hidx, elem_of_saved.
    split; [by intros [? <-]|]. intros Hb. by rewrite (wf_key _ Hdb _ _ Hb). }
  assert ((if decide (id (root d) = id (head db)) then Ok (root d)
    else match get_block d (id (head db)) with
         | Some b => Ok b | None => Throw fork_database_exception end) = Ok (head db)) as ->.
  { rewrite Hroot. unfold get_block. rewrite Hi. destruct (wf_head _ Hdb) as [->|[Hh _]].
    - by rewrite decide_True.
    - rewrite decide_False, Hh; [done|]. intros Heq. by rewrite <- Heq, (wf_root _ Hdb) in Hh. }
  cbn [mbind result_bind].
  assert (set_head d (head db) = db) as ->
    by (unfold set_head; rewrite Hi, Hroot; by destruct db).
  destruct (by_lib_block_num db) as [|c l] eqn:E.
  { destruct (wf_head _ Hdb) as [->|[Hh _]]; [by rewrite bool_decide_true|].
    exfalso. eapply by_lib_nil; [apply Hdb|done|exact Hh]. }
  destruct (candidate_spec _ _ _ (wf_key _ Hdb) E) as [Hc Hbest].
  destruct (is_valid c) eqn:Ev.
  - by rewrite (wf_best _ Hdb _ _ Hc Ev).
  - destruct (wf_head _ Hdb) as [->|[Hh Hhv]]; [by rewrite bool_decide_true|].
    destruct (Hbest _ _ Hh Hhv). unfold is_valid in Ev. congruence.
Qed.

End reload.

(** ** The sample database *)

Lemma fetch_branch_from_nca_witness :
  fetch_branch_from sample (d 12) (d 14) =
    Ok ([set_validated true blk_b; set_validated true blk_a], [blk_e]) /\
  exists r1 r2 c, fetch_branch_from sample (d 12) (d 14) = Ok (r1, r2) /\
    branch sample (d 12) r1 c /\ branch sample (d 14) r2 c.
Proof.
  split; [vm_compute; reflexivity|].
  destruct (fetch_branch_from_nca sample fork_sample_wf (d 12) (d 14) (set_validated true blk_b) blk_e
    ltac:(vm_compute; reflexivity) ltac:(vm_compute; reflexivity)) as (r1 & r2 & c & H1 & H2 & H3 & _).
  exists r1, r2, c. exact (conj H1 (conj H2 H3)).
Defined.

(** [close] orders the blocks by their irreversible numbers, so that a block
    with a smaller number than its parent is written before it, and [open] then
    refuses the file. *)
Theorem lowered_cannot_reopen : wf lowered /\
  open (fun _ _ _ => Ok tt) (close lowered).1 = Throw unlinkable_block_exception.
Proof.
  split; [|vm_compute; reflexivity]. eapply fork_steps_wf; [exact lowered_reachable|].
  split; [apply reset_wf|intros _; apply reset_monotone].
Qed.

Lemma close_open_roundtrip_witness : open (fun _ _ _ => Ok tt) (close sample).1 = Ok sample.
Proof.
  apply (close_open_roundtrip sample (fun _ _ _ => Ok tt) fork_sample_wf fork_sample_monotone).
  intros i b p _ _. unfold check_features. by destruct (new_protocol_features b).
Defined.

End ForkBranches.
