(* ===== verification/ForkSwitching.v ===== *)
(** * Switching forks: [push_block], [maybe_switch_forks], [pop_block],
      [log_irreversible] and [commit_block] of libraries/chain/controller.cpp

    Module [ForkSwitching] has the part of the controller that keeps the fork
    database, the head of the chain and the state database together.  A block
    that arrives goes into the fork database; when that makes another block the
    best one, the blocks of the old branch are undone and those of the new one
    applied, and when one of these fails, the old branch is restored.  Blocks
    that have become irreversible are written to the block log, and the state
    can no longer be undone before them.

    The fork database is [ForkDatabase].  The undo sessions of chainbase are an
    interface with the laws that the controller relies on, and so is
    [apply_block].  Signals, threads and the encoding of the block log are left
    out; [append] says whether the log takes a block.  Blocks loaded from a
    snapshot without their content, and the configured block at which a node
    stops, are left out as well. *)

From S2P Require Import Prelude Merkle ForkDatabase.

Module ForkSwitching.
Import ForkDatabase.

Inductive db_read_mode := SPECULATIVE | HEAD | READ_ONLY | IRREVERSIBLE.
#[export] Instance db_read_mode_eq_dec : EqDecision db_read_mode.
Proof. solve_decision. Defined.

(** [controller::block_status] *)
Inductive block_status := status_irreversible | status_validated | status_complete | status_incomplete.

(** ** Interfaces *)

(** [chainbase::database]: the state, the revision, and a stack of sessions.
    [push_session s d] is the database after a session that ends in the state
    [s] and was pushed. *)
Class UndoDatabase (D State : Type) := {
  state : D -> State;
  revision : D -> Z;
  push_session : State -> D -> D;
  undo : D -> D;
  commit : Z -> D -> D;
  state_push s d : state (push_session s d) = s;
  revision_push s d : revision (push_session s d) = revision d + 1;
  undo_push s d : undo (push_session s d) = d;
  state_commit n d : state (commit n d) = state d;
  revision_commit n d : revision (commit n d) = revision d;
  commit_push n s d : n <= revision d -> commit n (push_session s d) = push_session s (commit n d);
}.

(** What [apply_block] does to the state.  A block that was applied applies
    again to the same state once it is marked valid. *)
Class BlockApplier (State : Type) := {
  apply_block : block_status -> block_state -> State -> result State;
  apply_again st b s s' : apply_block st b s = Ok s' ->
    apply_block status_validated (set_validated true b) s = Ok s';
}.

Section controller.
Context {D State : Type} `{UndoDatabase D State} `{BlockApplier State}.

(** ** State *)

Record controller := mk_controller {
  chain_head : block_state;
  db : D;
  forks : fork_db;
  (** the block log, oldest block first *)
  blog : list block_state;
}.

Definition op := stateful controller.

Definition set_chain_head (b : block_state) (c : controller) : controller :=
  mk_controller b (db c) (forks c) (blog c).
Definition set_db (d : D) (c : controller) : controller :=
  mk_controller (chain_head c) d (forks c) (blog c).
Definition set_forks (f : fork_db) (c : controller) : controller :=
  mk_controller (chain_head c) (db c) f (blog c).
Definition set_blog (l : list block_state) (c : controller) : controller :=
  mk_controller (chain_head c) (db c) (forks c) l.

Definition head_block_id (c : controller) : block_id_type := id (chain_head c).

Definition on_forks {A} (o : ForkDatabase.op A) : op A :=
  fun c => let '(r, f) := o (forks c) in (r, set_forks f c).

Definition try_catch {A} (m : op A) (handler : chain_exception -> op A) : op A :=
  fun c => match m c with
           | (Ok a, c) => (Ok a, c)
           | (Throw e, c) => handler e c
           end.

(** The settings: the mode of the node, the first block of an empty log, and
    what the log does with a block. *)
Context (read_mode : db_read_mode) (first_block_num : Z) (append : block_state -> result unit).

(** ** Blocks *)

(** [apply_block]: a block that throws is aborted, and its session undone. *)
Definition apply (st : block_status) (b : block_state) : op unit :=
  fun c => match apply_block st b (state (db c)) with
           | Ok s => (Ok tt, set_db (push_session s (db c)) c)
           | Throw e => (Throw e, c)
           end.

Definition pop_block : op unit :=
  c ← get;
  prev ← (match get_block (forks c) (previous (chain_head c)) with
          | Some p => mret p
          | None =>
              lift (EOS_ASSERT (bool_decide (id (root (forks c)) = previous (chain_head c)))
                      block_validate_exception);;
              mret (root (forks c))
          end);
  modify (fun c => set_db (undo (db c)) (set_chain_head prev c)).

(** ** Irreversible blocks *)

(** The head is the object of the fork database, so that a block marked valid
    there is valid as the head. *)
Definition valid_head (b : block_state) : controller -> controller :=
  set_chain_head (set_validated true b).

(** One block of the branch that becomes irreversible. *)
Definition log_block (b : block_state) : op unit :=
  (if decide (read_mode = IRREVERSIBLE) then
     apply status_complete b;;
     modify (set_chain_head b);;
     on_forks (mark_valid b);;
     modify (valid_head b)
   else mret tt);;
  lift (append b);;
  modify (fun c => set_db (commit (block_num b) (db c)) (set_blog (blog c ++ [b]) c)).

(** The loop over the branch, with the last block that was written, also when
    it throws. *)
Fixpoint log_blocks (root_id : block_id_type) (branch : list block_state) (c : controller)
  : result unit * block_id_type * controller :=
  match branch with
  | [] => (Ok tt, root_id, c)
  | b :: branch =>
      match log_block b c with
      | (Ok _, c) => log_blocks (id b) branch c
      | (Throw e, c) => (Throw e, root_id, c)
      end
  end.

(** The branch is written, and the root follows it as far as it was written. *)
Definition log_branch (branch : list block_state) : op unit :=
  fun c =>
    let '(r, root_id, c) := log_blocks (id (root (forks c))) (rev branch) c in
    ((if decide (root_id = id (root (forks c))) then mret tt else on_forks (advance_root root_id));;
     lift r) c.

Definition log_irreversible : op unit :=
  c ← get;
  let lib_num := match last (blog c) with Some b => block_num b | None => first_block_num - 1 end in
  lift (EOS_ASSERT (match last (blog c) with
                    | Some b => bool_decide (id (root (forks c)) = id b)
                    | None => block_num (root (forks c)) =? lib_num
                    end) fork_database_exception);;
  let fork_head := if decide (read_mode = IRREVERSIBLE) then pending_head (forks c) else head (forks c) in
  if dpos_irreversible_blocknum fork_head <=? lib_num then mret tt
  else
    log_branch (fetch_branch (forks c) (id fork_head) (dpos_irreversible_blocknum fork_head)).

(** ** Forks *)

Definition apply_and_mark (st : block_status) (b : block_state) : op unit :=
  apply st b;;
  on_forks (mark_valid b);;
  modify (valid_head b).

(** The block [failed] of the new branch threw [e]: it is removed, the blocks
    [applied] before it are undone, and the old branch [second] is applied
    again.  [branches.second.back()] of an empty vector is not defined. *)
Definition restore_branch (second applied : list block_state) (failed : block_state)
    (e : chain_exception) : op unit :=
  on_forks (remove (id failed));;
  iterM (fun _ => pop_block) applied;;
  (match last second with
   | None => lift (Throw undefined_behaviour)
   | Some b =>
       c ← get;
       lift (EOS_ASSERT (bool_decide (head_block_id c = previous b)) fork_database_exception)
   end);;
  iterM (fun b => apply status_validated b;; modify (set_chain_head b)) (rev second);;
  lift (Throw e).

(** The loop over the new branch. *)
Fixpoint apply_branch (second applied todo : list block_state) : op unit :=
  match todo with
  | [] => mret tt
  | b :: todo =>
      fun c =>
        match apply_and_mark (if is_valid b then status_validated else status_complete) b c with
        | (Ok _, c) => apply_branch second (b :: applied) todo c
        | (Throw e, c) =>
            if decide (e = bad_alloc) then (Throw e, c) else restore_branch second applied b e c
        end
  end.

Definition switch_forks (new_head : block_state) : op unit :=
  c ← get;
  '(first, second) ← lift (fetch_branch_from (forks c) (id new_head) (head_block_id c));
  (match last second with
   | None => mret tt
   | Some b =>
       iterM (fun _ => pop_block) second;;
       c ← get;
       lift (EOS_ASSERT (bool_decide (head_block_id c = previous b)) fork_database_exception)
   end);;
  apply_branch second [] (rev first).

Definition maybe_switch_forks (new_head : block_state) (st : block_status) : op unit :=
  c ← get;
  if decide (previous new_head = head_block_id c) then
    try_catch (apply_and_mark st new_head)
      (fun e => on_forks (remove (id new_head));; lift (Throw e));;
    log_irreversible
  else if decide (id new_head = head_block_id c) then mret tt
  else switch_forks new_head;; log_irreversible.

Definition push_block (bsp : block_state) : op unit :=
  on_forks (add bsp false);;
  if decide (read_mode = IRREVERSIBLE) then log_irreversible
  else c ← get; maybe_switch_forks (pending_head (forks c)) status_complete.

(** [commit_block( true )] of a block that the node has produced: [s] is the
    state at the end of its session, which an exception undoes. *)
Definition commit_block (bsp : block_state) (s : State) : op unit :=
  modify (fun c => set_db (push_session s (db c)) c);;
  try_catch
    (on_forks (add bsp false);;
     on_forks (mark_valid bsp);;
     modify (fun c => set_chain_head (head (forks c)) c);;
     c ← get;
     lift (EOS_ASSERT (bool_decide (id bsp = head_block_id c)) fork_database_exception);;
     log_irreversible)
    (fun e => modify (fun c => set_db (undo (db c)) c);; lift (Throw e)).

(** The end of [init], for a node whose mode has changed from irreversible: the
    loop, and the condition on it. *)
Fixpoint apply_best_branch (fuel : nat) : op unit :=
  match fuel with
  | O => mret tt
  | S fuel =>
      c ← get;
      let p := pending_head (forks c) in
      if decide (id p = id (head (forks c))) then mret tt
      else maybe_switch_forks p status_complete;; apply_best_branch fuel
  end.

Definition startup_best_branch (fuel : nat) : op unit :=
  c ← get;
  let f := forks c in
  if bool_decide (read_mode <> IRREVERSIBLE) && bool_decide (id (pending_head f) <> id (head f)) &&
     bool_decide (id (head f) = id (root f))
  then apply_best_branch fuel else mret tt.

End controller.
Arguments controller : clear implicits.
End ForkSwitching.
