(* ===== verification/ForkSync.v ===== *)
(** * The head, the fork database and the state stay together

    The correctness of the fork handling of [ForkSwitching].  [in_sync] is what
    holds between two blocks: the state database has one session for each block
    of the valid branch from the root to the head, no block is preferred to the
    head, the irreversible numbers do not decrease along a branch, and the block
    log ends at the root.  Pushing and committing blocks that do not lower the
    irreversible number keep it, through exceptions as well; what happens with
    a lower one is shown at the end. *)

From S2P Require Import Prelude Merkle ForkDatabase ForkBranches ForkSwitching.

Module ForkSync.
Import ForkDatabase ForkBranches ForkSwitching.

Section runs.
Context {D State : Type} `{UndoDatabase D State} `{BlockApplier State}.

(** The valid blocks [l] lead from [r], with the database [d], to [b]. *)
Inductive run (f : fork_db) (r : block_state) (d : D) : list block_state -> block_state -> D -> Prop :=
  | run_nil : run f r d [] r d
  | run_snoc l p dp b s : run f r d l p dp -> index f !! id b = Some b -> validated b = true ->
      previous b = id p -> apply_block status_validated b (state dp) = Ok s ->
      run f r d (l ++ [b]) b (push_session s dp).

(** The same without the databases, and for blocks of any kind. *)
Inductive path (f : fork_db) (r : block_state) : list block_state -> block_state -> Prop :=
  | path_nil : path f r [] r
  | path_snoc l p b : path f r l p -> index f !! id b = Some b -> previous b = id p ->
      path f r (l ++ [b]) b.

Lemma run_path f r d l b db : run f r d l b db -> path f r l b.
Proof. induction 1; by econstructor. Qed.

Lemma run_app f r d l1 m dm l2 b db :
  run f r d l1 m dm -> run f m dm l2 b db -> run f r d (l1 ++ l2) b db.
Proof.
  intros H1 H2. induction H2; [by rewrite app_nil_r|]. rewrite app_assoc. by econstructor.
Qed.

Lemma run_split f r d l1 l2 b db : run f r d (l1 ++ l2) b db ->
  exists m dm, run f r d l1 m dm /\ run f m dm l2 b db.
Proof.
  intros Hr. remember (l1 ++ l2) as l eqn:El. revert l2 El.
  induction Hr as [|l p dp b s Hr IH Hb Hv Hp Ha]; intros l2 El.
  - symmetry in El. apply app_nil in El as [-> ->]. eauto using run_nil.
  - destruct l2 as [|x l2 _] using rev_ind.
    + rewrite app_nil_r in El. subst. eauto 6 using run_nil, run_snoc.
    + rewrite app_assoc in El. apply app_inj_tail in El as [-> <-].
      destruct (IH l2 eq_refl) as (m & dm & H1 & H2). exists m, dm. split; [done|].
      by econstructor.
Qed.

Lemma run_nil_inv f r d b db : run f r d [] b db -> b = r /\ db = d.
Proof.
  intros Hr. remember [] as l eqn:El. destruct Hr; [done|]. by apply app_nil in El as [_ ?].
Qed.

Lemma run_singleton_inv f r d x b db : run f r d [x] b db ->
  b = x /\ exists s, apply_block status_validated x (state d) = Ok s /\ db = push_session s d.
Proof.
  intros Hr. remember [x] as l eqn:El. destruct Hr as [|l p dp b s Hr Hb Hv Hp Ha]; [done|].
  apply app_singleton in El as [[-> [= ->]]|[_ ?]]; [|done]. apply run_nil_inv in Hr as [-> ->]. eauto.
Qed.

Lemma run_keep f f' r d l b db : run f r d l b db ->
  (forall x, x ∈ l -> index f !! id x = Some x -> validated x = true -> index f' !! id x = Some x) ->
  run f' r d l b db.
Proof.
  induction 1 as [|l p dp b s Hr IH Hb Hv Hp Ha]; intros Hk; [constructor|].
  econstructor; try done; [|by apply Hk; set_solver]. apply IH. intros x Hx. apply Hk. set_solver.
Qed.

Lemma run_revision f r d l b db : run f r d l b db -> revision db = revision d + Z.of_nat (length l).
Proof.
  induction 1 as [|l p dp b s Hr IH]; [cbn; lia|]. rewrite revision_push, IH, length_app. cbn. lia.
Qed.

(** Committing at or below the start of a run leaves its sessions. *)
Lemma run_commit n f r d l b db : n <= revision d -> run f r d l b db ->
  run f r (commit n d) l b (commit n db).
Proof.
  intros Hn. induction 1 as [|l p dp b s Hr IH Hb Hv Hp Ha]; [constructor|].
  rewrite commit_push by (rewrite (run_revision _ _ _ _ _ _ Hr); lia).
  econstructor; try done. by rewrite state_commit.
Qed.

Lemma run_stored f r d l b db x : run f r d l b db -> x ∈ l ->
  index f !! id x = Some x /\ validated x = true.
Proof. induction 1; set_solver. Qed.

Lemma run_last f r d l b db : run f r d l b db -> last (r :: l) = Some b.
Proof. destruct 1; [done|]. rewrite app_comm_cons. apply last_snoc. Qed.

Lemma run_end f r d l b db : l <> [] -> run f r d l b db ->
  index f !! id b = Some b /\ validated b = true /\ last l = Some b.
Proof. intros Hl Hr. destruct Hr; [done|]. by rewrite last_snoc. Qed.

(** ** Runs in a tree *)

Section tree.
Context (f : fork_db) (r : block_state).
Hypothesis Hf : wf f.
Hypothesis Hr : known f r.

Lemma stored_known b : index f !! id b = Some b -> known f b.
Proof. intros Hb. apply root_or_block_header. by apply get_block_header_index. Qed.

Lemma known_cases b : known f b -> b = root f \/ index f !! id b = Some b.
Proof.
  intros Hb%root_or_block_header. unfold get_block_header in Hb.
  destruct (decide _); [left; congruence|by right].
Qed.

Lemma parent_num b p : index f !! id b = Some b -> known f p -> previous b = id p ->
  block_num b = block_num p + 1.
Proof.
  intros Hb Hp%root_or_block_header Hprev. destruct (wf_link _ Hf _ _ Hb) as (p' & Hp' & Hn).
  rewrite Hprev in Hp'. by assert (p' = p) as -> by congruence.
Qed.

Lemma path_known l b : path f r l b -> known f b.
Proof. destruct 1; [done|]. by apply stored_known. Qed.

Lemma path_num l b : path f r l b -> block_num b = block_num r + Z.of_nat (length l).
Proof.
  induction 1 as [|l p b Hp IH Hb Hprev]; [cbn; lia|].
  rewrite (parent_num b p Hb (path_known _ _ Hp) Hprev), length_app. cbn. lia.
Qed.

Lemma path_dpos l b : monotone f -> path f r l b ->
  dpos_irreversible_blocknum r <= dpos_irreversible_blocknum b.
Proof.
  intros Hmon. induction 1 as [|l p b Hp IH Hb Hprev]; [done|].
  enough (dpos_irreversible_blocknum p <= dpos_irreversible_blocknum b) by lia.
  eapply Hmon; [exact Hb|]. rewrite Hprev. apply root_or_block_header. by eapply path_known.
Qed.

Lemma run_known d l b db : run f r d l b db -> known f b.
Proof. intros Hb. eapply path_known, run_path, Hb. Qed.

Lemma run_num d l b db : run f r d l b db -> block_num b = block_num r + Z.of_nat (length l).
Proof. intros Hb. eapply path_num, run_path, Hb. Qed.

Lemma run_dpos d l b db : monotone f -> run f r d l b db ->
  dpos_irreversible_blocknum r <= dpos_irreversible_blocknum b.
Proof. intros Hmon Hb. by eapply path_dpos, run_path, Hb. Qed.

Lemma run_descends d l b db : run f r d l b db -> descends f (id r) (id b).
Proof.
  induction 1 as [|l p dp b s Hp IH Hb Hv Hprev Ha]; [constructor|].
  eapply rtc_r; [exact IH|]. by exists b.
Qed.

(** A block has one run. *)
Lemma run_fun d l b db l' db' : run f r d l b db -> run f r d l' b db' -> l = l' /\ db = db'.
Proof.
  intros H1. revert l' db'. induction H1 as [|l p dp b s Hp IH Hb Hv Hprev Ha]; intros l' db' H2.
  - pose proof (run_num _ _ _ _ H2). destruct H2; [done|]. rewrite length_app in *. cbn in *. lia.
  - destruct H2 as [|l' p' dp' b s' Hp' Hb' Hv' Hprev' Ha'].
    { pose proof (run_num _ _ _ _ Hp). pose proof (parent_num r p Hb (run_known _ _ _ _ Hp) Hprev). lia. }
    assert (p' = p) as ->.
    { apply (known_eq f); eauto using run_known. congruence. }
    destruct (IH _ _ Hp') as [-> ->]. split; congruence.
Qed.

(** The run of a descendant of [m] goes through [m]. *)
Lemma run_through d l b db k m dm : run f r d l b db -> run f r d k m dm ->
  descends f (id m) (id b) -> exists l', l = k ++ l' /\ run f m dm l' b db.
Proof.
  intros Hb Hm. pose proof (run_known _ _ _ _ Hm) as Hkm.
  induction Hb as [|l p dp b s Hp IH Hb Hv Hprev Ha]; intros Hd.
  - pose proof (descends_height f Hf _ _ Hr Hd) as Hn. rewrite known_num in Hn by done.
    pose proof (run_num _ _ _ _ Hm). destruct k; [|cbn in *; lia].
    apply run_nil_inv in Hm as [-> ->]. exists []. split; [done|constructor].
  - apply rtc_inv_r in Hd as [Heq|(z & Hz & x & Hx & Hxz)].
    + assert (m = b) as -> by (apply (known_eq f); eauto using stored_known).
      destruct (run_fun _ _ _ _ _ _ Hm (run_snoc _ _ _ _ _ _ _ _ Hp Hb Hv Hprev Ha)) as [-> ->].
      exists []. rewrite app_nil_r. split; [done|constructor].
    + assert (x = b) as -> by congruence. rewrite Hprev in Hxz. subst z.
      destruct (IH Hz) as (l' & -> & Hl'). exists (l' ++ [b]). rewrite app_assoc. split; [done|].
      by econstructor.
Qed.

End tree.

Lemma run_between f r d l b db x : wf f -> known f r -> run f r d l b db -> x ∈ l ->
  descends f (id r) (id x) /\ block_num r < block_num x <= block_num b.
Proof.
  intros Hf Hr Hb (l1 & l2 & ->)%list_elem_of_split.
  rewrite cons_middle, app_assoc in Hb. apply run_split in Hb as (m & dm & H1 & H2).
  assert (m = x) as ->.
  { apply run_last in H1. rewrite app_comm_cons, last_snoc in H1. congruence. }
  pose proof (run_num f r Hf Hr _ _ _ _ H1) as Hn. rewrite length_app in Hn. cbn in Hn.
  pose proof (run_num f x Hf (run_known f r Hf Hr _ _ _ _ H1) _ _ _ _ H2).
  split; [by eapply run_descends|lia].
Qed.

(** Committing the blocks of a list in turn. *)
Definition commits (l : list block_state) (d : D) : D :=
  foldl (fun d b => commit (block_num b) d) d l.

Lemma state_commits l d : state (commits l d) = state d.
Proof. revert d. induction l as [|b l IH]; intros d; [done|]. etransitivity; [apply IH|apply state_commit]. Qed.

Lemma revision_commits l d : revision (commits l d) = revision d.
Proof. revert d. induction l as [|b l IH]; intros d; [done|]. etransitivity; [apply IH|apply revision_commit]. Qed.

Lemma run_commits k f r d l b db : (forall x, x ∈ k -> block_num x <= revision d) ->
  run f r d l b db -> run f r (commits k d) l b (commits k db).
Proof.
  revert d db. induction k as [|x k IH]; intros d db Hk Hr; cbn; [done|].
  apply IH; [|apply run_commit; set_solver]. intros y Hy. rewrite revision_commit. set_solver.
Qed.

(** ** The branch of a block *)

Lemma path_prefix f r l b n : wf f -> known f r -> path f r l b ->
  exists l', l = filter (fun x => block_num x <= n) l ++ l'.
Proof.
  intros Hf Hr Hb. enough ((exists l', l = filter (fun x => block_num x <= n) l ++ l') /\
    (block_num b <= n -> filter (fun x => block_num x <= n) l = l)) as [? _] by done.
  induction Hb as [|l p b Hp [[l' Hl'] IH] Hb Hprev]; [split; [by exists []|done]|].
  pose proof (parent_num f Hf b p Hb (path_known f r Hf Hr _ _ Hp) Hprev) as Hn.
  rewrite filter_app, filter_cons. destruct (decide (block_num b <= n)) as [Hle|Hle].
  - rewrite IH by lia. cbn. split; [exists []; by rewrite app_nil_r|done].
  - cbn. rewrite app_nil_r. split; [|done]. exists (l' ++ [b]). rewrite Hl' at 1. by rewrite <- app_assoc.
Qed.

Lemma fetch_branch_loop_path f l b n fuel : wf f -> path f (root f) l b -> (length l <= fuel)%nat ->
  fetch_branch_loop fuel f (get_block f (id b)) n = rev (filter (fun x => block_num x <= n) l).
Proof.
  intros Hf Hr. revert fuel. induction Hr as [|l p b Hp IH Hb Hprev]; intros fuel Hl.
  - unfold get_block. rewrite (wf_root _ Hf). by destruct fuel.
  - rewrite length_app in Hl. cbn in Hl. destruct fuel as [|fuel]; [lia|].
    unfold get_block at 1. rewrite Hb. cbn [fetch_branch_loop]. rewrite Hprev, IH by lia.
    rewrite filter_app, filter_cons, rev_app_distr. f_equal.
    destruct (Z.leb_spec (block_num b) n); destruct (decide _); (lia || done).
Qed.

Lemma root_known f : known f (root f).
Proof. unfold known, root_or_block. by rewrite decide_True. Qed.

Lemma fetch_branch_path f l b n : wf f -> path f (root f) l b ->
  exists k1 k2, l = k1 ++ k2 /\ fetch_branch f (id b) n = rev k1.
Proof.
  intros Hf Hr. destruct (path_prefix f _ l b n Hf (root_known f) Hr) as [l' Hl'].
  eexists _, l'. split; [exact Hl'|]. eapply fetch_branch_loop_path; [done..|].
  pose proof (path_num f _ Hf (root_known f) _ _ Hr).
  pose proof (known_depth f Hf b (path_known f _ Hf (root_known f) _ _ Hr)). lia.
Qed.

(** ** Every valid block has a run *)

(** [h] is a block of the tree with its database [d], and so is every valid
    block, over the database [base] of the root. *)
Record tracked (f : fork_db) (base : D) (h : block_state) (d : D) : Prop := {
  tr_wf : wf f;
  tr_revision : revision base = block_num (root f);
  tr_head : exists l, run f (root f) base l h d;
  tr_valid : forall i b, index f !! i = Some b -> validated b = true ->
    exists l db, run f (root f) base l b db;
  tr_root : previous (root f) <> id (root f);
  tr_monotone : monotone f;
}.

Lemma tracked_known f base h d : tracked f base h d -> known f h /\ validated h = true.
Proof.
  intros [Hf _ [l Hl] _ _ _]. split; [eapply run_known, Hl; [done|apply root_known]|].
  destruct Hl; [apply Hf|done].
Qed.

(** What is not valid has no valid block above it. *)
Lemma run_not_below f base l b db i x : wf f -> run f (root f) base l b db ->
  index f !! i = Some x -> validated x = false -> ~ descends f i (id b).
Proof.
  intros Hf. induction 1 as [|l p dp b s Hp IH Hb Hv Hprev Ha]; intros Hx Hxv Hd.
  - apply rtc_inv_r in Hd as [->|(z & _ & y & Hy & _)].
    + by rewrite (wf_root _ Hf) in Hx.
    + by rewrite (wf_root _ Hf) in Hy.
  - apply rtc_inv_r in Hd as [->|(z & Hz & y & Hy & Hyz)]; [congruence|].
    assert (y = b) as -> by congruence. rewrite Hprev in Hyz. subst z. by apply IH.
Qed.

Lemma tracked_forks_head f base h d : tracked f base h d -> exists l db, run f (root f) base l (head f) db.
Proof.
  intros [Hf _ _ Hv _ _]. destruct (wf_head _ Hf) as [->|[Hh Hhv]]; [eexists _, _; constructor|].
  by eapply Hv.
Qed.

(** ** The operations of the fork database *)

(** Two databases with the same blocks, of which the second knows more of them
    to be valid. *)
Record same_blocks (f f' : fork_db) : Prop := {
  same_root : root f' = root f;
  same_index : set_validated true <$> index f' = set_validated true <$> index f;
  same_valid : forall i b, index f !! i = Some b -> validated b = true -> index f' !! i = Some b;
}.

Lemma same_blocks_refl f : same_blocks f f.
Proof. by split. Qed.

Lemma same_blocks_trans f1 f2 f3 : same_blocks f1 f2 -> same_blocks f2 f3 -> same_blocks f1 f3.
Proof. intros [? ? ?] [? ? ?]. split; [congruence..|eauto]. Qed.

Lemma same_lookup f f' i b : same_blocks f f' -> index f' !! i = Some b ->
  exists b0, index f !! i = Some b0 /\ set_validated true b0 = set_validated true b.
Proof.
  intros [_ Hi _] Hb. apply (f_equal (.!! i)) in Hi. rewrite !lookup_fmap, Hb in Hi.
  cbn in Hi. destruct (index f !! i); cbn in Hi; [|done]. eexists. split; [done|]. congruence.
Qed.

Lemma same_lookup_back f f' i b : same_blocks f f' -> index f !! i = Some b ->
  exists b', index f' !! i = Some b' /\ set_validated true b' = set_validated true b.
Proof.
  intros [_ Hi _] Hb. apply (f_equal (.!! i)) in Hi. rewrite !lookup_fmap, Hb in Hi.
  cbn in Hi. destruct (index f' !! i); cbn in Hi; [|done]. eexists. split; [done|]. congruence.
Qed.

Lemma same_child f f' x y : same_blocks f f' -> child f' x y <-> child f x y.
Proof.
  intros Hs. split; intros (b & Hb & <-).
  - destruct (same_lookup _ _ _ _ Hs Hb) as (b0 & Hb0 & Heq). exists b0. split; [done|].
    by injection Heq.
  - destruct (same_lookup_back _ _ _ _ Hs Hb) as (b0 & Hb0 & Heq). exists b0. split; [done|].
    by injection Heq.
Qed.

Lemma same_descends f f' x y : same_blocks f f' -> descends f' x y <-> descends f x y.
Proof.
  intros Hs. split; intros Hd; induction Hd as [|a b c Hab _ IH]; try constructor;
    (eapply rtc_l; [|exact IH]); by apply (same_child f f').
Qed.

Lemma preferred_flag a a' b : set_validated true a = set_validated true a' ->
  first_preferred a b = first_preferred a' b /\ first_preferred b a = first_preferred b a'.
Proof. destruct a, a'. cbn. by intros [= -> -> -> -> -> -> ->]. Qed.

Lemma same_run f f' r d l b db : wf f -> same_blocks f f' -> run f r d l b db -> run f' r d l b db.
Proof. intros Hf Hs Hr. eapply run_keep; [done|]. intros x _ Hx Hv. by eapply same_valid. Qed.

Lemma mark_valid_spec f b : wf f -> index f !! id b = Some b ->
  exists f', mark_valid b f = (Ok tt, f') /\ wf f' /\ same_blocks f f' /\
    index f' = <[id b := set_validated true b]> (index f) /\ (validated b = true -> f' = f).
Proof.
  intros Hf Hb. destruct (mark_valid b f) as [r f'] eqn:E. pose proof (mark_valid_wf _ _ _ _ Hf E) as Hf'.
  assert (r = Ok tt /\ root f' = root f /\ index f' = <[id b := set_validated true b]> (index f) /\
    (validated b = true -> f' = f)) as (-> & Hr & Hi & Hv).
  { unfold mark_valid, get, lift, put, mret, stateful_ret, mbind, stateful_bind in E.
    destruct (validated b) eqn:Hv.
    - injection E as <- <-. by rewrite set_validated_id, insert_id.
    - rewrite Hb in E. destruct (by_lib_block_num _); [|destruct (first_preferred _ _)];
        by injection E as <- <-. }
  exists f'. split_and!; try done. split; [done|..].
  - rewrite Hi, fmap_insert. apply map_eq. intros i. destruct (decide (i = id b)) as [->|Hne].
    + by rewrite lookup_insert_eq, lookup_fmap, Hb.
    + by rewrite lookup_insert_ne.
  - intros i x Hx Hxv. rewrite Hi. destruct (decide (i = id b)) as [->|Hne].
    + rewrite lookup_insert_eq. simplify_eq. by rewrite set_validated_id.
    + by rewrite lookup_insert_ne.
Qed.

(** A child of [h] that applies becomes valid, with the next database. *)
Lemma tracked_mark f base h d b st s : tracked f base h d -> index f !! id b = Some b ->
  previous b = id h -> apply_block st b (state d) = Ok s ->
  exists f', mark_valid b f = (Ok tt, f') /\ same_blocks f f' /\
    index f' = <[id b := set_validated true b]> (index f) /\ (validated b = true -> f' = f) /\
    tracked f' base (set_validated true b) (push_session s d).
Proof.
  intros [Hf Hrev [l Hl] Hval Hroot Hmon] Hb Hprev Ha.
  destruct (mark_valid_spec f b Hf Hb) as (f' & E & Hf' & Hs & Hi & Hv).
  assert (run f' (root f') base (l ++ [set_validated true b]) (set_validated true b) (push_session s d)) as Hrun.
  { rewrite (same_root _ _ Hs). econstructor; [by apply (same_run f f')|..]; [|done..|].
    - rewrite Hi. apply lookup_insert_eq.
    - by eapply apply_again. }
  exists f'. split_and!; try done.
  split; [done|by rewrite (same_root _ _ Hs)|by eexists| |by rewrite (same_root _ _ Hs)|by eapply mark_valid_monotone].
  intros i x Hx Hxv. rewrite Hi in Hx. destruct (decide (i = id b)) as [->|Hne].
  - rewrite lookup_insert_eq in Hx. injection Hx as <-. eauto.
  - rewrite lookup_insert_ne in Hx by done. destruct (Hval _ _ Hx Hxv) as (lx & dx & Hrx).
    exists lx, dx. rewrite (same_root _ _ Hs). by apply (same_run f f').
Qed.

Lemma add_fresh f n p : known f p -> previous n = id p -> index f !! id n = None ->
  exists f', add n false f = (Ok tt, f').
Proof.
  intros Hp%root_or_block_header Hprev Hnew. eexists.
  unfold add, add_impl, get, lift, put, mbind, stateful_bind. rewrite Hprev, Hp. cbn. by rewrite Hnew.
Qed.

(** A new block is not valid yet. *)
Lemma tracked_add f base h d n r f' : tracked f base h d -> extends f n -> keeps_lib f n -> validated n = false ->
  add n false f = (r, f') ->
  (f' = f /\ exists e, r = Throw e) \/
  (r = Ok tt /\ tracked f' base h d /\ root f' = root f /\ index f !! id n = None /\
   index f' = <[id n := n]> (index f)).
Proof.
  intros [Hf Hrev [l Hl] Hval Hroot Hmon] Hext Hlib Hn E. unfold add in E. pose proof (add_wf _ _ _ _ _ _ Hf Hext E) as Hf'.
  pose proof (add_monotone _ _ _ _ _ _ Hf Hmon Hlib Hext E) as Hmon'.
  apply add_impl_cases in E as [?|[(_ & _ & ? & _)|(-> & Hnew & _ & E)]]; [by left|done|right].
  assert (root f' = root f /\ index f' = <[id n := n]> (index f)) as [Hr Hi].
  { rewrite E. destruct (by_lib_block_num _); [done|]. by destruct (is_valid _). }
  assert (forall l b db, run f (root f) base l b db -> run f' (root f') base l b db) as Hkeep.
  { intros k b db Hk. rewrite Hr. eapply run_keep; [done|]. intros x _ Hx _. rewrite Hi.
    rewrite lookup_insert_ne; [done|]. intros Heq. by rewrite <- Heq, Hnew in Hx. }
  split_and!; try done. split; [done|by rewrite Hr|by eauto| |by rewrite Hr|done].
  intros i b Hb Hv. rewrite Hi in Hb. apply lookup_insert_Some in Hb as [[_ <-]|[_ Hb]]; [congruence|].
  destruct (Hval _ _ Hb Hv) as (k & db & Hk). eauto.
Qed.

(** A block that is not valid goes with everything built on it. *)
Lemma tracked_remove f base h d b : tracked f base h d -> index f !! id b = Some b ->
  validated b = false ->
  exists f', remove (id b) f = (Ok tt, f') /\ tracked f' base h d /\ root f' = root f /\
    (forall y x, index f' !! y = Some x <-> index f !! y = Some x /\ ~ descends f (id b) y) /\
    (forall r d' l x dx, run f r d' l x dx -> run f' r d' l x dx).
Proof.
  intros Ht Hb Hbv. pose proof Ht as [Hf Hrev [l Hl] Hval Hroot Hmon].
  destruct (tracked_forks_head _ _ _ _ Ht) as (lh & dh & Hh).
  destruct (remove_forest _ _ (id b) (wf_forest _ Hf)) as [[Hd _]|(_ & R & HR & E)].
  { by destruct (run_not_below _ _ _ _ _ _ _ Hf Hh Hb Hbv). }
  exists (remove_all R f).
  assert (forall y x, index (remove_all R f) !! y = Some x <->
    index f !! y = Some x /\ ~ descends f (id b) y) as Hidx.
  { intros y x. rewrite remove_all_lookup, <- HR. destruct (decide (y ∈ R)); naive_solver. }
  assert (forall r d' l x dx, run f r d' l x dx -> run (remove_all R f) r d' l x dx) as Hkeep.
  { intros r d' k x dx Hk. eapply run_keep; [done|]. intros y Hy Hyi Hyv. apply Hidx.
    split; [done|]. destruct (Hval _ _ Hyi Hyv) as (ly & dy & Hry).
    by apply (run_not_below _ _ _ _ _ _ _ Hf Hry Hb). }
  split_and!; try done. split; [by eapply remove_wf|done|..|done|by eapply remove_monotone].
  - exists l. by apply Hkeep.
  - intros i x [Hx _]%Hidx Hv. destruct (Hval _ _ Hx Hv) as (k & dx & Hk).
    exists k, dx. by apply Hkeep.
Qed.

End runs.
Lemma bind_step {S A B} (m : stateful S A) (k : A -> stateful S B) s a s1 :
  m s = (Ok a, s1) -> (m ≫= k) s = k a s1.
Proof. unfold mbind, stateful_bind. by intros ->. Qed.

Lemma bind_stop {S A B} (m : stateful S A) (k : A -> stateful S B) s e s1 :
  m s = (Throw e, s1) -> (m ≫= k) s = (Throw e, s1).
Proof. unfold mbind, stateful_bind. by intros ->. Qed.

Lemma try_catch_ok {D A} (m : op (D := D) A) handler c a c1 : m c = (Ok a, c1) ->
  try_catch m handler c = (Ok a, c1).
Proof. unfold try_catch. by intros ->. Qed.

Section sync.
Context {D State : Type} `{UndoDatabase D State} `{BlockApplier State}.
Context (read_mode : db_read_mode) (first_block_num : Z) (append : block_state -> result unit).

(** The controller at the block [h] with the database [d]. *)
Definition move (h : block_state) (d : D) (c : controller D) : controller D :=
  set_db d (set_chain_head h c).

(** ** Popping and applying a branch *)

Lemma pop_block_spec c b p s dp : wf (forks c) -> known (forks c) p -> chain_head c = b ->
  db c = push_session s dp -> previous b = id p -> pop_block c = (Ok tt, move p dp c).
Proof.
  intros Hf Hp Hc Hd Hprev. unfold pop_block, get, modify, lift, mret, stateful_ret, mbind, stateful_bind.
  rewrite Hc, Hprev. unfold get_block.
  destruct (known_cases _ _ Hp) as [->|Hi]; [rewrite (wf_root _ Hf), bool_decide_true by done|rewrite Hi];
    cbn; unfold move, set_db, set_chain_head; cbn; by rewrite Hd, undo_push.
Qed.

Lemma pops_spec {A} (L : list A) c m dm k : wf (forks c) -> known (forks c) m ->
  run (forks c) m dm k (chain_head c) (db c) -> length L = length k ->
  iterM (fun _ => pop_block) L c = (Ok tt, move m dm c).
Proof.
  revert c k. induction L as [|x L IH]; intros c k Hf Hm Hr Hlen; cbn [iterM].
  - destruct k; [|done]. apply run_nil_inv in Hr as [<- <-]. by destruct c.
  - remember (chain_head c) as b eqn:Eb. remember (db c) as d eqn:Ed.
    destruct Hr as [|k p dp b s Hp Hb Hv Hprev Ha]; [done|].
    rewrite length_app in Hlen. cbn in Hlen.
    pose proof (run_known _ _ Hf Hm _ _ _ _ Hp) as Hkp.
    rewrite (bind_step _ _ _ _ _ (pop_block_spec c b p s dp Hf Hkp (eq_sym Eb) (eq_sym Ed) Hprev)).
    rewrite (IH (move p dp c) k) by (done || lia). done.
Qed.

(** The blocks of a run apply again. *)
Lemma reapply_spec l c m dm h d : run (forks c) m dm l h d -> chain_head c = m -> db c = dm ->
  iterM (fun b => apply status_validated b;; modify (set_chain_head b)) l c = (Ok tt, move h d c).
Proof.
  revert c m dm. induction l as [|b l IH]; intros c m dm Hr Hm Hd.
  - apply run_nil_inv in Hr as [-> ->]. subst. by destruct c.
  - change (b :: l) with ([b] ++ l) in Hr. apply run_split in Hr as (p & dp & H1 & H2).
    apply run_singleton_inv in H1 as (-> & s & Ha & ->). cbn [iterM].
    rewrite (bind_step _ _ c tt (move b (push_session s dm) c)).
    2: { unfold apply, modify, mbind, stateful_bind. by rewrite Hd, Ha. }
    rewrite (IH (move b (push_session s dm) c) b (push_session s dm)) by done. done.
Qed.

(** ** Writing the log *)

(** The block log ends at the block [r]. *)
Definition log_ends (log : list block_state) (r : block_state) : Prop :=
  match last log with
  | Some b => id b = id r /\ block_num b = block_num r
  | None => block_num r = first_block_num - 1
  end.

(** What holds between two blocks. *)
Record in_sync (c : controller D) : Prop := {
  sync_tracked : exists base, tracked (forks c) base (chain_head c) (db c);
  sync_best : forall i b, index (forks c) !! i = Some b -> first_preferred b (chain_head c) = false;
  sync_log : log_ends (blog c) (root (forks c));
}.

(** The log takes the first blocks of the branch; the exception is its own. *)
Lemma log_blocks_spec l rid c : read_mode <> IRREVERSIBLE ->
  exists k1 k2 r, l = k1 ++ k2 /\
    log_blocks read_mode append rid l c =
      (r, default rid (id <$> last k1),
       mk_controller (chain_head c) (commits k1 (db c)) (forks c) (blog c ++ k1)) /\
    (r = Ok tt \/ exists b e, r = Throw e /\ append b = Throw e).
Proof.
  intros Hm. revert rid c. induction l as [|b l IH]; intros rid c; cbn [log_blocks].
  - exists [], [], (Ok tt). destruct c. cbn. rewrite app_nil_r. eauto.
  - destruct (append b) as [[]|e] eqn:Ea.
    + assert (log_block read_mode append b c = (Ok tt, mk_controller (chain_head c)
        (commit (block_num b) (db c)) (forks c) (blog c ++ [b]))) as ->.
      { unfold log_block. rewrite decide_False by done.
        unfold mbind, stateful_bind, mret, stateful_ret, lift. by rewrite Ea. }
      destruct (IH (id b) (mk_controller (chain_head c)
        (commit (block_num b) (db c)) (forks c) (blog c ++ [b]))) as (k1 & k2 & r & -> & -> & Hr).
      exists (b :: k1), k2, r. split; [done|]. split; [|done]. cbn [chain_head db forks blog].
      rewrite <- app_assoc, last_cons. by destruct (last k1).
    + assert (log_block read_mode append b c = (Throw e, c)) as ->.
      { unfold log_block. rewrite decide_False by done.
        unfold mbind, stateful_bind, mret, stateful_ret, lift. by rewrite Ea. }
      exists [], (b :: l), (Throw e). destruct c. cbn. rewrite app_nil_r. split_and!; [done..|]. right. eauto.
Qed.

(** The root moves along the branch of the head, and the sessions below it go. *)
Lemma tracked_advance f base h d k m dm l : tracked f base h d -> h = head f -> k <> [] ->
  run f (root f) base k m dm -> run f m dm l h d ->
  exists f', advance_root (id m) f = (Ok tt, f') /\ root f' = m /\ head f' = h /\
    (forall y b, index f' !! y = Some b -> index f !! y = Some b) /\
    tracked f' (commits k dm) h (commits k d).
Proof.
  intros [Hf Hrev _ Hval Hroot Hmon] Hh Hk Hm Hl.
  pose proof (run_known _ _ Hf (root_known f) _ _ _ _ Hm) as Hkm.
  destruct (run_end _ _ _ _ _ _ Hk Hm) as (Hmi & Hmv & _).
  pose proof (run_descends _ _ _ _ _ _ Hl) as Hd. rewrite Hh in Hd.
  destruct (advance_root_ok f (id m) m Hf Hmi Hmv Hd) as (f' & E & Hr' & Hh' & Hidx).
  assert (forall x, x ∈ k -> block_num x <= revision dm) as Hcom.
  { intros x Hx. destruct (run_between _ _ _ _ _ _ x Hf (root_known f) Hm Hx) as [_ ?].
    rewrite (run_revision _ _ _ _ _ _ Hm), Hrev.
    pose proof (run_num _ _ Hf (root_known f) _ _ _ _ Hm). lia. }
  assert (forall l b db, run f m dm l b db -> run f' m (commits k dm) l b (commits k db)) as Hkeep.
  { intros l' b db Hb. apply run_commits; [done|]. eapply run_keep; [exact Hb|]. intros x Hx Hxi Hxv.
    destruct (run_between _ _ _ _ _ _ x Hf Hkm Hb Hx) as [Hdx Hn]. apply Hidx. split_and!; try done.
    intros Heq. assert (x = m) as -> by congruence. lia. }
  exists f'. split_and!; try done; [by rewrite Hh', Hh|naive_solver|].
  split; [by eapply advance_root_wf| |rewrite Hr'; eauto| | |by eapply advance_root_monotone].
  - rewrite revision_commits, (run_revision _ _ _ _ _ _ Hm), Hrev, Hr'.
    by rewrite (run_num _ _ Hf (root_known f) _ _ _ _ Hm).
  - intros i b (Hb & Hne & Hdb)%Hidx Hv. destruct (Hval _ _ Hb Hv) as (lb & db & Hrb).
    assert (id b = i) as <- by (by eapply wf_key).
    destruct (run_through _ _ Hf (root_known f) _ _ _ _ _ _ _ Hrb Hm Hdb) as (l' & _ & Hl').
    rewrite Hr'. eauto.
  - rewrite Hr'. intros Heq. pose proof (parent_num f Hf m m Hmi Hkm Heq). lia.
Qed.

Definition append_fails (r : result unit) : Prop := exists b e, r = Throw e /\ append b = Throw e.

(** What is logged was checked to follow the log. *)
Lemma log_irreversible_start c : log_ends (blog c) (root (forks c)) ->
  let fork_head := if decide (read_mode = IRREVERSIBLE) then pending_head (forks c) else head (forks c) in
  log_irreversible read_mode first_block_num append c =
    if dpos_irreversible_blocknum fork_head <=? block_num (root (forks c)) then (Ok tt, c)
    else log_branch read_mode append
           (fetch_branch (forks c) (id fork_head) (dpos_irreversible_blocknum fork_head)) c.
Proof.
  unfold log_ends, log_irreversible, get, lift, mbind, stateful_bind.
  destruct (last (blog c)) as [b|]; [intros [<- <-]; rewrite bool_decide_true by done|intros <-; rewrite Z.eqb_refl];
    cbn; by destruct (_ <=? _).
Qed.

Lemma log_irreversible_sync c : read_mode <> IRREVERSIBLE -> in_sync c -> chain_head c = head (forks c) ->
  exists r c', log_irreversible read_mode first_block_num append c = (r, c') /\
    in_sync c' /\ chain_head c' = chain_head c /\ state (db c') = state (db c) /\
    (r = Ok tt \/ append_fails r).
Proof.
  intros Hm Hc Hh. pose proof Hc as [[base Ht] Hbest Hlog].
  rewrite log_irreversible_start by done. rewrite decide_False by done. cbv zeta.
  destruct (_ <=? _); [exists (Ok tt), c; split_and!; auto|].
  pose proof (tr_wf _ _ _ _ Ht) as Hf. pose proof (tr_head _ _ _ _ Ht) as [l Hl]. rewrite <- Hh.
  destruct (fetch_branch_path _ _ _ (dpos_irreversible_blocknum (chain_head c)) Hf (run_path _ _ _ _ _ _ Hl))
    as (l1 & l2 & -> & ->).
  unfold log_branch. rewrite rev_involutive.
  destruct (log_blocks_spec l1 (id (root (forks c))) c Hm) as (k1 & k2 & r & -> & -> & Hr).
  rewrite <- app_assoc in Hl. apply run_split in Hl as (m & dm & Hk & Hl).
  destruct (decide (k1 = [])) as [->|Hne].
  - cbn [last fmap option_fmap option_map default from_option]. rewrite decide_True by done.
    exists r, c. rewrite app_nil_r. unfold mret, stateful_ret, lift, mbind, stateful_bind. by destruct c.
  - destruct (run_end _ _ _ _ _ _ Hne Hk) as (Hmi & _ & Hlast). rewrite Hlast.
    destruct (tracked_advance _ _ _ _ k1 _ _ _ Ht Hh Hne Hk Hl) as (f' & E & Hr' & Hh' & Hidx & Ht').
    exists r, (mk_controller (chain_head c) (commits k1 (db c)) f' (blog c ++ k1)).
    split; [|split; [split|]]; cbn [chain_head db forks blog].
    + cbn [fmap option_fmap option_map default from_option].
      rewrite decide_False by (intros Heq; cbn in Heq; by rewrite Heq, (wf_root _ Hf) in Hmi).
      unfold on_forks, lift, mbind, stateful_bind. cbn -[advance_root]. by rewrite E.
    + eauto.
    + intros i b Hb. by eapply Hbest, Hidx.
    + rewrite Hr'. unfold log_ends. by rewrite last_app, Hlast.
    + by rewrite state_commits.
Qed.

(** ** Applying a branch *)

Abbreviation here c base := (tracked (forks c) base (chain_head c) (db c)).

Lemma apply_and_mark_ok c base b st s : here c base -> index (forks c) !! id b = Some b ->
  previous b = id (chain_head c) -> apply_block st b (state (db c)) = Ok s ->
  exists f', apply_and_mark st b c =
      (Ok tt, mk_controller (set_validated true b) (push_session s (db c)) f' (blog c)) /\
    same_blocks (forks c) f' /\ index f' = <[id b := set_validated true b]> (index (forks c)) /\
    (validated b = true -> f' = forks c) /\ tracked f' base (set_validated true b) (push_session s (db c)).
Proof.
  intros Ht Hb Hp Ha. destruct (tracked_mark _ _ _ _ _ _ _ Ht Hb Hp Ha) as (f' & E & ? & ? & ? & ?).
  exists f'. split_and!; try done. unfold apply_and_mark, apply, on_forks, mbind, stateful_bind.
  rewrite Ha. cbn -[mark_valid]. by rewrite E.
Qed.

Lemma apply_and_mark_throw c b st e : apply_block st b (state (db c)) = Throw e ->
  apply_and_mark st b c = (Throw e, c).
Proof. intros Ha. unfold apply_and_mark, apply, mbind, stateful_bind. by rewrite Ha. Qed.

(** A valid child of the head applies. *)
Lemma valid_applies f base h d b : tracked f base h d -> index f !! id b = Some b ->
  validated b = true -> previous b = id h -> exists s, apply_block status_validated b (state d) = Ok s.
Proof.
  intros [Hf Hrev [l Hl] Hval Hroot Hmon] Hb Hv Hp. destruct (Hval _ _ Hb Hv) as (lb & db & Hr).
  destruct Hr as [|lp p dp b s Hrp Hb' Hv' Hprev Ha]; [by rewrite (wf_root _ Hf) in Hb|].
  assert (p = h) as ->.
  { apply (known_eq f); [eauto using run_known, root_known..|congruence]. }
  destruct (run_fun _ _ Hf (root_known f) _ _ _ _ _ _ Hrp Hl) as [_ ->]. eauto.
Qed.

(** The blocks [l], oldest first, follow [x]. *)
Fixpoint linked (f : fork_db) (x : block_id_type) (l : list block_state) : Prop :=
  match l with
  | [] => True
  | b :: l => index f !! id b = Some b /\ previous b = x /\ linked f (id b) l
  end.

Lemma linked_above f l p x : wf f -> known f p -> linked f (id p) l -> x ∈ l ->
  index f !! id x = Some x /\ block_num p < block_num x.
Proof.
  intros Hf. revert p. induction l as [|b l IH]; intros p Hp Hl Hx; [set_solver|].
  destruct Hl as (Hb & Hprev & Hl). pose proof (parent_num f Hf b p Hb Hp Hprev) as Hn.
  apply elem_of_cons in Hx as [->|Hx]; [split; [done|lia]|].
  destruct (IH b (stored_known f Hf b Hb) Hl Hx). split; [done|lia].
Qed.

Lemma linked_keep f f' x l : linked f x l ->
  (forall b, b ∈ l -> index f !! id b = Some b -> index f' !! id b = Some b) -> linked f' x l.
Proof.
  revert x. induction l as [|b l IH]; intros x Hl Hk; cbn; [done|]. destruct Hl as (Hb & Hp & Hl).
  split_and!; [by apply Hk; [left|]|done|]. apply IH; [done|]. intros y Hy. apply Hk. by right.
Qed.

Lemma linked_app f x l1 l2 b : linked f x l1 -> last l1 = Some b -> linked f (id b) l2 ->
  linked f x (l1 ++ l2).
Proof.
  revert x. induction l1 as [|y l1 IH]; intros x H1 Hlast H2; [done|].
  destruct H1 as (Hy & Hp & H1). cbn. split_and!; [done..|].
  destruct l1 as [|z l1]; [by injection Hlast as <-|]. by apply IH.
Qed.

(** What a branch is, in both directions. *)
Lemma branch_linked f x l y : wf f -> branch f x l y ->
  linked f y (rev l) /\ (l <> [] -> exists b t, last (rev l) = Some b /\ id b = x /\ last l = Some t /\ previous t = y).
Proof.
  intros Hf. induction 1 as [|x b l y Hb Hbr [IH1 IH2]]; [done|]. cbn [rev].
  unfold get_block in Hb. assert (id b = x) as Hid by (by eapply wf_key). subst x.
  split.
  - destruct l as [|b' l]; [by inversion Hbr; subst|].
    destruct IH2 as (z & t & Hz & Hid & _); [done|]. eapply linked_app; [done..|].
    cbn. by rewrite Hid.
  - intros _. exists b. rewrite last_snoc, last_cons. destruct l as [|b' l].
    + exists b. inversion Hbr. by subst.
    + destruct IH2 as (z & t & Hz & Hid & Ht & Hpt); [done|]. exists t. by rewrite Ht.
Qed.

(** The loop stopped at the block [b], which is not valid, with the exception
    [e], after the blocks of the run [k] from the block [m]. *)
Record stopped (c0 c : controller D) (base : D) (m : block_state) (dm : D) (k : list block_state)
    (b : block_state) : Prop := {
  st_here : here c base;
  st_same : same_blocks (forks c0) (forks c);
  st_failed : index (forks c) !! id b = Some b;
  st_invalid : validated b = false;
  st_run : run (forks c) m dm k (chain_head c) (db c);
  st_log : blog c = blog c0;
}.

(** The loop ended, at the last block of the branch. *)
Record applied_all (c0 c : controller D) (base : D) (todo : list block_state) : Prop := {
  al_here : here c base;
  al_same : same_blocks (forks c0) (forks c);
  al_head : chain_head c = default (chain_head c0) (set_validated true <$> last todo);
  al_forks : Forall (fun b => validated b = true) todo -> forks c = forks c0;
  al_log : blog c = blog c0;
}.

Lemma linked_marked c base b l f' : here c base -> linked (forks c) (id b) l ->
  index (forks c) !! id b = Some b -> index f' = <[id b := set_validated true b]> (index (forks c)) ->
  linked f' (id b) l.
Proof.
  intros Ht Hl Hb Hi. pose proof (tr_wf _ _ _ _ Ht) as Hf.
  eapply linked_keep; [done|]. intros x Hx Hxi. rewrite Hi, lookup_insert_ne; [done|].
  intros Heq. destruct (linked_above _ _ _ _ Hf (stored_known _ Hf b Hb) Hl Hx) as [_ Hn].
  assert (x = b) as -> by congruence. lia.
Qed.

Lemma apply_branch_spec second base m dm todo : forall applied c k,
  here c base -> linked (forks c) (id (chain_head c)) todo ->
  run (forks c) m dm k (chain_head c) (db c) -> length applied = length k ->
  (exists c', apply_branch second applied todo c = (Ok tt, c') /\ applied_all c c' base todo) \/
  (exists c', apply_branch second applied todo c = (Throw bad_alloc, c')) \/
  (exists c1 b e k1 applied1, apply_branch second applied todo c = restore_branch second applied1 b e c1 /\
     stopped c c1 base m dm k1 b /\ length applied1 = length k1 /\ b ∈ todo).
Proof.
  induction todo as [|b todo IH]; intros applied c k Ht Hl Hk Hlen; cbn [apply_branch].
  { left. exists c. split; [done|]. split; auto using same_blocks_refl. }
  destruct Hl as (Hb & Hprev & Hl).
  set (st := if is_valid b then _ else _). destruct (apply_block st b (state (db c))) as [s|e] eqn:Ha.
  - destruct (apply_and_mark_ok c base b st s Ht Hb Hprev Ha) as (f' & -> & Hs & Hi & Hv & Ht').
    set (c1 := mk_controller _ _ f' _).
    pose proof (tr_wf _ _ _ _ Ht) as Hf.
    destruct (IH (b :: applied) c1 (k ++ [set_validated true b])) as
      [(c' & E & [Hh Hs' Hhd Hfk Hlg])|[(c' & E)|(c2 & x & e & k1 & ap & E & [] & Hlen1 & Hx)]].
    + done.
    + exact (linked_marked c base b todo f' Ht Hl Hb Hi).
    + econstructor; [by apply (same_run (forks c) f')|..]; [|done..|by eapply apply_again].
      cbn [forks c1]. rewrite Hi. apply lookup_insert_eq.
    + rewrite length_app. cbn. lia.
    + left. exists c'. split; [done|]. split; [done|by eapply same_blocks_trans| | |done].
      * rewrite Hhd, last_cons. by destruct (last todo).
      * intros [Hbv Htv]%Forall_cons. rewrite Hfk by done. cbn. auto.
    + right; left. eauto.
    + right; right. exists c2, x, e, k1, ap. split_and!; [done| |done|by right].
      split; try done. by eapply same_blocks_trans.
  - rewrite (apply_and_mark_throw _ _ _ _ Ha).
    destruct (decide (e = bad_alloc)) as [->|He]; [right; left; eauto|]. right; right.
    exists c, b, e, k, applied. split_and!; [done| |done|by left].
    split; auto using same_blocks_refl. destruct (validated b) eqn:Hv; [|done].
    subst st. unfold is_valid in Ha. rewrite Hv in Ha.
    destruct (valid_applies _ _ _ _ _ Ht Hb Hv Hprev) as [s Hs]. congruence.
Qed.

(** The old branch comes back. *)
Lemma restore_branch_spec c0 c base m dm k b second applied e h d t :
  stopped c0 c base m dm k b -> length applied = length k ->
  (exists l, run (forks c) (root (forks c)) base l m dm) -> last second = Some t -> previous t = id m ->
  run (forks c0) m dm (rev second) h d -> wf (forks c0) ->
  exists f', restore_branch second applied b e c =
      (Throw e, mk_controller h d f' (blog c0)) /\ root f' = root (forks c0) /\ tracked f' base h d /\
    (forall y x, index f' !! y = Some x <->
       index (forks c) !! y = Some x /\ ~ descends (forks c) (id b) y).
Proof.
  intros [Ht Hs Hb Hbv Hk Hlog] Hlen [l Hl] Hlast Hprev Hold Hf0.
  destruct (tracked_remove _ _ _ _ b Ht Hb Hbv) as (f' & E & [Hf' Hrev _ Hval Hroot Hmon] & Hr & Hidx & Hkeep).
  exists f'. pose proof (Hkeep _ _ _ _ _ Hl) as Hm. rewrite <- Hr in Hm.
  pose proof (Hkeep _ _ _ _ _ (same_run _ _ _ _ _ _ _ Hf0 Hs Hold)) as Hold'.
  split_and!; [|by rewrite Hr, (same_root _ _ Hs)| |done].
  2: { split; [done..| |done|done|done]. exists (l ++ rev second). by eapply run_app. }
  unfold restore_branch. rewrite (bind_step _ _ c tt (set_forks f' c)) by (unfold on_forks; by rewrite E).
  rewrite (bind_step _ _ _ tt (move m dm (set_forks f' c))).
  2: { eapply (pops_spec applied _ m dm k); try done; [|by apply Hkeep].
       cbn. eapply run_known; [done|apply root_known|exact Hm]. }
  rewrite Hlast.
  rewrite (bind_step _ _ _ tt (move m dm (set_forks f' c)))
    by (unfold get, lift, mbind, stateful_bind; cbn; by rewrite bool_decide_true).
  rewrite (bind_step _ _ _ tt (move h d (move m dm (set_forks f' c)))) by (by eapply reapply_spec).
  unfold move, set_db, set_chain_head, set_forks, lift. cbn. by rewrite Hlog.
Qed.

Lemma branch_cons_inv f x b l y : branch f x (b :: l) y -> index f !! x = Some b.
Proof. by inversion 1. Qed.

Lemma branch_run f base l h d r y : wf f -> run f (root f) base l h d -> branch f (id h) r y ->
  exists l0 m dm, run f (root f) base l0 m dm /\ run f m dm (rev r) h d /\ id m = y.
Proof.
  intros Hf. revert l h d. induction r as [|b r IH]; intros l h d Hr Hb.
  - exists l, h, d. split_and!; [done|constructor|by inversion Hb].
  - inversion Hb as [|? ? ? ? Hh Hb']; subst. unfold get_block in Hh.
    destruct Hr as [|l p dp b' s Hp Hi Hv Hprev Ha]; [by rewrite (wf_root _ Hf) in Hh|].
    assert (b' = b) as -> by congruence. rewrite Hprev in Hb'.
    destruct (IH _ _ _ Hp Hb') as (l0 & m & dm & H1 & H2 & H3). exists l0, m, dm.
    split_and!; try done. cbn [rev]. by econstructor.
Qed.

Lemma linked_descends f x l z n : linked f x l -> z ∈ l -> last l = Some n -> descends f (id z) (id n).
Proof.
  revert x z. induction l as [|b l IH]; intros x z Hl Hz Hlast; [done|].
  destruct Hl as (Hb & Hp & Hl). destruct l as [|y l].
  - apply list_elem_of_singleton in Hz as ->. injection Hlast as ->. apply rtc_refl.
  - apply elem_of_cons in Hz as [->|Hz]; [|by eapply IH].
    eapply rtc_l; [|eapply (IH (id b) y); [done|left|done]]. exists y. by destruct Hl as (? & ? & _).
Qed.

(** ** A new block *)

Lemma preferred_irrefl b : first_preferred b b = false.
Proof. unfold first_preferred. by rewrite !Z.ltb_irrefl, andb_false_r. Qed.

Lemma preferred_over a b h : first_preferred a h = true -> first_preferred b h = false ->
  first_preferred a b = true.
Proof.
  unfold first_preferred. rewrite !orb_true_iff, !orb_false_iff, !andb_true_iff, !andb_false_iff,
    !Z.ltb_lt, !Z.ltb_ge, !Z.eqb_eq, !Z.eqb_neq. lia.
Qed.

Lemma root_not_preferred f b : wf f -> monotone f -> known f b -> first_preferred (root f) b = false.
Proof.
  intros Hf Hm [->|Hb]%known_cases; [apply preferred_irrefl|].
  pose proof (wf_above _ Hf _ _ Hb). pose proof (monotone_root _ _ _ Hf Hm Hb).
  unfold first_preferred. rewrite orb_false_iff, andb_false_iff, !Z.ltb_ge, Z.eqb_neq. lia.
Qed.

Lemma stored_over_root f i b : wf f -> monotone f -> index f !! i = Some b -> first_preferred b (root f) = true.
Proof. intros Hf Hm Hb. apply above_preferred; [by eapply wf_above|by eapply monotone_root]. Qed.

Lemma child_preferred f b p : wf f -> monotone f -> index f !! id b = Some b -> known f p -> previous b = id p ->
  first_preferred b p = true.
Proof.
  intros Hf Hm Hb Hp Hprev. pose proof (parent_num f Hf b p Hb Hp Hprev). apply above_preferred; [lia|].
  eapply Hm; [exact Hb|]. rewrite Hprev. by apply root_or_block_header.
Qed.

Lemma pending_cases f : wf f -> pending_head f = head f \/
  (index f !! id (pending_head f) = Some (pending_head f) /\ validated (pending_head f) = false /\
   first_preferred (pending_head f) (head f) = true).
Proof.
  intros Hf. unfold pending_head. destruct (filter _ _) as [|b l] eqn:E; [by left|].
  destruct (first_preferred b (head f)) eqn:Hp; [right|by left].
  assert (b ∈ filter (fun b => is_valid b = false) (by_lib_block_num f)) as Hb by (rewrite E; left).
  apply list_elem_of_filter in Hb as [Hv Hb]. apply elem_of_by_lib in Hb; [done|apply Hf].
Qed.

(** The fork database has taken the block [n], and the head has not moved. *)
Record arrived (c : controller D) (base : D) (n : block_state) : Prop := {
  ar_here : here c base;
  ar_new : index (forks c) !! id n = Some n;
  ar_invalid : validated n = false;
  ar_best : forall i b, index (forks c) !! i = Some b -> b <> n ->
    first_preferred b (chain_head c) = false;
  ar_log : log_ends (blog c) (root (forks c));
}.

Section arrival.
Context (c : controller D) (base : D) (n : block_state).
Hypothesis Hn : arrived c base n.
Let f := forks c.
Let h := chain_head c.

Lemma ar_wf : wf f.
Proof. apply (ar_here _ _ _ Hn). Qed.

Lemma ar_monotone : monotone f.
Proof. apply (ar_here _ _ _ Hn). Qed.

Lemma ar_known : known f h /\ validated h = true.
Proof. eapply tracked_known, (ar_here _ _ _ Hn). Qed.

Lemma ar_fhead_known : known f (head f) /\ validated (head f) = true.
Proof.
  destruct (wf_head _ ar_wf) as [->|[Hh Hv]]; [split; [apply root_known|apply ar_wf]|].
  split; [|done]. apply stored_known; [apply ar_wf|done].
Qed.

(** The head of the fork database is as good as the head of the chain. *)
Lemma ar_tie : first_preferred h (head f) = false /\ first_preferred (head f) h = false.
Proof.
  destruct ar_known as [Hk Hv]. destruct ar_fhead_known as [Hfk Hfv]. split.
  - destruct (known_cases _ _ Hk) as [->|Hi]; [apply root_not_preferred; [apply ar_wf|apply ar_monotone|done]|].
    by eapply wf_best; [apply ar_wf|..].
  - destruct (known_cases _ _ Hfk) as [->|Hi]; [apply root_not_preferred; [apply ar_wf|apply ar_monotone|done]|].
    eapply (ar_best _ _ _ Hn); [exact Hi|]. intros Heq. rewrite Heq in Hfv.
    rewrite (ar_invalid _ _ _ Hn) in Hfv. done.
Qed.

(** The target of the switch: the new block if it is better, and otherwise the
    head of the fork database. *)
Lemma ar_target : let p := pending_head f in known f p /\
  ((p = n /\ first_preferred n h = true) \/
   (p = head f /\ validated p = true /\ first_preferred n h = false)).
Proof.
  cbv zeta. destruct ar_tie as [T1 T2]. destruct (pending_cases f ar_wf) as [Hp|(Hi & Hv & Hp)].
  - pose proof (pending_preferred f _ n ar_wf (ar_new _ _ _ Hn)) as Hpn. rewrite Hp in *.
    destruct ar_fhead_known as [? ?]. split; [done|right]. split_and!; [done..|].
    by eapply first_preferred_trans.
  - split; [apply stored_known; [apply ar_wf|done]|left].
    assert (first_preferred (pending_head f) h = true) as Hph by (by eapply preferred_over).
    destruct (decide (pending_head f = n)) as [Heq|Hne]; [by rewrite Heq in *|].
    pose proof (ar_best _ _ _ Hn _ _ Hi Hne) as Hb. subst h. congruence.
Qed.

(** When the new block is valid it is the head of the fork database. *)
Lemma ar_new_head f' : wf f' -> monotone f' -> same_blocks f f' -> index f' !! id n = Some (set_validated true n) ->
  first_preferred n h = true -> head f' = set_validated true n.
Proof.
  intros Hf' Hm' Hs Hi Hp. pose proof (wf_best _ Hf' _ _ Hi eq_refl) as Hb.
  destruct (preferred_flag n (set_validated true n) (head f') eq_refl) as [Hflag _].
  destruct (wf_head _ Hf') as [Hr|[Hh Hv]].
  - rewrite Hr in Hb. by rewrite (stored_over_root _ _ _ Hf' Hm' Hi) in Hb.
  - destruct (same_lookup _ _ _ _ Hs Hh) as (b0 & Hb0 & Heq).
    destruct (decide (b0 = n)) as [->|Hne].
    + assert (id n = id (head f')) as Hid by (by injection Heq). congruence.
    + pose proof (ar_best _ _ _ Hn _ _ Hb0 Hne) as Hb0h.
      pose proof (preferred_over _ _ _ Hp Hb0h) as Hnb.
      destruct (preferred_flag b0 (head f') n Heq) as [_ E]. congruence.
Qed.

(** What a push of [n] comes to: the controller is in sync, and either the push
    succeeded, or the log failed, or the exception has changed neither the head
    nor the database. *)
Definition pushed_well (r : result unit) (c' : controller D) : Prop :=
  in_sync c' /\
  ((r = Ok tt /\ (first_preferred n h = true -> chain_head c' = set_validated true n)) \/
   append_fails r \/
   ((exists e, r = Throw e) /\ chain_head c' = h /\ db c' = db c)).

Lemma ar_settle c1 : read_mode <> IRREVERSIBLE -> in_sync c1 -> chain_head c1 = head (forks c1) ->
  (first_preferred n h = true -> chain_head c1 = set_validated true n) ->
  exists r c', log_irreversible read_mode first_block_num append c1 = (r, c') /\ pushed_well r c'.
Proof.
  intros Hm Hs Hh Hp. destruct (log_irreversible_sync c1 Hm Hs Hh) as (r & c' & E & Hs' & Hh' & _ & Hr).
  exists r, c'. split; [done|]. split; [done|]. rewrite Hh'. tauto.
Qed.

(** The blocks of [f'] are those of [f], and none is preferred to [p]. *)
Lemma ar_sync f' p d' : tracked f' base p d' -> same_blocks f f' ->
  (forall i b, index f !! i = Some b -> first_preferred b p = false) ->
  in_sync (mk_controller p d' f' (blog c)).
Proof.
  intros Ht Hs Hb. split; cbn [forks chain_head db blog]; [eauto|..].
  - intros i b Hi. destruct (same_lookup _ _ _ _ Hs Hi) as (b0 & Hi0 & Heq).
    destruct (preferred_flag b0 b p Heq) as [<- _]. eauto.
  - rewrite (same_root _ _ Hs). apply Hn.
Qed.

Lemma ar_pending_best i b p : p = pending_head f -> index f !! i = Some b ->
  first_preferred b (set_validated true p) = false.
Proof.
  intros -> Hi. destruct (preferred_flag (pending_head f) (set_validated true (pending_head f)) b eq_refl)
    as [_ <-]. by apply (pending_preferred f i b ar_wf).
Qed.

Lemma ar_new_best i b : first_preferred n h = true -> index f !! i = Some b ->
  first_preferred b (set_validated true n) = false.
Proof.
  intros Hp Hb. destruct (preferred_flag n (set_validated true n) b eq_refl) as [_ <-].
  destruct (decide (b = n)) as [->|Hne]; [apply preferred_irrefl|].
  eapply first_preferred_trans; [by apply (ar_best _ _ _ Hn _ _ Hb)|]. by apply first_preferred_asym.
Qed.

(** The new block follows the head. *)
Lemma ar_extend : read_mode <> IRREVERSIBLE -> previous (pending_head f) = id h ->
  exists r c', maybe_switch_forks read_mode first_block_num append (pending_head f) status_complete c = (r, c') /\
    pushed_well r c'.
Proof.
  intros Hm Hprev. destruct ar_target as [Hk Hp]. destruct ar_tie as [_ T2]. destruct ar_known as [Hkh _].
  assert (pending_head f = n /\ first_preferred n h = true) as [Hpn Hbetter].
  { destruct Hp as [?|(Hp & Hv & _)]; [done|]. exfalso. rewrite Hp in *.
    destruct (known_cases _ _ Hk) as [Hr|Hi].
    - destruct ar_tie as [T1 _]. rewrite Hr in T1, Hprev.
      destruct (known_cases _ _ Hkh) as [Hhr|Hhi].
      + rewrite Hhr in Hprev. by apply (tr_root _ _ _ _ (ar_here _ _ _ Hn)) in Hprev.
      + by rewrite (stored_over_root f _ _ ar_wf ar_monotone Hhi) in T1.
    - rewrite (child_preferred f _ h ar_wf ar_monotone Hi Hkh Hprev) in T2. done. }
  rewrite Hpn in Hprev. unfold maybe_switch_forks, get. rewrite (bind_step _ _ c c c) by done.
  rewrite Hpn, decide_True by done. pose proof (ar_new _ _ _ Hn) as Hi. pose proof (ar_here _ _ _ Hn) as Ht.
  destruct (apply_block status_complete n (state (db c))) as [s|e] eqn:Ha.
  - destruct (apply_and_mark_ok c base n status_complete s Ht Hi Hprev Ha) as (f' & E & Hs & Hi' & _ & Ht').
    rewrite (bind_step (try_catch _ _) _ c _ _ (try_catch_ok _ _ _ _ _ E)). apply ar_settle; try done.
    + apply ar_sync; [done..|]. intros i b Hb. by eapply ar_pending_best.
    + symmetry. apply ar_new_head; try done; [apply Ht'|apply Ht'|]. cbn. rewrite Hi'. apply lookup_insert_eq.
  - destruct (tracked_remove _ _ _ _ n Ht Hi (ar_invalid _ _ _ Hn)) as (f' & E & Ht' & Hr & Hidx & _).
    exists (Throw e), (set_forks f' c). split.
    + apply bind_stop. unfold try_catch. rewrite (apply_and_mark_throw _ _ _ _ Ha).
      unfold on_forks, lift, mbind, stateful_bind. by rewrite E.
    + split; [|right; right; eauto]. split; cbn [forks chain_head db blog set_forks]; [eauto| |].
      * intros i b [Hb Hd]%Hidx. apply (ar_best _ _ _ Hn _ _ Hb). intros ->.
        apply Hd. rewrite <- (wf_key _ ar_wf _ _ Hb). apply rtc_refl.
      * rewrite Hr. apply Hn.
Qed.

(** The branches of the head and of the target meet at [m]; the head is popped
    to it, and the assertion holds. *)
Lemma ar_switch_start : let p := pending_head f in exists first second l0 m dm,
  switch_forks p c = apply_branch second [] (rev first) (move m dm c) /\
  branch f (id p) first (id m) /\ branch f (id h) second (id m) /\
  run f (root f) base l0 m dm /\ run f m dm (rev second) h (db c).
Proof.
  cbv zeta. pose proof ar_wf as Hf. destruct ar_target as [Hkp _]. destruct ar_known as [Hkh _].
  destruct (fetch_branch_from_ok f Hf _ _ _ _ Hkp Hkh) as (first & second & y & E & Hb1 & Hb2 & _).
  destruct (tr_head _ _ _ _ (ar_here _ _ _ Hn)) as [l Hl].
  destruct (branch_run f base l h (db c) second y Hf Hl Hb2) as (l0 & m & dm & Hm & Hs & <-).
  exists first, second, l0, m, dm. split_and!; try done.
  unfold switch_forks. rewrite (bind_step _ _ c c c) by done.
  rewrite (bind_step _ _ c (first, second) c) by (unfold lift; fold f; fold h; by rewrite <- E).
  cbv beta iota. destruct (decide (second = [])) as [->|Hne].
  - apply run_nil_inv in Hs as [Hh Hd]. cbn [last]. rewrite (bind_step _ _ c tt c) by done.
    f_equal. subst h. unfold move, set_db, set_chain_head. rewrite <- Hh, <- Hd. by destruct c.
  - destruct (branch_linked f _ _ _ Hf Hb2) as [_ Ht]. destruct (Ht Hne) as (_ & t & _ & _ & Hlast & Hprev).
    rewrite Hlast. rewrite (bind_step _ _ c tt (move m dm c)); [done|].
    rewrite (bind_step _ _ c tt (move m dm c)).
    + unfold get, lift, mbind, stateful_bind. cbn. by rewrite bool_decide_true.
    + apply (pops_spec second c m dm (rev second)); [done| |done|by rewrite length_rev].
      eapply run_known; [done|apply root_known|exact Hm].
Qed.

(** The target is not an ancestor of the head. *)
Lemma ar_first_nonempty first m l0 dm l : id (pending_head f) <> id h ->
  branch f (id (pending_head f)) first (id m) -> run f (root f) base l0 m dm ->
  run f m dm l h (db c) -> first <> [].
Proof.
  intros Hne Hb Hm Hl ->. inversion Hb as [? Hid|]; subst. pose proof ar_wf as Hf.
  pose proof (run_known _ _ Hf (root_known f) _ _ _ _ Hm) as Hkm. destruct ar_target as [Hkp Hp].
  assert (pending_head f = m) as Hpm by (by apply (known_eq f)). rewrite Hpm in *.
  pose proof (run_num _ _ Hf Hkm _ _ _ _ Hl) as Hnum.
  destruct l as [|b l]; [by apply run_nil_inv in Hl as [Hl _]; rewrite <- Hl in Hne|].
  destruct (run_end _ _ _ (b :: l) _ _ ltac:(done) Hl) as [Hhi _].
  pose proof (pending_preferred f _ _ Hf Hhi) as Hph. rewrite Hpm in Hph.
  pose proof (run_dpos _ _ Hf Hkm _ _ _ _ ar_monotone Hl).
  rewrite above_preferred in Hph; [done| |done]. cbn in Hnum. lia.
Qed.

Lemma ar_branch_end first y : branch f (id (pending_head f)) first y -> first <> [] ->
  last (rev first) = Some (pending_head f) /\ index f !! id (pending_head f) = Some (pending_head f).
Proof.
  intros Hb Hne. pose proof ar_wf as Hf. destruct ar_target as [Hkp _].
  destruct (branch_linked f _ _ _ Hf Hb) as [_ Hl]. destruct (Hl Hne) as (b & _ & Hlast & Hid & _).
  destruct first as [|x first]; [done|]. cbn [rev] in *. rewrite last_snoc in Hlast |- *.
  injection Hlast as ->. apply branch_cons_inv in Hb as Hx.
  assert (b = pending_head f) as <-; [|split; [done|by rewrite Hid]].
  apply (known_eq f); [|done..]. apply stored_known; [done|]. by rewrite Hid.
Qed.

(** When the target is valid, so is its branch. *)
Lemma ar_branch_valid first y : branch f (id (pending_head f)) first y -> first <> [] ->
  validated (pending_head f) = true -> Forall (fun b => validated b = true) (rev first).
Proof.
  intros Hb Hne Hv. destruct (ar_branch_end _ _ Hb Hne) as [_ Hi]. pose proof ar_wf as Hf.
  destruct (tr_valid _ _ _ _ (ar_here _ _ _ Hn) _ _ Hi Hv) as (l & d & Hl).
  destruct (branch_run f base l _ d first y Hf Hl Hb) as (l0 & m & dm & _ & Hr & _).
  apply Forall_forall. intros x Hx. by destruct (run_stored _ _ _ _ _ _ x Hr Hx).
Qed.

Lemma ar_switched m dm c' first : branch f (id (pending_head f)) first (id m) -> first <> [] ->
  applied_all (move m dm c) c' base (rev first) ->
  in_sync c' /\ chain_head c' = head (forks c') /\
  (first_preferred n h = true -> chain_head c' = set_validated true n).
Proof.
  intros Hb Hne [Ht Hs Hhd Hfk Hlog]. destruct (ar_branch_end _ _ Hb Hne) as [Hlast Hi].
  rewrite Hlast in Hhd. cbn [fmap option_fmap option_map default from_option] in Hhd.
  cbn [move set_db set_chain_head forks blog] in Hs, Hfk, Hlog.
  split; [|].
  - destruct c' as [h' d' f' log']. cbn in *. rewrite Hlog. apply ar_sync; [done..|].
    intros i b Hib. rewrite Hhd. by eapply ar_pending_best.
  - destruct ar_target as [_ [(Hp & Hbetter)|(Hp & Hv & Hworse)]].
    + rewrite Hhd, Hp. split; [|done]. symmetry. apply ar_new_head; [apply Ht|apply Ht|done| |done].
      destruct (tr_head _ _ _ _ Ht) as [l Hl]. destruct (tracked_known _ _ _ _ Ht) as [Hk _].
      rewrite Hhd, Hp in Hk. destruct (known_cases _ _ Hk) as [Hr|Hx]; [|done].
      rewrite (same_root _ _ Hs) in Hr. pose proof (ar_new _ _ _ Hn) as Hni.
      assert (id n = id (root f)) as Hid by exact (f_equal id Hr).
      fold f in Hni. by rewrite Hid, (wf_root _ ar_wf) in Hni.
    + rewrite Hhd, Hfk by (by eapply ar_branch_valid). rewrite Hp in Hv |- *.
      split; [by apply set_validated_id|congruence].
Qed.

(** A switch that fails has an old branch to restore. *)
Lemma ar_second_nonempty first second m l0 dm b : previous (pending_head f) <> id h ->
  branch f (id (pending_head f)) first (id m) -> branch f (id h) second (id m) ->
  run f (root f) base l0 m dm -> run f m dm (rev second) h (db c) ->
  b ∈ rev first -> second <> [].
Proof.
  intros Hprev Hb1 Hb2 Hm Hs Hin ->. apply run_nil_inv in Hs as [Hh _]. pose proof ar_wf as Hf.
  destruct (branch_linked f _ _ _ Hf Hb1) as [Hl _]. rewrite <- Hh in Hl.
  destruct (rev first) as [|x l] eqn:Ef; [set_solver|]. destruct Hl as (Hx & Hpx & _).
  destruct ar_known as [Hkh _].
  pose proof (child_preferred f x h Hf ar_monotone Hx Hkh Hpx) as Hxp.
  destruct (decide (x = n)) as [->|Hne].
  - destruct ar_target as [_ [(Hp & _)|(_ & _ & Hw)]]; [by rewrite Hp in Hprev|congruence].
  - pose proof (ar_best _ _ _ Hn _ _ Hx Hne) as Hw. subst h. congruence.
Qed.

Lemma ar_switch_failed m dm c1 k b first second l0 applied e :
  stopped (move m dm c) c1 base m dm k b -> length applied = length k -> b ∈ rev first ->
  previous (pending_head f) <> id h ->
  branch f (id (pending_head f)) first (id m) -> branch f (id h) second (id m) ->
  run f (root f) base l0 m dm -> run f m dm (rev second) h (db c) ->
  exists c', restore_branch second applied b e c1 = (Throw e, c') /\ pushed_well (Throw e) c'.
Proof.
  intros Hst Hlen Hin Hprev Hb1 Hb2 Hm Hs. pose proof ar_wf as Hf.
  assert (first <> []) as Hne1 by (intros ->; by apply not_elem_of_nil in Hin).
  pose proof (ar_second_nonempty _ _ _ _ _ _ Hprev Hb1 Hb2 Hm Hs Hin) as Hne2.
  destruct (branch_linked f _ _ _ Hf Hb2) as [_ Hl2]. destruct (Hl2 Hne2) as (_ & t & _ & _ & Hlast & Hpt).
  destruct (branch_linked f _ _ _ Hf Hb1) as [Hl1 _]. destruct (ar_branch_end _ _ Hb1 Hne1) as [Hend Hpi].
  pose proof Hst as [Ht Hsb Hfb Hbv Hk Hlog]. cbn [move set_db set_chain_head forks] in Hsb.
  destruct (restore_branch_spec _ c1 base m dm k b second applied e h (db c) t Hst Hlen) as (f' & E & Hr & Ht' & Hidx);
    [|done..|].
  { exists l0. rewrite (same_root _ _ Hsb). by apply (same_run f). }
  assert (pending_head f = n) as Hpn.
  { destruct ar_target as [_ [(Hp & _)|(_ & Hv & _)]]; [done|]. exfalso.
    pose proof (ar_branch_valid _ _ Hb1 Hne1 Hv) as Hall. eapply Forall_forall in Hall; [|exact Hin].
    congruence. }
  exists (mk_controller h (db c) f' (blog c)). split; [done|]. split; [|right; right; by eauto].
  split; cbn [forks chain_head db blog]; [by eauto| |].
  - intros i x [Hx Hd]%Hidx. destruct (same_lookup _ _ _ _ Hsb Hx) as (x0 & Hx0 & Heq).
    destruct (preferred_flag x0 x h Heq) as [<- _]. apply (ar_best _ _ _ Hn _ _ Hx0). intros ->.
    apply Hd, (same_descends f _ _ _ Hsb). rewrite <- (wf_key _ Hf _ _ Hx0), <- Hpn.
    by eapply linked_descends.
  - rewrite Hr. apply Hn.
Qed.

Lemma ar_maybe_switch : read_mode <> IRREVERSIBLE ->
  exists r c', maybe_switch_forks read_mode first_block_num append (pending_head f) status_complete c = (r, c') /\
    (r = Throw bad_alloc \/ pushed_well r c').
Proof.
  intros Hm. destruct (decide (previous (pending_head f) = id h)) as [Hprev|Hprev].
  { destruct (ar_extend Hm Hprev) as (r & c' & ? & ?). eauto. }
  unfold maybe_switch_forks, get. rewrite (bind_step _ _ c c c) by done. rewrite decide_False by done.
  destruct (decide (id (pending_head f) = head_block_id c)) as [Hid|Hid].
  { exists (Ok tt), c. split; [done|]. right. destruct ar_target as [Hkp Hp]. destruct ar_known as [Hkh Hhv].
    assert (pending_head f = h) as Hph by (by apply (known_eq f)).
    destruct Hp as [(Hpn & _)|(_ & _ & Hw)].
    { pose proof (ar_invalid _ _ _ Hn). congruence. }
    split; [|left; split; [done|congruence]].
    split; [eauto using ar_here| |apply Hn]. intros i b Hb.
    destruct (decide (b = n)) as [->|Hne]; [done|by apply (ar_best _ _ _ Hn _ _ Hb)]. }
  destruct ar_switch_start as (first & second & l0 & m & dm & E & Hb1 & Hb2 & Hrm & Hrs).
  pose proof (ar_first_nonempty _ _ _ _ _ Hid Hb1 Hrm Hrs) as Hne.
  destruct (apply_branch_spec second base m dm (rev first) [] (move m dm c) [])
    as [(c' & E' & Hal)|[(c' & E')|(c1 & b & e & k1 & ap & E' & Hst & Hlen & Hin)]].
  - destruct (ar_here _ _ _ Hn). split; try done. by exists l0.
  - by apply (branch_linked f _ _ _ ar_wf Hb1).
  - constructor.
  - done.
  - rewrite (bind_step _ _ c tt c') by (by rewrite E).
    destruct (ar_switched _ _ _ _ Hb1 Hne Hal) as (H1 & H2 & H3).
    destruct (ar_settle c' Hm H1 H2 H3) as (r & c2 & ? & ?). eauto.
  - exists (Throw bad_alloc), c'. split; [|by left]. apply bind_stop. by rewrite E.
  - destruct (ar_switch_failed m dm c1 k1 b first second l0 ap e) as (c' & E2 & Hw); [done..|].
    exists (Throw e), c'. split; [|by right]. apply bind_stop. by rewrite E, E'.
Qed.

End arrival.

Lemma in_sync_arrived c base n f : here c base ->
  (forall i b, index (forks c) !! i = Some b -> first_preferred b (chain_head c) = false) ->
  log_ends (blog c) (root (forks c)) -> validated n = false ->
  tracked f base (chain_head c) (db c) -> root f = root (forks c) ->
  index f = <[id n := n]> (index (forks c)) -> arrived (set_forks f c) base n.
Proof.
  intros Ht Hbest Hlog Hn Ht' Hr Hi. split; cbn [forks chain_head db blog set_forks]; try done.
  - rewrite Hi. apply lookup_insert_eq.
  - intros i b Hb Hne. rewrite Hi in Hb. apply lookup_insert_Some in Hb as [[_ ?]|[_ Hb]]; [done|eauto].
  - by rewrite Hr.
Qed.

(** A controller that starts at a root. *)
Lemma start_in_sync r d log : revision d = block_num r -> previous r <> id r -> log_ends log r ->
  in_sync (mk_controller (set_validated true r) d (reset r) log).
Proof.
  intros Hd Hr Hlog. split; [|done..]. exists d. split; try done; [apply reset_wf|]. exists []. constructor.
Qed.

(** C1: in every read mode but the irreversible one, pushing a block keeps the
    chain together, whatever applying the block does.  The state database stays
    the result of the valid blocks from the root to the head, every valid block
    stays applicable, no stored block is preferred to the head, and the block
    log ends at the root.  A push that succeeds moves the head to the new block
    if it is better than the head; a push that throws leaves the head and the
    whole database as they were, also when a switch to another branch fails
    halfway, unless the block log is what failed.  The assertions on the loss of
    synchronisation never fail.  [std::bad_alloc], after which the node stops,
    is left out.

    What is assumed.  The pushed block is not validated yet, its id is not that
    of the root and its number is one above that of its parent, which
    [block_header_state::next] sees to ([extends]).  The irreversible number of
    no stored block, and not that of the pushed block, is below the one of its
    parent ([tr_monotone] of [in_sync], [keeps_lib]); the dpos rule guarantees
    this while the schedule stays ([irreversible_monotone]) but not for the
    first blocks of a promoted schedule, and [lowered_reads_empty_branch] shows
    that a push can then run into undefined behaviour.  The database obeys the
    laws of chainbase sessions ([UndoDatabase]), and applying a block is a
    function of the block and the state that a block which applied once passes
    again with the status [validated] ([BlockApplier]). *)
Theorem push_block_keeps_sync (c : controller D) (n : block_state) (r : result unit) (c' : controller D) :
  read_mode <> IRREVERSIBLE -> in_sync c -> extends (forks c) n -> keeps_lib (forks c) n -> validated n = false ->
  push_block read_mode first_block_num append n c = (r, c') -> r <> Throw bad_alloc ->
  in_sync c' /\
  ((r = Ok tt /\ (first_preferred n (chain_head c) = true -> chain_head c' = set_validated true n)) \/
   (exists b e, r = Throw e /\ append b = Throw e) \/
   ((exists e, r = Throw e) /\ chain_head c' = chain_head c /\ db c' = db c)).
Proof.
  intros Hm Hc Hext Hlib Hn E Hr. pose proof Hc as [[base Ht] Hbest Hlog]. unfold push_block in E.
  destruct (add n false (forks c)) as [ra f'] eqn:Ea.
  destruct (tracked_add _ _ _ _ _ _ _ Ht Hext Hlib Hn Ea) as [(-> & e & ->)|(-> & Ht' & Hroot & Hnew & Hi)].
  - rewrite (bind_stop _ _ c e c) in E by (unfold on_forks; rewrite Ea; by destruct c).
    injection E as <- <-. split; [done|]. right; right. eauto.
  - rewrite (bind_step _ _ c tt (set_forks f' c)) in E by (unfold on_forks; by rewrite Ea).
    rewrite decide_False in E by done. rewrite (bind_step _ _ _ (set_forks f' c) (set_forks f' c)) in E by done.
    pose proof (in_sync_arrived c base n f' Ht Hbest Hlog Hn Ht' Hroot Hi) as Har.
    destruct (ar_maybe_switch _ _ _ Har Hm) as (r1 & c1 & E1 & Hw). cbn [forks set_forks] in *.
    rewrite E1 in E. injection E as <- <-. destruct Hw as [|Hw]; [done|exact Hw].
Qed.

(** C19: in every read mode but the irreversible one, a block that the node has
    produced on its head is committed: it becomes the head of the fork database
    and of the chain, the assertion that it did holds, and the controller is in
    sync with the state of the block.

    What is assumed.  The block is new, not validated yet, follows the head and
    has the next number ([extends]); [block_log::append] throws for no block;
    the database and the application of blocks obey the laws of [UndoDatabase]
    and [BlockApplier].  The irreversible number of the block is not below that
    of the head, nor that of a stored block below that of its parent
    ([keeps_lib], [tr_monotone] of [in_sync]).  The last condition is needed: a
    schedule promotion can lower the number, and [lowered_not_committed] shows
    that the assertion then fails. *)
Theorem commit_block_becomes_head (c : controller D) (n : block_state) (st : block_status) (s : State) :
  read_mode <> IRREVERSIBLE -> in_sync c -> extends (forks c) n -> keeps_lib (forks c) n -> validated n = false ->
  previous n = id (chain_head c) -> index (forks c) !! id n = None ->
  apply_block st n (state (db c)) = Ok s -> (forall b, append b = Ok tt) ->
  exists c', commit_block read_mode first_block_num append n s c = (Ok tt, c') /\ in_sync c' /\
    chain_head c' = set_validated true n /\ state (db c') = s.
Proof.
  intros Hm Hc Hext Hlib Hn Hprev Hnew Ha Hap. pose proof Hc as [[base Ht] Hbest Hlog].
  destruct (add_fresh (forks c) n (chain_head c)) as [f1 Ea]; [by eapply tracked_known|done..|].
  destruct (tracked_add _ _ _ _ _ _ _ Ht Hext Hlib Hn Ea) as [(_ & e & [=])|(_ & Ht1 & Hroot & _ & Hi1)].
  pose proof (in_sync_arrived c base n f1 Ht Hbest Hlog Hn Ht1 Hroot Hi1) as Har.
  assert (index f1 !! id n = Some n) as Hin by (rewrite Hi1; apply lookup_insert_eq).
  destruct (tracked_mark f1 base _ _ n st s Ht1 Hin Hprev Ha) as (f2 & E2 & Hs & Hi2 & _ & Ht2).
  pose proof (tracked_known _ _ _ _ Ht1) as [Hkh _].
  assert (first_preferred n (chain_head c) = true) as Hbetter.
  { eapply child_preferred; [apply Ht1|apply Ht1|done..]. }
  assert (head f2 = set_validated true n) as Hh2.
  { eapply (ar_new_head _ _ _ Har f2); [apply Ht2|apply Ht2|done| |done]. rewrite Hi2. apply lookup_insert_eq. }
  set (c2 := mk_controller (set_validated true n) (push_session s (db c)) f2 (blog c)).
  assert (in_sync c2) as Hc2.
  { apply (ar_sync _ _ _ Har f2); [done..|]. intros i b Hb. by apply (ar_new_best _ _ _ Har i). }
  destruct (log_irreversible_sync c2 Hm Hc2 (eq_sym Hh2)) as (r & c' & E & Hc' & Hh' & Hst & Hr).
  exists c'. split_and!; [|done|done|by rewrite Hst; apply state_push].
  assert (r = Ok tt) as -> by (destruct Hr as [|(b & e & _ & Hb)]; [done|by rewrite Hap in Hb]).
  unfold commit_block, modify. rewrite (bind_step _ _ c tt (set_db (push_session s (db c)) c)) by done.
  apply try_catch_ok.
  rewrite (bind_step _ _ _ tt (set_forks f1 (set_db (push_session s (db c)) c)))
    by (unfold on_forks; cbn [forks set_db]; by rewrite Ea).
  rewrite (bind_step _ _ _ tt (set_forks f2 (set_db (push_session s (db c)) c)))
    by (unfold on_forks; cbn [forks set_forks]; by rewrite E2).
  rewrite (bind_step _ _ _ tt c2) by (unfold set_chain_head; cbn; by rewrite Hh2).
  rewrite (bind_step _ _ c2 c2 c2) by done.
  rewrite (bind_step _ _ c2 tt c2) by (unfold lift; by rewrite bool_decide_true). done.
Qed.

End sync.

(** ** A sample chain *)

(** A database that keeps the states to go back to, newest first. *)
Record undo_db (State : Type) := mk_undo_db { current : State; saved : list State; at_revision : Z }.
Arguments mk_undo_db {_}. Arguments current {_}. Arguments saved {_}. Arguments at_revision {_}.

#[local, refine] Instance undo_db_database State : UndoDatabase (undo_db State) State := {|
  state := current;
  revision := at_revision;
  push_session s d := mk_undo_db s (current d :: saved d) (at_revision d + 1);
  undo d := match saved d with [] => d | s :: l => mk_undo_db s l (at_revision d - 1) end;
  commit n d := mk_undo_db (current d) (take (Z.to_nat (at_revision d - n)) (saved d)) (at_revision d);
|}.
Proof.
  all: try done.
  - intros s [x l n]. cbn. f_equal. lia.
  - intros n s [x l m] Hn. cbn in *. replace (Z.to_nat (m + 1 - n)) with (S (Z.to_nat (m - n))) by lia. done.
Defined.

(** The state is the ids of the applied blocks, and one block does not apply. *)
#[local, refine] Instance sample_applier : BlockApplier (list block_id_type) := {|
  apply_block _ b s := if decide (id b = d 23) then Throw block_validate_exception else Ok (id b :: s);
|}.
Proof. done. Defined.

Definition at_root : controller (undo_db (list block_id_type)) :=
  mk_controller (set_validated true blk_root) (mk_undo_db [] [] 10) (reset blk_root) [].
Definition blk_a1 : block_state := mk_block (d 11) (d 10) 11 5 101 [] None false.
Definition blk_b1 : block_state := mk_block (d 21) (d 10) 11 5 102 [] None false.
Definition blk_b2 : block_state := mk_block (d 22) (d 21) 12 11 103 [] None false.
Definition blk_b3 : block_state := mk_block (d 23) (d 21) 12 11 103 [] None false.

Abbreviation sample_push n c := (push_block SPECULATIVE 11 (fun _ => Ok tt) n c).
Definition with_a1 := (sample_push blk_a1 at_root).2.
Definition two_branches := (sample_push blk_b1 with_a1).2.
Definition restored := sample_push blk_b3 two_branches.

Lemma at_root_in_sync : in_sync 11 at_root.
Proof. by apply start_in_sync. Qed.

Lemma extends_by f n p : get_block_header f (previous n) = Some p -> id n <> id (root f) ->
  block_num n = block_num p + 1 -> extends f n.
Proof. intros Hp Hid Hn. split; [done|]. intros p' Hp'. by assert (p' = p) as -> by congruence. Qed.

Lemma keeps_lib_by f n p : get_block_header f (previous n) = Some p ->
  dpos_irreversible_blocknum p <= dpos_irreversible_blocknum n -> keeps_lib f n.
Proof. intros Hp Hd p' Hp'. by assert (p' = p) as -> by congruence. Qed.

(** The switch to the block that does not apply fails, and the old branch is
    back. *)
Lemma push_block_keeps_sync_witness :
  restored.1 = Throw block_validate_exception /\ in_sync 11 restored.2 /\
  chain_head restored.2 = set_validated true blk_a1 /\ db restored.2 = db two_branches.
Proof.
  assert (in_sync 11 with_a1) as H1.
  { apply (push_block_keeps_sync SPECULATIVE 11 (fun _ => Ok tt) at_root blk_a1 (Ok tt) with_a1);
      [discriminate|exact at_root_in_sync| | |reflexivity|vm_compute; reflexivity|discriminate].
    - apply (extends_by _ _ (set_validated true blk_root)); vm_compute; congruence.
    - apply (keeps_lib_by _ _ (set_validated true blk_root)); vm_compute; congruence. }
  assert (in_sync 11 two_branches) as H2.
  { apply (push_block_keeps_sync SPECULATIVE 11 (fun _ => Ok tt) with_a1 blk_b1 (Ok tt) two_branches);
      [discriminate|exact H1| | |reflexivity|vm_compute; reflexivity|discriminate].
    - apply (extends_by _ _ (set_validated true blk_root)); vm_compute; congruence.
    - apply (keeps_lib_by _ _ (set_validated true blk_root)); vm_compute; congruence. }
  destruct (push_block_keeps_sync SPECULATIVE 11 (fun _ => Ok tt) two_branches blk_b3
    restored.1 restored.2) as [H3 _];
    [discriminate|exact H2| | |reflexivity|apply surjective_pairing|vm_compute; discriminate|].
  - apply (extends_by _ _ blk_b1); vm_compute; congruence.
  - apply (keeps_lib_by _ _ blk_b1); vm_compute; congruence.
  - split; [vm_compute; reflexivity|]. split; [exact H3|]. split; vm_compute; reflexivity.
Defined.

Lemma commit_block_becomes_head_witness :
  exists c, commit_block SPECULATIVE 11 (fun _ => Ok tt) blk_a1 [d 11] at_root = (Ok tt, c) /\
    in_sync 11 c /\ chain_head c = set_validated true blk_a1 /\ state (db c) = [d 11].
Proof.
  apply (commit_block_becomes_head SPECULATIVE 11 (fun _ => Ok tt) at_root blk_a1 status_complete [d 11]);
    [discriminate|exact at_root_in_sync| | |reflexivity..].
  - apply (extends_by _ _ (set_validated true blk_root)); vm_compute; congruence.
  - apply (keeps_lib_by _ _ (set_validated true blk_root)); vm_compute; congruence.
Defined.

(** ** What goes wrong *)

(** A node that was in irreversible mode starts with the blocks 21 and 23 in
    its fork database, neither applied; 23 does not apply.  The head is the
    root, so there is no old branch, and the code reads the last block of it. *)
Definition not_applied : controller (undo_db (list block_id_type)) :=
  set_forks ((add blk_b1 false;; add blk_b3 false) (reset blk_root)).2 at_root.

Lemma startup_reads_empty_branch :
  (startup_best_branch SPECULATIVE 11 (fun _ => Ok tt) 3 not_applied).1 = Throw undefined_behaviour.
Proof. vm_compute. reflexivity. Qed.

(** A produced block makes another one irreversible and the log throws: the
    database goes back to the state before the block, and the head does not. *)
Definition blk_a2 : block_state := mk_block (d 12) (d 11) 12 11 103 [] None false.

Lemma commit_failure_keeps_head e :
  let '(r, c) := commit_block SPECULATIVE 11 (fun _ => Throw e) blk_a2 [d 12; d 11] with_a1 in
  r = Throw e /\ chain_head c = set_validated true blk_a2 /\ state (db c) = [d 11] /\
  revision (db c) = 11.
Proof. vm_compute. repeat split. Qed.

(** A block whose irreversible number is below that of the head is not preferred
    to the head.  Pushing the block 31 stores it and leaves the head; when 23,
    which does not apply, follows it, the switch starts at the head itself and
    there is no old branch to restore. *)
Definition blk_low : block_state := mk_block (d 31) (d 11) 12 4 103 [] None false.
Definition blk_fails : block_state := mk_block (d 23) (d 31) 13 6 104 [] None false.

Lemma lowered_reads_empty_branch :
  let '(r, c) := sample_push blk_low with_a1 in
  r = Ok tt /\ chain_head c = set_validated true blk_a1 /\
  (sample_push blk_fails c).1 = Throw undefined_behaviour.
Proof. vm_compute. repeat split. Qed.

(** And a node that has produced it cannot commit it: the fork database does
    not take it for its head. *)
Lemma lowered_not_committed :
  (commit_block SPECULATIVE 11 (fun _ => Ok tt) blk_low [d 31; d 11] with_a1).1 =
    Throw fork_database_exception.
Proof. vm_compute. reflexivity. Qed.

(** In irreversible mode the block whose append throws was applied, and its
    session is not undone: the head is ahead of the root. *)
Lemma irreversible_append_failure e :
  let '(r, c) := push_block IRREVERSIBLE 11 (fun _ => Throw e) blk_b2
    (push_block IRREVERSIBLE 11 (fun _ => Throw e) blk_b1 at_root).2 in
  r = Throw e /\ chain_head c = set_validated true blk_b1 /\ state (db c) = [d 21] /\
  root (forks c) = set_validated true blk_root /\ blog c = [].
Proof. vm_compute. repeat split. Qed.

End ForkSync.
