(* ===== verification/ForkLog.v ===== *)
(** * Irreversible mode: the state is that of the block log

    A node in irreversible mode applies a block only when it is written to the
    log.  [follows_log] is what holds between two blocks of such a node, for
    the operations of [ForkSwitching]: its head is the root of the fork
    database and the end of the log, no block above is valid, and the
    irreversible numbers do not decrease along a branch. *)

From S2P Require Import Prelude Merkle ForkDatabase ForkBranches ForkSwitching ForkSync.

Module ForkLog.
Import ForkDatabase ForkBranches ForkSwitching ForkSync.

(** ** Paths *)

Lemma path_exists f p : wf f -> known f p -> exists l, path f (root f) l p.
Proof.
  intros Hf Hp. destruct (known_cases f p Hp) as [->|Hi]; [by exists []; constructor|].
  remember (id p) as i eqn:Ei. clear Ei Hp. revert i p Hi.
  apply (block_ind f (fun i p => exists l, path f (root f) l p) Hf).
  - intros i b Hb Hprev _. assert (id b = i) as <- by (by eapply wf_key).
    exists ([] ++ [b]). econstructor; [constructor|done..].
  - intros i b p Hb Hp _ [l Hl]. assert (id b = i) as <- by (by eapply wf_key).
    assert (id p = previous b) as Hid by (by eapply wf_key). exists (l ++ [b]). by econstructor.
Qed.

Lemma path_split f r l1 l2 b : path f r (l1 ++ l2) b -> exists m, path f r l1 m /\ path f m l2 b.
Proof.
  intros Hr. remember (l1 ++ l2) as l eqn:El. revert l2 El.
  induction Hr as [|l p b Hr IH Hb Hp]; intros l2 El.
  - symmetry in El. apply app_nil in El as [-> ->]. eauto using path_nil.
  - destruct l2 as [|x l2 _] using rev_ind.
    + rewrite app_nil_r in El. subst. eauto using path_nil, path_snoc.
    + rewrite app_assoc in El. apply app_inj_tail in El as [-> <-].
      destruct (IH l2 eq_refl) as (m & H1 & H2). exists m. split; [done|]. by econstructor.
Qed.

Lemma path_end f r l x b : path f r (l ++ [x]) b -> b = x /\ index f !! id x = Some x.
Proof.
  intros H. remember (l ++ [x]) as k eqn:Ek. destruct H as [|k p b Hp Hb Hprev].
  - by destruct l.
  - by apply app_inj_tail in Ek as [_ <-].
Qed.

(** The blocks before [x] on a path are stored, and below it. *)
Lemma path_next f l x k b y : wf f -> monotone f -> path f (root f) (l ++ x :: k) b -> y ∈ l ->
  index f !! id y = Some y /\ block_num y < block_num x /\
  dpos_irreversible_blocknum y <= dpos_irreversible_blocknum x.
Proof.
  intros Hf Hmon Hp (l1 & l2 & ->)%list_elem_of_split.
  rewrite cons_middle, app_assoc in Hp. apply path_split in Hp as (m & Hm & _).
  apply path_end in Hm as Hx. destruct Hx as [-> _].
  replace ((l1 ++ y :: l2) ++ [x]) with ((l1 ++ [y]) ++ (l2 ++ [x])) in Hm by (by rewrite <- !app_assoc).
  apply path_split in Hm as (m & Hy & Hx).
  apply path_end in Hy as Hm. destruct Hm as [-> Hyi].
  pose proof (path_known f _ Hf (root_known f) _ _ Hy) as Hky.
  pose proof (path_num f y Hf Hky _ _ Hx) as Hn. pose proof (path_dpos f y Hf Hky _ _ Hmon Hx) as Hd.
  rewrite length_app in Hn. cbn in Hn. split_and!; [done|lia|done].
Qed.

Lemma path_stored f l x k b : path f (root f) (l ++ x :: k) b -> index f !! id x = Some x.
Proof.
  intros Hp. rewrite cons_middle, app_assoc in Hp. apply path_split in Hp as (m & Hm & _).
  by apply path_end in Hm as [_ ?].
Qed.

(** The last blocks of a path. *)
Lemma path_parent f l y x b : path f (root f) ((l ++ [y]) ++ [x]) b -> previous x = id y.
Proof.
  intros Hp. remember ((l ++ [y]) ++ [x]) as k eqn:Ek. destruct Hp as [|k p b Hp Hb Hprev].
  - symmetry in Ek. by apply app_nil in Ek as [_ ?].
  - apply app_inj_tail in Ek as [-> ->]. by apply path_end in Hp as [<- _].
Qed.

Lemma descends_dpos f m y b : wf f -> monotone f -> index f !! id m = Some m ->
  descends f (id m) y -> index f !! y = Some b ->
  dpos_irreversible_blocknum m <= dpos_irreversible_blocknum b.
Proof.
  intros Hf Hmon Hm Hd. revert y Hd b. apply (rtc_ind_r (fun y => forall b, index f !! y = Some b ->
    dpos_irreversible_blocknum m <= dpos_irreversible_blocknum b)).
  - intros b Hb. by assert (b = m) as -> by congruence.
  - intros z y Hdz (b' & Hb' & Hpz) IH b Hb. assert (b' = b) as -> by congruence. subst z.
    assert (exists p, index f !! previous b = Some p) as [p Hp].
    { apply rtc_inv_r in Hdz as [<-|(? & _ & p & Hp & _)]; eauto. }
    pose proof (Hmon _ _ _ Hb (get_block_header_index _ _ _ Hf Hp)). specialize (IH p Hp). lia.
Qed.

Lemma same_unmarked b b' : set_validated true b' = set_validated true b ->
  validated b = false -> validated b' = false -> b' = b.
Proof. destruct b, b'. cbn. by intros [= -> -> -> -> -> -> ->] -> ->. Qed.

Section log.
Context {D State : Type} `{UndoDatabase D State} `{BlockApplier State}.
Context (first_block_num : Z) (append : block_state -> result unit).

Record follows_log (c : controller D) : Prop := {
  fl_wf : wf (forks c);
  fl_monotone : monotone (forks c);
  fl_head : chain_head c = root (forks c);
  fl_fork_head : head (forks c) = root (forks c);
  fl_invalid : forall i b, index (forks c) !! i = Some b -> validated b = false;
  fl_revision : revision (db c) = block_num (root (forks c));
  fl_log : log_ends first_block_num (blog c) (root (forks c));
}.

Definition apply_all (s : State) (l : list block_state) : result State :=
  foldM (fun s b => apply_block status_complete b s) s l.

(** The blocks [k] were logged, from the controller [c0] on. *)
Record logging (c0 : controller D) (k : list block_state) (c : controller D) : Prop := {
  lg_wf : wf (forks c);
  lg_monotone : monotone (forks c);
  lg_same : same_blocks (forks c0) (forks c);
  lg_head : chain_head c = default (root (forks c0)) (set_validated true <$> last k);
  lg_fork_head : head (forks c) = chain_head c;
  lg_valid : forall i b, index (forks c) !! i = Some b -> validated b = true -> i ∈ id <$> k;
  lg_revision : revision (db c) = block_num (chain_head c);
  lg_log : blog c = blog c0 ++ k;
  lg_stored : forall x, x ∈ k -> index (forks c0) !! id x = Some x;
  lg_state : apply_all (state (db c0)) k = Ok (state (db c));
}.

Lemma last_default {A B} (g : A -> B) (z : B) k x : default z (g <$> last (k ++ [x])) = g x.
Proof. by rewrite last_snoc. Qed.

(** Marking the next block makes it the head of the fork database. *)
Lemma logging_mark c0 k c b rest t : wf (forks c0) -> monotone (forks c0) ->
  (forall i b, index (forks c0) !! i = Some b -> validated b = false) ->
  path (forks c0) (root (forks c0)) (k ++ b :: rest) t -> logging c0 k c ->
  exists f, mark_valid b (forks c) = (Ok tt, f) /\ wf f /\ monotone f /\ same_blocks (forks c0) f /\ same_blocks (forks c) f /\
    head f = set_validated true b /\
    (forall i x, index f !! i = Some x -> validated x = true -> i ∈ id <$> (k ++ [b])).
Proof.
  intros Hf0 Hmon0 Hinv Hp [Hf Hmon Hs _ _ Hval _ _ _ _]. pose proof (path_stored _ _ _ _ _ Hp) as Hb.
  destruct (same_lookup_back _ _ _ _ Hs Hb) as (b' & Hb' & Heq).
  assert (validated b' = false) as Hbv.
  { destruct (validated b') eqn:Hv; [|done]. pose proof (Hval _ _ Hb' Hv) as Hin.
    apply list_elem_of_fmap in Hin as (y & Hid & Hy). exfalso.
    destruct (path_next _ _ _ _ _ _ Hf0 Hmon0 Hp Hy) as (Hys & Hn & _).
    assert (y = b) as -> by congruence. lia. }
  rewrite (same_unmarked _ _ Heq (Hinv _ _ Hb) Hbv) in Hb'. clear b' Heq Hbv.
  destruct (mark_valid_spec (forks c) b Hf Hb') as (f & E & Hwf & Hs' & Hi & _).
  assert (forall i x, index f !! i = Some x -> validated x = true -> i ∈ id <$> (k ++ [b])) as Hval'.
  { intros i x Hx Hv. rewrite fmap_app, elem_of_app. rewrite Hi in Hx.
    apply lookup_insert_Some in Hx as [[<- _]|[_ Hx]]; [right; cbn; left|left; eauto]. }
  pose proof (mark_valid_monotone _ _ _ _ Hmon E) as Hmon'.
  exists f. split_and!; try done; [by eapply same_blocks_trans|].
  assert (index f !! id b = Some (set_validated true b)) as Hbf by (rewrite Hi; apply lookup_insert_eq).
  pose proof (wf_best _ Hwf _ _ Hbf eq_refl) as Hbest.
  destruct (wf_head _ Hwf) as [Hr|[Hh Hhv]].
  { rewrite Hr in Hbest. by rewrite (stored_over_root _ _ _ Hwf Hmon' Hbf) in Hbest. }
  pose proof (Hval' _ _ Hh Hhv) as Hin. rewrite fmap_app, elem_of_app in Hin.
  destruct Hin as [(y & Hid & Hy)%list_elem_of_fmap|Hin]; cbn in *; [|set_solver by congruence].
  exfalso. destruct (path_next _ _ _ _ _ _ Hf0 Hmon0 Hp Hy) as (Hys & Hn & Hd).
  destruct (same_lookup _ _ _ _ (same_blocks_trans _ _ _ Hs Hs') Hh) as (y' & Hy' & Heq).
  rewrite Hid, Hys in Hy'. injection Hy' as <-.
  destruct (preferred_flag y (head f) (set_validated true b) Heq) as [_ Hpf].
  rewrite <- Hpf, above_preferred in Hbest; cbn; try done.
Qed.

Lemma logging_step c0 k c b rest t s : wf (forks c0) -> monotone (forks c0) ->
  (forall i b, index (forks c0) !! i = Some b -> validated b = false) ->
  path (forks c0) (root (forks c0)) (k ++ b :: rest) t -> logging c0 k c ->
  apply_block status_complete b (state (db c)) = Ok s -> append b = Ok tt ->
  exists c', log_block IRREVERSIBLE append b c = (Ok tt, c') /\ logging c0 (k ++ [b]) c'.
Proof.
  intros Hf0 Hmon0 Hinv Hp Hk Ha Happend.
  destruct (logging_mark c0 k c b rest t Hf0 Hmon0 Hinv Hp Hk) as (f & E & Hf & Hmon & Hs & Hsc & Hh & Hv).
  exists (mk_controller (set_validated true b) (commit (block_num b) (push_session s (db c))) f (blog c ++ [b])).
  split.
  - unfold log_block, apply, on_forks, lift, mbind, stateful_bind. rewrite decide_True by done.
    rewrite Ha. cbn -[mark_valid]. rewrite E. by rewrite Happend.
  - assert (block_num b = block_num (chain_head c) + 1) as Hn.
    { rewrite cons_middle, app_assoc in Hp. apply path_split in Hp as (x & Hp & _).
      apply path_end in Hp as Hx. destruct Hx as [-> Hbi]. apply path_split in Hp as (m & Hm & Hb).
      rewrite (path_num _ _ Hf0 (path_known _ _ Hf0 (root_known _) _ _ Hm) _ _ Hb). cbn.
      rewrite (lg_head _ _ _ Hk). destruct k as [|x k _] using rev_ind.
      - inversion Hm; [done|]. by destruct l.
      - rewrite last_default. by apply path_end in Hm as [-> _]. }
    split; cbn [forks chain_head db blog]; try done.
    + by rewrite last_default.
    + rewrite revision_commit, revision_push, (lg_revision _ _ _ Hk). by symmetry.
    + by rewrite (lg_log _ _ _ Hk), app_assoc.
    + intros x [Hx|Hx]%elem_of_app; [by apply (lg_stored _ _ _ Hk)|].
      apply list_elem_of_singleton in Hx as ->. by eapply path_stored.
    + unfold apply_all. rewrite foldM_app. fold (apply_all (state (db c0)) k).
      rewrite (lg_state _ _ _ Hk). cbn. by rewrite Ha, state_commit, state_push.
Qed.

(** The append of the next block throws: it was applied and marked, and the root
    can still follow the blocks before it. *)
Definition stuck (root_id : block_id_type) (c : controller D) : Prop :=
  root_id = id (root (forks c)) \/
  exists f, advance_root root_id (forks c) = (Ok tt, f).

Lemma append_stops c0 k c b rest t s e : wf (forks c0) -> monotone (forks c0) ->
  (forall i b, index (forks c0) !! i = Some b -> validated b = false) ->
  path (forks c0) (root (forks c0)) (k ++ b :: rest) t -> logging c0 k c ->
  apply_block status_complete b (state (db c)) = Ok s -> append b = Throw e ->
  exists c', log_block IRREVERSIBLE append b c = (Throw e, c') /\ stuck (id (chain_head c)) c'.
Proof.
  intros Hf0 Hmon0 Hinv Hp Hk Ha Happend.
  destruct (logging_mark c0 k c b rest t Hf0 Hmon0 Hinv Hp Hk) as (f & E & Hf & Hmon & Hs & Hsc & Hh & Hv).
  exists (mk_controller (set_validated true b) (push_session s (db c)) f (blog c)). split.
  { unfold log_block, apply, on_forks, lift, mbind, stateful_bind. rewrite decide_True by done.
    rewrite Ha. cbn -[mark_valid]. rewrite E. by rewrite Happend. }
  unfold stuck. cbn [forks]. rewrite (lg_head _ _ _ Hk), (same_root _ _ Hs).
  destruct k as [|y k _] using rev_ind; [by left|right]. rewrite last_default.
  assert (index f !! id y = Some (set_validated true y)) as Hy.
  { destruct (wf_head _ (lg_wf _ _ _ Hk)) as [Hr|[Hi _]]; rewrite (lg_fork_head _ _ _ Hk), (lg_head _ _ _ Hk), last_default in *.
    - pose proof (lg_stored _ _ _ Hk y ltac:(set_solver)) as Hy0. apply (f_equal id) in Hr. cbn in Hr.
      by rewrite Hr, (same_root _ _ (lg_same _ _ _ Hk)), (wf_root _ Hf0) in Hy0.
    - by eapply same_valid. }
  assert (child f (id y) (id b)) as Hc.
  { assert (index f !! id b = Some (head f)) as Hb.
    { destruct (wf_head _ Hf) as [Hr|[Hi _]]; rewrite Hh in *; [|done]. pose proof (path_stored _ _ _ _ _ Hp) as Hb.
      apply (f_equal id) in Hr. cbn in Hr. by rewrite Hr, (same_root _ _ Hs), (wf_root _ Hf0) in Hb. }
    exists (head f). split; [done|]. rewrite Hh. cbn. rewrite cons_middle, app_assoc in Hp.
    apply path_split in Hp as (m & Hm & _). by eapply path_parent. }
  destruct (advance_root_ok f (id y) _ Hf Hy eq_refl) as (f' & E' & _); [|by exists f'].
  rewrite Hh. by apply rtc_once.
Qed.

(** The loop ends with the blocks [k] logged, or where an append throws. *)
Lemma log_blocks_irreversible c0 todo k c rest t : wf (forks c0) -> monotone (forks c0) ->
  (forall i b, index (forks c0) !! i = Some b -> validated b = false) ->
  path (forks c0) (root (forks c0)) (k ++ todo ++ rest) t -> logging c0 k c ->
  (exists r k' c', logging c0 k' c' /\
    log_blocks IRREVERSIBLE append (id (chain_head c)) todo c = (r, id (chain_head c'), c')) \/
  (exists b e i c', append b = Throw e /\ stuck i c' /\
    log_blocks IRREVERSIBLE append (id (chain_head c)) todo c = (Throw e, i, c')).
Proof.
  intros Hf0 Hmon0 Hinv. revert k c.
  induction todo as [|b todo IH]; intros k c Hp Hk; cbn [log_blocks]; [left; eauto|].
  destruct (apply_block status_complete b (state (db c))) as [s|e] eqn:Ha.
  - destruct (append b) as [[]|e] eqn:Hap.
    + destruct (logging_step c0 k c b (todo ++ rest) t s) as (c1 & -> & Hk1); [done..|].
      assert (id (chain_head c1) = id b) as <-.
      { rewrite (lg_head _ _ _ Hk1). by rewrite last_default. }
      apply (IH (k ++ [b])); [by rewrite <- app_assoc|done].
    + right. destruct (append_stops c0 k c b (todo ++ rest) t s e) as (c1 & -> & Hst); [done..|].
      by exists b, e, (id (chain_head c)), c1.
  - left. exists (Throw e), k, c. split; [done|].
    assert (log_block IRREVERSIBLE append b c = (Throw e, c)) as ->; [|done].
    unfold log_block, apply, mbind, stateful_bind. rewrite decide_True by done. by rewrite Ha.
Qed.

(** The root follows the blocks that were logged. *)
Lemma logging_done c0 k c : follows_log c0 -> logging c0 k c ->
  exists c', (if decide (id (chain_head c) = id (root (forks c))) then mret tt
     else on_forks (advance_root (id (chain_head c)))) c = (Ok tt, c') /\
    follows_log c' /\ blog c' = blog c0 ++ k /\ db c' = db c.
Proof.
  intros [Hf0 _ Hh0 _ _ _ Hl0] Hk. pose proof Hk as [Hf Hmon Hs Hh Hfh Hval Hrev Hlog Hst _].
  destruct k as [|x k _] using rev_ind.
  - cbn in Hh. rewrite Hh, (same_root _ _ Hs), decide_True by done. exists c. rewrite Hlog, app_nil_r.
    split_and!; try done. rewrite app_nil_r in Hlog.
    split; rewrite ?Hlog, ?Hfh, ?Hrev, ?Hh, ?(same_root _ _ Hs); try done.
    intros i b Hb. destruct (validated b) eqn:Hv; [|done]. by apply Hval, not_elem_of_nil in Hb.
  - rewrite last_default in Hh. set (m := set_validated true x) in *.
    pose proof (Hst x ltac:(set_solver)) as Hx.
    assert (id m <> id (root (forks c))) as Hne.
    { cbn. rewrite (same_root _ _ Hs). intros Heq. by rewrite Heq, (wf_root _ Hf0) in Hx. }
    assert (index (forks c) !! id m = Some m) as Hm.
    { destruct (wf_head _ Hf) as [Hr|[Hi _]]; rewrite Hfh, Hh in *; [congruence|done]. }
    destruct (advance_root_ok (forks c) (id m) m Hf Hm eq_refl) as (f & E & Hr & Hhf & Hidx).
    { rewrite Hfh, Hh. apply rtc_refl. }
    exists (set_forks f c). rewrite Hh, decide_False by done. unfold on_forks. rewrite E.
    split_and!; try done. split; cbn [forks chain_head db blog set_forks]; rewrite ?Hr; try done.
    + eapply (advance_root_wf (forks c) (id m) m); try done. rewrite Hfh, Hh. apply rtc_refl.
    + by eapply (advance_root_monotone (forks c) (id m) m).
    + by rewrite Hhf, Hfh.
    + intros i b (Hb & Hbm & Hd)%Hidx. destruct (validated b) eqn:Hv; [|done]. exfalso.
      pose proof (descends_above (forks c) (id m) m Hf Hm i b Hd Hb Hbm) as Hn.
      pose proof (descends_dpos (forks c) m i b Hf Hmon Hm Hd Hb) as Hdp.
      pose proof (wf_best _ Hf _ _ Hb Hv) as Hbest. rewrite Hfh, Hh in Hbest.
      by rewrite above_preferred in Hbest.
    + by rewrite Hrev, Hh.
    + unfold log_ends. by rewrite Hlog, app_assoc, last_snoc.
Qed.

(** A new block changes nothing but the index. *)
Lemma follows_log_add c n r f : follows_log c -> extends (forks c) n -> keeps_lib (forks c) n -> validated n = false ->
  add n false (forks c) = (r, f) -> follows_log (set_forks f c).
Proof.
  intros [Hf Hmon Hh Hfh Hinv Hrev Hlog] Hext Hlib Hn E. unfold add in E.
  pose proof (add_monotone _ _ _ _ _ _ Hf Hmon Hlib Hext E) as Hmon'.
  pose proof (add_wf _ _ _ _ _ _ Hf Hext E) as Hf'.
  apply add_impl_cases in E as [[-> _]|[(_ & _ & [=] & _)|(_ & _ & _ & E)]]; [by destruct c|].
  assert (root f = root (forks c) /\ index f = <[id n := n]> (index (forks c))) as [Hr Hi].
  { rewrite E. destruct (by_lib_block_num _); [done|]. by destruct (is_valid _). }
  assert (forall i b, index f !! i = Some b -> validated b = false) as Hinv'.
  { intros i b Hb. rewrite Hi in Hb. apply lookup_insert_Some in Hb as [[_ <-]|[_ Hb]]; [done|eauto]. }
  split; cbn [forks chain_head db blog set_forks]; rewrite ?Hr; try done.
  destruct (wf_head _ Hf') as [->|[Hx Hv]]; [done|]. by rewrite (Hinv' _ _ Hx) in Hv.
Qed.

Lemma log_irreversible_follows c : follows_log c ->
  exists r c', log_irreversible IRREVERSIBLE first_block_num append c = (r, c') /\
    ((exists b e, r = Throw e /\ append b = Throw e) \/ follows_log c' /\
     exists k, blog c' = blog c ++ k /\ apply_all (state (db c)) k = Ok (state (db c'))).
Proof.
  intros Hc. pose proof Hc as [Hf Hmon Hh Hfh Hinv Hrev Hlog].
  rewrite log_irreversible_start by done. rewrite decide_True by done. cbv zeta.
  destruct (_ <=? _); [exists (Ok tt), c; split; [done|right]; split; [done|]; exists []; by rewrite app_nil_r|].
  assert (known (forks c) (pending_head (forks c))) as Hkp.
  { destruct (pending_cases _ Hf) as [->|(Hi & _)]; [rewrite Hfh; apply root_known|by apply stored_known]. }
  destruct (path_exists _ _ Hf Hkp) as [l Hl].
  destruct (fetch_branch_path _ _ _ (dpos_irreversible_blocknum (pending_head (forks c))) Hf Hl)
    as (todo & rest & -> & ->).
  assert (logging c [] c) as Hk.
  { split; try done; [by rewrite Hfh| |by rewrite Hrev, Hh|by rewrite app_nil_r|].
    - intros i b Hb Hv. by rewrite (Hinv _ _ Hb) in Hv.
    - intros x Hx. by apply not_elem_of_nil in Hx. }
  unfold log_branch. rewrite rev_involutive, <- Hh.
  destruct (log_blocks_irreversible c todo [] c rest (pending_head (forks c)) Hf Hmon Hinv Hl Hk)
    as [(r & k & c1 & Hk1 & ->)|(b & e & i & c1 & Hap & Hst & ->)].
  - destruct (logging_done c k c1 Hc Hk1) as (c' & E & Hc' & Hb & Hd).
    exists r, c'. rewrite (bind_step _ _ c1 tt c' E). split; [done|]. right. split; [done|].
    exists k. split; [done|]. rewrite Hd. apply Hk1.
  - destruct (decide (i = id (root (forks c1)))) as [Heq|Hne].
    + exists (Throw e), c1. split; [done|]. left. by exists b, e.
    + destruct Hst as [?|[f E]]; [done|]. exists (Throw e), (set_forks f c1). split; [|left; by exists b, e].
      rewrite (bind_step _ _ c1 tt (set_forks f c1)); [done|]. unfold on_forks. by rewrite E.
Qed.

(** C18: in irreversible mode the state is that of the block log.  Whatever block
    arrives, and whether the push succeeds, the fork database refuses the block
    or a block does not apply, the head, the root of the fork database and the
    end of the log are the same block, no block above it is valid, and the new
    state is the old one after exactly the blocks that were added to the log, in
    their order.  The one exception is a push that ends with the exception of
    [block_log::append]: the block it refused has been applied by then
    ([irreversible_append_failure]).

    What is assumed.  The pushed block is not validated, its id is not that of
    the root and its number is one above that of its parent, which
    [block_header_state::next] sees to ([extends]).  The irreversible number of
    no stored block, and not that of the pushed block, is below the one of its
    parent ([fl_monotone], [keeps_lib]), which a schedule promotion can break;
    [lowered_throws_in_irreversible_mode] shows that the root can then not
    advance.  The database obeys the laws of [UndoDatabase]. *)
Theorem irreversible_mode_follows_log (c : controller D) (n : block_state) (r : result unit) (c' : controller D) :
  follows_log c -> extends (forks c) n -> keeps_lib (forks c) n -> validated n = false ->
  push_block IRREVERSIBLE first_block_num append n c = (r, c') ->
  (exists b e, r = Throw e /\ append b = Throw e) \/
  follows_log c' /\ exists k, blog c' = blog c ++ k /\ apply_all (state (db c)) k = Ok (state (db c')).
Proof.
  intros Hc Hext Hlib Hn E. unfold push_block in E.
  destruct (add n false (forks c)) as [ra f] eqn:Ea.
  pose proof (follows_log_add c n ra f Hc Hext Hlib Hn Ea) as Hc1.
  destruct ra as [[]|e].
  - rewrite (bind_step _ _ c tt (set_forks f c)), decide_True in E by (done || (unfold on_forks; by rewrite Ea)).
    destruct (log_irreversible_follows (set_forks f c) Hc1) as (r1 & c1 & E1 & Hc').
    rewrite E1 in E. by injection E as <- <-.
  - rewrite (bind_stop _ _ c e (set_forks f c)) in E by (unfold on_forks; by rewrite Ea).
    injection E as <- <-. right. split; [done|]. exists []. by rewrite app_nil_r.
Qed.

End log.

(** ** The sample chain in irreversible mode *)

#[local] Existing Instance undo_db_database.
#[local] Existing Instance sample_applier.

Abbreviation sample_push n c := (push_block IRREVERSIBLE 11 (fun _ => Ok tt) n c).
Definition one_pending := (sample_push blk_b1 at_root).2.
Definition one_logged := (sample_push blk_b2 one_pending).2.

(** The block 22 makes 21 irreversible, which is applied and logged. *)
Lemma irreversible_mode_follows_log_witness :
  follows_log 11 one_logged /\ root (forks one_logged) = set_validated true blk_b1 /\
  state (db one_logged) = [d 21].
Proof.
  assert (follows_log 11 at_root) as H0.
  { split; try done; [apply reset_wf]. }
  assert (follows_log 11 one_pending) as H1.
  { destruct (irreversible_mode_follows_log 11 (fun _ => Ok tt) at_root blk_b1 (Ok tt) one_pending)
      as [(b & e & [=] & _)|[H1 _]]; [exact H0| | |reflexivity|vm_compute; reflexivity|exact H1].
    - apply (extends_by _ _ (set_validated true blk_root)); vm_compute; congruence.
    - apply (keeps_lib_by _ _ (set_validated true blk_root)); vm_compute; congruence. }
  destruct (irreversible_mode_follows_log 11 (fun _ => Ok tt) one_pending blk_b2 (Ok tt) one_logged)
    as [(b & e & [=] & _)|[H2 _]]; [exact H1| | |reflexivity|vm_compute; reflexivity|].
  - apply (extends_by _ _ blk_b1); vm_compute; congruence.
  - apply (keeps_lib_by _ _ blk_b1); vm_compute; congruence.
  - split; [exact H2|split; vm_compute; reflexivity].
Defined.

(** The block 31 has a lower irreversible number than the root, on which it is
    built.  When 32 makes it irreversible it is applied and logged, but the fork
    database keeps the root as its head, and the root cannot advance: the head
    and the log are ahead of the root. *)
Definition blk_low1 : block_state := mk_block (d 31) (d 10) 11 4 101 [] None false.
Definition blk_low2 : block_state := mk_block (d 32) (d 31) 12 11 102 [] None false.

Lemma lowered_throws_in_irreversible_mode :
  let '(r, c) := sample_push blk_low2 (sample_push blk_low1 at_root).2 in
  r = Throw fork_database_exception /\ chain_head c = set_validated true blk_low1 /\
  blog c = [blk_low1] /\ root (forks c) = set_validated true blk_root.
Proof. vm_compute. repeat split. Qed.

End ForkLog.
