(* ===== verification/ProtocolFeatures.v ===== *)
(** * Protocol features: protocol_feature_manager.cpp, whitelisted_intrinsics.cpp
      and the functions of controller.cpp that activate features

    Module [ProtocolFeatures] has the set of features that the node recognizes,
    the manager that records which of them are active and since which block, the
    whitelist of intrinsics, and the preactivation and activation of features by
    the controller.

    The digest of a feature (SHA-256 over its packing), the reading of the
    digests of the descriptions, and [std::hash] are parameters.  So is the
    correction of RAM on the activation of REPLACE_DEFERRED, which
    [DeferredTransactions] has.  The conversion to variants and the logger are
    left out. *)

From S2P Require Import Prelude Merkle.

Module ProtocolFeatures.

Abbreviation digest_type := Merkle.digest_type.

(** ** The builtin features *)

Inductive builtin_protocol_feature_t :=
  | preactivate_feature
  | only_link_to_existing_permission
  | replace_deferred
  | no_duplicate_deferred_id
  | fix_linkauth_restriction
  | disallow_empty_producer_schedule
  | restrict_action_to_self
  | only_bill_first_authorizer
  | forward_setcode
  | get_sender
  | ram_restrictions
  | webauthn_key
  | wtmsig_block_signatures
  | action_return_value
  | blockchain_parameters
  | get_code_hash
  | configurable_wasm_limits
  | crypto_primitives
  | get_block_num
  | reserved_private_fork_protocol_features.
#[export] Instance builtin_protocol_feature_eq_dec : EqDecision builtin_protocol_feature_t.
Proof. solve_decision. Defined.

(** The value of the enumerator, which is the index of the feature. *)
Definition feature_index (f : builtin_protocol_feature_t) : Z :=
  match f with
  | preactivate_feature => 0
  | only_link_to_existing_permission => 1
  | replace_deferred => 2
  | no_duplicate_deferred_id => 3
  | fix_linkauth_restriction => 4
  | disallow_empty_producer_schedule => 5
  | restrict_action_to_self => 6
  | only_bill_first_authorizer => 7
  | forward_setcode => 8
  | get_sender => 9
  | ram_restrictions => 10
  | webauthn_key => 11
  | wtmsig_block_signatures => 12
  | action_return_value => 13
  | blockchain_parameters => 16
  | get_code_hash => 17
  | configurable_wasm_limits => 18
  | crypto_primitives => 19
  | get_block_num => 20
  | reserved_private_fork_protocol_features => 500000
  end.

Record protocol_feature_subjective_restrictions := mk_restrictions {
  r_earliest_allowed_activation_time : Z;
  r_preactivation_required : bool;
  r_enabled : bool;
}.

(** [description_digest] is the hexadecimal text of the source. *)
Record builtin_protocol_feature_spec := mk_spec {
  codename : string;
  spec_description : string;
  builtin_dependencies : list builtin_protocol_feature_t;
  spec_restrictions : protocol_feature_subjective_restrictions;
}.

Definition default_restrictions := mk_restrictions 0 true true.

Definition builtin_protocol_feature_codenames : list (builtin_protocol_feature_t * builtin_protocol_feature_spec) := [
  (preactivate_feature, mk_spec "PREACTIVATE_FEATURE"
    "64fe7df32e9b86be2b296b3f81dfd527f84e82b98e363bc97e40bc7a83733310" [] (mk_restrictions 0 false true));
  (only_link_to_existing_permission, mk_spec "ONLY_LINK_TO_EXISTING_PERMISSION"
    "f3c3d91c4603cde2397268bfed4e662465293aab10cd9416db0d442b8cec2949" [] default_restrictions);
  (replace_deferred, mk_spec "REPLACE_DEFERRED"
    "9908b3f8413c8474ab2a6be149d3f4f6d0421d37886033f27d4759c47a26d944" [] default_restrictions);
  (no_duplicate_deferred_id, mk_spec "NO_DUPLICATE_DEFERRED_ID"
    "45967387ee92da70171efd9fefd1ca8061b5efe6f124d269cd2468b47f1575a0" [replace_deferred] default_restrictions);
  (fix_linkauth_restriction, mk_spec "FIX_LINKAUTH_RESTRICTION"
    "a98241c83511dc86c857221b9372b4aa7cea3aaebc567a48604e1d3db3557050" [] default_restrictions);
  (disallow_empty_producer_schedule, mk_spec "DISALLOW_EMPTY_PRODUCER_SCHEDULE"
    "2853617cec3eabd41881eb48882e6fc5e81a0db917d375057864b3befbe29acd" [] default_restrictions);
  (restrict_action_to_self, mk_spec "RESTRICT_ACTION_TO_SELF"
    "e71b6712188391994c78d8c722c1d42c477cf091e5601b5cf1befd05721a57f3" [] default_restrictions);
  (only_bill_first_authorizer, mk_spec "ONLY_BILL_FIRST_AUTHORIZER"
    "2f1f13e291c79da5a2bbad259ed7c1f2d34f697ea460b14b565ac33b063b73e2" [] default_restrictions);
  (forward_setcode, mk_spec "FORWARD_SETCODE"
    "898082c59f921d0042e581f00a59d5ceb8be6f1d9c7a45b6f07c0e26eaee0222" [] default_restrictions);
  (get_sender, mk_spec "GET_SENDER"
    "1eab748b95a2e6f4d7cb42065bdee5566af8efddf01a55a0a8d831b823f8828a" [] default_restrictions);
  (ram_restrictions, mk_spec "RAM_RESTRICTIONS"
    "1812fdb5096fd854a4958eb9d53b43219d114de0e858ce00255bd46569ad2c68" [] default_restrictions);
  (webauthn_key, mk_spec "WEBAUTHN_KEY"
    "927fdf78c51e77a899f2db938249fb1f8bb38f4e43d9c1f75b190492080cbc34" [] default_restrictions);
  (wtmsig_block_signatures, mk_spec "WTMSIG_BLOCK_SIGNATURES"
    "ab76031cad7a457f4fd5f5fca97a3f03b8a635278e0416f77dcc91eb99a48e10" [] default_restrictions);
  (action_return_value, mk_spec "ACTION_RETURN_VALUE"
    "69b064c5178e2738e144ed6caa9349a3995370d78db29e494b3126ebd9111966" [] default_restrictions);
  (configurable_wasm_limits, mk_spec "CONFIGURABLE_WASM_LIMITS2"
    "8139e99247b87f18ef7eae99f07f00ea3adf39ed53f4d2da3f44e6aa0bfd7c62" [] default_restrictions);
  (blockchain_parameters, mk_spec "BLOCKCHAIN_PARAMETERS"
    "70787548dcea1a2c52c913a37f74ce99e6caae79110d7ca7b859936a0075b314" [] default_restrictions);
  (get_code_hash, mk_spec "GET_CODE_HASH"
    "d2596697fed14a0840013647b99045022ae6a885089f35a7e78da7a43ad76ed4" [] default_restrictions);
  (crypto_primitives, mk_spec "CRYPTO_PRIMITIVES"
    "68d6405cb8df3de95bd834ebb408196578500a9f818ff62ccc68f60b932f7d82" [] default_restrictions);
  (get_block_num, mk_spec "GET_BLOCK_NUM"
    "e5d7992006e628a38c5e6c28dd55ff5e57ea682079bf41fef9b3cced0f46b491" [] default_restrictions)
].

Definition find_spec (f : builtin_protocol_feature_t) : option builtin_protocol_feature_spec :=
  snd <$> List.find (fun p => bool_decide (p.1 = f)) builtin_protocol_feature_codenames.

Definition builtin_protocol_feature_codename (f : builtin_protocol_feature_t) : result string :=
  match find_spec f with
  | Some s => Ok (codename s)
  | None => Throw protocol_feature_validation_exception
  end.

(** [protocol_feature_base] and [builtin_protocol_feature] *)
Record builtin_protocol_feature := mk_builtin {
  b_description_digest : digest_type;
  b_dependencies : gset digest_type;
  b_restrictions : protocol_feature_subjective_restrictions;
  b_codename : builtin_protocol_feature_t;
}.

(** Its constructor *)
Definition builtin_protocol_feature_of (f : builtin_protocol_feature_t) (description : digest_type)
    (dependencies : gset digest_type) (r : protocol_feature_subjective_restrictions)
  : result builtin_protocol_feature :=
  match find_spec f with
  | Some _ => Ok (mk_builtin description dependencies r f)
  | None => Throw protocol_feature_validation_exception
  end.

(** ** The set of recognized features *)

Record protocol_feature := mk_feature {
  feature_digest : digest_type;
  description_digest : digest_type;
  dependencies : gset digest_type;
  earliest_allowed_activation_time : Z;
  preactivation_required : bool;
  enabled : bool;
  builtin_feature : option builtin_protocol_feature_t;
}.

(** The set is ordered by the digest; the vector has iterators, with the end of
    the set for a feature that is not recognized. *)
Record protocol_feature_set := mk_set {
  recognized_protocol_features : gmap digest_type protocol_feature;
  recognized_builtin_protocol_features : list (option digest_type);
}.

Definition empty_set : protocol_feature_set := mk_set ∅ [].

Inductive recognized_t := unrecognized | disabled | too_early | ready.
#[export] Instance recognized_eq_dec : EqDecision recognized_t.
Proof. solve_decision. Defined.

Definition is_recognized (s : protocol_feature_set) (d : digest_type) (now : Z) : recognized_t :=
  match recognized_protocol_features s !! d with
  | None => unrecognized
  | Some f =>
      if negb (enabled f) then disabled
      else if now <? earliest_allowed_activation_time f then too_early else ready
  end.

Definition get_builtin_digest (s : protocol_feature_set) (f : builtin_protocol_feature_t) : option digest_type :=
  mjoin (recognized_builtin_protocol_features s !! Z.to_nat (feature_index f)).

Definition get_protocol_feature (s : protocol_feature_set) (d : digest_type) : result protocol_feature :=
  match recognized_protocol_features s !! d with
  | Some f => Ok f
  | None => Throw protocol_feature_exception
  end.

Definition validate_dependencies (s : protocol_feature_set) (d : digest_type) (validator : digest_type -> bool) : bool :=
  match recognized_protocol_features s !! d with
  | Some f => forallb validator (elements (dependencies f))
  | None => false
  end.

Section features.
Context (digest : builtin_protocol_feature -> digest_type) (digest_of_hex : string -> digest_type).

Definition make_default_builtin_protocol_feature (f : builtin_protocol_feature_t)
    (handle_dependency : builtin_protocol_feature_t -> result digest_type) : result builtin_protocol_feature :=
  match find_spec f with
  | None => Throw protocol_feature_validation_exception
  | Some s =>
      deps ← foldM (fun acc d => x ← handle_dependency d; mret ({[x]} ∪ acc)) ∅ (builtin_dependencies s);
      builtin_protocol_feature_of f (digest_of_hex (spec_description s)) deps (spec_restrictions s)
  end.

(** The loop of [add_feature]: the expected dependencies that are satisfied. *)
Definition satisfy (s : protocol_feature_set) (expected satisfied : list builtin_protocol_feature_t)
    (d : digest_type) : result (list builtin_protocol_feature_t) :=
  match recognized_protocol_features s !! d with
  | None => Throw protocol_feature_exception
  | Some f =>
      match builtin_feature f with
      | Some b =>
          if bool_decide (b ∈ expected) && bool_decide (b ∉ satisfied) then Ok (b :: satisfied) else Ok satisfied
      | None => Ok satisfied
      end
  end.

Definition add_feature (f : builtin_protocol_feature) (s : protocol_feature_set)
  : result (protocol_feature * protocol_feature_set) :=
  match find_spec (b_codename f) with
  | None => Throw protocol_feature_validation_exception
  | Some spec =>
      let indx := Z.to_nat (feature_index (b_codename f)) in
      EOS_ASSERT (bool_decide (mjoin (recognized_builtin_protocol_features s !! indx) = None))
        protocol_feature_exception;;
      let feature_digest := digest f in
      satisfied ← foldM (satisfy s (builtin_dependencies spec)) [] (elements (b_dependencies f));
      EOS_ASSERT (length (builtin_dependencies spec) <=? length satisfied)%nat
        protocol_feature_validation_exception;;
      EOS_ASSERT (bool_decide (recognized_protocol_features s !! feature_digest = None)) protocol_feature_exception;;
      let feature := mk_feature feature_digest (b_description_digest f) (b_dependencies f)
        (r_earliest_allowed_activation_time (b_restrictions f)) (r_preactivation_required (b_restrictions f))
        (r_enabled (b_restrictions f)) (Some (b_codename f)) in
      let v := recognized_builtin_protocol_features s in
      let v := v ++ replicate (S indx - length v) None in
      Ok (feature, mk_set (<[feature_digest := feature]> (recognized_protocol_features s))
                          (<[indx := Some feature_digest]> v))
  end.
End features.

(** ** The manager of active features *)

Definition no_previous : Z := 2 ^ 64 - 1.
Definition not_active : Z := 2 ^ 32 - 1.

Record builtin_protocol_feature_entry := mk_entry { previous : Z; activation_block_num : Z }.

(** An activated feature is its digest and the number of its block. *)
Record protocol_feature_manager := mk_manager {
  feature_set : protocol_feature_set;
  activated_protocol_features : list (digest_type * Z);
  builtin_protocol_features : list builtin_protocol_feature_entry;
  head_of_builtin_activation_list : Z;
  initialized : bool;
}.

Definition new_manager (s : protocol_feature_set) : protocol_feature_manager :=
  mk_manager s [] (replicate (length (recognized_builtin_protocol_features s)) (mk_entry no_previous not_active))
    no_previous false.

Definition is_builtin_activated (m : protocol_feature_manager) (f : builtin_protocol_feature_t)
    (current_block_num : Z) : bool :=
  match builtin_protocol_features m !! Z.to_nat (feature_index f) with
  | Some e => activation_block_num e <=? current_block_num
  | None => false
  end.

Definition activate_feature (d : digest_type) (current_block_num : Z) (m : protocol_feature_manager)
  : result protocol_feature_manager :=
  EOS_ASSERT (initialized m) protocol_feature_exception;;
  match recognized_protocol_features (feature_set m) !! d with
  | None => Throw protocol_feature_exception
  | Some f =>
      (match last (activated_protocol_features m) with
       | Some l => EOS_ASSERT (l.2 <=? current_block_num) protocol_feature_exception
       | None => mret tt
       end);;
      match builtin_feature f with
      | None => Throw protocol_feature_exception
      | Some b =>
          let indx := feature_index b in
          match builtin_protocol_features m !! Z.to_nat indx with
          | None => Throw protocol_feature_exception
          | Some e =>
              EOS_ASSERT (activation_block_num e =? not_active) protocol_feature_exception;;
              Ok (mk_manager (feature_set m) (activated_protocol_features m ++ [(d, current_block_num)])
                    (<[Z.to_nat indx := mk_entry (head_of_builtin_activation_list m) current_block_num]>
                       (builtin_protocol_features m))
                    indx (initialized m))
          end
      end
  end.

Definition set_initialized (b : bool) (m : protocol_feature_manager) : protocol_feature_manager :=
  mk_manager (feature_set m) (activated_protocol_features m) (builtin_protocol_features m)
    (head_of_builtin_activation_list m) b.

(** [activate_feature] as an operation on the manager *)
Definition activate (d : digest_type) (n : Z) : stateful protocol_feature_manager unit :=
  fun m => match activate_feature d n m with Ok m' => (Ok tt, m') | Throw e => (Throw e, m) end.

(** [init] with the features that the state has as activated *)
Definition activate_all (features : list (digest_type * Z)) : stateful protocol_feature_manager unit :=
  fun m => match iterM (fun f => activate f.1 f.2) features m with
           | (Ok _, m) => (Ok tt, m)
           | (Throw e, m) => (Throw e, set_initialized false m)
           end.

Definition init (features : list (digest_type * Z)) : stateful protocol_feature_manager unit :=
  m ← get;
  lift (EOS_ASSERT (negb (initialized m)) protocol_feature_exception);;
  modify (set_initialized true);;
  activate_all features.

(** The first loop of [popped_blocks_to], along the list through the entries. *)
Fixpoint pop_builtins (fuel : nat) (block_num head : Z) (v : list builtin_protocol_feature_entry)
  : result (Z * list builtin_protocol_feature_entry) :=
  match fuel with
  | O => Ok (head, v)
  | S fuel =>
      if head =? no_previous then Ok (head, v)
      else match v !! Z.to_nat head with
           | None => Throw undefined_behaviour
           | Some e =>
               if activation_block_num e <=? block_num then Ok (head, v)
               else pop_builtins fuel block_num (previous e)
                      (<[Z.to_nat head := mk_entry no_previous not_active]> v)
           end
  end.

(** The second loop, from the end of the vector. *)
Fixpoint pop_activated (block_num : Z) (reversed : list (digest_type * Z)) : list (digest_type * Z) :=
  match reversed with
  | [] => []
  | x :: l => if block_num <? x.2 then pop_activated block_num l else reversed
  end.

Definition popped_blocks_to (block_num : Z) (m : protocol_feature_manager) : result protocol_feature_manager :=
  EOS_ASSERT (initialized m) protocol_feature_exception;;
  '(head, v) ← pop_builtins (S (length (builtin_protocol_features m))) block_num
                 (head_of_builtin_activation_list m) (builtin_protocol_features m);
  Ok (mk_manager (feature_set m) (rev (pop_activated block_num (rev (activated_protocol_features m))))
        v head (initialized m)).

(** An iterator over the activated features is its index; [None] is the end. *)
Definition iterator_at (m : protocol_feature_manager) (i : nat) : option nat :=
  if (i <? length (activated_protocol_features m))%nat then Some i else None.

Definition cbegin (m : protocol_feature_manager) : option nat := iterator_at m 0.
Definition at_activation_ordinal (m : protocol_feature_manager) (activation_ordinal : nat) : option nat :=
  iterator_at m activation_ordinal.

(** [std::lower_bound] and [std::upper_bound] on the vector, which is ordered *)
Definition lower_bound (m : protocol_feature_manager) (block_num : Z) : option nat :=
  fst <$> list_find (fun x => block_num <= x.2) (activated_protocol_features m).
Definition upper_bound (m : protocol_feature_manager) (block_num : Z) : option nat :=
  fst <$> list_find (fun x => block_num < x.2) (activated_protocol_features m).

Definition iterator_increment (m : protocol_feature_manager) (i : option nat) : result (option nat) :=
  match i with
  | None => Throw protocol_feature_iterator_exception
  | Some i => Ok (iterator_at m (S i))
  end.
Definition iterator_decrement (m : protocol_feature_manager) (i : option nat) : result (option nat) :=
  match i with
  | None =>
      EOS_ASSERT (0 <? length (activated_protocol_features m))%nat protocol_feature_iterator_exception;;
      Ok (Some (pred (length (activated_protocol_features m))))
  | Some i =>
      EOS_ASSERT (0 <? i)%nat protocol_feature_iterator_exception;;
      Ok (Some (pred i))
  end.

(** ** Whitelisted intrinsics *)

(** The names under their hashes, ordered by the hash. *)
Definition whitelisted_intrinsics_type := list (Z * string).

(** [std::lower_bound] and [std::upper_bound] of the flat multimap: what is left
    from the position on. *)
Fixpoint from_lower_bound (h : Z) (l : whitelisted_intrinsics_type) : whitelisted_intrinsics_type :=
  match l with
  | [] => []
  | x :: l' => if x.1 <? h then from_lower_bound h l' else l
  end.

Fixpoint find_intrinsic_helper (h : Z) (name : string) (l : whitelisted_intrinsics_type) : bool :=
  match l with
  | [] => false
  | x :: l => if x.1 =? h then bool_decide (x.2 = name) || find_intrinsic_helper h name l else false
  end.

Definition find_intrinsic (l : whitelisted_intrinsics_type) (h : Z) (name : string) : bool :=
  find_intrinsic_helper h name (from_lower_bound h l).

(** [emplace]: after the last element that is not greater *)
Fixpoint emplace_intrinsic (h : Z) (name : string) (l : whitelisted_intrinsics_type) : whitelisted_intrinsics_type :=
  match l with
  | [] => [(h, name)]
  | x :: l' => if h <? x.1 then (h, name) :: l else x :: emplace_intrinsic h name l'
  end.

Fixpoint erase_intrinsic (h : Z) (name : string) (l : whitelisted_intrinsics_type) : whitelisted_intrinsics_type :=
  match l with
  | [] => []
  | x :: l => if (x.1 =? h) && bool_decide (x.2 = name) then l else x :: erase_intrinsic h name l
  end.

Section whitelist.
Context (hash : string -> Z).

Definition is_intrinsic_whitelisted (l : whitelisted_intrinsics_type) (name : string) : bool :=
  find_intrinsic l (hash name) name.

Definition add_intrinsic_to_whitelist (l : whitelisted_intrinsics_type) (name : string)
  : result whitelisted_intrinsics_type :=
  EOS_ASSERT (negb (find_intrinsic l (hash name) name)) database_exception;;
  Ok (emplace_intrinsic (hash name) name l).

Definition remove_intrinsic_from_whitelist (l : whitelisted_intrinsics_type) (name : string)
  : result whitelisted_intrinsics_type :=
  EOS_ASSERT (find_intrinsic l (hash name) name) database_exception;;
  Ok (erase_intrinsic (hash name) name l).

Definition reset_intrinsic_whitelist (s : gset string) : whitelisted_intrinsics_type :=
  foldl (fun l name => emplace_intrinsic (hash name) name l) [] (elements s).

Definition convert_intrinsic_whitelist_to_set (l : whitelisted_intrinsics_type) : gset string :=
  list_to_set (snd <$> l).
End whitelist.

Definition genesis_intrinsics : list string := [
  "__ashrti3"; "__lshlti3"; "__lshrti3"; "__ashlti3"; "__divti3"; "__udivti3"; "__modti3"; "__umodti3";
  "__multi3"; "__addtf3"; "__subtf3"; "__multf3"; "__divtf3"; "__eqtf2"; "__netf2"; "__getf2"; "__gttf2";
  "__lttf2"; "__letf2"; "__cmptf2"; "__unordtf2"; "__negtf2"; "__floatsitf"; "__floatunsitf";
  "__floatditf"; "__floatunditf"; "__floattidf"; "__floatuntidf"; "__floatsidf"; "__extendsftf2";
  "__extenddftf2"; "__fixtfti"; "__fixtfdi"; "__fixtfsi"; "__fixunstfti"; "__fixunstfdi"; "__fixunstfsi";
  "__fixsfti"; "__fixdfti"; "__fixunssfti"; "__fixunsdfti"; "__trunctfdf2"; "__trunctfsf2";
  "is_feature_active"; "activate_feature"; "get_resource_limits"; "set_resource_limits";
  "set_proposed_producers"; "get_blockchain_parameters_packed"; "set_blockchain_parameters_packed";
  "is_privileged"; "set_privileged"; "get_active_producers"; "db_idx64_store"; "db_idx64_remove";
  "db_idx64_update"; "db_idx64_find_primary"; "db_idx64_find_secondary"; "db_idx64_lowerbound";
  "db_idx64_upperbound"; "db_idx64_end"; "db_idx64_next"; "db_idx64_previous"; "db_idx128_store";
  "db_idx128_remove"; "db_idx128_update"; "db_idx128_find_primary"; "db_idx128_find_secondary";
  "db_idx128_lowerbound"; "db_idx128_upperbound"; "db_idx128_end"; "db_idx128_next"; "db_idx128_previous";
  "db_idx256_store"; "db_idx256_remove"; "db_idx256_update"; "db_idx256_find_primary";
  "db_idx256_find_secondary"; "db_idx256_lowerbound"; "db_idx256_upperbound"; "db_idx256_end";
  "db_idx256_next"; "db_idx256_previous"; "db_idx_double_store"; "db_idx_double_remove";
  "db_idx_double_update"; "db_idx_double_find_primary"; "db_idx_double_find_secondary";
  "db_idx_double_lowerbound"; "db_idx_double_upperbound"; "db_idx_double_end"; "db_idx_double_next";
  "db_idx_double_previous"; "db_idx_long_double_store"; "db_idx_long_double_remove";
  "db_idx_long_double_update"; "db_idx_long_double_find_primary"; "db_idx_long_double_find_secondary";
  "db_idx_long_double_lowerbound"; "db_idx_long_double_upperbound"; "db_idx_long_double_end";
  "db_idx_long_double_next"; "db_idx_long_double_previous"; "db_store_i64"; "db_update_i64";
  "db_remove_i64"; "db_get_i64"; "db_next_i64"; "db_previous_i64"; "db_find_i64"; "db_lowerbound_i64";
  "db_upperbound_i64"; "db_end_i64"; "assert_recover_key"; "recover_key"; "assert_sha256"; "assert_sha1";
  "assert_sha512"; "assert_ripemd160"; "sha1"; "sha256"; "sha512"; "ripemd160";
  "check_transaction_authorization"; "check_permission_authorization"; "get_permission_last_used";
  "get_account_creation_time"; "current_time"; "publication_time"; "abort"; "eosio_assert";
  "eosio_assert_message"; "eosio_assert_code"; "eosio_exit"; "read_action_data"; "action_data_size";
  "current_receiver"; "require_recipient"; "require_auth"; "require_auth2"; "has_auth"; "is_account";
  "prints"; "prints_l"; "printi"; "printui"; "printi128"; "printui128"; "printsf"; "printdf"; "printqf";
  "printn"; "printhex"; "read_transaction"; "transaction_size"; "expiration"; "tapos_block_prefix";
  "tapos_block_num"; "get_action"; "send_inline"; "send_context_free_inline"; "send_deferred";
  "cancel_deferred"; "get_context_free_data"; "memcpy"; "memmove"; "memcmp"; "memset"
].

(** ** The controller *)

Record protocol_state_object := mk_protocol_state {
  pso_activated : list (digest_type * Z);
  pso_preactivated : list digest_type;
  whitelisted_intrinsics : whitelisted_intrinsics_type;
  num_supported_key_types : Z;
}.

Definition set_intrinsics (l : whitelisted_intrinsics_type) (p : protocol_state_object) : protocol_state_object :=
  mk_protocol_state (pso_activated p) (pso_preactivated p) l (num_supported_key_types p).
Definition set_key_types (n : Z) (p : protocol_state_object) : protocol_state_object :=
  mk_protocol_state (pso_activated p) (pso_preactivated p) (whitelisted_intrinsics p) n.
Definition set_preactivated (l : list digest_type) (p : protocol_state_object) : protocol_state_object :=
  mk_protocol_state (pso_activated p) l (whitelisted_intrinsics p) (num_supported_key_types p).

Definition genesis_num_supported_key_types : Z := 2.

Section controller.
Context {W : Type} (hash : string -> Z) (on_replace_deferred : W -> result W).

(** What [initialize_database] creates *)
Definition genesis_protocol_state : result protocol_state_object :=
  l ← foldM (add_intrinsic_to_whitelist hash) [] genesis_intrinsics;
  Ok (mk_protocol_state [] [] l genesis_num_supported_key_types).

(** The intrinsics that the handlers of activations add *)
Definition activation_intrinsics (f : builtin_protocol_feature_t) : list string :=
  match f with
  | preactivate_feature => ["preactivate_feature"; "is_feature_activated"]
  | get_sender => ["get_sender"]
  | wtmsig_block_signatures => ["set_proposed_producers_ex"]
  | action_return_value => ["set_action_return_value"]
  | configurable_wasm_limits => ["set_wasm_parameters_packed"; "get_wasm_parameters_packed"]
  | blockchain_parameters => ["get_parameters_packed"; "set_parameters_packed"]
  | get_code_hash => ["get_code_hash"]
  | get_block_num => ["get_block_num"]
  | crypto_primitives =>
      ["alt_bn128_add"; "alt_bn128_mul"; "alt_bn128_pair"; "mod_exp"; "blake2_f"; "sha3"; "k1_recover"]
  | _ => []
  end.

(** [trigger_activation_handler] with the handlers [on_activation] *)
Definition on_activation (f : builtin_protocol_feature_t) (pw : protocol_state_object * W)
  : result (protocol_state_object * W) :=
  let '(p, w) := pw in
  match f with
  | replace_deferred => w ← on_replace_deferred w; Ok (p, w)
  | webauthn_key => Ok (set_key_types 3 p, w)
  | _ =>
      l ← foldM (add_intrinsic_to_whitelist hash) (whitelisted_intrinsics p) (activation_intrinsics f);
      Ok (set_intrinsics l p, w)
  end.

(** The check of the features of a block that activates [new] when [current]
    are active; [before] are those of [new] that come first. *)
Fixpoint check_protocol_features_from (s : protocol_feature_set) (timestamp : Z) (current : gset digest_type)
    (before new : list digest_type) : result unit :=
  match new with
  | [] => Ok tt
  | f :: new =>
      EOS_ASSERT (bool_decide (is_recognized s f timestamp = ready)) protocol_feature_exception;;
      EOS_ASSERT (bool_decide (f ∉ current)) protocol_feature_exception;;
      EOS_ASSERT (validate_dependencies s f (fun d => bool_decide (d ∈ current) || bool_decide (d ∈ before)))
        protocol_feature_exception;;
      check_protocol_features_from s timestamp current (before ++ [f]) new
  end.

Definition check_protocol_features (s : protocol_feature_set) (timestamp : Z) (current : gset digest_type)
    (new : list digest_type) : result unit :=
  check_protocol_features_from s timestamp current [] new.

(** The state of the controller that activations concern; [world] is the rest of
    the database. *)
Record chain := mk_chain {
  protocol_features : protocol_feature_manager;
  pso : protocol_state_object;
  world : W;
}.

(** The features of the block that is being built *)
Record building_block := mk_building {
  prev_activated_protocol_features : gset digest_type;
  new_protocol_feature_activations : list digest_type;
  num_new_protocol_features_that_have_activated : nat;
}.

Definition is_protocol_feature_activated (b : building_block) (d : digest_type) : bool :=
  bool_decide (d ∈ prev_activated_protocol_features b) ||
  bool_decide (d ∈ take (num_new_protocol_features_that_have_activated b) (new_protocol_feature_activations b)).

Definition preactivate (is_producing_block : bool) (time : Z) (b : building_block) (d : digest_type)
    (c : chain) : result chain :=
  let s := feature_set (protocol_features c) in
  EOS_ASSERT (bool_decide (is_recognized s d time = ready))
    (if is_producing_block then subjective_block_production_exception else protocol_feature_bad_block_exception);;
  EOS_ASSERT (negb (is_protocol_feature_activated b d)) protocol_feature_exception;;
  EOS_ASSERT (bool_decide (d ∉ pso_preactivated (pso c))) protocol_feature_exception;;
  EOS_ASSERT (validate_dependencies s d (fun d' =>
      is_protocol_feature_activated b d' || bool_decide (d' ∈ pso_preactivated (pso c)))) protocol_feature_exception;;
  Ok (mk_chain (protocol_features c) (set_preactivated (pso_preactivated (pso c) ++ [d]) (pso c)) (world c)).

(** The loop of [start_block] over the features: [marks] says which of them were
    preactivated and which are activated, [num] counts the preactivated ones
    among the activated. *)
Record starting := mk_starting {
  marks : gmap digest_type bool;
  num_preactivated : nat;
  started : chain;
  num_activated : nat;
}.

Definition mark_feature (preactivation_required : bool) (d : digest_type) (s : starting) : result starting :=
  match marks s !! d with
  | None =>
      EOS_ASSERT (negb preactivation_required) protocol_feature_exception;;
      Ok (mk_starting (<[d := true]> (marks s)) (num_preactivated s) (started s) (num_activated s))
  | Some active =>
      EOS_ASSERT (negb active) block_validate_exception;;
      Ok (mk_starting (<[d := true]> (marks s)) (S (num_preactivated s)) (started s) (num_activated s))
  end.

Definition activate_one (block_num : Z) (d : digest_type) (s : starting) : result starting :=
  let c := started s in
  f ← get_protocol_feature (feature_set (protocol_features c)) d;
  s ← mark_feature (preactivation_required f) d s;
  '(p, w) ← (match builtin_feature f with
             | Some b => on_activation b (pso c, world c)
             | None => Ok (pso c, world c)
             end);
  m ← activate_feature d block_num (protocol_features c);
  Ok (mk_starting (marks s) (num_preactivated s) (mk_chain m p w) (S (num_activated s))).

(** The loop stops at the feature that throws, and what was done before stays. *)
Fixpoint activate_features (block_num : Z) (new : list digest_type) : stateful starting unit :=
  match new with
  | [] => mret tt
  | d :: new =>
      fun s => match activate_one block_num d s with
               | Ok s => activate_features block_num new s
               | Throw e => (Throw e, s)
               end
  end.

(** The part of [start_block] on protocol features, with its guard: an exception
    pops the activations, and the undo session restores the database. *)
Definition start_block_features (head_block_num : Z) (modify_state : bool) (new : list digest_type) (c : chain)
  : result nat * chain :=
  if negb modify_state then (Ok O, c)
  else
    let pre := pso_preactivated (pso c) in
    let s := mk_starting (list_to_map ((fun d => (d, false)) <$> pre)) 0 c 0 in
    let '(r, s) := activate_features (head_block_num + 1) new s in
    let abort e :=
      (Throw e, match popped_blocks_to head_block_num (protocol_features (started s)) with
                | Ok m => mk_chain m (pso c) (world c)
                | Throw _ => mk_chain (protocol_features (started s)) (pso c) (world c)
                end) in
    match r with
    | Throw e => abort e
    | Ok _ =>
        if bool_decide (length pre = 0%nat) || (bool_decide (new <> []) && bool_decide (num_preactivated s = length pre)) then
          let p := pso (started s) in
          (Ok (num_activated s),
           if decide (new = []) then started s
           else mk_chain (protocol_features (started s))
                  (mk_protocol_state (pso_activated p ++ ((fun d => (d, head_block_num + 1)) <$> new)) []
                     (whitelisted_intrinsics p) (num_supported_key_types p)) (world (started s)))
        else abort block_validate_exception
    end.

End controller.
Arguments chain : clear implicits.
Arguments starting : clear implicits.
End ProtocolFeatures.
