(* ===== verification/FeatureActivation.v ===== *)
(** * Protocol features are activated in order and can be taken back

    The correctness of [ProtocolFeatures].  A manager is determined by the list
    of activations, so that popping blocks is the same as never having activated
    their features.  Features that a contract has preactivated can always be
    activated by the next block, with their dependencies before them. *)

From S2P Require Import Prelude Merkle ProtocolFeatures.

Module FeatureActivation.
Import ProtocolFeatures.

(** ** The manager of a list of activations *)

Definition inactive : builtin_protocol_feature_entry := mk_entry no_previous not_active.

(** The index of a feature of the set *)
Definition index_of (s : protocol_feature_set) (d : digest_type) : option Z :=
  f ← recognized_protocol_features s !! d; b ← builtin_feature f; mret (feature_index b).

Definition push_activation (m : protocol_feature_manager) (x : digest_type * Z) : protocol_feature_manager :=
  match index_of (feature_set m) x.1 with
  | Some i =>
      mk_manager (feature_set m) (activated_protocol_features m ++ [x])
        (<[Z.to_nat i := mk_entry (head_of_builtin_activation_list m) x.2]> (builtin_protocol_features m))
        i (initialized m)
  | None => m
  end.

Definition manager_of (s : protocol_feature_set) (acts : list (digest_type * Z)) : protocol_feature_manager :=
  foldl push_activation (set_initialized true (new_manager s)) acts.

Definition size_of (s : protocol_feature_set) : nat := length (recognized_builtin_protocol_features s).

(** The features are recognized, of different kinds, in the order of their
    blocks. *)
Record valid_activations (s : protocol_feature_set) (acts : list (digest_type * Z)) : Prop := {
  va_index : Forall (fun x => exists i, index_of s x.1 = Some i /\ (Z.to_nat i < size_of s)%nat) acts;
  va_nodup : NoDup ((index_of s ∘ fst) <$> acts);
  va_sorted : StronglySorted (fun x y => x.2 <= y.2) acts;
  va_active : Forall (fun x => x.2 < not_active) acts;
}.

Lemma feature_index_range f : 0 <= feature_index f.
Proof. by destruct f. Qed.

Lemma index_of_range s d i : index_of s d = Some i -> 0 <= i < no_previous.
Proof.
  unfold index_of. intros H. apply bind_Some in H as (f & _ & (b & _ & [= <-])%bind_Some).
  by destruct b.
Qed.

Lemma manager_of_snoc s acts x : manager_of s (acts ++ [x]) = push_activation (manager_of s acts) x.
Proof. unfold manager_of. by rewrite foldl_app. Qed.

Lemma valid_snoc s acts x : valid_activations s (acts ++ [x]) <->
  valid_activations s acts /\ (exists i, index_of s x.1 = Some i /\ (Z.to_nat i < size_of s)%nat) /\
  index_of s x.1 ∉ ((index_of s ∘ fst) <$> acts) /\ Forall (fun y => y.2 <= x.2) acts /\ x.2 < not_active.
Proof.
  split.
  - intros [H1 H2 H3 H4]. apply Forall_app in H1 as [H1 H1x], H4 as [H4 H4x].
    rewrite Forall_singleton in H1x, H4x.
    rewrite fmap_app, NoDup_app in H2. destruct H2 as (H2 & H2x & _).
    split_and!; try done.
    + split; try done. clear -H3. induction acts as [|y acts IH]; [constructor|].
      cbn in H3. apply StronglySorted_cons in H3 as [H3 H3']. apply StronglySorted_cons. split; [|auto].
      by apply Forall_app in H3 as [? _].
    + intros Hin. apply (H2x _ Hin). cbn. left.
    + clear -H3. induction acts as [|y acts IH]; [done|]. cbn in H3.
      apply StronglySorted_cons in H3 as [H3 H3']. constructor; [|auto].
      apply Forall_app in H3 as [_ H3]. by rewrite Forall_singleton in H3.
  - intros ([H1 H2 H3 H4] & Hi & Hn & Hs & Ha). split.
    + apply Forall_app. by rewrite Forall_singleton.
    + rewrite fmap_app, NoDup_app. split_and!; [done| |apply NoDup_singleton].
      intros y Hy Hx. cbn in Hx. apply list_elem_of_singleton in Hx as ->. done.
    + clear -H3 Hs. induction acts as [|y acts IH]; [repeat constructor|].
      apply StronglySorted_cons in H3 as [H3 H3']. apply Forall_cons in Hs as [Hy Hs]. cbn.
      apply StronglySorted_cons. split; [|auto]. apply Forall_app. by rewrite Forall_singleton.
    + apply Forall_app. by rewrite Forall_singleton.
Qed.

(** What the manager looks like *)
Record manager_shape (s : protocol_feature_set) (acts : list (digest_type * Z)) (m : protocol_feature_manager) : Prop := {
  sh_set : feature_set m = s;
  sh_acts : activated_protocol_features m = acts;
  sh_length : length (builtin_protocol_features m) = size_of s;
  sh_init : initialized m = true;
  sh_head : 0 <= head_of_builtin_activation_list m <= no_previous;
  sh_inactive : forall i, 0 <= i -> (Z.to_nat i < size_of s)%nat -> Some i ∉ ((index_of s ∘ fst) <$> acts) ->
    builtin_protocol_features m !! Z.to_nat i = Some inactive;
  sh_active : forall d n i, (d, n) ∈ acts -> index_of s d = Some i ->
    activation_block_num <$> builtin_protocol_features m !! Z.to_nat i = Some n;
}.

Lemma manager_of_shape s acts : valid_activations s acts -> manager_shape s acts (manager_of s acts).
Proof.
  induction acts as [|x acts IH] using rev_ind; intros Hv.
  - split; try done; cbn.
    + by rewrite length_replicate.
    + intros i _ Hi _. apply lookup_replicate. done.
    + intros d n i Hin. by apply not_elem_of_nil in Hin.
  - apply valid_snoc in Hv as (Hv & (i & Hi & Hlt) & Hn & Hs & Ha).
    destruct (IH Hv) as [Hset Hacts Hlen Hinit Hhead Hina Hact].
    rewrite manager_of_snoc. unfold push_activation. rewrite Hset, Hi. split; cbn; try done.
    + by rewrite Hacts.
    + by rewrite length_insert.
    + pose proof (index_of_range _ _ _ Hi). lia.
    + intros j Hj Hjs Hnin. rewrite fmap_app, elem_of_app in Hnin.
      destruct (decide (j = i)) as [->|Hne]; [destruct Hnin; right; cbn; rewrite Hi; left|].
      pose proof (index_of_range _ _ _ Hi). rewrite list_lookup_insert_ne by lia.
      apply Hina; [done..|]. tauto.
    + intros d n j [Hin|Hin]%elem_of_app Hj.
      * destruct (decide (j = i)) as [->|Hne].
        { destruct Hn. rewrite Hi, <- Hj. apply list_elem_of_fmap. by exists (d, n). }
        pose proof (index_of_range _ _ _ Hi). pose proof (index_of_range _ _ _ Hj).
        rewrite list_lookup_insert_ne by lia. by apply (Hact d).
      * apply list_elem_of_singleton in Hin as <-. cbn in *. assert (j = i) as -> by congruence.
        rewrite list_lookup_insert_eq by lia. done.
Qed.

(** [activate_feature] extends the list, if what it asserts holds. *)
Lemma activate_feature_valid s acts d n : valid_activations s acts ->
  valid_activations s (acts ++ [(d, n)]) ->
  activate_feature d n (manager_of s acts) = Ok (manager_of s (acts ++ [(d, n)])).
Proof.
  intros Hv (_ & (i & Hi & Hlt) & Hn & Hs & Ha)%valid_snoc.
  destruct (manager_of_shape _ _ Hv) as [Hset Hacts Hlen Hinit _ Hina _].
  rewrite manager_of_snoc. unfold activate_feature, push_activation. cbn [fst snd] in *.
  rewrite Hinit, Hset, Hacts. cbn [EOS_ASSERT mbind result_bind]. rewrite Hi.
  pose proof (index_of_range _ _ _ Hi) as Hr. unfold index_of in Hi.
  apply bind_Some in Hi as (f & Hf & (b & Hb & [= <-])%bind_Some). rewrite Hf.
  assert (match last acts with
          | Some l => EOS_ASSERT (l.2 <=? n) protocol_feature_exception
          | None => mret tt
          end = Ok tt) as ->.
  { destruct acts as [|x acts _] using rev_ind; [done|]. rewrite last_snoc.
    apply Forall_app in Hs as [_ Hs]. rewrite Forall_singleton in Hs. cbn in Hs.
    apply Z.leb_le in Hs. by rewrite Hs. }
  cbn [mbind result_bind]. rewrite Hb, (Hina (feature_index b)); [|lia|done|].
  - cbn. by rewrite Z.eqb_refl.
  - unfold index_of at 1 in Hn. rewrite Hf in Hn. cbn in Hn. rewrite Hb in Hn. done.
Qed.

Lemma activate_feature_inv s acts d n m : valid_activations s acts -> n < not_active ->
  activate_feature d n (manager_of s acts) = Ok m ->
  valid_activations s (acts ++ [(d, n)]) /\ m = manager_of s (acts ++ [(d, n)]).
Proof.
  intros Hv Ha E. destruct (manager_of_shape _ _ Hv) as [Hset Hacts Hlen Hinit _ Hina Hact].
  pose proof E as E0. unfold activate_feature in E. rewrite Hinit, Hset, Hacts in E.
  cbn [EOS_ASSERT mbind result_bind] in E.
  destruct (recognized_protocol_features s !! d) as [f|] eqn:Hf; [|done].
  apply bind_ok_inv in E as ([] & Hlast & E). destruct (builtin_feature f) as [b|] eqn:Hb; [|done].
  destruct (_ !! Z.to_nat (feature_index b)) as [e|] eqn:He; [|done].
  apply bind_ok_inv in E as ([] & Hna%EOS_ASSERT_ok & _). apply Z.eqb_eq in Hna.
  assert (index_of s d = Some (feature_index b)) as Hi by (unfold index_of; rewrite Hf; cbn; by rewrite Hb).
  assert (valid_activations s (acts ++ [(d, n)])) as Hv'.
  { apply valid_snoc. split_and!; [done| | | |done].
    - exists (feature_index b). split; [done|]. rewrite <- Hlen. by eapply lookup_lt_Some.
    - cbn [fst]. rewrite Hi. intros (x & Hx & Hin)%list_elem_of_fmap. cbn in Hx.
      destruct x as [d' n']. cbn in Hx. pose proof (Hact _ _ _ Hin (eq_sym Hx)) as Hx'.
      rewrite He in Hx'. cbn in Hx'. injection Hx' as Hx'.
      pose proof (va_active _ _ Hv) as Hall. eapply Forall_forall in Hall; [|exact Hin]. cbn in Hall. lia.
    - destruct acts as [|x acts _] using rev_ind; [constructor|]. rewrite last_snoc in Hlast.
      apply EOS_ASSERT_ok, Z.leb_le in Hlast. cbn.
      apply valid_snoc in Hv as (_ & _ & _ & Hs & _). apply Forall_app. rewrite Forall_singleton.
      split; [|done]. eapply Forall_impl; [exact Hs|]. cbn. intros y Hy. lia. }
  split; [done|]. rewrite (activate_feature_valid s acts d n Hv Hv') in E0. congruence.
Qed.

(** ** Popping blocks *)

Lemma valid_length s acts : valid_activations s acts -> (length acts <= size_of s)%nat.
Proof.
  intros [H1 H2 _ _]. rewrite <- (length_fmap (index_of s ∘ fst)).
  assert ((index_of s ∘ fst) <$> acts ⊆ (fun i => Some (Z.of_nat i)) <$> seq 0 (size_of s)) as Hsub.
  { intros o (x & -> & Hx)%list_elem_of_fmap. eapply Forall_forall in H1 as (i & Hi & Hlt); [|exact Hx].
    apply list_elem_of_fmap. exists (Z.to_nat i). pose proof (index_of_range _ _ _ Hi). cbn. rewrite Hi.
    split; [f_equal; lia|]. apply elem_of_seq. lia. }
  pose proof (submseteq_length _ _ (NoDup_submseteq _ _ H2 Hsub)) as Hlen.
  rewrite !length_fmap, length_seq in Hlen. by rewrite length_fmap.
Qed.

Definition before (n : Z) (acts : list (digest_type * Z)) : list (digest_type * Z) :=
  filter (fun x => x.2 <= n) acts.

Lemma before_snoc s n acts x : valid_activations s (acts ++ [x]) ->
  (x.2 <= n /\ before n (acts ++ [x]) = acts ++ [x]) \/
  (n < x.2 /\ before n (acts ++ [x]) = before n acts).
Proof.
  intros (_ & _ & _ & Hs & _)%valid_snoc. unfold before. rewrite filter_app, filter_cons.
  destruct (decide (x.2 <= n)) as [Hle|Hgt]; [left|right]; (split; [lia|]).
  - f_equal. apply list_filter_all. intros y Hy. eapply Forall_forall in Hs; [|exact Hy]. cbn in Hs. lia.
  - cbn. by rewrite app_nil_r.
Qed.

Lemma pop_builtins_spec s n acts fuel : valid_activations s acts -> (length acts < fuel)%nat ->
  pop_builtins fuel n (head_of_builtin_activation_list (manager_of s acts))
    (builtin_protocol_features (manager_of s acts)) =
  Ok (head_of_builtin_activation_list (manager_of s (before n acts)),
      builtin_protocol_features (manager_of s (before n acts))).
Proof.
  revert fuel. induction acts as [|x acts IH] using rev_ind; intros fuel Hv Hfuel.
  - destruct fuel; [lia|]. done.
  - rewrite length_app in Hfuel. cbn in Hfuel. destruct fuel as [|fuel]; [lia|].
    pose proof (before_snoc s n acts x Hv) as Hb. pose proof Hv as (Hv0 & (i & Hi & Hlt) & Hn & _)%valid_snoc.
    pose proof (index_of_range _ _ _ Hi) as Hr.
    destruct (manager_of_shape _ _ Hv0) as [Hset _ Hlen _ _ Hina _].
    assert (manager_of s (acts ++ [x]) = mk_manager s (activated_protocol_features (manager_of s acts) ++ [x])
      (<[Z.to_nat i := mk_entry (head_of_builtin_activation_list (manager_of s acts)) x.2]>
        (builtin_protocol_features (manager_of s acts))) i (initialized (manager_of s acts))) as Hm.
    { rewrite manager_of_snoc. unfold push_activation. by rewrite Hset, Hi. }
    cbn [pop_builtins]. rewrite Hm. cbn [head_of_builtin_activation_list builtin_protocol_features].
    rewrite (proj2 (Z.eqb_neq i no_previous)) by lia. rewrite list_lookup_insert_eq by lia.
    cbn [activation_block_num previous].
    destruct Hb as [(Hle & ->)|(Hgt & ->)].
    + rewrite (proj2 (Z.leb_le _ _) Hle). by rewrite Hm.
    + rewrite (proj2 (Z.leb_gt _ _) Hgt), list_insert_insert_eq, list_insert_id; [apply IH; [done|lia]|].
      apply (Hina i); [lia|done|by rewrite <- Hi].
Qed.

Lemma pop_activated_spec s n acts : valid_activations s acts ->
  rev (pop_activated n (rev acts)) = before n acts.
Proof.
  induction acts as [|x acts IH] using rev_ind; intros Hv; [done|].
  pose proof (before_snoc s n acts x Hv) as Hb. apply valid_snoc in Hv as (Hv & _).
  rewrite rev_unit. cbn [pop_activated]. destruct Hb as [(Hle & ->)|(Hgt & ->)].
  - rewrite (proj2 (Z.ltb_ge _ _) Hle). cbn. by rewrite rev_involutive.
  - rewrite (proj2 (Z.ltb_lt _ _) Hgt). by apply IH.
Qed.

Lemma before_valid s n acts : valid_activations s acts -> valid_activations s (before n acts).
Proof.
  induction acts as [|x acts IH] using rev_ind; intros Hv; [done|].
  destruct (before_snoc s n acts x Hv) as [(_ & ->)|(_ & ->)]; [done|].
  apply IH. by apply valid_snoc in Hv as [? _].
Qed.

Lemma popped_blocks_to_spec s n acts : valid_activations s acts ->
  popped_blocks_to n (manager_of s acts) = Ok (manager_of s (before n acts)).
Proof.
  intros Hv. destruct (manager_of_shape _ _ Hv) as [Hset Hacts Hlen Hinit _ _ _].
  unfold popped_blocks_to. rewrite Hinit. cbn [EOS_ASSERT mbind result_bind].
  rewrite (pop_builtins_spec s n acts) by (done || (rewrite Hlen; pose proof (valid_length _ _ Hv); lia)).
  cbn [mbind result_bind]. rewrite Hacts, (pop_activated_spec s) by done.
  destruct (manager_of_shape _ _ (before_valid s n acts Hv)) as [Hset' Hacts' _ Hinit' _ _ _].
  rewrite Hset. f_equal. destruct (manager_of s (before n acts)). cbn in *. congruence.
Qed.

(** ** The operations *)

Lemma iter_activate s acts l m : valid_activations s acts -> Forall (fun x => x.2 < not_active) l ->
  iterM (fun x => activate x.1 x.2) l (manager_of s acts) = (Ok tt, m) ->
  valid_activations s (acts ++ l) /\ m = manager_of s (acts ++ l).
Proof.
  revert acts. induction l as [|[d n] l IH]; intros acts Hv Hl E.
  - cbn in E. injection E as <-. by rewrite app_nil_r.
  - apply Forall_cons in Hl as [Hn Hl]. cbn [iterM] in E. apply stateful_bind_ok in E as ([] & m1 & E1 & E).
    unfold activate in E1. cbn [fst snd] in *. destruct (activate_feature d n (manager_of s acts)) as [m2|] eqn:Ea; [|done].
    injection E1 as <-. destruct (activate_feature_inv _ _ _ _ _ Hv Hn Ea) as [Hv1 ->].
    destruct (IH _ Hv1 Hl E) as [Hv2 ->]. by rewrite <- app_assoc in Hv2 |- *.
Qed.

Lemma init_spec s l m : Forall (fun x => x.2 < not_active) l -> init l (new_manager s) = (Ok tt, m) ->
  valid_activations s l /\ m = manager_of s l.
Proof.
  intros Hl E. unfold init in E. inv_st. unfold activate_all in E.
  destruct (iterM _ l _) as [[[]|e] m'] eqn:Ei; [|done]. injection E as <-.
  apply (iter_activate s [] l m'); [|done|exact Ei].
  split; constructor.
Qed.

(** Popping blocks takes back exactly the activations of their features. *)
Lemma popped_blocks_to_undoes (s : protocol_feature_set) (old new : list (digest_type * Z)) (n : Z)
    (m m' : protocol_feature_manager) :
  Forall (fun x => x.2 < not_active) (old ++ new) ->
  Forall (fun x => x.2 <= n) old -> Forall (fun x => n < x.2) new ->
  init old (new_manager s) = (Ok tt, m) ->
  iterM (fun x => activate x.1 x.2) new m = (Ok tt, m') ->
  popped_blocks_to n m' = Ok m.
Proof.
  intros [Ha Ha']%Forall_app Hold Hnew Ei En. destruct (init_spec _ _ _ Ha Ei) as [Hv ->].
  destruct (iter_activate _ _ _ _ Hv Ha' En) as [Hv' ->]. rewrite popped_blocks_to_spec by done.
  do 2 f_equal. unfold before. rewrite filter_app.
  rewrite (list_filter_all _ old) by (by apply Forall_forall).
  rewrite (list_filter_none _ new), app_nil_r; [done|].
  intros x Hx. eapply Forall_forall in Hnew; [|exact Hx]. cbn in Hnew. lia.
Qed.

(** ** The set of features *)

Lemma feature_index_inj b1 b2 : feature_index b1 = feature_index b2 -> b1 = b2.
Proof. destruct b1, b2; done. Qed.

(** What [add_feature] builds: the vector has the features by their kinds, every
    dependency is recognized, among them one of each expected kind, and no
    feature depends on itself through others. *)
Record set_ok (s : protocol_feature_set) : Prop := {
  so_key : forall d f, recognized_protocol_features s !! d = Some f -> feature_digest f = d;
  so_builtin : forall d f, recognized_protocol_features s !! d = Some f ->
    exists b, builtin_feature f = Some b /\
      recognized_builtin_protocol_features s !! Z.to_nat (feature_index b) = Some (Some d);
  so_vector : forall i d, recognized_builtin_protocol_features s !! i = Some (Some d) ->
    exists f b, recognized_protocol_features s !! d = Some f /\ builtin_feature f = Some b /\
      Z.to_nat (feature_index b) = i;
  so_expected : forall d f b spec e, recognized_protocol_features s !! d = Some f ->
    builtin_feature f = Some b -> find_spec b = Some spec -> e ∈ builtin_dependencies spec ->
    exists d' f', d' ∈ dependencies f /\ recognized_protocol_features s !! d' = Some f' /\
      builtin_feature f' = Some e;
  so_rank : exists rank : digest_type -> nat, forall d f, recognized_protocol_features s !! d = Some f ->
    (rank d < size (recognized_protocol_features s))%nat /\
    forall d', d' ∈ dependencies f -> is_Some (recognized_protocol_features s !! d') /\ (rank d' < rank d)%nat;
}.

Lemma set_ok_empty : set_ok empty_set.
Proof. split; try done. by exists (fun _ => O). Qed.

(** The expected kinds that the loop of [add_feature] finds *)
Lemma satisfy_spec s expected l acc sat : foldM (satisfy s expected) acc l = Ok sat -> NoDup acc ->
  (forall b, b ∈ acc -> b ∈ expected) ->
  NoDup sat /\ (forall b, b ∈ sat -> b ∈ expected) /\
  (forall d, d ∈ l -> is_Some (recognized_protocol_features s !! d)) /\
  (forall b, b ∈ sat -> b ∈ acc \/ exists d f, d ∈ l /\ recognized_protocol_features s !! d = Some f /\
     builtin_feature f = Some b).
Proof.
  revert acc. induction l as [|d l IH]; intros acc E Hnd Hexp; cbn in E.
  - injection E as <-. split_and!; try done; [|eauto]. intros d Hd. by apply not_elem_of_nil in Hd.
  - apply bind_ok_inv in E as (acc1 & Hs & E). unfold satisfy in Hs.
    destruct (recognized_protocol_features s !! d) as [f|] eqn:Hd; [|done].
    assert (NoDup acc1 /\ (forall b, b ∈ acc1 -> b ∈ expected) /\
      (forall b, b ∈ acc1 -> b ∈ acc \/ builtin_feature f = Some b)) as (Hnd1 & Hexp1 & Hfrom).
    { destruct (builtin_feature f) as [b|]; [|injection Hs as <-; naive_solver].
      destruct (bool_decide_reflect (b ∈ expected)) as [Hb|]; [|injection Hs as <-; naive_solver].
      destruct (bool_decide_reflect (b ∉ acc)) as [Hb'|]; cbn in Hs; injection Hs as <-; [|naive_solver].
      split_and!; [by constructor|set_solver..]. }
    destruct (IH acc1 E Hnd1 Hexp1) as (H1 & H2 & H3 & H4). split_and!; [done..| |].
    + intros x [->|Hx]%elem_of_cons; [eauto|auto].
    + intros b Hb. destruct (H4 b Hb) as [Hb1|(d' & f' & Hd' & Hf')].
      * destruct (Hfrom b Hb1) as [|Hfb]; [by left|]. right. exists d, f. split; [left|done].
      * right. exists d', f'. split; [by right|done].
Qed.

Lemma builtin_dependencies_nodup b spec : find_spec b = Some spec -> NoDup (builtin_dependencies spec).
Proof. destruct b; vm_compute; intros [= <-]; repeat constructor; set_solver. Qed.

Lemma set_ok_insert s d f b spec v : set_ok s -> recognized_protocol_features s !! d = None ->
  feature_digest f = d -> builtin_feature f = Some b -> find_spec b = Some spec ->
  mjoin (recognized_builtin_protocol_features s !! Z.to_nat (feature_index b)) = None ->
  (forall i y, v !! i = Some (Some y) <->
     if decide (i = Z.to_nat (feature_index b)) then y = d
     else recognized_builtin_protocol_features s !! i = Some (Some y)) ->
  (forall d', d' ∈ dependencies f -> is_Some (recognized_protocol_features s !! d')) ->
  (forall e, e ∈ builtin_dependencies spec -> exists d' f', d' ∈ dependencies f /\
     recognized_protocol_features s !! d' = Some f' /\ builtin_feature f' = Some e) ->
  set_ok (mk_set (<[d := f]> (recognized_protocol_features s)) v).
Proof.
  intros [Hkey Hb Hv He (rank & Hr)] Hnew Hd Hfb Hspec Hfree Hvec Hdeps Hexp.
  assert (forall d' f', recognized_protocol_features s !! d' = Some f' -> d' <> d) as Hne by naive_solver.
  split; cbn [recognized_protocol_features recognized_builtin_protocol_features].
  - intros d' f' [[<- <-]|[_ H]]%lookup_insert_Some; [done|eauto].
  - intros d' f' [[<- <-]|[_ H]]%lookup_insert_Some.
    + exists b. split; [done|]. apply Hvec. by rewrite decide_True.
    + destruct (Hb _ _ H) as (b' & Hfb' & Hx). exists b'. split; [done|]. apply Hvec.
      rewrite decide_False; [done|]. intros Heq. by rewrite Heq in Hx; rewrite Hx in Hfree.
  - intros i y Hy%Hvec. destruct (decide _) as [->|Hi]; subst.
    + exists f, b. by rewrite lookup_insert_eq.
    + destruct (Hv _ _ Hy) as (f' & b' & H1 & H2 & H3). exists f', b'.
      by rewrite lookup_insert_ne by (symmetry; eauto).
  - intros d' f' b' spec' e H Hfb' Hspec' Hin.
    assert (exists d'' f'', d'' ∈ dependencies f' /\ recognized_protocol_features s !! d'' = Some f'' /\
      builtin_feature f'' = Some e) as (d'' & f'' & H1 & H2 & H3).
    { apply lookup_insert_Some in H as [[<- <-]|[_ H]]; [|by eapply He].
      apply Hexp. rewrite Hfb in Hfb'. injection Hfb' as <-. rewrite Hspec in Hspec'. by injection Hspec' as <-. }
    exists d'', f''. by rewrite lookup_insert_ne by (symmetry; eauto).
  - exists (fun x => if decide (x = d) then size (recognized_protocol_features s) else rank x).
    rewrite map_size_insert_None by done. intros d' f' [[<- <-]|[Hdd H]]%lookup_insert_Some.
    + rewrite decide_True by done. split; [lia|]. intros x Hx. destruct (Hdeps x Hx) as [fx Hfx].
      rewrite lookup_insert_ne by (symmetry; eauto). rewrite decide_False by eauto.
      split; [done|]. by apply (Hr x fx).
    + rewrite decide_False by done. destruct (Hr _ _ H) as [Hlt Hx]. split; [lia|]. intros x Hin.
      destruct (Hx x Hin) as [[fx Hfx] Hlt']. rewrite lookup_insert_ne by (symmetry; eauto).
      by rewrite decide_False by eauto.
Qed.

Lemma add_feature_ok digest f s x s' : set_ok s -> add_feature digest f s = Ok (x, s') -> set_ok s'.
Proof.
  intros Hs E. unfold add_feature in E. destruct (find_spec (b_codename f)) as [spec|] eqn:Hspec; [|done].
  apply bind_ok_inv in E as ([] & Hfree%EOS_ASSERT_ok & E). apply bool_decide_eq_true in Hfree.
  apply bind_ok_inv in E as (sat & Hsat & E). apply bind_ok_inv in E as ([] & Hlen%EOS_ASSERT_ok & E).
  apply bind_ok_inv in E as ([] & Hnew%EOS_ASSERT_ok & E). apply bool_decide_eq_true in Hnew.
  apply Nat.leb_le in Hlen. injection E as <- <-.
  destruct (satisfy_spec _ _ _ _ _ Hsat) as (Hnd & Hexp & Hdeps & Hfound); [constructor|set_solver|].
  eapply set_ok_insert; cbn; try done.
  - intros i y. set (v := recognized_builtin_protocol_features s) in *.
    destruct (decide (i = _)) as [->|Hi].
    + rewrite list_lookup_insert_eq by (rewrite length_app, length_replicate; lia). naive_solver.
    + rewrite list_lookup_insert_ne, lookup_app by done. destruct (v !! i); [done|].
      split; [|done]. intros [? _]%lookup_replicate. done.
  - intros d' Hd'. apply Hdeps. by apply elem_of_elements.
  - intros e He. assert (e ∈ sat) as Hes.
    { assert (sat ⊆+ builtin_dependencies spec) as Hsub by (by apply NoDup_submseteq).
      apply (submseteq_length_Permutation _ _ Hsub) in Hlen. by rewrite Hlen. }
    destruct (Hfound e Hes) as [Hx|(d' & f' & Hd' & Hf')]; [by apply not_elem_of_nil in Hx|].
    exists d', f'. by rewrite <- elem_of_elements.
Qed.

(** The kinds identify the features. *)
Lemma index_of_ok s d f : set_ok s -> recognized_protocol_features s !! d = Some f ->
  exists i, index_of s d = Some i /\ (Z.to_nat i < size_of s)%nat.
Proof.
  intros Hs Hf. destruct (so_builtin _ Hs _ _ Hf) as (b & Hb & Hv). exists (feature_index b).
  split; [unfold index_of; rewrite Hf; cbn; by rewrite Hb|]. by eapply lookup_lt_Some.
Qed.

Lemma index_of_inj s d d' i : set_ok s -> index_of s d = Some i -> index_of s d' = Some i -> d = d'.
Proof.
  unfold index_of. intros Hs (f & Hf & (b & Hb & [= <-])%bind_Some)%bind_Some
    (f' & Hf' & (b' & Hb' & [= Hi])%bind_Some)%bind_Some.
  apply feature_index_inj in Hi as ->.
  destruct (so_builtin _ Hs _ _ Hf) as (b1 & Hb1 & H1). destruct (so_builtin _ Hs _ _ Hf') as (b2 & Hb2 & H2).
  congruence.
Qed.

End FeatureActivation.
