(* ===== verification/FeatureLifecycle.v ===== *)
(** * The life of a protocol feature: preactivation, activation, failure

    [ProtocolFeatures] over whole blocks.  [chain_ok] ties the manager, the
    activated and the preactivated features of the state and the whitelist of
    intrinsics together; the operations of the controller keep it.  Every
    activated feature comes after its dependencies, what was preactivated can be
    activated, and a block that fails to start changes nothing. *)

From S2P Require Import Prelude Merkle ProtocolFeatures FeatureActivation.

Module FeatureLifecycle.
Import ProtocolFeatures FeatureActivation.

(** ** The whitelist is a set of names *)

Section whitelist.
Context (hash : string -> Z).

Record white_ok (l : whitelisted_intrinsics_type) : Prop := {
  wl_hash : Forall (fun x => x.1 = hash x.2) l;
  wl_sorted : StronglySorted (fun x y => x.1 <= y.1) l;
}.

Lemma find_intrinsic_helper_spec h name l : StronglySorted (fun x y => x.1 <= y.1) l ->
  Forall (fun x => h <= x.1) l -> find_intrinsic_helper h name l = bool_decide ((h, name) ∈ l).
Proof.
  induction l as [|[k m] l IH]; intros Hs Hh; cbn [find_intrinsic_helper]; [done|].
  apply StronglySorted_cons in Hs as [Hk Hs]. apply Forall_cons in Hh as [Hhk Hh]. cbn in *.
  destruct (k =? h) eqn:Ek; bool_to_prop.
  - subst k. rewrite IH by done. apply bool_decide_eq_true_2 || idtac.
    destruct (bool_decide_reflect (m = name)) as [->|Hne]; cbn.
    + symmetry. apply bool_decide_eq_true. left.
    + apply bool_decide_ext. rewrite elem_of_cons. naive_solver.
  - symmetry. apply bool_decide_eq_false. intros [Heq|Hin]%elem_of_cons; [congruence|].
    eapply Forall_forall in Hk; [|exact Hin]. cbn in Hk. lia.
Qed.

Lemma from_lower_bound_spec h l : StronglySorted (fun x y => x.1 <= y.1) l ->
  StronglySorted (fun x y => x.1 <= y.1) (from_lower_bound h l) /\
  Forall (fun x => h <= x.1) (from_lower_bound h l) /\
  forall name, (h, name) ∈ from_lower_bound h l <-> (h, name) ∈ l.
Proof.
  induction l as [|[k m] l IH]; intros Hs; cbn [from_lower_bound]; [split_and!; [constructor|constructor|done]|].
  pose proof Hs as [Hk Hs']%StronglySorted_cons. cbn [fst]. destruct (k <? h) eqn:E; bool_to_prop.
  - destruct (IH Hs') as (H1 & H2 & H3). split_and!; [done..|]. intros name. rewrite H3, elem_of_cons.
    split; [by right|]. intros [Heq|]; [|done]. injection Heq as -> _. lia.
  - split_and!; [done| |done]. constructor; [done|]. eapply Forall_impl; [exact Hk|]. cbn. intros x Hx. lia.
Qed.

Lemma find_intrinsic_spec l name : white_ok l ->
  find_intrinsic l (hash name) name = bool_decide (name ∈ l.*2).
Proof.
  intros [Hh Hs]. unfold find_intrinsic.
  destruct (from_lower_bound_spec (hash name) l Hs) as (H1 & H2 & H3).
  rewrite find_intrinsic_helper_spec by done. apply bool_decide_ext. rewrite H3, list_elem_of_fmap.
  split; [by exists (hash name, name)|]. intros ([k m] & -> & Hin).
  eapply Forall_forall in Hh; [|exact Hin]. cbn in *. by subst.
Qed.

Lemma emplace_perm h name l : emplace_intrinsic h name l ≡ₚ (h, name) :: l.
Proof.
  induction l as [|x l IH]; cbn; [done|]. destruct (h <? x.1); [done|]. rewrite IH. apply Permutation_swap.
Qed.

Lemma emplace_ok l name : white_ok l -> white_ok (emplace_intrinsic (hash name) name l).
Proof.
  intros [Hh Hs]. split.
  - rewrite emplace_perm. by constructor.
  - induction l as [|x l IH]; cbn; [repeat constructor|].
    apply StronglySorted_cons in Hs as [Hx Hs]. apply Forall_cons in Hh as [_ Hh].
    destruct (hash name <? x.1) eqn:E; bool_to_prop.
    + apply StronglySorted_cons. split; [|by apply StronglySorted_cons]. constructor; [cbn; lia|].
      eapply Forall_impl; [exact Hx|]. cbn. intros y Hy. lia.
    + apply StronglySorted_cons. split; [|by apply IH]. rewrite emplace_perm. by constructor.
Qed.

Lemma add_intrinsic_spec l name : white_ok l ->
  add_intrinsic_to_whitelist hash l name =
    if decide (name ∈ l.*2) then Throw database_exception else Ok (emplace_intrinsic (hash name) name l).
Proof.
  intros Hl. unfold add_intrinsic_to_whitelist. rewrite find_intrinsic_spec by done.
  destruct (decide (name ∈ l.*2)); [by rewrite bool_decide_true|by rewrite bool_decide_false].
Qed.

(** A list of new names is added, and only those. *)
Lemma add_intrinsics_ok names l : white_ok l -> NoDup names -> (forall n, n ∈ names -> n ∉ l.*2) ->
  exists l', foldM (add_intrinsic_to_whitelist hash) l names = Ok l'.
Proof.
  revert l. induction names as [|n names IH]; intros l Hl Hnd Hnew; [eexists; done|].
  apply NoDup_cons in Hnd as [Hn Hnd]. cbn [foldM]. rewrite add_intrinsic_spec, decide_False by (done || (apply Hnew; left)).
  apply IH; [by apply emplace_ok|done|]. intros x Hx. rewrite emplace_perm. cbn. rewrite not_elem_of_cons.
  split; [by intros ->|]. apply Hnew. by right.
Qed.

Lemma add_intrinsics_inv names l l' : white_ok l -> foldM (add_intrinsic_to_whitelist hash) l names = Ok l' ->
  white_ok l' /\ l'.*2 ≡ₚ names ++ l.*2.
Proof.
  revert l. induction names as [|n names IH]; intros l Hl E; cbn [foldM] in E; [by injection E as <-|].
  apply bind_ok_inv in E as (l1 & E1 & E). rewrite add_intrinsic_spec in E1 by done.
  destruct (decide _); [done|]. injection E1 as <-. destruct (IH _ (emplace_ok l n Hl) E) as [H1 H2].
  split; [done|]. rewrite H2, emplace_perm. cbn. symmetry. apply Permutation_middle.
Qed.

(** The whitelist refines the set of its names. *)
Lemma whitelist_is_set (l l' : whitelisted_intrinsics_type) (names : list string) :
  white_ok l -> foldM (add_intrinsic_to_whitelist hash) l names = Ok l' ->
  forall n, is_intrinsic_whitelisted hash l' n = bool_decide (n ∈ names ++ l.*2).
Proof.
  intros Hl E n. destruct (add_intrinsics_inv names l l' Hl E) as [Hl' Hp].
  unfold is_intrinsic_whitelisted. rewrite find_intrinsic_spec by done. apply bool_decide_ext. by rewrite Hp.
Qed.

End whitelist.

(** ** Dependencies come first *)

Definition in_order (s : protocol_feature_set) (l : list digest_type) : Prop :=
  forall l1 d l2, l = l1 ++ d :: l2 ->
    exists f, recognized_protocol_features s !! d = Some f /\ forall d', d' ∈ dependencies f -> d' ∈ l1.

Lemma in_order_snoc s l d : in_order s (l ++ [d]) <-> in_order s l /\
  exists f, recognized_protocol_features s !! d = Some f /\ forall d', d' ∈ dependencies f -> d' ∈ l.
Proof.
  split.
  - intros H. split; [|by apply (H l d [])]. intros l1 x l2 ->. apply (H l1 x (l2 ++ [d])).
    by rewrite <- app_assoc.
  - intros [H Hd] l1 x l2 Heq. destruct l2 as [|y l2 _] using rev_ind.
    + apply app_inj_tail in Heq as [-> ->]. done.
    + rewrite app_comm_cons, app_assoc in Heq. apply app_inj_tail in Heq as [-> _]. by apply (H l1 x l2).
Qed.

Lemma in_order_prefix s l k : in_order s (l ++ k) -> in_order s l.
Proof. induction k as [|x k IH] using rev_ind; [by rewrite app_nil_r|]. rewrite app_assoc, in_order_snoc. tauto. Qed.

Lemma validate_dependencies_spec s d validator : validate_dependencies s d validator = true <->
  exists f, recognized_protocol_features s !! d = Some f /\ forall d', d' ∈ dependencies f -> validator d' = true.
Proof.
  unfold validate_dependencies. destruct (recognized_protocol_features s !! d) as [f|]; [|naive_solver].
  rewrite forallb_forall. split.
  - intros H. exists f. split; [done|]. intros d' Hd'. apply H. by apply list_elem_of_In, elem_of_elements.
  - intros (f' & [= <-] & H) d' Hd'. apply H. by apply elem_of_elements, list_elem_of_In.
Qed.

(** What the check of a block says *)
Lemma check_in_order s t current before new l : check_protocol_features_from s t current before new = Ok tt ->
  (forall d, d ∈ l <-> d ∈ current \/ d ∈ before) -> in_order s l ->
  in_order s (l ++ new) /\ Forall (fun d => is_recognized s d t = ready /\ d ∉ current) new.
Proof.
  revert before l. induction new as [|d new IH]; intros before l E Hl Ho; [by rewrite app_nil_r|].
  cbn [check_protocol_features_from] in E. apply bind_ok_inv in E as ([] & Hr%EOS_ASSERT_ok & E).
  apply bind_ok_inv in E as ([] & Hc%EOS_ASSERT_ok & E). apply bind_ok_inv in E as ([] & Hd%EOS_ASSERT_ok & E).
  apply bool_decide_eq_true in Hr, Hc. apply validate_dependencies_spec in Hd as (f & Hf & Hdeps).
  destruct (IH _ (l ++ [d]) E) as [H1 H2].
  - intros x. rewrite !elem_of_app, Hl. tauto.
  - apply in_order_snoc. split; [done|]. exists f. split; [done|]. intros d' Hd'. apply Hl.
    specialize (Hdeps d' Hd'). apply orb_true_iff in Hdeps as [H%bool_decide_eq_true|H%bool_decide_eq_true]; auto.
  - rewrite <- app_assoc in H1. by split; [|constructor].
Qed.

Lemma check_ok s t current before new l : (forall d, d ∈ l <-> d ∈ current \/ d ∈ before) ->
  in_order s (l ++ new) -> Forall (fun d => is_recognized s d t = ready /\ d ∉ current) new ->
  check_protocol_features_from s t current before new = Ok tt.
Proof.
  revert before l. induction new as [|d new IH]; intros before l Hl Ho Hr; [done|].
  apply Forall_cons in Hr as [[Hd Hc] Hr]. cbn [check_protocol_features_from].
  rewrite (bool_decide_true _ Hd), (bool_decide_true _ Hc). cbn [EOS_ASSERT mbind result_bind].
  rewrite (proj2 (validate_dependencies_spec s d _)).
  - cbn [EOS_ASSERT mbind result_bind]. rewrite cons_middle, app_assoc in Ho.
    apply (IH _ (l ++ [d])); [|done..]. intros x. rewrite !elem_of_app, Hl. tauto.
  - destruct (Ho l d new eq_refl) as (f & Hf & Hdeps). exists f. split; [done|]. intros d' Hd'.
    apply orb_true_iff. rewrite !bool_decide_eq_true. by apply Hl, Hdeps.
Qed.

(** ** The invariant *)

Definition kind_of (s : protocol_feature_set) (d : digest_type) : option builtin_protocol_feature_t :=
  f ← recognized_protocol_features s !! d; builtin_feature f.

Lemma index_of_kind s d : index_of s d = feature_index <$> kind_of s d.
Proof.
  unfold index_of, kind_of. destruct (recognized_protocol_features s !! d) as [f|]; cbn; [|done].
  by destruct (builtin_feature f).
Qed.

(** The handlers add different names, none of them at genesis. *)
Definition all_features : list builtin_protocol_feature_t := builtin_protocol_feature_codenames.*1.
Definition owner (n : string) : option builtin_protocol_feature_t :=
  List.find (fun b => bool_decide (n ∈ activation_intrinsics b)) all_features.

Lemma activation_intrinsics_owner b n : n ∈ activation_intrinsics b -> owner n = Some b /\ n ∉ genesis_intrinsics.
Proof.
  assert (forallb (fun b => forallb (fun n => bool_decide (owner n = Some b) && bool_decide (n ∉ genesis_intrinsics))
    (activation_intrinsics b)) (reserved_private_fork_protocol_features :: all_features) = true) as H
    by (vm_compute; reflexivity).
  rewrite forallb_forall in H. intros Hn.
  assert (In b (reserved_private_fork_protocol_features :: all_features)) as Hb by (destruct b; vm_compute; tauto).
  specialize (H b Hb). rewrite forallb_forall in H. apply list_elem_of_In in Hn. apply H in Hn.
  apply andb_true_iff in Hn as [H1 H2]. by apply bool_decide_eq_true in H1, H2.
Qed.

Lemma activation_intrinsics_nodup b : NoDup (activation_intrinsics b).
Proof. destruct b; vm_compute; repeat constructor; set_solver. Qed.

(** The whitelist has the names of the genesis and those of the active features. *)
Definition names_of (s : protocol_feature_set) (active : list digest_type) (l : whitelisted_intrinsics_type) : Prop :=
  forall n, n ∈ l.*2 <-> n ∈ genesis_intrinsics \/
    exists d b, d ∈ active /\ kind_of s d = Some b /\ n ∈ activation_intrinsics b.

Definition at_block (n : Z) (new : list digest_type) : list (digest_type * Z) := (fun d => (d, n)) <$> new.

(** The features of a set, added one after the other *)
Definition add_features (digest : builtin_protocol_feature -> digest_type) (features : list builtin_protocol_feature)
  : result protocol_feature_set :=
  foldM (fun s f => '(_, s) ← add_feature digest f s; mret s) empty_set features.

Lemma add_features_ok digest features s : add_features digest features = Ok s -> set_ok s.
Proof.
  apply (foldM_inv _ set_ok); [|exact set_ok_empty].
  intros f s1 s2 _ Hs E1. apply bind_ok_inv in E1 as ([x s3] & Ea & [= <-]). by eapply add_feature_ok.
Qed.

Section lifecycle.
Context {W : Type} (hash : string -> Z) (on_replace_deferred : W -> result W).
Implicit Types (c : chain W) (st : starting W) (s : protocol_feature_set).

Definition activated c : list digest_type := (pso_activated (pso c)).*1.
Definition preactivated c : list digest_type := pso_preactivated (pso c).

(** The controller between two blocks, [head] the number of the last one and [t]
    its time: the manager and the database agree on the activations, the
    activated and then the preactivated features are without repetition and have
    their dependencies before them, and the preactivated ones were ready. *)
Record chain_ok (s : protocol_feature_set) (head t : Z) (c : chain W) : Prop := {
  co_set : set_ok s;
  co_valid : valid_activations s (pso_activated (pso c));
  co_manager : protocol_features c = manager_of s (pso_activated (pso c));
  co_head : Forall (fun x => x.2 <= head) (pso_activated (pso c));
  co_order : in_order s (activated c ++ preactivated c);
  co_nodup : NoDup (activated c ++ preactivated c);
  co_ready : Forall (fun d => is_recognized s d t = ready) (preactivated c);
  co_white : white_ok hash (whitelisted_intrinsics (pso c));
  co_names : names_of s (activated c) (whitelisted_intrinsics (pso c));
}.

Lemma on_activation_inv b p w p' w' : white_ok hash (whitelisted_intrinsics p) ->
  on_activation hash on_replace_deferred b (p, w) = Ok (p', w') ->
  pso_activated p' = pso_activated p /\ pso_preactivated p' = pso_preactivated p /\
  white_ok hash (whitelisted_intrinsics p') /\
  (whitelisted_intrinsics p').*2 ≡ₚ activation_intrinsics b ++ (whitelisted_intrinsics p).*2 /\
  (b <> replace_deferred -> w' = w).
Proof.
  intros Hw E. unfold on_activation in E.
  assert (forall l, foldM (add_intrinsic_to_whitelist hash) (whitelisted_intrinsics p) (activation_intrinsics b) = Ok l ->
    white_ok hash l /\ l.*2 ≡ₚ activation_intrinsics b ++ (whitelisted_intrinsics p).*2) as Hadd
    by (intros l; by apply add_intrinsics_inv).
  destruct b; try (apply bind_ok_inv in E as (l & El & [= <- <-]); destruct (Hadd l El); by split_and!).
  - apply bind_ok_inv in E as (w1 & _ & [= <- <-]). by split_and!.
  - injection E as <- <-. by split_and!.
Qed.

Lemma on_activation_ok b p w : white_ok hash (whitelisted_intrinsics p) ->
  (forall n, n ∈ activation_intrinsics b -> n ∉ (whitelisted_intrinsics p).*2) ->
  (b = replace_deferred -> exists w', on_replace_deferred w = Ok w') ->
  exists pw, on_activation hash on_replace_deferred b (p, w) = Ok pw.
Proof.
  intros Hw Hn Hr. unfold on_activation.
  destruct (add_intrinsics_ok hash _ _ Hw (activation_intrinsics_nodup b) Hn) as [l Hl].
  destruct b; try (rewrite Hl; cbn; eauto; fail); [|eauto].
  destruct (Hr eq_refl) as [w' ->]. cbn. eauto.
Qed.

Lemma names_of_snoc s active l l' d b : names_of s active l -> kind_of s d = Some b ->
  l'.*2 ≡ₚ activation_intrinsics b ++ l.*2 -> names_of s (active ++ [d]) l'.
Proof.
  intros Hn Hb Hp n. rewrite Hp, elem_of_app, (Hn n). split.
  - intros [H|[H|(d' & b' & H & H' & H'')]]; [right|by left|right].
    + exists d, b. split; [set_solver|done].
    + exists d', b'. split; [set_solver|done].
  - intros [H|(d' & b' & [H|H%list_elem_of_singleton]%elem_of_app & H' & H'')]; [by right; left| |].
    + right. right. eauto.
    + subst. left. congruence.
Qed.

Lemma kind_of_inj s d d' b : set_ok s -> kind_of s d = Some b -> kind_of s d' = Some b -> d = d'.
Proof. intros Hs H H'. apply (index_of_inj s d d' (feature_index b)); [done|by rewrite index_of_kind, ?H, ?H'..]. Qed.

Lemma names_of_fresh s active l d b n : set_ok s -> names_of s active l -> kind_of s d = Some b -> d ∉ active ->
  n ∈ activation_intrinsics b -> n ∉ l.*2.
Proof.
  intros Hs Hn Hb Hd Hin [H|(d' & b' & H & H' & H'')]%Hn.
  - by apply activation_intrinsics_owner in Hin as [_ ?].
  - apply activation_intrinsics_owner in Hin as [Ho _], H'' as [Ho' _]. rewrite Ho in Ho'. injection Ho' as <-.
    apply Hd. by rewrite (kind_of_inj s d d' b).
Qed.

(** ** The loop of [start_block] *)

(** The loop when the features [sofar] are activated in the block after [head] *)
Record progress (s : protocol_feature_set) (head : Z) (c : chain W) (sofar : list digest_type) (st : starting W)
  : Prop := {
  pg_valid : valid_activations s (pso_activated (pso c) ++ at_block (head + 1) sofar);
  pg_manager : protocol_features (started st) = manager_of s (pso_activated (pso c) ++ at_block (head + 1) sofar);
  pg_activated : pso_activated (pso (started st)) = pso_activated (pso c);
  pg_preactivated : pso_preactivated (pso (started st)) = preactivated c;
  pg_white : white_ok hash (whitelisted_intrinsics (pso (started st)));
  pg_names : names_of s (activated c ++ sofar) (whitelisted_intrinsics (pso (started st)));
  pg_marks : forall d, marks st !! d =
    if decide (d ∈ sofar) then Some true else if decide (d ∈ preactivated c) then Some false else None;
  pg_count : num_preactivated st = length (filter (.∈ preactivated c) sofar);
  pg_num : num_activated st = length sofar;
  pg_world : Forall (fun d => kind_of s d <> Some replace_deferred) sofar -> world (started st) = world c;
}.

Lemma at_block_snoc n sofar d : at_block n (sofar ++ [d]) = at_block n sofar ++ [(d, n)].
Proof. unfold at_block. by rewrite fmap_app. Qed.

Lemma marks_snoc (m : gmap digest_type bool) (sofar pre : list digest_type) d :
  (forall x, m !! x = if decide (x ∈ sofar) then Some true else if decide (x ∈ pre) then Some false else None) ->
  forall x, <[d := true]> m !! x =
    if decide (x ∈ sofar ++ [d]) then Some true else if decide (x ∈ pre) then Some false else None.
Proof.
  intros Hm x. destruct (decide (x = d)) as [->|Hx].
  - rewrite lookup_insert_eq, decide_True; [done|set_solver].
  - rewrite lookup_insert_ne, Hm by done. repeat case_decide; set_solver.
Qed.

Lemma mark_feature_inv s head c sofar st st' p d : progress s head c sofar st -> mark_feature p d st = Ok st' ->
  (forall x, marks st' !! x =
    if decide (x ∈ sofar ++ [d]) then Some true else if decide (x ∈ preactivated c) then Some false else None) /\
  num_preactivated st' = length (filter (.∈ preactivated c) (sofar ++ [d])) /\ num_activated st' = num_activated st.
Proof.
  intros [] E. unfold mark_feature in E. pose proof (pg_marks0 d) as Hd.
  pose proof (marks_snoc _ _ _ d pg_marks0) as Hm.
  rewrite filter_app, length_app, filter_cons, filter_nil. rewrite Hd in E.
  destruct (decide (d ∈ sofar)) as [|Hn]; [done|]. destruct (decide (d ∈ preactivated c)).
  - injection E as <-. split; [exact Hm|]. cbn [num_preactivated num_activated length]. lia.
  - apply bind_ok_inv in E as ([] & _ & [= <-]). split; [exact Hm|]. cbn [num_preactivated num_activated length]. lia.
Qed.

Lemma activate_one_inv s head c sofar st st' d : progress s head c sofar st -> head + 1 < not_active ->
  activate_one hash on_replace_deferred (head + 1) d st = Ok st' -> progress s head c (sofar ++ [d]) st'.
Proof.
  intros Hp Hlt E. unfold activate_one in E. apply bind_ok_inv in E as (f & Ef & E).
  apply bind_ok_inv in E as (st1 & Em & E). destruct (mark_feature_inv _ _ _ _ _ _ _ _ Hp Em) as (Hm & Hc & Hn).
  apply bind_ok_inv in E as ([p w] & Ea & E). apply bind_ok_inv in E as (m & Ev & [= <-]). destruct Hp.
  rewrite pg_manager0 in Ev, Ef. destruct (activate_feature_inv _ _ _ _ _ pg_valid0 Hlt Ev) as [Hv ->].
  pose proof Hv as (_ & (i & Hi & _) & _)%valid_snoc. rewrite <- app_assoc, <- at_block_snoc in Hv |- *.
  rewrite (sh_set _ _ _ (manager_of_shape _ _ pg_valid0)) in Ef.
  rewrite index_of_kind in Hi. apply fmap_Some in Hi as (b & Hk & _). pose proof Hk as Hb. unfold kind_of in Hb.
  unfold get_protocol_feature in Ef. cbn [fst] in Hb. destruct (recognized_protocol_features s !! d) as [f'|]; [|done].
  injection Ef as ->. cbn in Hb. rewrite Hb in Ea.
  destruct (on_activation_inv _ _ _ _ _ pg_white0 Ea) as (H1 & H2 & H3 & H4 & H5).
  split; cbn [started marks num_preactivated num_activated protocol_features pso world]; try done; try congruence.
  - rewrite app_assoc. by eapply names_of_snoc.
  - rewrite length_app. cbn. lia.
  - intros [Hd Hd']%Forall_app. rewrite Forall_singleton in Hd'. rewrite H5 by (intros ->; exact (Hd' Hk)). auto.
Qed.

Lemma activate_features_inv s head c new sofar st st' r : progress s head c sofar st -> head + 1 < not_active ->
  activate_features hash on_replace_deferred (head + 1) new st = (r, st') ->
  exists k, progress s head c (sofar ++ k) st' /\ (r = Ok tt -> k = new).
Proof.
  intros Hp Hlt. revert sofar st Hp. induction new as [|d new IH]; intros sofar st Hp E; cbn [activate_features] in E.
  - injection E as <- <-. exists []. by rewrite app_nil_r.
  - destruct (activate_one _ _ _ d st) as [st1|e] eqn:E1.
    + apply activate_one_inv with (1 := Hp) in E1; [|done]. destruct (IH _ _ E1 E) as (k & Hk & Hr).
      exists (d :: k). rewrite <- app_assoc in Hk. split; [done|]. intros ->. by rewrite Hr.
    + injection E as <- <-. exists []. by rewrite app_nil_r.
Qed.

(** A preactivated feature can be activated. *)
Lemma activate_one_ok s head c sofar st d : set_ok s -> progress s head c sofar st ->
  Forall (fun x => x.2 <= head) (pso_activated (pso c)) -> head + 1 < not_active ->
  is_Some (recognized_protocol_features s !! d) -> d ∉ activated c ++ sofar -> d ∈ preactivated c ->
  (exists w, on_replace_deferred (world c) = Ok w) ->
  exists st', activate_one hash on_replace_deferred (head + 1) d st = Ok st'.
Proof.
  intros Hs Hp Hh Hlt [f Hf] Hd Hpre Hr. destruct (index_of_ok _ _ _ Hs Hf) as (i & Hi & Hil).
  destruct (so_builtin _ Hs _ _ Hf) as (b & Hb & _). destruct Hp.
  assert (kind_of s d = Some b) as Hk by (unfold kind_of; rewrite Hf; exact Hb).
  destruct (on_activation_ok b (pso (started st)) (world (started st))) as [[p w] Ha]; [done| | |].
  { intros n. by apply (names_of_fresh s (activated c ++ sofar) _ d). }
  { intros ->. rewrite pg_world0; [done|]. apply Forall_forall. intros x Hx Hkx. apply Hd.
    rewrite (kind_of_inj s d x replace_deferred) by done. set_solver. }
  unfold activate_one. rewrite pg_manager0, (sh_set _ _ _ (manager_of_shape _ _ pg_valid0)).
  unfold get_protocol_feature, mark_feature. rewrite Hf. cbn [mbind result_bind].
  rewrite pg_marks0, decide_False, decide_True by (done || set_solver). cbn [negb EOS_ASSERT mbind result_bind].
  rewrite Hb, Ha. cbn [mbind result_bind]. rewrite activate_feature_valid; [cbn; eauto|done|].
  apply valid_snoc. cbn [fst snd]. split_and!; [done|by exists i| | |done].
  - intros ([x m] & Heq & Hx)%list_elem_of_fmap. cbn in Heq. rewrite Hi in Heq.
    apply Hd. rewrite (index_of_inj s d x i) by done. apply elem_of_app.
    apply elem_of_app in Hx as [Hx|Hx]; [left; by apply (list_elem_of_fmap_2 fst) in Hx|right].
    unfold at_block in Hx. by apply list_elem_of_fmap in Hx as (y & [= -> _] & Hy).
  - apply Forall_app. split; [eapply Forall_impl; [exact Hh|cbn; lia]|]. apply Forall_fmap, Forall_true. cbn. lia.
Qed.

Lemma activate_features_ok s head c new sofar st : set_ok s -> progress s head c sofar st ->
  Forall (fun x => x.2 <= head) (pso_activated (pso c)) -> head + 1 < not_active ->
  Forall (fun d => is_Some (recognized_protocol_features s !! d) /\ d ∈ preactivated c) new ->
  NoDup ((activated c ++ sofar) ++ new) -> (exists w, on_replace_deferred (world c) = Ok w) ->
  exists st', activate_features hash on_replace_deferred (head + 1) new st = (Ok tt, st').
Proof.
  intros Hs Hp Hh Hlt Hnew Hnd Hr. revert sofar st Hp Hnd.
  induction Hnew as [|d new [Hd Hpre] _ IH]; intros sofar st Hp Hnd; [eexists; done|]. cbn [activate_features].
  destruct (activate_one_ok s head c sofar st d) as [st1 E1]; try assumption.
  { apply NoDup_app in Hnd as (_ & Hnd & _). intros Hx. by apply (Hnd d Hx), list_elem_of_here. }
  rewrite E1. apply (IH (sofar ++ [d])); [by eapply activate_one_inv|]. rewrite cons_middle, app_assoc in Hnd.
  by rewrite (app_assoc _ _ [d]).
Qed.

(** ** A block starts *)

Lemma initial_marks (l : list digest_type) d :
  (list_to_map ((fun x => (x, false)) <$> l) : gmap digest_type bool) !! d = if decide (d ∈ l) then Some false else None.
Proof.
  induction l as [|x l IH]; cbn; [done|]. destruct (decide (d = x)) as [->|Hx].
  - rewrite lookup_insert_eq, decide_True; [done|set_solver].
  - rewrite lookup_insert_ne, IH by done. repeat case_decide; set_solver.
Qed.

Lemma progress_start s head t c : chain_ok s head t c ->
  progress s head c [] (mk_starting (list_to_map ((fun d => (d, false)) <$> preactivated c)) 0 c 0).
Proof.
  intros []. split; cbn [started marks num_preactivated num_activated at_block fmap list_fmap]; rewrite ?app_nil_r; try done.
  intros d. rewrite decide_False by set_solver. apply initial_marks.
Qed.

Lemma before_at_block head acts new : Forall (fun x => x.2 <= head) acts ->
  before head (acts ++ at_block (head + 1) new) = acts.
Proof.
  intros Hh. unfold before, at_block. rewrite filter_app, (list_filter_all _ acts) by (by apply Forall_forall).
  rewrite list_filter_none, app_nil_r; [done|]. intros x (d & -> & _)%list_elem_of_fmap. cbn. lia.
Qed.

Lemma activated_nodup s acts : valid_activations s acts -> NoDup acts.*1.
Proof.
  intros Hv. apply (NoDup_fmap_1 (index_of s)). rewrite <- list_fmap_compose. exact (va_nodup _ _ Hv).
Qed.

Lemma at_block_fst acts n new : (acts ++ at_block n new).*1 = acts.*1 ++ new.
Proof. unfold at_block. rewrite fmap_app, <- list_fmap_compose. f_equal. apply list_fmap_id. Qed.

(** Every preactivated feature is among the activated ones when the counts agree. *)
Lemma counted_included (pre new : list digest_type) : NoDup pre -> NoDup new ->
  length (filter (.∈ pre) new) = length pre -> pre ⊆ new.
Proof.
  intros Hp Hn Hl. assert (filter (.∈ pre) new ≡ₚ pre) as Hperm.
  { apply submseteq_length_Permutation; [|lia]. apply NoDup_submseteq; [by apply NoDup_filter|].
    intros x Hx. by apply list_elem_of_filter in Hx as [? _]. }
  intros x Hx. rewrite <- Hperm in Hx. by apply list_elem_of_filter in Hx as [_ ?].
Qed.

(** The chain when the block has activated its features *)
Lemma progress_end s head t c new st tc : chain_ok s head t c -> progress s head c new st ->
  check_protocol_features s tc (list_to_set (activated c)) new = Ok tt -> (new = [] -> preactivated c = []) ->
  let p := pso (started st) in
  let c' := if decide (new = []) then started st
            else mk_chain (protocol_features (started st))
                   (mk_protocol_state (pso_activated p ++ at_block (head + 1) new) []
                      (whitelisted_intrinsics p) (num_supported_key_types p)) (world (started st)) in
  pso_activated (pso c') = pso_activated (pso c) ++ at_block (head + 1) new /\ preactivated c' = [] /\
  forall t', chain_ok s (head + 1) t' c'.
Proof.
  intros Hc Hp Hck Hnil p c'. destruct Hc, Hp.
  assert (pso_activated (pso c') = pso_activated (pso c) ++ at_block (head + 1) new) as Ha.
  { unfold c', p. case_decide as Hn; cbn; rewrite pg_activated0; [|done]. subst. cbn. by rewrite app_nil_r. }
  assert (preactivated c' = []) as Hpre.
  { unfold c', preactivated. case_decide; cbn; [|done]. rewrite pg_preactivated0. auto. }
  split_and!; [done|done|]. intros t'.
  assert (protocol_features c' = protocol_features (started st) /\
          whitelisted_intrinsics (pso c') = whitelisted_intrinsics p) as [Hm Hw]
    by (unfold c'; by case_decide).
  destruct (check_in_order _ _ _ _ _ (activated c) Hck) as [Ho _].
  { intros d. rewrite elem_of_list_to_set. set_solver. }
  { by eapply in_order_prefix. }
  assert (activated c' = activated c ++ new) as Hact by (unfold activated; by rewrite Ha, at_block_fst).
  split; rewrite ?Hpre, ?Hm, ?Hw, ?Ha, ?app_nil_r, ?Hact; try done.
  - apply Forall_app. split; [eapply Forall_impl; [done|cbn; lia]|]. apply Forall_fmap, Forall_true. cbn. lia.
  - rewrite <- Hact. unfold activated. rewrite Ha. by eapply activated_nodup.
Qed.

Lemma start_block_spec s head t c new r c' tc : chain_ok s head t c -> head + 1 < not_active ->
  check_protocol_features s tc (list_to_set (activated c)) new = Ok tt ->
  start_block_features hash on_replace_deferred head true new c = (r, c') ->
  (forall e, r = Throw e -> c' = c) /\
  (forall n, r = Ok n -> n = length new /\ preactivated c ⊆ new /\ preactivated c' = [] /\
     pso_activated (pso c') = pso_activated (pso c) ++ at_block (head + 1) new /\
     forall t', chain_ok s (head + 1) t' c').
Proof.
  intros Hc Hlt Hck E. pose proof (progress_start _ _ _ _ Hc) as Hp. pose proof Hc as [].
  unfold start_block_features in E. cbn [negb] in E. fold (preactivated c) in E.
  destruct (activate_features _ _ _ new _) as [r1 st] eqn:Ef.
  destruct (activate_features_inv _ _ _ _ _ _ _ _ Hp Hlt Ef) as (k & Hk & Hr). cbn [app] in Hk.
  assert (forall e, (Throw e : result nat, match popped_blocks_to head (protocol_features (started st)) with
      | Ok m => mk_chain m (pso c) (world c)
      | Throw _ => mk_chain (protocol_features (started st)) (pso c) (world c) end) = (Throw e, c)) as Habort.
  { intros e. rewrite (pg_manager _ _ _ _ _ Hk), popped_blocks_to_spec by apply Hk.
    rewrite before_at_block by done. rewrite <- co_manager0. by destruct c. }
  destruct r1 as [[]|e]; [|rewrite Habort in E; injection E as <- <-; by split; intros ? [= ]].
  rewrite (Hr eq_refl) in Hk.
  destruct (bool_decide (length (preactivated c) = 0%nat) || _) eqn:Hguard;
    [|rewrite Habort in E; injection E as <- <-; by split; intros ? [= ]].
  injection E as <- <-.
  assert (NoDup new) as Hnd.
  { pose proof (activated_nodup _ _ (pg_valid _ _ _ _ _ Hk)) as H. rewrite at_block_fst in H.
    by apply NoDup_app in H as (_ & _ & H). }
  assert (preactivated c ⊆ new /\ (new = [] -> preactivated c = [])) as [Hsub Hnil].
  { apply orb_true_iff in Hguard as [H%bool_decide_eq_true|[H1%bool_decide_eq_true H2%bool_decide_eq_true]%andb_true_iff].
    - apply length_zero_iff_nil in H. rewrite H. split; [apply list_subseteq_nil|done].
    - split; [|done]. apply counted_included; [by apply NoDup_app in co_nodup0 as (_ & _ & ?)|done|].
      by rewrite <- H2, (pg_count _ _ _ _ _ Hk). }
  split; [by intros ? [= ]|]. intros n [= <-].
  destruct (progress_end _ _ _ _ _ _ _ Hc Hk Hck Hnil) as (H1 & H2 & H3).
  by split_and!; [apply Hk|..].
Qed.

Lemma is_recognized_later s d t t' : is_recognized s d t = ready -> t <= t' -> is_recognized s d t' = ready.
Proof.
  unfold is_recognized. destruct (recognized_protocol_features s !! d) as [f|]; [|done].
  destruct (enabled f); [|done]. cbn [negb]. destruct (Z.ltb_spec t (earliest_allowed_activation_time f)); [done|].
  intros _ Ht. destruct (Z.ltb_spec t' (earliest_allowed_activation_time f)); [lia|done].
Qed.

Definition building_of (b : building_block) (c : chain W) : Prop :=
  forall d, is_protocol_feature_activated b d = bool_decide (d ∈ activated c).

Lemma preactivate_spec s head t c c' b p d : chain_ok s head t c -> building_of b c ->
  preactivate p t b d c = Ok c' ->
  chain_ok s head t c' /\ pso_activated (pso c') = pso_activated (pso c) /\ preactivated c' = preactivated c ++ [d].
Proof.
  intros [] Hb E. unfold preactivate in E. rewrite co_manager0, (sh_set _ _ _ (manager_of_shape _ _ co_valid0)) in E.
  apply bind_ok_inv in E as ([] & Hr%EOS_ASSERT_ok & E). apply bind_ok_inv in E as ([] & Ha%EOS_ASSERT_ok & E).
  apply bind_ok_inv in E as ([] & Hp%EOS_ASSERT_ok & E). apply bind_ok_inv in E as ([] & Hd%EOS_ASSERT_ok & [= <-]).
  apply bool_decide_eq_true in Hr, Hp. fold (preactivated c) in Hp. rewrite Hb in Ha. apply negb_true_iff, bool_decide_eq_false in Ha.
  split_and!; [|done..]. split; try done; change (preactivated (mk_chain _ (set_preactivated _ _) _)) with (preactivated c ++ [d]).
  - rewrite app_assoc. apply in_order_snoc. split; [done|].
    apply validate_dependencies_spec in Hd as (f & Hf & Hdeps). exists f. split; [done|]. intros d' Hd'.
    specialize (Hdeps d' Hd'). rewrite Hb in Hdeps. apply orb_true_iff in Hdeps as [H%bool_decide_eq_true|H%bool_decide_eq_true];
      apply elem_of_app; auto.
  - rewrite app_assoc. apply NoDup_app. split_and!; [done| |apply NoDup_singleton].
    intros x Hx ->%list_elem_of_singleton. by apply elem_of_app in Hx as [?|?].
  - apply Forall_app. by split; [|apply Forall_singleton].
Qed.

(** ** The life of the features *)

(** A block and the controller while or after it is built *)
Record node := mk_node {
  head_num : Z;
  block_time : Z;
  building : building_block;
  state : chain W;
}.

(** The controller starts at the genesis.  A block starts with features that
    [check_protocol_features] accepts and that are activated or, when that
    throws, not; its transactions preactivate features and change the rest of
    the database; a block is popped, which restores the database of the block
    before it and pops the activations.  The blocks before the last are kept. *)
Inductive reachable (s : protocol_feature_set) : node -> list node -> Prop :=
  | reach_genesis head t p m w :
      genesis_protocol_state hash = Ok p -> init (pso_activated p) (new_manager s) = (Ok tt, m) ->
      reachable s (mk_node head t (mk_building ∅ [] 0) (mk_chain m p w)) []
  | reach_start n h new t tc num c :
      reachable s n h -> block_time n <= t -> head_num n + 1 < not_active ->
      check_protocol_features s tc (list_to_set (activated (state n))) new = Ok tt ->
      start_block_features hash on_replace_deferred (head_num n) true new (state n) = (Ok num, c) ->
      reachable s (mk_node (head_num n + 1) t (mk_building (list_to_set (activated (state n))) new num) c) (n :: h)
  | reach_abort n h new tc e c :
      reachable s n h -> head_num n + 1 < not_active ->
      check_protocol_features s tc (list_to_set (activated (state n))) new = Ok tt ->
      start_block_features hash on_replace_deferred (head_num n) true new (state n) = (Throw e, c) ->
      reachable s (mk_node (head_num n) (block_time n) (building n) c) h
  | reach_preactivate n h producing d c :
      reachable s n h -> preactivate producing (block_time n) (building n) d (state n) = Ok c ->
      reachable s (mk_node (head_num n) (block_time n) (building n) c) h
  | reach_world n h w :
      reachable s n h ->
      reachable s (mk_node (head_num n) (block_time n) (building n)
                     (mk_chain (protocol_features (state n)) (pso (state n)) w)) h
  | reach_pop n n' h m :
      reachable s n (n' :: h) -> popped_blocks_to (head_num n') (protocol_features (state n)) = Ok m ->
      reachable s (mk_node (head_num n') (block_time n') (building n')
                     (mk_chain m (pso (state n')) (world (state n')))) h.

(** The kept blocks are those the last one was built on. *)
Fixpoint linked (s : protocol_feature_set) (n : node) (h : list node) : Prop :=
  chain_ok s (head_num n) (block_time n) (state n) /\ building_of (building n) (state n) /\
  match h with
  | [] => True
  | n' :: h => pso_activated (pso (state n')) = before (head_num n') (pso_activated (pso (state n))) /\ linked s n' h
  end.

Lemma linked_change s n h c : linked s n h -> chain_ok s (head_num n) (block_time n) c ->
  pso_activated (pso c) = pso_activated (pso (state n)) ->
  linked s (mk_node (head_num n) (block_time n) (building n) c) h.
Proof.
  intros Hl Hc Ha. destruct h as [|n' h]; cbn in *.
  - destruct Hl as (_ & Hb & _). split_and!; [done| |done]. intros d. rewrite Hb. unfold activated. by rewrite Ha.
  - destruct Hl as (_ & Hb & H & Hl). rewrite Ha. split_and!; [done| |done|done].
    intros d. rewrite Hb. unfold activated. by rewrite Ha.
Qed.

Lemma genesis_linked s head t p m w : set_ok s -> genesis_protocol_state hash = Ok p ->
  init (pso_activated p) (new_manager s) = (Ok tt, m) ->
  linked s (mk_node head t (mk_building ∅ [] 0) (mk_chain m p w)) [].
Proof.
  intros Hs E Hm. unfold genesis_protocol_state in E. apply bind_ok_inv in E as (l & El & [= <-]).
  apply (add_intrinsics_inv hash) in El as [Hw Hn]; [|split; constructor].
  destruct (init_spec s [] m) as [Hv ->]; [done..|]. cbn. split_and!; [|by intros d|done].
  split; try done; try constructor.
  - intros [|? ?] ? ? [=].
  - intros Hin. left. cbn in Hin. rewrite Hn in Hin. by rewrite app_nil_r in Hin.
  - intros [Hin|(d & b & Hd & _)]; [|by apply not_elem_of_nil in Hd]. cbn. rewrite Hn. by rewrite app_nil_r.
Qed.

Lemma start_linked s n h new t tc num c : linked s n h -> block_time n <= t -> head_num n + 1 < not_active ->
  check_protocol_features s tc (list_to_set (activated (state n))) new = Ok tt ->
  start_block_features hash on_replace_deferred (head_num n) true new (state n) = (Ok num, c) ->
  linked s (mk_node (head_num n + 1) t (mk_building (list_to_set (activated (state n))) new num) c) (n :: h).
Proof.
  intros Hl Ht Hlt Hck E. assert (chain_ok s (head_num n) (block_time n) (state n)) as Hc by (by destruct h, Hl).
  destruct (start_block_spec _ _ _ _ _ _ _ _ Hc Hlt Hck E) as [_ H].
  destruct (H num eq_refl) as (-> & _ & _ & Ha & Hc'). cbn. rewrite Ha. split_and!; [done| | |done].
  - intros d. unfold is_protocol_feature_activated, activated. cbn. rewrite Ha, at_block_fst, firstn_all.
    apply eq_true_iff_eq. rewrite orb_true_iff, !bool_decide_eq_true, elem_of_list_to_set, elem_of_app. done.
  - by rewrite before_at_block by apply Hc.
Qed.

Lemma linked_ok s n h : linked s n h -> chain_ok s (head_num n) (block_time n) (state n) /\ building_of (building n) (state n).
Proof. destruct h; cbn; tauto. Qed.

Lemma pop_linked s n n' h : linked s n (n' :: h) ->
  linked s n' h /\ popped_blocks_to (head_num n') (protocol_features (state n)) = Ok (protocol_features (state n')).
Proof.
  cbn [linked]. intros (Hc & _ & Ha & Hl). split; [done|]. destruct (linked_ok _ _ _ Hl) as [Hc' _].
  rewrite (co_manager _ _ _ _ Hc), (co_manager _ _ _ _ Hc'), Ha. apply popped_blocks_to_spec, Hc.
Qed.

Lemma reachable_linked s n h : set_ok s -> reachable s n h -> linked s n h.
Proof.
  intros Hs. induction 1 as [| |n h new tc e c _ Hl Hlt Hck E|n h pr d c _ Hl E|n h w _ Hl|n n' h m _ Hl E].
  - by apply genesis_linked.
  - by eapply start_linked.
  - destruct (linked_ok _ _ _ Hl) as [Hc _].
    destruct (start_block_spec _ _ _ _ _ _ _ _ Hc Hlt Hck E) as [H _]. rewrite (H e eq_refl). by destruct n.
  - destruct (linked_ok _ _ _ Hl) as [Hc Hb]. destruct (preactivate_spec _ _ _ _ _ _ _ _ Hc Hb E) as (Hc' & Ha & _).
    by apply linked_change.
  - destruct (linked_ok _ _ _ Hl) as [[] _]. apply linked_change; [done|by split|done].
  - destruct (pop_linked _ _ _ _ Hl) as [Hl' E']. rewrite E in E'. injection E' as ->.
    by destruct n' as [hn bt bu [pf ps wo]].
Qed.

Lemma filter_elem_all (l k : list digest_type) : l ⊆ k -> length (filter (.∈ k) l) = length l.
Proof. intros H. by rewrite (list_filter_all _ l). Qed.

Lemma preactivated_accepted s head t c t' : chain_ok s head t c -> t <= t' ->
  check_protocol_features s t' (list_to_set (activated c)) (preactivated c) = Ok tt.
Proof.
  intros [] Ht. apply (check_ok _ _ _ _ _ (activated c)); [|done|].
  - intros d. rewrite elem_of_list_to_set. set_solver.
  - apply Forall_forall. intros d Hd. eapply Forall_forall in co_ready0; [|exact Hd]. split.
    + by eapply is_recognized_later.
    + rewrite elem_of_list_to_set. apply NoDup_app in co_nodup0 as (_ & H & _). intros H'. by apply (H d).
Qed.

Lemma start_preactivated s head t c : chain_ok s head t c -> head + 1 < not_active ->
  (exists w, on_replace_deferred (world c) = Ok w) ->
  exists c', start_block_features hash on_replace_deferred head true (preactivated c) c =
    (Ok (length (preactivated c)), c').
Proof.
  intros Hc Hlt Hr. pose proof (progress_start _ _ _ _ Hc) as Hp. destruct Hc.
  destruct (activate_features_ok s head c (preactivated c) [] _ co_set0 Hp) as [st Ef]; try done.
  - apply Forall_forall. intros d Hd. split; [|done]. eapply Forall_forall in co_ready0; [|exact Hd].
    unfold is_recognized in co_ready0. by destruct (recognized_protocol_features s !! d).
  - by rewrite app_nil_r.
  - destruct (activate_features_inv _ _ _ _ _ _ _ _ Hp Hlt Ef) as (k & Hk & Hkn). rewrite (Hkn eq_refl) in Hk.
    cbn [app] in Hk. unfold start_block_features. cbn [negb]. fold (preactivated c). rewrite Ef.
    rewrite (pg_count _ _ _ _ _ Hk), (pg_num _ _ _ _ _ Hk), filter_elem_all by done.
    rewrite (bool_decide_true (length _ = length _)) by done. rewrite andb_true_r.
    destruct (preactivated c) as [|d l]; cbn; eauto.
Qed.

(** C4: the activation of protocol features stays consistent through every
    history of the controller from its genesis, with blocks that start and
    activate features, blocks whose start throws in the middle of that,
    transactions that preactivate features and blocks that are popped.  The
    manager in memory is the one that [init] builds from the activations in the
    database; no feature is activated or preactivated twice; every feature has
    its dependencies activated or preactivated before it; the intrinsics on the
    whitelist are those of the genesis and of the active features.  Popping the
    last block leaves the manager as it was at the end of the block before. *)
Theorem features_stay_consistent (digest : builtin_protocol_feature -> digest_type)
    (features : list builtin_protocol_feature) (s : protocol_feature_set) (n : node) (h : list node) :
  add_features digest features = Ok s -> reachable s n h ->
  chain_ok s (head_num n) (block_time n) (state n) /\
  forall n', head h = Some n' ->
    popped_blocks_to (head_num n') (protocol_features (state n)) = Ok (protocol_features (state n')).
Proof.
  intros Hs%add_features_ok Hr. pose proof (reachable_linked _ _ _ Hs Hr) as Hl. split; [apply (linked_ok _ _ _ Hl)|].
  intros n' Hh. destruct h as [|x h]; [done|]. injection Hh as ->. by apply (pop_linked s n n' h).
Qed.

(** C10: what contracts preactivate is activated.  Whatever the history, the
    preactivated features, in the order in which they were preactivated, are
    accepted by [check_protocol_features] at every later time, and a block that
    starts with them activates them all: no handler and no assertion of the loop
    throws, as long as the handler of [REPLACE_DEFERRED] does not. *)
Theorem preactivated_features_activate (digest : builtin_protocol_feature -> digest_type)
    (features : list builtin_protocol_feature) (s : protocol_feature_set) (n : node) (h : list node) (t : Z) :
  add_features digest features = Ok s -> reachable s n h -> head_num n + 1 < not_active -> block_time n <= t ->
  (exists w, on_replace_deferred (world (state n)) = Ok w) ->
  check_protocol_features s t (list_to_set (activated (state n))) (preactivated (state n)) = Ok tt /\
  exists c, start_block_features hash on_replace_deferred (head_num n) true (preactivated (state n)) (state n) =
      (Ok (length (preactivated (state n))), c) /\
    activated c = activated (state n) ++ preactivated (state n) /\ preactivated c = [].
Proof.
  intros Hs%add_features_ok Hr Hlt Ht Hw. pose proof (reachable_linked _ _ _ Hs Hr) as Hl.
  destruct (linked_ok _ _ _ Hl) as [Hc _]. pose proof (preactivated_accepted _ _ _ _ t Hc Ht) as Hck.
  split; [done|]. destruct (start_preactivated _ _ _ _ Hc Hlt Hw) as [c E]. exists c. split; [done|].
  destruct (start_block_spec _ _ _ _ _ _ _ _ Hc Hlt Hck E) as [_ H].
  destruct (H _ eq_refl) as (_ & _ & Hp & Ha & _). split; [|done]. unfold activated at 1. by rewrite Ha, at_block_fst.
Qed.

End lifecycle.
Arguments node : clear implicits.

(** ** A history *)

Definition sample_digest (f : builtin_protocol_feature) : digest_type := Merkle.mk_digest (feature_index (b_codename f)) 0 0 0.
Definition sample_hash (n : string) : Z := Z.of_nat (String.length n).
Definition sample_features : list builtin_protocol_feature :=
  omap (fun b => match make_default_builtin_protocol_feature (fun _ => Merkle.mk_digest 0 0 0 0) b
                         (fun d => Ok (Merkle.mk_digest (feature_index d) 0 0 0)) with
                 | Ok f => Some f | Throw _ => None end)
    [preactivate_feature; replace_deferred; no_duplicate_deferred_id; get_sender].
Definition sample_set : protocol_feature_set :=
  match add_features sample_digest sample_features with Ok s => s | Throw _ => empty_set end.
Definition feature (b : builtin_protocol_feature_t) : digest_type := Merkle.mk_digest (feature_index b) 0 0 0.

Definition sample_chain : chain unit :=
  mk_chain (init [] (new_manager sample_set)).2
    (match genesis_protocol_state sample_hash with Ok p => p | Throw _ => mk_protocol_state [] [] [] 0 end) tt.
Definition sample_genesis : node unit := mk_node 1 0 (mk_building ∅ [] 0) sample_chain.
Definition sample_second : node unit :=
  mk_node 2 5 (mk_building ∅ [feature preactivate_feature] 1)
    (start_block_features sample_hash Ok 1 true [feature preactivate_feature] sample_chain).2.
Definition sample_preactivate (n : node unit) (b : builtin_protocol_feature_t) : node unit :=
  match preactivate false (block_time n) (building n) (feature b) (state n) with
  | Ok c => mk_node (head_num n) (block_time n) (building n) c
  | Throw _ => n
  end.
Definition sample_last : node unit :=
  sample_preactivate (sample_preactivate sample_second replace_deferred) no_duplicate_deferred_id.

Lemma feature_history : reachable sample_hash Ok sample_set sample_last [sample_genesis].
Proof.
  assert (reachable sample_hash Ok sample_set sample_genesis []) as H0.
  { apply reach_genesis; vm_compute; reflexivity. }
  assert (reachable sample_hash Ok sample_set sample_second [sample_genesis]) as H1.
  { apply (reach_start sample_hash Ok sample_set sample_genesis [] [feature preactivate_feature] 5 5 1);
      [exact H0|vm_compute; congruence|vm_compute; reflexivity..]. }
  assert (forall n b c, reachable sample_hash Ok sample_set n [sample_genesis] ->
    preactivate false (block_time n) (building n) (feature b) (state n) = Ok c ->
    reachable sample_hash Ok sample_set (sample_preactivate n b) [sample_genesis]) as Hstep.
  { intros n b c Hn E. unfold sample_preactivate. rewrite E. by apply (reach_preactivate _ _ _ n _ false (feature b)). }
  eapply Hstep; [eapply Hstep; [exact H1|]|]; vm_compute; reflexivity.
Qed.

Lemma features_stay_consistent_witness :
  popped_blocks_to 1 (protocol_features (state sample_last)) = Ok (protocol_features sample_chain).
Proof.
  apply (features_stay_consistent sample_hash Ok sample_digest sample_features sample_set sample_last [sample_genesis])
    with (n' := sample_genesis); [vm_compute; reflexivity|exact feature_history|reflexivity].
Defined.

Lemma preactivated_features_activate_witness :
  preactivated (state sample_last) = [feature replace_deferred; feature no_duplicate_deferred_id] /\
  check_protocol_features sample_set 7 (list_to_set (activated (state sample_last))) (preactivated (state sample_last)) = Ok tt.
Proof.
  split; [vm_compute; reflexivity|].
  apply (preactivated_features_activate sample_hash Ok sample_digest sample_features sample_set sample_last [sample_genesis]);
    [vm_compute; reflexivity|exact feature_history|vm_compute; reflexivity|vm_compute; congruence|eexists; reflexivity].
Defined.

End FeatureLifecycle.
