(* ===== verification/AbiSerializer.v ===== *)
(** * The ABI serializer

    The conversion between binary data and JSON-like values that an ABI
    describes (abi_serializer.cpp, abi_serializer.hpp, abi_def.hpp): the tables
    of an ABI and their validation, the resolution of type names, and the
    encoder and the decoder.  The values [fc::variant], the encoding of the
    built-in types and of the sizes and tags belong to the fc library and are
    arguments; so is the yield function, of which the limit of nested scopes
    remains.  The path of a field for error messages and logging are left out. *)

From Stdlib Require Import String.
From S2P Require Import Prelude.

Module AbiSerializer.

Definition type_name := string.
Definition bytes := list Z.

(** ** The definitions of an ABI *)

Record type_def := mk_type { new_type_name : type_name; td_type : type_name }.
Record field_def := mk_field { field_name : string; field_type : type_name }.
Record struct_def := mk_struct { struct_name : type_name; base : type_name; fields : list field_def }.
Record action_def := mk_action { action_name : Z; action_type : type_name; ricardian_contract : string }.
Record table_def := mk_table {
  table_name : Z;
  index_type : type_name;
  key_names : list string;
  key_types : list type_name;
  table_type : type_name;
}.
Record error_message := mk_error { error_code : Z; error_msg : string }.
Record variant_def := mk_variant { variant_name : type_name; types : list type_name }.
Record action_result_def := mk_result { result_name : Z; result_type : type_name }.

Record abi_def := mk_abi {
  version : string;
  abi_types : list type_def;
  abi_structs : list struct_def;
  abi_actions : list action_def;
  abi_tables : list table_def;
  abi_error_messages : list error_message;
  abi_variants : list variant_def;
  abi_action_results : list action_result_def;
}.

(** ** Names of types *)

Definition ends_with (s suffix : string) : bool :=
  (String.length suffix <=? String.length s)%nat &&
  String.eqb (String.substring (String.length s - String.length suffix) (String.length suffix) s) suffix.

Definition starts_with (s prefix : string) : bool := String.prefix prefix s.

Definition drop_last (n : nat) (s : string) : string := String.substring 0 (String.length s - n) s.

Fixpoint find_last_of (c : Ascii.ascii) (s : string) : option nat :=
  match s with
  | EmptyString => None
  | String x s =>
      match find_last_of c s with
      | Some i => Some (S i)
      | None => if Ascii.eqb x c then Some O else None
      end
  end.

Definition is_digit (c : Ascii.ascii) : bool := (48 <=? Ascii.nat_of_ascii c)%nat && (Ascii.nat_of_ascii c <=? 57)%nat.

Definition is_array (type : type_name) : bool := ends_with type "[]".

(** The loop over the positions from [pos1 + 1] to [pos2] is over the characters
    between them. *)
Definition is_szarray (type : type_name) : bool :=
  match find_last_of "[" type, find_last_of "]" type with
  | Some pos1, Some pos2 =>
      let pos := (pos1 + 1)%nat in
      if (pos =? pos2)%nat then false
      else forallb is_digit (String.list_ascii_of_string (String.substring pos (pos2 - pos) type))
  | _, _ => false
  end.

Definition is_optional (type : type_name) : bool := ends_with type "?".

Definition fundamental_type (type : type_name) : type_name :=
  if is_array type then drop_last 2 type
  else if is_szarray type then String.substring 0 (default O (find_last_of "[" type)) type
  else if is_optional type then drop_last 1 type
  else type.

Definition is_extension (type : type_name) : bool := ends_with type "$".
Definition _remove_bin_extension (type : type_name) : type_name :=
  if is_extension type then drop_last 1 type else type.

(** ** Values *)

(** [fc::variant]: [A] has the values that are neither null nor strings, arrays
    or objects. *)
Inductive fc_variant {A : Type} :=
  | v_null
  | v_atom (a : A)
  | v_string (s : string)
  | v_array (l : list fc_variant)
  | v_object (o : list (string * fc_variant)).
Arguments fc_variant : clear implicits.

Definition is_null {A} (v : fc_variant A) : bool := match v with v_null => true | _ => false end.

(** Objects keep the order of insertion; setting a key that exists replaces its
    value. *)
Fixpoint object_find {A} (key : string) (o : list (string * fc_variant A)) : option (fc_variant A) :=
  match o with
  | [] => None
  | (k, v) :: o => if String.eqb k key then Some v else object_find key o
  end.
Fixpoint object_set {A} (key : string) (v : fc_variant A) (o : list (string * fc_variant A)) : list (string * fc_variant A) :=
  match o with
  | [] => [(key, v)]
  | (k, x) :: o => if String.eqb k key then (k, v) :: o else (k, x) :: object_set key v o
  end.

(** The functions of a built-in type: whether it is an array or an optional of
    the type is the second and the third argument. *)
Record coder (A : Type) := mk_coder {
  unpack : bytes -> bool -> bool -> option (fc_variant A * bytes);
  pack : fc_variant A -> bool -> bool -> result bytes;
}.
Arguments mk_coder {A}.
Arguments unpack {A}.
Arguments pack {A}.

(** What else fc packs: sizes and tags ([fc::unsigned_int]) and the flag of an
    optional; and [as<bytes>]. *)
Record raw (A : Type) := mk_raw {
  pack_unsigned : Z -> bytes;
  unpack_unsigned : bytes -> option (Z * bytes);
  pack_flag : bool -> bytes;
  unpack_flag : bytes -> option (bool * bytes);
  as_bytes : fc_variant A -> result bytes;
}.
Arguments mk_raw {A}.
Arguments pack_unsigned {A}.
Arguments unpack_unsigned {A}.
Arguments pack_flag {A}.
Arguments unpack_flag {A}.
Arguments as_bytes {A}.

(** ** The serializer *)

Record abi_serializer (A : Type) := mk_serializer {
  built_in_types : gmap type_name (coder A);
  typedefs : gmap type_name type_name;
  structs : gmap type_name struct_def;
  actions : gmap Z type_name;
  tables : gmap Z type_name;
  error_messages : gmap Z string;
  variants : gmap type_name variant_def;
  action_results : gmap Z type_name;
}.
Arguments mk_serializer {A}.
Arguments built_in_types {A}.
Arguments typedefs {A}.
Arguments structs {A}.
Arguments actions {A}.
Arguments tables {A}.
Arguments error_messages {A}.
Arguments variants {A}.
Arguments action_results {A}.

Definition built_in_type_names : list type_name :=
  ["bool"; "int8"; "uint8"; "int16"; "uint16"; "int32"; "uint32"; "int64"; "uint64"; "int128"; "uint128";
   "varint32"; "varuint32"; "float32"; "float64"; "float128"; "time_point"; "time_point_sec";
   "block_timestamp_type"; "name"; "bytes"; "string"; "checksum160"; "checksum256"; "checksum512";
   "public_key"; "signature"; "symbol"; "symbol_code"; "asset"; "extended_asset"].

Section serializer.
Context {A : Type}.
Implicit Types (s : abi_serializer A) (v : fc_variant A).

Definition configure_built_in_types (codec : type_name -> coder A) : gmap type_name (coder A) :=
  list_to_map ((fun n => (n, codec n)) <$> built_in_type_names).

Definition add_specialized_unpack_pack (name : type_name) (c : coder A) s : abi_serializer A :=
  mk_serializer (<[name := c]> (built_in_types s)) (typedefs s) (structs s) (actions s) (tables s)
    (error_messages s) (variants s) (action_results s).

Definition is_builtin_type s (type : type_name) : bool := bool_decide (is_Some (built_in_types s !! type)).

(** The limit of iterations is the number of definitions. *)
Fixpoint resolve_loop (i : nat) (m : gmap type_name type_name) (t : type_name) : option type_name :=
  match i with
  | O => None
  | S i => match m !! t with None => Some t | Some t => resolve_loop i m t end
  end.

Definition resolve_type s (type : type_name) : type_name :=
  match typedefs s !! type with
  | Some t => default type (resolve_loop (size (typedefs s)) (typedefs s) t)
  | None => type
  end.

Definition is_struct s (type : type_name) : bool := bool_decide (is_Some (structs s !! resolve_type s type)).

Definition get_struct s (type : type_name) : result struct_def :=
  match structs s !! resolve_type s type with
  | Some st => Ok st
  | None => Throw invalid_type_inside_abi
  end.

(** [d] is the number of scopes that the yield function still admits. *)
Fixpoint _is_type s (d : nat) (rtype : type_name) : result bool :=
  match d with
  | O => Throw abi_recursion_depth_exception
  | S d =>
      let type := fundamental_type rtype in
      if is_builtin_type s type then Ok true
      else match typedefs s !! type with
           | Some t => _is_type s d t
           | None => Ok (bool_decide (is_Some (structs s !! type)) || bool_decide (is_Some (variants s !! type)))
           end
  end.

Definition get_action_type s (action : Z) : type_name := default ""%string (actions s !! action).
Definition get_table_type s (table : Z) : type_name := default ""%string (tables s !! table).
Definition get_action_result_type s (action : Z) : type_name := default ""%string (action_results s !! action).
Definition get_error_message s (code : Z) : option string := error_messages s !! code.

(** ** Validation *)

(** The entries of a [std::map] in the order of the keys *)
Definition key_le {V} (x y : string * V) : Prop := String.leb x.1 y.1 = true.
Definition name_le {V} (x y : Z * V) : Prop := x.1 <= y.1.
#[local] Instance key_le_dec {V} : RelDecision (@key_le V) := fun x y => decide (String.leb x.1 y.1 = true).
#[local] Instance name_le_dec {V} : RelDecision (@name_le V) := fun x y => decide (x.1 <= y.1).
Definition entries {V} (m : gmap string V) : list (string * V) := merge_sort key_le (map_to_list m).
Definition name_entries {V} (m : gmap Z V) : list (Z * V) := merge_sort name_le (map_to_list m).

(** The loop over a chain of typedefs: an iteration adds a key to [seen]. *)
Fixpoint check_typedef (fuel : nat) s (seen : list type_name) (t : type_name) : result unit :=
  match typedefs s !! t with
  | None => Ok tt
  | Some t =>
      EOS_ASSERT (bool_decide (t ∉ seen)) abi_circular_def_exception;;
      match fuel with
      | O => Throw undefined_behaviour
      | S fuel => check_typedef fuel s (seen ++ [t]) t
      end
  end.

(** The loop over the bases of a struct *)
Fixpoint check_bases (fuel : nat) s (seen : list type_name) (current : struct_def) : result unit :=
  if String.eqb (base current) "" then Ok tt
  else
    b ← get_struct s (base current);
    EOS_ASSERT (bool_decide (struct_name b ∉ seen)) abi_circular_def_exception;;
    match fuel with
    | O => Throw undefined_behaviour
    | S fuel => check_bases fuel s (seen ++ [struct_name b]) b
    end.

Definition check_type s (scopes : nat) (t : type_name) : result unit :=
  b ← _is_type s scopes t; EOS_ASSERT b invalid_type_inside_abi.

Definition check_struct s (scopes : nat) (st : struct_def) : result unit :=
  check_bases (size (structs s)) s [struct_name st] st;;
  foldM (fun _ f => check_type s scopes (_remove_bin_extension (field_type f))) tt (fields st).

Definition validate s (scopes : nat) : result unit :=
  foldM (fun _ e => check_typedef (size (typedefs s)) s [e.1; e.2] e.2) tt (entries (typedefs s));;
  foldM (fun _ e => check_type s scopes e.2) tt (entries (typedefs s));;
  foldM (fun _ e => check_struct s scopes e.2) tt (entries (structs s));;
  foldM (fun _ e => foldM (fun _ t => check_type s scopes t) tt (types e.2)) tt (entries (variants s));;
  foldM (fun _ e => check_type s scopes e.2) tt (name_entries (actions s));;
  foldM (fun _ e => check_type s scopes e.2) tt (name_entries (tables s));;
  foldM (fun _ e => check_type s scopes e.2) tt (name_entries (action_results s)).

(** ** Setting an ABI *)

Definition insert_all {K V X} `{Countable K} (key : X -> K) (value : X -> V) (l : list X) : gmap K V :=
  foldl (fun m x => <[key x := value x]> m) ∅ l.

Definition add_typedef (scopes : nat) s (td : type_def) : result (abi_serializer A) :=
  b ← _is_type s scopes (new_type_name td);
  EOS_ASSERT (negb b) duplicate_abi_type_def_exception;;
  Ok (mk_serializer (built_in_types s) (<[new_type_name td := td_type td]> (typedefs s)) (structs s) (actions s)
        (tables s) (error_messages s) (variants s) (action_results s)).

Definition set_abi (scopes : nat) (builtins : gmap type_name (coder A)) (abi : abi_def) : result (abi_serializer A) :=
  EOS_ASSERT (starts_with (version abi) "eosio::abi/1.") unsupported_abi_version_exception;;
  s ← foldM (add_typedef scopes)
        (mk_serializer builtins ∅ (insert_all struct_name (fun x => x) (abi_structs abi)) ∅ ∅ ∅ ∅ ∅) (abi_types abi);
  let s := mk_serializer (built_in_types s) (typedefs s) (structs s)
    (insert_all action_name action_type (abi_actions abi)) (insert_all table_name table_type (abi_tables abi))
    (insert_all error_code error_msg (abi_error_messages abi))
    (insert_all variant_name (fun x => x) (abi_variants abi))
    (insert_all result_name result_type (abi_action_results abi)) in
  EOS_ASSERT (size (typedefs s) =? length (abi_types abi))%nat duplicate_abi_type_def_exception;;
  EOS_ASSERT (size (structs s) =? length (abi_structs abi))%nat duplicate_abi_struct_def_exception;;
  EOS_ASSERT (size (actions s) =? length (abi_actions abi))%nat duplicate_abi_action_def_exception;;
  EOS_ASSERT (size (tables s) =? length (abi_tables abi))%nat duplicate_abi_table_def_exception;;
  EOS_ASSERT (size (error_messages s) =? length (abi_error_messages abi))%nat duplicate_abi_err_msg_def_exception;;
  EOS_ASSERT (size (variants s) =? length (abi_variants abi))%nat duplicate_abi_variant_def_exception;;
  EOS_ASSERT (size (action_results s) =? length (abi_action_results abi))%nat duplicate_abi_action_results_def_exception;;
  validate s scopes;;
  Ok s.
End serializer.

(** ** From binary data to values *)

Section decoder.
Context {A : Type} (r : raw A) (s : abi_serializer A).

(** The fields of a struct: [stream] is what remains of the data. *)
Fixpoint unpack_fields (decode : type_name -> bytes -> result (fc_variant A * bytes)) (l : list field_def)
    (encountered_extension : bool) (stream : bytes) (obj : list (string * fc_variant A))
  : result (list (string * fc_variant A) * bytes) :=
  match l with
  | [] => Ok (obj, stream)
  | f :: l =>
      let extension := is_extension (field_type f) in
      let encountered_extension := encountered_extension || extension in
      match stream with
      | [] =>
          if extension then unpack_fields decode l encountered_extension stream obj
          else if encountered_extension then Throw abi_exception else Throw unpack_exception
      | _ :: _ =>
          let type := resolve_type s (if extension then _remove_bin_extension (field_type f) else field_type f) in
          '(v, stream) ← decode type stream;
          unpack_fields decode l encountered_extension stream (object_set (field_name f) v obj)
      end
  end.

Fixpoint unpack_elements (decode : bytes -> result (fc_variant A * bytes)) (size : nat) (stream : bytes)
  : result (list (fc_variant A) * bytes) :=
  match size with
  | O => Ok ([], stream)
  | S size =>
      '(v, stream) ← decode stream;
      '(l, stream) ← unpack_elements decode size stream;
      Ok (v :: l, stream)
  end.

(** Exceptions of fc become [unpack_exception]. *)
Definition unpacked {X} (o : option X) : result X :=
  match o with Some x => Ok x | None => Throw unpack_exception end.

Fixpoint _binary_to_variant (d : nat) (type : type_name) (stream : bytes) : result (fc_variant A * bytes) :=
  match d with
  | O => Throw abi_recursion_depth_exception
  | S d =>
      let rtype := resolve_type s type in
      let ftype := fundamental_type rtype in
      match built_in_types s !! ftype with
      | Some c => unpacked (unpack c stream (is_array rtype) (is_optional rtype))
      | None =>
          if is_array rtype then
            '(size, stream) ← unpacked (unpack_unsigned r stream);
            '(vars, stream) ← unpack_elements (_binary_to_variant d ftype) (Z.to_nat size) stream;
            Ok (v_array vars, stream)
          else if is_optional rtype then
            '(flag, stream) ← unpacked (unpack_flag r stream);
            if flag : bool then _binary_to_variant d ftype stream else Ok (v_null, stream)
          else
            match variants s !! rtype with
            | Some var =>
                '(select, stream) ← unpacked (unpack_unsigned r stream);
                match types var !! Z.to_nat select : option type_name with
                | None => Throw unpack_exception
                | Some t =>
                    '(v, stream) ← _binary_to_variant d t stream;
                    Ok (v_array [v_string t; v], stream)
                end
            | None =>
                '(obj, stream) ← _binary_to_object d rtype stream [];
                EOS_ASSERT (negb (bool_decide (length obj = O))) unpack_exception;;
                Ok (v_object obj, stream)
            end
      end
  end
with _binary_to_object (d : nat) (type : type_name) (stream : bytes) (obj : list (string * fc_variant A))
  : result (list (string * fc_variant A) * bytes) :=
  match d with
  | O => Throw abi_recursion_depth_exception
  | S d =>
      match structs s !! type with
      | None => Throw invalid_type_inside_abi
      | Some st =>
          '(obj, stream) ← (if String.eqb (base st) "" then Ok (obj, stream)
                            else _binary_to_object d (resolve_type s (base st)) stream obj);
          unpack_fields (_binary_to_variant d) (fields st) false stream obj
      end
  end.

Definition binary_to_variant (scopes : nat) (type : type_name) (binary : bytes) : result (fc_variant A) :=
  match scopes with
  | O => Throw abi_recursion_depth_exception
  | S d => '(v, _) ← _binary_to_variant d type binary; Ok v
  end.

(** The overload for a stream *)
Definition binary_to_variant_stream (scopes : nat) (type : type_name) (stream : bytes) : result (fc_variant A * bytes) :=
  _binary_to_variant scopes type stream.

End decoder.

(** ** From values to binary data *)

Section encoder.
Context {A : Type} (r : raw A) (s : abi_serializer A) (capacity : Z).

(** The stream [ds] has what is written; writing past its capacity throws. *)
Definition write (ds bs : bytes) : result bytes :=
  EOS_ASSERT (Z.of_nat (length ds) + Z.of_nat (length bs) <=? capacity) std_exception;;
  Ok (ds ++ bs).

Definition is_last (l : list field_def) : bool := match l with [] => true | _ => false end.

(** The fields of a struct from an object; [allow] says that extensions may be
    left out.  The first argument encodes a value. *)
Fixpoint pack_object (encode : bool -> type_name -> fc_variant A -> bytes -> result bytes) (allow : bool)
    (vo : list (string * fc_variant A)) (l : list field_def) (disallow_additional_fields : bool) (ds : bytes)
  : result bytes :=
  match l with
  | [] => Ok ds
  | f :: l =>
      match object_find (field_name f) vo with
      | Some v =>
          if disallow_additional_fields then Throw pack_exception
          else
            ds ← encode (allow && is_last l) (_remove_bin_extension (field_type f)) v ds;
            pack_object encode allow vo l false ds
      | None =>
          if is_extension (field_type f) && allow then pack_object encode allow vo l true ds
          else if disallow_additional_fields then Throw abi_exception
          else Throw pack_exception
      end
  end.

(** The fields of a struct from an array *)
Fixpoint pack_array (encode : bool -> type_name -> fc_variant A -> bytes -> result bytes) (allow : bool)
    (va : list (fc_variant A)) (l : list field_def) (ds : bytes) {struct l} : result bytes :=
  match l with
  | [] => Ok ds
  | f :: l =>
      match va with
      | v :: va =>
          ds ← encode (allow && is_last l) (_remove_bin_extension (field_type f)) v ds;
          pack_array encode allow va l ds
      | [] =>
          if is_extension (field_type f) && allow then Ok ds else Throw pack_exception
      end
  end.

(** [find] of a name among the types of a variant *)
Fixpoint position (t : type_name) (l : list type_name) : option nat :=
  match l with
  | [] => None
  | x :: l => if String.eqb x t then Some O else S <$> position t l
  end.

Fixpoint _variant_to_binary (d : nat) (allow : bool) (type : type_name) (var : fc_variant A) (ds : bytes)
  : result bytes :=
  match d with
  | O => Throw abi_recursion_depth_exception
  | S d =>
      let rtype := resolve_type s type in
      let ftype := fundamental_type rtype in
      match built_in_types s !! ftype with
      | Some c => bs ← pack c var (is_array rtype) (is_optional rtype); write ds bs
      | None =>
          if is_array rtype then
            match var with
            | v_array vars =>
                ds ← write ds (pack_unsigned r (u32 (Z.of_nat (length vars))));
                foldM (fun ds v => _variant_to_binary d false ftype v ds) ds vars
            | _ => Throw std_exception
            end
          else if is_optional rtype then
            let flag := negb (is_null var) in
            ds ← write ds (pack_flag r flag);
            if flag : bool then _variant_to_binary d allow ftype var ds else Ok ds
          else
            match variants s !! rtype with
            | Some v =>
                match var with
                | v_array [v_string t; x] =>
                    match position t (types v) with
                    | None => Throw pack_exception
                    | Some i =>
                        ds ← write ds (pack_unsigned r (u32 (Z.of_nat i)));
                        _variant_to_binary d allow t x ds
                    end
                | _ => Throw pack_exception
                end
            | None =>
                match structs s !! rtype with
                | None => Throw invalid_type_inside_abi
                | Some st =>
                    match var with
                    | v_object vo =>
                        ds ← (if String.eqb (base st) "" then Ok ds
                              else _variant_to_binary d false (resolve_type s (base st)) var ds);
                        pack_object (_variant_to_binary d) allow vo (fields st) false ds
                    | v_array va =>
                        EOS_ASSERT (String.eqb (base st) "") invalid_type_inside_abi;;
                        pack_array (_variant_to_binary d) allow va (fields st) ds
                    | _ => Throw pack_exception
                    end
                end
            end
      end
  end.
End encoder.

(** A buffer of one megabyte *)
Definition buffer_size : Z := 1024 * 1024.

Definition variant_to_binary {A} (r : raw A) (s : abi_serializer A) (scopes : nat) (type : type_name)
    (var : fc_variant A) : result bytes :=
  match scopes with
  | O => Throw abi_recursion_depth_exception
  | S d =>
      b ← _is_type s d type;
      if b : bool then _variant_to_binary r s buffer_size d true type var []
      else as_bytes r var
  end.

(** The overload for a stream with room for [capacity] bytes *)
Definition variant_to_binary_stream {A} (r : raw A) (s : abi_serializer A) (capacity : Z) (scopes : nat)
    (type : type_name) (var : fc_variant A) (ds : bytes) : result bytes :=
  _variant_to_binary r s capacity scopes true type var ds.

(** The scopes that the yield functions of [create_yield_function] admit: the
    depth stays below [max_recursion_depth]. *)
Definition max_recursion_depth : nat := 32.
Definition max_scopes : nat := max_recursion_depth - 1.

End AbiSerializer.
