(* ===== verification/AbiTypes.v ===== *)
(** * The types of a validated ABI

    What [set_abi] of [AbiSerializer] establishes: chains of typedefs end, so
    that the loop of [resolve_type] reaches a name that is no typedef, the loops
    of [validate] end, and every type that the ABI mentions is known.  The
    decoder then never meets an unknown type. *)

From Stdlib Require Import String.
From S2P Require Import Prelude AbiSerializer.

Module AbiTypes.
Import AbiSerializer.

Section types.
Context {A : Type}.
Implicit Types (s : abi_serializer A) (t : type_name).

(** ** Loops over the entries *)

Lemma each_ok {X} (f : X -> result unit) l : foldM (fun _ x => f x) tt l = Ok tt <-> forall x, x ∈ l -> f x = Ok tt.
Proof.
  induction l as [|x l IH]; cbn [foldM].
  { split; [|done]. intros _ x Hx. by apply not_elem_of_nil in Hx. }
  rewrite bind_ok_inv. split.
  - intros ([] & Ex & E) y [->|Hy]%elem_of_cons; [done|]. by apply IH.
  - intros H. exists tt. split; [apply H; set_solver|]. apply IH. set_solver.
Qed.

Ltac each_in H :=
  match type of H with foldM (fun _ x => @?f x) _ ?l = _ => 
    let H' := fresh in pose proof (proj1 (each_ok f l) H) as H'; clear H; rename H' into H; cbv beta in H end.

Lemma entries_elem {V} (m : gmap string V) k v : (k, v) ∈ entries m <-> m !! k = Some v.
Proof. unfold entries. rewrite merge_sort_Permutation. apply elem_of_map_to_list. Qed.

(** ** Chains of typedefs *)

Lemma keys_bound {V} (m : gmap type_name V) (ks : list type_name) : NoDup ks -> (forall k, k ∈ ks -> is_Some (m !! k)) -> (length ks <= size m)%nat.
Proof.
  intros Hnd Hk. rewrite <- size_dom, <- (size_list_to_set (C := gset type_name)) by done.
  apply subseteq_size. intros k H%elem_of_list_to_set%Hk. by apply elem_of_dom.
Qed.

(** A chain of typedefs that [check_typedef] has followed through the names
    [ks] *)
Lemma check_typedef_spec fuel s seen ks t : NoDup ks -> (forall k, k ∈ ks -> is_Some (typedefs s !! k)) ->
  t ∉ ks -> ks ⊆ seen -> t ∈ seen -> (size (typedefs s) <= fuel + length ks)%nat ->
  (check_typedef fuel s seen t = Ok tt /\
   exists u, resolve_loop (S (size (typedefs s) - length ks)) (typedefs s) t = Some u /\ typedefs s !! u = None) \/
  check_typedef fuel s seen t = Throw abi_circular_def_exception.
Proof.
  revert seen ks t. induction fuel as [|fuel IH]; intros seen ks t Hnd Hks Ht Hsub Hseen Hf; cbn [check_typedef resolve_loop];
    destruct (typedefs s !! t) as [t'|] eqn:Et; try (left; split; [done|]; by exists t).
  all: assert (NoDup (ks ++ [t])) as Hnd' by
    (apply NoDup_app; split_and!; [done|set_solver|apply NoDup_singleton]).
  all: assert (forall k, k ∈ ks ++ [t] -> is_Some (typedefs s !! k)) as Hks' by
    (intros k [Hk| ->%list_elem_of_singleton]%elem_of_app; [by apply Hks|by eexists]).
  all: pose proof (keys_bound _ _ Hnd' Hks') as Hb; rewrite length_app in Hb; cbn [length] in Hb.
  1: lia.
  case_bool_decide as Hn; [|by right]. cbn [EOS_ASSERT mbind result_bind].
  destruct (IH (seen ++ [t']) (ks ++ [t]) t') as [[H1 (u & H2 & H3)]|H]; [done|done|set_solver|set_solver|set_solver| | |by right].
  { rewrite length_app. cbn [length]. lia. }
  left. split; [done|]. exists u. split; [|done]. rewrite length_app in H2. cbn [length] in H2.
  by replace (size (typedefs s) - length ks)%nat with (S (size (typedefs s) - (length ks + 1)))%nat by lia.
Qed.

(** The loop of [validate] over typedefs returns or finds a cycle. *)
Lemma check_typedef_total s k t : typedefs s !! k = Some t ->
  (check_typedef (size (typedefs s)) s [k; t] t = Ok tt /\
   exists u, resolve_loop (size (typedefs s)) (typedefs s) t = Some u /\ typedefs s !! u = None) \/
  check_typedef (size (typedefs s)) s [k; t] t = Throw abi_circular_def_exception.
Proof.
  intros Hk. assert (1 <= size (typedefs s))%nat as Hs.
  { apply (keys_bound _ [k]); [apply NoDup_singleton|]. intros ? ->%list_elem_of_singleton. by eexists. }
  destruct (decide (t = k)) as [->|Hne].
  - right. destruct (size (typedefs s)); cbn; rewrite Hk; by rewrite bool_decide_false by set_solver.
  - destruct (check_typedef_spec (size (typedefs s)) s [k; t] [k] t) as [[H1 (u & H2 & H3)]|H];
      [apply NoDup_singleton|intros ? ->%list_elem_of_singleton; by eexists|set_solver|set_solver|set_solver|lia| |by right].
    left. split; [done|]. exists u. split; [|done]. cbn [length] in H2.
    by replace (S (size (typedefs s) - 1))%nat with (size (typedefs s)) in H2 by lia.
Qed.

(** ** What validation says *)

Definition acyclic s : Prop := forall k t, typedefs s !! k = Some t ->
  exists u, resolve_loop (size (typedefs s)) (typedefs s) t = Some u /\ typedefs s !! u = None.

Lemma resolve_loop_target n m k t u : resolve_loop n m t = Some u -> m !! k = Some t ->
  exists k', m !! k' = Some u.
Proof.
  revert k t. induction n as [|n IH]; intros k t; cbn; [done|].
  destruct (m !! t) as [t'|] eqn:Et; [intros H _; by apply (IH t t')|]. intros [= <-] Hk. by exists k.
Qed.

(** [resolve_type] ends at a name that is no typedef. *)
Lemma resolve_type_final s t : acyclic s -> typedefs s !! resolve_type s t = None /\
  (resolve_type s t = t \/ exists k, typedefs s !! k = Some (resolve_type s t)).
Proof.
  intros Ha. unfold resolve_type. destruct (typedefs s !! t) as [t'|] eqn:Et; [|by auto].
  destruct (Ha t t' Et) as (u & Hu & Hn). rewrite Hu. cbn. split; [done|]. right. by eapply resolve_loop_target.
Qed.

Lemma resolve_type_idem s t : acyclic s -> resolve_type s (resolve_type s t) = resolve_type s t.
Proof. intros Ha. destruct (resolve_type_final s t Ha) as [H _]. unfold resolve_type at 1. by rewrite H. Qed.

Definition checked s t : Prop := exists d, _is_type s d t = Ok true.

Record valid s : Prop := {
  va_acyclic : acyclic s;
  va_typedef : forall k t, typedefs s !! k = Some t -> checked s t;
  va_base : forall k st, structs s !! k = Some st -> base st <> ""%string ->
    is_Some (structs s !! resolve_type s (base st));
  va_field : forall k st f, structs s !! k = Some st -> f ∈ fields st ->
    checked s (_remove_bin_extension (field_type f));
  va_variant : forall k v t, variants s !! k = Some v -> t ∈ types v -> checked s t;
}.

Lemma check_type_ok s d t : check_type s d t = Ok tt -> checked s t.
Proof. intros E. apply bind_ok_inv in E as (b & Eb & ->%EOS_ASSERT_ok). by exists d. Qed.

Lemma check_bases_ok fuel s seen st : check_bases fuel s seen st = Ok tt -> base st <> ""%string ->
  is_Some (structs s !! resolve_type s (base st)).
Proof.
  intros E Hb. apply String.eqb_neq in Hb. destruct fuel; cbn [check_bases] in E; rewrite Hb in E;
    apply bind_ok_inv in E as (b & Eb & _); unfold get_struct in Eb;
    destruct (structs s !! resolve_type s (base st)); by eauto.
Qed.

Lemma validate_valid s d : validate s d = Ok tt -> valid s.
Proof.
  intros E. unfold validate in E.
  apply bind_ok_inv in E as ([] & E1 & E). apply bind_ok_inv in E as ([] & E2 & E).
  apply bind_ok_inv in E as ([] & E3 & E). apply bind_ok_inv in E as ([] & E4 & _).
  each_in E1. each_in E2. each_in E3. each_in E4.
  split.
  - intros k t Hk. destruct (check_typedef_total s k t Hk) as [[_ ?]|H]; [done|].
    apply entries_elem in Hk. apply E1 in Hk. cbn in Hk. congruence.
  - intros k t Hk%entries_elem%E2. by eapply check_type_ok.
  - intros k st Hk%entries_elem%E3 Hb. apply bind_ok_inv in Hk as ([] & Hk & _). by eapply check_bases_ok.
  - intros k st f Hk%entries_elem%E3 Hf. apply bind_ok_inv in Hk as ([] & _ & Hk).
    each_in Hk. by eapply check_type_ok, Hk.
  - intros k v t Hk%entries_elem%E4 Ht. each_in Hk. by eapply check_type_ok, Hk.
Qed.

Lemma set_abi_valid d builtins abi s : set_abi d builtins abi = Ok s -> valid s.
Proof.
  intros E. unfold set_abi in E. apply bind_ok_inv in E as ([] & _ & E). apply bind_ok_inv in E as (s0 & _ & E).
  do 7 (apply bind_ok_inv in E as ([] & _ & E)). apply bind_ok_inv in E as ([] & E & [= <-]). by eapply validate_valid.
Qed.

(** ** The loops of validation end *)

(** The exceptions of [m] are among [P]. *)
Definition throws (P : chain_exception -> Prop) {X} (m : result X) : Prop := forall e, m = Throw e -> P e.

Lemma throws_bind P {X Y} (m : result X) (f : X -> result Y) :
  throws P m -> (forall x, m = Ok x -> throws P (f x)) -> throws P (m ≫= f).
Proof. unfold throws. destruct m as [x|e]; cbn; [|intros H _ e' [= <-]; by apply H]. intros _ H e. by apply H. Qed.

Lemma throws_assert (P : chain_exception -> Prop) b e : P e -> throws P (EOS_ASSERT b e).
Proof. intros He e' [_ <-]%EOS_ASSERT_throw. done. Qed.

Lemma throws_fold P {X Y} (f : Y -> X -> result Y) y l : (forall y x, x ∈ l -> throws P (f y x)) -> throws P (foldM f y l).
Proof.
  revert y. induction l as [|x l IH]; intros y H; [done|]. cbn. apply throws_bind; [apply H; set_solver|].
  intros y' _. apply IH. set_solver.
Qed.

(** [m] does not run out of fuel. *)
Definition returns {X} (m : result X) : Prop := throws (fun e => e <> undefined_behaviour) m.

Lemma is_type_returns s d t : returns (_is_type s d t).
Proof.
  revert t. induction d as [|d IH]; intros t; cbn; [by intros e [= <-]|].
  destruct (is_builtin_type s _); [done|]. destruct (typedefs s !! _); [apply IH|done].
Qed.

Lemma check_type_returns s d t : returns (check_type s d t).
Proof. apply throws_bind; [apply is_type_returns|]. intros b _. by apply throws_assert. Qed.

Definition keyed s : Prop := forall k st, structs s !! k = Some st -> struct_name st = k.

Lemma check_bases_returns fuel s seen st : keyed s -> NoDup seen -> (forall k, k ∈ seen -> is_Some (structs s !! k)) ->
  (size (structs s) <= fuel + length seen)%nat -> returns (check_bases fuel s seen st).
Proof.
  intros Hk. revert seen st. induction fuel as [|fuel IH]; intros seen st Hnd Hin Hf; cbn [check_bases];
    (destruct (String.eqb (base st) ""); [done|]); unfold get_struct;
    (destruct (structs s !! resolve_type s (base st)) as [b|] eqn:Eb; [|by intros e [= <-]]); cbn [mbind result_bind];
    rewrite (Hk _ _ Eb); (case_bool_decide as Hn; [|by intros e [= <-]]); cbn [EOS_ASSERT mbind result_bind].
  all: assert (NoDup (seen ++ [resolve_type s (base st)])) as Hnd' by
    (apply NoDup_app; split_and!; [done|set_solver|apply NoDup_singleton]).
  all: assert (forall k, k ∈ seen ++ [resolve_type s (base st)] -> is_Some (structs s !! k)) as Hin' by
    (intros k [H| ->%list_elem_of_singleton]%elem_of_app; [by apply Hin|by eexists]).
  - pose proof (keys_bound _ _ Hnd' Hin') as H. rewrite length_app in H. cbn [length] in H. lia.
  - apply IH; [done|done|]. rewrite length_app. cbn [length]. lia.
Qed.

Lemma validate_returns s d : keyed s -> returns (validate s d).
Proof.
  intros Hk. unfold validate.
  apply throws_bind; [|intros ? _; apply throws_bind; [|intros ? _; apply throws_bind; [|intros ? _;
    apply throws_bind; [|intros ? _; apply throws_bind; [|intros ? _; apply throws_bind; [|intros ? _]]]]]];
    apply throws_fold; intros _ e He; try apply check_type_returns.
  - destruct e as [k t]. apply entries_elem in He. cbn.
    destruct (check_typedef_total s k t He) as [[-> _]| ->]; [done|by intros e [= <-]].
  - destruct e as [k st]. apply entries_elem in He. cbn [snd]. apply throws_bind.
    + apply check_bases_returns; [done|apply NoDup_singleton| |cbn [length]; lia].
      intros ? ->%list_elem_of_singleton. rewrite (Hk _ _ He). by eexists.
    + intros _ _. apply throws_fold. intros _ f _. apply check_type_returns.
  - apply throws_fold. intros _ t _. apply check_type_returns.
Qed.

Lemma insert_all_keyed (l : list struct_def) k st : insert_all struct_name (fun x => x) l !! k = Some st -> struct_name st = k.
Proof.
  unfold insert_all. induction l as [|x l IH] using rev_ind; cbn; [done|]. rewrite foldl_app. cbn.
  rewrite lookup_insert_Some. intros [[<- <-]|[_ H]]; [done|by apply IH].
Qed.

Lemma typedefs_keep d s l s' : foldM (add_typedef d) s l = Ok s' ->
  structs s' = structs s /\ built_in_types s' = built_in_types s.
Proof.
  apply (foldM_inv _ (fun x => structs x = structs s /\ built_in_types x = built_in_types s)); [|done].
  intros td s1 s2 _ Hs E. apply bind_ok_inv in E as (b & _ & E). by apply bind_ok_inv in E as ([] & _ & [= <-]).
Qed.

End types.

(** C31: setting an ABI always ends, with the ABI or with one of the exceptions of
    the code: the loops along the chain of a typedef and along the bases of a
    struct stop after as many steps as there are definitions, cyclic ABIs
    included, and so does every other loop of the validation. *)
Theorem set_abi_ends {A} (scopes : nat) (builtins : gmap type_name (coder A)) (abi : abi_def) :
  set_abi scopes builtins abi <> Throw undefined_behaviour.
Proof.
  enough (returns (set_abi scopes builtins abi)) as H by (intros E; by apply (H _ E)). unfold set_abi.
  apply throws_bind; [by apply throws_assert|]. intros _ _. apply throws_bind.
  - apply throws_fold. intros s td _. apply throws_bind; [apply is_type_returns|]. intros b _.
    apply throws_bind; [by apply throws_assert|done].
  - intros s Hs. apply typedefs_keep in Hs as [Hs _]. cbn [structs] in Hs.
    repeat (apply throws_bind; [by apply throws_assert|intros _ _]).
    apply throws_bind; [|done]. apply validate_returns. intros k st. cbn [structs]. rewrite Hs. apply insert_all_keyed.
Qed.

(** ** The decoder knows every type *)

Section safety.
Context {A : Type} (r : raw A) (s : abi_serializer A).

Definition declared (n : type_name) : Prop :=
  is_Some (typedefs s !! n) \/ is_Some (structs s !! n) \/ is_Some (variants s !! n).

(** The type is not an array of a fixed size. *)
Definition unsized (t : type_name) : Prop := is_array t = true \/ is_szarray t = false.

(** Names are declared without the marks of arrays and optionals, and no type is
    an array of a fixed size. *)
Record plain : Prop := {
  pl_declared : forall n, declared n -> fundamental_type n = n /\ unsized n;
  pl_typedef : forall k t, typedefs s !! k = Some t -> unsized t;
  pl_field : forall k st f, structs s !! k = Some st -> f ∈ fields st -> unsized (_remove_bin_extension (field_type f));
  pl_variant : forall k v t, variants s !! k = Some v -> t ∈ types v -> unsized t;
}.

Definition safe (t : type_name) : Prop :=
  (is_builtin_type s (fundamental_type t) = true \/ declared (fundamental_type t)) /\ unsized t.

Definition decoding_error (e : chain_exception) : Prop :=
  e = unpack_exception \/ e = abi_exception \/ e = abi_recursion_depth_exception.

Context (Hvalid : valid s) (Hplain : plain).

Lemma checked_safe t : checked s t -> unsized t -> safe t.
Proof.
  intros [[|d] E] Hu; [done|]. split; [|done]. cbn in E. destruct (is_builtin_type s (fundamental_type t)); [by left|].
  right. unfold declared. destruct (typedefs s !! fundamental_type t); [by left; eexists|right].
  injection E as E. apply orb_true_iff in E as [E%bool_decide_eq_true|E%bool_decide_eq_true]; auto.
Qed.

Lemma declared_safe n : declared n -> safe n.
Proof. intros Hn. destruct (pl_declared Hplain n Hn) as [Hf Hu]. split; [right; by rewrite Hf|done]. Qed.

Lemma resolve_safe t : safe t -> safe (resolve_type s t) /\ typedefs s !! resolve_type s t = None.
Proof.
  intros Ht. destruct (resolve_type_final s t (va_acyclic _ Hvalid)) as [Hn [Heq|[k Hk]]]; (split; [|done]).
  - by rewrite Heq.
  - apply checked_safe; [by eapply va_typedef|by eapply pl_typedef].
Qed.

Lemma throws_unpacked {X} (o : option X) : throws decoding_error (unpacked o).
Proof. destruct o; [done|]. intros e [= <-]. by left. Qed.

Lemma unpack_elements_throws decode n stream : (forall b, throws decoding_error (decode b)) ->
  throws decoding_error (unpack_elements (A := A) decode n stream).
Proof.
  intros Hd. revert stream. induction n as [|n IH]; intros stream; [done|]. cbn.
  apply throws_bind; [apply Hd|]. intros [v b] _. apply throws_bind; [apply IH|]. by intros [l c] _.
Qed.

Lemma unpack_fields_throws decode l enc stream obj :
  (forall t b, safe t -> throws decoding_error (decode t b)) ->
  (forall f, f ∈ l -> safe (_remove_bin_extension (field_type f))) ->
  throws decoding_error (unpack_fields s decode l enc stream obj).
Proof.
  intros Hd. revert enc stream obj. induction l as [|f l IH]; intros enc stream obj Hl; [done|]. cbn [unpack_fields].
  destruct stream as [|b stream].
  - destruct (is_extension (field_type f)); [apply IH; set_solver|]. destruct (enc || false); intros e [= <-];
      [by right; left|by left].
  - apply throws_bind.
    + apply Hd, resolve_safe. replace (if is_extension (field_type f) then _ else _)
        with (_remove_bin_extension (field_type f)) by (unfold _remove_bin_extension; by destruct (is_extension _)).
      apply Hl. set_solver.
    + intros [v b'] _. apply IH. set_solver.
Qed.

Lemma field_safe k st f : structs s !! k = Some st -> f ∈ fields st -> safe (_remove_bin_extension (field_type f)).
Proof. intros Hk Hf. apply checked_safe; [by eapply va_field|by eapply pl_field]. Qed.

Lemma safe_cases t : safe t -> typedefs s !! t = None -> built_in_types s !! fundamental_type t = None ->
  (is_array t = true \/ is_optional t = true) /\ safe (fundamental_type t) \/
  is_array t = false /\ is_optional t = false /\ (is_Some (variants s !! t) \/ is_Some (structs s !! t)).
Proof.
  intros [[Hb|Hd] Hu] Ht Hn.
  { unfold is_builtin_type in Hb. by rewrite Hn, bool_decide_false in Hb by (by intros []). }
  destruct (is_array t) eqn:Ea; [by left; auto using declared_safe|].
  destruct (is_optional t) eqn:Eo; [by left; auto using declared_safe|]. right. split_and!; [done|done|].
  assert (fundamental_type t = t) as Hf.
  { unfold fundamental_type. destruct Hu as [?|Hu]; [congruence|]. by rewrite Ea, Hu, Eo. }
  rewrite Hf in Hd. destruct Hd as [[? H]|[H|H]]; [congruence|auto..].
Qed.

Lemma decoder_throws d : (forall t b, safe t -> throws decoding_error (_binary_to_variant r s d t b)) /\
  (forall t b obj, is_Some (structs s !! t) -> throws decoding_error (_binary_to_object r s d t b obj)).
Proof.
  induction d as [|d [IH1 IH2]]; [by split; intros; intros e [= <-]; right; right|]. split.
  - intros t b Ht. cbn [_binary_to_variant]. destruct (resolve_safe t Ht) as [Hr Hn].
    destruct (built_in_types s !! fundamental_type (resolve_type s t)) as [c|] eqn:Eb; [apply throws_unpacked|].
    destruct (safe_cases _ Hr Hn Eb) as [[Hao Hf]|(-> & -> & Hd)].
    + destruct (is_array (resolve_type s t)).
      * apply throws_bind; [apply throws_unpacked|]. intros [n b1] _.
        apply throws_bind; [apply unpack_elements_throws; intros; by apply IH1|]. by intros [l b2] _.
      * destruct Hao as [?| ->]; [done|]. apply throws_bind; [apply throws_unpacked|]. intros [[] b1] _; [by apply IH1|done].
    + destruct (variants s !! resolve_type s t) as [var|] eqn:Ev.
      * apply throws_bind; [apply throws_unpacked|]. intros [n b1] _.
        destruct (types var !! Z.to_nat n) as [u|] eqn:Eu; [|intros e [= <-]; by left].
        apply throws_bind; [|by intros [v b2] _]. apply IH1, checked_safe;
          [by eapply va_variant, list_elem_of_lookup_2|by eapply pl_variant, list_elem_of_lookup_2].
      * destruct Hd as [[? H]|Hd]; [done|]. apply throws_bind; [by apply IH2|]. intros [obj b1] _.
        apply throws_bind; [apply throws_assert; by left|done].
  - intros t b obj [st Hst]. cbn [_binary_to_object]. rewrite Hst. apply throws_bind.
    + destruct (String.eqb (base st) "") eqn:Ebase; [done|]. apply IH2. eapply va_base; [done..|].
      by apply String.eqb_neq.
    + intros [obj1 b1] _. apply unpack_fields_throws; [done|]. intros f. by apply (field_safe t st).
Qed.

End safety.

(** C16: the decoder never meets an unknown type.  For an ABI that [set_abi] has
    accepted, whose names have none of the marks of arrays and optionals and
    which has no arrays of a fixed size, decoding any data as any type of the ABI
    gives a value or fails because of the data ([unpack_exception],
    [abi_exception] for a missing field after an extension) or because it is
    nested too deeply. *)
Theorem decoder_type_safe {A} (r : raw A) (scopes depth : nat) (builtins : gmap type_name (coder A)) (abi : abi_def)
    (s : abi_serializer A) (t : type_name) (data : bytes) (e : chain_exception) :
  set_abi scopes builtins abi = Ok s -> plain s -> _is_type s scopes t = Ok true -> is_szarray t = false ->
  binary_to_variant r s depth t data = Throw e -> decoding_error e.
Proof.
  intros Hs%set_abi_valid Hp Ht Hsz E. destruct depth as [|depth]; [injection E as <-; by right; right|].
  cbn [binary_to_variant] in E. eapply throws_bind; [| |exact E].
  - apply decoder_throws; [done|done|]. apply checked_safe; [by eexists|by right].
  - by intros [v b] _.
Qed.

(** ** An ABI *)

(** One byte for a built-in type, four for sizes *)
Definition byte_coder : coder Z :=
  mk_coder (fun b a o => match b, a, o with x :: b, false, false => Some (v_atom x, b) | _, _, _ => None end)
           (fun v a o => match v, a, o with
                         | v_atom x, false, false => if (0 <=? x) && (x <? 256) then Ok [x] else Throw std_exception
                         | _, _, _ => Throw std_exception
                         end).
Definition word_raw : raw Z :=
  mk_raw (fun n => [n mod 256; n / 256 mod 256; n / 65536 mod 256; n / 16777216 mod 256])
    (fun b => match b with
              | x0 :: x1 :: x2 :: x3 :: b => Some (x0 + 256 * x1 + 65536 * x2 + 16777216 * x3, b)
              | _ => None
              end)
    (fun f => [if f then 1 else 0])
    (fun b => match b with x :: b => Some (negb (x =? 0), b) | [] => None end)
    (fun _ => Throw std_exception).

Definition sample_builtins : gmap type_name (coder Z) := configure_built_in_types (fun _ => byte_coder).
Definition sample_abi : abi_def :=
  mk_abi "eosio::abi/1.1" [mk_type "num" "uint8"; mk_type "point" "point2"]
    [mk_struct "point1" "" [mk_field "x" "num"];
     mk_struct "point2" "point1" [mk_field "y" "uint8"; mk_field "z" "num$"];
     mk_struct "line" "" [mk_field "points" "point[]"; mk_field "start" "point?"; mk_field "style" "style$"]]
    [] [] [] [mk_variant "style" ["uint8"; "point"]] [].
Definition sample_serializer : abi_serializer Z :=
  match set_abi max_scopes sample_builtins sample_abi with Ok s => s | Throw _ => mk_serializer ∅ ∅ ∅ ∅ ∅ ∅ ∅ ∅ end.
Ltac cases_of_map H :=
  apply elem_of_map_to_list in H; vm_compute in H;
  repeat (apply elem_of_cons in H as [H|H]; [injection H as -> ->|]); [..|by apply not_elem_of_nil in H].

Lemma sample_plain : plain sample_serializer.
Proof.
  split.
  - intros n [[x Hn]|[[x Hn]|[x Hn]]]; cases_of_map Hn; (split; [reflexivity|right; reflexivity]).
  - intros k t Hk. cases_of_map Hk; right; reflexivity.
  - intros k st f Hk Hf. cases_of_map Hk; cbn [fields] in Hf;
      repeat (apply elem_of_cons in Hf as [->|Hf]; [first [right; reflexivity|left; reflexivity]|]);
      by apply not_elem_of_nil in Hf.
  - intros k v t Hk Ht. cases_of_map Hk; cbn [types] in Ht;
      repeat (apply elem_of_cons in Ht as [->|Ht]; [right; reflexivity|]); by apply not_elem_of_nil in Ht.
Qed.

Lemma decoder_type_safe_witness :
  binary_to_variant word_raw sample_serializer max_scopes "line" [2; 0; 0; 0; 1] = Throw unpack_exception /\
  decoding_error unpack_exception.
Proof.
  assert (binary_to_variant word_raw sample_serializer max_scopes "line" [2; 0; 0; 0; 1] = Throw unpack_exception) as E
    by (vm_compute; reflexivity).
  split; [exact E|].
  apply (decoder_type_safe word_raw max_scopes max_scopes sample_builtins sample_abi sample_serializer "line"
    [2; 0; 0; 0; 1] unpack_exception);
    [vm_compute; reflexivity|exact sample_plain|vm_compute; reflexivity|vm_compute; reflexivity|exact E].
Defined.

End AbiTypes.
