(* ===== verification/AbiRoundtrip.v ===== *)
(** * What the ABI serializer encodes it decodes

    The encoder of [AbiSerializer] writes data that the decoder reads back, to a
    value that is encoded as the same data.  The laws of the built-in types are
    those of fc; the ABI has been accepted by [set_abi], and [well_formed] says
    what [set_abi] does not check. *)

From Stdlib Require Import String.
From S2P Require Import Prelude AbiSerializer AbiTypes.

Module AbiRoundtrip.
Import AbiSerializer AbiTypes.

(** ** The laws of fc *)

(** What is packed is unpacked, whatever follows. *)
Record raw_laws {A} (r : raw A) : Prop := {
  raw_unsigned : forall n rest, 0 <= n < 2 ^ 32 -> unpack_unsigned r (pack_unsigned r n ++ rest) = Some (n, rest);
  raw_flag : forall b rest, unpack_flag r (pack_flag r b ++ rest) = Some (b, rest);
}.

(** A packed value has some bytes and is unpacked to a value that is packed
    to the same bytes; a value that is not null stays so. *)
Definition coder_laws {A} (c : coder A) : Prop := forall v a o bs, pack c v a o = Ok bs ->
  bs <> [] /\ exists v', (forall rest, unpack c (bs ++ rest) a o = Some (v', rest)) /\ pack c v' a o = Ok bs /\
    (is_null v = false -> is_null v' = false).

Lemma pack_unsigned_nonempty {A} (r : raw A) n : raw_laws r -> 0 <= n < 2 ^ 32 -> pack_unsigned r n <> [].
Proof.
  intros [Hu _] Hn E. assert (exists m, m <> n /\ 0 <= m < 2 ^ 32) as (m & Hm & Hr).
  { destruct (decide (n = 0)) as [->|]; [exists 1|exists 0]; lia. }
  pose proof (Hu m [] Hr) as H1. pose proof (Hu n (pack_unsigned r m ++ []) Hn) as H2. rewrite E in H2.
  cbn [app] in H2. congruence.
Qed.

Lemma pack_flag_nonempty {A} (r : raw A) b : raw_laws r -> pack_flag r b <> [].
Proof.
  intros [_ Hf] E. pose proof (Hf (negb b) []) as H1. pose proof (Hf b (pack_flag r (negb b) ++ [])) as H2.
  rewrite E in H2. cbn [app] in H2. destruct b; cbn in *; congruence.
Qed.

(** ** Objects *)

Lemma object_set_fresh {A} k (v : fc_variant A) o : k ∉ o.*1 -> object_set k v o = o ++ [(k, v)].
Proof.
  induction o as [|[k' x] o IH]; intros Hk; cbn; [done|]. cbn in Hk. apply not_elem_of_cons in Hk as [Hne Hk].
  destruct (String.eqb_spec k' k) as [->|_]; [done|]. by rewrite IH.
Qed.

Lemma object_find_app {A} k (o1 o2 : list (string * fc_variant A)) :
  object_find k (o1 ++ o2) = match object_find k o1 with Some v => Some v | None => object_find k o2 end.
Proof. induction o1 as [|[k' x] o1 IH]; cbn; [done|]. by destruct (String.eqb k' k). Qed.

Lemma object_find_none {A} k (o : list (string * fc_variant A)) : k ∉ o.*1 -> object_find k o = None.
Proof.
  induction o as [|[k' x] o IH]; intros Hk; cbn; [done|]. cbn in Hk. apply not_elem_of_cons in Hk as [Hne Hk].
  destruct (String.eqb_spec k' k) as [->|_]; [done|]. by apply IH.
Qed.

Lemma object_find_zip {A} (pre : list (string * fc_variant A)) ks vs : NoDup ks -> length vs = length ks ->
  (forall k, k ∈ ks -> k ∉ pre.*1) -> Forall2 (fun k v => object_find k (pre ++ zip ks vs) = Some v) ks vs.
Proof.
  intros Hnd. revert pre vs. induction Hnd as [|k ks Hk Hnd IH]; intros pre [|v vs] Hl Hpre; try done.
  cbn in Hl. constructor; cbn [zip zip_with].
  - rewrite object_find_app, object_find_none by (apply Hpre; set_solver). cbn. by rewrite String.eqb_refl.
  - change (pre ++ (k, v) :: zip ks vs) with (pre ++ [(k, v)] ++ zip ks vs). rewrite app_assoc. apply IH; [lia|].
    intros x Hx. rewrite fmap_app. cbn. apply not_elem_of_app. split; [apply Hpre; set_solver|].
    intros ->%list_elem_of_singleton. done.
Qed.

(** ** The hypotheses on the ABI *)

Section roundtrip.
Context {A : Type} (r : raw A) (s : abi_serializer A) (capacity : Z).

(** After an extension there are only extensions. *)
Fixpoint trailing (l : list field_def) : Prop :=
  match l with
  | [] => True
  | f :: l => (is_extension (field_type f) = true -> Forall (fun g => is_extension (field_type g) = true) l) /\ trailing l
  end.

(** A struct has fields that are not extensions, extensions come last, the names
    of its fields and those of its bases are distinct, and a base is not also a
    built-in type, an array, an optional or a variant. *)
Record well_formed (names : type_name -> list string) : Prop := {
  wf_trailing : forall k st, structs s !! k = Some st -> trailing (fields st);
  wf_inhabited : forall k st, structs s !! k = Some st -> base st = ""%string ->
    exists f, f ∈ fields st /\ is_extension (field_type f) = false;
  wf_names : forall k st, structs s !! k = Some st -> NoDup (names k) /\
    names k = (if String.eqb (base st) "" then [] else names (resolve_type s (base st))) ++ (field_name <$> fields st);
  wf_base : forall k st, structs s !! k = Some st -> base st <> ""%string ->
    let b := resolve_type s (base st) in
    built_in_types s !! fundamental_type b = None /\ is_array b = false /\ is_optional b = false /\ variants s !! b = None;
  wf_variants : forall k v, variants s !! k = Some v -> Z.of_nat (length (types v)) <= 2 ^ 32;
}.

Context (names : type_name -> list string) (Hraw : raw_laws r)
  (Hcoders : forall b c, built_in_types s !! b = Some c -> coder_laws c)
  (Hvalid : valid s) (Hwf : well_formed names) (Hcap : capacity < 2 ^ 32).

Abbreviation encode := (_variant_to_binary r s capacity).
Abbreviation decode := (_binary_to_variant r s).

Definition fits (ds bs : bytes) : Prop := Z.of_nat (length ds) + Z.of_nat (length bs) <= capacity.

Lemma write_ok ds bs ds' : write capacity ds bs = Ok ds' <-> ds' = ds ++ bs /\ fits ds bs.
Proof.
  unfold write, fits. rewrite bind_ok_inv. split.
  - intros ([] & H%EOS_ASSERT_ok & [= <-]). apply Z.leb_le in H. done.
  - intros [-> H]. exists tt. by rewrite EOS_ASSERT_ok, Z.leb_le.
Qed.

Lemma fits_app ds b1 b2 : fits ds (b1 ++ b2) <-> fits (ds ++ b1) b2.
Proof. unfold fits. rewrite !length_app. lia. Qed.

Lemma fits_prefix ds b1 b2 : fits ds (b1 ++ b2) -> fits ds b1.
Proof. unfold fits. rewrite length_app. lia. Qed.

(** The data [bs], which encodes [v] as [t], decodes to [v'], which is encoded as
    [bs] again.  The decoder opens up to two scopes for one of the encoder. *)
Record decodes (n : nat) (allow : bool) (t : type_name) (v : fc_variant A) (bs : bytes) (v' : fc_variant A) : Prop := {
  de_nonempty : bs <> [];
  de_null : is_null v = false -> is_null v' = false;
  de_decode : forall m rest, (2 * n <= m)%nat -> (allow = true -> rest = []) -> decode m t (bs ++ rest) = Ok (v', rest);
  de_encode : forall ds, fits ds bs -> encode n allow t v' ds = Ok (ds ++ bs);
}.

Definition encodes (n : nat) : Prop := forall allow t v ds ds', encode n allow t v ds = Ok ds' ->
  exists bs v', ds' = ds ++ bs /\ fits ds bs /\ decodes n allow t v bs v'.

Lemma decode_resolved m t b : decode m (resolve_type s t) b = decode m t b.
Proof. destruct m; [done|]. cbn [_binary_to_variant]. by rewrite resolve_type_idem by apply Hvalid. Qed.

(** ** Arrays *)

Lemma elements_ok n t vars ds ds' : encodes n ->
  foldM (fun ds v => encode n false t v ds) ds vars = Ok ds' ->
  exists bs vs, ds' = ds ++ bs /\ length vs = length vars /\ (length vars <= length bs)%nat /\
    (vars <> [] -> fits ds bs) /\ (vars = [] -> bs = []) /\
    (forall m rest, (2 * n <= m)%nat -> unpack_elements (decode m t) (length vars) (bs ++ rest) = Ok (vs, rest)) /\
    (forall ds0, fits ds0 bs -> foldM (fun ds v => encode n false t v ds) ds0 vs = Ok (ds0 ++ bs)).
Proof.
  intros Hn. revert ds. induction vars as [|v vars IH]; intros ds E; cbn [foldM] in E.
  { injection E as <-. exists [], []. rewrite app_nil_r. split_and!; try done.
    intros ds0 _. by rewrite app_nil_r. }
  apply bind_ok_inv in E as (ds1 & E1 & E). destruct (Hn _ _ _ _ _ E1) as (b1 & v1 & -> & Hf1 & []).
  destruct (IH _ E) as (b2 & vs & -> & Hl & Hlen & Hf2 & Hnil & Hdec & Henc).
  assert (1 <= length b1)%nat as Hb1 by (destruct b1; [done|cbn; lia]).
  exists (b1 ++ b2), (v1 :: vs). rewrite app_assoc, length_app. split_and!; try done; [cbn; lia|cbn; lia| | |].
  - intros _. destruct (decide (vars = [])) as [->|Hv]; [rewrite Hnil by done; by rewrite app_nil_r|].
    apply fits_app. by apply Hf2.
  - intros m rest Hm. cbn [length unpack_elements]. rewrite <- app_assoc, de_decode0 by done.
    cbn [mbind result_bind]. rewrite Hdec by done. done.
  - intros ds0 Hf. cbn [foldM]. rewrite de_encode0 by (by eapply fits_prefix). cbn [mbind result_bind].
    rewrite Henc by (by apply fits_app). by rewrite <- app_assoc.
Qed.

(** ** Fields *)

(** The fields [l1] with their values, when [l2] come after them *)
Fixpoint pack_present (n : nat) (allow : bool) (l1 l2 : list field_def) (vs : list (fc_variant A)) (ds : bytes)
  : result bytes :=
  match l1, vs with
  | f :: l1, v :: vs =>
      ds ← encode n (allow && is_last (l1 ++ l2)) (_remove_bin_extension (field_type f)) v ds;
      pack_present n allow l1 l2 vs ds
  | _, _ => Ok ds
  end.

Definition found (o : list (string * fc_variant A)) (f : field_def) (v : fc_variant A) : Prop :=
  object_find (field_name f) o = Some v.
Definition left_out (allow : bool) (o : list (string * fc_variant A)) (f : field_def) : Prop :=
  is_extension (field_type f) = true /\ allow = true /\ object_find (field_name f) o = None.

Lemma pack_object_inv n allow o l dis ds ds' : pack_object (encode n) allow o l dis ds = Ok ds' ->
  exists l1 l2 vs, l = l1 ++ l2 /\ Forall2 (found o) l1 vs /\ Forall (left_out allow o) l2 /\
    (dis = true -> l1 = []) /\ pack_present n allow l1 l2 vs ds = Ok ds'.
Proof.
  revert dis ds. induction l as [|f l IH]; intros dis ds E; cbn [pack_object] in E.
  { injection E as <-. by exists [], [], []. }
  destruct (object_find (field_name f) o) as [v|] eqn:Ef.
  - destruct dis; [done|]. apply bind_ok_inv in E as (ds1 & E1 & E).
    destruct (IH _ _ E) as (l1 & l2 & vs & -> & H1 & H2 & _ & H3). exists (f :: l1), l2, (v :: vs).
    split_and!; [done|by constructor|done|done|]. cbn [pack_present]. by rewrite E1.
  - destruct (is_extension (field_type f) && allow) eqn:Ee; [|by destruct dis]. apply andb_true_iff in Ee as [Ee Ha].
    destruct (IH _ _ E) as (l1 & l2 & vs & -> & H1 & H2 & H3 & H4). rewrite (H3 eq_refl) in *.
    exists [], (f :: l2), []. apply Forall2_nil_inv_l in H1 as ->. split_and!; try done. by constructor.
Qed.

Lemma pack_object_absent n allow o l dis ds : Forall (left_out allow o) l -> pack_object (encode n) allow o l dis ds = Ok ds.
Proof.
  intros H. revert dis. induction H as [|f l (He & -> & Hf) _ IH]; intros dis; [done|]. cbn. rewrite Hf, He. apply IH.
Qed.

Lemma pack_object_present n allow o l1 l2 vs ds : Forall2 (found o) l1 vs -> Forall (left_out allow o) l2 ->
  pack_object (encode n) allow o (l1 ++ l2) false ds = pack_present n allow l1 l2 vs ds.
Proof.
  intros H1 H2. revert ds. induction H1 as [|f v l1 vs Hf _ IH]; intros ds; cbn [app pack_object pack_present].
  - by apply pack_object_absent.
  - rewrite Hf. destruct (encode n _ _ v ds) as [ds1|e]; [|done]. apply IH.
Qed.

Lemma pack_array_inv n allow va l ds ds' : pack_array (encode n) allow va l ds = Ok ds' -> trailing l ->
  exists l1 l2 vs, l = l1 ++ l2 /\ length vs = length l1 /\
    Forall (fun f => is_extension (field_type f) = true /\ allow = true) l2 /\ pack_present n allow l1 l2 vs ds = Ok ds'.
Proof.
  revert va ds. induction l as [|f l IH]; intros va ds E Ht; cbn [pack_array] in E.
  { injection E as <-. by exists [], [], []. }
  destruct Ht as [Ht1 Ht2]. destruct va as [|v va].
  - destruct (is_extension (field_type f) && allow) eqn:Ee; [|done]. apply andb_true_iff in Ee as [Ee Ha].
    injection E as <-. exists [], (f :: l), []. split_and!; try done. constructor; [done|].
    eapply Forall_impl; [by apply Ht1|]. done.
  - apply bind_ok_inv in E as (ds1 & E1 & E). destruct (IH _ _ E Ht2) as (l1 & l2 & vs & -> & H1 & H2 & H3).
    exists (f :: l1), l2, (v :: vs). split_and!; [done|cbn; lia|done|]. cbn [pack_present]. by rewrite E1.
Qed.

Lemma unpack_absent m l enc obj : Forall (fun f => is_extension (field_type f) = true) l ->
  unpack_fields s (decode m) l enc [] obj = Ok (obj, []).
Proof. intros H. revert enc. induction H as [|f l Hf _ IH]; intros enc; [done|]. cbn. rewrite Hf. apply IH. Qed.

Lemma field_type_resolved f :
  (if is_extension (field_type f) then _remove_bin_extension (field_type f) else field_type f) =
  _remove_bin_extension (field_type f).
Proof. unfold _remove_bin_extension. by destruct (is_extension (field_type f)). Qed.

Lemma present_ok n allow l1 l2 vs ds ds' : encodes n -> pack_present n allow l1 l2 vs ds = Ok ds' ->
  length vs = length l1 -> Forall (fun f => is_extension (field_type f) = true /\ allow = true) l2 ->
  exists bs vs', ds' = ds ++ bs /\ length vs' = length l1 /\ (l1 <> [] -> bs <> [] /\ fits ds bs) /\ (l1 = [] -> bs = []) /\
    (forall m rest obj enc, (2 * n <= m)%nat -> (allow = true -> rest = []) -> NoDup (field_name <$> l1) ->
       (forall f, f ∈ l1 -> field_name f ∉ obj.*1) ->
       unpack_fields s (decode m) (l1 ++ l2) enc (bs ++ rest) obj = Ok (obj ++ zip (field_name <$> l1) vs', rest)) /\
    (forall ds0, fits ds0 bs -> pack_present n allow l1 l2 vs' ds0 = Ok (ds0 ++ bs)).
Proof.
  intros Hn E Hl H2. revert vs ds E Hl. induction l1 as [|f l1 IH]; intros vs ds E Hl.
  - injection E as <-. exists [], []. rewrite app_nil_r. split_and!; try done.
    + intros m rest obj enc _ Hr _ _. cbn [app zip zip_with fmap list_fmap]. rewrite app_nil_r.
      destruct l2 as [|g l2]; [done|]. pose proof H2 as [[_ Ha] _]%Forall_cons. rewrite (Hr Ha).
      apply unpack_absent. by eapply Forall_impl; [exact H2|intros ? []].
    + intros ds0 _. by rewrite app_nil_r.
  - destruct vs as [|v vs]; [done|]. cbn [pack_present] in E. apply bind_ok_inv in E as (ds1 & E1 & E).
    destruct (Hn _ _ _ _ _ E1) as (b1 & v1 & -> & Hf1 & []). cbn in Hl.
    destruct (IH _ _ E) as (b2 & vs' & -> & Hl2 & Hb2 & Hnil & Hdec & Henc); [lia|].
    exists (b1 ++ b2), (v1 :: vs'). rewrite app_assoc. split_and!; try done; [cbn; lia| | |].
    + intros _. split; [by intros [? ?]%app_eq_nil|]. destruct (decide (l1 = [])) as [->|Hne].
      * by rewrite Hnil, app_nil_r.
      * by apply fits_app, Hb2.
    + intros m rest obj enc Hm Hr Hnd Hobj. cbn [fmap list_fmap] in Hnd. apply NoDup_cons in Hnd as [Hf Hnd].
      cbn [app unpack_fields]. rewrite <- app_assoc, field_type_resolved, decode_resolved.
      destruct (b1 ++ b2 ++ rest) as [|x y] eqn:Eb; [by apply app_eq_nil in Eb as [? _]|]. rewrite <- Eb.
      rewrite de_decode0; [cbn [mbind result_bind]|done|].
      * rewrite object_set_fresh by (apply Hobj; set_solver). rewrite Hdec; [|done|done|done|].
        { cbn [fmap list_fmap zip zip_with]. by rewrite <- app_assoc. }
        intros g Hg. rewrite fmap_app. cbn. apply not_elem_of_app. split; [apply Hobj; set_solver|].
        intros Heq%list_elem_of_singleton. apply Hf. rewrite <- Heq. by apply list_elem_of_fmap_2.
      * intros [Ha Hlast]%andb_true_iff. destruct l1; [|done]. rewrite Hnil by done. by apply Hr.
    + intros ds0 Hf. cbn [pack_present]. rewrite de_encode0 by (by eapply fits_prefix). cbn [mbind result_bind].
      rewrite Henc by (by apply fits_app). by rewrite <- app_assoc.
Qed.

(** An object with the decoded fields is packed as they are. *)
Lemma repack n allow o pre l1 l2 vs ds : NoDup (field_name <$> l1 ++ l2) -> length vs = length l1 ->
  (forall f, f ∈ l1 ++ l2 -> field_name f ∉ pre.*1) ->
  (forall f, f ∈ l1 ++ l2 ->
     object_find (field_name f) o = object_find (field_name f) (pre ++ zip (field_name <$> l1) vs)) ->
  Forall (fun f => is_extension (field_type f) = true /\ allow = true) l2 ->
  pack_object (encode n) allow o (l1 ++ l2) false ds = pack_present n allow l1 l2 vs ds.
Proof.
  intros Hnd Hl Hpre Ho H2. rewrite fmap_app in Hnd. apply NoDup_app in Hnd as (Hnd1 & Hdis & _).
  apply pack_object_present.
  - assert (Forall2 (fun k v => object_find k (pre ++ zip (field_name <$> l1) vs) = Some v) (field_name <$> l1) vs) as H.
    { apply object_find_zip; [done|by rewrite length_fmap|]. intros k (f & -> & Hf)%list_elem_of_fmap. apply Hpre. set_solver. }
    rewrite Forall2_fmap_l in H. apply Forall2_same_length_lookup in H as [_ H].
    apply Forall2_same_length_lookup. split; [lia|]. intros i f v Hf Hv. unfold found.
    rewrite Ho by (apply elem_of_app; left; by eapply list_elem_of_lookup_2). by apply (H i f v).
  - apply Forall_forall. intros f Hf. pose proof (proj1 (Forall_forall _ _) H2 f Hf) as [He Ha]. split_and!; [done|done|].
    rewrite Ho by set_solver. rewrite object_find_app, object_find_none by (apply Hpre; set_solver).
    apply object_find_none. rewrite fst_zip by (rewrite length_fmap; lia). intros Hin. apply (Hdis _ Hin).
    by apply list_elem_of_fmap_2.
Qed.

(** ** Structs *)

Definition pack_struct (n : nat) (allow : bool) (st : struct_def) (v : fc_variant A) (ds : bytes) : result bytes :=
  match v with
  | v_object vo =>
      ds ← (if String.eqb (base st) "" then Ok ds else encode n false (resolve_type s (base st)) v ds);
      pack_object (encode n) allow vo (fields st) false ds
  | v_array va =>
      EOS_ASSERT (String.eqb (base st) "") invalid_type_inside_abi;;
      pack_array (encode n) allow va (fields st) ds
  | _ => Throw pack_exception
  end.

(** The entries [ents] that the data of a struct decodes to *)
Record decodes_object (n : nat) (allow : bool) (k : type_name) (st : struct_def) (bs : bytes)
    (ents : list (string * fc_variant A)) : Prop := {
  do_nonempty : bs <> [];
  do_entries : ents <> [];
  do_names : forall x, x ∈ ents.*1 -> x ∈ names k;
  do_decode : forall m rest obj, (2 * n + 1 <= m)%nat -> (allow = true -> rest = []) ->
    (forall x, x ∈ names k -> x ∉ obj.*1) -> _binary_to_object r s m k (bs ++ rest) obj = Ok (obj ++ ents, rest);
  do_encode : forall o ds, fits ds bs -> (forall x, x ∈ names k -> object_find x o = object_find x ents) ->
    pack_struct n allow st (v_object o) ds = Ok (ds ++ bs);
}.

Definition objects (n : nat) : Prop := forall k st allow v ds ds', structs s !! k = Some st ->
  pack_struct n allow st v ds = Ok ds' ->
  exists bs ents, ds' = ds ++ bs /\ fits ds bs /\ decodes_object n allow k st bs ents.

(** A struct without a base *)
Lemma fields_ok n allow k st l1 l2 vs ds ds' : encodes n -> structs s !! k = Some st -> base st = ""%string ->
  fields st = l1 ++ l2 -> length vs = length l1 ->
  Forall (fun f => is_extension (field_type f) = true /\ allow = true) l2 ->
  pack_present n allow l1 l2 vs ds = Ok ds' ->
  exists bs ents, ds' = ds ++ bs /\ fits ds bs /\ decodes_object n allow k st bs ents.
Proof.
  intros Hn Hk Hbase Hl Hlen H2 E. destruct (wf_names _ Hwf k st Hk) as [Hnd Hnames].
  rewrite Hbase in Hnames. cbn [String.eqb app] in Hnames. rewrite Hl in Hnames. rewrite Hnames in Hnd.
  destruct (present_ok _ _ _ _ _ _ _ Hn E Hlen H2) as (bs & vs' & -> & Hl' & Hb & _ & Hdec & Henc).
  assert (l1 <> []) as Hne.
  { destruct (wf_inhabited _ Hwf k st Hk Hbase) as (f & Hf & Hx). rewrite Hl in Hf. intros ->.
    pose proof (proj1 (Forall_forall _ _) H2 f Hf) as [Hy _]. congruence. }
  destruct (Hb Hne) as [Hb1 Hb2]. exists bs, (zip (field_name <$> l1) vs'). split_and!; [done|done|]. split; [done| | | |].
  - destruct l1; [done|]. by destruct vs'.
  - intros x Hx. rewrite fst_zip in Hx by (rewrite length_fmap; lia). rewrite Hnames, fmap_app. set_solver.
  - intros [|m] rest obj Hm Hr Hobj; [lia|]. cbn [_binary_to_object]. rewrite Hk, Hbase. cbn [String.eqb mbind result_bind].
    rewrite Hl. apply Hdec; [lia|done| |].
    + rewrite fmap_app in Hnd. by apply NoDup_app in Hnd as [? _].
    + intros f Hf. apply Hobj. rewrite Hnames. apply list_elem_of_fmap_2. set_solver.
  - intros o ds0 Hfit Ho. cbn [pack_struct]. rewrite Hbase. cbn [String.eqb mbind result_bind]. rewrite Hl.
    rewrite (repack n allow o [] l1 l2 vs'); [by apply Henc|done|done|set_solver| |done].
    intros f Hf. apply Ho. rewrite Hnames. by apply list_elem_of_fmap_2.
Qed.

(** The base of a struct is encoded as a struct. *)
Lemma encode_base n allow k st v ds : structs s !! k = Some st -> base st <> ""%string ->
  exists stb, structs s !! resolve_type s (base st) = Some stb /\
    encode (S n) allow (resolve_type s (base st)) v ds = pack_struct n allow stb v ds.
Proof.
  intros Hk Hb. destruct (va_base _ Hvalid k st Hk Hb) as [stb Hstb]. exists stb. split; [done|].
  destruct (wf_base _ Hwf k st Hk Hb) as (H1 & H2 & H3 & H4). cbn [_variant_to_binary].
  rewrite resolve_type_idem by apply Hvalid. by rewrite H1, H2, H3, H4, Hstb.
Qed.

Lemma derived_ok n allow k st vo ds ds' : encodes (S n) -> objects n -> structs s !! k = Some st ->
  base st <> ""%string -> pack_struct (S n) allow st (v_object vo) ds = Ok ds' ->
  exists bs ents, ds' = ds ++ bs /\ fits ds bs /\ decodes_object (S n) allow k st bs ents.
Proof.
  intros Hn Ho Hk Hbase E. pose proof Hbase as Hb%String.eqb_neq. cbn [pack_struct] in E. rewrite Hb in E.
  apply bind_ok_inv in E as (ds1 & E1 & E). destruct (encode_base n false k st (v_object vo) ds Hk Hbase) as (stb & Hstb & Eb).
  rewrite Eb in E1. destruct (Ho _ _ _ _ _ _ Hstb E1) as (b1 & ents1 & -> & Hfit1 & []).
  destruct (pack_object_inv _ _ _ _ _ _ _ E) as (l1 & l2 & vs & Hl & H1 & H2 & _ & E2).
  assert (Forall (fun f => is_extension (field_type f) = true /\ allow = true) l2) as H2'
    by (eapply Forall_impl; [exact H2|]; intros f (? & ? & ?); done).
  destruct (present_ok _ _ _ _ _ _ _ Hn E2) as (b2 & vs' & -> & Hl' & Hb2 & Hnil & Hdec & Henc);
    [symmetry; by eapply Forall2_length|done|].
  destruct (wf_names _ Hwf k st Hk) as [Hnd Hnames]. rewrite Hb, Hl in Hnames. rewrite Hnames in Hnd.
  apply NoDup_app in Hnd as (_ & Hdis & Hnd).
  assert (forall f, f ∈ l1 ++ l2 -> field_name f ∉ ents1.*1) as Hpre.
  { intros f Hf Hin. apply (Hdis (field_name f)); [by apply do_names0|by apply list_elem_of_fmap_2]. }
  exists (b1 ++ b2), (ents1 ++ zip (field_name <$> l1) vs'). rewrite app_assoc.
  assert (fits ds (b1 ++ b2)) as Hfit.
  { destruct (decide (l1 = [])) as [->|Hne]; [by rewrite Hnil, app_nil_r|]. by apply fits_app, Hb2. }
  split_and!; [done|done|]. split.
  - by intros [? ?]%app_eq_nil.
  - by intros [? ?]%app_eq_nil.
  - intros x. rewrite fmap_app, fst_zip by (rewrite length_fmap; lia). rewrite Hnames, fmap_app. set_solver.
  - intros [|m] rest obj Hm Hr Hobj; [lia|]. cbn [_binary_to_object]. rewrite Hk, Hb, <- app_assoc, do_decode0;
      [|lia|done|intros x Hx; apply Hobj; rewrite Hnames; set_solver].
    cbn [mbind result_bind]. rewrite Hl, Hdec; [by rewrite <- app_assoc|lia|done| |].
    + rewrite fmap_app in Hnd. by apply NoDup_app in Hnd as [? _].
    + intros f Hf. rewrite fmap_app. apply not_elem_of_app. split; [|apply Hpre; set_solver].
      apply Hobj. rewrite Hnames, fmap_app, !elem_of_app. right. left. by apply list_elem_of_fmap_2.
  - intros o ds0 Hfit0 Hof. cbn [pack_struct]. rewrite Hb.
    destruct (encode_base n false k st (v_object o) ds0 Hk Hbase) as (stb' & Hstb' & ->).
    rewrite Hstb in Hstb'. injection Hstb' as <-. rewrite do_encode0; [cbn [mbind result_bind]|by eapply fits_prefix|].
    + rewrite Hl, (repack _ _ _ ents1 l1 l2 vs'); [|done|done|done| |done].
      * rewrite Henc by (by apply fits_app). by rewrite <- app_assoc.
      * intros f Hf. apply Hof. rewrite Hnames. apply elem_of_app. right. by apply list_elem_of_fmap_2.
    + intros x Hx. rewrite Hof by (rewrite Hnames; set_solver). rewrite object_find_app.
      destruct (object_find x ents1); [done|]. apply object_find_none. rewrite fst_zip by (rewrite length_fmap; lia).
      intros Hin. apply (Hdis x Hx). rewrite fmap_app. set_solver.
Qed.

Lemma struct_ok n : encodes n -> (forall m, n = S m -> objects m) -> objects n.
Proof.
  intros Hn Ho k st allow v ds ds' Hk E. destruct (decide (base st = ""%string)) as [Hbase|Hbase].
  - unfold pack_struct in E. rewrite Hbase in E. cbn [String.eqb] in E. destruct v as [| | |va|vo]; try done.
    + cbn [EOS_ASSERT mbind result_bind] in E.
      destruct (pack_array_inv _ _ _ _ _ _ E) as (l1 & l2 & vs & Hl & H1 & H2 & E2); [by eapply wf_trailing|].
      by eapply fields_ok.
    + cbn [mbind result_bind] in E. destruct (pack_object_inv _ _ _ _ _ _ _ E) as (l1 & l2 & vs & Hl & H1 & H2 & _ & E2).
      eapply fields_ok; [done..|symmetry; by eapply Forall2_length| |done].
      eapply Forall_impl; [exact H2|]. by intros f (? & ? & ?).
  - pose proof Hbase as Hb%String.eqb_neq. destruct v as [| | |va|vo]; try done; [cbn in E; by rewrite Hb in E|].
    destruct n as [|n]; [cbn in E; by rewrite Hb in E|]. eapply derived_ok; [done|by apply Ho|done..].
Qed.

(** ** Values *)

Section step.
Context (n : nat) (Hn : encodes n) (Hobj : objects n).
Context (allow : bool) (t : type_name) (v : fc_variant A) (ds ds' : bytes).
Let rtype := resolve_type s t.
Let ftype := fundamental_type rtype.

Definition encoded : Prop := exists bs v', ds' = ds ++ bs /\ fits ds bs /\ decodes (S n) allow t v bs v'.

Lemma builtin_ok c : built_in_types s !! ftype = Some c -> encode (S n) allow t v ds = Ok ds' -> encoded.
Proof.
  intros Hc E. cbn [_variant_to_binary] in E. fold rtype ftype in E. rewrite Hc in E.
  apply bind_ok_inv in E as (bs & Ep & [-> Hf]%write_ok).
  destruct (Hcoders _ _ Hc _ _ _ _ Ep) as (Hne & v' & Hu & Hp & Hnull). exists bs, v'. split_and!; [done..|].
  split; [done|done| |].
  - intros [|m] rest Hm _; [lia|]. cbn [_binary_to_variant]. fold rtype ftype. by rewrite Hc, Hu.
  - intros ds0 Hf0. cbn [_variant_to_binary]. fold rtype ftype. rewrite Hc, Hp. cbn [mbind result_bind]. by apply write_ok.
Qed.

Lemma array_ok : built_in_types s !! ftype = None -> is_array rtype = true ->
  encode (S n) allow t v ds = Ok ds' -> encoded.
Proof.
  intros Hb Ha E. cbn [_variant_to_binary] in E. fold rtype ftype in E. rewrite Hb, Ha in E.
  destruct v as [| | |vars|]; try done. apply bind_ok_inv in E as (ds1 & [-> Hf1]%write_ok & E).
  destruct (elements_ok _ _ _ _ _ Hn E) as (bs & vs & -> & Hl & Hlen & Hf & Hnil & Hdec & Henc).
  set (sz := pack_unsigned r (u32 (Z.of_nat (length vars)))) in *.
  assert (fits ds (sz ++ bs)) as Hfit.
  { destruct (decide (vars = [])) as [Hv|Hv]; [by rewrite (Hnil Hv), app_nil_r|]. by apply fits_app, Hf. }
  assert (u32 (Z.of_nat (length vars)) = Z.of_nat (length vars)) as Hu.
  { unfold fits in Hfit. rewrite length_app in Hfit. apply u32_small. lia. }
  assert (0 <= Z.of_nat (length vars) < 2 ^ 32) as Hr by (unfold fits in Hfit; rewrite length_app in Hfit; lia).
  exists (sz ++ bs), (v_array vs). rewrite app_assoc. split_and!; [done..|]. split; [|done| |].
  - intros [He _]%app_eq_nil. unfold sz in He. rewrite Hu in He. by eapply pack_unsigned_nonempty.
  - intros [|m] rest Hm _; [lia|]. cbn [_binary_to_variant]. fold rtype ftype. rewrite Hb, Ha, <- app_assoc.
    unfold sz. rewrite Hu, (raw_unsigned _ Hraw) by done. cbn [unpacked mbind result_bind].
    rewrite Nat2Z.id, Hdec by lia. done.
  - intros ds0 Hf0. cbn [_variant_to_binary]. fold rtype ftype. rewrite Hb, Ha, Hl. fold sz.
    rewrite (proj2 (write_ok ds0 sz (ds0 ++ sz))) by (split; [done|by eapply fits_prefix]). cbn [mbind result_bind].
    rewrite Henc by (by apply fits_app). by rewrite <- app_assoc.
Qed.

Lemma optional_ok : built_in_types s !! ftype = None -> is_array rtype = false -> is_optional rtype = true ->
  encode (S n) allow t v ds = Ok ds' -> encoded.
Proof.
  intros Hb Ha Ho E. cbn [_variant_to_binary] in E. fold rtype ftype in E. rewrite Hb, Ha, Ho in E.
  apply bind_ok_inv in E as (ds1 & [-> Hf1]%write_ok & E). destruct (is_null v) eqn:Ev; cbn [negb] in E.
  - injection E as <-. exists (pack_flag r false), v_null. split_and!; [done..|]. split; [by apply pack_flag_nonempty|congruence| |].
    + intros [|m] rest Hm _; [lia|]. cbn [_binary_to_variant]. fold rtype ftype. rewrite Hb, Ha, Ho.
      by rewrite (raw_flag _ Hraw).
    + intros ds0 Hf0. cbn [_variant_to_binary]. fold rtype ftype. rewrite Hb, Ha, Ho. cbn [is_null negb].
      by rewrite (proj2 (write_ok ds0 _ (ds0 ++ pack_flag r false))).
  - destruct (Hn _ _ _ _ _ E) as (bs & v' & -> & Hf & []). exists (pack_flag r true ++ bs), v'. rewrite app_assoc.
    split_and!; [done|by apply fits_app|]. split; [by intros [He _]%app_eq_nil; eapply pack_flag_nonempty|done| |].
    + intros [|m] rest Hm Hr; [lia|]. cbn [_binary_to_variant]. fold rtype ftype. rewrite Hb, Ha, Ho, <- app_assoc.
      rewrite (raw_flag _ Hraw). cbn [unpacked mbind result_bind]. apply de_decode0; [lia|done].
    + intros ds0 Hf0. cbn [_variant_to_binary]. fold rtype ftype. rewrite Hb, Ha, Ho, de_null0 by done. cbn [negb].
      rewrite (proj2 (write_ok ds0 _ (ds0 ++ pack_flag r true))) by (split; [done|by eapply fits_prefix]).
      cbn [mbind result_bind]. rewrite de_encode0 by (by apply fits_app). by rewrite <- app_assoc.
Qed.

Lemma position_lookup x l i : position x l = Some i -> l !! i = Some x /\ (i < length l)%nat.
Proof.
  revert i. induction l as [|y l IH]; intros i; cbn; [done|]. destruct (String.eqb_spec y x) as [->|_].
  - intros [= <-]. cbn. split; [done|lia].
  - intros (j & Hj & ->)%fmap_Some. destruct (IH j Hj). cbn. split; [done|lia].
Qed.

Lemma variant_ok var : built_in_types s !! ftype = None -> is_array rtype = false -> is_optional rtype = false ->
  variants s !! rtype = Some var -> encode (S n) allow t v ds = Ok ds' -> encoded.
Proof.
  intros Hb Ha Ho Hv E. cbn [_variant_to_binary] in E. fold rtype ftype in E. rewrite Hb, Ha, Ho, Hv in E.
  destruct v as [| | |[|[| |x| |] [|y [|]]]|]; try done. destruct (position x (types var)) as [i|] eqn:Ei; [|done].
  apply bind_ok_inv in E as (ds1 & [-> Hf1]%write_ok & E). destruct (Hn _ _ _ _ _ E) as (bs & y' & -> & Hf & []).
  destruct (position_lookup _ _ _ Ei) as [Hi Hlt]. pose proof (wf_variants _ Hwf _ _ Hv) as Hmax.
  assert (u32 (Z.of_nat i) = Z.of_nat i) as Hu by (apply u32_small; lia).
  rewrite Hu in *. set (tag := pack_unsigned r (Z.of_nat i)) in *.
  exists (tag ++ bs), (v_array [v_string x; y']). rewrite app_assoc. split_and!; [done|by apply fits_app|].
  split; [|done| |].
  - intros [He _]%app_eq_nil. eapply pack_unsigned_nonempty; [done| |exact He]. lia.
  - intros [|m] rest Hm Hr; [lia|]. cbn [_binary_to_variant]. fold rtype ftype. rewrite Hb, Ha, Ho, Hv, <- app_assoc.
    unfold tag. rewrite (raw_unsigned _ Hraw) by lia. cbn [unpacked mbind result_bind]. rewrite Nat2Z.id, Hi.
    rewrite de_decode0 by (lia || done). done.
  - intros ds0 Hf0. cbn [_variant_to_binary]. fold rtype ftype. rewrite Hb, Ha, Ho, Hv, Ei, Hu. fold tag.
    rewrite (proj2 (write_ok ds0 tag (ds0 ++ tag))) by (split; [done|by eapply fits_prefix]). cbn [mbind result_bind].
    rewrite de_encode0 by (by apply fits_app). by rewrite <- app_assoc.
Qed.

Lemma object_ok st : built_in_types s !! ftype = None -> is_array rtype = false -> is_optional rtype = false ->
  variants s !! rtype = None -> structs s !! rtype = Some st -> encode (S n) allow t v ds = Ok ds' -> encoded.
Proof.
  intros Hb Ha Ho Hv Hst E. cbn [_variant_to_binary] in E. fold rtype ftype in E. rewrite Hb, Ha, Ho, Hv, Hst in E.
  destruct (Hobj rtype st allow v ds ds' Hst E) as (bs & ents & -> & Hf & []).
  exists bs, (v_object ents). split_and!; [done..|]. split; [done|done| |].
  - intros [|m] rest Hm Hr; [lia|]. cbn [_binary_to_variant]. fold rtype ftype. rewrite Hb, Ha, Ho, Hv.
    rewrite do_decode0; [|lia|done|set_solver]. cbn [mbind result_bind app]. by destruct ents.
  - intros ds0 Hf0. cbn [_variant_to_binary]. fold rtype ftype. rewrite Hb, Ha, Ho, Hv, Hst. by apply do_encode0.
Qed.
End step.

Lemma encodes_step n : encodes n -> objects n -> encodes (S n).
Proof.
  intros Hn Ho allow t v ds ds' E. destruct (built_in_types s !! fundamental_type (resolve_type s t)) as [c|] eqn:Eb.
  { by eapply builtin_ok. }
  destruct (is_array (resolve_type s t)) eqn:Ea; [by apply array_ok|].
  destruct (is_optional (resolve_type s t)) eqn:Eo; [by apply optional_ok|].
  destruct (variants s !! resolve_type s t) as [var|] eqn:Ev; [by eapply variant_ok|].
  destruct (structs s !! resolve_type s t) as [st|] eqn:Es; [by eapply object_ok|].
  cbn [_variant_to_binary] in E. by rewrite Eb, Ea, Eo, Ev, Es in E.
Qed.

Lemma encodes_all n : encodes n /\ objects n.
Proof.
  induction n as [|n [IH1 IH2]].
  - assert (encodes 0) as H0 by done. split; [done|]. by apply struct_ok.
  - assert (encodes (S n)) as H by (by apply encodes_step). split; [done|]. apply struct_ok; [done|]. by intros m [= <-].
Qed.

End roundtrip.
Lemma set_abi_builtins {A} scopes (builtins : gmap type_name (coder A)) abi s :
  set_abi scopes builtins abi = Ok s -> built_in_types s = builtins.
Proof.
  intros E. unfold set_abi in E. apply bind_ok_inv in E as ([] & _ & E). apply bind_ok_inv in E as (s0 & E0 & E).
  do 7 (apply bind_ok_inv in E as ([] & _ & E)). apply bind_ok_inv in E as ([] & _ & [= <-]).
  by apply typedefs_keep in E0 as [_ ?].
Qed.

(** C14: what the serializer encodes it decodes.  Let an ABI be accepted by
    [set_abi] and well formed, and let fc unpack what it packs.  When a value is
    encoded as a type, with [n] nested scopes below the first, the decoder with
    twice as many reads the data to the end and gives a value, which is encoded as
    the same data: structs with their bases and trailing extensions, arrays,
    optionals, variants and chains of typedefs included. *)
Theorem abi_roundtrip {A} (r : raw A) (scopes n m : nat) (builtins : gmap type_name (coder A)) (abi : abi_def)
    (s : abi_serializer A) (names : type_name -> list string) (t : type_name) (v : fc_variant A) (bs : bytes) :
  raw_laws r -> (forall b c, builtins !! b = Some c -> coder_laws c) ->
  set_abi scopes builtins abi = Ok s -> well_formed s names ->
  _is_type s n t = Ok true -> variant_to_binary r s (S n) t v = Ok bs -> (2 * n <= m)%nat ->
  exists v', binary_to_variant r s (S m) t bs = Ok v' /\ variant_to_binary r s (S n) t v' = Ok bs.
Proof.
  intros Hr Hc Hs Hwf Ht E Hm. cbn [variant_to_binary] in *. rewrite Ht in *. cbn [mbind result_bind] in *.
  destruct (encodes_all r s buffer_size names Hr) with (n := n) as [Hn _]; [|by eapply set_abi_valid|done|done|].
  { intros b c. rewrite (set_abi_builtins _ _ _ _ Hs). apply Hc. }
  destruct (Hn _ _ _ _ _ E) as (bs' & v' & -> & Hf & []). exists v'. cbn [binary_to_variant app].
  split; [|by apply de_encode0]. pose proof (de_decode0 m [] Hm) as H. rewrite app_nil_r in H. by rewrite H.
Qed.

(** ** An ABI *)

Lemma word_raw_laws : raw_laws word_raw.
Proof.
  split; [|by intros [] rest]. intros n rest Hn. cbn. do 2 f_equal.
  Z.to_euclidean_division_equations. lia.
Qed.

Lemma byte_coder_laws : coder_laws byte_coder.
Proof.
  intros [|x| | |] [] [] bs; try done. cbn. destruct ((0 <=? x) && (x <? 256)) eqn:Ex; [|done].
  intros [= <-]. split; [done|]. exists (v_atom x). cbn. by rewrite Ex.
Qed.

Definition sample_names (k : type_name) : list string :=
  if String.eqb k "point1" then ["x"]
  else if String.eqb k "point2" then ["x"; "y"; "z"]
  else ["points"; "start"; "style"].

Definition sample_point (x y z : Z) : fc_variant Z :=
  v_object [("z", v_atom z); ("y", v_atom y); ("x", v_atom x)]%string.
Definition sample_line : fc_variant Z :=
  v_array [v_array [sample_point 1 2 3; sample_point 4 5 6]; v_null; v_array [v_string "point"; v_object [("x", v_atom 7); ("y", v_atom 8)]]]%string.

Lemma sample_well_formed : well_formed sample_serializer sample_names.
Proof.
  split.
  - intros k st Hk. cases_of_map Hk; vm_compute; repeat split; intros; try done; repeat constructor.
  - intros k st Hk Hb. cases_of_map Hk; try done; (eexists; split; [apply elem_of_cons; left; reflexivity|reflexivity]).
  - intros k st Hk. cases_of_map Hk; (split; [apply (bool_decide_unpack _); vm_compute; exact I|vm_compute; reflexivity]).
  - intros k st Hk Hb. cases_of_map Hk; try done; vm_compute; done.
  - intros k v Hk. cases_of_map Hk; vm_compute; congruence.
Qed.

Lemma sample_coders b c : sample_builtins !! b = Some c -> coder_laws c.
Proof.
  unfold sample_builtins, configure_built_in_types. intros H%elem_of_list_to_map_2.
  apply list_elem_of_fmap in H as (n & [= _ ->] & _). exact byte_coder_laws.
Qed.

Lemma abi_roundtrip_witness : exists v',
  variant_to_binary word_raw sample_serializer 9 "line" sample_line =
    Ok [2; 0; 0; 0; 1; 2; 3; 4; 5; 6; 0; 1; 0; 0; 0; 7; 8] /\
  binary_to_variant word_raw sample_serializer max_scopes "line" [2; 0; 0; 0; 1; 2; 3; 4; 5; 6; 0; 1; 0; 0; 0; 7; 8] = Ok v'.
Proof.
  destruct (abi_roundtrip word_raw max_scopes 8 30 sample_builtins sample_abi sample_serializer sample_names "line"
    sample_line [2; 0; 0; 0; 1; 2; 3; 4; 5; 6; 0; 1; 0; 0; 0; 7; 8]) as (v' & Hv & _).
  - exact word_raw_laws.
  - exact sample_coders.
  - vm_compute; reflexivity.
  - exact sample_well_formed.
  - vm_compute; reflexivity.
  - vm_compute; reflexivity.
  - lia.
  - exists v'. split; [vm_compute; reflexivity|exact Hv].
Defined.

(** ** What is not checked *)

Definition serializer_of (structs : list struct_def) : abi_serializer Z :=
  match set_abi max_scopes sample_builtins (mk_abi "eosio::abi/1.1" [] structs [] [] [] [] []) with
  | Ok s => s | Throw _ => mk_serializer ∅ ∅ ∅ ∅ ∅ ∅ ∅ ∅
  end.

(** A list whose elements have an optional next element *)
Definition list_abi : list struct_def := [mk_struct "node" "" [mk_field "value" "uint8"; mk_field "next" "node?"]].
Fixpoint list_value (n : nat) : fc_variant Z :=
  match n with
  | O => v_null
  | S n => v_object [("value", v_atom 0); ("next", list_value n)]%string
  end.

(** The decoder opens two scopes for a struct and the encoder one: eleven nodes are
    encoded and not decoded. *)
Lemma deep_value_not_decoded :
  exists bs, variant_to_binary word_raw (serializer_of list_abi) max_scopes "node?" (list_value 11) = Ok bs /\
    binary_to_variant word_raw (serializer_of list_abi) max_scopes "node?" bs = Throw abi_recursion_depth_exception.
Proof. eexists. split; vm_compute; reflexivity. Qed.

(** A field that is required after an extension: an array that ends before the
    extension is encoded, an object without both is refused. *)
Definition late_abi : list struct_def :=
  [mk_struct "late" "" [mk_field "a" "uint8"; mk_field "b" "uint8$"; mk_field "c" "uint8"]].
Lemma array_skips_required_field :
  variant_to_binary word_raw (serializer_of late_abi) max_scopes "late" (v_array [v_atom 1]) = Ok [1] /\
  variant_to_binary word_raw (serializer_of late_abi) max_scopes "late" (v_object [("a", v_atom 1)]%string) = Throw abi_exception /\
  binary_to_variant word_raw (serializer_of late_abi) max_scopes "late" [1] = Throw abi_exception.
Proof. vm_compute. done. Qed.

(** Arrays of a fixed size are types, but only one element of a built-in type is
    encoded, and those of a struct are unknown to both conversions. *)
Definition sized_abi : list struct_def :=
  [mk_struct "pair" "" [mk_field "a" "uint8"]; mk_struct "sized" "" [mk_field "a" "uint8[2]"; mk_field "b" "pair[2]"]].
Lemma sized_array_unknown :
  (exists s, set_abi max_scopes sample_builtins (mk_abi "eosio::abi/1.1" [] sized_abi [] [] [] [] []) = Ok s) /\
  variant_to_binary word_raw (serializer_of sized_abi) max_scopes "uint8[2]" (v_atom 1) = Ok [1] /\
  binary_to_variant word_raw (serializer_of sized_abi) max_scopes "sized" [1; 2; 3; 4] = Throw invalid_type_inside_abi.
Proof. split_and!; [eexists|..]; vm_compute; reflexivity. Qed.

End AbiRoundtrip.
