(* ===== verification/SubjectiveBilling.v ===== *)
(** * Subjective billing:
      plugins/producer_plugin/include/eosio/producer_plugin/subjective_billing.hpp

    A node charges the first authorizer of a transaction for CPU time that no
    block has charged yet.  [subjective_billing] keeps the transactions that may
    still get into a block, the sum of their bills for every account, the part of
    it that is in the block under construction, and an accumulator of expired and
    failed transactions that decays.  [accounted] ties them together. *)

From S2P Require Import Prelude Merkle Accumulators.

Module SubjectiveBilling.
Import Accumulator.

Abbreviation transaction_id_type := Merkle.digest_type.

Record trx_cache_entry := mk_entry {
  trx_id : transaction_id_type;
  account : Z;
  subjective_cpu_bill : Z;
  expiry : Z;
}.

Record subjective_billing_info := mk_info {
  pending_cpu_us : Z;
  expired_accumulator : decay_accumulator;
}.

(** [trx_cache] is the index by expiry, in its order. *)
Record subjective_billing := mk_billing {
  disabled : bool;
  trx_cache : list trx_cache_entry;
  account_cache : gmap Z subjective_billing_info;
  block_cache : gmap Z Z;
  disabled_accounts : gset Z;
  average_window : Z;
}.

Definition subjective_time_interval_ms : Z := 5000.
Definition account_cpu_usage_average_window_ms : Z := 24 * 60 * 60 * 1000.

Definition new_billing : subjective_billing :=
  mk_billing false [] ∅ ∅ ∅ (account_cpu_usage_average_window_ms / subjective_time_interval_ms).
Definition new_info : subjective_billing_info := mk_info 0 (mk_decay 0 0).

Definition set_accounts (m : gmap Z subjective_billing_info) (s : subjective_billing) : subjective_billing :=
  mk_billing (disabled s) (trx_cache s) m (block_cache s) (disabled_accounts s) (average_window s).
Definition set_trx_cache (l : list trx_cache_entry) (s : subjective_billing) : subjective_billing :=
  mk_billing (disabled s) l (account_cache s) (block_cache s) (disabled_accounts s) (average_window s).
Definition set_block_cache (m : gmap Z Z) (s : subjective_billing) : subjective_billing :=
  mk_billing (disabled s) (trx_cache s) (account_cache s) m (disabled_accounts s) (average_window s).

Definition info_of (s : subjective_billing) (a : Z) : subjective_billing_info := default new_info (account_cache s !! a).

(** The quotient of a signed by an unsigned integer is unsigned. *)
Definition time_ordinal_for (t : Z) : result Z :=
  let ordinal := u64 t / (1000 * subjective_time_interval_ms) in
  EOS_ASSERT (ordinal <=? UINT32_MAX) tx_resource_exhaustion;;
  Ok ordinal.

Definition info_empty (i : subjective_billing_info) (time_ordinal window : Z) : result bool :=
  if pending_cpu_us i =? 0 then v ← value_at (expired_accumulator i) time_ordinal window; Ok (v =? 0) else Ok false.

(** The assertion that an unsigned difference is not negative always holds. *)
Definition remove_entry_billing (e : trx_cache_entry) (time_ordinal : Z) (s : subjective_billing)
  : result subjective_billing :=
  match account_cache s !! account e with
  | None => Ok s
  | Some i =>
      let i := mk_info (u64 (pending_cpu_us i - subjective_cpu_bill e)) (expired_accumulator i) in
      EOS_ASSERT (0 <=? pending_cpu_us i) tx_resource_exhaustion;;
      b ← info_empty i time_ordinal (average_window s);
      Ok (set_accounts (if b : bool then delete (account e) (account_cache s) else <[account e := i]> (account_cache s)) s)
  end.

Definition transition_to_expired (e : trx_cache_entry) (time_ordinal : Z) (s : subjective_billing)
  : result subjective_billing :=
  match account_cache s !! account e with
  | None => Ok s
  | Some i =>
      acc ← decay_add (expired_accumulator i) (subjective_cpu_bill e) time_ordinal (average_window s);
      Ok (set_accounts (<[account e := mk_info (u64 (pending_cpu_us i - subjective_cpu_bill e)) acc]> (account_cache s)) s)
  end.

Definition remove_subjective_billing (id : transaction_id_type) (time_ordinal : Z) (s : subjective_billing)
  : result subjective_billing :=
  match List.find (fun e => bool_decide (trx_id e = id)) (trx_cache s) with
  | None => Ok s
  | Some e =>
      s ← remove_entry_billing e time_ordinal s;
      Ok (set_trx_cache (filter (fun x => trx_id x <> id) (trx_cache s)) s)
  end.

(** The receipts of a block: the id of a transaction that is in the block, or
    nothing for a scheduled one *)
Definition remove_block_billing (receipts : list (option transaction_id_type)) (time_ordinal : Z)
    (s : subjective_billing) : result subjective_billing :=
  if decide (trx_cache s = []) then Ok s
  else foldM (fun s r => match r with Some id => remove_subjective_billing id time_ordinal s | None => Ok s end) s receipts.

Definition disable (s : subjective_billing) : subjective_billing :=
  mk_billing true (trx_cache s) (account_cache s) (block_cache s) (disabled_accounts s) (average_window s).
Definition disable_account (a : Z) (s : subjective_billing) : subjective_billing :=
  mk_billing (disabled s) (trx_cache s) (account_cache s) (block_cache s) ({[a]} ∪ disabled_accounts s) (average_window s).
Definition is_account_disabled (s : subjective_billing) (a : Z) : bool :=
  disabled s || bool_decide (a ∈ disabled_accounts s).

(** An element is linked after those that are not greater. *)
Fixpoint insert_by_expiry (e : trx_cache_entry) (l : list trx_cache_entry) : list trx_cache_entry :=
  match l with
  | [] => [e]
  | x :: l => if expiry e <? expiry x then e :: x :: l else x :: insert_by_expiry e l
  end.

Definition subjective_bill (id : transaction_id_type) (expire first_auth elapsed : Z) (in_pending_block : bool)
    (s : subjective_billing) : subjective_billing :=
  if is_account_disabled s first_auth then s
  else
    let bill := u32 (Z.max 0 elapsed) in
    if existsb (fun e => bool_decide (trx_id e = id)) (trx_cache s) then s
    else
      let i := info_of s first_auth in
      let s := set_trx_cache (insert_by_expiry (mk_entry id first_auth bill expire) (trx_cache s)) s in
      let s := set_accounts (<[first_auth := mk_info (u64 (pending_cpu_us i + bill)) (expired_accumulator i)]> (account_cache s)) s in
      if in_pending_block then
        set_block_cache (<[first_auth := u64 (default 0 (block_cache s !! first_auth) + bill)]> (block_cache s)) s
      else s.

Definition subjective_bill_failure (first_auth elapsed now : Z) (s : subjective_billing) : result subjective_billing :=
  if is_account_disabled s first_auth then Ok s
  else
    let bill := u32 (Z.max 0 elapsed) in
    time_ordinal ← time_ordinal_for now;
    let i := info_of s first_auth in
    acc ← decay_add (expired_accumulator i) bill time_ordinal (average_window s);
    Ok (set_accounts (<[first_auth := mk_info (pending_cpu_us i) acc]> (account_cache s)) s).

Definition get_subjective_bill (s : subjective_billing) (first_auth now : Z) : result Z :=
  if is_account_disabled s first_auth then Ok 0
  else
    time_ordinal ← time_ordinal_for now;
    let in_block_pending_cpu_us := default 0 (block_cache s !! first_auth) in
    match account_cache s !! first_auth with
    | None => Ok 0
    | Some i =>
        EOS_ASSERT (in_block_pending_cpu_us <=? pending_cpu_us i) tx_resource_exhaustion;;
        v ← value_at (expired_accumulator i) time_ordinal (average_window s);
        Ok (u32 (u64 (pending_cpu_us i - in_block_pending_cpu_us + v)))
    end.

Definition abort_block (s : subjective_billing) : subjective_billing := set_block_cache ∅ s.

Definition on_block (bsp : option (list (option transaction_id_type))) (now : Z) (s : subjective_billing)
  : result subjective_billing :=
  match bsp with
  | None => Ok s
  | Some receipts =>
      if disabled s then Ok s
      else time_ordinal ← time_ordinal_for now; remove_block_billing receipts time_ordinal s
  end.

(** The loop of [remove_expired] over the entries [l]; [clock] gives the times
    that it reads, and the result says whether the deadline was reached. *)
Fixpoint expire_loop (clock : nat -> Z) (i : nat) (pending_block_time time_ordinal deadline : Z)
    (l : list trx_cache_entry) (s : subjective_billing) : result (bool * subjective_billing) :=
  match l with
  | [] => Ok (false, s)
  | b :: l =>
      if deadline <=? clock i then Ok (true, s)
      else if pending_block_time <? expiry b then Ok (false, s)
      else
        s ← transition_to_expired b time_ordinal s;
        expire_loop clock (S i) pending_block_time time_ordinal deadline l (set_trx_cache l s)
  end.

Definition remove_expired (clock : nat -> Z) (pending_block_time now deadline : Z) (s : subjective_billing)
  : result (bool * subjective_billing) :=
  if decide (trx_cache s = []) then Ok (true, s)
  else
    time_ordinal ← time_ordinal_for now;
    '(exhausted, s) ← expire_loop clock 0 pending_block_time time_ordinal deadline (trx_cache s) s;
    Ok (negb exhausted, s).

Definition set_expired_accumulator_average_window (decay_time : Z) (s : subjective_billing) : subjective_billing :=
  mk_billing (disabled s) (trx_cache s) (account_cache s) (block_cache s) (disabled_accounts s)
    (u32 (Z.quot (Z.quot decay_time 1000) subjective_time_interval_ms)).

(** ** The accumulator *)

(** Also for an empty window *)
Lemma value_ex_at_decayed a ordinal w : decay_wf a -> is_u32 ordinal -> is_u32 w ->
  value_ex_at a ordinal w = Ok (decayed (decay_value_ex a) (decay_last_ordinal a) ordinal w).
Proof.
  intros Ha Ho Hw. destruct (decide (w = 0)) as [->|Hne]; [|apply value_ex_at_exact; [done..|lia]].
  destruct Ha as [Hl Hv]. unfold value_ex_at, decayed. rewrite Z.add_0_r, u64_small by lia.
  destruct (Z.ltb_spec (decay_last_ordinal a) ordinal) as [Hlt|Hge].
  - by rewrite (proj2 (Z.leb_gt _ _) Hlt), (proj2 (Z.ltb_ge _ _)) by lia.
  - by rewrite (proj2 (Z.leb_le _ _)) by lia.
Qed.

Lemma decayed_range v last ordinal w : 0 <= v -> 0 <= w -> 0 <= decayed v last ordinal w <= v.
Proof.
  intros Hv Hw. destruct (decide (w = 0)) as [->|Hne]; [|apply decayed_bounds; lia]. unfold decayed.
  destruct (Z.leb_spec ordinal last); [lia|]. destruct (Z.ltb_spec ordinal (last + 0)); lia.
Qed.

Lemma decay_add_ok a units ordinal w : decay_wf a -> is_u32 units -> is_u32 ordinal -> is_u32 w ->
  exists a', decay_add a units ordinal w = Ok a' /\ decay_wf a'.
Proof.
  intros Hwf Hu Ho Hw. unfold decay_add. rewrite max_raw_value_eq, (proj2 (Z.leb_le _ _)) by lia.
  cbn [EOS_ASSERT mbind result_bind].
  assert (exists b, (if decay_last_ordinal a <? ordinal then v ← value_ex_at a ordinal w; mret (mk_decay ordinal v) else mret a) = Ok b
    /\ decay_wf b) as (b & -> & [Hb1 Hb2]).
  { destruct (decay_last_ordinal a <? ordinal); [|by exists a]. rewrite value_ex_at_decayed by done.
    eexists. split; [reflexivity|]. destruct Hwf as [Hl Hv]. split; cbn; [done|].
    pose proof (decayed_range (decay_value_ex a) (decay_last_ordinal a) ordinal w). lia. }
  cbn [mbind result_bind]. unfold downgrade_cast_u64, UINT64_MAX. rewrite (u128_small (units * _)) by (unfold rate_limiting_precision; lia).
  rewrite u128_small by (unfold rate_limiting_precision; lia). set (x := Z.min _ _).
  assert (0 <= x < 2 ^ 64) as Hx by (unfold x, rate_limiting_precision; lia).
  rewrite (proj2 (Z.leb_le 0 x)), (proj2 (Z.leb_le x _)) by lia. by exists (mk_decay (decay_last_ordinal b) x).
Qed.

Lemma value_at_exact a ordinal w : decay_wf a -> is_u32 ordinal -> is_u32 w ->
  value_at a ordinal w = Ok (ceil_div (decayed (decay_value_ex a) (decay_last_ordinal a) ordinal w) rate_limiting_precision).
Proof.
  intros Ha Ho Hw. unfold value_at. rewrite value_ex_at_decayed by done. cbn [mbind result_bind].
  rewrite integer_divide_ceil_spec; [done| |done]. destruct Ha as [_ Hv].
  by apply decayed_range; lia.
Qed.

Lemma time_ordinal_range t o : time_ordinal_for t = Ok o -> is_u32 o.
Proof.
  intros E. unfold time_ordinal_for in E. apply bind_ok_inv in E as ([] & H%EOS_ASSERT_ok & [= <-]).
  apply Z.leb_le in H. unfold UINT32_MAX in H. split; [|lia]. apply Z.div_pos; [apply u64_range|done].
Qed.

(** ** The accounts *)

(** The bills of the transactions of an account *)
Fixpoint billed (a : Z) (l : list trx_cache_entry) : Z :=
  match l with
  | [] => 0
  | e :: l => (if account e =? a then subjective_cpu_bill e else 0) + billed a l
  end.

Definition in_block (s : subjective_billing) (a : Z) : Z := default 0 (block_cache s !! a).

Definition later (x y : trx_cache_entry) : Prop := expiry x <= expiry y.

Record accounted (s : subjective_billing) : Prop := {
  ac_ids : NoDup (trx_id <$> trx_cache s);
  ac_bills : Forall (fun e => is_u32 (subjective_cpu_bill e)) (trx_cache s);
  ac_sorted : StronglySorted later (trx_cache s);
  ac_size : Z.of_nat (length (trx_cache s)) <= 2 ^ 32;
  ac_pending : forall a, pending_cpu_us (info_of s a) = billed a (trx_cache s);
  ac_decay : forall a, decay_wf (expired_accumulator (info_of s a));
  ac_block : forall a, is_u64 (in_block s a);
  ac_window : is_u32 (average_window s);
}.

(** The block under construction charges no more than what is pending. *)
Definition covered (s : subjective_billing) : Prop := forall a, in_block s a <= billed a (trx_cache s).

Lemma billed_range a l : Forall (fun e => is_u32 (subjective_cpu_bill e)) l ->
  0 <= billed a l <= Z.of_nat (length l) * (2 ^ 32 - 1).
Proof. induction 1 as [|e l He _ IH]; cbn [billed length]; [lia|]. destruct (account e =? a); lia. Qed.

Lemma billed_small a l : Forall (fun e => is_u32 (subjective_cpu_bill e)) l -> Z.of_nat (length l) <= 2 ^ 32 ->
  is_u64 (billed a l).
Proof. intros H Hl. pose proof (billed_range a l H). lia. Qed.

Lemma billed_perm a l k : l ≡ₚ k -> billed a l = billed a k.
Proof. induction 1; cbn; lia. Qed.

Lemma insert_perm e l : insert_by_expiry e l ≡ₚ e :: l.
Proof.
  induction l as [|x l IH]; cbn; [done|]. destruct (expiry e <? expiry x); [done|]. rewrite IH. apply Permutation_swap.
Qed.

Lemma insert_sorted e l : StronglySorted later l -> StronglySorted later (insert_by_expiry e l).
Proof.
  unfold later. induction 1 as [|x l Hs IH Hx]; cbn; [by repeat constructor|].
  destruct (Z.ltb_spec (expiry e) (expiry x)) as [H|H].
  - constructor; [by constructor|]. constructor; [lia|]. eapply Forall_impl; [exact Hx|]. cbn. lia.
  - constructor; [done|]. rewrite insert_perm. by constructor.
Qed.

Lemma info_of_insert s a i b : info_of (set_accounts (<[a := i]> (account_cache s)) s) b =
  if decide (a = b) then i else info_of s b.
Proof.
  unfold info_of. cbn. destruct (decide (a = b)) as [->|H]; [by rewrite lookup_insert_eq|by rewrite lookup_insert_ne].
Qed.

Lemma info_of_delete s a b : info_of (set_accounts (delete a (account_cache s)) s) b =
  if decide (a = b) then new_info else info_of s b.
Proof.
  unfold info_of. cbn. destruct (decide (a = b)) as [->|H]; [by rewrite lookup_delete_eq|by rewrite lookup_delete_ne].
Qed.

Lemma new_info_wf : decay_wf (expired_accumulator new_info).
Proof. split; cbn; lia. Qed.

(** ** The operations keep the accounts *)

Lemma new_accounted : accounted new_billing.
Proof.
  split; cbn; try done; try constructor; try (intros a; apply new_info_wf); try done.
Qed.

Lemma bill_accounted id expire a elapsed b s : accounted s -> Z.of_nat (length (trx_cache s)) < 2 ^ 32 ->
  let s' := subjective_bill id expire a elapsed b s in accounted s' /\ (covered s -> covered s').
Proof.
  intros Hs Hlen. cbv zeta. pose proof Hs as []. unfold subjective_bill. destruct (is_account_disabled s a); [done|].
  set (bill := u32 (Z.max 0 elapsed)). assert (is_u32 bill) as Hbill by apply u32_range.
  destruct (existsb _ (trx_cache s)) eqn:Ex; [done|].
  set (e := mk_entry id a bill expire). pose proof (insert_perm e (trx_cache s)) as Hp.
  assert (forall x, billed x (insert_by_expiry e (trx_cache s)) = (if a =? x then bill else 0) + billed x (trx_cache s)) as Hb.
  { intros x. rewrite (billed_perm x _ _ Hp). done. }
  assert (Forall (fun e => is_u32 (subjective_cpu_bill e)) (insert_by_expiry e (trx_cache s))) as Hu
    by (rewrite Hp; by constructor).
  assert (Z.of_nat (length (insert_by_expiry e (trx_cache s))) <= 2 ^ 32) as Hlen' by (rewrite Hp; cbn; lia).
  assert (forall x, is_u64 (billed x (insert_by_expiry e (trx_cache s)))) as Hsm by (intros; by apply billed_small).
  set (s1 := set_trx_cache _ s). set (s2 := set_accounts _ s1).
  assert (accounted s2) as Hs2.
  { split; cbn [trx_cache s2 s1 set_accounts set_trx_cache average_window]; try done.
    - rewrite Hp. cbn. constructor; [|done]. intros (y & -> & Hy)%list_elem_of_fmap.
      apply not_true_iff_false in Ex. apply Ex, existsb_exists. exists y. split; [by apply list_elem_of_In|].
      by apply bool_decide_eq_true.
    - by apply insert_sorted.
    - intros x. unfold s2. rewrite info_of_insert. rewrite Hb. specialize (Hsm x). rewrite Hb in Hsm.
      destruct (decide (a = x)) as [<-|Hne].
      + cbn [pending_cpu_us]. rewrite Z.eqb_refl in *. rewrite ac_pending0 in *. rewrite u64_small; lia.
      + rewrite (proj2 (Z.eqb_neq _ _)) by done. apply ac_pending0.
    - intros x. unfold s2. rewrite info_of_insert. destruct (decide (a = x)); [apply (ac_decay0 a)|apply (ac_decay0 x)].
  }
  assert (forall x, billed x (trx_cache s) <= billed x (trx_cache s2)) as Hmono.
  { intros x. cbn [s2 s1 set_accounts set_trx_cache trx_cache]. rewrite Hb. destruct (a =? x); lia. }
  destruct b; [|split; [done|]; intros Hc x; specialize (Hc x); specialize (Hmono x); unfold in_block in *; cbn in *; lia].
  split.
  - destruct Hs2. split; try done. intros x. unfold in_block. cbn. destruct (decide (a = x)) as [<-|Hne].
    + rewrite lookup_insert_eq. apply u64_range.
    + rewrite lookup_insert_ne by done. apply (ac_block0 x).
  - intros Hc x. specialize (Hc x). specialize (Hsm x). specialize (ac_block0 x). unfold in_block in *.
    cbn [trx_cache set_block_cache s2 s1 set_accounts set_trx_cache block_cache]. rewrite Hb in *.
    destruct (decide (a = x)) as [<-|Hne].
    + rewrite lookup_insert_eq. rewrite Z.eqb_refl in *. cbn. rewrite u64_small; lia.
    + rewrite lookup_insert_ne by done. rewrite (proj2 (Z.eqb_neq _ _)) by done. lia.
Qed.

(** The transaction [e] goes, and its account becomes [i]. *)
Lemma accounted_remove s e l i : accounted s -> trx_cache s ≡ₚ e :: l -> StronglySorted later l ->
  decay_wf (expired_accumulator i) ->
  pending_cpu_us i = pending_cpu_us (info_of s (account e)) - subjective_cpu_bill e ->
  accounted (set_trx_cache l (set_accounts (<[account e := i]> (account_cache s)) s)) /\
  (pending_cpu_us i = 0 -> accounted (set_trx_cache l (set_accounts (delete (account e) (account_cache s)) s))).
Proof.
  intros [] Hp Hl Hwf Hpend. rewrite ac_pending0 in Hpend.
  assert (forall x, billed x (trx_cache s) = (if account e =? x then subjective_cpu_bill e else 0) + billed x l) as Hb
    by (intros x; rewrite (billed_perm x _ _ Hp); done).
  rewrite Hb, Z.eqb_refl in Hpend. rewrite Hp in ac_ids0, ac_bills0, ac_size0. cbn in ac_ids0, ac_size0.
  apply NoDup_cons in ac_ids0 as [_ Hids]. apply Forall_cons in ac_bills0 as [_ Hbills].
  split; [|intros H0]; (split; cbn [trx_cache set_trx_cache set_accounts average_window]; try done; try lia); intros x;
    change (info_of (set_trx_cache l ?z) x) with (info_of z x); rewrite ?info_of_insert, ?info_of_delete;
    destruct (decide (account e = x)) as [<-|Hne]; try done; try apply new_info_wf; cbn [new_info pending_cpu_us]; try lia.
  all: rewrite ac_pending0, Hb, (proj2 (Z.eqb_neq _ _)) by done; lia.
Qed.

Lemma find_entry id l e : NoDup (trx_id <$> l) -> StronglySorted later l ->
  List.find (fun e => bool_decide (trx_id e = id)) l = Some e ->
  l ≡ₚ e :: filter (fun x => trx_id x <> id) l /\ StronglySorted later (filter (fun x => trx_id x <> id) l).
Proof.
  intros Hnd Hs Hf. split; [|by apply StronglySorted_filter].
  revert Hf. induction l as [|x l IH]; cbn [List.find]; [done|]. cbn in Hnd. apply NoDup_cons in Hnd as [Hx Hnd].
  apply StronglySorted_inv in Hs as [Hs _]. rewrite filter_cons. case_bool_decide as Hid.
  - intros [= <-]. rewrite decide_False by (by intros []). f_equiv.
    rewrite list_filter_all; [done|]. intros y Hy Heq. apply Hx. rewrite Hid, <- Heq. by apply list_elem_of_fmap_2.
  - intros Hf. rewrite decide_True by done. rewrite (IH Hnd Hs Hf) at 1. apply Permutation_swap.
Qed.

Lemma billed_elem s e l : accounted s -> trx_cache s ≡ₚ e :: l ->
  0 <= subjective_cpu_bill e <= pending_cpu_us (info_of s (account e)) /\ is_u64 (pending_cpu_us (info_of s (account e))) /\
  is_u32 (subjective_cpu_bill e).
Proof.
  intros [] Hp. pose proof (billed_small (account e) _ ac_bills0 ac_size0) as Hsm. rewrite ac_pending0.
  rewrite (billed_perm _ _ _ Hp) in *. cbn [billed] in *. rewrite Z.eqb_refl in *. rewrite Hp in ac_bills0.
  apply Forall_cons in ac_bills0 as [He Hl]. pose proof (billed_range (account e) l Hl). lia.
Qed.

(** The account of a transaction has no entry: the bill is zero. *)
Lemma accounted_absent s e l : accounted s -> trx_cache s ≡ₚ e :: l -> StronglySorted later l ->
  account_cache s !! account e = None -> accounted (set_trx_cache l s).
Proof.
  intros Hs Hp Hl Hn. assert (info_of s (account e) = new_info) as Hi by (unfold info_of; by rewrite Hn).
  destruct (billed_elem _ _ _ Hs Hp) as (H & _ & _). rewrite Hi in H. cbn in H.
  destruct (accounted_remove s e l new_info Hs Hp Hl new_info_wf) as [_ H2]; [rewrite Hi; cbn; lia|].
  specialize (H2 eq_refl). rewrite delete_id in H2 by done. by destruct s.
Qed.

Lemma remove_billing_ok s id ordinal : accounted s -> is_u32 ordinal ->
  exists s', remove_subjective_billing id ordinal s = Ok s' /\ accounted s' /\ block_cache s' = block_cache s /\
    trx_cache s' = filter (fun x => trx_id x <> id) (trx_cache s).
Proof.
  intros Hs Ho. unfold remove_subjective_billing. destruct (List.find _ (trx_cache s)) as [e|] eqn:Ef.
  2: { exists s. split_and!; [done..|]. symmetry. apply list_filter_all. intros x Hx Heq.
       apply (List.find_none _ _ Ef) in Hx || apply list_elem_of_In, (List.find_none _ _ Ef) in Hx.
       by apply bool_decide_eq_false in Hx. }
  destruct (find_entry _ _ _ (ac_ids _ Hs) (ac_sorted _ Hs) Ef) as [Hp Hl].
  destruct (billed_elem _ _ _ Hs Hp) as (H1 & H2 & _). unfold remove_entry_billing, info_of in *.
  destruct (account_cache s !! account e) as [i|] eqn:Ea; cbn [from_option Datatypes.id mbind result_bind] in *.
  2: { eexists. split_and!; [reflexivity| |done|done]. by eapply accounted_absent. }
  rewrite u64_small by lia. cbn [pending_cpu_us]. rewrite (proj2 (Z.leb_le _ _)) by lia. cbn [EOS_ASSERT mbind result_bind].
  set (i' := mk_info _ _). assert (decay_wf (expired_accumulator i)) as Hwf.
  { pose proof (ac_decay _ Hs (account e)) as H. unfold info_of in H. by rewrite Ea in H. }
  destruct (accounted_remove s e _ i' Hs Hp Hl Hwf) as [Hins Hdel]; [unfold info_of; by rewrite Ea|].
  unfold info_empty. destruct (Z.eqb_spec (pending_cpu_us i') 0) as [H0|H0].
  - rewrite value_at_exact by (done || apply Hs). cbn [mbind result_bind].
    eexists. split_and!; [reflexivity| |by destruct (_ =? 0)|by destruct (_ =? 0)].
    destruct (_ =? 0); [by apply Hdel|done].
  - cbn [mbind result_bind]. eexists. by split_and!; [reflexivity|..].
Qed.

Lemma receipts_ok s receipts ordinal : accounted s -> is_u32 ordinal ->
  exists s', remove_block_billing receipts ordinal s = Ok s' /\ accounted s' /\ block_cache s' = block_cache s /\
    trx_cache s' = filter (fun x => Some (trx_id x) ∉ receipts) (trx_cache s).
Proof.
  intros Hs Ho. unfold remove_block_billing. destruct (decide (trx_cache s = [])) as [He|_].
  { exists s. split_and!; [done..|]. by rewrite He. }
  revert s Hs. induction receipts as [|[id|] l IH]; intros s Hs; cbn [foldM].
  - exists s. split_and!; [done..|]. symmetry. apply list_filter_all. intros x _ H. by apply not_elem_of_nil in H.
  - destruct (remove_billing_ok s id ordinal Hs Ho) as (s1 & -> & Hs1 & Hb1 & Hc1). cbn [mbind result_bind].
    destruct (IH s1 Hs1) as (s2 & -> & Hs2 & Hb2 & Hc2). exists s2. split_and!; [done|done|congruence|]. rewrite Hc2, Hc1, list_filter_filter.
    apply list_filter_iff. intros x. rewrite not_elem_of_cons. naive_solver.
  - destruct (IH s Hs) as (s2 & E & Hs2 & Hb2 & Hc2). exists s2. split_and!; [done..|]. rewrite Hc2.
    apply list_filter_iff. intros x. rewrite not_elem_of_cons. naive_solver.
Qed.

Lemma expire_ok clock n t ordinal deadline l s : accounted s -> is_u32 ordinal -> trx_cache s = l ->
  exists ex s', expire_loop clock n t ordinal deadline l s = Ok (ex, s') /\ accounted s' /\ block_cache s' = block_cache s /\
    (ex = false -> trx_cache s' = filter (fun e => t < expiry e) l) /\ (ex = true -> exists k, deadline <= clock k).
Proof.
  intros Hs Ho. revert n s Hs. induction l as [|e l IH]; intros n s Hs Hl; cbn [expire_loop].
  { exists false, s. by split_and!. }
  pose proof (ac_sorted _ Hs) as Hsort. rewrite Hl in Hsort. apply StronglySorted_inv in Hsort as [Hsort Hle].
  destruct (Z.leb_spec deadline (clock n)); [exists true, s; split_and!; [done..|by exists n]|].
  destruct (Z.ltb_spec t (expiry e)) as [Hlt|Hge].
  { exists false, s. split_and!; [done..| |done]. intros _. rewrite Hl. symmetry. apply list_filter_all.
    intros x [->|Hx]%elem_of_cons; [done|]. pose proof (proj1 (Forall_forall _ _) Hle x Hx) as H0. unfold later in H0. lia. }
  assert (trx_cache s ≡ₚ e :: l) as Hp by (by rewrite Hl). destruct (billed_elem _ _ _ Hs Hp) as (H1 & H2 & H3).
  assert (exists s1, transition_to_expired e ordinal s = Ok s1 /\ accounted (set_trx_cache l s1) /\ block_cache s1 = block_cache s)
    as (s1 & -> & Hs1 & Hb1).
  { unfold transition_to_expired, info_of in *. destruct (account_cache s !! account e) as [i|] eqn:Ea; cbn [from_option Datatypes.id] in *.
    - assert (decay_wf (expired_accumulator i)) as Hwf.
      { pose proof (ac_decay _ Hs (account e)) as H0. unfold info_of in H0. by rewrite Ea in H0. }
      destruct (decay_add_ok _ _ ordinal (average_window s) Hwf H3 Ho (ac_window _ Hs)) as (acc & -> & Hacc).
      eexists. split_and!; [reflexivity| |done]. apply accounted_remove; try done. unfold info_of. rewrite Ea. cbn.
      apply u64_small. lia.
    - exists s. split_and!; [done| |done]. by eapply accounted_absent. }
  cbn [mbind result_bind]. destruct (IH (S n) (set_trx_cache l s1) Hs1 eq_refl) as (ex & s' & -> & Hs' & Hb' & Hf & Hd).
  exists ex, s'. split_and!; [done|done|by rewrite Hb'| |done]. intros H0. rewrite filter_cons, decide_False by lia. by apply Hf.
Qed.

(** ** Histories *)

(** The public operations in any order.  In a [guarded] history the block under
    construction is aborted before transactions are removed, as the producer
    plugin does before it takes a block and before it starts one.  No node holds
    2^32 transactions. *)
Inductive reachable (guarded : bool) : subjective_billing -> Prop :=
  | reach_new : reachable guarded new_billing
  | reach_disable s : reachable guarded s -> reachable guarded (disable s)
  | reach_disable_account s a : reachable guarded s -> reachable guarded (disable_account a s)
  | reach_window s t : reachable guarded s -> reachable guarded (set_expired_accumulator_average_window t s)
  | reach_bill s id expire a elapsed b : reachable guarded s -> Z.of_nat (length (trx_cache s)) < 2 ^ 32 ->
      reachable guarded (subjective_bill id expire a elapsed b s)
  | reach_failure s s' a elapsed now : reachable guarded s -> subjective_bill_failure a elapsed now s = Ok s' ->
      reachable guarded s'
  | reach_abort s : reachable guarded s -> reachable guarded (abort_block s)
  | reach_on_block s s' bsp now : reachable guarded s -> (guarded = true -> block_cache s = ∅) ->
      on_block bsp now s = Ok s' -> reachable guarded s'
  | reach_removed s s' id ordinal : reachable guarded s -> (guarded = true -> block_cache s = ∅) -> is_u32 ordinal ->
      remove_subjective_billing id ordinal s = Ok s' -> reachable guarded s'
  | reach_expired s s' clock t now deadline ok : reachable guarded s -> (guarded = true -> block_cache s = ∅) ->
      remove_expired clock t now deadline s = Ok (ok, s') -> reachable guarded s'.

Lemma failure_accounted s s' a elapsed now : accounted s -> subjective_bill_failure a elapsed now s = Ok s' ->
  accounted s' /\ block_cache s' = block_cache s /\ trx_cache s' = trx_cache s.
Proof.
  intros [] E. unfold subjective_bill_failure in E. destruct (is_account_disabled s a); [by injection E as <-|].
  apply bind_ok_inv in E as (o & Ho%time_ordinal_range & E). apply bind_ok_inv in E as (acc & Eacc & [= <-]).
  destruct (decay_add_ok (expired_accumulator (info_of s a)) (u32 (Z.max 0 elapsed)) o (average_window s)) as (acc' & E' & Hwf);
    [done|apply u32_range|done|done|]. rewrite E' in Eacc. injection Eacc as ->.
  split; [|done]. split; try done; intros x; rewrite info_of_insert; destruct (decide (a = x)) as [<-|]; by cbn.
Qed.

(** With no block under construction, what is pending is covered. *)
Lemma removed_covered g s s' : accounted s' -> block_cache s' = block_cache s ->
  (g = true -> block_cache s = ∅) -> g = true -> covered s'.
Proof.
  intros Hs Hb Hg Ht a. unfold in_block. rewrite Hb, (Hg Ht), lookup_empty.
  apply (billed_range a _ (ac_bills _ Hs)).
Qed.

Lemma on_block_ok s s' bsp now : accounted s -> on_block bsp now s = Ok s' ->
  accounted s' /\ block_cache s' = block_cache s.
Proof.
  intros Hs E. destruct bsp as [l|]; [|by injection E as <-]. cbn in E. destruct (disabled s); [by injection E as <-|].
  apply bind_ok_inv in E as (o & Ho%time_ordinal_range & E). destruct (receipts_ok s l o Hs Ho) as (s2 & E2 & ? & ? & _).
  rewrite E in E2. by injection E2 as ->.
Qed.

Lemma remove_expired_ok s s' clock t now deadline ok : accounted s -> remove_expired clock t now deadline s = Ok (ok, s') ->
  accounted s' /\ block_cache s' = block_cache s.
Proof.
  intros Hs E. unfold remove_expired in E. destruct (decide (trx_cache s = [])); [by injection E as <- <-|].
  apply bind_ok_inv in E as (o & Ho%time_ordinal_range & E).
  destruct (expire_ok clock 0 t o deadline _ s Hs Ho eq_refl) as (x & s2 & E2 & ? & ? & _). rewrite E2 in E. by injection E as _ <-.
Qed.

Lemma history_accounted g s : reachable g s -> accounted s /\ (g = true -> covered s).
Proof.
  induction 1 as [|s _ [[] Hc]|s a _ [[] Hc]|s t _ [[] Hc]|s id ex a el b _ [IH Hc] Hl|s s' a el now _ [IH Hc] E|s _ [[] Hc]
    |s s' bsp now _ [IH Hc] Hb E|s s' id o _ [IH Hc] Hb Ho E|s s' clock t now dl ok _ [IH Hc] Hb E].
  - split; [apply new_accounted|by intros _ a].
  - split; [by split|exact Hc].
  - split; [by split|exact Hc].
  - split; [split; try done; apply u32_range|exact Hc].
  - destruct (bill_accounted id ex a el b s IH Hl). auto.
  - destruct (failure_accounted _ _ _ _ _ IH E) as (H1 & H2 & H3). split; [done|]. intros Hg x. specialize (Hc Hg x).
    unfold in_block in *. by rewrite H2, H3.
  - split; [split; try done; intros a; unfold in_block; cbn; by rewrite lookup_empty|].
    intros _ a. unfold in_block. cbn. rewrite lookup_empty. apply (billed_range a _ ac_bills0).
  - destruct (on_block_ok _ _ _ _ IH E). split; [done|]. by eapply removed_covered.
  - destruct (remove_billing_ok s id o IH Ho) as (s2 & E2 & H1 & H2 & _). rewrite E in E2. injection E2 as <-.
    split; [done|]. by eapply removed_covered.
  - destruct (remove_expired_ok _ _ _ _ _ _ _ IH E). split; [done|]. by eapply removed_covered.
Qed.

Lemma u32_u64 x : u32 (u64 x) = u32 x.
Proof. unfold u32, u64. apply Z.mod_mod_divide. by exists (2 ^ 32). Qed.

(** C24: the subjective bill of an account that is not exempt is the sum of the
    bills of its transactions that may still get into a block, less what the
    block under construction already charges, plus what its expired and failed
    transactions have left after decaying, cut to 32 bits.  This holds after
    every history of the public operations, as long as less than 2^32
    transactions are held and the time fits 32 bits of five-second intervals.
    When the block under construction charges more than what is pending,
    because transactions were removed before it was aborted, the query does not
    wrap around: it throws [tx_resource_exhaustion], or returns zero for an
    account that is not known.  When the block is always aborted before
    transactions are removed, this never happens. *)
Theorem subjective_bills_accounted (guarded : bool) (s : subjective_billing) (a now ordinal : Z) :
  reachable guarded s -> time_ordinal_for now = Ok ordinal -> is_account_disabled s a = false ->
  let acc := expired_accumulator (info_of s a) in
  let rest := ceil_div (decayed (decay_value_ex acc) (decay_last_ordinal acc) ordinal (average_window s)) rate_limiting_precision in
  (in_block s a <= billed a (trx_cache s) ->
     get_subjective_bill s a now = Ok (u32 (billed a (trx_cache s) - in_block s a + rest))) /\
  (billed a (trx_cache s) < in_block s a ->
     get_subjective_bill s a now = match account_cache s !! a with Some _ => Throw tx_resource_exhaustion | None => Ok 0 end) /\
  (guarded = true -> in_block s a <= billed a (trx_cache s)).
Proof.
  intros [Hr Hc]%history_accounted Ht Hd acc rest. split; [|split; [|intros Hg; by apply Hc]];
    (intros Hle; pose proof Hr as []; pose proof (time_ordinal_range _ _ Ht) as Ho;
     unfold get_subjective_bill; rewrite Hd, Ht; cbn [mbind result_bind]; fold (in_block s a);
     pose proof (value_at_exact acc ordinal (average_window s) (ac_decay0 a) Ho ac_window0) as Hv;
     pose proof (ac_pending0 a) as Hp; pose proof (ac_block0 a) as Hb; unfold rest, acc, info_of in *;
     destruct (account_cache s !! a) as [i|]; cbn [from_option Datatypes.id] in *).
  - rewrite <- Hp in *. rewrite (proj2 (Z.leb_le _ _)) by lia. cbn [EOS_ASSERT mbind result_bind]. rewrite Hv.
    cbn [mbind result_bind]. by rewrite u32_u64.
  - cbn in Hp. rewrite <- Hp in *. replace (in_block s a) with 0 by lia. cbn [new_info expired_accumulator decay_value_ex decay_last_ordinal].
    replace (decayed 0 0 ordinal (average_window s)) with 0; [done|].
    pose proof (decayed_range 0 0 ordinal (average_window s)). lia.
  - rewrite <- Hp in *. by rewrite (proj2 (Z.leb_gt _ _)) by lia.
  - done.
Qed.

(** The removals are exact and never fail.  After every history, an applied
    block removes exactly the transactions of its receipts, and
    [remove_expired] removes exactly those that have expired, unless it reports
    that its deadline has passed. *)
Theorem subjective_removals_exact (guarded : bool) (s : subjective_billing) (receipts : list (option transaction_id_type))
    (clock : nat -> Z) (t now deadline ordinal : Z) :
  reachable guarded s -> time_ordinal_for now = Ok ordinal ->
  (disabled s = false -> exists s', on_block (Some receipts) now s = Ok s' /\
     trx_cache s' = filter (fun e => Some (trx_id e) ∉ receipts) (trx_cache s)) /\
  exists ok s', remove_expired clock t now deadline s = Ok (ok, s') /\
    if ok then trx_cache s' = filter (fun e => t < expiry e) (trx_cache s) else exists k, deadline <= clock k.
Proof.
  intros [Hr _]%history_accounted Ht. pose proof (time_ordinal_range _ _ Ht) as Ho. split.
  - intros Hd. destruct (receipts_ok s receipts ordinal Hr Ho) as (s' & E & _ & _ & Hc). exists s'.
    split; [|done]. cbn. by rewrite Hd, Ht.
  - unfold remove_expired. destruct (decide (trx_cache s = [])) as [He|_]; [exists true, s; by rewrite He|].
    rewrite Ht. cbn [mbind result_bind].
    destruct (expire_ok clock 0 t ordinal deadline _ s Hr Ho eq_refl) as (ex & s' & -> & _ & _ & H1 & H2).
    exists (negb ex), s'. split; [done|]. destruct ex; cbn; auto.
Qed.

(** ** A history *)

Definition sample_id (n : Z) : transaction_id_type := Merkle.mk_digest n 0 0 0.
Definition sample_aborted : subjective_billing :=
  abort_block (subjective_bill (sample_id 2) 90 7 300 true (subjective_bill (sample_id 1) 40 7 200 true new_billing)).
Definition sample_billing : subjective_billing := subjective_bill (sample_id 3) 60 7 500 true sample_aborted.
(** The third transaction comes back in a block before the abort. *)
Definition sample_applied : subjective_billing :=
  match on_block (Some [Some (sample_id 2); Some (sample_id 3)]) 10000000 sample_billing with Ok s => s | Throw _ => new_billing end.

Lemma sample_aborted_reachable g : reachable g sample_aborted.
Proof. apply reach_abort, reach_bill; [apply reach_bill; [apply reach_new|]|]; vm_compute; reflexivity. Qed.
Lemma sample_billing_reachable g : reachable g sample_billing.
Proof. apply reach_bill; [apply sample_aborted_reachable|vm_compute; reflexivity]. Qed.

Lemma subjective_bills_accounted_witness : get_subjective_bill sample_billing 7 10000000 = Ok 500 /\
  get_subjective_bill sample_applied 7 10000000 = Throw tx_resource_exhaustion.
Proof.
  split.
  - destruct (subjective_bills_accounted true sample_billing 7 10000000 2) as (H & _ & Hg);
      [apply sample_billing_reachable|vm_compute; reflexivity..|].
    rewrite H by (by apply Hg). vm_compute. reflexivity.
  - destruct (subjective_bills_accounted false sample_applied 7 10000000 2) as (_ & H & _);
      [|vm_compute; reflexivity..|rewrite H by (vm_compute; reflexivity); vm_compute; reflexivity].
    apply (reach_on_block false sample_billing _ (Some [Some (sample_id 2); Some (sample_id 3)]) 10000000);
      [apply sample_billing_reachable|discriminate|vm_compute; reflexivity].
Defined.

Lemma subjective_removals_exact_witness : exists ok s',
  remove_expired (fun _ => 0) 50 10000000 1 sample_billing = Ok (ok, s') /\ ok = true.
Proof.
  destruct (subjective_removals_exact false sample_billing [Some (sample_id 1)] (fun _ => 0) 50 10000000 1 2) as [_ (ok & s' & E & H)];
    [apply sample_billing_reachable|vm_compute; reflexivity|].
  exists ok, s'. split; [exact E|]. destruct ok; [reflexivity|]. destruct H as [k H]. exfalso. lia.
Defined.

End SubjectiveBilling.
