(* ===== verification/Assets.v ===== *)
(** * Symbols and assets: include/eosio/chain/symbol.hpp, include/eosio/chain/asset.hpp
      and asset.cpp

    A symbol packs the number of decimals of a token and its name into 64 bits;
    an asset is an amount with a symbol, printed as in "10.0000 EOS".  Trimming
    and the conversion of integers from and to strings belong to the fc library
    and are arguments; [text_laws] says what they do. *)

From S2P Require Import Prelude Names.

Module Assets.

(** ** Strings *)

(** [std::string::find]: the position of the first such character *)
Fixpoint find_char (c : ascii) (s : cstring) : option nat :=
  match s with
  | [] => None
  | x :: s => if Ascii.eqb x c then Some O else S <$> find_char c s
  end.

(** What [c_str] shows of a string: up to the first zero *)
Fixpoint c_str (s : cstring) : cstring :=
  match s with
  | [] => []
  | c :: s => if code c =? 0 then [] else c :: c_str s
  end.

Definition digit (n : Z) : ascii := ascii_of_N (Z.to_N (code "0" + n)).
Definition is_digit (c : ascii) : bool := (code "0" <=? code c) && (code c <=? code "9").

(** [std::to_string] of an unsigned integer: twenty digits are enough for 64 bits *)
Fixpoint decimal_loop (fuel : nat) (n : Z) (s : cstring) : cstring :=
  match fuel with
  | O => s
  | S fuel => if n <? 10 then digit n :: s else decimal_loop fuel (n / 10) (digit (n mod 10) :: s)
  end.
Definition decimal (n : Z) : cstring := decimal_loop 20 n [].

(** ** Symbols *)

Definition max_precision : Z := 18.

(** A shift by 64 or more has no defined behaviour. *)
Fixpoint string_to_symbol_loop (i : Z) (str : cstring) (result : Z) : Prelude.result Z :=
  match str with
  | [] => Ok result
  | c :: str =>
      EOS_ASSERT ((code "A" <=? code c) && (code c <=? code "Z")) symbol_type_exception;;
      EOS_ASSERT (8 * (i + 1) <? 64) undefined_behaviour;;
      string_to_symbol_loop (i + 1) str (Z.lor result (u64 (Z.shiftl (code c) (8 * (i + 1)))))
  end.

Definition string_to_symbol (precision : Z) (str : cstring) : result Z :=
  r ← string_to_symbol_loop 0 (c_str str) 0;
  Ok (Z.lor r precision).

Record symbol := mk_symbol { m_value : Z }.
#[global] Instance symbol_eq_dec : EqDecision symbol.
Proof. solve_decision. Defined.

Definition decimals (s : symbol) : Z := Z.land (m_value s) 255.

(** The loop of [name]: eight bytes at most *)
Fixpoint name_loop (fuel : nat) (v : Z) : cstring :=
  match fuel with
  | O => []
  | S fuel =>
      if 0 <? v then ascii_of_N (Z.to_N (Z.land v 255)) :: name_loop fuel (Z.shiftr v 8) else []
  end.
Definition symbol_name (s : symbol) : cstring := name_loop 8 (Z.shiftr (m_value s) 8).

Definition valid_name (name : cstring) : bool :=
  forallb (fun c => (code "A" <=? code c) && (code c <=? code "Z")) name.
Definition symbol_valid (s : symbol) : bool := (decimals s <=? max_precision) && valid_name (symbol_name s).

Fixpoint power_loop (p : nat) (p10 : Z) : Z :=
  match p with
  | O => p10
  | S p => power_loop p (u64 (p10 * 10))
  end.
Definition symbol_precision (s : symbol) : result Z :=
  EOS_ASSERT (decimals s <=? max_precision) symbol_type_exception;;
  Ok (power_loop (Z.to_nat (decimals s)) 1).

(** The constructors *)
Definition symbol_of_value (v : Z) : result symbol :=
  EOS_ASSERT (symbol_valid (mk_symbol v)) symbol_type_exception;;
  Ok (mk_symbol v).
Definition symbol_of_name (p : Z) (s : cstring) : result symbol :=
  v ← string_to_symbol p s;
  symbol_of_value v.

Definition to_symbol_code (s : symbol) : Z := Z.shiftr (m_value s) 8.
Definition symbol_to_string (s : symbol) : cstring := decimal (decimals s) ++ "," %char :: symbol_name s.

(** ** Assets *)

Definition max_amount : Z := 2 ^ 62 - 1.

Record asset := mk_asset { amount : Z; sym : symbol }.

Definition is_amount_within_range (a : Z) : bool := (- max_amount <=? a) && (a <=? max_amount).
Definition asset_of (a : Z) (s : symbol) : result asset :=
  EOS_ASSERT (is_amount_within_range a) asset_type_exception;;
  EOS_ASSERT (symbol_valid s) asset_type_exception;;
  Ok (mk_asset a s).
Definition is_valid (a : asset) : bool := is_amount_within_range (amount a) && symbol_valid (sym a).

(** Signed overflow has no defined behaviour. *)
Definition signed_result (x : Z) : result Z :=
  EOS_ASSERT ((INT64_MIN <=? x) && (x <=? INT64_MAX)) undefined_behaviour;; Ok x.

Definition asset_add (a b : asset) : result asset :=
  EOS_ASSERT (bool_decide (sym a = sym b)) asset_type_exception;;
  x ← signed_result (amount a + amount b); asset_of x (sym a).
Definition asset_sub (a b : asset) : result asset :=
  EOS_ASSERT (bool_decide (sym a = sym b)) asset_type_exception;;
  x ← signed_result (amount a - amount b); asset_of x (sym a).
Definition asset_opp (a : asset) : result asset := x ← signed_result (- amount a); asset_of x (sym a).

(** [operator +=] and [operator -=] do not construct an asset. *)
Definition asset_add_assign (a b : asset) : result asset :=
  EOS_ASSERT (bool_decide (sym a = sym b)) asset_type_exception;;
  x ← signed_result (amount a + amount b); Ok (mk_asset x (sym a)).
Definition asset_sub_assign (a b : asset) : result asset :=
  EOS_ASSERT (bool_decide (sym a = sym b)) asset_type_exception;;
  x ← signed_result (amount a - amount b); Ok (mk_asset x (sym a)).

Definition asset_lt (a b : asset) : result bool :=
  EOS_ASSERT (bool_decide (sym a = sym b)) asset_type_exception;;
  Ok (amount a <? amount b).

(** [fc::safe]: an overflow throws. *)
Definition safe (x : Z) : result Z :=
  EOS_ASSERT ((INT64_MIN <=? x) && (x <=? INT64_MAX)) std_exception;; Ok x.

Section text.
Context (trim : cstring -> cstring) (fc_to_string : Z -> cstring) (to_int64 : cstring -> option Z).

Definition parsed (s : cstring) : result Z := match to_int64 s with Some n => Ok n | None => Throw std_exception end.

(** The number of decimals is cut to eight bits before its check. *)
Definition symbol_from_string (from : cstring) : result symbol :=
  let s := trim from in
  EOS_ASSERT (negb (bool_decide (s = []))) symbol_type_exception;;
  match find_char "," s with
  | None => Throw symbol_type_exception
  | Some comma_pos =>
      n ← parsed (take comma_pos s);
      let p := n mod 256 in
      let name_part := drop (comma_pos + 1) s in
      EOS_ASSERT (p <=? max_precision) symbol_type_exception;;
      v ← string_to_symbol p name_part;
      symbol_of_value v
  end.

Definition asset_to_string (a : asset) : result cstring :=
  let sign := if amount a <? 0 then ["-"%char] else [] in
  abs_amount ← signed_result (Z.abs (amount a));
  precision ← symbol_precision (sym a);
  let result := fc_to_string (abs_amount / precision) in
  let result :=
    if negb (decimals (sym a) =? 0) then
      result ++ "."%char :: drop 1 (fc_to_string (precision + abs_amount mod precision))
    else result in
  Ok (sign ++ result ++ " "%char :: symbol_name (sym a)).

Definition parse_amount (amount_str : cstring) (dot_pos : option nat) : result (Z * Z) :=
  match dot_pos with
  | Some dot =>
      int_part ← parsed (take dot amount_str);
      fract_part ← parsed (drop (dot + 1) amount_str);
      fract_part ← (if bool_decide (head amount_str = Some "-"%char) then safe (fract_part * -1) else Ok fract_part);
      Ok (int_part, fract_part)
  | None => int_part ← parsed amount_str; Ok (int_part, 0)
  end.

Definition asset_from_string (from : cstring) : result asset :=
  let s := trim from in
  match find_char " " s with
  | None => Throw asset_type_exception
  | Some space_pos =>
      let symbol_str := trim (drop (space_pos + 1) s) in
      let amount_str := take space_pos s in
      let dot_pos := find_char "." amount_str in
      EOS_ASSERT (match dot_pos with Some d => negb (Z.of_nat d =? Z.of_nat (length amount_str) - 1) | None => true end)
        asset_type_exception;;
      let precision_digit_str :=
        match dot_pos with
        | Some d => decimal (Z.of_nat (length amount_str - d - 1))
        | None => ["0"%char]
        end in
      sym ← symbol_from_string (precision_digit_str ++ ","%char :: symbol_str);
      '(int_part, fract_part) ← parse_amount amount_str dot_pos;
      precision ← symbol_precision sym;
      amount ← safe (int_part * precision);
      amount ← safe (amount + fract_part);
      asset_of amount sym
  end.
End text.

(** ** Decimal numbers *)

Definition value (s : cstring) : Z := foldl (fun v c => 10 * v + (code c - code "0")) 0 s.

Lemma code_ascii n : 0 <= n < 256 -> code (ascii_of_N (Z.to_N n)) = n.
Proof. intros Hn. unfold code. rewrite N_ascii_embedding by lia. lia. Qed.

Lemma code_digit n : 0 <= n < 10 -> code (digit n) = code "0" + n.
Proof. intros Hn. apply code_ascii. change (code "0") with 48. lia. Qed.

Lemma digit_is_digit n : 0 <= n < 10 -> is_digit (digit n) = true.
Proof.
  intros Hn. unfold is_digit. rewrite code_digit by done. change (code "0") with 48. change (code "9") with 57.
  apply andb_true_iff. split; apply Z.leb_le; lia.
Qed.

Lemma value_snoc s c : value (s ++ [c]) = 10 * value s + (code c - code "0").
Proof. unfold value. by rewrite foldl_app. Qed.

Lemma value_app s k : value (s ++ k) = value s * 10 ^ Z.of_nat (length k) + value k.
Proof.
  induction k as [|c k IH] using rev_ind; [rewrite app_nil_r; cbn; lia|].
  rewrite app_assoc, !value_snoc, IH, length_app, Nat2Z.inj_add, Z.pow_add_r by lia. cbn [length]. lia.
Qed.

Lemma digit_range c : is_digit c = true -> 0 <= code c - code "0" < 10.
Proof. unfold is_digit. change (code "0") with 48. change (code "9") with 57. intros H. bool_to_prop. lia. Qed.

Lemma value_range s : forallb is_digit s = true -> 0 <= value s < 10 ^ Z.of_nat (length s).
Proof.
  induction s as [|c s IH] using rev_ind; [cbn; lia|]. rewrite forallb_app. intros [H1 H2]%andb_true_iff.
  cbn in H2. apply andb_true_iff in H2 as [H2 _]. apply digit_range in H2. specialize (IH H1).
  rewrite value_snoc, length_app, Nat2Z.inj_add, Z.pow_add_r by lia. cbn [length]. lia.
Qed.

Lemma decimal_loop_spec fuel n : 0 <= n < 10 ^ Z.of_nat fuel -> (0 < fuel)%nat ->
  exists ds, (forall s, decimal_loop fuel n s = ds ++ s) /\ ds <> [] /\ forallb is_digit ds = true /\ value ds = n /\
    forall d, 10 ^ Z.of_nat d <= n < 10 ^ Z.of_nat (S d) -> length ds = S d.
Proof.
  revert n. induction fuel as [|fuel IH]; intros n Hn Hf; [lia|]. cbn [decimal_loop].
  destruct (Z.ltb_spec n 10) as [Hlt|Hge].
  - exists [digit n]. split_and!; [done|done|cbn; by rewrite digit_is_digit by lia|cbn; rewrite code_digit; lia|].
    intros d Hd. destruct d; [done|]. rewrite Nat2Z.inj_succ, Z.pow_succ_r in Hd by lia.
    pose proof (Z.pow_pos_nonneg 10 (Z.of_nat d)). lia.
  - rewrite Nat2Z.inj_succ, Z.pow_succ_r in Hn by lia.
    assert (0 < fuel)%nat as Hf' by (destruct fuel; [cbn in Hn; lia|lia]).
    destruct (IH (n / 10)) as (ds & Hds & Hne & Hdig & Hv & Hlen); [split; [apply Z.div_pos|apply Z.div_lt_upper_bound]; lia|done|].
    pose proof (Z.mod_pos_bound n 10 ltac:(lia)) as Hm. exists (ds ++ [digit (n mod 10)]). split_and!.
    + intros s. rewrite Hds, <- app_assoc. done.
    + by destruct ds.
    + rewrite forallb_app, Hdig. cbn. by rewrite digit_is_digit by lia.
    + rewrite value_snoc, Hv, code_digit by lia. pose proof (Z.div_mod n 10). lia.
    + intros d Hd. rewrite length_app. cbn [length]. destruct d as [|d]; [cbn in Hd; lia|].
      rewrite (Hlen d); [lia|]. rewrite !Nat2Z.inj_succ, !Z.pow_succ_r in * by lia.
      split; [apply Z.div_le_lower_bound|apply Z.div_lt_upper_bound]; lia.
Qed.

Lemma decimal_spec n : 0 <= n < 10 ^ 20 -> decimal n <> [] /\ forallb is_digit (decimal n) = true /\ value (decimal n) = n /\
  forall d, 10 ^ Z.of_nat d <= n < 10 ^ Z.of_nat (S d) -> length (decimal n) = S d.
Proof.
  intros Hn. unfold decimal. destruct (decimal_loop_spec 20 n) as (ds & Hds & H); [done|lia|].
  by rewrite Hds, app_nil_r.
Qed.

(** The digits of a fraction, after the leading one *)
Lemma fraction_spec d f : (d <= 18)%nat -> 0 <= f < 10 ^ Z.of_nat d ->
  let s := drop 1 (decimal (10 ^ Z.of_nat d + f)) in
  length s = d /\ forallb is_digit s = true /\ value s = f.
Proof.
  intros Hd Hf s. assert (10 ^ Z.of_nat d <= 10 ^ 18) as H18 by (apply Z.pow_le_mono_r; lia).
  destruct (decimal_spec (10 ^ Z.of_nat d + f)) as (_ & Hdig & Hv & Hlen); [lia|].
  specialize (Hlen d). rewrite Nat2Z.inj_succ, Z.pow_succ_r in Hlen by lia. specialize (Hlen ltac:(lia)).
  unfold s. destruct (decimal (10 ^ Z.of_nat d + f)) as [|c t]; [done|]. cbn [drop length] in *.
  cbn in Hdig. apply andb_true_iff in Hdig as [Hc Ht]. assert (length t = d) as Hl by lia. split_and!; [done..|].
  pose proof (value_range t Ht) as Hr. rewrite Hl in Hr. change (c :: t) with ([c] ++ t) in Hv.
  rewrite value_app, Hl in Hv.
  assert ((10 ^ Z.of_nat d + f) mod 10 ^ Z.of_nat d = f) as H1.
  { rewrite <- (Z.mul_1_l (10 ^ Z.of_nat d)) at 1. rewrite Z.add_comm, Z.mod_add, Z.mod_small; lia. }
  rewrite <- Hv in H1. rewrite Z.add_comm, Z.mod_add, Z.mod_small in H1 by lia. done.
Qed.

(** ** Searching *)

Lemma find_char_none c s : c ∉ s -> find_char c s = None.
Proof.
  induction s as [|x s IH]; intros Hc; cbn; [done|]. apply not_elem_of_cons in Hc as [Hx Hc].
  destruct (Ascii.eqb_spec x c); [congruence|]. by rewrite IH.
Qed.

Lemma find_char_app c s k : c ∉ s -> find_char c (s ++ c :: k) = Some (length s).
Proof.
  induction s as [|x s IH]; intros Hc; cbn; [by rewrite Ascii.eqb_refl|]. apply not_elem_of_cons in Hc as [Hx Hc].
  destruct (Ascii.eqb_spec x c); [congruence|]. by rewrite IH.
Qed.

Lemma forallb_not_elem (f : ascii -> bool) c s : f c = false -> forallb f s = true -> c ∉ s.
Proof. intros Hc Hs Hin. rewrite forallb_forall in Hs. apply list_elem_of_In, Hs in Hin. congruence. Qed.

Lemma forallb_weaken (f g : ascii -> bool) s : (forall c, f c = true -> g c = true) -> forallb f s = true -> forallb g s = true.
Proof. rewrite !forallb_forall. intuition. Qed.

Lemma split_at {X} (l k : list X) c : take (length l) (l ++ c :: k) = l /\ drop (length l + 1) (l ++ c :: k) = k.
Proof. split; [by rewrite take_app_length|]. rewrite drop_app_ge by lia. by replace (length l + 1 - length l)%nat with 1%nat by lia. Qed.

(** ** Symbols are their decimals and their names *)

Definition upper (c : ascii) : bool := (code "A" <=? code c) && (code c <=? code "Z").

Lemma c_str_upper s : forallb upper s = true -> c_str s = s.
Proof.
  induction s as [|c s IH]; cbn; [done|]. intros [Hc Hs]%andb_true_iff. unfold upper in Hc.
  change (code "A") with 65 in Hc. bool_to_prop. rewrite (proj2 (Z.eqb_neq _ _)) by lia. by rewrite IH.
Qed.

Lemma byte_split v : Z.lor (Z.land v 255) (Z.shiftl (Z.shiftr v 8) 8) = v.
Proof.
  change 255 with (Z.ones 8). apply Z.bits_inj'. intros n Hn. rewrite Z.lor_spec, Z.land_spec, Z.testbit_ones_nonneg by lia.
  rewrite Z.shiftl_spec by lia. destruct (Z.ltb_spec n 8) as [H|H].
  - rewrite andb_true_r, (Z.testbit_neg_r _ (n - 8)) by lia. apply orb_false_r.
  - rewrite andb_false_r, Z.shiftr_spec by lia. cbn. f_equal. lia.
Qed.

Lemma land_255 v : 0 <= Z.land v 255 < 256.
Proof. change 255 with (Z.ones 8). rewrite Z.land_ones by lia. apply Z.mod_pos_bound. lia. Qed.

Lemma name_encoded fuel v i r : 0 <= i <= 7 -> 0 <= v < 2 ^ (8 * (7 - i)) -> 7 - i < Z.of_nat fuel ->
  forallb upper (name_loop fuel v) = true ->
  string_to_symbol_loop i (name_loop fuel v) r = Ok (Z.lor r (Z.shiftl v (8 * (i + 1)))).
Proof.
  revert v i r. induction fuel as [|fuel IH]; intros v i r Hi Hv Hf Hup; [lia|]. cbn [name_loop] in *.
  destruct (Z.ltb_spec 0 v) as [Hpos|Hz].
  2: { cbn. replace v with 0 by lia. by rewrite Z.shiftl_0_l, Z.lor_0_r. }
  assert (i < 7) as Hi7. { destruct (decide (i = 7)) as [->|]; [cbn in Hv; lia|lia]. }
  cbn [forallb] in Hup. apply andb_true_iff in Hup as [Hc Hup]. cbn [string_to_symbol_loop]. unfold upper in Hc.
  rewrite Hc, (proj2 (Z.ltb_lt (8 * (i + 1)) 64)) by lia. cbn [EOS_ASSERT mbind result_bind].
  pose proof (land_255 v) as Hl. rewrite code_ascii by done.
  replace (8 * (7 - i)) with (8 * (7 - (i + 1)) + 8) in Hv by lia. rewrite Z.pow_add_r in Hv by lia.
  rewrite IH; [|lia| |lia|done].
  - f_equal. rewrite <- Z.lor_assoc. f_equal. rewrite <- (byte_split v) at 3. rewrite Z.shiftl_lor, Z.shiftl_shiftl by lia.
    replace (8 * (i + 1 + 1)) with (8 + 8 * (i + 1)) by lia. f_equal. apply u64_small. rewrite Z.shiftl_mul_pow2 by lia.
    split; [apply Z.mul_nonneg_nonneg; lia|]. apply Z.lt_le_trans with (2 ^ 8 * 2 ^ (8 * (i + 1))).
    + apply Z.mul_lt_mono_pos_r; lia.
    + rewrite <- Z.pow_add_r by lia. apply Z.pow_le_mono_r; lia.
  - rewrite Z.shiftr_div_pow2 by lia. split; [apply Z.div_pos; lia|]. apply Z.div_lt_upper_bound; lia.
Qed.

Lemma symbol_encoded s : is_u64 (m_value s) -> symbol_valid s = true ->
  string_to_symbol (decimals s) (symbol_name s) = Ok (m_value s).
Proof.
  intros Hv [_ Hn]%andb_true_iff. unfold string_to_symbol. rewrite c_str_upper by done. unfold symbol_name in *.
  rewrite name_encoded; [|lia| |lia|done].
  - cbn [mbind result_bind]. f_equal. rewrite Z.lor_0_l, Z.lor_comm. apply byte_split.
  - rewrite Z.shiftr_div_pow2 by lia. split; [apply Z.div_pos; lia|]. apply Z.div_lt_upper_bound; lia.
Qed.

Lemma power_loop_spec p x : 0 < x -> x * 10 ^ Z.of_nat p < 2 ^ 64 -> power_loop p x = x * 10 ^ Z.of_nat p.
Proof.
  revert x. induction p as [|p IH]; intros x Hx Hlt; cbn [power_loop]; [cbn; lia|].
  rewrite Nat2Z.inj_succ, Z.pow_succ_r in * by lia. pose proof (Z.pow_pos_nonneg 10 (Z.of_nat p)).
  rewrite u64_small by nia. rewrite IH by nia. lia.
Qed.

Lemma precision_spec s : symbol_valid s = true -> 0 <= decimals s <= 18 /\ symbol_precision s = Ok (10 ^ decimals s).
Proof.
  intros [Hd _]%andb_true_iff. pose proof (land_255 (m_value s)) as Hl. fold (decimals s) in Hl.
  pose proof Hd as Hd'%Z.leb_le. unfold max_precision in Hd'. split; [lia|]. unfold symbol_precision. rewrite Hd.
  assert (10 ^ decimals s <= 10 ^ 18) by (apply Z.pow_le_mono_r; lia).
  cbn [EOS_ASSERT mbind result_bind]. f_equal. rewrite power_loop_spec; rewrite ?Z2Nat.id; lia.
Qed.

(** ** What is printed is parsed *)

Definition visible (c : ascii) : bool := (33 <=? code c) && (code c <=? 126).

(** Decimal numbers are printed and parsed, with a sign for negative ones, and
    only white space is trimmed. *)
Record text_laws (trim : cstring -> cstring) (fc_to_string : Z -> cstring) (to_int64 : cstring -> option Z) : Prop := {
  tl_print : forall n, 0 <= n <= INT64_MAX -> fc_to_string n = decimal n;
  tl_parse : forall s, s <> [] -> forallb is_digit s = true -> value s <= INT64_MAX -> to_int64 s = Some (value s);
  tl_parse_neg : forall s, s <> [] -> forallb is_digit s = true -> value s <= INT64_MAX ->
    to_int64 ("-"%char :: s) = Some (- value s);
  tl_trim : forall s, (forall c, head s = Some c -> visible c = true) -> (forall c, last s = Some c -> visible c = true) ->
    trim s = s;
}.

Section roundtrip.
Context (trim : cstring -> cstring) (fc_to_string : Z -> cstring) (to_int64 : cstring -> option Z)
  (Hlaws : text_laws trim fc_to_string to_int64).

Lemma digit_visible c : is_digit c = true -> visible c = true.
Proof. intros H%digit_range. change (code "0") with 48 in H. apply andb_true_iff. split; apply Z.leb_le; lia. Qed.

Lemma upper_visible c : upper c = true -> visible c = true.
Proof.
  unfold upper. change (code "A") with 65. change (code "Z") with 90. intros H. bool_to_prop.
  apply andb_true_iff. split; apply Z.leb_le; lia.
Qed.

Lemma last_name (s name : cstring) c : name <> [] -> forallb upper name = true -> last (s ++ name) = Some c -> visible c = true.
Proof.
  intros Hne Hup. destruct name as [|x name _] using rev_ind; [done|]. rewrite app_assoc, last_snoc. intros [= <-].
  rewrite forallb_app in Hup. apply andb_true_iff in Hup as [_ Hup]. cbn in Hup. apply andb_true_iff in Hup as [Hup _].
  by apply upper_visible.
Qed.

Lemma head_digits (s k : cstring) c : s <> [] -> forallb is_digit s = true -> head (s ++ k) = Some c -> visible c = true.
Proof.
  destruct s as [|x s]; [done|]. cbn. intros _ [Hx _]%andb_true_iff [= <-]. by apply digit_visible.
Qed.

Lemma trim_name name : name <> [] -> forallb upper name = true -> trim name = name.
Proof.
  intros Hne Hup. apply (tl_trim _ _ _ Hlaws); [|intros c; apply (last_name [] name c Hne Hup)].
  destruct name as [|x s]; [done|]. cbn in *. apply andb_true_iff in Hup as [Hup _]. intros c [= <-]. by apply upper_visible.
Qed.

(** The symbol of a printed asset *)
Lemma symbol_parsed s : is_u64 (m_value s) -> symbol_valid s = true -> symbol_name s <> [] ->
  symbol_from_string trim to_int64 (symbol_to_string s) = Ok s.
Proof.
  intros Hv Hs Hne. destruct (precision_spec s Hs) as [Hd _]. pose proof Hs as [_ Hup]%andb_true_iff.
  destruct (decimal_spec (decimals s)) as (Hdne & Hdig & Hval & _); [lia|].
  unfold symbol_from_string, symbol_to_string. revert Hdne Hdig Hval. generalize (decimal (decimals s)). intros ds Hdne Hdig Hval.
  rewrite (tl_trim _ _ _ Hlaws); [|intros c; by apply head_digits|].
  2: { intros c. rewrite (cons_middle _ ds), app_assoc. by apply last_name. }
  rewrite bool_decide_false by (by destruct ds). cbn [negb EOS_ASSERT mbind result_bind].
  rewrite find_char_app by (by eapply (forallb_not_elem is_digit)). destruct (split_at ds (symbol_name s) ","%char) as [-> ->].
  unfold parsed. rewrite (tl_parse _ _ _ Hlaws) by (try assumption; unfold INT64_MAX; lia). cbn [mbind result_bind].
  rewrite Hval, Z.mod_small by lia. rewrite (proj2 (Z.leb_le _ _)) by (unfold max_precision; lia).
  cbn [EOS_ASSERT mbind result_bind]. rewrite symbol_encoded by assumption. cbn [mbind result_bind].
  unfold symbol_of_value. destruct s as [v]. cbn [m_value] in *. by rewrite Hs.
Qed.

Definition sign_of (neg : bool) : cstring := if neg then ["-"%char] else [].
Definition signed (neg : bool) (n : Z) : Z := if neg then - n else n.
Definition amount_char (c : ascii) : bool := is_digit c || Ascii.eqb c "-".

Lemma signed_parsed neg ds : ds <> [] -> forallb is_digit ds = true -> value ds <= INT64_MAX ->
  parsed to_int64 (sign_of neg ++ ds) = Ok (signed neg (value ds)).
Proof.
  intros Hne Hd Hv. unfold parsed. destruct neg; cbn [sign_of app signed].
  - by rewrite (tl_parse_neg _ _ _ Hlaws).
  - by rewrite (tl_parse _ _ _ Hlaws).
Qed.

Lemma amount_chars neg ds : forallb is_digit ds = true -> forallb amount_char (sign_of neg ++ ds) = true.
Proof.
  intros Hd. rewrite forallb_app. apply andb_true_iff. split; [by destruct neg|].
  eapply forallb_weaken; [|exact Hd]. intros c Hc. unfold amount_char. by rewrite Hc.
Qed.

Definition number_char (c : ascii) : bool := amount_char c || Ascii.eqb c ".".

Lemma number_chars neg qs fs : forallb is_digit qs = true -> forallb is_digit fs = true ->
  forallb number_char (sign_of neg ++ qs) = true /\ forallb number_char (sign_of neg ++ qs ++ "."%char :: fs) = true.
Proof.
  intros Hq Hf. assert (forallb number_char (sign_of neg ++ qs) = true) as H.
  { eapply forallb_weaken; [|by apply amount_chars]. intros c Hc. unfold number_char. by rewrite Hc. }
  split; [done|]. rewrite app_assoc, forallb_app, H. cbn [forallb andb].
  eapply forallb_weaken; [|exact Hf]. intros c Hc. unfold number_char, amount_char. by rewrite Hc.
Qed.

(** The digits of the amount: [fs] has those of the fraction. *)
Lemma amount_parsed neg qs fs : qs <> [] -> forallb is_digit qs = true -> value qs <= INT64_MAX ->
  fs <> [] -> forallb is_digit fs = true -> value fs <= INT64_MAX ->
  let s := sign_of neg ++ qs ++ "."%char :: fs in
  find_char "." s = Some (length (sign_of neg ++ qs)) /\
  parse_amount to_int64 s (Some (length (sign_of neg ++ qs))) = Ok (signed neg (value qs), signed neg (value fs)).
Proof.
  intros Hq Hqd Hqv Hf Hfd Hfv s. unfold s. rewrite app_assoc. split.
  { apply find_char_app. eapply (forallb_not_elem amount_char); [reflexivity|]. by apply amount_chars. }
  unfold parse_amount. destruct (split_at (sign_of neg ++ qs) fs "."%char) as [-> ->]. rewrite signed_parsed by assumption.
  cbn [mbind result_bind]. pose proof (signed_parsed false fs Hf Hfd Hfv) as Hfs.
  cbn [sign_of app signed] in Hfs. rewrite Hfs. cbn [mbind result_bind].
  pose proof (value_range fs Hfd) as Hr. destruct neg; cbn [sign_of app].
  - rewrite bool_decide_true by done. unfold safe. cbn [signed].
    rewrite (proj2 (andb_true_iff _ _)) by (split; apply Z.leb_le; unfold INT64_MIN, INT64_MAX in *; lia).
    cbn [EOS_ASSERT mbind result_bind]. do 2 f_equal. lia.
  - destruct qs as [|c qs]; [done|]. cbn in Hqd. apply andb_true_iff in Hqd as [Hc _]. cbn [app head].
    rewrite bool_decide_false; [done|]. intros [= ->]. done.
Qed.

(** The parts of the amount *)
Lemma amount_parts p n : 0 < p -> - max_amount <= n <= max_amount -> let neg := n <? 0 in
  0 <= Z.abs n / p <= INT64_MAX /\ 0 <= Z.abs n mod p < p /\
  signed neg (Z.abs n / p) * p + signed neg (Z.abs n mod p) = n /\
  INT64_MIN <= signed neg (Z.abs n / p) * p <= INT64_MAX.
Proof.
  intros Hp Hn neg. pose proof (Z.div_mod (Z.abs n) p ltac:(lia)) as Hdm. pose proof (Z.mod_pos_bound (Z.abs n) p Hp) as Hm.
  assert (0 <= Z.abs n / p) as H0 by (apply Z.div_pos; lia).
  assert (Z.abs n / p <= Z.abs n) as H1 by (apply Z.div_le_upper_bound; nia).
  unfold max_amount, INT64_MAX, INT64_MIN in *. unfold neg, signed. destruct (Z.ltb_spec n 0); split_and!; nia.
Qed.

(** Parsing the text of an amount and a symbol *)
Lemma from_string_parts neg ams dot i f a : forallb number_char ams = true -> ams <> [] ->
  (forall c, head ams = Some c -> visible c = true) -> is_valid a = true -> is_u64 (m_value (sym a)) ->
  symbol_name (sym a) <> [] -> find_char "." ams = dot ->
  match dot with
  | Some d => (d + 1 < length ams)%nat /\ Z.of_nat (length ams - d - 1) = decimals (sym a)
  | None => decimals (sym a) = 0
  end ->
  parse_amount to_int64 ams dot = Ok (signed neg i, signed neg f) ->
  INT64_MIN <= signed neg i * 10 ^ decimals (sym a) <= INT64_MAX ->
  signed neg i * 10 ^ decimals (sym a) + signed neg f = amount a ->
  asset_from_string trim to_int64 (ams ++ " "%char :: symbol_name (sym a)) = Ok a.
Proof.
  intros Hch Hne Hhead [Hrange Hs]%andb_true_iff Hu Hname Hdot Hdec Hparse Hint Hsum.
  pose proof Hs as [_ Hup]%andb_true_iff. destruct (precision_spec _ Hs) as [Hd Hp].
  unfold asset_from_string. rewrite (tl_trim _ _ _ Hlaws).
  2: { intros c. destruct ams; [done|]. exact (Hhead c). }
  2: { intros c. rewrite (cons_middle _ ams), app_assoc. by apply last_name. }
  rewrite find_char_app by (eapply forallb_not_elem; [|exact Hch]; reflexivity).
  destruct (split_at ams (symbol_name (sym a)) " "%char) as [-> ->]. rewrite trim_name, Hdot by assumption.
  assert (match dot with
          | Some d => decimal (Z.of_nat (length ams - d - 1))
          | None => ["0"%char]
          end ++ ","%char :: symbol_name (sym a) = symbol_to_string (sym a)) as ->.
  { unfold symbol_to_string. f_equal. destruct dot as [d|]; [by destruct Hdec as [_ ->]|]. by rewrite Hdec. }
  rewrite (proj2 (EOS_ASSERT_ok _ _ tt)).
  2: { destruct dot as [d|]; [|done]. destruct Hdec as [Hlt _]. apply negb_true_iff, Z.eqb_neq. lia. }
  cbn [mbind result_bind]. rewrite symbol_parsed by assumption. cbn [mbind result_bind]. rewrite Hparse. cbn [mbind result_bind].
  rewrite Hp. cbn [mbind result_bind]. unfold safe.
  rewrite (proj2 (EOS_ASSERT_ok _ _ tt)) by (apply andb_true_iff; split; apply Z.leb_le; lia). cbn [mbind result_bind].
  rewrite Hsum. rewrite (proj2 (EOS_ASSERT_ok _ _ tt)).
  2: { unfold is_amount_within_range, max_amount in Hrange. bool_to_prop. apply andb_true_iff.
       split; apply Z.leb_le; unfold INT64_MIN, INT64_MAX; lia. }
  cbn [mbind result_bind]. unfold asset_of. rewrite Hrange, Hs. cbn [EOS_ASSERT mbind result_bind]. by destruct a.
Qed.

Lemma integer_parsed neg qs a : qs <> [] -> forallb is_digit qs = true -> value qs <= INT64_MAX ->
  is_valid a = true -> is_u64 (m_value (sym a)) -> symbol_name (sym a) <> [] -> decimals (sym a) = 0 ->
  signed neg (value qs) = amount a ->
  asset_from_string trim to_int64 ((sign_of neg ++ qs) ++ " "%char :: symbol_name (sym a)) = Ok a.
Proof.
  intros Hne Hd Hv Ha Hu Hname Hz Hsum. pose proof (value_range qs Hd).
  apply (from_string_parts neg _ None (value qs) 0); rewrite ?Hz; try done.
  - by apply (number_chars neg qs []).
  - by destruct neg, qs.
  - intros c. destruct neg; [by intros [= <-]|]. cbn [sign_of app]. rewrite <- (app_nil_r qs). by apply head_digits.
  - apply find_char_none. eapply (forallb_not_elem amount_char); [reflexivity|]. by apply amount_chars.
  - unfold parse_amount. rewrite signed_parsed by assumption. by destruct neg.
  - unfold INT64_MIN, INT64_MAX in *. destruct neg; cbn [signed] in *; lia.
  - destruct neg; cbn [signed] in *; lia.
Qed.

Lemma fraction_parsed neg qs fs a : qs <> [] -> forallb is_digit qs = true -> value qs <= INT64_MAX ->
  forallb is_digit fs = true -> value fs <= INT64_MAX -> length fs = Z.to_nat (decimals (sym a)) -> 0 < decimals (sym a) ->
  is_valid a = true -> is_u64 (m_value (sym a)) -> symbol_name (sym a) <> [] ->
  INT64_MIN <= signed neg (value qs) * 10 ^ decimals (sym a) <= INT64_MAX ->
  signed neg (value qs) * 10 ^ decimals (sym a) + signed neg (value fs) = amount a ->
  asset_from_string trim to_int64 ((sign_of neg ++ qs ++ "."%char :: fs) ++ " "%char :: symbol_name (sym a)) = Ok a.
Proof.
  intros Hne Hd Hv Hfd Hfv Hfl Hpos Ha Hu Hname Hint Hsum.
  assert (fs <> []) as Hfne by (destruct fs; [cbn in Hfl; lia|done]).
  destruct (amount_parsed neg qs fs Hne Hd Hv Hfne Hfd Hfv) as [Hdot Hparse].
  eapply (from_string_parts neg _ _ (value qs) (value fs)); try exact Hdot; try done.
  - by apply number_chars.
  - by destruct neg, qs.
  - intros c. destruct neg; [by intros [= <-]|]. cbn [sign_of app]. by apply head_digits.
  - rewrite !length_app. cbn [length]. lia.
Qed.

Lemma printed_parsed a : is_valid a = true -> is_u64 (m_value (sym a)) -> symbol_name (sym a) <> [] ->
  exists s, asset_to_string fc_to_string a = Ok s /\ asset_from_string trim to_int64 s = Ok a.
Proof.
  intros Ha Hu Hname. pose proof Ha as [Hrange Hs]%andb_true_iff. destruct (precision_spec _ Hs) as [Hd Hp].
  assert (0 < 10 ^ decimals (sym a) <= 10 ^ 18) as Hpow by (split; [apply Z.pow_pos_nonneg; lia|apply Z.pow_le_mono_r; lia]).
  assert (- max_amount <= amount a <= max_amount) as Hr by (unfold is_amount_within_range in Hrange; bool_to_prop; lia).
  destruct (amount_parts (10 ^ decimals (sym a)) (amount a)) as (Hq & Hf & Hsum & Hint); [lia|done|].
  destruct (decimal_spec (Z.abs (amount a) / 10 ^ decimals (sym a))) as (Hqne & Hqd & Hqv & _); [unfold INT64_MAX in Hq; lia|].
  unfold asset_to_string, signed_result.
  rewrite (proj2 (EOS_ASSERT_ok _ _ tt)) by (apply andb_true_iff; split; apply Z.leb_le; unfold max_amount, INT64_MIN, INT64_MAX in *; lia).
  cbn [mbind result_bind]. rewrite Hp. cbn [mbind result_bind]. rewrite (tl_print _ _ _ Hlaws _ Hq).
  rewrite <- Hqv in Hsum, Hint. assert (value (decimal (Z.abs (amount a) / 10 ^ decimals (sym a))) <= INT64_MAX) as Hqm by lia.
  fold (sign_of (amount a <? 0)). eexists. split; [reflexivity|].
  destruct (Z.eqb_spec (decimals (sym a)) 0) as [Hz|Hz]; cbn [negb].
  - rewrite app_assoc. apply integer_parsed; try done. revert Hsum. generalize (value (decimal (Z.abs (amount a) / 10 ^ decimals (sym a)))).
    intros v. rewrite Hz, Z.mod_1_r. destruct (amount a <? 0); cbn [signed]; lia.
  - assert (Z.of_nat (Z.to_nat (decimals (sym a))) = decimals (sym a)) as Hnat by lia.
    destruct (fraction_spec (Z.to_nat (decimals (sym a))) (Z.abs (amount a) mod 10 ^ decimals (sym a))) as (Hfl & Hfd & Hfv);
      [lia|by rewrite Hnat|]. rewrite Hnat in Hfl, Hfd, Hfv. rewrite (tl_print _ _ _ Hlaws) by (unfold INT64_MAX; lia).
    rewrite <- Hfv in Hsum. assert (forall (x y z w : cstring) c, x ++ (y ++ c :: z) ++ w = (x ++ y ++ c :: z) ++ w) as Happ
      by (intros; by rewrite <- !app_assoc).
    rewrite Happ. apply fraction_parsed; try done; [|lia]. rewrite Hfv. unfold INT64_MAX. lia.
Qed.

End roundtrip.
(** C27: every valid asset whose symbol has a name is printed to a string that
    parses back to the same asset, whatever its sign, its number of decimals and
    the leading zeros of its fraction, when fc prints and parses decimal numbers
    and trims white space. *)
Theorem asset_print_parse (trim : cstring -> cstring) (fc_to_string : Z -> cstring) (to_int64 : cstring -> option Z) (a : asset) :
  text_laws trim fc_to_string to_int64 -> is_valid a = true -> is_u64 (m_value (sym a)) -> symbol_name (sym a) <> [] ->
  exists s, asset_to_string fc_to_string a = Ok s /\ asset_from_string trim to_int64 s = Ok a.
Proof. intros H. by apply printed_parsed. Qed.

(** ** Text functions *)

Fixpoint skip_space (s : cstring) : cstring :=
  match s with
  | [] => []
  | c :: s' => if visible c then s else skip_space s'
  end.
Definition sample_trim (s : cstring) : cstring := rev (skip_space (rev (skip_space s))).
Definition parse_digits (s : cstring) : option Z :=
  if bool_decide (s <> []) && forallb is_digit s && (value s <=? INT64_MAX) then Some (value s) else None.
Definition sample_to_int64 (s : cstring) : option Z :=
  match s with
  | c :: s' => if Ascii.eqb c "-" then Z.opp <$> parse_digits s' else parse_digits s
  | [] => None
  end.

Lemma skip_space_id s : (forall c, head s = Some c -> visible c = true) -> skip_space s = s.
Proof. destruct s as [|c s]; intros H; cbn; [done|]. by rewrite (H c). Qed.

Lemma parse_digits_ok s : s <> [] -> forallb is_digit s = true -> value s <= INT64_MAX -> parse_digits s = Some (value s).
Proof. intros H1 H2 H3. unfold parse_digits. by rewrite bool_decide_true, H2, (proj2 (Z.leb_le _ _) H3). Qed.

Lemma sample_laws : text_laws sample_trim decimal sample_to_int64.
Proof.
  split; [done| | |].
  - intros [|c s] Hne Hd Hv; [done|]. unfold sample_to_int64. destruct (Ascii.eqb_spec c "-") as [->|_]; [done|].
    by apply parse_digits_ok.
  - intros s Hne Hd Hv. unfold sample_to_int64. rewrite Ascii.eqb_refl. by rewrite parse_digits_ok.
  - intros s Hh Hl. unfold sample_trim. rewrite (skip_space_id s Hh), (skip_space_id (rev s)), rev_involutive; [done|].
    intros c Hc. apply Hl. destruct s as [|x s _] using rev_ind; [done|]. rewrite rev_unit in Hc. by rewrite last_snoc.
Qed.

Definition sample_asset : asset := mk_asset (- 10050) (mk_symbol 1397703940).

Lemma asset_print_parse_witness :
  asset_from_string sample_trim sample_to_int64 (chars "-1.0050 EOS") = Ok sample_asset.
Proof.
  destruct (asset_print_parse sample_trim decimal sample_to_int64 sample_asset) as (s & Hp & Hs);
    [exact sample_laws|vm_compute; reflexivity|vm_compute; split; congruence|vm_compute; congruence|].
  assert (asset_to_string decimal sample_asset = Ok (chars "-1.0050 EOS")) as H by (vm_compute; reflexivity).
  rewrite H in Hp. injection Hp as <-. exact Hs.
Defined.

(** ** What is not checked *)

(** A symbol without a name is valid; its assets are printed and not parsed. *)
Lemma nameless_symbol_not_parsed :
  is_valid (mk_asset 1 (mk_symbol 4)) = true /\
  asset_to_string decimal (mk_asset 1 (mk_symbol 4)) = Ok (chars "0.0001 ") /\
  asset_from_string sample_trim sample_to_int64 (chars "0.0001 ") = Throw asset_type_exception.
Proof. vm_compute. done. Qed.

(** The number of decimals is reduced modulo 256 before it is checked. *)
Lemma decimals_cut :
  symbol_from_string sample_trim sample_to_int64 (chars "260,EOS") =
  symbol_from_string sample_trim sample_to_int64 (chars "4,EOS").
Proof. vm_compute. done. Qed.

(** A symbol without decimals is accepted. *)
Lemma zero_decimals_accepted :
  symbol_from_string sample_trim sample_to_int64 (chars "0,EOS") = Ok (mk_symbol 1397703936).
Proof. vm_compute. reflexivity. Qed.

(** The eighth character of a name is shifted by 64 bits. *)
Lemma long_name_undefined : string_to_symbol 4 (chars "ABCDEFGH") = Throw undefined_behaviour.
Proof. vm_compute. done. Qed.

(** The sum of two valid assets in place can be out of range. *)
Lemma add_assign_out_of_range :
  let a := mk_asset max_amount (mk_symbol 1397703940) in
  is_valid a = true /\ asset_add a a = Throw asset_type_exception /\
  asset_add_assign a a = Ok (mk_asset (2 * max_amount) (sym a)) /\ is_valid (mk_asset (2 * max_amount) (sym a)) = false.
Proof. split_and!; vm_compute; reflexivity. Qed.

End Assets.
