(* ===== verification/AccessLists.v ===== *)
(** * White- and blacklists: [check_actor_list] and its companions in
      libraries/chain/controller.cpp

    Module [FlatSet] has the sorted vectors behind boost's flat_set of account
    names.  Module [AccessLists] has the lists by which a producer refuses
    transactions.  The check of the actors walks two sorted vectors with a
    moving lower bound; the theorem is that it decides inclusion and
    disjointness. *)

From S2P Require Import Prelude Names.

Module FlatSet.
Abbreviation name := Name.name.

Definition before (a b : name) : Prop := Name.value a < Name.value b.

(** The elements in the order of iteration. *)
Abbreviation flat_set := (list name).

Definition wf (s : flat_set) : Prop := StronglySorted before s.

(** [flat_set::insert] *)
Fixpoint insert (a : name) (s : flat_set) : flat_set :=
  match s with
  | [] => [a]
  | b :: s' =>
      if Name.value a <? Name.value b then a :: s
      else if Name.value b <? Name.value a then b :: insert a s'
      else s
  end.

(** [std::lower_bound( first, end, a )]; an iterator is the suffix that starts
    at it. *)
Fixpoint lower_bound (s : flat_set) (a : name) : flat_set :=
  match s with
  | [] => []
  | b :: s' => if Name.value b <? Name.value a then lower_bound s' a else s
  end.

(** [find( a ) != end()] *)
Definition contains (s : flat_set) (a : name) : bool := bool_decide (a ∈ s).

Lemma name_value_inj (a b : name) : Name.value a = Name.value b -> a = b.
Proof. destruct a, b. cbn. by intros ->. Qed.

Lemma insert_elem a b s : b ∈ insert a s <-> b = a \/ b ∈ s.
Proof.
  induction s as [|c s IH]; cbn [insert]; [set_solver|].
  destruct (Name.value a <? Name.value c) eqn:E1; [set_solver|].
  destruct (Name.value c <? Name.value a) eqn:E2; [set_solver|].
  assert (a = c) as -> by (apply name_value_inj; lia). set_solver.
Qed.

Lemma insert_wf a s : wf s -> wf (insert a s).
Proof.
  unfold wf. induction s as [|c s IH]; intros Hs; cbn [insert].
  { repeat constructor. }
  inversion Hs as [|? ? Hss Hall]; subst.
  destruct (Name.value a <? Name.value c) eqn:E1; bool_to_prop.
  { constructor; [done|]. constructor; [done|]. eapply Forall_impl; [exact Hall|].
    unfold before. intros x ?. cbn in *. lia. }
  destruct (Name.value c <? Name.value a) eqn:E2; bool_to_prop; [|done].
  constructor; [by apply IH|]. apply Forall_forall. intros x Hx.
  rewrite Forall_forall in Hall. apply insert_elem in Hx as [->|Hx]; [done|by apply Hall].
Qed.

Lemma wf_NoDup s : wf s -> NoDup s.
Proof.
  intros Hs. induction Hs as [|a s Hs IH Hall]; constructor; [|done].
  intros Ha. rewrite Forall_forall in Hall. specialize (Hall _ Ha). unfold before in Hall. lia.
Qed.

(** A fold of insertions, from a well-formed set. *)
Lemma inserts_wf s l : wf s -> wf (foldl (fun s a => insert a s) s l).
Proof. revert s. induction l as [|a l IH]; intros s Hs; cbn; [done|]. by apply IH, insert_wf. Qed.

Lemma inserts_elem s l b : b ∈ foldl (fun s a => insert a s) s l <-> b ∈ s \/ b ∈ l.
Proof.
  revert s. induction l as [|a l IH]; intros s; cbn; [set_solver|].
  rewrite IH, insert_elem. set_solver.
Qed.

Lemma lower_bound_sublist s a : lower_bound s a `suffix_of` s.
Proof.
  induction s as [|b s IH]; cbn [lower_bound]; [done|].
  destruct (_ <? _); [by apply suffix_cons_r|done].
Qed.

Lemma suffix_wf s t : t `suffix_of` s -> wf s -> wf t.
Proof.
  intros [k ->]. unfold wf. induction k as [|x k IH]; [done|].
  cbn. inversion 1; auto.
Qed.

(** What the lower bound skips is less than [a], and it starts at the first
    element that is not. *)
Lemma lower_bound_elem s a b : wf s -> Name.value a <= Name.value b ->
  b ∈ lower_bound s a <-> b ∈ s.
Proof.
  intros Hs Hle. induction Hs as [|c s Hs IH Hall]; cbn [lower_bound]; [done|].
  destruct (Name.value c <? Name.value a) eqn:E; bool_to_prop; [|done].
  rewrite IH, elem_of_cons. split; [by right|]. intros [->|?]; [lia|done].
Qed.

Lemma lower_bound_head s a b t : wf s -> lower_bound s a = b :: t -> Name.value a <= Name.value b.
Proof.
  intros Hs H. induction Hs as [|c s Hs IH Hall]; cbn [lower_bound] in H; [done|].
  destruct (Name.value c <? Name.value a) eqn:E; bool_to_prop; [by apply IH|].
  by injection H as -> ->.
Qed.

End FlatSet.

Module AccessLists.
Import FlatSet.

(** The lists of [controller::config]. *)
Record lists := mk_lists {
  actor_whitelist : flat_set;
  actor_blacklist : flat_set;
  contract_whitelist : flat_set;
  contract_blacklist : flat_set;
  action_blacklist : gset (name * name);
  sender_bypass_whiteblacklist : flat_set;
}.

(** The loop over the actors for the whitelist: [lo] is the variable
    [lower_bound]. *)
Fixpoint subset_loop (actors lo : flat_set) : bool :=
  match actors with
  | [] => true
  | actor :: actors =>
      match lower_bound lo actor with
      | [] => false
      | b :: lo => if bool_decide (b = actor) then subset_loop actors lo else false
      end
  end.

(** The loop over the actors for the blacklist. *)
Fixpoint intersects_loop (actors lo : flat_set) : bool :=
  match actors with
  | [] => false
  | actor :: actors =>
      match lower_bound lo actor with
      | [] => false
      | b :: lo' =>
          if bool_decide (b = actor) then true else intersects_loop actors (b :: lo')
      end
  end.

(** The extents of a set: its first and its last element. *)
Definition extents (s : flat_set) : option (Z * Z) :=
  match head s, last s with
  | Some a, Some b => Some (Name.value a, Name.value b)
  | _, _ => None
  end.

Definition is_subset (actors whitelist : flat_set) : bool :=
  match extents actors, extents whitelist with
  | Some (a0, a1), Some (w0, w1) =>
      if (w0 <=? a0) && (a1 <=? w1) then subset_loop actors whitelist else false
  | _, _ => false
  end.

Definition intersects (actors blacklist : flat_set) : bool :=
  match extents actors, extents blacklist with
  | Some (a0, a1), Some (b0, b1) =>
      if (a0 <=? b1) && (b0 <=? a1) then intersects_loop actors blacklist else false
  | _, _ => false
  end.

Definition check_actor_list (c : lists) (actors : flat_set) : result unit :=
  if (length actors =? 0)%nat then mret tt
  else if (0 <? length (actor_whitelist c))%nat then
    EOS_ASSERT (is_subset actors (actor_whitelist c)) actor_whitelist_exception
  else if (0 <? length (actor_blacklist c))%nat then
    EOS_ASSERT (negb (intersects actors (actor_blacklist c))) actor_blacklist_exception
  else mret tt.

Definition check_contract_list (c : lists) (code : name) : result unit :=
  if (0 <? length (contract_whitelist c))%nat then
    EOS_ASSERT (contains (contract_whitelist c) code) contract_whitelist_exception
  else if (0 <? length (contract_blacklist c))%nat then
    EOS_ASSERT (negb (contains (contract_blacklist c) code)) contract_blacklist_exception
  else mret tt.

Definition check_action_list (c : lists) (code action : name) : result unit :=
  if (0 <? size (action_blacklist c))%nat then
    EOS_ASSERT (negb (bool_decide ((code, action) ∈ action_blacklist c)))
      action_blacklist_exception
  else mret tt.

Definition sender_avoids_whitelist_blacklist_enforcement (c : lists) (sender : name) : bool :=
  if (0 <? length (sender_bypass_whiteblacklist c))%nat
     && contains (sender_bypass_whiteblacklist c) sender then true else false.

(** ** Correctness of the walks *)

Lemma subset_loop_exact actors lo : wf actors -> wf lo ->
  subset_loop actors lo = bool_decide (actors ⊆ lo).
Proof.
  intros Ha. revert lo. induction Ha as [|a actors Ha IH Hall]; intros lo Hlo; cbn [subset_loop].
  { symmetry. apply bool_decide_eq_true. set_solver. }
  pose proof (lower_bound_elem lo a a Hlo ltac:(lia)) as Hin.
  destruct (lower_bound lo a) as [|b t] eqn:E.
  { symmetry. apply bool_decide_eq_false. intros H. assert (a ∈ lo) as Hx by set_solver.
    apply Hin in Hx. by apply not_elem_of_nil in Hx. }
  assert (wf (b :: t)) as Hbt.
  { eapply suffix_wf; [|exact Hlo]. rewrite <- E. apply lower_bound_sublist. }
  inversion Hbt as [|? ? Ht Hbt']; subst.
  destruct (decide (b = a)) as [->|Hne].
  - rewrite bool_decide_eq_true_2 by done. rewrite (IH t Ht). apply bool_decide_ext.
    rewrite Forall_forall in Hall.
    assert (forall x, x ∈ actors -> x ∈ lo <-> x ∈ t) as Hx.
    { intros x Hx. pose proof (Hall _ Hx) as Hlt. unfold before in Hlt.
      rewrite <- (lower_bound_elem lo a x Hlo), E, elem_of_cons by lia.
      split; [intros [->|?]; [lia|done]|by right]. }
    assert (a ∈ lo) by (apply Hin; left). set_solver.
  - rewrite bool_decide_eq_false_2 by done. symmetry. apply bool_decide_eq_false. intros H.
    assert (a ∈ b :: t) as Hx by (apply Hin; set_solver). apply elem_of_cons in Hx as [?|Hx]; [done|].
    pose proof (lower_bound_head lo a b t Hlo E). rewrite Forall_forall in Hbt'.
    specialize (Hbt' _ Hx). unfold before in Hbt'. lia.
Qed.

Lemma intersects_loop_exact actors lo : wf actors -> wf lo ->
  intersects_loop actors lo = true <-> exists a, a ∈ actors /\ a ∈ lo.
Proof.
  intros Ha. revert lo. induction Ha as [|a actors Ha IH Hall]; intros lo Hlo; cbn [intersects_loop].
  { split; [done|]. intros (x & Hx & _). by apply not_elem_of_nil in Hx. }
  rewrite Forall_forall in Hall.
  assert (forall x, x ∈ a :: actors -> x ∈ lo <-> x ∈ lower_bound lo a) as Hin.
  { intros x Hx. symmetry. apply lower_bound_elem; [done|].
    apply elem_of_cons in Hx as [->|Hx]; [lia|]. specialize (Hall _ Hx). unfold before in Hall. lia. }
  pose proof (suffix_wf _ _ (lower_bound_sublist lo a) Hlo) as Hwf.
  destruct (lower_bound lo a) as [|b t] eqn:E.
  { split; [done|]. intros (x & Hx & Hl). apply Hin in Hl; [|done]. by apply not_elem_of_nil in Hl. }
  destruct (decide (b = a)) as [->|Hne].
  - rewrite bool_decide_eq_true_2 by done. split; [|done]. intros _. exists a.
    split; [left|apply Hin; left].
  - rewrite bool_decide_eq_false_2 by done. rewrite (IH _ Hwf). split.
    + intros (x & Hx & Hl). exists x. split; [by right|]. apply Hin; [by right|done].
    + intros (x & Hx & Hl). apply Hin in Hl; [|done]. exists x. split; [|done].
      apply elem_of_cons in Hx as [->|?]; [|done]. exfalso.
      apply elem_of_cons in Hl as [?|Hl]; [done|].
      pose proof (lower_bound_head lo a b t Hlo E). inversion Hwf as [|? ? _ Hb]; subst.
      rewrite Forall_forall in Hb. specialize (Hb _ Hl). unfold before in Hb. lia.
Qed.

Lemma sorted_lookup_lt s i j a b : wf s -> s !! i = Some a -> s !! j = Some b -> (i < j)%nat ->
  Name.value a < Name.value b.
Proof.
  intros Hs. revert i j. induction Hs as [|c s Hs IH Hall]; intros i j Hi Hj Hij; [done|].
  destruct j as [|j]; [lia|]. cbn in Hj. destruct i as [|i]; cbn in Hi.
  - injection Hi as ->. rewrite Forall_forall in Hall. apply Hall. by eapply list_elem_of_lookup_2.
  - apply (IH i j); [done..|lia].
Qed.

Lemma extents_bound s lo hi a : wf s -> extents s = Some (lo, hi) -> a ∈ s ->
  lo <= Name.value a <= hi.
Proof.
  unfold extents, wf. intros Hs H Ha. destruct (head s) as [b|] eqn:Eb; [|done].
  destruct (last s) as [c|] eqn:Ec; [|done]. injection H as <- <-.
  apply list_elem_of_lookup in Ha as [i Hi]. rewrite last_lookup in Ec.
  rewrite head_lookup in Eb. assert (i < length s)%nat by (by eapply lookup_lt_Some).
  split.
  - destruct (decide (i = 0)%nat) as [->|]; [replace b with a by congruence; lia|].
    pose proof (sorted_lookup_lt s 0 i _ _ Hs Eb Hi ltac:(lia)). lia.
  - destruct (decide (i = pred (length s))) as [->|]; [replace c with a by congruence; lia|].
    pose proof (sorted_lookup_lt s i (pred (length s)) _ _ Hs Hi Ec ltac:(lia)). lia.
Qed.

Lemma extents_some s : s <> [] -> exists lo hi, extents s = Some (lo, hi).
Proof.
  intros Hs. unfold extents. destruct s as [|a s]; [done|]. cbn [head].
  destruct (last (a :: s)) as [b|] eqn:E; [eauto|]. by apply last_None in E.
Qed.

Lemma is_subset_exact actors whitelist : wf actors -> wf whitelist -> actors <> [] ->
  whitelist <> [] -> is_subset actors whitelist = bool_decide (actors ⊆ whitelist).
Proof.
  intros Ha Hw Hna Hnw. unfold is_subset.
  destruct (extents_some actors Hna) as (a0 & a1 & Ea), (extents_some whitelist Hnw) as (w0 & w1 & Ew).
  rewrite Ea, Ew. destruct ((w0 <=? a0) && (a1 <=? w1)) eqn:E; [by apply subset_loop_exact|].
  symmetry. apply bool_decide_eq_false. intros Hsub. unfold extents in Ea.
  destruct (head actors) as [x|] eqn:Ex; [|done]. destruct (last actors) as [y|] eqn:Ey; [|done].
  injection Ea as <- <-. apply head_Some_elem_of in Ex. apply last_Some_elem_of in Ey.
  pose proof (extents_bound whitelist w0 w1 x Hw Ew (Hsub _ Ex)).
  pose proof (extents_bound whitelist w0 w1 y Hw Ew (Hsub _ Ey)).
  apply andb_false_iff in E as [E|E]; bool_to_prop; lia.
Qed.

Lemma intersects_exact actors blacklist : wf actors -> wf blacklist -> actors <> [] ->
  blacklist <> [] -> intersects actors blacklist = bool_decide (Exists (.∈ blacklist) actors).
Proof.
  intros Ha Hb Hna Hnb. unfold intersects.
  destruct (extents_some actors Hna) as (a0 & a1 & Ea), (extents_some blacklist Hnb) as (b0 & b1 & Eb).
  rewrite Ea, Eb. apply Bool.eq_iff_eq_true. rewrite bool_decide_eq_true, Exists_exists.
  destruct ((a0 <=? b1) && (b0 <=? a1)) eqn:E; [by apply intersects_loop_exact|].
  split; [done|]. intros (a & H1 & H2). exfalso.
  pose proof (extents_bound actors a0 a1 a Ha Ea H1). pose proof (extents_bound blacklist b0 b1 a Hb Eb H2).
  apply andb_false_iff in E as [E|E]; bool_to_prop; lia.
Qed.

(** The check without the walks. *)
Definition actor_list_spec (c : lists) (actors : flat_set) : result unit :=
  if decide (actors = []) then mret tt
  else if decide (actor_whitelist c = []) then
    if decide (Exists (.∈ actor_blacklist c) actors) then Throw actor_blacklist_exception
    else mret tt
  else if decide (actors ⊆ actor_whitelist c) then mret tt
  else Throw actor_whitelist_exception.

(** The check of the actors of a transaction against the lists of a
    producer, with its test of the extents and its walk along two sorted
    vectors, is exact: with a whitelist, every actor has to be on it (and the
    blacklist is ignored); without one, no actor may be on the blacklist. *)
Theorem actor_list_exact (c : lists) (actors : flat_set) :
  wf actors -> wf (actor_whitelist c) -> wf (actor_blacklist c) ->
  check_actor_list c actors = actor_list_spec c actors.
Proof.
  intros Ha Hw Hb. unfold check_actor_list, actor_list_spec.
  destruct (decide (actors = [])) as [->|Hna]; [done|].
  rewrite (proj2 (Nat.eqb_neq _ _)) by (by destruct actors).
  destruct (decide (actor_whitelist c = [])) as [->|Hnw]; cbn [length].
  - change ((0 <? 0)%nat) with false. cbn iota.
    destruct (decide (actor_blacklist c = [])) as [->|Hnb].
    + rewrite decide_False; [done|]. rewrite Exists_exists. intros (a & _ & Hin).
      by apply not_elem_of_nil in Hin.
    + rewrite (proj2 (Nat.ltb_lt _ _)) by (destruct (actor_blacklist c); [done|cbn; lia]).
      rewrite intersects_exact by done. unfold bool_decide. by case_match.
  - rewrite (proj2 (Nat.ltb_lt _ _)) by (destruct (actor_whitelist c); [done|cbn; lia]).
    rewrite is_subset_exact by done. unfold bool_decide. by case_match.
Qed.

Definition sample_lists : lists :=
  mk_lists [] [Name.mk_name 3; Name.mk_name 8; Name.mk_name 11] [] [] ∅ [].

Lemma actor_list_exact_witness :
  check_actor_list sample_lists [Name.mk_name 5; Name.mk_name 8; Name.mk_name 20]
  = Throw actor_blacklist_exception.
Proof.
  rewrite (actor_list_exact sample_lists [Name.mk_name 5; Name.mk_name 8; Name.mk_name 20]);
    [vm_compute; reflexivity|..]; repeat constructor.
Defined.

End AccessLists.
