(* ===== verification/ChainConfig.v ===== *)
(** * The configuration that producers vote on:
      include/eosio/chain/chain_config.hpp and libraries/chain/chain_config.cpp

    Module [ChainConfig] has the two versions of the configuration, their
    validation and their comparison. *)

From S2P Require Import Prelude.

Module ChainConfig.

Definition percent_100 : Z := 10000.
Definition percent_1 : Z := 100.
Definition min_net_usage_delta_between_base_and_max_for_trx : Z := 10 * 1024.
Definition transaction_id_net_usage : Z := 32.
Definition MAX_SIZE_OF_BYTE_ARRAYS : Z := 20 * 1024 * 1024.

Record chain_config_v0 := mk_config_v0 {
  max_block_net_usage : Z;
  target_block_net_usage_pct : Z;
  max_transaction_net_usage : Z;
  base_per_transaction_net_usage : Z;
  net_usage_leeway : Z;
  context_free_discount_net_usage_num : Z;
  context_free_discount_net_usage_den : Z;
  max_block_cpu_usage : Z;
  target_block_cpu_usage_pct : Z;
  max_transaction_cpu_usage : Z;
  min_transaction_cpu_usage : Z;
  max_transaction_lifetime : Z;
  deferred_trx_expiration_window : Z;
  max_transaction_delay : Z;
  max_inline_action_size : Z;
  max_inline_action_depth : Z;
  max_authority_depth : Z;
}.

Record chain_config_v1 := mk_config_v1 {
  base : chain_config_v0;
  max_action_return_value_size : Z;
}.

(** The widths of the members. *)
Definition config_width (c : chain_config_v0) : Prop :=
  is_u64 (max_block_net_usage c) /\
  Forall (fun x => is_u32 x) [max_transaction_net_usage c; base_per_transaction_net_usage c; net_usage_leeway c;
                 max_block_cpu_usage c; max_transaction_cpu_usage c; min_transaction_cpu_usage c].

Definition validate_v0 (c : chain_config_v0) : result unit :=
  EOS_ASSERT (target_block_net_usage_pct c <=? percent_100) action_validate_exception;;
  EOS_ASSERT (percent_1 / 10 <=? target_block_net_usage_pct c) action_validate_exception;;
  EOS_ASSERT (target_block_cpu_usage_pct c <=? percent_100) action_validate_exception;;
  EOS_ASSERT (percent_1 / 10 <=? target_block_cpu_usage_pct c) action_validate_exception;;
  EOS_ASSERT (max_transaction_net_usage c <? max_block_net_usage c) action_validate_exception;;
  EOS_ASSERT (max_transaction_cpu_usage c <? max_block_cpu_usage c) action_validate_exception;;
  EOS_ASSERT (base_per_transaction_net_usage c <? max_transaction_net_usage c)
    action_validate_exception;;
  EOS_ASSERT (min_net_usage_delta_between_base_and_max_for_trx <=?
              u32 (max_transaction_net_usage c - base_per_transaction_net_usage c))
    action_validate_exception;;
  EOS_ASSERT (0 <? context_free_discount_net_usage_den c) action_validate_exception;;
  EOS_ASSERT (context_free_discount_net_usage_num c <=? context_free_discount_net_usage_den c)
    action_validate_exception;;
  EOS_ASSERT (min_transaction_cpu_usage c <=? max_transaction_cpu_usage c)
    action_validate_exception;;
  EOS_ASSERT (max_transaction_cpu_usage c <?
              u32 (max_block_cpu_usage c - min_transaction_cpu_usage c)) action_validate_exception;;
  EOS_ASSERT (1 <=? max_authority_depth c) action_validate_exception.

Definition validate (c : chain_config_v1) : result unit :=
  validate_v0 (base c);;
  EOS_ASSERT (max_action_return_value_size c <=? MAX_SIZE_OF_BYTE_ARRAYS)
    action_validate_exception.

(** The arguments of [std::tie] in [operator ==]. *)
Definition tied (c : chain_config_v0) : list Z :=
  [max_block_net_usage c; target_block_net_usage_pct c; max_transaction_net_usage c;
   base_per_transaction_net_usage c; net_usage_leeway c;
   context_free_discount_net_usage_num c; context_free_discount_net_usage_den c;
   max_block_cpu_usage c; target_block_cpu_usage_pct c; max_transaction_cpu_usage c;
   max_transaction_cpu_usage c; max_transaction_lifetime c; deferred_trx_expiration_window c;
   max_transaction_delay c; max_inline_action_size c; max_inline_action_depth c;
   max_authority_depth c].

Definition config_v0_eq (l r : chain_config_v0) : bool := bool_decide (tied l = tied r).

Definition config_eq (l r : chain_config_v1) : bool :=
  bool_decide (max_action_return_value_size l = max_action_return_value_size r)
  && config_v0_eq (base l) (base r).

(** No subtraction of the validation wraps around, and a transaction of the
    greatest cost fits a block beside one of the least cost. *)
Lemma validate_v0_bounds (c : chain_config_v0) : config_width c -> validate_v0 c = Ok tt ->
  base_per_transaction_net_usage c + min_net_usage_delta_between_base_and_max_for_trx
    <= max_transaction_net_usage c < max_block_net_usage c /\
  min_transaction_cpu_usage c <= max_transaction_cpu_usage c /\
  max_transaction_cpu_usage c + min_transaction_cpu_usage c < max_block_cpu_usage c.
Proof.
  intros [Hn Hw] H. unfold validate_v0 in H. inv_ok.
  repeat match goal with H : Forall _ (_ :: _) |- _ => inversion H; subst; clear H end.
  bool_to_prop. rewrite u32_small in * by lia. lia.
Qed.

(** [c] with another least CPU usage. *)
Definition with_min_cpu (c : chain_config_v1) (n : Z) : chain_config_v1 :=
  let b := base c in
  mk_config_v1 (mk_config_v0 (max_block_net_usage b) (target_block_net_usage_pct b)
    (max_transaction_net_usage b) (base_per_transaction_net_usage b) (net_usage_leeway b)
    (context_free_discount_net_usage_num b) (context_free_discount_net_usage_den b)
    (max_block_cpu_usage b) (target_block_cpu_usage_pct b) (max_transaction_cpu_usage b) n
    (max_transaction_lifetime b) (deferred_trx_expiration_window b) (max_transaction_delay b)
    (max_inline_action_size b) (max_inline_action_depth b) (max_authority_depth b))
    (max_action_return_value_size c).

(** Two configurations compare equal exactly when they agree in all
    members but min_transaction_cpu_usage: the comparison lists
    max_transaction_cpu_usage twice, and leaves out the minimum. *)
Theorem config_eq_ignores_min_cpu (l r : chain_config_v1) :
  config_eq l r = true <-> r = with_min_cpu l (min_transaction_cpu_usage (base r)).
Proof.
  destruct l as [[] lr], r as [[] rr]. unfold config_eq, config_v0_eq, with_min_cpu, tied.
  cbn. rewrite andb_true_iff, !bool_decide_eq_true. naive_solver.
Qed.

(** The defaults of config.hpp. *)
Definition default_config : chain_config_v1 :=
  mk_config_v1 (mk_config_v0 (1024 * 1024) (10 * percent_1) (1024 * 1024 / 2) 12 500 20 100
    200000 (10 * percent_1) (3 * 200000 / 4) 100 (60 * 60) (10 * 60) (45 * 24 * 3600)
    (512 * 1024) 4 6) 256.

End ChainConfig.
