(* ===== verification/ProducerSchedule.v ===== *)
(** * Producer schedules: include/eosio/chain/producer_schedule.hpp

    Module [ProducerSchedule] has the legacy and the current schedules, the
    weighted block signing authorities, and the check of a set of keys against
    an authority.  Public keys belong to the fc library: their type is a
    parameter. *)

From S2P Require Import Prelude Names.

Module ProducerSchedule.
Abbreviation account_name := Name.name.

Section schedule.
Context {K : Type} `{Countable K}.

(** [struct key_weight] of authority.hpp *)
Record key_weight := mk_key_weight { key : K; weight : Z }.

(** ** Legacy schedules *)

Record producer_key := mk_producer_key {
  legacy_name : account_name;
  block_signing_key : K;
}.

Record producer_schedule_type := mk_legacy_schedule {
  legacy_version : Z;
  legacy_producers : list producer_key;
}.

(** ** Weighted schedules *)

(** [block_signing_authority] is a variant with one alternative. *)
Record block_signing_authority := mk_authority_v0 {
  threshold : Z;
  keys : list key_weight;
}.

Record producer_authority := mk_producer_authority {
  producer_name : account_name;
  authority : block_signing_authority;
}.

Record producer_authority_schedule := mk_schedule {
  version : Z;
  producers : list producer_authority;
}.

(** The members of a default-constructed schedule. *)
Definition empty_schedule : producer_authority_schedule := mk_schedule 0 [].

(** Up-convert a legacy schedule: one key of weight 1 and threshold 1. *)
Definition upgrade_key (p : producer_key) : producer_authority :=
  mk_producer_authority (legacy_name p)
    (mk_authority_v0 1 [mk_key_weight (block_signing_key p) 1]).
Definition upgrade (old : producer_schedule_type) : producer_authority_schedule :=
  mk_schedule (legacy_version old) (upgrade_key <$> legacy_producers old).

(** One key of the loop of [keys_satisfy_and_relevant]. *)
Definition count_key (presented_keys : gset K) (threshold : Z)
    (acc : Z * Z) (kw : key_weight) : Z * Z :=
  let '(num_relevant_keys, total_weight) := acc in
  if decide (key kw ∈ presented_keys) then
    (num_relevant_keys + 1,
     if total_weight <? threshold
     then u32 (total_weight + Z.min (UINT32_MAX - total_weight) (weight kw))
     else total_weight)
  else acc.

Definition keys_satisfy_and_relevant (presented_keys : gset K) (a : block_signing_authority)
  : bool * Z :=
  let '(num_relevant_keys, total_weight) :=
    foldl (count_key presented_keys (threshold a)) (0, 0) (keys a) in
  (threshold a <=? total_weight, num_relevant_keys).

(** ** Correctness *)

(** The exact weight and number of the keys that were presented. *)
Definition presented_weight (presented : gset K) (l : list key_weight) : Z :=
  sum_with (fun kw => if decide (key kw ∈ presented) then weight kw else 0) l.
Definition presented_count (presented : gset K) (l : list key_weight) : Z :=
  sum_with (fun kw => if decide (key kw ∈ presented) then 1 else 0) l.

Lemma count_keys_spec presented t l n w : is_u32 t -> 0 <= w <= UINT32_MAX ->
  Forall (fun kw => is_u16 (weight kw)) l ->
  exists w', foldl (count_key presented t) (n, w) l = (n + presented_count presented l, w') /\
    0 <= w' <= UINT32_MAX /\ (t <= w' <-> t <= w + presented_weight presented l).
Proof.
  intros Ht. revert n w. induction l as [|kw l IH]; intros n w Hw Hl.
  { exists w. cbn. rewrite !Z.add_0_r. split_and!; [done|lia..]. }
  apply Forall_cons in Hl as [Hkw Hl]. cbn [foldl count_key].
  unfold presented_count, presented_weight, UINT32_MAX in *. cbn [sum_with foldr].
  fold (sum_with (fun kw => if decide (key kw ∈ presented) then weight kw else 0) l).
  fold (sum_with (fun kw => if decide (key kw ∈ presented) then 1 else 0) l).
  assert (0 <= sum_with (fun kw => if decide (key kw ∈ presented) then weight kw else 0) l).
  { clear IH. induction Hl as [|x k Hx _ IHk]; cbn; [done|]. unfold sum_with in IHk.
    destruct (decide (key x ∈ presented)); lia. }
  destruct (decide (key kw ∈ presented)).
  - destruct (w <? t) eqn:E; bool_to_prop.
    + rewrite u32_small by lia.
      destruct (IH (n + 1) (w + Z.min (2 ^ 32 - 1 - w) (weight kw)) ltac:(lia) Hl)
        as (w' & -> & Hr & Hiff). exists w'. split_and!; [f_equal; lia|lia..].
    + destruct (IH (n + 1) w ltac:(lia) Hl) as (w' & -> & Hr & Hiff). exists w'.
      split_and!; [f_equal; lia|lia..].
  - destruct (IH n w ltac:(lia) Hl) as (w' & -> & Hr & Hiff). exists w'.
    split_and!; [f_equal; lia|lia..].
Qed.

Lemma keys_satisfy_spec presented a : is_u32 (threshold a) ->
  Forall (fun kw => is_u16 (weight kw)) (keys a) ->
  keys_satisfy_and_relevant presented a =
    (threshold a <=? presented_weight presented (keys a), presented_count presented (keys a)).
Proof.
  intros Ht Hw. unfold keys_satisfy_and_relevant.
  destruct (count_keys_spec presented (threshold a) (keys a) 0 0) as (w' & -> & Hr & Hiff);
    [done|unfold UINT32_MAX; lia|done|].
  rewrite Z.add_0_l in *. f_equal.
  destruct (threshold a <=? w') eqn:E1, (threshold a <=? presented_weight presented (keys a)) eqn:E2;
    bool_to_prop; (done || lia).
Qed.

End schedule.

Arguments key_weight : clear implicits.
Arguments producer_key : clear implicits.
Arguments producer_schedule_type : clear implicits.
Arguments block_signing_authority : clear implicits.
Arguments producer_authority : clear implicits.
Arguments producer_authority_schedule : clear implicits.

(** The saturating 32-bit count of [keys_satisfy_and_relevant] decides
    the exact question: an authority is satisfied exactly when the weights of
    its keys that were presented add up, in unbounded arithmetic, to the
    threshold, and the second result is the number of those keys. *)
Theorem keys_satisfy_exact {K : Type} `{Countable K} (presented : gset K)
    (a : block_signing_authority K) :
  is_u32 (threshold a) -> Forall (fun kw => is_u16 (weight kw)) (keys a) ->
  keys_satisfy_and_relevant presented a =
    (threshold a <=? presented_weight presented (keys a), presented_count presented (keys a)).
Proof. apply keys_satisfy_spec. Qed.

Lemma keys_satisfy_exact_witness :
  keys_satisfy_and_relevant {[ 1; 3 ]}
    (mk_authority_v0 3 [mk_key_weight 1 1; mk_key_weight 2 1; mk_key_weight 3 2]) = (true, 2).
Proof.
  rewrite (keys_satisfy_exact {[ 1; 3 ]}
    (mk_authority_v0 3 [mk_key_weight 1 1; mk_key_weight 2 1; mk_key_weight 3 2]));
    [vm_compute; reflexivity|cbn; lia|repeat constructor; cbn; lia].
Defined.

End ProducerSchedule.
