(* ===== verification/BlockHeaderState.v ===== *)
(** * Block headers and their state: libraries/chain/block_header_state.cpp,
      block_header.cpp, protocol_feature_activation.cpp and their headers

    Module [BlockHeaderState] models the header state of a block, its
    successor [next] (producer scheduling, confirmation counts and the DPOS
    irreversible block number, promotion of a pending schedule), the checks of
    a signed header in [finish_next] and the verification of its signatures.

    The hash functions, the recovery of a key from a signature, the byte order
    swap and the packing of header extensions belong to the fc library: they
    are parameters.  So is the digest of the WTMsig protocol feature.  An
    empty schedule makes [get_scheduled_producer] divide by zero in C++; the
    model returns [undefined_behaviour] there. *)

From S2P Require Import Prelude Names Merkle ProducerSchedule.
Import ProducerSchedule.

Module BlockHeaderState.

Abbreviation account_name := Name.name.
Abbreviation digest_type := Merkle.digest_type.
Abbreviation block_id_type := Merkle.digest_type.

Section state.
(** Public keys, signatures and packed extension data. *)
Context {K Sig Bytes : Type} `{Countable K}.

Definition producer_repetitions : Z := 12.
Definition max_producers : Z := 125.
Definition maximum_tracked_dpos_confirmations : Z := 1024.

(** ** Headers *)

Record block_header := mk_header {
  timestamp : Z;
  producer : account_name;
  confirmed : Z;
  previous : block_id_type;
  transaction_mroot : digest_type;
  action_mroot : digest_type;
  schedule_version : Z;
  new_producers : option (producer_schedule_type K);
  header_extensions : list (Z * Bytes);
}.

Record signed_block_header := mk_signed_header {
  header_of : block_header;
  producer_signature : Sig;
}.

(** The two known header extensions, with ids 0 and 1. *)
Inductive block_header_extension :=
  | protocol_feature_activation (protocol_features : list digest_type)
  | producer_schedule_change_extension (s : producer_authority_schedule K).

Definition activation_id : Z := 0.
Definition schedule_change_id : Z := 1.

(** ** The fc library *)

Context (header_hash : block_header -> digest_type)
        (pair_hash : digest_type * digest_type -> digest_type)
        (legacy_schedule_hash : producer_schedule_type K -> digest_type)
        (schedule_digest : producer_authority_schedule K -> digest_type)
        (endian_reverse_u32 : Z -> Z)
        (recover_key : Sig -> digest_type -> result K)
        (pack_activation : list digest_type -> Bytes)
        (pack_schedule : producer_authority_schedule K -> Bytes)
        (unpack_activation : Bytes -> result (list digest_type))
        (unpack_schedule : Bytes -> result (producer_authority_schedule K)).

(** [pfs.get_builtin_digest( builtin_protocol_feature_t::wtmsig_block_signatures )] *)
Context (wtmsig_digest : option digest_type).

(** ** Ids *)

Definition num_from_id (id : block_id_type) : Z := endian_reverse_u32 (u32 (Merkle.h0 id)).

Definition block_num_of (h : block_header) : Z := u32 (num_from_id (previous h) + 1).

Definition calculate_id (h : block_header) : block_id_type :=
  let d := header_hash h in
  Merkle.mk_digest
    (u64 (Z.land (Merkle.h0 d) 0xffffffff00000000 + endian_reverse_u32 (block_num_of h)))
    (Merkle.h1 d) (Merkle.h2 d) (Merkle.h3 d).

(** ** Header extensions *)

(** [decompose_t::extract]: the extension and [enforce_unique]. *)
Definition extract (id : Z) (data : Bytes) : result (option (block_header_extension * bool)) :=
  if id =? activation_id then
    l ← unpack_activation data; mret (Some (protocol_feature_activation l, true))
  else if id =? schedule_change_id then
    s ← unpack_schedule data; mret (Some (producer_schedule_change_extension s, true))
  else mret None.

Fixpoint extract_loop (i : nat) (id_type_lower_bound : Z) (exts : list (Z * Bytes))
    (results : list (Z * block_header_extension))
  : result (list (Z * block_header_extension)) :=
  match exts with
  | [] => mret results
  | (id, data) :: exts =>
      EOS_ASSERT (id_type_lower_bound <=? id) invalid_block_header_extension;;
      m ← extract id data;
      match m with
      | None => Throw invalid_block_header_extension
      | Some (e, enforce_unique) =>
          (if (enforce_unique : bool) then
             EOS_ASSERT (bool_decide (i = 0%nat) || (id_type_lower_bound <? id))
               invalid_block_header_extension
           else mret tt);;
          extract_loop (S i) id exts (insert_upper fst (id, e) results)
      end
  end.

(** The result is a multimap: sorted by id, equal ids in order of insertion. *)
Definition validate_and_extract_header_extensions (h : block_header)
  : result (list (Z * block_header_extension)) :=
  extract_loop 0 0 (header_extensions h) [].

(** [exts.count(id) > 0] and [std::get<...>(exts.lower_bound(id)->second)]. *)
Definition find_ext (id : Z) (exts : list (Z * block_header_extension))
  : option block_header_extension :=
  snd <$> (snd <$> list_find (fun e => e.1 = id) exts).

Definition get_activation (exts : list (Z * block_header_extension)) : option (list digest_type) :=
  match find_ext activation_id exts with
  | Some (protocol_feature_activation l) => Some l
  | _ => None
  end.

Definition get_schedule_change (exts : list (Z * block_header_extension))
  : option (producer_authority_schedule K) :=
  match find_ext schedule_change_id exts with
  | Some (producer_schedule_change_extension s) => Some s
  | _ => None
  end.

(** [emplace_extension]: after the extensions with a smaller or equal id. *)
Definition emplace_extension (exts : list (Z * Bytes)) (eid : Z) (data : Bytes)
  : list (Z * Bytes) := insert_upper fst (eid, data) exts.

(** [protocol_feature_activation_set( orig, additional )] with the default
    [enforce_disjoint = true]. *)
Definition add_features (orig : gset digest_type) (additional : list digest_type)
  : result (gset digest_type) :=
  let s := orig ∪ list_to_set additional in
  EOS_ASSERT (bool_decide (size s = (size orig + length additional)%nat))
    invalid_block_header_extension;;
  mret s.

(** ** States *)

Record schedule_info := mk_schedule_info {
  schedule_lib_num : Z;
  schedule_hash : digest_type;
  schedule : producer_authority_schedule K;
}.

(** [detail::block_header_state_common] *)
Record common := mk_common {
  block_num : Z;
  dpos_proposed_irreversible_blocknum : Z;
  dpos_irreversible_blocknum : Z;
  active_schedule : producer_authority_schedule K;
  blockroot_merkle : Merkle.incremental_merkle;
  producer_to_last_produced : gmap account_name Z;
  producer_to_last_implied_irb : gmap account_name Z;
  valid_block_signing_authority : block_signing_authority K;
  confirm_count : list Z;
}.

Record pending_block_header_state := mk_pending {
  p_common : common;
  prev_activated_protocol_features : gset digest_type;
  prev_pending_schedule : schedule_info;
  was_pending_promoted : bool;
  p_previous : block_id_type;
  p_producer : account_name;
  p_timestamp : Z;
  active_schedule_version : Z;
  p_confirmed : Z;
}.

Record block_header_state := mk_state {
  s_common : common;
  id : block_id_type;
  header : signed_block_header;
  pending_schedule : schedule_info;
  activated_protocol_features : gset digest_type;
  additional_signatures : list Sig;
  header_exts : list (Z * block_header_extension);
}.

(** [detail::is_builtin_activated] for the WTMsig feature *)
Definition wtmsig_activated (pfa : gset digest_type) : bool :=
  match wtmsig_digest with Some d => bool_decide (d ∈ pfa) | None => false end.

(** ** Scheduling and irreversibility *)

Definition get_scheduled_producer (s : producer_authority_schedule K) (slot : Z)
  : result (producer_authority K) :=
  let n := Z.of_nat (length (producers s)) in
  if n =? 0 then Throw undefined_behaviour
  else
    let index := slot mod (n * producer_repetitions) / producer_repetitions in
    match producers s !! Z.to_nat index with
    | Some p => Ok p
    | None => Throw undefined_behaviour
    end.

(** [std::nth_element] puts the element of the sorted vector at [index]. *)
Definition nth_sorted (l : list Z) (index : nat) : Z := nth index (merge_sort Z.le l) 0.

(** The numbers that [calc_dpos_last_irreversible] collects. *)
Definition implied_blocknums (c : common) (producer_of_next_block : account_name) : list Z :=
  (fun '(p, n) => if decide (p = producer_of_next_block)
                  then dpos_proposed_irreversible_blocknum c else n)
  <$> map_to_list (producer_to_last_implied_irb c).

Definition calc_dpos_last_irreversible (c : common) (producer_of_next_block : account_name) : Z :=
  let blocknums := implied_blocknums c producer_of_next_block in
  match blocknums with
  | [] => 0
  | _ => nth_sorted blocknums ((length blocknums - 1) / 3)
  end.

(** The confirmation counts with the new block appended; the oldest entry is
    dropped when the limit is reached. *)
Definition grow_confirm_count (cc : list Z) (required_confs : Z) : list Z :=
  if Z.of_nat (length cc) <? maximum_tracked_dpos_confirmations
  then cc ++ [u8 required_confs]
  else tail cc ++ [u8 required_confs].

(** The [while] loop of [next]; [k] is [i + 1]. *)
Fixpoint confirm_loop (k : nat) (blocks_to_confirm : Z) (num : Z) (cc : list Z) (proposed : Z)
  : list Z * Z :=
  match k with
  | O => (cc, proposed)
  | S i =>
      if blocks_to_confirm =? 0 then (cc, proposed)
      else
        let cc := <[i := u8 (nth i cc 0 - 1)]> cc in
        if nth i cc 0 =? 0 then
          let block_num_for_i := u32 (num - Z.of_nat (length cc - 1 - i)) in
          (if bool_decide (i = (length cc - 1)%nat) then [] else drop (S i) cc, block_num_for_i)
        else confirm_loop i (blocks_to_confirm - 1) num cc proposed
  end.

(** The loops that rebuild the two maps for a promoted schedule. *)
Definition promote_map (old : gmap account_name Z) (ps : list (producer_authority K))
    (current : account_name) (current_value default : Z) : gmap account_name Z :=
  foldl (fun m pro =>
    let n := producer_name pro in
    <[n := if decide (n = current) then current_value
           else match old !! n with Some v => v | None => default end]> m) ∅ ps.

(** [block_header_state::next( when, num_prev_blocks_to_confirm )]; a zero
    [when] stands for the default, the next slot. *)
Definition next (s : block_header_state) (when num_prev_blocks_to_confirm : Z)
  : result pending_block_header_state :=
  let c := s_common s in
  when ← (if negb (when =? 0)
          then EOS_ASSERT (timestamp (header_of (header s)) <? when) block_validate_exception;;
               mret when
          else mret (u32 (timestamp (header_of (header s)) + 1)));
  proauth ← get_scheduled_producer (active_schedule c) when;
  (match producer_to_last_produced c !! producer_name proauth with
   | Some last =>
       EOS_ASSERT (last <? u32 (u32 (block_num c + 1) - num_prev_blocks_to_confirm))
         producer_double_confirm
   | None => mret tt
   end);;
  let num := u32 (block_num c + 1) in
  let required_confs :=
    u32 (u32 (Z.of_nat (length (producers (active_schedule c))) * 2 / 3) + 1) in
  let cc := grow_confirm_count (confirm_count c) required_confs in
  let '(cc, proposed) := confirm_loop (length cc) (u32 (num_prev_blocks_to_confirm + 1)) num cc
                           (dpos_proposed_irreversible_blocknum c) in
  let irreversible := calc_dpos_last_irreversible c (producer_name proauth) in
  let pending := pending_schedule s in
  let promoted :=
    negb (bool_decide (producers (schedule pending) = [])) &&
    (schedule_lib_num pending <=? irreversible) in
  let '(act, produced, implied) :=
    if promoted then
      (schedule pending,
       <[producer_name proauth := num]>
         (promote_map (producer_to_last_produced c) (producers (schedule pending))
            (producer_name proauth) num irreversible),
       promote_map (producer_to_last_implied_irb c) (producers (schedule pending))
         (producer_name proauth) (dpos_proposed_irreversible_blocknum c) irreversible)
    else
      (active_schedule c,
       <[producer_name proauth := num]> (producer_to_last_produced c),
       <[producer_name proauth := dpos_proposed_irreversible_blocknum c]>
         (producer_to_last_implied_irb c)) in
  merkle ← (match Merkle.append pair_hash (blockroot_merkle c) (id s) with
            | Some m => mret m
            | None => Throw undefined_behaviour
            end);
  mret (mk_pending
    (mk_common num proposed irreversible act merkle produced implied (authority proauth) cc)
    (activated_protocol_features s) pending promoted (id s) (producer_name proauth) when
    (version (active_schedule c)) num_prev_blocks_to_confirm).

(** ** Building and checking headers *)

(** The downgrade of one producer in [make_block_header]. *)
Definition downgrade_key (p : producer_authority K) : result (producer_key K) :=
  match keys (authority p) with
  | [kw] =>
      EOS_ASSERT (weight kw =? threshold (authority p)) producer_schedule_exception;;
      mret (mk_producer_key (producer_name p) (key kw))
  | _ => Throw producer_schedule_exception
  end.

Definition make_block_header (p : pending_block_header_state)
    (transaction_mroot action_mroot : digest_type)
    (new_producers : option (producer_authority_schedule K))
    (new_protocol_feature_activations : list digest_type) : result block_header :=
  let exts :=
    if bool_decide (new_protocol_feature_activations = []) then []
    else emplace_extension [] activation_id (pack_activation new_protocol_feature_activations) in
  '(exts, legacy) ←
    (match new_producers with
     | None => mret (exts, None)
     | Some sched =>
         if wtmsig_activated (prev_activated_protocol_features p)
         then mret (emplace_extension exts schedule_change_id (pack_schedule sched), None)
         else
           l ← foldM (fun l p => k ← downgrade_key p; mret (l ++ [k])) [] (producers sched);
           mret (exts, Some (mk_legacy_schedule (version sched) l))
     end);
  mret (mk_header (p_timestamp p) (p_producer p) (p_confirmed p) (p_previous p)
    transaction_mroot action_mroot (active_schedule_version p) legacy exts).

(** The checks that a new schedule in a header must pass. *)
Definition check_new_schedule (p : pending_block_header_state) (new_version : Z) : result unit :=
  EOS_ASSERT (negb (was_pending_promoted p)) producer_schedule_exception;;
  EOS_ASSERT (new_version =? u32 (version (active_schedule (p_common p)) + 1))
    producer_schedule_exception;;
  EOS_ASSERT (bool_decide (producers (schedule (prev_pending_schedule p)) = []))
    producer_schedule_exception.

Definition _finish_next (p : pending_block_header_state) (h : signed_block_header)
    (validator : Z -> gset digest_type -> list digest_type -> result unit)
  : result block_header_state :=
  let hd := header_of h in
  EOS_ASSERT (timestamp hd =? p_timestamp p) block_validate_exception;;
  EOS_ASSERT (bool_decide (previous hd = p_previous p)) unlinkable_block_exception;;
  EOS_ASSERT (confirmed hd =? p_confirmed p) block_validate_exception;;
  EOS_ASSERT (bool_decide (producer hd = p_producer p)) wrong_producer;;
  EOS_ASSERT (schedule_version hd =? active_schedule_version p) producer_schedule_exception;;
  exts ← validate_and_extract_header_extensions hd;
  let wtmsig_enabled := wtmsig_activated (prev_activated_protocol_features p) in
  from_legacy ←
    (match new_producers hd with
     | None => mret None
     | Some np =>
         EOS_ASSERT (negb wtmsig_enabled) producer_schedule_exception;;
         check_new_schedule p (legacy_version np);;
         mret (Some (upgrade np, legacy_schedule_hash np))
     end);
  maybe_new_schedule ←
    (match get_schedule_change exts with
     | None => mret from_legacy
     | Some s =>
         EOS_ASSERT wtmsig_enabled producer_schedule_exception;;
         check_new_schedule p (version s);;
         mret (Some (s, schedule_digest s))
     end);
  new_features ←
    (match get_activation exts with
     | Some l =>
         validator (p_timestamp p) (prev_activated_protocol_features p) l;;
         add_features (prev_activated_protocol_features p) l
     | None => mret (prev_activated_protocol_features p)
     end);
  let prev := prev_pending_schedule p in
  let pending :=
    match maybe_new_schedule with
    | Some (s, d) => mk_schedule_info (block_num (p_common p)) d s
    | None =>
        mk_schedule_info (schedule_lib_num prev) (schedule_hash prev)
          (if was_pending_promoted p then mk_schedule (version (schedule prev)) []
           else schedule prev)
    end in
  mret (mk_state (p_common p) (calculate_id hd) h pending new_features [] exts).

(** ** Signatures *)

Definition sig_digest (s : block_header_state) : digest_type :=
  pair_hash (pair_hash (header_hash (header_of (header s)),
                        Merkle.get_root (blockroot_merkle (s_common s))),
             schedule_hash (pending_schedule s)).

Definition add_signing_key (digest : digest_type) (ks : gset K) (s : Sig) : result (gset K) :=
  k ← recover_key s digest;
  EOS_ASSERT (bool_decide (k ∉ ks)) wrong_signing_key;;
  mret ({[ k ]} ∪ ks).

Definition verify_signee (s : block_header_state) : result unit :=
  let auth := valid_block_signing_authority (s_common s) in
  EOS_ASSERT (1 + Z.of_nat (length (additional_signatures s)) <=? Z.of_nat (length (keys auth)))
    wrong_signing_key;;
  let digest := sig_digest s in
  k ← recover_key (producer_signature (header s)) digest;
  ks ← foldM (add_signing_key digest) {[ k ]} (additional_signatures s);
  let '(is_satisfied, relevant_sig_count) := keys_satisfy_and_relevant ks auth in
  EOS_ASSERT (relevant_sig_count =? Z.of_nat (size ks)) wrong_signing_key;;
  EOS_ASSERT is_satisfied wrong_signing_key.

Definition set_additional_signatures (s : block_header_state) (sigs : list Sig)
  : block_header_state :=
  mk_state (s_common s) (id s) (header s) (pending_schedule s) (activated_protocol_features s)
    sigs (header_exts s).

(** [finish_next] for a received header *)
Definition finish_next (p : pending_block_header_state) (h : signed_block_header)
    (additional : list Sig)
    (validator : Z -> gset digest_type -> list digest_type -> result unit)
    (skip_validate_signee : bool) : result block_header_state :=
  (if bool_decide (additional = []) then mret tt
   else EOS_ASSERT (wtmsig_activated (prev_activated_protocol_features p))
          producer_schedule_exception);;
  r ← _finish_next p h validator;
  let r := if bool_decide (additional = []) then r else set_additional_signatures r additional in
  (if skip_validate_signee then mret tt else verify_signee r);;
  mret r.

(** [block_header_state::next( h, ... )] *)
Definition next_header (s : block_header_state) (h : signed_block_header) (additional : list Sig)
    (validator : Z -> gset digest_type -> list digest_type -> result unit)
    (skip_validate_signee : bool) : result block_header_state :=
  p ← next s (timestamp (header_of h)) (confirmed (header_of h));
  finish_next p h additional validator skip_validate_signee.

(** [sign]: the last signature of the signer goes into the header. *)
Definition sign (s : block_header_state) (signer : digest_type -> list Sig)
  : result block_header_state :=
  match rev (signer (sig_digest s)) with
  | [] => Throw no_block_signatures
  | last :: rest =>
      let s := mk_state (s_common s) (id s)
        (mk_signed_header (header_of (header s)) last) (pending_schedule s)
        (activated_protocol_features s) (rev rest) (header_exts s) in
      verify_signee s;;
      mret s
  end.

(** [finish_next] for a produced header; the signature of the result is also
    written to the header. *)
Definition finish_next_sign (p : pending_block_header_state) (h : signed_block_header)
    (validator : Z -> gset digest_type -> list digest_type -> result unit)
    (signer : digest_type -> list Sig) : result block_header_state :=
  r ← _finish_next p h validator;
  r ← sign r signer;
  (if bool_decide (additional_signatures r = []) then mret tt
   else EOS_ASSERT (wtmsig_activated (prev_activated_protocol_features p))
          producer_schedule_exception);;
  mret r.

Definition get_new_protocol_feature_activations (s : block_header_state) : list digest_type :=
  match get_activation (header_exts s) with Some l => l | None => [] end.

End state.
End BlockHeaderState.
