(* ===== verification/Dpos.v ===== *)
(** * Irreversibility: the DPOS counts of block_header_state.cpp

    Theorems about [next] of [BlockHeaderState]: the confirmation counts are
    the confirmations a block still needs, so a block is proposed as
    irreversible exactly when enough different producers have confirmed it;
    the irreversible number is the greatest one that more than two thirds of
    the producers imply; and within a schedule it never decreases. *)

From S2P Require Import Prelude Names Merkle ProducerSchedule BlockHeaderState.
Import ProducerSchedule BlockHeaderState.

Module Dpos.

(** ** The confirmation loop *)

(** An entry is one of the [b] last of the first [k]. *)
Definition in_range (k : nat) (b : Z) (j : nat) : bool :=
  bool_decide (j < k)%nat && (Z.of_nat k - Z.of_nat j <=? b).

(** The loop stops at the latest entry in range that reaches zero, drops it
    with all older ones and proposes its block; otherwise it takes one from
    each entry in range. *)
Inductive confirm_outcome (k : nat) (b num : Z) (cc : list Z) (proposed : Z)
    : list Z * Z -> Prop :=
  | outcome_none cc' : length cc' = length cc ->
      (forall j x, cc !! j = Some x -> in_range k b j = true -> x <> 1) ->
      (forall j x, cc !! j = Some x ->
         cc' !! j = Some (if in_range k b j then x - 1 else x)) ->
      confirm_outcome k b num cc proposed (cc', proposed)
  | outcome_proposed i cc' : in_range k b i = true -> cc !! i = Some 1 ->
      (length cc' = length cc - S i)%nat ->
      (forall j x, cc !! (S i + j)%nat = Some x -> in_range k b (S i + j) = true -> x <> 1) ->
      (forall j x, cc !! (S i + j)%nat = Some x ->
         cc' !! j = Some (if bool_decide (S i + j < k)%nat then x - 1 else x)) ->
      confirm_outcome k b num cc proposed
        (cc', u32 (num - (Z.of_nat (length cc) - 1 - Z.of_nat i))).

Definition count_ok (x : Z) : Prop := 1 <= x <= 255.

Lemma in_range_true k b j : in_range k b j = true <-> (j < k)%nat /\ Z.of_nat k - Z.of_nat j <= b.
Proof. unfold in_range. rewrite andb_true_iff, bool_decide_eq_true, Z.leb_le. done. Qed.

Lemma in_range_false k b j :
  in_range k b j = false <-> (k <= j)%nat \/ b < Z.of_nat k - Z.of_nat j.
Proof.
  rewrite <- not_true_iff_false, in_range_true. lia.
Qed.

(** The outcome for one entry more at the end of the range, when that entry
    does not reach zero. *)
Lemma in_range_step i b j : j <> i -> in_range (S i) b j = in_range i (b - 1) j.
Proof.
  intros Hj. destruct (in_range i (b - 1) j) eqn:E.
  - apply in_range_true in E. apply in_range_true. lia.
  - apply in_range_false in E. apply in_range_false. lia.
Qed.

Lemma confirm_outcome_step i b num cc proposed v r :
  cc !! i = Some v -> v <> 1 -> 0 < b ->
  confirm_outcome i (b - 1) num (<[i := v - 1]> cc) proposed r ->
  confirm_outcome (S i) b num cc proposed r.
Proof.
  intros Hv Hv1 Hb. assert (i < length cc)%nat as Hi by (by eapply lookup_lt_Some).
  assert (in_range (S i) b i = true) as Hri by (apply in_range_true; lia).
  intros [cc' Hlen Hno Hval|m cc' Hr Hm Hlen Hno Hval]; rewrite length_insert in *.
  - apply outcome_none; [done| |]; intros j x Hj; destruct (decide (j = i)) as [->|Hne].
    + congruence.
    + rewrite in_range_step by done. apply Hno. by rewrite list_lookup_insert_ne.
    + rewrite Hri. assert (x = v) as -> by congruence.
      rewrite (Hval i (v - 1)) by (by apply list_lookup_insert_eq).
      replace (in_range i (b - 1) i) with false by (symmetry; apply in_range_false; lia). done.
    + rewrite in_range_step by done. apply Hval. by rewrite list_lookup_insert_ne.
  - assert (m < i)%nat as Hmi by (apply in_range_true in Hr; lia).
    rewrite list_lookup_insert_ne in Hm by lia.
    apply (outcome_proposed _ _ _ _ _ m); [by rewrite in_range_step by lia|done|done| |];
      intros j x Hj; destruct (decide (S m + j = i)%nat) as [Heq|Hne].
    + intros _. rewrite Heq in Hj. congruence.
    + rewrite in_range_step by done. apply Hno. by rewrite list_lookup_insert_ne.
    + rewrite Heq in Hj. assert (x = v) as -> by congruence. rewrite (Hval j (v - 1)).
      * rewrite bool_decide_false, bool_decide_true by lia. done.
      * rewrite Heq. by apply list_lookup_insert_eq.
    + rewrite (Hval j x) by (by rewrite list_lookup_insert_ne).
      do 2 case_bool_decide; (done || lia).
Qed.

Lemma confirm_loop_spec k b num cc proposed : (k <= length cc)%nat -> 0 <= b ->
  Forall count_ok cc ->
  confirm_outcome k b num cc proposed (confirm_loop k b num cc proposed).
Proof.
  revert b cc. induction k as [|i IH]; intros b cc Hk Hb Hcc; cbn [confirm_loop].
  { apply outcome_none; [done| |]; intros j x Hj;
      replace (in_range 0 b j) with false by (symmetry; apply in_range_false; lia); done. }
  destruct (b =? 0) eqn:Eb; bool_to_prop.
  { apply outcome_none; [done| |]; intros j x Hj;
      replace (in_range (S i) b j) with false by (symmetry; apply in_range_false; lia); done. }
  destruct (lookup_lt_is_Some_2 cc i) as [v Hv]; [lia|].
  pose proof (Forall_lookup_1 _ _ _ _ Hcc Hv) as Hv1. unfold count_ok in Hv1.
  erewrite (nth_lookup_Some cc i 0 v) by done.
  rewrite u8_small by lia. rewrite length_insert.
  erewrite nth_lookup_Some by (apply list_lookup_insert_eq; lia).
  destruct (v - 1 =? 0) eqn:Ev; bool_to_prop.
  - assert (v = 1) as -> by lia.
    replace (num - Z.of_nat (length cc - 1 - i)) with
      (num - (Z.of_nat (length cc) - 1 - Z.of_nat i)) by lia.
    replace (if bool_decide (i = (length cc - 1)%nat) then [] else drop (S i) (<[i:=1 - 1]> cc))
      with (drop (S i) cc).
    2: { case_bool_decide; [rewrite drop_ge; [done|lia]|]. by rewrite drop_insert_lt by lia. }
    apply (outcome_proposed _ _ _ _ _ i); [apply in_range_true; lia|done|by rewrite length_drop| |].
    + intros j x _ Hr. apply in_range_true in Hr. lia.
    + intros j x Hj. rewrite bool_decide_false by lia. by rewrite lookup_drop.
  - eapply confirm_outcome_step; [done|lia|lia|]. apply IH; [rewrite length_insert; lia|lia|].
    apply Forall_insert; [done|]. unfold count_ok. lia.
Qed.

(** ** Two thirds *)

Definition count_ge (v : Z) (l : list Z) : Z := Z.of_nat (length (filter (Z.le v) l)).

(** More than two thirds of the numbers are at least [v]. *)
Definition supported (v : Z) (l : list Z) : Prop := 2 * Z.of_nat (length l) < 3 * count_ge v l.

#[global] Instance count_ge_perm v : Proper ((≡ₚ) ==> (=)) (count_ge v).
Proof. intros l k Hlk. unfold count_ge. by rewrite Hlk. Qed.

Lemma count_ge_app v l k : count_ge v (l ++ k) = count_ge v l + count_ge v k.
Proof. unfold count_ge. rewrite filter_app, length_app. lia. Qed.

Lemma count_ge_all v l : (forall x, x ∈ l -> v <= x) -> count_ge v l = Z.of_nat (length l).
Proof. intros Hl. unfold count_ge. by rewrite list_filter_all. Qed.

Lemma count_ge_none v l : (forall x, x ∈ l -> x < v) -> count_ge v l = 0.
Proof.
  intros Hl. unfold count_ge. rewrite list_filter_none; [done|]. intros x Hx%Hl. lia.
Qed.

Lemma count_ge_bounds v l : 0 <= count_ge v l <= Z.of_nat (length l).
Proof. unfold count_ge. pose proof (length_filter (Z.le v) l). lia. Qed.

#[global] Instance supported_perm v : Proper ((≡ₚ) ==> iff) (supported v).
Proof. intros l k Hlk. unfold supported. by rewrite Hlk. Qed.

Lemma sorted_supported s i v : StronglySorted Z.le s -> s !! i = Some v ->
  i = ((length s - 1) / 3)%nat ->
  supported v s /\ forall w, v < w -> ~ supported w s.
Proof.
  intros Hs Hv Hi. assert (i < length s)%nat by (by eapply lookup_lt_Some).
  pose proof (Nat.div_mod_eq (length s - 1) 3). pose proof (Nat.mod_upper_bound (length s - 1) 3).
  assert (length (take i s) = i /\ length (drop (S i) s) = length s - S i)%nat as [Ht Hd]
    by (rewrite length_take, length_drop; lia).
  rewrite <- (take_drop_middle _ _ _ Hv) in Hs.
  apply StronglySorted_app in Hs as (Hlo & _ & Hs). apply StronglySorted_cons in Hs as [Hhi _].
  assert (forall w, count_ge w s = count_ge w (take i s) + count_ge w ([v] ++ drop (S i) s)) as Hc
    by (intros w; rewrite <- count_ge_app; f_equal; symmetry; by apply take_drop_middle).
  unfold supported. split.
  - rewrite Hc, (count_ge_all v ([v] ++ _)).
    + pose proof (count_ge_bounds v (take i s)). rewrite length_app. cbn [length]. lia.
    + intros x Hx. apply elem_of_cons in Hx as [->|Hx]; [lia|]. by eapply Forall_forall in Hhi.
  - intros w Hw. rewrite Hc, (count_ge_none w (take i s)).
    + rewrite count_ge_app, (count_ge_none w [v]) by (by intros x ->%list_elem_of_singleton).
      pose proof (count_ge_bounds w (drop (S i) s)). lia.
    + intros x Hx. assert (x <= v); [|lia]. apply Hlo; [done|left].
Qed.

(** The element one third into the sorted list is the greatest number with
    the support of more than two thirds. *)
Lemma nth_sorted_supported l i : l <> [] -> i = ((length l - 1) / 3)%nat ->
  supported (nth_sorted l i) l /\ forall w, nth_sorted l i < w -> ~ supported w l.
Proof.
  intros Hl Hi. pose proof (merge_sort_Permutation Z.le l) as Hp.
  assert (forall v, supported v l <-> supported v (merge_sort Z.le l)) as Hsup
    by (intros v; by rewrite Hp).
  assert (0 < length l)%nat by (destruct l; [done|cbn; lia]).
  destruct (lookup_lt_is_Some_2 (merge_sort Z.le l) i) as [v Hv].
  { rewrite Hp, Hi. apply Nat.Div0.div_lt_upper_bound. lia. }
  unfold nth_sorted. rewrite (nth_lookup_Some _ _ 0 _ Hv).
  destruct (sorted_supported (merge_sort Z.le l) i v) as [H1 H2];
    [apply (StronglySorted_merge_sort Z.le)|done|by rewrite Hp|].
  split; [by apply Hsup|]. intros w Hw. rewrite Hsup. by apply H2.
Qed.

Section dpos.
Context {K Sig Bytes : Type} `{Countable K}.
Context (pair_hash : digest_type * digest_type -> digest_type).

Abbreviation state := (@block_header_state K Sig Bytes).
Abbreviation pending := (@pending_block_header_state K).
Abbreviation next := (next (Sig := Sig) (Bytes := Bytes) pair_hash).

(** The number of confirmations a block produced under [c] needs. *)
Definition required (c : @common K) : Z :=
  Z.of_nat (length (producers (active_schedule c))) * 2 / 3 + 1.

(** ** What [next] computes *)

Record next_spec (s : state) (c : Z) (p : pending) : Prop := {
  ns_num : block_num (p_common p) = u32 (block_num (s_common s) + 1);
  ns_double : forall last,
    producer_to_last_produced (s_common s) !! p_producer p = Some last ->
    last < u32 (u32 (block_num (s_common s) + 1) - c);
  ns_confirm : confirm_loop
      (length (grow_confirm_count (confirm_count (s_common s)) (u32 (u32 (required (s_common s) - 1) + 1))))
      (u32 (c + 1)) (u32 (block_num (s_common s) + 1))
      (grow_confirm_count (confirm_count (s_common s)) (u32 (u32 (required (s_common s) - 1) + 1)))
      (dpos_proposed_irreversible_blocknum (s_common s))
    = (confirm_count (p_common p), dpos_proposed_irreversible_blocknum (p_common p));
  ns_irreversible : dpos_irreversible_blocknum (p_common p)
    = calc_dpos_last_irreversible (s_common s) (p_producer p);
  ns_promoted : was_pending_promoted p =
    negb (bool_decide (producers (schedule (pending_schedule s)) = [])) &&
    (schedule_lib_num (pending_schedule s) <=? dpos_irreversible_blocknum (p_common p));
  ns_same : was_pending_promoted p = false ->
    active_schedule (p_common p) = active_schedule (s_common s) /\
    producer_to_last_produced (p_common p)
      = <[p_producer p := block_num (p_common p)]> (producer_to_last_produced (s_common s)) /\
    producer_to_last_implied_irb (p_common p)
      = <[p_producer p := dpos_proposed_irreversible_blocknum (s_common s)]>
          (producer_to_last_implied_irb (s_common s));
  ns_new : was_pending_promoted p = true ->
    active_schedule (p_common p) = schedule (pending_schedule s) /\
    producer_to_last_produced (p_common p)
      = <[p_producer p := block_num (p_common p)]>
          (promote_map (producer_to_last_produced (s_common s))
             (producers (schedule (pending_schedule s))) (p_producer p)
             (block_num (p_common p)) (dpos_irreversible_blocknum (p_common p))) /\
    producer_to_last_implied_irb (p_common p)
      = promote_map (producer_to_last_implied_irb (s_common s))
          (producers (schedule (pending_schedule s))) (p_producer p)
          (dpos_proposed_irreversible_blocknum (s_common s))
          (dpos_irreversible_blocknum (p_common p));
}.

Lemma next_ok s w c p : next s w c = Ok p -> next_spec s c p.
Proof.
  intros Hn. unfold BlockHeaderState.next in Hn. apply bind_ok_inv in Hn as (when & _ & Hn).
  apply bind_ok_inv in Hn as (pa & _ & Hn). apply bind_ok_inv in Hn as ([] & Hdc & Hn).
  replace (u32 (u32 (Z.of_nat (length (producers (active_schedule (s_common s)))) * 2 / 3) + 1))
    with (u32 (u32 (required (s_common s) - 1) + 1)) in Hn
    by (unfold required; do 3 f_equal; lia).
  destruct (confirm_loop _ _ _ _ _) as [cc proposed] eqn:Ec.
  set (irr := calc_dpos_last_irreversible (s_common s) (producer_name pa)) in *.
  destruct (negb _ && _) eqn:Ep; inv_ok; destruct (Merkle.append _ _ _); inv_ok;
    (split; cbn -[confirm_loop u32]; try done; intros last Hl; rewrite Hl in Hdc;
     apply EOS_ASSERT_ok, Z.ltb_lt in Hdc; done).
Qed.

(** ** The invariant of the counts *)

Record dpos_wf (c : @common K) : Prop := {
  dw_num : 0 <= block_num c /\ block_num c + 1 < 2 ^ 32;
  dw_irr : 0 <= dpos_irreversible_blocknum c <= dpos_proposed_irreversible_blocknum c;
  dw_window : dpos_proposed_irreversible_blocknum c + Z.of_nat (length (confirm_count c))
    <= block_num c;
  dw_counts : Forall count_ok (confirm_count c);
  dw_implied : forall a v, producer_to_last_implied_irb c !! a = Some v ->
    0 <= v <= dpos_proposed_irreversible_blocknum c;
  dw_produced : forall a v, producer_to_last_produced c !! a = Some v -> 0 <= v <= block_num c;
  dw_active : Z.of_nat (length (producers (active_schedule c))) <= max_producers;
}.

Lemma required_range c : Z.of_nat (length (producers (active_schedule c))) <= max_producers ->
  1 <= required c <= 84.
Proof.
  intros Hn. unfold required, max_producers in *. split.
  - pose proof (Z.div_pos (Z.of_nat (length (producers (active_schedule c))) * 2) 3). lia.
  - assert (Z.of_nat (length (producers (active_schedule c))) * 2 / 3 < 84); [|lia].
    apply Z.div_lt_upper_bound; lia.
Qed.

(** The list of counts the loop starts from. *)
Lemma grow_spec c : dpos_wf c -> exists off,
  grow_confirm_count (confirm_count c) (u32 (u32 (required c - 1) + 1))
  = drop off (confirm_count c) ++ [required c].
Proof.
  intros Hc. pose proof (required_range _ (dw_active _ Hc)).
  unfold grow_confirm_count. rewrite !u32_small, u8_small by (rewrite ?u32_small by lia; lia).
  replace (required c - 1 + 1) with (required c) by lia.
  destruct (_ <? _); [exists 0%nat|exists 1%nat]; [done|]. by destruct (confirm_count c).
Qed.

Lemma nth_sorted_elem l i : (i < length l)%nat -> nth_sorted l i ∈ l.
Proof.
  intros Hi. pose proof (merge_sort_Permutation Z.le l) as Hp.
  assert (nth_sorted l i ∈ merge_sort Z.le l) as Hin; [|by rewrite Hp in Hin].
  apply list_elem_of_In, nth_In. by rewrite Hp.
Qed.

Lemma calc_cases (c : @common K) a :
  (implied_blocknums c a = [] /\ calc_dpos_last_irreversible c a = 0) \/
  (implied_blocknums c a <> [] /\ calc_dpos_last_irreversible c a
     = nth_sorted (implied_blocknums c a) ((length (implied_blocknums c a) - 1) / 3) /\
   ((length (implied_blocknums c a) - 1) / 3 < length (implied_blocknums c a))%nat).
Proof.
  unfold calc_dpos_last_irreversible. destruct (implied_blocknums c a) as [|x l]; [by left|right].
  split_and!; [done..|]. cbn [length]. apply Nat.Div0.div_lt_upper_bound. lia.
Qed.

Lemma implied_blocknums_range c a x : dpos_wf c -> x ∈ implied_blocknums c a ->
  0 <= x <= dpos_proposed_irreversible_blocknum c.
Proof.
  intros Hc Hx. unfold implied_blocknums in Hx. apply list_elem_of_fmap in Hx as ([n v] & -> & Hx).
  pose proof (dw_irr _ Hc). destruct (decide _); [lia|].
  apply elem_of_map_to_list in Hx. by eapply dw_implied.
Qed.

Lemma calc_range c a : dpos_wf c ->
  0 <= calc_dpos_last_irreversible c a <= dpos_proposed_irreversible_blocknum c.
Proof.
  intros Hc. pose proof (dw_irr _ Hc).
  destruct (calc_cases c a) as [[_ ->]|(_ & -> & Hlt)]; [lia|].
  eapply implied_blocknums_range; [done|]. by apply nth_sorted_elem.
Qed.

Lemma promote_map_lookup old (ps : list (producer_authority K)) cur cv d a v :
  promote_map old ps cur cv d !! a = Some v ->
  (a = cur /\ v = cv) \/ (old !! a = Some v) \/ v = d.
Proof.
  unfold promote_map. induction ps as [|pro ps IH] using rev_ind; intros Hv.
  { cbn in Hv. by rewrite lookup_empty in Hv. }
  rewrite foldl_snoc in Hv. apply lookup_insert_Some in Hv as [[<- <-]|[_ Hv]]; [|by apply IH].
  destruct (decide _) as [->|]; [by left|right]. destruct (old !! _); auto.
Qed.

(** The counts and the proposed number after the loop. *)
Lemma confirm_step s c p : dpos_wf (s_common s) -> 0 <= c < 2 ^ 16 -> next_spec s c p ->
  Forall count_ok (confirm_count (p_common p)) /\
  dpos_proposed_irreversible_blocknum (s_common s)
    <= dpos_proposed_irreversible_blocknum (p_common p) /\
  dpos_proposed_irreversible_blocknum (p_common p)
    + Z.of_nat (length (confirm_count (p_common p))) <= block_num (p_common p).
Proof.
  intros Hs Hc Hp. pose proof (dw_num _ Hs). pose proof (dw_irr _ Hs). pose proof (dw_window _ Hs).
  pose proof (required_range _ (dw_active _ Hs)).
  rewrite (ns_num _ _ _ Hp), u32_small by lia. pose proof (ns_confirm _ _ _ Hp) as Hl.
  destruct (grow_spec _ Hs) as [off Hg]. rewrite Hg in Hl.
  set (cc := drop off (confirm_count (s_common s)) ++ [required (s_common s)]) in *.
  assert (Forall count_ok cc) as Hcc.
  { apply Forall_app. split; [apply Forall_drop, Hs|]. constructor; [unfold count_ok; lia|done]. }
  assert (Z.of_nat (length cc) <= Z.of_nat (length (confirm_count (s_common s))) + 1) as Hlen
    by (unfold cc; rewrite length_app, length_drop; cbn; lia).
  pose proof (confirm_loop_spec (length cc) (u32 (c + 1)) (u32 (block_num (s_common s) + 1)) cc
    (dpos_proposed_irreversible_blocknum (s_common s)) ltac:(lia) ltac:(apply u32_range) Hcc) as Ho.
  rewrite Hl in Ho. inversion Ho as [cc' Hlen' Hno Hval|i cc' Hr Hi Hlen' Hno Hval]; subst cc'.
  - split_and!; [|lia|lia]. apply Forall_lookup_2. intros j y Hj.
    destruct (lookup_lt_is_Some_2 cc j) as [x Hx]; [rewrite <- Hlen'; by eapply lookup_lt_Some|].
    pose proof (Forall_lookup_1 _ _ _ _ Hcc Hx) as Hx1. rewrite (Hval _ _ Hx) in Hj.
    destruct (in_range _ _ j) eqn:E; simplify_eq; unfold count_ok in *; [|lia].
    pose proof (Hno _ _ Hx E). lia.
  - assert (i < length cc)%nat by (by eapply lookup_lt_Some).
    rewrite u32_small by (rewrite ?u32_small; lia). rewrite !u32_small by lia.
    split_and!; [|lia|lia]. apply Forall_lookup_2. intros j y Hj.
    assert (j < length (confirm_count (p_common p)))%nat by (by eapply lookup_lt_Some).
    destruct (lookup_lt_is_Some_2 cc (S i + j)) as [x Hx]; [lia|].
    pose proof (Forall_lookup_1 _ _ _ _ Hcc Hx) as Hx1. rewrite (Hval _ _ Hx) in Hj.
    case_bool_decide; simplify_eq; unfold count_ok in *; [|lia].
    assert (x <> 1); [|lia]. eapply Hno; [exact Hx|]. apply in_range_true in Hr. apply in_range_true. lia.
Qed.

Lemma next_counts (s : state) (w c : Z) (p : pending) :
  dpos_wf (s_common s) -> 0 <= c < 2 ^ 16 -> block_num (s_common s) + 2 < 2 ^ 32 ->
  Z.of_nat (length (producers (schedule (pending_schedule s)))) <= max_producers ->
  next s w c = Ok p ->
  dpos_wf (p_common p) /\
  dpos_proposed_irreversible_blocknum (s_common s)
    <= dpos_proposed_irreversible_blocknum (p_common p) /\
  block_num (p_common p) = block_num (s_common s) + 1.
Proof.
  intros Hs Hc Hnum Hpend Hn. apply next_ok in Hn as Hp.
  destruct (confirm_step s c p Hs Hc Hp) as (Hcc & Hmono & Hwin).
  pose proof (dw_num _ Hs). pose proof (dw_irr _ Hs).
  pose proof (calc_range _ (p_producer p) Hs) as Hcalc. rewrite <- (ns_irreversible _ _ _ Hp) in Hcalc.
  assert (block_num (p_common p) = block_num (s_common s) + 1) as Hbn
    by (rewrite (ns_num _ _ _ Hp), u32_small; lia).
  split_and!; [|done|done]. destruct (was_pending_promoted p) eqn:Epr.
  - destruct (ns_new _ _ _ Hp Epr) as (Ha & Hprod & Himp). split; try done; [lia|lia| | |by rewrite Ha].
    + intros a v Hv. rewrite Himp in Hv.
      apply promote_map_lookup in Hv as [[_ ->]|[Hv| ->]]; [lia| |lia].
      apply (dw_implied _ Hs) in Hv. lia.
    + intros a v Hv. rewrite Hprod in Hv. apply lookup_insert_Some in Hv as [[_ <-]|[_ Hv]]; [lia|].
      apply promote_map_lookup in Hv as [[_ ->]|[Hv| ->]]; [lia| |lia].
      apply (dw_produced _ Hs) in Hv. lia.
  - destruct (ns_same _ _ _ Hp Epr) as (Ha & Hprod & Himp). split; try done; [lia|lia| | |].
    + intros a v Hv. rewrite Himp in Hv. apply lookup_insert_Some in Hv as [[_ <-]|[_ Hv]]; [lia|].
      apply (dw_implied _ Hs) in Hv. lia.
    + intros a v Hv. rewrite Hprod in Hv. apply lookup_insert_Some in Hv as [[_ <-]|[_ Hv]]; [lia|].
      apply (dw_produced _ Hs) in Hv. lia.
    + rewrite Ha. apply Hs.
Qed.

(** The counts stay meaningful from block to block.  [next] keeps the
    proposed irreversible number between the irreversible number and the
    block number, never lowers it, keeps one positive count for each of the
    latest blocks above it (so the 8-bit counts never wrap around), and the
    block numbers recorded per producer stay in range. *)
Theorem next_keeps_counts (s : state) (w c : Z) (p : pending) :
  dpos_wf (s_common s) -> 0 <= c < 2 ^ 16 -> block_num (s_common s) + 2 < 2 ^ 32 ->
  Z.of_nat (length (producers (schedule (pending_schedule s)))) <= max_producers ->
  next s w c = Ok p ->
  dpos_wf (p_common p) /\
  dpos_proposed_irreversible_blocknum (s_common s)
    <= dpos_proposed_irreversible_blocknum (p_common p) /\
  block_num (p_common p) = block_num (s_common s) + 1.
Proof. apply next_counts. Qed.

(** ** The irreversible number *)

Lemma calc_supported (c : @common K) a : implied_blocknums c a <> [] ->
  supported (calc_dpos_last_irreversible c a) (implied_blocknums c a) /\
  forall w, calc_dpos_last_irreversible c a < w -> ~ supported w (implied_blocknums c a).
Proof.
  intros Hne. destruct (calc_cases c a) as [[? _]|(_ & -> & _)]; [done|].
  by apply nth_sorted_supported.
Qed.

(** The irreversible number of the next block is the greatest number that
    more than two thirds of the producers imply, where the producer of the
    block implies the number proposed so far. *)
Theorem irreversible_is_two_thirds (s : state) (w c : Z) (p : pending) :
  next s w c = Ok p -> implied_blocknums (s_common s) (p_producer p) <> [] ->
  supported (dpos_irreversible_blocknum (p_common p))
    (implied_blocknums (s_common s) (p_producer p)) /\
  forall n, dpos_irreversible_blocknum (p_common p) < n ->
    ~ supported n (implied_blocknums (s_common s) (p_producer p)).
Proof.
  intros Hn%next_ok Hne. rewrite (ns_irreversible _ _ _ Hn). by apply calc_supported.
Qed.

(** The numbers implied by the producers. *)
Definition implied (c : @common K) : list Z := snd <$> map_to_list (producer_to_last_implied_irb c).

(** The irreversible number has the support of the recorded numbers. *)
Definition irr_supported (c : @common K) : Prop :=
  (producer_to_last_implied_irb c = ∅ /\ dpos_irreversible_blocknum c = 0) \/
  supported (dpos_irreversible_blocknum c) (implied c).

(** The numbers collected are the recorded ones, the producer's replaced. *)
Lemma implied_blocknums_insert (c : @common K) a old :
  producer_to_last_implied_irb c !! a = Some old ->
  exists rest, implied c ≡ₚ old :: rest /\
    implied_blocknums c a ≡ₚ dpos_proposed_irreversible_blocknum c :: rest /\
    (snd <$> map_to_list (<[a := dpos_proposed_irreversible_blocknum c]>
                            (producer_to_last_implied_irb c)))
    ≡ₚ dpos_proposed_irreversible_blocknum c :: rest.
Proof.
  intros Ha. set (m := producer_to_last_implied_irb c) in *.
  exists (snd <$> map_to_list (delete a m)).
  assert (delete a m !! a = None) as Hd by apply lookup_delete_eq.
  assert (map_to_list m ≡ₚ (a, old) :: map_to_list (delete a m)) as Hm
    by (rewrite <- map_to_list_insert by done; by rewrite insert_delete_id).
  split_and!.
  - unfold implied. fold m. by rewrite Hm.
  - unfold implied_blocknums. fold m. rewrite Hm. cbn [fmap list_fmap]. rewrite decide_True by done.
    constructor. apply reflexive_eq, list_fmap_ext. intros i [n v] Hi.
    apply list_elem_of_lookup_2, elem_of_map_to_list in Hi. cbn. rewrite decide_False; [done|].
    intros ->. congruence.
  - rewrite <- insert_delete_eq. by rewrite map_to_list_insert.
Qed.

Lemma implied_blocknums_new (c : @common K) a :
  producer_to_last_implied_irb c !! a = None -> implied_blocknums c a = implied c.
Proof.
  intros Ha. unfold implied_blocknums, implied. apply list_fmap_ext. intros i [n v] Hi.
  apply list_elem_of_lookup_2, elem_of_map_to_list in Hi. cbn. rewrite decide_False; [done|].
  intros ->. congruence.
Qed.

Lemma count_ge_cons v x l : count_ge v (x :: l) = (if v <=? x then 1 else 0) + count_ge v l.
Proof.
  unfold count_ge. rewrite filter_cons. destruct (decide (v <= x)) as [Hx|Hx].
  - replace (v <=? x) with true by lia. cbn [length]. lia.
  - replace (v <=? x) with false by lia. lia.
Qed.

Lemma irreversible_step_known (s : state) (c : Z) (p : pending) old :
  dpos_wf (s_common s) -> irr_supported (s_common s) -> next_spec s c p ->
  was_pending_promoted p = false ->
  producer_to_last_implied_irb (s_common s) !! p_producer p = Some old ->
  dpos_irreversible_blocknum (s_common s) <= dpos_irreversible_blocknum (p_common p) /\
  irr_supported (p_common p).
Proof.
  intros Hs Hsup Hn Hpr Eold. destruct (ns_same _ _ _ Hn Hpr) as (_ & _ & Himp).
  pose proof (ns_irreversible _ _ _ Hn) as Hirr. pose proof (dw_irr _ Hs) as Hi.
  pose proof (calc_range _ (p_producer p) Hs) as Hcr.
  set (m := producer_to_last_implied_irb (s_common s)) in *.
  destruct (implied_blocknums_insert _ _ _ Eold) as (rest & H1 & H2 & H3).
  assert (implied_blocknums (s_common s) (p_producer p) <> []) as Hne
    by (intros E; rewrite E in H2; by apply Permutation_nil_cons in H2).
  destruct (calc_supported _ _ Hne) as [Hc Hmax]. rewrite <- Hirr in *.
  pose proof (dw_implied _ Hs _ _ Eold) as Hold. split.
  + apply Z.nlt_ge. intros Hlt. apply (Hmax _ Hlt).
    destruct Hsup as [[Hempty _]|Hsup]; [fold m in Hempty; by rewrite Hempty in Eold|].
    unfold supported in *. rewrite H1 in Hsup. rewrite H2. cbn [length] in *.
    rewrite count_ge_cons in *.
    repeat match goal with |- context[?a <=? ?b] => destruct (Z.leb_spec a b)
      | H : context[?a <=? ?b] |- _ => destruct (Z.leb_spec a b) end; lia.
  + right. unfold supported, implied in *. rewrite Himp. fold m in H3. rewrite H3. by rewrite H2 in Hc.
Qed.

Lemma irreversible_step_new (s : state) (c : Z) (p : pending) :
  dpos_wf (s_common s) -> irr_supported (s_common s) -> next_spec s c p ->
  was_pending_promoted p = false ->
  producer_to_last_implied_irb (s_common s) !! p_producer p = None ->
  dpos_irreversible_blocknum (s_common s) <= dpos_irreversible_blocknum (p_common p) /\
  irr_supported (p_common p).
Proof.
  intros Hs Hsup Hn Hpr Eold. destruct (ns_same _ _ _ Hn Hpr) as (_ & _ & Himp).
  pose proof (ns_irreversible _ _ _ Hn) as Hirr. pose proof (dw_irr _ Hs) as Hi.
  pose proof (calc_range _ (p_producer p) Hs) as Hcr.
  set (m := producer_to_last_implied_irb (s_common s)) in *.
  pose proof (implied_blocknums_new _ _ Eold) as Hnew.
  assert (implied (p_common p) ≡ₚ
    dpos_proposed_irreversible_blocknum (s_common s) :: implied (s_common s)) as Himp'
    by (unfold implied; rewrite Himp; by rewrite map_to_list_insert).
  assert (supported (dpos_irreversible_blocknum (p_common p)) (implied (p_common p)) <->
    2 * (Z.of_nat (length (implied (s_common s))) + 1) <
    3 * (1 + count_ge (dpos_irreversible_blocknum (p_common p)) (implied (s_common s)))) as Hnext.
  { rewrite Himp'. unfold supported. rewrite count_ge_cons. cbn [length].
    replace (_ <=? _) with true by lia. lia. }
  unfold irr_supported. rewrite Hnext.
  destruct (calc_cases (s_common s) (p_producer p)) as [[E E0]|(Hne & _)].
  + rewrite Hnew in E. rewrite E in *. rewrite Hirr, E0. split; [|right; by vm_compute].
    destruct Hsup as [[_ ->]|Hsup]; [done|]. rewrite E in Hsup. by vm_compute in Hsup.
  + destruct (calc_supported _ _ Hne) as [Hc Hmax]. rewrite <- Hirr, Hnew in *. split.
    * apply Z.nlt_ge. intros Hlt. apply (Hmax _ Hlt). destruct Hsup as [[Hempty _]|Hsup]; [|done].
      destruct Hne. unfold implied. rewrite Hempty. by rewrite map_to_list_empty.
    * right. unfold supported in Hc. lia.
Qed.

(** C33: while the schedule does not change, the irreversible number never
    decreases: if it has the support of the numbers recorded for the
    producers, then so does the one of the next block, and it is not
    smaller. *)
Theorem irreversible_monotone (s : state) (w c : Z) (p : pending) :
  dpos_wf (s_common s) -> irr_supported (s_common s) ->
  next s w c = Ok p -> was_pending_promoted p = false ->
  dpos_irreversible_blocknum (s_common s) <= dpos_irreversible_blocknum (p_common p) /\
  irr_supported (p_common p).
Proof.
  intros Hs Hsup Hn%next_ok Hpr.
  destruct (producer_to_last_implied_irb (s_common s) !! p_producer p) eqn:E.
  - by eapply irreversible_step_known.
  - by eapply irreversible_step_new.
Qed.

(** ** Confirmations *)

(** The block that an entry of the counts belongs to. *)
Definition num_at (n : Z) (cc : list Z) (j : nat) : Z :=
  n - (Z.of_nat (length cc) - 1 - Z.of_nat j).

(** [voters b] are the producers that confirmed the block [b] (its own
    producer included) and [needed b] is the number it needs.  Each count is
    what is missing, and a producer has produced at or above every block it
    confirmed. *)
Record vote_inv (c : @common K) (voters : Z -> gset account_name) (needed : Z -> Z) : Prop := {
  vi_counts : forall j x, confirm_count c !! j = Some x ->
    x = needed (num_at (block_num c) (confirm_count c) j)
        - Z.of_nat (size (voters (num_at (block_num c) (confirm_count c) j)));
  vi_produced : forall a b, a ∈ voters b ->
    exists v, producer_to_last_produced c !! a = Some v /\ b <= v;
}.

(** A block [n] of producer [a] confirms itself and the [c] blocks before. *)
Definition cast_votes (voters : Z -> gset account_name) (n c : Z) (a : account_name) (b : Z)
  : gset account_name :=
  if (n - c <=? b) && (b <=? n) then {[ a ]} ∪ voters b else voters b.
Definition set_needed (needed : Z -> Z) (n r : Z) (b : Z) : Z := if b =? n then r else needed b.

Lemma drop_bounded {A} (k : nat) (l : list A) :
  exists k', (k' <= length l)%nat /\ drop k l = drop k' l.
Proof.
  destruct (decide (k <= length l)%nat); [by exists k|].
  exists (length l). split; [done|]. rewrite !drop_ge by lia. done.
Qed.

(** The blocks that have a count when the next block is added, itself included. *)
Definition tracked (c : @common K) (b : Z) : Prop :=
  block_num c + 1 - Z.of_nat (length (grow_confirm_count (confirm_count c) (required c))) < b
    <= block_num c + 1.

Lemma grow_length cc x y : length (grow_confirm_count cc x) = length (grow_confirm_count cc y).
Proof. unfold grow_confirm_count. destruct (_ <? _); [|destruct cc]; by rewrite ?length_app. Qed.

Section votes.
Context (s : state) (c : Z) (p : pending) (voters : Z -> gset account_name) (needed : Z -> Z).
Hypothesis Hs : dpos_wf (s_common s).
Hypothesis Hc : 0 <= c < 2 ^ 16.
Hypothesis Hcb : c <= block_num (s_common s).
Hypothesis Hp : next_spec s c p.
Hypothesis Hv : vote_inv (s_common s) voters needed.

Abbreviation n := (block_num (s_common s) + 1).
Abbreviation voters' := (cast_votes voters n c (p_producer p)).
Abbreviation needed' := (set_needed needed n (required (s_common s))).

Lemma voters_below a b : a ∈ voters b -> b <= block_num (s_common s).
Proof.
  intros Ha. destruct (vi_produced _ _ _ Hv _ _ Ha) as (v & Hl & Hb).
  pose proof (dw_produced _ Hs _ _ Hl). lia.
Qed.

(** The producer has not confirmed any of the blocks before. *)
Lemma votes_distinct b : n - c <= b <= n ->
  Z.of_nat (size (voters' b)) = Z.of_nat (size (voters b)) + 1.
Proof.
  intros Hb. unfold cast_votes. replace ((n - c <=? b) && (b <=? n)) with true by lia.
  rewrite size_union, size_singleton; [lia|]. apply disjoint_singleton_l. intros Ha.
  destruct (vi_produced _ _ _ Hv _ _ Ha) as (v & Hl & Hbv).
  pose proof (ns_double _ _ _ Hp _ Hl) as Hd. pose proof (dw_num _ Hs).
  rewrite (u32_small (block_num _ + 1)), u32_small in Hd; (rewrite ?u32_small; lia).
Qed.

(** The counts before the loop, with the new block. *)
Lemma grown_counts off j x : (off <= length (confirm_count (s_common s)))%nat ->
  (drop off (confirm_count (s_common s)) ++ [required (s_common s)]) !! j = Some x ->
  let b := num_at n (drop off (confirm_count (s_common s)) ++ [required (s_common s)]) j in
  x = needed' b - Z.of_nat (size (voters b)).
Proof.
  intros Hoff Hj. unfold num_at, set_needed. rewrite length_app, length_drop. cbn [length].
  apply lookup_app_Some in Hj as [Hj|[Hlen Hj]].
  - rewrite lookup_drop in Hj. pose proof (lookup_lt_Some _ _ _ Hj).
    rewrite (vi_counts _ _ _ Hv _ _ Hj). unfold num_at.
    replace (n - (Z.of_nat (length (confirm_count (s_common s)) - off + 1) - 1 - Z.of_nat j))
      with (block_num (s_common s) - (Z.of_nat (length (confirm_count (s_common s))) - 1
            - Z.of_nat (off + j))) by lia.
    set (b := block_num (s_common s) - _). by replace (b =? n) with false by lia.
  - rewrite length_drop in *. apply list_lookup_singleton_Some in Hj as [Hj <-].
    replace (n - _) with n by lia. rewrite Z.eqb_refl.
    replace (voters n) with (∅ : gset account_name); [rewrite size_empty; lia|].
    symmetry. apply set_eq. intros a. split; [|set_solver].
    intros Ha%voters_below. lia.
Qed.

(** The outcome of the loop over [len] counts: no block has all its votes, or
    the last one that has them is proposed, and the counts above it stay. *)
Definition decided (len : nat) : Prop :=
  let proposed := dpos_proposed_irreversible_blocknum (p_common p) in
  let left := Z.of_nat (length (confirm_count (p_common p))) in
  (proposed = dpos_proposed_irreversible_blocknum (s_common s) /\ left = Z.of_nat len) \/
  (n - Z.of_nat len < proposed <= n /\ proposed = n - left /\
   Z.of_nat (size (voters' proposed)) = needed' proposed).

(** What the loop does to counts that say how many votes are missing. *)
Lemma votes_loop cc : Forall count_ok cc -> Z.of_nat (length cc) <= n ->
  (forall j x, cc !! j = Some x ->
     x = needed' (num_at n cc j) - Z.of_nat (size (voters (num_at n cc j)))) ->
  confirm_loop (length cc) (c + 1) n cc (dpos_proposed_irreversible_blocknum (s_common s))
    = (confirm_count (p_common p), dpos_proposed_irreversible_blocknum (p_common p)) ->
  (forall j x, confirm_count (p_common p) !! j = Some x ->
    x = needed' (num_at n (confirm_count (p_common p)) j)
        - Z.of_nat (size (voters' (num_at n (confirm_count (p_common p)) j)))) /\
  decided (length cc).
Proof.
  intros Hok Hlen Hcc Hl. pose proof (dw_num _ Hs).
  pose proof (confirm_loop_spec (length cc) (c + 1) n cc
    (dpos_proposed_irreversible_blocknum (s_common s)) ltac:(lia) ltac:(lia) Hok) as Ho.
  rewrite Hl in Ho. inversion Ho as [cc' Hlen' Hno Hval|i cc' Hr Hi Hlen' Hno Hval]; subst cc'.
  - split; [|left; lia]. intros j y Hj. pose proof (lookup_lt_Some _ _ _ Hj) as Hlt.
    destruct (lookup_lt_is_Some_2 cc j) as [x Hx]; [lia|].
    rewrite (Hval _ _ Hx) in Hj. injection Hj as <-. unfold num_at. rewrite Hlen'.
    rewrite (Hcc _ _ Hx). unfold num_at. destruct (in_range _ _ j) eqn:E.
    + apply in_range_true in E. rewrite votes_distinct by lia. lia.
    + apply in_range_false in E. unfold cast_votes.
      by replace (n - c <=? _) with false by lia.
  - assert (i < length cc)%nat by (by eapply lookup_lt_Some). apply in_range_true in Hr.
    split.
    + intros j y Hj. pose proof (lookup_lt_Some _ _ _ Hj) as Hlt.
      destruct (lookup_lt_is_Some_2 cc (S i + j)) as [x Hx]; [lia|].
      rewrite (Hval _ _ Hx) in Hj. rewrite bool_decide_eq_true_2 in Hj by lia. injection Hj as <-.
      rewrite (Hcc _ _ Hx). unfold num_at. rewrite Hlen'.
      replace (n - (Z.of_nat (length cc - S i) - 1 - Z.of_nat j))
        with (n - (Z.of_nat (length cc) - 1 - Z.of_nat (S i + j))) by lia.
      rewrite votes_distinct by lia. lia.
    + assert (dpos_proposed_irreversible_blocknum (p_common p) = n - (Z.of_nat (length cc) - 1 - Z.of_nat i)) as Hprop
        by (rewrite u32_small in * by lia; congruence).
      right. rewrite Hprop. split_and!; [lia..|]. rewrite votes_distinct by lia.
      pose proof (Hcc _ _ Hi) as Hone. unfold num_at in Hone. lia.
Qed.

Lemma votes_step :
  (forall j x, confirm_count (p_common p) !! j = Some x ->
    x = needed' (num_at n (confirm_count (p_common p)) j)
        - Z.of_nat (size (voters' (num_at n (confirm_count (p_common p)) j)))) /\
  decided (length (grow_confirm_count (confirm_count (s_common s)) (required (s_common s)))).
Proof.
  pose proof (dw_num _ Hs). pose proof (dw_irr _ Hs). pose proof (dw_window _ Hs).
  pose proof (required_range _ (dw_active _ Hs)).
  destruct (grow_spec _ Hs) as [off0 Hg].
  destruct (drop_bounded off0 (confirm_count (s_common s))) as (off & Hoff & Hdrop).
  rewrite Hdrop in Hg. pose proof (ns_confirm _ _ _ Hp) as Hl. rewrite Hg in Hl.
  pose proof (grown_counts off) as Hcc.
  assert (Forall count_ok (drop off (confirm_count (s_common s)) ++ [required (s_common s)])) as Hok.
  { apply Forall_app. split; [apply Forall_drop, Hs|]. constructor; [unfold count_ok; lia|done]. }
  assert (Z.of_nat (length (drop off (confirm_count (s_common s)) ++ [required (s_common s)])) <= n)
    as Hlen by (rewrite length_app, length_drop; cbn; lia).
  set (cc := drop off (confirm_count (s_common s)) ++ [required (s_common s)]) in *.
  rewrite (u32_small (c + 1)), (u32_small (block_num _ + 1)) in Hl by lia.
  rewrite (grow_length _ _ (u32 (u32 (required (s_common s) - 1) + 1))), Hg.
  apply (votes_loop cc); [done|done| |done]. intros j x Hj. by apply Hcc.
Qed.

(** The counts that are left belong to blocks that miss votes. *)
Lemma left_missing b : n - Z.of_nat (length (confirm_count (p_common p))) < b <= n ->
  Z.of_nat (size (voters' b)) < needed' b.
Proof.
  intros Hb. destruct votes_step as [Hcounts _]. destruct (confirm_step s c p Hs Hc Hp) as [Hok _].
  set (cc := confirm_count (p_common p)) in *. set (j := Z.to_nat (b - (n - Z.of_nat (length cc)) - 1)).
  destruct (lookup_lt_is_Some_2 cc j) as [x Hx]; [lia|]. pose proof (Forall_lookup_1 _ _ _ _ Hok Hx) as Hx1.
  pose proof (Hcounts _ _ Hx) as E. unfold num_at in E. replace (n - _) with b in E by lia.
  unfold count_ok in Hx1. lia.
Qed.

End votes.

(** C30: a block becomes proposed irreversible exactly with a supermajority.
    While the schedule does not change, no block claims more confirmations than
    there are blocks, and numbers stay below 2^32, each count of [next] is the
    number of producers still missing among the [needed] ones, and all producers
    counted are different (no producer confirms a block twice).  If, with the
    confirmations of the new block, one of the blocks that have a count has been
    confirmed by the number of distinct producers that it needs, two thirds of
    its schedule plus one, the last such block is proposed; otherwise the
    proposed number does not change.  [vote_inv], which ties the counts to the
    sets of voters, is kept. *)
Theorem proposed_has_supermajority (s : state) (w c : Z) (p : pending)
    (voters : Z -> gset account_name) (needed : Z -> Z) :
  dpos_wf (s_common s) -> 0 <= c < 2 ^ 16 -> c <= block_num (s_common s) ->
  vote_inv (s_common s) voters needed ->
  next s w c = Ok p -> was_pending_promoted p = false ->
  let num := block_num (p_common p) in
  let voters' := cast_votes voters num c (p_producer p) in
  let needed' := set_needed needed num (required (s_common s)) in
  let before := dpos_proposed_irreversible_blocknum (s_common s) in
  let proposed := dpos_proposed_irreversible_blocknum (p_common p) in
  vote_inv (p_common p) voters' needed' /\
  ((proposed = before /\ forall b, tracked (s_common s) b -> Z.of_nat (size (voters' b)) < needed' b) \/
   (before < proposed /\ tracked (s_common s) proposed /\ Z.of_nat (size (voters' proposed)) = needed' proposed /\
    forall b, tracked (s_common s) b -> proposed < b -> Z.of_nat (size (voters' b)) < needed' b)).
Proof.
  intros Hs Hc Hcb Hv Hn%next_ok Hpr. pose proof (dw_num _ Hs).
  pose proof (ns_num _ _ _ Hn) as Hnum. rewrite u32_small in Hnum by lia.
  destruct (votes_step s c p voters needed Hs Hc Hcb Hn Hv) as [Hcounts Hprop]; try done.
  cbn zeta. rewrite Hnum. split.
  2: { pose proof (left_missing s c p voters needed Hs Hc Hcb Hn Hv) as Hm. pose proof (dw_window _ Hs).
       destruct (grow_spec _ Hs) as [off Hg]. pose proof (grow_length (confirm_count (s_common s)) (required (s_common s)) (u32 (u32 (required (s_common s) - 1) + 1))) as Hgl.
       rewrite Hg, length_app, length_drop in Hgl. cbn [length] in Hgl. unfold tracked.
       destruct Hprop as [[E El]|(Hr & E & Hsz)]; [left|right].
       - split; [done|]. intros b Hb. apply Hm. lia.
       - split_and!; [lia|lia|lia|done|]. intros b Hb Hlt. apply Hm. lia. }
  split; rewrite ?Hnum; [done|].
  intros a b Hab. destruct (ns_same _ _ _ Hn Hpr) as (_ & Hprod & _). rewrite Hprod, Hnum.
  unfold cast_votes in Hab.
  destruct (decide (a = p_producer p)) as [->|Hne].
  - rewrite lookup_insert_eq. eexists; split; [done|].
    destruct (_ && _) eqn:E; bool_to_prop; [lia|].
    pose proof (voters_below s voters needed Hs Hv _ _ Hab). lia.
  - rewrite lookup_insert_ne by done. apply (vi_produced _ _ _ Hv).
    destruct (_ && _); set_solver.
Qed.

End dpos.

(** ** Examples *)

Definition sample_hash (d : digest_type * digest_type) : digest_type := d.1.
Definition sample_digest : digest_type := Merkle.mk_digest 0 0 0 0.
Definition sample_producer (a : Z) : producer_authority Z :=
  mk_producer_authority (Name.mk_name a) (mk_authority_v0 1 [mk_key_weight a 1]).
Definition sample_schedule (v : Z) (l : list Z) : producer_authority_schedule Z :=
  mk_schedule v (sample_producer <$> l).
Definition sample_map (l : list (Z * Z)) : gmap account_name Z :=
  list_to_map ((fun '(a, v) => (Name.mk_name a, v)) <$> l).

(** A state at a slot, with the given DPOS data. *)
Definition sample_state (slot : Z) (c : @common Z) (pending_lib : Z)
    (pending : producer_authority_schedule Z) : @block_header_state Z Z (list Z) :=
  mk_state c sample_digest
    (mk_signed_header (mk_header slot (Name.mk_name 1) 0 sample_digest sample_digest sample_digest
       0 None []) 0)
    (mk_schedule_info pending_lib sample_digest pending) ∅ [] [].

(** Three producers; producer 1 produced block 2 and producer 2 produced and
    confirmed the blocks 2 and 3. *)
Definition three : block_header_state :=
  sample_state 23
    (mk_common 3 0 0 (sample_schedule 0 [1; 2; 3]) Merkle.incremental_empty
       (sample_map [(1, 2); (2, 3)]) (sample_map [(1, 0); (2, 0)])
       (authority (sample_producer 2)) [1; 2]) 0 empty_schedule.

(** Four producers, of which producer 4 is behind; a schedule of the
    producers 3 and 4 is pending. *)
Definition lagging : block_header_state :=
  sample_state 35
    (mk_common 20 12 10 (sample_schedule 0 [1; 2; 3; 4]) Merkle.incremental_empty
       (sample_map [(1, 18); (2, 19); (3, 20); (4, 3)])
       (sample_map [(1, 10); (2, 10); (3, 10); (4, 2)])
       (authority (sample_producer 3)) [1; 2]) 10 (sample_schedule 1 [3; 4]).

Lemma map_check (hi : Z) (m : gmap account_name Z) :
  bool_decide (map_Forall (fun _ v => 0 <= v <= hi) m) = true ->
  forall a v, m !! a = Some v -> 0 <= v <= hi.
Proof. intros Hm%bool_decide_eq_true_1 a v. apply Hm. Qed.

Ltac check_wf := split; cbn -[Z.pow];
  [lia|lia|lia
  |repeat (apply Forall_cons; split; [unfold count_ok; lia|]); apply Forall_nil; exact I
  |apply map_check; vm_compute; reflexivity|apply map_check; vm_compute; reflexivity
  |unfold max_producers; lia].

Lemma three_wf : dpos_wf (s_common three).
Proof. check_wf. Qed.
Lemma lagging_wf : dpos_wf (s_common lagging).
Proof. check_wf. Qed.

Definition get_pending (r : result (@pending_block_header_state Z)) (d : @pending_block_header_state Z) :=
  match r with Ok p => p | Throw _ => d end.
Definition no_pending : @pending_block_header_state Z :=
  mk_pending (s_common three) ∅ (pending_schedule three) false sample_digest (Name.mk_name 0) 0 0 0.
(** The block that producer 3 adds to [three]. *)
Definition three_next : pending_block_header_state :=
  get_pending (next sample_hash three 0 2) no_pending.

Lemma next_keeps_counts_witness :
  dpos_wf (p_common three_next) /\ dpos_proposed_irreversible_blocknum (p_common three_next) = 2.
Proof.
  split; [|vm_compute; reflexivity].
  apply (next_keeps_counts sample_hash three 0 2 three_next three_wf);
    [lia|cbn; lia|cbn; unfold max_producers; lia|vm_compute; reflexivity].
Defined.

Lemma irreversible_is_two_thirds_witness :
  ~ supported 11 (implied_blocknums (s_common lagging) (Name.mk_name 4)).
Proof.
  apply (irreversible_is_two_thirds sample_hash lagging 0 0
    (get_pending (next sample_hash lagging 0 0) no_pending));
    [vm_compute; reflexivity|vm_compute; discriminate|vm_compute; reflexivity].
Defined.

Lemma irreversible_monotone_witness : irr_supported (p_common three_next).
Proof.
  apply (irreversible_monotone sample_hash three 0 2 three_next three_wf);
    [right; vm_compute; reflexivity|vm_compute; reflexivity|vm_compute; reflexivity].
Defined.

Definition three_voters (b : Z) : gset account_name :=
  if b =? 2 then {[ Name.mk_name 1; Name.mk_name 2 ]}
  else if b =? 3 then {[ Name.mk_name 2 ]} else ∅.

Lemma three_votes : vote_inv (s_common three) three_voters (fun _ => 3).
Proof.
  split.
  - intros [|[|j]] x [= <-]; vm_compute; reflexivity.
  - intros a b. unfold three_voters. destruct (b =? 2) eqn:E2; bool_to_prop.
    + intros [->%elem_of_singleton | ->%elem_of_singleton]%elem_of_union;
        (eexists; split; [vm_compute; reflexivity|lia]).
    + destruct (b =? 3) eqn:E3; bool_to_prop; [|set_solver].
      intros ->%elem_of_singleton. eexists; split; [vm_compute; reflexivity|lia].
Qed.

Lemma proposed_has_supermajority_witness :
  dpos_proposed_irreversible_blocknum (p_common three_next) = 2 /\
  size (cast_votes three_voters 4 2 (Name.mk_name 3) 2) = 3%nat.
Proof.
  split; [vm_compute; reflexivity|]. apply Nat2Z.inj.
  destruct (proposed_has_supermajority sample_hash three 0 2 three_next three_voters (fun _ => 3)
    three_wf) as [_ [[E _]|(_ & _ & E & _)]];
    [lia|cbn; lia|apply three_votes|vm_compute; reflexivity|vm_compute; reflexivity| |exact E].
  vm_compute in E. discriminate E.
Defined.

(** The state that [_finish_next] makes from a promoting pending state, for a
    header without extensions. *)
Definition seal (p : pending_block_header_state) : @block_header_state Z Z (list Z) :=
  sample_state (p_timestamp p) (p_common p) (schedule_lib_num (prev_pending_schedule p))
    (mk_schedule (version (schedule (prev_pending_schedule p))) []).

(** The unchanged schedule is needed for [irreversible_monotone].  When a
    schedule with producers that lag behind is promoted, their old implied
    numbers are carried over, and the next block can have a smaller
    irreversible number. *)
Theorem promotion_can_lower_irreversible :
  exists (s : @block_header_state Z Z (list Z)) p p',
    dpos_wf (s_common s) /\ irr_supported (s_common s) /\
    next sample_hash s 48 0 = Ok p /\ was_pending_promoted p = true /\ dpos_wf (p_common p) /\
    next sample_hash (seal p) 72 0 = Ok p' /\
    dpos_irreversible_blocknum (p_common p') < dpos_irreversible_blocknum (p_common p).
Proof.
  set (p := get_pending (next sample_hash lagging 48 0) no_pending).
  exists lagging, p, (get_pending (next sample_hash (seal p) 72 0) no_pending).
  split_and!; [apply lagging_wf|right; vm_compute; reflexivity|vm_compute; reflexivity|vm_compute; reflexivity| |
               vm_compute; reflexivity|vm_compute; reflexivity].
  apply (next_counts sample_hash lagging 48 0 p lagging_wf);
    [lia|cbn; lia|cbn; unfold max_producers; lia|vm_compute; reflexivity].
Qed.

(** The check against confirming twice is done modulo 2^32.  A block
    that claims more confirmations than there are blocks passes it although
    its producer has confirmed the range before, and a block is proposed as
    irreversible with the confirmations of two of three producers. *)
Theorem double_confirm_check_wraps :
  exists (s : @block_header_state Z Z (list Z)) p c, 0 <= c < 2 ^ 16 /\
    dpos_wf (s_common s) /\ vote_inv (s_common s) three_voters (fun _ => 3) /\
    next sample_hash s 36 c = Ok p /\
    dpos_proposed_irreversible_blocknum (p_common p) = 2 /\
    size (cast_votes three_voters (block_num (p_common p)) c (p_producer p) 2) = 2%nat.
Proof.
  exists three, (get_pending (next sample_hash three 36 5) no_pending), 5.
  split_and!; [lia|lia|apply three_wf|apply three_votes|vm_compute; reflexivity..].
Qed.

End Dpos.
