(* ===== verification/BlockHeaders.v ===== *)
(** * Headers that nodes exchange: theorems about BlockHeaderState

    What one node produces another node accepts: the number in a block id, the
    header extensions, the signatures of a block, and the turn of each
    producer. *)

From S2P Require Import Prelude Names Merkle ProducerSchedule BlockHeaderState.
Import ProducerSchedule BlockHeaderState.

Module BlockHeaders.

Section headers.
Context {K Sig Bytes : Type} `{Countable K}.
Context (header_hash : @block_header K Bytes -> digest_type)
        (pair_hash : digest_type * digest_type -> digest_type)
        (legacy_schedule_hash : producer_schedule_type K -> digest_type)
        (schedule_digest : producer_authority_schedule K -> digest_type)
        (endian_reverse_u32 : Z -> Z)
        (recover_key : Sig -> digest_type -> result K)
        (pack_activation : list digest_type -> Bytes)
        (pack_schedule : producer_authority_schedule K -> Bytes)
        (unpack_activation : Bytes -> result (list digest_type))
        (unpack_schedule : Bytes -> result (producer_authority_schedule K)).
Context (wtmsig_digest : option digest_type).

Abbreviation state := (@block_header_state K Sig Bytes).
Abbreviation pending := (@pending_block_header_state K).

(** ** Turns *)

(** Each producer of a schedule has twelve consecutive slots in every
    round of the schedule. *)
Theorem scheduled_in_turn (s : producer_authority_schedule K) (round : Z) (i : nat) (j : Z) p :
  0 <= round -> 0 <= j < producer_repetitions -> producers s !! i = Some p ->
  get_scheduled_producer s
    (producer_repetitions * (Z.of_nat (length (producers s)) * round + Z.of_nat i) + j) = Ok p.
Proof.
  unfold producer_repetitions. intros Hr Hj Hp. pose proof (lookup_lt_Some _ _ _ Hp) as Hlt.
  unfold get_scheduled_producer, producer_repetitions. set (n := Z.of_nat (length (producers s))) in *.
  replace (n =? 0) with false by lia.
  replace (12 * (n * round + Z.of_nat i) + j) with (12 * Z.of_nat i + j + round * (n * 12)) by lia.
  rewrite Z.mod_add, Z.mod_small by lia.
  rewrite Z.mul_comm, Z.div_add_l, Z.div_small, Z.add_0_r, Nat2Z.id by lia. by rewrite Hp.
Qed.

(** ** Ids *)

(** The id of a block carries its number: [num_from_id] reads back the
    number that [calculate_id] put into the id. *)
Theorem id_carries_number (h : @block_header K Bytes) :
  (forall x, is_u32 x -> is_u32 (endian_reverse_u32 x) /\
             endian_reverse_u32 (endian_reverse_u32 x) = x) ->
  num_from_id endian_reverse_u32 (calculate_id header_hash endian_reverse_u32 h)
  = block_num_of endian_reverse_u32 h.
Proof.
  intros Hrev. unfold num_from_id, calculate_id. cbn [Merkle.h0].
  destruct (Hrev (block_num_of endian_reverse_u32 h)) as [Hr Hinv]; [apply u32_range|].
  set (e := endian_reverse_u32 (block_num_of endian_reverse_u32 h)) in *.
  rewrite <- Hinv. f_equal.
  set (d := Merkle.h0 (header_hash h)).
  assert (Z.land d 0xffffffff00000000 = 2 ^ 32 * Z.land (Z.shiftr d 32) 0xffffffff) as ->.
  { apply Z.bits_inj'. intros k Hk. rewrite Z.mul_comm, <- Z.shiftl_mul_pow2 by lia.
    rewrite Z.shiftl_spec, !Z.land_spec by lia.
    replace 0xffffffff00000000 with (Z.shiftl 0xffffffff 32) by reflexivity.
    rewrite Z.shiftl_spec by lia. destruct (Z.lt_ge_cases k 32).
    - rewrite !(Z.testbit_neg_r _ (k - 32)) by lia. by rewrite andb_false_r.
    - rewrite Z.shiftr_spec by lia. do 2 f_equal. lia. }
  unfold u64, u32. rewrite Z.mod_mod_divide by (by exists (2 ^ 32)).
  rewrite Z.add_comm, Z.mul_comm, Z.mod_add, Z.mod_small by lia. done.
Qed.

(** ** Signatures *)

Abbreviation sig_digest := (sig_digest (Sig := Sig) header_hash pair_hash).
Abbreviation verify_signee := (verify_signee header_hash pair_hash recover_key).

(** All signatures of a state, and the keys they were made with. *)
Definition signatures (s : state) : list Sig :=
  producer_signature (header s) :: additional_signatures s.
Definition signed_by (s : state) (ks : list K) : Prop :=
  Forall2 (fun sg k => recover_key sg (sig_digest s) = Ok k) (signatures s) ks.

(** The keys presented are all in the authority when as many are counted. *)
Lemma presented_count_size (ks : gset K) (l : list (key_weight K)) : NoDup (key <$> l) ->
  presented_count ks l = Z.of_nat (size (ks ∩ list_to_set (key <$> l))).
Proof.
  induction l as [|kw l IH]; cbn [fmap list_fmap list_to_set]; intros Hd.
  { by rewrite (right_absorb_L ∅ (∩)). }
  apply NoDup_cons in Hd as [Hn Hd]. unfold presented_count, sum_with in *. cbn [foldr].
  rewrite IH by done. destruct (decide (key kw ∈ ks)) as [Hin|Hout].
  - replace (ks ∩ ({[key kw]} ∪ list_to_set (key <$> l)))
      with ({[ key kw ]} ∪ ks ∩ list_to_set (key <$> l)) by set_solver.
    rewrite (size_union {[key kw]} (ks ∩ _)) by set_solver. rewrite size_singleton. lia.
  - replace (ks ∩ ({[key kw]} ∪ list_to_set (key <$> l)))
      with (ks ∩ list_to_set (key <$> l)) by set_solver. lia.
Qed.

Lemma presented_all (ks : gset K) (l : list (key_weight K)) : NoDup (key <$> l) ->
  presented_count ks l = Z.of_nat (size ks) <-> ks ⊆ list_to_set (key <$> l).
Proof.
  intros Hd. rewrite presented_count_size by done. split.
  - intros Heq. assert (ks ∩ list_to_set (key <$> l) ≡ ks); [|set_solver].
    apply set_subseteq_size_equiv; [set_solver|lia].
  - intros Hsub. do 2 f_equal. set_solver.
Qed.

(** The keys of the additional signatures, each a new one. *)
Lemma add_signing_keys_ok digest sigs acc ks :
  foldM (add_signing_key recover_key digest) acc sigs = Ok ks <->
  exists l, Forall2 (fun sg k => recover_key sg digest = Ok k) sigs l /\
    NoDup l /\ (forall k, k ∈ l -> k ∉ acc) /\ ks = acc ∪ list_to_set l.
Proof.
  revert acc. induction sigs as [|sg sigs IH]; intros acc; cbn [foldM].
  - split.
    + intros [= <-]. exists []. split_and!; [done|constructor|set_solver|set_solver].
    + intros (l & ->%Forall2_nil_inv_l & _ & _ & ->). f_equal. set_solver.
  - split.
    + intros Hf. inv_ok. match goal with Ha : add_signing_key _ _ _ _ = Ok _ |- _ =>
        unfold add_signing_key in Ha end. inv_ok. bool_to_prop.
      match goal with Hf : foldM _ _ _ = Ok _ |- _ => apply IH in Hf as (l & Hl & Hd & Hn & ->) end.
      eexists (_ :: l). split_and!; [by constructor| |set_solver|set_solver].
      constructor; [|done]. intros Hk%Hn. set_solver.
    + intros (l & (k & l' & Hk & Hl & ->)%Forall2_cons_inv_l & [Hn Hd]%NoDup_cons & Hout & ->).
      unfold add_signing_key at 2. rewrite Hk. cbn [mbind result_bind].
      rewrite bool_decide_eq_true_2 by (apply Hout; left). cbn. apply IH.
      exists l'. split_and!; [done|done| |set_solver].
      intros k' Hk'. assert (k' ∉ acc) by (apply Hout; by right). set_solver.
Qed.

(** [verify_signee] accepts a block exactly when its signatures were
    made by different keys, all of them keys of the authority of the
    scheduled producer, with weights that reach the threshold. *)
Theorem verify_signee_exact (s : state) :
  let auth := valid_block_signing_authority (s_common s) in
  NoDup (key <$> keys auth) -> is_u32 (threshold auth) ->
  Forall (fun kw => is_u16 (weight kw)) (keys auth) ->
  verify_signee s = Ok tt <->
  exists ks, signed_by s ks /\ NoDup ks /\ (forall k, k ∈ ks -> k ∈ key <$> keys auth) /\
    threshold auth <= presented_weight (list_to_set ks) (keys auth).
Proof.
  intros auth Hd Ht Hw. unfold BlockHeaderState.verify_signee, signed_by, signatures.
  fold auth. set (dg := BlockHeaderState.sig_digest _ _ s).
  split.
  - intros Hv. inv_ok. destruct (keys_satisfy_and_relevant _ _) as [sat rel] eqn:Es.
    rewrite keys_satisfy_spec in Es by done. injection Es as <- <-. inv_ok. bool_to_prop.
    match goal with Hf : foldM _ _ _ = Ok _ |- _ =>
      apply add_signing_keys_ok in Hf as (l & Hl & Hnd & Hout & ->) end.
    match goal with Hc : presented_count _ _ = _ |- _ => apply presented_all in Hc; [|done] end.
    eexists (_ :: l). split_and!; [by constructor|constructor; set_solver|set_solver|done].
  - intros (ks & (k & l & Hk & Hl & ->)%Forall2_cons_inv_l & [Hn Hnd]%NoDup_cons & Hin & Hth).
    rewrite Hk.
    assert (1 + Z.of_nat (length (additional_signatures s)) <= Z.of_nat (length (keys auth))) as Hlen.
    { rewrite (Forall2_length _ _ _ Hl).
      assert (length (k :: l) <= length (key <$> keys auth))%nat as Hle
        by (apply submseteq_length, NoDup_submseteq; [by constructor|done]).
      rewrite length_fmap in Hle. cbn [length] in Hle. lia. }
    apply Z.leb_le in Hlen. rewrite Hlen. cbn.
    rewrite (proj2 (add_signing_keys_ok dg (additional_signatures s) {[k]}
      ({[k]} ∪ list_to_set l))) by (exists l; set_solver).
    cbn. rewrite keys_satisfy_spec by done.
    rewrite (proj2 (presented_all _ _ Hd)) by set_solver. rewrite Z.eqb_refl. cbn.
    apply Z.leb_le in Hth. cbn in Hth. by rewrite Hth.
Qed.

(** ** Produced and received headers *)

Abbreviation _finish_next := (_finish_next (Sig := Sig) header_hash legacy_schedule_hash
  schedule_digest endian_reverse_u32 unpack_activation unpack_schedule wtmsig_digest).
Abbreviation finish_next_sign := (finish_next_sign header_hash pair_hash legacy_schedule_hash
  schedule_digest endian_reverse_u32 recover_key unpack_activation unpack_schedule wtmsig_digest).
Abbreviation next_header := (next_header header_hash pair_hash legacy_schedule_hash
  schedule_digest endian_reverse_u32 recover_key unpack_activation unpack_schedule wtmsig_digest).
Abbreviation next := (next (Sig := Sig) (Bytes := Bytes) pair_hash).

(** The same state with another signature in the header. *)
Definition with_signature (sg : Sig) (s : state) : state :=
  mk_state (s_common s) (id s) (mk_signed_header (header_of (header s)) sg) (pending_schedule s)
    (activated_protocol_features s) (additional_signatures s) (header_exts s).

Lemma finish_next_signature p hd sg sg' validator (s : state) :
  _finish_next p (mk_signed_header hd sg) validator = Ok s ->
  _finish_next p (mk_signed_header hd sg') validator = Ok (with_signature sg' s) /\
  header s = mk_signed_header hd sg /\ additional_signatures s = [].
Proof.
  unfold BlockHeaderState._finish_next. cbn [header_of]. intros Hf.
  repeat (apply bind_ok_inv in Hf as (? & E & Hf); rewrite E; cbn [mbind result_bind]; clear E).
  injection Hf as <-. done.
Qed.

(** A header that was accepted has the slot and the confirmations of the
    pending state. *)
Lemma finish_next_fields p h validator (s : state) : _finish_next p h validator = Ok s ->
  timestamp (header_of h) = p_timestamp p /\ confirmed (header_of h) = p_confirmed p.
Proof. intros Hf. unfold BlockHeaderState._finish_next in Hf. inv_ok. bool_to_prop. done. Qed.

Lemma next_at_slot (s : state) w c p : 0 <= timestamp (header_of (header s)) ->
  timestamp (header_of (header s)) + 1 < 2 ^ 32 ->
  next s w c = Ok p -> next s (p_timestamp p) (p_confirmed p) = Ok p.
Proof.
  intros H0 Hts Hn. unfold BlockHeaderState.next in *.
  apply bind_ok_inv in Hn as (when & Hw & Hn).
  assert (p_timestamp p = when /\ p_confirmed p = c) as [-> ->].
  { clear Hw. repeat (apply bind_ok_inv in Hn as (? & _ & Hn)).
    destruct (confirm_loop _ _ _ _ _). destruct (if _ && _ then _ else _) as [[??]?].
    apply bind_ok_inv in Hn as (? & _ & [= <-]). done. }
  assert (timestamp (header_of (header s)) < when) as Hlt.
  { destruct (negb (w =? 0)); inv_ok; bool_to_prop; [done|]. rewrite u32_small; lia. }
  replace (when =? 0) with false by lia. cbn [negb].
  apply Z.ltb_lt in Hlt. rewrite Hlt. exact Hn.
Qed.

(** C35: what a producer makes, every node accepts.  When a producer advances
    its head, builds a header and signs it, then the same header with its
    signatures passes all the checks of a receiving node with the same head,
    and gives it the same state. *)
Theorem produced_block_accepted (s : state) w c p h validator signer r :
  0 <= timestamp (header_of (header s)) -> timestamp (header_of (header s)) + 1 < 2 ^ 32 ->
  next s w c = Ok p -> finish_next_sign p h validator signer = Ok r ->
  next_header s (header r) (additional_signatures r) validator false = Ok r.
Proof.
  intros H0 Hts Hn Hf. unfold BlockHeaderState.finish_next_sign in Hf.
  apply bind_ok_inv in Hf as (s1 & Hs1 & Hf). apply bind_ok_inv in Hf as (s2 & Hsig & Hf).
  apply bind_ok_inv in Hf as ([] & Hadd & [= ->]).
  destruct h as [hd sg]. unfold sign in Hsig. destruct (rev _) as [|last rest]; [done|].
  apply bind_ok_inv in Hsig as ([] & Hver & [= <-]).
  destruct (finish_next_signature _ _ _ last _ _ Hs1) as (Hs2 & Hh & Ha).
  destruct (finish_next_fields _ _ _ _ Hs1) as [Ht Hc]. cbn [header_of] in Ht, Hc.
  unfold BlockHeaderState.next_header. rewrite Hh in *. cbn [header header_of additional_signatures] in *.
  rewrite Ht, Hc, (next_at_slot s w c p) by done. cbn [mbind result_bind].
  unfold finish_next. rewrite Hs2. destruct s1 as [c1 i1 h1 ps1 ap1 as1 he1]. cbn in Hh, Ha.
  subst h1 as1. cbn [with_signature s_common id header header_of pending_schedule
    activated_protocol_features additional_signatures header_exts] in *.
  case_bool_decide as Hr; cbn [mbind result_bind].
  - rewrite Hr in Hver |- *. unfold with_signature. cbn [s_common id header header_of
      pending_schedule activated_protocol_features additional_signatures header_exts].
    by rewrite Hver.
  - rewrite Hadd. unfold with_signature, set_additional_signatures. cbn [mbind result_bind s_common
      id header header_of pending_schedule activated_protocol_features header_exts].
    by rewrite Hver.
Qed.

(** ** The content of a header *)

Abbreviation make_block_header :=
  (make_block_header pack_activation pack_schedule wtmsig_digest).

(** A schedule as the legacy form keeps it: one key of weight 1 for each
    producer. *)
Definition normalise (p : producer_authority K) : producer_authority K :=
  mk_producer_authority (producer_name p)
    (mk_authority_v0 1 ((fun kw => mk_key_weight (key kw) 1) <$> keys (authority p))).

Lemma downgrade_keys_ok ps acc l :
  foldM (fun l p => k ← downgrade_key p; mret (l ++ [k])) acc ps = Ok l ->
  upgrade_key <$> l = (upgrade_key <$> acc) ++ (normalise <$> ps).
Proof.
  revert acc. induction ps as [|p ps IH]; intros acc; cbn [foldM].
  { intros [= <-]. by rewrite app_nil_r. }
  intros Hf. apply bind_ok_inv in Hf as (l' & Hk & Hf). apply bind_ok_inv in Hk as (k & Hk & [= <-]).
  rewrite (IH _ Hf), fmap_app, <- app_assoc. cbn. do 2 f_equal.
  unfold downgrade_key in Hk. unfold normalise.
  destruct (keys (authority p)) as [|kw [|]] eqn:E; try done. inv_ok. done.
Qed.

(** The extensions of a header with the given activations and schedule. *)
Definition packed_exts (feats : list digest_type) (sched : option (producer_authority_schedule K))
  : list (Z * Bytes) :=
  (if bool_decide (feats = []) then [] else [(activation_id, pack_activation feats)]) ++
  match sched with Some s => [(schedule_change_id, pack_schedule s)] | None => [] end.
Definition known_exts (feats : list digest_type) (sched : option (producer_authority_schedule K))
  : list (Z * block_header_extension) :=
  (if bool_decide (feats = []) then [] else [(activation_id, protocol_feature_activation feats)]) ++
  match sched with
  | Some s => [(schedule_change_id, producer_schedule_change_extension s)]
  | None => []
  end.

Section packing.
Hypothesis activation_packs : forall l, unpack_activation (pack_activation l) = Ok l.
Hypothesis schedule_packs : forall s, unpack_schedule (pack_schedule s) = Ok s.

Lemma extract_packed feats sched :
  extract_loop unpack_activation unpack_schedule 0 0 (packed_exts feats sched) []
  = Ok (known_exts feats sched).
Proof.
  unfold packed_exts, known_exts. case_bool_decide; destruct sched; cbn;
    rewrite ?activation_packs; cbn; rewrite ?schedule_packs; done.
Qed.

Lemma known_activation feats (sched : option (producer_authority_schedule K)) :
  get_activation (known_exts feats sched) = if bool_decide (feats = []) then None else Some feats.
Proof. unfold known_exts. case_bool_decide; destruct sched; done. Qed.

Lemma known_schedule feats (sched : option (producer_authority_schedule K)) :
  get_schedule_change (known_exts feats sched) = sched.
Proof. unfold known_exts. case_bool_decide; destruct sched; done. Qed.

(** What [make_block_header] puts into a header. *)
Lemma make_block_header_ok p tm am np feats h :
  make_block_header p tm am np feats = Ok h ->
  let w := wtmsig_activated wtmsig_digest (prev_activated_protocol_features p) in
  exists legacy,
    h = mk_header (p_timestamp p) (p_producer p) (p_confirmed p) (p_previous p) tm am
          (active_schedule_version p) legacy (packed_exts feats (if w then np else None)) /\
    upgrade <$> legacy =
      (if w then None else (fun s => mk_schedule (version s) (normalise <$> producers s)) <$> np) /\
    legacy_version <$> legacy = (if w then None else version <$> np).
Proof.
  unfold BlockHeaderState.make_block_header, packed_exts. cbn zeta. intros Hm.
  apply bind_ok_inv in Hm as ([exts legacy] & Hn & [= <-]). exists legacy.
  destruct (wtmsig_activated _ _), np as [sched|]; cbn in Hn |- *.
  - injection Hn as <- <-. split_and!; [|done..]. case_bool_decide; done.
  - injection Hn as <- <-. split_and!; [|done..]. case_bool_decide; done.
  - apply bind_ok_inv in Hn as (l & Hl & [= <- <-]). apply downgrade_keys_ok in Hl.
    split_and!; [case_bool_decide; done| |done]. cbn. unfold upgrade. cbn. by rewrite Hl.
  - injection Hn as <- <-. split_and!; [|done..]. case_bool_decide; done.
Qed.

Lemma add_features_fresh (orig : gset digest_type) feats : NoDup feats ->
  (forall d, d ∈ feats -> d ∉ orig) -> add_features orig feats = Ok (orig ∪ list_to_set feats).
Proof.
  intros Hd Hf. unfold add_features. rewrite size_union by set_solver.
  rewrite size_list_to_set by done. by rewrite bool_decide_eq_true_2.
Qed.

(** A new schedule that a header may carry. *)
Definition schedule_fits (p : pending) (sched : producer_authority_schedule K) : Prop :=
  was_pending_promoted p = false /\
  version sched = u32 (version (active_schedule (p_common p)) + 1) /\
  producers (schedule (prev_pending_schedule p)) = [].

Lemma check_new_schedule_fits p sched : schedule_fits p sched ->
  check_new_schedule p (version sched) = Ok tt.
Proof.
  intros (H1 & H2 & H3). unfold check_new_schedule. rewrite H1, H2, H3, Z.eqb_refl. done.
Qed.

(** The pending schedule after a header with the new schedule [np]. *)
Definition pending_after (p : pending) (np : option (producer_authority_schedule K))
    (i : @schedule_info K) : Prop :=
  match np with
  | Some sched =>
      schedule_lib_num i = block_num (p_common p) /\
      schedule i = if wtmsig_activated wtmsig_digest (prev_activated_protocol_features p)
                   then sched else mk_schedule (version sched) (normalise <$> producers sched)
  | None => if was_pending_promoted p then producers (schedule i) = []
            else i = prev_pending_schedule p
  end.

Lemma activations_ok (p : pending) feats validator :
  (feats <> [] ->
   validator (p_timestamp p) (prev_activated_protocol_features p) feats = Ok tt) ->
  NoDup feats -> (forall d, d ∈ feats -> d ∉ prev_activated_protocol_features p) ->
  (match (if bool_decide (feats = []) then None else Some feats) with
   | Some l =>
       validator (p_timestamp p) (prev_activated_protocol_features p) l;;
       add_features (prev_activated_protocol_features p) l
   | None => mret (prev_activated_protocol_features p)
   end) = Ok (prev_activated_protocol_features p ∪ list_to_set feats).
Proof.
  intros Hval Hd Hnew. case_bool_decide as He.
  - subst feats. cbn. f_equal. set_solver.
  - rewrite (Hval He). cbn [mbind result_bind]. by apply add_features_fresh.
Qed.

(** A header from [make_block_header] passes the checks of
    [_finish_next] and carries its content through: the protocol features
    given are the ones activated, and the schedule given becomes the pending
    schedule of the block (in the normal form of the legacy format before
    WTMsig is activated). *)
Theorem made_header_accepted (p : pending) tm am np feats h sg validator :
  make_block_header p tm am np feats = Ok h ->
  (forall sched, np = Some sched -> schedule_fits p sched) ->
  (feats <> [] ->
   validator (p_timestamp p) (prev_activated_protocol_features p) feats = Ok tt) ->
  NoDup feats -> (forall d, d ∈ feats -> d ∉ prev_activated_protocol_features p) ->
  exists s, _finish_next p (mk_signed_header h sg) validator = Ok s /\
    header s = mk_signed_header h sg /\ s_common s = p_common p /\
    activated_protocol_features s = prev_activated_protocol_features p ∪ list_to_set feats /\
    get_new_protocol_feature_activations s = feats /\
    pending_after p np (pending_schedule s).
Proof.
  intros Hm Hfit Hval Hd Hnew. apply make_block_header_ok in Hm as (legacy & -> & Hup & Hver).
  unfold BlockHeaderState._finish_next, validate_and_extract_header_extensions.
  cbn [header_of timestamp previous confirmed producer schedule_version header_extensions new_producers].
  rewrite !Z.eqb_refl, !bool_decide_eq_true_2 by done. rewrite extract_packed.
  cbn [mbind result_bind EOS_ASSERT]. rewrite known_schedule, known_activation.
  rewrite activations_ok by done.
  unfold pending_after. cbn zeta in Hup, Hver.
  destruct (wtmsig_activated _ _), np as [sched|], legacy as [l|]; try done;
    cbn [mbind result_bind EOS_ASSERT negb mret result_ret].
  all: try (rewrite check_new_schedule_fits by (by apply Hfit)).
  all: try (cbn in Hver; injection Hver as ->; rewrite check_new_schedule_fits by (by apply Hfit)).
  all: cbn [mbind result_bind]; eexists; split; [done|].
  all: unfold get_new_protocol_feature_activations; cbn; rewrite known_activation.
  all: split_and!; try done; try (case_bool_decide; congruence).
  all: try (destruct (was_pending_promoted p), (prev_pending_schedule p); done).
  by apply (inj Some).
Qed.
End packing.

End headers.

(** ** Examples *)

Definition h_key (k : Z) : key_weight Z := mk_key_weight k 1.
Definition h_digest (n : Z) : digest_type := Merkle.mk_digest n 0 0 0.
Definition h_hash {A} (_ : A) : digest_type := h_digest 7.
(** Extension data that is not serialised, and signatures that name their key. *)
Definition h_bytes : Type := list digest_type + producer_authority_schedule Z.
Definition h_unpack_activation (b : h_bytes) : result (list digest_type) :=
  match b with inl l => Ok l | inr _ => Throw invalid_block_header_extension end.
Definition h_unpack_schedule (b : h_bytes) : result (producer_authority_schedule Z) :=
  match b with inr s => Ok s | inl _ => Throw invalid_block_header_extension end.
Definition h_recover (s : Z) (_ : digest_type) : result Z := Ok s.

(** Two producers with two keys each, both needed. *)
Definition h_producer (a : Z) : producer_authority Z :=
  mk_producer_authority (Name.mk_name a) (mk_authority_v0 2 [h_key a; h_key (a + 100)]).
Definition h_schedule : producer_authority_schedule Z := mk_schedule 0 [h_producer 1; h_producer 2].
Definition h_genesis : @block_header_state Z Z h_bytes :=
  mk_state
    (mk_common 1 0 0 h_schedule Merkle.incremental_empty ∅ ∅ (authority (h_producer 1)) [])
    (h_digest 1)
    (mk_signed_header (mk_header 11 (Name.mk_name 1) 0 (h_digest 0) (h_digest 0) (h_digest 0)
       0 None []) 0)
    (mk_schedule_info 0 (h_digest 0) empty_schedule) {[ h_digest 5 ]} [] [].
Definition h_pending : @pending_block_header_state Z :=
  mk_pending
    (mk_common 2 0 0 h_schedule (Merkle.mk_incremental 1 [h_digest 1])
       {[ Name.mk_name 2 := 2 ]} {[ Name.mk_name 2 := 0 ]} (authority (h_producer 2)) [1])
    {[ h_digest 5 ]} (mk_schedule_info 0 (h_digest 0) empty_schedule) false (h_digest 1)
    (Name.mk_name 2) 12 0 0.
(** A header that activates the feature 6 and changes the schedule. *)
Definition h_new_schedule : producer_authority_schedule Z := mk_schedule 1 [h_producer 2].
Definition h_header : @block_header Z h_bytes :=
  mk_header 12 (Name.mk_name 2) 0 (h_digest 1) (h_digest 3) (h_digest 4) 0 None
    [(0, inl [h_digest 6]); (1, inr h_new_schedule)].
Definition h_accept (_ : Z) (_ : gset digest_type) (_ : list digest_type) : result unit := Ok tt.
Definition h_state : @block_header_state Z Z h_bytes :=
  mk_state (p_common h_pending) (h_digest 2) (mk_signed_header h_header 2)
    (mk_schedule_info 2 (h_digest 7) h_new_schedule) {[ h_digest 5; h_digest 6 ]} [102]
    [(0, protocol_feature_activation [h_digest 6]);
     (1, producer_schedule_change_extension h_new_schedule)].

Lemma scheduled_in_turn_witness : get_scheduled_producer h_schedule 45 = Ok (h_producer 2).
Proof. apply (scheduled_in_turn h_schedule 1 1 9); vm_compute; done. Defined.

Lemma id_carries_number_witness :
  num_from_id (fun x => x) (calculate_id h_hash (fun x => x) h_header) = 2.
Proof. rewrite (id_carries_number h_hash (fun x => x) h_header); [reflexivity|done]. Defined.

Lemma verify_signee_exact_witness : verify_signee h_hash h_hash h_recover h_state = Ok tt.
Proof.
  apply (verify_signee_exact h_hash h_hash h_recover h_state).
  - apply (bool_decide_unpack _). vm_compute. exact I.
  - cbn. lia.
  - repeat constructor; cbn; lia.
  - exists [2; 102]. split_and!.
    + repeat constructor.
    + apply (bool_decide_unpack _). vm_compute. exact I.
    + apply Forall_forall. apply (bool_decide_unpack _). vm_compute. exact I.
    + vm_compute. discriminate.
Defined.

Lemma produced_block_accepted_witness :
  next_header h_hash h_hash h_hash h_hash (fun x => x) h_recover h_unpack_activation
    h_unpack_schedule (Some (h_digest 5)) h_genesis (header h_state) [102] h_accept false
  = Ok h_state.
Proof.
  apply (produced_block_accepted h_hash h_hash h_hash h_hash (fun x => x) h_recover
    h_unpack_activation h_unpack_schedule (Some (h_digest 5)) h_genesis 0 0 h_pending
    (mk_signed_header h_header 0) h_accept (fun _ => [102; 2])); vm_compute; done.
Defined.

Lemma made_header_accepted_witness : exists s,
  _finish_next h_hash h_hash h_hash (fun x => x) h_unpack_activation h_unpack_schedule
    (Some (h_digest 5)) h_pending (mk_signed_header h_header 0) h_accept = Ok s /\
  get_new_protocol_feature_activations s = [h_digest 6].
Proof.
  destruct (made_header_accepted h_hash h_hash h_hash (fun x => x) inl inr h_unpack_activation
    h_unpack_schedule (Some (h_digest 5)) (fun _ => eq_refl) (fun _ => eq_refl) h_pending
    (h_digest 3) (h_digest 4) (Some h_new_schedule) [h_digest 6] h_header 0 h_accept)
    as (s & Hs & _ & _ & _ & Ha & _).
  - vm_compute. reflexivity.
  - intros ? [= <-]. vm_compute. done.
  - done.
  - apply (bool_decide_unpack _). vm_compute. exact I.
  - intros d ->%list_elem_of_singleton. apply (bool_decide_unpack _). vm_compute. exact I.
  - exists s. split; [exact Hs|exact Ha].
Defined.

End BlockHeaders.
