(* ===== verification/Authority.v ===== *)
(** * Authorities: include/eosio/chain/authority.hpp and action.hpp

    Module [Authority] has permission levels, authorities with their weighted
    keys, permissions and waits, their billable size and their validation.
    Public keys, their order and their packed size belong to the fc library:
    they are parameters. *)

From S2P Require Import Prelude Names ProducerSchedule.

Module Authority.
Abbreviation account_name := Name.name.
Abbreviation permission_name := Name.name.
Abbreviation key_weight := ProducerSchedule.key_weight.
Abbreviation key := ProducerSchedule.key.
Abbreviation key_weight_of := ProducerSchedule.weight.

(** ** Permission levels *)

Record permission_level := mk_level { actor : account_name; permission : permission_name }.

#[global] Instance permission_level_eq_dec : EqDecision permission_level.
Proof. solve_decision. Defined.

#[global] Program Instance permission_level_countable : Countable permission_level :=
  inj_countable' (fun p => (actor p, permission p)) (fun '(a, p) => mk_level a p) _.
Next Obligation. by intros []. Qed.

(** [operator <] of permission levels: lexicographic in actor, permission *)
Definition permission_level_lt (a b : permission_level) : bool :=
  (Name.value (actor a) <? Name.value (actor b)) ||
  ((Name.value (actor a) =? Name.value (actor b)) &&
   (Name.value (permission a) <? Name.value (permission b))).

Record permission_level_weight := mk_level_weight { level : permission_level; level_weight : Z }.
Record wait_weight := mk_wait_weight { wait_sec : Z; wait_weight_of : Z }.

(** [config::billable_size_v]: a size rounded up to the billable alignment *)
Definition billable_alignment : Z := 16.
Definition billable_size_v (value : Z) : Z :=
  (value + billable_alignment - 1) / billable_alignment * billable_alignment.

Section authority.
Context {K : Type}.
(** [operator <] of public keys and the length of a packed key *)
Context (key_lt : K -> K -> bool) (pack_size : K -> Z).

Record authority := mk_authority {
  threshold : Z;
  keys : list (key_weight K);
  accounts : list permission_level_weight;
  waits : list wait_weight;
}.

(** The constructors of an authority with one key or one permission and an
    optional delay. *)
Definition with_delay (a : authority) (delay_sec : Z) : authority :=
  if 0 <? delay_sec
  then mk_authority 2 (keys a) (accounts a) (waits a ++ [mk_wait_weight delay_sec 1])
  else a.
Definition authority_of_key (k : K) (delay_sec : Z) : authority :=
  with_delay (mk_authority 1 [ProducerSchedule.mk_key_weight k 1] [] []) delay_sec.
Definition authority_of_permission (p : permission_level) (delay_sec : Z) : authority :=
  with_delay (mk_authority 1 [] [mk_level_weight p 1] []) delay_sec.

(** [shared_authority::get_billable_size] *)
Definition get_billable_size (a : authority) : Z :=
  let accounts_size := u64 (Z.of_nat (length (accounts a)) * billable_size_v 24) in
  let waits_size := u64 (Z.of_nat (length (waits a)) * billable_size_v 16) in
  let keys_size :=
    foldl (fun n k => u64 (u64 (n + billable_size_v 8) + pack_size (key k))) 0 (keys a) in
  u64 (u64 (accounts_size + waits_size) + keys_size).

(** One of the loops of [validate]; [None] is [return false]. *)
Fixpoint validate_loop {A} (lt : A -> A -> bool) (weight : A -> Z) (prev : option A)
    (total_weight : Z) (l : list A) : option Z :=
  match l with
  | [] => Some total_weight
  | x :: l =>
      if match prev with Some y => negb (lt y x) | None => false end then None
      else validate_loop lt weight (Some x) (u32 (total_weight + weight x)) l
  end.

Definition validate (auth : authority) : bool :=
  if 65536 <? Z.of_nat (length (keys auth) + length (accounts auth) + length (waits auth)) then false
  else if threshold auth =? 0 then false
  else
    match validate_loop (fun a b => key_lt (key a) (key b)) key_weight_of None 0 (keys auth) with
    | None => false
    | Some t =>
    match validate_loop (fun a b => permission_level_lt (level a) (level b)) level_weight None t
            (accounts auth) with
    | None => false
    | Some t =>
    if match waits auth with w :: _ => wait_sec w =? 0 | [] => false end then false
    else
    match validate_loop (fun a b => wait_sec a <? wait_sec b) wait_weight_of None t (waits auth) with
    | None => false
    | Some t => threshold auth <=? t
    end end end.

(** ** Correctness *)

(** The weights of all the entries. *)
Definition total_weight (auth : authority) : Z :=
  sum_with key_weight_of (keys auth) + sum_with level_weight (accounts auth) +
  sum_with wait_weight_of (waits auth).

(** The widths of the fields. *)
Record authority_widths (auth : authority) : Prop := {
  aw_threshold : is_u32 (threshold auth);
  aw_keys : Forall (fun k => is_u16 (key_weight_of k)) (keys auth);
  aw_accounts : Forall (fun a => is_u16 (level_weight a)) (accounts auth);
  aw_waits : Forall (fun w => 0 <= wait_sec w /\ is_u16 (wait_weight_of w)) (waits auth);
}.

Record valid (auth : authority) : Prop := {
  va_size : Z.of_nat (length (keys auth) + length (accounts auth) + length (waits auth)) <= 2 ^ 16;
  va_keys : Sorted (fun a b => key_lt (key a) (key b) = true) (keys auth);
  va_accounts : Sorted (fun a b => permission_level_lt (level a) (level b) = true) (accounts auth);
  va_waits : Sorted (fun a b => wait_sec a < wait_sec b) (waits auth);
  va_wait : forall w ws, waits auth = w :: ws -> 0 < wait_sec w;
  va_threshold : 0 < threshold auth <= total_weight auth;
}.

Lemma Sorted_impl {A} (R R' : A -> A -> Prop) l : (forall a b, R a b -> R' a b) ->
  Sorted R l -> Sorted R' l.
Proof.
  intros Hi. induction 1 as [|x l Hl IH Hx]; constructor; [done|].
  destruct Hx; constructor. by apply Hi.
Qed.

Lemma sum_u16_bound {A} (f : A -> Z) l : Forall (fun x => is_u16 (f x)) l ->
  0 <= sum_with f l <= Z.of_nat (length l) * 65535.
Proof. induction 1 as [|x l Hx Hl IH]; cbn in *; [lia|]. unfold sum_with in *. lia. Qed.

(** The loop accepts sorted lists and adds up the weights; there is no
    overflow for as many entries as an authority may have. *)
Lemma validate_loop_spec {A} (lt : A -> A -> bool) (weight : A -> Z) prev t l :
  Forall (fun x => is_u16 (weight x)) l -> 0 <= t -> t + Z.of_nat (length l) * 65535 < 2 ^ 32 ->
  forall t', validate_loop lt weight prev t l = Some t' <->
    Sorted (fun a b => lt a b = true) l /\
    (forall p, prev = Some p -> HdRel (fun a b => lt a b = true) p l) /\
    t' = t + sum_with weight l.
Proof.
  intros Hw. revert prev t. induction Hw as [|x l Hx Hl IH]; intros prev t Ht Hb t'; cbn [validate_loop].
  - cbn. rewrite Z.add_0_r. split; [intros [= <-]|intros (_ & _ & ->)]; [|done].
    split_and!; [constructor| |done]. constructor.
  - cbn [length] in Hb. rewrite u32_small by lia. unfold sum_with in *. cbn [foldr].
    rewrite Z.add_assoc.
    destruct (match prev with Some y => negb (lt y x) | None => false end) eqn:E.
    + split; [done|]. intros (_ & Hp & _). destruct prev as [y|]; [|done].
      specialize (Hp y eq_refl). inversion Hp; subst. bool_to_prop. congruence.
    + rewrite IH by lia. split.
      * intros (Hs & Hp & ->). split_and!; [constructor; [done|by apply Hp]| |done].
        intros p ->. constructor. by bool_to_prop.
      * intros (Hs & Hp & ->). inversion Hs; subst. split_and!; [done| |done].
        by intros ? [= <-].
Qed.

Lemma authority_validate_ok auth : authority_widths auth -> validate auth = true <-> valid auth.
Proof.
  intros [Ht Hk Ha Hw]. unfold validate.
  assert (Forall (fun w => is_u16 (wait_weight_of w)) (waits auth)) as Hw'
    by (eapply Forall_impl; [exact Hw|]; by intros ? []).
  pose proof (sum_u16_bound _ _ Hk). pose proof (sum_u16_bound _ _ Ha). pose proof (sum_u16_bound _ _ Hw').
  split.
  - intros Hv. destruct (65536 <? _) eqn:E1; [done|]. destruct (threshold auth =? 0) eqn:E2; [done|].
    bool_to_prop.
    destruct (validate_loop _ _ _ _ (keys auth)) as [t1|] eqn:L1; [|done].
    apply validate_loop_spec in L1 as (S1 & _ & ->); [|done|lia..].
    destruct (validate_loop _ _ _ _ (accounts auth)) as [t2|] eqn:L2; [|done].
    apply validate_loop_spec in L2 as (S2 & _ & ->); [|done|lia..].
    destruct (match waits auth with w :: _ => _ | [] => _ end) eqn:E3; [done|].
    destruct (validate_loop _ _ _ _ (waits auth)) as [t3|] eqn:L3; [|done].
    apply validate_loop_spec in L3 as (S3 & _ & ->); [|done|lia..]. bool_to_prop.
    split; [lia|done|done| | |unfold total_weight; lia].
    + eapply Sorted_impl; [|exact S3]. intros a b ?. by apply Z.ltb_lt.
    + intros w ws Heq. rewrite Heq in *. inversion Hw as [|?? [? _] ?]; subst. bool_to_prop. lia.
  - intros [V1 V2 V3 V4 V5 V6]. unfold total_weight in V6.
    replace (65536 <? _) with false by (symmetry; apply Z.ltb_ge; lia).
    replace (threshold auth =? 0) with false by lia.
    rewrite (proj2 (validate_loop_spec _ _ None 0 (keys auth) Hk ltac:(lia) ltac:(lia)
      (sum_with key_weight_of (keys auth)))) by done.
    rewrite (proj2 (validate_loop_spec _ _ None (sum_with key_weight_of (keys auth))
      (accounts auth) Ha ltac:(lia) ltac:(lia)
      (sum_with key_weight_of (keys auth) + sum_with level_weight (accounts auth)))) by done.
    assert (match waits auth with w :: _ => wait_sec w =? 0 | [] => false end = false) as ->
      by (destruct (waits auth) eqn:Ew; [done|]; specialize (V5 _ _ eq_refl); lia).
    rewrite (proj2 (validate_loop_spec _ _ None (sum_with key_weight_of (keys auth) +
      sum_with level_weight (accounts auth)) (waits auth) Hw' ltac:(lia) ltac:(lia) _))
      by (split_and!; [eapply Sorted_impl; [|exact V4]; intros; by apply Z.ltb_lt|done|reflexivity]).
    lia.
Qed.

End authority.
Arguments authority : clear implicits.

(** [validate] accepts an authority exactly when its keys, permissions
    and waits are strictly sorted (so there are no duplicates), the waits are
    positive, and the sum of all weights, in unbounded arithmetic, reaches a
    positive threshold.  Its 32-bit sum cannot overflow. *)
Theorem validate_exact {K : Type} (key_lt : K -> K -> bool) (auth : authority K) :
  authority_widths auth -> validate key_lt auth = true <-> valid key_lt auth.
Proof. apply authority_validate_ok. Qed.

Lemma validate_exact_witness :
  valid Z.ltb (mk_authority 3 [ProducerSchedule.mk_key_weight 1 1; ProducerSchedule.mk_key_weight 2 2]
    [mk_level_weight (mk_level (Name.mk_name 5) (Name.mk_name 6)) 1] [mk_wait_weight 10 1]).
Proof.
  apply (validate_exact Z.ltb (mk_authority 3 [ProducerSchedule.mk_key_weight 1 1;
    ProducerSchedule.mk_key_weight 2 2]
    [mk_level_weight (mk_level (Name.mk_name 5) (Name.mk_name 6)) 1] [mk_wait_weight 10 1]));
    [|vm_compute; reflexivity].
  split; cbn; repeat constructor; cbn; lia.
Defined.

End Authority.
