(* ===== verification/AuthorityChecker.v ===== *)
(** * Checking authorities: include/eosio/chain/authority_checker.hpp

    Module [AuthorityChecker] decides whether keys, permissions and a delay
    that a transaction provides satisfy a permission.  The checker walks the
    graph of permissions with a cache and a depth limit, and marks the keys it
    used.  The function from permissions to authorities is a template
    parameter of the class, and a parameter here. *)

From S2P Require Import Prelude Names ProducerSchedule Authority.
Import Authority.

Module AuthorityChecker.

Inductive permission_cache_status :=
  | being_evaluated
  | permission_unsatisfied
  | permission_satisfied.

Abbreviation permission_cache_type := (gmap permission_level permission_cache_status).

Section checker.
Context {K : Type} `{EqDecision K}.
Context (permission_to_authority : permission_level -> result (authority K)).

Record authority_checker := mk_checker {
  provided_keys : list K;
  provided_permissions : gset permission_level;
  _used_keys : list bool;
  provided_delay : Z;
  recursion_depth_limit : nat;
}.

Definition make_auth_checker (limit : nat) (keys : list K) (perms : gset permission_level)
    (delay : Z) : authority_checker :=
  mk_checker keys perms (replicate (length keys) false) delay limit.

Definition set_used_keys (ck : authority_checker) (used : list bool) : authority_checker :=
  mk_checker (provided_keys ck) (provided_permissions ck) used (provided_delay ck)
    (recursion_depth_limit ck).
Definition set_provided_delay (ck : authority_checker) (delay : Z) : authority_checker :=
  mk_checker (provided_keys ck) (provided_permissions ck) (_used_keys ck) delay
    (recursion_depth_limit ck).

Definition all_keys_used (ck : authority_checker) : bool := forallb (fun b => b) (_used_keys ck).

(** [filter_data_by_marker] *)
Definition filter_data_by_marker (data : list K) (markers : list bool) (value : bool) : list K :=
  fst <$> filter (fun e => e.2 = value) (zip data markers).
Definition used_keys (ck : authority_checker) : list K :=
  filter_data_by_marker (provided_keys ck) (_used_keys ck) true.
Definition unused_keys (ck : authority_checker) : list K :=
  filter_data_by_marker (provided_keys ck) (_used_keys ck) false.

Definition permission_status_in_cache (permissions : permission_cache_type)
    (level : permission_level) : option permission_cache_status :=
  match permissions !! level with
  | Some s => Some s
  | None => permissions !! mk_level (actor level) (Name.mk_name 0)
  end.

Definition initialize_permission_cache (ck : authority_checker) : permission_cache_type :=
  gset_to_gmap permission_satisfied (provided_permissions ck).

(** ** Meta permissions *)

Inductive meta_permission :=
  | account_entry (p : permission_level_weight)
  | key_entry (k : key_weight K)
  | wait_entry (w : wait_weight).

Definition meta_weight (m : meta_permission) : Z :=
  match m with
  | account_entry p => level_weight p
  | key_entry k => key_weight_of k
  | wait_entry w => wait_weight_of w
  end.
Definition meta_priority (m : meta_permission) : Z :=
  match m with account_entry _ => 1 | key_entry _ => 2 | wait_entry _ => 3 end.

(** The multimap is ordered by weight and then priority, both descending. *)
Definition emplace_permission (perms : list meta_permission) (m : meta_permission)
  : list meta_permission :=
  insert_upper (fun m => - (4 * meta_weight m + meta_priority m)) m perms.

Definition entries (auth : authority K) : list meta_permission :=
  (account_entry <$> accounts auth) ++ (key_entry <$> keys auth) ++ (wait_entry <$> waits auth).

Definition meta_permissions (auth : authority K) : list meta_permission :=
  foldl emplace_permission [] (entries auth).

(** ** The visitor *)

(** What an evaluation changes: the cache and the used keys. *)
Record eval_state := mk_eval {
  cached : permission_cache_type;
  used : list bool;
}.

Section visitor.
Context (ck : authority_checker).
(** [satisfied] one level deeper; [None] at the depth limit. *)
Context (nested : option (authority K -> eval_state -> result (bool * eval_state))).

Definition visit_wait (total_weight : Z) (w : wait_weight) : Z :=
  if wait_sec w * 1000000 <=? provided_delay ck
  then u32 (total_weight + wait_weight_of w) else total_weight.

Definition visit_key (total_weight : Z) (k : key_weight K) (st : eval_state) : Z * eval_state :=
  match list_find (fun x => x = key k) (provided_keys ck) with
  | Some (i, _) =>
      (u32 (total_weight + key_weight_of k), mk_eval (cached st) (<[i := true]> (used st)))
  | None => (total_weight, st)
  end.

Definition visit_account (total_weight : Z) (p : permission_level_weight) (st : eval_state)
  : result (Z * eval_state) :=
  match permission_status_in_cache (cached st) (level p) with
  | None =>
      match nested with
      | None => mret (total_weight, st)
      | Some satisfied =>
          match permission_to_authority (level p) with
          | Throw e =>
              if decide (e = permission_query_exception) then mret (total_weight, st) else Throw e
          | Ok auth =>
              '(r, st) ← satisfied auth
                 (mk_eval (<[level p := being_evaluated]> (cached st)) (used st));
              if (r : bool)
              then mret (u32 (total_weight + level_weight p),
                         mk_eval (<[level p := permission_satisfied]> (cached st)) (used st))
              else mret (total_weight,
                         mk_eval (<[level p := permission_unsatisfied]> (cached st)) (used st))
          end
      end
  | Some permission_satisfied => mret (u32 (total_weight + level_weight p), st)
  | Some _ => mret (total_weight, st)
  end.

Definition visit (total_weight : Z) (m : meta_permission) (st : eval_state)
  : result (Z * eval_state) :=
  match m with
  | account_entry p => visit_account total_weight p st
  | key_entry k => mret (visit_key total_weight k st)
  | wait_entry w => mret (visit_wait total_weight w, st)
  end.

(** The loop over the meta permissions; the used keys are restored unless
    the threshold is reached. *)
Fixpoint tally (threshold : Z) (saved : list bool) (perms : list meta_permission)
    (total_weight : Z) (st : eval_state) : result (bool * eval_state) :=
  match perms with
  | [] => mret (false, mk_eval (cached st) saved)
  | m :: perms =>
      '(total_weight, st) ← visit total_weight m st;
      if threshold <=? total_weight then mret (true, st)
      else tally threshold saved perms total_weight st
  end.
End visitor.

(** [satisfied( authority, cached_permissions, depth )] with
    [levels = recursion_depth_limit - depth] *)
Fixpoint satisfied_at (ck : authority_checker) (levels : nat) (auth : authority K) (st : eval_state)
  : result (bool * eval_state) :=
  tally ck (match levels with O => None | S l => Some (satisfied_at ck l) end)
    (threshold auth) (used st) (meta_permissions auth) 0 st.

Definition nested_at (ck : authority_checker) (levels : nat) :=
  match levels with O => None | S l => Some (satisfied_at ck l) end.

(** [satisfied( permission, cached_perms )]; [None] is the null pointer. *)
Definition satisfied_permission (ck : authority_checker) (p : permission_level)
    (cached_perms : option permission_cache_type)
  : result (bool * authority_checker * permission_cache_type) :=
  let c := match cached_perms with Some c => c | None => initialize_permission_cache ck end in
  '(w, st) ← visit_account (nested_at ck (recursion_depth_limit ck)) 0 (mk_level_weight p 1)
               (mk_eval c (_used_keys ck));
  mret (0 <? w, set_used_keys ck (used st), cached st).

(** [satisfied( authority, cached_perms )] *)
Definition satisfied_authority (ck : authority_checker) (auth : authority K)
    (cached_perms : option permission_cache_type)
  : result (bool * authority_checker * permission_cache_type) :=
  let c := match cached_perms with Some c => c | None => initialize_permission_cache ck end in
  '(r, st) ← satisfied_at ck (recursion_depth_limit ck) auth (mk_eval c (_used_keys ck));
  mret (r, set_used_keys ck (used st), cached st).

(** The overloads with a delay of their own, which is put back afterwards. *)
Definition satisfied_permission_delay (ck : authority_checker) (p : permission_level) (delay : Z)
    (cached_perms : option permission_cache_type)
  : result (bool * authority_checker * permission_cache_type) :=
  '(r, ck', c) ← satisfied_permission (set_provided_delay ck delay) p cached_perms;
  mret (r, set_provided_delay ck' (provided_delay ck), c).
Definition satisfied_authority_delay (ck : authority_checker) (auth : authority K) (delay : Z)
    (cached_perms : option permission_cache_type)
  : result (bool * authority_checker * permission_cache_type) :=
  '(r, ck', c) ← satisfied_authority (set_provided_delay ck delay) auth cached_perms;
  mret (r, set_provided_delay ck' (provided_delay ck), c).

(** ** What it means to be authorized *)

Section authorized.
Context (ks : list K) (perms : gset permission_level) (delay : Z).

(** The permission, or every permission of the actor, was provided. *)
Definition provided_level (p : permission_level) : Prop :=
  p ∈ perms \/ mk_level (actor p) (Name.mk_name 0) ∈ perms.

(** A permission is authorized when it was provided, or when some entries of
    its authority reach the threshold, each of which is a provided key, a wait
    within the delay or an authorized permission. *)
Inductive authorized : permission_level -> Prop :=
  | by_provided p : provided_level p -> authorized p
  | by_authority p auth es :
      permission_to_authority p = Ok auth ->
      es ⊆+ entries auth ->
      threshold auth <= sum_with meta_weight es ->
      (forall q, account_entry q ∈ es -> authorized (level q)) ->
      (forall k, key_entry k ∈ es -> key k ∈ ks) ->
      (forall w, wait_entry w ∈ es -> wait_sec w * 1000000 <= delay) ->
      authorized p.

Definition entry_ok (m : meta_permission) : Prop :=
  match m with
  | account_entry q => authorized (level q)
  | key_entry k => key k ∈ ks
  | wait_entry w => wait_sec w * 1000000 <= delay
  end.

Definition authority_ok (auth : authority K) : Prop :=
  exists es, es ⊆+ entries auth /\ threshold auth <= sum_with meta_weight es /\ Forall entry_ok es.

Lemma authorized_iff p : authorized p <->
  provided_level p \/ exists auth, permission_to_authority p = Ok auth /\ authority_ok auth.
Proof.
  split.
  - intros [? ?|? auth es Hp Hs Ht Ha Hk Hw]; [by left|]. right. exists auth. split; [done|].
    exists es. split_and!; [done..|]. apply Forall_forall. intros []; [apply Ha|apply Hk|apply Hw].
  - intros [Hp|(auth & Hp & es & Hs & Ht & Hok)]; [by constructor|]. rewrite Forall_forall in Hok.
    apply (by_authority _ auth es); [done..| | |]; intros ? Hin; apply (Hok _ Hin).
Qed.

(** The checker that was made for these keys, permissions and delay. *)
Definition made_for (ck : authority_checker) : Prop :=
  provided_keys ck = ks /\ provided_delay ck = delay /\ provided_permissions ck = perms.

(** No authority is stored for an empty permission name. *)
Hypothesis no_empty_name : forall a auth,
  permission_to_authority (mk_level a (Name.mk_name 0)) <> Ok auth.

Lemma meta_permissions_perm auth : meta_permissions auth ≡ₚ entries auth.
Proof.
  unfold meta_permissions, emplace_permission.
  enough (forall l acc, foldl (fun perms m => insert_upper (fun m => - (4 * meta_weight m +
    meta_priority m)) m perms) acc l ≡ₚ acc ++ l) as Hp by apply (Hp _ []).
  induction l as [|m l IH]; intros acc; cbn [foldl]; [by rewrite app_nil_r|].
  rewrite IH, insert_upper_perm. apply Permutation_middle.
Qed.

Definition weights_ok (auth : authority K) : Prop := Forall (fun m => 0 <= meta_weight m) (entries auth).

(** ** Soundness *)

Record cache_sound (c : permission_cache_type) : Prop := {
  cs_satisfied : forall p, c !! p = Some permission_satisfied -> authorized p;
  cs_wildcard : forall a s, c !! mk_level a (Name.mk_name 0) = Some s ->
    mk_level a (Name.mk_name 0) ∈ perms;
}.

Lemma cached_authorized c p : cache_sound c ->
  permission_status_in_cache c p = Some permission_satisfied -> authorized p.
Proof.
  intros Hc. unfold permission_status_in_cache. destruct (c !! p) eqn:E.
  - intros [= ->]. by apply (cs_satisfied _ Hc).
  - intros Hw%(cs_wildcard _ Hc). constructor. by right.
Qed.

Lemma cache_sound_insert c p s auth : cache_sound c -> permission_to_authority p = Ok auth ->
  (s = permission_satisfied -> authorized p) -> cache_sound (<[p := s]> c).
Proof.
  intros [H1 H2] Hp Hs. split.
  - intros q [[-> ?]|[_ Hq]]%lookup_insert_Some; [by apply Hs|by apply H1].
  - intros a s' [[-> _]|[_ Hq]]%lookup_insert_Some; [|by eapply H2].
    by destruct (no_empty_name a auth).
Qed.

Definition eval_sound (f : authority K -> eval_state -> result (bool * eval_state)) : Prop :=
  forall auth st r st', weights_ok auth -> cache_sound (cached st) -> f auth st = Ok (r, st') ->
    cache_sound (cached st') /\ (r = true -> authority_ok auth).

Hypothesis stored_weights : forall p auth, permission_to_authority p = Ok auth -> weights_ok auth.

Lemma u32_add_le t w : 0 <= t -> 0 <= w -> 0 <= u32 (t + w) <= t + w.
Proof. intros. split; [apply u32_range|]. unfold u32. apply Z.mod_le; lia. Qed.

Lemma visit_account_sound nested t p st t' st' :
  (forall f, nested = Some f -> eval_sound f) ->
  cache_sound (cached st) -> 0 <= t -> 0 <= level_weight p ->
  visit_account nested t p st = Ok (t', st') ->
  cache_sound (cached st') /\
  (t' = t \/ (0 <= t' <= t + level_weight p /\ authorized (level p))).
Proof.
  intros Hn Hc Ht Hw Hv. unfold visit_account in Hv.
  destruct (permission_status_in_cache _ _) as [[]|] eqn:E.
  1-2: injection Hv as <- <-; auto.
  { injection Hv as <- <-. split; [done|]. right. split; [by apply u32_add_le|].
    by eapply cached_authorized. }
  destruct nested as [f|]; [|injection Hv as <- <-; auto].
  destruct (permission_to_authority (level p)) as [auth|e] eqn:Ea.
  2:{ destruct (decide _); [|done]. injection Hv as <- <-. auto. }
  apply bind_ok_inv in Hv as ([r st1] & Hf & Hv).
  apply (Hn f eq_refl) in Hf as [Hc1 Hr];
    [|by eapply stored_weights|by eapply cache_sound_insert].
  destruct r; injection Hv as <- <-; cbn [cached].
  - assert (authorized (level p)) by (apply authorized_iff; right; eauto).
    split; [by eapply cache_sound_insert|]. right. split; [by apply u32_add_le|done].
  - split; [by eapply cache_sound_insert|]. by left.
Qed.

Lemma visit_sound ck nested t m st t' st' : made_for ck ->
  (forall f, nested = Some f -> eval_sound f) ->
  cache_sound (cached st) -> 0 <= t -> 0 <= meta_weight m ->
  visit ck nested t m st = Ok (t', st') ->
  cache_sound (cached st') /\ (t' = t \/ (0 <= t' <= t + meta_weight m /\ entry_ok m)).
Proof.
  intros (Hk & Hd & _) Hn Hc Ht Hw Hv. destruct m as [p|k|w]; cbn in Hv, Hw |- *.
  - by eapply visit_account_sound.
  - unfold visit_key in Hv. destruct (list_find _ _) as [[i x]|] eqn:E.
    + apply list_find_Some in E as (Hi & -> & _). rewrite Hk in Hi. injection Hv as <- <-.
      split; [done|]. right. split; [by apply u32_add_le|]. by eapply list_elem_of_lookup_2.
    + injection Hv as <- <-. auto.
  - injection Hv as <- <-. split; [done|]. unfold visit_wait. rewrite Hd.
    destruct (_ <=? _) eqn:E; bool_to_prop; [|by left]. right. split; [by apply u32_add_le|done].
Qed.

Lemma tally_sound ck nested thr saved l es t st r st' : made_for ck ->
  (forall f, nested = Some f -> eval_sound f) ->
  Forall (fun m => 0 <= meta_weight m) l -> cache_sound (cached st) ->
  0 <= t <= sum_with meta_weight es -> Forall entry_ok es ->
  tally ck nested thr saved l t st = Ok (r, st') ->
  cache_sound (cached st') /\
  (r = true -> exists es', es' ⊆+ es ++ l /\ thr <= sum_with meta_weight es' /\ Forall entry_ok es').
Proof.
  intros Hm Hn Hl. revert es t st. induction Hl as [|m l Hw Hl IH]; intros es t st Hc Ht Hes Hr.
  { injection Hr as <- <-. done. }
  cbn [tally] in Hr. apply bind_ok_inv in Hr as ([t1 st1] & Hv & Hr).
  destruct (visit_sound _ _ _ _ _ _ _ Hm Hn Hc (proj1 Ht) Hw Hv) as [Hc1 Hcase].
  assert (exists es1, es1 ⊆+ es ++ [m] /\ 0 <= t1 <= sum_with meta_weight es1 /\ Forall entry_ok es1)
    as (es1 & Hsub & Hsum & Hok).
  { destruct Hcase as [->|[Hle Hmok]]; [exists es; split_and!; [by apply submseteq_inserts_r|lia..|done]|].
    exists (es ++ [m]). split_and!; [done|lia| |by apply Forall_app; auto].
    rewrite sum_with_app. cbn. lia. }
  destruct (thr <=? t1) eqn:E; bool_to_prop.
  - injection Hr as <- <-. split; [done|]. intros _. exists es1. split_and!; [|lia|done].
    etrans; [exact Hsub|]. apply submseteq_skips_l, submseteq_skip, submseteq_nil_l.
  - destruct (IH es1 t1 st1 Hc1 Hsum Hok Hr) as [Hc' Hex]. split; [done|]. intros Hrt.
    destruct (Hex Hrt) as (es' & Hs' & ? & ?). exists es'. split_and!; [|done..].
    etrans; [exact Hs'|]. rewrite (cons_middle m es l). rewrite app_assoc. by apply submseteq_skips_r.
Qed.

Lemma satisfied_at_sound ck levels : made_for ck -> eval_sound (satisfied_at ck levels).
Proof.
  intros Hm. induction levels as [|l IH]; intros auth st r st' Hw Hc Hs; cbn [satisfied_at] in Hs.
  all: eapply (tally_sound _ _ _ _ _ []) in Hs as [Hc' Hr]; try done.
  all: try (intros f [= <-]; exact IH).
  all: try (rewrite meta_permissions_perm; exact Hw).
  all: split; [done|]; intros Hrt; destruct (Hr Hrt) as (es & Hsub & ? & ?).
  all: exists es; split_and!; [|done..]; by rewrite meta_permissions_perm in Hsub.
Qed.

Lemma initial_cache_sound ck : made_for ck -> cache_sound (initialize_permission_cache ck).
Proof.
  intros (_ & _ & Hp). unfold initialize_permission_cache. rewrite Hp. split.
  - intros p [Hin _]%lookup_gset_to_gmap_Some. constructor. by left.
  - intros a s [Hin _]%lookup_gset_to_gmap_Some. done.
Qed.

(** ** Exactness without cycles *)

Section acyclic.
(** The levels that are looked up, whose lookup fails only because there is no
    such permission, and a rank that decreases from a permission to the
    permissions in its authority. *)
Context (looked_up : permission_level -> Prop) (rank : permission_level -> nat).
Hypothesis ranked : forall p auth q, looked_up p -> permission_to_authority p = Ok auth ->
  q ∈ accounts auth -> looked_up (level q) /\ (rank (level q) < rank p)%nat.
Hypothesis only_query_errors : forall p e, looked_up p -> permission_to_authority p = Throw e ->
  e = permission_query_exception.
Definition below (r : nat) (p : permission_level) : Prop := looked_up p /\ (rank p < r)%nat.

(** A positive threshold, and weights that do not overflow when added. *)
Definition fits (auth : authority K) : Prop :=
  0 < threshold auth /\ weights_ok auth /\ sum_with meta_weight (entries auth) < 2 ^ 32.
Hypothesis stored_fit : forall p auth, looked_up p -> permission_to_authority p = Ok auth -> fits auth.

(** The cache is right about the permissions below the rank [r]. *)
Record cache_exact (r : nat) (c : permission_cache_type) : Prop := {
  ce_sound : cache_sound c;
  ce_unsatisfied : forall p, c !! p = Some permission_unsatisfied -> ~ authorized p;
  ce_evaluated : forall p, c !! p = Some being_evaluated -> (r <= rank p)%nat;
  ce_provided : forall p, p ∈ perms -> c !! p = Some permission_satisfied;
}.

Definition same_pending (c c' : permission_cache_type) : Prop :=
  forall p, c' !! p = Some being_evaluated -> c !! p = Some being_evaluated.

Lemma status_exact r c p : cache_exact r c -> (rank p < r)%nat ->
  match permission_status_in_cache c p with
  | Some permission_satisfied => authorized p
  | Some permission_unsatisfied => ~ authorized p
  | Some being_evaluated => False
  | None => ~ provided_level p /\ c !! p = None
  end.
Proof.
  intros Hc Hr. unfold permission_status_in_cache. destruct (c !! p) as [[]|] eqn:E.
  - apply (ce_evaluated _ _ Hc) in E. lia.
  - by apply (ce_unsatisfied _ _ Hc).
  - by apply (cs_satisfied _ (ce_sound _ _ Hc)).
  - destruct (c !! mk_level _ _) as [s|] eqn:Ew.
    + apply (cs_wildcard _ (ce_sound _ _ Hc)) in Ew as Hin.
      rewrite (ce_provided _ _ Hc _ Hin) in Ew. injection Ew as <-. constructor. by right.
    + split; [|done]. intros [Hin|Hin]; apply (ce_provided _ _ Hc) in Hin; congruence.
Qed.

Lemma cache_exact_insert r c p s auth : cache_exact r c -> permission_to_authority p = Ok auth ->
  p ∉ perms -> (s = permission_satisfied -> authorized p) ->
  (s = permission_unsatisfied -> ~ authorized p) -> (s = being_evaluated -> (r <= rank p)%nat) ->
  cache_exact r (<[p := s]> c).
Proof.
  intros [H1 H2 H3 H4] Hp Hn Hs Hu Hb. split.
  - by eapply cache_sound_insert.
  - intros q [[-> ?]|[_ Hq]]%lookup_insert_Some; [by apply Hu|by apply H2].
  - intros q [[-> ?]|[_ Hq]]%lookup_insert_Some; [by apply Hb|by apply H3].
  - intros q Hq. rewrite lookup_insert_ne by (by intros ->). by apply H4.
Qed.

Lemma cache_exact_weaken r r' c : (r' <= r)%nat -> cache_exact r c -> cache_exact r' c.
Proof. intros Hle [H1 H2 H3 H4]. split; [done..| |done]. intros p Hp%H3. lia. Qed.

Definition eval_exact (r : nat) (f : authority K -> eval_state -> result (bool * eval_state)) : Prop :=
  forall auth st, fits auth -> (forall q, q ∈ accounts auth -> below r (level q)) ->
    cache_exact r (cached st) ->
    exists b st', f auth st = Ok (b, st') /\ (b = true <-> authority_ok auth) /\
      cache_exact r (cached st') /\ same_pending (cached st) (cached st').

(** One entry: its weight is added exactly when it is met. *)
Definition entry_exact (r : nat) (t : Z) (m : meta_permission) (st : eval_state)
    (v : result (Z * eval_state)) : Prop :=
  exists t' st', v = Ok (t', st') /\ cache_exact r (cached st') /\
    same_pending (cached st) (cached st') /\
    ((t' = t /\ ~ entry_ok m) \/ (t' = t + meta_weight m /\ entry_ok m)).

Lemma nested_exact r f p auth st : permission_to_authority p = Ok auth -> below r p ->
  eval_exact (rank p) f -> cache_exact r (cached st) -> p ∉ perms -> cached st !! p = None ->
  exists b st', f auth (mk_eval (<[p := being_evaluated]> (cached st)) (used st)) = Ok (b, st') /\
    (b = true <-> authority_ok auth) /\
    (forall q, q <> p -> cached st' !! q = Some being_evaluated ->
       cached st !! q = Some being_evaluated) /\
    cache_exact (rank p) (cached st').
Proof.
  intros Ea [Hg Hr] Hf Hc Hnp Hnone.
  destruct (Hf auth (mk_eval (<[p := being_evaluated]> (cached st)) (used st)))
    as (b & st' & Hok & Hb & Hc' & Hsame).
  - by eapply stored_fit.
  - intros q Hq. by eapply ranked.
  - eapply cache_exact_insert; [|exact Ea|done..].
    eapply cache_exact_weaken; [|exact Hc]. lia.
  - exists b, st'. split_and!; [done..| |done].
    intros q Hq Hbe%Hsame. cbn [cached] in Hbe. by rewrite lookup_insert_ne in Hbe.
Qed.

(** The final status of a permission goes into the cache. *)
Lemma cache_exact_settle r p auth c c' s : permission_to_authority p = Ok auth -> p ∉ perms ->
  cache_exact r c -> cache_exact (rank p) c' ->
  (forall q, q <> p -> c' !! q = Some being_evaluated -> c !! q = Some being_evaluated) ->
  (s = permission_satisfied -> authorized p) -> (s = permission_unsatisfied -> ~ authorized p) ->
  s <> being_evaluated ->
  cache_exact r (<[p := s]> c') /\ same_pending c (<[p := s]> c').
Proof.
  intros Ea Hout Hc Hce Hpend H1 H2 H3. split.
  - split; [by eapply cache_sound_insert; [apply Hce|..]| | |].
    + intros q [[-> ?]|[_ Hq]]%lookup_insert_Some; [by apply H2|by apply (ce_unsatisfied _ _ Hce)].
    + intros q [[-> ?]|[Hne Hq]]%lookup_insert_Some; [done|].
      by apply (ce_evaluated _ _ Hc), Hpend.
    + intros q Hq. rewrite lookup_insert_ne by (by intros <-). by apply (ce_provided _ _ Hce).
  - intros q [[-> ?]|[Hne Hq]]%lookup_insert_Some; [done|]. by apply Hpend.
Qed.

Lemma visit_account_exact r levels ck t p st :
  (forall l r', levels = S l -> (r' <= l)%nat -> eval_exact r' (satisfied_at ck l)) ->
  cache_exact r (cached st) -> below r (level p) -> (r <= levels)%nat ->
  0 <= t -> 0 <= level_weight p -> t + level_weight p < 2 ^ 32 ->
  entry_exact r t (account_entry p) st (visit_account (nested_at ck levels) t p st).
Proof.
  intros Hn Hc [Hg Hr] Hl Ht Hw Hb. unfold visit_account.
  pose proof (status_exact _ _ _ Hc Hr) as Hs.
  destruct (permission_status_in_cache _ _) as [[]|]; [done| | |].
  { exists t, st. split_and!; [done..|by intros ?|]. by left. }
  { exists (t + level_weight p), st. rewrite u32_small by lia. split_and!; [done..|by intros ?|]. by right. }
  destruct Hs as [Hnp Hnone]. destruct levels as [|l]; [lia|]. cbn [nested_at].
  destruct (permission_to_authority (level p)) as [auth|e] eqn:Ea.
  2:{ rewrite decide_True by (by eapply only_query_errors). exists t, st.
      split_and!; [done..|by intros ?|]. left. split; [done|]. cbn [entry_ok].
      intros [?|(auth & ? & _)]%authorized_iff; [done|congruence]. }
  assert (level p ∉ perms) as Hout by (intros ?; apply Hnp; by left).
  destruct (nested_exact r (satisfied_at ck l) (level p) auth st) as (b & st' & -> & Hbok & Hpend & Hce);
    [done|done|apply Hn; [done|lia]|done|done|done|]. cbn [mbind result_bind].
  assert (b = true <-> authorized (level p)) as Hauth.
  { rewrite Hbok, authorized_iff. split; [eauto|]. intros [?|(a' & Ha' & ?)]; [done|]. congruence. }
  pose proof (cache_exact_settle r (level p) auth (cached st) (cached st')) as Hins.
  destruct b.
  - destruct (Hins permission_satisfied) as [H1 H2]; [done|done|done|done|done|intros _; by apply Hauth|done|done|].
    do 2 eexists. split; [reflexivity|]. split_and!; [done..|]. right.
    rewrite u32_small by lia. split; [done|]. by apply Hauth.
  - destruct (Hins permission_unsatisfied) as [H1 H2];
      [done|done|done|done|done|done|intros _ Ha; by apply Hauth in Ha|done|].
    do 2 eexists. split; [reflexivity|]. split_and!; [done..|]. left.
    split; [done|]. cbn. intros Ha. by apply Hauth in Ha.
Qed.

Lemma visit_exact r levels ck t m st : made_for ck ->
  (forall l r', levels = S l -> (r' <= l)%nat -> eval_exact r' (satisfied_at ck l)) ->
  cache_exact r (cached st) -> (forall q, m = account_entry q -> below r (level q)) ->
  (r <= levels)%nat -> 0 <= t -> 0 <= meta_weight m -> t + meta_weight m < 2 ^ 32 ->
  entry_exact r t m st (visit ck (nested_at ck levels) t m st).
Proof.
  intros (Hk & Hd & _) Hn Hc Hr Hl Ht Hw Hb. destruct m as [p|k|w]; cbn [visit].
  - apply visit_account_exact; auto.
  - unfold visit_key. rewrite Hk. destruct (list_find _ _) as [[i x]|] eqn:E.
    + apply list_find_Some in E as (Hi & -> & _). do 2 eexists. split; [reflexivity|].
      split_and!; [done|by intros ?|]. right. rewrite u32_small by (cbn in *; lia).
      split; [done|]. by eapply list_elem_of_lookup_2.
    + apply list_find_None in E. do 2 eexists. split; [reflexivity|].
      split_and!; [done|by intros ?|]. left. split; [done|]. cbn. intros Hin.
      rewrite Forall_forall in E. by apply (E _ Hin).
  - unfold visit_wait. rewrite Hd. do 2 eexists. split; [reflexivity|].
    split_and!; [done|by intros ?|].
    destruct (_ <=? _) eqn:E; bool_to_prop; [right|left]; (split; [|cbn; lia]); [|done].
    rewrite u32_small by (cbn in *; lia). done.
Qed.

(** Met entries that reach the threshold together with what was counted. *)
Definition reaches (thr t : Z) (l : list meta_permission) : Prop :=
  exists es, es ⊆+ l /\ Forall entry_ok es /\ thr <= t + sum_with meta_weight es.

Lemma reaches_skip thr t m l : ~ entry_ok m -> reaches thr t (m :: l) <-> reaches thr t l.
Proof.
  intros Hm. split; intros (es & Hs & Hok & Hle).
  - apply submseteq_cons_r in Hs as [Hs|(es' & Hp & Hs)]; [by exists es|].
    rewrite Hp in Hok. by apply Forall_cons in Hok as [? _].
  - exists es. split; [by apply submseteq_cons|done].
Qed.

Lemma reaches_take thr t m l : entry_ok m -> 0 <= meta_weight m ->
  reaches thr t (m :: l) <-> reaches thr (t + meta_weight m) l.
Proof.
  intros Hm Hw. split; intros (es & Hs & Hok & Hle).
  - apply submseteq_cons_r in Hs as [Hs|(es' & Hp & Hs)]; [exists es; split_and!; [done..|lia]|].
    rewrite Hp in Hok, Hle. apply Forall_cons in Hok as [_ Hok]. exists es'.
    split_and!; [done..|]. unfold sum_with in *. cbn [foldr] in Hle. lia.
  - exists (m :: es). split_and!; [by apply submseteq_skip|by constructor|].
    unfold sum_with in *. cbn [foldr]. lia.
Qed.

Lemma sum_weights_nonneg l : Forall (fun m => 0 <= meta_weight m) l -> 0 <= sum_with meta_weight l.
Proof. induction 1; cbn; [lia|]. unfold sum_with in *. lia. Qed.

Lemma tally_exact r levels ck thr saved l t st : made_for ck ->
  (forall l r', levels = S l -> (r' <= l)%nat -> eval_exact r' (satisfied_at ck l)) ->
  (r <= levels)%nat -> Forall (fun m => 0 <= meta_weight m) l ->
  (forall q, account_entry q ∈ l -> below r (level q)) ->
  cache_exact r (cached st) -> 0 <= t < thr -> t + sum_with meta_weight l < 2 ^ 32 ->
  exists b st', tally ck (nested_at ck levels) thr saved l t st = Ok (b, st') /\
    (b = true <-> reaches thr t l) /\
    cache_exact r (cached st') /\ same_pending (cached st) (cached st').
Proof.
  intros Hm Hn Hl Hw. revert t st. induction Hw as [|m l Hwm Hw IH]; intros t st Hr Hc Ht Hb.
  { do 2 eexists. split; [reflexivity|]. split_and!; [|done|by intros ?]. split; [done|].
    intros (es & ->%submseteq_nil_r & _ & Hle). cbn in Hle. lia. }
  pose proof (sum_weights_nonneg _ Hw) as Hnn. unfold sum_with in Hb. cbn [foldr] in Hb.
  fold (sum_with meta_weight l) in Hb. cbn [tally].
  destruct (visit_exact r levels ck t m st) as (t1 & st1 & -> & Hc1 & Hsame & Hcase);
    [done|done|done| |done|lia|lia|lia|].
  { intros q ->. apply Hr. left. }
  cbn [mbind result_bind].
  assert (forall q, account_entry q ∈ l -> below r (level q)) as Hr' by (intros; apply Hr; by right).
  destruct Hcase as [[-> Hno]|[-> Hyes]].
  - replace (thr <=? t) with false by lia.
    destruct (IH t st1) as (b & st' & -> & Hiff & Hc' & Hs'); [done..|lia|].
    exists b, st'. split_and!; [done|by rewrite reaches_skip|done|]. intros p Hp%Hs'. by apply Hsame.
  - pose proof (reaches_take thr t m l Hyes Hwm) as Htake.
    destruct (thr <=? t + meta_weight m) eqn:E; bool_to_prop.
    + exists true, st1. split_and!; [done| |done..]. rewrite Htake. split; [intros _|done].
      exists []. split_and!; [apply submseteq_nil_l|done|cbn; lia].
    + destruct (IH (t + meta_weight m) st1) as (b & st' & -> & Hiff & Hc' & Hs'); [done|done|lia|lia|].
      exists b, st'. split_and!; [done|by rewrite Htake|done|]. intros p Hp%Hs'. by apply Hsame.
Qed.

Lemma satisfied_at_unfold ck levels auth st : satisfied_at ck levels auth st =
  tally ck (nested_at ck levels) (threshold auth) (used st) (meta_permissions auth) 0 st.
Proof. by destruct levels. Qed.

Lemma satisfied_at_exact ck levels r : made_for ck -> (r <= levels)%nat ->
  eval_exact r (satisfied_at ck levels).
Proof.
  clear stored_weights. intros Hm. revert r. induction levels as [levels IH] using lt_wf_ind.
  intros r Hr auth st (Hth & Hw & Hs) Hrank Hc. rewrite satisfied_at_unfold.
  destruct (tally_exact r levels ck (threshold auth) (used st) (meta_permissions auth) 0 st)
    as (b & st' & Hok & Hb & Hc' & Hsame);
    rewrite ?meta_permissions_perm; try done; try lia.
  { intros l r' -> Hr'. apply IH; [lia|done]. }
  { intros q Hq. apply Hrank. rewrite meta_permissions_perm in Hq. unfold entries in Hq. set_solver. }
  exists b, st'. split_and!; [exact Hok| |done..]. rewrite Hb. unfold reaches, authority_ok.
  setoid_rewrite meta_permissions_perm. naive_solver.
Qed.

Lemma initial_cache_exact ck r : made_for ck -> cache_exact r (initialize_permission_cache ck).
Proof.
  intros Hm. split; [by apply initial_cache_sound|..]; destruct Hm as (_ & _ & Hp);
    unfold initialize_permission_cache; rewrite Hp.
  - by intros p [_ ?]%lookup_gset_to_gmap_Some.
  - by intros p [_ ?]%lookup_gset_to_gmap_Some.
  - intros p Hin. by apply lookup_gset_to_gmap_Some.
Qed.

End acyclic.
End authorized.

(** A longer delay authorizes no less. *)
Lemma authorized_mono ks perms delay delay' p : delay <= delay' ->
  authorized ks perms delay p -> authorized ks perms delay' p.
Proof.
  intros Hle. induction 1 as [|p auth es Hp Hs Ht Ha IH Hk Hw]; [by constructor|].
  apply (by_authority _ _ _ _ auth es); [done..|]. intros w Hin. specialize (Hw w Hin). lia.
Qed.

(** ** The checker returns *)

Section total.
(** Levels whose lookup fails only because there is no such permission, closed
    under the permissions in the authorities. *)
Context (good : permission_level -> Prop).
Hypothesis good_errors : forall p e, good p -> permission_to_authority p = Throw e ->
  e = permission_query_exception.
Hypothesis good_closed : forall p auth, good p -> permission_to_authority p = Ok auth ->
  Forall (fun q => good (level q)) (accounts auth).

Definition entry_good (m : meta_permission) : Prop :=
  match m with account_entry q => good (level q) | _ => True end.

Definition eval_total (f : authority K -> eval_state -> result (bool * eval_state)) : Prop :=
  forall auth st, Forall (fun q => good (level q)) (accounts auth) -> is_Ok (f auth st).

Lemma visit_account_total nested t p st : (forall f, nested = Some f -> eval_total f) ->
  good (level p) -> is_Ok (visit_account nested t p st).
Proof.
  intros Hn Hp. unfold visit_account.
  destruct (permission_status_in_cache _ _) as [[]|]; try (eexists; reflexivity).
  destruct nested as [f|]; [|eexists; reflexivity].
  destruct (permission_to_authority (level p)) as [auth|e] eqn:E.
  - destruct (Hn f eq_refl auth (mk_eval (<[level p := being_evaluated]> (cached st)) (used st)))
      as [[r st1] ->]; [by eapply good_closed|]. cbn. destruct r; eexists; reflexivity.
  - rewrite decide_True by (by eapply good_errors). eexists. reflexivity.
Qed.

Lemma tally_total ck nested thr saved l t st : (forall f, nested = Some f -> eval_total f) ->
  Forall entry_good l -> is_Ok (tally ck nested thr saved l t st).
Proof.
  intros Hn Hl. revert t st. induction Hl as [|m l Hm Hl IH]; intros t st; [eexists; reflexivity|].
  cbn [tally]. assert (is_Ok (visit ck nested t m st)) as [[t1 st1] ->].
  { destruct m; cbn; [by apply visit_account_total|eexists; reflexivity..]. }
  cbn. destruct (thr <=? t1); [eexists; reflexivity|apply IH].
Qed.

Lemma satisfied_at_total ck levels : eval_total (satisfied_at ck levels).
Proof.
  induction levels as [|l IH]; intros auth st Ha; cbn [satisfied_at]; apply tally_total.
  1, 3: by intros f [= <-].
  all: rewrite meta_permissions_perm; unfold entries; rewrite !Forall_app, !Forall_fmap.
  all: split_and!; [exact Ha|apply Forall_true; done..].
Qed.

Lemma satisfied_permission_total ck p c : good p -> is_Ok (satisfied_permission ck p c).
Proof.
  intros Hp. unfold satisfied_permission.
  destruct (visit_account_total (nested_at ck (recursion_depth_limit ck)) 0 (mk_level_weight p 1)
    (mk_eval (match c with Some c => c | None => initialize_permission_cache ck end) (_used_keys ck)))
    as [[w st] ->]; [|done|eexists; reflexivity].
  intros f Hf. unfold nested_at in Hf. destruct (recursion_depth_limit ck); [done|].
  injection Hf as <-. apply satisfied_at_total.
Qed.
End total.

End checker.
Arguments authority_checker : clear implicits.

Lemma satisfied_permission_sound {K : Type} `{EqDecision K} pta (ck : authority_checker K) p ck' c :
  (forall a auth, pta (mk_level a (Name.mk_name 0)) <> Ok auth) ->
  (forall q auth, pta q = Ok auth -> weights_ok auth) ->
  satisfied_permission pta ck p None = Ok (true, ck', c) ->
  authorized pta (provided_keys ck) (provided_permissions ck) (provided_delay ck) p.
Proof.
  intros Hne Hw Hs. unfold satisfied_permission in Hs.
  apply bind_ok_inv in Hs as ([w st] & Hv & Hs). injection Hs as Hpos <- <-. bool_to_prop.
  assert (made_for (provided_keys ck) (provided_permissions ck) (provided_delay ck) ck) as Hm by done.
  eapply visit_account_sound in Hv as [_ [->|[_ Ha]]]; try done.
  - intros f Hf. unfold nested_at in Hf. destruct (recursion_depth_limit ck); [done|].
    injection Hf as <-. by apply satisfied_at_sound.
  - by apply initial_cache_sound.
Qed.

(** The checker is sound for any graph of permissions, cycles included:
    when it says that a permission is satisfied, there is a finite derivation
    from the provided keys, permissions and delay. *)
Theorem checker_sound {K : Type} `{EqDecision K} pta (ck : authority_checker K) p ck' c :
  (forall a auth, pta (mk_level a (Name.mk_name 0)) <> Ok auth) ->
  (forall q auth, pta q = Ok auth -> weights_ok auth) ->
  satisfied_permission pta ck p None = Ok (true, ck', c) ->
  authorized pta (provided_keys ck) (provided_permissions ck) (provided_delay ck) p.
Proof. apply satisfied_permission_sound. Qed.

Lemma satisfied_permission_exact {K : Type} `{EqDecision K} pta (ck : authority_checker K) p
    (looked_up : permission_level -> Prop) (rank : permission_level -> nat) :
  (forall a auth, pta (mk_level a (Name.mk_name 0)) <> Ok auth) ->
  (forall q auth a, looked_up q -> pta q = Ok auth -> a ∈ accounts auth ->
     looked_up (level a) /\ (rank (level a) < rank q)%nat) ->
  (forall q e, looked_up q -> pta q = Throw e -> e = permission_query_exception) ->
  (forall q auth, looked_up q -> pta q = Ok auth -> fits auth) ->
  looked_up p -> (rank p < recursion_depth_limit ck)%nat ->
  exists b ck' c, satisfied_permission pta ck p None = Ok (b, ck', c) /\
    (b = true <-> authorized pta (provided_keys ck) (provided_permissions ck) (provided_delay ck) p).
Proof.
  intros Hne Hrank Herr Hfit Hp Hlim. unfold satisfied_permission.
  assert (made_for (provided_keys ck) (provided_permissions ck) (provided_delay ck) ck) as Hm by done.
  destruct (visit_account_exact pta (provided_keys ck) (provided_permissions ck) (provided_delay ck)
    Hne looked_up rank Hrank Herr Hfit (recursion_depth_limit ck) (recursion_depth_limit ck) ck 0
    (mk_level_weight p 1) (mk_eval (initialize_permission_cache ck) (_used_keys ck)))
    as (t & st & -> & _ & _ & Hcase); cbn [level level_weight]; try lia; try done.
  - intros l r' _ Hr'. eapply satisfied_at_exact; eassumption.
  - by apply initial_cache_exact.
  - cbn [mbind result_bind]. do 3 eexists. split; [reflexivity|].
    destruct Hcase as [[-> Hno]|[-> Hyes]]; [split; [done|intros; by destruct Hno]|].
    split; [intros _; exact Hyes|intros _; reflexivity].
Qed.

(** C36: when no permission depends on itself and the depth limit is above
    the longest chain of permissions, the checker always returns, and it says
    that a permission is satisfied exactly when it is authorized: the cache,
    the order of evaluation and the early exit change nothing.  The rank of a
    permission bounds the length of the chains below it.  [looked_up] contains
    the permission and with each permission those in its authority, and for
    these the lookup fails only with the exception for a permission that does
    not exist ([get_permission] throws another one for an empty name), and finds
    authorities with a positive threshold whose weights add up to less than
    2^32 (as [validate] demands); the lookup finds nothing for an empty permission name. *)
Theorem checker_exact {K : Type} `{EqDecision K} pta (ck : authority_checker K) p
    (looked_up : permission_level -> Prop) (rank : permission_level -> nat) :
  (forall a auth, pta (mk_level a (Name.mk_name 0)) <> Ok auth) ->
  (forall q auth a, looked_up q -> pta q = Ok auth -> a ∈ accounts auth ->
     looked_up (level a) /\ (rank (level a) < rank q)%nat) ->
  (forall q e, looked_up q -> pta q = Throw e -> e = permission_query_exception) ->
  (forall q auth, looked_up q -> pta q = Ok auth -> fits auth) ->
  looked_up p -> (rank p < recursion_depth_limit ck)%nat ->
  exists b ck' c, satisfied_permission pta ck p None = Ok (b, ck', c) /\
    (b = true <-> authorized pta (provided_keys ck) (provided_permissions ck) (provided_delay ck) p).
Proof. apply satisfied_permission_exact. Qed.

(** ** Examples *)

Definition ex_level (n : Z) : permission_level := mk_level (Name.mk_name n) (Name.mk_name 1).
Definition ex_key (k : Z) : key_weight Z := ProducerSchedule.mk_key_weight k 1.
Definition ex_nonempty (p : permission_level) : bool :=
  negb (Name.value (actor p) =? 0) && negb (Name.value (permission p) =? 0).
(** Permission 1 accepts permission 2 with the key 200, or permission 3;
    permission 2 needs permission 3 and the key 200; permission 3 needs the
    key 100. *)
Definition ex_auth (p : permission_level) : result (authority Z) :=
  if decide (p = ex_level 1)
  then Ok (mk_authority 1 [] [mk_level_weight (ex_level 2) 2; mk_level_weight (ex_level 3) 1] [])
  else if decide (p = ex_level 2)
  then Ok (mk_authority 2 [ex_key 200] [mk_level_weight (ex_level 3) 1] [])
  else if decide (p = ex_level 3) then Ok (mk_authority 1 [ex_key 100] [] [])
  else Throw (if ex_nonempty p then permission_query_exception else invalid_permission).

Definition ex_rank (p : permission_level) : nat := Z.to_nat (5 - Name.value (actor p)).

(** The three permissions that have an authority. *)
Lemma ex_auth_ok p auth : ex_auth p = Ok auth ->
  exists n, n ∈ [1; 2; 3] /\ p = ex_level n /\ ex_auth (ex_level n) = Ok auth.
Proof.
  intros Hp. unfold ex_auth in Hp. repeat destruct (decide _); simplify_eq.
  - exists 1. split_and!; [set_solver|done..].
  - exists 2. split_and!; [set_solver|done..].
  - exists 3. split_and!; [set_solver|done..].
Qed.

Ltac ex_cases H :=
  apply ex_auth_ok in H as (? & Hin & -> & H);
  repeat (apply elem_of_cons in Hin as [->|Hin]); [..|by apply elem_of_nil in Hin];
  vm_compute in H; injection H as <-.

Lemma ex_no_empty a auth : ex_auth (mk_level a (Name.mk_name 0)) <> Ok auth.
Proof. intros (n & _ & Hl & _)%ex_auth_ok. discriminate. Qed.

Lemma ex_fits q auth : ex_auth q = Ok auth -> fits auth.
Proof.
  intros Ha. ex_cases Ha; (split_and!; [cbn; lia| |cbn; lia]); repeat constructor; cbn; lia.
Qed.

Lemma ex_ranked q auth a : ex_nonempty q = true -> ex_auth q = Ok auth -> a ∈ accounts auth ->
  ex_nonempty (level a) = true /\ (ex_rank (level a) < ex_rank q)%nat.
Proof.
  intros _ Ha Hin'. ex_cases Ha; cbn in Hin';
    repeat (apply elem_of_cons in Hin' as [->|Hin']); try (by apply elem_of_nil in Hin');
    (split; [reflexivity|vm_compute; lia]).
Qed.

Lemma ex_errors q e : ex_nonempty q = true -> ex_auth q = Throw e -> e = permission_query_exception.
Proof. intros Hq He. unfold ex_auth in He. rewrite Hq in He. repeat destruct (decide _); congruence. Qed.

Definition ex_checker (keys : list Z) : authority_checker Z := make_auth_checker 6 keys ∅ 0.

Definition verdict {A B} (r : result (bool * A * B)) : option bool :=
  match r with Ok (b, _, _) => Some b | Throw _ => None end.

Lemma checker_sound_witness : authorized ex_auth [100] ∅ 0 (ex_level 1).
Proof.
  eapply (checker_sound ex_auth (ex_checker [100]) (ex_level 1)).
  - apply ex_no_empty.
  - intros q auth Ha. by apply ex_fits in Ha as (_ & ? & _).
  - vm_compute. reflexivity.
Defined.

Lemma checker_exact_witness : ~ authorized ex_auth [200] ∅ 0 (ex_level 1).
Proof.
  destruct (checker_exact ex_auth (ex_checker [200]) (ex_level 1) (fun p => ex_nonempty p = true) ex_rank)
    as (b & ck' & c & Hs & Hb).
  - apply ex_no_empty.
  - apply ex_ranked.
  - apply ex_errors.
  - intros q auth _. apply ex_fits.
  - reflexivity.
  - vm_compute. lia.
  - apply (f_equal verdict) in Hs. vm_compute in Hs. injection Hs as <-. intros Ha. by apply Hb in Ha.
Defined.

(** The record of the used keys can miss a key.  The used keys are put
    back when an authority fails, but a permission inside it that was
    satisfied stays in the cache, and is later counted without its keys.
    Here the key 100 is needed to satisfy the permission 1, and is reported
    as unused. *)
Theorem used_keys_forgotten :
  exists ck c, satisfied_permission ex_auth (ex_checker [100]) (ex_level 1) None = Ok (true, ck, c) /\
    unused_keys ck = [100] /\ all_keys_used ck = false /\
    ~ authorized ex_auth [] ∅ 0 (ex_level 1).
Proof.
  do 2 eexists. split; [vm_compute; reflexivity|]. split_and!; [vm_compute; reflexivity..|].
  destruct (satisfied_permission_exact ex_auth (ex_checker []) (ex_level 1) (fun p => ex_nonempty p = true) ex_rank)
    as (b & ck' & c & Hs & Hb);
    [apply ex_no_empty|apply ex_ranked|apply ex_errors|intros q auth _; apply ex_fits|reflexivity|vm_compute; lia|].
  apply (f_equal verdict) in Hs. vm_compute in Hs. injection Hs as <-. intros Ha. by apply Hb in Ha.
Qed.

End AuthorityChecker.
