(* ===== verification/AuthorizationManager.v ===== *)
(** * Permissions: libraries/chain/authorization_manager.cpp,
      permission_object.hpp and permission_link_object.hpp

    Module [AuthorizationManager] has the tables of accounts, permissions,
    permission usages and links, the operations of the authorization manager
    on them, the test of one permission against another in the tree of
    permissions, and the check of the authorizations of a transaction.

    The tables are chainbase indices; an operation that throws is rolled back
    by the undo session of the transaction, so the operations return a
    [result] of the new tables.  The global configuration and the protocol
    features that the code reads through the controller are the record
    [control].  Action data is unpacked by fc: the unpacking functions are
    parameters, and so are public keys.  The deadline callback [checktime] is
    left out: the model describes the runs in which it does not throw. *)

From S2P Require Import Prelude Names ProducerSchedule Authority AuthorityChecker ResourceLimits.
Import Authority AuthorityChecker.

Module AuthorizationManager.
Abbreviation action_name := Name.name.
Abbreviation no_name := (Name.mk_name 0).

(** Names of the configuration; [N "..."] is the literal ["..."_n]. *)
Definition N (s : string) : Name.name := Name.mk_name (Name.string_to_uint64_t (chars s)).
Definition system_account_name : account_name := Eval vm_compute in N "eosio".
Definition active_name : permission_name := Eval vm_compute in N "active".
Definition owner_name : permission_name := Eval vm_compute in N "owner".
Definition eosio_any_name : permission_name := Eval vm_compute in N "eosio.any".
Definition eosio_code_name : permission_name := Eval vm_compute in N "eosio.code".
Definition updateauth_name : action_name := Eval vm_compute in N "updateauth".
Definition deleteauth_name : action_name := Eval vm_compute in N "deleteauth".
Definition linkauth_name : action_name := Eval vm_compute in N "linkauth".
Definition unlinkauth_name : action_name := Eval vm_compute in N "unlinkauth".
Definition canceldelay_name : action_name := Eval vm_compute in N "canceldelay".

Section manager.
Context {K Bytes : Type} `{Countable K}.
(** [public_key_type::which] *)
Context (which : K -> Z).

(** ** Tables *)

Record permission_object := mk_permission {
  id : Z;
  usage_id : Z;
  parent : Z;
  owner : account_name;
  name : permission_name;
  last_updated : Z;
  auth : authority K;
}.

(** A delayed transaction: its id and sender, and the authorizations of each
    action of the packed transaction. *)
Record generated_transaction := mk_generated {
  trx_id : Z;
  sender : account_name;
  delay_until : Z;
  published : Z;
  action_auths : list (list permission_level);
}.

Record database := mk_database {
  (** the accounts, each with its privileged flag *)
  account_index : gmap account_name bool;
  permission_index : gmap Z permission_object;
  next_permission : Z;
  permission_usage_index : gmap Z Z;
  next_usage : Z;
  (** the links by account, code and message type *)
  permission_link_index : gmap (account_name * account_name * action_name) permission_name;
  generated_index : gmap Z generated_transaction;
  resources : ResourceLimits.manager;
  (** [_account_ram_deltas] of the action, and [validate_ram_usage] of the
      transaction *)
  account_ram_deltas : gmap account_name Z;
  validate_ram_usage : gset account_name;
}.

Definition set_permissions (db : database) p n : database :=
  mk_database (account_index db) p n (permission_usage_index db) (next_usage db)
    (permission_link_index db) (generated_index db) (resources db)
    (account_ram_deltas db) (validate_ram_usage db).
Definition set_usages (db : database) u n : database :=
  mk_database (account_index db) (permission_index db) (next_permission db) u n
    (permission_link_index db) (generated_index db) (resources db)
    (account_ram_deltas db) (validate_ram_usage db).
Definition set_links (db : database) l : database :=
  mk_database (account_index db) (permission_index db) (next_permission db)
    (permission_usage_index db) (next_usage db) l (generated_index db) (resources db)
    (account_ram_deltas db) (validate_ram_usage db).
Definition set_accounts (db : database) a : database :=
  mk_database a (permission_index db) (next_permission db)
    (permission_usage_index db) (next_usage db) (permission_link_index db) (generated_index db)
    (resources db) (account_ram_deltas db) (validate_ram_usage db).
Definition set_ram (db : database) r d v : database :=
  mk_database (account_index db) (permission_index db) (next_permission db)
    (permission_usage_index db) (next_usage db) (permission_link_index db) (generated_index db) r d v.
Definition set_resources (db : database) r : database :=
  set_ram db r (account_ram_deltas db) (validate_ram_usage db).

(** What the code reads through the controller. *)
Record control := mk_control {
  pending_block_time : Z;
  max_transaction_delay : Z;
  max_authority_depth : Z;
  num_supported_key_types : Z;
  fix_linkauth_restriction : bool;
  only_link_to_existing_permission : bool;
  (** [trx_context.enforce_whiteblacklist && control.is_producing_block()] *)
  enforce_key_list : bool;
  key_blacklist : gset K;
}.

(** [initialize_database]: the permission with id 0 is reserved. *)
Definition empty_authority : authority K := mk_authority 0 [] [] [].
Definition reserved_permission : permission_object :=
  mk_permission 0 0 0 no_name no_name 0 empty_authority.
Definition initialize_database : database :=
  mk_database ∅ {[ 0 := reserved_permission ]} 1 ∅ 0 ∅ ∅ ResourceLimits.initialize_database ∅ ∅.

(** ** Lookups *)

(** The unique index by owner and name. *)
Definition find_by_owner (db : database) (o : account_name) (n : permission_name)
  : option permission_object :=
  snd <$> (snd <$> list_find (fun e => owner e.2 = o /\ name e.2 = n)
                     (map_to_list (permission_index db))).

(** The index by name: is there a permission of this name? *)
Definition exists_by_name (db : database) (n : permission_name) : bool :=
  existsb (fun e => bool_decide (name e.2 = n)) (map_to_list (permission_index db)).

Definition valid_level (level : permission_level) : bool :=
  negb (Name.empty (actor level)) && negb (Name.empty (permission level)).

Definition find_permission (db : database) (level : permission_level)
  : result (option permission_object) :=
  EOS_ASSERT (valid_level level) invalid_permission;;
  mret (find_by_owner db (actor level) (permission level)).

Definition get_permission (db : database) (level : permission_level) : result permission_object :=
  EOS_ASSERT (valid_level level) invalid_permission;;
  match find_by_owner db (actor level) (permission level) with
  | Some p => mret p
  | None => Throw permission_query_exception
  end.

Definition lookup_linked_permission (db : database) (authorizer_account scope : account_name)
    (act_name : action_name) : option permission_name :=
  match permission_link_index db !! (authorizer_account, scope, act_name) with
  | Some p => Some p
  | None => permission_link_index db !! (authorizer_account, scope, no_name)
  end.

(** The native actions that cannot be linked. *)
Definition unlinkable (n : action_name) : bool :=
  bool_decide (n ∈ [updateauth_name; deleteauth_name; linkauth_name; unlinkauth_name;
                    canceldelay_name]).

Definition lookup_minimum_permission (db : database) (authorizer_account scope : account_name)
    (act_name : action_name) : result (option permission_name) :=
  (if bool_decide (scope = system_account_name)
   then EOS_ASSERT (negb (unlinkable act_name)) unlinkable_min_permission_action
   else mret tt);;
  match lookup_linked_permission db authorizer_account scope act_name with
  | None => mret (Some active_name)
  | Some p => if bool_decide (p = eosio_any_name) then mret None else mret (Some p)
  end.

(** ** Changes *)

Definition check_key_types (c : control) (a : authority K) : result unit :=
  EOS_ASSERT (forallb (fun k => which (key k) <? num_supported_key_types c) (keys a))
    unactivated_key_type.

Definition create_permission (c : control) (db : database) (account : account_name)
    (n : permission_name) (parent : Z) (a : authority K) (initial_creation_time : Z)
  : result (permission_object * database) :=
  check_key_types c a;;
  let creation_time :=
    if initial_creation_time =? 0 then pending_block_time c else initial_creation_time in
  let uid := next_usage db in
  let db := set_usages db (<[uid := creation_time]> (permission_usage_index db)) (uid + 1) in
  match find_by_owner db account n with
  | Some _ => Throw uniqueness_violation
  | None =>
      let pid := next_permission db in
      let p := mk_permission pid uid parent account n creation_time a in
      mret (p, set_permissions db (<[pid := p]> (permission_index db)) (pid + 1))
  end.

(** The permission is given by its object. *)
Definition modify_permission (c : control) (db : database) (p : permission_object)
    (a : authority K) : result (permission_object * database) :=
  check_key_types c a;;
  let p' := mk_permission (id p) (usage_id p) (parent p) (owner p) (name p)
              (pending_block_time c) a in
  mret (p', set_permissions db (<[id p := p']> (permission_index db)) (next_permission db)).

Definition remove_permission (db : database) (p : permission_object) : result database :=
  EOS_ASSERT (negb (existsb (fun e => bool_decide (parent e.2 = id p))
                     (map_to_list (permission_index db)))) action_validate_exception;;
  match permission_usage_index db !! usage_id p with
  | None => Throw not_found_exception
  | Some _ =>
      let db := set_usages db (delete (usage_id p) (permission_usage_index db)) (next_usage db) in
      mret (set_permissions db (delete (id p) (permission_index db)) (next_permission db))
  end.

Definition update_permission_usage (c : control) (db : database) (p : permission_object)
  : result database :=
  match permission_usage_index db !! usage_id p with
  | None => Throw not_found_exception
  | Some _ =>
      mret (set_usages db (<[usage_id p := pending_block_time c]> (permission_usage_index db))
              (next_usage db))
  end.

Definition get_permission_last_used (db : database) (p : permission_object) : result Z :=
  match permission_usage_index db !! usage_id p with
  | None => Throw not_found_exception
  | Some t => mret t
  end.

(** ** The tree of permissions *)

(** The [while] loop of [satisfies].  A parent that does not exist is
    undefined behaviour in C++; so is, here, a walk longer than the fuel. *)
Fixpoint satisfies_loop (fuel : nat) (index : gmap Z permission_object) (self : Z)
    (p : permission_object) : result bool :=
  match fuel with
  | O => Throw undefined_behaviour
  | S fuel =>
      if self =? parent p then mret true
      else if parent p =? 0 then mret false
      else
        match index !! parent p with
        | None => Throw undefined_behaviour
        | Some q => satisfies_loop fuel index self q
        end
  end.

Definition satisfies (db : database) (self other : permission_object) : result bool :=
  if negb (bool_decide (owner self = owner other)) then mret false
  else if (id self =? id other) || (id self =? parent other) then mret true
  else
    match permission_index db !! parent other with
    | None => Throw undefined_behaviour
    | Some p => satisfies_loop (Z.to_nat (next_permission db)) (permission_index db) (id self) p
    end.

(** ** Native actions *)

Record updateauth := mk_updateauth {
  ua_account : account_name;
  ua_permission : permission_name;
  ua_parent : permission_name;
  ua_auth : authority K;
}.
Record deleteauth := mk_deleteauth {
  da_account : account_name;
  da_permission : permission_name;
}.
Record linkauth := mk_linkauth {
  la_account : account_name;
  la_code : account_name;
  la_type : action_name;
  la_requirement : permission_name;
}.
Record unlinkauth := mk_unlinkauth {
  ul_account : account_name;
  ul_code : account_name;
  ul_type : action_name;
}.
Record canceldelay := mk_canceldelay {
  canceling_auth : permission_level;
  cd_trx_id : Z;
}.

(** The single declared authorization of a native action. *)
Definition single_auth (auths : list permission_level) : result permission_level :=
  match auths with [a] => mret a | _ => Throw irrelevant_auth_exception end.

(** [EOS_ASSERT( get_permission(auth).satisfies( min, ... ), irrelevant_auth_exception, ... )] *)
Definition check_satisfies (db : database) (declared : permission_level) (min : permission_object)
  : result unit :=
  p ← get_permission db declared;
  ok ← satisfies db p min;
  EOS_ASSERT ok irrelevant_auth_exception.

Definition check_updateauth_authorization (db : database) (u : updateauth)
    (auths : list permission_level) : result unit :=
  a ← single_auth auths;
  EOS_ASSERT (bool_decide (actor a = ua_account u)) irrelevant_auth_exception;;
  found ← find_permission db (mk_level (ua_account u) (ua_permission u));
  min ← (match found with
         | Some p => mret p
         | None => get_permission db (mk_level (ua_account u) (ua_parent u))
         end);
  check_satisfies db a min.

Definition check_deleteauth_authorization (db : database) (d : deleteauth)
    (auths : list permission_level) : result unit :=
  a ← single_auth auths;
  EOS_ASSERT (bool_decide (actor a = da_account d)) irrelevant_auth_exception;;
  min ← get_permission db (mk_level (da_account d) (da_permission d));
  check_satisfies db a min.

Definition check_linkauth_authorization (c : control) (db : database) (l : linkauth)
    (auths : list permission_level) : result unit :=
  a ← single_auth auths;
  EOS_ASSERT (bool_decide (actor a = la_account l)) irrelevant_auth_exception;;
  (if bool_decide (la_code l = system_account_name) || negb (fix_linkauth_restriction c)
   then EOS_ASSERT (negb (unlinkable (la_type l))) action_validate_exception
   else mret tt);;
  linked ← lookup_minimum_permission db (la_account l) (la_code l) (la_type l);
  match linked with
  | None => mret tt
  | Some n =>
      p ← get_permission db a;
      min ← get_permission db (mk_level (la_account l) n);
      ok ← satisfies db p min;
      EOS_ASSERT ok irrelevant_auth_exception
  end.

Definition check_unlinkauth_authorization (db : database) (u : unlinkauth)
    (auths : list permission_level) : result unit :=
  a ← single_auth auths;
  EOS_ASSERT (bool_decide (actor a = ul_account u)) irrelevant_auth_exception;;
  match lookup_linked_permission db (ul_account u) (ul_code u) (ul_type u) with
  | None => Throw transaction_exception
  | Some n =>
      if bool_decide (n = eosio_any_name) then mret tt
      else
        p ← get_permission db a;
        min ← get_permission db (mk_level (ul_account u) n);
        ok ← satisfies db p min;
        EOS_ASSERT ok irrelevant_auth_exception
  end.

Definition check_canceldelay_authorization (db : database) (d : canceldelay)
    (auths : list permission_level) : result Z :=
  a ← single_auth auths;
  p ← get_permission db a;
  min ← get_permission db (canceling_auth d);
  ok ← satisfies db p min;
  EOS_ASSERT ok irrelevant_auth_exception;;
  match generated_index db !! cd_trx_id d with
  | None => Throw tx_not_found
  | Some g =>
      EOS_ASSERT (bool_decide (sender g = no_name)) tx_not_found;;
      EOS_ASSERT (existsb (existsb (fun x => bool_decide (x = canceling_auth d))) (action_auths g))
        action_validate_exception;;
      mret (delay_until g - published g)
  end.

(** ** Transactions *)

Record action := mk_action {
  act_account : account_name;
  act_name : action_name;
  authorization : list permission_level;
  data : Bytes;
}.

(** [act.data_as<T>()] *)
Context (as_updateauth : Bytes -> result updateauth)
        (as_deleteauth : Bytes -> result deleteauth)
        (as_linkauth : Bytes -> result linkauth)
        (as_unlinkauth : Bytes -> result unlinkauth)
        (as_canceldelay : Bytes -> result canceldelay).

(** The native actions: [special_case] and the delay. *)
Definition check_native (c : control) (db : database) (a : action) (delay : Z)
  : result (bool * Z) :=
  if bool_decide (act_account a = system_account_name) then
    if bool_decide (act_name a = updateauth_name) then
      u ← as_updateauth (data a);
      check_updateauth_authorization db u (authorization a);; mret (true, delay)
    else if bool_decide (act_name a = deleteauth_name) then
      d ← as_deleteauth (data a);
      check_deleteauth_authorization db d (authorization a);; mret (true, delay)
    else if bool_decide (act_name a = linkauth_name) then
      l ← as_linkauth (data a);
      check_linkauth_authorization c db l (authorization a);; mret (true, delay)
    else if bool_decide (act_name a = unlinkauth_name) then
      u ← as_unlinkauth (data a);
      check_unlinkauth_authorization db u (authorization a);; mret (true, delay)
    else if bool_decide (act_name a = canceldelay_name) then
      d ← as_canceldelay (data a);
      dl ← check_canceldelay_authorization db d (authorization a); mret (true, Z.max delay dl)
    else mret (false, delay)
  else mret (false, delay).

(** The permissions to satisfy: a map in ascending order of the levels, which
    keeps the smallest delay of each. *)
Fixpoint emplace_min (p : permission_level) (delay : Z) (l : list (permission_level * Z))
  : list (permission_level * Z) :=
  match l with
  | [] => [(p, delay)]
  | (q, d) :: l' =>
      if decide (p = q) then (q, if delay <? d then delay else d) :: l'
      else if permission_level_lt p q then (p, delay) :: l
      else (q, d) :: emplace_min p delay l'
  end.

(** One declared authorization of an action. *)
Definition check_declared (db : database) (a : action) (special_case : bool) (delay : Z)
    (satisfied_authorizations : gset permission_level)
    (acc : list (permission_level * Z)) (declared_auth : permission_level)
  : result (list (permission_level * Z)) :=
  (if special_case then mret tt
   else
     min ← lookup_minimum_permission db (actor declared_auth) (act_account a) (act_name a);
     match min with
     | None => mret tt
     | Some n =>
         min ← get_permission db (mk_level (actor declared_auth) n);
         check_satisfies db declared_auth min
     end);;
  mret (if decide (declared_auth ∈ satisfied_authorizations) then acc
        else emplace_min declared_auth delay acc).

Definition check_action (c : control) (db : database) (effective_delay : Z)
    (satisfied_authorizations : gset permission_level)
    (acc : list (permission_level * Z)) (a : action) : result (list (permission_level * Z)) :=
  '(special_case, delay) ← check_native c db a effective_delay;
  foldM (check_declared db a special_case delay satisfied_authorizations) acc (authorization a).

Definition get_auth (db : database) (level : permission_level) : result (authority K) :=
  p ← get_permission db level; mret (auth p).

Definition microseconds_maximum : Z := INT64_MAX.
Definition effective_provided_delay (c : control) (provided_delay : Z) : Z :=
  if max_transaction_delay c * 1000000 <=? provided_delay then microseconds_maximum
  else provided_delay.

(** One permission of the second loop. *)
Definition check_satisfied (db : database) (check_but_dont_fail : bool)
    (ck : authority_checker K) (e : permission_level * Z) : result (authority_checker K) :=
  '(r, ck, _) ← satisfied_permission_delay (get_auth db) ck e.1 e.2 None;
  EOS_ASSERT (r || check_but_dont_fail) unsatisfied_authorization;;
  mret ck.

Definition check_authorization (c : control) (db : database) (actions : list action)
    (provided_keys : list K) (provided_permissions : gset permission_level) (provided_delay : Z)
    (allow_unused_keys check_but_dont_fail : bool)
    (satisfied_authorizations : gset permission_level) : result unit :=
  let delay := effective_provided_delay c provided_delay in
  let checker := make_auth_checker (Z.to_nat (max_authority_depth c)) provided_keys
                   provided_permissions delay in
  permissions_to_satisfy ← foldM (check_action c db delay satisfied_authorizations) [] actions;
  checker ← foldM (check_satisfied db check_but_dont_fail) checker permissions_to_satisfy;
  if negb allow_unused_keys || check_but_dont_fail
  then EOS_ASSERT (all_keys_used checker) tx_irrelevant_sig
  else mret tt.

(** [check_authorization( account, permission, ... )] *)
Definition check_permission_authorization (c : control) (db : database) (account : account_name)
    (permission : permission_name) (provided_keys : list K)
    (provided_permissions : gset permission_level) (provided_delay : Z) (allow_unused_keys : bool)
  : result unit :=
  let checker := make_auth_checker (Z.to_nat (max_authority_depth c)) provided_keys
                   provided_permissions (effective_provided_delay c provided_delay) in
  '(r, checker, _) ← satisfied_permission (get_auth db) checker (mk_level account permission) None;
  EOS_ASSERT r unsatisfied_authorization;;
  if negb allow_unused_keys then EOS_ASSERT (all_keys_used checker) tx_irrelevant_sig else mret tt.

Definition check_required (db : database) (ck : authority_checker K) (p : permission_level)
  : result (authority_checker K) :=
  '(r, ck, _) ← satisfied_permission (get_auth db) ck p None;
  EOS_ASSERT r unsatisfied_authorization;;
  mret ck.

Definition get_required_keys (c : control) (db : database) (actions : list action)
    (candidate_keys : list K) (provided_delay : Z) : result (list K) :=
  let checker := make_auth_checker (Z.to_nat (max_authority_depth c)) candidate_keys ∅
                   provided_delay in
  checker ← foldM (fun ck a => foldM (check_required db) ck (authorization a)) checker actions;
  mret (used_keys checker).

(** ** The tree of permissions is well formed *)

(** Ids are the keys and are given out in ascending order; owner and name
    are unique; every permission but the reserved one has an owner and a name,
    and a parent of the same owner with a smaller id, or is an owner permission
    with the parent 0. *)
Record tree_wf (db : database) : Prop := {
  tw_reserved : permission_index db !! 0 = Some reserved_permission;
  tw_id : forall i p, permission_index db !! i = Some p -> id p = i /\ 0 <= i < next_permission db;
  tw_unique : forall i j p q, permission_index db !! i = Some p -> permission_index db !! j = Some q ->
    owner p = owner q -> name p = name q -> i = j;
  tw_level : forall i p, i <> 0 -> permission_index db !! i = Some p ->
    valid_level (mk_level (owner p) (name p)) = true;
  tw_parent : forall i p, i <> 0 -> permission_index db !! i = Some p ->
    (parent p = 0 /\ name p = owner_name) \/
    (0 < parent p < i /\ exists q, permission_index db !! parent p = Some q /\ owner q = owner p);
}.

Lemma find_by_owner_Some db o n p : tree_wf db -> find_by_owner db o n = Some p <->
  exists i, permission_index db !! i = Some p /\ owner p = o /\ name p = n.
Proof.
  intros Hwf. unfold find_by_owner. split.
  - intros Hf. destruct (list_find _ _) as [[k [i q]]|] eqn:E; [|done]. injection Hf as <-.
    apply list_find_Some in E as (Hk & Hf & _).
    apply list_elem_of_lookup_2, elem_of_map_to_list in Hk. by exists i.
  - intros (i & Hi & Ho & Hn).
    destruct (list_find _ _) as [[k [j q]]|] eqn:E.
    + apply list_find_Some in E as (Hk & [Ho' Hn'] & _).
      apply list_elem_of_lookup_2, elem_of_map_to_list in Hk. cbn in *.
      assert (i = j) as <- by (eapply tw_unique; [done|exact Hi|exact Hk|congruence..]).
      congruence.
    + apply list_find_None in E. rewrite Forall_forall in E.
      destruct (E (i, p)); [by apply elem_of_map_to_list|done].
Qed.

Lemma find_by_owner_None db o n : find_by_owner db o n = None <->
  forall i p, permission_index db !! i = Some p -> ~ (owner p = o /\ name p = n).
Proof.
  unfold find_by_owner. rewrite !fmap_None, list_find_None, Forall_forall. split.
  - intros Hf i p Hi. apply (Hf (i, p)). by apply elem_of_map_to_list.
  - intros Hf [i p] Hi%elem_of_map_to_list. by apply (Hf i p).
Qed.

(** One step up the tree. *)
Definition parent_step (db : database) (i j : Z) : Prop :=
  exists p, i <> 0 /\ permission_index db !! i = Some p /\ parent p = j.

Lemma parent_step_det db i j k : parent_step db i j -> parent_step db i k -> j = k.
Proof. intros (p & _ & Hp & <-) (q & _ & Hq & <-). congruence. Qed.

Lemma tc_parent_inv db i j k : parent_step db i k -> tc (parent_step db) i j ->
  k = j \/ tc (parent_step db) k j.
Proof.
  intros Hk Ht. inversion Ht as [? ? Hj|? k' ? Hk' Ht']; subst.
  - left. by eapply parent_step_det.
  - right. by rewrite (parent_step_det _ _ _ _ Hk Hk').
Qed.

Lemma tc_parent_zero db j : ~ tc (parent_step db) 0 j.
Proof. intros Ht. inversion Ht as [? ? (? & ? & _)|? k' ? (? & ? & _) Ht']; done. Qed.

(** The walk finds exactly the ancestors, and ends within the fuel. *)
Lemma satisfies_loop_spec db fuel self p : tree_wf db -> self <> 0 ->
  permission_index db !! id p = Some p -> (Z.to_nat (id p) < fuel)%nat ->
  exists b, satisfies_loop fuel (permission_index db) self p = Ok b /\
    (b = true <-> tc (parent_step db) (id p) self).
Proof.
  intros Hwf Hself. revert p. induction fuel as [|fuel IH]; intros p Hp Hf; [lia|].
  cbn [satisfies_loop]. destruct (decide (id p = 0)) as [E0|Hid].
  { rewrite E0, (tw_reserved _ Hwf) in Hp. injection Hp as <-. cbn [parent reserved_permission].
    replace (self =? 0) with false by lia. exists false. split; [done|]. split; [done|].
    rewrite E0. intros Ht. by apply tc_parent_zero in Ht. }
  assert (parent_step db (id p) (parent p)) as Hstep by (exists p; done).
  destruct (self =? parent p) eqn:E1; bool_to_prop.
  { exists true. split; [done|]. split; [|done]. intros _. subst self. by constructor. }
  destruct (parent p =? 0) eqn:E2; bool_to_prop.
  - exists false. split; [done|]. split; [done|]. intros Ht. exfalso.
    apply (tc_parent_inv _ _ _ _ Hstep) in Ht as [?|Ht]; [congruence|].
    rewrite E2 in Ht. by apply tc_parent_zero in Ht.
  - destruct (tw_parent _ Hwf _ _ Hid Hp) as [[? _]|(Hlt & q & Hq & _)]; [done|].
    rewrite Hq. destruct (tw_id _ Hwf _ _ Hq) as [Hqid _]. rewrite <- Hqid in Hq.
    destruct (IH q Hq) as (b & Hb & Hiff); [lia|]. exists b. split; [done|]. rewrite Hiff, Hqid.
    split; [intros; by eapply tc_l|]. intros Ht.
    by apply (tc_parent_inv _ _ _ _ Hstep) in Ht as [?|Ht].
Qed.

(** Ancestors have the same owner. *)
Lemma ancestor_owner db i j p q : tree_wf db -> rtc (parent_step db) i j -> j <> 0 ->
  permission_index db !! i = Some p -> permission_index db !! j = Some q -> owner p = owner q.
Proof.
  intros Hwf Hr Hj. revert p. induction Hr as [j|i k j (r & Hi & Hr & Hk) Hkj IH]; intros p Hp Hq.
  { congruence. }
  assert (p = r) as -> by congruence.
  destruct (tw_parent _ Hwf _ _ Hi Hr) as [[H0 _]|(_ & q' & Hq' & Ho)].
  - rewrite H0 in Hk. subst k. exfalso. inversion Hkj as [|? ? ? (? & ? & _) _]; subst; done.
  - rewrite Hk in Hq'. rewrite <- Ho. by eapply IH.
Qed.

Lemma satisfies_spec db self other : tree_wf db -> id self <> 0 -> id other <> 0 ->
  permission_index db !! id self = Some self -> permission_index db !! id other = Some other ->
  exists b, satisfies db self other = Ok b /\
    (b = true <-> rtc (parent_step db) (id other) (id self)).
Proof.
  intros Hwf Hs0 Ho0 Hs Ho. unfold satisfies.
  case_bool_decide as Eo; cbn [negb].
  2:{ exists false. split; [done|]. split; [done|]. intros Hr. exfalso. apply Eo.
      symmetry. by eapply ancestor_owner. }
  assert (parent_step db (id other) (parent other)) as Hstep by (exists other; done).
  destruct ((id self =? id other) || (id self =? parent other)) eqn:E; bool_to_prop.
  { exists true. split; [done|]. split; [|done]. intros _. destruct E as [E|E]; bool_to_prop; rewrite E; [done|].
    by apply rtc_once. }
  assert (permission_index db !! parent other <> None) as Hpar.
  { destruct (tw_parent _ Hwf _ _ Ho0 Ho) as [[-> _]|(_ & q & -> & _)]; [|done].
    by rewrite (tw_reserved _ Hwf). }
  destruct (permission_index db !! parent other) as [p|] eqn:Ep; [|done].
  destruct (tw_id _ Hwf _ _ Ep) as [Hid Hlt].
  destruct (satisfies_loop_spec db (Z.to_nat (next_permission db)) (id self) p) as (b & Hb & Hiff);
    [done|done|congruence|lia|].
  exists b. split; [done|]. rewrite Hiff, Hid. split; intros Hr.
  - eapply rtc_l; [exact Hstep|]. by apply tc_rtc.
  - inversion Hr as [|? k ? Hk Hr']; subst; [lia|].
    rewrite (parent_step_det _ _ _ _ Hstep Hk) in *.
    apply rtc_tc in Hr' as [?|?]; [lia|done].
Qed.

(** ** What [check_authorization] checks *)

Lemma get_permission_ok db level p : tree_wf db -> get_permission db level = Ok p ->
  permission_index db !! id p = Some p /\ id p <> 0 /\ level = mk_level (owner p) (name p).
Proof.
  intros Hwf Hg. unfold get_permission in Hg. inv_ok.
  destruct (find_by_owner _ _ _) as [q|] eqn:E; [|done]. injection Hg as ->.
  apply find_by_owner_Some in E as (i & Hi & Ho & Hn); [|done].
  destruct (tw_id _ Hwf _ _ Hi) as [Hid _]. rewrite <- Hid in Hi. split; [done|]. split.
  - intros H0. rewrite H0, (tw_reserved _ Hwf) in Hi. injection Hi as <-.
    destruct level as [a n]. cbn in *. subst. done.
  - destruct level. cbn in *. congruence.
Qed.

Lemma get_auth_ok db level a : tree_wf db -> get_auth db level = Ok a ->
  exists i p, permission_index db !! i = Some p /\ auth p = a /\ i <> 0.
Proof.
  intros Hwf Hg. unfold get_auth in Hg. apply bind_ok_inv in Hg as (p & Hp & [= <-]).
  apply get_permission_ok in Hp as (Hp & H0 & _); [|done]. by exists (id p), p.
Qed.

Lemma emplace_min_new p d l : exists d', d' <= d /\ (p, d') ∈ emplace_min p d l.
Proof.
  induction l as [|[q dq] l IH]; cbn [emplace_min]; [exists d; split; [lia|by left]|].
  destruct (decide (p = q)) as [->|Hne].
  - destruct (d <? dq) eqn:E; bool_to_prop; (eexists; split; [|by left]); lia.
  - destruct (permission_level_lt p q); [exists d; split; [lia|by left]|].
    destruct IH as (d' & ? & ?). exists d'. split; [done|by right].
Qed.

Lemma emplace_min_old p d l q dq : (q, dq) ∈ l -> exists d', d' <= dq /\ (q, d') ∈ emplace_min p d l.
Proof.
  induction l as [|[r dr] l IH]; intros Hin; [by apply elem_of_nil in Hin|]. cbn [emplace_min].
  destruct (decide (p = r)) as [->|Hne].
  - apply elem_of_cons in Hin as [[= -> ->]|Hin]; [|exists dq; split; [lia|by right]].
    destruct (d <? dr) eqn:E; bool_to_prop; (eexists; split; [|by left]); lia.
  - destruct (permission_level_lt p r); [exists dq; split; [lia|by right]|].
    apply elem_of_cons in Hin as [[= -> ->]|Hin]; [exists dr; split; [lia|by left]|].
    destruct (IH Hin) as (d' & ? & ?). exists d'. split; [done|by right].
Qed.

(** A declared permission that is at least the minimum permission of the
    action. *)
Definition meets_minimum (db : database) (a : action) (d : permission_level) : Prop :=
  lookup_minimum_permission db (actor d) (act_account a) (act_name a) = Ok None \/
  exists n m p, lookup_minimum_permission db (actor d) (act_account a) (act_name a) = Ok (Some n) /\
    get_permission db (mk_level (actor d) n) = Ok m /\ get_permission db d = Ok p /\
    rtc (parent_step db) (id m) (id p).

Lemma check_satisfies_ok db d m : tree_wf db -> permission_index db !! id m = Some m -> id m <> 0 ->
  check_satisfies db d m = Ok tt ->
  exists p, get_permission db d = Ok p /\ rtc (parent_step db) (id m) (id p).
Proof.
  intros Hwf Hm Hm0 Hc. unfold check_satisfies in Hc. apply bind_ok_inv in Hc as (p & Hp & Hc).
  destruct (get_permission_ok _ _ _ Hwf Hp) as (Hi & H0 & _).
  destruct (satisfies_spec db p m) as (b & Hb & Hiff); [done..|]. rewrite Hb in Hc. cbn in Hc.
  inv_ok. exists p. split; [done|]. by apply Hiff.
Qed.

Lemma check_declared_ok db a special delay sat acc d acc' : tree_wf db ->
  check_declared db a special delay sat acc d = Ok acc' ->
  (special = false -> meets_minimum db a d) /\
  acc' = (if decide (d ∈ sat) then acc else emplace_min d delay acc).
Proof.
  intros Hwf Hc. unfold check_declared in Hc. apply bind_ok_inv in Hc as ([] & Hm & [= <-]).
  split; [|done]. intros ->. apply bind_ok_inv in Hm as (min & Hmin & Hm).
  destruct min as [n|]; [|by left]. apply bind_ok_inv in Hm as (m & Hg & Hm).
  destruct (get_permission_ok _ _ _ Hwf Hg) as (Hi & H0 & _).
  destruct (check_satisfies_ok _ _ _ Hwf Hi H0 Hm) as (p & Hp & Hr).
  right. by exists n, m, p.
Qed.

(** The loops only lower delays. *)
Definition covers (l l' : list (permission_level * Z)) : Prop :=
  forall p d, (p, d) ∈ l -> exists d', d' <= d /\ (p, d') ∈ l'.

Lemma covers_trans l1 l2 l3 : covers l1 l2 -> covers l2 l3 -> covers l1 l3.
Proof.
  intros H1 H2 p d Hin. destruct (H1 _ _ Hin) as (d1 & ? & Hin1).
  destruct (H2 _ _ Hin1) as (d2 & ? & ?). exists d2. split; [lia|done].
Qed.
Lemma covers_refl l : covers l l.
Proof. intros p d ?. exists d. split; [lia|done]. Qed.

Lemma declared_loop_ok db a special delay sat l acc acc' : tree_wf db ->
  foldM (check_declared db a special delay sat) acc l = Ok acc' ->
  covers acc acc' /\
  forall d, d ∈ l -> (special = false -> meets_minimum db a d) /\
    (d ∉ sat -> exists d', d' <= delay /\ (d, d') ∈ acc').
Proof.
  intros Hwf. revert acc. induction l as [|x l IH]; intros acc; cbn [foldM].
  { intros [= <-]. split; [apply covers_refl|]. intros d Hd. by apply elem_of_nil in Hd. }
  intros Hf. apply bind_ok_inv in Hf as (acc1 & Hx & Hf).
  apply check_declared_ok in Hx as [Hmin ->]; [|done]. destruct (IH _ Hf) as [Hcov Hall].
  split.
  - eapply covers_trans; [|exact Hcov]. destruct (decide (x ∈ sat)); [apply covers_refl|].
    intros p d Hin. by apply emplace_min_old.
  - intros d [->|Hd]%elem_of_cons; [|by apply Hall]. split; [done|]. intros Hns.
    rewrite decide_False in Hcov by done. destruct (emplace_min_new x delay acc) as (d' & ? & Hin).
    destruct (Hcov _ _ Hin) as (d2 & ? & ?). exists d2. split; [lia|done].
Qed.

(** What the first loop establishes for an action. *)
Definition action_checked (c : control) (db : database) (eff : Z) (sat : gset permission_level)
    (l : list (permission_level * Z)) (a : action) : Prop :=
  exists special delay, check_native c db a eff = Ok (special, delay) /\
    forall d, d ∈ authorization a -> (special = false -> meets_minimum db a d) /\
      (d ∉ sat -> exists d', d' <= delay /\ (d, d') ∈ l).

Lemma action_checked_covers c db eff sat l l' a : covers l l' ->
  action_checked c db eff sat l a -> action_checked c db eff sat l' a.
Proof.
  intros Hc (sp & delay & Hn & Hall). exists sp, delay. split; [done|]. intros d Hd.
  destruct (Hall d Hd) as [H1 H2]. split; [done|]. intros Hns.
  destruct (H2 Hns) as (d1 & ? & Hin). destruct (Hc _ _ Hin) as (d2 & ? & ?).
  exists d2. split; [lia|done].
Qed.

Lemma actions_loop_ok c db eff sat actions acc acc' : tree_wf db ->
  foldM (check_action c db eff sat) acc actions = Ok acc' ->
  covers acc acc' /\ forall a, a ∈ actions -> action_checked c db eff sat acc' a.
Proof.
  intros Hwf. revert acc. induction actions as [|a actions IH]; intros acc; cbn [foldM].
  { intros [= <-]. split; [apply covers_refl|]. intros a Ha. by apply elem_of_nil in Ha. }
  intros Hf. apply bind_ok_inv in Hf as (acc1 & Hx & Hf). unfold check_action in Hx.
  apply bind_ok_inv in Hx as ([special delay] & Hn & Hx).
  apply declared_loop_ok in Hx as [Hcov Hall]; [|done]. destruct (IH _ Hf) as [Hcov' Hrest].
  split; [by eapply covers_trans|]. intros b [->|Hb]%elem_of_cons; [|by apply Hrest].
  apply (action_checked_covers _ _ _ _ acc1); [done|]. by exists special, delay.
Qed.

Definition stored_weights_ok (db : database) : Prop :=
  forall i p, i <> 0 -> permission_index db !! i = Some p -> weights_ok (auth p).

Lemma get_auth_empty db a x : get_auth db (mk_level a no_name) <> Ok x.
Proof.
  unfold get_auth, get_permission, valid_level. cbn. by rewrite andb_false_r.
Qed.

Lemma satisfied_delay_ok db ck p d r ck' c' : tree_wf db -> stored_weights_ok db ->
  satisfied_permission_delay (get_auth db) ck p d None = Ok (r, ck', c') ->
  (r = true -> authorized (get_auth db) (provided_keys ck) (provided_permissions ck) d p) /\
  provided_keys ck' = provided_keys ck /\ provided_permissions ck' = provided_permissions ck.
Proof.
  intros Hwf Hw Hs. unfold satisfied_permission_delay in Hs.
  apply bind_ok_inv in Hs as ([[r1 ck1] c1] & Hs & Heq). injection Heq as <- <- <-. split.
  - intros ->. apply satisfied_permission_sound in Hs; [done|apply get_auth_empty|].
    intros q a Hq. destruct (get_auth_ok _ _ _ Hwf Hq) as (i & p' & Hi & <- & H0). by apply (Hw i).
  - unfold satisfied_permission in Hs. apply bind_ok_inv in Hs as ([w st] & _ & Hs).
    injection Hs as _ <- _. done.
Qed.

Lemma satisfied_loop_ok db ck l ck' : tree_wf db -> stored_weights_ok db ->
  foldM (check_satisfied db false) ck l = Ok ck' ->
  forall p d, (p, d) ∈ l ->
    authorized (get_auth db) (provided_keys ck) (provided_permissions ck) d p.
Proof.
  intros Hwf Hw. revert ck. induction l as [|[q dq] l IH]; intros ck; cbn [foldM]; intros Hf p d Hin.
  { by apply elem_of_nil in Hin. }
  apply bind_ok_inv in Hf as (ck1 & Hx & Hf). unfold check_satisfied in Hx.
  apply bind_ok_inv in Hx as ([[r ck2] c2] & Hs & Hx). apply bind_ok_inv in Hx as ([] & Hr & [= ->]).
  apply satisfied_delay_ok in Hs as (Ha & Hk & Hp); [|done..].
  apply elem_of_cons in Hin as [[= -> ->]|Hin].
  - apply Ha. apply EOS_ASSERT_ok in Hr. by rewrite orb_false_r in Hr.
  - rewrite <- Hk, <- Hp. by apply IH.
Qed.

End manager.

(** ** Theorems *)

(** [satisfies] decides the order of the tree of permissions.  It always
    returns, and it says that one permission satisfies another exactly when it
    is that permission or one of its ancestors. *)
Theorem satisfies_exact {K : Type} (db : @database K) (self other : @permission_object K) :
  tree_wf db -> id self <> 0 -> id other <> 0 ->
  permission_index db !! id self = Some self -> permission_index db !! id other = Some other ->
  exists b, satisfies db self other = Ok b /\
    (b = true <-> rtc (parent_step db) (id other) (id self)).
Proof. apply satisfies_spec. Qed.

(** C37: a transaction that passes [check_authorization] is authorized.  For
    each of its actions, every declared permission is at least the minimum
    permission of the action (native actions are checked on their own), and
    every declared permission that was not satisfied before has a derivation
    from the provided keys and permissions and the delay of the action, unless
    the check is told not to fail ([check_but_dont_fail], which the controller
    passes for a read-only transaction; the minimum permissions are checked
    then too).  The permissions of the database form trees ([tree_wf]) and the
    weights in them are not negative, both of which the native actions keep. *)
Theorem check_authorization_sound {K Bytes : Type} `{Countable K}
    as_updateauth as_deleteauth as_linkauth as_unlinkauth as_canceldelay
    (c : @control K _ _) (db : @database K) (actions : list (@action Bytes)) keys perms delay
    allow_unused_keys check_but_dont_fail sat :
  let check_native := check_native as_updateauth as_deleteauth as_linkauth as_unlinkauth
                        as_canceldelay in
  tree_wf db -> stored_weights_ok db ->
  check_authorization as_updateauth as_deleteauth as_linkauth as_unlinkauth as_canceldelay
    c db actions keys perms delay allow_unused_keys check_but_dont_fail sat = Ok tt ->
  forall a, a ∈ actions -> exists special da,
    check_native c db a (effective_provided_delay c delay) = Ok (special, da) /\
    forall d, d ∈ authorization a ->
      (special = false -> meets_minimum db a d) /\
      (d ∉ sat -> check_but_dont_fail = false -> authorized (get_auth db) keys perms da d).
Proof.
  cbn zeta. intros Hwf Hw Hc a Ha. unfold check_authorization in Hc.
  apply bind_ok_inv in Hc as (l & Hl & Hc). apply bind_ok_inv in Hc as (ck & Hck & _).
  apply actions_loop_ok in Hl as [_ Hall]; [|done].
  destruct (Hall a Ha) as (special & da & Hn & Hd). exists special, da. split; [done|].
  intros d Hin. destruct (Hd d Hin) as [Hmin Hsat]. split; [done|]. intros Hns ->.
  destruct (Hsat Hns) as (d' & Hle & Hin'). apply (authorized_mono _ _ _ d'); [done|].
  by apply (satisfied_loop_ok _ _ _ _ Hwf Hw Hck).
Qed.

(** ** Examples *)

(** An account with its owner and active permissions and a third one below,
    which each need one key. *)
Definition ex_account : account_name := Eval vm_compute in N "alice".
Definition ex_custom : permission_name := Eval vm_compute in N "transfer".
Definition ex_permission (i par : Z) (n : permission_name) : @permission_object Z :=
  mk_permission i (i - 1) par ex_account n 5 (authority_of_key (100 + i) 0).
Definition ex_index : gmap Z permission_object :=
  {[ 0 := reserved_permission; 1 := ex_permission 1 0 owner_name;
     2 := ex_permission 2 1 active_name; 3 := ex_permission 3 2 ex_custom ]}.
(** Actions of the token contract need only the third permission. *)
Definition ex_token : account_name := Eval vm_compute in N "eosio.token".
Definition ex_db : @database Z :=
  mk_database {[ ex_account := false ]} ex_index 4 {[ 0 := 5; 1 := 5; 2 := 5 ]} 3
    {[ (ex_account, ex_token, no_name) := ex_custom ]} ∅ ResourceLimits.initialize_database ∅ ∅.
Definition ex_control : @control Z _ _ := mk_control 1000 3888000 6 2 true true false ∅.

(** The permissions of the example, one by one. *)
Ltac ex_lookup H :=
  cbn [permission_index ex_db] in H; unfold ex_index in H;
  repeat (apply lookup_insert_Some in H as [[<- <-]|[_ H]]);
  try (apply lookup_singleton_Some in H as [<- <-]).

Lemma ex_tree_wf : tree_wf ex_db.
Proof.
  split.
  - reflexivity.
  - intros i p Hi. ex_lookup Hi; (split; [reflexivity|cbn; lia]).
  - intros i j p q Hi Hj. ex_lookup Hi; ex_lookup Hj; try reflexivity; vm_compute; discriminate.
  - intros i p H0 Hi. ex_lookup Hi; [done|reflexivity..].
  - intros i p H0 Hi. ex_lookup Hi; [done|by left|..]; right; cbn [parent ex_permission];
      (split; [lia|]; eexists; split; reflexivity).
Qed.

Lemma ex_weights : stored_weights_ok ex_db.
Proof. intros i p H0 Hi. ex_lookup Hi; [done|repeat constructor..]; cbn; lia. Qed.

Lemma satisfies_exact_witness :
  exists b, satisfies ex_db (ex_permission 1 0 owner_name) (ex_permission 3 2 ex_custom) = Ok b /\
    (b = true <-> rtc (parent_step ex_db) 3 1).
Proof.
  apply (satisfies_exact ex_db (ex_permission 1 0 owner_name) (ex_permission 3 2 ex_custom)
    ex_tree_wf); [done..|reflexivity|reflexivity].
Defined.

Definition ex_action : @action unit :=
  mk_action ex_token (Name.mk_name 7) [mk_level ex_account ex_custom] tt.
(** There are no native actions in the example. *)
Definition ex_unpack {A} (_ : unit) : result A := Throw action_validate_exception.

Lemma check_authorization_sound_witness :
  authorized (get_auth ex_db) [103] ∅ 0 (mk_level ex_account ex_custom).
Proof.
  destruct (check_authorization_sound ex_unpack ex_unpack ex_unpack ex_unpack ex_unpack
    ex_control ex_db [ex_action] [103] ∅ 0 false false ∅ ex_tree_wf ex_weights) with (a := ex_action)
    as (special & da & Hn & Hd).
  - vm_compute. reflexivity.
  - left.
  - vm_compute in Hn. injection Hn as <- <-. apply Hd; [left|set_solver|reflexivity].
Defined.

End AuthorizationManager.
