(* ===== verification/AuthActions.v ===== *)
(** * Native actions on accounts and permissions: the handlers of
      libraries/chain/eosio_contract.cpp

    Module [AuthActions] has the handlers of newaccount, updateauth,
    deleteauth, linkauth and unlinkauth, which change the tables of
    [AuthorizationManager] and charge RAM through [ResourceLimits], the
    creation of the native accounts and of the permissions of the producers in
    the genesis block, and the update of these permissions at the start of a
    block, which charge nobody.  The theorems show that the tables stay well
    formed and that the RAM charged is the RAM the tables take, up to these
    changes. *)

From S2P Require Import Prelude Names ProducerSchedule Authority AuthorityChecker.
From S2P Require Import ResourceLimits AuthorizationManager.
Import Authority AuthorityChecker AuthorizationManager.

Module AuthActions.

(** Sizes of [config]: of a row with its index overhead. *)
Definition overhead_per_row_per_index_ram_bytes : Z := 32.
Definition fixed_overhead_shared_vector_ram_bytes : Z := 16.
Definition overhead_per_account_ram_bytes : Z := 2048.
Definition billable_shared_authority : Z :=
  billable_size_v (3 * fixed_overhead_shared_vector_ram_bytes + 4).
Definition billable_permission_object : Z :=
  billable_size_v (billable_shared_authority + 64 + 5 * overhead_per_row_per_index_ram_bytes).
Definition billable_permission_link_object : Z :=
  billable_size_v (40 + overhead_per_row_per_index_ram_bytes * 3).

Definition producers_account_name : Name.name := Eval vm_compute in N "eosio.prods".
Definition majority_producers_permission_name : Name.name := Eval vm_compute in N "prod.major".
Definition minority_producers_permission_name : Name.name := Eval vm_compute in N "prod.minor".

#[global] Instance key_weight_eq_dec {K : Type} `{EqDecision K} : EqDecision (key_weight K).
Proof. solve_decision. Defined.
#[global] Instance level_weight_eq_dec : EqDecision permission_level_weight.
Proof. solve_decision. Defined.
#[global] Instance wait_weight_eq_dec : EqDecision wait_weight.
Proof. solve_decision. Defined.
#[global] Instance authority_eq_dec {K : Type} `{EqDecision K} : EqDecision (authority K).
Proof. solve_decision. Defined.

Section actions.
Context {K : Type} `{Countable K}.
Context (which : K -> Z) (key_lt : K -> K -> bool) (pack_size : K -> Z).

Abbreviation database := (@database K).
Abbreviation control := (@control K _ _).
Abbreviation permission_object := (@permission_object K).

(** [apply_context::require_authorization] *)
Definition require_authorization (auths : list permission_level) (account : account_name)
  : result unit :=
  EOS_ASSERT (existsb (fun a => bool_decide (actor a = account)) auths) missing_auth_exception.

(** [resource_limits.add_pending_ram_usage], and [apply_context::add_ram_usage]
    with [transaction_context::add_ram_usage] *)
Definition add_pending_ram_usage (db : database) (account : account_name) (ram_delta : Z)
  : result database :=
  r ← ResourceLimits.add_pending_ram_usage (resources db) account ram_delta;
  mret (set_resources db r).
Definition add_ram_usage (db : database) (account : account_name) (ram_delta : Z)
  : result database :=
  r ← ResourceLimits.add_pending_ram_usage (resources db) account ram_delta;
  let v := if 0 <? ram_delta then {[account]} ∪ validate_ram_usage db else validate_ram_usage db in
  let d := match account_ram_deltas db !! account with
           | Some delta => s64 (delta + ram_delta)
           | None => ram_delta
           end in
  mret (set_ram db r (<[account := d]> (account_ram_deltas db)) v).

(** One permission of the authority. *)
Definition check_account_entry (db : database) (a : permission_level_weight) : result unit :=
  EOS_ASSERT (bool_decide (is_Some (account_index db !! actor (level a)))) action_validate_exception;;
  if bool_decide (permission (level a) = owner_name) || bool_decide (permission (level a) = active_name)
  then mret tt
  else if bool_decide (permission (level a) = eosio_code_name) then mret tt
  else
    match get_permission db (level a) with
    | Ok _ => mret tt
    | Throw e =>
        if decide (e = permission_query_exception) then Throw action_validate_exception else Throw e
    end.

(** [controller::check_key_list] *)
Definition check_key_list (c : control) (k : K) : result unit :=
  if bool_decide (key_blacklist c = ∅) then mret tt
  else EOS_ASSERT (bool_decide (k ∉ key_blacklist c)) key_blacklist_exception.

Definition validate_authority_precondition (c : control) (db : database) (a : authority K)
  : result unit :=
  foldM (fun _ e => check_account_entry db e) tt (accounts a);;
  if enforce_key_list c
  then foldM (fun _ k => check_key_list c (key k)) tt (keys a)
  else mret tt.

(** [db.create] of the account and its metadata *)
Definition create_account (db : database) (n : account_name) (privileged : bool)
  : result database :=
  match account_index db !! n with
  | Some _ => Throw uniqueness_violation
  | None => mret (set_accounts db (<[n := privileged]> (account_index db)))
  end.

(** The owner and active permissions of a new account, its resource tables
    and its RAM, which the callers charge in different ways. *)
Definition account_ram (o a : authority K) : Z :=
  s64 (overhead_per_account_ram_bytes + 2 * billable_permission_object
       + get_billable_size pack_size o + get_billable_size pack_size a).

Definition create_account_permissions (charge : database -> account_name -> Z -> result database)
    (c : control) (db : database) (n : account_name) (o a : authority K) (time : Z)
  : result database :=
  '(owner_permission, db) ← create_permission which c db n owner_name 0 o time;
  '(_, db) ← create_permission which c db n active_name (id owner_permission) a time;
  r ← ResourceLimits.initialize_account (resources db) n;
  charge (set_resources db r) n (account_ram o a).

Record newaccount := mk_newaccount {
  creator : account_name;
  na_name : account_name;
  na_owner : authority K;
  na_active : authority K;
}.

(** [name_str.find( "eosio." ) == 0] *)
Definition starts_with_eosio (n : Name.name) : bool :=
  bool_decide (take 6 (Name.to_string n) = chars "eosio.").

Definition apply_eosio_newaccount (c : control) (db : database) (auths : list permission_level)
    (n : newaccount) : result database :=
  require_authorization auths (creator n);;
  EOS_ASSERT (validate key_lt (na_owner n)) action_validate_exception;;
  EOS_ASSERT (validate key_lt (na_active n)) action_validate_exception;;
  EOS_ASSERT (negb (Name.empty (na_name n))) action_validate_exception;;
  EOS_ASSERT (bool_decide (length (Name.to_string (na_name n)) <= 12)%nat) action_validate_exception;;
  privileged ← (match account_index db !! creator n with
                | Some b => mret b
                | None => Throw not_found_exception
                end);
  (if (privileged : bool) then mret tt
   else EOS_ASSERT (negb (starts_with_eosio (na_name n))) action_validate_exception);;
  EOS_ASSERT (negb (bool_decide (is_Some (account_index db !! na_name n))))
    account_name_exists_exception;;
  db ← create_account db (na_name n) false;
  validate_authority_precondition c db (na_owner n);;
  validate_authority_precondition c db (na_active n);;
  create_account_permissions add_ram_usage c db (na_name n) (na_owner n) (na_active n) 0.

(** [controller_impl::create_native_account] *)
Definition create_native_account (c : control) (db : database) (initial_timestamp : Z)
    (n : account_name) (o a : authority K) (is_privileged : bool) : result database :=
  db ← create_account db n is_privileged;
  db ← create_account_permissions add_pending_ram_usage c db n o a initial_timestamp;
  ResourceLimits.verify_account_ram_usage (resources db) n;;
  mret db.

(** [(int64_t)(config::billable_size_v<permission_object> + auth.get_billable_size())] *)
Definition permission_size (a : authority K) : Z :=
  s64 (u64 (billable_permission_object + get_billable_size pack_size a)).

(** The checks of updateauth on its arguments. *)
Definition check_updateauth (c : control) (db : database) (u : updateauth) : result unit :=
  EOS_ASSERT (negb (Name.empty (ua_permission u))) action_validate_exception;;
  EOS_ASSERT (negb (starts_with_eosio (ua_permission u))) action_validate_exception;;
  EOS_ASSERT (negb (bool_decide (ua_permission u = ua_parent u))) action_validate_exception;;
  (match account_index db !! ua_account u with
   | Some _ => mret tt
   | None => Throw not_found_exception
   end);;
  EOS_ASSERT (validate key_lt (ua_auth u)) action_validate_exception;;
  (if bool_decide (ua_permission u = active_name)
   then EOS_ASSERT (bool_decide (ua_parent u = owner_name)) action_validate_exception
   else mret tt);;
  (if bool_decide (ua_permission u = owner_name)
   then EOS_ASSERT (Name.empty (ua_parent u)) action_validate_exception
   else EOS_ASSERT (negb (Name.empty (ua_parent u))) action_validate_exception);;
  match last (waits (ua_auth u)) with
  | Some w => EOS_ASSERT (wait_sec w <=? max_transaction_delay c) action_validate_exception
  | None => mret tt
  end.

Definition apply_eosio_updateauth (c : control) (db : database) (auths : list permission_level)
    (u : updateauth) : result database :=
  require_authorization auths (ua_account u);;
  check_updateauth c db u;;
  validate_authority_precondition c db (ua_auth u);;
  found ← find_permission db (mk_level (ua_account u) (ua_permission u));
  parent_id ← (if bool_decide (ua_permission u = owner_name) then mret 0
               else p ← get_permission db (mk_level (ua_account u) (ua_parent u)); mret (id p));
  match found with
  | Some p =>
      EOS_ASSERT (parent_id =? parent p) action_validate_exception;;
      let old_size := permission_size (auth p) in
      '(p', db) ← modify_permission which c db p (ua_auth u);
      add_ram_usage db (owner p') (permission_size (auth p') - old_size)
  | None =>
      '(p, db) ← create_permission which c db (ua_account u) (ua_permission u) parent_id (ua_auth u) 0;
      add_ram_usage db (ua_account u) (permission_size (auth p))
  end.

Definition apply_eosio_deleteauth (db : database) (auths : list permission_level) (d : deleteauth)
  : result database :=
  require_authorization auths (da_account d);;
  EOS_ASSERT (negb (bool_decide (da_permission d = active_name))) action_validate_exception;;
  EOS_ASSERT (negb (bool_decide (da_permission d = owner_name))) action_validate_exception;;
  EOS_ASSERT (negb (existsb (fun e => bool_decide (e.1.1.1 = da_account d) &&
                                      bool_decide (e.2 = da_permission d))
                     (map_to_list (permission_link_index db)))) action_validate_exception;;
  p ← get_permission db (mk_level (da_account d) (da_permission d));
  db ← remove_permission db p;
  add_ram_usage db (da_account d) (- permission_size (auth p)).

Definition apply_eosio_linkauth (c : control) (db : database) (auths : list permission_level)
    (l : linkauth) : result database :=
  EOS_ASSERT (negb (Name.empty (la_requirement l))) action_validate_exception;;
  require_authorization auths (la_account l);;
  EOS_ASSERT (bool_decide (is_Some (account_index db !! la_account l))) account_query_exception;;
  EOS_ASSERT (bool_decide (is_Some (account_index db !! la_code l))) account_query_exception;;
  (if bool_decide (la_requirement l = eosio_any_name) then mret tt
   else if only_link_to_existing_permission c
   then EOS_ASSERT (bool_decide (is_Some (find_by_owner db (la_account l) (la_requirement l))))
          permission_query_exception
   else EOS_ASSERT (exists_by_name db (la_requirement l)) permission_query_exception);;
  let link_key := (la_account l, la_code l, la_type l) in
  match permission_link_index db !! link_key with
  | Some required_permission =>
      EOS_ASSERT (negb (bool_decide (required_permission = la_requirement l)))
        action_validate_exception;;
      mret (set_links db (<[link_key := la_requirement l]> (permission_link_index db)))
  | None =>
      add_ram_usage (set_links db (<[link_key := la_requirement l]> (permission_link_index db)))
        (la_account l) billable_permission_link_object
  end.

Definition apply_eosio_unlinkauth (db : database) (auths : list permission_level) (u : unlinkauth)
  : result database :=
  require_authorization auths (ul_account u);;
  let link_key := (ul_account u, ul_code u, ul_type u) in
  match permission_link_index db !! link_key with
  | None => Throw action_validate_exception
  | Some _ =>
      db ← add_ram_usage db (ul_account u) (- billable_permission_link_object);
      mret (set_links db (delete link_key (permission_link_index db)))
  end.

(** ** The permissions of the producers *)

Definition active_producers_authority : authority K :=
  mk_authority 1 [] [mk_level_weight (mk_level system_account_name active_name) 1] [].

(** The permissions that genesis puts below the active permission of the
    producers' account. *)
Definition create_producer_permissions (c : control) (db : database) (initial_timestamp : Z)
  : result database :=
  active_permission ← get_permission db (mk_level producers_account_name active_name);
  '(majority_permission, db) ← create_permission which c db producers_account_name
       majority_producers_permission_name (id active_permission) active_producers_authority
       initial_timestamp;
  '(_, db) ← create_permission which c db producers_account_name
       minority_producers_permission_name (id majority_permission) active_producers_authority
       initial_timestamp;
  mret db.

(** [controller_impl::update_producers_authority]: the authority of the active
    producers with the threshold, [update_permission] and
    [calculate_threshold] *)
Definition producers_authority (producers : list account_name) (threshold : Z) : authority K :=
  mk_authority threshold [] ((fun p => mk_level_weight (mk_level p active_name) 1) <$> producers) [].

Definition update_permission (producers : list account_name) (db : database) (p : permission_object)
    (threshold : Z) : database :=
  let a := producers_authority producers threshold in
  if decide (auth p = a) then db
  else set_permissions db
         (<[id p := mk_permission (id p) (usage_id p) (parent p) (owner p) (name p) (last_updated p) a]>
            (permission_index db)) (next_permission db).

Definition calculate_threshold (num_producers numerator denominator : Z) : Z :=
  u32 (u32 (num_producers * numerator) / denominator + 1).

Definition update_producers_authority (producers : list account_name) (db : database) : result database :=
  let num_producers := u32 (Z.of_nat (length producers)) in
  p ← get_permission db (mk_level producers_account_name active_name);
  let db := update_permission producers db p (calculate_threshold num_producers 2 3) in
  p ← get_permission db (mk_level producers_account_name majority_producers_permission_name);
  let db := update_permission producers db p (calculate_threshold num_producers 1 2) in
  p ← get_permission db (mk_level producers_account_name minority_producers_permission_name);
  mret (update_permission producers db p (calculate_threshold num_producers 1 3)).

(** ** Well-formed tables *)

(** An authority that may be stored. *)
Definition storable (a : authority K) : Prop :=
  fits a /\ Z.of_nat (length (keys a) + length (accounts a) + length (waits a)) <= 2 ^ 16 /\
  Forall (fun e => valid_level (level e) = true) (accounts a).

(** Every permission belongs to an account, has an authority that may be
    stored, and a usage row of its own. *)
Record tables_wf (db : database) : Prop := {
  tb_tree : tree_wf db;
  tb_auth : forall i p, i <> 0 -> permission_index db !! i = Some p -> storable (auth p);
  tb_owner : forall i p, i <> 0 -> permission_index db !! i = Some p ->
    is_Some (account_index db !! owner p);
  tb_named : forall a, is_Some (account_index db !! a) -> Name.empty a = false;
  tb_usage : forall i p, i <> 0 -> permission_index db !! i = Some p ->
    is_Some (permission_usage_index db !! usage_id p) /\ usage_id p < next_usage db;
  tb_usage_inj : forall i j p q, i <> 0 -> j <> 0 -> permission_index db !! i = Some p ->
    permission_index db !! j = Some q -> usage_id p = usage_id q -> i = j;
}.

Definition has_permission (db : database) (a : account_name) (n : permission_name) : Prop :=
  exists i p, i <> 0 /\ permission_index db !! i = Some p /\ owner p = a /\ name p = n.

(** Every account has its owner and active permissions. *)
Definition accounts_complete (db : database) : Prop :=
  forall a, is_Some (account_index db !! a) ->
    has_permission db a owner_name /\ has_permission db a active_name.

Lemma fresh_permission (db : database) : tree_wf db ->
  permission_index db !! next_permission db = None /\ next_permission db <> 0.
Proof.
  intros Hwf. split.
  - destruct (permission_index db !! next_permission db) eqn:E; [|done].
    apply (tw_id _ Hwf) in E as [_ ?]. lia.
  - destruct (tw_id _ Hwf _ _ (tw_reserved _ Hwf)) as [_ ?]. lia.
Qed.

(** *** Creating a permission *)

(** What [create_permission] returns. *)
Lemma create_permission_ok c (db : database) a n par x t p db' :
  create_permission which c db a n par x t = Ok (p, db') ->
  find_by_owner db a n = None /\ owner p = a /\ name p = n /\ auth p = x /\ parent p = par /\
  id p = next_permission db /\ usage_id p = next_usage db /\
  exists t', db' = set_permissions
           (set_usages db (<[next_usage db := t']> (permission_usage_index db)) (next_usage db + 1))
           (<[next_permission db := p]> (permission_index db)) (next_permission db + 1).
Proof.
  unfold create_permission. intros Hc. apply bind_ok_inv in Hc as ([] & _ & Hc).
  destruct (find_by_owner _ a n) eqn:E; [done|]. injection Hc as <- <-.
  split_and!; [done..|]. eexists. reflexivity.
Qed.

(** A parent that a new permission may have. *)
Definition good_parent (db : database) (a : account_name) (n : permission_name) (par : Z) : Prop :=
  (par = 0 /\ n = owner_name) \/
  (0 < par /\ exists q, permission_index db !! par = Some q /\ owner q = a).

Lemma create_permission_tree c (db : database) a n par x t p db' : tree_wf db ->
  valid_level (mk_level a n) = true -> good_parent db a n par ->
  create_permission which c db a n par x t = Ok (p, db') -> tree_wf db'.
Proof.
  intros Hwf Hl Hpar Hc.
  apply create_permission_ok in Hc as (Hnone & Ho & Hn & Hx & Hp & Hid & Hu & t' & ->).
  destruct (fresh_permission _ Hwf) as [Hfresh H0]. rewrite find_by_owner_None in Hnone.
  destruct (tw_id _ Hwf _ _ (tw_reserved _ Hwf)) as [_ Hpos].
  split; cbn [permission_index next_permission set_permissions].
  - rewrite lookup_insert_ne by done. apply Hwf.
  - intros i q [[<- <-]|[_ Hq]]%lookup_insert_Some; [lia|]. apply (tw_id _ Hwf) in Hq. lia.
  - intros i j q r [[<- <-]|[_ Hq]]%lookup_insert_Some [[<- <-]|[_ Hr]]%lookup_insert_Some Hqo Hqn.
    + done.
    + destruct (Hnone _ _ Hr). split; congruence.
    + destruct (Hnone _ _ Hq). split; congruence.
    + by eapply tw_unique.
  - intros i q Hi [[<- <-]|[_ Hq]]%lookup_insert_Some; [by rewrite Ho, Hn|by eapply tw_level].
  - intros i q Hi [[<- <-]|[_ Hq]]%lookup_insert_Some.
    + destruct Hpar as [[-> ->]|(Hp0 & r & Hr & Hro)]; [by left|]. right.
      apply (tw_id _ Hwf) in Hr as Hlt. split; [lia|]. exists r.
      rewrite Hp, lookup_insert_ne by lia. split; [done|congruence].
    + destruct (tw_parent _ Hwf _ _ Hi Hq) as [?|(Hlt & r & Hr & Hro)]; [by left|]. right.
      split; [done|]. exists r. rewrite lookup_insert_ne by congruence. done.
Qed.

Lemma create_permission_tables c (db : database) a n par x t p db' : tables_wf db ->
  valid_level (mk_level a n) = true -> good_parent db a n par ->
  storable x -> is_Some (account_index db !! a) ->
  create_permission which c db a n par x t = Ok (p, db') -> tables_wf db'.
Proof.
  intros Hwf Hl Hpar Hx Ha Hc. pose proof (create_permission_tree _ _ _ _ _ _ _ _ _ (tb_tree _ Hwf) Hl Hpar Hc) as Ht.
  apply create_permission_ok in Hc as (Hnone & Ho & Hn & Hxp & Hp & Hid & Hu & t' & ->).
  split; [done|..]; cbn [permission_index account_index permission_usage_index next_usage
    set_permissions set_usages].
  - intros i q Hi [[<- <-]|[_ Hq]]%lookup_insert_Some; [by rewrite Hxp|by eapply tb_auth].
  - intros i q Hi [[<- <-]|[_ Hq]]%lookup_insert_Some; [by rewrite Ho|by eapply tb_owner].
  - apply Hwf.
  - intros i q Hi [[<- <-]|[_ Hq]]%lookup_insert_Some.
    + rewrite Hu, lookup_insert_eq. split; [done|lia].
    + destruct (tb_usage _ Hwf _ _ Hi Hq) as [? ?]. rewrite lookup_insert_ne by lia. split; [done|lia].
  - intros i j q r Hi Hj [[<- <-]|[_ Hq]]%lookup_insert_Some [[<- <-]|[_ Hr]]%lookup_insert_Some Heq.
    + done.
    + destruct (tb_usage _ Hwf _ _ Hj Hr) as [_ ?]. lia.
    + destruct (tb_usage _ Hwf _ _ Hi Hq) as [_ ?]. lia.
    + by eapply (tb_usage_inj _ Hwf).
Qed.

Lemma create_permission_has c (db : database) a n par x t p db' : tree_wf db ->
  create_permission which c db a n par x t = Ok (p, db') ->
  has_permission db' a n /\ forall b m, has_permission db b m -> has_permission db' b m.
Proof.
  intros Hwf Hc. destruct (fresh_permission _ Hwf) as [Hfresh H0].
  apply create_permission_ok in Hc as (Hnone & Ho & Hn & Hxp & Hp & Hid & Hu & t' & ->).
  split.
  - exists (next_permission db), p. cbn. by rewrite lookup_insert_eq.
  - intros b m (i & q & Hi & Hq & ? & ?). exists i, q. cbn.
    rewrite lookup_insert_ne by congruence. done.
Qed.

(** *** Changing and removing a permission *)

Lemma modify_permission_ok c (db : database) p x p' db' :
  modify_permission which c db p x = Ok (p', db') ->
  p' = mk_permission (id p) (usage_id p) (parent p) (owner p) (name p) (pending_block_time c) x /\
  db' = set_permissions db (<[id p := p']> (permission_index db)) (next_permission db).
Proof. intros Hm. unfold modify_permission in Hm. inv_ok. done. Qed.

(** Replacing a row by one with the same key fields. *)
Lemma replace_permission_tables (db : database) p t x : tables_wf db ->
  permission_index db !! id p = Some p -> id p <> 0 -> storable x ->
  tables_wf (set_permissions db
    (<[id p := mk_permission (id p) (usage_id p) (parent p) (owner p) (name p) t x]>
       (permission_index db)) (next_permission db)).
Proof.
  intros Hwf Hp H0 Hx. set (p' := mk_permission _ _ _ _ _ t x).
  assert (forall i q, <[id p := p']> (permission_index db) !! i = Some q ->
    exists r, permission_index db !! i = Some r /\ id q = id r /\ owner q = owner r /\
      name q = name r /\ parent q = parent r /\ usage_id q = usage_id r /\
      (auth q = auth r \/ auth q = x)) as Hold.
  { intros i q [[<- <-]|[_ Hq]]%lookup_insert_Some; [exists p|exists q]; split_and!; auto. }
  assert (forall i r, permission_index db !! i = Some r ->
    exists q, <[id p := p']> (permission_index db) !! i = Some q /\ owner q = owner r) as Hnew.
  { intros i r Hr. destruct (decide (i = id p)) as [->|]; [|exists r; by rewrite lookup_insert_ne].
    exists p'. rewrite lookup_insert_eq. split; [done|]. by replace r with p by congruence. }
  pose proof (tb_tree _ Hwf) as Ht. split; [split|..]; cbn [permission_index account_index
    next_permission permission_usage_index next_usage set_permissions].
  - rewrite lookup_insert_ne by done. apply Ht.
  - intros i q (r & Hr & -> & _)%Hold. by apply (tw_id _ Ht).
  - intros i j q1 q2 (r1 & Hr1 & _ & -> & -> & _)%Hold (r2 & Hr2 & _ & -> & -> & _)%Hold.
    by eapply tw_unique.
  - intros i q Hi (r & Hr & _ & -> & -> & _)%Hold. by eapply tw_level.
  - intros i q Hi (r & Hr & _ & -> & -> & -> & _)%Hold.
    destruct (tw_parent _ Ht _ _ Hi Hr) as [?|(? & q' & Hq' & <-)]; [by left|]. right.
    split; [done|]. by apply Hnew.
  - intros i q Hi (r & Hr & _ & _ & _ & _ & _ & [-> | ->])%Hold; [by eapply tb_auth|done].
  - intros i q Hi (r & Hr & _ & -> & _)%Hold. by eapply tb_owner.
  - apply Hwf.
  - intros i q Hi (r & Hr & _ & _ & _ & _ & -> & _)%Hold. by eapply tb_usage.
  - intros i j q1 q2 Hi Hj (r1 & Hr1 & _ & _ & _ & _ & -> & _)%Hold (r2 & Hr2 & _ & _ & _ & _ & -> & _)%Hold.
    by eapply tb_usage_inj.
Qed.

Lemma replace_permission_has (db : database) p t x : permission_index db !! id p = Some p ->
  forall b m, has_permission db b m -> has_permission (set_permissions db
    (<[id p := mk_permission (id p) (usage_id p) (parent p) (owner p) (name p) t x]>
       (permission_index db)) (next_permission db)) b m.
Proof.
  intros Hp b m (i & q & Hi & Hq & Ho & Hn). exists i.
  cbn [permission_index set_permissions]. destruct (decide (i = id p)) as [->|].
  - eexists. rewrite lookup_insert_eq. split_and!; [done..| |]; cbn; congruence.
  - exists q. by rewrite lookup_insert_ne.
Qed.

Lemma existsb_false {A} (f : A -> bool) l : existsb f l = false -> forall x, x ∈ l -> f x = false.
Proof.
  intros Hf x Hx. destruct (f x) eqn:E; [|done]. rewrite <- Hf. symmetry.
  apply existsb_exists. exists x. split; [by apply list_elem_of_In|done].
Qed.

Lemma remove_permission_ok (db : database) p db' : remove_permission db p = Ok db' ->
  (forall i q, permission_index db !! i = Some q -> parent q <> id p) /\
  db' = set_permissions (set_usages db (delete (usage_id p) (permission_usage_index db)) (next_usage db))
          (delete (id p) (permission_index db)) (next_permission db).
Proof.
  unfold remove_permission. intros Hr. apply bind_ok_inv in Hr as ([] & Hc & Hr).
  apply EOS_ASSERT_ok, negb_true_iff in Hc.
  destruct (permission_usage_index db !! usage_id p); [|done]. injection Hr as <-. split; [|done].
  intros i q Hq Hpar. apply elem_of_map_to_list in Hq. eapply existsb_false in Hc; [|exact Hq].
  cbn in Hc. by rewrite bool_decide_eq_true_2 in Hc.
Qed.

Lemma remove_permission_tables (db : database) p db' : tables_wf db ->
  permission_index db !! id p = Some p -> id p <> 0 ->
  remove_permission db p = Ok db' -> tables_wf db'.
Proof.
  intros Hwf Hp H0 [Hch ->]%remove_permission_ok. pose proof (tb_tree _ Hwf) as Ht.
  split; [split|..]; cbn [permission_index account_index
    next_permission permission_usage_index next_usage set_permissions set_usages].
  - rewrite lookup_delete_ne by done. apply Ht.
  - intros i q [_ Hq]%lookup_delete_Some. by apply Ht.
  - intros i j q r [_ Hq]%lookup_delete_Some [_ Hr]%lookup_delete_Some. by eapply tw_unique.
  - intros i q Hi [_ Hq]%lookup_delete_Some. by eapply tw_level.
  - intros i q Hi [_ Hq]%lookup_delete_Some.
    destruct (tw_parent _ Ht _ _ Hi Hq) as [?|(? & r & Hr & Ho)]; [by left|]. right. split; [done|].
    exists r. rewrite lookup_delete_ne; [done|]. intros E. symmetry in E. by apply (Hch _ _ Hq).
  - intros i q Hi [_ Hq]%lookup_delete_Some. by eapply tb_auth.
  - intros i q Hi [_ Hq]%lookup_delete_Some. by eapply tb_owner.
  - apply Hwf.
  - intros i q Hi [Hne Hq]%lookup_delete_Some. destruct (tb_usage _ Hwf _ _ Hi Hq) as [? ?].
    split; [|done]. rewrite lookup_delete_ne; [done|]. intros E. apply Hne.
    by eapply (tb_usage_inj _ Hwf (id p) i p q).
  - intros i j q r Hi Hj [_ Hq]%lookup_delete_Some [_ Hr]%lookup_delete_Some. by eapply tb_usage_inj.
Qed.

Lemma remove_permission_has (db : database) p db' : tree_wf db ->
  permission_index db !! id p = Some p -> remove_permission db p = Ok db' ->
  forall b m, has_permission db b m -> (b, m) <> (owner p, name p) -> has_permission db' b m.
Proof.
  intros Ht Hp [_ ->]%remove_permission_ok b m (i & q & Hi & Hq & <- & <-) Hne.
  exists i, q. cbn. rewrite lookup_delete_ne; [done|]. intros <-. apply Hne. congruence.
Qed.

(** *** Authorities that pass the checks may be stored *)

Lemma sum_with_fmap {A B} (g : A -> B) (f : B -> Z) l : sum_with f (g <$> l) = sum_with (fun x => f (g x)) l.
Proof. induction l as [|x l IH]; cbn; [done|]. unfold sum_with in *. by rewrite IH. Qed.

Lemma sum_entries (a : authority K) : sum_with meta_weight (entries a) = total_weight a.
Proof.
  unfold entries, total_weight. rewrite !sum_with_app, !sum_with_fmap.
  change (sum_with level_weight (accounts a) +
    (sum_with key_weight_of (keys a) + sum_with wait_weight_of (waits a)) =
    sum_with key_weight_of (keys a) + sum_with level_weight (accounts a) +
    sum_with wait_weight_of (waits a)). lia.
Qed.

Lemma widths_weights (a : authority K) : authority_widths a -> weights_ok a.
Proof.
  intros [_ Hk Ha Hw]. unfold weights_ok, entries. rewrite !Forall_app, !Forall_fmap.
  split_and!; (eapply Forall_impl; [eassumption|]); cbn; intros; lia.
Qed.

Lemma check_account_entry_ok (db : database) e : tables_wf db ->
  check_account_entry db e = Ok tt -> valid_level (level e) = true.
Proof.
  intros Hwf Hc. unfold check_account_entry in Hc. apply bind_ok_inv in Hc as ([] & Ha & Hc).
  apply EOS_ASSERT_ok, bool_decide_eq_true in Ha. apply (tb_named _ Hwf) in Ha.
  unfold valid_level. rewrite Ha. cbn [negb andb].
  case_bool_decide as E1; [by rewrite E1|]. case_bool_decide as E2; [by rewrite E2|].
  case_bool_decide as E3; [by rewrite E3|]. cbn [orb] in Hc.
  unfold get_permission, valid_level in Hc. rewrite Ha in Hc. cbn [negb andb] in Hc.
  destruct (Name.empty (permission (level e))); [|done]. cbn in Hc. by destruct (decide _).
Qed.

Lemma precondition_ok c (db : database) a : tables_wf db ->
  validate_authority_precondition c db a = Ok tt ->
  Forall (fun e => valid_level (level e) = true) (accounts a).
Proof.
  intros Hwf Hv. unfold validate_authority_precondition in Hv.
  apply bind_ok_inv in Hv as (u & Hl & _). clear -Hwf Hl. revert u Hl.
  generalize tt at 1. induction (accounts a) as [|e l IH]; intros v u Hl; [constructor|].
  cbn [foldM] in Hl. apply bind_ok_inv in Hl as ([] & He & Hl).
  constructor; [by eapply check_account_entry_ok|by eapply IH].
Qed.

Lemma validated_storable c (db : database) a : tables_wf db -> authority_widths a ->
  validate key_lt a = true -> validate_authority_precondition c db a = Ok tt -> storable a.
Proof.
  intros Hwf Hw Hv Hp. apply authority_validate_ok in Hv; [|done]. split_and!.
  - pose proof (sum_u16_bound _ _ (aw_keys _ Hw)). pose proof (sum_u16_bound _ _ (aw_accounts _ Hw)).
    assert (Forall (fun w => is_u16 (wait_weight_of w)) (waits a)) as Hws
      by (eapply Forall_impl; [apply (aw_waits _ Hw)|]; by intros ? []).
    pose proof (sum_u16_bound _ _ Hws). pose proof (va_size _ _ Hv). pose proof (va_threshold _ _ Hv).
    split_and!; [lia|by apply widths_weights|]. rewrite sum_entries. unfold total_weight. lia.
  - apply (va_size _ _ Hv).
  - by eapply precondition_ok.
Qed.

(** ** The size of an authority *)

Section sizes.
Hypothesis pack_size_bound : forall k, 0 <= pack_size k < 2 ^ 32.

(** The size without wrap-around. *)
Definition authority_bytes (a : authority K) : Z :=
  32 * Z.of_nat (length (accounts a)) + 16 * Z.of_nat (length (waits a)) +
  sum_with (fun k => 16 + pack_size (key k)) (keys a).

Lemma keys_bytes_bound (l : list (key_weight K)) :
  0 <= sum_with (fun k => 16 + pack_size (key k)) l <= Z.of_nat (length l) * (16 + 2 ^ 32).
Proof.
  induction l as [|k l IH]; [cbn; lia|]. unfold sum_with in *. cbn [foldr length].
  pose proof (pack_size_bound (key k)). lia.
Qed.

Lemma keys_size_exact (l : list (key_weight K)) n :
  0 <= n -> n + Z.of_nat (length l) * (16 + 2 ^ 32) < 2 ^ 64 ->
  foldl (fun n k => u64 (u64 (n + billable_size_v 8) + pack_size (key k))) n l
  = n + sum_with (fun k => 16 + pack_size (key k)) l.
Proof.
  revert n. induction l as [|k l IH]; intros n Hn Hb; [cbn; lia|]. cbn [foldl length] in *.
  change (billable_size_v 8) with 16 in *. pose proof (pack_size_bound (key k)).
  rewrite (u64_small (n + 16)), u64_small by lia. rewrite IH by lia.
  unfold sum_with. cbn [foldr]. lia.
Qed.

Lemma billable_exact a : storable a ->
  get_billable_size pack_size a = authority_bytes a /\ 0 <= authority_bytes a < 2 ^ 50.
Proof.
  intros (_ & Hsize & _). unfold get_billable_size, authority_bytes.
  pose proof (keys_bytes_bound (keys a)). rewrite keys_size_exact by lia.
  change (billable_size_v 24) with 32. change (billable_size_v 16) with 16.
  rewrite (u64_small (_ * 32)), (u64_small (_ * 16)) by lia.
  rewrite (u64_small (_ + _ * 16)), u64_small by lia. lia.
Qed.

(** ** RAM *)

(** What the tables take for an account: its rows in the tables of
    permissions and links, and the account itself. *)
Definition permission_row (a : account_name) (i : Z) (p : permission_object) : Z :=
  if decide (i <> 0 /\ owner p = a) then billable_permission_object + authority_bytes (auth p) else 0.
Definition link_row (a : account_name) (k : account_name * account_name * action_name)
    (_ : permission_name) : Z :=
  if decide (k.1.1 = a) then billable_permission_link_object else 0.
Definition account_row (db : database) (a : account_name) : Z :=
  match account_index db !! a with Some _ => overhead_per_account_ram_bytes | None => 0 end.
Definition charged (db : database) (a : account_name) : Z :=
  sum_map (permission_row a) (permission_index db) +
  sum_map (link_row a) (permission_link_index db) + account_row db a.

(** What the account is billed. *)
Definition billed (db : database) (a : account_name) : Z :=
  ResourceLimits.billed (resources db) a.

Abbreviation only_for := ResourceLimits.only_for.

Lemma link_row_key (a : account_name) (k : account_name * account_name * action_name) v :
  link_row a k v = only_for k.1.1 a billable_permission_link_object.
Proof. unfold link_row, ResourceLimits.only_for. repeat destruct (decide _); congruence. Qed.

Lemma permission_row_key (a : account_name) i (p : permission_object) : i <> 0 ->
  permission_row a i p
  = only_for (owner p) a (billable_permission_object + authority_bytes (auth p)).
Proof. intros Hi. unfold permission_row, ResourceLimits.only_for. repeat destruct (decide _); naive_solver. Qed.

(** Charging RAM changes nothing but what is kept of the RAM. *)
Definition charges (charge : database -> account_name -> Z -> result database) : Prop :=
  forall db x d db', ResourceLimits.inv (resources db) -> is_s64 d -> charge db x d = Ok db' ->
    exists r dl v, db' = set_ram db r dl v /\ ResourceLimits.inv r /\
      forall a, billed db' a = billed db a + only_for x a d.

Lemma add_ram_usage_ok : charges add_ram_usage.
Proof.
  intros db x d db' Hinv Hd Hr. unfold add_ram_usage in Hr. apply bind_ok_inv in Hr as (r & Hr & [= <-]).
  do 3 eexists. split_and!; [done|by eapply ResourceLimits.ram_usage_inv|].
  by apply ResourceLimits.add_pending_ram_billed.
Qed.

Lemma add_pending_ram_usage_ok : charges add_pending_ram_usage.
Proof.
  intros db x d db' Hinv Hd Hr. unfold add_pending_ram_usage in Hr. apply bind_ok_inv in Hr as (r & Hr & [= <-]).
  do 3 eexists. split_and!; [done|by eapply ResourceLimits.ram_usage_inv|].
  by apply ResourceLimits.add_pending_ram_billed.
Qed.

Lemma initialize_account_billed (db db1 : database) n r a : resources db1 = resources db ->
  ResourceLimits.initialize_account (resources db) n = Ok r ->
  billed (set_resources db1 r) a = billed db a.
Proof.
  intros _ Hi. unfold ResourceLimits.initialize_account, ResourceLimits.create_row in Hi.
  destruct (ResourceLimits.limits _ !! _); [done|].
  destruct (ResourceLimits.usage _ !! n) eqn:E; [done|]. injection Hi as <-.
  unfold billed, ResourceLimits.billed. cbn. destruct (decide (a = n)) as [->|].
  - by rewrite lookup_insert_eq, E.
  - by rewrite lookup_insert_ne.
Qed.

Lemma charged_create c (db : database) x n par auth t p db' a : tree_wf db ->
  create_permission which c db x n par auth t = Ok (p, db') ->
  charged db' a = charged db a + only_for x a (billable_permission_object + authority_bytes auth).
Proof.
  intros Hwf Hc. destruct (fresh_permission _ Hwf) as [Hfresh H0].
  apply create_permission_ok in Hc as (_ & <- & _ & <- & _ & _ & _ & t' & ->).
  unfold charged, account_row. cbn [permission_index permission_link_index account_index
    set_permissions set_usages]. rewrite sum_map_insert_new by done.
  rewrite permission_row_key by done. lia.
Qed.

Lemma charged_replace (db : database) p p' a : permission_index db !! id p = Some p -> id p <> 0 ->
  owner p' = owner p ->
  charged (set_permissions db (<[id p := p']> (permission_index db)) (next_permission db)) a
  = charged db a + only_for (owner p) a (authority_bytes (auth p') - authority_bytes (auth p)).
Proof.
  intros Hp H0 Ho. unfold charged, account_row. cbn [permission_index permission_link_index
    account_index set_permissions]. rewrite (sum_map_insert_old _ _ _ _ p) by done.
  rewrite !permission_row_key, Ho by done. unfold ResourceLimits.only_for. destruct (decide _); lia.
Qed.

Lemma charged_remove (db : database) p db' a : permission_index db !! id p = Some p -> id p <> 0 ->
  remove_permission db p = Ok db' ->
  charged db' a = charged db a - only_for (owner p) a (billable_permission_object + authority_bytes (auth p)).
Proof.
  intros Hp H0 [_ ->]%remove_permission_ok. unfold charged, account_row.
  cbn [permission_index permission_link_index account_index set_permissions set_usages].
  rewrite (sum_map_delete _ (permission_index db) _ _ Hp), permission_row_key by done. lia.
Qed.

Lemma charged_links (db : database) l a :
  charged (set_links db l) a =
  charged db a - sum_map (link_row a) (permission_link_index db) + sum_map (link_row a) l.
Proof. unfold charged, account_row. cbn. lia. Qed.

Lemma charged_account (db : database) n b a : account_index db !! n = None ->
  charged (set_accounts db (<[n := b]> (account_index db))) a
  = charged db a + only_for n a overhead_per_account_ram_bytes.
Proof.
  intros Hn. unfold charged, account_row, ResourceLimits.only_for. cbn [account_index permission_index
    permission_link_index set_accounts]. destruct (decide (a = n)) as [->|Hne].
  - rewrite lookup_insert_eq, Hn. lia.
  - rewrite lookup_insert_ne by done. lia.
Qed.

Lemma permission_size_exact a : storable a ->
  permission_size a = billable_permission_object + authority_bytes a.
Proof.
  intros Ha. unfold permission_size. destruct (billable_exact _ Ha) as [-> Hb].
  change billable_permission_object with 288. rewrite u64_small, s64_small by lia. done.
Qed.

(** ** The handlers *)

Record db_wf (db : database) : Prop := {
  dw_tables : tables_wf db;
  dw_complete : accounts_complete db;
  dw_resources : ResourceLimits.inv (resources db);
}.

(** The tables stay well formed, and every account is billed what the tables
    take. *)
Definition accounted (db db' : database) : Prop :=
  db_wf db' /\ forall a, billed db' a - billed db a = charged db' a - charged db a.

Lemma tables_wf_ram (db : database) r d v : tables_wf db -> tables_wf (set_ram db r d v).
Proof. intros [[H1 H2 H3 H4 H5] ? ? ? ? ?]. split; [by split|done..]. Qed.

(** The tables with the same permissions and links, the same accounts up to
    their flags, and the same usage rows up to their times. *)
Record same_tables (db db' : database) : Prop := {
  st_permissions : permission_index db' = permission_index db;
  st_next : next_permission db' = next_permission db;
  st_links : permission_link_index db' = permission_link_index db;
  st_usages u : is_Some (permission_usage_index db' !! u) <-> is_Some (permission_usage_index db !! u);
  st_next_usage : next_usage db' = next_usage db;
  st_accounts a : is_Some (account_index db' !! a) <-> is_Some (account_index db !! a);
}.

Lemma same_tables_wf (db db' : database) : same_tables db db' ->
  tables_wf db /\ accounts_complete db -> tables_wf db' /\ accounts_complete db'.
Proof.
  intros [Ep En El Eu Enu Ea] [[[H1 H2 H3 H4 H5] H6 H7 H8 H9 H10] Hc].
  split; [split; [split|..]|]; rewrite ?Ep, ?En; try done.
  - intros i p Hi Hp. apply Ea. by eapply H7.
  - intros a Ha. by apply H8, Ea.
  - intros i p Hi Hp. destruct (H9 i p Hi Hp). rewrite Enu. split; [by apply Eu|done].
  - intros a Ha. apply Ea in Ha. destruct (Hc a Ha) as [Ho Hac]. unfold has_permission. by rewrite Ep.
Qed.

Lemma same_tables_charged (db db' : database) a : same_tables db db' -> charged db' a = charged db a.
Proof.
  intros [Ep _ El _ _ Ea]. unfold charged, account_row. rewrite Ep, El. specialize (Ea a).
  destruct (account_index db' !! a), (account_index db !! a); naive_solver.
Qed.

Lemma authority_bytes_nonneg (a : authority K) : 0 <= authority_bytes a.
Proof. pose proof (keys_bytes_bound (keys a)). unfold authority_bytes. lia. Qed.

Lemma permission_rows_nonneg (a : account_name) (m : gmap Z permission_object) : 0 <= sum_map (permission_row a) m.
Proof.
  apply sum_map_nonneg. intros i p _. unfold permission_row. destruct (decide _); [|done].
  pose proof (authority_bytes_nonneg (auth p)). change billable_permission_object with 288. lia.
Qed.

Lemma link_rows_nonneg (a : account_name) (m : gmap (account_name * account_name * action_name) permission_name) :
  0 <= sum_map (link_row a) m.
Proof. apply sum_map_nonneg. intros k p _. unfold link_row. destruct (decide _); [|done]. by vm_compute. Qed.

Lemma charged_nonneg (db : database) a : 0 <= charged db a.
Proof.
  unfold charged, account_row. pose proof (permission_rows_nonneg a (permission_index db)).
  pose proof (link_rows_nonneg a (permission_link_index db)). change overhead_per_account_ram_bytes with 2048.
  destruct (account_index db !! a); lia.
Qed.

(** An account takes the RAM of a permission at least. *)
Lemma charged_account_min (db : database) a : accounts_complete db -> is_Some (account_index db !! a) ->
  overhead_per_account_ram_bytes + billable_permission_object <= charged db a.
Proof.
  intros Hc Ha. destruct (Hc a Ha) as [(i & p & Hi & Hp & Ho & _) _]. destruct Ha as [b Hb].
  unfold charged, account_row. rewrite Hb, (sum_map_delete _ _ i p Hp).
  assert (0 <= sum_map (permission_row a) (delete i (permission_index db))) by apply permission_rows_nonneg.
  assert (0 <= sum_map (link_row a) (permission_link_index db)) by apply link_rows_nonneg.
  assert (billable_permission_object <= permission_row a i p); [|lia]. unfold permission_row.
  rewrite decide_True by done. pose proof (authority_bytes_nonneg (auth p)). lia.
Qed.

Lemma tables_wf_links (db : database) l : tables_wf db -> tables_wf (set_links db l).
Proof. intros [[H1 H2 H3 H4 H5] ? ? ? ? ?]. split; [by split|done..]. Qed.

Lemma tables_wf_account (db : database) n b : tables_wf db -> Name.empty n = false ->
  tables_wf (set_accounts db (<[n := b]> (account_index db))).
Proof.
  intros [[H1 H2 H3 H4 H5] ? Ho Hn ? ?] Hne. split; [by split|done|..|done|done]; cbn.
  - intros i p Hi Hp. apply lookup_insert_is_Some'. right. by eapply Ho.
  - intros a [->|Ha]%lookup_insert_is_Some'; [done|by apply Hn].
Qed.

(** The last step of a handler: charge the difference. *)
Lemma charge_accounted charge (db db1 : database) x d db' : charges charge -> is_s64 d ->
  tables_wf db1 -> accounts_complete db1 -> ResourceLimits.inv (resources db1) ->
  (forall a, billed db1 a = billed db a) ->
  (forall a, charged db1 a = charged db a + only_for x a d) ->
  charge db1 x d = Ok db' -> accounted db db'.
Proof.
  intros Hcg Hd Ht Hc Hr Hb Hch Ha. apply Hcg in Ha as (r & dl & v & -> & Hr' & Hbill); [|done..].
  split; [split; [by apply tables_wf_ram|exact Hc|done]|]. intros a.
  change (charged (set_ram db1 r dl v) a) with (charged db1 a).
  rewrite Hbill, Hb, Hch. lia.
Qed.

Lemma unlinkauth_accounted (db : database) auths u db' : db_wf db ->
  apply_eosio_unlinkauth db auths u = Ok db' -> accounted db db'.
Proof.
  intros [Ht Hc Hr] Hu. unfold apply_eosio_unlinkauth in Hu. apply bind_ok_inv in Hu as ([] & _ & Hu).
  destruct (permission_link_index db !! _) as [n|] eqn:El; [|done].
  apply bind_ok_inv in Hu as (db1 & Ha & [= <-]).
  apply add_ram_usage_ok in Ha as (r & dl & v & -> & Hr' & Hbill); [|done|vm_compute; done].
  split; [split; [by apply tables_wf_links, tables_wf_ram|exact Hc|done]|]. intros a.
  rewrite charged_links. cbn [permission_link_index set_ram].
  change (charged (set_ram db r dl v) a) with (charged db a).
  change (billed (set_links _ _) a) with (billed (set_ram db r dl v) a).
  rewrite (sum_map_delete _ (permission_link_index db) _ _ El), link_row_key, Hbill. cbn.
  unfold ResourceLimits.only_for. destruct (decide _); lia.
Qed.

Lemma linkauth_accounted c (db : database) auths l db' : db_wf db ->
  apply_eosio_linkauth c db auths l = Ok db' -> accounted db db'.
Proof.
  intros [Ht Hc Hr] Hl. unfold apply_eosio_linkauth in Hl. do 5 apply bind_ok_inv in Hl as ([] & _ & Hl).
  destruct (permission_link_index db !! _) as [n|] eqn:El.
  - apply bind_ok_inv in Hl as ([] & _ & [= <-]).
    split; [split; [by apply tables_wf_links|exact Hc|done]|]. intros a.
    rewrite charged_links, (sum_map_insert_old _ _ _ _ n), !link_row_key by done.
    change (billed (set_links _ _) a) with (billed db a). lia.
  - eapply charge_accounted in Hl; [exact Hl|apply add_ram_usage_ok|vm_compute; done|by apply tables_wf_links|exact Hc|done|done|].
    intros a. rewrite charged_links, sum_map_insert_new, link_row_key by done. cbn. lia.
Qed.

Lemma deleteauth_accounted (db : database) auths d db' : db_wf db ->
  apply_eosio_deleteauth db auths d = Ok db' -> accounted db db'.
Proof.
  intros [Ht Hc Hr] Hd. unfold apply_eosio_deleteauth in Hd.
  apply bind_ok_inv in Hd as ([] & _ & Hd). apply bind_ok_inv in Hd as ([] & Hna & Hd).
  apply bind_ok_inv in Hd as ([] & Hno & Hd). apply bind_ok_inv in Hd as ([] & _ & Hd).
  apply bind_ok_inv in Hd as (p & Hp & Hd). apply bind_ok_inv in Hd as (db1 & Hrm & Hd).
  apply EOS_ASSERT_ok in Hna, Hno. bool_to_prop.
  destruct (get_permission_ok _ _ _ (tb_tree _ Ht) Hp) as (Hi & H0 & [= Ho Hn]).
  pose proof (tb_auth _ Ht _ _ H0 Hi) as Hst. destruct (billable_exact _ Hst) as [_ Hb].
  pose proof (permission_size_exact _ Hst) as Hps. rewrite Hps in Hd.
  pose proof Hrm as Hrm'. apply remove_permission_ok in Hrm' as [_ Heq].
  eapply charge_accounted in Hd; [exact Hd|apply add_ram_usage_ok| | | | | |].
  - change billable_permission_object with 288. lia.
  - by eapply remove_permission_tables.
  - intros a Ha. rewrite Heq in Ha. destruct (Hc a Ha) as [H1 H2].
    split; (eapply remove_permission_has; [apply Ht|exact Hi|exact Hrm|done|]); congruence.
  - by rewrite Heq.
  - by rewrite Heq.
  - intros a. rewrite (charged_remove db p) by done. rewrite <- Ho. unfold ResourceLimits.only_for.
    destruct (decide _); lia.
Qed.

Lemma check_updateauth_ok c (db : database) u : check_updateauth c db u = Ok tt ->
  is_Some (account_index db !! ua_account u) /\ validate key_lt (ua_auth u) = true /\
  Name.empty (ua_permission u) = false.
Proof.
  unfold check_updateauth. intros Hc. apply bind_ok_inv in Hc as ([] & Hn & Hc).
  do 2 apply bind_ok_inv in Hc as ([] & _ & Hc). apply bind_ok_inv in Hc as ([] & Ha & Hc).
  apply bind_ok_inv in Hc as ([] & Hv & _). apply EOS_ASSERT_ok in Hn, Hv.
  split_and!; [by destruct (account_index db !! _)|done|]. by apply negb_true_iff.
Qed.

(** The parent that updateauth looks up. *)
Lemma parent_lookup_ok (db : database) (u : @updateauth K) par : tables_wf db ->
  (if bool_decide (ua_permission u = owner_name) then mret 0
   else p ← get_permission db (mk_level (ua_account u) (ua_parent u)); mret (id p)) = Ok par ->
  good_parent db (ua_account u) (ua_permission u) par.
Proof.
  intros Ht Hp. case_bool_decide as E; [injection Hp as <-; by left|].
  apply bind_ok_inv in Hp as (p & Hp & [= <-]).
  apply get_permission_ok in Hp as (Hi & H0 & [= Ho _]); [|apply Ht].
  right. destruct (tw_id _ (tb_tree _ Ht) _ _ Hi) as [_ ?]. split; [lia|]. by exists p.
Qed.

Lemma find_permission_ok (db : database) level r : tree_wf db -> find_permission db level = Ok r ->
  match r with
  | Some p => permission_index db !! id p = Some p /\ id p <> 0 /\ level = mk_level (owner p) (name p)
  | None => valid_level level = true
  end.
Proof.
  intros Hwf Hf. unfold find_permission in Hf. apply bind_ok_inv in Hf as ([] & Hv & [= <-]).
  destruct (find_by_owner _ _ _) as [p|] eqn:E; [|by apply EOS_ASSERT_ok in Hv].
  apply (get_permission_ok db level p Hwf). unfold get_permission. by rewrite Hv, E.
Qed.

Lemma updateauth_accounted c (db : database) auths u db' : db_wf db -> authority_widths (ua_auth u) ->
  apply_eosio_updateauth c db auths u = Ok db' -> accounted db db'.
Proof.
  intros [Ht Hc Hr] Hw Hu. unfold apply_eosio_updateauth in Hu.
  apply bind_ok_inv in Hu as ([] & _ & Hu). apply bind_ok_inv in Hu as ([] & Hck & Hu).
  apply bind_ok_inv in Hu as ([] & Hpre & Hu). apply bind_ok_inv in Hu as (found & Hf & Hu).
  apply bind_ok_inv in Hu as (par & Hpar & Hu).
  destruct (check_updateauth_ok _ _ _ Hck) as (Hacc & Hval & Hne).
  assert (storable (ua_auth u)) as Hst by (by eapply validated_storable).
  apply parent_lookup_ok in Hpar; [|done].
  apply find_permission_ok in Hf; [|apply Ht].
  destruct (billable_exact _ Hst) as [_ Hb]. destruct found as [p|].
  - destruct Hf as (Hi & H0 & _). apply bind_ok_inv in Hu as ([] & _ & Hu).
    apply bind_ok_inv in Hu as ([p' db1] & Hm & Hu). pose proof (tb_auth _ Ht _ _ H0 Hi) as Hst'.
    destruct (billable_exact _ Hst') as [_ Hb']. pose proof Hm as [-> ->]%modify_permission_ok.
    cbn [auth owner] in Hu. rewrite !permission_size_exact in Hu by done.
    eapply charge_accounted in Hu; [exact Hu|apply add_ram_usage_ok|lia|by apply replace_permission_tables| |done|done|].
    + intros a Ha. destruct (Hc a Ha) as [H1 H2]. split; by apply replace_permission_has.
    + intros a. rewrite charged_replace by done. unfold ResourceLimits.only_for. cbn [auth]. destruct (decide _); lia.
  - apply bind_ok_inv in Hu as ([p db1] & Hm & Hu). pose proof Hm as Hm'.
    apply create_permission_ok in Hm' as (_ & _ & _ & Ha & _ & _ & _ & t' & Heq).
    rewrite Ha, permission_size_exact in Hu by done.
    eapply charge_accounted in Hu; [exact Hu|apply add_ram_usage_ok| |by eapply create_permission_tables| |by rewrite Heq|by rewrite Heq|].
    + change billable_permission_object with 288. lia.
    + intros a Hacc'. rewrite Heq in Hacc'. destruct (Hc a Hacc') as [H1 H2].
      destruct (create_permission_has _ _ _ _ _ _ _ _ _ (tb_tree _ Ht) Hm) as [_ Hmono].
      split; by apply Hmono.
    + intros a. by eapply charged_create; [apply Ht|].
Qed.

(** A new account with its two permissions. *)
Lemma account_permissions_accounted charge c (db : database) n b o a t db' : charges charge -> db_wf db ->
  account_index db !! n = None -> Name.empty n = false -> storable o -> storable a ->
  create_account_permissions charge c (set_accounts db (<[n := b]> (account_index db))) n o a t = Ok db' ->
  accounted db db'.
Proof.
  intros Hcg [Ht Hc Hr] Hnew Hne Ho Ha Hp. unfold create_account_permissions in Hp.
  apply bind_ok_inv in Hp as ([p1 db1] & H1 & Hp). apply bind_ok_inv in Hp as ([p2 db2] & H2 & Hp).
  apply bind_ok_inv in Hp as (r & Hin & Hp).
  set (db0 := set_accounts db _) in *.
  assert (tables_wf db0) as Ht0 by (by apply tables_wf_account).
  assert (is_Some (account_index db0 !! n)) as Hn0 by (cbn; by rewrite lookup_insert_eq).
  assert (valid_level (mk_level n owner_name) = true /\ valid_level (mk_level n active_name) = true)
    as [Hv1 Hv2] by (unfold valid_level; cbn [actor permission]; by rewrite Hne).
  assert (tables_wf db1) as Ht1 
    by (apply (create_permission_tables c db0 n owner_name 0 o t p1); [done|done|by left|done..]).
  pose proof H1 as Hok1. apply create_permission_ok in Hok1 as (_ & Ho1 & _ & _ & _ & Hid1 & _ & t1 & E1).
  destruct (fresh_permission _ (tb_tree _ Ht0)) as [_ Hpos].
  destruct (tw_id _ (tb_tree _ Ht0) _ _ (tw_reserved _ (tb_tree _ Ht0))) as [_ Hlt].
  assert (good_parent db1 n active_name (id p1)) as Hg.
  { right. split; [lia|]. exists p1. rewrite E1, Hid1. cbn. by rewrite lookup_insert_eq. }
  assert (is_Some (account_index db1 !! n)) as Hn1 by (by rewrite E1).
  assert (tables_wf db2) as Ht2 by (by eapply create_permission_tables).
  pose proof H2 as Hok2. apply create_permission_ok in Hok2 as (_ & _ & _ & _ & _ & _ & _ & t2 & E2).
  destruct (create_permission_has _ _ _ _ _ _ _ _ _ (tb_tree _ Ht0) H1) as [Hh1 Hm1].
  destruct (create_permission_has _ _ _ _ _ _ _ _ _ (tb_tree _ Ht1) H2) as [Hh2 Hm2].
  assert (resources db2 = resources db) as Er by (by rewrite E2, E1).
  rewrite Er in Hin. destruct (billable_exact _ Ho) as [Eo Hbo], (billable_exact _ Ha) as [Ea Hba].
  eapply charge_accounted in Hp; [exact Hp|exact Hcg| | | | | |].
  - apply s64_range.
  - by apply tables_wf_ram.
  - intros x Hx. cbn in Hx. rewrite E2, E1 in Hx. cbn in Hx. apply lookup_insert_is_Some' in Hx as [<-|Hx].
    + split; [by apply Hm2|done].
    + destruct (Hc x Hx) as [Hx1 Hx2]. split; by apply Hm2, Hm1.
  - by eapply ResourceLimits.initialize_account_inv.
  - intros x. by eapply initialize_account_billed.
  - intros x. change (charged (set_resources db2 r) x) with (charged db2 x).
    erewrite (charged_create _ db1), (charged_create _ db0) by (done || apply Ht0 || apply Ht1).
    unfold db0. rewrite charged_account by done. unfold account_ram. rewrite Eo, Ea.
    change billable_permission_object with 288. change overhead_per_account_ram_bytes with 2048.
    rewrite s64_small by lia. unfold ResourceLimits.only_for. destruct (decide _); lia.
Qed.

Lemma newaccount_accounted c (db : database) auths n db' : db_wf db ->
  authority_widths (na_owner n) -> authority_widths (na_active n) ->
  apply_eosio_newaccount c db auths n = Ok db' -> accounted db db'.
Proof.
  intros Hdb Hwo Hwa Hn. unfold apply_eosio_newaccount in Hn.
  apply bind_ok_inv in Hn as ([] & _ & Hn). apply bind_ok_inv in Hn as ([] & Hvo & Hn).
  apply bind_ok_inv in Hn as ([] & Hva & Hn). apply bind_ok_inv in Hn as ([] & Hne & Hn).
  apply bind_ok_inv in Hn as ([] & _ & Hn). apply bind_ok_inv in Hn as (b & _ & Hn).
  do 2 apply bind_ok_inv in Hn as ([] & _ & Hn). apply bind_ok_inv in Hn as (db1 & Hc & Hn).
  apply bind_ok_inv in Hn as ([] & Hpo & Hn). apply bind_ok_inv in Hn as ([] & Hpa & Hn).
  apply EOS_ASSERT_ok in Hvo, Hva, Hne. apply negb_true_iff in Hne. unfold create_account in Hc.
  destruct (account_index db !! na_name n) eqn:E; [done|]. injection Hc as <-.
  assert (tables_wf (set_accounts db (<[na_name n := false]> (account_index db)))) as Ht1
    by (apply tables_wf_account; [apply Hdb|done]).
  eapply account_permissions_accounted; [apply add_ram_usage_ok|done|done|done| | |exact Hn]; by eapply validated_storable.
Qed.

Lemma native_account_accounted c (db : database) t n o a b db' : db_wf db ->
  Name.empty n = false -> storable o -> storable a ->
  create_native_account c db t n o a b = Ok db' -> accounted db db'.
Proof.
  intros Hdb Hne Ho Ha Hn. unfold create_native_account in Hn.
  apply bind_ok_inv in Hn as (db1 & Hc & Hn). apply bind_ok_inv in Hn as (db2 & Hp & Hn).
  apply bind_ok_inv in Hn as ([] & _ & [= <-]). unfold create_account in Hc.
  destruct (account_index db !! n) eqn:E; [done|]. injection Hc as <-.
  by apply (account_permissions_accounted add_pending_ram_usage c db n b o a t _ add_pending_ram_usage_ok).
Qed.

(** *** The accounts *)

(** Only newaccount changes the accounts. *)
Lemma add_ram_accounts (db : database) x d db' : add_ram_usage db x d = Ok db' ->
  account_index db' = account_index db.
Proof. by intros (r & _ & [= <-])%bind_ok_inv. Qed.

Lemma updateauth_accounts c (db : database) auths u db' :
  apply_eosio_updateauth c db auths u = Ok db' -> account_index db' = account_index db.
Proof.
  intros Hu. unfold apply_eosio_updateauth in Hu. do 3 apply bind_ok_inv in Hu as ([] & _ & Hu).
  apply bind_ok_inv in Hu as ([p|] & _ & Hu); apply bind_ok_inv in Hu as (par & _ & Hu).
  - apply bind_ok_inv in Hu as ([] & _ & Hu). apply bind_ok_inv in Hu as ([p' db1] & [-> ->]%modify_permission_ok & Hu).
    by apply add_ram_accounts in Hu.
  - apply bind_ok_inv in Hu as ([p' db1] & (_ & _ & _ & _ & _ & _ & _ & t' & ->)%create_permission_ok & Hu).
    by apply add_ram_accounts in Hu.
Qed.

Lemma deleteauth_accounts (db : database) auths d db' :
  apply_eosio_deleteauth db auths d = Ok db' -> account_index db' = account_index db.
Proof.
  intros Hd. unfold apply_eosio_deleteauth in Hd. do 4 apply bind_ok_inv in Hd as ([] & _ & Hd).
  apply bind_ok_inv in Hd as (p & _ & Hd). apply bind_ok_inv in Hd as (db1 & [_ ->]%remove_permission_ok & Hd).
  by apply add_ram_accounts in Hd.
Qed.

Lemma linkauth_accounts c (db : database) auths l db' :
  apply_eosio_linkauth c db auths l = Ok db' -> account_index db' = account_index db.
Proof.
  intros Hl. unfold apply_eosio_linkauth in Hl. do 5 apply bind_ok_inv in Hl as ([] & _ & Hl).
  destruct (permission_link_index db !! _); [|by apply add_ram_accounts in Hl].
  by apply bind_ok_inv in Hl as ([] & _ & [= <-]).
Qed.

Lemma unlinkauth_accounts (db : database) auths u db' :
  apply_eosio_unlinkauth db auths u = Ok db' -> account_index db' = account_index db.
Proof.
  intros Hu. unfold apply_eosio_unlinkauth in Hu. apply bind_ok_inv in Hu as ([] & _ & Hu).
  destruct (permission_link_index db !! _); [|done].
  apply bind_ok_inv in Hu as (db1 & Ha & [= <-]). by apply add_ram_accounts in Ha.
Qed.

Lemma newaccount_accounts c (db : database) auths n db' : apply_eosio_newaccount c db auths n = Ok db' ->
  account_index db !! na_name n = None /\
  account_index db' = <[na_name n := false]> (account_index db).
Proof.
  intros Hn. unfold apply_eosio_newaccount in Hn. do 5 apply bind_ok_inv in Hn as ([] & _ & Hn).
  apply bind_ok_inv in Hn as (b & _ & Hn). do 2 apply bind_ok_inv in Hn as ([] & _ & Hn).
  apply bind_ok_inv in Hn as (db1 & Hc & Hn). do 2 apply bind_ok_inv in Hn as ([] & _ & Hn).
  unfold create_account in Hc. destruct (account_index db !! na_name n) eqn:E; [done|]. injection Hc as <-.
  split; [done|]. unfold create_account_permissions in Hn.
  apply bind_ok_inv in Hn as ([p1 db2] & (_ & _ & _ & _ & _ & _ & _ & t1 & ->)%create_permission_ok & Hn).
  apply bind_ok_inv in Hn as ([p2 db3] & (_ & _ & _ & _ & _ & _ & _ & t2 & ->)%create_permission_ok & Hn).
  apply bind_ok_inv in Hn as (r & _ & Hn). by apply add_ram_accounts in Hn.
Qed.

Lemma native_account_accounts c (db : database) t n o a b db' : create_native_account c db t n o a b = Ok db' ->
  account_index db !! n = None /\ account_index db' = <[n := b]> (account_index db).
Proof.
  intros Hn. unfold create_native_account in Hn. apply bind_ok_inv in Hn as (db1 & Hc & Hn).
  apply bind_ok_inv in Hn as (db2 & Hp & Hn). apply bind_ok_inv in Hn as ([] & _ & [= <-]).
  unfold create_account in Hc. destruct (account_index db !! n) eqn:E; [done|]. injection Hc as <-.
  split; [done|]. unfold create_account_permissions in Hp.
  apply bind_ok_inv in Hp as ([p1 db3] & (_ & _ & _ & _ & _ & _ & _ & t1 & ->)%create_permission_ok & Hp).
  apply bind_ok_inv in Hp as ([p2 db4] & (_ & _ & _ & _ & _ & _ & _ & t2 & ->)%create_permission_ok & Hp).
  apply bind_ok_inv in Hp as (r & _ & Hp). unfold add_pending_ram_usage in Hp.
  by apply bind_ok_inv in Hp as (r' & _ & [= <-]).
Qed.

(** *** The permissions of the producers *)

Lemma create_below_accounted c (db db' : database) (p q : permission_object) m x t :
  db_wf db -> Name.empty m = false -> storable x ->
  permission_index db !! id q = Some q -> id q <> 0 ->
  create_permission which c db (owner q) m (id q) x t = Ok (p, db') ->
  db_wf db' /\ account_index db' = account_index db /\ resources db' = resources db /\
  account_ram_deltas db' = account_ram_deltas db /\ validate_ram_usage db' = validate_ram_usage db /\
  permission_index db' !! id p = Some p /\ id p <> 0 /\ owner p = owner q /\
  forall a, charged db' a = charged db a + only_for (owner q) a (billable_permission_object + authority_bytes x).
Proof.
  intros [Ht Hc Hr] Hm Hx Hq Hq0 H1. pose proof (tw_id _ (tb_tree _ Ht) _ _ Hq) as [_ Hqr].
  destruct (fresh_permission _ (tb_tree _ Ht)) as [_ Hp0].
  destruct (create_permission_has _ _ _ _ _ _ _ _ _ (tb_tree _ Ht) H1) as [_ Hmono].
  pose proof (fun a => charged_create c db _ _ _ _ _ _ _ a (tb_tree _ Ht) H1) as Hch.
  pose proof (tb_owner _ Ht _ _ Hq0 Hq) as Ho. pose proof (tb_named _ Ht _ Ho) as Hne.
  assert (tables_wf db') as Ht'.
  { apply (create_permission_tables c db (owner q) m (id q) x t p db'); [exact Ht| |right; split; [lia|by exists q]|exact Hx|exact Ho|exact H1].
    unfold valid_level. cbn [actor permission]. by rewrite Hm, Hne. }
  apply create_permission_ok in H1 as (_ & Hop & _ & _ & _ & Hid & _ & t' & E).
  split_and!; [split; [done| |by rewrite E]|by rewrite E..| |by rewrite Hid|done|done].
  - intros a Ha. rewrite E in Ha. destruct (Hc a Ha). split; by apply Hmono.
  - rewrite E. cbn. rewrite Hid. by rewrite lookup_insert_eq.
Qed.

Lemma active_producers_storable : storable active_producers_authority.
Proof. split_and!; [split_and!; [cbn; lia|repeat constructor; cbn; lia|cbn; lia]|cbn; lia|repeat constructor]. Qed.

Lemma producer_permissions_accounted c (db : database) t db' : db_wf db ->
  create_producer_permissions c db t = Ok db' ->
  db_wf db' /\ account_index db' = account_index db /\ resources db' = resources db /\
  account_ram_deltas db' = account_ram_deltas db /\ validate_ram_usage db' = validate_ram_usage db /\
  forall a, charged db' a = charged db a + only_for producers_account_name a 640.
Proof.
  intros Hdb H1. unfold create_producer_permissions in H1. apply bind_ok_inv in H1 as (q & Hq & H1).
  apply bind_ok_inv in H1 as ([p1 db1] & H1 & H2). apply bind_ok_inv in H2 as ([p2 db2] & H2 & [= <-]).
  apply get_permission_ok in Hq as (Hq & Hq0 & Hlv); [|apply Hdb].
  assert (producers_account_name = owner q) as Hqo by (by injection Hlv). rewrite Hqo in *.
  apply create_below_accounted in H1 as (Hdb1 & Ei1 & Er1 & Ed1 & Ev1 & Hp1 & Hp10 & Ho1 & Hc1);
    [|done|done|apply active_producers_storable|done|done]. rewrite <- Ho1 in H2.
  apply create_below_accounted in H2 as (Hdb2 & Ei2 & Er2 & Ed2 & Ev2 & _ & _ & _ & Hc2);
    [|done|done|apply active_producers_storable|done|done].
  split_and!; [done|congruence..|]. intros a. rewrite Hc2, Hc1, Ho1.
  change (billable_permission_object + authority_bytes active_producers_authority) with 320.
  unfold ResourceLimits.only_for. destruct (decide _); lia.
Qed.

(** The names in a schedule of producers, which are at most 125 accounts. *)
Definition schedule_names (producers : list account_name) : Prop :=
  (length producers <= 125)%nat /\ Forall (fun p => Name.empty p = false) producers.

Lemma threshold_range n num den : 0 <= n <= 125 -> 0 <= num <= 2 -> 1 <= den ->
  0 < calculate_threshold n num den.
Proof.
  intros Hn Hm Hd. unfold calculate_threshold. assert (0 <= n * num <= 250) by nia.
  rewrite (u32_small (n * num)) by lia. pose proof (Z.div_pos (n * num) den ltac:(lia) ltac:(lia)).
  pose proof (Z.div_le_upper_bound (n * num) den 250 ltac:(lia) ltac:(nia)). rewrite u32_small by lia. lia.
Qed.

Lemma producers_authority_storable producers thr : schedule_names producers -> 0 < thr ->
  storable (producers_authority producers thr).
Proof.
  intros [Hl Hn] Ht. unfold producers_authority. split_and!; cbn [keys accounts waits].
  - assert (Forall (fun m => meta_weight m = 1) (entries (producers_authority producers thr))) as H1.
    { unfold entries. cbn [accounts keys waits producers_authority]. rewrite app_nil_r, !Forall_fmap.
      apply Forall_true. by intros p. }
    split_and!; [exact Ht|eapply Forall_impl; [exact H1|]; cbn; lia|].
    assert (forall l, Forall (fun m => meta_weight m = 1) l -> sum_with (meta_weight (K := K)) l = Z.of_nat (length l)) as Hs.
    { induction 1 as [|m l Hm _ IH]; [done|]. unfold sum_with in *. cbn [foldr length]. lia. }
    change (sum_with meta_weight (entries (producers_authority producers thr)) < 2 ^ 32).
    rewrite Hs by done. unfold entries. cbn [accounts keys waits producers_authority].
    rewrite app_nil_r, !length_fmap. lia.
  - rewrite length_fmap. cbn. lia.
  - rewrite Forall_fmap. eapply Forall_impl; [exact Hn|]. intros p Hp. unfold valid_level. cbn [level actor permission compose]. by rewrite Hp.
Qed.

(** What the update of a permission changes: one authority of the account. *)
Record updated (db db' : database) : Prop := {
  up_wf : db_wf db';
  up_accounts : account_index db' = account_index db;
  up_resources : resources db' = resources db;
  up_deltas : account_ram_deltas db' = account_ram_deltas db;
  up_validate : validate_ram_usage db' = validate_ram_usage db;
  up_charged a : a <> producers_account_name -> charged db' a = charged db a;
}.

Lemma updated_trans (db db1 db2 : database) : updated db db1 -> updated db1 db2 -> updated db db2.
Proof.
  intros [_ A2 A3 A4 A5 A6] [B1 B2 B3 B4 B5 B6]. split; [done|congruence..|].
  intros a Ha. by rewrite B6, A6.
Qed.

Lemma update_permission_updated producers (db : database) m p thr : db_wf db ->
  schedule_names producers -> 0 < thr -> get_permission db (mk_level producers_account_name m) = Ok p ->
  updated db (update_permission producers db p thr).
Proof.
  intros [Ht Hc Hr] Hs Hthr Hp. apply get_permission_ok in Hp as (Hi & H0 & Hlv); [|apply Ht]. injection Hlv as Ho _.
  unfold update_permission. destruct (decide _); [done|].
  split; try done.
  - split; [|intros a Ha; destruct (Hc a Ha); split; by apply replace_permission_has|done].
    apply replace_permission_tables; [done..|]. by apply producers_authority_storable.
  - intros a Ha. rewrite charged_replace by done. unfold ResourceLimits.only_for. rewrite decide_False by congruence. lia.
Qed.

Lemma update_producers_updated producers (db db' : database) : db_wf db -> schedule_names producers ->
  update_producers_authority producers db = Ok db' -> updated db db'.
Proof.
  intros Hdb Hs H1. assert (0 <= u32 (Z.of_nat (length producers)) <= 125) as Hn
    by (destruct Hs; rewrite u32_small by lia; lia).
  unfold update_producers_authority in H1. apply bind_ok_inv in H1 as (p1 & G1 & H1).
  apply bind_ok_inv in H1 as (p2 & G2 & H1). apply bind_ok_inv in H1 as (p3 & G3 & [= <-]).
  pose proof (update_permission_updated _ _ _ _ _ Hdb Hs (threshold_range _ 2 3 Hn ltac:(lia) ltac:(lia)) G1) as U1.
  pose proof (update_permission_updated _ _ _ _ _ (up_wf _ _ U1) Hs (threshold_range _ 1 2 Hn ltac:(lia) ltac:(lia)) G2) as U2.
  pose proof (update_permission_updated _ _ _ _ _ (up_wf _ _ U2) Hs (threshold_range _ 1 3 Hn ltac:(lia) ltac:(lia)) G3) as U3.
  eapply updated_trans; [exact U1|]. by eapply updated_trans.
Qed.

(** *** Histories *)

(** The changes to the tables that are billed, each under the settings of its
    block: the native actions and the accounts of genesis; and the changes that
    take no RAM: of the times of use, of the flags of accounts, and of the
    resource limits and the usage of CPU and NET. *)
Inductive native_step : database -> database -> Prop :=
  | step_newaccount c db auths n db' :
      authority_widths (na_owner n) -> authority_widths (na_active n) ->
      apply_eosio_newaccount c db auths n = Ok db' -> native_step db db'
  | step_updateauth c db auths u db' : authority_widths (ua_auth u) ->
      apply_eosio_updateauth c db auths u = Ok db' -> native_step db db'
  | step_deleteauth db auths d db' :
      apply_eosio_deleteauth db auths d = Ok db' -> native_step db db'
  | step_linkauth c db auths l db' :
      apply_eosio_linkauth c db auths l = Ok db' -> native_step db db'
  | step_unlinkauth db auths u db' :
      apply_eosio_unlinkauth db auths u = Ok db' -> native_step db db'
  | step_native_account c db t n o a b db' :
      Name.empty n = false -> storable o -> storable a ->
      create_native_account c db t n o a b = Ok db' -> native_step db db'
  | step_same db db' : same_tables db db' ->
      (ResourceLimits.inv (resources db) -> ResourceLimits.inv (resources db')) ->
      (forall a, billed db' a = billed db a) -> native_step db db'.

(** The changes that the node makes to the permissions of the producers' account
    and bills to nobody, in the genesis block and when a block is started. *)
Inductive producers_step : database -> database -> Prop :=
  | step_create_producers c db t db' :
      create_producer_permissions c db t = Ok db' -> producers_step db db'
  | step_update_producers producers db db' : schedule_names producers ->
      update_producers_authority producers db = Ok db' -> producers_step db db'.

(** The states of the tables, with the bytes that the node has added to the
    permissions of the producers' account without billing them. *)
Inductive reached : Z -> database -> Prop :=
  | reached_initial : reached 0 initialize_database
  | reached_native unbilled db db' : reached unbilled db -> native_step db db' -> reached unbilled db'
  | reached_producers unbilled db db' : reached unbilled db -> producers_step db db' ->
      reached (unbilled + (charged db' producers_account_name - charged db producers_account_name)) db'.

Lemma native_step_accounted (db db' : database) : db_wf db -> native_step db db' ->
  accounted db db'.
Proof.
  intros Hdb Hstep. revert Hdb.
  destruct Hstep as [? ? ? ? ? ? ? Hs|? ? ? ? ? ? Hs|? ? ? ? Hs|? ? ? ? ? Hs|? ? ? ? Hs|? ? ? ? ? ? ? ? ? ? ? Hs|? ? Hs Hi Hb];
    intros Hdb.
  - eapply newaccount_accounted; [..|exact Hs]; done.
  - eapply updateauth_accounted; [..|exact Hs]; done.
  - eapply deleteauth_accounted; [..|exact Hs]; done.
  - eapply linkauth_accounted; [..|exact Hs]; done.
  - eapply unlinkauth_accounted; [..|exact Hs]; done.
  - eapply native_account_accounted; [..|exact Hs]; done.
  - destruct Hdb as [Ht Hc Hr]. destruct (same_tables_wf _ _ Hs (conj Ht Hc)). split; [by split; auto|].
    intros a. rewrite Hb, (same_tables_charged _ _ a Hs). lia.
Qed.

Lemma producers_step_accounted (db db' : database) : db_wf db -> producers_step db db' ->
  db_wf db' /\ forall a, billed db' a = billed db a /\ (a <> producers_account_name -> charged db' a = charged db a).
Proof.
  intros Hdb Hst. revert Hdb. destruct Hst as [c db0 t db1 H1|producers db0 db1 Hs H1]; intros Hdb.
  - destruct (producer_permissions_accounted _ _ _ _ Hdb H1) as (Hdb' & _ & Er & _ & _ & Hc). split; [done|].
    intros a. split; [unfold billed; by rewrite Er|]. intros Ha. rewrite Hc. unfold ResourceLimits.only_for.
    rewrite decide_False by done. lia.
  - destruct (update_producers_updated _ _ _ Hdb Hs H1) as [Hdb' _ Er _ _ Hc]. split; [done|].
    intros a. split; [unfold billed; by rewrite Er|apply Hc].
Qed.

Lemma initial_db_wf : db_wf (initialize_database (K := K)).
Proof.
  assert (forall i (p : permission_object), ({[ 0 := reserved_permission ]} : gmap Z _) !! i = Some p ->
    i = 0 /\ p = reserved_permission) as Hl by (intros i p [<- <-]%lookup_singleton_Some; done).
  split; [split; [split|..]|..]; cbn.
  - done.
  - intros i p [-> ->]%Hl. cbn. lia.
  - intros i j p q [-> _]%Hl [-> _]%Hl. done.
  - intros i p Hi [-> _]%Hl. done.
  - intros i p Hi [-> _]%Hl. done.
  - intros i p Hi [-> _]%Hl. done.
  - intros i p Hi [-> _]%Hl. done.
  - intros a [x Hx]. by rewrite lookup_empty in Hx.
  - intros i p Hi [-> _]%Hl. done.
  - intros i j p q Hi Hj [-> _]%Hl. done.
  - intros a [x Hx]. cbn in Hx. by rewrite lookup_empty in Hx.
  - apply ResourceLimits.initial_inv.
Qed.

Lemma initial_charged a : charged (initialize_database (K := K)) a = 0.
Proof.
  unfold charged, account_row. cbn. rewrite lookup_empty, sum_map_empty.
  change ({[0 := reserved_permission]} : gmap Z permission_object)
    with (<[0 := reserved_permission]> (∅ : gmap Z permission_object)).
  rewrite sum_map_insert_new, sum_map_empty by done. unfold permission_row.
  rewrite decide_False by naive_solver. done.
Qed.

Lemma reached_accounted unbilled (db : database) : reached unbilled db ->
  db_wf db /\ forall a, billed db a = charged db a - only_for producers_account_name a unbilled.
Proof.
  unfold ResourceLimits.only_for. induction 1 as [|u db db' _ [Hwf IH] Hs|u db db' _ [Hwf IH] Hs].
  - split; [apply initial_db_wf|]. intros a. rewrite initial_charged.
    unfold billed, ResourceLimits.billed. cbn. rewrite lookup_empty. by destruct (decide _).
  - destruct (native_step_accounted _ _ Hwf Hs) as [H1 H2]. split; [done|]. intros a. specialize (IH a). specialize (H2 a). lia.
  - destruct (producers_step_accounted _ _ Hwf Hs) as [H1 H2]. split; [done|]. intros a. specialize (IH a).
    destruct (H2 a) as [-> Hc]. destruct (decide _) as [->|Hne]; [lia|]. rewrite Hc by done. lia.
Qed.

End sizes.

(** The levels in stored authorities are never rejected as invalid. *)
Lemma stored_levels_total (db : database) ck p c : tables_wf db -> valid_level p = true ->
  is_Ok (satisfied_permission (get_auth db) ck p c).
Proof.
  intros Ht Hp. apply (satisfied_permission_total _ (fun p => valid_level p = true)); [..|done].
  - intros q e Hq He. unfold get_auth, get_permission in He. rewrite Hq in He. cbn in He.
    destruct (find_by_owner _ _ _); [discriminate He|by injection He as <-].
  - intros q a _ Ha. apply get_auth_ok in Ha as (i & r & Hi & <- & H0); [|apply Ht].
    by destruct (tb_auth _ Ht _ _ H0 Hi) as (_ & _ & ?).
Qed.

End actions.

(** ** Theorems *)

(** C12: the tables of accounts and permissions stay well formed: ids and names
    are unique, the permissions of an account form a tree below its owner
    permission, every account keeps its owner and active permissions, every
    permission has a usage row, and stored authorities can be satisfied without
    overflow.  RAM is conserved: each account other than the producers' account
    [eosio.prods] is billed exactly for its rows, and that account is billed for
    its rows without the bytes that the node itself has added to them.  This
    holds from the empty tables on, under any settings of the blocks, through
    the native actions, the accounts and producer permissions of genesis, the
    updates of the producers' permissions when blocks start (for schedules of
    at most 125 producers with non-empty names), and changes of times, account
    flags and resource limits; packed keys have less than 2^32 bytes. *)
Theorem auth_tables_accounted {K : Type} `{Countable K} (which : K -> Z) (key_lt : K -> K -> bool)
    (pack_size : K -> Z) (unbilled : Z) (db : @database K) :
  (forall k, 0 <= pack_size k < 2 ^ 32) -> reached which key_lt pack_size unbilled db ->
  db_wf db /\
  (forall a, a <> producers_account_name -> billed db a = charged pack_size db a) /\
  billed db producers_account_name = charged pack_size db producers_account_name - unbilled.
Proof.
  intros Hb Hr. destruct (reached_accounted which key_lt pack_size Hb unbilled db Hr) as [Hwf Ha].
  split; [done|]. unfold ResourceLimits.only_for in Ha. split.
  - intros a Hne. rewrite Ha, decide_False by done. lia.
  - by rewrite Ha, decide_True.
Qed.

(** C38: checking an authorization always comes to a verdict.  On any tables
    reached from the empty ones through genesis, the native actions and the
    updates of the producers' permissions (as in C12), with cycles among the
    permissions or permissions that were deleted, the checker returns for
    every level with a non-empty actor and permission, and does not throw. *)
Theorem authorization_check_total {K : Type} `{Countable K} (which : K -> Z)
    (key_lt : K -> K -> bool) (pack_size : K -> Z) (unbilled : Z) (db : @database K)
    (ck : authority_checker K) (p : permission_level) cache :
  (forall k, 0 <= pack_size k < 2 ^ 32) -> reached which key_lt pack_size unbilled db ->
  valid_level p = true ->
  exists r, satisfied_permission (get_auth db) ck p cache = Ok r.
Proof.
  intros Hb Hr Hp. apply stored_levels_total; [|done].
  by destruct (reached_accounted which key_lt pack_size Hb unbilled db Hr) as [[Ht _ _] _].
Qed.

(** ** Examples *)

Definition sample_control : @control Z _ _ := mk_control 1000 3888000 6 2 true true false ∅.
Definition sample_size (k : Z) : Z := 34.
Definition the_db (r : result (@database Z)) : @database Z :=
  match r with Ok db => db | Throw _ => initialize_database end.
Definition key_authority (k : Z) : authority Z := authority_of_key k 0.

(** The system account, the producers' account, an account of a user, and a
    permission of the user that the transfers of the system contract need;
    the permissions of the producers are created, and updated when the user is
    a producer, under other settings of the chain. *)
Definition sample_user : account_name := Eval vm_compute in N "alice".
Definition sample_transfer : permission_name := Eval vm_compute in N "transfer".
Definition later_control : @control Z _ _ := mk_control 2000 3888000 6 2 true true false ∅.
Definition db0 : @database Z := Eval vm_compute in
  the_db (create_native_account (fun _ => 0) sample_size sample_control initialize_database 5
    system_account_name (key_authority 1) (key_authority 1) true).
Definition db0_producers : @database Z := Eval vm_compute in
  the_db (create_native_account (fun _ => 0) sample_size sample_control db0 5
    producers_account_name (key_authority 1) active_producers_authority true).
Definition db1 : @database Z := Eval vm_compute in
  the_db (create_producer_permissions (fun _ => 0) sample_control db0_producers 5).
Definition db2 : @database Z := Eval vm_compute in
  the_db (apply_eosio_newaccount (fun _ => 0) Z.ltb sample_size sample_control db1
    [mk_level system_account_name active_name]
    (mk_newaccount system_account_name sample_user (key_authority 2) (key_authority 3))).
Definition sample_update : @updateauth Z :=
  mk_updateauth sample_user sample_transfer active_name (key_authority 4).
Definition db3 : @database Z := Eval vm_compute in
  the_db (apply_eosio_updateauth (fun _ => 0) Z.ltb sample_size later_control db2
    [mk_level sample_user active_name] sample_update).
Definition db3_updated : @database Z := Eval vm_compute in
  the_db (update_producers_authority [sample_user; system_account_name] db3).
Definition db4 : @database Z := Eval vm_compute in
  the_db (apply_eosio_linkauth later_control db3_updated [mk_level sample_user active_name]
    (mk_linkauth sample_user system_account_name sample_transfer sample_transfer)).

Lemma key_authority_widths k : authority_widths (key_authority k).
Proof. split; cbn; repeat constructor; cbn; lia. Qed.

Lemma key_authority_storable k : storable (key_authority k).
Proof. split_and!; [split_and!; [cbn; lia|repeat constructor; cbn; lia|cbn; lia]|cbn; lia|constructor]. Qed.

Lemma active_storable : storable (active_producers_authority (K := Z)).
Proof. apply active_producers_storable. Qed.

Lemma sample_reached : reached (fun _ : Z => 0) Z.ltb sample_size 736 db4.
Proof.
  assert (reached (fun _ : Z => 0) Z.ltb sample_size 0 db0) as R0.
  { eapply reached_native; [apply reached_initial|].
    eapply (step_native_account _ _ _ sample_control _ 5 system_account_name (key_authority 1) (key_authority 1) true);
      [done|apply key_authority_storable..|vm_compute; reflexivity]. }
  assert (reached (fun _ : Z => 0) Z.ltb sample_size 0 db0_producers) as Rp.
  { eapply reached_native; [exact R0|].
    eapply (step_native_account _ _ _ sample_control _ 5 producers_account_name (key_authority 1) _ true);
      [done|apply key_authority_storable|apply active_storable|vm_compute; reflexivity]. }
  assert (reached (fun _ : Z => 0) Z.ltb sample_size 640 db1) as R1.
  { apply (reached_producers _ _ _ 0 db0_producers db1 Rp).
    eapply (step_create_producers _ sample_control _ 5). vm_compute. reflexivity. }
  assert (reached (fun _ : Z => 0) Z.ltb sample_size 640 db2) as R2.
  { eapply reached_native; [exact R1|].
    eapply (step_newaccount _ _ _ sample_control _ [mk_level system_account_name active_name]
      (mk_newaccount system_account_name sample_user (key_authority 2) (key_authority 3)));
      [apply key_authority_widths..|vm_compute; reflexivity]. }
  assert (reached (fun _ : Z => 0) Z.ltb sample_size 640 db3) as R3.
  { eapply reached_native; [exact R2|].
    eapply (step_updateauth _ _ _ later_control _ [mk_level sample_user active_name] sample_update);
      [apply key_authority_widths|vm_compute; reflexivity]. }
  assert (reached (fun _ : Z => 0) Z.ltb sample_size 736 db3_updated) as R4.
  { apply (reached_producers _ _ _ 640 db3 db3_updated R3).
    apply (step_update_producers _ [sample_user; system_account_name]);
      [split; [cbn; lia|repeat constructor]|vm_compute; reflexivity]. }
  eapply reached_native; [exact R4|].
  eapply (step_linkauth _ _ _ later_control _ [mk_level sample_user active_name]
    (mk_linkauth sample_user system_account_name sample_transfer sample_transfer)).
  vm_compute. reflexivity.
Qed.

Lemma auth_tables_accounted_witness : billed db4 sample_user = charged sample_size db4 sample_user /\
  billed db4 producers_account_name = charged sample_size db4 producers_account_name - 736.
Proof.
  destruct (auth_tables_accounted (fun _ => 0) Z.ltb sample_size 736 db4) as (_ & Ha & Hp);
    [unfold sample_size; lia|apply sample_reached|]. split; [by apply Ha|exact Hp].
Defined.

Lemma authorization_check_total_witness :
  exists r, satisfied_permission (get_auth db4) (make_auth_checker 6 [4] ∅ 0)
    (mk_level sample_user sample_transfer) None = Ok r.
Proof.
  apply (authorization_check_total (fun _ => 0) Z.ltb sample_size 736 db4);
    [unfold sample_size; lia|apply sample_reached|reflexivity].
Defined.

End AuthActions.
