(* ===== verification/Transactions.v ===== *)
(** * Transactions: include/eosio/chain/transaction.hpp and
      libraries/chain/transaction.cpp

    Module [Transactions] has the header and the body of a transaction, its
    reference to a block, its first authorizer and its extensions.  Packing
    and hashing belong to fc: the id of a transaction, the byte order swap and
    the packing of the only extension are parameters where they are used. *)

From S2P Require Import Prelude Names Merkle ProducerSchedule Authority AuthorityChecker.
From S2P Require Import ResourceLimits AuthorizationManager BlockHeaderState.

Module Transactions.
Abbreviation account_name := Name.name.
Abbreviation no_name := (Name.mk_name 0).

Section transactions.
Context {Bytes : Type}.
Abbreviation action := (@AuthorizationManager.action Bytes).

Record deferred_transaction_generation_context := mk_generation_context {
  (** a transaction id is a 256-bit number *)
  sender_trx_id : Z;
  sender_id : Z;
  sender : account_name;
}.

(** [transaction] with its base [transaction_header]; times are in seconds. *)
Record transaction := mk_transaction {
  expiration : Z;
  ref_block_num : Z;
  ref_block_prefix : Z;
  max_net_usage_words : Z;
  max_cpu_usage_ms : Z;
  delay_sec : Z;
  context_free_actions : list action;
  actions : list action;
  transaction_extensions : list (Z * Bytes);
}.

Definition set_header (t : transaction) (e n p : Z) : transaction :=
  mk_transaction e n p (max_net_usage_words t) (max_cpu_usage_ms t) (delay_sec t)
    (context_free_actions t) (actions t) (transaction_extensions t).
Definition set_extensions (t : transaction) (l : list (Z * Bytes)) : transaction :=
  mk_transaction (expiration t) (ref_block_num t) (ref_block_prefix t) (max_net_usage_words t)
    (max_cpu_usage_ms t) (delay_sec t) (context_free_actions t) (actions t) l.

(** ** The reference block *)

Context (endian_reverse_u32 : Z -> Z).

Definition set_reference_block (t : transaction) (reference_block : Merkle.digest_type)
  : transaction :=
  set_header t (expiration t) (u16 (endian_reverse_u32 (u32 (Merkle.h0 reference_block))))
    (u32 (Merkle.h1 reference_block)).

Definition verify_reference_block (t : transaction) (reference_block : Merkle.digest_type) : bool :=
  (ref_block_num t =? u16 (endian_reverse_u32 (u32 (Merkle.h0 reference_block)))) &&
  (ref_block_prefix t =? u32 (Merkle.h1 reference_block)).

Definition validate (t : transaction) : result unit :=
  EOS_ASSERT (max_net_usage_words t <? UINT32_MAX / 8) transaction_exception.

(** ** Authorizers *)

Definition first_authorizer (t : transaction) : account_name :=
  match flat_map AuthorizationManager.authorization (actions t) with
  | u :: _ => Authority.actor u
  | [] => no_name
  end.

(** ** Extensions *)

Definition generation_context_id : Z := 0.

(** [fc::raw::unpack], before [reflector_init], and [fc::raw::pack] *)
Context (unpack_generation_context : Bytes -> result deferred_transaction_generation_context)
        (pack_generation_context : deferred_transaction_generation_context -> Bytes).

Definition reflector_init (c : deferred_transaction_generation_context) : result unit :=
  EOS_ASSERT (negb (bool_decide (sender c = no_name)))
    ill_formed_deferred_transaction_generation_context.

(** [decompose_t::extract] followed by the assertion on its result. *)
Definition extract (id : Z) (data : Bytes) : result deferred_transaction_generation_context :=
  if id =? generation_context_id then
    c ← unpack_generation_context data; reflector_init c;; mret c
  else Throw invalid_transaction_extension.

(** The loop of [validate_and_extract_extensions] from the index [i] on, with
    [id_type_lower_bound]; the result is in the order of the ids. *)
Fixpoint extract_extensions (i : nat) (id_type_lower_bound : Z) (l : list (Z * Bytes))
  : result (list (Z * deferred_transaction_generation_context)) :=
  match l with
  | [] => mret []
  | (id, data) :: l =>
      EOS_ASSERT (id_type_lower_bound <=? id) invalid_transaction_extension;;
      c ← extract id data;
      EOS_ASSERT ((i =? 0)%nat || (id_type_lower_bound <? id)) invalid_transaction_extension;;
      r ← extract_extensions (S i) id l;
      mret ((id, c) :: r)
  end.

Definition validate_and_extract_extensions (t : transaction)
  : result (list (Z * deferred_transaction_generation_context)) :=
  extract_extensions 0 0 (transaction_extensions t).

(** The extensions of a valid transaction are at most one generation context. *)
Lemma extract_extensions_one i lo l r : 0 <= lo -> (i > 0)%nat ->
  extract_extensions i lo l = Ok r -> r = [].
Proof.
  intros Hlo Hi H. destruct l as [|[id data] l]; cbn in H; [by inv_ok|].
  unfold extract, generation_context_id in H.
  destruct (lo <=? id) eqn:E1; [|done]. cbn in H.
  destruct (id =? 0) eqn:E2; [|done].
  assert ((i =? 0)%nat || (lo <? id) = false) as E3.
  { apply orb_false_iff. split; [apply Nat.eqb_neq; lia|lia]. }
  rewrite E3 in H. inv_ok. discriminate.
Qed.

Lemma validated_extensions (t : transaction) r : validate_and_extract_extensions t = Ok r ->
  r = [] /\ transaction_extensions t = [] \/
  exists c data, r = [(generation_context_id, c)] /\
    transaction_extensions t = [(generation_context_id, data)] /\
    unpack_generation_context data = Ok c /\ sender c <> no_name.
Proof.
  unfold validate_and_extract_extensions. intros H.
  destruct (transaction_extensions t) as [|[id data] l] eqn:El; [left; cbn in H; by inv_ok|right].
  cbn in H. unfold extract in H. destruct (0 <=? id) eqn:E1; [|done]. cbn in H.
  destruct (id =? generation_context_id) eqn:E2; [|done]. bool_to_prop. subst id.
  apply bind_ok_inv in H as (c & H1 & H). apply bind_ok_inv in H1 as (c' & Hc & H1).
  apply bind_ok_inv in H1 as ([] & H1 & [= ->]).
  apply bind_ok_inv in H as (r' & H2 & [= <-]).
  pose proof (extract_extensions_one 1 generation_context_id l r' ltac:(done) ltac:(lia) H2) as ->.
  unfold reflector_init in H1. apply EOS_ASSERT_ok in H1. apply negb_true_iff, bool_decide_eq_false in H1.
  exists c, data. split_and!; [done| |done|done].
  destruct l as [|[id' data'] l]; [done|]. cbn in H2. exfalso.
  destruct (generation_context_id <=? id') eqn:E3; [|done]. cbn in H2. unfold extract in H2.
  destruct (id' =? generation_context_id) eqn:E4; [|done]. bool_to_prop. subst id'. inv_ok. discriminate.
Qed.

End transactions.
Arguments transaction : clear implicits.
End Transactions.
