(* ===== verification/TransactionContext.v ===== *)
(** * The context of a transaction: libraries/chain/transaction_context.cpp
      and include/eosio/chain/transaction_context.hpp

    Module [TransactionContext] has the limits, the billing and the checks of
    one transaction: [init] and its three entry points, the checks during the
    execution, and [finalize].  The context is created with the options of its
    caller, works on the tables of [AuthorizationManager] and
    [ResourceLimits], and on the table of transaction ids.  The undo session
    of the transaction discards the changes of a context that throws.

    Times are microseconds.  The current time is an argument, and so is the
    flag of the timer, which another thread sets.  Of an exception code only
    the exception that it stands for is used. *)

From S2P Require Import Prelude Names Merkle ProducerSchedule Authority AuthorityChecker.
From S2P Require Import Accumulators ResourceLimits AuthorizationManager AccessLists ChainConfig.
From S2P Require Import BlockHeaderState Transactions.
Import Transactions ChainConfig.

Module TransactionContext.
Import FlatSet.
Abbreviation account_name := Name.name.

Definition time_point_maximum : Z := INT64_MAX.
Definition microseconds_maximum : Z := INT64_MAX.

(** [block_timestamp_type( t ).slot] *)
Definition slot_of (t : Z) : Z := u32 (u64 (Z.quot t 1000 - 946684800000) / 500).

Section context.
Context {K Bytes : Type} `{Countable K}.
Abbreviation transaction := (Transactions.transaction Bytes).
Abbreviation database := (@AuthorizationManager.database K).
Abbreviation manager := ResourceLimits.manager.

(** What the code reads through the controller. *)
Record controller := mk_controller {
  pending_block_time : Z;
  skip_trx_checks : bool;
  is_producing_block : bool;
  get_greylist_limit : Z;
  resource_greylist : flat_set;
  only_bill_first_authorizer : bool;
  configuration : chain_config_v0;
  access : AccessLists.lists;
  block_summary : gmap Z Merkle.digest_type;
  auth_control : @AuthorizationManager.control K _ _;
}.

(** What the creator of the context chooses. *)
Record options := mk_options {
  trx : transaction;
  start : Z;
  enforce_whiteblacklist : bool;
  leeway : Z;
  subjective_cpu_bill_us : Z;
  explicit_billed_cpu_time : bool;
  is_read_only : bool;
  max_transaction_time_subjective : Z;
}.

(** ** State *)

Record net_state := mk_net {
  net_limit : Z;
  net_limit_due_to_block : bool;
  net_limit_due_to_greylist : bool;
  eager_net_limit : Z;
  net_usage : Z;
}.

Record cpu_state := mk_cpu {
  objective_duration_limit : Z;
  initial_objective_duration_limit : Z;
  cpu_limit_due_to_greylist : bool;
  billing_timer_exception_code : chain_exception;
  billed_cpu_time_us : Z;
}.

Record timer_state := mk_timer {
  block_deadline : Z;
  deadline : Z;
  deadline_exception_code : chain_exception;
  pseudo_start : Z;
  billed_time : Z;
  paused_time : Z;
  (** the time for which the timer is set, when it runs *)
  transaction_timer : option Z;
}.

Record context := mk_context {
  opts : options;
  is_initialized : bool;
  is_input : bool;
  apply_context_free : bool;
  published : Z;
  bill_to_accounts : flat_set;
  validate_ram_usage : flat_set;
  net : net_state;
  cpu : cpu_state;
  timer : timer_state;
  db : database;
  (** the ids of input transactions and their expirations, as created *)
  transactions : list (Z * Z);
}.

Definition rl (c : context) : manager := AuthorizationManager.resources (db c).

Definition set_net (c : context) (n : net_state) : context :=
  mk_context (opts c) (is_initialized c) (is_input c) (apply_context_free c) (published c)
    (bill_to_accounts c) (validate_ram_usage c) n (cpu c) (timer c) (db c) (transactions c).
Definition set_timer (c : context) (t : timer_state) : context :=
  mk_context (opts c) (is_initialized c) (is_input c) (apply_context_free c) (published c)
    (bill_to_accounts c) (validate_ram_usage c) (net c) (cpu c) t (db c) (transactions c).
Definition set_db (c : context) (d : database) : context :=
  mk_context (opts c) (is_initialized c) (is_input c) (apply_context_free c) (published c)
    (bill_to_accounts c) (validate_ram_usage c) (net c) (cpu c) (timer c) d (transactions c).
Definition set_validate_ram (c : context) (v : flat_set) : context :=
  mk_context (opts c) (is_initialized c) (is_input c) (apply_context_free c) (published c)
    (bill_to_accounts c) v (net c) (cpu c) (timer c) (db c) (transactions c).
Definition set_transactions (c : context) (t : list (Z * Z)) : context :=
  mk_context (opts c) (is_initialized c) (is_input c) (apply_context_free c) (published c)
    (bill_to_accounts c) (validate_ram_usage c) (net c) (cpu c) (timer c) (db c) t.
Definition set_entry (c : context) (input cfa : bool) (p : Z) : context :=
  mk_context (opts c) (is_initialized c) input cfa p (bill_to_accounts c) (validate_ram_usage c)
    (net c) (cpu c) (timer c) (db c) (transactions c).

(** The constructor, with the time [block_deadline] and the CPU time
    [billed] that the creator of the context sets. *)
Definition new_context (o : options) (block_deadline billed : Z) (d : database)
    (t : list (Z * Z)) : context :=
  mk_context o false false true 0 [] []
    (mk_net 0 true false 0 0)
    (mk_cpu 0 0 false block_cpu_usage_exceeded billed)
    (mk_timer block_deadline time_point_maximum block_cpu_usage_exceeded (start o) 0 0 None)
    d t.

Section operations.
Context (g : controller).
Abbreviation cfg := (configuration g).

(** ** Checks during the execution *)

Definition check_net_usage (n : net_state) : result unit :=
  if negb (skip_trx_checks g) && (eager_net_limit n <? net_usage n) then
    if net_limit_due_to_block n then Throw block_net_usage_exceeded
    else if net_limit_due_to_greylist n then Throw greylist_net_usage_exceeded
    else Throw tx_net_usage_exceeded
  else mret tt.

Definition add_net_usage (n : net_state) (u : Z) : result net_state :=
  let n := mk_net (net_limit n) (net_limit_due_to_block n) (net_limit_due_to_greylist n)
             (eager_net_limit n) (u64 (net_usage n + u)) in
  check_net_usage n;; mret n.

Definition checktime (c : context) (expired : bool) : result unit :=
  let code := deadline_exception_code (timer c) in
  if negb expired then mret tt
  else if explicit_billed_cpu_time (opts c) || bool_decide (code = deadline_exception) then
    Throw deadline_exception
  else if decide (code = block_cpu_usage_exceeded) then Throw block_cpu_usage_exceeded
  else if decide (code = tx_cpu_usage_exceeded) then
    if cpu_limit_due_to_greylist (cpu c) then Throw greylist_cpu_usage_exceeded
    else Throw tx_cpu_usage_exceeded
  else if decide (code = leeway_deadline_exception) then Throw leeway_deadline_exception
  else Throw transaction_exception.

(** [platform_timer::start]: the flag after the timer was set at time [now]. *)
Definition timer_start_expired (tp now : Z) : bool :=
  if tp =? time_point_maximum then false else s64 (tp - now) <=? 0.

(** The time 0 stands for a paused timer. *)
Definition pause_billing_timer (c : context) (now : Z) : context :=
  let t := timer c in
  if explicit_billed_cpu_time (opts c) || (pseudo_start t =? 0) then c
  else set_timer c (mk_timer (block_deadline t) (deadline t) (deadline_exception_code t)
         0 (s64 (now - pseudo_start t)) now None).

Definition resume_billing_timer (c : context) (now : Z) : context :=
  let t := timer c in
  if explicit_billed_cpu_time (opts c) || negb (pseudo_start t =? 0) then c
  else
    let paused := s64 (now - paused_time t) in
    let d := s64 (deadline t + paused) in
    let '(d, code) := if block_deadline t <? d then (block_deadline t, deadline_exception)
                      else (d, deadline_exception_code t) in
    set_timer c (mk_timer (block_deadline t) d code (s64 (now - billed_time t))
                   (billed_time t) (paused_time t) (Some d)).

Definition add_ram_usage (c : context) (account : account_name) (ram_delta : Z) : result context :=
  r ← ResourceLimits.add_pending_ram_usage (rl c) account ram_delta;
  let c := set_db c (AuthorizationManager.set_resources (db c) r) in
  mret (if 0 <? ram_delta then set_validate_ram c (insert account (validate_ram_usage c)) else c).

(** ** CPU billing *)

(** The limit that applies to the billed time, and the exception for a time
    above it. *)
Definition cpu_limit_and_exception (p : cpu_state) (account_cpu_limit : Z) : Z * chain_exception :=
  let cpu_limited_by_account := account_cpu_limit <=? objective_duration_limit p in
  if negb cpu_limited_by_account
     && bool_decide (billing_timer_exception_code p = block_cpu_usage_exceeded) then
    (objective_duration_limit p, block_cpu_usage_exceeded)
  else
    let graylisted := cpu_limit_due_to_greylist p && cpu_limited_by_account in
    let limit := if graylisted then account_cpu_limit
                 else if cpu_limited_by_account then account_cpu_limit
                 else objective_duration_limit p in
    (limit, if graylisted then greylist_cpu_usage_exceeded else tx_cpu_usage_exceeded).

Definition validate_account_cpu_usage (p : cpu_state) (billed_us account_cpu_limit : Z)
  : result unit :=
  if (0 <? billed_us) && negb (skip_trx_checks g) then
    let '(limit, e) := cpu_limit_and_exception p account_cpu_limit in
    EOS_ASSERT (billed_us <=? limit) e
  else mret tt.

Definition validate_account_cpu_usage_estimate (p : cpu_state)
    (prev_billed_us account_cpu_limit : Z) : result unit :=
  if (0 <=? prev_billed_us) && negb (skip_trx_checks g) then
    let '(limit, e) := cpu_limit_and_exception p account_cpu_limit in
    EOS_ASSERT (prev_billed_us <? limit) e
  else mret tt.

Definition validate_cpu_usage_to_bill (p : cpu_state) (billed_us account_cpu_limit : Z)
    (check_minimum : bool) : result unit :=
  if negb (skip_trx_checks g) then
    (if check_minimum then
       EOS_ASSERT (min_transaction_cpu_usage cfg <=? billed_us) transaction_exception
     else mret tt);;
    validate_account_cpu_usage p billed_us account_cpu_limit
  else mret tt.

Definition update_billed_cpu_time (c : context) (now : Z) : Z :=
  if explicit_billed_cpu_time (opts c) then billed_cpu_time_us (cpu c)
  else Z.max (s64 (now - pseudo_start (timer c))) (min_transaction_cpu_usage cfg).

(** ** What the billed accounts can pay *)

Definition large_number_no_overflow : Z := INT64_MAX / 2.

Definition account_greylist_limit (force_elastic_limits : bool) (a : account_name) : Z :=
  if negb force_elastic_limits && is_producing_block g then
    if contains (resource_greylist g) a then 1 else get_greylist_limit g
  else ResourceLimits.maximum_elastic_resource_multiplier.

(** The least limits so far and whether a greylist lowered one. *)
Record payable := mk_payable {
  account_net_limit : Z;
  account_cpu_limit : Z;
  greylisted_net : bool;
  greylisted_cpu : bool;
}.

Definition account_can_pay (m : manager) (force_elastic_limits : bool) (p : payable)
    (a : account_name) : result payable :=
  let l := account_greylist_limit force_elastic_limits a in
  '(net_limit, net_was_greylisted) ← ResourceLimits.get_account_net_limit m a l;
  let p := if 0 <=? net_limit then
             mk_payable (Z.min (account_net_limit p) net_limit) (account_cpu_limit p)
               (greylisted_net p || net_was_greylisted) (greylisted_cpu p)
           else p in
  '(cpu_limit, cpu_was_greylisted) ← ResourceLimits.get_account_cpu_limit m a l;
  mret (if 0 <=? cpu_limit then
          mk_payable (account_net_limit p) (Z.min (account_cpu_limit p) cpu_limit)
            (greylisted_net p) (greylisted_cpu p || cpu_was_greylisted)
        else p).

Definition max_bandwidth_billed_accounts_can_pay (m : manager) (accounts : flat_set)
    (force_elastic_limits : bool) : result payable :=
  p ← foldM (account_can_pay m force_elastic_limits)
        (mk_payable large_number_no_overflow large_number_no_overflow false false) accounts;
  EOS_ASSERT ((negb force_elastic_limits && is_producing_block g)
              || (negb (greylisted_cpu p) && negb (greylisted_net p))) transaction_exception;;
  mret p.

(** ** [init] *)

(** The limit of the block, of the configuration and of the transaction. *)
Definition initial_net_limit (t : transaction) (m : manager) (due_to_block : bool) : Z * bool :=
  let net_limit := ResourceLimits.get_block_net_limit m in
  let '(net_limit, due_to_block) :=
    if max_transaction_net_usage cfg <=? net_limit then (max_transaction_net_usage cfg, false)
    else (net_limit, due_to_block) in
  let trx_specified_net_usage_limit := u64 (max_net_usage_words t * 8) in
  if (0 <? trx_specified_net_usage_limit) && (trx_specified_net_usage_limit <=? net_limit)
  then (trx_specified_net_usage_limit, false) else (net_limit, due_to_block).

(** The objective limit, its exception and the deadline. *)
Definition initial_duration_limit (t : transaction) (m : manager) (start : Z)
    (code : chain_exception) : Z * chain_exception * Z :=
  let limit := s64 (ResourceLimits.get_block_cpu_limit m) in
  let '(limit, code) :=
    if max_transaction_cpu_usage cfg <=? limit
    then (max_transaction_cpu_usage cfg, tx_cpu_usage_exceeded) else (limit, code) in
  let '(limit, code) :=
    if (0 <? max_cpu_usage_ms t) && (max_cpu_usage_ms t * 1000 <=? limit)
    then (max_cpu_usage_ms t * 1000, tx_cpu_usage_exceeded) else (limit, code) in
  (limit, code, s64 (start + limit)).

Definition accounts_to_bill (t : transaction) (accounts : flat_set) : flat_set :=
  if only_bill_first_authorizer g then insert (first_authorizer t) accounts
  else foldl (fun s a => insert a s) accounts
         (Authority.actor <$> flat_map AuthorizationManager.authorization (actions t)).

(** The subjective limits of the deadline: what the accounts can pay with the
    leeway, the greatest time of a transaction, and the end of the block. *)
Definition limit_deadline (o : options) (account_cpu_limit block_deadline deadline : Z)
    (code : chain_exception) : Z * chain_exception :=
  let '(deadline, code) :=
    if s64 (account_cpu_limit + leeway o) <=? s64 (deadline - start o)
    then (s64 (s64 (start o + account_cpu_limit) + leeway o), leeway_deadline_exception)
    else (deadline, code) in
  let '(deadline, code) :=
    if negb (max_transaction_time_subjective o =? microseconds_maximum)
       && (s64 (start o + max_transaction_time_subjective o) <=? deadline)
    then (s64 (start o + max_transaction_time_subjective o), tx_cpu_usage_exceeded)
    else (deadline, code) in
  if block_deadline <? deadline then (block_deadline, deadline_exception) else (deadline, code).

(** The account limit that the estimate of a previous execution must stay
    below: ten per cent less than what the accounts can pay. *)
Definition estimate_limit (o : options) (account_cpu_limit : Z) : Z :=
  let l := s64 (account_cpu_limit - subjective_cpu_bill_us o + leeway o) in
  let l := if 0 <? l then s64 (l - ResourceLimits.EOS_PERCENT l (10 * percent_1)) else l in
  if l <? 0 then 0 else l.

Definition far_deadline : Z := 24 * 7 * 52 * 3600 * 1000000.

Definition init (c : context) (initial_net_usage now : Z) : result context :=
  let o := opts c in
  let t := trx o in
  EOS_ASSERT (negb (is_initialized c)) transaction_exception;;
  let block_deadline := if block_deadline (timer c) =? time_point_maximum
                        then s64 (start o + far_deadline) else block_deadline (timer c) in
  let '(net_limit, due_to_block) :=
    initial_net_limit t (rl c) (net_limit_due_to_block (net c)) in
  let '(duration, billing_code, deadline) :=
    initial_duration_limit t (rl c) (start o) (billing_timer_exception_code (cpu c)) in
  let p := mk_cpu duration duration (cpu_limit_due_to_greylist (cpu c)) billing_code
             (billed_cpu_time_us (cpu c)) in
  (if explicit_billed_cpu_time o
   then validate_cpu_usage_to_bill p (billed_cpu_time_us p) INT64_MAX false else mret tt);;
  let accounts := accounts_to_bill t (bill_to_accounts c) in
  m ← ResourceLimits.update_account_usage (rl c) accounts (slot_of (pending_block_time g));
  pay ← max_bandwidth_billed_accounts_can_pay m accounts false;
  let new_eager_net_limit :=
    Z.min net_limit (u64 (s64 (account_net_limit pay + net_usage_leeway cfg))) in
  let '(eager_net_limit, due_to_block) :=
    if new_eager_net_limit <? net_limit then (new_eager_net_limit, false)
    else (net_limit, due_to_block) in
  let '(deadline, billing_code) :=
    limit_deadline o (account_cpu_limit pay) block_deadline deadline billing_code in
  let p := mk_cpu duration duration (cpu_limit_due_to_greylist (cpu c) || greylisted_cpu pay)
             billing_code (billed_cpu_time_us (cpu c)) in
  let '(deadline, deadline_code) :=
    if explicit_billed_cpu_time o then (block_deadline, deadline_exception)
    else (deadline, billing_code) in
  (if negb (explicit_billed_cpu_time o)
   then validate_account_cpu_usage_estimate p (billed_cpu_time_us p)
          (estimate_limit o (account_cpu_limit pay))
   else mret tt);;
  let n := mk_net net_limit due_to_block (net_limit_due_to_greylist (net c) || greylisted_net pay)
             (eager_net_limit / 8 * 8) (net_usage (net c)) in
  n ← (if 0 <? initial_net_usage then add_net_usage n initial_net_usage else mret n);
  let timer_end := if skip_trx_checks g then time_point_maximum else deadline in
  let c := mk_context o true (is_input c) (apply_context_free c) (published c) accounts
             (validate_ram_usage c) n p
             (mk_timer block_deadline deadline deadline_code (pseudo_start (timer c))
                (billed_time (timer c)) (paused_time (timer c)) (Some timer_end))
             (AuthorizationManager.set_resources (db c) m) (transactions c) in
  (if skip_trx_checks g then mret tt
   else checktime c (timer_start_expired deadline now));;
  mret c.

(** ** The entry points *)

Definition disallow_transaction_extensions : chain_exception :=
  if is_producing_block g then subjective_block_production_exception
  else disallowed_transaction_extensions_bad_block_exception.

Definition init_for_implicit_trx (c : context) (initial_net_usage now : Z) : result context :=
  EOS_ASSERT (length (transaction_extensions (trx (opts c))) =? 0)%nat
    disallow_transaction_extensions;;
  init (set_entry c (is_input c) (apply_context_free c) (pending_block_time g))
    initial_net_usage now.

Definition init_for_deferred_trx (c : context) (p now : Z) : result context :=
  let t := trx (opts c) in
  EOS_ASSERT ((expiration t =? 0) || (length (transaction_extensions t) =? 0)%nat)
    disallow_transaction_extensions;;
  init (set_entry c (is_input c) false p) 0 now.

Definition validate_expiration (t : transaction) : result unit :=
  EOS_ASSERT (pending_block_time g <=? expiration t * 1000000) expired_tx_exception;;
  EOS_ASSERT (expiration t * 1000000 <=?
              s64 (pending_block_time g + max_transaction_lifetime cfg * 1000000))
    tx_exp_too_far_exception.


(** [fc::endian_reverse_u32] and [packed_trx.id()] *)
Context (endian_reverse_u32 : Z -> Z) (trx_id : transaction -> Z).

Definition validate_tapos (t : transaction) : result unit :=
  match block_summary g !! u16 (ref_block_num t) with
  | None => Throw not_found_exception
  | Some block_id =>
      EOS_ASSERT (verify_reference_block endian_reverse_u32 t block_id) invalid_ref_block_exception
  end.

Definition account_exists (d : database) (a : account_name) : bool :=
  bool_decide (is_Some (AuthorizationManager.account_index d !! a)).

Definition validate_context_free (d : database) (a : @AuthorizationManager.action Bytes)
  : result unit :=
  EOS_ASSERT (account_exists d (AuthorizationManager.act_account a)) transaction_exception;;
  EOS_ASSERT (length (AuthorizationManager.authorization a) =? 0)%nat transaction_exception.

(** One authorization of an action; the actors are collected for the lists. *)
Definition validate_authorization (d : database) (enforce : bool) (actors : flat_set)
    (auth : Authority.permission_level) : result flat_set :=
  EOS_ASSERT (account_exists d (Authority.actor auth)) transaction_exception;;
  p ← AuthorizationManager.find_permission d auth;
  EOS_ASSERT (bool_decide (is_Some p)) transaction_exception;;
  mret (if enforce then insert (Authority.actor auth) actors else actors).

Definition validate_action (d : database) (enforce : bool) (s : bool * flat_set)
    (a : @AuthorizationManager.action Bytes) : result (bool * flat_set) :=
  let '(one_auth, actors) := s in
  EOS_ASSERT (account_exists d (AuthorizationManager.act_account a)) transaction_exception;;
  actors ← foldM (validate_authorization d enforce) actors (AuthorizationManager.authorization a);
  mret (one_auth || (0 <? length (AuthorizationManager.authorization a))%nat, actors).

Definition validate_referenced_accounts (d : database) (is_read_only : bool) (t : transaction)
    (enforce_actor_whitelist_blacklist : bool) : result unit :=
  (if skip_trx_checks g then mret tt
   else foldM (fun _ a => validate_context_free d a) tt (context_free_actions t));;
  '(one_auth, actors) ← foldM (validate_action d enforce_actor_whitelist_blacklist) (false, [])
                          (actions t);
  EOS_ASSERT (one_auth || is_read_only) tx_no_auths;;
  if enforce_actor_whitelist_blacklist then AccessLists.check_actor_list (access g) actors
  else mret tt.

Definition record_transaction (transactions : list (Z * Z)) (id expire : Z)
  : result (list (Z * Z)) :=
  if existsb (fun t => t.1 =? id) transactions then Throw tx_duplicate
  else mret (transactions ++ [(id, expire)]).

(** The index [by_expiration]. *)
Definition by_expiration (transactions : list (Z * Z)) : list (Z * Z) :=
  foldl (fun l t => insert_upper snd t l) [] transactions.

(** The loop of [controller_impl::clear_expired_input_transactions] along the
    index; after [budget] more transactions the deadline has passed. *)
Fixpoint clear_expired_loop (now : Z) (budget : nat) (index transactions : list (Z * Z))
  {struct index} : list (Z * Z) :=
  match index with
  | [] => transactions
  | t :: index =>
      if t.2 * 1000000 <? now then
        let transactions := filter (fun u => u.1 <> t.1) transactions in
        match budget with
        | O => transactions
        | S budget => clear_expired_loop now budget index transactions
        end
      else transactions
  end.

Definition clear_expired_input_transactions (now : Z) (budget : nat)
    (transactions : list (Z * Z)) : list (Z * Z) :=
  clear_expired_loop now budget (by_expiration transactions) transactions.

(** What the packed signatures and context-free data cost. *)
Definition discounted_size_for_pruned_data (packed_trx_prunable_size : Z) : Z :=
  let num := context_free_discount_net_usage_num cfg in
  let den := context_free_discount_net_usage_den cfg in
  if (0 <? den) && (num <? den)
  then u64 (u64 (packed_trx_prunable_size * num) + den - 1) / den
  else packed_trx_prunable_size.

Definition initial_net_usage (t : transaction) (unprunable prunable : Z) : Z :=
  let base := base_per_transaction_net_usage cfg in
  let n := u64 (base + unprunable + discounted_size_for_pruned_data prunable) in
  if 0 <? delay_sec t then u64 (n + (base + transaction_id_net_usage)) else n.

Definition init_for_input_trx (c : context) (unprunable prunable : Z) (skip_recording : bool)
    (now : Z) : result context :=
  let o := opts c in
  let t := trx o in
  EOS_ASSERT (length (transaction_extensions t) =? 0)%nat disallow_transaction_extensions;;
  (if skip_trx_checks g then mret tt
   else
     validate_expiration t;;
     validate_tapos t;;
     validate_referenced_accounts (db c) (is_read_only o) t
       (enforce_whiteblacklist o && is_producing_block g));;
  c ← init (set_entry c true (apply_context_free c) (pending_block_time g))
        (initial_net_usage t unprunable prunable) now;
  if skip_recording then mret c
  else
    r ← record_transaction (transactions c) (trx_id t) (expiration t);
    mret (set_transactions c r).

(** ** [finalize] *)

(** [am.update_permission_usage( am.get_permission(auth) )] *)
Definition touch_permission (d : database) (auth : Authority.permission_level) : result database :=
  p ← AuthorizationManager.get_permission d auth;
  AuthorizationManager.update_permission_usage (auth_control g) d p.

(** The limits, lowered to what the accounts can pay now. *)
Definition final_net (n : net_state) (pay : payable) : net_state :=
  let '(limit, due) :=
    if u64 (account_net_limit pay) <=? net_limit n then (u64 (account_net_limit pay), false)
    else (net_limit n, net_limit_due_to_block n) in
  mk_net limit due (net_limit_due_to_greylist n || greylisted_net pay) limit
    (u64 (net_usage n + 7) / 8 * 8).

Definition final_cpu (p : cpu_state) (pay : payable) : cpu_state :=
  let '(limit, code) :=
    if account_cpu_limit pay <=? objective_duration_limit p
    then (account_cpu_limit pay, tx_cpu_usage_exceeded)
    else (objective_duration_limit p, billing_timer_exception_code p) in
  mk_cpu limit (initial_objective_duration_limit p)
    (cpu_limit_due_to_greylist p || greylisted_cpu pay) code (billed_cpu_time_us p).

(** [finalize] up to the call of [add_transaction_usage]. *)
Definition finalize_checks (c : context) (now : Z) : result context :=
  EOS_ASSERT (is_initialized c) transaction_exception;;
  d ← (if is_input c then
         foldM touch_permission (db c)
           (flat_map AuthorizationManager.authorization (actions (trx (opts c))))
       else mret (db c));
  let m := AuthorizationManager.resources d in
  foldM (fun _ a => ResourceLimits.verify_account_ram_usage m a) tt (validate_ram_usage c);;
  pay ← max_bandwidth_billed_accounts_can_pay m (bill_to_accounts c) false;
  let n := final_net (net c) pay in
  let p := final_cpu (cpu c) pay in
  check_net_usage n;;
  let p := mk_cpu (objective_duration_limit p) (initial_objective_duration_limit p)
             (cpu_limit_due_to_greylist p) (billing_timer_exception_code p)
             (update_billed_cpu_time c now) in
  validate_cpu_usage_to_bill p (billed_cpu_time_us p) (account_cpu_limit pay) true;;
  mret (mk_context (opts c) (is_initialized c) (is_input c) (apply_context_free c) (published c)
          (bill_to_accounts c) (validate_ram_usage c) n p (timer c) d (transactions c)).

(** The call that the code says should never fail. *)
Definition bill_transaction (c : context) : result manager :=
  ResourceLimits.add_transaction_usage (rl c) (bill_to_accounts c)
    (u64 (billed_cpu_time_us (cpu c))) (net_usage (net c)) (slot_of (pending_block_time g)).

Definition finalize (c : context) (now : Z) : result context :=
  c ← finalize_checks c now;
  m ← bill_transaction c;
  mret (set_db c (AuthorizationManager.set_resources (db c) m)).

End operations.
End context.
End TransactionContext.
