(* ===== verification/TransactionBilling.v ===== *)
(** * Transactions: billing, limits and replay

    Theorems about [TransactionContext].  A transaction that passes the checks
    of [finalize] is billed without an exception, within the limits of the
    block, of the configuration and of its own header; and an input
    transaction is accepted once. *)

From S2P Require Import Prelude Names Merkle ProducerSchedule Authority AuthorityChecker.
From S2P Require Import Accumulators ResourceLimits AuthorizationManager AccessLists ChainConfig.
From S2P Require Import BlockHeaderState Transactions TransactionContext.
Import Transactions ChainConfig TransactionContext.

Module TransactionBilling.
Module RL := ResourceLimits.
Import FlatSet Accumulator.

(** ** Billing several accounts *)




(** The usage of a transaction fits the block. *)
Definition fits_block (m : RL.manager) (cpu net : Z) : Prop :=
  RL.pending_cpu_usage (RL.state m) + cpu <= RL.max (RL.cpu_limit_parameters (RL.config m)) /\
  RL.pending_net_usage (RL.state m) + net <= RL.max (RL.net_limit_parameters (RL.config m)).


(** ** Limits after [init] *)

(** The accumulators of the account stand at [slot]. *)
Definition current (m : RL.manager) (slot : Z) (a : Name.name) : Prop :=
  exists u, RL.usage m !! a = Some u /\
    last_ordinal (RL.cpu_usage u) = slot /\ last_ordinal (RL.net_usage u) = slot.

(** [m'] differs from [m] in the usage table only. *)
Definition only_usage (m m' : RL.manager) : Prop :=
  RL.limits m' = RL.limits m /\ RL.state m' = RL.state m /\ RL.config m' = RL.config m.

Lemma touch_account_spec slot m a m' : is_u32 slot -> RL.inv m ->
  RL.touch_account slot m a = Ok m' ->
  RL.inv m' /\ only_usage m m' /\ current m' slot a /\
  forall b, b <> a -> RL.usage m' !! b = RL.usage m !! b.
Proof.
  intros Hs Hm H. split; [by eapply RL.touch_account_inv|]. unfold RL.touch_account in H.
  destruct (RL.inv_config _ Hm) as (_ & _ & ? & ?). inv_ok. apply RL.get_row_ok in Hr.
  destruct (RL.inv_usage _ Hm _ _ Hr) as (Hn & Hc & _).
  apply add_exact in Hr0 as (_ & _ & Hon & _); [|done|lia|done|done].
  apply add_exact in Hr1 as (_ & _ & Hoc & _); [|done|lia|done|done].
  split_and!; [done..| |].
  - eexists. cbn. rewrite lookup_insert_eq. split; [reflexivity|done].
  - intros b Hb. cbn. by rewrite lookup_insert_ne by done.
Qed.

Lemma update_usage_spec slot l m m' : is_u32 slot -> RL.inv m ->
  RL.update_account_usage m l slot = Ok m' ->
  RL.inv m' /\ only_usage m m' /\ (forall a, a ∈ l -> current m' slot a) /\
  forall b, b ∉ l -> RL.usage m' !! b = RL.usage m !! b.
Proof.
  intros Hs. unfold RL.update_account_usage. revert m.
  induction l as [|a l IH]; intros m Hm H; cbn [foldM] in H.
  { inv_ok. split_and!; try done. intros a Ha. by apply not_elem_of_nil in Ha. }
  apply bind_ok_inv in H as (m1 & H1 & H).
  destruct (touch_account_spec slot m a m1 Hs Hm H1) as (Hm1 & (E1 & E2 & E3) & Hcur & Hoth).
  destruct (IH m1 Hm1 H) as (Hm' & (F1 & F2 & F3) & Hcur' & Hoth').
  split_and!; [done|split_and!; congruence| |].
  - intros b Hb. destruct (decide (b ∈ l)); [by apply Hcur'|].
    assert (b = a) as -> by set_solver. destruct Hcur as (u & Hu & ?). exists u. by rewrite Hoth'.
  - intros b Hb. rewrite Hoth', Hoth; set_solver.
Qed.

Section billing.
Context {K Bytes : Type} `{Countable K}.
Abbreviation transaction := (Transactions.transaction Bytes).
Abbreviation context := (@TransactionContext.context K Bytes).
Context (g : @controller K _ _).
Abbreviation cfg := (configuration g).
Abbreviation slot := (slot_of (pending_block_time g)).

Definition trx_width (t : transaction) : Prop :=
  is_u32 (max_net_usage_words t) /\ is_u8 (max_cpu_usage_ms t).

(** [x] units of NET are within the limits of the block, of the configuration
    and of the transaction. *)
Definition net_allowed (m : RL.manager) (t : transaction) (x : Z) : Prop :=
  RL.pending_net_usage (RL.state m) + x <= RL.max (RL.net_limit_parameters (RL.config m)) /\
  x <= max_transaction_net_usage cfg /\
  (0 < max_net_usage_words t -> x <= max_net_usage_words t * 8).

(** The same for [x] microseconds of CPU. *)
Definition cpu_allowed (m : RL.manager) (t : transaction) (x : Z) : Prop :=
  RL.pending_cpu_usage (RL.state m) + x <= RL.max (RL.cpu_limit_parameters (RL.config m)) /\
  x <= max_transaction_cpu_usage cfg /\
  (0 < max_cpu_usage_ms t -> x <= max_cpu_usage_ms t * 1000).

(** The block has not used more than it may. *)
Definition block_ok (m : RL.manager) : Prop := fits_block m 0 0.

Lemma net_allowed_frame m m' t x : RL.state m' = RL.state m -> RL.config m' = RL.config m ->
  net_allowed m t x -> net_allowed m' t x.
Proof. unfold net_allowed. by intros -> ->. Qed.

Lemma cpu_allowed_frame m m' t x : RL.state m' = RL.state m -> RL.config m' = RL.config m ->
  cpu_allowed m t x -> cpu_allowed m' t x.
Proof. unfold cpu_allowed. by intros -> ->. Qed.

Lemma net_allowed_le m t x y : net_allowed m t x -> y <= x -> net_allowed m t y.
Proof. unfold net_allowed. lia. Qed.

Lemma cpu_allowed_le m t x y : cpu_allowed m t x -> y <= x -> cpu_allowed m t y.
Proof. unfold cpu_allowed. lia. Qed.

Lemma block_room m : RL.inv m -> block_ok m ->
  RL.get_block_net_limit m
    = RL.max (RL.net_limit_parameters (RL.config m)) - RL.pending_net_usage (RL.state m) /\
  RL.get_block_cpu_limit m
    = RL.max (RL.cpu_limit_parameters (RL.config m)) - RL.pending_cpu_usage (RL.state m).
Proof.
  intros Hm [Hc Hn]. destruct (RL.inv_config _ Hm) as ((_ & Hpc & _) & (_ & Hpn & _) & _).
  destruct (RL.inv_state _ Hm) as (_ & _ & ? & ? & _).
  unfold RL.get_block_net_limit, RL.get_block_cpu_limit. rewrite !u64_small; lia.
Qed.

Lemma initial_net_limit_allowed t m due l due' : RL.inv m -> block_ok m -> trx_width t ->
  initial_net_limit g t m due = (l, due') -> net_allowed m t l.
Proof.
  intros Hm Hb [Hw _] H1. destruct (block_room m Hm Hb) as [En _].
  unfold initial_net_limit in H1. rewrite En, u64_small in H1 by lia. unfold net_allowed.
  destruct (max_transaction_net_usage cfg <=? _) eqn:E1; bool_to_prop;
    match type of H1 with context [if ?b then _ else _] => destruct b eqn:E2 end;
    injection H1 as <- <-; bool_to_prop; try lia.
Qed.

Lemma s64_le x : 0 <= x -> s64 x <= x.
Proof.
  intros Hx. unfold s64. pose proof (Z.mod_le (x + 2 ^ 63) (2 ^ 64) ltac:(lia) ltac:(lia)). lia.
Qed.

Lemma initial_duration_allowed t m st code l code' d : RL.inv m -> block_ok m -> trx_width t ->
  initial_duration_limit g t m st code = (l, code', d) -> cpu_allowed m t l.
Proof.
  intros Hm Hb [_ Hw] H1. destruct (block_room m Hm Hb) as [_ Ec].
  unfold initial_duration_limit in H1. rewrite Ec in H1.
  pose proof (s64_le (RL.get_block_cpu_limit m)) as Hs. rewrite Ec in Hs.
  destruct Hb as [Hbc _]. specialize (Hs ltac:(lia)).
  set (r := s64 _) in *. unfold cpu_allowed.
  destruct (max_transaction_cpu_usage cfg <=? r) eqn:E1; bool_to_prop;
    match type of H1 with context [if ?b then _ else _] => destruct b eqn:E2 end;
    injection H1 as <- <- <-; bool_to_prop; try lia.
Qed.

(** ** The context between [init] and [finalize] *)

Record ready (c : context) : Prop := {
  rd_initialized : is_initialized c = true;
  rd_inv : RL.inv (rl c);
  rd_bill : FlatSet.wf (bill_to_accounts c);
  rd_current a : a ∈ bill_to_accounts c -> current (rl c) slot a;
  rd_net : net_allowed (rl c) (trx (opts c)) (net_limit (net c));
  rd_cpu : cpu_allowed (rl c) (trx (opts c)) (objective_duration_limit (cpu c));
}.

Lemma add_net_usage_frame n u n' : add_net_usage g n u = Ok n' ->
  net_limit n' = net_limit n /\ net_usage n' = u64 (net_usage n + u).
Proof. unfold add_net_usage. intros H1. inv_ok. done. Qed.

Lemma accounts_to_bill_wf (t : transaction) s : FlatSet.wf s -> FlatSet.wf (accounts_to_bill g t s).
Proof. intros Hs. unfold accounts_to_bill. destruct (only_bill_first_authorizer g); auto using insert_wf, inserts_wf. Qed.

Lemma slot_range : is_u32 slot.
Proof. apply u32_range. Qed.

(** A context before [init]. *)
Record fresh (c : context) : Prop := {
  fr_inv : RL.inv (rl c);
  fr_block : block_ok (rl c);
  fr_bill : FlatSet.wf (bill_to_accounts c);
  fr_trx : trx_width (trx (opts c));
}.

Lemma init_ready c initial now c' : fresh c -> init g c initial now = Ok c' -> ready c'.
Proof.
  intros [Hm Hb Hw Ht] H1. unfold init in H1.
  apply bind_ok_inv in H1 as ([] & _ & H1).
  destruct (initial_net_limit g _ _ _) as [l due] eqn:En.
  destruct (initial_duration_limit g _ _ _ _) as [[dur code] dl] eqn:Ed.
  apply initial_net_limit_allowed in En; [|done..].
  apply initial_duration_allowed in Ed; [|done..].
  apply bind_ok_inv in H1 as ([] & _ & H1). apply bind_ok_inv in H1 as (m & Hu & H1).
  apply bind_ok_inv in H1 as (pay & _ & H1).
  destruct (if _ <? l then _ else _) as [eager due'].
  destruct (limit_deadline _ _ _ _ _) as [dl' code'].
  destruct (if explicit_billed_cpu_time _ then (_, deadline_exception) else _) as [dl'' code''].
  apply bind_ok_inv in H1 as ([] & _ & H1). apply bind_ok_inv in H1 as (n & Hn & H1).
  apply bind_ok_inv in H1 as ([] & _ & H1). injection H1 as <-.
  apply update_usage_spec in Hu as (Hm' & (_ & Es & Ec) & Hcur & _); [|apply slot_range|done].
  assert (net_limit n = l) as El.
  { destruct (0 <? initial); [by apply add_net_usage_frame in Hn as [-> _]|by injection Hn as <-]. }
  split; unfold rl; cbn; rewrite ?El; try done.
  - by apply accounts_to_bill_wf.
  - by eapply net_allowed_frame.
  - by eapply cpu_allowed_frame.
Qed.

(** What happens to the context while the actions of the transaction run:
    NET and RAM are charged, the timer is paused and resumed, accounts are
    created and limits set, and tables outside of the resource limits
    change. *)
Inductive exec_step : context -> context -> Prop :=
  | step_net c u n : add_net_usage g (net c) u = Ok n -> exec_step c (set_net c n)
  | step_ram c a d c' : is_s64 d -> add_ram_usage c a d = Ok c' -> exec_step c c'
  | step_pause c now : exec_step c (pause_billing_timer c now)
  | step_resume c now : exec_step c (resume_billing_timer c now)
  | step_limits c a ram net cpu m b : is_s64 ram -> is_s64 net -> is_s64 cpu ->
      RL.set_account_limits (rl c) a ram net cpu = Ok (m, b) ->
      exec_step c (set_db c (AuthorizationManager.set_resources (db c) m))
  | step_account c a m : RL.initialize_account (rl c) a = Ok m ->
      exec_step c (set_db c (AuthorizationManager.set_resources (db c) m))
  | step_tables c d : AuthorizationManager.resources d = rl c -> exec_step c (set_db c d).

(** A step on the resource limits that keeps what [ready] needs. *)
Definition keeps_current (m m' : RL.manager) : Prop :=
  RL.inv m' /\ RL.state m' = RL.state m /\ RL.config m' = RL.config m /\
  forall a s, current m s a -> current m' s a.

Lemma ready_resources c c' : ready c -> keeps_current (rl c) (rl c') ->
  is_initialized c' = is_initialized c -> opts c' = opts c ->
  bill_to_accounts c' = bill_to_accounts c -> net_limit (net c') = net_limit (net c) ->
  cpu c' = cpu c -> ready c'.
Proof.
  intros [Hi Hm Hb Hcur Hn Hc] (Hm' & Es & Ec & Hk) E1 E2 E3 E4 E5.
  split; rewrite ?E1, ?E2, ?E3, ?E4, ?E5; eauto using net_allowed_frame, cpu_allowed_frame.
Qed.

Lemma keeps_current_refl m : RL.inv m -> keeps_current m m.
Proof. by unfold keeps_current. Qed.

Lemma ram_keeps_current m a d m' : is_s64 d -> RL.inv m ->
  RL.add_pending_ram_usage m a d = Ok m' -> keeps_current m m'.
Proof.
  intros Hd Hm H1. pose proof (RL.ram_usage_inv _ _ _ _ Hd Hm H1) as Hm'.
  unfold RL.add_pending_ram_usage in H1. destruct (d =? 0); [inv_ok; by apply keeps_current_refl|].
  inv_ok. apply RL.get_row_ok in Hr. unfold keeps_current. split_and!; try done. intros b s (u & Hu & Ho).
  destruct (decide (b = a)) as [->|Hne].
  - eexists. cbn. rewrite lookup_insert_eq. split; [reflexivity|].
    assert (u = r) as -> by congruence. done.
  - exists u. cbn. by rewrite lookup_insert_ne.
Qed.

Lemma account_keeps_current m a m' : RL.inv m -> RL.initialize_account m a = Ok m' ->
  keeps_current m m'.
Proof.
  intros Hm H1. pose proof (RL.initialize_account_inv _ _ _ Hm H1) as Hm'.
  unfold RL.initialize_account in H1. inv_ok. apply RL.create_row_ok in Hr0 as [Hno ->].
  unfold keeps_current. split_and!; try done. intros b s (u & Hu & Ho). exists u. cbn.
  rewrite lookup_insert_ne by congruence. done.
Qed.

Lemma limits_keeps_current m a ram net cpu m' b : is_s64 ram -> is_s64 net -> is_s64 cpu ->
  RL.inv m -> RL.set_account_limits m a ram net cpu = Ok (m', b) -> keeps_current m m'.
Proof.
  intros H1 H2 H3 Hm H4. pose proof (RL.set_account_limits_inv _ _ _ _ _ _ _ H1 H2 H3 Hm H4) as Hm'.
  unfold RL.set_account_limits in H4. apply bind_ok_inv in H4 as (old & _ & [= <- <-]). by unfold keeps_current.
Qed.

Lemma exec_step_ready c c' : ready c -> exec_step c c' -> ready c'.
Proof.
  intros Hr Hs. pose proof (rd_inv _ Hr) as Hm. destruct Hs.
  - apply add_net_usage_frame in H0 as [E _]. by apply (ready_resources c); auto using keeps_current_refl.
  - unfold add_ram_usage in H1. apply bind_ok_inv in H1 as (m & Hram & [= <-]).
    apply ram_keeps_current in Hram; [|done..].
    destruct (0 <? d); by apply (ready_resources c).
  - unfold pause_billing_timer. destruct (_ || _); [done|].
    by apply (ready_resources c); auto using keeps_current_refl.
  - unfold resume_billing_timer. destruct (_ || _); [done|]. destruct (if _ <? _ then _ else _).
    by apply (ready_resources c); auto using keeps_current_refl.
  - apply limits_keeps_current in H3; [|done..]. by apply (ready_resources c).
  - apply account_keeps_current in H0; [|done]. by apply (ready_resources c).
  - apply (ready_resources c); try done. unfold rl at 2. cbn. rewrite H0. by apply keeps_current_refl.
Qed.

Lemma exec_steps_ready c c' : ready c -> rtc exec_step c c' -> ready c'.
Proof. intros Hr Hs. induction Hs; eauto using exec_step_ready. Qed.

(** ** What the checks of [finalize] establish *)

Lemma account_can_pay_spec m p a p' : account_can_pay g m false p a = Ok p' ->
  let l := account_greylist_limit g false a in
  account_net_limit p' <= account_net_limit p /\ account_cpu_limit p' <= account_cpu_limit p /\
  (0 <= account_net_limit p -> 0 <= account_net_limit p') /\
  (0 <= account_cpu_limit p -> 0 <= account_cpu_limit p') /\
  exists nl gn cl gc, RL.get_account_net_limit m a l = Ok (nl, gn) /\
    RL.get_account_cpu_limit m a l = Ok (cl, gc) /\
    (nl < 0 \/ account_net_limit p' <= nl) /\ (cl < 0 \/ account_cpu_limit p' <= cl).
Proof.
  intros H1 l. unfold account_can_pay in H1.
  apply bind_ok_inv in H1 as ([nl gn] & Hn & H1). apply bind_ok_inv in H1 as ([cl gc] & Hc & H1).
  destruct (0 <=? nl) eqn:En, (0 <=? cl) eqn:Ec; inv_ok; cbn; bool_to_prop;
    (split_and!; [lia..|]); exists nl, gn, cl, gc; (split_and!; [done|done|lia|lia]).
Qed.

Lemma accounts_can_pay_spec m l p p' : foldM (account_can_pay g m false) p l = Ok p' ->
  account_net_limit p' <= account_net_limit p /\ account_cpu_limit p' <= account_cpu_limit p /\
  (0 <= account_net_limit p -> 0 <= account_net_limit p') /\
  (0 <= account_cpu_limit p -> 0 <= account_cpu_limit p') /\
  forall a, a ∈ l -> exists nl gn cl gc,
    RL.get_account_net_limit m a (account_greylist_limit g false a) = Ok (nl, gn) /\
    RL.get_account_cpu_limit m a (account_greylist_limit g false a) = Ok (cl, gc) /\
    (nl < 0 \/ account_net_limit p' <= nl) /\ (cl < 0 \/ account_cpu_limit p' <= cl).
Proof.
  revert p. induction l as [|a l IH]; intros p H1; cbn [foldM] in H1.
  { inv_ok. split_and!; try lia. intros a Ha. by apply not_elem_of_nil in Ha. }
  apply bind_ok_inv in H1 as (p1 & H1 & H2).
  apply account_can_pay_spec in H1 as (A1 & A2 & A3 & A4 & nl & gn & cl & gc & A5 & A6 & A7 & A8).
  destruct (IH _ H2) as (B1 & B2 & B3 & B4 & B5). split_and!; [lia..|auto|auto|].
  intros b [->|Hb]%elem_of_cons; [|by apply B5]. exists nl, gn, cl, gc. split_and!; [done|done|lia|lia].
Qed.

(** What a finished check says of the limits [pay] that it computed. *)
Record checked (c : context) (now : Z) (c1 : context) (pay : payable) : Prop := {
  ck_rl : rl c1 = rl c;
  ck_opts : opts c1 = opts c;
  ck_bill : bill_to_accounts c1 = bill_to_accounts c;
  ck_accounts a : a ∈ bill_to_accounts c -> exists nl gn cl gc,
    RL.get_account_net_limit (rl c) a (account_greylist_limit g false a) = Ok (nl, gn) /\
    RL.get_account_cpu_limit (rl c) a (account_greylist_limit g false a) = Ok (cl, gc) /\
    (nl < 0 \/ account_net_limit pay <= nl) /\ (cl < 0 \/ account_cpu_limit pay <= cl);
  ck_billed : billed_cpu_time_us (cpu c1) = update_billed_cpu_time g c now;
  ck_words : net_usage (net c1) = u64 (net_usage (net c) + 7) / 8 * 8;
  ck_net : skip_trx_checks g = false ->
    net_usage (net c1) <= net_limit (net c) /\ net_usage (net c1) <= account_net_limit pay;
  ck_min : skip_trx_checks g = false -> min_transaction_cpu_usage cfg <= billed_cpu_time_us (cpu c1);
  ck_cpu : skip_trx_checks g = false -> 0 < billed_cpu_time_us (cpu c1) ->
    billed_cpu_time_us (cpu c1) <= objective_duration_limit (cpu c) /\
    billed_cpu_time_us (cpu c1) <= account_cpu_limit pay;
}.

Lemma touch_permission_resources d a d' : touch_permission g d a = Ok d' ->
  AuthorizationManager.resources d' = AuthorizationManager.resources d.
Proof.
  unfold touch_permission, AuthorizationManager.update_permission_usage. intros H1.
  apply bind_ok_inv in H1 as (p & _ & H1). destruct (_ !! _); [by injection H1 as <-|done].
Qed.

Lemma check_net_usage_ok n : skip_trx_checks g = false -> check_net_usage g n = Ok tt ->
  net_usage n <= eager_net_limit n.
Proof.
  intros Hs H1. unfold check_net_usage in H1. rewrite Hs in H1. cbn in H1.
  destruct (eager_net_limit n <? net_usage n) eqn:E; bool_to_prop; [|lia].
  by destruct (net_limit_due_to_block n), (net_limit_due_to_greylist n).
Qed.

(** A billed time that is accepted is within both limits. *)
Lemma validate_billed_ok p billed l : skip_trx_checks g = false -> 0 < billed ->
  validate_account_cpu_usage g p billed l = Ok tt ->
  billed <= objective_duration_limit p \/ billed <= l /\ l <= objective_duration_limit p.
Proof.
  intros Hs Hb H1. unfold validate_account_cpu_usage, cpu_limit_and_exception in H1.
  rewrite Hs in H1. replace (0 <? billed) with true in H1 by lia. cbn [negb andb] in H1.
  destruct (l <=? objective_duration_limit p) eqn:E; cbn [negb andb] in H1; bool_to_prop.
  - rewrite andb_true_r in H1. destruct (cpu_limit_due_to_greylist p);
      apply EOS_ASSERT_ok in H1; bool_to_prop; lia.
  - rewrite andb_false_r in H1. destruct (bool_decide _); apply EOS_ASSERT_ok in H1; bool_to_prop; lia.
Qed.

Lemma finalize_checked c now c1 : finalize_checks g c now = Ok c1 ->
  exists pay, checked c now c1 pay.
Proof.
  intros H1. unfold finalize_checks in H1.
  apply bind_ok_inv in H1 as ([] & _ & H1). apply bind_ok_inv in H1 as (d & Hd & H1).
  assert (AuthorizationManager.resources d = rl c) as Ed.
  { destruct (is_input c); [|by injection Hd as <-]. unfold rl.
    eapply (foldM_inv _ (fun d => AuthorizationManager.resources d = _)); [|reflexivity|exact Hd].
    intros a b b' _ Hb Hb'. by rewrite (touch_permission_resources _ _ _ Hb'). }
  apply bind_ok_inv in H1 as ([] & _ & H1). apply bind_ok_inv in H1 as (pay & Hpay & H1).
  apply bind_ok_inv in H1 as ([] & Hnet & H1). apply bind_ok_inv in H1 as ([] & Hcpu & [= <-]).
  unfold max_bandwidth_billed_accounts_can_pay in Hpay. rewrite Ed in Hpay.
  apply bind_ok_inv in Hpay as (pay' & Hpay & Hp). apply bind_ok_inv in Hp as ([] & _ & [= ->]).
  apply accounts_can_pay_spec in Hpay as (Hn1 & _ & Hn0 & _ & Hacc).
  cbn [account_net_limit] in Hn1, Hn0. specialize (Hn0 ltac:(done)).
  exists pay. split; try done; unfold final_net, final_cpu in *; cbn.
  - by destruct (if u64 _ <=? _ then _ else _).
  - intros Hs. apply check_net_usage_ok in Hnet; [|done].
    change large_number_no_overflow with 4611686018427387903 in Hn1.
    assert (0 <= account_net_limit pay < 2 ^ 64) by lia.
    rewrite u64_small in * by done.
    destruct (account_net_limit pay <=? net_limit (net c)) eqn:E; cbn in *; bool_to_prop; lia.
  - intros Hs. unfold validate_cpu_usage_to_bill in Hcpu. rewrite Hs in Hcpu. cbn in Hcpu.
    apply bind_ok_inv in Hcpu as ([] & Hmin & _). apply EOS_ASSERT_ok in Hmin. bool_to_prop. exact Hmin.
  - intros Hs Hb. unfold validate_cpu_usage_to_bill in Hcpu. rewrite Hs in Hcpu. cbn in Hcpu.
    apply bind_ok_inv in Hcpu as ([] & _ & Hv). apply validate_billed_ok in Hv; [|done..].
    cbn in Hv. destruct (account_cpu_limit pay <=? objective_duration_limit (cpu c)) eqn:E;
      cbn in Hv; bool_to_prop; lia.
Qed.

(** ** Billing *)







End billing.

(** ** Replay *)

Section replay.
Context {K Bytes : Type} `{Countable K}.
Abbreviation transaction := (Transactions.transaction Bytes).
Context (endian_reverse_u32 : Z -> Z) (trx_id : transaction -> Z).

(** The time of the pending block, the recorded transactions, and all input
    transactions accepted so far on this branch. *)
Record node := mk_node {
  time : Z;
  recorded : list (Z * Z);
  accepted : list transaction;
}.

(** A transaction of the pending block is accepted, or the next block
    starts. *)
Inductive chain_step : node -> node -> Prop :=
  | step_input n (g : @controller K _ _) c u p now c' :
      pending_block_time g = time n -> transactions c = recorded n ->
      skip_trx_checks g = false ->
      init_for_input_trx g endian_reverse_u32 trx_id c u p false now = Ok c' ->
      chain_step n (mk_node (time n) (transactions c') (trx (opts c) :: accepted n))
  | step_block n t budget : time n < t ->
      chain_step n (mk_node t (clear_expired_input_transactions t budget (recorded n)) (accepted n)).

Lemma by_expiration_elem l t : t ∈ by_expiration l <-> t ∈ l.
Proof.
  unfold by_expiration. enough (forall k, t ∈ foldl (fun l t => insert_upper snd t l) k l <->
    t ∈ k \/ t ∈ l) as ->; [set_solver|].
  induction l as [|x l IH]; intros k; cbn; [set_solver|].
  rewrite IH, (insert_upper_perm snd x k). set_solver.
Qed.

(** Only expired transactions are forgotten. *)
Lemma clear_expired_keeps now budget index l t :
  (forall x, x ∈ index -> forall y, y ∈ l -> y.1 = x.1 -> y.2 = x.2) ->
  t ∈ l -> now <= t.2 * 1000000 -> t ∈ clear_expired_loop now budget index l.
Proof.
  revert budget l. induction index as [|x index IH]; intros budget l Hu Ht Hn;
    cbn [clear_expired_loop]; [done|].
  destruct (x.2 * 1000000 <? now) eqn:E; bool_to_prop; [|done].
  assert (t ∈ filter (fun u => u.1 <> x.1) l) as Ht'.
  { apply list_elem_of_filter. split; [|done]. intros Heq.
    pose proof (Hu x ltac:(left) t Ht Heq). lia. }
  destruct budget as [|budget]; [done|]. apply IH; [|done|done].
  intros z Hz y Hy. apply list_elem_of_filter in Hy as [_ Hy]. apply Hu; [by right|done].
Qed.

Lemma clear_expired_subset now budget index l t :
  t ∈ clear_expired_loop now budget index l -> t ∈ l.
Proof.
  revert budget l. induction index as [|x index IH]; intros budget l; cbn [clear_expired_loop]; [done|].
  destruct (_ <? _); [|done]. destruct budget as [|budget]; intros Ht; [|apply IH in Ht];
    by apply list_elem_of_filter in Ht as [_ ?].
Qed.

Lemma init_transactions (g : @controller K _ _) (c : @context K Bytes) initial now c' :
  init g c initial now = Ok c' -> transactions c' = transactions c.
Proof.
  unfold init. intros H1. apply bind_ok_inv in H1 as ([] & _ & H1).
  destruct (initial_net_limit g _ _ _), (initial_duration_limit g _ _ _ _) as [[] ].
  do 3 (apply bind_ok_inv in H1 as (? & _ & H1)).
  destruct (if _ <? z then _ else _), (limit_deadline _ _ _ _ _).
  destruct (if explicit_billed_cpu_time _ then (_, deadline_exception) else _).
  do 3 (apply bind_ok_inv in H1 as (? & _ & H1)). by injection H1 as <-.
Qed.

(** An accepted transaction was not recorded, is not expired, and is
    recorded afterwards. *)
Lemma input_accepted (g : @controller K _ _) c u p now c' :
  skip_trx_checks g = false ->
  init_for_input_trx g endian_reverse_u32 trx_id c u p false now = Ok c' ->
  let t := trx (opts c) in
  pending_block_time g <= expiration t * 1000000 /\
  (forall e, (trx_id t, e) ∉ transactions c) /\
  transactions c' = transactions c ++ [(trx_id t, expiration t)].
Proof.
  intros Hs H1 t. unfold init_for_input_trx in H1. fold t in H1. rewrite Hs in H1.
  apply bind_ok_inv in H1 as ([] & _ & H1). apply bind_ok_inv in H1 as ([] & Hv & H1).
  apply bind_ok_inv in Hv as ([] & Hv & _). apply bind_ok_inv in Hv as ([] & Hv & _).
  apply EOS_ASSERT_ok in Hv. bool_to_prop. split; [exact Hv|].
  apply bind_ok_inv in H1 as (c1 & Hi & H1). apply init_transactions in Hi. cbn in Hi.
  apply bind_ok_inv in H1 as (r & Hr & [= <-]). unfold record_transaction in Hr.
  rewrite Hi in Hr. destruct (existsb _ _) eqn:E; [done|]. injection Hr as <-. split; [|done].
  intros e He. assert (existsb (fun t0 => t0.1 =? trx_id t) (transactions c) = true) as E'.
  { apply existsb_exists. exists (trx_id t, e). split; [by apply list_elem_of_In|cbn; lia]. }
  congruence.
Qed.

(** Every accepted transaction is recorded or expired; ids are not repeated. *)
Record replay_ok (n : node) : Prop := {
  ro_known t : t ∈ accepted n ->
    (trx_id t, expiration t) ∈ recorded n \/ expiration t * 1000000 < time n;
  ro_recorded r : r ∈ recorded n -> exists t, t ∈ accepted n /\ r = (trx_id t, expiration t);
  ro_once : NoDup (trx_id <$> accepted n);
}.

(** No two of the transactions have the same id and different expirations. *)
Definition ids_differ (l : list transaction) : Prop :=
  forall t t', t ∈ l -> t' ∈ l -> trx_id t = trx_id t' -> expiration t = expiration t'.

Lemma chain_step_replay n n' :
  replay_ok n -> ids_differ (accepted n') -> chain_step n n' -> replay_ok n'.
Proof.
  intros [Hk Hr Ho] ids Hs. destruct Hs as [n g c u p now c' Ht HT Hc Hok | n t budget Hlt].
  - apply input_accepted in Hok as (Hexp & Hnew & ->); [|done]. rewrite Ht, HT in *.
    split; cbn.
    + intros t [->|Hin]%elem_of_cons; [left; set_solver|]. destruct (Hk t Hin); [left; set_solver|by right].
    + intros r [Hin|Hin]%elem_of_app; [destruct (Hr r Hin) as (t & ? & ->); exists t; set_solver|].
      apply list_elem_of_singleton in Hin as ->. eexists. split; [left|done].
    + constructor; [|done]. rewrite list_elem_of_fmap. intros (t & Hid & Hin).
      pose proof (ids _ _ ltac:(by left) ltac:(by right) Hid) as He. destruct (Hk t Hin) as [Hin'|Hlt]; [|lia].
      apply (Hnew (expiration t)). by rewrite Hid.
  - unfold clear_expired_input_transactions. split; cbn; [| |done].
    + intros x Hx. destruct (Hk x Hx) as [Hin|Hex]; [|right; lia].
      destruct (decide (t <= expiration x * 1000000)) as [Hle|]; [left|right; lia].
      apply clear_expired_keeps; [|done|done]. intros y Hy z Hz Heq.
      rewrite by_expiration_elem in Hy. destruct (Hr y Hy) as (ty & ? & ->), (Hr z Hz) as (tz & ? & ->).
      by apply ids.
    + intros r Hin. by apply Hr, (clear_expired_subset t budget (by_expiration (recorded n))).
Qed.

Lemma chain_step_accepted n n' : chain_step n n' -> accepted n ⊆ accepted n'.
Proof. destruct 1; cbn; set_solver. Qed.

Lemma chain_replay t0 n : rtc chain_step (mk_node t0 [] []) n -> ids_differ (accepted n) -> replay_ok n.
Proof.
  revert n. apply (rtc_ind_r (fun n => ids_differ (accepted n) -> replay_ok n)).
  - intros _. split; cbn; [intros t Ht; by apply not_elem_of_nil in Ht..|constructor].
  - intros n n' _ Hs IH ids. eapply chain_step_replay; [|done|done]. apply IH.
    intros t t' Ht Ht'. apply ids; by apply (chain_step_accepted _ _ Hs).
Qed.

End replay.

(** ** Theorems *)


(** C34: a transaction that is finalized was billed within its limits, on a
    node that does not skip the checks of transactions ([skip_trx_checks] is
    false; a node that trusts the producer of a block skips them).  Its
    NET usage is a whole number of words, is at most the limit of the
    configuration and of its own header, and fits the block; its CPU time is
    at least the minimum, and when it is not zero it is at most the limit of the configuration
    and of its own header, and fits the block. *)
Theorem billed_within_limits {K Bytes : Type} `{Countable K} (g : @controller K _ _)
    (c0 ci c c' : @context K Bytes) (initial now0 now : Z) :
  fresh c0 -> init g c0 initial now0 = Ok ci -> rtc (exec_step g) ci c ->
  finalize g c now = Ok c' -> skip_trx_checks g = false ->
  let t := trx (opts c) in
  net_usage (net c') mod 8 = 0 /\ net_allowed g (rl c) t (net_usage (net c')) /\
  min_transaction_cpu_usage (configuration g) <= billed_cpu_time_us (cpu c') /\
  (0 < billed_cpu_time_us (cpu c') -> cpu_allowed g (rl c) t (billed_cpu_time_us (cpu c'))).
Proof.
  intros Hf Hi Hs Hfin Hsk t. assert (ready g c) as Hr.
  { eapply exec_steps_ready; [|exact Hs]. by eapply init_ready. }
  unfold finalize in Hfin. apply bind_ok_inv in Hfin as (c1 & Hc1 & Hfin).
  apply bind_ok_inv in Hfin as (m & _ & [= <-]). cbn [net cpu set_db].
  destruct (finalize_checked _ _ _ _ Hc1) as [pay Hck].
  split_and!.
  - rewrite (ck_words _ _ _ _ _ Hck). apply Z_mod_mult.
  - eapply net_allowed_le; [apply Hr|]. by apply (ck_net _ _ _ _ _ Hck).
  - by apply (ck_min _ _ _ _ _ Hck).
  - intros Hb. eapply cpu_allowed_le; [apply Hr|]. by apply (ck_cpu _ _ _ _ _ Hck).
Qed.

(** C29: no input transaction is executed twice.  On a branch of blocks with
    growing times, on a node that does not skip the checks of transactions and
    records their ids ([skip_trx_checks] and [skip_recording] are false), the
    table of recorded ids, from which the start of a block removes expired
    transactions, as far as its deadline allows, together with the check of the
    expiration lets every transaction in at most once.  The ids are hashes, and
    the only assumption on them is that no two of the accepted transactions
    have the same id and different expirations. *)
Theorem accepted_once {K Bytes : Type} `{Countable K} (endian_reverse_u32 : Z -> Z)
    (trx_id : Transactions.transaction Bytes -> Z) (t0 : Z) (n : @node Bytes) :
  (forall t t', t ∈ accepted n -> t' ∈ accepted n -> trx_id t = trx_id t' -> expiration t = expiration t') ->
  rtc (chain_step (K := K) endian_reverse_u32 trx_id) (mk_node t0 [] []) n ->
  NoDup (trx_id <$> accepted n).
Proof. intros Hid Hn. by eapply ro_once, chain_replay. Qed.

(** The time between a pause of the billing timer and its resumption is
    not billed, and the deadline moves by it unless the end of the block comes
    first. *)
Theorem paused_time_not_billed {K Bytes : Type} `{Countable K} (g : @controller K _ _)
    (c : @context K Bytes) (t1 t2 now : Z) :
  explicit_billed_cpu_time (opts c) = false -> 0 < pseudo_start (timer c) ->
  pseudo_start (timer c) <= t1 -> t1 <= t2 -> t2 <= now -> now < 2 ^ 62 ->
  0 <= deadline (timer c) < 2 ^ 62 ->
  let c' := resume_billing_timer (pause_billing_timer c t1) t2 in
  update_billed_cpu_time g c' now
    = Z.max ((t1 - pseudo_start (timer c)) + (now - t2))
        (min_transaction_cpu_usage (configuration g)) /\
  deadline (timer c') = Z.min (block_deadline (timer c)) (deadline (timer c) + (t2 - t1)).
Proof.
  intros He Hp H1 H2 H3 Hn Hd. unfold pause_billing_timer. rewrite He.
  replace (pseudo_start (timer c) =? 0) with false by lia. cbn [orb].
  unfold resume_billing_timer. cbn [opts timer set_timer pseudo_start]. rewrite He.
  change (0 =? 0) with true. cbn [orb negb].
  cbn [deadline paused_time block_deadline billed_time deadline_exception_code].
  rewrite (s64_small (t2 - t1)), (s64_small (deadline (timer c) + _)), (s64_small (t1 - _)) by lia.
  destruct (block_deadline (timer c) <? _) eqn:E; bool_to_prop;
    unfold update_billed_cpu_time; cbn; rewrite He, !s64_small by (rewrite ?s64_small; lia); lia.
Qed.

(** ** Examples *)

Definition sample_controller : @controller Z _ _ :=
  mk_controller 946684803500000 false true 1000 [] true (base default_config)
    (AccessLists.mk_lists [] [] [] [] ∅ []) {[ 0 := Merkle.mk_digest 0 0 0 0 ]}
    AuthorizationManager.ex_control.

(** An action of bob's. *)
Definition sample_trx : Transactions.transaction unit :=
  mk_transaction 946685000 0 0 0 0 0 []
    [AuthorizationManager.mk_action AuthorizationManager.ex_token (Name.mk_name 7)
       [Authority.mk_level RL.bob AuthorizationManager.active_name] tt] [].

Definition sample_options : options :=
  mk_options sample_trx 1000000 true 31000 0 false false microseconds_maximum.

Definition sample_context (m : RL.manager) : @context Z unit :=
  new_context sample_options time_point_maximum 0
    (AuthorizationManager.set_resources AuthorizationManager.ex_db m) [].

Definition the_context (r : result (@context Z unit)) : @context Z unit :=
  match r with Ok c => c | Throw _ => sample_context RL.billed_m end.

(** The transaction after [init], with 100 bytes to start with, after a pause
    of the timer, and after the checks of [finalize]. *)
Definition sample_init : @context Z unit :=
  the_context (init sample_controller (sample_context RL.billed_m) 100 1000000).
Definition sample_run : @context Z unit :=
  resume_billing_timer (pause_billing_timer sample_init 1000200) 1050000.

Lemma sample_fresh : fresh (sample_context RL.billed_m).
Proof.
  split; [apply RL.billed_m_inv|split; vm_compute; discriminate|constructor|].
  split; cbn; lia.
Qed.

Lemma sample_init_ok : init sample_controller (sample_context RL.billed_m) 100 1000000 = Ok sample_init.
Proof. vm_compute. reflexivity. Qed.


Lemma sample_steps : rtc (exec_step sample_controller) sample_init sample_run.
Proof. eapply rtc_l; [apply step_pause|]. apply rtc_once, step_resume. Qed.



Definition sample_done : @context Z unit :=
  the_context (finalize sample_controller sample_run 1050300).

Lemma billed_within_limits_witness :
  net_usage (net sample_done) mod 8 = 0 /\ 100 <= billed_cpu_time_us (cpu sample_done).
Proof.
  destruct (billed_within_limits sample_controller (sample_context RL.billed_m) sample_init sample_run
    sample_done 100 1000000 1050300 sample_fresh sample_init_ok sample_steps) as (Hn & _ & Hc & _).
  - vm_compute. reflexivity.
  - reflexivity.
  - split; [exact Hn|exact Hc].
Defined.

Definition sample_id (t : Transactions.transaction unit) : Z := expiration t * 2 ^ 16 + ref_block_num t.

(** Two transactions of alice's, one with a later expiration. *)
Definition alice_trx (expiration : Z) : Transactions.transaction unit :=
  mk_transaction expiration 0 0 0 0 0 []
    [AuthorizationManager.mk_action AuthorizationManager.ex_account (Name.mk_name 7)
       [Authority.mk_level AuthorizationManager.ex_account AuthorizationManager.active_name] tt] [].
Definition alice_resources : RL.manager :=
  match RL.initialize_account RL.billed_m AuthorizationManager.ex_account with
  | Ok m => m | Throw _ => RL.billed_m end.
Definition alice_context (expiration : Z) (known : list (Z * Z)) : @context Z unit :=
  new_context (mk_options (alice_trx expiration) 1000000 true 31000 0 false false microseconds_maximum)
    time_point_maximum 0
    (AuthorizationManager.set_resources AuthorizationManager.ex_db alice_resources) known.
Definition alice_push (g : @controller Z _ _) (expiration : Z) (known : list (Z * Z)) : result (@context Z unit) :=
  init_for_input_trx g (fun x => x) sample_id (alice_context expiration known) 100 20 false 1000000.

(** The controller one block later, and the recorded ids. *)
Definition later_controller : @controller Z _ _ :=
  mk_controller 946684804000000 false true 1000 [] true (base default_config)
    (AccessLists.mk_lists [] [] [] [] ∅ []) {[ 0 := Merkle.mk_digest 0 0 0 0 ]}
    AuthorizationManager.ex_control.
Definition first_id : Z * Z := (sample_id (alice_trx 946685000), 946685000).
Definition second_id : Z * Z := (sample_id (alice_trx 946685010), 946685010).

Lemma alice_step g expiration known acc : skip_trx_checks g = false ->
  transactions <$> alice_push g expiration known
    = Ok (known ++ [(sample_id (alice_trx expiration), expiration)]) ->
  chain_step (K := Z) (fun x => x) sample_id (mk_node (pending_block_time g) known acc)
    (mk_node (pending_block_time g) (known ++ [(sample_id (alice_trx expiration), expiration)])
       (alice_trx expiration :: acc)).
Proof.
  intros Hg Ht. destruct (alice_push g expiration known) as [c|e] eqn:E; [|done].
  cbn in Ht. injection Ht as Ht. rewrite <- Ht.
  exact (step_input (fun x => x) sample_id (mk_node (pending_block_time g) known acc) g
    (alice_context expiration known) 100 20 1000000 c eq_refl eq_refl Hg E).
Qed.

(** A transaction is accepted, a block starts, a replay of the transaction is
    refused, and another transaction is accepted. *)
Lemma accepted_once_witness :
  alice_push later_controller 946685000 [first_id] = Throw tx_duplicate /\
  NoDup (sample_id <$> [alice_trx 946685010; alice_trx 946685000]).
Proof.
  split; [vm_compute; reflexivity|].
  apply (accepted_once (K := Z) (fun x => x) sample_id 946684803500000
    (mk_node 946684804000000 [first_id; second_id] [alice_trx 946685010; alice_trx 946685000])).
  { intros t t' Ht Ht'. cbn [accepted] in Ht, Ht'. rewrite !elem_of_cons, elem_of_nil in Ht, Ht'.
    destruct Ht as [->|[->|[]]], Ht' as [->|[->|[]]]; vm_compute; intros E; first [reflexivity | discriminate E]. }
  eapply rtc_l; [apply (alice_step sample_controller 946685000 []); vm_compute; reflexivity|].
  eapply rtc_l; [apply (step_block _ _ (mk_node 946684803500000 [first_id] [alice_trx 946685000]) 946684804000000 0); cbn; lia|].
  apply rtc_once. apply (alice_step later_controller 946685010 [first_id]); vm_compute; reflexivity.
Defined.

Lemma paused_time_not_billed_witness :
  update_billed_cpu_time sample_controller sample_run 1050300 = 500.
Proof.
  apply (paused_time_not_billed sample_controller sample_init 1000200 1050000 1050300);
    first [reflexivity | vm_compute; discriminate | vm_compute; reflexivity | vm_compute; split; [discriminate|reflexivity]].
Defined.

(** bob has used NET, and then lost the stake that paid for it. *)
Definition overdrawn : RL.manager :=
  match (m ← RL.bill_account 500 100000 7 RL.billed_m RL.bob;
         '(m, _) ← RL.set_account_limits m RL.bob (-1) 0 25; mret m) with
  | Ok m => m | Throw _ => RL.billed_m end.

Lemma overdrawn_inv : RL.inv overdrawn.
Proof.
  unfold overdrawn. destruct (RL.bill_account _ _ _ _ _) as [m|] eqn:E; [|apply RL.billed_m_inv].
  apply RL.bill_account_inv in E; [|lia..|apply RL.billed_m_inv]. cbn [mbind result_bind].
  destruct (RL.set_account_limits _ _ _ _ _) as [[m' b]|] eqn:E'; [|apply RL.billed_m_inv].
  by apply RL.set_account_limits_inv in E'; [|lia..|].
Qed.

(** A deferred transaction of bob's: it is charged no NET when it runs. *)
Definition overdrawn_init : @context Z unit :=
  the_context (init_for_deferred_trx sample_controller (sample_context overdrawn) 946684803000000
    1000000).
Definition overdrawn_checked : @context Z unit :=
  the_context (finalize_checks sample_controller overdrawn_init 1000500).

(** Without usage the billing can fail.  A deferred transaction is charged
    NET when it is scheduled, and none when it is executed.  If its account
    has used more than its present share, [finalize] finds that no NET is
    available, none was used, and lets the transaction pass; and then
    [add_transaction_usage], whose comment says that it should never fail,
    throws. *)
Theorem zero_usage_can_be_refused :
  fresh (sample_context overdrawn) /\
  init_for_deferred_trx sample_controller (sample_context overdrawn) 946684803000000 1000000
    = Ok overdrawn_init /\
  finalize_checks sample_controller overdrawn_init 1000500 = Ok overdrawn_checked /\
  skip_trx_checks sample_controller = false /\ net_usage (net overdrawn_checked) = 0 /\
  bill_transaction sample_controller overdrawn_checked = Throw tx_net_usage_exceeded.
Proof.
  split_and!; [|vm_compute; reflexivity..].
  split; [apply overdrawn_inv|split; vm_compute; discriminate|constructor|split; cbn; lia].
Qed.

End TransactionBilling.
