(* ===== verification/TableIndex.v ===== *)
(** * Rows of contract tables and the iterators handed to contracts:
      include/eosio/chain/contract_table_objects.hpp and the class
      iterator_cache of include/eosio/chain/apply_context.hpp

    Module [TableIndex] has the rows of the primary and secondary tables, the
    ordered indices over them as sorted lists, in which an iterator of the
    index is a position, and the cache that gives contracts small integers
    in the place of pointers.  A pointer to a row or a table is the id of the
    object: chainbase never uses an id twice, and a pointer to an object stays
    valid until the object is removed. *)

From S2P Require Import Prelude Names ProducerSchedule Authority.
Import Authority.

Module TableIndex.

(** [key_value_object] and the five instances of [secondary_index] *)
Inductive table_kind := keyval | idx64 | idx128 | idx256 | idx_double | idx_long_double.

#[global] Instance table_kind_eq_dec : EqDecision table_kind.
Proof. solve_decision. Defined.

Definition table_kinds : list table_kind :=
  [keyval; idx64; idx128; idx256; idx_double; idx_long_double].

Record table_id_object := mk_table {
  code : Name.name;
  scope : Name.name;
  table : Name.name;
  table_payer : Name.name;
  count : Z;
}.

(** A row of any kind.  [value] holds the bytes of [value] in a
    [key_value_object], and the words of [secondary_key] in an
    [index_object]: one of 64 or 128 bits, two of 128 bits for [key256_t], and
    the bits of a floating point key. *)
Record row := mk_row {
  id : Z;
  t_id : Z;
  primary_key : Z;
  payer : Name.name;
  value : list Z;
}.

#[global] Instance row_eq_dec : EqDecision row.
Proof. solve_decision. Defined.

(** ** Ordered indices *)

(** [std::less] of an array of words *)
Fixpoint words_less (a b : list Z) : bool :=
  match a, b with
  | _, [] => false
  | [], _ :: _ => true
  | x :: a, y :: b => (x <? y) || (negb (y <? x) && words_less a b)
  end.

Section order.
(** Comparison of the bits of softfloat numbers. *)
Context (f64_lt f128_lt : Z -> Z -> bool).

Definition SecondaryKeyLess (k : table_kind) (a b : list Z) : bool :=
  match k, a, b with
  | idx_double, [x], [y] => f64_lt x y
  | idx_long_double, [x], [y] => f128_lt x y
  | _, _, _ => words_less a b
  end.

(** The order of the index by_scope_primary of [key_value_index], which is
    the order of by_primary of the secondary tables. *)
Definition by_primary_less (r s : row) : bool :=
  (t_id r <? t_id s) || (negb (t_id s <? t_id r) && (primary_key r <? primary_key s)).

(** The order of by_secondary. *)
Definition by_secondary_less (k : table_kind) (r s : row) : bool :=
  (t_id r <? t_id s) ||
  (negb (t_id s <? t_id r) &&
   (SecondaryKeyLess k (value r) (value s) ||
    (negb (SecondaryKeyLess k (value s) (value r)) && (primary_key r <? primary_key s)))).

Fixpoint insert_row (less : row -> row -> bool) (r : row) (l : list row) : list row :=
  match l with
  | [] => [r]
  | s :: l' => if less r s then r :: l else s :: insert_row less r l'
  end.

(** The rows in the order of by_secondary. *)
Definition by_secondary (k : table_kind) (l : list row) : list row :=
  foldr (insert_row (by_secondary_less k)) [] l.

End order.

(** The first position whose row satisfies [p], the end if there is none:
    [lower_bound], [upper_bound] and [iterator_to] with their conditions. *)
Fixpoint first_position (p : row -> bool) (l : list row) : nat :=
  match l with
  | [] => O
  | r :: l' => if p r then O else S (first_position p l')
  end.

Definition iterator_to (l : list row) (r : row) : nat :=
  first_position (fun s => id s =? id r) l.

(** ** The iterator cache *)

Record iterator_cache := mk_cache {
  table_cache : gmap Z Z;
  end_iterator_to_table : list Z;
  iterator_to_object : list (option Z);
  object_to_iterator : gmap Z Z;
}.

Definition empty_cache : iterator_cache := mk_cache ∅ [] [] ∅.

Definition end_iterator_to_index (ei : Z) : nat := Z.to_nat (- ei - 2).
Definition index_to_end_iterator (indx : nat) : Z := - (Z.of_nat indx + 2).

Definition cache_table (c : iterator_cache) (tobj : Z) : Z * iterator_cache :=
  match table_cache c !! tobj with
  | Some ei => (ei, c)
  | None =>
      let ei := index_to_end_iterator (length (end_iterator_to_table c)) in
      (ei, mk_cache (<[tobj := ei]> (table_cache c)) (end_iterator_to_table c ++ [tobj])
             (iterator_to_object c) (object_to_iterator c))
  end.

(** The pointer that is stored: its table is looked up by the caller. *)
Definition get_table (c : iterator_cache) (i : Z) : result Z :=
  match table_cache c !! i with
  | Some _ => mret i
  | None => Throw table_not_in_cache
  end.

Definition get_end_iterator_by_table_id (c : iterator_cache) (i : Z) : result Z :=
  match table_cache c !! i with
  | Some ei => mret ei
  | None => Throw table_not_in_cache
  end.

Definition find_table_by_end_iterator (c : iterator_cache) (ei : Z) : result (option Z) :=
  EOS_ASSERT (ei <? -1) invalid_table_iterator;;
  mret (end_iterator_to_table c !! end_iterator_to_index ei).

Definition get (c : iterator_cache) (iterator : Z) : result Z :=
  EOS_ASSERT (negb (iterator =? -1)) invalid_table_iterator;;
  EOS_ASSERT (0 <=? iterator) table_operation_not_permitted;;
  match iterator_to_object c !! Z.to_nat iterator with
  | None => Throw invalid_table_iterator
  | Some None => Throw table_operation_not_permitted
  | Some (Some p) => mret p
  end.

Definition remove (c : iterator_cache) (iterator : Z) : result iterator_cache :=
  EOS_ASSERT (negb (iterator =? -1)) invalid_table_iterator;;
  EOS_ASSERT (0 <=? iterator) table_operation_not_permitted;;
  match iterator_to_object c !! Z.to_nat iterator with
  | None => Throw invalid_table_iterator
  | Some None => mret c
  | Some (Some p) =>
      mret (mk_cache (table_cache c) (end_iterator_to_table c)
              (<[Z.to_nat iterator := None]> (iterator_to_object c))
              (delete p (object_to_iterator c)))
  end.

Definition add (c : iterator_cache) (p : Z) : Z * iterator_cache :=
  match object_to_iterator c !! p with
  | Some i => (i, c)
  | None =>
      let i := Z.of_nat (length (iterator_to_object c)) in
      (i, mk_cache (table_cache c) (end_iterator_to_table c)
            (iterator_to_object c ++ [Some p]) (<[p := i]> (object_to_iterator c)))
  end.

(** ** Sorted lists of rows *)

Section sorted.
Context (less : row -> row -> bool) (valid : row -> Prop).
Hypothesis less_trans : forall x y z, valid x -> valid y -> valid z ->
  less x y = true -> less y z = true -> less x z = true.

Definition sorted (l : list row) : Prop := StronglySorted (fun r s => less r s = true) l.

Lemma insert_row_perm r l : insert_row less r l ≡ₚ r :: l.
Proof.
  induction l as [|s l IH]; cbn; [done|]. destruct (less r s); [done|].
  rewrite IH. apply Permutation_swap.
Qed.

Lemma insert_row_sorted r l : valid r -> Forall valid l ->
  (forall s, s ∈ l -> less r s = true \/ less s r = true) ->
  sorted l -> sorted (insert_row less r l).
Proof.
  intros Hr Hl Htot. induction 1 as [|s l Hs IH Hall]; cbn; [repeat constructor|].
  apply Forall_cons in Hl as [Hvs Hl]. rewrite Forall_forall in Hl. rewrite Forall_forall in Hall.
  destruct (less r s) eqn:E.
  - constructor; [by constructor; [|apply Forall_forall]|]. constructor; [done|].
    apply Forall_forall. intros x Hx. eapply (less_trans r s x); auto.
  - constructor; [apply IH; [by apply Forall_forall|intros; apply Htot; by right]|].
    rewrite insert_row_perm. constructor; [|by apply Forall_forall].
    destruct (Htot s) as [|]; [left|congruence|done].
Qed.

Lemma sorted_lookup l i j r s : sorted l -> l !! i = Some r -> l !! j = Some s -> (i < j)%nat ->
  less r s = true.
Proof.
  intros Hl. revert i j. induction Hl as [|x l Hl IH Hx]; intros i j Hi Hj Hij; [done|].
  destruct j as [|j]; [lia|]. destruct i as [|i]; cbn in *.
  - injection Hi as <-. rewrite Forall_forall in Hx. by eapply Hx, list_elem_of_lookup_2.
  - eapply IH; [done..|lia].
Qed.

Lemma sorted_alter (f : row -> row) l :
  (forall r s, r ∈ l -> s ∈ l -> less (f r) (f s) = less r s) -> sorted l -> sorted (f <$> l).
Proof.
  intros Hf. induction 1 as [|x l Hl IH Hx]; cbn; [constructor|]. constructor.
  - apply IH. intros. apply Hf; by right.
  - rewrite Forall_forall in Hx. apply Forall_forall.
    intros y (z & -> & Hz)%list_elem_of_fmap. rewrite Hf; [auto|left|by right].
Qed.

(** The rows before the first position do not satisfy the condition. *)
Lemma first_position_before (p : row -> bool) l i r :
  (i < first_position p l)%nat -> l !! i = Some r -> p r = false.
Proof.
  revert i. induction l as [|s l IH]; intros i Hi; cbn in *; [lia|].
  destruct (p s) eqn:E; [lia|]. destruct i as [|i]; cbn; [congruence|]. apply IH. lia.
Qed.

Lemma first_position_at (p : row -> bool) l r :
  l !! first_position p l = Some r -> p r = true.
Proof. induction l as [|s l IH]; cbn; [done|]. by destruct (p s) eqn:E; [intros [= <-]|]. Qed.

Lemma first_position_le (p : row -> bool) l : (first_position p l <= length l)%nat.
Proof. induction l as [|s l IH]; cbn; [lia|]. destruct (p s); lia. Qed.

Lemma iterator_to_lookup l r : NoDup (id <$> l) -> r ∈ l -> l !! iterator_to l r = Some r.
Proof.
  unfold iterator_to. induction l as [|s l IH]; cbn; intros Hnd Hr; [by apply elem_of_nil in Hr|].
  apply NoDup_cons in Hnd as [Hs Hnd]. apply elem_of_cons in Hr as [->|Hr].
  - by rewrite Z.eqb_refl.
  - destruct (id s =? id r) eqn:E; [|by apply IH]. bool_to_prop. destruct Hs. rewrite E.
    by apply list_elem_of_fmap_2.
Qed.

End sorted.

(** ** The cache *)

(** Both directions of the cache agree, for rows and for tables. *)
Record cache_ok (c : iterator_cache) : Prop := {
  co_object p i : object_to_iterator c !! p = Some i <->
    0 <= i /\ iterator_to_object c !! Z.to_nat i = Some (Some p);
  co_table t e : table_cache c !! t = Some e <->
    e < -1 /\ end_iterator_to_table c !! end_iterator_to_index e = Some t;
}.

Lemma empty_cache_ok : cache_ok empty_cache.
Proof. split; intros; cbn; rewrite lookup_empty, lookup_nil; naive_solver. Qed.

Lemma end_iterator_index n : end_iterator_to_index (index_to_end_iterator n) = n.
Proof. unfold end_iterator_to_index, index_to_end_iterator. lia. Qed.

Lemma end_iterator_new (c : iterator_cache) e t : e < -1 ->
  (end_iterator_to_table c ++ [t]) !! end_iterator_to_index e =
    if decide (e = index_to_end_iterator (length (end_iterator_to_table c))) then Some t
    else end_iterator_to_table c !! end_iterator_to_index e.
Proof.
  intros He. destruct (decide _) as [->|Hne].
  - rewrite end_iterator_index, lookup_app_r, Nat.sub_diag by lia. done.
  - destruct (decide (end_iterator_to_index e < length (end_iterator_to_table c))%nat).
    + by rewrite lookup_app_l.
    + rewrite lookup_app_r, (lookup_ge_None_2 (end_iterator_to_table c)) by lia.
      apply lookup_ge_None_2. cbn. unfold end_iterator_to_index, index_to_end_iterator in *. lia.
Qed.

Lemma cache_table_ok c t : cache_ok c -> cache_ok (cache_table c t).2.
Proof.
  intros Hc. unfold cache_table. destruct (table_cache c !! t) as [e|] eqn:E; [done|].
  split; cbn; [apply Hc|]. intros u e.
  assert (forall e', e' < -1 -> end_iterator_to_table c !! end_iterator_to_index e' <> Some t) as Hno.
  { intros e' He' Ht. rewrite (proj2 (co_table _ Hc t e')) in E; done. }
  assert (end_iterator_to_table c !!
    end_iterator_to_index (index_to_end_iterator (length (end_iterator_to_table c))) = None) as Hend.
  { rewrite end_iterator_index. apply lookup_ge_None_2. lia. }
  rewrite lookup_insert_Some, (co_table _ Hc). split.
  - intros [[<- <-]|[Hne [He Hu]]].
    + split; [unfold index_to_end_iterator; lia|]. rewrite end_iterator_new, decide_True; [done..|].
      unfold index_to_end_iterator. lia.
    + split; [done|]. rewrite end_iterator_new by done. destruct (decide _) as [->|]; [congruence|done].
  - intros [He Hu]. rewrite end_iterator_new in Hu by done. destruct (decide _) as [->|].
    + left. by simplify_eq.
    + right. split_and!; [intros ->; by eapply Hno|done..].
Qed.

Lemma cache_table_frame c t : iterator_to_object (cache_table c t).2 = iterator_to_object c /\
  object_to_iterator (cache_table c t).2 = object_to_iterator c.
Proof. unfold cache_table. by destruct (table_cache c !! t). Qed.

Lemma cache_table_in c t : table_cache (cache_table c t).2 !! t = Some (cache_table c t).1.
Proof.
  unfold cache_table. destruct (table_cache c !! t) as [e|] eqn:E; [done|]. cbn. apply lookup_insert_eq.
Qed.

Lemma cache_table_tables c t u e : cache_ok c -> table_cache c !! u = Some e ->
  table_cache (cache_table c t).2 !! u = Some e.
Proof.
  intros Hc Hu. unfold cache_table. destruct (table_cache c !! t) as [e'|] eqn:E; [done|]. cbn.
  rewrite lookup_insert_ne; [done|congruence].
Qed.

Lemma cache_table_only c t u e : table_cache (cache_table c t).2 !! u = Some e ->
  u = t \/ table_cache c !! u = Some e.
Proof.
  unfold cache_table. destruct (table_cache c !! t) as [e'|] eqn:E; [by right|]. cbn.
  intros [[<- _]|[_ ?]]%lookup_insert_Some; auto.
Qed.

Lemma add_ok c p : cache_ok c -> cache_ok (add c p).2.
Proof.
  intros Hc. unfold add. destruct (object_to_iterator c !! p) as [i|] eqn:E; [done|].
  split; cbn; [|apply Hc]. intros q i. rewrite lookup_insert_Some, (co_object _ Hc).
  assert (forall j : nat, iterator_to_object c !! j <> Some (Some p)) as Hno.
  { intros j Hj. rewrite (proj2 (co_object _ Hc p (Z.of_nat j))) in E; [done|].
    rewrite Nat2Z.id. split; [lia|done]. }
  split.
  - intros [[<- <-]|[Hne [Hi Hq]]].
    + split; [lia|]. rewrite Nat2Z.id, lookup_app_r, Nat.sub_diag by lia. done.
    + split; [done|]. by apply lookup_app_l_Some.
  - intros [Hi [Hq|[Hlen Hq]]%lookup_app_Some].
    + right. split_and!; [intros <-; by eapply Hno|done..].
    + apply list_lookup_singleton_Some in Hq as [? [= <-]]. left. split; [done|]. lia.
Qed.

Lemma add_frame c p : table_cache (add c p).2 = table_cache c /\
  end_iterator_to_table (add c p).2 = end_iterator_to_table c.
Proof. unfold add. by destruct (object_to_iterator c !! p). Qed.

Lemma add_in c p : object_to_iterator (add c p).2 !! p = Some (add c p).1.
Proof.
  unfold add. destruct (object_to_iterator c !! p) as [e|] eqn:E; [done|]. cbn. apply lookup_insert_eq.
Qed.

Lemma add_objects c p q i : object_to_iterator c !! q = Some i ->
  object_to_iterator (add c p).2 !! q = Some i.
Proof.
  intros Hq. unfold add. destruct (object_to_iterator c !! p) as [e|] eqn:E; [done|]. cbn.
  rewrite lookup_insert_ne; [done|congruence].
Qed.

Lemma add_only c p q i : object_to_iterator (add c p).2 !! q = Some i ->
  q = p \/ object_to_iterator c !! q = Some i.
Proof.
  unfold add. destruct (object_to_iterator c !! p) as [e|] eqn:E; [by right|]. cbn.
  intros [[<- _]|[_ ?]]%lookup_insert_Some; auto.
Qed.

Lemma get_ok c i p : cache_ok c -> get c i = Ok p <-> object_to_iterator c !! p = Some i.
Proof.
  intros Hc. rewrite (co_object _ Hc). unfold get. split.
  - intros H. inv_ok. bool_to_prop. destruct (iterator_to_object c !! _) as [[q|]|]; inv_ok. done.
  - intros [Hi Hp]. rewrite Hp. replace (i =? -1) with false by lia.
    by replace (0 <=? i) with true by lia.
Qed.

Lemma remove_ok c i p : cache_ok c -> object_to_iterator c !! p = Some i ->
  exists c', remove c i = Ok c' /\ cache_ok c' /\ object_to_iterator c' = delete p (object_to_iterator c)
    /\ table_cache c' = table_cache c /\ end_iterator_to_table c' = end_iterator_to_table c.
Proof.
  intros Hc Hp. pose proof Hp as [Hi Hl]%(co_object _ Hc). unfold remove. rewrite Hl.
  replace (i =? -1) with false by lia. replace (0 <=? i) with true by lia.
  eexists. split; [done|]. cbn. split_and!; [|done..]. split; cbn; [|apply Hc].
  intros q j. rewrite lookup_delete_Some, (co_object _ Hc). split.
  - intros (Hne & Hj & Hq). split; [done|]. rewrite list_lookup_insert_ne; [done|].
    intros Heq. assert (i = j) as <- by lia. congruence.
  - intros [Hj Hq]. apply list_lookup_insert_Some in Hq as [(_ & [=] & _)|[Hne Hq]].
    split_and!; [|done..]. intros <-. apply Hne.
    assert (object_to_iterator c !! p = Some j) by (by apply (co_object _ Hc)). congruence.
Qed.

End TableIndex.
