(* ===== verification/ContractTables.v ===== *)
(** * Contract tables: the database API of apply_context.cpp and
      include/eosio/chain/apply_context.hpp

    Module [ContractTables] has the operations on primary tables
    (db_store_i64 and the like) and on secondary tables (the class
    generic_index), the bookkeeping of tables and of the RAM they are charged
    for, and the interface through which contracts call them
    (webassembly/database.cpp with the checks of preconditions.hpp).  The undo
    session of the transaction discards the changes of an action that throws:
    operations return a [result] of the new state. *)

From S2P Require Import Prelude Names ProducerSchedule Authority ResourceLimits TableIndex.
Import Authority TableIndex.

Module ContractTables.
Abbreviation account_name := Name.name.
Abbreviation no_name := (Name.mk_name 0).

(** What an action reads of its context and of the controller. *)
Record action_context := mk_action_context {
  receiver : account_name;
  act_account : account_name;
  authorization : list permission_level;
  privileged : bool;
  context_free : bool;
  (** [control.is_builtin_activated( ram_restrictions )] *)
  ram_restrictions : bool;
  is_ram_billing_in_notify_allowed : bool;
}.

(** The tables of the database, and the members of [apply_context] and
    [transaction_context] that the operations change. *)
Record state := mk_state {
  tables : gmap Z table_id_object;
  next_table : Z;
  objects : table_kind -> list row;
  next_object : table_kind -> Z;
  caches : table_kind -> iterator_cache;
  resources : ResourceLimits.manager;
  account_ram_deltas : gmap account_name Z;
  validate_ram_usage : gset account_name;
}.

Definition set_at {A} (f : table_kind -> A) (k : table_kind) (a : A) : table_kind -> A :=
  fun k' => if decide (k' = k) then a else f k'.

Definition set_tables (s : state) (t : gmap Z table_id_object) (n : Z) : state :=
  mk_state t n (objects s) (next_object s) (caches s) (resources s) (account_ram_deltas s)
    (validate_ram_usage s).
Definition set_objects (s : state) (k : table_kind) (l : list row) (n : Z) : state :=
  mk_state (tables s) (next_table s) (set_at (objects s) k l) (set_at (next_object s) k n)
    (caches s) (resources s) (account_ram_deltas s) (validate_ram_usage s).
Definition set_cache (s : state) (k : table_kind) (c : iterator_cache) : state :=
  mk_state (tables s) (next_table s) (objects s) (next_object s) (set_at (caches s) k c)
    (resources s) (account_ram_deltas s) (validate_ram_usage s).
Definition set_ram (s : state) (r : ResourceLimits.manager) (d : gmap account_name Z)
    (v : gset account_name) : state :=
  mk_state (tables s) (next_table s) (objects s) (next_object s) (caches s) r d v.

(** ** RAM *)

Definition overhead_per_row_per_index_ram_bytes : Z := 32.
Definition billable_table : Z := billable_size_v (44 + overhead_per_row_per_index_ram_bytes * 2).

(** [config::billable_size_v] of the row type *)
Definition billable_row (k : table_kind) : Z :=
  billable_size_v
    match k with
    | keyval => 32 + 8 + 4 + overhead_per_row_per_index_ram_bytes * 2
    | idx64 | idx_double => 24 + 8 + overhead_per_row_per_index_ram_bytes * 3
    | idx128 | idx_long_double => 24 + 16 + overhead_per_row_per_index_ram_bytes * 3
    | idx256 => 24 + 32 + overhead_per_row_per_index_ram_bytes * 3
    end.

(** [apply_context::add_ram_usage] with [transaction_context::add_ram_usage] *)
Definition add_ram_usage (s : state) (account : account_name) (ram_delta : Z) : result state :=
  r ← ResourceLimits.add_pending_ram_usage (resources s) account ram_delta;
  let v := if 0 <? ram_delta then {[account]} ∪ validate_ram_usage s else validate_ram_usage s in
  let d := match account_ram_deltas s !! account with
           | Some delta => s64 (delta + ram_delta)
           | None => ram_delta
           end in
  mret (set_ram s r (<[account := d]> (account_ram_deltas s)) v).

Section operations.
Context (x : action_context).

Definition has_authorization (account : account_name) : bool :=
  existsb (fun a => bool_decide (actor a = account)) (authorization x).

Definition require_authorization (account : account_name) : result unit :=
  EOS_ASSERT (has_authorization account) missing_auth_exception.

Definition update_db_usage (s : state) (payer : account_name) (delta : Z) : result state :=
  (if 0 <? delta then
     if negb (privileged x || bool_decide (payer = receiver x) || ram_restrictions x) then
       EOS_ASSERT (is_ram_billing_in_notify_allowed x || bool_decide (receiver x = act_account x))
         subjective_block_production_exception;;
       require_authorization payer
     else mret tt
   else mret tt);;
  add_ram_usage s payer delta.

(** ** Tables *)

(** [db.find<table_id_object, by_code_scope_table>]; a table is given by its id. *)
Definition find_table (s : state) (code scope table : Name.name) : option Z :=
  fst <$> (snd <$> list_find
    (fun e => TableIndex.code e.2 = code /\ TableIndex.scope e.2 = scope /\ TableIndex.table e.2 = table)
    (map_to_list (tables s))).

Definition find_or_create_table (s : state) (code scope table : Name.name) (payer : account_name)
  : result (Z * state) :=
  match find_table s code scope table with
  | Some tid => mret (tid, s)
  | None =>
      s ← update_db_usage s payer billable_table;
      let tid := next_table s in
      mret (tid, set_tables s (<[tid := mk_table code scope table payer 0]> (tables s)) (tid + 1))
  end.

(** Reading a table or a row through a pointer. *)
Definition table_at (s : state) (tid : Z) : result table_id_object :=
  match tables s !! tid with
  | Some t => mret t
  | None => Throw undefined_behaviour
  end.

Definition row_at (s : state) (k : table_kind) (p : Z) : result row :=
  match snd <$> list_find (fun r => id r = p) (objects s k) with
  | Some r => mret r
  | None => Throw undefined_behaviour
  end.

Definition remove_table (s : state) (tid : Z) : result state :=
  t ← table_at s tid;
  s ← update_db_usage s (table_payer t) (s64 (- billable_table));
  mret (set_tables s (delete tid (tables s)) (next_table s)).

(** [++t.count] and [--t.count] *)
Definition add_count (t : table_id_object) (n : Z) : table_id_object :=
  mk_table (code t) (scope t) (table t) (table_payer t) (u32 (count t + n)).

Definition modify_count (s : state) (tid n : Z) : result state :=
  t ← table_at s tid;
  mret (set_tables s (<[tid := add_count t n]> (tables s)) (next_table s)).

(** [db.create] of a row: the index by primary key is unique. *)
Definition create_row (s : state) (k : table_kind) (tid primary : Z) (payer : account_name)
    (value : list Z) : result (row * state) :=
  if existsb (fun r => (t_id r =? tid) && (primary_key r =? primary)) (objects s k)
  then Throw uniqueness_violation
  else
    let r := mk_row (next_object s k) tid primary payer value in
    mret (r, set_objects s k (insert_row by_primary_less r (objects s k)) (next_object s k + 1)).

(** [db.modify] of the payer and the value *)
Definition edit_row (p : Z) (payer : account_name) (value : list Z) (r : row) : row :=
  if decide (id r = p) then mk_row (id r) (t_id r) (primary_key r) payer value else r.

Definition modify_row (s : state) (k : table_kind) (obj : row) (payer : account_name)
    (value : list Z) : state :=
  set_objects s k (edit_row (id obj) payer value <$> objects s k) (next_object s k).

Definition remove_row (s : state) (k : table_kind) (obj : row) : state :=
  set_objects s k (filter (fun r => id r <> id obj) (objects s k)) (next_object s k).

(** ** Iterators *)

(** [keyval_cache.get( iterator )] and [itr_cache.get( iterator )] *)
Definition get_object (s : state) (k : table_kind) (iterator : Z) : result row :=
  p ← get (caches s k) iterator; row_at s k p.

Definition get_table_of (s : state) (k : table_kind) (obj : row) : result (Z * table_id_object) :=
  tid ← get_table (caches s k) (t_id obj);
  t ← table_at s tid; mret (tid, t).

Definition cache_table_of (s : state) (k : table_kind) (tid : Z) : Z * state :=
  let '(ei, c) := cache_table (caches s k) tid in (ei, set_cache s k c).

Definition add_object (s : state) (k : table_kind) (obj : row) : Z * state :=
  let '(i, c) := add (caches s k) (id obj) in (i, set_cache s k c).

(** ** Operations on primary tables *)

(** The end of db_store_i64 and of generic_index::store: the row, billed with
    [billable_size]. *)
Definition store_row (s : state) (k : table_kind) (tid : Z) (payer : account_name) (primary : Z)
    (value : list Z) (billable_size : Z) : result (Z * state) :=
  '(obj, s) ← create_row s k tid primary payer value;
  s ← modify_count s tid 1;
  s ← update_db_usage s payer billable_size;
  let '(_, s) := cache_table_of s k tid in
  mret (add_object s k obj).

Definition db_store_i64 (s : state) (scope table : Name.name) (payer : account_name) (primary : Z)
    (buffer : list Z) : result (Z * state) :=
  '(tid, s) ← find_or_create_table s (receiver x) scope table payer;
  EOS_ASSERT (negb (bool_decide (payer = no_name))) invalid_table_payer;;
  store_row s keyval tid payer primary buffer (s64 (Z.of_nat (length buffer) + billable_row keyval)).

Definition db_update_i64 (s : state) (iterator : Z) (payer : account_name) (buffer : list Z)
  : result state :=
  obj ← get_object s keyval iterator;
  '(_, table_obj) ← get_table_of s keyval obj;
  EOS_ASSERT (bool_decide (code table_obj = receiver x)) table_access_violation;;
  let overhead := billable_row keyval in
  let old_size := s64 (Z.of_nat (length (value obj)) + overhead) in
  let new_size := s64 (Z.of_nat (length buffer) + overhead) in
  let payer := if decide (payer = no_name) then TableIndex.payer obj else payer in
  s ← (if decide (TableIndex.payer obj <> payer) then
         s ← update_db_usage s (TableIndex.payer obj) (- old_size);
         update_db_usage s payer new_size
       else if decide (old_size <> new_size) then
         update_db_usage s (TableIndex.payer obj) (new_size - old_size)
       else mret s);
  mret (modify_row s keyval obj payer buffer).

(** The end of db_remove_i64 and of generic_index::remove: the row and, with
    its last row, the table. *)
Definition remove_from_table (s : state) (k : table_kind) (iterator tid : Z) (obj : row)
  : result state :=
  s ← modify_count s tid (-1);
  let s := remove_row s k obj in
  t ← table_at s tid;
  s ← (if count t =? 0 then remove_table s tid else mret s);
  c ← remove (caches s k) iterator;
  mret (set_cache s k c).

Definition db_remove_i64 (s : state) (iterator : Z) : result state :=
  obj ← get_object s keyval iterator;
  '(tid, table_obj) ← get_table_of s keyval obj;
  EOS_ASSERT (bool_decide (code table_obj = receiver x)) table_access_violation;;
  s ← update_db_usage s (payer obj) (s64 (- (Z.of_nat (length (value obj)) + billable_row keyval)));
  remove_from_table s keyval iterator tid obj.

(** The returned size and the bytes copied to the buffer. *)
Definition db_get_i64 (s : state) (iterator buffer_size : Z) : result (Z * list Z) :=
  obj ← get_object s keyval iterator;
  let size := Z.of_nat (length (value obj)) in
  if buffer_size =? 0 then mret (size, [])
  else
    let copy_size := Z.min buffer_size size in
    mret (copy_size, take (Z.to_nat copy_size) (value obj)).

(** What a search or a move of an iterator returns: the iterator, and what it
    writes to the out parameters [primary] and [secondary], if it does. *)
Record answer := mk_answer {
  iterator : Z;
  primary_out : option Z;
  secondary_out : option (list Z);
}.

Definition only_iterator (i : Z) : answer := mk_answer i None None.

(** The next row of the index [idx], a list of the rows of kind [k] in the
    order of the index: the common text of db_next_i64, next_secondary and
    next_primary. *)
Definition next_in (s : state) (k : table_kind) (idx : list row) (iterator : Z)
  : result (answer * state) :=
  if iterator <? -1 then mret (only_iterator (-1), s)
  else
    obj ← get_object s k iterator;
    match idx !! S (iterator_to idx obj) with
    | None =>
        ei ← get_end_iterator_by_table_id (caches s k) (t_id obj); mret (only_iterator ei, s)
    | Some r =>
        if t_id r =? t_id obj then
          let '(i, s) := add_object s k r in
          mret (mk_answer i (Some (primary_key r)) None, s)
        else
          ei ← get_end_iterator_by_table_id (caches s k) (t_id obj); mret (only_iterator ei, s)
    end.

(** The row before position [itr], if it is one of the table. *)
Definition step_back (s : state) (k : table_kind) (idx : list row) (itr : nat) (tid : Z)
  : result (answer * state) :=
  match itr with
  | O => mret (only_iterator (-1), s)
  | S itr =>
      match idx !! itr with
      | None => Throw undefined_behaviour
      | Some r =>
          if t_id r =? tid then
            let '(i, s) := add_object s k r in
            mret (mk_answer i (Some (primary_key r)) None, s)
          else mret (only_iterator (-1), s)
      end
  end.

(** The common text of db_previous_i64, previous_secondary and
    previous_primary. *)
Definition previous_in (s : state) (k : table_kind) (idx : list row) (iterator : Z)
  : result (answer * state) :=
  if iterator <? -1 then
    tab ← find_table_by_end_iterator (caches s k) iterator;
    match tab with
    | None => Throw invalid_table_iterator
    | Some tid =>
        table_at s tid;;
        step_back s k idx (first_position (fun r => tid <? t_id r) idx) tid
    end
  else
    obj ← get_object s k iterator;
    step_back s k idx (iterator_to idx obj) (t_id obj).

(** The row at position [itr], or the end of the table: the common text of
    the lower and upper bounds.  [secondary] says that the function has an out
    parameter for the secondary key, [primary] for the primary key. *)
Definition row_or_end (s : state) (k : table_kind) (idx : list row) (itr : nat) (tid : Z)
    (primary secondary : bool) : result (answer * state) :=
  let '(table_end_itr, s) := cache_table_of s k tid in
  match idx !! itr with
  | None => mret (only_iterator table_end_itr, s)
  | Some r =>
      if t_id r =? tid then
        let '(i, s) := add_object s k r in
        mret (mk_answer i (if primary then Some (primary_key r) else None)
                (if secondary then Some (value r) else None), s)
      else mret (only_iterator table_end_itr, s)
  end.

(** [db.find]: the first row of the index whose key is equivalent to the one
    asked for.  [before] says that a row is before the key, [after] that it is
    after it. *)
Definition find_in (s : state) (k : table_kind) (idx : list row) (before after : row -> bool)
    (tid : Z) (primary secondary : bool) : result (answer * state) :=
  let '(table_end_itr, s) := cache_table_of s k tid in
  match idx !! first_position (fun r => negb (before r)) idx with
  | None => mret (only_iterator table_end_itr, s)
  | Some r =>
      if after r then mret (only_iterator table_end_itr, s)
      else
        let '(i, s) := add_object s k r in
        mret (mk_answer i (if primary then Some (primary_key r) else None)
                (if secondary then Some (value r) else None), s)
  end.

(** Functions that take the table by name return -1 when there is none. *)
Definition with_table (s : state) (code scope table : Name.name)
    (f : Z -> result (answer * state)) : result (answer * state) :=
  match find_table s code scope table with
  | None => mret (only_iterator (-1), s)
  | Some tid => f tid
  end.

(** Comparison with a composite key of table and primary key. *)
Definition before_primary (tid primary : Z) (r : row) : bool :=
  (t_id r <? tid) || (negb (tid <? t_id r) && (primary_key r <? primary)).
Definition after_primary (tid primary : Z) (r : row) : bool :=
  (tid <? t_id r) || (negb (t_id r <? tid) && (primary <? primary_key r)).

Definition db_next_i64 (s : state) (iterator : Z) : result (answer * state) :=
  next_in s keyval (objects s keyval) iterator.

Definition db_previous_i64 (s : state) (iterator : Z) : result (answer * state) :=
  previous_in s keyval (objects s keyval) iterator.

Definition db_find_i64 (s : state) (code scope table : Name.name) (primary : Z)
  : result (answer * state) :=
  with_table s code scope table (fun tid =>
    find_in s keyval (objects s keyval) (before_primary tid primary) (after_primary tid primary)
      tid false false).

Definition db_lowerbound_i64 (s : state) (code scope table : Name.name) (primary : Z)
  : result (answer * state) :=
  with_table s code scope table (fun tid =>
    row_or_end s keyval (objects s keyval)
      (first_position (fun r => negb (before_primary tid primary r)) (objects s keyval))
      tid false false).

Definition db_upperbound_i64 (s : state) (code scope table : Name.name) (primary : Z)
  : result (answer * state) :=
  with_table s code scope table (fun tid =>
    row_or_end s keyval (objects s keyval)
      (first_position (after_primary tid primary) (objects s keyval)) tid false false).

Definition db_end_i64 (s : state) (code scope table : Name.name) : result (answer * state) :=
  with_table s code scope table (fun tid =>
    let '(ei, s) := cache_table_of s keyval tid in mret (only_iterator ei, s)).

(** ** Operations on secondary tables: the class generic_index for a kind [k] *)

Section generic_index.
Context (f64_lt f128_lt : Z -> Z -> bool) (k : table_kind).
Abbreviation less := (SecondaryKeyLess f64_lt f128_lt k).
Abbreviation secondary_idx s := (by_secondary f64_lt f128_lt k (objects s k)).

Definition store (s : state) (scope table : Name.name) (payer : account_name) (primary : Z)
    (secondary : list Z) : result (Z * state) :=
  EOS_ASSERT (negb (bool_decide (payer = no_name))) invalid_table_payer;;
  '(tid, s) ← find_or_create_table s (receiver x) scope table payer;
  store_row s k tid payer primary secondary (billable_row k).

Definition remove_secondary (s : state) (iterator : Z) : result state :=
  obj ← get_object s k iterator;
  '(tid, table_obj) ← get_table_of s k obj;
  EOS_ASSERT (bool_decide (code table_obj = receiver x)) table_access_violation;;
  s ← update_db_usage s (payer obj) (s64 (- billable_row k));
  remove_from_table s k iterator tid obj.

Definition update (s : state) (iterator : Z) (payer : account_name) (secondary : list Z)
  : result state :=
  obj ← get_object s k iterator;
  '(_, table_obj) ← get_table_of s k obj;
  EOS_ASSERT (bool_decide (code table_obj = receiver x)) table_access_violation;;
  let payer := if decide (payer = no_name) then TableIndex.payer obj else payer in
  let billing_size := billable_row k in
  s ← (if decide (TableIndex.payer obj <> payer) then
         s ← update_db_usage s (TableIndex.payer obj) (- billing_size);
         update_db_usage s payer billing_size
       else mret s);
  mret (modify_row s k obj payer secondary).

(** Comparison with a composite key of table and secondary key. *)
Definition before_secondary (tid : Z) (secondary : list Z) (r : row) : bool :=
  (t_id r <? tid) || (negb (tid <? t_id r) && less (value r) secondary).
Definition after_secondary (tid : Z) (secondary : list Z) (r : row) : bool :=
  (tid <? t_id r) || (negb (t_id r <? tid) && less secondary (value r)).

Definition find_secondary (s : state) (code scope table : Name.name) (secondary : list Z)
  : result (answer * state) :=
  with_table s code scope table (fun tid =>
    find_in s k (secondary_idx s) (before_secondary tid secondary) (after_secondary tid secondary)
      tid true false).

Definition lowerbound_secondary (s : state) (code scope table : Name.name) (secondary : list Z)
  : result (answer * state) :=
  with_table s code scope table (fun tid =>
    row_or_end s k (secondary_idx s)
      (first_position (fun r => negb (before_secondary tid secondary r)) (secondary_idx s))
      tid true true).

Definition upperbound_secondary (s : state) (code scope table : Name.name) (secondary : list Z)
  : result (answer * state) :=
  with_table s code scope table (fun tid =>
    row_or_end s k (secondary_idx s)
      (first_position (after_secondary tid secondary) (secondary_idx s)) tid true true).

Definition end_secondary (s : state) (code scope table : Name.name) : result (answer * state) :=
  with_table s code scope table (fun tid =>
    let '(ei, s) := cache_table_of s k tid in mret (only_iterator ei, s)).

Definition next_secondary (s : state) (iterator : Z) : result (answer * state) :=
  next_in s k (secondary_idx s) iterator.

Definition previous_secondary (s : state) (iterator : Z) : result (answer * state) :=
  previous_in s k (secondary_idx s) iterator.

Definition find_primary (s : state) (code scope table : Name.name) (primary : Z)
  : result (answer * state) :=
  with_table s code scope table (fun tid =>
    find_in s k (objects s k) (before_primary tid primary) (after_primary tid primary)
      tid false true).

Definition lowerbound_primary (s : state) (code scope table : Name.name) (primary : Z)
  : result (answer * state) :=
  with_table s code scope table (fun tid =>
    row_or_end s k (objects s k)
      (first_position (fun r => negb (before_primary tid primary r)) (objects s k)) tid false false).

Definition upperbound_primary (s : state) (code scope table : Name.name) (primary : Z)
  : result (answer * state) :=
  with_table s code scope table (fun tid =>
    row_or_end s k (objects s k)
      (first_position (after_primary tid primary) (objects s k)) tid false false).

Definition next_primary (s : state) (iterator : Z) : result (answer * state) :=
  next_in s k (objects s k) iterator.

Definition previous_primary (s : state) (iterator : Z) : result (answer * state) :=
  previous_in s k (objects s k) iterator.

(** [generic_index::get]: the two out parameters *)
Definition get_secondary (s : state) (iterator : Z) : result (Z * list Z) :=
  obj ← get_object s k iterator; mret (primary_key obj, value obj).

End generic_index.

(** ** The interface of contracts *)

Section interface.
Context (f64_lt f128_lt : Z -> Z -> bool) (f64_is_nan f128_is_nan : Z -> bool).

(** A call of a contract; those on secondary tables have their kind first. *)
Inductive call :=
  | Store (scope table payer : Name.name) (primary : Z) (buffer : list Z)
  | Update (iterator : Z) (payer : Name.name) (buffer : list Z)
  | Remove (iterator : Z)
  | Get (iterator buffer_size : Z)
  | Next (iterator : Z)
  | Previous (iterator : Z)
  | Find (code scope table : Name.name) (primary : Z)
  | Lowerbound (code scope table : Name.name) (primary : Z)
  | Upperbound (code scope table : Name.name) (primary : Z)
  | End (code scope table : Name.name)
  | IdxStore (k : table_kind) (scope table payer : Name.name) (primary : Z) (secondary : list Z)
  | IdxUpdate (k : table_kind) (iterator : Z) (payer : Name.name) (secondary : list Z)
  | IdxRemove (k : table_kind) (iterator : Z)
  | IdxFindSecondary (k : table_kind) (code scope table : Name.name) (secondary : list Z)
  | IdxFindPrimary (k : table_kind) (code scope table : Name.name) (secondary : list Z) (primary : Z)
  | IdxLowerbound (k : table_kind) (code scope table : Name.name) (secondary : list Z)
  | IdxUpperbound (k : table_kind) (code scope table : Name.name) (secondary : list Z)
  | IdxEnd (k : table_kind) (code scope table : Name.name)
  | IdxNext (k : table_kind) (iterator : Z)
  | IdxPrevious (k : table_kind) (iterator : Z).

(** [is_nan_check] for the floating point indices *)
Definition is_nan_check (k : table_kind) (secondary : list Z) : result unit :=
  match k, secondary with
  | idx_double, [b] => EOS_ASSERT (negb (f64_is_nan b)) transaction_exception
  | idx_long_double, [b] => EOS_ASSERT (negb (f128_is_nan b)) transaction_exception
  | _, _ => mret tt
  end.

(** [idx256_array_size]: the span given for a 256-bit key *)
Definition array_size_check (k : table_kind) (secondary : list Z) : result unit :=
  match k with
  | idx256 => EOS_ASSERT (Z.of_nat (length secondary) =? 2) db_api_exception
  | _ => mret tt
  end.

Definition key_check (k : table_kind) (secondary : list Z) : result unit :=
  is_nan_check k secondary;; array_size_check k secondary.

(** What a call returns: the answer of a search, and the bytes of db_get_i64. *)
Record returned := mk_returned { ret : answer; bytes : list Z }.
Definition returns_nothing : returned := mk_returned (only_iterator 0) [].
Definition returns_iterator (i : Z) : returned := mk_returned (only_iterator i) [].
Definition returns (m : result (answer * state)) : result (returned * state) :=
  '(a, s) ← m; mret (mk_returned a [], s).
Definition returns_row (m : result (Z * state)) : result (returned * state) :=
  '(i, s) ← m; mret (returns_iterator i, s).
Definition returns_state (m : result state) : result (returned * state) :=
  s ← m; mret (returns_nothing, s).

Definition call_api (s : state) (c : call) : result (returned * state) :=
  EOS_ASSERT (negb (context_free x)) unaccessible_api;;
  match c with
  | Store scope table payer primary buffer => returns_row (db_store_i64 s scope table payer primary buffer)
  | Update it payer buffer => returns_state (db_update_i64 s it payer buffer)
  | Remove it => returns_state (db_remove_i64 s it)
  | Get it size => '(n, b) ← db_get_i64 s it size; mret (mk_returned (only_iterator n) b, s)
  | Next it => returns (db_next_i64 s it)
  | Previous it => returns (db_previous_i64 s it)
  | Find code scope table primary => returns (db_find_i64 s code scope table primary)
  | Lowerbound code scope table primary => returns (db_lowerbound_i64 s code scope table primary)
  | Upperbound code scope table primary => returns (db_upperbound_i64 s code scope table primary)
  | End code scope table => returns (db_end_i64 s code scope table)
  | IdxStore k scope table payer primary sec =>
      key_check k sec;; returns_row (store k s scope table payer primary sec)
  | IdxUpdate k it payer sec => key_check k sec;; returns_state (update k s it payer sec)
  | IdxRemove k it => returns_state (remove_secondary k s it)
  | IdxFindSecondary k code scope table sec =>
      key_check k sec;; returns (find_secondary f64_lt f128_lt k s code scope table sec)
  | IdxFindPrimary k code scope table sec primary =>
      array_size_check k sec;; returns (find_primary k s code scope table primary)
  | IdxLowerbound k code scope table sec =>
      key_check k sec;; returns (lowerbound_secondary f64_lt f128_lt k s code scope table sec)
  | IdxUpperbound k code scope table sec =>
      key_check k sec;; returns (upperbound_secondary f64_lt f128_lt k s code scope table sec)
  | IdxEnd k code scope table => returns (end_secondary k s code scope table)
  | IdxNext k it => returns (next_secondary f64_lt f128_lt k s it)
  | IdxPrevious k it => returns (previous_secondary f64_lt f128_lt k s it)
  end.

(** ** Execution of an action *)

(** The check of [exec_one] after the contract has run: with RAM restrictions
    an unprivileged contract may raise the RAM usage of other accounts only
    with their authorization and not in a notification. *)
Definition check_delta (e : account_name * Z) : result unit :=
  if (0 <? e.2) && negb (bool_decide (e.1 = receiver x)) then
    EOS_ASSERT (bool_decide (receiver x = act_account x)) unauthorized_ram_usage_increase;;
    EOS_ASSERT (has_authorization e.1) unauthorized_ram_usage_increase
  else mret tt.

Definition check_ram_deltas (s : state) : result unit :=
  if negb (privileged x) && ram_restrictions x
  then foldM (fun _ e => check_delta e) tt (map_to_list (account_ram_deltas s))
  else mret tt.

(** The calls that a contract makes in the course of an action. *)
Definition run_calls (s : state) (l : list call) : result state :=
  foldM (fun s c => '(_, s) ← call_api s c; mret s) s l.

Definition exec_contract (s : state) (l : list call) : result state :=
  s ← run_calls s l; check_ram_deltas s;; mret s.

(** The start of an action: the members of a new [apply_context]. *)
Definition new_context (s : state) : state :=
  mk_state (tables s) (next_table s) (objects s) (next_object s) (fun _ => empty_cache)
    (resources s) ∅ (validate_ram_usage s).

End interface.
End operations.
End ContractTables.
