(* ===== verification/TableInvariants.v ===== *)
(** * Contract tables: invariants

    The tables of [ContractTables] stay well formed under every call of a
    contract: the count of a table is the number of its rows in all kinds, no
    empty table is kept, keys are unique, and the iterator caches only refer to
    rows that exist.  RAM is conserved: what an account is billed changes by
    what the rows and tables it pays for take. *)

From S2P Require Import Prelude Names ProducerSchedule Authority ResourceLimits TableIndex.
From S2P Require Import ContractTables.
Import Authority TableIndex ContractTables.

Module TableInvariants.

(** ** Sums over the kinds of tables *)

Definition sum_kinds (f : table_kind -> Z) : Z := sum_with f table_kinds.

Lemma sum_kinds_set {A} (f : table_kind -> A -> Z) (g : table_kind -> A) k a :
  sum_kinds (fun k' => f k' (set_at g k a k')) = sum_kinds (fun k' => f k' (g k')) - f k (g k) + f k a.
Proof.
  unfold sum_kinds, sum_with, table_kinds, set_at. cbn [foldr].
  destruct k; repeat first [rewrite decide_True by done | rewrite decide_False by done]; lia.
Qed.

Lemma set_at_eq {A} (g : table_kind -> A) k a : set_at g k a k = a.
Proof. unfold set_at. by rewrite decide_True. Qed.

Lemma set_at_ne {A} (g : table_kind -> A) k k' a : k' <> k -> set_at g k a k' = g k'.
Proof. intros. unfold set_at. by rewrite decide_False. Qed.

(** A statement about the value at every kind, after an update at one. *)
Lemma set_at_all {A} (P : table_kind -> A -> Prop) (g : table_kind -> A) k a :
  (forall k', P k' (g k')) -> P k a -> forall k', P k' (set_at g k a k').
Proof. intros Hg Ha k'. unfold set_at. by destruct (decide (k' = k)) as [->|]. Qed.

(** ** Well-formed tables *)

(** The number of rows of a table among the rows of one kind, and in all. *)
Definition rows_in (tid : Z) (l : list row) : Z := sum_with (fun r => if decide (t_id r = tid) then 1 else 0) l.
Definition rows_of (o : table_kind -> list row) (tid : Z) : Z := sum_kinds (fun k => rows_in tid (o k)).

Definition table_key (t : table_id_object) : Name.name * Name.name * Name.name :=
  (code t, scope t, table t).

Definition wf_unique (t : gmap Z table_id_object) : Prop := forall i j u v,
  t !! i = Some u -> t !! j = Some v -> table_key u = table_key v -> i = j.

(** The tables [t] and the rows [o], with the next ids [n] and [m].  A table
    may be empty: it is between the calls that create it and its first row. *)
Record tables_ok (t : gmap Z table_id_object) (n : Z) (o : table_kind -> list row)
    (m : table_kind -> Z) : Prop := {
  to_unique : wf_unique t;
  to_next i : is_Some (t !! i) -> i < n;
  to_sorted k : sorted by_primary_less (o k);
  to_ids k : NoDup (id <$> o k);
  to_fresh k r : r ∈ o k -> id r < m k;
  to_owned k r : r ∈ o k -> is_Some (t !! t_id r);
  to_size k r : r ∈ o k -> Z.of_nat (length (value r)) < 2 ^ 32;
  to_count i u : t !! i = Some u -> count u = rows_of o i;
}.

(** The cache of one kind: it holds iterators of rows that exist and of tables
    that exist or existed. *)
Record cached_ok (n : Z) (l : list row) (c : iterator_cache) : Prop := {
  ch_ok : cache_ok c;
  ch_rows p i : object_to_iterator c !! p = Some i ->
    exists r, r ∈ l /\ id r = p /\ is_Some (table_cache c !! t_id r);
  ch_tables tid : is_Some (table_cache c !! tid) -> tid < n;
}.

Record wf (s : state) : Prop := {
  wf_tables : tables_ok (tables s) (next_table s) (objects s) (next_object s);
  wf_nonempty i u : tables s !! i = Some u -> 0 < count u;
  wf_caches k : cached_ok (next_table s) (objects s k) (caches s k);
  wf_ram : ResourceLimits.inv (resources s);
}.

(** No table has so many rows that its 32-bit count would wrap around. *)
Definition capacity (s : state) : Prop := forall i, rows_of (objects s) i < 2 ^ 32.

(** ** RAM *)

Definition billed (s : state) (a : account_name) : Z := ResourceLimits.billed (resources s) a.

Abbreviation only_for := ResourceLimits.only_for.

Definition row_size (k : table_kind) (v : list Z) : Z :=
  match k with keyval => Z.of_nat (length v) | _ => 0 end + billable_row k.

(** What the rows and tables that an account pays for take. *)
Definition row_bytes (k : table_kind) (a : account_name) (r : row) : Z :=
  only_for (payer r) a (row_size k (value r)).
Definition table_bytes (a : account_name) (_ : Z) (t : table_id_object) : Z :=
  only_for (table_payer t) a billable_table.
Definition owed_of (t : gmap Z table_id_object) (o : table_kind -> list row) (a : account_name) : Z :=
  sum_map (table_bytes a) t + sum_kinds (fun k => sum_with (row_bytes k a) (o k)).
Definition owed (s : state) (a : account_name) : Z := owed_of (tables s) (objects s) a.

(** [s'] differs from [s] in RAM only, by the deltas [f]. *)
Definition charged (s s' : state) (f : account_name -> Z) : Prop :=
  (exists r d v, s' = set_ram s r d v) /\ ResourceLimits.inv (resources s') /\
  forall a, billed s' a = billed s a + f a.

Lemma charged_refl s : ResourceLimits.inv (resources s) -> charged s s (fun _ => 0).
Proof.
  intros Hs. split_and!; [|done|intros; lia].
  exists (resources s), (account_ram_deltas s), (validate_ram_usage s). by destruct s.
Qed.

Lemma charged_trans s s1 s2 f g : charged s s1 f -> charged s1 s2 g ->
  charged s s2 (fun a => f a + g a).
Proof.
  intros ((r & d & v & ->) & _ & Hf) ((r' & d' & v' & ->) & Hi & Hg). split_and!; [by eauto|done|].
  intros a. rewrite Hg, Hf. lia.
Qed.

Lemma charged_ext s s' f g : (forall a, f a = g a) -> charged s s' f -> charged s s' g.
Proof. intros Hfg (? & ? & Hf). split_and!; [done..|]. intros. by rewrite Hf, Hfg. Qed.

Lemma update_db_usage_ok x s y d s' : ResourceLimits.inv (resources s) -> is_s64 d ->
  update_db_usage x s y d = Ok s' -> charged s s' (fun a => only_for y a d).
Proof.
  intros Hinv Hd Hr. unfold update_db_usage in Hr. apply bind_ok_inv in Hr as ([] & _ & Hr).
  unfold add_ram_usage in Hr. apply bind_ok_inv in Hr as (r & Hr & [= <-]).
  split_and!; [by eauto|by eapply ResourceLimits.ram_usage_inv|].
  by apply ResourceLimits.add_pending_ram_billed.
Qed.

(** ** Finding tables *)

Lemma find_table_Some s c sc tb tid : wf_unique (tables s) ->
  find_table s c sc tb = Some tid <-> exists t, tables s !! tid = Some t /\ table_key t = (c, sc, tb).
Proof.
  intros Hu. unfold find_table. split.
  - intros Hf. destruct (list_find _ _) as [[i [j t]]|] eqn:E; [|done]. injection Hf as <-.
    apply list_find_Some in E as (Hk & (<- & <- & <-) & _).
    apply list_elem_of_lookup_2, elem_of_map_to_list in Hk. by exists t.
  - intros (t & Ht & Hkey). destruct (list_find _ _) as [[i [j v]]|] eqn:E.
    + apply list_find_Some in E as (Hk & (? & ? & ?) & _).
      apply list_elem_of_lookup_2, elem_of_map_to_list in Hk. cbn in *. f_equal.
      eapply (Hu j tid); [done..|]. unfold table_key in *. congruence.
    + apply list_find_None in E. rewrite Forall_forall in E. destruct (E (tid, t)).
      * by apply elem_of_map_to_list.
      * cbn. unfold table_key in Hkey. by simplify_eq.
Qed.

Lemma find_table_None s c sc tb : find_table s c sc tb = None <->
  forall i t, tables s !! i = Some t -> table_key t <> (c, sc, tb).
Proof.
  unfold find_table. rewrite !fmap_None, list_find_None, Forall_forall. split.
  - intros Hf i t Hi [= <- <- <-]. apply (Hf (i, t)); [|done]. by apply elem_of_map_to_list.
  - intros Hf [i t] Hi%elem_of_map_to_list (? & ? & ?). eapply Hf; [done|].
    unfold table_key. cbn in *. congruence.
Qed.

(** ** Rows of a table *)

Lemma rows_in_nonneg tid l : 0 <= rows_in tid l.
Proof. apply sum_with_nonneg. intros. destruct (decide _); lia. Qed.

Lemma rows_in_cons tid r l : rows_in tid (r :: l) = (if decide (t_id r = tid) then 1 else 0) + rows_in tid l.
Proof. done. Qed.

Lemma rows_in_zero tid l : rows_in tid l = 0 <-> forall r, r ∈ l -> t_id r <> tid.
Proof.
  induction l as [|r l IH].
  - split; [intros _ r Hr; by apply elem_of_nil in Hr|done].
  - rewrite rows_in_cons. pose proof (rows_in_nonneg tid l). split.
    + intros H0 s [->|Hs]%elem_of_cons; destruct (decide (t_id r = tid)); [lia|done|lia|].
      apply IH; [lia|done].
    + intros Hr. rewrite decide_False by (apply Hr; left). apply IH. intros. apply Hr. by right.
Qed.

Lemma rows_of_nonneg o tid : 0 <= rows_of o tid.
Proof. apply sum_with_nonneg. intros. apply rows_in_nonneg. Qed.

Lemma kind_elem k : k ∈ table_kinds.
Proof. destruct k; set_solver. Qed.

Lemma sum_with_zero {A} (f : A -> Z) l : (forall x, 0 <= f x) -> sum_with f l = 0 ->
  forall x, x ∈ l -> f x = 0.
Proof.
  intros Hf. unfold sum_with. induction l as [|y l IH]; cbn [foldr]; intros H0 x Hx; [by apply elem_of_nil in Hx|].
  pose proof (sum_with_nonneg f l Hf) as Hl. unfold sum_with in Hl. pose proof (Hf y).
  apply elem_of_cons in Hx as [->|Hx]; [lia|]. apply IH; [lia|done].
Qed.

Lemma rows_of_zero o tid : rows_of o tid = 0 <-> forall k r, r ∈ o k -> t_id r <> tid.
Proof.
  split.
  - intros H0 k. apply rows_in_zero. eapply (sum_with_zero (fun k => rows_in tid (o k))); [|exact H0|apply kind_elem].
    intros. apply rows_in_nonneg.
  - intros Hr. unfold rows_of, sum_kinds, sum_with, table_kinds. cbn [foldr].
    rewrite !(proj2 (rows_in_zero tid (o _))) by apply Hr. done.
Qed.

Lemma rows_of_set o k l tid : rows_of (set_at o k l) tid = rows_of o tid - rows_in tid (o k) + rows_in tid l.
Proof. apply (sum_kinds_set (fun _ => rows_in tid)). Qed.

#[global] Instance rows_in_perm tid : Proper ((≡ₚ) ==> (=)) (rows_in tid).
Proof. unfold rows_in. apply _. Qed.

(** ** The tables after a change *)

(** A row and the others. *)
Lemma filter_out_perm r l : NoDup (id <$> l) -> r ∈ l ->
  l ≡ₚ r :: filter (fun s => id s <> id r) l.
Proof.
  induction l as [|s l IH]; intros Hnd Hr; [by apply elem_of_nil in Hr|].
  rewrite fmap_cons in Hnd. apply NoDup_cons in Hnd as [Hs Hnd]. destruct (decide (s = r)) as [->|Hne].
  - rewrite filter_cons_False by (intros Hn; by apply Hn). rewrite list_filter_all; [done|].
    intros x Hx Heq. apply Hs. rewrite <- Heq. by apply list_elem_of_fmap_2.
  - apply elem_of_cons in Hr as [->|Hr]; [done|]. rewrite filter_cons_True.
    + rewrite (IH Hnd Hr) at 1. apply Permutation_swap.
    + intros Heq. apply Hs. rewrite Heq. by apply list_elem_of_fmap_2.
Qed.

Lemma by_primary_less_spec r s : by_primary_less r s = true <->
  t_id r < t_id s \/ (t_id r = t_id s /\ primary_key r < primary_key s).
Proof.
  unfold by_primary_less.
  rewrite orb_true_iff, andb_true_iff, negb_true_iff, !Z.ltb_lt, Z.ltb_ge. lia.
Qed.

Lemma insert_primary_sorted r l : (forall s, s ∈ l -> ~ (t_id s = t_id r /\ primary_key s = primary_key r)) ->
  sorted by_primary_less l -> sorted by_primary_less (insert_row by_primary_less r l).
Proof.
  intros Hr. apply (insert_row_sorted by_primary_less (fun _ => True)).
  - intros x y z _ _ _. rewrite !by_primary_less_spec. lia.
  - done.
  - by apply Forall_forall.
  - intros s Hs. specialize (Hr s Hs). rewrite !by_primary_less_spec. lia.
Qed.

Section changes.
Context (t : gmap Z table_id_object) (n : Z) (o : table_kind -> list row) (m : table_kind -> Z).
Hypothesis Hok : tables_ok t n o m.

Lemma no_rows_of_new i : t !! i = None -> rows_of o i = 0.
Proof.
  intros Hi. apply rows_of_zero. intros k r Hr <-. destruct (to_owned _ _ _ _ Hok k r Hr). congruence.
Qed.

Lemma create_table_ok c sc tb p : (forall i u, t !! i = Some u -> table_key u <> (c, sc, tb)) ->
  tables_ok (<[n := mk_table c sc tb p 0]> t) (n + 1) o m.
Proof.
  intros Hnew.
  assert (t !! n = None) as Hn.
  { apply eq_None_not_Some. intros Hs%(to_next _ _ _ _ Hok). lia. }
  destruct Hok as [Hu Hnx Hs Hi Hf Ho Hsz Hc]. split; try done.
  - intros i j u v Hi' Hj' Hkey.
    apply lookup_insert_Some in Hi' as [[<- <-]|[? Hi']], Hj' as [[<- <-]|[? Hj']].
    + done.
    + by destruct (Hnew _ _ Hj').
    + by destruct (Hnew _ _ Hi').
    + by eapply Hu.
  - intros i [->|Hx]%lookup_insert_is_Some'; [lia|]. specialize (Hnx _ Hx). lia.
  - intros k r Hr. apply lookup_insert_is_Some'. right. by eapply Ho.
  - intros i u [[<- <-]|[? Hx]]%lookup_insert_Some; [|by apply Hc]. cbn. symmetry. by apply no_rows_of_new.
Qed.

(** A change to the count of a table and to the rows of one kind. *)
Lemma change_rows_ok tid u d k l nk : t !! tid = Some u ->
  sorted by_primary_less l -> NoDup (id <$> l) ->
  (forall r, r ∈ l -> id r < nk /\ is_Some (t !! t_id r) /\ Z.of_nat (length (value r)) < 2 ^ 32) ->
  (forall i, rows_in i l = rows_in i (o k) + if decide (i = tid) then d else 0) ->
  rows_of (set_at o k l) tid < 2 ^ 32 ->
  tables_ok (<[tid := add_count u d]> t) n (set_at o k l) (set_at m k nk).
Proof.
  intros Hu Hs Hnd Hl Hrows Hcap.
  assert (forall i, is_Some (<[tid := add_count u d]> t !! i) <-> is_Some (t !! i)) as Hdom.
  { intros i. rewrite lookup_insert_is_Some'. naive_solver. }
  split.
  - intros i j v w Hi Hj Hkey.
    apply lookup_insert_Some in Hi as [[<- <-]|[? Hi]], Hj as [[<- <-]|[? Hj]]; [done|..];
      by eapply (to_unique _ _ _ _ Hok).
  - intros i Hi%Hdom. by eapply to_next.
  - apply (set_at_all (fun _ => sorted by_primary_less)); [apply Hok|done].
  - apply (set_at_all (fun _ l => NoDup (id <$> l))); [apply Hok|done].
  - intros k' r. unfold set_at. destruct (decide (k' = k)) as [->|]; [intros Hr; by apply Hl|apply Hok].
  - intros k' r Hr. apply Hdom. revert Hr. unfold set_at.
    destruct (decide (k' = k)) as [->|]; [intros Hr; by apply Hl|apply Hok].
  - intros k' r. unfold set_at. destruct (decide (k' = k)) as [->|]; [intros Hr; by apply Hl|apply Hok].
  - intros i v Hi. rewrite rows_of_set, Hrows.
    apply lookup_insert_Some in Hi as [[<- <-]|[? Hi]].
    + rewrite decide_True by done. cbn [count add_count]. rewrite (to_count _ _ _ _ Hok _ _ Hu).
      pose proof (rows_of_nonneg (set_at o k l) tid) as H0. revert H0 Hcap.
      rewrite rows_of_set, Hrows, decide_True by done. intros. rewrite u32_small; lia.
    + rewrite decide_False by done. rewrite (to_count _ _ _ _ Hok _ _ Hi). lia.
Qed.

Lemma add_row_ok k r u : t !! t_id r = Some u -> id r = m k ->
  (forall s, s ∈ o k -> ~ (t_id s = t_id r /\ primary_key s = primary_key r)) ->
  Z.of_nat (length (value r)) < 2 ^ 32 ->
  rows_of (set_at o k (insert_row by_primary_less r (o k))) (t_id r) < 2 ^ 32 ->
  tables_ok (<[t_id r := add_count u 1]> t) n (set_at o k (insert_row by_primary_less r (o k)))
    (set_at m k (m k + 1)).
Proof.
  intros Hu Hid Hr Hsz Hcap. apply change_rows_ok; try done.
  - apply insert_primary_sorted; [done|apply Hok].
  - rewrite insert_row_perm. cbn. apply NoDup_cons. split; [|apply Hok].
    intros (s & Hs & Hin)%list_elem_of_fmap. pose proof (to_fresh _ _ _ _ Hok _ _ Hin). lia.
  - intros s. rewrite insert_row_perm. intros [->|Hs]%elem_of_cons; [split_and!; [lia|done|done]|].
    split_and!; [pose proof (to_fresh _ _ _ _ Hok _ _ Hs); lia|by eapply to_owned|by eapply to_size].
  - intros i. rewrite insert_row_perm, rows_in_cons. repeat destruct (decide _); lia || congruence.
Qed.

Lemma drop_row_ok k r u : t !! t_id r = Some u -> r ∈ o k ->
  rows_of (set_at o k (filter (fun s => id s <> id r) (o k))) (t_id r) < 2 ^ 32 ->
  tables_ok (<[t_id r := add_count u (-1)]> t) n
    (set_at o k (filter (fun s => id s <> id r) (o k))) (set_at m k (m k)).
Proof.
  intros Hu Hr Hcap. apply change_rows_ok; try done.
  - apply StronglySorted_filter, Hok.
  - eapply sublist_NoDup; [apply (to_ids _ _ _ _ Hok k)|]. by apply fmap_sublist, sublist_filter.
  - intros s [_ Hs]%list_elem_of_filter.
    split_and!; [by eapply to_fresh|by eapply to_owned|by eapply to_size].
  - intros i. rewrite (rows_in_perm i _ _ (filter_out_perm r (o k) (to_ids _ _ _ _ Hok k) Hr)).
    rewrite rows_in_cons. repeat destruct (decide _); lia || congruence.
Qed.

Lemma drop_table_ok i u : t !! i = Some u -> count u = 0 -> tables_ok (delete i t) n o m.
Proof.
  intros Hi H0. rewrite (to_count _ _ _ _ Hok _ _ Hi) in H0.
  destruct Hok as [Hu Hnx Hs Hid Hf Ho Hsz Hc]. split; try done.
  - intros j j' v w [_ Hj]%lookup_delete_Some [_ Hj']%lookup_delete_Some. by eapply Hu.
  - intros j [v [_ Hj]%lookup_delete_Some]. by apply Hnx.
  - intros k r Hr. rewrite lookup_delete_ne; [by eapply Ho|]. intros ->. by eapply rows_of_zero.
  - intros j v [_ Hj]%lookup_delete_Some. by apply Hc.
Qed.

Lemma edit_row_ok k p a v : Z.of_nat (length v) < 2 ^ 32 ->
  tables_ok t n (set_at o k (edit_row p a v <$> o k)) (set_at m k (m k)).
Proof.
  intros Hv.
  assert (forall r, id (edit_row p a v r) = id r /\ t_id (edit_row p a v r) = t_id r /\
    primary_key (edit_row p a v r) = primary_key r) as He.
  { intros r. unfold edit_row. by destruct (decide _). }
  assert (forall r, r ∈ edit_row p a v <$> o k -> exists r', r' ∈ o k /\ r = edit_row p a v r') as Hin.
  { intros r (r' & -> & Hr')%list_elem_of_fmap. eauto. }
  destruct Hok as [Hu Hnx Hs Hid Hf Ho Hsz Hc]. split; try done.
  - apply (set_at_all (fun _ => sorted by_primary_less)); [done|].
    apply sorted_alter; [|done]. intros r s _ _. unfold by_primary_less.
    by destruct (He r) as (_ & -> & ->), (He s) as (_ & -> & ->).
  - apply (set_at_all (fun _ l => NoDup (id <$> l))); [done|].
    rewrite <- list_fmap_compose. erewrite list_fmap_ext; [apply Hid|]. intros i r _. apply He.
  - intros k' r. unfold set_at. destruct (decide (k' = k)) as [->|]; [|apply Hf].
    intros (r' & Hr' & ->)%Hin. destruct (He r') as (-> & _). by apply Hf.
  - intros k' r. unfold set_at. destruct (decide (k' = k)) as [->|]; [|apply Ho].
    intros (r' & Hr' & ->)%Hin. destruct (He r') as (_ & -> & _). by eapply Ho.
  - intros k' r. unfold set_at. destruct (decide (k' = k)) as [->|]; [|apply Hsz].
    intros (r' & Hr' & ->)%Hin. unfold edit_row. destruct (decide _); [done|]. by eapply Hsz.
  - intros i u Hi. rewrite rows_of_set, (Hc _ _ Hi).
    assert (forall l, rows_in i (edit_row p a v <$> l) = rows_in i l) as ->; [|lia].
    induction l as [|r l IH]; [done|]. rewrite fmap_cons, !rows_in_cons, IH.
    by destruct (He r) as (_ & -> & _).
Qed.

End changes.

(** ** The caches after a change *)

Section caches.
Context (n : Z) (l : list row) (c : iterator_cache).
Hypothesis Hc : cached_ok n l c.

Lemma cached_more n' l' : n <= n' ->
  (forall r, r ∈ l -> exists r', r' ∈ l' /\ id r' = id r /\ t_id r' = t_id r) -> cached_ok n' l' c.
Proof.
  intros Hn Hl. destruct Hc as [Hok Hr Ht]. split; [done|..].
  - intros p i Hp. destruct (Hr p i Hp) as (r & Hin & <- & Hs).
    destruct (Hl r Hin) as (r' & Hr' & Hid & Htid). exists r'. by rewrite Htid.
  - intros tid Hs. specialize (Ht tid Hs). lia.
Qed.

Lemma cached_table tid : tid < n -> cached_ok n l (cache_table c tid).2.
Proof.
  intros Hn. destruct Hc as [Hok Hr Ht]. pose proof (cache_table_frame c tid) as [_ Hobj].
  split; [by apply cache_table_ok|..].
  - intros p i. rewrite Hobj. intros Hp. destruct (Hr p i Hp) as (r & Hin & <- & [e Hs]).
    exists r. split_and!; [done..|]. exists e. by apply cache_table_tables.
  - intros u [e [->|Hu]%cache_table_only]; [done|]. apply Ht. eauto.
Qed.

Lemma cached_add r : r ∈ l -> is_Some (table_cache c !! t_id r) -> cached_ok n l (add c (id r)).2.
Proof.
  intros Hin Hs. destruct Hc as [Hok Hr Ht]. pose proof (add_frame c (id r)) as [Htab _].
  split; [by apply add_ok|..]; rewrite Htab; [|done].
  intros p i [->|Hp]%add_only; eauto.
Qed.

Lemma cached_remove p i : object_to_iterator c !! p = Some i ->
  exists c', remove c i = Ok c' /\ cached_ok n (filter (fun s => id s <> p) l) c' /\
    object_to_iterator c' = delete p (object_to_iterator c)
    /\ table_cache c' = table_cache c /\ end_iterator_to_table c' = end_iterator_to_table c.
Proof.
  intros Hp. destruct Hc as [Hok Hr Ht].
  destruct (remove_ok c i p Hok Hp) as (c' & Hrem & Hok' & Hobj & Htab & Hend).
  exists c'. split_and!; try done. split; [done|..]; rewrite Htab; [|done].
  intros q j. rewrite Hobj. intros [Hne Hq]%lookup_delete_Some.
  destruct (Hr q j Hq) as (r & Hin & <- & Hs). exists r. split_and!; [|done..].
  by apply list_elem_of_filter.
Qed.

End caches.

(** ** What accounts owe after a change *)

Lemma owed_table_new t o i u a : t !! i = None ->
  owed_of (<[i := u]> t) o a = owed_of t o a + only_for (table_payer u) a billable_table.
Proof. intros Hi. unfold owed_of. rewrite sum_map_insert_new by done. unfold table_bytes at 1. lia. Qed.

Lemma owed_table_count t o i u d a : t !! i = Some u ->
  owed_of (<[i := add_count u d]> t) o a = owed_of t o a.
Proof. intros Hi. unfold owed_of. rewrite (sum_map_insert_old _ _ _ _ u) by done. unfold table_bytes. cbn. lia. Qed.

Lemma owed_table_drop t o i u a : t !! i = Some u ->
  owed_of (delete i t) o a = owed_of t o a - only_for (table_payer u) a billable_table.
Proof. intros Hi. unfold owed_of. rewrite (sum_map_delete _ t i u) by done. unfold table_bytes. lia. Qed.

Lemma owed_rows t o k l a : owed_of t (set_at o k l) a =
  owed_of t o a - sum_with (row_bytes k a) (o k) + sum_with (row_bytes k a) l.
Proof.
  unfold owed_of. rewrite (sum_kinds_set (fun k l => sum_with (row_bytes k a) l)). lia.
Qed.

Lemma owed_row_new t o k r a : owed_of t (set_at o k (insert_row by_primary_less r (o k))) a =
  owed_of t o a + row_bytes k a r.
Proof. rewrite owed_rows, insert_row_perm. unfold sum_with. cbn [foldr]. lia. Qed.

Lemma owed_row_drop t o k r a : NoDup (id <$> o k) -> r ∈ o k ->
  owed_of t (set_at o k (filter (fun s => id s <> id r) (o k))) a = owed_of t o a - row_bytes k a r.
Proof.
  intros Hnd Hr. rewrite owed_rows, (sum_with_perm _ _ _ (filter_out_perm r (o k) Hnd Hr)).
  unfold sum_with. cbn [foldr]. lia.
Qed.

Lemma edit_row_perm r l p v : NoDup (id <$> l) -> r ∈ l ->
  edit_row (id r) p v <$> l
    ≡ₚ mk_row (id r) (t_id r) (primary_key r) p v :: filter (fun s => id s <> id r) l.
Proof.
  intros Hnd Hr. rewrite (filter_out_perm r l Hnd Hr) at 1. rewrite fmap_cons.
  unfold edit_row at 1. rewrite decide_True by done. f_equiv.
  rewrite (list_fmap_ext _ (fun s => s)); [by rewrite list_fmap_id|].
  intros i s [Hs _]%list_elem_of_lookup_2%list_elem_of_filter. unfold edit_row. by rewrite decide_False.
Qed.

Lemma owed_row_edit t o k r p v a : NoDup (id <$> o k) -> r ∈ o k ->
  owed_of t (set_at o k (edit_row (id r) p v <$> o k)) a =
  owed_of t o a - row_bytes k a r + only_for p a (row_size k v).
Proof.
  intros Hnd Hr. rewrite owed_rows, (edit_row_perm r) by done.
  rewrite (sum_with_perm _ _ _ (filter_out_perm r (o k) Hnd Hr)).
  unfold sum_with. cbn [foldr]. unfold row_bytes at 3. cbn [payer value]. lia.
Qed.

(** ** Storing a row *)

Definition accounted (s s' : state) : Prop :=
  forall a, billed s' a - owed s' a = billed s a - owed s a.

(** After find_or_create_table: the table exists, and it alone may be empty. *)
Record opened (s s1 : state) (key : Name.name * Name.name * Name.name) (tid : Z) : Prop := {
  op_tables : tables_ok (tables s1) (next_table s1) (objects s1) (next_object s1);
  op_nonempty i u : i <> tid -> tables s1 !! i = Some u -> 0 < count u;
  op_ram : ResourceLimits.inv (resources s1);
  op_frame : objects s1 = objects s /\ next_object s1 = next_object s /\ caches s1 = caches s;
  op_next : next_table s <= next_table s1;
  op_table : exists u, tables s1 !! tid = Some u /\ table_key u = key;
  op_old i u : tables s !! i = Some u -> tables s1 !! i = Some u;
  op_new i u : tables s1 !! i = Some u -> i = tid \/ tables s !! i = Some u;
  op_accounted : accounted s s1;
}.

Lemma billable_table_bound : 0 < billable_table < 2 ^ 8 /\ s64 (- billable_table) = - billable_table.
Proof. split; [split; by vm_compute|by vm_compute]. Qed.

Lemma billable_row_bound k : 0 < billable_row k < 2 ^ 8.
Proof. destruct k; split; by vm_compute. Qed.

Lemma find_or_create_ok x s c sc tb p tid s1 : wf s ->
  find_or_create_table x s c sc tb p = Ok (tid, s1) -> opened s s1 (c, sc, tb) tid.
Proof.
  intros Hs H. unfold find_or_create_table in H. destruct (find_table s c sc tb) as [i|] eqn:E.
  - injection H as <- <-. apply find_table_Some in E as (u & Hu & Hk); [|apply Hs].
    split; try done; [apply Hs|intros; by eapply wf_nonempty|apply Hs|by eauto|by right].
  - inv_ok. apply update_db_usage_ok in Hr as ((rm & dl & vl & ->) & Hinv & Hb);
      [|apply Hs|pose proof (proj1 billable_table_bound); lia].
    cbn [tables next_table objects next_object caches resources set_ram] in *.
    pose proof (proj1 (find_table_None _ _ _ _) E) as Hnew.
    assert (tables s !! next_table s = None) as Hn.
    { apply eq_None_not_Some. intros Hi%(to_next _ _ _ _ (wf_tables _ Hs)). lia. }
    split; cbn [tables next_table objects next_object caches resources set_ram set_tables]; try done.
    + apply create_table_ok; [apply Hs|done].
    + intros i u Hi. rewrite lookup_insert_ne by done. by apply Hs.
    + lia.
    + eexists. split; [apply lookup_insert_eq|done].
    + intros i u Hi. rewrite lookup_insert_ne; [done|congruence].
    + intros i u [[<- _]|[_ Hi]]%lookup_insert_Some; auto.
    + intros a. unfold owed. cbn. rewrite owed_table_new by done. specialize (Hb a).
      unfold billed in *. cbn in *. lia.
Qed.

Lemma table_at_ok s i u : table_at s i = Ok u <-> tables s !! i = Some u.
Proof. unfold table_at. destruct (tables s !! i); [|done]. split; [by intros [= ->]|by intros [= ->]]. Qed.

Lemma ids_inj (l : list row) r q : NoDup (id <$> l) -> r ∈ l -> q ∈ l -> id r = id q -> r = q.
Proof.
  intros Hnd [i Hi]%list_elem_of_lookup_1 [j Hj]%list_elem_of_lookup_1 Hid.
  assert (i = j) as <-; [|congruence]. eapply (NoDup_lookup _ i j (id r)); [exact Hnd|..].
  - by rewrite list_lookup_fmap, Hi.
  - by rewrite list_lookup_fmap, Hj, Hid.
Qed.

Lemma row_at_ok s k p r : NoDup (id <$> objects s k) ->
  row_at s k p = Ok r <-> r ∈ objects s k /\ id r = p.
Proof.
  intros Hnd. unfold row_at. split.
  - destruct (list_find _ _) as [[i q]|] eqn:E; [|done]. intros [= <-].
    apply list_find_Some in E as (Hi & Hid & _). split; [by eapply list_elem_of_lookup_2|done].
  - intros [Hr Hid]. destruct (list_find _ _) as [[i q]|] eqn:E; cbn.
    + apply list_find_Some in E as (Hi & Hid' & _). unfold mret, result_ret. f_equal.
      apply list_elem_of_lookup_2 in Hi. eapply ids_inj; [exact Hnd|done..|congruence].
    + apply list_find_None in E. rewrite Forall_forall in E. by destruct (E r Hr).
Qed.

(** The cache after a row of table [tid] was handed out. *)
Definition cache_both (c : iterator_cache) (tid p : Z) : Z * iterator_cache :=
  add (cache_table c tid).2 p.

(** The state after a row [r] was stored, [u] being its table before. *)
Record stored (s1 s' : state) (k : table_kind) (r : row) (u : table_id_object) (it : Z) : Prop := {
  st_tables : tables s' = <[t_id r := add_count u 1]> (tables s1);
  st_next : next_table s' = next_table s1;
  st_objects : objects s' = set_at (objects s1) k (insert_row by_primary_less r (objects s1 k));
  st_next_object : next_object s' = set_at (next_object s1) k (next_object s1 k + 1);
  st_caches k' : caches s' k' = if decide (k' = k) then (cache_both (caches s1 k) (t_id r) (id r)).2
                                else caches s1 k';
  st_iterator : it = (cache_both (caches s1 k) (t_id r) (id r)).1;
  st_unique s : s ∈ objects s1 k -> ~ (t_id s = t_id r /\ primary_key s = primary_key r);
  st_ram : ResourceLimits.inv (resources s');
  st_billed a : billed s' a = billed s1 a + row_bytes k a r;
}.

Lemma store_row_ok x s1 k tid p pk v it s' u : ResourceLimits.inv (resources s1) ->
  tables s1 !! tid = Some u -> is_s64 (row_size k v) ->
  store_row x s1 k tid p pk v (row_size k v) = Ok (it, s') ->
  stored s1 s' k (mk_row (next_object s1 k) tid pk p v) u it.
Proof.
  intros Hram Hu Hsz H. unfold store_row, create_row in H. destruct (existsb _ _) eqn:E; inv_ok.
  unfold modify_count in Hr. inv_ok. apply table_at_ok in Hr1. cbn in Hr1. simplify_eq.
  apply update_db_usage_ok in Hr0 as ((rm & dl & vl & ->) & Hinv & Hb); [|done..].
  unfold cache_table_of, add_object, set_cache in H. cbn in H.
  destruct (cache_table (caches s1 k) tid) as [ei c1] eqn:Ec. cbn in H.
  rewrite set_at_eq in H. destruct (add c1 (next_object s1 k)) as [i c2] eqn:Ea.
  injection H as <- <-. split; cbn; unfold cache_both; rewrite ?Ec; cbn; rewrite ?Ea; try done.
  - intros k'. unfold set_at. by destruct (decide (k' = k)).
  - intros q Hq [Ht Hk]. eapply Bool.not_true_iff_false; [exact E|]. apply existsb_exists.
    exists q. split; [by apply list_elem_of_In|]. by rewrite Ht, Hk, !Z.eqb_refl.
Qed.

Lemma cached_both n l c tid r : cached_ok n l c -> tid < n -> r ∈ l -> t_id r = tid ->
  cached_ok n l (cache_both c tid (id r)).2.
Proof.
  intros Hc Hn Hr <-. apply cached_add; [by apply cached_table|done|].
  rewrite cache_table_in. eauto.
Qed.

Lemma stored_wf s s1 s' key k r u it : wf s -> opened s s1 key (t_id r) ->
  tables s1 !! t_id r = Some u -> id r = next_object s1 k ->
  Z.of_nat (length (value r)) < 2 ^ 32 -> stored s1 s' k r u it -> capacity s' ->
  wf s' /\ accounted s s'.
Proof.
  intros Hs Hop Hu Hid Hsz Hst Hcap. destruct (op_frame _ _ _ _ Hop) as (Hobj & Hnx & Hca).
  split; [split|].
  - rewrite (st_tables _ _ _ _ _ _ Hst), (st_next _ _ _ _ _ _ Hst), (st_objects _ _ _ _ _ _ Hst),
      (st_next_object _ _ _ _ _ _ Hst).
    apply add_row_ok; [apply Hop|done..|apply Hst|done|].
    specialize (Hcap (t_id r)). by rewrite (st_objects _ _ _ _ _ _ Hst) in Hcap.
  - intros i v. rewrite (st_tables _ _ _ _ _ _ Hst).
    intros [[<- <-]|[Hne Hi]]%lookup_insert_Some; [|by eapply op_nonempty].
    cbn. specialize (Hcap (t_id r)). rewrite (st_objects _ _ _ _ _ _ Hst), rows_of_set, insert_row_perm,
      rows_in_cons, decide_True in Hcap by done.
    rewrite (to_count _ _ _ _ (op_tables _ _ _ _ Hop) _ _ Hu) in *.
    pose proof (rows_of_nonneg (objects s1) (t_id r)). rewrite u32_small; lia.
  - intros k'. rewrite (st_caches _ _ _ _ _ _ Hst), (st_objects _ _ _ _ _ _ Hst),
      (st_next _ _ _ _ _ _ Hst), Hca, Hobj.
    pose proof (op_next _ _ _ _ Hop). pose proof (wf_caches _ Hs k') as Hck.
    unfold set_at. destruct (decide (k' = k)) as [->|]; [|by eapply cached_more; [..|eauto]].
    apply cached_both; [|by eapply to_next; [apply Hop|eauto]| |done].
    + eapply cached_more; [done..|]. intros q Hq. exists q. rewrite insert_row_perm.
      split_and!; [by right|done..].
    + rewrite insert_row_perm. by left.
  - apply Hst.
  - intros a. rewrite <- (op_accounted _ _ _ _ Hop), (st_billed _ _ _ _ _ _ Hst). unfold owed.
    rewrite (st_tables _ _ _ _ _ _ Hst), (st_objects _ _ _ _ _ _ Hst), owed_row_new.
    rewrite owed_table_count by done. lia.
Qed.

(** ** Rows reached through an iterator *)

Lemma get_object_ok s k it r : wf s -> get_object s k it = Ok r <->
  r ∈ objects s k /\ object_to_iterator (caches s k) !! id r = Some it.
Proof.
  intros Hs. destruct (wf_caches _ Hs k) as [Hc Hrows _].
  pose proof (to_ids _ _ _ _ (wf_tables _ Hs) k) as Hnd. unfold get_object. rewrite bind_ok_inv. split.
  - intros (p & Hp%get_ok & [Hr <-]%row_at_ok); done.
  - intros [Hr Hi]. exists (id r). split; [by apply get_ok|by apply row_at_ok].
Qed.

Lemma get_table_of_ok s k r it tid u : wf s -> r ∈ objects s k ->
  object_to_iterator (caches s k) !! id r = Some it ->
  get_table_of s k r = Ok (tid, u) <-> tid = t_id r /\ tables s !! t_id r = Some u.
Proof.
  intros Hs Hr Hi. destruct (wf_caches _ Hs k) as [Hc Hrows _].
  destruct (Hrows _ _ Hi) as (q & Hq & Hid & [e He]).
  assert (q = r) as -> by (eapply ids_inj; [apply (wf_tables _ Hs)|done..]).
  unfold get_table_of, get_table. rewrite He. cbn. rewrite bind_ok_inv. split.
  - intros (v & Hv%table_at_ok & [= <- <-]). done.
  - intros [-> Hu]. exists u. by rewrite table_at_ok.
Qed.

Lemma row_table s k r : wf s -> r ∈ objects s k -> exists u, tables s !! t_id r = Some u.
Proof. intros Hs Hr. by destruct (to_owned _ _ _ _ (wf_tables _ Hs) k r Hr) as [u Hu]; eauto. Qed.

(** ** Changing a row *)

(** The row [r] got the payer [p] and the value [v]. *)
Record edited (s s' : state) (k : table_kind) (r : row) (p : account_name) (v : list Z) : Prop := {
  ed_tables : tables s' = tables s /\ next_table s' = next_table s;
  ed_objects : objects s' = set_at (objects s) k (edit_row (id r) p v <$> objects s k);
  ed_next_object : next_object s' = set_at (next_object s) k (next_object s k);
  ed_caches : caches s' = caches s;
  ed_ram : ResourceLimits.inv (resources s');
  ed_billed a : billed s' a = billed s a - row_bytes k a r + only_for p a (row_size k v);
}.

Lemma charged_edited s s1 k r p v : charged s s1 (fun a => only_for p a (row_size k v) - row_bytes k a r) ->
  edited s (modify_row s1 k r p v) k r p v.
Proof.
  intros ((rm & dl & vl & ->) & Hinv & Hb). split; try done. intros a. specialize (Hb a).
  unfold billed in *. cbn in *. lia.
Qed.

Lemma edited_wf s s' k r p v : wf s -> r ∈ objects s k -> Z.of_nat (length v) < 2 ^ 32 ->
  edited s s' k r p v -> wf s' /\ accounted s s'.
Proof.
  intros Hs Hr Hv He. destruct (ed_tables _ _ _ _ _ _ He) as [Ht Hn].
  pose proof (ed_objects _ _ _ _ _ _ He) as Ho. split; [split|].
  - rewrite Ht, Hn, Ho, (ed_next_object _ _ _ _ _ _ He). apply edit_row_ok; [apply Hs|done].
  - rewrite Ht. apply Hs.
  - intros k'. rewrite Hn, Ho, (ed_caches _ _ _ _ _ _ He).
    eapply cached_more; [apply Hs|lia|]. intros q Hq. unfold set_at.
    destruct (decide (k' = k)) as [->|]; [|by eauto]. exists (edit_row (id r) p v q).
    split; [by apply list_elem_of_fmap_2|]. unfold edit_row. by destruct (decide _).
  - apply He.
  - intros a. rewrite (ed_billed _ _ _ _ _ _ He). unfold owed. rewrite Ht, Ho, owed_row_edit; [lia| |done].
    apply (wf_tables _ Hs).
Qed.

Lemma row_size_bound k v : Z.of_nat (length v) < 2 ^ 32 -> 0 < row_size k v < 2 ^ 33.
Proof. pose proof (billable_row_bound k). unfold row_size. destruct k; lia. Qed.

Lemma row_size_keyval v : row_size keyval v = Z.of_nat (length v) + billable_row keyval.
Proof. done. Qed.

Lemma row_size_index k v : k <> keyval -> row_size k v = billable_row k.
Proof. by destruct k. Qed.

Section update.
Context (x : action_context) (s : state) (k : table_kind) (it : Z) (r : row).
Hypothesis Hs : wf s.

(** The charges of an update, which a change of payer and of size make. *)
Lemma recharge_ok s1 p v : r ∈ objects s k -> Z.of_nat (length v) < 2 ^ 32 ->
  (if decide (payer r <> p) then
     s ← update_db_usage x s (payer r) (- row_size k (value r)); update_db_usage x s p (row_size k v)
   else if decide (row_size k (value r) <> row_size k v) then
     update_db_usage x s (payer r) (row_size k v - row_size k (value r))
   else mret s) = Ok s1 ->
  charged s s1 (fun a => only_for p a (row_size k v) - row_bytes k a r).
Proof.
  intros Hr Hv H. pose proof (row_size_bound k v Hv).
  pose proof (row_size_bound k _ (to_size _ _ _ _ (wf_tables _ Hs) _ _ Hr)).
  pose proof (wf_ram _ Hs) as Hram. unfold row_bytes, ResourceLimits.only_for.
  destruct (decide (payer r <> p)) as [Hp|Hp%dec_stable].
  - inv_ok. apply update_db_usage_ok in Hr0; [|done|lia].
    apply update_db_usage_ok in H; [|apply Hr0|lia].
    eapply charged_ext; [|by eapply charged_trans]. intros a. unfold ResourceLimits.only_for.
    repeat destruct (decide _); lia.
  - destruct (decide _) as [Hne|He%dec_stable].
    + apply update_db_usage_ok in H; [|done|lia]. eapply charged_ext; [|exact H].
      intros a. unfold ResourceLimits.only_for. rewrite Hp. destruct (decide _); lia.
    + injection H as <-. eapply charged_ext; [|by apply charged_refl]. intros a. cbn.
      rewrite Hp, He. destruct (decide _); lia.
Qed.

End update.

(** What reaching a row of the receiver's tables through an iterator says. *)
Definition accessed (x : action_context) (s : state) (k : table_kind) (it : Z) (r : row)
    (u : table_id_object) : Prop :=
  r ∈ objects s k /\ object_to_iterator (caches s k) !! id r = Some it /\
  tables s !! t_id r = Some u /\ code u = receiver x.

(** The first lines of an operation that changes a row. *)
Ltac access Hs H :=
  let r := fresh "r" in let tid := fresh "tid" in let u := fresh "u" in
  let Hr := fresh "Hr" in let Hi := fresh "Hi" in let Ht := fresh "Ht" in let Hc := fresh "Hc" in
  apply bind_ok_inv in H as (r & [Hr Hi]%get_object_ok & H); [|exact Hs];
  apply bind_ok_inv in H as ([tid u] & Ht & H);
  eapply get_table_of_ok in Ht as [-> Ht]; [|exact Hs|exact Hr|exact Hi];
  apply bind_ok_inv in H as ([] & Hc%EOS_ASSERT_ok & H); apply bool_decide_eq_true in Hc.

Lemma db_update_ok x s it p buf s' : wf s -> Z.of_nat (length buf) < 2 ^ 32 ->
  db_update_i64 x s it p buf = Ok s' ->
  exists r u, accessed x s keyval it r u /\
    edited s s' keyval r (if decide (p = no_name) then payer r else p) buf.
Proof.
  intros Hs Hb H. unfold db_update_i64 in H. access Hs H.
  apply bind_ok_inv in H as (s1 & H & [= <-]).
  pose proof (row_size_bound keyval _ (to_size _ _ _ _ (wf_tables _ Hs) _ _ Hr)).
  pose proof (row_size_bound keyval buf Hb).
  rewrite <- !row_size_keyval, !s64_small in H by lia.
  exists r, u. split; [done|]. by apply charged_edited, (recharge_ok x).
Qed.

Lemma index_update_ok x k s it p v s' : wf s -> k <> keyval -> Z.of_nat (length v) < 2 ^ 32 ->
  update x k s it p v = Ok s' ->
  exists r u, accessed x s k it r u /\ edited s s' k r (if decide (p = no_name) then payer r else p) v.
Proof.
  intros Hs Hk Hv H. unfold update in H. access Hs H. apply bind_ok_inv in H as (s1 & H & [= <-]).
  exists r, u. split; [done|]. apply charged_edited, (recharge_ok x); [done..|].
  rewrite !row_size_index by done. destruct (decide (payer r <> _)) as [?|?]; [done|]. by rewrite decide_False by tauto.
Qed.

(** ** Removing a row *)

(** The tables without one row of the table [u] with id [tid]. *)
Definition tables_without (t : gmap Z table_id_object) (tid : Z) (u : table_id_object)
  : gmap Z table_id_object :=
  let t' := <[tid := add_count u (-1)]> t in
  if count (add_count u (-1)) =? 0 then delete tid t' else t'.

Record removed (s s' : state) (k : table_kind) (r : row) (u : table_id_object) (it : Z) : Prop := {
  rm_tables : tables s' = tables_without (tables s) (t_id r) u;
  rm_next : next_table s' = next_table s;
  rm_objects : objects s' = set_at (objects s) k (filter (fun q => id q <> id r) (objects s k));
  rm_next_object : next_object s' = set_at (next_object s) k (next_object s k);
  rm_cache : remove (caches s k) it = Ok (caches s' k);
  rm_caches k' : k' <> k -> caches s' k' = caches s k';
  rm_ram : ResourceLimits.inv (resources s');
  rm_billed a : billed s' a = billed s a - row_bytes k a r
    - if count (add_count u (-1)) =? 0 then only_for (table_payer u) a billable_table else 0;
}.

Lemma remove_from_table_ok x s s1 k it r u s' : ResourceLimits.inv (resources s) ->
  tables s !! t_id r = Some u -> charged s s1 (fun a => - row_bytes k a r) ->
  remove_from_table x s1 k it (t_id r) r = Ok s' -> removed s s' k r u it.
Proof.
  intros Hram Hu ((rm & dl & vl & ->) & Hinv & Hb) H. unfold remove_from_table in H.
  apply bind_ok_inv in H as (s2 & H2 & H). unfold modify_count in H2.
  apply bind_ok_inv in H2 as (v & Hv%table_at_ok & [= <-]). cbn in Hv. simplify_eq.
  apply bind_ok_inv in H as (v & Hv%table_at_ok & H).
  cbn [tables set_objects remove_row set_tables set_ram] in Hv.
  rewrite lookup_insert_eq in Hv. injection Hv as <-.
  apply bind_ok_inv in H as (s3 & H3 & H). apply bind_ok_inv in H as (c & Hc & [= <-]).
  destruct (count (add_count u (-1)) =? 0) eqn:E.
  - unfold remove_table in H3. apply bind_ok_inv in H3 as (v & Hv%table_at_ok & H3).
    cbn [tables set_objects remove_row set_tables set_ram] in Hv.
    rewrite lookup_insert_eq in Hv. injection Hv as <-.
    apply bind_ok_inv in H3 as (s4 & H4 & [= <-]).
    rewrite (proj2 billable_table_bound) in H4.
    apply update_db_usage_ok in H4 as ((rm' & dl' & vl' & ->) & Hinv' & Hb');
      [|done|pose proof (proj1 billable_table_bound); lia].
    split; unfold tables_without; try rewrite E; try done.
    + cbn. by rewrite set_at_eq.
    + intros k' Hk'. cbn. by rewrite set_at_ne.
    + intros a. specialize (Hb a). specialize (Hb' a). unfold billed in *. cbn in *.
      rewrite Hb', Hb. unfold ResourceLimits.only_for. destruct (decide _); lia.
  - injection H3 as <-. split; unfold tables_without; try rewrite E; try done.
    + cbn. by rewrite set_at_eq.
    + intros k' Hk'. cbn. by rewrite set_at_ne.
    + intros a. specialize (Hb a). unfold billed in *. cbn in *. lia.
Qed.

Lemma removed_wf s s' k r u it : wf s -> capacity s -> r ∈ objects s k ->
  object_to_iterator (caches s k) !! id r = Some it -> tables s !! t_id r = Some u ->
  removed s s' k r u it -> wf s' /\ accounted s s'.
Proof.
  intros Hs Hcap Hr Hi Hu Hrm.
  set (o' := set_at (objects s) k (filter (fun q => id q <> id r) (objects s k))).
  set (t' := <[t_id r := add_count u (-1)]> (tables s)).
  assert (tables_ok t' (next_table s) o' (set_at (next_object s) k (next_object s k))) as Hok.
  { apply drop_row_ok; [apply Hs|done..|]. rewrite rows_of_set. specialize (Hcap (t_id r)).
    rewrite (rows_in_perm _ _ _ (filter_out_perm r (objects s k) (to_ids _ _ _ _ (wf_tables _ Hs) k) Hr)).
    rewrite rows_in_cons, decide_True by done. lia. }
  assert (t' !! t_id r = Some (add_count u (-1))) as Ht' by apply lookup_insert_eq.
  assert (forall i v, t' !! i = Some v -> i <> t_id r -> 0 < count v) as Hpos.
  { intros i v [[<- _]|[_ Hv]]%lookup_insert_Some Hne; [done|]. by eapply wf_nonempty. }
  split; [split|].
  - rewrite (rm_tables _ _ _ _ _ _ Hrm), (rm_next _ _ _ _ _ _ Hrm), (rm_objects _ _ _ _ _ _ Hrm),
      (rm_next_object _ _ _ _ _ _ Hrm). unfold tables_without. destruct (_ =? 0) eqn:E; [|done].
    bool_to_prop. by eapply drop_table_ok.
  - intros i v. rewrite (rm_tables _ _ _ _ _ _ Hrm). unfold tables_without.
    destruct (_ =? 0) eqn:E; bool_to_prop.
    + intros [Hne Hv]%lookup_delete_Some. by eapply Hpos.
    + intros Hv. destruct (decide (i = t_id r)) as [->|]; [|by eapply Hpos].
      pose proof (to_count _ _ _ _ Hok _ _ Hv). pose proof (rows_of_nonneg o' (t_id r)).
      unfold t' in Ht'. rewrite Ht' in Hv. injection Hv as <-. lia.
  - intros k'. rewrite (rm_next _ _ _ _ _ _ Hrm), (rm_objects _ _ _ _ _ _ Hrm). unfold set_at.
    destruct (decide (k' = k)) as [->|]; [|rewrite (rm_caches _ _ _ _ _ _ Hrm) by done; apply Hs].
    destruct (cached_remove _ _ _ (wf_caches _ Hs k) _ _ Hi) as (c' & Hc' & Hok' & _).
    rewrite (rm_cache _ _ _ _ _ _ Hrm) in Hc'. by injection Hc' as ->.
  - apply Hrm.
  - intros a. rewrite (rm_billed _ _ _ _ _ _ Hrm). unfold owed.
    rewrite (rm_tables _ _ _ _ _ _ Hrm), (rm_objects _ _ _ _ _ _ Hrm), owed_row_drop
      by (apply (wf_tables _ Hs) || done).
    unfold tables_without. destruct (_ =? 0).
    + rewrite (owed_table_drop _ _ _ _ _ Ht'). unfold t'. rewrite owed_table_count by done.
      cbn [table_payer add_count]. lia.
    + rewrite owed_table_count by done. lia.
Qed.

Lemma db_remove_ok x s it s' : wf s -> db_remove_i64 x s it = Ok s' ->
  exists r u, accessed x s keyval it r u /\ removed s s' keyval r u it.
Proof.
  intros Hs H. unfold db_remove_i64 in H. access Hs H. apply bind_ok_inv in H as (s1 & H1 & H).
  pose proof (row_size_bound keyval _ (to_size _ _ _ _ (wf_tables _ Hs) _ _ Hr)).
  rewrite <- row_size_keyval, s64_small in H1 by lia.
  apply update_db_usage_ok in H1; [|apply Hs|lia].
  exists r, u. split; [done|]. eapply (remove_from_table_ok x); [apply Hs|done| |done].
  eapply charged_ext; [|exact H1]. intros a. unfold row_bytes, ResourceLimits.only_for.
  destruct (decide _); lia.
Qed.

Lemma index_remove_ok x k s it s' : wf s -> k <> keyval -> remove_secondary x k s it = Ok s' ->
  exists r u, accessed x s k it r u /\ removed s s' k r u it.
Proof.
  intros Hs Hk H. unfold remove_secondary in H. access Hs H. apply bind_ok_inv in H as (s1 & H1 & H).
  pose proof (billable_row_bound k). rewrite s64_small in H1 by lia.
  apply update_db_usage_ok in H1; [|apply Hs|lia].
  exists r, u. split; [done|]. eapply (remove_from_table_ok x); [apply Hs|done| |done].
  eapply charged_ext; [|exact H1]. intros a. unfold row_bytes, ResourceLimits.only_for.
  rewrite row_size_index by done. destruct (decide _); lia.
Qed.

End TableInvariants.
