(* ===== verification/TableSearch.v ===== *)
(** * Contract tables: searches and iterators

    What the searches of [ContractTables] return and how they extend the
    iterator caches, on any index whose list is a permutation of the rows; and,
    with [TableInvariants], the theorems on all calls of a contract: the
    invariant with the accounting of RAM, and the absence of broken
    invariants. *)

From S2P Require Import Prelude Names ProducerSchedule Authority ResourceLimits TableIndex.
From S2P Require Import ContractTables TableInvariants.
Import Authority TableIndex ContractTables TableInvariants.

Module TableSearch.

(** Iterators that were handed out keep their meaning. *)
Definition extends (c c' : iterator_cache) : Prop :=
  (forall p i, object_to_iterator c !! p = Some i -> object_to_iterator c' !! p = Some i) /\
  (forall t e, table_cache c !! t = Some e -> table_cache c' !! t = Some e).

(** Only the caches may differ. *)
Record searched (s s' : state) : Prop := {
  se_tables : tables s' = tables s;
  se_next : next_table s' = next_table s;
  se_objects : objects s' = objects s;
  se_next_object : next_object s' = next_object s;
  se_ram : resources s' = resources s /\ account_ram_deltas s' = account_ram_deltas s;
  se_caches k : extends (caches s k) (caches s' k);
  se_wf : wf s';
}.

Lemma searched_refl s : wf s -> searched s s.
Proof. by split. Qed.

Lemma searched_trans s s1 s2 : searched s s1 -> searched s1 s2 -> searched s s2.
Proof.
  intros [? ? ? ? [? ?] Hc _] [? ? ? ? [? ?] Hc' ?]. split; try congruence; [split; congruence|].
  intros k. destruct (Hc k), (Hc' k). split; auto.
Qed.

Lemma set_cache_searched s k c : wf s -> extends (caches s k) c ->
  cached_ok (next_table s) (objects s k) c -> searched s (set_cache s k c).
Proof.
  intros Hs He Hc. split; try done.
  - apply (set_at_all (fun k' c => extends (caches s k') c)); [done|done].
  - split; cbn; [apply Hs..| |apply Hs].
    apply (set_at_all (fun k' => cached_ok (next_table s) (objects s k'))); [apply Hs|done].
Qed.

Lemma handed s k r i s' : wf s -> r ∈ objects s k -> is_Some (table_cache (caches s k) !! t_id r) ->
  add_object s k r = (i, s') ->
  searched s s' /\ object_to_iterator (caches s' k) !! id r = Some i.
Proof.
  intros Hs Hr Ht H. unfold add_object in H. pose proof (add_in (caches s k) (id r)) as Hin.
  pose proof (cached_add _ _ _ (wf_caches _ Hs k) r Hr Ht) as Hc.
  pose proof (add_frame (caches s k) (id r)) as [Hf _].
  assert (extends (caches s k) (add (caches s k) (id r)).2) as He.
  { split; [intros; by apply add_objects|]. intros. by rewrite Hf. }
  destruct (add (caches s k) (id r)) as [j c]. injection H as <- <-. split.
  - by apply set_cache_searched.
  - cbn. by rewrite set_at_eq.
Qed.

(** ** Exceptions *)

Create HintDb safe.

(** No undefined behaviour, and not the exception of the cache whose message
    is that an invariant was broken. *)
Definition safely {A} (m : result A) : Prop := forall e, m = Throw e ->
  e <> undefined_behaviour /\ e <> table_not_in_cache.

Lemma safely_ok {A} (a : A) : safely (Ok a).
Proof. done. Qed.

Lemma safely_bind {A B} (m : result A) (f : A -> result B) :
  safely m -> (forall a, m = Ok a -> safely (f a)) -> safely (m ≫= f).
Proof. intros Hm Hf e [H|(a & Ha & H)]%bind_throw_inv; [by apply Hm|by eapply Hf]. Qed.

Lemma safely_assert c e : e <> undefined_behaviour -> e <> table_not_in_cache -> safely (EOS_ASSERT c e).
Proof. intros ? ? e' [_ <-]%EOS_ASSERT_throw. done. Qed.

Lemma safely_total {A} (m : result A) a : m = Ok a -> safely m.
Proof. by intros -> e. Qed.

Lemma update_db_usage_safe x s p d : safely (update_db_usage x s p d).
Proof.
  unfold update_db_usage. apply safely_bind.
  - destruct (0 <? d); [|done]. destruct (negb _); [|done]. apply safely_bind; [by apply safely_assert|].
    intros. by apply safely_assert.
  - intros _ _. apply safely_bind; [|by intros].
    unfold ResourceLimits.add_pending_ram_usage. destruct (d =? 0); [done|].
    apply safely_bind; [unfold ResourceLimits.get_row; destruct (_ !! _); [done|by intros e [= <-]]|].
    intros u _. apply safely_bind; [by apply safely_assert|]. intros _ _.
    apply safely_bind; [by apply safely_assert|]. by intros.
Qed.

Lemma update_db_usage_frame x s p d s' : update_db_usage x s p d = Ok s' ->
  exists r dl v, s' = set_ram s r dl v.
Proof.
  intros (_ & _ & H)%bind_ok_inv. apply bind_ok_inv in H as (r & _ & [= <-]). eauto.
Qed.

Lemma get_object_safe s k it : wf s -> safely (get_object s k it).
Proof.
  intros Hs. destruct (wf_caches _ Hs k) as [Hc Hrows _].
  pose proof (to_ids _ _ _ _ (wf_tables _ Hs) k) as Hnd. apply safely_bind.
  - apply safely_bind; [by apply safely_assert|]. intros _ _.
    apply safely_bind; [by apply safely_assert|]. intros _ _.
    by destruct (iterator_to_object _ !! _) as [[q|]|]; intros e [= <-].
  - intros p Hp%get_ok; [|done]. destruct (Hrows p it Hp) as (r & Hr & Hid & _).
    eapply safely_total, row_at_ok; done.
Qed.

Lemma get_table_safe s k r it : wf s -> r ∈ objects s k ->
  object_to_iterator (caches s k) !! id r = Some it -> safely (get_table_of s k r).
Proof.
  intros Hs Hr Hi. destruct (row_table s k r Hs Hr) as [u Hu].
  eapply safely_total, get_table_of_ok; done.
Qed.

Section searches.
Context (s : state) (k : table_kind).
Hypothesis Hs : wf s.

Lemma cache_table_of_ok tid ei s' : is_Some (tables s !! tid) ->
  cache_table_of s k tid = (ei, s') ->
  searched s s' /\ table_cache (caches s' k) !! tid = Some ei.
Proof.
  intros Ht H. unfold cache_table_of in H. pose proof (cache_table_in (caches s k) tid) as Hin.
  pose proof (cached_table _ _ _ (wf_caches _ Hs k) tid (to_next _ _ _ _ (wf_tables _ Hs) _ Ht)) as Hc.
  pose proof (cache_table_frame (caches s k) tid) as [_ Hf].
  assert (extends (caches s k) (cache_table (caches s k) tid).2) as He.
  { split; [intros; by rewrite Hf|]. intros. apply cache_table_tables; [apply Hs|done]. }
  destruct (cache_table (caches s k) tid) as [j c]. injection H as <- <-. split.
  - by apply set_cache_searched.
  - cbn. by rewrite set_at_eq.
Qed.

(** The iterator [i] of the new state stands for the row [r], or for the end
    of the table [tid]. *)
Definition hands_out (s' : state) (r : row) (i : Z) : Prop :=
  searched s s' /\ r ∈ objects s k /\ object_to_iterator (caches s' k) !! id r = Some i.
Definition hands_end (s' : state) (tid i : Z) : Prop :=
  searched s s' /\ table_cache (caches s' k) !! tid = Some i.

(** The row of an iterator has its table in the cache. *)
Lemma cached_table_of r it : r ∈ objects s k -> object_to_iterator (caches s k) !! id r = Some it ->
  exists ei, table_cache (caches s k) !! t_id r = Some ei.
Proof.
  intros Hr Hi. destruct (ch_rows _ _ _ (wf_caches _ Hs k) _ _ Hi) as (q & Hq & Hid & [ei He]).
  exists ei. by rewrite <- (ids_inj (objects s k) q r (to_ids _ _ _ _ (wf_tables _ Hs) k) Hq Hr Hid).
Qed.

Section index.
Context (idx : list row).
Hypothesis Hidx : idx ≡ₚ objects s k.

Lemma idx_elem r i : idx !! i = Some r -> r ∈ objects s k.
Proof. intros Hi%list_elem_of_lookup_2. by rewrite <- Hidx. Qed.

Lemma idx_position r : r ∈ objects s k -> idx !! iterator_to idx r = Some r.
Proof.
  intros Hr. apply iterator_to_lookup; [|by rewrite Hidx]. rewrite Hidx. apply (wf_tables _ Hs).
Qed.

(** The row of the table [tid] at a position, if there is one there. *)
Definition row_here (i : nat) (tid : Z) (o : option row) : Prop :=
  match o with
  | Some q => idx !! i = Some q /\ t_id q = tid
  | None => forall q, idx !! i = Some q -> t_id q <> tid
  end.

(** What a search that ends at a position returns. *)
Definition found (s' : state) (a : answer) (tid : Z) (o : option row) (primary secondary : bool) : Prop :=
  match o with
  | Some q => hands_out s' q (iterator a) /\
      primary_out a = (if primary then Some (primary_key q) else None) /\
      secondary_out a = (if secondary then Some (value q) else None)
  | None => hands_end s' tid (iterator a) /\ primary_out a = None /\ secondary_out a = None
  end.

Lemma next_in_ok it a s' : next_in s k idx it = Ok (a, s') ->
  (it < -1 /\ a = only_iterator (-1) /\ s' = s) \/
  exists r o, r ∈ objects s k /\ object_to_iterator (caches s k) !! id r = Some it /\
    row_here (S (iterator_to idx r)) (t_id r) o /\ found s' a (t_id r) o true false.
Proof.
  unfold next_in. destruct (it <? -1) eqn:E; bool_to_prop.
  { intros [= <- <-]. by left. }
  intros (r & [Hr Hi]%get_object_ok & H)%bind_ok_inv; [|done]. right.
  destruct (cached_table_of r it Hr Hi) as [ei He]. unfold get_end_iterator_by_table_id in H.
  rewrite He in H. exists r. destruct (idx !! S (iterator_to idx r)) as [q|] eqn:Eq.
  - destruct (t_id q =? t_id r) eqn:Et; bool_to_prop.
    + exists (Some q). destruct (add_object s k q) as [i s1] eqn:Ea. inv_ok.
      apply handed in Ea as [Hse Hin]; [|done|by eapply idx_elem|rewrite Et; eauto].
      unfold row_here, found, hands_out. cbn. eauto 10 using idx_elem.
    + exists None. inv_ok. unfold row_here, found, hands_end. cbn.
      split_and!; try done. intros q'. rewrite Eq. by intros [= <-].
  - exists None. inv_ok. unfold row_here, found, hands_end. cbn.
    split_and!; try done. intros q'. by rewrite Eq.
Qed.

Lemma step_back_ok i tid a s' : is_Some (table_cache (caches s k) !! tid) ->
  step_back s k idx i tid = Ok (a, s') ->
  (exists j q, i = S j /\ row_here j tid (Some q) /\ found s' a tid (Some q) true false) \/
  (a = only_iterator (-1) /\ s' = s /\ forall j, i = S j -> row_here j tid None).
Proof.
  intros Ht H. unfold step_back in H. destruct i as [|j]; [right; by inv_ok|].
  destruct (idx !! j) as [q|] eqn:Eq; [|done]. destruct (t_id q =? tid) eqn:Et; bool_to_prop.
  - left. exists j, q. destruct (add_object s k q) as [i s1] eqn:Ea. inv_ok.
    apply handed in Ea as [Hse Hin]; [|done|by eapply idx_elem|done].
    unfold row_here, found, hands_out. cbn. eauto 10 using idx_elem.
  - right. inv_ok. split_and!; [done..|]. intros j' [= <-] q'. rewrite Eq. by intros [= <-].
Qed.

Lemma previous_in_ok it a s' : previous_in s k idx it = Ok (a, s') ->
  exists i tid, step_back s k idx i tid = Ok (a, s') /\
    is_Some (table_cache (caches s k) !! tid) /\
    ((it < -1 /\ table_cache (caches s k) !! tid = Some it /\ is_Some (tables s !! tid) /\
      i = first_position (fun r => tid <? t_id r) idx) \/
     exists r, r ∈ objects s k /\ object_to_iterator (caches s k) !! id r = Some it /\
       tid = t_id r /\ i = iterator_to idx r).
Proof.
  unfold previous_in. destruct (it <? -1) eqn:E; bool_to_prop.
  - unfold find_table_by_end_iterator.
    intros (o & Ho & H)%bind_ok_inv. apply bind_ok_inv in Ho as (_ & _ & [= <-]).
    destruct (_ !! _) as [tid|] eqn:Et; [|done].
    assert (table_cache (caches s k) !! tid = Some it) as Hc
      by (apply co_table; [apply Hs|done]).
    apply bind_ok_inv in H as (u & Hu%table_at_ok & H). eexists _, tid. split; [done|]. split; [by eauto|]. left.
    split_and!; eauto.
  - intros (r & [Hr Hi]%get_object_ok & H)%bind_ok_inv; [|done].
    destruct (cached_table_of r it Hr Hi) as [ei He]. eexists _, _. split; [done|]. split; [by eauto|].
    right. by eauto.
Qed.

Lemma row_or_end_ok i tid p sec a s' : is_Some (tables s !! tid) ->
  row_or_end s k idx i tid p sec = Ok (a, s') ->
  exists o, row_here i tid o /\ found s' a tid o p sec.
Proof.
  intros Ht H. unfold row_or_end in H. destruct (cache_table_of s k tid) as [ei s1] eqn:Ec.
  apply cache_table_of_ok in Ec as [Hse He]; [|done].
  destruct (idx !! i) as [q|] eqn:Eq; [|exists None; inv_ok].
  - destruct (t_id q =? tid) eqn:Et; bool_to_prop; [exists (Some q)|exists None]; inv_ok.
    + destruct (add_object s1 k q) as [j s2] eqn:Ea. inv_ok.
      pose proof (idx_elem _ _ Eq) as Hq. pose proof (se_objects _ _ Hse) as Ho.
      eapply handed in Ea as [Hse' Hin]; [|apply Hse| |].
      * unfold row_here, found, hands_out. cbn. split_and!; try done. by eapply searched_trans.
      * by rewrite Ho.
      * by eauto.
    + unfold row_here, found, hands_end. cbn. split_and!; try done.
      intros q'. rewrite Eq. by intros [= <-].
  - unfold row_here, found, hands_end. cbn. split_and!; try done. intros q'. by rewrite Eq.
Qed.

Lemma find_in_ok before after tid p sec a s' : is_Some (tables s !! tid) ->
  (forall q, before q = false -> after q = false -> t_id q = tid) ->
  find_in s k idx before after tid p sec = Ok (a, s') ->
  exists o, found s' a tid o p sec /\
    match o with
    | Some r => idx !! first_position (fun r => negb (before r)) idx = Some r /\ after r = false
    | None => forall r, idx !! first_position (fun r => negb (before r)) idx = Some r -> after r = true
    end.
Proof.
  intros Ht Hkey H. unfold find_in in H. destruct (cache_table_of s k tid) as [ei s1] eqn:Ec.
  apply cache_table_of_ok in Ec as [Hse He]; [|done].
  destruct (idx !! first_position _ idx) as [q|] eqn:Eq; [|exists None; by inv_ok].
  destruct (after q) eqn:Ea; [exists None; inv_ok; split; [done|]; by intros ? [= <-]|]. exists (Some q).
  destruct (add_object s1 k q) as [j s2] eqn:Eo. inv_ok.
  pose proof (idx_elem _ _ Eq) as Hq. pose proof (se_objects _ _ Hse) as Ho.
  pose proof (first_position_at _ _ _ Eq) as Hb. cbn in Hb. bool_to_prop.
  eapply handed in Eo as [Hse' Hin]; [|apply Hse|by rewrite Ho|by rewrite Hkey; eauto].
  split; [|done]. unfold found, hands_out. cbn. split_and!; try done. by eapply searched_trans.
Qed.

Lemma found_searched s' a tid o p sec : found s' a tid o p sec -> searched s s'.
Proof. destruct o; [by intros [[? _] _]|by intros [[? _] _]]. Qed.

Lemma next_in_searched it a s' : next_in s k idx it = Ok (a, s') -> searched s s'.
Proof.
  intros [(_ & _ & ->)|(r & o & _ & _ & _ & Hf)]%next_in_ok; [by apply searched_refl|].
  by eapply found_searched.
Qed.

Lemma previous_in_searched it a s' : previous_in s k idx it = Ok (a, s') -> searched s s'.
Proof.
  intros (i & tid & H & Ht & _)%previous_in_ok.
  apply step_back_ok in H as [(j & q & _ & _ & Hf)|(_ & -> & _)]; [..|done].
  - by eapply found_searched.
  - by apply searched_refl.
Qed.

Lemma next_in_safe it : safely (next_in s k idx it).
Proof.
  unfold next_in. destruct (it <? -1); [done|]. apply safely_bind; [by apply get_object_safe|].
  intros r [Hr Hi]%get_object_ok; [|done]. destruct (cached_table_of r it Hr Hi) as [ei He].
  unfold get_end_iterator_by_table_id. rewrite He.
  destruct (idx !! _) as [q|]; [|done]. destruct (t_id q =? _); [|done]. by destruct (add_object s k q).
Qed.

(** The end iterator of a table that has been removed. *)
Definition dangling (it : Z) : Prop :=
  it < -1 /\ exists tid, table_cache (caches s k) !! tid = Some it /\ tables s !! tid = None.

Lemma step_back_safe i tid : (i <= length idx)%nat -> safely (step_back s k idx i tid).
Proof.
  intros Hi. unfold step_back. destruct i as [|i]; [done|].
  destruct (lookup_lt_is_Some_2 idx i) as [q Hq]; [lia|]. rewrite Hq.
  destruct (t_id q =? tid); [|done]. by destruct (add_object s k q).
Qed.

Lemma previous_in_throws it e : previous_in s k idx it = Throw e ->
  e <> table_not_in_cache /\ (e = undefined_behaviour <-> dangling it).
Proof.
  unfold previous_in. destruct (it <? -1) eqn:E; bool_to_prop.
  - unfold find_table_by_end_iterator. replace (it <? -1) with true by lia. cbn.
    destruct (_ !! _) as [tid|] eqn:Et.
    + assert (table_cache (caches s k) !! tid = Some it) as Hc by (apply co_table; [apply Hs|done]).
      unfold table_at. destruct (tables s !! tid) as [u|] eqn:Eu; cbn.
      * intros [? ?]%step_back_safe; [|apply first_position_le]. split; [done|]. split; [done|].
        intros (_ & tid' & Hc' & Hn). apply co_table in Hc' as [_ Hc']; [|apply Hs]. congruence.
      * intros [= <-]. split; [done|]. split; [|done]. intros _. split; [done|eauto].
    + intros [= <-]. split; [done|]. split; [done|]. intros (_ & tid' & Hc' & _).
      apply co_table in Hc' as [_ Hc']; [|apply Hs]. congruence.
  - intros H. assert (e <> undefined_behaviour /\ e <> table_not_in_cache) as [? ?].
    { revert e H. apply safely_bind; [by apply get_object_safe|]. intros r [Hr _]%get_object_ok; [|done].
      apply step_back_safe. apply first_position_le. }
    split; [done|]. split; [done|]. intros [? _]. lia.
Qed.

End index.

(** The functions that take a table by name. *)
Lemma with_table_ok c sc tb f a s' : with_table s c sc tb f = Ok (a, s') ->
  (find_table s c sc tb = None /\ a = only_iterator (-1) /\ s' = s) \/
  exists tid, find_table s c sc tb = Some tid /\ is_Some (tables s !! tid) /\ f tid = Ok (a, s').
Proof.
  unfold with_table. destruct (find_table s c sc tb) as [tid|] eqn:E; [|intros [= <- <-]; by left].
  right. exists tid. split_and!; [done| |done]. apply find_table_Some in E as (u & Hu & _); [eauto|].
  apply (wf_tables _ Hs).
Qed.

Lemma with_table_searched c sc tb f a s' :
  (forall tid, is_Some (tables s !! tid) -> f tid = Ok (a, s') -> searched s s') ->
  with_table s c sc tb f = Ok (a, s') -> searched s s'.
Proof.
  intros Hf [(_ & _ & ->)|(tid & _ & Ht & H)]%with_table_ok; [by apply searched_refl|by eapply Hf].
Qed.

End searches.

(** ** Orders on keys *)

Lemma after_primary_spec tid p r : after_primary tid p r = true <->
  tid < t_id r \/ (tid = t_id r /\ p < primary_key r).
Proof.
  unfold after_primary.
  rewrite orb_true_iff, andb_true_iff, negb_true_iff, !Z.ltb_lt, Z.ltb_ge. lia.
Qed.

Lemma before_primary_spec tid p r : before_primary tid p r = true <->
  t_id r < tid \/ (tid = t_id r /\ primary_key r < p).
Proof.
  unfold before_primary.
  rewrite orb_true_iff, andb_true_iff, negb_true_iff, !Z.ltb_lt, Z.ltb_ge. lia.
Qed.

Lemma equal_primary tid p r : before_primary tid p r = false -> after_primary tid p r = false ->
  t_id r = tid /\ primary_key r = p.
Proof.
  rewrite <- !Bool.not_true_iff_false, before_primary_spec, after_primary_spec. lia.
Qed.

Section secondary.
Context (f64_lt f128_lt : Z -> Z -> bool).

Lemma by_secondary_perm k l : by_secondary f64_lt f128_lt k l ≡ₚ l.
Proof. induction l as [|r l IH]; cbn; [done|]. by rewrite insert_row_perm, IH. Qed.

Lemma after_secondary_spec k tid v r : after_secondary f64_lt f128_lt k tid v r = true <->
  tid < t_id r \/ (tid = t_id r /\ SecondaryKeyLess f64_lt f128_lt k v (value r) = true).
Proof.
  unfold after_secondary.
  rewrite orb_true_iff, andb_true_iff, negb_true_iff, !Z.ltb_lt, Z.ltb_ge. split; [|intuition lia].
  intros [?|[? ?]]; [by left|]. destruct (decide (tid = t_id r)); [by right|left; lia].
Qed.

Lemma before_secondary_spec k tid v r : before_secondary f64_lt f128_lt k tid v r = true <->
  t_id r < tid \/ (tid = t_id r /\ SecondaryKeyLess f64_lt f128_lt k (value r) v = true).
Proof.
  unfold before_secondary.
  rewrite orb_true_iff, andb_true_iff, negb_true_iff, !Z.ltb_lt, Z.ltb_ge. split; [|intuition lia].
  intros [?|[? ?]]; [by left|]. destruct (decide (tid = t_id r)); [by right|left; lia].
Qed.

Lemma equal_secondary k tid v r : before_secondary f64_lt f128_lt k tid v r = false ->
  after_secondary f64_lt f128_lt k tid v r = false -> t_id r = tid.
Proof.
  rewrite <- !Bool.not_true_iff_false, before_secondary_spec, after_secondary_spec. lia.
Qed.

(** ** All calls *)

Context (f64_is_nan f128_is_nan : Z -> bool).
Abbreviation call_api x := (call_api x f64_lt f128_lt f64_is_nan f128_is_nan).

(** What the interface guarantees of the arguments: sizes in the 32-bit
    address space of the contract, and one key behind a pointer to a key. *)
Definition index_ok (k : table_kind) : Prop := k <> keyval.
Definition key_ok (k : table_kind) (v : list Z) : Prop :=
  k <> keyval /\ (k = idx256 \/ length v = 1%nat).

Definition call_ok (c : call) : Prop :=
  match c with
  | Store _ _ _ _ buf | Update _ _ buf => Z.of_nat (length buf) < 2 ^ 32
  | IdxStore k _ _ _ _ v | IdxUpdate k _ _ v | IdxFindSecondary k _ _ _ v | IdxLowerbound k _ _ _ v
  | IdxUpperbound k _ _ _ v => key_ok k v
  | IdxRemove k _ | IdxFindPrimary k _ _ _ _ _ | IdxEnd k _ _ _ | IdxNext k _ | IdxPrevious k _ =>
      index_ok k
  | _ => True
  end.

(** Calls that change nothing but the caches. *)
Definition is_search (c : call) : bool :=
  match c with
  | Store _ _ _ _ _ | Update _ _ _ | Remove _ | IdxStore _ _ _ _ _ _ | IdxUpdate _ _ _ _ | IdxRemove _ _ =>
      false
  | _ => true
  end.

Lemma search_call_ok x s c r s' : wf s -> is_search c = true ->
  call_api x s c = Ok (r, s') -> searched s s'.
Proof.
  intros Hs Hc H. unfold ContractTables.call_api in H. apply bind_ok_inv in H as (_ & _ & H).
  assert (forall m, returns m = Ok (r, s') -> (forall a, m = Ok (a, s') -> searched s s') ->
    searched s s') as Hret.
  { intros m (a & Hm & Ha)%bind_ok_inv Hall. destruct a as [a s1]. injection Ha as _ <-. by eapply Hall. }
  assert (forall k c sc tb a, with_table s c sc tb (fun tid =>
      let '(ei, s) := cache_table_of s k tid in mret (only_iterator ei, s)) = Ok (a, s') ->
      searched s s') as Hend.
  { intros k c' sc tb a. apply with_table_searched; [done|]. intros tid Ht Hf.
    destruct (cache_table_of s k tid) as [ei s1] eqn:Ec. injection Hf as <- <-.
    by eapply cache_table_of_ok. }
  destruct c; try discriminate Hc; repeat (apply (bind_ok_inv (A := unit)) in H as ([] & _ & H));
    try (apply Hret in H; [exact H|]; intros a; clear H Hret).
  - apply bind_ok_inv in H as ([n b] & _ & [= _ <-]). by apply searched_refl.
  - by apply next_in_searched.
  - by apply previous_in_searched.
  - apply with_table_searched; [done|]. intros tid Ht H. eapply find_in_ok in H as (o & Hf & _);
      [by eapply found_searched|done..|]. intros q Hb Ha. by apply (equal_primary _ _ _ Hb).
  - apply with_table_searched; [done|]. intros tid Ht H. eapply row_or_end_ok in H as (o & _ & Hf);
      [by eapply found_searched|done..].
  - apply with_table_searched; [done|]. intros tid Ht H. eapply row_or_end_ok in H as (o & _ & Hf);
      [by eapply found_searched|done..].
  - apply Hend.
  - apply with_table_searched; [done|]. intros tid Ht H. eapply find_in_ok in H as (o & Hf & _);
      [by eapply found_searched|done|by apply by_secondary_perm|done|].
    intros q Hb Ha. by apply (equal_secondary _ _ _ _ Hb).
  - apply with_table_searched; [done|]. intros tid Ht H. eapply find_in_ok in H as (o & Hf & _);
      [by eapply found_searched|done..|]. intros q Hb Ha. by apply (equal_primary _ _ _ Hb).
  - apply with_table_searched; [done|]. intros tid Ht H. eapply row_or_end_ok in H as (o & _ & Hf);
      [by eapply found_searched|done|by apply by_secondary_perm|done].
  - apply with_table_searched; [done|]. intros tid Ht H. eapply row_or_end_ok in H as (o & _ & Hf);
      [by eapply found_searched|done|by apply by_secondary_perm|done].
  - apply Hend.
  - apply next_in_searched; [done|apply by_secondary_perm].
  - apply previous_in_searched; [done|apply by_secondary_perm].
Qed.

(** What storing a row does, in terms of the state after its table was found
    or created. *)
Definition stores (x : action_context) (s s' : state) (k : table_kind) (sc tb p : Name.name) (pk : Z)
    (v : list Z) (it : Z) : Prop :=
  p <> no_name /\ exists s1 tid u, opened s s1 (receiver x, sc, tb) tid /\ tables s1 !! tid = Some u /\
    stored s1 s' k (mk_row (next_object s1 k) tid pk p v) u it.

Lemma db_store_ok x s sc tb p pk buf it s' : wf s -> Z.of_nat (length buf) < 2 ^ 32 ->
  db_store_i64 x s sc tb p pk buf = Ok (it, s') -> stores x s s' keyval sc tb p pk buf it.
Proof.
  intros Hs Hb H. unfold db_store_i64 in H. apply bind_ok_inv in H as ([tid s1] & Ho & H).
  apply bind_ok_inv in H as ([] & Hp%EOS_ASSERT_ok & H). bool_to_prop. split; [done|].
  eapply find_or_create_ok in Ho; [|done]. destruct (op_table _ _ _ _ Ho) as (u & Hu & _).
  pose proof (row_size_bound keyval buf Hb). rewrite <- row_size_keyval, s64_small in H by lia.
  exists s1, tid, u. split_and!; [done..|]. eapply store_row_ok; [apply Ho|done|lia|exact H].
Qed.

Lemma index_store_ok x k s sc tb p pk v it s' : wf s -> k <> keyval -> Z.of_nat (length v) < 2 ^ 32 ->
  store x k s sc tb p pk v = Ok (it, s') -> stores x s s' k sc tb p pk v it.
Proof.
  intros Hs Hk Hv H. unfold store in H. apply bind_ok_inv in H as ([] & Hp%EOS_ASSERT_ok & H).
  bool_to_prop. split; [done|]. apply bind_ok_inv in H as ([tid s1] & Ho & H).
  eapply find_or_create_ok in Ho; [|done]. destruct (op_table _ _ _ _ Ho) as (u & Hu & _).
  rewrite <- (row_size_index k v Hk) in H. pose proof (row_size_bound k v Hv).
  exists s1, tid, u. split_and!; [done..|]. eapply store_row_ok; [apply Ho|done|lia|exact H].
Qed.

Lemma stores_wf x s s' k sc tb p pk v it : wf s -> Z.of_nat (length v) < 2 ^ 32 -> capacity s' ->
  stores x s s' k sc tb p pk v it -> wf s' /\ accounted s s'.
Proof.
  intros Hs Hv Hcap (_ & s1 & tid & u & Ho & Hu & Hst). by eapply (stored_wf s s1 s' _ k (mk_row _ tid pk p v)).
Qed.

Lemma key_check_length k v : key_ok k v -> key_check f64_is_nan f128_is_nan k v = Ok tt ->
  k <> keyval /\ Z.of_nat (length v) < 2 ^ 32.
Proof.
  intros [Hk Hl] H. split; [done|]. unfold key_check in H. apply bind_ok_inv in H as (_ & _ & H).
  unfold array_size_check in H. destruct Hl as [-> | ->]; [|lia].
  apply EOS_ASSERT_ok, Z.eqb_eq in H. lia.
Qed.

Lemma returns_safe m : safely m -> safely (returns m).
Proof. intros Hm. apply safely_bind; [done|]. by intros [a s] _. Qed.
Lemma returns_row_safe m : safely m -> safely (returns_row m).
Proof. intros Hm. apply safely_bind; [done|]. by intros [a s] _. Qed.
Lemma returns_state_safe m : safely m -> safely (returns_state m).
Proof. intros Hm. apply safely_bind; [done|]. by intros. Qed.

Lemma table_at_safe s tid : is_Some (tables s !! tid) -> safely (table_at s tid).
Proof. intros [u Hu]. by eapply safely_total, table_at_ok. Qed.

Lemma modify_count_safe s tid n : is_Some (tables s !! tid) -> safely (modify_count s tid n).
Proof. intros Ht. apply safely_bind; [by apply table_at_safe|]. by intros. Qed.

Lemma store_row_safe x s k tid p pk v size : is_Some (tables s !! tid) ->
  safely (store_row x s k tid p pk v size).
Proof.
  intros Ht. apply safely_bind.
  { unfold create_row. destruct (existsb _ _); [|done]. by intros e [= <-]. }
  intros [r s1] Hc. unfold create_row in Hc. destruct (existsb _ _); [done|]. injection Hc as <- <-.
  apply safely_bind; [by apply modify_count_safe|]. intros s2 _.
  apply safely_bind; [apply update_db_usage_safe|]. intros s3 _.
  by destruct (cache_table_of s3 k tid).
Qed.

Lemma remove_from_table_safe x s k it tid r : is_Some (tables s !! tid) ->
  safely (remove_from_table x s k it tid r).
Proof.
  intros [u Hu]. apply safely_bind; [by apply modify_count_safe|]. intros s1 H1.
  unfold modify_count in H1. apply bind_ok_inv in H1 as (v & _ & [= <-]).
  assert (is_Some (tables (remove_row (set_tables s (<[tid := add_count v (-1)]> (tables s)) (next_table s)) k r)
    !! tid)) as Ht by (cbn; by rewrite lookup_insert_eq).
  apply safely_bind; [by apply table_at_safe|]. intros w _. apply safely_bind.
  - destruct (count w =? 0); [|done]. apply safely_bind; [by apply table_at_safe|]. intros y _.
    apply safely_bind; [apply update_db_usage_safe|]. by intros.
  - intros s2 _. apply safely_bind; [|by intros].
    apply safely_bind; [by apply safely_assert|]. intros _ _.
    apply safely_bind; [by apply safely_assert|]. intros _ _.
    by destruct (iterator_to_object _ !! _) as [[q|]|]; intros e [= <-].
Qed.

Lemma find_or_create_safe x s c sc tb p : safely (find_or_create_table x s c sc tb p).
Proof.
  unfold find_or_create_table. destruct (find_table _ _ _ _); [done|].
  apply safely_bind; [apply update_db_usage_safe|]. by intros.
Qed.

Lemma key_check_safe k v : safely (key_check f64_is_nan f128_is_nan k v).
Proof.
  apply safely_bind.
  - destruct k, v as [|? [|? ?]]; try done; by apply safely_assert.
  - intros _ _. destruct k; try done. by apply safely_assert.
Qed.

Lemma array_size_check_safe k v : safely (array_size_check k v).
Proof. destruct k; try done. by apply safely_assert. Qed.

(** An operation that first reaches a row through an iterator. *)
Lemma access_safe {A} s k it (f : row -> Z * table_id_object -> result A) : wf s ->
  (forall r u, r ∈ objects s k -> tables s !! t_id r = Some u -> safely (f r (t_id r, u))) ->
  safely (obj ← get_object s k it; t ← get_table_of s k obj; f obj t).
Proof.
  intros Hs Hf. apply safely_bind; [by apply get_object_safe|]. intros r [Hr Hi]%get_object_ok; [|done].
  apply safely_bind; [by eapply get_table_safe|]. intros [tid u] Ht.
  eapply get_table_of_ok in Ht as [-> Ht]; [|done..]. by apply Hf.
Qed.

Lemma with_table_safe s c sc tb f : (forall tid, safely (f tid)) -> safely (with_table s c sc tb f).
Proof. intros Hf. unfold with_table. by destruct (find_table _ _ _ _). Qed.

Lemma row_or_end_safe s k idx i tid p sec : safely (row_or_end s k idx i tid p sec).
Proof.
  unfold row_or_end. destruct (cache_table_of s k tid) as [ei s1].
  destruct (idx !! i) as [r|]; [|done]. destruct (t_id r =? tid); [|done]. by destruct (add_object s1 k r).
Qed.

Lemma find_in_safe s k idx b af tid p sec : safely (find_in s k idx b af tid p sec).
Proof.
  unfold find_in. destruct (cache_table_of s k tid) as [ei s1].
  destruct (idx !! _) as [r|]; [|done]. destruct (af r); [done|]. by destruct (add_object s1 k r).
Qed.

Lemma end_safe s k tid : safely (let '(ei, s) := cache_table_of s k tid in mret (only_iterator ei, s)).
Proof. by destruct (cache_table_of s k tid). Qed.

#[local] Hint Resolve returns_safe returns_row_safe returns_state_safe update_db_usage_safe get_object_safe
  store_row_safe find_or_create_safe key_check_safe array_size_check_safe row_or_end_safe find_in_safe
  end_safe next_in_safe with_table_safe : safe.

Lemma db_update_safe x s it p buf : wf s -> safely (db_update_i64 x s it p buf).
Proof.
  intros Hs. apply (access_safe s keyval it); [done|]. intros r u Hr Hu.
  apply safely_bind; [by apply safely_assert|]. intros _ _. apply safely_bind; [|by intros].
  repeat case_decide; first [done | by auto with safe | apply safely_bind; auto with safe].
Qed.

Lemma index_update_safe x k s it p v : wf s -> safely (update x k s it p v).
Proof.
  intros Hs. apply (access_safe s k it); [done|]. intros r u Hr Hu.
  apply safely_bind; [by apply safely_assert|]. intros _ _. apply safely_bind; [|by intros].
  repeat case_decide; first [done | by auto with safe | apply safely_bind; auto with safe].
Qed.

Lemma db_remove_safe x s it : wf s -> safely (db_remove_i64 x s it).
Proof.
  intros Hs. apply (access_safe s keyval it); [done|]. intros r u Hr Hu.
  apply safely_bind; [by apply safely_assert|]. intros _ _. apply safely_bind; [auto with safe|].
  intros s1 (? & ? & ? & ->)%update_db_usage_frame. apply remove_from_table_safe. eauto.
Qed.

Lemma index_remove_safe x k s it : wf s -> safely (remove_secondary x k s it).
Proof.
  intros Hs. apply (access_safe s k it); [done|]. intros r u Hr Hu.
  apply safely_bind; [by apply safely_assert|]. intros _ _. apply safely_bind; [auto with safe|].
  intros s1 (? & ? & ? & ->)%update_db_usage_frame. apply remove_from_table_safe. eauto.
Qed.

Lemma call_accounted x s c r s' : wf s -> capacity s -> call_ok c -> call_api x s c = Ok (r, s') ->
  capacity s' -> wf s' /\ accounted s s'.
Proof.
  intros Hs Hcap Hc H Hcap'. destruct (is_search c) eqn:E.
  { apply search_call_ok in H as [Ht _ Ho _ [Hr _] _ Hw]; [|done..]. split; [done|].
    intros a. unfold billed, owed. by rewrite Ht, Ho, Hr. }
  unfold ContractTables.call_api in H. apply bind_ok_inv in H as (_ & _ & H).
  destruct c; try discriminate E; cbn in Hc.
  - apply bind_ok_inv in H as ([it s1] & H & [= _ <-]). by eapply stores_wf, db_store_ok.
  - apply bind_ok_inv in H as (s1 & H & [= _ <-]). apply db_update_ok in H as (q & u & Ha & He); [|done..].
    eapply edited_wf; [done|apply Ha|done..].
  - apply bind_ok_inv in H as (s1 & H & [= _ <-]). apply db_remove_ok in H as (q & u & Ha & He); [|done..].
    eapply removed_wf; [done..|apply Ha|apply Ha|apply Ha|done].
  - apply bind_ok_inv in H as ([] & [Hk Hl]%key_check_length & H); [|done].
    apply bind_ok_inv in H as ([it s1] & H & [= _ <-]). by eapply stores_wf, index_store_ok.
  - apply bind_ok_inv in H as ([] & [Hk Hl]%key_check_length & H); [|done].
    apply bind_ok_inv in H as (s1 & H & [= _ <-]). apply index_update_ok in H as (q & u & Ha & He); [|done..].
    eapply edited_wf; [done|apply Ha|done..].
  - apply bind_ok_inv in H as (s1 & H & [= _ <-]). apply index_remove_ok in H as (q & u & Ha & He); [|done..].
    eapply removed_wf; [done..|apply Ha|apply Ha|apply Ha|done].
Qed.

Lemma call_safe x s c : wf s -> (forall it, c <> Previous it) -> (forall k it, c <> IdxPrevious k it) ->
  safely (call_api x s c).
Proof.
  intros Hs Hp Hip. apply safely_bind; [by apply safely_assert|]. intros _ _. destruct c.
  - apply returns_row_safe. apply safely_bind; [auto with safe|]. intros [tid s1] Ho.
    apply safely_bind; [by apply safely_assert|]. intros _ _. apply store_row_safe.
    destruct (op_table _ _ _ _ (find_or_create_ok _ _ _ _ _ _ _ _ Hs Ho)) as (u & Hu & _). eauto.
  - by apply returns_state_safe, db_update_safe.
  - by apply returns_state_safe, db_remove_safe.
  - apply safely_bind; [|by intros [? ?]]. apply safely_bind; [auto with safe|]. intros. by destruct (_ =? 0).
  - by apply returns_safe, next_in_safe.
  - by destruct (Hp iterator0).
  - apply returns_safe, with_table_safe. intros. apply find_in_safe.
  - apply returns_safe, with_table_safe. intros. apply row_or_end_safe.
  - apply returns_safe, with_table_safe. intros. apply row_or_end_safe.
  - apply returns_safe, with_table_safe. intros. apply end_safe.
  - apply safely_bind; [auto with safe|]. intros _ _. apply returns_row_safe.
    apply safely_bind; [by apply safely_assert|]. intros _ _.
    apply safely_bind; [auto with safe|]. intros [tid s1] Ho. apply store_row_safe.
    destruct (op_table _ _ _ _ (find_or_create_ok _ _ _ _ _ _ _ _ Hs Ho)) as (u & Hu & _). eauto.
  - apply safely_bind; [auto with safe|]. intros _ _. by apply returns_state_safe, index_update_safe.
  - by apply returns_state_safe, index_remove_safe.
  - apply safely_bind; [auto with safe|]. intros _ _. apply returns_safe, with_table_safe.
    intros. apply find_in_safe.
  - apply safely_bind; [auto with safe|]. intros _ _. apply returns_safe, with_table_safe.
    intros. apply find_in_safe.
  - apply safely_bind; [auto with safe|]. intros _ _. apply returns_safe, with_table_safe.
    intros. apply row_or_end_safe.
  - apply safely_bind; [auto with safe|]. intros _ _. apply returns_safe, with_table_safe.
    intros. apply row_or_end_safe.
  - apply returns_safe, with_table_safe. intros. apply end_safe.
  - by apply returns_safe, next_in_safe.
  - by destruct (Hip k iterator0).
Qed.

Lemma previous_throws s k idx it e : wf s -> returns (previous_in s k idx it) = Throw e ->
  e <> table_not_in_cache /\ (e = undefined_behaviour -> dangling s k it).
Proof.
  intros Hs [H|([a s1] & _ & [=])]%bind_throw_inv.
  apply previous_in_throws in H as [? Hd]; [|done]. split; [done|]. by apply Hd.
Qed.

Lemma call_throws x s c e : wf s -> call_api x s c = Throw e ->
  e <> table_not_in_cache /\
  (e = undefined_behaviour -> exists k it, (c = Previous it /\ k = keyval \/ c = IdxPrevious k it) /\
     dangling s k it).
Proof.
  intros Hs H.
  assert (safely (call_api x s c) -> e <> table_not_in_cache /\ (e = undefined_behaviour -> False))
    as Hsafe by (intros Hc; by destruct (Hc e H)).
  destruct c; try (destruct Hsafe as [? Hu]; [by apply call_safe|]; split; [done|]; intros He; by destruct (Hu He));
    clear Hsafe; apply bind_throw_inv in H as [[_ <-]%EOS_ASSERT_throw|(_ & _ & H)]; try done;
    apply previous_throws in H as [? Hd]; try done; (split; [done|]); intros He;
    eexists _, _; (split; [|by apply Hd]); eauto.
Qed.

(** ** The tables of the chain *)

(** Actions start with new caches; a contract makes calls. *)
Inductive table_step : state -> state -> Prop :=
  | step_action s : table_step s (new_context s)
  | step_call x s c r s' : call_ok c -> call_api x s c = Ok (r, s') -> capacity s' -> table_step s s'.

(** No tables, and the accounts of [r]. *)
Definition no_tables (r : ResourceLimits.manager) : state :=
  mk_state ∅ 0 (fun _ => []) (fun _ => 0) (fun _ => empty_cache) r ∅ ∅.

Lemma cached_empty n l : cached_ok n l empty_cache.
Proof.
  split; [apply empty_cache_ok|..].
  - intros p i. cbn. by rewrite lookup_empty.
  - intros tid. cbn. rewrite lookup_empty. by intros [? ?].
Qed.

Lemma no_tables_wf r : ResourceLimits.inv r -> wf (no_tables r) /\ capacity (no_tables r).
Proof.
  intros Hr. split; [|by intros i]. split; cbn; try done.
  - split; try done; try (intros k q; cbn; by rewrite elem_of_nil); try (intros k; constructor).
    intros i. rewrite lookup_empty. by intros [? ?].
  - intros k. apply cached_empty.
Qed.

Lemma step_accounted s s' : wf s -> capacity s -> table_step s s' ->
  (wf s' /\ capacity s') /\ accounted s s'.
Proof.
  intros Hs Hcap Hst. revert Hs Hcap. destruct Hst as [s0|x s0 c r s1 Hc H Hcap']; intros Hs Hcap.
  - split; [|by intros a]. split; [|done]. destruct Hs as [Ht Hn _ Hr]. split; try done.
    intros k. apply cached_empty.
  - eapply call_accounted in H as [? ?]; done.
Qed.

(** Running a list of calls, when each of them succeeds and the tables stay
    small. *)
Definition after (x : action_context) (s : state) (c : call) : state :=
  match call_api x s c with Ok (_, s') => s' | Throw _ => s end.

Definition row_total (s : state) : Z := sum_kinds (fun k => Z.of_nat (length (objects s k))).

Fixpoint runs (x : action_context) (s : state) (l : list call) : bool :=
  match l with
  | [] => true
  | c :: l => is_ok (call_api x s c) && (row_total (after x s c) <? 2 ^ 32) && runs x (after x s c) l
  end.

Lemma capacity_small s : row_total s < 2 ^ 32 -> capacity s.
Proof.
  intros H i. eapply Z.le_lt_trans; [|exact H]. unfold rows_of, row_total, sum_kinds, sum_with.
  assert (forall l, rows_in i l <= Z.of_nat (length l)) as Hl.
  { induction l as [|r l IH]; [unfold rows_in; cbn; lia|]. rewrite rows_in_cons. cbn [length]. destruct (decide _); lia. }
  cbn [foldr table_kinds]. pose proof (fun k => Hl (objects s k)) as Hk.
  pose proof (Hk keyval). pose proof (Hk idx64). pose proof (Hk idx128). pose proof (Hk idx256).
  pose proof (Hk idx_double). pose proof (Hk idx_long_double). lia.
Qed.

Lemma runs_steps x s l : Forall call_ok l -> runs x s l = true -> rtc table_step s (foldl (after x) s l).
Proof.
  intros Hl. revert s. induction Hl as [|c l Hc Hl IH]; intros s Hr; [constructor|]. cbn in Hr.
  apply andb_true_iff in Hr as [[Hok Htot%Z.ltb_lt]%andb_true_iff Hr]. cbn. eapply rtc_l; [|by apply IH]. unfold after.
  destruct (call_api x s c) as [[r s']|e] eqn:E; [|done].
  eapply (step_call x s c r); [done..|]. apply capacity_small. revert Htot. unfold after. by rewrite E.
Qed.

(** C8: the tables of contracts are well formed in every reachable state, and
    RAM is conserved.  After any sequence of actions and of calls that
    succeed, on primary and secondary tables, every key is unique, the count of
    a table is the number of its rows of all kinds and is not zero, and cached
    iterators refer to existing rows whose table is cached; and every account
    is billed, beyond what it was billed before there were tables, what the
    rows and tables that it pays for take. *)
Theorem contract_tables_accounted (r : ResourceLimits.manager) (s : state) :
  ResourceLimits.inv r -> rtc table_step (no_tables r) s ->
  wf s /\ forall a, billed s a = ResourceLimits.billed r a + owed s a.
Proof.
  intros Hr Hrun. assert ((wf s /\ capacity s) /\ accounted (no_tables r) s) as [[Hw _] Ha].
  { revert s Hrun. apply rtc_ind_r; [split; [by apply no_tables_wf|by intros a]|].
    intros s1 s2 _ Hst [[Hw Hc] Ha]. destruct (step_accounted s1 s2 Hw Hc Hst) as [Hw' Ha'].
    split; [done|]. intros a. by rewrite Ha', Ha. }
  split; [done|]. intros a. specialize (Ha a).
  assert (owed (no_tables r) a = 0) as H0; [|unfold billed in *; cbn [resources no_tables] in Ha; lia].
  unfold owed, owed_of. cbn [tables no_tables]. by rewrite sum_map_empty.
Qed.

(** C32: no call of a contract breaks an invariant of the iterator caches: in a
    well-formed state no call throws the exception table_not_in_cache, whose
    message says that an invariant was broken, and no call reads through a
    pointer to a removed object, with one exception: moving back from the end
    iterator of a table that has been removed. *)
Theorem cache_invariant_kept (x : action_context) (s : state) (c : call) (e : chain_exception) :
  wf s -> call_api x s c = Throw e ->
  e <> table_not_in_cache /\
  (e = undefined_behaviour -> exists k it, (c = Previous it /\ k = keyval \/ c = IdxPrevious k it) /\
     dangling s k it).
Proof. apply call_throws. Qed.

End secondary.

(** ** A sample run *)

Definition sample_lt (a b : Z) : bool := a <? b.
Definition sample_nan (a : Z) : bool := false.

(** An action of alice to her own contract. *)
Definition sample_action : action_context :=
  mk_action_context ResourceLimits.alice ResourceLimits.alice
    [mk_level ResourceLimits.alice (Name.mk_name 1)] false false false true.

Definition sample_scope : Name.name := Name.mk_name 5.
Definition sample_table : Name.name := Name.mk_name 6.

(** Two rows and a secondary row; the rows are removed again. *)
Definition sample_calls : list call :=
  [Store sample_scope sample_table ResourceLimits.alice 7 [1; 2; 3];
   Store sample_scope sample_table ResourceLimits.alice 3 [];
   IdxStore idx64 sample_scope sample_table ResourceLimits.alice 7 [40];
   Next 1; Update 0 ResourceLimits.alice [9; 9; 9; 9; 9];
   End ResourceLimits.alice sample_scope sample_table;
   Previous (-2); IdxRemove idx64 0; Remove 1].

Definition sample_start : state := no_tables ResourceLimits.two_accounts_m.
Abbreviation after_calls l :=
  (foldl (after sample_lt sample_lt sample_nan sample_nan sample_action) sample_start l).
Definition sample_end : state := after_calls sample_calls.

(** All rows are gone: the table too. *)
Definition empty_end : state := after_calls (sample_calls ++ [Remove 0]).

Lemma sample_ok l : l = [] \/ l = [Remove 0] -> Forall call_ok (sample_calls ++ l).
Proof. intros [-> | ->]; repeat constructor; cbn; try lia; unfold key_ok, index_ok; try split; auto; done. Qed.

(** The run: one row of five bytes is left, which takes 117 bytes, and the
    table takes 112. *)
Lemma contract_tables_accounted_witness : owed sample_end ResourceLimits.alice = 229 /\
  billed sample_end ResourceLimits.alice
  = ResourceLimits.billed ResourceLimits.two_accounts_m ResourceLimits.alice + 229.
Proof.
  assert (owed sample_end ResourceLimits.alice = 229) as Ho by (vm_compute; reflexivity).
  split; [exact Ho|]. rewrite <- Ho.
  apply (contract_tables_accounted sample_lt sample_lt sample_nan sample_nan
    ResourceLimits.two_accounts_m sample_end ResourceLimits.two_accounts_inv).
  unfold sample_end. rewrite <- (app_nil_r sample_calls). apply runs_steps.
  - apply sample_ok. left. reflexivity.
  - vm_compute. reflexivity.
Defined.

Lemma empty_end_wf : wf empty_end.
Proof.
  unfold empty_end. pose proof (no_tables_wf _ ResourceLimits.two_accounts_inv) as Hstart.
  assert (rtc (table_step sample_lt sample_lt sample_nan sample_nan) sample_start
    (after_calls (sample_calls ++ [Remove 0]))) as Hrun.
  { apply runs_steps; [apply sample_ok; by right|]. by vm_compute. }
  revert Hrun. generalize (after_calls (sample_calls ++ [Remove 0])). intros s Hrun.
  assert (wf s /\ capacity s) as [Hw _]; [|done]. revert s Hrun. apply rtc_ind_r; [done|].
  intros s1 s2 _ Hst [Hw Hc]. by destruct (step_accounted _ _ _ _ s1 s2 Hw Hc Hst).
Qed.

(** The end iterator -2 of the removed table dangles. *)
Lemma cache_invariant_kept_witness :
  exists k it, (Previous (-2) = Previous it /\ k = keyval \/ Previous (-2) = IdxPrevious k it) /\
     dangling empty_end k it.
Proof.
  apply (cache_invariant_kept sample_lt sample_lt sample_nan sample_nan sample_action empty_end
    (Previous (-2)) undefined_behaviour).
  - exact empty_end_wf.
  - vm_compute. reflexivity.
  - reflexivity.
Defined.
End TableSearch.
