(* ===== verification/TableRam.v ===== *)
(** * Contract tables: who may be charged for RAM

    An action of an unprivileged contract can raise the RAM usage of another
    account only with the authorization of that account, both before and after
    the protocol feature ram_restrictions: before it the check is made with
    every charge ([update_db_usage]), after it on the sums of the charges when
    the contract has returned (the end of [exec_one]). *)

From S2P Require Import Prelude Names ProducerSchedule Authority ResourceLimits TableIndex.
From S2P Require Import ContractTables TableInvariants TableSearch.
Import Authority TableIndex ContractTables TableInvariants TableSearch.

Module TableRam.

Section action.
Context (x : action_context).

(** Operations are sequences of charges and of changes that do not touch RAM. *)
Inductive ram_step : state -> state -> Prop :=
  | ram_charge s p d s' : is_s64 d -> update_db_usage x s p d = Ok s' -> ram_step s s'
  | ram_other s s' : resources s' = resources s -> account_ram_deltas s' = account_ram_deltas s ->
      ram_step s s'.

Abbreviation ram_path := (rtc ram_step).

Lemma ram_once s s' : resources s' = resources s -> account_ram_deltas s' = account_ram_deltas s ->
  ram_path s s'.
Proof. intros. by apply rtc_once, ram_other. Qed.

Lemma ram_before s s1 s' : ram_path s1 s' -> resources s1 = resources s ->
  account_ram_deltas s1 = account_ram_deltas s -> ram_path s s'.
Proof. intros. etrans; [by apply (ram_once s s1)|done]. Qed.

Lemma ram_charged s p d s' : is_s64 d -> update_db_usage x s p d = Ok s' -> ram_path s s'.
Proof. intros. by eapply rtc_once, ram_charge. Qed.

(** ** The operations *)

Lemma find_or_create_ram s c sc tb p tid s' : find_or_create_table x s c sc tb p = Ok (tid, s') -> ram_path s s'.
Proof.
  unfold find_or_create_table. destruct (find_table s c sc tb); [by intros [= <- <-]|].
  intros (s1 & H & [= <- <-])%bind_ok_inv. etrans; [eapply ram_charged; [|exact H]|].
  - pose proof (proj1 billable_table_bound). lia.
  - by apply ram_once.
Qed.

Lemma store_row_ram s k tid p pk v size it s' : is_s64 size ->
  store_row x s k tid p pk v size = Ok (it, s') -> ram_path s s'.
Proof.
  intros Hsz H. unfold store_row in H. apply bind_ok_inv in H as ([r s1] & H1 & H).
  unfold create_row in H1. destruct (existsb _ _); [done|]. injection H1 as <- <-.
  apply bind_ok_inv in H as (s2 & H2 & H). apply bind_ok_inv in H2 as (u & _ & [= <-]).
  apply bind_ok_inv in H as (s3 & H3 & H).
  eapply ram_before; [etrans; [by eapply ram_charged|]|done..]. apply ram_once.
  all: unfold cache_table_of, add_object in H; destruct (cache_table _ _); cbn in H;
    destruct (add _ _); by injection H as <- <-.
Qed.

Lemma remove_from_table_ram s k it tid r s' : remove_from_table x s k it tid r = Ok s' -> ram_path s s'.
Proof.
  intros H. unfold remove_from_table in H. apply bind_ok_inv in H as (s1 & H1 & H).
  apply bind_ok_inv in H1 as (u & _ & [= <-]). apply bind_ok_inv in H as (w & _ & H).
  apply bind_ok_inv in H as (s2 & H2 & H). apply bind_ok_inv in H as (c & _ & [= <-]).
  etrans; [|by apply (ram_once s2)].
  destruct (count w =? 0); [|injection H2 as <-; by apply ram_once].
  apply bind_ok_inv in H2 as (y & _ & H2). apply bind_ok_inv in H2 as (s3 & H3 & [= <-]).
  eapply ram_before; [etrans; [eapply ram_charged; [apply s64_range|exact H3]|]|done..].
  by apply ram_once.
Qed.

Lemma db_store_ram s sc tb p pk buf it s' : db_store_i64 x s sc tb p pk buf = Ok (it, s') -> ram_path s s'.
Proof.
  intros ([tid s1] & Ho & H)%bind_ok_inv. apply bind_ok_inv in H as ([] & _ & H).
  etrans; [by eapply find_or_create_ram|]. eapply store_row_ram; [apply s64_range|done].
Qed.

Lemma index_store_ram k s sc tb p pk v it s' : store x k s sc tb p pk v = Ok (it, s') -> ram_path s s'.
Proof.
  intros ([] & _ & H)%bind_ok_inv. apply bind_ok_inv in H as ([tid s1] & Ho & H).
  etrans; [by eapply find_or_create_ram|]. eapply store_row_ram; [|done].
  pose proof (billable_row_bound k). lia.
Qed.

Lemma db_remove_ram s it s' : db_remove_i64 x s it = Ok s' -> ram_path s s'.
Proof.
  intros (r & _ & H)%bind_ok_inv. apply bind_ok_inv in H as ([tid u] & _ & H).
  apply bind_ok_inv in H as ([] & _ & H). apply bind_ok_inv in H as (s1 & H1 & H).
  etrans; [eapply ram_charged; [|exact H1]; apply s64_range|by eapply remove_from_table_ram].
Qed.

Lemma index_remove_ram k s it s' : remove_secondary x k s it = Ok s' -> ram_path s s'.
Proof.
  intros (r & _ & H)%bind_ok_inv. apply bind_ok_inv in H as ([tid u] & _ & H).
  apply bind_ok_inv in H as ([] & _ & H). apply bind_ok_inv in H as (s1 & H1 & H).
  etrans; [eapply ram_charged; [|exact H1]; apply s64_range|by eapply remove_from_table_ram].
Qed.

Lemma db_update_ram s it p buf s' : wf s -> Z.of_nat (length buf) < 2 ^ 32 ->
  db_update_i64 x s it p buf = Ok s' -> ram_path s s'.
Proof.
  intros Hs Hb H. unfold db_update_i64 in H. access Hs H. apply bind_ok_inv in H as (s1 & H & [= <-]).
  pose proof (row_size_bound keyval _ (to_size _ _ _ _ (wf_tables _ Hs) _ _ Hr)).
  pose proof (row_size_bound keyval buf Hb).
  rewrite <- !row_size_keyval, !s64_small in H by lia.
  etrans; [|by apply (ram_once s1)]. destruct (decide (payer r <> _)).
  - apply bind_ok_inv in H as (s2 & Hold & H). etrans; (eapply ram_charged; [|done]; lia).
  - destruct (decide (row_size _ _ <> _)); [|by injection H as <-]. eapply ram_charged; [|done]. lia.
Qed.

Lemma index_update_ram k s it p v s' : wf s -> update x k s it p v = Ok s' -> ram_path s s'.
Proof.
  intros Hs H. unfold update in H. access Hs H. apply bind_ok_inv in H as (s1 & H & [= <-]).
  pose proof (billable_row_bound k).
  etrans; [|by apply (ram_once s1)]. destruct (decide (payer r <> _)); [|by injection H as <-].
  apply bind_ok_inv in H as (s2 & Hold & H). etrans; (eapply ram_charged; [|done]; lia).
Qed.

(** ** Charges and authorization *)

(** The account may be charged at once, before ram_restrictions. *)
Definition may_charge (a : account_name) : bool :=
  bool_decide (a = receiver x) ||
  ((is_ram_billing_in_notify_allowed x || bool_decide (receiver x = act_account x)) &&
   has_authorization x a).

Lemma s64_add u v : s64 (s64 u + v) = s64 (u + v).
Proof.
  unfold s64. f_equal. replace (_ - 2 ^ 63 + v + 2 ^ 63) with ((u + 2 ^ 63) mod 2 ^ 64 + v) by lia.
  rewrite Z.add_mod_idemp_l by lia. f_equal. lia.
Qed.

(** The delta of an account is its change since its usage was [b]. *)
Definition delta_ok (b : Z) (s : state) (a : account_name) : Prop :=
  default 0 (account_ram_deltas s !! a) = s64 (billed s a - b).

Lemma add_ram_delta s p d s' a b : ResourceLimits.inv (resources s) -> is_s64 d ->
  add_ram_usage s p d = Ok s' -> delta_ok b s a -> delta_ok b s' a.
Proof.
  intros Hinv Hd H Hb. unfold add_ram_usage in H. apply bind_ok_inv in H as (r & Hr & [= <-]).
  unfold delta_ok, billed in *. cbn.
  rewrite (ResourceLimits.add_pending_ram_billed _ _ _ _ Hinv Hd Hr). unfold ResourceLimits.only_for.
  destruct (decide (a = p)) as [->|Hne].
  - rewrite lookup_insert_eq. cbn.
    replace (_ + d - b) with (ResourceLimits.billed (resources s) p - b + d) by lia.
    rewrite <- s64_add, <- Hb. destruct (account_ram_deltas s !! p) as [e|]; cbn; [done|].
    by rewrite s64_small.
  - rewrite lookup_insert_ne by done. by rewrite Z.add_0_r.
Qed.

Lemma ram_step_ok s s' : ResourceLimits.inv (resources s) -> ram_step s s' ->
  ResourceLimits.inv (resources s') /\
  (forall a b, delta_ok b s a -> delta_ok b s' a) /\
  (privileged x = false -> ram_restrictions x = false -> forall a, may_charge a = false ->
     billed s' a <= billed s a).
Proof.
  intros Hinv H. revert Hinv. destruct H as [s p d s' Hd H|s s' Hr Hdl]; intros Hinv.
  - pose proof (update_db_usage_ok _ _ _ _ _ Hinv Hd H) as (_ & Hinv' & Hb). split; [done|].
    unfold update_db_usage in H. apply bind_ok_inv in H as ([] & Hc & H). split.
    + intros a b. by eapply add_ram_delta.
    + intros Hp Hr a Ha. rewrite Hb. unfold ResourceLimits.only_for.
      destruct (decide (a = p)) as [->|]; [|lia]. rewrite Hp, Hr in Hc. unfold may_charge in Ha.
      destruct (0 <? d) eqn:E; bool_to_prop; [|lia]. rewrite orb_false_l, orb_false_r in Hc.
      rewrite bool_decide_eq_false_2 in Hc by done. cbn [negb] in Hc. inv_ok.
      unfold require_authorization in Hc. inv_ok. rewrite Hr0, Hc in H1. naive_solver.
  - rewrite Hr. split; [done|]. unfold delta_ok, billed. rewrite Hr, Hdl. done.
Qed.

Lemma ram_path_ok s s' : ResourceLimits.inv (resources s) -> ram_path s s' ->
  ResourceLimits.inv (resources s') /\
  (forall a b, delta_ok b s a -> delta_ok b s' a) /\
  (privileged x = false -> ram_restrictions x = false -> forall a, may_charge a = false ->
     billed s' a <= billed s a).
Proof.
  intros Hinv H. revert Hinv. induction H as [s|s s1 s2 Hst _ IH]; intros Hinv; [done|].
  destruct (ram_step_ok _ _ Hinv Hst) as (Hi1 & Hd1 & Hb1). destruct (IH Hi1) as (Hi2 & Hd2 & Hb2).
  split_and!; [done|auto|]. intros Hp Hr a Ha. specialize (Hb1 Hp Hr a Ha). specialize (Hb2 Hp Hr a Ha). lia.
Qed.

Lemma check_ram_deltas_ok s a d : check_ram_deltas x s = Ok tt -> privileged x = false ->
  ram_restrictions x = true -> account_ram_deltas s !! a = Some d -> 0 < d -> a <> receiver x ->
  receiver x = act_account x /\ has_authorization x a = true.
Proof.
  unfold check_ram_deltas. intros H Hp Hr Ha Hd Hne. rewrite Hp, Hr in H. cbn in H.
  apply elem_of_map_to_list in Ha. revert H.
  induction (map_to_list (account_ram_deltas s)) as [|e l IH]; [by apply elem_of_nil in Ha|].
  cbn. intros ([] & He & Hl)%bind_ok_inv. apply elem_of_cons in Ha as [<-|Ha]; [|by apply IH].
  unfold check_delta in He. cbn in He. rewrite bool_decide_eq_false_2 in He by done.
  replace (0 <? d) with true in He by lia. cbn in He. inv_ok. by bool_to_prop.
Qed.

Section calls.
Context (f64_lt f128_lt : Z -> Z -> bool) (f64_is_nan f128_is_nan : Z -> bool).
Abbreviation call_api := (call_api x f64_lt f128_lt f64_is_nan f128_is_nan).

Lemma call_ram s c r s' : wf s -> call_ok c -> call_api s c = Ok (r, s') -> ram_path s s'.
Proof.
  intros Hs Hc H. destruct (is_search c) eqn:E.
  { apply search_call_ok in H as [_ _ _ _ [Hr Hd] _ _]; [|done..]. by apply ram_once. }
  unfold ContractTables.call_api in H. apply bind_ok_inv in H as (_ & _ & H).
  destruct c; try discriminate E; cbn in Hc.
  - apply bind_ok_inv in H as ([it s1] & H & [= _ <-]). by eapply db_store_ram.
  - apply bind_ok_inv in H as (s1 & H & [= _ <-]). by eapply db_update_ram.
  - apply bind_ok_inv in H as (s1 & H & [= _ <-]). by eapply db_remove_ram.
  - apply bind_ok_inv in H as ([] & _ & H).
    apply bind_ok_inv in H as ([it s1] & H & [= _ <-]). by eapply index_store_ram.
  - apply bind_ok_inv in H as ([] & _ & H). apply bind_ok_inv in H as (s1 & H & [= _ <-]).
    by eapply index_update_ram.
  - apply bind_ok_inv in H as (s1 & H & [= _ <-]). by eapply index_remove_ram.
Qed.

(** The calls of one action. *)
Inductive action_step : state -> state -> Prop :=
  | action_call s c r s' : call_ok c -> call_api s c = Ok (r, s') -> capacity s' -> action_step s s'.

Lemma action_ram s s' : wf s -> capacity s -> rtc action_step s s' -> ram_path s s'.
Proof.
  intros Hw Hc H. revert Hw Hc. induction H as [s|s s1 s2 Hst _ IH]; intros Hw Hc; [done|].
  destruct Hst as [s c r s1 Hok Hcall Hcap].
  destruct (call_accounted _ _ _ _ _ _ _ _ _ Hw Hc Hok Hcall Hcap) as [Hw1 _].
  etrans; [by eapply call_ram|by apply IH].
Qed.

Abbreviation after := (TableSearch.after f64_lt f128_lt f64_is_nan f128_is_nan x).

Lemma after_action s c : call_ok c -> is_ok (call_api s c) = true -> row_total (after s c) < 2 ^ 32 ->
  action_step s (after s c).
Proof.
  intros Hc Hok Ht. apply capacity_small in Ht. revert Ht. unfold TableSearch.after.
  destruct (call_api s c) as [[r s']|e] eqn:E; [|done]. by econstructor.
Qed.

(** C17: RAM of other accounts needs their authorization.  When an action of an
    unprivileged contract has made its calls and passed the check at its end,
    and the RAM usage of an account other than the receiver has grown (to less
    than 2^63 bytes), then the account is among the authorizers of the action;
    and the contract was not merely notified of the action, unless the node
    allows billing in notifications and ram_restrictions is not activated. *)
Theorem ram_increase_authorized (s s' : state) (a : account_name) :
  wf s -> capacity s -> rtc action_step (new_context s) s' -> check_ram_deltas x s' = Ok tt ->
  privileged x = false -> a <> receiver x ->
  0 <= billed s a < billed s' a -> billed s' a < 2 ^ 63 ->
  has_authorization x a = true /\
  (receiver x = act_account x \/
   is_ram_billing_in_notify_allowed x = true /\ ram_restrictions x = false).
Proof.
  intros Hw Hcap Hrun Hchk Hp Hne Hb Hb'.
  assert (wf (new_context s)) as Hw0 by (apply (step_accounted f64_lt f128_lt f64_is_nan f128_is_nan s);
    [done..|constructor]).
  apply action_ram, ram_path_ok in Hrun as (_ & Hd & Hle); [|apply Hw|done..].
  specialize (Hd a (billed s a)). unfold delta_ok in Hd.
  change (billed (new_context s) a) with (billed s a) in *. rewrite Z.sub_diag in Hd.
  specialize (Hd eq_refl). rewrite s64_small in Hd by lia.
  destruct (ram_restrictions x) eqn:Er.
  - destruct (account_ram_deltas s' !! a) as [d|] eqn:Ed; cbn in Hd; [|lia].
    destruct (check_ram_deltas_ok s' a d Hchk Hp Er Ed) as [? ?]; [lia|done|]. auto.
  - destruct (may_charge a) eqn:Em.
    + unfold may_charge in Em. rewrite bool_decide_eq_false_2 in Em by done. cbn in Em.
      bool_to_prop. split; [done|]. destruct H; bool_to_prop; auto.
    + specialize (Hle Hp eq_refl a Em). change (billed (new_context s) a) with (billed s a) in Hle. lia.
Qed.

End calls.
End action.

(** An action of alice that bob has authorized too: bob pays for a row, under
    ram_restrictions. *)
Definition joint_action : action_context :=
  mk_action_context ResourceLimits.alice ResourceLimits.alice
    [mk_level ResourceLimits.alice (Name.mk_name 1); mk_level ResourceLimits.bob (Name.mk_name 1)]
    false false true true.

Definition bob_pays : call := Store sample_scope sample_table ResourceLimits.bob 7 [1; 2; 3].

Definition bob_state : state :=
  TableSearch.after sample_lt sample_lt sample_nan sample_nan joint_action (new_context sample_start) bob_pays.

Lemma ram_increase_authorized_witness :
  billed bob_state ResourceLimits.bob = 227 /\ has_authorization joint_action ResourceLimits.bob = true.
Proof.
  split; [vm_compute; reflexivity|].
  destruct (no_tables_wf _ ResourceLimits.two_accounts_inv) as [Hw Hc].
  apply (ram_increase_authorized joint_action sample_lt sample_lt sample_nan sample_nan sample_start
    bob_state ResourceLimits.bob Hw Hc).
  - apply rtc_once, after_action; [reflexivity|vm_compute; reflexivity|vm_compute; reflexivity].
  - vm_compute. reflexivity.
  - reflexivity.
  - vm_compute. discriminate.
  - split; vm_compute; [discriminate|reflexivity].
  - vm_compute. reflexivity.
Defined.

End TableRam.
