(* ===== verification/TableRefinement.v ===== *)
(** * Contract tables: what the calls mean

    The promise of the database API, without table ids, rows, caches and
    pointers: for every kind of table a map from (code, scope, table) and
    primary key to payer and value, and for every iterator the position it
    stands for.  The theorems show that the calls of [ContractTables] implement
    this: stores, updates and removals change one entry of the map, and
    searches and moves return the neighbour in the order of the primary or the
    secondary keys. *)

From S2P Require Import Prelude Names ProducerSchedule Authority ResourceLimits TableIndex.
From S2P Require Import ContractTables TableInvariants TableSearch.
Import Authority TableIndex ContractTables TableInvariants TableSearch.

Module TableRefinement.

(** ** The abstract state *)

Abbreviation key := (Name.name * Name.name * Name.name)%type.

(** The entries: payer and value. *)
Abbreviation contents := (table_kind -> key -> Z -> option (Name.name * list Z)).

Inductive position :=
  | At (t : key) (primary : Z)
  | EndOf (t : key).

Abbreviation positions := (table_kind -> Z -> option position).

Definition content (s : state) : contents := fun k t pk =>
  match find_table s t.1.1 t.1.2 t.2 with
  | None => None
  | Some tid =>
      (fun e => (payer e.2, value e.2)) <$>
        list_find (fun r => t_id r = tid /\ primary_key r = pk) (objects s k)
  end.

Definition denote (s : state) : positions := fun k it =>
  if it <? -1 then
    tid ← end_iterator_to_table (caches s k) !! end_iterator_to_index it;
    u ← tables s !! tid;
    Some (EndOf (table_key u))
  else if it <? 0 then None
  else
    o ← iterator_to_object (caches s k) !! Z.to_nat it;
    p ← o;
    r ← snd <$> list_find (fun r => id r = p) (objects s k);
    u ← tables s !! t_id r;
    Some (At (table_key u) (primary_key r)).

(** ** Rows and entries *)

(** The rows of a table given by its name. *)
Definition row_of (s : state) (k : table_kind) (t : key) (r : row) : Prop :=
  r ∈ objects s k /\ exists u, tables s !! t_id r = Some u /\ table_key u = t.

Lemma primary_inj s k r q : wf s -> r ∈ objects s k -> q ∈ objects s k -> t_id r = t_id q ->
  primary_key r = primary_key q -> r = q.
Proof.
  intros Hs [i Hi]%list_elem_of_lookup_1 [j Hj]%list_elem_of_lookup_1 Ht Hp.
  pose proof (to_sorted _ _ _ _ (wf_tables _ Hs) k) as Hsort.
  destruct (lt_eq_lt_dec i j) as [[Hlt| ->]|Hlt]; [|congruence|].
  - pose proof (sorted_lookup _ _ _ _ _ _ Hsort Hi Hj Hlt) as Hl. rewrite by_primary_less_spec in Hl. lia.
  - pose proof (sorted_lookup _ _ _ _ _ _ Hsort Hj Hi Hlt) as Hl. rewrite by_primary_less_spec in Hl. lia.
Qed.

Section wf.
Context (s : state).
Hypothesis Hs : wf s.

Lemma row_of_id k t r tid u : tables s !! tid = Some u -> table_key u = t ->
  row_of s k t r <-> r ∈ objects s k /\ t_id r = tid.
Proof.
  intros Hu Hk. unfold row_of. split.
  - intros (Hr & v & Hv & Hvk). split; [done|]. eapply (to_unique _ _ _ _ (wf_tables _ Hs)); [done..|congruence].
  - intros [Hr <-]. eauto.
Qed.

Lemma content_Some k t pk p v : content s k t pk = Some (p, v) <->
  exists r, row_of s k t r /\ primary_key r = pk /\ payer r = p /\ value r = v.
Proof.
  destruct t as [[c sc] tb]. unfold content. cbn. destruct (find_table s c sc tb) as [tid|] eqn:E.
  - apply find_table_Some in E as (u & Hu & Hk); [|apply (wf_tables _ Hs)].
    setoid_rewrite (row_of_id k (c, sc, tb) _ tid u Hu Hk).
    destruct (list_find _ _) as [[i q]|] eqn:El; cbn.
    + apply list_find_Some in El as (Hq%list_elem_of_lookup_2 & [Ht Hp] & _). split.
      * intros [= <- <-]. exists q. done.
      * intros (r & [Hr Htr] & Hpr & <- & <-).
        by rewrite (primary_inj s k q r Hs Hq Hr) by congruence.
    + apply list_find_None in El. rewrite Forall_forall in El. split; [done|].
      intros (r & [Hr Htr] & Hpr & _). by destruct (El r Hr).
  - split; [done|]. intros (r & (Hr & u & Hu & Hk) & _). by destruct (proj1 (find_table_None _ _ _ _) E _ _ Hu).
Qed.

Lemma denote_At k it t pk : denote s k it = Some (At t pk) <->
  exists r, row_of s k t r /\ primary_key r = pk /\ object_to_iterator (caches s k) !! id r = Some it.
Proof.
  destruct (wf_caches _ Hs k) as [Hc Hrows _]. pose proof (to_ids _ _ _ _ (wf_tables _ Hs) k) as Hnd.
  unfold denote. destruct (it <? -1) eqn:E; [|destruct (it <? 0) eqn:E0]; bool_to_prop.
  - split.
    + intros (tid & _ & (u & _ & [=])%bind_Some)%bind_Some.
    + intros (r & _ & _ & [Hi _]%(co_object _ Hc)). lia.
  - split; [done|]. intros (r & _ & _ & [Hi _]%(co_object _ Hc)). lia.
  - split.
    + intros (o & Ho & (p & -> & (r & Hr & (u & Hu & [= <- <-])%bind_Some)%bind_Some)%bind_Some)%bind_Some.
      apply fmap_Some in Hr as ([i q] & (Hq%list_elem_of_lookup_2 & <- & _)%list_find_Some & ->). cbn in *.
      exists q. split_and!; [split; eauto|done|]. apply (co_object _ Hc). split; [lia|done].
    + intros (r & (Hr & u & Hu & <-) & <- & [Hi Hl]%(co_object _ Hc)). rewrite Hl. cbn.
      destruct (list_find _ _) as [[i q]|] eqn:El; cbn.
      * apply list_find_Some in El as (Hq%list_elem_of_lookup_2 & Hid & _).
        rewrite (ids_inj _ q r Hnd Hq Hr Hid), Hu. done.
      * apply list_find_None in El. rewrite Forall_forall in El. by destruct (El r Hr).
Qed.

Lemma denote_End k it t : denote s k it = Some (EndOf t) <->
  exists tid u, table_cache (caches s k) !! tid = Some it /\ tables s !! tid = Some u /\ table_key u = t.
Proof.
  destruct (wf_caches _ Hs k) as [Hc _ _].
  unfold denote. destruct (it <? -1) eqn:E; [|destruct (it <? 0) eqn:E0]; bool_to_prop.
  - split.
    + intros (tid & Hl & (u & Hu & [= <-])%bind_Some)%bind_Some. exists tid, u.
      split_and!; [|done..]. by apply (co_table _ Hc).
    + intros (tid & u & [_ Hl]%(co_table _ Hc) & Hu & <-). rewrite Hl. cbn. by rewrite Hu.
  - split; [done|]. intros (tid & u & [Hi _]%(co_table _ Hc) & _). lia.
  - split.
    + intros (o & Ho & (p & -> & (r & Hr & (u & Hu & [=])%bind_Some)%bind_Some)%bind_Some)%bind_Some.
    + intros (tid & u & [Hi _]%(co_table _ Hc) & _). lia.
Qed.

(** A table exists when it has a row of some kind. *)
Definition table_absent (m : contents) (t : key) : Prop := forall k pk, m k t pk = None.

Lemma table_absent_iff t : table_absent (content s) t <-> find_table s t.1.1 t.1.2 t.2 = None.
Proof.
  destruct t as [[c sc] tb]. cbn. split.
  - intros Ha. apply find_table_None. intros i u Hu Hk.
    pose proof (wf_nonempty _ Hs _ _ Hu) as Hn. rewrite (to_count _ _ _ _ (wf_tables _ Hs) _ _ Hu) in Hn.
    assert (rows_of (objects s) i = 0); [|lia]. apply rows_of_zero. intros k r Hr Ht.
    specialize (Ha k (primary_key r)). rewrite (proj2 (content_Some k _ _ (payer r) (value r))) in Ha; [done|].
    exists r. split_and!; [|done..]. split; [done|]. rewrite Ht. eauto.
  - intros Hf k pk. unfold content. cbn. by rewrite Hf.
Qed.

End wf.

(** ** Neighbours in an order *)

(** An entry: its primary key and its value. *)
Abbreviation entry := (Z * list Z)%type.
Definition entry_of (r : row) : entry := (primary_key r, value r).
Definition entries (m : contents) (k : table_kind) (t : key) (e : entry) : Prop :=
  exists p, m k t e.1 = Some (p, e.2).

Lemma entries_rows s k t e : wf s -> entries (content s) k t e <-> exists r, row_of s k t r /\ entry_of r = e.
Proof.
  intros Hs. unfold entries. split.
  - intros (p & (r & Hr & Hp & _ & Hv)%content_Some); [|done]. exists r. split; [done|].
    destruct e. cbn in *. by rewrite <- Hp, <- Hv.
  - intros (r & Hr & <-). exists (payer r). apply content_Some; [done|]. exists r. done.
Qed.

(** The least, or the greatest, entry that satisfies [P], if there is one. *)
Definition first_of (E P : entry -> Prop) (lt : entry -> entry -> Prop) (o : option entry) : Prop :=
  match o with
  | Some e => E e /\ P e /\ forall e', E e' -> P e' -> e' = e \/ lt e e'
  | None => forall e', E e' -> ~ P e'
  end.
Definition last_of (E P : entry -> Prop) (lt : entry -> entry -> Prop) (o : option entry) : Prop :=
  first_of E P (fun e e' => lt e' e) o.

(** A list of the rows of a kind in the order of an index, where [lt] is the
    order of the entries of one table. *)
Record ordered_index (s : state) (k : table_kind) (idx : list row) (lt : entry -> entry -> Prop) : Prop := {
  oi_perm : idx ≡ₚ objects s k;
  oi_order i j r q : idx !! i = Some r -> idx !! j = Some q -> (i < j)%nat ->
    t_id r <= t_id q /\ (t_id r = t_id q -> lt (entry_of r) (entry_of q));
  oi_asym r q : r ∈ objects s k -> q ∈ objects s k -> lt (entry_of r) (entry_of q) ->
    ~ lt (entry_of q) (entry_of r);
}.

(** ** The promise of the searches *)

Definition same (m m' : contents) : Prop := forall k t pk, m' k t pk = m k t pk.
Definition kept (d d' : positions) : Prop := forall k it p, d k it = Some p -> d' k it = Some p.

(** The answer stands for the entry [o] of a table, or for its end. *)
Definition points (d : positions) (k : table_kind) (t : key) (o : option entry) (a : answer)
    (primary secondary : bool) : Prop :=
  match o with
  | Some e => d k (iterator a) = Some (At t e.1) /\
      primary_out a = (if primary then Some e.1 else None) /\
      secondary_out a = (if secondary then Some e.2 else None)
  | None => d k (iterator a) = Some (EndOf t) /\ primary_out a = None /\ secondary_out a = None
  end.

(** A search for the first entry that satisfies [P]. *)
Definition search_spec (m : contents) (d' : positions) (k : table_kind) (t : key) (P : entry -> Prop)
    (lt : entry -> entry -> Prop) (primary secondary : bool) (a : answer) : Prop :=
  (table_absent m t /\ a = only_iterator (-1)) \/
  (~ table_absent m t /\ exists o, first_of (entries m k t) P lt o /\ points d' k t o a primary secondary).

Definition end_spec (m : contents) (d' : positions) (k : table_kind) (t : key) (a : answer) : Prop :=
  (table_absent m t /\ a = only_iterator (-1)) \/
  (~ table_absent m t /\ points d' k t None a false false).

(** The move to the next entry: the end has none. *)
Definition next_spec (m : contents) (d d' : positions) (k : table_kind) (lt : entry -> entry -> Prop)
    (it : Z) (a : answer) : Prop :=
  (it < -1 /\ a = only_iterator (-1)) \/
  exists t e o, d k it = Some (At t e.1) /\ entries m k t e /\
    first_of (entries m k t) (lt e) lt o /\ points d' k t o a true false.

(** The move to the previous entry, from the end to the last one. *)
Definition previous_spec (m : contents) (d d' : positions) (k : table_kind) (lt : entry -> entry -> Prop)
    (it : Z) (a : answer) : Prop :=
  exists t P o,
    (d k it = Some (EndOf t) /\ P = (fun _ => True) \/
     exists e, d k it = Some (At t e.1) /\ entries m k t e /\ P = (fun e' => lt e' e)) /\
    last_of (entries m k t) P lt o /\
    match o with Some _ => points d' k t o a true false | None => a = only_iterator (-1) end.

Lemma searched_content s s' : searched s s' -> same (content s) (content s').
Proof.
  intros [Ht _ Ho _ _ _ _] k t pk. unfold content, find_table. by rewrite Ht, Ho.
Qed.

Lemma searched_kept s s' : wf s -> searched s s' -> kept (denote s) (denote s').
Proof.
  intros Hs Hse k it p Hp. destruct (se_caches _ _ Hse k) as [Hobj Htab]. destruct p as [t pk|t].
  - apply denote_At in Hp as (r & (Hr & u & Hu & Hk) & Hpk & Hi); [|done].
    apply denote_At; [apply Hse|]. exists r. split_and!; [|done|by apply Hobj].
    split; [by rewrite (se_objects _ _ Hse)|]. exists u. by rewrite (se_tables _ _ Hse).
  - apply denote_End in Hp as (tid & u & Hi & Hu & Hk); [|done]. apply denote_End; [apply Hse|].
    exists tid, u. rewrite (se_tables _ _ Hse). auto.
Qed.

Lemma found_points s k s' a tid o p sec u : found s k s' a tid o p sec -> tables s !! tid = Some u ->
  (forall q, o = Some q -> t_id q = tid) ->
  points (denote s') k (table_key u) (entry_of <$> o) a p sec.
Proof.
  intros Hf Hu Hq. destruct o as [q|]; cbn in *.
  - destruct Hf as ((Hse & Hr & Hi) & Hp & Hsec). split_and!; [|done..].
    apply denote_At; [apply Hse|]. exists q. split_and!; [|done..].
    split; [by rewrite (se_objects _ _ Hse)|]. exists u. by rewrite (se_tables _ _ Hse), (Hq q).
  - destruct Hf as ((Hse & Hi) & Hp & Hsec). split_and!; [|done..].
    apply denote_End; [apply Hse|]. exists tid, u. by rewrite (se_tables _ _ Hse).
Qed.

Section moves.
Context (s : state) (k : table_kind) (idx : list row) (lt : entry -> entry -> Prop).
Hypothesis Hs : wf s.
Hypothesis Hidx : ordered_index s k idx lt.

Lemma idx_row t r : row_of s k t r -> exists i, idx !! i = Some r.
Proof. intros [Hr _]. apply list_elem_of_lookup_1. by rewrite (oi_perm _ _ _ _ Hidx). Qed.

Lemma idx_row_of i r tid u : idx !! i = Some r -> t_id r = tid -> tables s !! tid = Some u ->
  row_of s k (table_key u) r.
Proof.
  intros Hr Ht Hu. eapply row_of_id; [done..|]. split; [|done].
  rewrite <- (oi_perm _ _ _ _ Hidx). by eapply list_elem_of_lookup_2.
Qed.

Lemma idx_inj i j r : idx !! i = Some r -> idx !! j = Some r -> i = j.
Proof.
  intros Hi Hj. eapply (NoDup_lookup (id <$> idx) i j (id r)); [|by rewrite list_lookup_fmap, ?Hi, ?Hj..].
  rewrite (oi_perm _ _ _ _ Hidx). apply (wf_tables _ Hs).
Qed.

(** The order of the entries of a table is the order of the list. *)
Lemma idx_lt i j r q : idx !! i = Some r -> idx !! j = Some q -> t_id r = t_id q ->
  lt (entry_of r) (entry_of q) <-> (i < j)%nat.
Proof.
  intros Hi Hj Ht. split; [|intros Hlt; by apply (oi_order _ _ _ _ Hidx i j r q Hi Hj Hlt)].
  intros Hlt. pose proof (list_elem_of_lookup_2 _ _ _ Hi) as Hr. pose proof (list_elem_of_lookup_2 _ _ _ Hj) as Hq.
  rewrite (oi_perm _ _ _ _ Hidx) in Hr, Hq.
  pose proof (oi_asym _ _ _ _ Hidx r q Hr Hq Hlt) as Hn.
  destruct (lt_eq_lt_dec i j) as [[?| ->]|Hji]; [done|simplify_eq; done|].
  destruct Hn. by apply (oi_order _ _ _ _ Hidx j i q r Hj Hi Hji).
Qed.

(** The rows of a table are contiguous. *)
Lemma idx_between i j l r q x : idx !! i = Some r -> idx !! j = Some q -> idx !! l = Some x ->
  (i <= j <= l)%nat -> t_id r = t_id x -> t_id q = t_id r.
Proof.
  intros Hi Hj Hl Hijl Ht.
  destruct (decide (i = j)) as [->|]; [congruence|]. destruct (decide (j = l)) as [->|]; [congruence|].
  destruct (oi_order _ _ _ _ Hidx i j r q Hi Hj) as [? _]; [lia|].
  destruct (oi_order _ _ _ _ Hidx j l q x Hj Hl) as [? _]; [lia|]. lia.
Qed.

Section table.
Context (tid : Z) (u : table_id_object).
Hypothesis Hu : tables s !! tid = Some u.
Abbreviation t := (table_key u).
Abbreviation E := (entries (content s) k t).

(** Entries are rows at positions of the list. *)
Lemma entry_position e : E e <-> exists i r, idx !! i = Some r /\ t_id r = tid /\ entry_of r = e.
Proof.
  rewrite entries_rows by done. split.
  - intros (r & Hr & <-). destruct (idx_row _ _ Hr) as [i Hi]. exists i, r.
    by apply (row_of_id s Hs k t r tid u Hu) in Hr as [_ ?].
  - intros (i & r & Hi & Ht & <-). exists r. split; [|done]. by eapply idx_row_of.
Qed.

(** The first row of the table from a position on, and the last before it. *)
Lemma first_from (P : entry -> Prop) i o :
  (forall j r, idx !! j = Some r -> t_id r = tid -> P (entry_of r) <-> (i <= j)%nat) ->
  (forall q, idx !! i = Some q -> tid <= t_id q) ->
  row_here idx i tid o -> first_of E P lt (entry_of <$> o).
Proof.
  intros HP Hge Ho. destruct o as [q|]; cbn in *.
  - destruct Ho as [Hq Hqt]. split_and!; [apply entry_position; eauto|by apply (HP i q Hq Hqt)|].
    intros e' (j & r & Hj & Hrt & <-)%entry_position Hr. apply (HP j r Hj Hrt) in Hr.
    destruct (decide (i = j)) as [->|]; [left; congruence|right].
    apply (idx_lt i j); [done..|congruence|lia].
  - intros e' (j & r & Hj & Hrt & <-)%entry_position Hr. apply (HP j r Hj Hrt) in Hr.
    destruct (lookup_lt_is_Some_2 idx i) as [q Hq]; [apply lookup_lt_Some in Hj; lia|].
    apply (Ho q Hq). specialize (Hge q Hq). destruct (decide (i = j)) as [->|]; [congruence|].
    destruct (oi_order _ _ _ _ Hidx i j q r Hq Hj) as [? _]; lia.
Qed.

Lemma last_before (P : entry -> Prop) i o :
  (forall j r, idx !! j = Some r -> t_id r = tid -> P (entry_of r) <-> (j < i)%nat) ->
  (forall j q, i = S j -> idx !! j = Some q -> t_id q <= tid) ->
  match o with Some q => exists j, i = S j /\ row_here idx j tid (Some q)
  | None => forall j, i = S j -> row_here idx j tid None end -> (i <= length idx)%nat ->
  last_of E P lt (entry_of <$> o).
Proof.
  intros HP Hle Ho Hlen. unfold last_of. destruct o as [q|]; cbn in *.
  - destruct Ho as (i' & -> & Hq & Hqt).
    split_and!; [apply entry_position; eauto|apply (HP i' q Hq Hqt); lia|].
    intros e' (j & r & Hj & Hrt & <-)%entry_position Hr. apply (HP j r Hj Hrt) in Hr.
    destruct (decide (i' = j)) as [->|]; [left; congruence|right].
    apply (idx_lt j i'); [done..|congruence|lia].
  - intros e' (j & r & Hj & Hrt & <-)%entry_position Hr. apply (HP j r Hj Hrt) in Hr.
    destruct i as [|i']; [lia|]. destruct (lookup_lt_is_Some_2 idx i') as [q Hq]; [lia|].
    apply (Ho i' eq_refl q Hq). specialize (Hle i' q eq_refl Hq).
    destruct (decide (i' = j)) as [->|]; [congruence|].
    destruct (oi_order _ _ _ _ Hidx j i' r q Hj Hq) as [? _]; lia.
Qed.

End table.

(** ** The searches keep their promise *)

Lemma row_here_table i tid o q : row_here idx i tid o -> o = Some q -> t_id q = tid.
Proof. intros Ho ->. apply Ho. Qed.

Lemma next_in_refines it a s' : next_in s k idx it = Ok (a, s') ->
  next_spec (content s) (denote s) (denote s') k lt it a.
Proof.
  intros [(Hlt & -> & _)|(r & o & Hr & Hi & Ho & Hf)]%next_in_ok; [by left|right|done|apply Hidx].
  destruct (row_table s k r Hs Hr) as [u Hu]. pose proof (idx_position s k Hs idx (oi_perm _ _ _ _ Hidx) r Hr) as Hp.
  assert (row_of s k (table_key u) r) as Hrow by (split; eauto).
  exists (table_key u), (entry_of r), (entry_of <$> o). split_and!.
  - apply denote_At; [done|]. exists r. done.
  - apply entries_rows; [done|]. eauto.
  - eapply first_from; [done| | |exact Ho].
    + intros j q Hj Hq. rewrite (idx_lt _ j r q Hp Hj) by done. lia.
    + intros q Hq. apply (oi_order _ _ _ _ Hidx _ _ _ _ Hp Hq). lia.
  - eapply found_points; [done..|]. intros q. by apply (row_here_table _ _ _ _ Ho).
Qed.

(** The entries before a position of the table [tid], seen from the iterator. *)
Definition back_from (it : Z) (i : nat) (tid : Z) : Prop :=
  exists u P, tables s !! tid = Some u /\
    (denote s k it = Some (EndOf (table_key u)) /\ P = (fun _ => True) \/
     exists e, denote s k it = Some (At (table_key u) e.1) /\ entries (content s) k (table_key u) e /\
       P = (fun e' => lt e' e)) /\
    (forall j r, idx !! j = Some r -> t_id r = tid -> P (entry_of r) <-> (j < i)%nat) /\
    (forall j q, i = S j -> idx !! j = Some q -> t_id q <= tid) /\ (i <= length idx)%nat.

Definition past (tid : Z) : nat := first_position (fun r => tid <? t_id r) idx.

Lemma back_from_end it tid : table_cache (caches s k) !! tid = Some it -> is_Some (tables s !! tid) ->
  back_from it (past tid) tid.
Proof.
  intros Hi [u Hu]. exists u, (fun _ => True). split_and!; [done|..].
  - left. split; [|done]. apply denote_End; eauto.
  - intros j r Hj Ht. split; [|done]. intros _. apply Nat.nle_gt. intros Hge.
    destruct (lookup_lt_is_Some_2 idx (past tid)) as [q Hq]; [apply lookup_lt_Some in Hj; lia|].
    pose proof (first_position_at _ _ _ Hq) as Hgt. cbn in Hgt. bool_to_prop.
    destruct (decide (past tid = j)) as [Heq|Hne].
    + rewrite Heq in Hq. simplify_eq. lia.
    + destruct (oi_order _ _ _ _ Hidx _ _ _ _ Hq Hj) as [? _]; lia.
  - intros j q Hj Hq. assert (j < past tid)%nat as Hlt by lia.
    pose proof (first_position_before _ _ _ _ Hlt Hq) as Hn. cbn in Hn. bool_to_prop. lia.
  - apply first_position_le.
Qed.

Lemma back_from_row it r : r ∈ objects s k -> object_to_iterator (caches s k) !! id r = Some it ->
  back_from it (iterator_to idx r) (t_id r).
Proof.
  intros Hr Hi. destruct (row_table s k r Hs Hr) as [u Hu].
  pose proof (idx_position s k Hs idx (oi_perm _ _ _ _ Hidx) r Hr) as Hp.
  assert (row_of s k (table_key u) r) as Hrow by (split; eauto).
  exists u, (fun e' => lt e' (entry_of r)). split_and!; [done|..].
  - right. exists (entry_of r). split_and!; [apply denote_At; [done|]; exists r; done| |done].
    apply entries_rows; [done|]. eauto.
  - intros j q Hj Hq. by rewrite (idx_lt j _ q r Hj Hp).
  - intros j q Hj Hq. destruct (oi_order _ _ _ _ Hidx _ _ _ _ Hq Hp) as [? _]; [lia|done].
  - apply lookup_lt_Some in Hp. lia.
Qed.

Lemma previous_in_refines it a s' : previous_in s k idx it = Ok (a, s') ->
  previous_spec (content s) (denote s) (denote s') k lt it a.
Proof.
  intros (i & tid & H & Htc & Hcase)%previous_in_ok; [|done].
  assert (back_from it i tid) as (u & P & Hu & Hd & HP & Hle & Hlen).
  { destruct Hcase as [(_ & Hi & Ht & ->)|(r & Hr & Hi & -> & ->)];
      [by apply back_from_end|by apply back_from_row]. }
  apply (step_back_ok s k Hs idx (oi_perm _ _ _ _ Hidx)) in H; [|done].
  destruct H as [(j & q & -> & Hq & Hf)|(-> & -> & Hn)].
  - exists (table_key u), P, (entry_of <$> Some q). split_and!; [done| |].
    + eapply last_before; [done..| |done]. exists j. auto.
    + eapply found_points; [done..|]. intros q' [= <-]. apply Hq.
  - exists (table_key u), P, (entry_of <$> None). split_and!; [done| |done].
    by eapply last_before.
Qed.

(** A bound: [p] says of a row that it is past the bound, for rows of the
    table by [P] on its entry. *)
Record bound_ok (tid : Z) (p : row -> bool) (P : entry -> Prop) : Prop := {
  bo_table r : t_id r = tid -> p r = true <-> P (entry_of r);
  bo_other r : t_id r <> tid -> p r = true <-> tid < t_id r;
  bo_up r q : r ∈ objects s k -> q ∈ objects s k ->
    lt (entry_of r) (entry_of q) -> P (entry_of r) -> P (entry_of q);
}.

Section bound.
Context (tid : Z) (u : table_id_object) (p : row -> bool) (P : entry -> Prop).
Hypothesis Hu : tables s !! tid = Some u.
Hypothesis Hp : bound_ok tid p P.

Lemma idx_objects i r : idx !! i = Some r -> r ∈ objects s k.
Proof. intros Hr%list_elem_of_lookup_2. by rewrite <- (oi_perm _ _ _ _ Hidx). Qed.

Lemma bound_past i r : idx !! i = Some r -> t_id r = tid -> P (entry_of r) <-> (first_position p idx <= i)%nat.
Proof.
  intros Hi Ht. rewrite <- (bo_table _ _ _ Hp r Ht). split.
  - intros Hpr. apply Nat.nlt_ge. intros Hlt. by rewrite (first_position_before p idx i r Hlt Hi) in Hpr.
  - intros Hle. destruct (lookup_lt_is_Some_2 idx (first_position p idx)) as [q Hq].
    { apply lookup_lt_Some in Hi. lia. }
    pose proof (first_position_at _ _ _ Hq) as Hpq.
    destruct (decide (first_position p idx = i)) as [Heq|Hne]; [rewrite Heq in Hq; congruence|].
    destruct (oi_order _ _ _ _ Hidx _ _ _ _ Hq Hi) as [Hle' Hlt]; [lia|].
    destruct (decide (t_id q = tid)) as [Hqt|Hqt]; [|apply (bo_other _ _ _ Hp) in Hpq; [lia|done]].
    apply (bo_table _ _ _ Hp); [done|].
    eapply (bo_up _ _ _ Hp); [by eapply idx_objects..|apply Hlt; congruence|by apply (bo_table _ _ _ Hp)].
Qed.

Lemma bound_first o : row_here idx (first_position p idx) tid o ->
  first_of (entries (content s) k (table_key u)) P lt (entry_of <$> o).
Proof.
  intros Ho. eapply first_from; [done|by apply bound_past| |exact Ho].
  intros q Hq. pose proof (first_position_at _ _ _ Hq) as Hpq.
  destruct (decide (t_id q = tid)) as [|Hne]; [lia|]. apply (bo_other _ _ _ Hp) in Hpq; [lia|done].
Qed.

End bound.
(** The functions that take a table by name. *)
Lemma with_table_refines c sc tb f P primary secondary a s' :
  (forall tid u, tables s !! tid = Some u -> table_key u = (c, sc, tb) -> f tid = Ok (a, s') ->
     exists o, first_of (entries (content s) k (c, sc, tb)) P lt o /\
       points (denote s') k (c, sc, tb) o a primary secondary) ->
  with_table s c sc tb f = Ok (a, s') ->
  search_spec (content s) (denote s') k (c, sc, tb) P lt primary secondary a.
Proof.
  intros Hf [(Hn & -> & _)|(tid & Ht & _ & H)]%with_table_ok; [left|right|done].
  - split; [|done]. by apply table_absent_iff.
  - split; [rewrite table_absent_iff by done; cbn; congruence|].
    apply find_table_Some in Ht as (u & Hu & Hk); [|apply (wf_tables _ Hs)]. by eapply Hf.
Qed.

Lemma bound_refines c sc tb (p : Z -> row -> bool) P primary secondary a s' :
  (forall tid, bound_ok tid (p tid) P) ->
  with_table s c sc tb (fun tid =>
    row_or_end s k idx (first_position (p tid) idx) tid primary secondary) = Ok (a, s') ->
  search_spec (content s) (denote s') k (c, sc, tb) P lt primary secondary a.
Proof.
  intros Hp. apply with_table_refines. intros tid u Hu <- H.
  apply (row_or_end_ok s k Hs idx (oi_perm _ _ _ _ Hidx)) in H as (o & Ho & Hf); [|by eauto].
  exists (entry_of <$> o). split; [by eapply bound_first|].
  eapply found_points; [done..|]. intros q. by apply (row_here_table _ _ _ _ Ho).
Qed.

Lemma find_refines c sc tb (before after : Z -> row -> bool) (Pb Pa : entry -> Prop) primary secondary a s' :
  (forall tid, bound_ok tid (fun r => negb (before tid r)) (fun e => ~ Pb e)) ->
  (forall tid, bound_ok tid (after tid) Pa) ->
  with_table s c sc tb (fun tid =>
    find_in s k idx (before tid) (after tid) tid primary secondary) = Ok (a, s') ->
  search_spec (content s) (denote s') k (c, sc, tb) (fun e => ~ Pb e /\ ~ Pa e) lt primary secondary a.
Proof.
  intros Hb Ha. apply with_table_refines. intros tid u Hu <- H.
  assert (forall q, before tid q = false -> after tid q = false -> t_id q = tid) as Heq.
  { intros q Hbq Haq. destruct (decide (t_id q = tid)) as [|Hne]; [done|].
    apply (f_equal negb) in Hbq. cbn in Hbq. apply (bo_other _ _ _ (Hb tid) q Hne) in Hbq.
    apply (bo_other _ _ _ (Ha tid) q Hne) in Hbq. congruence. }
  apply (find_in_ok s k Hs idx (oi_perm _ _ _ _ Hidx)) in H as (o & Hf & Ho); [|by eauto|done].
  exists (entry_of <$> o). destruct o as [q|].
  - destruct Ho as [Hq Haq]. pose proof (first_position_at _ _ _ Hq) as Hbq. cbn in Hbq.
    assert (t_id q = tid) as Ht by (apply Heq; [by destruct (before tid q)|done]).
    destruct (bound_first tid u _ _ Hu (Hb tid) (Some q) (conj Hq Ht)) as (HE & HP & Hmin).
    split; [|by eapply found_points; [..|intros ? [= <-]]]. split_and!; [done|done| |].
    + intros HPa. apply (bo_table _ _ _ (Ha tid) q Ht) in HPa. congruence.
    + intros e' He' [Hb' _]. by apply Hmin.
  - split; [|by eapply found_points]. intros e' He' [Hb' Ha'].
    destruct (idx !! first_position (fun r => negb (before tid r)) idx) as [q|] eqn:Eq.
    + specialize (Ho q eq_refl). destruct (decide (t_id q = tid)) as [Ht|Hne].
      * destruct (bound_first tid u _ _ Hu (Hb tid) (Some q) (conj Eq Ht)) as (_ & _ & Hmin).
        apply (bo_table _ _ _ (Ha tid) q Ht) in Ho.
        pose proof He' as (r & Hr & <-)%entries_rows; [|done]. apply Ha'.
        destruct (Hmin _ He' Hb') as [->|Hlt]; [done|].
        by eapply (bo_up _ _ _ (Ha tid) q r); [eapply idx_objects|apply Hr|..].
      * eapply (bound_first tid u _ _ Hu (Hb tid) None); [|exact He'|exact Hb'].
        intros q' Hq'. congruence.
    + eapply (bound_first tid u _ _ Hu (Hb tid) None); [|exact He'|exact Hb'].
      intros q' Hq'. congruence.
Qed.

Lemma end_refines c sc tb a s' :
  with_table s c sc tb (fun tid =>
    let '(ei, s) := cache_table_of s k tid in mret (only_iterator ei, s)) = Ok (a, s') ->
  end_spec (content s) (denote s') k (c, sc, tb) a.
Proof.
  intros [(Hn & -> & _)|(tid & Ht & Hu & H)]%with_table_ok; [left|right|done].
  - split; [|done]. by apply table_absent_iff.
  - split; [rewrite table_absent_iff by done; cbn; congruence|].
    destruct (cache_table_of s k tid) as [ei s1] eqn:Ec. injection H as <- <-.
    apply cache_table_of_ok in Ec as [Hse He]; [|done..].
    apply find_table_Some in Ht as (u & Hu' & Hk); [|apply (wf_tables _ Hs)].
    split; [|done]. apply denote_End; [apply Hse|]. exists tid, u. by rewrite (se_tables _ _ Hse).
Qed.

End moves.

(** ** The promise of the changes *)

(** One entry becomes [o], the others stay. *)
Definition updated (m m' : contents) (k : table_kind) (t : key) (pk : Z) (o : option (Name.name * list Z))
  : Prop :=
  forall k' t' pk', m' k' t' pk' =
    if decide (k' = k /\ t' = t /\ pk' = pk) then o else m k' t' pk'.

Definition names_kept (s s' : state) : Prop := forall tid u u',
  tables s !! tid = Some u -> tables s' !! tid = Some u' -> table_key u' = table_key u.

Lemma row_of_kept s s' k k' t r r' : wf s -> wf s' -> names_kept s s' -> r ∈ objects s k ->
  r' ∈ objects s' k' -> t_id r' = t_id r -> row_of s' k' t r' <-> row_of s k t r.
Proof.
  intros Hs Hs' Hn Hr Hr' Ht. destruct (row_table s k r Hs Hr) as [u Hu].
  destruct (row_table s' k' r' Hs' Hr') as [u' Hu']. rewrite Ht in Hu'.
  pose proof (Hn _ _ _ Hu Hu') as Hk. unfold row_of. rewrite Ht, Hu, Hu'. split.
  - intros (_ & v & [= <-] & <-). split; [done|]. exists u. by rewrite Hk.
  - intros (_ & v & [= <-] & <-). split; [done|]. exists u'. by rewrite Hk.
Qed.

Lemma content_eq s k t pk o : wf s ->
  (forall p v, (exists r, row_of s k t r /\ primary_key r = pk /\ payer r = p /\ value r = v) <->
     o = Some (p, v)) ->
  content s k t pk = o.
Proof.
  intros Hs H. setoid_rewrite <- content_Some in H; [|done].
  destruct (content s k t pk) as [[p v]|]; [symmetry; by apply H|].
  destruct o as [[p v]|]; [|done]. by apply H.
Qed.

Section stores.
Context (x : action_context) (s s' : state) (k : table_kind) (sc tb p : Name.name) (pk : Z) (v : list Z) (it : Z).
Hypothesis Hs : wf s.
Hypothesis Hs' : wf s'.
Hypothesis Hst : stores x s s' k sc tb p pk v it.
Abbreviation t := (receiver x, sc, tb).

(** The new row, and the old ones. *)
Lemma stores_rows : exists r, row_of s' k t r /\ primary_key r = pk /\ payer r = p /\ value r = v /\
  object_to_iterator (caches s' k) !! id r = Some it /\
  (forall q, q ∈ objects s k -> ~ (t_id q = t_id r /\ primary_key q = pk)) /\
  (forall k' q, q ∈ objects s' k' <-> k' = k /\ q = r \/ q ∈ objects s k') /\ names_kept s s'.
Proof.
  destruct Hst as (_ & s1 & tid & u & Ho & Hu & Hd). set (r := mk_row _ _ _ _ _) in Hd.
  destruct (op_frame _ _ _ _ Ho) as (Hobj & _ & _). destruct (op_table _ _ _ _ Ho) as (w & Hw & Hk).
  assert (forall k' q, q ∈ objects s' k' <-> k' = k /\ q = r \/ q ∈ objects s k') as Hrows.
  { intros k' q. rewrite (st_objects _ _ _ _ _ _ Hd), Hobj. unfold set_at.
    destruct (decide (k' = k)) as [->|]; [rewrite insert_row_perm, elem_of_cons; naive_solver|naive_solver]. }
  exists r. split_and!; try done.
  - split; [apply Hrows; by left|]. exists (add_count u 1). rewrite (st_tables _ _ _ _ _ _ Hd). cbn [t_id].
    rewrite lookup_insert_eq. split; [done|]. cbn. rewrite Hw in Hu. by injection Hu as ->.
  - rewrite (st_caches _ _ _ _ _ _ Hd), decide_True by done.
    rewrite (st_iterator _ _ _ _ _ _ Hd). apply add_in.
  - rewrite <- Hobj. apply Hd.
  - intros i u0 u' Hi. rewrite (st_tables _ _ _ _ _ _ Hd). apply (op_old _ _ _ _ Ho) in Hi.
    intros [[<- <-]|[_ Hi']]%lookup_insert_Some; [|congruence]. cbn [t_id r] in *. by simplify_eq.
Qed.

Lemma stores_caches k' : extends (caches s k') (caches s' k').
Proof.
  destruct Hst as (_ & s1 & tid & u & Ho & Hu & Hd). destruct (op_frame _ _ _ _ Ho) as (_ & _ & Hc).
  rewrite (st_caches _ _ _ _ _ _ Hd), Hc. destruct (decide (k' = k)) as [->|]; [|done].
  unfold cache_both. cbn [t_id id]. destruct (wf_caches _ Hs k) as [Hok _ _].
  pose proof (cache_table_frame (caches s k) tid) as [_ Hf].
  pose proof (add_frame (cache_table (caches s k) tid).2 (next_object s1 k)) as [Hf' _]. split.
  - intros q i Hq. apply add_objects. by rewrite Hf.
  - intros t e Ht. rewrite Hf'. by apply cache_table_tables.
Qed.

Lemma stores_tables tid w : tables s !! tid = Some w ->
  exists w', tables s' !! tid = Some w' /\ table_key w' = table_key w.
Proof.
  destruct Hst as (_ & s1 & i & u & Ho & Hu & Hd). intros Hw%(op_old _ _ _ _ Ho).
  rewrite (st_tables _ _ _ _ _ _ Hd). cbn [t_id]. destruct (decide (i = tid)) as [->|Hne].
  - rewrite lookup_insert_eq. eexists. split; [done|]. cbn. by simplify_eq.
  - rewrite lookup_insert_ne by done. eauto.
Qed.

Lemma stores_refines : p <> no_name /\ content s k t pk = None /\
  updated (content s) (content s') k t pk (Some (p, v)) /\ denote s' k it = Some (At t pk) /\
  kept (denote s) (denote s').
Proof.
  destruct stores_rows as (r & Hr & Hpk & Hp & Hv & Hit & Hnew & Hrows & Hn).
  destruct Hr as (Hr & u & Hu & Hk).
  assert (forall k' t' q, q ∈ objects s k' -> row_of s' k' t' q <-> row_of s k' t' q) as Hold.
  { intros k' t' q Hq. eapply row_of_kept; [done..| |done]. apply Hrows. by right. }
  assert (forall q, row_of s k t q -> primary_key q <> pk) as Hnone.
  { intros q Hq Hqk. pose proof Hq as [Hin _]. apply (Hold k t q Hin) in Hq.
    apply (row_of_id s' Hs' k t q (t_id r) u Hu Hk) in Hq as [_ Hq]. by apply (Hnew q). }
  split_and!; [by destruct Hst|..].
  - apply content_eq; [done|]. intros p' v'. split; [|done]. intros (q & Hq & Hqk & _). by destruct (Hnone q).
  - intros k' t' pk'. apply content_eq; [done|]. intros p' v'.
    destruct (decide _) as [(-> & -> & ->)|Hne].
    + split; [|intros [= <- <-]; exists r; split_and!; [split; eauto|done..]].
      intros (q & Hq & Hqk & <- & <-). pose proof (proj1 Hq) as [[_ ->]|Hin]%Hrows; [by rewrite Hp, Hv|].
      apply (Hold k t q Hin) in Hq. by destruct (Hnone q).
    + rewrite content_Some by done. split; intros (q & Hq & Hrest); exists q; (split; [|done]).
      * pose proof (proj1 Hq) as [[-> ->]|Hin]%Hrows; [|by apply (Hold k' t' q Hin)].
        destruct Hne. destruct Hq as (_ & u' & Hu' & Hk'). rewrite Hu in Hu'. injection Hu' as <-.
        naive_solver.
      * apply Hold; [apply Hq|done].
  - apply denote_At; [done|]. exists r. split_and!; [split; eauto|done..].
  - intros k' i q. destruct q as [t' pk'|t'].
    + rewrite !denote_At by done. intros (q & Hq & Hqk & Hi). exists q. split_and!; [|done|].
      * apply Hold; [apply Hq|done].
      * by apply stores_caches.
    + rewrite !denote_End by done. intros (tid & w & Hi & Hw & Hwk).
      destruct (stores_tables tid w Hw) as (w' & Hw' & Hkw). exists tid, w'.
      split_and!; [by apply stores_caches|done|congruence].
Qed.

End stores.

(** The entry that a writing call reaches through its iterator. *)
Definition reaches (x : action_context) (m : contents) (d : positions) (k : table_kind) (it : Z) (t : key)
    (pk : Z) (o : Name.name * list Z) : Prop :=
  d k it = Some (At t pk) /\ t.1.1 = receiver x /\ m k t pk = Some o.

Lemma accessed_reaches x s k it r u : wf s -> accessed x s k it r u ->
  reaches x (content s) (denote s) k it (table_key u) (primary_key r) (payer r, value r).
Proof.
  intros Hs (Hr & Hi & Hu & Hc). assert (row_of s k (table_key u) r) as Hrow by (split; eauto).
  split_and!; [|done|].
  - apply denote_At; [done|]. exists r. done.
  - apply content_Some; [done|]. exists r. done.
Qed.

Section edits.
Context (s s' : state) (k : table_kind) (r : row) (u : table_id_object) (p : Name.name) (v : list Z).
Hypothesis Hs : wf s.
Hypothesis Hs' : wf s'.
Hypothesis Hr : r ∈ objects s k.
Hypothesis Hu : tables s !! t_id r = Some u.
Hypothesis He : edited s s' k r p v.

Definition edit (k' : table_kind) (q : row) : row := if decide (k' = k) then edit_row (id r) p v q else q.

Lemma edit_keys k' q : id (edit k' q) = id q /\ t_id (edit k' q) = t_id q /\
  primary_key (edit k' q) = primary_key q.
Proof. unfold edit, edit_row. by repeat destruct (decide _). Qed.

(** Only the row [r] changes. *)
Lemma edit_cases k' q : q ∈ objects s k' ->
  k' = k /\ q = r /\ edit k' q = mk_row (id r) (t_id r) (primary_key r) p v \/ 
  ~ (k' = k /\ q = r) /\ edit k' q = q.
Proof.
  intros Hq. unfold edit, edit_row. destruct (decide (k' = k)) as [->|]; [|right; naive_solver].
  destruct (decide (id q = id r)) as [Hid|Hid].
  - rewrite (ids_inj (objects s k) q r (to_ids _ _ _ _ (wf_tables _ Hs) k) Hq Hr Hid). auto.
  - right. split; [naive_solver|done].
Qed.

Lemma edited_rows k' q' : q' ∈ objects s' k' <-> exists q, q ∈ objects s k' /\ q' = edit k' q.
Proof.
  rewrite (ed_objects _ _ _ _ _ _ He). unfold set_at, edit.
  destruct (decide (k' = k)) as [->|]; [|naive_solver]. rewrite list_elem_of_fmap. naive_solver.
Qed.

Lemma edited_row_of k' t q : q ∈ objects s k' -> row_of s' k' t (edit k' q) <-> row_of s k' t q.
Proof.
  intros Hq. eapply row_of_kept; [done|done| |done| |apply edit_keys].
  - intros i w w'. rewrite (proj1 (ed_tables _ _ _ _ _ _ He)). congruence.
  - apply edited_rows. eauto.
Qed.

(** The row with the key of [r] is [r]. *)
Lemma edited_key q : row_of s k (table_key u) q -> primary_key q = primary_key r -> q = r.
Proof.
  intros Hq Hk. pose proof Hq as [Hin _]. apply (row_of_id s Hs k _ q (t_id r) u Hu eq_refl) in Hq as [_ Ht].
  by apply (primary_inj s k).
Qed.

Lemma edited_refines : updated (content s) (content s') k (table_key u) (primary_key r) (Some (p, v)) /\
  kept (denote s) (denote s').
Proof.
  assert (row_of s k (table_key u) r) as Hrow by (split; eauto). split.
  - intros k' t pk. apply content_eq; [done|]. intros p' v'. destruct (decide _) as [(-> & -> & ->)|Hne].
    + split.
      * intros (q' & Hq' & Hqk & <- & <-). pose proof (proj1 Hq') as (q & Hq & ->)%edited_rows.
        destruct (edit_keys k q) as (_ & _ & Hpk). rewrite Hpk in Hqk. apply edited_row_of in Hq'; [|done].
        rewrite (edited_key q Hq' Hqk) in *. destruct (edit_cases k r Hr) as [(_ & _ & ->)|[[] _]]; done.
      * intros [= <- <-]. exists (edit k r). destruct (edit_keys k r) as (_ & _ & ->).
        destruct (edit_cases k r Hr) as [(_ & _ & Hed)|[[] _]]; [|done].
        split_and!; [by apply edited_row_of|done|by rewrite Hed..].
    + rewrite content_Some by done. split.
      * intros (q' & Hq' & Hrest). pose proof (proj1 Hq') as (q & Hq & ->)%edited_rows.
        apply edited_row_of in Hq'; [|done]. exists q. split; [done|].
        destruct (edit_cases k' q Hq) as [(-> & -> & Hed)|[_ Hed]]; rewrite Hed in Hrest; [|done].
        destruct Hne. destruct Hrest as (<- & _), Hq' as (_ & w & Hw & <-). by simplify_eq.
      * intros (q & Hq & Hrest). exists (edit k' q). split; [apply edited_row_of; [apply Hq|done]|].
        destruct (edit_cases k' q (proj1 Hq)) as [(-> & -> & Hed)|[_ Hed]]; rewrite Hed; [|done].
        destruct Hne. destruct Hrest as (<- & _), Hq as (_ & w & Hw & <-). by simplify_eq.
  - intros k' i q. destruct q as [t pk|t].
    + rewrite !denote_At by done. intros (q & Hq & Hqk & Hi). exists (edit k' q).
      destruct (edit_keys k' q) as (Hid & _ & Hpk). rewrite Hid, Hpk, (ed_caches _ _ _ _ _ _ He).
      split_and!; [apply edited_row_of; [apply Hq|done]|done..].
    + rewrite !denote_End, (proj1 (ed_tables _ _ _ _ _ _ He)), (ed_caches _ _ _ _ _ _ He) by done. done.
Qed.

End edits.

Section removes.
Context (s s' : state) (k : table_kind) (r : row) (u : table_id_object) (it : Z).
Hypothesis Hs : wf s.
Hypothesis Hs' : wf s'.
Hypothesis Hr : r ∈ objects s k.
Hypothesis Hi : object_to_iterator (caches s k) !! id r = Some it.
Hypothesis Hu : tables s !! t_id r = Some u.
Hypothesis Hrm : removed s s' k r u it.

Lemma removed_rows k' q : q ∈ objects s' k' <-> q ∈ objects s k' /\ ~ (k' = k /\ q = r).
Proof.
  rewrite (rm_objects _ _ _ _ _ _ Hrm). unfold set_at.
  destruct (decide (k' = k)) as [->|]; [|naive_solver]. rewrite list_elem_of_filter. split.
  - intros [Hid Hq]. split; [done|]. by intros [_ ->].
  - intros [Hq Hne]. split; [|done]. intros Hid. apply Hne. split; [done|].
    by eapply (ids_inj (objects s k)); [apply (wf_tables _ Hs)|..].
Qed.

Lemma removed_tables tid w' : tables s' !! tid = Some w' ->
  exists w, tables s !! tid = Some w /\ table_key w' = table_key w.
Proof.
  rewrite (rm_tables _ _ _ _ _ _ Hrm). unfold tables_without. intros Hw.
  assert (<[t_id r := add_count u (-1)]> (tables s) !! tid = Some w') as Hins.
  { destruct (_ =? 0); [by apply lookup_delete_Some in Hw as [_ ?]|done]. }
  apply lookup_insert_Some in Hins as [[<- <-]|[_ Hw']]; eauto.
Qed.

Lemma removed_row_of k' t q : q ∈ objects s' k' -> row_of s' k' t q <-> row_of s k' t q.
Proof.
  intros Hq. pose proof Hq as [Hq' _]%removed_rows. eapply row_of_kept; [done|done| |done..].
  intros i w w' Hw Hw'. apply removed_tables in Hw' as (w1 & Hw1 & ->). congruence.
Qed.

(** Another iterator of a row stays, an end iterator stays unless its table
    went with its last row. *)
Definition kept_but (d d' : positions) (m' : contents) : Prop :=
  (forall k' i t pk, d k' i = Some (At t pk) -> ~ (k' = k /\ i = it) -> d' k' i = Some (At t pk)) /\
  (forall k' i t, d k' i = Some (EndOf t) -> d' k' i = Some (EndOf t) \/ table_absent m' t).

Lemma removed_cache k' : table_cache (caches s' k') = table_cache (caches s k') /\
  object_to_iterator (caches s' k') =
    if decide (k' = k) then delete (id r) (object_to_iterator (caches s k)) else object_to_iterator (caches s k').
Proof.
  destruct (decide (k' = k)) as [->|Hne]; [|by rewrite (rm_caches _ _ _ _ _ _ Hrm)].
  destruct (cached_remove _ _ _ (wf_caches _ Hs k) _ _ Hi) as (c' & Hc & _ & Hobj & Htab & _).
  rewrite (rm_cache _ _ _ _ _ _ Hrm) in Hc. injection Hc as ->. auto.
Qed.

Lemma removed_refines :
  updated (content s) (content s') k (table_key u) (primary_key r) None /\
  denote s' k it = None /\ kept_but (denote s) (denote s') (content s').
Proof.
  assert (row_of s k (table_key u) r) as Hrow by (split; eauto). split_and!.
  - intros k' t pk. apply content_eq; [done|]. intros p' v'. destruct (decide _) as [(-> & -> & ->)|Hne].
    + split; [|done]. intros (q & Hq & Hqk & _). pose proof (proj1 Hq) as [Hin Hnr]%removed_rows.
      apply removed_row_of in Hq; [|apply Hq]. destruct Hnr. split; [done|].
      by apply (edited_key s k r u Hs Hr Hu).
    + rewrite content_Some by done. split.
      * intros (q & Hq & Hrest). exists q. split; [|done]. apply removed_row_of; [apply Hq|done].
      * intros (q & Hq & Hrest). exists q. split; [|done]. apply removed_row_of; [|done].
        apply removed_rows. split; [apply Hq|]. intros [-> ->]. destruct Hne.
        destruct Hrest as (<- & _), Hq as (_ & w & Hw & <-). by simplify_eq.
  - destruct (denote s' k it) as [[t pk|t]|] eqn:Ed; [| |done].
    + apply denote_At in Ed as (q & Hq & _ & Hqi); [|done].
      rewrite (proj2 (removed_cache k)), decide_True, lookup_delete_Some in Hqi by done.
      destruct Hqi as [Hne Hqi]. destruct Hne.
      pose proof (proj1 (co_object _ (ch_ok _ _ _ (wf_caches _ Hs k)) _ _) Hi) as [_ ?].
      pose proof (proj1 (co_object _ (ch_ok _ _ _ (wf_caches _ Hs k)) _ _) Hqi) as [_ ?]. congruence.
    + apply denote_End in Ed as (tid & w & Hc & _); [|done]. rewrite (proj1 (removed_cache k)) in Hc.
      apply (co_table _ (ch_ok _ _ _ (wf_caches _ Hs k))) in Hc as [? _].
      apply (co_object _ (ch_ok _ _ _ (wf_caches _ Hs k))) in Hi as [? _]. lia.
  - split.
    + intros k' i t pk. rewrite !denote_At by done. intros (q & Hq & Hqk & Hqi) Hne.
      assert (~ (k' = k /\ q = r)) as Hqr by (intros [-> ->]; naive_solver).
      exists q. split_and!; [|done|].
      * apply removed_row_of; [|done]. apply removed_rows. by split; [apply Hq|].
      * rewrite (proj2 (removed_cache k')). destruct (decide (k' = k)) as [->|]; [|done].
        apply lookup_delete_Some. split; [|done]. intros Hid. apply Hqr. split; [done|].
        by eapply (ids_inj (objects s k)); [apply (wf_tables _ Hs)|apply Hq|..].
    + intros k' i t. rewrite !denote_End by done. intros (tid & w & Hc & Hw & Hk).
      destruct (tables s' !! tid) as [w'|] eqn:Ew.
      * left. exists tid, w'. rewrite (proj1 (removed_cache k')).
        destruct (removed_tables tid w' Ew) as (w1 & Hw1 & Hk1). split_and!; [done..|congruence].
      * right. intros k1 pk1. apply content_eq; [done|]. intros p' v'. split; [|done].
        intros (q & Hq & _). apply removed_row_of in Hq as Hq'; [|apply Hq].
        apply (row_of_id s Hs k1 t q tid w Hw Hk) in Hq' as [_ <-].
        destruct Hq as (_ & w1 & Hw1 & _). congruence.
Qed.

End removes.

(** ** The order by primary key *)

Definition primary_lt (e e' : entry) : Prop := e.1 < e'.1.

Lemma primary_index s k : wf s -> ordered_index s k (objects s k) primary_lt.
Proof.
  intros Hs. split; [done|..].
  - intros i j r q Hi Hj Hij.
    pose proof (sorted_lookup _ _ _ _ _ _ (to_sorted _ _ _ _ (wf_tables _ Hs) k) Hi Hj Hij) as Hlt.
    rewrite by_primary_less_spec in Hlt. unfold primary_lt. cbn. lia.
  - intros r q _ _. unfold primary_lt. lia.
Qed.

Lemma primary_bounds s k tid pk :
  bound_ok s k primary_lt tid (fun r => negb (before_primary tid pk r)) (fun e => ~ e.1 < pk) /\
  bound_ok s k primary_lt tid (after_primary tid pk) (fun e => pk < e.1).
Proof.
  split; split.
  - intros r Ht. rewrite negb_true_iff, <- Bool.not_true_iff_false, before_primary_spec. cbn. lia.
  - intros r Ht. rewrite negb_true_iff, <- Bool.not_true_iff_false, before_primary_spec. cbn. lia.
  - intros r q _ _. unfold primary_lt. lia.
  - intros r Ht. rewrite after_primary_spec. cbn. lia.
  - intros r Ht. rewrite after_primary_spec. cbn. lia.
  - intros r q _ _. unfold primary_lt. cbn. lia.
Qed.

(** ** The order by secondary key *)

Lemma words_less_asym a b : words_less a b = true -> words_less b a = false.
Proof.
  revert b. induction a as [|x a IH]; intros [|y b]; cbn; try done.
  rewrite orb_true_iff, andb_true_iff, negb_true_iff, orb_false_iff, andb_false_iff, negb_false_iff,
    !Z.ltb_lt, !Z.ltb_ge.
  intros [Hlt|[Hle Hw]]; [split; [lia|by left]|]. split; [lia|right]. by apply IH.
Qed.

Lemma words_less_neg a b c : words_less a b = true -> words_less a c = true \/ words_less c b = true.
Proof.
  revert b c. induction a as [|x a IH]; intros [|y b] [|z c]; cbn; try done; auto.
  rewrite !orb_true_iff, !andb_true_iff, !negb_true_iff, !Z.ltb_lt, !Z.ltb_ge.
  intros [Hlt|[Hle Hw]].
  - destruct (Z.lt_trichotomy x z) as [?|[<-|?]]; [auto|auto|right; left; lia].
  - destruct (IH b c Hw) as [?|?]; destruct (Z.lt_trichotomy x z) as [?|[<-|?]]; auto.
    + left. right. split; [lia|done].
    + right. left. lia.
    + destruct (decide (x = y)) as [->|]; [right; right; split; [lia|done]|right; left; lia].
Qed.

(** A strict weak order, on the values that are not NaN. *)
Definition float_order (lt : Z -> Z -> bool) (is_nan : Z -> bool) : Prop :=
  (forall a b, is_nan a = false -> is_nan b = false -> lt a b = true -> lt b a = false) /\
  (forall a b c, is_nan a = false -> is_nan b = false -> is_nan c = false ->
     lt a b = true -> lt a c = true \/ lt c b = true).

Section secondary.
Context (f64_lt f128_lt : Z -> Z -> bool) (f64_is_nan f128_is_nan : Z -> bool).
Hypothesis f64_order : float_order f64_lt f64_is_nan.
Hypothesis f128_order : float_order f128_lt f128_is_nan.
Abbreviation less := (SecondaryKeyLess f64_lt f128_lt).
Abbreviation by_secondary := (by_secondary f64_lt f128_lt).
Abbreviation by_secondary_less := (by_secondary_less f64_lt f128_lt).

Definition valid_key (k : table_kind) (v : list Z) : Prop :=
  match k with
  | idx_double => exists b, v = [b] /\ f64_is_nan b = false
  | idx_long_double => exists b, v = [b] /\ f128_is_nan b = false
  | _ => True
  end.

Definition keys_ok (s : state) : Prop := forall k r, r ∈ objects s k -> valid_key k (value r).

Lemma less_asym k a b : valid_key k a -> valid_key k b -> less k a b = true -> less k b a = false.
Proof.
  destruct k; cbn; try (intros _ _; apply words_less_asym).
  - intros (x & -> & Hx) (y & -> & Hy). by apply f64_order.
  - intros (x & -> & Hx) (y & -> & Hy). by apply f128_order.
Qed.

Lemma less_neg k a b c : valid_key k a -> valid_key k b -> valid_key k c -> less k a b = true ->
  less k a c = true \/ less k c b = true.
Proof.
  destruct k; cbn; try (intros _ _ _; apply words_less_neg).
  - intros (x & -> & Hx) (y & -> & Hy) (z & -> & Hz). by apply f64_order.
  - intros (x & -> & Hx) (y & -> & Hy) (z & -> & Hz). by apply f128_order.
Qed.

Definition secondary_lt (k : table_kind) (e e' : entry) : Prop :=
  less k e.2 e'.2 = true \/ (less k e'.2 e.2 = false /\ e.1 < e'.1).

Lemma by_secondary_less_spec k r q : by_secondary_less k r q = true <->
  t_id r < t_id q \/ (t_id r = t_id q /\ secondary_lt k (entry_of r) (entry_of q)).
Proof.
  unfold TableIndex.by_secondary_less, secondary_lt. cbn.
  rewrite !orb_true_iff, !andb_true_iff, !negb_true_iff, orb_true_iff, andb_true_iff, negb_true_iff,
    !Z.ltb_lt, Z.ltb_ge.
  split; [|intuition lia]. intros [?|[? ?]]; [by left|].
  destruct (decide (t_id r = t_id q)); [by right|left; lia].
Qed.

Lemma secondary_lt_trans k x y z : valid_key k x.2 -> valid_key k y.2 -> valid_key k z.2 ->
  secondary_lt k x y -> secondary_lt k y z -> secondary_lt k x z.
Proof.
  intros Hx Hy Hz [Hxy|[Hyx Hp]] [Hyz|[Hzy Hq]]; unfold secondary_lt.
  - left. destruct (less_neg k x.2 y.2 z.2 Hx Hy Hz Hxy) as [|Hzy]; [done|].
    by rewrite (less_asym k y.2 z.2) in Hzy.
  - left. destruct (less_neg k x.2 y.2 z.2 Hx Hy Hz Hxy) as [|?]; [done|congruence].
  - left. destruct (less_neg k y.2 z.2 x.2 Hy Hz Hx Hyz) as [?|]; [congruence|done].
  - right. split; [|lia]. apply Bool.not_true_iff_false. intros Hzx.
    destruct (less_neg k z.2 x.2 y.2 Hz Hx Hy Hzx) as [?|?]; congruence.
Qed.

Lemma secondary_lt_asym k x y : valid_key k x.2 -> valid_key k y.2 -> secondary_lt k x y ->
  ~ secondary_lt k y x.
Proof.
  intros Hx Hy [Hxy|[Hyx Hp]] [Hyx'|[Hxy' Hq]].
  - by rewrite (less_asym k x.2 y.2) in Hyx'.
  - congruence.
  - congruence.
  - lia.
Qed.

Lemma secondary_lt_total k x y : valid_key k x.2 -> valid_key k y.2 -> x.1 <> y.1 ->
  secondary_lt k x y \/ secondary_lt k y x.
Proof.
  intros Hx Hy Hne. unfold secondary_lt.
  destruct (less k x.2 y.2) eqn:E, (less k y.2 x.2) eqn:E'; auto.
  destruct (Z.lt_trichotomy x.1 y.1) as [?|[?|?]]; auto.
Qed.

Lemma by_secondary_sorted k l : Forall (fun r => valid_key k (value r)) l -> sorted by_primary_less l ->
  sorted (by_secondary_less k) (by_secondary k l).
Proof.
  intros Hv Hsort. induction Hsort as [|r l Hl IH Hr]; [constructor|].
  apply Forall_cons in Hv as [Hvr Hv].
  change (by_secondary k (r :: l)) with (insert_row (by_secondary_less k) r (by_secondary k l)).
  apply (insert_row_sorted _ (fun r => valid_key k (value r))); [|done|..|by apply IH].
  - intros x y z Hx Hy Hz. rewrite !by_secondary_less_spec. intros [?|[? Hxy]] [?|[? Hyz]]; try (left; lia).
    right. split; [lia|]. by eapply (secondary_lt_trans k _ (entry_of y)).
  - by rewrite by_secondary_perm.
  - intros q. rewrite by_secondary_perm. intros Hq.
    rewrite Forall_forall in Hr, Hv. specialize (Hr q Hq). specialize (Hv q Hq).
    rewrite by_primary_less_spec in Hr. rewrite !by_secondary_less_spec.
    destruct Hr as [?|[Ht Hp]]; [left; by left|].
    destruct (secondary_lt_total k (entry_of r) (entry_of q)) as [?|?]; cbn; auto. lia.
Qed.

Lemma secondary_index s k : wf s -> keys_ok s -> ordered_index s k (by_secondary k (objects s k)) (secondary_lt k).
Proof.
  intros Hs Hk. split; [apply by_secondary_perm|..].
  - intros i j r q Hi Hj Hij.
    assert (sorted (by_secondary_less k) (by_secondary k (objects s k))) as Hsort.
    { apply by_secondary_sorted; [|apply (wf_tables _ Hs)]. apply Forall_forall. apply Hk. }
    pose proof (sorted_lookup _ _ _ _ _ _ Hsort Hi Hj Hij) as Hlt.
    rewrite by_secondary_less_spec in Hlt. destruct Hlt as [?|[? ?]]; split; try lia; auto.
  - intros r q Hr Hq. by apply secondary_lt_asym; apply Hk.
Qed.

Lemma secondary_bounds s k tid v : keys_ok s -> valid_key k v ->
  bound_ok s k (secondary_lt k) tid
    (fun r => negb (before_secondary f64_lt f128_lt k tid v r)) (fun e => ~ less k e.2 v = true) /\
  bound_ok s k (secondary_lt k) tid (after_secondary f64_lt f128_lt k tid v) (fun e => less k v e.2 = true).
Proof.
  intros Hk Hv. split; split.
  - intros r Ht. rewrite negb_true_iff, <- Bool.not_true_iff_false, before_secondary_spec. cbn. naive_solver lia.
  - intros r Ht. rewrite negb_true_iff, <- Bool.not_true_iff_false, before_secondary_spec. cbn. naive_solver lia.
  - intros r q Hr Hq Hlt Hn Hqv. apply Hn. cbn in *. pose proof (Hk _ _ Hr). pose proof (Hk _ _ Hq).
    destruct (less_neg k (value q) v (value r)) as [Hqr|?]; try done.
    destruct Hlt as [Hrq|[Hqr' _]]; cbn in *; [|congruence].
    by rewrite (less_asym k (value r) (value q)) in Hqr.
  - intros r Ht. rewrite after_secondary_spec. cbn. naive_solver lia.
  - intros r Ht. rewrite after_secondary_spec. cbn. naive_solver lia.
  - intros r q Hr Hq Hlt Hvr. cbn in *. pose proof (Hk _ _ Hr). pose proof (Hk _ _ Hq).
    destruct (less_neg k v (value r) (value q)) as [?|Hqr]; try done.
    destruct Hlt as [Hrq|[Hqr' _]]; cbn in *; [|congruence].
    by rewrite (less_asym k (value r) (value q)) in Hqr.
Qed.

(** ** The promise of the calls *)

Section spec.
Context (x : action_context) (m : contents) (d : positions) (ret : returned) (m' : contents) (d' : positions).
Abbreviation a := (ContractTables.ret ret).

Definition store_spec (k : table_kind) (sc tb p : Name.name) (pk : Z) (v : list Z) : Prop :=
  p <> no_name /\ m k (receiver x, sc, tb) pk = None /\
  updated m m' k (receiver x, sc, tb) pk (Some (p, v)) /\
  d' k (iterator a) = Some (At (receiver x, sc, tb) pk) /\ kept d d'.

Definition update_spec (k : table_kind) (it : Z) (p : Name.name) (v : list Z) : Prop :=
  exists t pk o, reaches x m d k it t pk o /\
    updated m m' k t pk (Some (if decide (p = no_name) then o.1 else p, v)) /\ kept d d'.

Definition remove_spec (k : table_kind) (it : Z) : Prop :=
  exists t pk o, reaches x m d k it t pk o /\ updated m m' k t pk None /\ d' k it = None /\
    kept_but k it d d' m'.

Definition get_spec (it size : Z) : Prop :=
  exists t pk p v, d keyval it = Some (At t pk) /\ m keyval t pk = Some (p, v) /\
    let n := if size =? 0 then Z.of_nat (length v) else Z.min size (Z.of_nat (length v)) in
    iterator a = n /\ bytes ret = (if size =? 0 then [] else take (Z.to_nat n) v).

(** The order of an index, by its kind: primary tables by primary key,
    secondary tables by secondary key. *)
Definition call_spec (c : call) : Prop :=
  match c with
  | Store sc tb p pk v => store_spec keyval sc tb p pk v
  | Update it p v => update_spec keyval it p v
  | Remove it => remove_spec keyval it
  | Get it size => get_spec it size
  | Next it => next_spec m d d' keyval primary_lt it a
  | Previous it => previous_spec m d d' keyval primary_lt it a
  | Find c sc tb pk =>
      search_spec m d' keyval (c, sc, tb) (fun e => ~ e.1 < pk /\ ~ pk < e.1) primary_lt false false a
  | Lowerbound c sc tb pk =>
      search_spec m d' keyval (c, sc, tb) (fun e => ~ e.1 < pk) primary_lt false false a
  | Upperbound c sc tb pk =>
      search_spec m d' keyval (c, sc, tb) (fun e => pk < e.1) primary_lt false false a
  | End c sc tb => end_spec m d' keyval (c, sc, tb) a
  | IdxStore k sc tb p pk v => store_spec k sc tb p pk v
  | IdxUpdate k it p v => update_spec k it p v
  | IdxRemove k it => remove_spec k it
  | IdxFindSecondary k c sc tb v =>
      search_spec m d' k (c, sc, tb) (fun e => ~ less k e.2 v = true /\ ~ less k v e.2 = true)
        (secondary_lt k) true false a
  | IdxFindPrimary k c sc tb _ pk =>
      search_spec m d' k (c, sc, tb) (fun e => ~ e.1 < pk /\ ~ pk < e.1) primary_lt false true a
  | IdxLowerbound k c sc tb v =>
      search_spec m d' k (c, sc, tb) (fun e => ~ less k e.2 v = true) (secondary_lt k) true true a
  | IdxUpperbound k c sc tb v =>
      search_spec m d' k (c, sc, tb) (fun e => less k v e.2 = true) (secondary_lt k) true true a
  | IdxEnd k c sc tb => end_spec m d' k (c, sc, tb) a
  | IdxNext k it => next_spec m d d' k (secondary_lt k) it a
  | IdxPrevious k it => previous_spec m d d' k (secondary_lt k) it a
  end.

End spec.

Abbreviation call_api x := (call_api x f64_lt f128_lt f64_is_nan f128_is_nan).

Lemma key_check_valid k v : key_ok k v -> key_check f64_is_nan f128_is_nan k v = Ok tt -> valid_key k v.
Proof.
  intros [_ Hl] ([] & Hn & _)%bind_ok_inv. destruct k; cbn; try done.
  - destruct Hl as [|Hl]; [done|]. destruct v as [|b [|? ?]]; try done.
    apply EOS_ASSERT_ok in Hn. bool_to_prop. eauto.
  - destruct Hl as [|Hl]; [done|]. destruct v as [|b [|? ?]]; try done.
    apply EOS_ASSERT_ok in Hn. bool_to_prop. eauto.
Qed.

Lemma stores_keys x s s' k sc tb p pk v it : wf s -> wf s' -> keys_ok s -> valid_key k v ->
  stores x s s' k sc tb p pk v it -> keys_ok s'.
Proof.
  intros Hs Hs' Hk Hv Hst. destruct (stores_rows _ _ _ _ _ _ _ _ _ _ Hst) as (r & _ & _ & _ & <- & _ & _ & Hrows & _).
  intros k' q [[-> ->]|Hq]%Hrows; [done|by apply Hk].
Qed.

Lemma edited_keys s s' k r p v : wf s -> keys_ok s -> valid_key k v -> edited s s' k r p v -> keys_ok s'.
Proof.
  intros Hs Hk Hv He k' q' (q & Hq & ->)%(edited_rows s s' k r p v He). unfold edit, edit_row.
  destruct (decide (k' = k)) as [->|]; [|by apply Hk]. destruct (decide _); [done|by apply Hk].
Qed.

Lemma removed_keys s s' k r u it : wf s -> r ∈ objects s k -> keys_ok s -> removed s s' k r u it -> keys_ok s'.
Proof. intros Hs Hr Hk Hrm k' q [Hq _]%(removed_rows s s' k r u it Hs Hr Hrm). by apply Hk. Qed.

(** The calls that search. *)
Lemma search_call_refines x s c r s' : wf s -> keys_ok s -> call_ok c -> is_search c = true ->
  call_api x s c = Ok (r, s') -> call_spec x (content s) (denote s) r (content s') (denote s') c.
Proof.
  intros Hs Hk Hc Hsc H. unfold ContractTables.call_api in H. apply bind_ok_inv in H as (_ & _ & H).
  assert (forall m (P : returned -> Prop), returns m = Ok (r, s') -> (forall a, m = Ok (a, s') -> P (mk_returned a [])) -> P r) as Hret.
  { intros m P ([a s1] & Hm & [= <- <-])%bind_ok_inv HP. by apply HP. }
  destruct c; try discriminate Hsc; cbn in Hc |- *;
    repeat (apply (bind_ok_inv (A := unit)) in H as ([] & ?Hkc & H));
    try (pattern r; eapply Hret; [exact H|]; intros a; clear H Hret; cbn [ContractTables.ret]).
  - apply bind_ok_inv in H as ([n b] & H & [= <- <-]). unfold db_get_i64 in H.
    apply bind_ok_inv in H as (q & [Hq Hi]%get_object_ok & H); [|done].
    destruct (row_table s keyval q Hs Hq) as [u Hu].
    exists (table_key u), (primary_key q), (payer q), (value q).
    split_and!; [apply denote_At; [done|]; exists q; split_and!; [split; eauto|done..]|
      apply content_Some; [done|]; exists q; split_and!; [split; eauto|done..]|..];
      destruct (_ =? 0); by injection H as <- <-.
  - by apply next_in_refines, primary_index.
  - by apply previous_in_refines, primary_index.
  - apply (find_refines s keyval _ _ Hs (primary_index s keyval Hs)); intros; apply primary_bounds.
  - apply (bound_refines s keyval _ _ Hs (primary_index s keyval Hs)). intros; apply primary_bounds.
  - apply (bound_refines s keyval _ _ Hs (primary_index s keyval Hs)). intros; apply primary_bounds.
  - by apply end_refines.
  - apply (find_refines s k _ _ Hs (secondary_index s k Hs Hk)); intros; by apply secondary_bounds, key_check_valid.
  - apply (find_refines s k _ _ Hs (primary_index s k Hs)); intros; apply primary_bounds.
  - apply (bound_refines s k _ _ Hs (secondary_index s k Hs Hk)). intros; by apply secondary_bounds, key_check_valid.
  - apply (bound_refines s k _ _ Hs (secondary_index s k Hs Hk)). intros; by apply secondary_bounds, key_check_valid.
  - by apply end_refines.
  - by apply next_in_refines, secondary_index.
  - by apply previous_in_refines, secondary_index.
Qed.

Lemma change_call_refines x s c r s' : wf s -> wf s' -> keys_ok s -> call_ok c -> is_search c = false ->
  call_api x s c = Ok (r, s') ->
  keys_ok s' /\ call_spec x (content s) (denote s) r (content s') (denote s') c.
Proof.
  intros Hs Hs' Hk Hc Hsc H. unfold ContractTables.call_api in H. apply bind_ok_inv in H as (_ & _ & H).
  assert (forall k sc tb p pk v it, valid_key k v -> stores x s s' k sc tb p pk v it ->
    keys_ok s' /\ store_spec x (content s) (denote s) (returns_iterator it) (content s') (denote s') k sc tb p pk v)
    as Hstore.
  { intros k sc tb p pk v it Hv Hst. split; [by apply (stores_keys x s s' k sc tb p pk v it)|].
    by apply (stores_refines x s s' k sc tb p pk v it). }
  assert (forall k it p v, valid_key k v ->
    (exists q u, accessed x s k it q u /\ edited s s' k q (if decide (p = no_name) then payer q else p) v) ->
    keys_ok s' /\ update_spec x (content s) (denote s) (content s') (denote s') k it p v) as Hedit.
  { intros k it p v Hv (q & u & Ha & He). split; [by eapply (edited_keys s)|].
    exists (table_key u), (primary_key q), (payer q, value q). split; [by apply accessed_reaches|].
    apply (edited_refines s s' k q u); [done..|apply Ha|apply Ha|done]. }
  assert (forall k it, (exists q u, accessed x s k it q u /\ removed s s' k q u it) ->
    keys_ok s' /\ remove_spec x (content s) (denote s) (content s') (denote s') k it) as Hremove.
  { intros k it (q & u & Ha & Hrm). split; [eapply (removed_keys s); [done|apply Ha|done..]|].
    exists (table_key u), (primary_key q), (payer q, value q). split; [by apply accessed_reaches|].
    apply (removed_refines s s' k q u it); [done..|apply Ha|apply Ha|apply Ha|done]. }
  destruct c; try discriminate Hsc; cbn in Hc |- *.
  - apply bind_ok_inv in H as ([it s1] & H & [= <- <-]). apply Hstore; [done|]. by apply db_store_ok.
  - apply bind_ok_inv in H as (s1 & H & [= _ <-]). apply Hedit; [done|]. by apply db_update_ok.
  - apply bind_ok_inv in H as (s1 & H & [= _ <-]). apply Hremove. by apply db_remove_ok.
  - apply bind_ok_inv in H as ([] & Hkc & H). destruct (key_check_length _ _ _ _ Hc Hkc).
    apply bind_ok_inv in H as ([it s1] & H & [= <- <-]).
    apply Hstore; [by apply key_check_valid|]. by apply index_store_ok.
  - apply bind_ok_inv in H as ([] & Hkc & H). destruct (key_check_length _ _ _ _ Hc Hkc).
    apply bind_ok_inv in H as (s1 & H & [= _ <-]). apply Hedit; [by apply key_check_valid|]. by apply index_update_ok.
  - apply bind_ok_inv in H as (s1 & H & [= _ <-]). apply Hremove. by apply index_remove_ok.
Qed.

(** C7: the database API of contracts does what it promises.  In a well-formed
    state, with keys that are not NaN, a call that succeeds implements its
    specification on the map of entries and the positions of iterators: a
    store adds exactly one entry, whose key was free, in a table of the
    receiver; an update or a removal changes exactly the entry its iterator
    stands for, in a table of the receiver; searches find the first entry of
    the table that satisfies their condition in the order of the primary or
    secondary keys, or its end; moves go to the next or the previous entry; and
    iterators handed out before keep their meaning, except that of the removed
    row and the end of a table that lost its last row. *)
Theorem table_api_refines (x : action_context) (s : state) (c : call) (r : returned) (s' : state) :
  wf s -> capacity s -> keys_ok s -> call_ok c -> call_api x s c = Ok (r, s') -> capacity s' ->
  keys_ok s' /\ call_spec x (content s) (denote s) r (content s') (denote s') c /\
  (is_search c = true -> same (content s) (content s') /\ kept (denote s) (denote s')).
Proof.
  intros Hs Hcap Hk Hc H Hcap'. destruct (is_search c) eqn:E.
  - pose proof (search_call_ok _ _ _ _ _ _ _ _ _ Hs E H) as Hse. split_and!.
    + intros k q. rewrite (se_objects _ _ Hse). apply Hk.
    + by apply search_call_refines.
    + intros _. split; [by apply searched_content|by apply searched_kept].
  - destruct (call_accounted _ _ _ _ _ _ _ _ _ Hs Hcap Hc H Hcap') as [Hs' _].
    destruct (change_call_refines x s c r s') as [? ?]; done.
Qed.

End secondary.

(** The comparison of the sample run is an order. *)
Lemma sample_order : float_order sample_lt sample_nan.
Proof.
  split; unfold sample_lt.
  - intros a b _ _. rewrite Z.ltb_lt, Z.ltb_ge. lia.
  - intros a b c _ _ _. rewrite !Z.ltb_lt. lia.
Qed.

(** The state with three rows, and the move of the iterator of the row with key
    3 to the row with key 7. *)
Definition three_rows : state := after_calls (take 3 sample_calls).

Lemma three_rows_wf : wf three_rows /\ capacity three_rows.
Proof.
  unfold three_rows. assert (rtc (table_step sample_lt sample_lt sample_nan sample_nan) sample_start
    (after_calls (take 3 sample_calls))) as Hrun.
  { apply runs_steps; [|by vm_compute]. apply Forall_take. rewrite <- (app_nil_r sample_calls).
    apply sample_ok. by left. }
  revert Hrun. generalize (after_calls (take 3 sample_calls)). apply rtc_ind_r.
  - apply no_tables_wf, ResourceLimits.two_accounts_inv.
  - intros s1 s2 _ Hst [Hw Hc]. by destruct (step_accounted _ _ _ _ s1 s2 Hw Hc Hst).
Qed.

Lemma three_rows_keys : keys_ok sample_nan sample_nan three_rows.
Proof.
  assert (objects three_rows idx_double = [] /\ objects three_rows idx_long_double = []) as [Hd Hld]
    by (vm_compute; split; reflexivity).
  intros k q Hq. destruct k; try exact I; exfalso;
    [rewrite Hd in Hq|rewrite Hld in Hq]; exact (proj1 (elem_of_nil q) Hq).
Qed.

Lemma table_api_refines_witness : exists s', 
  next_spec (content three_rows) (denote three_rows) (denote s') keyval primary_lt 1
    (mk_answer 0 (Some 7) None) /\
  content three_rows keyval (ResourceLimits.alice, sample_scope, sample_table) 7
    = Some (ResourceLimits.alice, [1; 2; 3]).
Proof.
  destruct (call_api sample_action sample_lt sample_lt sample_nan sample_nan three_rows (Next 1))
    as [[r s']|e] eqn:E; [|vm_compute in E; discriminate E].
  assert (ret r = mk_answer 0 (Some 7) None) as Hr.
  { apply (f_equal (fun o => match o with Ok (r, _) => Some (ret r) | Throw _ => None end)) in E.
    vm_compute in E. injection E as E. exact (eq_sym E). }
  exists s'. split; [|vm_compute; reflexivity]. rewrite <- Hr.
  destruct three_rows_wf as [Hw Hc].
  assert (capacity s') as Hcap'.
  { pose proof (search_call_ok _ _ _ _ _ _ (Next 1) _ _ Hw eq_refl E) as Hse. intros i.
    rewrite (se_objects _ _ Hse). apply Hc. }
  exact (proj1 (proj2 (table_api_refines sample_lt sample_lt sample_nan sample_nan sample_order sample_order
    sample_action three_rows (Next 1) r s' Hw Hc three_rows_keys I E Hcap'))).
Defined.
End TableRefinement.
