(* ===== verification/ActionExecution.v ===== *)
(** * The execution of actions: [exec], [exec_one] and the scheduling of
      actions in libraries/chain/apply_context.cpp and
      libraries/chain/transaction_context.cpp

    Module [ActionExecution] runs the actions of a transaction: the native
    handler and the contract of the receiver, the notifications that contracts
    ask for, their inline actions, and the receipts with their sequence
    numbers.

    A contract is a [program]: it makes calls of the interface of its host and
    goes on with the answers.  Programs come from the WebAssembly code of the
    receiver, which is a parameter; a program is finite, because code that does
    not return is stopped by the deadline of the transaction, and the
    transaction is undone.  What a contract does to tables is the class [Host],
    an interface that [ContractTables] implements.  Times, consoles and traces
    of failed actions are left out. *)

From S2P Require Import Prelude Names Merkle ProducerSchedule Authority AuthorityChecker.
From S2P Require Import ResourceLimits AuthorizationManager AccessLists TableIndex ContractTables.

Module ActionExecution.
Module AM := AuthorizationManager.
Abbreviation name := Name.name.
Abbreviation no_name := (Name.mk_name 0).
Abbreviation digest_type := Merkle.digest_type.

(** ** The interface to the database *)

(** Tables as the execution of actions sees them: the calls of a contract in
    the context of an action, the start of an [apply_context], the check of
    the RAM deltas at the end of an action, the reset of the deltas, and the
    tables of permissions. *)
Class Host (K W Call Ans : Type) := {
  host_call : ContractTables.action_context -> W -> Call -> result (Ans * W);
  host_new_context : W -> W;
  host_check_ram : ContractTables.action_context -> W -> result unit;
  host_finalize_trace : W -> W;
  host_auth : W -> @AM.database K;
}.

(** ** Traces *)

Record account_metadata := mk_metadata {
  recv_sequence : Z;
  auth_sequence : Z;
  code_sequence : Z;
  abi_sequence : Z;
  (** [digest_type()], the hash of no code, is [None] *)
  code_hash : option digest_type;
  last_code_update : Z;
  is_privileged : bool;
  vm_type : Z;
  vm_version : Z;
}.

Definition set_recv_sequence (m : account_metadata) n : account_metadata :=
  mk_metadata n (auth_sequence m) (code_sequence m) (abi_sequence m) (code_hash m)
    (last_code_update m) (is_privileged m) (vm_type m) (vm_version m).
Definition set_auth_sequence (m : account_metadata) n : account_metadata :=
  mk_metadata (recv_sequence m) n (code_sequence m) (abi_sequence m) (code_hash m)
    (last_code_update m) (is_privileged m) (vm_type m) (vm_version m).
Definition set_is_privileged (m : account_metadata) b : account_metadata :=
  mk_metadata (recv_sequence m) (auth_sequence m) (code_sequence m) (abi_sequence m) (code_hash m)
    (last_code_update m) b (vm_type m) (vm_version m).

Record action_receipt := mk_receipt {
  r_receiver : name;
  r_act_digest : digest_type;
  r_global_sequence : Z;
  r_recv_sequence : Z;
  r_auth_sequence : gmap name Z;
  r_code_sequence : Z;
  r_abi_sequence : Z;
}.

Section execution.
Context {K Bytes W Call Ans : Type} `{Countable K} `{Host K W Call Ans}.
Abbreviation action := (@AM.action Bytes).

Record action_trace := mk_trace {
  action_ordinal : Z;
  creator_action_ordinal : Z;
  closest_unnotified_ancestor_action_ordinal : Z;
  receipt : option action_receipt;
  receiver : name;
  act : action;
  context_free : bool;
  return_value : option Bytes;
}.

(** The state of a transaction: its traces and receipt digests, and the
    database with the metadata of the accounts and the global sequence. *)
Record transaction_state := mk_tx {
  action_traces : list action_trace;
  executed_action_receipt_digests : list digest_type;
  global_action_sequence : Z;
  accounts : gmap name account_metadata;
  world : W;
}.

Definition set_traces (t : transaction_state) l : transaction_state :=
  mk_tx l (executed_action_receipt_digests t) (global_action_sequence t) (accounts t) (world t).
Definition set_accounts (t : transaction_state) a : transaction_state :=
  mk_tx (action_traces t) (executed_action_receipt_digests t) (global_action_sequence t) a (world t).
Definition set_world (t : transaction_state) w : transaction_state :=
  mk_tx (action_traces t) (executed_action_receipt_digests t) (global_action_sequence t)
    (accounts t) w.

(** The members of [apply_context]. *)
Record apply_context := mk_apply {
  ctx_receiver : name;
  ctx_act : action;
  ctx_context_free : bool;
  ctx_privileged : bool;
  ctx_action_ordinal : Z;
  first_receiver_action_ordinal : Z;
  notified : list (name * Z);
  inline_actions : list Z;
  cfa_inline_actions : list Z;
  action_return_value : option Bytes;
}.

Definition set_current (x : apply_context) (r : name) (ordinal : Z) : apply_context :=
  mk_apply r (ctx_act x) (ctx_context_free x) (ctx_privileged x) ordinal
    (first_receiver_action_ordinal x) (notified x) (inline_actions x) (cfa_inline_actions x)
    (action_return_value x).
Definition set_act (x : apply_context) (a : action) : apply_context :=
  mk_apply (ctx_receiver x) a (ctx_context_free x) (ctx_privileged x) (ctx_action_ordinal x)
    (first_receiver_action_ordinal x) (notified x) (inline_actions x) (cfa_inline_actions x)
    (action_return_value x).
Definition set_privilege (x : apply_context) (b : bool) : apply_context :=
  mk_apply (ctx_receiver x) (ctx_act x) (ctx_context_free x) b (ctx_action_ordinal x)
    (first_receiver_action_ordinal x) (notified x) (inline_actions x) (cfa_inline_actions x)
    (action_return_value x).
Definition set_return (x : apply_context) (v : option Bytes) : apply_context :=
  mk_apply (ctx_receiver x) (ctx_act x) (ctx_context_free x) (ctx_privileged x)
    (ctx_action_ordinal x) (first_receiver_action_ordinal x) (notified x) (inline_actions x)
    (cfa_inline_actions x) v.
Definition set_scheduled (x : apply_context) (n : list (name * Z)) (i c : list Z) : apply_context :=
  mk_apply (ctx_receiver x) (ctx_act x) (ctx_context_free x) (ctx_privileged x)
    (ctx_action_ordinal x) (first_receiver_action_ordinal x) n i c (action_return_value x).

(** What the code reads through the controller and the transaction. *)
Record controller := mk_controller {
  skip_trx_checks : bool;
  skip_auth_check : bool;
  is_producing_block : bool;
  enforce_whiteblacklist : bool;
  is_read_only : bool;
  access : AccessLists.lists;
  forward_setcode : bool;
  restrict_action_to_self : bool;
  action_return_value_activated : bool;
  ram_restrictions : bool;
  is_ram_billing_in_notify_allowed : bool;
  max_inline_action_depth : nat;
  max_inline_action_size : Z;
  max_nonprivileged_inline_action_size : Z;
  max_action_return_value_size : Z;
  (** [control.pending_block_time() - trx_context.published] *)
  provided_delay : Z;
  auth_control : @AM.control K _ _;
}.

(** ** Contracts *)

(** Scheduling calls return nothing; [wasm_exit] is the end of the program. *)
Inductive program :=
  | Return
  | Fail (e : chain_exception)
  | DbCall (c : Call) (k : Ans -> program)
  | RequireRecipient (recipient : name) (k : program)
  | SendInline (a : action) (k : program)
  | SendContextFreeInline (a : action) (k : program)
  | GetSender (k : name -> program)
  | SetPrivileged (n : name) (b : bool) (k : program)
  | SetActionReturnValue (v : Bytes) (k : program).


(** ** The environment *)

(** Besides the controller: the code of contracts, the handlers of native
    actions, digests and packed sizes, and the unpacking of native actions. *)
Record environment := mk_environment {
  control : controller;
  wasm : digest_type -> name -> action -> program;
  native : name -> option (apply_context -> gmap name account_metadata * W ->
                           result (gmap name account_metadata * W));
  hash_action : action -> digest_type;
  generate_action_digest : action -> option Bytes -> digest_type;
  hash_receipt : action_receipt -> digest_type;
  packed_size : action -> Z;
  data_size : Bytes -> Z;
  as_updateauth : Bytes -> result (@AM.updateauth K);
  as_deleteauth : Bytes -> result AM.deleteauth;
  as_linkauth : Bytes -> result AM.linkauth;
  as_unlinkauth : Bytes -> result AM.unlinkauth;
  as_canceldelay : Bytes -> result AM.canceldelay;
}.

Section operations.
Context (e : environment).
Abbreviation g := (control e).

(** ** Scheduling *)

Definition get_action_trace (t : transaction_state) (ordinal : Z) : result action_trace :=
  EOS_ASSERT ((0 <? ordinal) && (ordinal <=? Z.of_nat (length (action_traces t))))
    transaction_exception;;
  match action_traces t !! Z.to_nat (ordinal - 1) with
  | Some tr => mret tr
  | None => Throw undefined_behaviour
  end.

(** [transaction_context::schedule_action] of an action given by value. *)
Definition schedule_action (t : transaction_state) (a : action) (receiver : name)
    (context_free : bool) (creator ancestor : Z) : Z * transaction_state :=
  let new_action_ordinal := u32 (Z.of_nat (length (action_traces t)) + 1) in
  (new_action_ordinal,
   set_traces t (action_traces t ++
     [mk_trace new_action_ordinal creator ancestor None receiver a context_free None])).

(** [transaction_context::schedule_action] of the action of another trace. *)
Definition schedule_action_of (t : transaction_state) (ordinal : Z) (receiver : name)
    (context_free : bool) (creator ancestor : Z) : result (Z * transaction_state) :=
  tr ← get_action_trace t ordinal;
  mret (schedule_action t (act tr) receiver context_free creator ancestor).

(** The second half of [apply_context::schedule_action]: the pointer to the
    action is renewed. *)
Definition refresh_act (x : apply_context) (t : transaction_state) : result apply_context :=
  tr ← get_action_trace t (ctx_action_ordinal x); mret (set_act x (act tr)).

Definition has_recipient (x : apply_context) (code : name) : bool :=
  existsb (fun p => bool_decide (p.1 = code)) (notified x).

Definition require_recipient (x : apply_context) (t : transaction_state) (recipient : name)
  : result (apply_context * transaction_state) :=
  if has_recipient x recipient then mret (x, t)
  else
    '(ordinal, t) ← schedule_action_of t (ctx_action_ordinal x) recipient false
                      (ctx_action_ordinal x) (first_receiver_action_ordinal x);
    x ← refresh_act x t;
    mret (set_scheduled x (notified x ++ [(recipient, ordinal)]) (inline_actions x)
            (cfa_inline_actions x), t).

Definition account_exists (t : transaction_state) (a : name) : bool :=
  bool_decide (is_Some (accounts t !! a)).

(** ** Inline actions *)

Definition check_inline_size (x : apply_context) (a : action) : result unit :=
  if negb (ctx_privileged x) && is_producing_block g then
    EOS_ASSERT (data_size e (AM.data a) <?
                Z.min (max_inline_action_size g) (max_nonprivileged_inline_action_size g))
      inline_action_too_big_nonprivileged
  else mret tt.

(** One authorization of an inline action: it collects the actors for the
    lists and the authorizations inherited from the parent action. *)
Definition check_inline_auth (x : apply_context) (t : transaction_state)
    (enforce inherit : bool) (s : FlatSet.flat_set * gset Authority.permission_level)
    (auth : Authority.permission_level) : result (FlatSet.flat_set * gset Authority.permission_level) :=
  EOS_ASSERT (account_exists t (Authority.actor auth)) action_validate_exception;;
  p ← AM.find_permission (host_auth (world t)) auth;
  EOS_ASSERT (bool_decide (is_Some p)) action_validate_exception;;
  mret (if enforce then FlatSet.insert (Authority.actor auth) s.1 else s.1,
        if inherit && bool_decide (auth ∈ AM.authorization (ctx_act x))
        then {[auth]} ∪ s.2 else s.2).

Definition inherits_authorizations (x : apply_context) (a : action) : bool :=
  negb (restrict_action_to_self g) && bool_decide (AM.act_account a = ctx_receiver x)
  && bool_decide (ctx_receiver x = AM.act_account (ctx_act x)) && is_producing_block g.

(** The check of the authorizations, and the bypass for actions that a
    contract sends to itself. *)
Definition check_inline_authorization (x : apply_context) (t : transaction_state) (a : action)
    (inherited : gset Authority.permission_level) : result unit :=
  if negb (skip_auth_check g) && negb (ctx_privileged x) then
    match AM.check_authorization (as_updateauth e) (as_deleteauth e) (as_linkauth e)
            (as_unlinkauth e) (as_canceldelay e) (auth_control g) (host_auth (world t)) [a] []
            {[Authority.mk_level (ctx_receiver x) AM.eosio_code_name]} (provided_delay g) false
            (is_read_only g) inherited with
    | Ok _ => mret tt
    | Throw ex =>
        if restrict_action_to_self g || negb (bool_decide (AM.act_account a = ctx_receiver x))
        then Throw ex
        else if is_producing_block g then Throw subjective_block_production_exception
        else mret tt
    end
  else mret tt.

Definition execute_inline (x : apply_context) (t : transaction_state) (a : action)
  : result (apply_context * transaction_state) :=
  EOS_ASSERT (account_exists t (AM.act_account a)) action_validate_exception;;
  let enforce := enforce_whiteblacklist g && is_producing_block g in
  '(actors, inherited) ← foldM (check_inline_auth x t enforce (inherits_authorizations x a))
                           ([], ∅) (AM.authorization a);
  (if enforce then AccessLists.check_actor_list (access g) actors else mret tt);;
  check_inline_size x a;;
  check_inline_authorization x t a inherited;;
  let '(ordinal, t) := schedule_action t a (AM.act_account a) false (ctx_action_ordinal x)
                         (first_receiver_action_ordinal x) in
  x ← refresh_act x t;
  mret (set_scheduled x (notified x) (inline_actions x ++ [ordinal]) (cfa_inline_actions x), t).

Definition execute_context_free_inline (x : apply_context) (t : transaction_state) (a : action)
  : result (apply_context * transaction_state) :=
  EOS_ASSERT (account_exists t (AM.act_account a)) action_validate_exception;;
  EOS_ASSERT (length (AM.authorization a) =? 0)%nat action_validate_exception;;
  check_inline_size x a;;
  let '(ordinal, t) := schedule_action t a (AM.act_account a) true (ctx_action_ordinal x)
                         (first_receiver_action_ordinal x) in
  x ← refresh_act x t;
  mret (set_scheduled x (notified x) (inline_actions x) (cfa_inline_actions x ++ [ordinal]), t).

Definition get_sender (x : apply_context) (t : transaction_state) : result name :=
  tr ← get_action_trace t (ctx_action_ordinal x);
  if 0 <? creator_action_ordinal tr then
    c ← get_action_trace t (creator_action_ordinal tr); mret (receiver c)
  else mret no_name.



(** ** Running a contract *)

(** The part of the context that table operations read. *)
Definition view (x : apply_context) : ContractTables.action_context :=
  ContractTables.mk_action_context (ctx_receiver x) (AM.act_account (ctx_act x))
    (AM.authorization (ctx_act x)) (ctx_privileged x) (ctx_context_free x) (ram_restrictions g)
    (is_ram_billing_in_notify_allowed g).

(** The preconditions [context_aware_check] and [privileged_check]. *)
Definition context_aware_check (x : apply_context) : result unit :=
  EOS_ASSERT (negb (ctx_context_free x)) unaccessible_api.
Definition privileged_check (x : apply_context) : result unit :=
  EOS_ASSERT (ctx_privileged x) unaccessible_api.

(** [db.get<account_metadata_object,by_name>] *)
Definition get_metadata (t : transaction_state) (a : name) : result account_metadata :=
  match accounts t !! a with Some m => mret m | None => Throw not_found_exception end.

Definition set_privileged (t : transaction_state) (n : name) (b : bool) : result transaction_state :=
  m ← get_metadata t n;
  mret (set_accounts t (<[n := set_is_privileged m b]> (accounts t))).

Definition check_packed_size (a : action) : result unit :=
  EOS_ASSERT (packed_size e a <? max_inline_action_size g) inline_action_too_big.

Fixpoint run (p : program) (x : apply_context) (t : transaction_state)
  : result (apply_context * transaction_state) :=
  match p with
  | Return => mret (x, t)
  | Fail ex => Throw ex
  | DbCall c k =>
      '(a, w) ← host_call (view x) (world t) c;
      run (k a) x (set_world t w)
  | RequireRecipient r k =>
      context_aware_check x;;
      '(x, t) ← require_recipient x t r;
      run k x t
  | SendInline a k =>
      context_aware_check x;;
      check_packed_size a;;
      '(x, t) ← execute_inline x t a;
      run k x t
  | SendContextFreeInline a k =>
      context_aware_check x;;
      check_packed_size a;;
      '(x, t) ← execute_context_free_inline x t a;
      run k x t
  | GetSender k =>
      context_aware_check x;;
      s ← get_sender x t;
      run (k s) x t
  | SetPrivileged n b k =>
      context_aware_check x;;
      privileged_check x;;
      t ← set_privileged t n b;
      run k x t
  | SetActionReturnValue v k =>
      context_aware_check x;;
      EOS_ASSERT (data_size e v <=? max_action_return_value_size g) action_return_value_exception;;
      run k (set_return x (Some v)) t
  end.

(** ** One receiver *)

Definition check_lists (x : apply_context) : result unit :=
  if enforce_whiteblacklist g && is_producing_block g then
    AccessLists.check_contract_list (access g) (ctx_receiver x);;
    AccessLists.check_action_list (access g) (AM.act_account (ctx_act x)) (AM.act_name (ctx_act x))
  else mret tt.

(** All handlers are registered for the system account and its actions. *)
Definition find_apply_handler (receiver scope : name) (act_name : name) :=
  if bool_decide (receiver = AM.system_account_name)
     && bool_decide (scope = AM.system_account_name) then native e act_name else None.

Definition apply_native (x : apply_context) (t : transaction_state) : result transaction_state :=
  match find_apply_handler (ctx_receiver x) (AM.act_account (ctx_act x))
          (AM.act_name (ctx_act x)) with
  | Some handler =>
      check_lists x;;
      '(a, w) ← handler x (accounts t, world t);
      mret (set_world (set_accounts t a) w)
  | None => mret t
  end.

Definition setcode_name : name := Eval vm_compute in AM.N "setcode".

Definition is_system_setcode (x : apply_context) : bool :=
  bool_decide (AM.act_account (ctx_act x) = AM.system_account_name)
  && bool_decide (AM.act_name (ctx_act x) = setcode_name)
  && bool_decide (ctx_receiver x = AM.system_account_name).

Definition apply_contract (x : apply_context) (t : transaction_state)
  : result (apply_context * transaction_state) :=
  m ← get_metadata t (ctx_receiver x);
  match code_hash m with
  | Some code =>
      if negb (is_system_setcode x) || forward_setcode g then
        check_lists x;;
        run (wasm e code (ctx_receiver x) (ctx_act x)) x t
      else mret (x, t)
  | None => mret (x, t)
  end.

(** The [try] block of [exec_one]. *)
Definition apply_receiver (x : apply_context) (t : transaction_state)
  : result (apply_context * transaction_state) :=
  let x := set_return x None in
  m ← get_metadata t (ctx_receiver x);
  if ctx_context_free x && skip_trx_checks g then mret (x, t)
  else
    let x := set_privilege x (is_privileged m) in
    t ← apply_native x t;
    '(x, t) ← apply_contract x t;
    host_check_ram (view x) (world t);;
    mret (x, t).

Definition next_global_sequence (t : transaction_state) : Z * transaction_state :=
  let n := u64 (global_action_sequence t + 1) in
  (n, mk_tx (action_traces t) (executed_action_receipt_digests t) n (accounts t) (world t)).

Definition next_recv_sequence (t : transaction_state) (a : name) : result (Z * transaction_state) :=
  m ← get_metadata t a;
  let n := u64 (recv_sequence m + 1) in
  mret (n, set_accounts t (<[a := set_recv_sequence m n]> (accounts t))).

Definition next_auth_sequence (s : gmap name Z * transaction_state)
    (auth : Authority.permission_level) : result (gmap name Z * transaction_state) :=
  let '(r, t) := s in
  let a := Authority.actor auth in
  m ← get_metadata t a;
  let n := u64 (auth_sequence m + 1) in
  mret (<[a := n]> r,
        set_accounts t (<[a := set_auth_sequence m n]> (accounts t))).

(** The rest of [exec_one]: the receipt. *)
Definition make_receipt (x : apply_context) (t : transaction_state) : result transaction_state :=
  let a := ctx_act x in
  let d := if action_return_value_activated g
           then generate_action_digest e a (action_return_value x) else hash_action e a in
  tr ← get_action_trace t (ctx_action_ordinal x);
  let '(global, t) := next_global_sequence t in
  '(recv, t) ← next_recv_sequence t (ctx_receiver x);
  first ← get_metadata t (AM.act_account a);
  '(auths, t) ← foldM next_auth_sequence (∅, t) (AM.authorization a);
  let r := mk_receipt (ctx_receiver x) d global recv auths (code_sequence first)
             (abi_sequence first) in
  let tr := mk_trace (action_ordinal tr) (creator_action_ordinal tr)
              (closest_unnotified_ancestor_action_ordinal tr) (Some r) (receiver tr) (act tr)
              (context_free tr) (action_return_value x) in
  mret (mk_tx (<[Z.to_nat (ctx_action_ordinal x - 1) := tr]> (action_traces t))
          (executed_action_receipt_digests t ++ [hash_receipt e r])
          (global_action_sequence t) (accounts t) (host_finalize_trace (world t))).

Definition exec_one (x : apply_context) (t : transaction_state)
  : result (apply_context * transaction_state) :=
  '(x, t) ← apply_receiver x t;
  t ← make_receipt x t;
  mret (x, t).

(** ** [exec] *)

(** The constructor, and the first notification. *)
Definition new_apply_context (t : transaction_state) (ordinal : Z)
  : result (apply_context * transaction_state) :=
  tr ← get_action_trace t ordinal;
  mret (mk_apply (receiver tr) (act tr) (context_free tr) false ordinal ordinal
          [(receiver tr, ordinal)] [] [] None,
        set_world t (host_new_context (world t))).

(** The loop over the notifications from index [i] on, which can add new
    ones. *)
Fixpoint notify_loop (fuel i : nat) (x : apply_context) (t : transaction_state)
  : result (apply_context * transaction_state) :=
  match notified x !! i with
  | None => mret (x, t)
  | Some (r, ordinal) =>
      match fuel with
      | O => Throw undefined_behaviour
      | S fuel =>
          '(x, t) ← exec_one (set_current x r ordinal) t;
          notify_loop fuel (S i) x t
      end
  end.

(** [exec_one] for the receiver of the action and for the notified accounts.
    The number of accounts bounds the loop: no account is notified twice, and
    one that does not exist ends the loop with an exception. *)
Definition exec_receivers (t : transaction_state) (ordinal : Z)
  : result (apply_context * transaction_state) :=
  '(x, t) ← new_apply_context t ordinal;
  '(x, t) ← exec_one x t;
  notify_loop (S (size (accounts t))) 1 x t.

(** [execute_action] and [exec]; [levels] is max_inline_action_depth minus
    recurse_depth, so that the assertion on the depth is the case of 0. *)
Fixpoint execute_action (levels : nat) (t : transaction_state) (ordinal : Z)
  : result transaction_state :=
  '(x, t) ← exec_receivers t ordinal;
  match levels with
  | O =>
      EOS_ASSERT (negb ((0 <? length (cfa_inline_actions x)) || (0 <? length (inline_actions x)))%nat)
        transaction_exception;;
      mret t
  | S levels =>
      t ← foldM (execute_action levels) t (cfa_inline_actions x);
      foldM (execute_action levels) t (inline_actions x)
  end.

(** [transaction_context::exec] of a transaction without a delay. *)
Definition schedule_original (context_free : bool) (t : transaction_state) (a : action)
  : transaction_state :=
  snd (schedule_action t a (AM.act_account a) context_free 0 0).

Definition exec_transaction (apply_context_free : bool) (context_free_actions actions : list action)
    (t : transaction_state) : result transaction_state :=
  let t := if apply_context_free
           then foldl (schedule_original true) t context_free_actions else t in
  let t := foldl (schedule_original false) t actions in
  foldM (execute_action (max_inline_action_depth g)) t
    (seqZ 1 (Z.of_nat (length (action_traces t)))).

End operations.
End execution.
Arguments action_trace : clear implicits.
Arguments transaction_state : clear implicits.
Arguments apply_context : clear implicits.
Arguments controller K {_ _}.
Arguments program : clear implicits.
Arguments environment K Bytes W Call Ans {_ _}.
End ActionExecution.
