(* ===== verification/ActionOrder.v ===== *)
(** * The order of actions and their receipts

    Theorems about [ActionExecution].  Every action that is scheduled in the
    course of a transaction is executed exactly once; its trace has the ordinal
    of its place, and a creator before it; receipts are numbered without gaps,
    per account too; and the loop over the notifications ends. *)

From S2P Require Import Prelude Names Merkle ProducerSchedule Authority AuthorityChecker.
From S2P Require Import ResourceLimits AuthorizationManager AccessLists TableIndex ContractTables.
From S2P Require Import ActionExecution.
Import ActionExecution.

Module ActionOrder.

Lemma Ok_inj {A} (a b : A) : Ok a = Ok b -> a = b.
Proof. by intros [= ->]. Qed.

Section order.
Context {K Bytes W Call Ans : Type} `{Countable K} `{Host K W Call Ans}.
Abbreviation action := (@AM.action Bytes).
Abbreviation transaction_state := (transaction_state Bytes W).
Abbreviation apply_context := (apply_context Bytes).
Abbreviation action_trace := (action_trace Bytes).
Abbreviation program := (program Bytes Call Ans).
Context (e : environment K Bytes W Call Ans).
Abbreviation g := (control e).

(** ** The steps of a contract *)

(** [tr] is the trace with this ordinal. *)
Definition trace_at (t : transaction_state) (o : Z) (tr : action_trace) : Prop :=
  0 < o /\ action_traces t !! Z.to_nat (o - 1) = Some tr.

(** It has not been executed yet. *)
Definition open (t : transaction_state) (o : Z) : Prop :=
  exists tr, trace_at t o tr /\ receipt tr = None.

Definition trace_count (t : transaction_state) : Z := Z.of_nat (length (action_traces t)).

(** The state with one more trace. *)
Definition with_trace (x : apply_context) (t : transaction_state) (a : action) (r : name) (cf : bool)
  : transaction_state :=
  set_traces t (action_traces t ++
    [mk_trace (trace_count t + 1) (ctx_action_ordinal x) (first_receiver_action_ordinal x) None r a
       cf None]).

(** The sequence numbers of the accounts. *)
Definition same_sequences (a a' : gmap name account_metadata) : Prop := forall n m, a !! n = Some m ->
  exists m', a' !! n = Some m' /\ recv_sequence m' = recv_sequence m /\
    auth_sequence m' = auth_sequence m.

(** What one call of a contract does to the context and the transaction. *)
Inductive host_step : apply_context * transaction_state -> apply_context * transaction_state -> Prop :=
  | hs_notify x t r tr : r ∉ (notified x).*1 -> trace_at t (ctx_action_ordinal x) tr ->
      host_step (x, t)
        (set_scheduled (set_act x (act tr)) (notified x ++ [(r, trace_count t + 1)])
           (inline_actions x) (cfa_inline_actions x), with_trace x t (act tr) r false)
  | hs_inline x t a tr : trace_at t (ctx_action_ordinal x) tr ->
      host_step (x, t)
        (set_scheduled (set_act x (act tr)) (notified x) (inline_actions x ++ [trace_count t + 1])
           (cfa_inline_actions x), with_trace x t a (AM.act_account a) false)
  | hs_cfa_inline x t a tr : trace_at t (ctx_action_ordinal x) tr ->
      host_step (x, t)
        (set_scheduled (set_act x (act tr)) (notified x) (inline_actions x)
           (cfa_inline_actions x ++ [trace_count t + 1]), with_trace x t a (AM.act_account a) true)
  | hs_privilege x t b : host_step (x, t) (set_privilege x b, t)
  | hs_return x t v : host_step (x, t) (set_return x v, t)
  | hs_accounts x t a : same_sequences (accounts t) a -> host_step (x, t) (x, set_accounts t a)
  | hs_world x t w : host_step (x, t) (x, set_world t w).

Lemma get_action_trace_ok t o tr : get_action_trace t o = Ok tr <-> trace_at t o tr.
Proof.
  unfold get_action_trace, trace_at. split.
  - intros H1. apply bind_ok_inv in H1 as ([] & H1 & H2). apply EOS_ASSERT_ok in H1. bool_to_prop.
    destruct (_ !! _) eqn:E; [|done]. injection H2 as <-. split; [lia|done].
  - intros [Ho E]. pose proof (lookup_lt_Some _ _ _ E). rewrite E.
    replace ((0 <? o) && _) with true; [done|]. symmetry. apply andb_true_iff. lia.
Qed.

Lemma trace_at_app t l o tr : trace_at t o tr -> trace_at (set_traces t (action_traces t ++ l)) o tr.
Proof. intros [Ho E]. split; [done|]. cbn. by apply lookup_app_l_Some. Qed.

Lemma trace_at_with x t a r cf o tr : trace_at t o tr -> trace_at (with_trace x t a r cf) o tr.
Proof. apply trace_at_app. Qed.

Definition small (t : transaction_state) : Prop := trace_count t < 2 ^ 32.

Lemma schedule_action_small x t a r cf : trace_count t + 1 < 2 ^ 32 ->
  schedule_action t a r cf (ctx_action_ordinal x) (first_receiver_action_ordinal x)
  = (trace_count t + 1, with_trace x t a r cf).
Proof.
  intros Hs. unfold schedule_action, with_trace. fold (trace_count t).
  rewrite u32_small; [done|]. unfold trace_count in *. lia.
Qed.


(** The traces only grow in number, and as long as they can be counted the
    calls are steps. *)
Definition stepped (c c' : apply_context * transaction_state) : Prop :=
  trace_count c.2 <= trace_count c'.2 /\ (small c'.2 -> rtc host_step c c').

Lemma stepped_refl c : stepped c c.
Proof. split; [lia|constructor]. Qed.

Lemma stepped_trans c c1 c2 : stepped c c1 -> stepped c1 c2 -> stepped c c2.
Proof.
  intros [H1 H2] [H3 H4]. split; [lia|]. intros Hs. etrans; [apply H2|by apply H4].
  unfold small in *. lia.
Qed.

Lemma stepped_same x t x' t' : action_traces t' = action_traces t ->
  host_step (x, t) (x', t') -> stepped (x, t) (x', t').
Proof. intros E Hs. split; [unfold trace_count; cbn; rewrite E; lia|intros _; by apply rtc_once]. Qed.

Lemma with_trace_count x t a r cf : trace_count (with_trace x t a r cf) = trace_count t + 1.
Proof. unfold trace_count. cbn. rewrite length_app. cbn. lia. Qed.

(** Scheduling appends a trace, whatever its ordinal. *)
Lemma scheduled_count t a r cf c o ordinal t' :
  schedule_action t a r cf c o = (ordinal, t') -> trace_count t' = trace_count t + 1.
Proof. unfold schedule_action. intros [= <- <-]. unfold trace_count. cbn. rewrite length_app. cbn. lia. Qed.

Lemma refresh_ok x t x' : refresh_act x t = Ok x' ->
  exists tr, trace_at t (ctx_action_ordinal x) tr /\ x' = set_act x (act tr).
Proof.
  unfold refresh_act. intros H1. apply bind_ok_inv in H1 as (tr & H1 & [= <-]).
  apply get_action_trace_ok in H1. eauto.
Qed.

(** The current trace of a step is not the one that it appends. *)
Lemma trace_at_earlier x t a r cf o tr : trace_at (with_trace x t a r cf) o tr -> o <= trace_count t ->
  trace_at t o tr.
Proof.
  intros [Ho E] Hle. split; [done|]. cbn in E. rewrite lookup_app_l in E; [done|].
  unfold trace_count in Hle. lia.
Qed.

Definition current_ok (x : apply_context) (t : transaction_state) : Prop :=
  ctx_action_ordinal x <= trace_count t.

Lemma require_recipient_stepped x t r x' t' : current_ok x t ->
  require_recipient x t r = Ok (x', t') -> stepped (x, t) (x', t') /\ current_ok x' t'.
Proof.
  intros Hc H1. unfold require_recipient in H1.
  destruct (has_recipient x r) eqn:Er; [injection H1 as <- <-; split; [apply stepped_refl|done]|].
  apply bind_ok_inv in H1 as ([o t1] & H1 & H2). unfold schedule_action_of in H1.
  apply bind_ok_inv in H1 as (tr & H1 & Ho). apply get_action_trace_ok in H1. apply Ok_inj in Ho.
  apply bind_ok_inv in H2 as (x1 & Hx & [= <- <-]).
  apply refresh_ok in Hx as (tr' & Htr' & ->). pose proof (scheduled_count _ _ _ _ _ _ _ _ Ho) as Hn.
  split; [split; [cbn; lia|]|unfold current_ok in *; cbn; lia].
  cbn. intros Hs. rewrite schedule_action_small in Ho by (unfold small in Hs; lia). injection Ho as <- <-.
  pose proof (trace_at_earlier _ _ _ _ _ _ _ Htr' Hc) as Hat.
  assert (tr' = tr) as -> by (destruct Hat as [_ ?], H1 as [_ ?]; congruence).
  apply rtc_once. apply hs_notify; [|done]. intros Hin. unfold has_recipient in Er.
  apply list_elem_of_fmap in Hin as (p & -> & Hp).
  assert (existsb (fun q => bool_decide (q.1 = p.1)) (notified x) = true); [|congruence].
  apply existsb_exists. exists p. split; [by apply list_elem_of_In|by apply bool_decide_eq_true].
Qed.

Lemma execute_inline_stepped x t a x' t' : current_ok x t ->
  execute_inline e x t a = Ok (x', t') -> stepped (x, t) (x', t') /\ current_ok x' t'.
Proof.
  intros Hc H1. unfold execute_inline in H1. apply bind_ok_inv in H1 as ([] & _ & H1).
  apply bind_ok_inv in H1 as ([actors inherited] & _ & H1).
  do 3 apply bind_ok_inv in H1 as ([] & _ & H1).
  destruct (schedule_action _ _ _ _ _ _) as [o t1] eqn:Ho.
  apply bind_ok_inv in H1 as (x1 & Hx & [= <- <-]).
  apply refresh_ok in Hx as (tr' & Htr' & ->). pose proof (scheduled_count _ _ _ _ _ _ _ _ Ho) as Hn.
  split; [split; [cbn; lia|]|unfold current_ok in *; cbn; lia].
  cbn. intros Hs. rewrite schedule_action_small in Ho by (unfold small in Hs; lia). injection Ho as <- <-.
  apply rtc_once, hs_inline. by eapply trace_at_earlier.
Qed.

Lemma execute_cfa_stepped x t a x' t' : current_ok x t ->
  execute_context_free_inline e x t a = Ok (x', t') -> stepped (x, t) (x', t') /\ current_ok x' t'.
Proof.
  intros Hc H1. unfold execute_context_free_inline in H1.
  do 3 apply bind_ok_inv in H1 as ([] & _ & H1).
  destruct (schedule_action _ _ _ _ _ _) as [o t1] eqn:Ho.
  apply bind_ok_inv in H1 as (x1 & Hx & [= <- <-]).
  apply refresh_ok in Hx as (tr' & Htr' & ->). pose proof (scheduled_count _ _ _ _ _ _ _ _ Ho) as Hn.
  split; [split; [cbn; lia|]|unfold current_ok in *; cbn; lia].
  cbn. intros Hs. rewrite schedule_action_small in Ho by (unfold small in Hs; lia). injection Ho as <- <-.
  apply rtc_once, hs_cfa_inline. by eapply trace_at_earlier.
Qed.

Lemma same_sequences_update a n m b : a !! n = Some m ->
  same_sequences a (<[n := set_is_privileged m b]> a).
Proof.
  intros Hm n' m' Hm'. destruct (decide (n' = n)) as [->|Hne].
  - rewrite lookup_insert_eq. eexists. split; [reflexivity|]. by replace m' with m by congruence.
  - rewrite lookup_insert_ne by done. eauto.
Qed.

Lemma run_stepped p x t x' t' : current_ok x t ->
  run e p x t = Ok (x', t') -> stepped (x, t) (x', t') /\ current_ok x' t'.
Proof.
  revert x t. induction p as [| |c k IH|r k IH|a k IH|a k IH|k IH|n b k IH|v k IH]; intros x t Hc H1; cbn in H1.
  - injection H1 as <- <-. split; [apply stepped_refl|done].
  - done.
  - apply bind_ok_inv in H1 as ([a w] & _ & H1). apply IH in H1 as [H1 ?]; [|done].
    split; [|done]. eapply stepped_trans; [|exact H1]. apply stepped_same; [done|constructor].
  - apply bind_ok_inv in H1 as ([] & _ & H1). apply bind_ok_inv in H1 as ([x1 t1] & H1 & H2).
    apply require_recipient_stepped in H1 as [H1 Hc1]; [|done]. apply IH in H2 as [H2 ?]; [|done].
    split; [by eapply stepped_trans|done].
  - do 2 apply bind_ok_inv in H1 as ([] & _ & H1). apply bind_ok_inv in H1 as ([x1 t1] & H1 & H2).
    apply execute_inline_stepped in H1 as [H1 Hc1]; [|done]. apply IH in H2 as [H2 ?]; [|done].
    split; [by eapply stepped_trans|done].
  - do 2 apply bind_ok_inv in H1 as ([] & _ & H1). apply bind_ok_inv in H1 as ([x1 t1] & H1 & H2).
    apply execute_cfa_stepped in H1 as [H1 Hc1]; [|done]. apply IH in H2 as [H2 ?]; [|done].
    split; [by eapply stepped_trans|done].
  - apply bind_ok_inv in H1 as ([] & _ & H1). apply bind_ok_inv in H1 as (s & _ & H1). by apply IH in H1.
  - do 2 apply bind_ok_inv in H1 as ([] & _ & H1). apply bind_ok_inv in H1 as (t1 & Ht & H1).
    unfold set_privileged, get_metadata in Ht. destruct (accounts t !! n) as [m|] eqn:Em; [|done].
    injection Ht as <-. apply IH in H1 as [H1 ?]; [|done]. split; [|done].
    eapply stepped_trans; [|exact H1]. apply stepped_same; [done|]. constructor. by apply same_sequences_update.
  - do 2 apply bind_ok_inv in H1 as ([] & _ & H1). apply IH in H1 as [H1 ?]; [|done]. split; [|done].
    eapply stepped_trans; [|exact H1]. apply stepped_same; [done|constructor].
Qed.

(** Native handlers do not touch the sequence numbers of accounts, and delete
    no account. *)
Definition native_keeps_sequences : Prop := forall n h x a w a' w',
  native e n = Some h -> h x (a, w) = Ok (a', w') -> same_sequences a a'.

Lemma apply_native_stepped x t t' : native_keeps_sequences -> apply_native e x t = Ok t' ->
  stepped (x, t) (x, t') /\ action_traces t' = action_traces t.
Proof.
  intros Hn H1. unfold apply_native, find_apply_handler in H1.
  destruct (_ && _); [|injection H1 as <-; split; [apply stepped_refl|done]].
  destruct (native e _) as [h|] eqn:Eh; [|injection H1 as <-; split; [apply stepped_refl|done]].
  apply bind_ok_inv in H1 as ([] & _ & H1). apply bind_ok_inv in H1 as ([a w] & Hh & [= <-]).
  split; [|done]. eapply stepped_trans; [|apply stepped_same; [|constructor]; done].
  apply stepped_same; [done|]. constructor. by eapply Hn.
Qed.

Lemma apply_receiver_stepped x t x' t' : native_keeps_sequences -> current_ok x t ->
  apply_receiver e x t = Ok (x', t') -> stepped (x, t) (x', t') /\ current_ok x' t'.
Proof.
  intros Hn Hc H1. unfold apply_receiver in H1. apply bind_ok_inv in H1 as (m & _ & H1).
  assert (stepped (x, t) (set_return x None, t)) as Hr by (apply stepped_same; [done|constructor]).
  destruct (_ && _); [injection H1 as <- <-; by split|].
  apply bind_ok_inv in H1 as (t1 & H1 & H2). apply bind_ok_inv in H2 as ([x2 t2] & H2 & H3).
  apply bind_ok_inv in H3 as ([] & _ & [= <- <-]).
  apply apply_native_stepped in H1 as [H1 Et]; [|done].
  assert (stepped (x, t) (set_privilege (set_return x None) (is_privileged m), t1)) as Hs.
  { eapply stepped_trans; [exact Hr|]. eapply stepped_trans; [|exact H1].
    apply stepped_same; [done|constructor]. }
  unfold apply_contract in H2. apply bind_ok_inv in H2 as (m' & _ & H2).
  assert (current_ok (set_privilege (set_return x None) (is_privileged m)) t1) as Hc1.
  { unfold current_ok, trace_count in *. by rewrite Et. }
  destruct (code_hash m') as [code|]; [|by injection H2 as <- <-].
  destruct (_ || _); [|by injection H2 as <- <-]. apply bind_ok_inv in H2 as ([] & _ & H2).
  apply run_stepped in H2 as [H2 ?]; [|done]. split; [by eapply stepped_trans|done].
Qed.

(** ** Contexts *)

Definition scheduled (x : apply_context) : list Z :=
  (notified x).*2 ++ inline_actions x ++ cfa_inline_actions x.

(** The context of an action refers to traces of the transaction. *)
Record ctx_ok (x : apply_context) (t : transaction_state) : Prop := {
  co_current : exists tr, trace_at t (ctx_action_ordinal x) tr /\
    receiver tr = ctx_receiver x /\ act tr = ctx_act x;
  co_first : 0 < first_receiver_action_ordinal x <= ctx_action_ordinal x;
  co_notified r o : (r, o) ∈ notified x -> exists tr, trace_at t o tr /\ receiver tr = r /\
    act tr = ctx_act x /\ first_receiver_action_ordinal x <= o;
  co_inline o : o ∈ inline_actions x ++ cfa_inline_actions x -> exists tr, trace_at t o tr /\
    receiver tr = AM.act_account (act tr);
  co_receivers : NoDup (notified x).*1;
  co_ordinals : NoDup (scheduled x);
}.

(** Every trace has its place as its ordinal; its creator and its closest
    ancestor that is not a notification come before it. *)
Definition traces_ok (t : transaction_state) : Prop := forall o tr, trace_at t o tr ->
  action_ordinal tr = o /\ 0 <= creator_action_ordinal tr < o /\
  0 <= closest_unnotified_ancestor_action_ordinal tr <= creator_action_ordinal tr.

Lemma trace_at_range t o tr : trace_at t o tr -> 0 < o <= trace_count t.
Proof. intros [Ho E]. apply lookup_lt_Some in E. unfold trace_count. lia. Qed.

Lemma trace_at_inj t o tr tr' : trace_at t o tr -> trace_at t o tr' -> tr = tr'.
Proof. intros [_ E] [_ E']. congruence. Qed.

Lemma trace_at_new x t a r cf : trace_at (with_trace x t a r cf) (trace_count t + 1)
  (mk_trace (trace_count t + 1) (ctx_action_ordinal x) (first_receiver_action_ordinal x) None r a cf None).
Proof.
  unfold trace_count. split; [lia|]. cbn. rewrite lookup_app_r by lia.
  replace (Z.to_nat (_ - 1) - length (action_traces t))%nat with 0%nat by lia. done.
Qed.

Lemma trace_at_with_inv x t a r cf o tr : trace_at (with_trace x t a r cf) o tr ->
  trace_at t o tr \/ o = trace_count t + 1 /\ tr = mk_trace (trace_count t + 1)
    (ctx_action_ordinal x) (first_receiver_action_ordinal x) None r a cf None.
Proof.
  intros Hat. pose proof (trace_at_range _ _ _ Hat) as Hr. rewrite with_trace_count in Hr.
  destruct (decide (o <= trace_count t)); [left; by eapply trace_at_earlier|right].
  assert (o = trace_count t + 1) as -> by lia. split; [done|].
  eapply trace_at_inj; [exact Hat|apply trace_at_new].
Qed.

Lemma open_with x t a r cf o : open (with_trace x t a r cf) o <-> open t o \/ o = trace_count t + 1.
Proof.
  unfold open. split.
  - intros (tr & Hat & Hr). apply trace_at_with_inv in Hat as [Hat|[-> ->]]; [left; eauto|by right].
  - intros [(tr & Hat & Hr)| ->]; [exists tr; split; [by apply trace_at_with|done]|].
    eexists. split; [apply trace_at_new|done].
Qed.

Lemma scheduled_range x t o : ctx_ok x t -> o ∈ scheduled x -> 0 < o <= trace_count t.
Proof.
  intros Hx Ho. unfold scheduled in Ho. apply elem_of_app in Ho as [Ho|Ho].
  - apply list_elem_of_fmap in Ho as ([r o'] & -> & Ho).
    destruct (co_notified _ _ Hx _ _ Ho) as (tr & Hat & _). by eapply trace_at_range.
  - destruct (co_inline _ _ Hx _ Ho) as (tr & Hat & _). by eapply trace_at_range.
Qed.

(** [c'] comes from [c] by scheduling the actions [added]. *)
Record grown (c c' : apply_context * transaction_state) : Prop := {
  gr_scheduled : exists nn ni nc,
    notified c'.1 = notified c.1 ++ nn /\ inline_actions c'.1 = inline_actions c.1 ++ ni /\
    cfa_inline_actions c'.1 = cfa_inline_actions c.1 ++ nc /\
    (forall o, open c'.2 o <-> open c.2 o \/ o ∈ nn.*2 ++ ni ++ nc) /\
    (forall o, o ∈ nn.*2 ++ ni ++ nc -> trace_count c.2 < o);
  gr_receiver : ctx_receiver c'.1 = ctx_receiver c.1;
  gr_act : ctx_act c'.1 = ctx_act c.1;
  gr_ordinal : ctx_action_ordinal c'.1 = ctx_action_ordinal c.1;
  gr_first : first_receiver_action_ordinal c'.1 = first_receiver_action_ordinal c.1;
  gr_global : global_action_sequence c'.2 = global_action_sequence c.2;
  gr_digests : executed_action_receipt_digests c'.2 = executed_action_receipt_digests c.2;
  gr_sequences : same_sequences (accounts c.2) (accounts c'.2);
  gr_traces : exists l, action_traces c'.2 = action_traces c.2 ++ l /\ Forall (fun tr => receipt tr = None) l;
}.

Lemma same_sequences_refl a : same_sequences a a.
Proof. intros n m Hm. eauto. Qed.

Lemma same_sequences_trans a b c : same_sequences a b -> same_sequences b c -> same_sequences a c.
Proof.
  intros Hab Hbc n m Hm. destruct (Hab n m Hm) as (m1 & Hm1 & E1 & E2). destruct (Hbc n m1 Hm1) as (m2 & Hm2 & E3 & E4).
  exists m2. split; [done|split; congruence].
Qed.

Lemma grown_count c c' : grown c c' -> trace_count c.2 <= trace_count c'.2.
Proof. intros Hg. destruct (gr_traces _ _ Hg) as (l & E & _). unfold trace_count. rewrite E, length_app. lia. Qed.

(** A call that schedules nothing. *)
Lemma grown_frame x t x' t' : action_traces t' = action_traces t ->
  notified x' = notified x -> inline_actions x' = inline_actions x ->
  cfa_inline_actions x' = cfa_inline_actions x -> ctx_receiver x' = ctx_receiver x ->
  ctx_act x' = ctx_act x -> ctx_action_ordinal x' = ctx_action_ordinal x ->
  first_receiver_action_ordinal x' = first_receiver_action_ordinal x ->
  global_action_sequence t' = global_action_sequence t ->
  executed_action_receipt_digests t' = executed_action_receipt_digests t ->
  same_sequences (accounts t) (accounts t') -> grown (x, t) (x', t').
Proof.
  intros Et E1 E2 E3. split; cbn; try done.
  - exists [], [], []. rewrite !app_nil_r. split_and!; [done..| |].
    + intros o. unfold open, trace_at. rewrite Et. cbn. rewrite list_elem_of_In. cbn. tauto.
    + intros o Ho. by apply not_elem_of_nil in Ho.
  - exists []. by rewrite app_nil_r, Et.
Qed.

Lemma grown_refl c : grown c c.
Proof. destruct c. by apply grown_frame, same_sequences_refl. Qed.

Lemma grown_trans c c1 c2 : grown c c1 -> grown c1 c2 -> grown c c2.
Proof.
  intros Hg1 Hg2. pose proof (grown_count _ _ Hg1) as Hn.
  destruct Hg1 as [(nn & ni & nc & E1 & E2 & E3 & Ho & Hf) A1 A2 A3 A4 A5 A6 A7 (l & El & Hl)].
  destruct Hg2 as [(nn' & ni' & nc' & F1 & F2 & F3 & Ho' & Hf') B1 B2 B3 B4 B5 B6 B7 (l' & El' & Hl')].
  split; [|congruence..|by eapply same_sequences_trans|].
  - exists (nn ++ nn'), (ni ++ ni'), (nc ++ nc'). rewrite F1, F2, F3, E1, E2, E3, !app_assoc.
    split_and!; [done..| |].
    + intros o. rewrite Ho', Ho, fmap_app, !elem_of_app. tauto.
    + intros o. rewrite fmap_app, !elem_of_app. intros Hin.
      assert (o ∈ nn.*2 ++ ni ++ nc \/ o ∈ nn'.*2 ++ ni' ++ nc') as [Hin'|Hin'%Hf']
        by (rewrite !elem_of_app; tauto); [by apply Hf|lia].
  - exists (l ++ l'). rewrite El', El, app_assoc. split; [done|]. by apply Forall_app.
Qed.

(** One more trace, scheduled in one of the three lists. *)
Lemma grown_scheduled x t a r cf nn ni nc : nn.*2 ++ ni ++ nc = [trace_count t + 1] ->
  grown (x, t) (set_scheduled x (notified x ++ nn) (inline_actions x ++ ni)
                  (cfa_inline_actions x ++ nc), with_trace x t a r cf).
Proof.
  intros El. split; cbn; try done.
  - exists nn, ni, nc. split_and!; [done..| |]; rewrite El.
    + intros o. rewrite open_with, list_elem_of_singleton. done.
    + intros o ->%list_elem_of_singleton. lia.
  - apply same_sequences_refl.
  - eexists. split; [reflexivity|]. by repeat constructor.
Qed.

Lemma traces_ok_with x t a r cf : traces_ok t -> ctx_ok x t -> traces_ok (with_trace x t a r cf).
Proof.
  intros Ht Hx o tr Hat. apply trace_at_with_inv in Hat as [Hat|[-> ->]]; [by apply Ht|]. cbn.
  destruct (co_current _ _ Hx) as (tr & Hat & _). pose proof (trace_at_range _ _ _ Hat).
  pose proof (co_first _ _ Hx). lia.
Qed.

(** The three lists of the context after scheduling a trace. *)
Lemma ctx_ok_scheduled x t a r cf nn ni nc : ctx_ok x t ->
  nn.*2 ++ ni ++ nc = [trace_count t + 1] ->
  (forall p, p ∈ nn -> p.1 = r /\ a = ctx_act x /\ r ∉ (notified x).*1) ->
  (forall o, o ∈ ni ++ nc -> r = AM.act_account a) ->
  ctx_ok (set_scheduled x (notified x ++ nn) (inline_actions x ++ ni) (cfa_inline_actions x ++ nc))
    (with_trace x t a r cf).
Proof.
  intros Hx El Hn Hi. pose proof (trace_at_new x t a r cf) as Hnew.
  destruct (co_current _ _ Hx) as (cur & Hcur & Hcr & Hca). pose proof (trace_at_range _ _ _ Hcur) as Hrange.
  pose proof (co_first _ _ Hx) as Hfirst.
  assert (forall o, o ∈ nn.*2 ++ ni ++ nc -> o = trace_count t + 1) as Hadd.
  { intros o. rewrite El. apply list_elem_of_singleton. }
  split; unfold scheduled in *; cbn in *.
  - exists cur. split; [by apply trace_at_with|done].
  - done.
  - intros r' o [Ho|Ho]%elem_of_app.
    + destruct (co_notified _ _ Hx _ _ Ho) as (tr & Hat & ?). exists tr. split; [by apply trace_at_with|done].
    + destruct (Hn _ Ho) as (E & -> & _). cbn in E. subst r'.
      rewrite (Hadd o) by (apply elem_of_app; left; by apply (list_elem_of_fmap_2' snd _ _ _ Ho)).
      eexists. split; [exact Hnew|]. cbn. split_and!; [done..|lia].
  - intros o. rewrite !elem_of_app. intros Ho.
    assert (o ∈ inline_actions x ++ cfa_inline_actions x \/ o ∈ ni ++ nc) as [Hold|Hnw]
      by (rewrite !elem_of_app; tauto).
    + destruct (co_inline _ _ Hx _ Hold) as (tr & Hat & ?). exists tr. split; [by apply trace_at_with|done].
    + rewrite (Hadd o) by (apply elem_of_app; by right). eexists. split; [exact Hnew|]. cbn. by eapply Hi.
  - rewrite fmap_app. apply NoDup_app. split_and!; [apply Hx| |].
    + intros p Hp Hp'. apply list_elem_of_fmap in Hp' as (q & -> & Hq). destruct (Hn _ Hq) as (E & _ & Hno).
      by rewrite E in Hp.
    + destruct nn as [|p [|q nn]]; [constructor|apply NoDup_singleton|]. by cbn in El.
  - rewrite fmap_app. assert ((notified x).*2 ++ inline_actions x ++ cfa_inline_actions x ++
      [trace_count t + 1] ≡ₚ ((notified x).*2 ++ nn.*2) ++ (inline_actions x ++ ni) ++ cfa_inline_actions x ++ nc)
      as <- by (rewrite <- El; solve_Permutation).
    rewrite !app_assoc. apply NoDup_app. rewrite <- app_assoc. split_and!; [apply Hx| |apply NoDup_singleton].
    intros o Ho ->%list_elem_of_singleton. pose proof (scheduled_range _ _ _ Hx Ho). lia.
Qed.

Definition pair_ok (c : apply_context * transaction_state) : Prop := ctx_ok c.1 c.2 /\ traces_ok c.2.

Lemma set_act_same x t tr : ctx_ok x t -> trace_at t (ctx_action_ordinal x) tr -> set_act x (act tr) = x.
Proof.
  intros Hx Hat. destruct (co_current _ _ Hx) as (tr' & Hat' & _ & Ha).
  rewrite (trace_at_inj _ _ _ _ Hat Hat'), Ha. by destruct x.
Qed.

Lemma host_step_ok c c' : pair_ok c -> host_step c c' -> pair_ok c' /\ grown c c'.
Proof.
  intros [Hx Ht] Hs. destruct Hs as [x t r tr Hr Hat|x t a tr Hat|x t a tr Hat|x t b|x t v|x t a Ha|x t w];
    cbn in Hx, Ht.
  - rewrite (set_act_same _ _ _ Hx Hat).
    assert (act tr = ctx_act x) as Ea.
    { destruct (co_current _ _ Hx) as (tr' & Hat' & _ & Ha). by rewrite (trace_at_inj _ _ _ _ Hat Hat'). }
    rewrite <- (app_nil_r (inline_actions x)), <- (app_nil_r (cfa_inline_actions x)).
    split; [split; cbn; [|by apply traces_ok_with]|by apply grown_scheduled].
    apply ctx_ok_scheduled; [done|done| |]; [by intros p ->%list_elem_of_singleton|].
    intros o Ho. by apply not_elem_of_nil in Ho.
  - rewrite (set_act_same _ _ _ Hx Hat).
    rewrite <- (app_nil_r (notified x)), <- (app_nil_r (cfa_inline_actions x)).
    split; [split; cbn; [|by apply traces_ok_with]|by apply grown_scheduled].
    apply ctx_ok_scheduled; [done|done| |done]. intros p Hp. by apply not_elem_of_nil in Hp.
  - rewrite (set_act_same _ _ _ Hx Hat).
    rewrite <- (app_nil_r (notified x)), <- (app_nil_r (inline_actions x)).
    split; [split; cbn; [|by apply traces_ok_with]|by apply grown_scheduled].
    apply ctx_ok_scheduled; [done|done| |done]. intros p Hp. by apply not_elem_of_nil in Hp.
  - split; [split; [by destruct Hx; split|done]|]. apply grown_frame; try done. apply same_sequences_refl.
  - split; [split; [by destruct Hx; split|done]|]. apply grown_frame; try done. apply same_sequences_refl.
  - split; [split; [by destruct Hx; split|done]|]. by apply grown_frame.
  - split; [split; [by destruct Hx; split|done]|]. apply grown_frame; try done. apply same_sequences_refl.
Qed.

Lemma host_steps_ok c c' : pair_ok c -> rtc host_step c c' -> pair_ok c' /\ grown c c'.
Proof.
  intros Hc Hs. revert Hc. induction Hs as [c|c c1 c2 Hs _ IH]; intros Hc; [split; [done|apply grown_refl]|].
  destruct (host_step_ok _ _ Hc Hs) as [Hc1 Hg]. destruct (IH Hc1) as [Hc2 Hg2].
  split; [done|by eapply grown_trans].
Qed.

Lemma ctx_current x t : ctx_ok x t -> current_ok x t.
Proof. intros Hx. destruct (co_current _ _ Hx) as (tr & Hat & _). apply trace_at_range in Hat. unfold current_ok. lia. Qed.

Lemma apply_receiver_ok x t x' t' : native_keeps_sequences -> pair_ok (x, t) ->
  apply_receiver e x t = Ok (x', t') -> small t' -> pair_ok (x', t') /\ grown (x, t) (x', t').
Proof.
  intros Hn Hc H1 Hs. apply apply_receiver_stepped in H1 as [[_ H1] _]; [|done|by apply ctx_current, Hc].
  apply host_steps_ok; [done|by apply H1].
Qed.

(** ** Receipts *)

Definition with_receipt (tr : action_trace) (r : action_receipt) (v : option Bytes) : action_trace :=
  mk_trace (action_ordinal tr) (creator_action_ordinal tr)
    (closest_unnotified_ancestor_action_ordinal tr) (Some r) (receiver tr) (act tr)
    (context_free tr) v.

(** How many authorizations of the action are by [a]. *)
Definition auths_of (a : name) (x : action) : Z :=
  sum_with (fun p => if decide (Authority.actor p = a) then 1 else 0) (AM.authorization x).

Definition receives (a r : name) : Z := if decide (r = a) then 1 else 0.

(** The sequence numbers of the accounts after [k] more receipts and [j] more
    authorizations. *)
Definition advanced (a a' : gmap name account_metadata) (k j : name -> Z) : Prop :=
  forall n m, a !! n = Some m -> exists m', a' !! n = Some m' /\
    u64 (recv_sequence m') = u64 (recv_sequence m + k n) /\
    u64 (auth_sequence m') = u64 (auth_sequence m + j n).

Lemma u64_add_u64 x y : u64 (u64 x + y) = u64 (x + y).
Proof. unfold u64. apply Zplus_mod_idemp_l. Qed.

Lemma next_auths_spec l r (t : transaction_state) r' t' : foldM next_auth_sequence (r, t) l = Ok (r', t') ->
  action_traces t' = action_traces t /\ global_action_sequence t' = global_action_sequence t /\
  executed_action_receipt_digests t' = executed_action_receipt_digests t /\
  dom (accounts t') = dom (accounts t) /\
  forall n m, accounts t !! n = Some m -> exists m', accounts t' !! n = Some m' /\
    recv_sequence m' = recv_sequence m /\
    u64 (auth_sequence m') = u64 (auth_sequence m +
      sum_with (fun p => if decide (Authority.actor p = n) then 1 else 0) l).
Proof.
  revert r t. induction l as [|p l IH]; intros r t H1.
  { injection H1 as <- <-. split_and!; try done. intros n m Hm. exists m. split_and!; [done..|].
    cbn. f_equal. lia. }
  cbn [foldM] in H1. apply bind_ok_inv in H1 as ([r1 t1] & H1 & H2). unfold next_auth_sequence in H1.
  apply bind_ok_inv in H1 as (m0 & Hm0 & [= <- <-]). unfold get_metadata in Hm0.
  destruct (accounts t !! Authority.actor p) as [m1|] eqn:Ea; [|done]. injection Hm0 as ->.
  destruct (IH _ _ H2) as (E1 & E2 & E3 & E4 & E5). cbn in E1, E2, E3, E4, E5.
  split_and!; [done..| |]. { rewrite E4. apply elem_of_dom_2 in Ea. set_solver. }
  intros n m Hm. unfold sum_with. cbn [foldr]. fold (sum_with (fun p => if decide (Authority.actor p = n) then 1 else 0) l).
  destruct (decide (Authority.actor p = n)) as [<-|Hne].
  - destruct (E5 (Authority.actor p) _ (lookup_insert_eq _ _ _)) as (m' & Hm' & F1 & F2).
    exists m'. assert (m = m0) as -> by congruence. split_and!; [done..|]. cbn in F2.
    rewrite F2, u64_add_u64. f_equal. lia.
  - destruct (E5 n m) as (m' & Hm' & F1 & F2); [by rewrite lookup_insert_ne|].
    exists m'. split_and!; [done..|]. by rewrite F2.
Qed.

Lemma next_recv_spec (t : transaction_state) a n t' : next_recv_sequence t a = Ok (n, t') ->
  action_traces t' = action_traces t /\ global_action_sequence t' = global_action_sequence t /\
  executed_action_receipt_digests t' = executed_action_receipt_digests t /\
  is_Some (accounts t !! a) /\ dom (accounts t') = dom (accounts t) /\
  advanced (accounts t) (accounts t') (fun n => receives n a) (fun _ => 0).
Proof.
  unfold next_recv_sequence, get_metadata. intros H1. apply bind_ok_inv in H1 as (m & Hm & [= <- <-]).
  destruct (accounts t !! a) as [m'|] eqn:Ea; [|done]. injection Hm as ->.
  split_and!; try done. { cbn. apply elem_of_dom_2 in Ea. set_solver. }
  intros b mb Hb. cbn. unfold receives. destruct (decide (a = b)) as [<-|Hne].
  - rewrite lookup_insert_eq. eexists. split; [reflexivity|]. cbn.
    assert (mb = m) as -> by congruence. rewrite Z.add_0_r. split; [|done].
    apply u64_small, u64_range.
  - rewrite lookup_insert_ne by done. exists mb. rewrite !Z.add_0_r. done.
Qed.

Lemma make_receipt_spec x t t' tr : make_receipt e x t = Ok t' ->
  trace_at t (ctx_action_ordinal x) tr -> exists r,
    action_traces t' = <[Z.to_nat (ctx_action_ordinal x - 1) :=
      with_receipt tr r (action_return_value x)]> (action_traces t) /\
    executed_action_receipt_digests t' = executed_action_receipt_digests t ++ [hash_receipt e r] /\
    r_global_sequence r = u64 (global_action_sequence t + 1) /\
    global_action_sequence t' = u64 (global_action_sequence t + 1) /\
    r_receiver r = ctx_receiver x /\ is_Some (accounts t !! ctx_receiver x) /\
    dom (accounts t') = dom (accounts t) /\
    advanced (accounts t) (accounts t') (fun n => receives n (ctx_receiver x))
      (fun n => auths_of n (ctx_act x)).
Proof.
  intros H1 Hat. unfold make_receipt in H1. apply bind_ok_inv in H1 as (tr' & Htr & H1).
  apply get_action_trace_ok in Htr. rewrite (trace_at_inj _ _ _ _ Htr Hat) in H1. clear tr' Htr.
  destruct (next_global_sequence t) as [gs t1] eqn:Eg. injection Eg as <- <-.
  apply bind_ok_inv in H1 as ([recv t2] & Hr & H1). apply next_recv_spec in Hr as (E1 & E2 & E3 & Hin & Hd & Hadv).
  apply bind_ok_inv in H1 as (first & _ & H1). apply bind_ok_inv in H1 as ([auths t3] & Ha & [= <-]).
  apply next_auths_spec in Ha as (F1 & F2 & F3 & F4 & F5). cbn in *.
  eexists. split_and!; [by rewrite F1, E1|by rewrite F3, E3|done|by rewrite F2, E2|done|done|congruence|].
  intros n m Hm. destruct (Hadv n m Hm) as (m1 & Hm1 & A1 & A2), (F5 n m1 Hm1) as (m2 & Hm2 & B1 & B2).
  exists m2. split_and!; [done|by rewrite B1|]. rewrite B2. fold (auths_of n (ctx_act x)).
  rewrite <- u64_add_u64, A2, u64_add_u64. f_equal. lia.
Qed.

(** ** The books of a transaction *)

(** A sum over the traces that have been executed. *)
Definition executed_weight (f : action_trace -> Z) (tr : action_trace) : Z :=
  match receipt tr with Some _ => f tr | None => 0 end.
Definition executed_sum (f : action_trace -> Z) (t : transaction_state) : Z :=
  sum_with (executed_weight f) (action_traces t).

(** Since [t0] the receipts [rs] were made, in this order. *)
Definition receipts_made (t0 t : transaction_state) (rs : list action_receipt) : Prop :=
  rs ≡ₚ omap receipt (action_traces t) /\
  executed_action_receipt_digests t = executed_action_receipt_digests t0 ++ (hash_receipt e <$> rs) /\
  r_global_sequence <$> rs
    = (fun i : nat => u64 (global_action_sequence t0 + Z.of_nat i)) <$> seq 1 (length rs) /\
  u64 (global_action_sequence t) = u64 (global_action_sequence t0 + Z.of_nat (length rs)).

Record books (t0 t : transaction_state) : Prop := {
  bk_receipts : exists rs, receipts_made t0 t rs;
  bk_accounts : advanced (accounts t0) (accounts t)
    (fun n => executed_sum (fun tr => receives n (receiver tr)) t)
    (fun n => executed_sum (fun tr => auths_of n (act tr)) t);
  bk_receivers o tr r : trace_at t o tr -> receipt tr = Some r -> r_receiver r = receiver tr;
}.

Lemma executed_sum_app f t l : Forall (fun tr => receipt tr = None) l ->
  sum_with (executed_weight f) (action_traces t ++ l) = executed_sum f t.
Proof.
  intros Hl. rewrite sum_with_app. unfold executed_sum. enough (sum_with (executed_weight f) l = 0) by lia.
  unfold sum_with. induction Hl as [|tr l Htr _ IH]; [done|]. cbn [foldr]. unfold executed_weight at 1.
  rewrite Htr. lia.
Qed.

Lemma books_grown t0 c c' : books t0 c.2 -> grown c c' -> books t0 c'.2.
Proof.
  intros [(rs & R1 & R2 & R3 & R4) Ha Hr] Hg. destruct (gr_traces _ _ Hg) as (l & El & Hl).
  assert (omap receipt l = []) as Eo by (clear El; induction Hl as [|tr l Htr _ IH]; cbn; [done|by rewrite Htr]).
  split.
  - exists rs. unfold receipts_made. rewrite El, omap_app, Eo, app_nil_r, (gr_digests _ _ Hg), (gr_global _ _ Hg). done.
  - intros n m Hm. destruct (Ha n m Hm) as (m1 & Hm1 & A1 & A2).
    destruct (gr_sequences _ _ Hg n m1 Hm1) as (m2 & Hm2 & B1 & B2). exists m2.
    unfold executed_sum. rewrite El, !executed_sum_app, B1, B2 by done. done.
  - intros o tr r [Ho Hat] Hrc. rewrite El in Hat. apply lookup_app_Some in Hat as [Hat|[_ Hat]].
    + by apply (Hr o).
    + apply list_elem_of_lookup_2 in Hat. rewrite Forall_forall in Hl. rewrite (Hl _ Hat) in Hrc. done.
Qed.

(** ** One receipt more *)

Section receipt.
Context (t t' : transaction_state) (cur : Z) (tr : action_trace) (r : action_receipt) (v : option Bytes).
Hypothesis Hat : trace_at t cur tr.
Hypothesis Hnone : receipt tr = None.
Hypothesis Et : action_traces t' = <[Z.to_nat (cur - 1) := with_receipt tr r v]> (action_traces t).

Lemma receipt_trace_at o tr' : trace_at t' o tr' <->
  o <> cur /\ trace_at t o tr' \/ o = cur /\ tr' = with_receipt tr r v.
Proof using Hat Et.
  destruct Hat as [Hc Hl]. pose proof (lookup_lt_Some _ _ _ Hl) as Hlt. unfold trace_at. rewrite Et.
  destruct (decide (o = cur)) as [->|Hne].
  - rewrite list_lookup_insert_eq by done. split; [intros [_ [= <-]]; by right|].
    intros [[? _]|[_ ->]]; [done|by split].
  - split.
    + intros [Ho E]. rewrite list_lookup_insert_ne in E by lia. left. by split.
    + intros [[_ [Ho E]]|[? _]]; [|done]. split; [done|]. by rewrite list_lookup_insert_ne by lia.
Qed.

Lemma receipt_open o : open t' o <-> open t o /\ o <> cur.
Proof using Hat Et.
  unfold open. split.
  - intros (tr' & Ht' & Hn). apply receipt_trace_at in Ht' as [[Hne Ht']|[-> ->]]; [|done]. split; [eauto|done].
  - intros [(tr' & Ht' & Hn) Hne]. exists tr'. split; [|done]. apply receipt_trace_at. by left.
Qed.

Lemma receipt_traces_ok : traces_ok t -> traces_ok t'.
Proof using Hat Et.
  intros Ht o tr' Ht'. apply receipt_trace_at in Ht' as [[_ Ht']|[-> ->]]; [by apply Ht|]. cbn. by apply Ht.
Qed.

Lemma receipt_sum f : (f (with_receipt tr r v) = f tr) -> executed_sum f t' = executed_sum f t + f tr.
Proof using Hat Et Hnone.
  intros Hf. unfold executed_sum. rewrite Et. destruct Hat as [_ Hl].
  rewrite insert_take_drop by (by eapply lookup_lt_Some). rewrite <- (take_drop_middle _ _ _ Hl) at 3.
  rewrite !sum_with_app. unfold sum_with. cbn [foldr]. unfold executed_weight at 2 5. rewrite Hnone. cbn [receipt with_receipt].
  lia.
Qed.

Lemma receipt_omap : omap receipt (action_traces t') ≡ₚ omap receipt (action_traces t) ++ [r].
Proof using Hat Et Hnone.
  rewrite Et. destruct Hat as [_ Hl]. rewrite insert_take_drop by (by eapply lookup_lt_Some).
  rewrite <- (take_drop_middle _ _ _ Hl) at 3. rewrite !omap_app. cbn. rewrite Hnone. cbn.
  solve_Permutation.
Qed.

End receipt.

(** The traces of [t] are in [t'], with the same receivers and actions. *)
Definition keeps_shape (t t' : transaction_state) : Prop := forall o tr, trace_at t o tr ->
  exists tr', trace_at t' o tr' /\ receiver tr' = receiver tr /\ act tr' = act tr.

Lemma keeps_shape_trans t t1 t2 : keeps_shape t t1 -> keeps_shape t1 t2 -> keeps_shape t t2.
Proof.
  intros Ha Hb o tr Htr. destruct (Ha o tr Htr) as (tr1 & Htr1 & E1 & E2).
  destruct (Hb o tr1 Htr1) as (tr2 & Htr2 & E3 & E4). exists tr2. split; [done|split; congruence].
Qed.

Lemma shape_count t t' : keeps_shape t t' -> trace_count t <= trace_count t'.
Proof.
  intros Hsh. unfold trace_count.
  destruct (decide (length (action_traces t) = 0)%nat) as [E|E]; [lia|].
  destruct (lookup_lt_is_Some_2 (action_traces t) (length (action_traces t) - 1)) as [tr Htr]; [lia|].
  destruct (Hsh (Z.of_nat (length (action_traces t))) tr) as (tr' & [_ Htr'] & _).
  { split; [lia|]. replace (Z.to_nat _) with (length (action_traces t) - 1)%nat by lia. done. }
  apply lookup_lt_Some in Htr'. lia.
Qed.

Lemma grown_shape c c' : grown c c' -> keeps_shape c.2 c'.2.
Proof.
  intros Hg o tr [Ho E]. destruct (gr_traces _ _ Hg) as (l & El & _). exists tr. split; [|done].
  split; [done|]. rewrite El. by apply lookup_app_l_Some.
Qed.

Lemma receipt_shape t t' cur tr r v : trace_at t cur tr ->
  action_traces t' = <[Z.to_nat (cur - 1) := with_receipt tr r v]> (action_traces t) -> keeps_shape t t'.
Proof.
  intros Hat Et o tr' Htr'. destruct (decide (o = cur)) as [->|Hne].
  - rewrite (trace_at_inj _ _ _ _ Htr' Hat). exists (with_receipt tr r v). split; [|done].
    apply (receipt_trace_at t t' cur tr r v Hat Et). by right.
  - exists tr'. split; [|done]. apply (receipt_trace_at t t' cur tr r v Hat Et). by left.
Qed.

Lemma ctx_ok_shape x t t' : keeps_shape t t' -> ctx_ok x t -> ctx_ok x t'.
Proof.
  intros Hs Hx. split; try apply Hx.
  - destruct (co_current _ _ Hx) as (tr & Hat & E1 & E2), (Hs _ _ Hat) as (tr' & Hat' & F1 & F2).
    exists tr'. split; [done|split; congruence].
  - intros r o Ho. destruct (co_notified _ _ Hx _ _ Ho) as (tr & Hat & E1 & E2 & E3), (Hs _ _ Hat) as (tr' & Hat' & F1 & F2).
    exists tr'. split_and!; [done|congruence|congruence|done].
  - intros o Ho. destruct (co_inline _ _ Hx _ Ho) as (tr & Hat & E1), (Hs _ _ Hat) as (tr' & Hat' & F1 & F2).
    exists tr'. split; [done|congruence].
Qed.

Lemma make_receipt_ok t0 x t t' : make_receipt e x t = Ok t' -> pair_ok (x, t) -> books t0 t ->
  open t (ctx_action_ordinal x) ->
  pair_ok (x, t') /\ books t0 t' /\ (forall o, open t' o <-> open t o /\ o <> ctx_action_ordinal x) /\
  keeps_shape t t' /\ trace_count t' = trace_count t /\ dom (accounts t') = dom (accounts t) /\
  is_Some (accounts t !! ctx_receiver x).
Proof.
  intros H1 [Hx Ht] Hb (tr & Hat & Hnone). cbn in Hx, Ht.
  destruct (make_receipt_spec _ _ _ _ H1 Hat) as (r & Et & Ed & Eg & Eg' & Er & Hin & Hdom & Hadv).
  destruct (co_current _ _ Hx) as (tr' & Hat' & Hrec & Hact). rewrite <- (trace_at_inj _ _ _ _ Hat Hat') in *.
  pose proof (receipt_shape _ _ _ _ _ _ Hat Et) as Hshape.
  split_and!; try done.
  - split; [by eapply ctx_ok_shape|by apply (receipt_traces_ok _ _ _ _ _ _ Hat Et)].
  - destruct Hb as [(rs & R1 & R2 & R3 & R4) Ha Hr]. split.
    + exists (rs ++ [r]). split_and!.
      * rewrite (receipt_omap _ _ _ _ _ _ Hat Hnone Et). by rewrite R1.
      * by rewrite Ed, R2, fmap_app, app_assoc.
      * rewrite fmap_app, R3, length_app, seq_app, fmap_app. cbn. rewrite Eg, <- (u64_add_u64 (global_action_sequence t)), R4, u64_add_u64.
        do 3 f_equal. lia.
      * rewrite Eg', <- (u64_add_u64 (global_action_sequence t)), R4, u64_add_u64, length_app. cbn.
        rewrite (u64_small (u64 _)) by apply u64_range. f_equal. lia.
    + intros n m Hm. destruct (Ha n m Hm) as (m1 & Hm1 & A1 & A2), (Hadv n m1 Hm1) as (m2 & Hm2 & B1 & B2).
      exists m2. split; [done|]. rewrite !(receipt_sum _ _ _ _ _ _ Hat Hnone Et) by done.
      rewrite B1, B2, <- u64_add_u64, A1, u64_add_u64, <- (u64_add_u64 (auth_sequence m1)), A2, u64_add_u64, Hrec, Hact.
      by rewrite !Z.add_assoc.
    + intros o tr2 r2 Ht2 Hr2. apply (receipt_trace_at t t' _ tr r _ Hat Et) in Ht2 as [[_ Ht2]|[-> ->]]; [by apply (Hr o)|].
      cbn in Hr2. injection Hr2 as <-. cbn. congruence.
  - by apply (receipt_open _ _ _ _ _ _ Hat Et).
  - unfold trace_count. by rewrite Et, length_insert.
Qed.

(** ** Receivers of an action *)

Lemma exec_one_ok t0 x t x' t' : native_keeps_sequences -> pair_ok (x, t) -> books t0 t ->
  open t (ctx_action_ordinal x) -> exec_one e x t = Ok (x', t') -> small t' ->
  pair_ok (x', t') /\ books t0 t' /\ keeps_shape t t' /\
  exists nn ni nc,
    notified x' = notified x ++ nn /\ inline_actions x' = inline_actions x ++ ni /\
    cfa_inline_actions x' = cfa_inline_actions x ++ nc /\
    (forall o, open t' o <-> (open t o \/ o ∈ nn.*2 ++ ni ++ nc) /\ o <> ctx_action_ordinal x) /\
    (forall o, o ∈ nn.*2 ++ ni ++ nc -> trace_count t < o).
Proof.
  intros Hn Hok Hb Ho H1 Hs. unfold exec_one in H1. apply bind_ok_inv in H1 as ([x1 t1] & H1 & H2).
  apply bind_ok_inv in H2 as (t2 & H2 & [= <- <-]).
  assert (trace_count t2 = trace_count t1) as En.
  { pose proof H2 as H3. unfold make_receipt in H3. apply bind_ok_inv in H3 as (tr & Htr & _).
    apply get_action_trace_ok in Htr. destruct (make_receipt_spec _ _ _ _ H2 Htr) as (r & Et & _).
    unfold trace_count. by rewrite Et, length_insert. }
  apply apply_receiver_ok in H1 as [Hok1 Hg]; [|done|done|unfold small in *; lia].
  pose proof (books_grown t0 (x, t) (x1, t1) Hb Hg) as Hb1. pose proof (grown_shape _ _ Hg) as Hsh.
  destruct (gr_scheduled _ _ Hg) as (nn & ni & nc & E1 & E2 & E3 & Hopen & Hfresh).
  pose proof (gr_ordinal _ _ Hg) as Eo. cbn in *.
  apply (make_receipt_ok t0) in H2 as (Hok2 & Hb2 & Hopen2 & Hsh2 & _); [|done..|rewrite Eo; apply Hopen; by left].
  split_and!; [done..|by eapply keeps_shape_trans|]. exists nn, ni, nc. split_and!; try done.
  intros o. by rewrite Hopen2, Hopen, Eo.
Qed.

(** The scheduled actions that are left when the notifications before [i]
    have been executed. *)
Definition work (i : nat) (x : apply_context) : list Z :=
  drop i (notified x).*2 ++ inline_actions x ++ cfa_inline_actions x.

(** Besides the work of the context only the actions of [base] are open,
    which were scheduled among the first [n0]. *)
Record loop_ok (t0 : transaction_state) (base : Z -> Prop) (n0 : Z) (i : nat) (x : apply_context)
    (t : transaction_state) : Prop := {
  lp_ok : pair_ok (x, t);
  lp_books : books t0 t;
  lp_open o : open t o <-> base o \/ o ∈ work i x;
  lp_base o : base o -> o <= n0 /\ o ∉ scheduled x;
  lp_count : n0 <= trace_count t;
}.

Lemma ctx_ok_current x t r o : ctx_ok x t -> (r, o) ∈ notified x -> ctx_ok (set_current x r o) t.
Proof.
  intros Hx Hin. destruct (co_notified _ _ Hx _ _ Hin) as (tr & Hat & Hr & Ha & Hf).
  split; try apply Hx; cbn.
  - exists tr. done.
  - pose proof (co_first _ _ Hx). cbn. lia.
Qed.

Lemma loop_step t0 base n0 i x t r o x' t' : native_keeps_sequences -> loop_ok t0 base n0 i x t ->
  notified x !! i = Some (r, o) -> exec_one e (set_current x r o) t = Ok (x', t') -> small t' ->
  loop_ok t0 base n0 (S i) x' t' /\ keeps_shape t t' /\ exists nn, notified x' = notified x ++ nn.
Proof.
  intros Hn [[Hx Ht] Hb Hopen Hbase Hcnt] Hi H1 Hs. cbn in Hx, Ht.
  assert ((notified x).*2 !! i = Some o) as Hi2 by (rewrite list_lookup_fmap, Hi; done).
  assert (work i x = o :: work (S i) x) as Ew by (unfold work; by rewrite (drop_S _ _ _ Hi2)).
  pose proof (list_elem_of_lookup_2 _ _ _ Hi) as Hin.
  assert (o ∈ scheduled x /\ o ∉ work (S i) x) as [Hos Hnw].
  { pose proof (co_ordinals _ _ Hx) as Hnd. unfold scheduled in *.
    split; [apply elem_of_app; left; by eapply list_elem_of_lookup_2|].
    rewrite <- (take_drop i (notified x).*2), <- app_assoc in Hnd.
    change (drop i (notified x).*2 ++ inline_actions x ++ cfa_inline_actions x) with (work i x) in Hnd.
    apply NoDup_app in Hnd as (_ & _ & Hnd). rewrite Ew in Hnd. by inversion Hnd. }
  pose proof (scheduled_range _ _ _ Hx Hos) as Hor.
  apply (exec_one_ok t0) in H1 as (Hok' & Hb' & Hsh & nn & ni & nc & E1 & E2 & E3 & Ho' & Hf); try done;
    [|split; [by apply ctx_ok_current|done]|cbn; apply Hopen; right; rewrite Ew; left].
  cbn in E1, E2, E3, Ho'.
  assert (forall z, z ∈ work (S i) x' <-> z ∈ work (S i) x \/ z ∈ nn.*2 ++ ni ++ nc) as Hw.
  { intros z. unfold work. rewrite E1, E2, E3, fmap_app, drop_app_le, !elem_of_app; [tauto|].
    apply lookup_lt_Some in Hi2. lia. }
  split; [|split; [done|by exists nn]]. split; [done|done| | |].
  - intros z. rewrite Ho', Hopen, Hw, Ew, elem_of_cons. split; [tauto|].
    intros [Hz|[Hz|Hz]].
    + destruct (Hbase _ Hz). split; [tauto|]. intros ->. done.
    + split; [tauto|]. intros ->. done.
    + specialize (Hf _ Hz). split; [tauto|]. intros ->. lia.
  - intros z Hz. destruct (Hbase _ Hz) as [Hle Hnot]. split; [done|]. intros Hsc.
    assert (z ∈ scheduled x \/ z ∈ nn.*2 ++ ni ++ nc) as [?|Hz'%Hf]; [|done|lia].
    unfold scheduled in *. rewrite E1, E2, E3, fmap_app, !elem_of_app in Hsc. rewrite !elem_of_app. tauto.
  - pose proof (shape_count _ _ Hsh). lia.
Qed.

(** ** Traces are only added *)

Lemma scheduling_count x t x' t' a r cf c o ordinal t1 :
  schedule_action t a r cf c o = (ordinal, t1) -> refresh_act x t1 = Ok x' -> t' = t1 ->
  trace_count t <= trace_count t'.
Proof. intros H1 _ ->. apply scheduled_count in H1. lia. Qed.

Lemma run_count p x t x' t' : run e p x t = Ok (x', t') -> trace_count t <= trace_count t'.
Proof.
  revert x t. induction p as [| |c k IH|r k IH|a k IH|a k IH|k IH|n b k IH|v k IH]; intros x t H1; cbn in H1.
  - by injection H1 as <- <-.
  - done.
  - apply bind_ok_inv in H1 as ([a w] & _ & H1). by apply IH in H1.
  - apply bind_ok_inv in H1 as ([] & _ & H1). apply bind_ok_inv in H1 as ([x1 t1] & H1 & H2).
    apply IH in H2. etrans; [|exact H2]. unfold require_recipient in H1.
    destruct (has_recipient x r); [by injection H1 as <- <-|].
    apply bind_ok_inv in H1 as ([o t2] & H1 & H3). apply bind_ok_inv in H1 as (tr & _ & H1). apply Ok_inj in H1.
    apply bind_ok_inv in H3 as (x2 & Hx & [= <- <-]). by eapply scheduling_count.
  - do 2 apply bind_ok_inv in H1 as ([] & _ & H1). apply bind_ok_inv in H1 as ([x1 t1] & H1 & H2).
    apply IH in H2. etrans; [|exact H2]. unfold execute_inline in H1. apply bind_ok_inv in H1 as ([] & _ & H1).
    apply bind_ok_inv in H1 as ([actors inherited] & _ & H1). do 3 apply bind_ok_inv in H1 as ([] & _ & H1).
    destruct (schedule_action _ _ _ _ _ _) as [o t2] eqn:Ho.
    apply bind_ok_inv in H1 as (x2 & Hx & [= <- <-]). by eapply scheduling_count.
  - do 2 apply bind_ok_inv in H1 as ([] & _ & H1). apply bind_ok_inv in H1 as ([x1 t1] & H1 & H2).
    apply IH in H2. etrans; [|exact H2]. unfold execute_context_free_inline in H1.
    do 3 apply bind_ok_inv in H1 as ([] & _ & H1).
    destruct (schedule_action _ _ _ _ _ _) as [o t2] eqn:Ho.
    apply bind_ok_inv in H1 as (x2 & Hx & [= <- <-]). by eapply scheduling_count.
  - apply bind_ok_inv in H1 as ([] & _ & H1). apply bind_ok_inv in H1 as (s & _ & H1). by apply IH in H1.
  - do 2 apply bind_ok_inv in H1 as ([] & _ & H1). apply bind_ok_inv in H1 as (t1 & Ht & H1).
    apply bind_ok_inv in Ht as (m & _ & [= <-]). by apply IH in H1.
  - do 2 apply bind_ok_inv in H1 as ([] & _ & H1). by apply IH in H1.
Qed.

Lemma apply_native_traces x t t' : apply_native e x t = Ok t' -> action_traces t' = action_traces t.
Proof.
  unfold apply_native. intros H1. destruct (find_apply_handler _ _ _ _); [|by injection H1 as <-].
  apply bind_ok_inv in H1 as ([] & _ & H1). by apply bind_ok_inv in H1 as ([a w] & _ & [= <-]).
Qed.

Lemma exec_one_count x t x' t' : exec_one e x t = Ok (x', t') -> trace_count t <= trace_count t'.
Proof.
  intros H1. unfold exec_one in H1. apply bind_ok_inv in H1 as ([x1 t1] & H1 & H2).
  apply bind_ok_inv in H2 as (t2 & H2 & [= <- <-]). etrans.
  - unfold apply_receiver in H1. apply bind_ok_inv in H1 as (m & _ & H1).
    destruct (_ && _); [by injection H1 as <- <-|].
    apply bind_ok_inv in H1 as (t3 & H1 & H3). apply bind_ok_inv in H3 as ([x4 t4] & H3 & H4).
    apply bind_ok_inv in H4 as ([] & _ & [= <- <-]). apply apply_native_traces in H1.
    unfold trace_count at 1. rewrite <- H1. fold (trace_count t3).
    unfold apply_contract in H3. apply bind_ok_inv in H3 as (m' & _ & H3).
    destruct (code_hash m'); [|by injection H3 as <- <-]. destruct (_ || _); [|by injection H3 as <- <-].
    apply bind_ok_inv in H3 as ([] & _ & H3). by apply run_count in H3.
  - pose proof H2 as H3. unfold make_receipt in H3. apply bind_ok_inv in H3 as (tr & Htr & _).
    apply get_action_trace_ok in Htr. destruct (make_receipt_spec _ _ _ _ H2 Htr) as (r & Et & _).
    unfold trace_count. by rewrite Et, length_insert.
Qed.

Lemma notify_loop_count fuel i x t x' t' : notify_loop e fuel i x t = Ok (x', t') ->
  trace_count t <= trace_count t'.
Proof.
  revert i x t. induction fuel as [|fuel IH]; intros i x t H1; cbn [notify_loop] in H1;
    (destruct (notified x !! i) as [[r o]|]; [|by injection H1 as <- <-]); [done|].
  apply bind_ok_inv in H1 as ([x1 t1] & H1 & H2). apply exec_one_count in H1. apply IH in H2. lia.
Qed.

Lemma exec_receivers_count t o x t' : exec_receivers e t o = Ok (x, t') -> trace_count t <= trace_count t'.
Proof.
  unfold exec_receivers. intros H1. apply bind_ok_inv in H1 as ([x0 t1] & H1 & H2).
  apply bind_ok_inv in H1 as (tr & _ & [= <- <-]). apply bind_ok_inv in H2 as ([x2 t2] & H2 & H3).
  apply exec_one_count in H2. apply notify_loop_count in H3. unfold trace_count in *. cbn in *. lia.
Qed.

Lemma foldM_count (f : transaction_state -> Z -> result transaction_state) l t t' :
  (forall t o t', f t o = Ok t' -> trace_count t <= trace_count t') ->
  foldM f t l = Ok t' -> trace_count t <= trace_count t'.
Proof.
  intros Hf. revert t. induction l as [|o l IH]; intros t H1; cbn [foldM] in H1; [by injection H1 as <-|].
  apply bind_ok_inv in H1 as (t1 & H1 & H2). apply Hf in H1. apply IH in H2. lia.
Qed.

Lemma execute_action_count levels t o t' : execute_action e levels t o = Ok t' ->
  trace_count t <= trace_count t'.
Proof.
  revert t o t'. induction levels as [|levels IH]; intros t o t' H1; cbn [execute_action] in H1;
    apply bind_ok_inv in H1 as ([x t1] & H1 & H2); apply exec_receivers_count in H1.
  - apply bind_ok_inv in H2 as ([] & _ & [= <-]). done.
  - apply bind_ok_inv in H2 as (t2 & H2 & H3).
    apply foldM_count in H2; [|done]. apply foldM_count in H3; [|done]. lia.
Qed.

(** ** Execution *)

Lemma notify_loop_ok t0 base n0 fuel i x t x' t' : native_keeps_sequences ->
  loop_ok t0 base n0 i x t -> notify_loop e fuel i x t = Ok (x', t') -> small t' ->
  exists i', loop_ok t0 base n0 i' x' t' /\ (length (notified x') <= i')%nat /\ keeps_shape t t'.
Proof.
  intros Hn. revert i x t. induction fuel as [|fuel IH]; intros i x t Hl H1 Hs; cbn [notify_loop] in H1;
    (destruct (notified x !! i) as [[r o]|] eqn:Ei;
     [|injection H1 as <- <-; apply lookup_ge_None in Ei; exists i; split_and!; [done|done|by intros ? ? ?; eauto]]);
    [done|].
  apply bind_ok_inv in H1 as ([x1 t1] & H1 & H2).
  pose proof (notify_loop_count _ _ _ _ _ _ H2) as Hle.
  destruct (loop_step _ _ _ _ _ _ _ _ _ _ Hn Hl Ei H1) as (Hl1 & Hsh & _); [unfold small in *; lia|].
  destruct (IH _ _ _ Hl1 H2 Hs) as (i' & Hl' & Hi' & Hsh'). exists i'. split_and!; [done..|].
  by eapply keeps_shape_trans.
Qed.

Definition new_context_of (tr : action_trace) (o : Z) : apply_context :=
  mk_apply (receiver tr) (act tr) (context_free tr) false o o [(receiver tr, o)] [] [] None.

Lemma new_context_loop t0 t o tr : traces_ok t -> books t0 t -> trace_at t o tr -> receipt tr = None ->
  loop_ok t0 (fun z => open t z /\ z <> o) (trace_count t) 0 (new_context_of tr o)
    (set_world t (host_new_context (world t))).
Proof.
  intros Ht Hb Hat Hr. pose proof (trace_at_range _ _ _ Hat) as Hrange.
  split; [split; [split|]|..]; unfold new_context_of, scheduled, work; cbn.
  - by exists tr.
  - lia.
  - intros r z [= -> ->]%list_elem_of_singleton. exists tr. split_and!; [done..|lia].
  - intros z Hz. by apply not_elem_of_nil in Hz.
  - apply NoDup_singleton.
  - apply NoDup_singleton.
  - done.
  - by destruct Hb.
  - intros z. rewrite list_elem_of_singleton. split; [|intros [[Hz _]| ->]; [done|by exists tr]].
    intros Hz. destruct (decide (z = o)); [by right|by left].
  - intros z [(tr' & Hz & _) Hne]. split; [apply trace_at_range in Hz; lia|by intros ->%list_elem_of_singleton].
  - done.
Qed.

Lemma exec_receivers_ok t0 t o x t' : native_keeps_sequences -> traces_ok t -> books t0 t -> open t o ->
  exec_receivers e t o = Ok (x, t') -> small t' ->
  traces_ok t' /\ books t0 t' /\ keeps_shape t t' /\
  NoDup (cfa_inline_actions x ++ inline_actions x) /\
  (forall z, open t z -> z <> o -> z ∉ cfa_inline_actions x ++ inline_actions x) /\
  forall z, open t' z <-> open t z /\ z <> o \/ z ∈ cfa_inline_actions x ++ inline_actions x.
Proof.
  intros Hn Ht Hb (tr & Hat & Hr) H1 Hs. unfold exec_receivers in H1.
  apply bind_ok_inv in H1 as ([x0 t1] & H1 & H2). apply bind_ok_inv in H1 as (tr' & Htr & H1).
  apply get_action_trace_ok in Htr. rewrite (trace_at_inj _ _ _ _ Htr Hat) in H1. clear tr' Htr.
  apply Ok_inj in H1. injection H1 as <- <-. apply bind_ok_inv in H2 as ([x2 t2] & H2 & H3).
  pose proof (notify_loop_count _ _ _ _ _ _ H3) as Hle.
  destruct (loop_step t0 _ _ 0 (new_context_of tr o) (set_world t (host_new_context (world t)))
    (receiver tr) o x2 t2 Hn (new_context_loop _ _ _ _ Ht Hb Hat Hr) eq_refl H2) as (Hl & Hsh & _);
    [unfold small in *; lia|].
  destruct (notify_loop_ok _ _ _ _ _ _ _ _ _ Hn Hl H3 Hs) as (i & [[Hx Ht'] Hb' Hopen Hbase _] & Hi & Hsh').
  cbn in Hx, Ht'.
  assert (keeps_shape t t') as Hsh2.
  { eapply keeps_shape_trans; [|exact Hsh']. exact Hsh. }
  assert (NoDup (cfa_inline_actions x ++ inline_actions x)) as Hnd.
  { pose proof (co_ordinals _ _ Hx) as Hnd. unfold scheduled in Hnd. apply NoDup_app in Hnd as (_ & _ & Hnd).
    by rewrite (Permutation_app_comm (cfa_inline_actions x)). }
  split_and!; try done.
  - intros z Hz Hne Hin. destruct (Hbase z) as [_ Hno]; [done|]. apply Hno. unfold scheduled.
    apply elem_of_app. right. by rewrite (Permutation_app_comm (inline_actions x)).
  - intros z. rewrite Hopen. unfold work. rewrite drop_ge by (by rewrite length_fmap). cbn [app].
    by rewrite (Permutation_app_comm (inline_actions x)).
Qed.

(** What executing the actions [l] does. *)
Definition executes (t0 : transaction_state) (f : transaction_state -> result transaction_state)
    (l : list Z) : Prop := forall t t', traces_ok t -> books t0 t -> (forall o, o ∈ l -> open t o) ->
  f t = Ok t' -> small t' ->
  traces_ok t' /\ books t0 t' /\ keeps_shape t t' /\ forall z, open t' z <-> open t z /\ z ∉ l.

Lemma keeps_shape_refl t : keeps_shape t t.
Proof. intros o tr Hat. eauto. Qed.

Lemma foldM_executes t0 f l : NoDup l -> (forall o, executes t0 (fun t => f t o) [o]) ->
  (forall t o t', f t o = Ok t' -> trace_count t <= trace_count t') ->
  executes t0 (fun t => foldM f t l) l.
Proof.
  intros Hl Hf Hc. induction Hl as [|o l Ho Hl IH]; intros t t' Ht Hb Hopen H1 Hs; cbn [foldM] in H1.
  { injection H1 as <-. split_and!; [done..|apply keeps_shape_refl|]. intros z. rewrite list_elem_of_In. cbn. tauto. }
  apply bind_ok_inv in H1 as (t1 & H1 & H2). pose proof (foldM_count _ _ _ _ Hc H2) as Hle.
  destruct (Hf o t t1 Ht Hb) as (Ht1 & Hb1 & Hsh1 & Ho1); [by intros z ->%list_elem_of_singleton; apply Hopen; left|done|unfold small in *; lia|].
  destruct (IH t1 t' Ht1 Hb1) as (Ht2 & Hb2 & Hsh2 & Ho2); [|done|done|].
  { intros z Hz. apply Ho1. split; [apply Hopen; by right|]. intros ->%list_elem_of_singleton. done. }
  split_and!; [done..|by eapply keeps_shape_trans|]. intros z. rewrite Ho2, Ho1, list_elem_of_singleton, elem_of_cons. tauto.
Qed.

Lemma execute_action_executes t0 levels o : native_keeps_sequences ->
  executes t0 (fun t => execute_action e levels t o) [o].
Proof.
  intros Hn. revert o. induction levels as [|levels IH]; intros o t t' Ht Hb Hopen H1 Hs;
    cbn [execute_action] in H1; apply bind_ok_inv in H1 as ([x t1] & H1 & H2).
  - apply bind_ok_inv in H2 as ([] & Ha & [= <-]). apply EOS_ASSERT_ok in Ha.
    destruct (cfa_inline_actions x) eqn:E1; [|done]. destruct (inline_actions x) eqn:E2; [|done].
    apply (exec_receivers_ok t0) in H1 as (Ht1 & Hb1 & Hsh1 & _ & _ & Ho1); [|done..|apply Hopen; left|done].
    split_and!; [done..|]. intros z. rewrite Ho1, E1, E2, list_elem_of_singleton, list_elem_of_In. cbn. tauto.
  - apply bind_ok_inv in H2 as (t2 & H2 & H3).
    pose proof (foldM_count _ _ _ _ (fun t o t' => execute_action_count levels t o t') H3) as L3.
    pose proof (foldM_count _ _ _ _ (fun t o t' => execute_action_count levels t o t') H2) as L2.
    apply (exec_receivers_ok t0) in H1 as (Ht1 & Hb1 & Hsh1 & Hnd & Hd & Ho1); [|done..|apply Hopen; left|unfold small in *; lia].
    apply NoDup_app in Hnd as (Nc & Nd & Ni).
    destruct (foldM_executes t0 _ _ Nc (fun o => IH o) (fun t o t' => execute_action_count levels t o t')
      t1 t2 Ht1 Hb1) as (Ht2 & Hb2 & Hsh2 & Ho2); [|done|unfold small in *; lia|].
    { intros z Hz. apply Ho1. right. apply elem_of_app. by left. }
    destruct (foldM_executes t0 _ _ Ni (fun o => IH o) (fun t o t' => execute_action_count levels t o t')
      t2 t' Ht2 Hb2) as (Ht3 & Hb3 & Hsh3 & Ho3); [|done|done|].
    { intros z Hz. apply Ho2. split; [apply Ho1; right; apply elem_of_app; by right|]. intros Hz'. by apply (Nd z). }
    split_and!; [done..| |].
    { eapply keeps_shape_trans; [exact Hsh1|]. by eapply keeps_shape_trans. }
    intros z. specialize (Hd z). rewrite Ho3, Ho2, Ho1, list_elem_of_singleton. rewrite elem_of_app in *. tauto.
Qed.

(** ** Transactions *)

Lemma schedule_original_count cf t a : trace_count (schedule_original cf t a) = trace_count t + 1.
Proof. unfold schedule_original, trace_count. cbn. rewrite length_app. cbn. lia. Qed.

Lemma schedule_originals_count cf l t :
  trace_count (foldl (schedule_original cf) t l) = trace_count t + Z.of_nat (length l).
Proof.
  revert t. induction l as [|a l IH]; intros t; cbn [foldl length]; [lia|].
  rewrite IH, schedule_original_count. lia.
Qed.

Definition original_trace (o : Z) (cf : bool) (a : action) : action_trace :=
  mk_trace o 0 0 None (AM.act_account a) a cf None.

Lemma schedule_original_small cf t a : trace_count t + 1 < 2 ^ 32 ->
  schedule_original cf t a
  = set_traces t (action_traces t ++ [original_trace (trace_count t + 1) cf a]).
Proof.
  intros Hs. unfold schedule_original, schedule_action. fold (trace_count t). cbn [snd].
  rewrite u32_small; [done|]. unfold trace_count in *. lia.
Qed.

(** A transaction whose actions are scheduled and not executed. *)
Record waiting (t0 t : transaction_state) (acts : list action) : Prop := {
  wt_traces : traces_ok t;
  wt_books : books t0 t;
  wt_none o tr : trace_at t o tr -> receipt tr = None;
  wt_acts : act <$> action_traces t = acts;
  wt_receivers : Forall (fun tr => receiver tr = AM.act_account (act tr)) (action_traces t);
}.

Lemma waiting_schedule t0 t acts cf a : trace_count t + 1 < 2 ^ 32 -> waiting t0 t acts ->
  waiting t0 (schedule_original cf t a) (acts ++ [a]).
Proof.
  intros Hs [Ht Hb Hn Ha Hr]. rewrite schedule_original_small by done.
  set (new := original_trace _ _ _). set (t1 := set_traces _ _).
  assert (forall o tr, trace_at t1 o tr -> trace_at t o tr \/ o = trace_count t + 1 /\ tr = new) as Hinv.
  { intros o tr [Ho E]. cbn in E. apply lookup_app_Some in E as [E|[Hle E]]; [by left; split|right].
    apply list_lookup_singleton_Some in E as [E <-]. unfold trace_count. split; [lia|done]. }
  split.
  - intros o tr Hat. apply Hinv in Hat as [Hat|[-> ->]]; [by apply Ht|]. cbn. unfold trace_count. lia.
  - destruct Hb as [(rs & R1 & R2 & R3 & R4) Hacc Hrec]. split.
    + exists rs. split_and!; try done. cbn. rewrite omap_app. cbn. by rewrite app_nil_r.
    + assert (forall f, executed_sum f t1 = executed_sum f t) as Es
        by (intros f; apply executed_sum_app; by repeat constructor).
      intros n m Hm. rewrite !Es. by apply Hacc.
    + intros o tr r Hat. apply Hinv in Hat as [Hat|[-> ->]]; [by apply (Hrec o)|done].
  - intros o tr Hat. apply Hinv in Hat as [Hat|[-> ->]]; [by apply (Hn o)|done].
  - cbn. by rewrite fmap_app, Ha.
  - cbn. apply Forall_app. by repeat constructor.
Qed.

Lemma waiting_schedules t0 l t acts cf : trace_count t + Z.of_nat (length l) < 2 ^ 32 ->
  waiting t0 t acts -> waiting t0 (foldl (schedule_original cf) t l) (acts ++ l).
Proof.
  revert t acts. induction l as [|a l IH]; intros t acts Hs Hw; cbn [foldl length] in *; [by rewrite app_nil_r|].
  rewrite cons_middle, app_assoc. apply IH; [rewrite schedule_original_count; lia|].
  apply waiting_schedule; [lia|done].
Qed.

Lemma waiting_start t : action_traces t = [] -> waiting t t [].
Proof.
  intros E. assert (forall o tr, ~ trace_at t o tr) as Hno by (intros o tr [_ Hl]; by rewrite E in Hl).
  split; [intros ? ? ?; by exfalso; eapply Hno| |intros ? ? ?; by exfalso; eapply Hno|by rewrite E|by rewrite E].
  split.
  - exists []. split_and!; [by rewrite E|by rewrite app_nil_r|done|]. cbn. by rewrite Z.add_0_r.
  - intros n m Hm. exists m. unfold executed_sum. rewrite E. cbn. by rewrite !Z.add_0_r.
  - intros o tr r Hat. by exfalso; eapply Hno.
Qed.

Definition original_actions (cf : bool) (context_free_actions actions : list action) : list action :=
  (if cf then context_free_actions else []) ++ actions.

(** The traces after a transaction. *)
Record completed (t0 t : transaction_state) (acts : list action) : Prop := {
  cp_traces : traces_ok t;
  cp_books : books t0 t;
  cp_executed o tr : trace_at t o tr -> exists r, receipt tr = Some r /\ r_receiver r = receiver tr;
  cp_original i a : acts !! i = Some a -> exists tr, trace_at t (Z.of_nat i + 1) tr /\ act tr = a /\
    receiver tr = AM.act_account a;
}.

Lemma exec_transaction_completed cf cfas acts t0 t' : native_keeps_sequences -> action_traces t0 = [] ->
  exec_transaction e cf cfas acts t0 = Ok t' -> small t' ->
  completed t0 t' (original_actions cf cfas acts).
Proof.
  intros Hn Hnil H1 Hs. unfold exec_transaction in H1.
  set (ta := if cf then _ else _) in H1. set (t := foldl _ ta _) in H1.
  pose proof (foldM_count _ _ _ _ (fun t o t' => execute_action_count (max_inline_action_depth (control e)) t o t') H1) as Hle.
  assert (waiting t0 t (original_actions cf cfas acts)) as Hw.
  { assert (trace_count t0 = 0) as Hz by (unfold trace_count; by rewrite Hnil).
    assert (trace_count t = trace_count ta + Z.of_nat (length acts)) as Et by apply schedule_originals_count.
    apply waiting_schedules; [unfold small in Hs; lia|]. unfold ta. destruct cf; [|by apply waiting_start].
    apply (waiting_schedules _ _ _ []); [|by apply waiting_start].
    assert (trace_count ta = trace_count t0 + Z.of_nat (length cfas)) by apply schedule_originals_count.
    unfold small in Hs. lia. }
  destruct (foldM_executes t0 _ (seqZ 1 (trace_count t)) (NoDup_seqZ _ _)
    (fun o => execute_action_executes t0 (max_inline_action_depth (control e)) o Hn)
    (fun t o t' => execute_action_count (max_inline_action_depth (control e)) t o t') t t'
    (wt_traces _ _ _ Hw) (wt_books _ _ _ Hw)) as (Ht & Hb & Hsh & Ho); [|done|done|].
  { intros o Hin. apply elem_of_seqZ in Hin. unfold trace_count in Hin.
    destruct (lookup_lt_is_Some_2 (action_traces t) (Z.to_nat (o - 1))) as [tr Htr]; [lia|].
    exists tr. assert (trace_at t o tr) as Hat by (split; [lia|done]). split; [done|]. by apply (wt_none _ _ _ Hw o). }
  split; [done|done| |].
  - intros o tr Hat. destruct (receipt tr) as [r|] eqn:Er.
    + exists r. split; [done|]. by apply (bk_receivers _ _ Hb o).
    + exfalso. destruct (proj1 (Ho o)) as [(tr' & Hat' & _) Hnin]; [by exists tr|].
      apply Hnin, elem_of_seqZ. apply trace_at_range in Hat'. lia.
  - intros i a Hi. rewrite <- (wt_acts _ _ _ Hw), list_lookup_fmap in Hi.
    destruct (action_traces t !! i) as [tr|] eqn:Etr; [|done]. injection Hi as <-.
    destruct (Hsh (Z.of_nat i + 1) tr) as (tr' & Hat' & E1 & E2).
    { split; [lia|]. replace (Z.to_nat _) with i by lia. done. }
    exists tr'. split_and!; [done..|]. rewrite E1. pose proof (wt_receivers _ _ _ Hw) as Hr.
    rewrite Forall_forall in Hr. by apply Hr, (list_elem_of_lookup_2 _ i).
Qed.

End order.
End ActionOrder.
