(* ===== verification/TransactionExecution.v ===== *)
(** * The execution of a transaction

    Theorems about the whole of [transaction_context::exec]: the loop over the
    notifications of an action ends, every action of a transaction is executed,
    and its receipts are numbered in the order in which they are made.  The
    proofs are in [ActionOrder]. *)

From S2P Require Import Prelude Names Merkle ProducerSchedule Authority AuthorityChecker.
From S2P Require Import ResourceLimits AuthorizationManager AccessLists TableIndex ContractTables.
From S2P Require Import AuthActions ActionExecution ActionOrder TableSearch.
Import ActionExecution ActionOrder.

Module TransactionExecution.

Section execution.
Context {K Bytes W Call Ans : Type} `{Countable K} `{Host K W Call Ans}.
Abbreviation action := (@AM.action Bytes).
Abbreviation transaction_state := (transaction_state Bytes W).
Abbreviation apply_context := (apply_context Bytes).
Abbreviation action_trace := (action_trace Bytes).
Context (e : environment K Bytes W Call Ans).

(** ** Notifications end *)

Lemma run_dom p x t x' t' : run e p x t = Ok (x', t') -> dom (accounts t') = dom (accounts t).
Proof.
  revert x t. induction p as [| |c k IH|r k IH|a k IH|a k IH|k IH|n b k IH|v k IH]; intros x t H1; cbn in H1.
  - by injection H1 as <- <-.
  - done.
  - apply bind_ok_inv in H1 as ([a w] & _ & H1). by apply IH in H1.
  - apply bind_ok_inv in H1 as ([] & _ & H1). apply bind_ok_inv in H1 as ([x1 t1] & H1 & H2).
    apply IH in H2. rewrite H2. unfold require_recipient in H1.
    destruct (has_recipient x r); [by injection H1 as <- <-|].
    apply bind_ok_inv in H1 as ([o t2] & H1 & H3). apply bind_ok_inv in H1 as (tr & _ & [= <- <-]).
    by apply bind_ok_inv in H3 as (x2 & Hx & [= <- <-]).
  - do 2 apply bind_ok_inv in H1 as ([] & _ & H1). apply bind_ok_inv in H1 as ([x1 t1] & H1 & H2).
    apply IH in H2. rewrite H2. unfold execute_inline in H1. apply bind_ok_inv in H1 as ([] & _ & H1).
    apply bind_ok_inv in H1 as ([actors inherited] & _ & H1). do 3 apply bind_ok_inv in H1 as ([] & _ & H1).
    by apply bind_ok_inv in H1 as (x2 & Hx & [= <- <-]).
  - do 2 apply bind_ok_inv in H1 as ([] & _ & H1). apply bind_ok_inv in H1 as ([x1 t1] & H1 & H2).
    apply IH in H2. rewrite H2. unfold execute_context_free_inline in H1.
    do 3 apply bind_ok_inv in H1 as ([] & _ & H1).
    by apply bind_ok_inv in H1 as (x2 & Hx & [= <- <-]).
  - apply bind_ok_inv in H1 as ([] & _ & H1). apply bind_ok_inv in H1 as (s & _ & H1). by apply IH in H1.
  - do 2 apply bind_ok_inv in H1 as ([] & _ & H1). apply bind_ok_inv in H1 as (t1 & Ht & H1).
    apply IH in H1. rewrite H1. unfold set_privileged, get_metadata in Ht.
    destruct (accounts t !! n) as [m|] eqn:Em; [|done]. injection Ht as <-. cbn.
    apply elem_of_dom_2 in Em. set_solver.
  - do 2 apply bind_ok_inv in H1 as ([] & _ & H1). by apply IH in H1.
Qed.

Lemma make_receipt_dom x t t' : make_receipt e x t = Ok t' -> dom (accounts t') = dom (accounts t).
Proof.
  intros H2. pose proof H2 as H3. unfold make_receipt in H3. apply bind_ok_inv in H3 as (tr & Htr & _).
  apply get_action_trace_ok in Htr.
  by destruct (make_receipt_spec _ _ _ _ _ H2 Htr) as (r & _ & _ & _ & _ & _ & _ & Hd & _).
Qed.

(** Only a native handler changes which accounts there are. *)
Lemma exec_one_accounts x t x' t' : exec_one e x t = Ok (x', t') ->
  ctx_receiver x ∈ dom (accounts t) /\
  (dom (accounts t') = dom (accounts t) \/
   exists b t1, apply_native e (set_privilege (set_return x None) b) t = Ok t1 /\
     dom (accounts t') = dom (accounts t1)).
Proof.
  intros H1. unfold exec_one in H1. apply bind_ok_inv in H1 as ([x1 t1] & H1 & H2).
  apply bind_ok_inv in H2 as (t2 & H2 & [= <- <-]). rewrite (make_receipt_dom _ _ _ H2).
  unfold apply_receiver in H1. apply bind_ok_inv in H1 as (m & Hm & H1).
  split. { unfold get_metadata in Hm. cbn in Hm. destruct (accounts t !! ctx_receiver x) eqn:E; [|done]. by apply elem_of_dom_2 in E. }
  destruct (_ && _); [left; by injection H1 as <- <-|right].
  apply bind_ok_inv in H1 as (t3 & H1 & H3). exists (is_privileged m), t3. split; [done|].
  apply bind_ok_inv in H3 as ([x4 t4] & H3 & H4). apply bind_ok_inv in H4 as ([] & _ & [= <- <-]).
  unfold apply_contract in H3. apply bind_ok_inv in H3 as (m' & _ & H3).
  destruct (code_hash m'); [|by injection H3 as <- <-]. destruct (_ || _); [|by injection H3 as <- <-].
  apply bind_ok_inv in H3 as ([] & _ & H3). by apply run_dom in H3.
Qed.

Lemma exec_one_receiver x t x' t' : native_keeps_sequences e -> exec_one e x t = Ok (x', t') ->
  ctx_receiver x ∈ dom (accounts t').
Proof.
  intros Hn H1. apply exec_one_accounts in H1 as [Hin [->|(b & t1 & H1 & ->)]]; [done|].
  unfold apply_native in H1. destruct (find_apply_handler _ _ _ _) as [h|] eqn:Eh; [|by injection H1 as <-].
  unfold find_apply_handler in Eh. destruct (_ && _); [|done].
  apply bind_ok_inv in H1 as ([] & _ & H1). apply bind_ok_inv in H1 as ([a w] & Hh & [= <-]).
  apply elem_of_dom in Hin as [m Hm]. destruct (Hn _ _ _ _ _ _ _ Eh Hh _ _ Hm) as (m' & Hm' & _).
  cbn. by apply elem_of_dom_2 in Hm'.
Qed.

(** A notification creates no account: native handlers run for the receiver
    [act.account] only. *)
Lemma exec_one_dom x t x' t' : ctx_receiver x <> AM.act_account (ctx_act x) ->
  exec_one e x t = Ok (x', t') ->
  dom (accounts t') = dom (accounts t) /\ ctx_receiver x ∈ dom (accounts t').
Proof.
  intros Hne H1. apply exec_one_accounts in H1 as [Hin [->|(b & t1 & H1 & ->)]]; [done|].
  unfold apply_native, find_apply_handler in H1. cbn in H1.
  destruct (_ && _) eqn:E; [|by injection H1 as <-]. exfalso. bool_to_prop. congruence.
Qed.

(** One iteration of the loop over the notifications. *)
Definition loop_next (c c' : nat * (apply_context * transaction_state)) : Prop :=
  exists r o, notified c.2.1 !! c.1 = Some (r, o) /\
    exec_one e (set_current c.2.1 r o) c.2.2 = Ok c'.2 /\ c'.1 = S c.1.

(** The receivers before [i] exist, and the first of them is the account of
    the action. *)
Record loop_bounded (i : nat) (x : apply_context) (t : transaction_state) : Prop := {
  lb_first : (notified x).*1 !! 0%nat = Some (AM.act_account (ctx_act x));
  lb_started : (0 < i <= length (notified x))%nat;
  lb_exist r : r ∈ take i (notified x).*1 -> r ∈ dom (accounts t);
}.

Lemma loop_bounded_size t0 base n0 i x t : loop_ok e t0 base n0 i x t -> loop_bounded i x t ->
  (i <= size (accounts t))%nat.
Proof.
  intros [[Hx _] _ _ _ _] [_ Hi Hex]. pose proof (co_receivers _ _ Hx) as Hnd. cbn in Hnd.
  rewrite <- (take_drop i (notified x).*1) in Hnd. apply NoDup_app in Hnd as (Hnd & _).
  assert (list_to_set (take i (notified x).*1) ⊆ dom (accounts t)) as Hsub.
  { intros r. rewrite elem_of_list_to_set. apply Hex. }
  apply subseteq_size in Hsub. rewrite size_list_to_set, size_dom, length_take, length_fmap in Hsub by done. lia.
Qed.

Lemma loop_bounded_step t0 base n0 i x t r o x' t' : native_keeps_sequences e ->
  loop_ok e t0 base n0 i x t -> loop_bounded i x t -> notified x !! i = Some (r, o) ->
  exec_one e (set_current x r o) t = Ok (x', t') -> small t' ->
  loop_ok e t0 base n0 (S i) x' t' /\ loop_bounded (S i) x' t' /\
  dom (accounts t') = dom (accounts t).
Proof.
  intros Hn Hl [Hf Hi Hex] Hlk H1 Hs.
  destruct (loop_step _ _ _ _ _ _ _ _ _ _ _ Hn Hl Hlk H1 Hs) as (Hl' & Hsh & nn & Enn).
  assert ((notified x).*1 !! i = Some r) as Hr by (rewrite list_lookup_fmap, Hlk; done).
  apply exec_one_dom in H1 as [Hd Hin].
  - cbn in Hin. split_and!; [done| |done]. split.
    + rewrite Enn, fmap_app, lookup_app_l by (rewrite length_fmap; lia). rewrite Hf. f_equal. f_equal.
      destruct Hl as [[Hx _] _ _ _ _], Hl' as [[Hx' _] _ _ _ _]. cbn in Hx, Hx'.
      rewrite list_lookup_fmap in Hf. destruct (notified x !! 0%nat) as [[f z]|] eqn:Ef; [|done].
      apply list_elem_of_lookup_2 in Ef. destruct (co_notified _ _ Hx _ _ Ef) as (tr & Hat & _ & Ha & _).
      destruct (co_notified _ _ Hx' f z) as (tr' & Hat' & _ & Ha' & _); [rewrite Enn; set_solver|].
      destruct (Hsh _ _ Hat) as (tr2 & Hat2 & _ & E2). rewrite (trace_at_inj _ _ _ _ Hat2 Hat') in E2. congruence.
    + apply lookup_lt_Some in Hlk. rewrite Enn, length_app. lia.
    + intros q. rewrite Enn, fmap_app, take_app_le by (apply lookup_lt_Some in Hr; lia).
      rewrite (take_S_r _ _ _ Hr), elem_of_app, list_elem_of_singleton.
      intros [Hq| ->]; [rewrite Hd; by apply Hex|done].
  - cbn. destruct Hl as [[Hx _] _ _ _ _]. pose proof (co_receivers _ _ Hx) as Hnd. cbn in Hnd.
    intros ->. assert (i = 0%nat); [|lia]. by eapply NoDup_lookup.
Qed.

(** The state of the loop after the receiver itself was executed. *)
Lemma loop_start t0 t o tr x0 t1 x2 t2 : native_keeps_sequences e -> traces_ok t -> books e t0 t ->
  trace_at t o tr -> receipt tr = None -> receiver tr = AM.act_account (act tr) ->
  new_apply_context t o = Ok (x0, t1) -> exec_one e x0 t1 = Ok (x2, t2) -> small t2 ->
  loop_ok e t0 (fun z => open t z /\ z <> o) (trace_count t) 1 x2 t2 /\ loop_bounded 1 x2 t2.
Proof.
  intros Hn Ht Hb Hat Hr Hrec H1 H2 Hs. unfold new_apply_context in H1.
  apply bind_ok_inv in H1 as (tr' & Htr & H1). apply get_action_trace_ok in Htr.
  rewrite (trace_at_inj _ _ _ _ Htr Hat) in H1. apply Ok_inj in H1. injection H1 as <- <-.
  destruct (loop_step e t0 _ _ 0 (new_context_of tr o) (set_world t (host_new_context (world t)))
    (receiver tr) o x2 t2 Hn (new_context_loop _ _ _ _ _ Ht Hb Hat Hr) eq_refl H2 Hs) as (Hl & Hsh & nn & Enn).
  split; [done|]. cbn in Enn. destruct Hl as [[Hx _] _ _ _ _]. cbn in Hx. split.
  - rewrite Enn. cbn. rewrite Hrec. f_equal. f_equal.
    destruct (co_notified _ _ Hx (receiver tr) o) as (tr1 & Hat1 & _ & Ha & _); [rewrite Enn; left|].
    destruct (Hsh o tr) as (tr2 & Hat2 & _ & E2); [done|]. rewrite (trace_at_inj _ _ _ _ Hat2 Hat1) in E2. congruence.
  - rewrite Enn. cbn. lia.
  - rewrite Enn. cbn. intros r ->%list_elem_of_singleton.
    by apply exec_one_receiver in H2.
Qed.

Lemma loop_next_count c c' : loop_next c c' -> trace_count c.2.2 <= trace_count c'.2.2.
Proof. intros (r & o & _ & H1 & _). destruct c' as [j [x' t']]. by apply exec_one_count in H1. Qed.

Lemma loop_nexts_count c c' : rtc loop_next c c' -> trace_count c.2.2 <= trace_count c'.2.2.
Proof. induction 1 as [|c c1 c2 Hs _ IH]; [lia|]. apply loop_next_count in Hs. lia. Qed.

Lemma loop_nexts_bounded t0 base n0 c c' : native_keeps_sequences e -> rtc loop_next c c' ->
  small c'.2.2 -> loop_ok e t0 base n0 c.1 c.2.1 c.2.2 -> loop_bounded c.1 c.2.1 c.2.2 ->
  loop_ok e t0 base n0 c'.1 c'.2.1 c'.2.2 /\ loop_bounded c'.1 c'.2.1 c'.2.2 /\
  size (accounts c'.2.2) = size (accounts c.2.2).
Proof.
  intros Hn Hr Hs. induction Hr as [c|c c1 c2 Hstep Hr IH]; intros Hl Hb; [done|].
  pose proof (loop_nexts_count _ _ Hr) as Hle. destruct Hstep as (r & o & Hlk & H1 & Hi).
  destruct c1 as [i1 [x1 t1]]. cbn in Hi. subst i1.
  destruct (loop_bounded_step _ _ _ _ _ _ _ _ _ _ Hn Hl Hb Hlk H1) as (Hl1 & Hb1 & Hd);
    [cbn in Hle; unfold small in *; lia|].
  destruct (IH Hs Hl1 Hb1) as (Hl2 & Hb2 & Hsz). split_and!; [done..|]. rewrite Hsz. cbn.
  by rewrite <- !(size_dom (D := gset name)), Hd.
Qed.

(** More fuel than the loop has notifications to execute does not matter. *)
Lemma notify_loop_fuel k i x t c : rtc loop_next (i, (x, t)) c -> notified c.2.1 !! c.1 = None ->
  (c.1 - i <= k)%nat -> notify_loop e k i x t = Ok c.2.
Proof.
  intros Hr. remember (i, (x, t)) as c0 eqn:E. revert k i x t E.
  induction Hr as [c|c c1 c2 Hs Hr IH]; intros k i x t -> Hnone Hk.
  - cbn in *. destruct k; cbn; by rewrite Hnone.
  - destruct Hs as (r & o & Hlk & H1 & Hi). cbn in Hlk, H1, Hi. destruct c1 as [i1 [x1 t1]]. cbn in H1, Hi. subst i1.
    assert (S i <= c2.1)%nat as Hle.
    { clear -Hr. remember (S i, (x1, t1)) as c eqn:E. assert (S i = c.1) as -> by (by rewrite E). clear E.
      induction Hr as [|a b d (r & o & _ & _ & E) _ IH]; lia. }
    destruct k as [|k]; [lia|]. cbn. rewrite Hlk, H1. cbn. apply IH; [done|done|lia].
Qed.

Lemma notify_loop_reaches k i x t x' t' : notify_loop e k i x t = Ok (x', t') ->
  exists j, rtc loop_next (i, (x, t)) (j, (x', t')) /\ notified x' !! j = None.
Proof.
  revert i x t. induction k as [|k IH]; intros i x t H1; cbn in H1;
    (destruct (notified x !! i) as [[r o]|] eqn:E; [|injection H1 as <- <-; by exists i]); [done|].
  apply bind_ok_inv in H1 as ([x1 t1] & H1 & H2). destruct (IH _ _ _ H2) as (j & Hr & Hj).
  exists j. split; [|done]. eapply rtc_l; [|exact Hr]. by exists r, o.
Qed.

(** The loop over the notifications of an action ends.  It starts when the
    receiver of the action has been executed; as long as the actions of the
    transaction can be counted in 32 bits, the notifications executed so far
    are at most as many as there are accounts; and so a run of the loop of
    any length that returns is the run with the bound of the model. *)
Theorem notifications_end (t0 t : transaction_state) (o : Z) (tr : action_trace) (x0 : apply_context)
    (t1 : transaction_state) (x2 : apply_context) (t2 : transaction_state) :
  native_keeps_sequences e -> traces_ok t -> books e t0 t ->
  trace_at t o tr -> receipt tr = None -> receiver tr = AM.act_account (act tr) ->
  new_apply_context t o = Ok (x0, t1) -> exec_one e x0 t1 = Ok (x2, t2) ->
  (forall i x' t', rtc loop_next (1%nat, (x2, t2)) (i, (x', t')) -> small t' ->
     (i <= size (accounts t2))%nat) /\
  (forall fuel x' t', notify_loop e fuel 1 x2 t2 = Ok (x', t') -> small t' ->
     exec_receivers e t o = Ok (x', t')).
Proof.
  intros Hn Ht Hb Hat Hr Hrec H1 H2.
  assert (forall i x' t', rtc loop_next (1%nat, (x2, t2)) (i, (x', t')) -> small t' ->
     (i <= size (accounts t2))%nat) as Hbound.
  { intros i x' t' Hreach Hs. pose proof (loop_nexts_count _ _ Hreach) as Hle. cbn in Hle.
    destruct (loop_start t0 t o tr x0 t1 x2 t2) as [Hl Hlb]; try done; [unfold small in *; lia|].
    destruct (loop_nexts_bounded _ _ _ _ _ Hn Hreach Hs Hl Hlb) as (Hl' & Hlb' & Hsz). cbn in *.
    rewrite <- Hsz. by eapply loop_bounded_size. }
  split; [done|]. intros fuel x' t' Hloop Hs. apply notify_loop_reaches in Hloop as (j & Hreach & Hj).
  unfold exec_receivers. rewrite H1. cbn [mbind result_bind]. rewrite H2. cbn [mbind result_bind].
  rewrite (notify_loop_fuel _ _ _ _ _ Hreach Hj); [done|]. cbn. pose proof (Hbound _ _ _ Hreach Hs). lia.
Qed.

(** ** Every action is executed *)

(** C9: A transaction that succeeds has executed all its actions.  At the end
    every action that was scheduled, whether original, inline or a
    notification, has a trace whose ordinal is its place, whose creator and
    closest ancestor that is not a notification come before it, and which has
    a receipt for its receiver; the original actions come first, in the order
    of the transaction.  Fewer than 2^32 actions are scheduled. *)
Theorem every_action_executed (cf : bool) (cfas acts : list action) (t t' : transaction_state) :
  native_keeps_sequences e -> action_traces t = [] ->
  exec_transaction e cf cfas acts t = Ok t' -> Z.of_nat (length (action_traces t')) < 2 ^ 32 ->
  (forall i tr, action_traces t' !! i = Some tr ->
     action_ordinal tr = Z.of_nat i + 1 /\
     0 <= closest_unnotified_ancestor_action_ordinal tr <= creator_action_ordinal tr /\
     creator_action_ordinal tr <= Z.of_nat i /\
     exists r, receipt tr = Some r /\ r_receiver r = receiver tr) /\
  (forall i a, ((if cf then cfas else []) ++ acts) !! i = Some a ->
     exists tr, action_traces t' !! i = Some tr /\ act tr = a /\ receiver tr = AM.act_account a).
Proof.
  intros Hn Hnil H1 Hs. destruct (exec_transaction_completed _ _ _ _ _ _ Hn Hnil H1 Hs) as [Ht _ Hex Hor].
  split.
  - intros i tr Htr. assert (trace_at t' (Z.of_nat i + 1) tr) as Hat.
    { split; [lia|]. by replace (Z.to_nat _) with i by lia. }
    destruct (Ht _ _ Hat) as (E & Hc & Ha). split_and!; try done; try lia. by eapply Hex.
  - intros i a Ha. destruct (Hor i a Ha) as (tr & [_ Hl] & E1 & E2). exists tr.
    replace (Z.to_nat _) with i in Hl by lia. done.
Qed.

Lemma executed_sum_all (f : action_trace -> Z) (t : transaction_state) :
  (forall o tr, trace_at t o tr -> exists r, receipt tr = Some r /\ r_receiver r = receiver tr) ->
  executed_sum f t = sum_with f (action_traces t).
Proof.
  intros Hall. apply sum_with_ext. intros tr Hin. apply list_elem_of_lookup in Hin as [i Hi].
  destruct (Hall (Z.of_nat i + 1) tr) as (r & Hr & _).
  { split; [lia|]. by replace (Z.to_nat _) with i by lia. }
  unfold executed_weight. by rewrite Hr.
Qed.

(** Receipts are numbered in the order in which they are made, if the native
    handlers keep the sequence numbers of accounts. *)
Lemma receipts_numbered (cf : bool) (cfas acts : list action) (t t' : transaction_state) :
  native_keeps_sequences e -> action_traces t = [] ->
  exec_transaction e cf cfas acts t = Ok t' -> Z.of_nat (length (action_traces t')) < 2 ^ 32 ->
  exists rs, Some <$> rs ≡ₚ receipt <$> action_traces t' /\
    executed_action_receipt_digests t' = executed_action_receipt_digests t ++ (hash_receipt e <$> rs) /\
    r_global_sequence <$> rs
      = (fun i : nat => u64 (global_action_sequence t + Z.of_nat i)) <$> seq 1 (length rs) /\
    u64 (global_action_sequence t') = u64 (global_action_sequence t + Z.of_nat (length rs)) /\
    forall n m, accounts t !! n = Some m -> exists m', accounts t' !! n = Some m' /\
      u64 (recv_sequence m')
        = u64 (recv_sequence m + sum_with (fun tr => receives n (receiver tr)) (action_traces t')) /\
      u64 (auth_sequence m')
        = u64 (auth_sequence m + sum_with (fun tr => auths_of n (act tr)) (action_traces t')).
Proof.
  intros Hn Hnil H1 Hs. destruct (exec_transaction_completed _ _ _ _ _ _ Hn Hnil H1 Hs) as [_ Hb Hex _].
  destruct Hb as [(rs & R1 & R2 & R3 & R4) Ha _]. exists rs. split_and!; [|done..|].
  - rewrite R1. assert (forall tr, tr ∈ action_traces t' -> is_Some (receipt tr)) as Hall.
    { intros tr Hin. apply list_elem_of_lookup in Hin as [i Hi].
      destruct (Hex (Z.of_nat i + 1) tr) as (r & Hr & _); [|by exists r].
      split; [lia|]. by replace (Z.to_nat _) with i by lia. }
    clear -Hall. induction (action_traces t') as [|tr l IH]; [done|]. cbn.
    destruct (Hall tr) as [r ->]; [left|]. cbn. f_equiv. apply IH. intros tr' Hin. apply Hall. by right.
  - intros n m Hm. destruct (Ha n m Hm) as (m' & Hm' & E1 & E2). exists m'.
    rewrite !executed_sum_all in E1, E2 by done. done.
Qed.

End execution.

(** ** The tables of contracts as the database *)

Section tables.
Context {K : Type} (f64_lt f128_lt : Z -> Z -> bool) (f64_is_nan f128_is_nan : Z -> bool).

(** The deltas of an action move to its trace. *)
Definition finalize_trace (s : ContractTables.state) : ContractTables.state :=
  ContractTables.set_ram s (ContractTables.resources s) ∅ (ContractTables.validate_ram_usage s).

#[local] Instance tables_host
  : Host K (ContractTables.state * @AM.database K) ContractTables.call ContractTables.returned := {
  host_call x w c :=
    '(r, s) ← ContractTables.call_api x f64_lt f128_lt f64_is_nan f128_is_nan w.1 c; mret (r, (s, w.2));
  host_new_context w := (ContractTables.new_context w.1, w.2);
  host_check_ram x w := ContractTables.check_ram_deltas x w.1;
  host_finalize_trace w := (finalize_trace w.1, w.2);
  host_auth w := w.2;
}.
End tables.

(** ** A transaction *)

(** alice has a contract that stores a row, notifies bob and sends itself an
    inline action. *)
#[local] Instance sample_host : Host Z (ContractTables.state * @AM.database Z)
    ContractTables.call ContractTables.returned :=
  tables_host TableSearch.sample_lt TableSearch.sample_lt TableSearch.sample_nan TableSearch.sample_nan.

Definition first_action : Name.name := Name.mk_name 1.
Definition second_action : Name.name := Name.mk_name 2.
Definition alice_action (n : Name.name) (l : list Authority.permission_level) : @AM.action (list Z) :=
  AM.mk_action ResourceLimits.alice n l [].

Definition alice_code : Merkle.digest_type := Merkle.mk_digest 1 2 3 4.

Definition alice_contract (a : @AM.action (list Z))
  : program (list Z) ContractTables.call ContractTables.returned :=
  if decide (AM.act_name a = first_action) then
    DbCall (ContractTables.Store TableSearch.sample_scope TableSearch.sample_table ResourceLimits.alice 7 [1; 2])
      (fun _ => RequireRecipient ResourceLimits.bob (SendInline (alice_action second_action []) Return))
  else SetActionReturnValue [5] Return.

Definition sample_controller : controller Z :=
  mk_controller false false false false false (AccessLists.mk_lists [] [] [] [] ∅ []) true true true
    true true 4 524288 4096 256 0 AuthActions.sample_control.

Definition sample_digest (a : @AM.action (list Z)) : Merkle.digest_type :=
  Merkle.mk_digest 0 0 0 (Name.value (AM.act_name a)).

Definition sample_environment : environment Z (list Z) (ContractTables.state * @AM.database Z)
    ContractTables.call ContractTables.returned :=
  mk_environment sample_controller (fun _ _ => alice_contract) (fun _ => None) sample_digest
    (fun a _ => sample_digest a) (fun r => Merkle.mk_digest 0 0 0 (r_global_sequence r))
    (fun _ => 20) (fun b => Z.of_nat (length b)) (fun _ => Throw action_validate_exception)
    (fun _ => Throw action_validate_exception) (fun _ => Throw action_validate_exception)
    (fun _ => Throw action_validate_exception) (fun _ => Throw action_validate_exception).

Definition sample_state : transaction_state (list Z) (ContractTables.state * @AM.database Z) :=
  mk_tx [] [] 40
    {[ResourceLimits.alice := mk_metadata 10 20 1 0 (Some alice_code) 0 false 0 0;
      ResourceLimits.bob := mk_metadata 5 6 0 0 None 0 false 0 0]}
    (TableSearch.sample_start, AM.initialize_database).

Definition sample_actions : list (@AM.action (list Z)) :=
  [alice_action first_action [Authority.mk_level ResourceLimits.alice (Name.mk_name 9)]].

Definition sample_result : transaction_state (list Z) (ContractTables.state * @AM.database Z) :=
  match exec_transaction sample_environment false [] sample_actions sample_state with
  | Ok t => t
  | Throw _ => sample_state
  end.

Lemma sample_executed : exec_transaction sample_environment false [] sample_actions sample_state = Ok sample_result.
Proof. vm_compute. reflexivity. Qed.

Lemma sample_native : native_keeps_sequences sample_environment.
Proof. intros n h x a w a' w' Hh. discriminate. Qed.

Lemma every_action_executed_witness : length (action_traces sample_result) = 3%nat /\
  forall i tr, action_traces sample_result !! i = Some tr -> exists r, receipt tr = Some r.
Proof.
  assert (length (action_traces sample_result) = 3%nat) as Hlen by (vm_compute; reflexivity).
  split; [done|]. intros i tr Htr.
  destruct (every_action_executed sample_environment false [] sample_actions sample_state sample_result)
    as [Hall _]; [apply sample_native|reflexivity|apply sample_executed|rewrite Hlen; lia|].
  destruct (Hall i tr Htr) as (_ & _ & _ & r & Hr & _). by exists r.
Defined.

(** The transaction with its action scheduled, the action when its receiver
    has been executed, and when the notifications have been executed too. *)
Definition sample_scheduled : transaction_state (list Z) (ContractTables.state * @AM.database Z) :=
  foldl (schedule_original false) sample_state sample_actions.
Definition sample_trace : action_trace (list Z) :=
  original_trace 1 false (alice_action first_action [Authority.mk_level ResourceLimits.alice (Name.mk_name 9)]).
Definition sample_context := new_context_of sample_trace 1.
Definition sample_opened := set_world sample_scheduled (host_new_context (world sample_scheduled)).
Definition sample_begun := match exec_one sample_environment sample_context sample_opened with
                           | Ok c => c
                           | Throw _ => (sample_context, sample_opened)
                           end.
Definition sample_notified := match notify_loop sample_environment 2 1 sample_begun.1 sample_begun.2 with
                              | Ok c => c
                              | Throw _ => (sample_context, sample_opened)
                              end.

Lemma notifications_end_witness : length (notified sample_notified.1) = 2%nat /\
  exec_receivers sample_environment sample_scheduled 1 = Ok (sample_notified.1, sample_notified.2).
Proof.
  split; [vm_compute; reflexivity|].
  destruct (waiting_schedules sample_environment sample_state sample_actions sample_state [] false)
    as [Ht Hb Hn _ _]; [vm_compute; reflexivity|by apply waiting_start|].
  assert (trace_at sample_scheduled 1 sample_trace) as Hat by (split; [lia|vm_compute; reflexivity]).
  apply (notifications_end sample_environment sample_state sample_scheduled 1 sample_trace
    sample_context sample_opened sample_begun.1 sample_begun.2
    sample_native Ht Hb Hat (Hn _ _ Hat)) with (fuel := 2%nat); vm_compute; reflexivity.
Defined.

End TransactionExecution.
