(* ===== verification/ExecutionInvariants.v ===== *)
(** * Invariants of the execution of transactions

    One theorem schema about [ActionExecution]: a preorder on the accounts and
    the database that the calls of contracts, the native handlers and the
    bookkeeping of the accounts respect is respected by the execution of whole
    transactions.  The components that contracts reach through the host get
    their invariants from it. *)

From S2P Require Import Prelude Names Merkle ProducerSchedule Authority AuthorityChecker.
From S2P Require Import ResourceLimits AuthorizationManager AccessLists TableIndex ContractTables.
From S2P Require Import ActionExecution ActionOrder.
Import ActionExecution ActionOrder.

Module ExecutionInvariants.

(** The sequence numbers and the privilege of an account can change. *)
Definition same_contract (m m' : account_metadata) : Prop :=
  code_hash m' = code_hash m /\ vm_type m' = vm_type m /\ vm_version m' = vm_version m /\
  code_sequence m' = code_sequence m /\ abi_sequence m' = abi_sequence m /\
  last_code_update m' = last_code_update m.

Section respects.
Context {K Bytes W Call Ans : Type} `{Countable K} `{Host K W Call Ans}.
Abbreviation transaction_state := (transaction_state Bytes W).
Abbreviation accounts_map := (gmap name account_metadata).
Context (e : environment K Bytes W Call Ans).
Context (R : accounts_map * W -> accounts_map * W -> Prop) `{!PreOrder R}.

(** What each step respects. *)
Record respected : Prop := {
  rs_call x l w c a w' : host_call x w c = Ok (a, w') -> R (l, w) (l, w');
  rs_context l w : R (l, w) (l, host_new_context w);
  rs_finalize l w : R (l, w) (l, host_finalize_trace w);
  rs_account l w n m m' : l !! n = Some m -> same_contract m m' -> R (l, w) (<[n := m']> l, w);
  rs_native n h x l w l' w' : native e n = Some h -> h x (l, w) = Ok (l', w') -> R (l, w) (l', w');
}.
Hypothesis R_ok : respected.

Definition parts (t : transaction_state) : accounts_map * W := (accounts t, world t).

Lemma get_metadata_ok (t : transaction_state) a m : get_metadata t a = Ok m -> accounts t !! a = Some m.
Proof. unfold get_metadata. destruct (accounts t !! a); [by intros [= ->]|done]. Qed.

Lemma run_respects p x t x' t' : run e p x t = Ok (x', t') -> R (parts t) (parts t').
Proof.
  revert x t. induction p as [| |c k IH|r k IH|a k IH|a k IH|k IH|n b k IH|v k IH]; intros x t H1; cbn in H1.
  - by injection H1 as <- <-.
  - done.
  - apply bind_ok_inv in H1 as ([a w] & Hc & H1). apply IH in H1. etrans; [|exact H1]. by eapply (rs_call R_ok).
  - apply bind_ok_inv in H1 as ([] & _ & H1). apply bind_ok_inv in H1 as ([x1 t1] & H1 & H2).
    apply IH in H2. etrans; [|exact H2]. unfold require_recipient in H1.
    destruct (has_recipient x r); [by injection H1 as <- <-|].
    apply bind_ok_inv in H1 as ([o t2] & H1 & H3). apply bind_ok_inv in H1 as (tr & _ & [= <- <-]).
    by apply bind_ok_inv in H3 as (x2 & Hx & [= <- <-]).
  - do 2 apply bind_ok_inv in H1 as ([] & _ & H1). apply bind_ok_inv in H1 as ([x1 t1] & H1 & H2).
    apply IH in H2. etrans; [|exact H2]. unfold execute_inline in H1. apply bind_ok_inv in H1 as ([] & _ & H1).
    apply bind_ok_inv in H1 as ([actors inherited] & _ & H1). do 3 apply bind_ok_inv in H1 as ([] & _ & H1).
    by apply bind_ok_inv in H1 as (x2 & Hx & [= <- <-]).
  - do 2 apply bind_ok_inv in H1 as ([] & _ & H1). apply bind_ok_inv in H1 as ([x1 t1] & H1 & H2).
    apply IH in H2. etrans; [|exact H2]. unfold execute_context_free_inline in H1.
    do 3 apply bind_ok_inv in H1 as ([] & _ & H1).
    by apply bind_ok_inv in H1 as (x2 & Hx & [= <- <-]).
  - apply bind_ok_inv in H1 as ([] & _ & H1). apply bind_ok_inv in H1 as (s & _ & H1). by apply IH in H1.
  - do 2 apply bind_ok_inv in H1 as ([] & _ & H1). apply bind_ok_inv in H1 as (t1 & Ht & H1).
    apply IH in H1. etrans; [|exact H1]. unfold set_privileged in Ht.
    apply bind_ok_inv in Ht as (m & Hm%get_metadata_ok & [= <-]). by apply (rs_account R_ok _ _ _ m).
  - do 2 apply bind_ok_inv in H1 as ([] & _ & H1). by apply IH in H1.
Qed.

Lemma apply_receiver_respects x t x' t' : apply_receiver e x t = Ok (x', t') -> R (parts t) (parts t').
Proof.
  intros H1. unfold apply_receiver in H1. apply bind_ok_inv in H1 as (m & _ & H1).
  destruct (_ && _); [by injection H1 as <- <-|]. apply bind_ok_inv in H1 as (t1 & H1 & H2).
  apply bind_ok_inv in H2 as ([x2 t2] & H2 & H3). apply bind_ok_inv in H3 as ([] & _ & [= <- <-]). etrans.
  - unfold apply_native, find_apply_handler in H1. destruct (_ && _); [|by injection H1 as <-].
    destruct (native e _) as [h|] eqn:Eh; [|by injection H1 as <-]. apply bind_ok_inv in H1 as ([] & _ & H1).
    apply bind_ok_inv in H1 as ([l w] & Hh & [= <-]). by eapply (rs_native R_ok).
  - unfold apply_contract in H2. apply bind_ok_inv in H2 as (m' & _ & H2).
    destruct (code_hash m'); [|by injection H2 as <- <-]. destruct (_ || _); [|by injection H2 as <- <-].
    apply bind_ok_inv in H2 as ([] & _ & H2). by apply run_respects in H2.
Qed.

Lemma auth_sequences_respect l r t r' t' :
  foldM next_auth_sequence (r, t) l = Ok (r', t') -> R (parts t) (parts t').
Proof.
  revert r t. induction l as [|a l IH]; intros r t H1; cbn [foldM] in H1; [by injection H1 as <- <-|].
  apply bind_ok_inv in H1 as ([r1 t1] & H1 & H2). apply IH in H2. etrans; [|exact H2].
  unfold next_auth_sequence in H1. apply bind_ok_inv in H1 as (m & Hm%get_metadata_ok & [= <- <-]).
  by apply (rs_account R_ok _ _ _ m).
Qed.

Lemma make_receipt_respects x t t' : make_receipt e x t = Ok t' -> R (parts t) (parts t').
Proof.
  intros H1. unfold make_receipt in H1. apply bind_ok_inv in H1 as (tr & _ & H1).
  destruct (next_global_sequence t) as [gs t1] eqn:Eg. injection Eg as <- <-.
  apply bind_ok_inv in H1 as ([rs t2] & H2 & H1). apply bind_ok_inv in H1 as (fm & _ & H1).
  apply bind_ok_inv in H1 as ([auths t3] & H3 & [= <-]). apply auth_sequences_respect in H3.
  unfold next_recv_sequence in H2. apply bind_ok_inv in H2 as (m & Hm%get_metadata_ok & [= <- <-]).
  etrans; [by apply (rs_account R_ok _ (world t) _ _ (set_recv_sequence m (u64 (recv_sequence m + 1))) Hm)|].
  etrans; [exact H3|]. apply (rs_finalize R_ok).
Qed.

Lemma exec_one_respects x t x' t' : exec_one e x t = Ok (x', t') -> R (parts t) (parts t').
Proof.
  intros H1. unfold exec_one in H1. apply bind_ok_inv in H1 as ([x1 t1] & H1 & H2).
  apply bind_ok_inv in H2 as (t2 & H2 & [= <- <-]).
  etrans; [by eapply apply_receiver_respects|by eapply make_receipt_respects].
Qed.

Lemma notify_loop_respects k i x t x' t' : notify_loop e k i x t = Ok (x', t') -> R (parts t) (parts t').
Proof.
  revert i x t. induction k as [|k IH]; intros i x t H1; cbn in H1;
    (destruct (notified x !! i) as [[r o]|]; [|by injection H1 as <- <-]); [done|].
  apply bind_ok_inv in H1 as ([x1 t1] & H1 & H2). etrans; [by eapply exec_one_respects|by eapply IH].
Qed.

Lemma exec_receivers_respects t o x' t' : exec_receivers e t o = Ok (x', t') -> R (parts t) (parts t').
Proof.
  intros H1. unfold exec_receivers in H1. apply bind_ok_inv in H1 as ([x0 t0] & Hnew & H1).
  apply bind_ok_inv in H1 as ([x1 t1] & H1 & H2). unfold new_apply_context in Hnew.
  apply bind_ok_inv in Hnew as (tr & _ & [= <- <-]). etrans; [apply (rs_context R_ok (accounts t) (world t))|].
  apply exec_one_respects in H1. etrans; [exact H1|by eapply notify_loop_respects].
Qed.

Lemma execute_action_respects levels t o t' : execute_action e levels t o = Ok t' -> R (parts t) (parts t').
Proof.
  revert t o t'. induction levels as [|levels IH]; intros t o t' H1; cbn in H1;
    apply bind_ok_inv in H1 as ([x1 t1] & H1 & H2); apply exec_receivers_respects in H1; (etrans; [exact H1|]).
  - by apply bind_ok_inv in H2 as ([] & _ & [= <-]).
  - apply bind_ok_inv in H2 as (t2 & H2 & H3).
    assert (forall l t t', foldM (execute_action e levels) t l = Ok t' -> R (parts t) (parts t')) as Hfold.
    { intros l t3 t4 Hf. apply (foldM_inv (execute_action e levels) (fun u => R (parts t3) (parts u)) t3 l t4); [|done|done].
      intros o' u u' _ Hu Hx. etrans; [exact Hu|by eapply IH]. }
    etrans; by eapply Hfold.
Qed.

Lemma schedule_originals_parts cf l (t : transaction_state) : parts (foldl (schedule_original cf) t l) = parts t.
Proof. revert t. induction l as [|a l IH]; intros t; cbn; [done|]. by rewrite IH. Qed.

Lemma exec_transaction_respects cf cfas acts t t' : exec_transaction e cf cfas acts t = Ok t' ->
  R (parts t) (parts t').
Proof.
  intros H1. unfold exec_transaction in H1.
  eapply (foldM_inv _ (fun u => R (parts t) (parts u))) in H1; [exact H1| |].
  - intros o u u' _ Hu Hx. etrans; [exact Hu|by eapply execute_action_respects].
  - rewrite schedule_originals_parts. destruct cf; [by rewrite schedule_originals_parts|done].
Qed.

End respects.
End ExecutionInvariants.
