(* ===== verification/ContractCode.v ===== *)
(** * Contract code: [apply_eosio_setcode] and [apply_eosio_setabi] of
      libraries/chain/eosio_contract.cpp, and code_object.hpp

    Module [ContractCode] has the table of contract code, in which accounts
    that run the same code share one object with a reference count, and the
    ABIs.  Sha256, of fc, and the validation of WebAssembly modules are
    parameters.  The theorems show that the counts are the numbers of accounts
    that run the code, and what an account pays. *)

From S2P Require Import Prelude Names Merkle ProducerSchedule Authority AuthorityChecker.
From S2P Require Import ResourceLimits AuthorizationManager AccessLists TableIndex ContractTables.
From S2P Require Import TableInvariants TableSearch ActionExecution ActionOrder.

Module ContractCode.
Import ActionExecution.
Module CT := ContractTables.
Module TI := TableInvariants.
Import ActionOrder.ActionOrder (Ok_inj).
Abbreviation account_name := Name.name.

Definition setcode_ram_bytes_multiplier : Z := 10.

(** ** State *)

(** [code_object]; its hash and its VM are its key *)
Record code_object := mk_code {
  code : list Z;
  code_ref_count : Z;
  first_block_used : Z;
}.

(** The table of code by hash, VM type and VM version, and the ABIs of the
    accounts. *)
Record contracts := mk_contracts {
  codes : gmap (digest_type * Z * Z) code_object;
  abis : gmap account_name (list Z);
}.

(** With the metadata of the accounts and the RAM that contracts are billed. *)
Record code_state := mk_code_state {
  metadata : gmap account_name account_metadata;
  stored : contracts;
  tables : CT.state;
}.

(** The actions. *)
Record setcode := mk_setcode {
  sc_account : account_name;
  vmtype : Z;
  vmversion : Z;
  sc_code : list Z;
}.
Record setabi := mk_setabi {
  sa_account : account_name;
  sa_abi : list Z;
}.

(** A metadata record holds [None] for the hash of zeros. *)
Definition no_hash : digest_type := Merkle.mk_digest 0 0 0 0.
Definition hash_field (d : digest_type) : option digest_type :=
  if decide (d = no_hash) then None else Some d.

(** ** The handlers *)

Section handlers.
Context (sha256 : list Z -> digest_type) (validate_code : list Z -> result unit).
(** [head_block_num() + 1] and [pending_block_time()] *)
Context (next_block_num block_time : Z) (x : CT.action_context).

Definition ram_of_code (c : list Z) : Z :=
  s64 (Z.of_nat (length c) * setcode_ram_bytes_multiplier).

Definition set_ref_count (o : code_object) (n : Z) : code_object :=
  mk_code (code o) n (first_block_used o).

(** The account gives up its old code; the RAM of it. *)
Definition release_code (cs : gmap (digest_type * Z * Z) code_object) (m : account_metadata)
    (code_hash : digest_type) : result (gmap (digest_type * Z * Z) code_object * Z) :=
  match ActionExecution.code_hash m with
  | None => mret (cs, 0)
  | Some h =>
      let k := (h, vm_type m, vm_version m) in
      match cs !! k with
      | None => Throw not_found_exception
      | Some o =>
          EOS_ASSERT (negb (bool_decide (h = code_hash))) set_exact_code;;
          mret (if code_ref_count o =? 1 then delete k cs
                else <[k := set_ref_count o (u64 (code_ref_count o - 1))]> cs,
                ram_of_code (code o))
      end
  end.

(** The account gets its new code, if there is some. *)
Definition acquire_code (cs : gmap (digest_type * Z * Z) code_object) (act : setcode)
    (code_hash : digest_type) : gmap (digest_type * Z * Z) code_object :=
  let k := (code_hash, vmtype act, vmversion act) in
  if (0 <? length (sc_code act))%nat then
    match cs !! k with
    | Some o => <[k := set_ref_count o (u64 (code_ref_count o + 1))]> cs
    | None => <[k := mk_code (sc_code act) 1 next_block_num]> cs
    end
  else cs.

Definition set_metadata_code (m : account_metadata) (act : setcode) (code_hash : digest_type)
  : account_metadata :=
  mk_metadata (recv_sequence m) (auth_sequence m) (u64 (code_sequence m + 1)) (abi_sequence m)
    (hash_field code_hash) block_time (is_privileged m) (vmtype act) (vmversion act).
Definition set_metadata_abi (m : account_metadata) : account_metadata :=
  mk_metadata (recv_sequence m) (auth_sequence m) (code_sequence m) (u64 (abi_sequence m + 1))
    (code_hash m) (last_code_update m) (is_privileged m) (vm_type m) (vm_version m).

(** [if( new_size != old_size ) context.add_ram_usage( ... )] *)
Definition charge_difference (s : CT.state) (a : account_name) (new_size old_size : Z)
  : result CT.state :=
  if negb (new_size =? old_size) then CT.add_ram_usage s a (s64 (new_size - old_size)) else mret s.

Definition apply_eosio_setcode (s : code_state) (act : setcode) : result code_state :=
  CT.require_authorization x (sc_account act);;
  EOS_ASSERT (vmtype act =? 0) invalid_contract_vm_type;;
  EOS_ASSERT (vmversion act =? 0) invalid_contract_vm_version;;
  let nonempty := (0 <? length (sc_code act))%nat in
  let code_hash := if nonempty then sha256 (sc_code act) else no_hash in
  (if nonempty then validate_code (sc_code act) else mret tt);;
  match metadata s !! sc_account act with
  | None => Throw not_found_exception
  | Some m =>
      EOS_ASSERT (nonempty || bool_decide (is_Some (ActionExecution.code_hash m))) set_exact_code;;
      '(cs, old_size) ← release_code (codes (stored s)) m code_hash;
      let cs := acquire_code cs act code_hash in
      t ← charge_difference (tables s) (sc_account act) (ram_of_code (sc_code act)) old_size;
      mret (mk_code_state (<[sc_account act := set_metadata_code m act code_hash]> (metadata s))
              (mk_contracts cs (abis (stored s))) t)
  end.

Definition apply_eosio_setabi (s : code_state) (act : setabi) : result code_state :=
  CT.require_authorization x (sa_account act);;
  match abis (stored s) !! sa_account act, metadata s !! sa_account act with
  | Some old, Some m =>
      t ← charge_difference (tables s) (sa_account act) (Z.of_nat (length (sa_abi act)))
            (Z.of_nat (length old));
      mret (mk_code_state (<[sa_account act := set_metadata_abi m]> (metadata s))
              (mk_contracts (codes (stored s)) (<[sa_account act := sa_abi act]> (abis (stored s)))) t)
  | _, _ => Throw not_found_exception
  end.

End handlers.

(** The metadata of a new account. *)
Definition new_metadata : account_metadata := mk_metadata 0 0 0 0 None 0 false 0 0.
(** ** Reference counts *)

Abbreviation accounts_map := (gmap account_name account_metadata).
Abbreviation code_key := (digest_type * Z * Z)%type.

(** The account with this metadata runs the code [k]. *)
Definition key_of (m : account_metadata) : option code_key :=
  match code_hash m with Some h => Some (h, vm_type m, vm_version m) | None => None end.

(** The number of accounts that run the code [k]. *)
Definition user (k : code_key) (_ : account_name) (m : account_metadata) : Z :=
  if decide (key_of m = Some k) then 1 else 0.
Definition users (k : code_key) (l : accounts_map) : Z := sum_map (user k) l.

(** What an account pays for its code and its ABI. *)
Definition code_of (l : accounts_map) (c : contracts) (a : account_name) : option code_object :=
  match l !! a with
  | Some m => match key_of m with Some k => codes c !! k | None => None end
  | None => None
  end.
Definition code_bytes (l : accounts_map) (c : contracts) (a : account_name) : Z :=
  match code_of l c a with
  | Some o => Z.of_nat (length (code o)) * setcode_ram_bytes_multiplier
  | None => 0
  end.
Definition abi_bytes (c : contracts) (a : account_name) : Z :=
  match abis c !! a with Some b => Z.of_nat (length b) | None => 0 end.
Definition contract_bytes (l : accounts_map) (c : contracts) (a : account_name) : Z :=
  code_bytes l c a + abi_bytes c a.

Lemma user_nonneg k n m : 0 <= user k n m.
Proof. unfold user. destruct (decide _); lia. Qed.

Lemma users_nonneg k l : 0 <= users k l.
Proof. apply sum_map_nonneg. intros n m _. apply user_nonneg. Qed.

Lemma users_delete k l n m : l !! n = Some m -> users k l = user k n m + users k (delete n l).
Proof. apply sum_map_delete. Qed.

Lemma users_insert k l n m m' : l !! n = Some m ->
  users k (<[n := m']> l) = users k l - user k n m + user k n m'.
Proof. apply sum_map_insert_old. Qed.

Lemma user_runs k n m : key_of m = Some k -> user k n m = 1.
Proof. intros E. unfold user. by rewrite decide_True. Qed.

Lemma user_not k n m : key_of m <> Some k -> user k n m = 0.
Proof. intros E. unfold user. by rewrite decide_False. Qed.

(** A count of one is the count of one account. *)
Lemma users_one k l n m n' m' : users k l = 1 -> l !! n = Some m -> key_of m = Some k ->
  l !! n' = Some m' -> key_of m' = Some k -> n' = n.
Proof.
  intros Hu Hm Hk Hm' Hk'. destruct (decide (n' = n)) as [->|Hne]; [done|exfalso].
  rewrite (users_delete k l n m Hm), (user_runs _ _ _ Hk) in Hu.
  rewrite (users_delete k (delete n l) n' m'), (user_runs _ _ _ Hk') in Hu by (by rewrite lookup_delete_ne).
  pose proof (users_nonneg k (delete n' (delete n l))). lia.
Qed.

Lemma users_zero k l : (forall n m, l !! n = Some m -> key_of m <> Some k) -> users k l = 0.
Proof.
  unfold users. induction l as [|n m l Hn IH] using map_ind; intros Hall; [apply sum_map_empty|].
  rewrite sum_map_insert_new, IH, user_not; [done|..].
  - apply (Hall n). by rewrite lookup_insert_eq.
  - intros n' m' Hm'. apply (Hall n'). rewrite lookup_insert_ne; [done|congruence].
  - done.
Qed.

Lemma users_size k l : users k l <= Z.of_nat (size l).
Proof.
  unfold users. induction l as [|n m l Hn IH] using map_ind; [by rewrite sum_map_empty|].
  rewrite sum_map_insert_new, map_size_insert_None by done. unfold user at 1. destruct (decide _); lia.
Qed.

Lemma metadata_changed (l : accounts_map) n m m' : l !! n = Some m -> recv_sequence m' = recv_sequence m ->
  auth_sequence m' = auth_sequence m ->
  ActionOrder.same_sequences l (<[n := m']> l) /\ dom (<[n := m']> l) = dom l.
Proof.
  intros Hm E1 E2. split.
  - intros n' m0 Hm0. destruct (decide (n' = n)) as [->|Hne].
    + rewrite lookup_insert_eq. exists m'. by replace m0 with m by congruence.
    + rewrite lookup_insert_ne by done. eauto.
  - rewrite dom_insert_L. apply elem_of_dom_2 in Hm. set_solver.
Qed.

Section invariant.
(** The codes that are set have [accepted]. *)
Context (sha256 : list Z -> digest_type) (accepted : list Z -> Prop).

(** Every code object is under its hash, and counts the accounts that run it;
    the code of every account is there, and every account has an ABI. *)
Record code_wf (l : accounts_map) (c : contracts) : Prop := {
  cw_code k o : codes c !! k = Some o -> k = (sha256 (code o), 0, 0) /\ (code o <> [] /\ accepted (code o)) /\
    is_u32 (Z.of_nat (length (code o))) /\ code_ref_count o = users k l /\ 0 < code_ref_count o;
  cw_runs n m k : l !! n = Some m -> key_of m = Some k -> is_Some (codes c !! k);
  cw_abi n : is_Some (abis c !! n) <-> is_Some (l !! n);
  cw_abi_size n b : abis c !! n = Some b -> is_u32 (Z.of_nat (length b));
}.

(** An account changes its code: the others keep theirs. *)
Definition code_moved (n : account_name) (l l' : accounts_map) (c c' : contracts) : Prop :=
  code_wf l' c' /\ abis c' = abis c /\ forall a, a <> n -> code_bytes l' c' a = code_bytes l c a.

Lemma code_wf_metadata l c n m m' : code_wf l c -> l !! n = Some m -> key_of m' = key_of m ->
  code_wf (<[n := m']> l) c /\ forall a, code_bytes (<[n := m']> l) c a = code_bytes l c a.
Proof.
  intros Hwf Hm Hk. assert (forall k, users k (<[n := m']> l) = users k l) as Hu.
  { intros k. rewrite (users_insert _ _ _ _ _ Hm). unfold user. rewrite Hk. lia. }
  split; [split|].
  - intros k o Ho. rewrite Hu. by apply (cw_code _ _ Hwf).
  - intros n' m1 k [[-> <-]|[Hne Hl]]%lookup_insert_Some Hk'; [|by eapply (cw_runs _ _ Hwf)].
    rewrite Hk in Hk'. by eapply (cw_runs _ _ Hwf).
  - intros n'. rewrite (cw_abi _ _ Hwf), lookup_insert_is_Some'. split; [auto|]. intros [<-|?]; [by exists m|done].
  - apply Hwf.
  - intros a. unfold code_bytes, code_of. destruct (decide (a = n)) as [->|Hne]; [|by rewrite lookup_insert_ne].
    by rewrite lookup_insert_eq, Hm, Hk.
Qed.
(** Giving up code. *)
Definition release_object (cs : gmap code_key code_object) (k : code_key) (o : code_object) : gmap code_key code_object :=
  if code_ref_count o =? 1 then delete k cs else <[k := set_ref_count o (u64 (code_ref_count o - 1))]> cs.

Lemma release_object_lookup cs k o k' : release_object cs k o !! k' =
  if decide (k' = k)
  then if code_ref_count o =? 1 then None else Some (set_ref_count o (u64 (code_ref_count o - 1)))
  else cs !! k'.
Proof.
  unfold release_object. destruct (decide (k' = k)) as [->|Hne], (code_ref_count o =? 1);
    by rewrite ?lookup_delete_eq, ?lookup_insert_eq, ?lookup_delete_ne, ?lookup_insert_ne by done.
Qed.

Lemma release_object_ok l c n m m1 k o : code_wf l c -> Z.of_nat (size l) < 2 ^ 64 ->
  l !! n = Some m -> key_of m = Some k -> key_of m1 = None -> codes c !! k = Some o ->
  code_moved n l (<[n := m1]> l) c (mk_contracts (release_object (codes c) k o) (abis c)).
Proof.
  intros Hwf Hsz Hm Hk Hk1 Eo. destruct (cw_code _ _ Hwf _ _ Eo) as (Ek & [Hne Hacc] & Hlen & Hcnt & Hpos).
  pose proof (users_size k l) as Hle.
  assert (forall k', users k' (<[n := m1]> l) = users k' l - (if decide (k' = k) then 1 else 0)) as Hu.
  { intros k'. rewrite (users_insert _ _ _ _ _ Hm), (user_not _ _ m1) by congruence. unfold user. rewrite Hk.
    repeat destruct (decide _); try lia; congruence. }
  assert (forall n' m', l !! n' = Some m' -> n' <> n -> key_of m' = Some k -> code_ref_count o <> 1) as Hshared.
  { intros n' m' Hm' Hne' Hk' E1. rewrite E1 in Hcnt. by eapply Hne', (users_one k l n m n' m'). }
  split_and!; [split|done|]; cbn [codes abis].
  - intros k' o'. rewrite release_object_lookup, Hu. destruct (decide (k' = k)) as [->|Hne'].
    + destruct (code_ref_count o =? 1) eqn:E1; [done|]. bool_to_prop. intros [= <-]. cbn.
      rewrite u64_small by lia. split_and!; try done; lia.
    + intros Ho'. destruct (cw_code _ _ Hwf _ _ Ho') as (? & [? ?] & ? & ? & ?). split_and!; try done; lia.
  - intros n' m' k' [[-> <-]|[Hne' Hm']]%lookup_insert_Some Hk'; [congruence|].
    rewrite release_object_lookup. destruct (decide (k' = k)) as [->|_]; [|by eapply (cw_runs _ _ Hwf)].
    apply not_eq_sym in Hne'. specialize (Hshared _ _ Hm' Hne' Hk'). destruct (code_ref_count o =? 1) eqn:E1; [lia|done].
  - intros n'. rewrite (cw_abi _ _ Hwf), lookup_insert_is_Some'. split; [auto|]. intros [<-|?]; [by exists m|done].
  - apply Hwf.
  - intros a Ha. unfold code_bytes, code_of. rewrite lookup_insert_ne by done.
    destruct (l !! a) as [ma|] eqn:Ea; [|done]. destruct (key_of ma) as [k'|] eqn:Ek'; [|done]. cbn [codes].
    rewrite release_object_lookup. destruct (decide (k' = k)) as [->|_]; [|done].
    specialize (Hshared _ _ Ea Ha Ek'). destruct (code_ref_count o =? 1) eqn:E1; [lia|]. by rewrite Eo.
Qed.

Lemma release_code_ok l c n m m1 h cs old : code_wf l c -> Z.of_nat (size l) < 2 ^ 64 ->
  l !! n = Some m -> key_of m1 = None -> release_code (codes c) m h = Ok (cs, old) ->
  code_moved n l (<[n := m1]> l) c (mk_contracts cs (abis c)) /\ old = code_bytes l c n.
Proof.
  intros Hwf Hsz Hm Hk1 H1. unfold release_code in H1. unfold code_bytes, code_of. rewrite Hm.
  destruct (code_hash m) as [h0|] eqn:Eh.
  - assert (key_of m = Some (h0, vm_type m, vm_version m)) as Hk by (unfold key_of; by rewrite Eh). rewrite Hk.
    destruct (codes c !! _) as [o|] eqn:Eo; [|done]. apply bind_ok_inv in H1 as ([] & _ & H1).
    apply Ok_inj in H1. injection H1 as <- <-. split; [by eapply release_object_ok|].
    destruct (cw_code _ _ Hwf _ _ Eo) as (_ & _ & Hlen & _). unfold ram_of_code.
    apply s64_small. change setcode_ram_bytes_multiplier with 10. lia.
  - apply Ok_inj in H1. injection H1 as <- <-. assert (key_of m = None) as Hk by (unfold key_of; by rewrite Eh).
    rewrite Hk. destruct (code_wf_metadata l c n m m1 Hwf Hm) as [Hwf1 Hb]; [congruence|]. destruct c as [cs ab].
    split; [|done]. split; [done|]. split; [done|]. intros a _. apply Hb.
Qed.

(** Taking new code. *)
Hypothesis accepted_nonzero : forall a, accepted a -> a <> [] -> sha256 a <> no_hash.

(** Another account runs the code [k], whose object [o] counts one more; the
    object was there before, or it is new. *)
Lemma acquire_object_ok l c n m m1 k o : code_wf l c -> l !! n = Some m -> key_of m = None ->
  key_of m1 = Some k -> k = (sha256 (code o), 0, 0) -> code o <> [] /\ accepted (code o) ->
  is_u32 (Z.of_nat (length (code o))) -> code_ref_count o = users k l + 1 ->
  (forall o', codes c !! k = Some o' -> code o' = code o) ->
  code_moved n l (<[n := m1]> l) c (mk_contracts (<[k := o]> (codes c)) (abis c)).
Proof.
  intros Hwf Hm Hk Hk1 Ek [Hne Hacc] Hlen Hcnt Hsame. pose proof (users_nonneg k l) as Hpos.
  assert (forall k', users k' (<[n := m1]> l) = users k' l + (if decide (k' = k) then 1 else 0)) as Hu.
  { intros k'. rewrite (users_insert _ _ _ _ _ Hm), (user_not _ _ m) by congruence. unfold user. rewrite Hk1.
    repeat destruct (decide _); try lia; congruence. }
  split_and!; [split|done|]; cbn [codes abis].
  - intros k' o' [[<- <-]|[Hne' Ho']]%lookup_insert_Some; rewrite Hu.
    + rewrite decide_True by done. split_and!; try done; lia.
    + rewrite decide_False by done. destruct (cw_code _ _ Hwf _ _ Ho') as (? & [? ?] & ? & ? & ?). split_and!; try done; lia.
  - intros n' m' k' Hm' Hk'. apply lookup_insert_is_Some'. apply lookup_insert_Some in Hm' as [[-> <-]|[Hne' Hm']].
    + left. congruence.
    + right. by eapply (cw_runs _ _ Hwf).
  - intros n'. rewrite (cw_abi _ _ Hwf), lookup_insert_is_Some'. split; [auto|]. intros [<-|?]; [by exists m|done].
  - apply Hwf.
  - intros a Ha. unfold code_bytes, code_of. rewrite lookup_insert_ne by done.
    destruct (l !! a) as [ma|] eqn:Ea; [|done]. destruct (key_of ma) as [k'|] eqn:Ek'; [|done]. cbn [codes].
    destruct (decide (k' = k)) as [->|Hne']; [|by rewrite lookup_insert_ne].
    destruct (cw_runs _ _ Hwf _ _ _ Ea Ek') as [o' Ho']. by rewrite lookup_insert_eq, Ho', (Hsame o').
Qed.

Lemma set_code_key m t act : accepted (sc_code act) -> sc_code act <> [] ->
  vmtype act = 0 -> vmversion act = 0 ->
  key_of (set_metadata_code t m act (sha256 (sc_code act))) = Some (sha256 (sc_code act), 0, 0).
Proof.
  intros Ha Hne Hvt Hvv. unfold key_of. cbn. unfold hash_field.
  rewrite decide_False by (by apply accepted_nonzero). congruence.
Qed.

Lemma acquire_code_ok l c n m block act t :
  let h := if (0 <? length (sc_code act))%nat then sha256 (sc_code act) else no_hash in
  code_wf l c -> Z.of_nat (size l) < 2 ^ 64 - 1 -> is_u32 (Z.of_nat (length (sc_code act))) ->
  (sc_code act <> [] -> accepted (sc_code act)) ->
  l !! n = Some m -> key_of m = None -> vmtype act = 0 -> vmversion act = 0 ->
  code_moved n l (<[n := set_metadata_code t m act h]> l) c
    (mk_contracts (acquire_code block (codes c) act h) (abis c)).
Proof.
  intros h Hwf Hsz Hlen Hacc Hm Hk Hvt Hvv. unfold acquire_code.
  rewrite Hvt, Hvv. subst h. destruct (0 <? length (sc_code act))%nat eqn:En.
  - set (h := sha256 (sc_code act)). assert (sc_code act <> []) as Hne by (intros E; by rewrite E in En).
    pose proof (set_code_key m t act (Hacc Hne) Hne Hvt Hvv) as Hk1. fold h in Hk1.
    pose proof (users_size (h, 0, 0) l) as Hle. destruct (codes c !! (h, 0, 0)) as [o|] eqn:Eo.
    + destruct (cw_code _ _ Hwf _ _ Eo) as (Ek & Hne' & Hlen' & Hcnt & Hpos).
      apply (acquire_object_ok l c n m); try done; cbn; [rewrite u64_small; lia|]. intros o'. by rewrite Eo; intros [= ->].
    + apply (acquire_object_ok l c n m); try done; cbn; [by auto| |congruence].
      rewrite users_zero; [done|]. intros n' m' Hm' Hk'. destruct (cw_runs _ _ Hwf _ _ _ Hm' Hk'). congruence.
  - assert (key_of (set_metadata_code t m act no_hash) = None) as Hk1 by done.
    destruct (code_wf_metadata l c n m (set_metadata_code t m act no_hash) Hwf Hm) as [Hwf1 Hb]; [congruence|].
    destruct c as [cs ab]. split; [done|]. split; [done|]. intros a _. apply Hb.
Qed.

(** The bytes of the new code, when codes with the same hash have the same size. *)
Lemma acquire_code_bytes l c n m block act t :
  let h := if (0 <? length (sc_code act))%nat then sha256 (sc_code act) else no_hash in
  (forall a b, accepted a -> accepted b -> sha256 a = sha256 b -> length a = length b) ->
  code_wf l c -> (sc_code act <> [] -> accepted (sc_code act)) -> vmtype act = 0 -> vmversion act = 0 ->
  code_bytes (<[n := set_metadata_code t m act h]> l)
    (mk_contracts (acquire_code block (codes c) act h) (abis c)) n
  = Z.of_nat (length (sc_code act)) * setcode_ram_bytes_multiplier.
Proof.
  intros h Hsizes Hwf Hacc Hvt Hvv. unfold code_bytes, code_of, acquire_code.
  rewrite lookup_insert_eq, Hvt, Hvv. subst h. destruct (0 <? length (sc_code act))%nat eqn:En; cbn [codes].
  - assert (sc_code act <> []) as Hne by (intros E; by rewrite E in En).
    rewrite (set_code_key m t act (Hacc Hne) Hne Hvt Hvv).
    destruct (codes c !! _) as [o|] eqn:Eo; rewrite lookup_insert_eq; cbn [code]; [|done].
    destruct (cw_code _ _ Hwf _ _ Eo) as (Ek & [_ Ha] & _). injection Ek as Ek.
    cbn [code set_ref_count]. by rewrite (Hsizes _ _ (Hacc Hne) Ha Ek).
  - change (key_of (set_metadata_code t m act no_hash)) with (None : option code_key). by destruct (sc_code act).
Qed.

(** ** The handlers keep the counts and charge what is stored *)

Definition no_code (m : account_metadata) : account_metadata :=
  mk_metadata (recv_sequence m) (auth_sequence m) (code_sequence m) (abi_sequence m) None
    (last_code_update m) (is_privileged m) (vm_type m) (vm_version m).

Abbreviation only_for := ResourceLimits.only_for.

Lemma charge_difference_ok s a new old s' : ResourceLimits.inv (CT.resources s) -> 0 <= new < 2 ^ 62 ->
  0 <= old < 2 ^ 62 -> charge_difference s a new old = Ok s' ->
  TI.charged s s' (fun b => only_for a b (new - old)).
Proof.
  intros Hinv Hn Ho H1. unfold charge_difference in H1. destruct (new =? old) eqn:E; cbn [negb] in H1; bool_to_prop.
  - injection H1 as <-. eapply TI.charged_ext; [|by apply TI.charged_refl]. intros b.
    unfold ResourceLimits.only_for. destruct (decide _); lia.
  - unfold CT.add_ram_usage in H1. apply bind_ok_inv in H1 as (r & Hr & [= <-]). rewrite s64_small in Hr by lia.
    assert (is_s64 (new - old)) as Hd by lia.
    split_and!; [by eauto|by eapply ResourceLimits.ram_usage_inv|by apply ResourceLimits.add_pending_ram_billed].
Qed.

Lemma code_bytes_range l c a : code_wf l c -> 0 <= code_bytes l c a < 2 ^ 36.
Proof.
  intros Hwf. unfold code_bytes, code_of. destruct (l !! a) as [m|]; [|lia]. destruct (key_of m) as [k|]; [|lia].
  destruct (codes c !! k) as [o|] eqn:Eo; [|lia]. destruct (cw_code _ _ Hwf _ _ Eo) as (_ & _ & Hlen & _).
  change setcode_ram_bytes_multiplier with 10. lia.
Qed.

Lemma abi_bytes_range l c a : code_wf l c -> 0 <= abi_bytes c a < 2 ^ 32.
Proof.
  intros Hwf. unfold abi_bytes. destruct (abis c !! a) as [b|] eqn:Eb; [|lia].
  apply (cw_abi_size _ _ Hwf) in Eb. lia.
Qed.

(** What a handler does: the counts are kept, the account is charged for what
    is stored, and only code and ABI of the metadata change. *)
Record handled (s s' : code_state) : Prop := {
  hd_wf : code_wf (metadata s') (stored s');
  hd_ram : TI.charged (tables s) (tables s')
    (fun a => contract_bytes (metadata s') (stored s') a - contract_bytes (metadata s) (stored s) a);
  hd_sequences : ActionOrder.same_sequences (metadata s) (metadata s');
  hd_dom : dom (metadata s') = dom (metadata s);
}.

(** What setcode does to code and metadata, and how it charges. *)
Lemma setcode_moved validate block time x s act s' :
  code_wf (metadata s) (stored s) -> ResourceLimits.inv (CT.resources (tables s)) ->
  Z.of_nat (size (metadata s)) < 2 ^ 63 -> is_u32 (Z.of_nat (length (sc_code act))) ->
  (sc_code act <> [] -> validate (sc_code act) = Ok tt -> accepted (sc_code act)) ->
  apply_eosio_setcode sha256 validate block time x s act = Ok s' ->
  code_moved (sc_account act) (metadata s) (metadata s') (stored s) (stored s') /\
  TI.charged (tables s) (tables s') (fun a => only_for (sc_account act) a
    (Z.of_nat (length (sc_code act)) * setcode_ram_bytes_multiplier
     - code_bytes (metadata s) (stored s) (sc_account act))) /\
  ActionOrder.same_sequences (metadata s) (metadata s') /\ dom (metadata s') = dom (metadata s) /\
  ((forall a b, accepted a -> accepted b -> sha256 a = sha256 b -> length a = length b) ->
   code_bytes (metadata s') (stored s') (sc_account act)
   = Z.of_nat (length (sc_code act)) * setcode_ram_bytes_multiplier).
Proof.
  intros Hwf Hinv Hsz Hlen Hval H1. unfold apply_eosio_setcode in H1. apply bind_ok_inv in H1 as ([] & _ & H1).
  apply bind_ok_inv in H1 as ([] & Hvt & H1). apply bind_ok_inv in H1 as ([] & Hvv & H1).
  apply EOS_ASSERT_ok in Hvt, Hvv. bool_to_prop. apply bind_ok_inv in H1 as ([] & Hvc & H1).
  assert (sc_code act <> [] -> accepted (sc_code act)) as Hacc.
  { intros Hne. apply (Hval Hne). by destruct (sc_code act). }
  destruct (metadata s !! sc_account act) as [m|] eqn:Em; [|done]. apply bind_ok_inv in H1 as ([] & _ & H1).
  apply bind_ok_inv in H1 as ([cs old] & Hrel & H1). apply bind_ok_inv in H1 as (t & Ht & [= <-]).
  destruct (release_code_ok _ _ _ _ (no_code m) _ _ _ Hwf ltac:(lia) Em eq_refl Hrel) as [(Hwf1 & _ & Hb1) Hold].
  set (l1 := <[sc_account act := no_code m]> (metadata s)) in *. set (c1 := mk_contracts cs (abis (stored s))) in *.
  assert (Z.of_nat (size l1) < 2 ^ 64 - 1) as Hsz1 by (unfold l1; rewrite map_size_insert_Some by done; lia).
  assert (l1 !! sc_account act = Some (no_code m)) as Hm1 by apply lookup_insert_eq.
  destruct (acquire_code_ok l1 c1 _ _ block act time Hwf1 Hsz1 Hlen Hacc Hm1 eq_refl Hvt Hvv) as (Hwf2 & _ & Hb2).
  pose proof (fun Hs => acquire_code_bytes l1 c1 (sc_account act) (no_code m) block act time Hs Hwf1 Hacc Hvt Hvv) as Hnew.
  unfold l1 in Hwf2, Hb2, Hnew. rewrite insert_insert_eq in Hwf2, Hb2, Hnew.
  destruct (metadata_changed (metadata s) (sc_account act) m (set_metadata_code time m act
    (if (0 <? length (sc_code act))%nat then sha256 (sc_code act) else no_hash)) Em eq_refl eq_refl) as [Hseq Hdom].
  cbn [metadata stored tables]. 
  split; [split; [exact Hwf2|split; [done|]]|split; [|split; [exact Hseq|split; [exact Hdom|exact Hnew]]]].
  - intros a Ha. etrans; [exact (Hb2 a Ha)|exact (Hb1 a Ha)].
  - pose proof (code_bytes_range _ _ (sc_account act) Hwf) as Hr. rewrite <- Hold in Hr |- *.
    assert (ram_of_code (sc_code act) = Z.of_nat (length (sc_code act)) * setcode_ram_bytes_multiplier) as <-
      by (apply s64_small; change setcode_ram_bytes_multiplier with 10; lia).
    apply charge_difference_ok in Ht; [exact Ht|done| |lia].
    unfold ram_of_code. change setcode_ram_bytes_multiplier with 10. rewrite s64_small by lia. lia.
Qed.

Lemma setcode_handled validate block time x s act s' :
  (forall a b, accepted a -> accepted b -> sha256 a = sha256 b -> length a = length b) ->
  code_wf (metadata s) (stored s) -> ResourceLimits.inv (CT.resources (tables s)) ->
  Z.of_nat (size (metadata s)) < 2 ^ 63 -> is_u32 (Z.of_nat (length (sc_code act))) ->
  (sc_code act <> [] -> validate (sc_code act) = Ok tt -> accepted (sc_code act)) ->
  apply_eosio_setcode sha256 validate block time x s act = Ok s' -> handled s s'.
Proof.
  intros Hsizes Hwf Hinv Hsz Hlen Hval H1.
  destruct (setcode_moved _ _ _ _ _ _ _ Hwf Hinv Hsz Hlen Hval H1) as ((Hwf' & Eabi & Hb) & Hch & Hseq & Hdom & Hnew).
  split; [done| |done|done]. eapply TI.charged_ext; [|exact Hch]. intros a. cbn beta.
  unfold contract_bytes, ResourceLimits.only_for, abi_bytes. rewrite Eabi.
  destruct (decide (a = sc_account act)) as [->|Hne].
  - rewrite (Hnew Hsizes). lia.
  - rewrite (Hb a) by done. lia.
Qed.

Lemma setabi_handled x s act s' :
  code_wf (metadata s) (stored s) -> ResourceLimits.inv (CT.resources (tables s)) ->
  is_u32 (Z.of_nat (length (sa_abi act))) -> apply_eosio_setabi x s act = Ok s' -> handled s s'.
Proof.
  intros Hwf Hinv Hlen H1. unfold apply_eosio_setabi in H1. apply bind_ok_inv in H1 as ([] & _ & H1).
  destruct (abis (stored s) !! sa_account act) as [old|] eqn:Eo; [|done].
  destruct (metadata s !! sa_account act) as [m|] eqn:Em; [|done]. apply bind_ok_inv in H1 as (t & Ht & [= <-]).
  destruct (code_wf_metadata _ _ _ _ (set_metadata_abi m) Hwf Em eq_refl) as [Hwf1 Hb].
  destruct (metadata_changed (metadata s) (sa_account act) m (set_metadata_abi m) Em eq_refl eq_refl) as [Hseq Hdom].
  split; cbn [metadata stored tables]; [| |exact Hseq|exact Hdom].
  - split; cbn [codes abis]; [apply Hwf1|apply Hwf1|..].
    + intros n. rewrite lookup_insert_is_Some', <- (cw_abi _ _ Hwf1). split; [intros [<-|?]|]; eauto.
    + intros n b [[<- <-]|[_ Hb']]%lookup_insert_Some; [done|]. by apply (cw_abi_size _ _ Hwf1) in Hb'.
  - pose proof (cw_abi_size _ _ Hwf _ _ Eo) as Hold. apply charge_difference_ok in Ht; [|done|lia|lia].
    eapply TI.charged_ext; [|exact Ht]. intros a. unfold contract_bytes.
    change (code_bytes ?l (mk_contracts (codes (stored s)) ?b) a) with (code_bytes l (stored s) a). rewrite Hb.
    unfold abi_bytes, ResourceLimits.only_for. cbn [abis]. destruct (decide (sa_account act = a)) as [<-|Hne].
    + rewrite decide_True, lookup_insert_eq, Eo by done. lia.
    + rewrite decide_False, lookup_insert_ne by done. lia.
Qed.

(** A new account has no code. *)
Lemma new_account_wf l c n m abi : code_wf l c -> l !! n = None -> key_of m = None ->
  is_u32 (Z.of_nat (length abi)) ->
  let l' := <[n := m]> l in let c' := mk_contracts (codes c) (<[n := abi]> (abis c)) in
  code_wf l' c' /\
  forall a, contract_bytes l' c' a = contract_bytes l c a + only_for n a (Z.of_nat (length abi)).
Proof.
  intros Hwf Hn Hm Habi l' c'. assert (abis c !! n = None) as Ha.
  { apply eq_None_not_Some. intros Hs. apply (cw_abi _ _ Hwf) in Hs as [m' Hm']. congruence. }
  split; [split|]; cbn [codes abis c'].
  - intros k o Ho. unfold users, l'. rewrite sum_map_insert_new, user_not by (done || congruence). by apply (cw_code _ _ Hwf).
  - intros n' m' k [[-> <-]|[_ Hm']]%lookup_insert_Some Hk; [congruence|by eapply (cw_runs _ _ Hwf)].
  - intros n'. unfold l'. rewrite !lookup_insert_is_Some', (cw_abi _ _ Hwf). done.
  - intros n' b [[-> <-]|[_ Hb]]%lookup_insert_Some; [done|by apply (cw_abi_size _ _ Hwf) in Hb].
  - intros a. unfold contract_bytes, code_bytes, code_of, abi_bytes, l', c', ResourceLimits.only_for. cbn [codes abis].
    destruct (decide (a = n)) as [->|Hne].
    + rewrite !lookup_insert_eq, Hn, Ha, Hm. lia.
    + rewrite !lookup_insert_ne by congruence. lia.
Qed.

(** ** The states of the chain *)

Section steps.
Context (validate_code : list Z -> result unit).

(** Actions, in any blocks and contexts; other handlers create accounts,
    count sequence numbers, grant privileges and charge RAM. *)
Inductive code_step : code_state -> code_state -> Prop :=
  | cs_setcode block time x s act s' : is_u32 (Z.of_nat (length (sc_code act))) ->
      (sc_code act <> [] -> accepted (sc_code act)) ->
      apply_eosio_setcode sha256 validate_code block time x s act = Ok s' -> code_step s s'
  | cs_setabi x s act s' : is_u32 (Z.of_nat (length (sa_abi act))) ->
      apply_eosio_setabi x s act = Ok s' -> code_step s s'
  | cs_newaccount s n : metadata s !! n = None -> Z.of_nat (size (metadata s)) < 2 ^ 62 ->
      code_step s (mk_code_state (<[n := new_metadata]> (metadata s))
                     (mk_contracts (codes (stored s)) (<[n := []]> (abis (stored s)))) (tables s))
  | cs_metadata s n m m' : metadata s !! n = Some m -> key_of m' = key_of m ->
      code_step s (mk_code_state (<[n := m']> (metadata s)) (stored s) (tables s))
  | cs_ram s t : ResourceLimits.inv (CT.resources t) ->
      code_step s (mk_code_state (metadata s) (stored s) t).

Record state_ok (s : code_state) : Prop := {
  so_code : code_wf (metadata s) (stored s);
  so_ram : ResourceLimits.inv (CT.resources (tables s));
  so_size : Z.of_nat (size (metadata s)) < 2 ^ 63;
}.

Lemma handled_ok s s' : state_ok s -> handled s s' -> state_ok s'.
Proof.
  intros Hs [Hwf (_ & Hinv & _) _ Hdom]. split; [done..|].
  rewrite <- (size_dom (D := gset account_name)), Hdom, size_dom. apply Hs.
Qed.

Lemma code_step_ok s s' : state_ok s -> code_step s s' -> state_ok s'.
Proof.
  intros Hs Hst. pose proof Hs as [Hwf Hinv Hsz]. destruct Hst as [block time x s act s' Hl Ha H1|x s act s' Hl H1|s n Hn Hc|s n m m' Hm Hk|s t Ht].
  - destruct (setcode_moved validate_code block time x s act s' Hwf Hinv Hsz Hl) as ((Hwf' & _) & (_ & Hi & _) & _ & Hdom & _); [by auto|done|].
    split; [done..|]. rewrite <- (size_dom (D := gset account_name)), Hdom, size_dom. done.
  - by eapply handled_ok; [|eapply setabi_handled].
  - split; cbn; [by apply new_account_wf; cbn; try lia|done|]. rewrite map_size_insert_None by done. lia.
  - split; cbn; [by eapply code_wf_metadata|done|]. by rewrite map_size_insert_Some.
  - by split.
Qed.

(** No account and no code. *)
Definition no_accounts (t : CT.state) : code_state := mk_code_state ∅ (mk_contracts ∅ ∅) t.

Lemma no_accounts_ok t : ResourceLimits.inv (CT.resources t) -> state_ok (no_accounts t).
Proof.
  intros Ht. split; [|done|done]. split; cbn.
  - intros k o Ho. by rewrite lookup_empty in Ho.
  - intros n m k Hm. by rewrite lookup_empty in Hm.
  - intros n. by rewrite !lookup_empty.
  - intros n b Hb. by rewrite lookup_empty in Hb.
Qed.

Lemma code_steps_ok t s : ResourceLimits.inv (CT.resources t) -> rtc code_step (no_accounts t) s -> state_ok s.
Proof.
  intros Ht. revert s. apply rtc_ind_r; [by apply no_accounts_ok|].
  intros s1 s2 _ Hst Hs. by eapply code_step_ok.
Qed.

End steps.
End invariant.

(** C13: Contract code is counted.  After any sequence of setcode, setabi and
    the other changes to accounts, every code object is stored under the hash
    of its code, is not empty, and its reference count is the number of
    accounts that run it, which is not zero; and for every account with code
    the table has an object with the hash that the account names, so that
    setcode always finds the code that it replaces.  No code that is set has
    the hash 0, which the table uses for accounts without code; nothing else
    is assumed of the hash, so two codes may share one.  Codes and ABIs have
    less than 2^32 bytes, and there are less than 2^62 accounts. *)
Theorem code_references_counted (sha256 : list Z -> digest_type) (validate_code : list Z -> result unit)
    (t : CT.state) (s : code_state) :
  ResourceLimits.inv (CT.resources t) ->
  rtc (code_step sha256 (fun c => sha256 c <> no_hash) validate_code) (no_accounts t) s ->
  (forall k o, codes (stored s) !! k = Some o -> k = (sha256 (code o), 0, 0) /\ code o <> [] /\
     code_ref_count o = users k (metadata s) /\ 0 < code_ref_count o) /\
  (forall n m h, metadata s !! n = Some m -> code_hash m = Some h ->
     exists o, codes (stored s) !! (h, vm_type m, vm_version m) = Some o /\ sha256 (code o) = h).
Proof.
  intros Ht Hrun. destruct (code_steps_ok sha256 (fun c => sha256 c <> no_hash) (fun c Hc _ => Hc) validate_code t s Ht Hrun)
    as [Hwf _ _]. split.
  - intros k o Ho. destruct (cw_code _ _ _ _ Hwf _ _ Ho) as (? & [? _] & _ & ? & ?). done.
  - intros n m h Hm Hh. assert (key_of m = Some (h, vm_type m, vm_version m)) as Hk by (unfold key_of; by rewrite Hh).
    destruct (cw_runs _ _ _ _ Hwf _ _ _ Hm Hk) as [o Ho]. exists o. split; [done|].
    destruct (cw_code _ _ _ _ Hwf _ _ Ho) as (Ek & _). by injection Ek.
Qed.

(** ** Samples *)

(** Two accounts set the same code. *)
Definition sample_sha256 (c : list Z) : digest_type := Merkle.mk_digest 1 0 0 (u64 (Z.of_nat (length c))).
Definition sample_valid (c : list Z) : result unit := mret tt.
Definition sample_context (a : account_name) : CT.action_context :=
  CT.mk_action_context AM.system_account_name AM.system_account_name
    [Authority.mk_level a AM.active_name] false false true true.
Definition sample_tables : CT.state := TableSearch.no_tables ResourceLimits.two_accounts_m.

Definition with_account (s : code_state) (n : account_name) : code_state :=
  mk_code_state (<[n := new_metadata]> (metadata s))
    (mk_contracts (codes (stored s)) (<[n := []]> (abis (stored s)))) (tables s).
Definition sample_accounts : code_state :=
  with_account (with_account (no_accounts sample_tables) ResourceLimits.alice) ResourceLimits.bob.
Definition sample_set (a : account_name) (s : code_state) : code_state :=
  match apply_eosio_setcode sample_sha256 sample_valid 2 1000 (sample_context a) s (mk_setcode a 0 0 [0; 97; 115]) with
  | Ok s' => s'
  | Throw _ => s
  end.
Definition sample_coded : code_state :=
  sample_set ResourceLimits.bob (sample_set ResourceLimits.alice sample_accounts).

Lemma sample_sha256_nonzero a : sample_sha256 a <> no_hash.
Proof. by intros [=]. Qed.

Lemma sample_coded_reachable :
  rtc (code_step sample_sha256 (fun c => sample_sha256 c <> no_hash) sample_valid) (no_accounts sample_tables) sample_coded.
Proof.
  eapply rtc_l; [by apply (cs_newaccount _ _ _ _ ResourceLimits.alice)|].
  eapply rtc_l; [by apply (cs_newaccount _ _ _ _ ResourceLimits.bob); vm_compute|].
  eapply rtc_l; [apply (cs_setcode _ _ _ 2 1000 (sample_context ResourceLimits.alice) _
    (mk_setcode ResourceLimits.alice 0 0 [0; 97; 115])); [cbn; lia|intros _; apply sample_sha256_nonzero|instantiate (1 := sample_set ResourceLimits.alice sample_accounts); vm_compute; reflexivity]|].
  apply rtc_once. apply (cs_setcode _ _ _ 2 1000 (sample_context ResourceLimits.bob) _
    (mk_setcode ResourceLimits.bob 0 0 [0; 97; 115])); [cbn; lia|intros _; apply sample_sha256_nonzero|vm_compute; reflexivity].
Qed.

Lemma code_references_counted_witness : exists o,
  codes (stored sample_coded) !! (sample_sha256 [0; 97; 115], 0, 0) = Some o /\ code_ref_count o = 2.
Proof.
  destruct (code_references_counted sample_sha256 sample_valid
    sample_tables sample_coded ResourceLimits.two_accounts_inv sample_coded_reachable) as [Hc _].
  eexists. split; [vm_compute; reflexivity|].
  destruct (Hc (sample_sha256 [0; 97; 115], 0, 0) (mk_code [0; 97; 115] 2 2)) as (_ & _ & E & _);
    [vm_compute; reflexivity|]. rewrite E. vm_compute. reflexivity.
Defined.

End ContractCode.
