(* ===== verification/DeferredTransactions.v ===== *)
(** * Deferred transactions: the deferred part of libraries/chain
      apply_context.cpp, transaction_context.cpp, controller.cpp and
      eosio_contract.cpp, and generated_transaction_object.hpp

    Module [DeferredTransactions] has the table of generated transactions:
    contracts schedule, replace and cancel deferred transactions, a delayed
    input transaction is put into the table and can be cancelled, the
    controller removes, executes or expires what is in it, and the activation
    of replace_deferred gives back the RAM that replacing had billed twice.

    A transaction id is the 256-bit number whose four words are those of the
    hash, the first one lowest.  [packed_trx] is kept unpacked: packing, the
    size of the packed transaction and its id belong to fc and are
    parameters. *)

From S2P Require Import Prelude Names Merkle ProducerSchedule Authority AuthorityChecker.
From S2P Require Import Accumulators ResourceLimits AuthorizationManager AccessLists ChainConfig.
From S2P Require Import BlockHeaderState Transactions TransactionContext TableIndex ContractTables.
From S2P Require Import ActionExecution ContractCode.

Module DeferredTransactions.
Module AM := AuthorizationManager.
Module TX := Transactions.
Module TC := TransactionContext.
Module CT := ContractTables.
Abbreviation account_name := Name.name.
Abbreviation no_name := (Name.mk_name 0).

(** [config::billable_size_v<generated_transaction_object>] *)
Definition billable_generated : Z :=
  Authority.billable_size_v (96 + 4 + CT.overhead_per_row_per_index_ram_bytes * 5).

(** The metadata of the accounts, code and ABIs, [global_action_sequence] of
    the dynamic global properties, and [_action_receipt_digests] of the pending
    block. *)
Record books := mk_books {
  accounts : gmap account_name ActionExecution.account_metadata;
  contracts : ContractCode.contracts;
  global_action_sequence : Z;
  action_receipt_digests : list Merkle.digest_type;
}.

Definition transaction_id_to_sender_id (tid : Z) : Z := Z.shiftr tid 128.

Section deferred.
Context {K Bytes : Type} `{Countable K}.
Abbreviation transaction := (TX.transaction Bytes).
Abbreviation database := (@AM.database K).

(** ** State *)

Record generated_transaction_object := mk_gto {
  id : Z;
  trx_id : Z;
  sender : account_name;
  sender_id : Z;
  payer : account_name;
  delay_until : Z;
  expiration : Z;
  published : Z;
  packed_trx : transaction;
}.

(** The tables of the contracts with the resource limits and the RAM deltas,
    the permissions, the generated transactions in the order of their ids,
    the RAM corrections in the order of their ids, the NET usage of the
    current transaction, and the accounts with their contracts, the sequence
    number of actions and the receipts of the block. *)
Record world := mk_world {
  tables : CT.state;
  permissions : database;
  generated : list generated_transaction_object;
  next_generated : Z;
  ram_corrections : list (account_name * Z);
  net : TC.net_state;
  ledger : books;
}.

Definition set_tables (w : world) (s : CT.state) : world :=
  mk_world s (permissions w) (generated w) (next_generated w) (ram_corrections w) (net w) (ledger w).
Definition set_generated (w : world) l n : world :=
  mk_world (tables w) (permissions w) l n (ram_corrections w) (net w) (ledger w).
Definition set_corrections (w : world) l : world :=
  mk_world (tables w) (permissions w) (generated w) (next_generated w) l (net w) (ledger w).
Definition set_net (w : world) n : world :=
  mk_world (tables w) (permissions w) (generated w) (next_generated w) (ram_corrections w) n
    (ledger w).
Definition set_ledger (w : world) b : world :=
  mk_world (tables w) (permissions w) (generated w) (next_generated w) (ram_corrections w) (net w) b.

(** [get_index<generated_transaction_multi_index, by_trx_id>], as the
    authorization manager reads it *)
Definition generated_of (g : generated_transaction_object) : AM.generated_transaction :=
  AM.mk_generated (trx_id g) (sender g) (delay_until g) (published g)
    (AM.authorization <$> TX.actions (packed_trx g)).
Definition auth_view (w : world) : database :=
  let d := permissions w in
  AM.mk_database (AM.account_index d) (AM.permission_index d) (AM.next_permission d)
    (AM.permission_usage_index d) (AM.next_usage d) (AM.permission_link_index d)
    (list_to_map ((fun g => (trx_id g, generated_of g)) <$> generated w))
    (CT.resources (tables w)) (CT.account_ram_deltas (tables w)) (CT.validate_ram_usage (tables w)).

(** [db.find<generated_transaction_object, by_sender_id>] and [by_trx_id] *)
Definition find_by_sender_id (w : world) (s : account_name) (i : Z)
  : option generated_transaction_object :=
  snd <$> list_find (fun g => sender g = s /\ sender_id g = i) (generated w).
Definition find_by_trx_id (w : world) (i : Z) : option generated_transaction_object :=
  snd <$> list_find (fun g => trx_id g = i) (generated w).

Definition remove (w : world) (g : generated_transaction_object) : world :=
  set_generated w (filter (fun g' => id g' <> id g) (generated w)) (next_generated w).

(** [db.create<generated_transaction_object>]: the ids and the pairs of sender
    and sender id are unique. *)
Definition create (w : world) (tid : Z) (s : account_name) (sid : Z) (p : account_name)
    (until exp pub : Z) (t : transaction) : result world :=
  EOS_ASSERT (bool_decide (find_by_trx_id w tid = None)) uniqueness_violation;;
  EOS_ASSERT (bool_decide (find_by_sender_id w s sid = None)) uniqueness_violation;;
  mret (set_generated w
          (generated w ++ [mk_gto (next_generated w) tid s sid p until exp pub t])
          (next_generated w + 1)).

(** ** What the code reads *)

(** Through the controller and the transaction context, besides what
    [TransactionContext.controller] has. *)
Record node := mk_node {
  trx_control : @TC.controller K _ _;
  no_duplicate_deferred_id : bool;
  restrict_action_to_self : bool;
  replace_deferred : bool;
  skip_auth_check : bool;
  all_subjective_mitigations_disabled : bool;
  head_block_id : Merkle.digest_type;
  enforce_whiteblacklist : bool;
  is_read_only : bool;
  (** [trx_context.packed_trx] and [trx_context.delay] *)
  current_trx : transaction;
  current_delay : Z;
}.

(** fc: the id of a transaction, its packed size, the byte order swap, and the
    packing of the extension; and [act.data_as<T>()]. *)
Record library := mk_library {
  id_of : transaction -> Z;
  pack_size : transaction -> Z;
  endian_reverse_u32 : Z -> Z;
  unpack_generation_context : Bytes -> result TX.deferred_transaction_generation_context;
  pack_generation_context : TX.deferred_transaction_generation_context -> Bytes;
  as_updateauth : Bytes -> result (@AM.updateauth K);
  as_deleteauth : Bytes -> result AM.deleteauth;
  as_linkauth : Bytes -> result AM.linkauth;
  as_unlinkauth : Bytes -> result AM.unlinkauth;
  as_canceldelay : Bytes -> result AM.canceldelay;
}.

Section operations.
Context (f : library) (n : node).
Abbreviation g := (trx_control n).
Abbreviation cfg := (TC.configuration g).

(** [config::billable_size_v<generated_transaction_object> + packed_trx.size()] *)
Definition ram_bytes (t : transaction) : Z := u64 (billable_generated + pack_size f t).

(** ** Scheduling *)

Definition emplace_extension (exts : list (Z * Bytes)) (eid : Z) (data : Bytes)
  : list (Z * Bytes) := insert_upper fst (eid, data) exts.

(** The generation context that the transaction carries or gets. *)
Definition check_generation_context (receiver : account_name) (sid : Z) (t : transaction)
  : result transaction :=
  exts ← TX.validate_and_extract_extensions (unpack_generation_context f) t;
  match exts with
  | [] =>
      mret (TX.set_extensions t
              (emplace_extension (TX.transaction_extensions t) TX.generation_context_id
                 (pack_generation_context f
                    (TX.mk_generation_context (id_of f (current_trx n)) sid receiver))))
  | (_, c) :: rest =>
      EOS_ASSERT (length rest =? 0)%nat invalid_transaction_extension;;
      EOS_ASSERT (bool_decide (TX.sender c = receiver))
        ill_formed_deferred_transaction_generation_context;;
      EOS_ASSERT (TX.sender_id c =? sid) ill_formed_deferred_transaction_generation_context;;
      EOS_ASSERT (TX.sender_trx_id c =? id_of f (current_trx n))
        ill_formed_deferred_transaction_generation_context;;
      mret t
  end.

Definition prepare_deferred (receiver : account_name) (sid : Z) (t : transaction)
  : result transaction :=
  if no_duplicate_deferred_id n then
    t ← check_generation_context receiver sid t;
    mret (TX.set_header t 0 0 0)
  else
    let t := TX.set_header t (u32 (Z.quot (TC.pending_block_time g + 999999) 1000000))
               (TX.ref_block_num t) (TX.ref_block_prefix t) in
    mret (TX.set_reference_block (endian_reverse_u32 f) t (head_block_id n)).

(** [fc::seconds( trx.delay_sec )] *)
Definition delay_of (t : transaction) : Z := TX.delay_sec t * 1000000.

Definition is_sending_only_to_self (t : transaction) (self : account_name) : bool :=
  forallb (fun a => bool_decide (AM.act_account a = self)) (TX.actions t).

Definition check_deferred_payer (x : CT.action_context) (p : account_name) : result unit :=
  if negb (bool_decide (p = CT.receiver x)) then
    if CT.ram_restrictions x then
      EOS_ASSERT (bool_decide (CT.receiver x = CT.act_account x)) action_validate_exception;;
      EOS_ASSERT (CT.has_authorization x p) action_validate_exception
    else CT.require_authorization x p
  else mret tt.

Definition check_deferred_authorization (x : CT.action_context) (w : world) (t : transaction)
  : result unit :=
  match AM.check_authorization (as_updateauth f) (as_deleteauth f) (as_linkauth f)
          (as_unlinkauth f) (as_canceldelay f) (TC.auth_control g) (auth_view w) (TX.actions t) []
          {[Authority.mk_level (CT.receiver x) AM.eosio_code_name]} (delay_of t) false false ∅ with
  | Ok _ => mret tt
  | Throw ex =>
      if restrict_action_to_self n || negb (is_sending_only_to_self t (CT.receiver x))
      then Throw ex
      else if TC.is_producing_block g then Throw subjective_block_production_exception
      else mret tt
  end.

(** [controller::add_to_ram_correction] *)
Fixpoint add_correction (l : list (account_name * Z)) (a : account_name) (bytes : Z)
  : list (account_name * Z) :=
  match l with
  | [] => [(a, bytes)]
  | (b, c) :: l =>
      if bool_decide (b = a) then (b, u64 (c + bytes)) :: l else (b, c) :: add_correction l a bytes
  end.
Definition add_to_ram_correction (w : world) (a : account_name) (bytes : Z) : world :=
  set_corrections w (add_correction (ram_corrections w) a bytes).

(** [apply_context::add_ram_usage] *)
Definition add_ram_usage (w : world) (a : account_name) (ram_delta : Z) : result world :=
  s ← CT.add_ram_usage (tables w) a ram_delta; mret (set_tables w s).

(** The new object, at the time of the pending block. *)
Definition create_at (w : world) (tid : Z) (s : account_name) (sid : Z) (p : account_name)
    (delay : Z) (t : transaction) : result world :=
  let pub := TC.pending_block_time g in
  create w tid s sid p (pub + delay)
    (pub + delay + ChainConfig.deferred_trx_expiration_window cfg * 1000000) pub t.

Definition replace_or_create (x : CT.action_context) (w : world) (sid : Z) (p : account_name)
    (t : transaction) (replace_existing : bool) : result world :=
  match find_by_sender_id w (CT.receiver x) sid with
  | Some old =>
      EOS_ASSERT replace_existing deferred_tx_duplicate;;
      EOS_ASSERT (replace_deferred n || negb (TC.is_producing_block g)
                  || all_subjective_mitigations_disabled n)
        subjective_block_production_exception;;
      let bytes := ram_bytes (packed_trx old) in
      w ← (if replace_deferred n then add_ram_usage w (payer old) (s64 (- s64 bytes))
           else mret (add_to_ram_correction w (payer old) bytes));
      let tid := if replace_deferred n then id_of f t else trx_id old in
      create_at (remove w old) tid (CT.receiver x) sid p (delay_of t) t
  | None => create_at w (id_of f t) (CT.receiver x) sid p (delay_of t) t
  end.

Definition schedule_deferred_transaction (x : CT.action_context) (w : world) (sid : Z)
    (p : account_name) (t : transaction) (replace_existing : bool) : result world :=
  EOS_ASSERT (length (TX.context_free_actions t) =? 0)%nat cfa_inside_generated_tx;;
  TC.validate_referenced_accounts g (permissions w) (is_read_only n) t
    (enforce_whiteblacklist n && TC.is_producing_block g
     && negb (AccessLists.sender_avoids_whitelist_blacklist_enforcement (TC.access g) (CT.receiver x)));;
  t ← prepare_deferred (CT.receiver x) sid t;
  usage ← TC.add_net_usage g (net w) (ChainConfig.base_per_transaction_net_usage cfg + ChainConfig.transaction_id_net_usage);
  let w := set_net w usage in
  (if negb (skip_auth_check n) && negb (CT.privileged x) then
     check_deferred_payer x p;; check_deferred_authorization x w t
   else mret tt);;
  w ← replace_or_create x w sid p t replace_existing;
  EOS_ASSERT (CT.ram_restrictions x || CT.is_ram_billing_in_notify_allowed x
              || bool_decide (CT.receiver x = CT.act_account x)
              || bool_decide (CT.receiver x = p) || CT.privileged x)
    subjective_block_production_exception;;
  add_ram_usage w p (s64 (ram_bytes t)).

(** ** Cancelling *)

Definition cancel_deferred_transaction (w : world) (sid : Z) (s : account_name)
  : result (bool * world) :=
  match find_by_sender_id w s sid with
  | Some gto =>
      w ← add_ram_usage w (payer gto) (s64 (- ram_bytes (packed_trx gto)));
      mret (true, remove w gto)
  | None => mret (false, w)
  end.

Definition apply_eosio_canceldelay (x : CT.action_context) (w : world) (c : AM.canceldelay)
  : result world :=
  CT.require_authorization x (Authority.actor (AM.canceling_auth c));;
  '(_, w) ← cancel_deferred_transaction w (transaction_id_to_sender_id (AM.cd_trx_id c)) no_name;
  mret w.

(** ** Delayed input transactions *)

(** [transaction_context::add_ram_usage] *)
Definition trx_add_ram_usage (w : world) (a : account_name) (ram_delta : Z) : result world :=
  let s := tables w in
  r ← ResourceLimits.add_pending_ram_usage (CT.resources s) a ram_delta;
  mret (set_tables w (CT.set_ram s r (CT.account_ram_deltas s)
          (if 0 <? ram_delta then {[a]} ∪ CT.validate_ram_usage s else CT.validate_ram_usage s))).

Definition schedule_transaction (w : world) : result world :=
  let t := current_trx n in
  w ← (if TX.delay_sec t =? 0 then
         usage ← TC.add_net_usage g (net w)
                   (ChainConfig.base_per_transaction_net_usage cfg + ChainConfig.transaction_id_net_usage);
         mret (set_net w usage)
       else mret w);
  let first_auth := TX.first_authorizer t in
  w ← create_at w (id_of f t) no_name (transaction_id_to_sender_id (id_of f t)) first_auth
        (current_delay n) t;
  trx_add_ram_usage w first_auth (s64 (ram_bytes t)).

(** ** The controller *)

Definition remove_scheduled_transaction (w : world) (gto : generated_transaction_object)
  : result world :=
  let s := tables w in
  r ← ResourceLimits.add_pending_ram_usage (CT.resources s) (payer gto)
        (s64 (- ram_bytes (packed_trx gto)));
  mret (remove (set_tables w (CT.set_ram s r (CT.account_ram_deltas s) (CT.validate_ram_usage s))) gto).

(** [on_activation<replace_deferred>]: the loop takes the first correction
    until there is none. *)
Definition correct_ram (m : ResourceLimits.manager) (c : account_name * Z)
  : result ResourceLimits.manager :=
  current_ram_usage ← ResourceLimits.get_account_ram_usage m c.1;
  let ram_delta := if u64 current_ram_usage <? c.2 then s64 (- current_ram_usage)
                   else s64 (- s64 c.2) in
  ResourceLimits.add_pending_ram_usage m c.1 ram_delta.

Definition activate_replace_deferred (w : world) : result world :=
  let s := tables w in
  r ← foldM correct_ram (CT.resources s) (ram_corrections w);
  mret (set_corrections
          (set_tables w (CT.set_ram s r (CT.account_ram_deltas s) (CT.validate_ram_usage s))) []).

End operations.
End deferred.
Arguments generated_transaction_object : clear implicits.
Arguments world : clear implicits.
Arguments node K Bytes {_ _}.
Arguments library : clear implicits.
End DeferredTransactions.
