(* ===== verification/SystemAbi.v ===== *)
(** * The initial ABI of the system account

    [eosio_abi_bin] of libraries/chain/eosio_contract_abi_bin.cpp, byte for
    byte: the ABI that genesis stores for the account eosio. *)

From S2P Require Import Prelude.

Module SystemAbi.

Definition eosio_abi_bin : list Z :=
  [
    14; 101; 111; 115; 105; 111; 58; 58; 97; 98; 105; 47; 49; 46; 48; 7; 12; 97; 99; 99; 111; 117;
    110; 116; 95; 110; 97; 109; 101; 4; 110; 97; 109; 101; 15; 112; 101; 114; 109; 105; 115; 115;
    105; 111; 110; 95; 110; 97; 109; 101; 4; 110; 97; 109; 101; 11; 97; 99; 116; 105; 111; 110;
    95; 110; 97; 109; 101; 4; 110; 97; 109; 101; 10; 116; 97; 98; 108; 101; 95; 110; 97; 109; 101;
    4; 110; 97; 109; 101; 19; 116; 114; 97; 110; 115; 97; 99; 116; 105; 111; 110; 95; 105; 100;
    95; 116; 121; 112; 101; 11; 99; 104; 101; 99; 107; 115; 117; 109; 50; 53; 54; 13; 98; 108;
    111; 99; 107; 95; 105; 100; 95; 116; 121; 112; 101; 11; 99; 104; 101; 99; 107; 115; 117; 109;
    50; 53; 54; 11; 119; 101; 105; 103; 104; 116; 95; 116; 121; 112; 101; 6; 117; 105; 110; 116;
    49; 54; 22; 16; 112; 101; 114; 109; 105; 115; 115; 105; 111; 110; 95; 108; 101; 118; 101; 108;
    0; 2; 5; 97; 99; 116; 111; 114; 12; 97; 99; 99; 111; 117; 110; 116; 95; 110; 97; 109; 101; 10;
    112; 101; 114; 109; 105; 115; 115; 105; 111; 110; 15; 112; 101; 114; 109; 105; 115; 115; 105;
    111; 110; 95; 110; 97; 109; 101; 6; 97; 99; 116; 105; 111; 110; 0; 4; 7; 97; 99; 99; 111; 117;
    110; 116; 12; 97; 99; 99; 111; 117; 110; 116; 95; 110; 97; 109; 101; 4; 110; 97; 109; 101; 11;
    97; 99; 116; 105; 111; 110; 95; 110; 97; 109; 101; 13; 97; 117; 116; 104; 111; 114; 105; 122;
    97; 116; 105; 111; 110; 18; 112; 101; 114; 109; 105; 115; 115; 105; 111; 110; 95; 108; 101;
    118; 101; 108; 91; 93; 4; 100; 97; 116; 97; 5; 98; 121; 116; 101; 115; 9; 101; 120; 116; 101;
    110; 115; 105; 111; 110; 0; 2; 4; 116; 121; 112; 101; 6; 117; 105; 110; 116; 49; 54; 4; 100;
    97; 116; 97; 5; 98; 121; 116; 101; 115; 18; 116; 114; 97; 110; 115; 97; 99; 116; 105; 111;
    110; 95; 104; 101; 97; 100; 101; 114; 0; 6; 10; 101; 120; 112; 105; 114; 97; 116; 105; 111;
    110; 14; 116; 105; 109; 101; 95; 112; 111; 105; 110; 116; 95; 115; 101; 99; 13; 114; 101; 102;
    95; 98; 108; 111; 99; 107; 95; 110; 117; 109; 6; 117; 105; 110; 116; 49; 54; 16; 114; 101;
    102; 95; 98; 108; 111; 99; 107; 95; 112; 114; 101; 102; 105; 120; 6; 117; 105; 110; 116; 51;
    50; 19; 109; 97; 120; 95; 110; 101; 116; 95; 117; 115; 97; 103; 101; 95; 119; 111; 114; 100;
    115; 9; 118; 97; 114; 117; 105; 110; 116; 51; 50; 16; 109; 97; 120; 95; 99; 112; 117; 95; 117;
    115; 97; 103; 101; 95; 109; 115; 5; 117; 105; 110; 116; 56; 9; 100; 101; 108; 97; 121; 95;
    115; 101; 99; 9; 118; 97; 114; 117; 105; 110; 116; 51; 50; 11; 116; 114; 97; 110; 115; 97; 99;
    116; 105; 111; 110; 18; 116; 114; 97; 110; 115; 97; 99; 116; 105; 111; 110; 95; 104; 101; 97;
    100; 101; 114; 3; 20; 99; 111; 110; 116; 101; 120; 116; 95; 102; 114; 101; 101; 95; 97; 99;
    116; 105; 111; 110; 115; 8; 97; 99; 116; 105; 111; 110; 91; 93; 7; 97; 99; 116; 105; 111; 110;
    115; 8; 97; 99; 116; 105; 111; 110; 91; 93; 22; 116; 114; 97; 110; 115; 97; 99; 116; 105; 111;
    110; 95; 101; 120; 116; 101; 110; 115; 105; 111; 110; 115; 11; 101; 120; 116; 101; 110; 115;
    105; 111; 110; 91; 93; 12; 112; 114; 111; 100; 117; 99; 101; 114; 95; 107; 101; 121; 0; 2; 13;
    112; 114; 111; 100; 117; 99; 101; 114; 95; 110; 97; 109; 101; 12; 97; 99; 99; 111; 117; 110;
    116; 95; 110; 97; 109; 101; 17; 98; 108; 111; 99; 107; 95; 115; 105; 103; 110; 105; 110; 103;
    95; 107; 101; 121; 10; 112; 117; 98; 108; 105; 99; 95; 107; 101; 121; 17; 112; 114; 111; 100;
    117; 99; 101; 114; 95; 115; 99; 104; 101; 100; 117; 108; 101; 0; 2; 7; 118; 101; 114; 115;
    105; 111; 110; 6; 117; 105; 110; 116; 51; 50; 9; 112; 114; 111; 100; 117; 99; 101; 114; 115;
    14; 112; 114; 111; 100; 117; 99; 101; 114; 95; 107; 101; 121; 91; 93; 12; 98; 108; 111; 99;
    107; 95; 104; 101; 97; 100; 101; 114; 0; 9; 9; 116; 105; 109; 101; 115; 116; 97; 109; 112; 6;
    117; 105; 110; 116; 51; 50; 8; 112; 114; 111; 100; 117; 99; 101; 114; 12; 97; 99; 99; 111;
    117; 110; 116; 95; 110; 97; 109; 101; 9; 99; 111; 110; 102; 105; 114; 109; 101; 100; 6; 117;
    105; 110; 116; 49; 54; 8; 112; 114; 101; 118; 105; 111; 117; 115; 13; 98; 108; 111; 99; 107;
    95; 105; 100; 95; 116; 121; 112; 101; 17; 116; 114; 97; 110; 115; 97; 99; 116; 105; 111; 110;
    95; 109; 114; 111; 111; 116; 11; 99; 104; 101; 99; 107; 115; 117; 109; 50; 53; 54; 12; 97; 99;
    116; 105; 111; 110; 95; 109; 114; 111; 111; 116; 11; 99; 104; 101; 99; 107; 115; 117; 109; 50;
    53; 54; 16; 115; 99; 104; 101; 100; 117; 108; 101; 95; 118; 101; 114; 115; 105; 111; 110; 6;
    117; 105; 110; 116; 51; 50; 13; 110; 101; 119; 95; 112; 114; 111; 100; 117; 99; 101; 114; 115;
    18; 112; 114; 111; 100; 117; 99; 101; 114; 95; 115; 99; 104; 101; 100; 117; 108; 101; 63; 17;
    104; 101; 97; 100; 101; 114; 95; 101; 120; 116; 101; 110; 115; 105; 111; 110; 115; 11; 101;
    120; 116; 101; 110; 115; 105; 111; 110; 91; 93; 10; 107; 101; 121; 95; 119; 101; 105; 103;
    104; 116; 0; 2; 3; 107; 101; 121; 10; 112; 117; 98; 108; 105; 99; 95; 107; 101; 121; 6; 119;
    101; 105; 103; 104; 116; 11; 119; 101; 105; 103; 104; 116; 95; 116; 121; 112; 101; 23; 112;
    101; 114; 109; 105; 115; 115; 105; 111; 110; 95; 108; 101; 118; 101; 108; 95; 119; 101; 105;
    103; 104; 116; 0; 2; 10; 112; 101; 114; 109; 105; 115; 115; 105; 111; 110; 16; 112; 101; 114;
    109; 105; 115; 115; 105; 111; 110; 95; 108; 101; 118; 101; 108; 6; 119; 101; 105; 103; 104;
    116; 11; 119; 101; 105; 103; 104; 116; 95; 116; 121; 112; 101; 11; 119; 97; 105; 116; 95; 119;
    101; 105; 103; 104; 116; 0; 2; 8; 119; 97; 105; 116; 95; 115; 101; 99; 6; 117; 105; 110; 116;
    51; 50; 6; 119; 101; 105; 103; 104; 116; 11; 119; 101; 105; 103; 104; 116; 95; 116; 121; 112;
    101; 9; 97; 117; 116; 104; 111; 114; 105; 116; 121; 0; 4; 9; 116; 104; 114; 101; 115; 104;
    111; 108; 100; 6; 117; 105; 110; 116; 51; 50; 4; 107; 101; 121; 115; 12; 107; 101; 121; 95;
    119; 101; 105; 103; 104; 116; 91; 93; 8; 97; 99; 99; 111; 117; 110; 116; 115; 25; 112; 101;
    114; 109; 105; 115; 115; 105; 111; 110; 95; 108; 101; 118; 101; 108; 95; 119; 101; 105; 103;
    104; 116; 91; 93; 5; 119; 97; 105; 116; 115; 13; 119; 97; 105; 116; 95; 119; 101; 105; 103;
    104; 116; 91; 93; 10; 110; 101; 119; 97; 99; 99; 111; 117; 110; 116; 0; 4; 7; 99; 114; 101;
    97; 116; 111; 114; 12; 97; 99; 99; 111; 117; 110; 116; 95; 110; 97; 109; 101; 4; 110; 97; 109;
    101; 12; 97; 99; 99; 111; 117; 110; 116; 95; 110; 97; 109; 101; 5; 111; 119; 110; 101; 114; 9;
    97; 117; 116; 104; 111; 114; 105; 116; 121; 6; 97; 99; 116; 105; 118; 101; 9; 97; 117; 116;
    104; 111; 114; 105; 116; 121; 7; 115; 101; 116; 99; 111; 100; 101; 0; 4; 7; 97; 99; 99; 111;
    117; 110; 116; 12; 97; 99; 99; 111; 117; 110; 116; 95; 110; 97; 109; 101; 6; 118; 109; 116;
    121; 112; 101; 5; 117; 105; 110; 116; 56; 9; 118; 109; 118; 101; 114; 115; 105; 111; 110; 5;
    117; 105; 110; 116; 56; 4; 99; 111; 100; 101; 5; 98; 121; 116; 101; 115; 6; 115; 101; 116; 97;
    98; 105; 0; 2; 7; 97; 99; 99; 111; 117; 110; 116; 12; 97; 99; 99; 111; 117; 110; 116; 95; 110;
    97; 109; 101; 3; 97; 98; 105; 5; 98; 121; 116; 101; 115; 10; 117; 112; 100; 97; 116; 101; 97;
    117; 116; 104; 0; 4; 7; 97; 99; 99; 111; 117; 110; 116; 12; 97; 99; 99; 111; 117; 110; 116;
    95; 110; 97; 109; 101; 10; 112; 101; 114; 109; 105; 115; 115; 105; 111; 110; 15; 112; 101;
    114; 109; 105; 115; 115; 105; 111; 110; 95; 110; 97; 109; 101; 6; 112; 97; 114; 101; 110; 116;
    15; 112; 101; 114; 109; 105; 115; 115; 105; 111; 110; 95; 110; 97; 109; 101; 4; 97; 117; 116;
    104; 9; 97; 117; 116; 104; 111; 114; 105; 116; 121; 10; 100; 101; 108; 101; 116; 101; 97; 117;
    116; 104; 0; 2; 7; 97; 99; 99; 111; 117; 110; 116; 12; 97; 99; 99; 111; 117; 110; 116; 95;
    110; 97; 109; 101; 10; 112; 101; 114; 109; 105; 115; 115; 105; 111; 110; 15; 112; 101; 114;
    109; 105; 115; 115; 105; 111; 110; 95; 110; 97; 109; 101; 8; 108; 105; 110; 107; 97; 117; 116;
    104; 0; 4; 7; 97; 99; 99; 111; 117; 110; 116; 12; 97; 99; 99; 111; 117; 110; 116; 95; 110; 97;
    109; 101; 4; 99; 111; 100; 101; 12; 97; 99; 99; 111; 117; 110; 116; 95; 110; 97; 109; 101; 4;
    116; 121; 112; 101; 11; 97; 99; 116; 105; 111; 110; 95; 110; 97; 109; 101; 11; 114; 101; 113;
    117; 105; 114; 101; 109; 101; 110; 116; 15; 112; 101; 114; 109; 105; 115; 115; 105; 111; 110;
    95; 110; 97; 109; 101; 10; 117; 110; 108; 105; 110; 107; 97; 117; 116; 104; 0; 3; 7; 97; 99;
    99; 111; 117; 110; 116; 12; 97; 99; 99; 111; 117; 110; 116; 95; 110; 97; 109; 101; 4; 99; 111;
    100; 101; 12; 97; 99; 99; 111; 117; 110; 116; 95; 110; 97; 109; 101; 4; 116; 121; 112; 101;
    11; 97; 99; 116; 105; 111; 110; 95; 110; 97; 109; 101; 11; 99; 97; 110; 99; 101; 108; 100;
    101; 108; 97; 121; 0; 2; 14; 99; 97; 110; 99; 101; 108; 105; 110; 103; 95; 97; 117; 116; 104;
    16; 112; 101; 114; 109; 105; 115; 115; 105; 111; 110; 95; 108; 101; 118; 101; 108; 6; 116;
    114; 120; 95; 105; 100; 19; 116; 114; 97; 110; 115; 97; 99; 116; 105; 111; 110; 95; 105; 100;
    95; 116; 121; 112; 101; 7; 111; 110; 101; 114; 114; 111; 114; 0; 2; 9; 115; 101; 110; 100;
    101; 114; 95; 105; 100; 7; 117; 105; 110; 116; 49; 50; 56; 8; 115; 101; 110; 116; 95; 116;
    114; 120; 5; 98; 121; 116; 101; 115; 7; 111; 110; 98; 108; 111; 99; 107; 0; 1; 6; 104; 101;
    97; 100; 101; 114; 12; 98; 108; 111; 99; 107; 95; 104; 101; 97; 100; 101; 114; 10; 0; 64; 158;
    154; 34; 100; 184; 154; 10; 110; 101; 119; 97; 99; 99; 111; 117; 110; 116; 0; 0; 0; 0; 64; 37;
    138; 178; 194; 7; 115; 101; 116; 99; 111; 100; 101; 0; 0; 0; 0; 0; 184; 99; 178; 194; 6; 115;
    101; 116; 97; 98; 105; 0; 0; 64; 203; 218; 168; 108; 82; 213; 10; 117; 112; 100; 97; 116; 101;
    97; 117; 116; 104; 0; 0; 64; 203; 218; 168; 172; 162; 74; 10; 100; 101; 108; 101; 116; 101;
    97; 117; 116; 104; 0; 0; 0; 0; 45; 107; 3; 167; 139; 8; 108; 105; 110; 107; 97; 117; 116; 104;
    0; 0; 64; 203; 218; 192; 233; 226; 212; 10; 117; 110; 108; 105; 110; 107; 97; 117; 116; 104;
    0; 0; 188; 137; 42; 69; 133; 166; 65; 11; 99; 97; 110; 99; 101; 108; 100; 101; 108; 97; 121;
    0; 0; 0; 0; 224; 210; 123; 213; 164; 7; 111; 110; 101; 114; 114; 111; 114; 0; 0; 0; 0; 0; 34;
    26; 207; 164; 7; 111; 110; 98; 108; 111; 99; 107; 0; 0; 0; 0; 0; 0
  ].

Lemma eosio_abi_bin_size : length eosio_abi_bin = 2132%nat.
Proof. vm_compute. reflexivity. Qed.

Lemma eosio_abi_bin_bytes : Forall (fun b => 0 <= b < 256) eosio_abi_bin.
Proof. apply (bool_decide_unpack _). vm_compute. exact I. Qed.

End SystemAbi.
