(* ===== verification/ChainHost.v ===== *)
(** * The chain as the host of contracts: native actions and the execution of
      transactions over the whole state

    Module [ChainHost] puts the components together.  It instantiates the
    interface [ActionExecution.Host] with the state of the chain: the tables
    of contracts, permissions, deferred transactions, and accounts with their
    code.  The native handlers are those that
    libraries/chain/controller.cpp registers; [exec] is
    [transaction_context::exec], and [exec_onerror] the execution of the error
    handler in [apply_onerror].

    Contracts call with arguments of their machine width, which the constructor
    [TableCall] carries as a proof.  The memory of the database is finite:
    [memory] is the limit of chainbase, which throws when it is exceeded. *)

From S2P Require Import Prelude Names Merkle ProducerSchedule Authority AuthorityChecker.
From S2P Require Import Accumulators ResourceLimits AuthorizationManager AuthActions AccessLists.
From S2P Require Import ChainConfig BlockHeaderState Transactions TransactionContext TableIndex.
From S2P Require Import ContractTables TableInvariants TableSearch ActionExecution.
From S2P Require Import TransactionExecution ContractCode DeferredTransactions SystemAbi.

Module ChainHost.
Import DeferredTransactions.
Module AE := ActionExecution.
Module AA := AuthActions.
Module CC := ContractCode.

Definition newaccount_name : Name.name := Eval vm_compute in AM.N "newaccount".
Definition setabi_name : Name.name := Eval vm_compute in AM.N "setabi".
Definition null_account_name : Name.name := Eval vm_compute in AM.N "eosio.null".

Section host.
Context {K Bytes : Type} `{Countable K}.
Abbreviation transaction := (TX.transaction Bytes).
Abbreviation action := (@AM.action Bytes).
Abbreviation world := (world K Bytes).
Abbreviation accounts_map := (gmap account_name AE.account_metadata).
Abbreviation apply_context := (AE.apply_context Bytes).

(** ** Calls *)

(** The database API and the interface to deferred transactions. *)
Inductive chain_call :=
  | TableCall (c : CT.call) (ok : TableSearch.call_ok c)
  | SendDeferred (sender_id : Z) (payer : account_name) (trx : transaction) (replace_existing : bool)
  | CancelDeferred (sender_id : Z).
Inductive chain_answer :=
  | TableAnswer (r : CT.returned)
  | Sent
  | Cancelled (found : bool).

(** ** What the code reads *)

(** Libraries of floating point numbers, keys and hashes; the unpacking of
    native actions, and the validation of code. *)
Record natives := mk_natives {
  f64_lt : Z -> Z -> bool;
  f128_lt : Z -> Z -> bool;
  f64_is_nan : Z -> bool;
  f128_is_nan : Z -> bool;
  memory : CT.state -> bool;
  which : K -> Z;
  key_lt : K -> K -> bool;
  key_pack_size : K -> Z;
  sha256 : list Z -> Merkle.digest_type;
  validate_code : list Z -> result unit;
  as_newaccount : Bytes -> result (@AA.newaccount K);
  as_setcode : Bytes -> result CC.setcode;
  as_setabi : Bytes -> result CC.setabi;
}.

(** The settings of the node that only the execution of actions reads, and the
    code of contracts with the digests of actions and receipts. *)
Record runtime := mk_runtime {
  forward_setcode : bool;
  action_return_value_activated : bool;
  ram_restrictions : bool;
  is_ram_billing_in_notify_allowed : bool;
  max_nonprivileged_inline_action_size : Z;
  max_action_return_value_size : Z;
  next_block_num : Z;
  wasm : Merkle.digest_type -> Name.name -> action -> AE.program Bytes chain_call chain_answer;
  hash_action : action -> Merkle.digest_type;
  generate_action_digest : action -> option Bytes -> Merkle.digest_type;
  hash_receipt : AE.action_receipt -> Merkle.digest_type;
  packed_size : action -> Z;
  data_size : Bytes -> Z;
}.

Section operations.
Context (f : library K Bytes) (v : natives) (y : runtime) (n : node K Bytes).
Abbreviation g := (trx_control n).

(** [interface::send_deferred], [interface::cancel_deferred] and the database
    API *)
Definition call_chain (x : CT.action_context) (w : world) (c : chain_call)
  : result (chain_answer * world) :=
  match c with
  | TableCall c _ =>
      '(r, s) ← CT.call_api x (f64_lt v) (f128_lt v) (f64_is_nan v) (f128_is_nan v) (tables w) c;
      EOS_ASSERT (memory v s) bad_alloc;;
      mret (TableAnswer r, set_tables w s)
  | SendDeferred sid p t b =>
      EOS_ASSERT (negb (CT.context_free x)) unaccessible_api;;
      w ← schedule_deferred_transaction f n x w sid p t b;
      mret (Sent, w)
  | CancelDeferred sid =>
      EOS_ASSERT (negb (CT.context_free x)) unaccessible_api;;
      '(b, w) ← cancel_deferred_transaction f w sid (CT.receiver x);
      mret (Cancelled b, w)
  end.

#[export] Instance chain_host : AE.Host K world chain_call chain_answer := {
  host_call := call_chain;
  host_new_context w := set_tables w (CT.new_context (tables w));
  host_check_ram x w := CT.check_ram_deltas x (tables w);
  host_finalize_trace w := set_tables w (TransactionExecution.finalize_trace (tables w));
  host_auth := auth_view;
}.

(** ** Native actions *)

(** The context that the table operations read, [ActionExecution.view]. *)
Definition native_context (x : apply_context) : CT.action_context :=
  CT.mk_action_context (AE.ctx_receiver x) (AM.act_account (AE.ctx_act x))
    (AM.authorization (AE.ctx_act x)) (AE.ctx_privileged x) (AE.ctx_context_free x)
    (ram_restrictions y) (is_ram_billing_in_notify_allowed y).

(** The handlers of [AuthActions] work on the tables of accounts and
    permissions with the resource limits. *)
Definition auth_database (l : accounts_map) (w : world) : @AM.database K :=
  AM.set_accounts (auth_view w) (AE.is_privileged <$> l).
Definition store_auth (w : world) (d : @AM.database K) : world :=
  let s := tables w in
  mk_world (CT.set_ram s (AM.resources d) (AM.account_ram_deltas d) (AM.validate_ram_usage d)) d
    (generated w) (next_generated w) (ram_corrections w) (net w) (ledger w).
Definition on_auth (h : @AM.database K -> list Authority.permission_level -> result (@AM.database K))
    (x : apply_context) (s : accounts_map * world) : result (accounts_map * world) :=
  d ← h (auth_database s.1 s.2) (AM.authorization (AE.ctx_act x));
  mret (s.1, store_auth s.2 d).

(** The handlers of [ContractCode]. *)
Definition set_contracts (w : world) (c : CC.contracts) : world :=
  let b := ledger w in
  set_ledger w (mk_books (accounts b) c (global_action_sequence b) (action_receipt_digests b)).
Definition on_code (h : CC.code_state -> result CC.code_state) (s : accounts_map * world)
  : result (accounts_map * world) :=
  c ← h (CC.mk_code_state s.1 (contracts (ledger s.2)) (tables s.2));
  mret (CC.metadata c, set_contracts (set_tables s.2 (CC.tables c)) (CC.stored c)).

(** A new account has metadata and an empty ABI. *)
Definition add_account (s : accounts_map * world) (a : account_name) : accounts_map * world :=
  let c := contracts (ledger s.2) in
  (<[a := CC.new_metadata]> s.1,
   set_contracts s.2 (CC.mk_contracts (CC.codes c) (<[a := []]> (CC.abis c)))).

Definition handler := apply_context -> accounts_map * world -> result (accounts_map * world).

Definition handle_newaccount : handler := fun x s =>
  a ← as_newaccount v (AM.data (AE.ctx_act x));
  s ← on_auth (fun d auths => AA.apply_eosio_newaccount (which v) (key_lt v) (key_pack_size v)
                                (TC.auth_control g) d auths a) x s;
  mret (add_account s (AA.na_name a)).
Definition handle_setcode : handler := fun x s =>
  a ← as_setcode v (AM.data (AE.ctx_act x));
  on_code (fun c => CC.apply_eosio_setcode (sha256 v) (validate_code v) (next_block_num y)
                      (TC.pending_block_time g) (native_context x) c a) s.
Definition handle_setabi : handler := fun x s =>
  a ← as_setabi v (AM.data (AE.ctx_act x));
  on_code (fun c => CC.apply_eosio_setabi (native_context x) c a) s.
Definition handle_updateauth : handler := fun x s =>
  a ← as_updateauth f (AM.data (AE.ctx_act x));
  on_auth (fun d auths => AA.apply_eosio_updateauth (which v) (key_lt v) (key_pack_size v)
                            (TC.auth_control g) d auths a) x s.
Definition handle_deleteauth : handler := fun x s =>
  a ← as_deleteauth f (AM.data (AE.ctx_act x));
  on_auth (fun d auths => AA.apply_eosio_deleteauth (key_pack_size v) d auths a) x s.
Definition handle_linkauth : handler := fun x s =>
  a ← as_linkauth f (AM.data (AE.ctx_act x));
  on_auth (fun d auths => AA.apply_eosio_linkauth (TC.auth_control g) d auths a) x s.
Definition handle_unlinkauth : handler := fun x s =>
  a ← as_unlinkauth f (AM.data (AE.ctx_act x));
  on_auth (fun d auths => AA.apply_eosio_unlinkauth d auths a) x s.
Definition handle_canceldelay : handler := fun x s =>
  a ← as_canceldelay f (AM.data (AE.ctx_act x));
  w ← apply_eosio_canceldelay f (native_context x) s.2 a;
  mret (s.1, w).

(** The handlers that the controller registers. *)
Definition apply_handlers : list (Name.name * handler) :=
  [(newaccount_name, handle_newaccount); (AE.setcode_name, handle_setcode);
   (setabi_name, handle_setabi); (AM.updateauth_name, handle_updateauth);
   (AM.deleteauth_name, handle_deleteauth); (AM.linkauth_name, handle_linkauth);
   (AM.unlinkauth_name, handle_unlinkauth); (AM.canceldelay_name, handle_canceldelay)].

Definition native_handler (a : Name.name) : option handler :=
  snd <$> (snd <$> list_find (fun e => e.1 = a) apply_handlers).

(** ** Execution *)

Definition controller_of (published : Z) : AE.controller K :=
  AE.mk_controller (TC.skip_trx_checks g) (skip_auth_check n) (TC.is_producing_block g)
    (enforce_whiteblacklist n) (is_read_only n) (TC.access g) (forward_setcode y)
    (restrict_action_to_self n) (action_return_value_activated y) (ram_restrictions y)
    (is_ram_billing_in_notify_allowed y)
    (Z.to_nat (ChainConfig.max_inline_action_depth (TC.configuration g)))
    (ChainConfig.max_inline_action_size (TC.configuration g))
    (max_nonprivileged_inline_action_size y) (max_action_return_value_size y)
    (TC.pending_block_time g - published) (TC.auth_control g).

Definition environment_of (published : Z) : AE.environment K Bytes world chain_call chain_answer :=
  AE.mk_environment (controller_of published) (wasm y) native_handler (hash_action y)
    (generate_action_digest y) (hash_receipt y) (packed_size y) (data_size y) (as_updateauth f)
    (as_deleteauth f) (as_linkauth f) (as_unlinkauth f) (as_canceldelay f).

(** The state of a transaction, and the state of the chain after it. *)
Definition begin_transaction (w : world) : AE.transaction_state Bytes world :=
  AE.mk_tx [] [] (global_action_sequence (ledger w)) (accounts (ledger w)) w.
Definition end_transaction (t : AE.transaction_state Bytes world) : world :=
  let w := AE.world t in
  set_ledger w (mk_books (AE.accounts t) (contracts (ledger w)) (AE.global_action_sequence t)
                  (action_receipt_digests (ledger w) ++ AE.executed_action_receipt_digests t)).

(** [transaction_context::exec] of the transaction of the node. *)
Definition exec (apply_context_free : bool) (published : Z) (w : world) : result world :=
  let t := current_trx n in
  tx ← AE.exec_transaction (environment_of published) apply_context_free
         (TX.context_free_actions t) (if current_delay n =? 0 then TX.actions t else [])
         (begin_transaction w);
  let w := end_transaction tx in
  if current_delay n =? 0 then mret w else schedule_transaction f n w.

(** [trx_context.execute_action( trx_context.schedule_action( actions.back(),
    gtrx.sender, false, 0, 0 ), 0 )] *)
Definition exec_onerror (sender : account_name) (published : Z) (w : world) : result world :=
  match last (TX.actions (current_trx n)) with
  | None => Throw undefined_behaviour
  | Some a =>
      let '(ordinal, tx) := AE.schedule_action (begin_transaction w) a sender false 0 0 in
      tx ← AE.execute_action (environment_of published)
             (Z.to_nat (ChainConfig.max_inline_action_depth (TC.configuration g))) tx ordinal;
      mret (end_transaction tx)
  end.

End operations.

(** ** Genesis *)

Section genesis.
Context (v : natives) (c : @AM.control K _ _) (initial_timestamp : Z).

(** [controller_impl::create_native_account] *)
Definition create_native_account (w : world) (a : account_name) (o ac : Authority.authority K)
    (is_privileged : bool) : result world :=
  let b := ledger w in
  d ← AA.create_native_account (which v) (key_pack_size v) c (auth_database (accounts b) w)
        initial_timestamp a o ac is_privileged;
  let abi := if bool_decide (a = AM.system_account_name) then SystemAbi.eosio_abi_bin else [] in
  mret (set_ledger (store_auth w d)
          (mk_books (<[a := AE.set_is_privileged CC.new_metadata is_privileged]> (accounts b))
             (CC.mk_contracts (CC.codes (contracts b)) (<[a := abi]> (CC.abis (contracts b))))
             (global_action_sequence b) (action_receipt_digests b))).

Definition empty_authority : Authority.authority K := Authority.mk_authority 1 [] [] [].

(** The permissions of the producers below their active permission. *)
Definition create_producer_permissions (w : world) : result world :=
  d ← AA.create_producer_permissions (which v) c (auth_database (accounts (ledger w)) w) initial_timestamp;
  mret (store_auth w d).

(** No accounts and no tables. *)
Definition empty_world (u : TC.net_state) : world :=
  mk_world (TableSearch.no_tables ResourceLimits.initialize_database) AM.initialize_database [] 0 [] u
    (mk_books ∅ (CC.mk_contracts ∅ ∅) 0 []).

(** [controller_impl::initialize_database] from the tables of permissions and
    limits on. *)
Definition initialize_chain (initial_key : K) (u : TC.net_state) : result world :=
  let system_auth := Authority.authority_of_key initial_key 0 in
  w ← create_native_account (empty_world u) AM.system_account_name system_auth system_auth true;
  w ← create_native_account w null_account_name empty_authority empty_authority false;
  w ← create_native_account w AA.producers_account_name empty_authority AA.active_producers_authority false;
  create_producer_permissions w.

End genesis.

(** [controller_impl::update_producers_authority], for the producers of the
    active schedule of the pending block *)
Definition update_producers_authority (producers : list account_name) (w : world) : result world :=
  d ← AA.update_producers_authority producers (auth_database (accounts (ledger w)) w);
  mret (store_auth w d).
End host.
Arguments chain_call : clear implicits.
Arguments natives : clear implicits.
Arguments runtime : clear implicits.
End ChainHost.
