(* ===== verification/DeferredRam.v ===== *)
(** * The RAM of deferred transactions

    Theorems about [DeferredTransactions].  Every account is billed for the
    generated transactions it pays for, and before the activation of
    replace_deferred also for the ones that were replaced; the corrections are
    exactly the latter, so that the activation takes off what was billed too
    much, and nothing else. *)

From S2P Require Import Prelude Names Merkle ProducerSchedule Authority AuthorityChecker.
From S2P Require Import Accumulators ResourceLimits AuthorizationManager AccessLists ChainConfig.
From S2P Require Import BlockHeaderState Transactions TransactionContext TableIndex ContractTables.
From S2P Require Import TableInvariants TableSearch AuthActions ActionExecution TransactionBilling.
From S2P Require Import ContractCode DeferredTransactions.

Module DeferredRam.
Import DeferredTransactions.
Module TI := TableInvariants.

Abbreviation only_for := ResourceLimits.only_for.

Section ram.
Context {K Bytes : Type} `{Countable K}.
Abbreviation transaction := (TX.transaction Bytes).
Abbreviation world := (world K Bytes).
Abbreviation gto := (generated_transaction_object Bytes).
(** [loose] are the accounts whose RAM is also changed without billing it;
    nothing is claimed of what they are billed. *)
Context (f : library K Bytes) (loose : account_name -> bool).

(** The packed size of a transaction is a 32-bit number. *)
Hypothesis pack_size_width : forall t, is_u32 (pack_size f t).

(** ** What is owed *)

Definition gto_bytes (a : account_name) (o : gto) : Z :=
  only_for (payer o) a (ram_bytes f (packed_trx o)).
Definition generated_owed (l : list gto) (a : account_name) : Z := sum_with (gto_bytes a) l.
Definition correction_of (l : list (account_name * Z)) (a : account_name) : Z :=
  sum_with (fun c => only_for c.1 a c.2) l.

Definition billed (w : world) (a : account_name) : Z := TI.billed (tables w) a.

(** What an account is billed for other things. *)
Definition surplus (w : world) (a : account_name) : Z :=
  billed w a - TI.owed (tables w) a - generated_owed (generated w) a
  - correction_of (ram_corrections w) a.

Definition correction_ok (c : account_name * Z) : Prop := 0 <= c.2 /\ (loose c.1 = false -> 0 < c.2).

Record world_ok (w : world) : Prop := {
  wo_tables : TI.wf (tables w) /\ TI.capacity (tables w);
  wo_ids : NoDup (id <$> generated w);
  wo_fresh o : o ∈ generated w -> id o < next_generated w;
  wo_trx_ids : NoDup (trx_id <$> generated w);
  wo_senders : NoDup ((fun o => (sender o, sender_id o)) <$> generated w);
  wo_corrections : NoDup (ram_corrections w).*1 /\ Forall correction_ok (ram_corrections w);
  wo_surplus a : loose a = false -> 0 <= surplus w a;
}.

Lemma world_ok_ledger (w : world) b : world_ok w -> world_ok (set_ledger w b).
Proof. intros []. by split. Qed.

Lemma ram_bytes_range t : ram_bytes f t = billable_generated + pack_size f t /\ 0 < ram_bytes f t < 2 ^ 33.
Proof.
  pose proof (pack_size_width t). unfold ram_bytes. change billable_generated with 272.
  rewrite u64_small by lia. lia.
Qed.

Lemma only_for_nonneg x a d : 0 <= d -> 0 <= only_for x a d.
Proof. intros Hd. unfold ResourceLimits.only_for. destruct (decide _); lia. Qed.

Lemma generated_owed_nonneg l a : 0 <= generated_owed l a.
Proof. apply sum_with_nonneg. intros o. apply only_for_nonneg. pose proof (ram_bytes_range (packed_trx o)). lia. Qed.

Lemma correction_nonneg l a : Forall correction_ok l -> 0 <= correction_of l a.
Proof.
  unfold correction_of, sum_with. induction 1 as [|c l [Hc _] Hl IH]; cbn [foldr]; [lia|].
  pose proof (only_for_nonneg c.1 a c.2 ltac:(lia)). lia.
Qed.

Lemma table_owed_nonneg s a : 0 <= TI.owed s a.
Proof.
  unfold TI.owed, TI.owed_of. assert (0 <= TI.sum_kinds (fun k => sum_with (TI.row_bytes k a) (CT.objects s k))).
  { apply sum_with_nonneg. intros k. apply sum_with_nonneg. intros r. apply only_for_nonneg.
    assert (0 <= CT.billable_row k) by (by destruct k; vm_compute). unfold TI.row_size. destruct k; lia. }
  assert (0 <= sum_map (TI.table_bytes a) (CT.tables s)); [|lia].
  apply sum_map_nonneg. intros i t _. apply only_for_nonneg. by vm_compute.
Qed.

(** ** Charging *)

(** The state of the tables differs in RAM only, by the deltas [d]. *)
Lemma charged_kept (w : world) s d : TI.charged (tables w) s d ->
  TI.wf (tables w) /\ TI.capacity (tables w) ->
  (TI.wf s /\ TI.capacity s) /\ (forall a, TI.owed s a = TI.owed (tables w) a) /\
  forall a, TI.billed s a = billed w a + d a.
Proof.
  intros ((r & dl & v & ->) & Hinv & Hb) [[Ht Hn Hc _] Hcap].
  split; [split; [by split|done]|]. split; [done|]. intros a. by rewrite Hb.
Qed.

Lemma add_ram_usage_charged (w w' : world) a d : TI.wf (tables w) -> is_s64 d ->
  add_ram_usage w a d = Ok w' -> exists s, w' = set_tables w s /\ TI.charged (tables w) s (fun b => only_for a b d).
Proof.
  intros Hw Hd H1. unfold add_ram_usage in H1. apply bind_ok_inv in H1 as (s & H1 & [= <-]). exists s. split; [done|].
  unfold CT.add_ram_usage in H1. apply bind_ok_inv in H1 as (r & Hr & [= <-]).
  pose proof (TI.wf_ram _ Hw) as Hinv.
  split_and!; [by eauto|by eapply ResourceLimits.ram_usage_inv|by apply ResourceLimits.add_pending_ram_billed].
Qed.

(** ** Operations *)

(** The invariant and what an account is billed for other things are kept. *)
Definition keeps (w w' : world) : Prop :=
  world_ok w -> world_ok w' /\ forall a, loose a = false -> surplus w' a = surplus w a.

Lemma keeps_refl w : keeps w w.
Proof. by intros Hw. Qed.

Lemma keeps_trans w w1 w2 : keeps w w1 -> keeps w1 w2 -> keeps w w2.
Proof.
  intros H1 H2 Hw. destruct (H1 Hw) as [Hw1 E1], (H2 Hw1) as [Hw2 E2].
  split; [done|]. intros a Ha. by rewrite E2, E1.
Qed.

(** A change to the tables of RAM charges and to the generated transactions
    that cancel out. *)
Lemma charge_generated (w w' : world) (d : account_name -> Z) : world_ok w ->
  TI.charged (tables w) (tables w') d ->
  NoDup (id <$> generated w') -> (forall o, o ∈ generated w' -> id o < next_generated w') ->
  NoDup (trx_id <$> generated w') ->
  NoDup ((fun o => (sender o, sender_id o)) <$> generated w') ->
  NoDup (ram_corrections w').*1 -> Forall correction_ok (ram_corrections w') ->
  (forall a, loose a = false -> d a = generated_owed (generated w') a + correction_of (ram_corrections w') a
                   - generated_owed (generated w) a - correction_of (ram_corrections w) a) ->
  world_ok w' /\ forall a, loose a = false -> surplus w' a = surplus w a.
Proof.
  intros Hw Hch Hi Hf Ht Hs Hc Hc0 Hd.
  destruct (charged_kept w (tables w') d Hch (wo_tables _ Hw)) as (Hwf & Ho & Hb).
  assert (forall a, loose a = false -> surplus w' a = surplus w a) as Es.
  { intros a Ha. unfold surplus, billed. rewrite Ho, Hb, Hd by done. unfold billed. lia. }
  split; [|done]. split; try done. intros a Ha. rewrite Es by done. by apply Hw.
Qed.

Lemma find_generated (P : gto -> Prop) `{!forall o, Decision (P o)} (w : world) o :
  snd <$> list_find P (generated w) = Some o -> o ∈ generated w /\ P o.
Proof.
  destruct (list_find P (generated w)) as [[i o']|] eqn:E; [|done]. intros [= ->].
  apply list_find_Some in E as (Hi & Hp & _). split; [by eapply list_elem_of_lookup_2|done].
Qed.

Lemma find_no_generated (P : gto -> Prop) `{!forall o, Decision (P o)} (w : world) :
  snd <$> list_find P (generated w) = None -> forall o, o ∈ generated w -> ~ P o.
Proof.
  destruct (list_find P (generated w)) as [[i o']|] eqn:E; [done|]. intros _ o Ho.
  apply list_find_None in E. rewrite Forall_forall in E. by apply E.
Qed.

(** An object and the others. *)
Lemma remove_perm (w : world) o : NoDup (id <$> generated w) -> o ∈ generated w ->
  generated w ≡ₚ o :: generated (remove w o).
Proof.
  cbn. induction (generated w) as [|u l IH]; intros Hnd Ho; [by apply elem_of_nil in Ho|].
  rewrite fmap_cons in Hnd. apply NoDup_cons in Hnd as [Hu Hnd]. apply elem_of_cons in Ho as [->|Ho].
  - rewrite filter_cons_False by (intros Hn; by apply Hn). rewrite list_filter_all; [done|].
    intros v Hv Heq. apply Hu. rewrite <- Heq. by apply list_elem_of_fmap_2.
  - rewrite filter_cons_True.
    + rewrite (IH Hnd Ho) at 1. apply Permutation_swap.
    + intros Heq. apply Hu. rewrite Heq. by apply list_elem_of_fmap_2.
Qed.

Lemma generated_owed_remove (w : world) o a : NoDup (id <$> generated w) -> o ∈ generated w ->
  generated_owed (generated (remove w o)) a = generated_owed (generated w) a - gto_bytes a o.
Proof.
  intros Hnd Ho. unfold generated_owed. rewrite (remove_perm w o Hnd Ho). unfold sum_with. cbn [foldr]. lia.
Qed.

Lemma remove_sub (w : world) o : sublist (generated (remove w o)) (generated w).
Proof. apply sublist_filter. Qed.

Lemma removed_nodup {A} (k : gto -> A) (w : world) o : NoDup (k <$> generated w) ->
  NoDup (k <$> generated (remove w o)).
Proof. intros Hnd. eapply sublist_NoDup; [exact Hnd|]. apply fmap_sublist, remove_sub. Qed.

Lemma removed_elem (w : world) o u : u ∈ generated (remove w o) -> u ∈ generated w /\ id u <> id o.
Proof. cbn. intros [? ?]%list_elem_of_filter. done. Qed.

Lemma refund_width t : is_s64 (s64 (- ram_bytes f t)) /\ s64 (- ram_bytes f t) = - ram_bytes f t /\
  s64 (ram_bytes f t) = ram_bytes f t.
Proof. pose proof (ram_bytes_range t). rewrite !s64_small by lia. lia. Qed.

(** Removing an object and refunding its RAM. *)
Lemma refund_keeps (w : world) s o : o ∈ generated w ->
  (TI.wf (tables w) -> TI.charged (tables w) s (fun b => only_for (payer o) b (s64 (- ram_bytes f (packed_trx o))))) ->
  keeps w (remove (set_tables w s) o).
Proof.
  intros Ho Hch Hw. specialize (Hch (proj1 (wo_tables _ Hw))).
  apply (charge_generated w (remove (set_tables w s) o) _ Hw Hch).
  - by apply (removed_nodup id w), Hw.
  - intros u Hu. apply (removed_elem w) in Hu as [Hu _]. by apply (wo_fresh _ Hw).
  - by apply (removed_nodup trx_id w), Hw.
  - by apply (removed_nodup _ w), Hw.
  - apply Hw.
  - apply Hw.
  - intros a _. change (generated (remove (set_tables w s) o)) with (generated (remove w o)).
    rewrite generated_owed_remove by (apply Hw || done). destruct (refund_width (packed_trx o)) as (_ & -> & _).
    change (ram_corrections (remove (set_tables w s) o)) with (ram_corrections w).
    unfold gto_bytes, ResourceLimits.only_for. destruct (decide _); lia.
Qed.

(** Creating an object and charging its RAM. *)
Lemma create_keeps (w w1 : world) s tid sn sid p u e pub t :
  create w tid sn sid p u e pub t = Ok w1 ->
  (TI.wf (tables w) -> TI.charged (tables w) s (fun b => only_for p b (s64 (ram_bytes f t)))) ->
  keeps w (set_tables w1 s).
Proof.
  intros H1 Hch Hw. specialize (Hch (proj1 (wo_tables _ Hw))). unfold create in H1.
  apply bind_ok_inv in H1 as ([] & Ht & H1). apply bind_ok_inv in H1 as ([] & Hs & [= <-]).
  apply EOS_ASSERT_ok, bool_decide_eq_true in Ht, Hs.
  pose proof (find_no_generated _ _ Ht) as Ht'. pose proof (find_no_generated _ _ Hs) as Hs'.
  set (new := mk_gto _ _ _ _ _ _ _ _ _).
  apply (charge_generated w _ (fun b => only_for p b (s64 (ram_bytes f t))) Hw); cbn [tables generated
    ram_corrections next_generated set_tables set_generated]; try apply Hw; [exact Hch|..].
  - rewrite fmap_app. apply NoDup_app. split_and!; [apply Hw| |apply NoDup_singleton].
    intros i Hi. apply list_elem_of_fmap in Hi as (o & -> & Ho). cbn. rewrite list_elem_of_singleton.
    pose proof (wo_fresh _ Hw _ Ho). lia.
  - intros o [Ho| ->%list_elem_of_singleton]%elem_of_app; [pose proof (wo_fresh _ Hw _ Ho); lia|cbn; lia].
  - rewrite fmap_app. apply NoDup_app. split_and!; [apply Hw| |apply NoDup_singleton].
    intros i Hi. apply list_elem_of_fmap in Hi as (o & -> & Ho). cbn. rewrite list_elem_of_singleton. by apply Ht'.
  - rewrite fmap_app. apply NoDup_app. split_and!; [apply Hw| |apply NoDup_singleton].
    intros i Hi. apply list_elem_of_fmap in Hi as (o & -> & Ho). cbn. rewrite list_elem_of_singleton.
    intros [= E1 E2]. by apply (Hs' o Ho).
  - intros a _. unfold generated_owed. rewrite sum_with_app. unfold sum_with at 2. cbn [foldr].
    unfold gto_bytes at 2. cbn [payer packed_trx new]. destruct (refund_width t) as (_ & _ & ->). lia.
Qed.

Lemma correction_cons x c l b : correction_of ((x, c) :: l) b = only_for x b c + correction_of l b.
Proof. done. Qed.

(** A correction is added, without wrap-around unless the account is loose. *)
Lemma add_correction_exact l a bytes : NoDup l.*1 -> Forall correction_ok l -> 0 < bytes ->
  (loose a = false -> correction_of l a + bytes < 2 ^ 64) ->
  NoDup (add_correction l a bytes).*1 /\ Forall correction_ok (add_correction l a bytes) /\
  (forall x, x ∈ (add_correction l a bytes).*1 <-> x = a \/ x ∈ l.*1) /\
  forall b, loose b = false -> correction_of (add_correction l a bytes) b = correction_of l b + only_for a b bytes.
Proof.
  induction l as [|[x c] l IH]; intros Hnd Hnn Hb Hs; cbn [add_correction].
  { split_and!; [apply NoDup_singleton|by repeat constructor; cbn; lia|intros x; set_solver|].
    intros b _. rewrite correction_cons. cbn. lia. }
  cbn in Hnd. apply NoDup_cons in Hnd as [Hx Hnd]. apply Forall_cons in Hnn as [[Hc Hc'] Hnn]. cbn in Hc, Hc'.
  rewrite correction_cons in Hs. pose proof (correction_nonneg l a Hnn) as H0.
  case_bool_decide as E; [subst x|].
  - unfold ResourceLimits.only_for at 1 in Hs. rewrite decide_True in Hs by done.
    split_and!; [by apply NoDup_cons| |set_solver|].
    + constructor; [|done]. split; cbn; [apply u64_range|]. intros Ha. rewrite u64_small by (specialize (Hs Ha); lia). lia.
    + intros b Hlb. rewrite !correction_cons. unfold ResourceLimits.only_for. destruct (decide _) as [->|]; [|lia].
      rewrite u64_small by (specialize (Hs Hlb); lia). lia.
  - unfold ResourceLimits.only_for at 1 in Hs. rewrite decide_False in Hs by congruence.
    destruct (IH Hnd Hnn Hb) as (I1 & I2 & I3 & I4); [intros Ha; specialize (Hs Ha); lia|]. split_and!.
    + cbn. apply NoDup_cons. split; [|done]. rewrite I3. naive_solver.
    + by constructor.
    + intros y. cbn. rewrite !elem_of_cons, I3. tauto.
    + intros b Hlb. rewrite !correction_cons, I4 by done. lia.
Qed.

Lemma billed_fits (w : world) a : TI.wf (tables w) -> billed w a < 2 ^ 64.
Proof.
  intros Hw. unfold billed, TI.billed, ResourceLimits.billed.
  destruct (ResourceLimits.usage _ !! a) eqn:E; [|lia].
  destruct (ResourceLimits.inv_usage _ (TI.wf_ram _ Hw) _ _ E) as (_ & _ & ?). lia.
Qed.

Lemma correct_replaced_keeps (w : world) o : o ∈ generated w ->
  keeps w (remove (add_to_ram_correction w (payer o) (ram_bytes f (packed_trx o))) o).
Proof.
  intros Ho Hw. destruct (wo_corrections _ Hw) as [Hnd Hnn]. pose proof (ram_bytes_range (packed_trx o)) as Hr.
  set (bytes := ram_bytes f (packed_trx o)) in *.
  assert (loose (payer o) = false -> correction_of (ram_corrections w) (payer o) + bytes < 2 ^ 64) as Hfit.
  { intros Hl. pose proof (wo_surplus _ Hw (payer o) Hl) as H0. unfold surplus in H0.
    pose proof (billed_fits w (payer o) (proj1 (wo_tables _ Hw))). pose proof (table_owed_nonneg (tables w) (payer o)).
    pose proof (generated_owed_remove w o (payer o) (wo_ids _ Hw) Ho) as Hrm.
    pose proof (generated_owed_nonneg (generated (remove w o)) (payer o)).
    unfold gto_bytes, ResourceLimits.only_for in Hrm. rewrite decide_True in Hrm by done. fold bytes in Hrm. lia. }
  destruct (add_correction_exact _ _ bytes Hnd Hnn ltac:(lia) Hfit) as (C1 & C2 & _ & C4).
  apply (charge_generated w _ (fun _ => 0) Hw); try done.
  - apply TI.charged_refl, (TI.wf_ram _ (proj1 (wo_tables _ Hw))).
  - by apply (removed_nodup id w), Hw.
  - intros u Hu. apply (removed_elem w) in Hu as [Hu _]. by apply (wo_fresh _ Hw).
  - by apply (removed_nodup trx_id w), Hw.
  - by apply (removed_nodup _ w), Hw.
  - intros a Ha. change (generated (remove (add_to_ram_correction w (payer o) bytes) o)) with (generated (remove w o)).
    change (ram_corrections (remove _ o)) with (add_correction (ram_corrections w) (payer o) bytes).
    rewrite C4, generated_owed_remove by (done || apply Hw). unfold gto_bytes. fold bytes. lia.
Qed.

(** *** The operations of the code *)

Lemma keeps_net (w : world) u : keeps w (set_net w u).
Proof. intros [H1 H2 H3 H4 H5 H6 H7]. split; [by split|done]. Qed.

Lemma create_charge_keeps (w w1 w2 : world) tid sn sid p u e pub t :
  create w tid sn sid p u e pub t = Ok w1 -> add_ram_usage w1 p (s64 (ram_bytes f t)) = Ok w2 -> keeps w w2.
Proof.
  intros H1 H2 Hw. pose proof (ram_bytes_range t). assert (tables w1 = tables w) as Et.
  { unfold create in H1. by do 2 apply bind_ok_inv in H1 as ([] & _ & H1); injection H1 as <-. }
  pose proof H2 as H3. apply add_ram_usage_charged in H3 as (s & -> & Hch);
    [|rewrite Et; apply Hw|rewrite s64_small; lia].
  rewrite Et in Hch. by apply (create_keeps w w1 s _ _ _ _ _ _ _ _ H1).
Qed.

Section node.
Context (n : node K Bytes).

Lemma replace_or_create_keeps (w w1 w2 : world) x sid p t b :
  replace_or_create f n x w sid p t b = Ok w1 -> add_ram_usage w1 p (s64 (ram_bytes f t)) = Ok w2 ->
  keeps w w2.
Proof.
  intros H1 H2. unfold replace_or_create in H1. destruct (find_by_sender_id w (CT.receiver x) sid) as [old|] eqn:Eo;
    [|by eapply create_charge_keeps].
  apply find_generated in Eo as [Ho _]. do 2 apply bind_ok_inv in H1 as ([] & _ & H1).
  apply bind_ok_inv in H1 as (w3 & H3 & H1). apply (keeps_trans _ (remove w3 old)); [|by eapply create_charge_keeps].
  destruct (replace_deferred n).
  - intros Hw. destruct (refund_width (packed_trx old)) as (Hr & Er & Er'). pose proof (ram_bytes_range (packed_trx old)).
    rewrite Er', Er in H3. apply add_ram_usage_charged in H3 as (s & -> & Hch); [|apply Hw|lia].
    apply (refund_keeps w s old Ho); [|done]. intros _. by rewrite Er.
  - injection H3 as <-. by apply correct_replaced_keeps.
Qed.

Lemma schedule_deferred_keeps (w w' : world) x sid p t b :
  schedule_deferred_transaction f n x w sid p t b = Ok w' -> keeps w w'.
Proof.
  intros H1. unfold schedule_deferred_transaction in H1. do 2 apply bind_ok_inv in H1 as ([] & _ & H1).
  apply bind_ok_inv in H1 as (t' & _ & H1). apply bind_ok_inv in H1 as (u & _ & H1).
  apply bind_ok_inv in H1 as ([] & _ & H1). apply bind_ok_inv in H1 as (w1 & H2 & H1).
  apply bind_ok_inv in H1 as ([] & _ & H1).
  eapply keeps_trans; [apply (keeps_net _ u)|by eapply replace_or_create_keeps].
Qed.

Lemma cancel_deferred_keeps (w w' : world) sid s r :
  cancel_deferred_transaction f w sid s = Ok (r, w') -> keeps w w'.
Proof.
  intros H1. unfold cancel_deferred_transaction in H1.
  destruct (find_by_sender_id w s sid) as [o|] eqn:Eo; [|injection H1 as <- <-; apply keeps_refl].
  apply find_generated in Eo as [Ho _]. apply bind_ok_inv in H1 as (w1 & H1 & [= <- <-]). intros Hw.
  apply add_ram_usage_charged in H1 as (s1 & -> & Hch); [|apply Hw|apply refund_width].
  by apply (refund_keeps w s1 o Ho).
Qed.

Lemma canceldelay_keeps (w w' : world) x c : apply_eosio_canceldelay f x w c = Ok w' -> keeps w w'.
Proof.
  intros H1. unfold apply_eosio_canceldelay in H1. apply bind_ok_inv in H1 as ([] & _ & H1).
  apply bind_ok_inv in H1 as ([r w1] & H1 & [= <-]). by eapply cancel_deferred_keeps.
Qed.

(** Charging through the resource limits only. *)
Lemma ram_usage_charged (w : world) a d r v : TI.wf (tables w) -> is_s64 d ->
  ResourceLimits.add_pending_ram_usage (CT.resources (tables w)) a d = Ok r ->
  TI.charged (tables w) (CT.set_ram (tables w) r (CT.account_ram_deltas (tables w)) v) (fun b => only_for a b d).
Proof.
  intros Hw Hd Hr. pose proof (TI.wf_ram _ Hw) as Hinv.
  split_and!; [by eauto|by eapply ResourceLimits.ram_usage_inv|by apply ResourceLimits.add_pending_ram_billed].
Qed.

Lemma schedule_transaction_keeps (w w' : world) : schedule_transaction f n w = Ok w' -> keeps w w'.
Proof.
  intros H1. unfold schedule_transaction in H1. apply bind_ok_inv in H1 as (w1 & H1 & H2).
  assert (keeps w w1) as Hk1.
  { destruct (_ =? 0); [|injection H1 as <-; apply keeps_refl].
    apply bind_ok_inv in H1 as (u & _ & [= <-]). apply keeps_net. }
  apply bind_ok_inv in H2 as (w2 & H2 & H3). eapply keeps_trans; [exact Hk1|]. intros Hw.
  unfold trx_add_ram_usage in H3. apply bind_ok_inv in H3 as (r & Hr & [= <-]).
  assert (tables w2 = tables w1) as Et.
  { unfold create_at, create in H2. by do 2 apply bind_ok_inv in H2 as ([] & _ & H2); injection H2 as <-. }
  eapply (create_keeps w1 w2); [exact H2| |exact Hw]. intros Hwf. rewrite Et in *.
  apply ram_usage_charged; [done| |done]. pose proof (ram_bytes_range (current_trx n)). rewrite s64_small; lia.
Qed.

Lemma remove_scheduled_keeps (w w' : world) o : o ∈ generated w ->
  remove_scheduled_transaction f w o = Ok w' -> keeps w w'.
Proof.
  intros Ho H1. unfold remove_scheduled_transaction in H1. apply bind_ok_inv in H1 as (r & Hr & [= <-]).
  apply refund_keeps; [done|]. intros Hwf. apply ram_usage_charged; [done|apply refund_width|done].
Qed.

End node.

(** ** The activation of replace_deferred *)

Lemma correct_ram_exact (m : ResourceLimits.manager) a c : ResourceLimits.inv m -> 0 < c ->
  c <= ResourceLimits.billed m a < 2 ^ 63 -> exists m',
  correct_ram m (a, c) = Ok m' /\ ResourceLimits.inv m' /\
  forall b, ResourceLimits.billed m' b = ResourceLimits.billed m b - only_for a b c.
Proof.
  intros Hm Hc Hb. unfold ResourceLimits.billed in Hb. destruct (ResourceLimits.usage m !! a) as [u|] eqn:Hu; [|lia].
  assert (exists m', ResourceLimits.add_pending_ram_usage m a (- c) = Ok m') as [m' Hm'].
  { rewrite (ResourceLimits.ram_delta_exact m a (- c) u Hm ltac:(lia) Hu).
    replace ((0 <=? ResourceLimits.ram_usage u + - c) && _) with true; [eauto|].
    symmetry. apply andb_true_iff. unfold UINT64_MAX. lia. }
  exists m'. split_and!.
  - unfold correct_ram, ResourceLimits.get_account_ram_usage, ResourceLimits.get_row. cbn [fst snd]. rewrite Hu.
    cbn [mbind result_bind mret result_ret]. rewrite (s64_small (ResourceLimits.ram_usage u)) by lia.
    rewrite u64_small by lia. replace (_ <? c) with false by lia. by rewrite !s64_small by (rewrite ?s64_small; lia).
  - eapply ResourceLimits.ram_usage_inv; [|done|exact Hm']. lia.
  - intros b. rewrite (ResourceLimits.add_pending_ram_billed m a (- c) m' Hm ltac:(lia) Hm').
    unfold ResourceLimits.only_for. destruct (decide _); lia.
Qed.

(** What the activation changes in the billing. *)
Definition billed_change (w : world) (m : ResourceLimits.manager) (a : account_name) : Z :=
  ResourceLimits.billed m a - ResourceLimits.billed (CT.resources (tables w)) a.

(** A correction of another account, however large. *)
Lemma correct_ram_other (m m' : ResourceLimits.manager) a c : ResourceLimits.inv m ->
  correct_ram m (a, c) = Ok m' ->
  ResourceLimits.inv m' /\ forall b, b <> a -> ResourceLimits.billed m' b = ResourceLimits.billed m b.
Proof.
  intros Hm H1. unfold correct_ram in H1. apply bind_ok_inv in H1 as (u & _ & H1). cbn [fst snd] in H1.
  assert (is_s64 (if u64 u <? c then s64 (- u) else s64 (- s64 c))) as Hd by (destruct (_ <? _); apply s64_range).
  split; [by eapply ResourceLimits.ram_usage_inv; [|done|exact H1]|]. intros b Hb.
  rewrite (ResourceLimits.add_pending_ram_billed m a _ m' Hm Hd H1). unfold ResourceLimits.only_for.
  rewrite decide_False by done. lia.
Qed.

Lemma correct_rams_exact l (m m' : ResourceLimits.manager) : ResourceLimits.inv m -> NoDup l.*1 ->
  Forall correction_ok l ->
  (forall a, loose a = false -> a ∈ l.*1 -> correction_of l a <= ResourceLimits.billed m a < 2 ^ 63) ->
  foldM correct_ram m l = Ok m' -> ResourceLimits.inv m' /\
  forall b, loose b = false -> ResourceLimits.billed m' b = ResourceLimits.billed m b - correction_of l b.
Proof.
  revert m. induction l as [|[a c] l IH]; intros m Hm Hnd Hp Hb Hr.
  { injection Hr as <-. split_and!; [done..|]. intros b _. unfold correction_of, sum_with. cbn. lia. }
  cbn in Hnd. apply NoDup_cons in Hnd as [Ha Hnd]. apply Forall_cons in Hp as [[Hc Hc'] Hp]. cbn in Hc, Hc'.
  cbn [foldM] in Hr. apply bind_ok_inv in Hr as (m1 & H1 & Hr). pose proof (correction_nonneg l a Hp) as H0.
  assert (ResourceLimits.inv m1 /\ forall b, loose b = false ->
    ResourceLimits.billed m1 b = ResourceLimits.billed m b - only_for a b c) as [Hm1 E1].
  { destruct (loose a) eqn:El.
    - destruct (correct_ram_other _ _ _ _ Hm H1) as [Hi E]. split; [done|]. intros b Hlb.
      unfold ResourceLimits.only_for. rewrite decide_False by congruence. rewrite E by congruence. lia.
    - pose proof (Hb a El) as Hba. rewrite correction_cons in Hba. unfold ResourceLimits.only_for in Hba.
      rewrite decide_True in Hba by done. specialize (Hba ltac:(left)).
      destruct (correct_ram_exact m a c Hm (Hc' eq_refl)) as (m2 & H2 & Hm2 & E2); [lia|].
      replace m1 with m2 by congruence. auto. }
  destruct (IH m1 Hm1 Hnd Hp) as (Hm' & E2); [|done|].
  { intros b Hlb Hin. specialize (Hb b Hlb). rewrite correction_cons in Hb. rewrite E1 by done.
    unfold ResourceLimits.only_for in *. rewrite decide_False in * by (intros ->; done).
    specialize (Hb ltac:(by right)). lia. }
  split_and!; [done..|]. intros b Hlb. rewrite E2, E1, correction_cons by done. lia.
Qed.

(** Without loose accounts the corrections succeed. *)
Lemma correct_rams_succeed l (m : ResourceLimits.manager) : ResourceLimits.inv m -> NoDup l.*1 ->
  Forall (fun c => 0 < c.2) l ->
  (forall a, a ∈ l.*1 -> correction_of l a <= ResourceLimits.billed m a < 2 ^ 63) ->
  exists m', foldM correct_ram m l = Ok m'.
Proof.
  revert m. induction l as [|[a c] l IH]; intros m Hm Hnd Hp Hb; [by exists m|].
  cbn in Hnd. apply NoDup_cons in Hnd as [Ha Hnd]. apply Forall_cons in Hp as [Hc Hp]. cbn in Hc.
  pose proof (Hb a ltac:(left)) as Hba. rewrite correction_cons in Hba.
  assert (0 <= correction_of l a) by (apply correction_nonneg; eapply Forall_impl; [exact Hp|]; intros x Hx; cbn in Hx; by split; [lia|]).
  unfold ResourceLimits.only_for in Hba. rewrite decide_True in Hba by done.
  destruct (correct_ram_exact m a c Hm Hc) as (m1 & H1 & Hm1 & E1); [lia|]. cbn [foldM]. rewrite H1. apply IH; [done..|].
  intros b Hin. specialize (Hb b ltac:(by right)). rewrite correction_cons in Hb. rewrite E1.
  unfold ResourceLimits.only_for in *. rewrite decide_False in * by (intros ->; done). lia.
Qed.

Lemma activate_exact (w w' : world) : world_ok w -> (forall a, billed w a < 2 ^ 63) ->
  activate_replace_deferred w = Ok w' -> world_ok w' /\ generated w' = generated w /\ ram_corrections w' = [] /\
  (forall a, loose a = false -> surplus w' a = surplus w a) /\
  forall a, loose a = false -> billed w' a = billed w a - correction_of (ram_corrections w) a.
Proof.
  intros Hw Hfit H1. destruct (wo_corrections _ Hw) as [Hnd Hp].
  unfold activate_replace_deferred in H1. apply bind_ok_inv in H1 as (m & H1 & [= <-]).
  destruct (correct_rams_exact _ (CT.resources (tables w)) m (TI.wf_ram _ (proj1 (wo_tables _ Hw))) Hnd Hp)
    as (Hm & Eb); [|done|].
  { intros a Hl _. split; [|apply Hfit]. pose proof (wo_surplus _ Hw a Hl) as Hs. unfold surplus in Hs.
    pose proof (table_owed_nonneg (tables w) a). pose proof (generated_owed_nonneg (generated w) a).
    change (ResourceLimits.billed _ a) with (billed w a). lia. }
  destruct (charge_generated w (set_corrections (set_tables w (CT.set_ram (tables w) m
    (CT.account_ram_deltas (tables w)) (CT.validate_ram_usage (tables w)))) [])
    (fun a => billed_change w m a) Hw) as [Hw' Es]; try apply Hw.
  - split_and!; [by eauto|done|]. intros a. unfold billed_change, TI.billed. cbn. lia.
  - constructor.
  - constructor.
  - intros a Hl. cbn [ram_corrections set_corrections generated set_tables]. change (correction_of [] a) with 0.
    unfold billed_change. rewrite Eb by done. lia.
  - split_and!; try done.
Qed.

(** ** The states of the chain *)

Section steps.
Context (f64_lt f128_lt : Z -> Z -> bool) (f64_is_nan f128_is_nan : Z -> bool).

(** Contracts make calls and schedule, replace and cancel transactions, users
    delay and cancel them, the controller removes them, under any settings of
    the node. *)
Inductive world_step : world -> world -> Prop :=
  | ws_action w : world_step w (set_tables w (CT.new_context (tables w)))
  | ws_call x w c r s : TableSearch.call_ok c ->
      CT.call_api x f64_lt f128_lt f64_is_nan f128_is_nan (tables w) c = Ok (r, s) -> TI.capacity s ->
      world_step w (set_tables w s)
  | ws_send n x w sid p t b w' : schedule_deferred_transaction f n x w sid p t b = Ok w' -> world_step w w'
  | ws_cancel w sid s r w' : cancel_deferred_transaction f w sid s = Ok (r, w') -> world_step w w'
  | ws_canceldelay x w c w' : apply_eosio_canceldelay f x w c = Ok w' -> world_step w w'
  | ws_delay n w w' : schedule_transaction f n w = Ok w' -> world_step w w'
  | ws_remove w o w' : o ∈ generated w -> remove_scheduled_transaction f w o = Ok w' -> world_step w w'
  | ws_activate w w' : (forall a, billed w a < 2 ^ 63) -> activate_replace_deferred w = Ok w' -> world_step w w'.

(** A table step is a step of the world. *)
Lemma table_keeps (w : world) s : TI.capacity (tables w) ->
  TableSearch.table_step f64_lt f128_lt f64_is_nan f128_is_nan (tables w) s -> keeps w (set_tables w s).
Proof.
  intros _ Hst Hw. destruct (wo_tables _ Hw) as [Hwf Hcap].
  destruct (TableSearch.step_accounted _ _ _ _ _ _ Hwf Hcap Hst) as [Hwf' Ha].
  assert (forall a, loose a = false -> surplus (set_tables w s) a = surplus w a) as Es.
  { intros a _. specialize (Ha a). unfold surplus, billed. cbn [tables set_tables generated ram_corrections]. lia. }
  split; [|done]. destruct Hw as [? ? ? ? ? ? Hsur]. split; try done. intros a Hl. rewrite Es by done. by apply Hsur.
Qed.

Lemma step_keeps (w w' : world) : world_step w w' -> keeps w w'.
Proof.
  intros Hst Hw. destruct (wo_tables _ Hw) as [_ Hcap]. revert Hw. destruct Hst.
  - apply table_keeps; [done|constructor].
  - apply table_keeps; [done|]. by econstructor.
  - by eapply schedule_deferred_keeps.
  - by eapply cancel_deferred_keeps.
  - by eapply canceldelay_keeps.
  - by eapply schedule_transaction_keeps.
  - by eapply remove_scheduled_keeps.
  - intros Hw. by destruct (activate_exact w w' Hw) as (Hw1 & _ & _ & Es & _).
Qed.

(** The accounts of [r] with the permissions [d], and nothing else. *)
Definition no_books : books := mk_books ∅ (ContractCode.mk_contracts ∅ ∅) 0 [].
Definition no_generated (r : ResourceLimits.manager) (d : @AM.database K) (u : TC.net_state) : world :=
  mk_world (TableSearch.no_tables r) d [] 0 [] u no_books.

Lemma no_generated_ok r d u : ResourceLimits.inv r -> world_ok (no_generated r d u) /\
  forall a, surplus (no_generated r d u) a = ResourceLimits.billed r a.
Proof.
  intros Hr. assert (forall a, surplus (no_generated r d u) a = ResourceLimits.billed r a) as Es.
  { intros a. unfold surplus, TI.owed, TI.owed_of. cbn [tables no_generated CT.tables TableSearch.no_tables].
    rewrite sum_map_empty. cbn. unfold billed, TI.billed. cbn. lia. }
  split; [|done]. split; cbn; [by apply TableSearch.no_tables_wf|constructor| |constructor|constructor|by split; constructor|].
  - intros o Ho. by apply not_elem_of_nil in Ho.
  - intros a _. rewrite Es. unfold ResourceLimits.billed. destruct (ResourceLimits.usage r !! a) eqn:E; [|lia].
    destruct (ResourceLimits.inv_usage _ Hr _ _ E) as (_ & _ & ?). lia.
Qed.

Lemma steps_ok r d u (w : world) : ResourceLimits.inv r -> rtc world_step (no_generated r d u) w ->
  world_ok w /\ forall a, loose a = false -> surplus w a = ResourceLimits.billed r a.
Proof.
  intros Hr Hrun. destruct (no_generated_ok r d u Hr) as [H0 E0].
  revert w Hrun. apply rtc_ind_r; [by split|]. intros w1 w2 _ Hst [Hw Es].
  destruct (step_keeps _ _ Hst Hw) as [Hw2 Es2]. split; [done|]. intros a Ha. by rewrite Es2, Es.
Qed.

End steps.

End ram.

Section accounted.
Context {K Bytes : Type} `{Countable K}.
Context (f : library K Bytes) (pack_size_width : forall t, is_u32 (pack_size f t)).
Context (f64_lt f128_lt : Z -> Z -> bool) (f64_is_nan f128_is_nan : Z -> bool).
Abbreviation world := (world K Bytes).
Abbreviation generated_owed := (generated_owed f).
Abbreviation none := (fun _ : account_name => false).
Abbreviation world_step := (world_step f f64_lt f128_lt f64_is_nan f128_is_nan).

(** Every byte of RAM is billed once.  After any sequence of table calls,
    of scheduling, replacing and cancelling deferred transactions, of delaying
    input transactions, and of removing what is retired, under any activated
    features, every account is billed, beyond what it was billed at the
    start, what its rows and tables take and what the generated transactions
    that it pays for take, plus its RAM correction; and the ids of the
    transactions and the sender ids of each sender are unique. *)
Theorem deferred_ram_accounted (r : ResourceLimits.manager) (d : @AM.database K) (u : TC.net_state) (w : world) :
  ResourceLimits.inv r -> rtc world_step (no_generated r d u) w ->
  NoDup (trx_id <$> generated w) /\ NoDup ((fun o => (sender o, sender_id o)) <$> generated w) /\
  forall a, billed w a = ResourceLimits.billed r a + TI.owed (tables w) a
    + generated_owed (generated w) a + correction_of (ram_corrections w) a.
Proof.
  intros Hr Hrun. destruct (steps_ok f none pack_size_width _ _ _ _ r d u w Hr Hrun) as [Hw Es]. split_and!; [apply Hw..|].
  intros a. specialize (Es a eq_refl). unfold surplus in Es. lia.
Qed.

(** The activation of replace_deferred gives back exactly what was billed
    too much.  In every reachable state in which RAM usages fit 63 bits it
    succeeds, never meets an account that uses less RAM than its correction
    (the case that the code logs as an error), leaves no corrections, and
    bills every account what it was billed at the start, what its rows and
    tables take and what the generated transactions that it pays for take. *)
Theorem activation_corrects_ram (r : ResourceLimits.manager) (d : @AM.database K) (u : TC.net_state) (w : world) :
  ResourceLimits.inv r -> rtc world_step (no_generated r d u) w -> (forall a, billed w a < 2 ^ 63) ->
  (forall a c, (a, c) ∈ ram_corrections w -> c <= billed w a) /\
  exists w', activate_replace_deferred w = Ok w' /\ ram_corrections w' = [] /\ generated w' = generated w /\
    forall a, billed w' a = ResourceLimits.billed r a + TI.owed (tables w) a + generated_owed (generated w) a.
Proof.
  intros Hr Hrun Hfit. destruct (steps_ok f none pack_size_width _ _ _ _ r d u w Hr Hrun) as [Hw Es].
  destruct (wo_corrections _ _ _ Hw) as [Hnd Hp].
  assert (Forall (fun c => 0 < c.2) (ram_corrections w)) as Hpos
    by (eapply Forall_impl; [exact Hp|]; intros c [_ Hc]; by apply Hc).
  assert (forall a, correction_of (ram_corrections w) a <= billed w a) as Hle.
  { intros a. pose proof (wo_surplus _ _ _ Hw a eq_refl) as H0. unfold surplus in H0.
    pose proof (table_owed_nonneg (tables w) a).
    pose proof (generated_owed_nonneg f pack_size_width (generated w) a). lia. }
  split.
  - intros a c Hc. specialize (Hle a). assert (c <= correction_of (ram_corrections w) a); [|lia].
    apply list_elem_of_split in Hc as (l1 & l2 & E). rewrite E in Hp |- *. apply Forall_app in Hp as [Hp1 Hp2].
    apply Forall_cons in Hp2 as [_ Hp2]. unfold correction_of. rewrite sum_with_app.
    pose proof (correction_nonneg _ l1 a Hp1). pose proof (correction_nonneg _ l2 a Hp2).
    unfold correction_of, sum_with in *. cbn [foldr]. unfold ResourceLimits.only_for at 2. cbn.
    rewrite decide_True by done. lia.
  - destruct (correct_rams_succeed none (ram_corrections w) (CT.resources (tables w))
      (TI.wf_ram _ (proj1 (wo_tables _ _ _ Hw))) Hnd Hpos) as [m Hm].
    { intros a _. split; [apply Hle|apply Hfit]. }
    eexists. assert (activate_replace_deferred w = Ok _) as H1 by (unfold activate_replace_deferred; by rewrite Hm).
    split; [exact H1|]. destruct (activate_exact f none pack_size_width w _ Hw Hfit H1) as (_ & Hg & Hc & _ & Hb).
    split; [exact Hc|]. split; [exact Hg|]. intros a. rewrite Hb by done. specialize (Es a eq_refl). unfold surplus in Es. lia.
Qed.

End accounted.

(** ** Samples *)

(** The actions have no data; the id of a transaction is its delay. *)
Definition sample_library : library Z unit :=
  mk_library (fun t => TX.delay_sec t * 2 ^ 128) (fun t => u32 (50 + TX.delay_sec t)) (fun z => z)
    (fun _ => Throw misc_exception) (fun _ => tt) (fun _ => Throw misc_exception)
    (fun _ => Throw misc_exception) (fun _ => Throw misc_exception) (fun _ => Throw misc_exception)
    (fun _ => Throw misc_exception).

Definition sample_trx (delay : Z) : TX.transaction unit :=
  TX.mk_transaction 0 0 0 0 0 delay []
    [AM.mk_action ResourceLimits.alice (Name.mk_name 7)
       [Authority.mk_level ResourceLimits.alice AM.active_name] tt] [].

(** A node that does not check authorizations, before replace_deferred. *)
Definition sample_node : node Z unit :=
  mk_node TransactionBilling.sample_controller true true false true true (Merkle.mk_digest 0 0 0 0)
    false false (sample_trx 9) 0.

Definition sample_context : CT.action_context :=
  CT.mk_action_context ResourceLimits.alice ResourceLimits.alice [] false false false true.

Definition sample_net : TC.net_state := TC.mk_net 10000 false false 10000 0.
Definition sample_world : world Z unit :=
  no_generated ResourceLimits.two_accounts_m AuthActions.db4 sample_net.

Definition the_world (r : result (world Z unit)) : world Z unit :=
  match r with Ok w => w | Throw _ => sample_world end.
Definition sent_world : world Z unit :=
  the_world (schedule_deferred_transaction sample_library sample_node sample_context sample_world 5
    ResourceLimits.alice (sample_trx 60) false).
Definition replaced_world : world Z unit :=
  the_world (schedule_deferred_transaction sample_library sample_node sample_context sent_world 5
    ResourceLimits.alice (sample_trx 80) true).

Lemma sample_sizes (t : TX.transaction unit) : is_u32 (pack_size sample_library t).
Proof. apply u32_range. Qed.

Abbreviation sample_step := (world_step sample_library TableSearch.sample_lt TableSearch.sample_lt
  TableSearch.sample_nan TableSearch.sample_nan).

Lemma sent_reachable : rtc sample_step sample_world sent_world.
Proof.
  apply rtc_once, (ws_send _ _ _ _ _ sample_node sample_context _ 5 ResourceLimits.alice (sample_trx 60) false).
  vm_compute. reflexivity.
Qed.

Lemma replaced_reachable : rtc sample_step sample_world replaced_world.
Proof.
  etrans; [exact sent_reachable|].
  apply rtc_once, (ws_send _ _ _ _ _ sample_node sample_context _ 5 ResourceLimits.alice (sample_trx 80) true).
  vm_compute. reflexivity.
Qed.

Lemma sample_fits a : billed replaced_world a < 2 ^ 63.
Proof.
  assert (map_Forall (fun _ u => ResourceLimits.ram_usage u < 2 ^ 63)
    (ResourceLimits.usage (CT.resources (tables replaced_world)))) as Hall
    by (apply (bool_decide_unpack _); vm_compute; exact I).
  unfold billed, TI.billed, ResourceLimits.billed. destruct (ResourceLimits.usage _ !! a) eqn:E; [|lia].
  by apply Hall in E.
Qed.

Lemma deferred_ram_accounted_witness : ram_corrections replaced_world = [(ResourceLimits.alice, 382)] /\
  billed replaced_world ResourceLimits.alice = 0 + 0 + 402 + 382.
Proof.
  split; [vm_compute; reflexivity|].
  destruct (deferred_ram_accounted sample_library sample_sizes TableSearch.sample_lt TableSearch.sample_lt
    TableSearch.sample_nan TableSearch.sample_nan ResourceLimits.two_accounts_m AuthActions.db4 sample_net
    replaced_world ResourceLimits.two_accounts_inv replaced_reachable) as (_ & _ & Hb).
  rewrite Hb. vm_compute. reflexivity.
Defined.

Lemma activation_corrects_ram_witness : exists w', activate_replace_deferred replaced_world = Ok w' /\
  billed w' ResourceLimits.alice = 402.
Proof.
  destruct (activation_corrects_ram sample_library sample_sizes TableSearch.sample_lt TableSearch.sample_lt
    TableSearch.sample_nan TableSearch.sample_nan ResourceLimits.two_accounts_m AuthActions.db4 sample_net
    replaced_world ResourceLimits.two_accounts_inv replaced_reachable sample_fits) as (_ & w' & H1 & _ & _ & Hb).
  exists w'. split; [done|]. rewrite Hb. vm_compute. reflexivity.
Defined.

End DeferredRam.
