(* ===== verification/ChainRam.v ===== *)
(** * The RAM of the whole chain

    Module [ChainRam] joins the accounts of RAM of the components: rows and
    tables of contracts, generated transactions and corrections, accounts with
    permissions and links, code and ABIs.  Whatever contracts and native
    actions do, an account is billed for exactly what is stored on its behalf,
    up to what it was billed at the start; except for the account of the
    producers, whose permissions the node itself changes. *)

From S2P Require Import Prelude Names Merkle ProducerSchedule Authority AuthorityChecker.
From S2P Require Import Accumulators ResourceLimits AuthorizationManager AuthActions AccessLists.
From S2P Require Import ChainConfig BlockHeaderState Transactions TransactionContext TableIndex.
From S2P Require Import ContractTables TableInvariants TableSearch ActionExecution ActionOrder.
From S2P Require Import TransactionExecution ExecutionInvariants ContractCode.
From S2P Require Import DeferredTransactions ChainHost DeferredRam ChainInvariants.

Module ChainRam.
Import DeferredTransactions ChainHost DeferredRam ChainInvariants.

Section ram.
Context {K Bytes : Type} `{Countable K}.
Abbreviation transaction := (TX.transaction Bytes).
Abbreviation world := (world K Bytes).
Abbreviation accounts_map := (gmap account_name AE.account_metadata).
Abbreviation database := (@AM.database K).
Context (f : library K Bytes) (v : natives K Bytes).
#[local] Existing Instance chain_host.

(** The code may be set. *)
Definition accepted (c : list Z) : Prop := validate_code v c = Ok tt.

(** What the libraries promise: packed sizes are 32-bit numbers, unpacked
    values have the widths of their types, hashes of the codes that may be set
    differ if the sizes differ and are not zero, and the memory of the database
    cannot hold 2^32 rows of a table. *)
Record libraries_ok : Prop := {
  lo_pack t : is_u32 (pack_size f t);
  lo_memory s : memory v s = true -> TI.capacity s;
  lo_keys k : 0 <= key_pack_size v k < 2 ^ 32;
  lo_sizes a b : accepted a -> accepted b -> sha256 v a = sha256 v b -> length a = length b;
  lo_nonzero a : accepted a -> a <> [] -> sha256 v a <> CC.no_hash;
  lo_setcode b a : as_setcode v b = Ok a -> is_u32 (Z.of_nat (length (CC.sc_code a)));
  lo_setabi b a : as_setabi v b = Ok a -> is_u32 (Z.of_nat (length (CC.sa_abi a)));
  lo_newaccount b a : as_newaccount v b = Ok a ->
    Authority.authority_widths (AA.na_owner a) /\ Authority.authority_widths (AA.na_active a);
  lo_updateauth b a : as_updateauth f b = Ok a -> Authority.authority_widths (AM.ua_auth a);
}.

(** ** What is stored for an account *)

Definition auth_bytes (l : accounts_map) (w : world) (a : account_name) : Z :=
  AA.charged (key_pack_size v) (auth_database l w) a.
Definition stored_bytes (l : accounts_map) (w : world) (a : account_name) : Z :=
  TI.owed (tables w) a + generated_owed f (generated w) a + correction_of (ram_corrections w) a
  + auth_bytes l w a + CC.contract_bytes l (contracts (ledger w)) a.

(** What the account is billed beyond that. *)
Definition rest (s : accounts_map * world) (a : account_name) : Z :=
  billed s.2 a - stored_bytes s.1 s.2 a.

(** Genesis does not bill the system account for its ABI, and the node does not
    bill the account of the producers for the changes to its permissions. *)
Definition uncharged (a : account_name) : Z :=
  if decide (a = AM.system_account_name) then 2132 else 0.
Definition loose (a : account_name) : bool := bool_decide (a = AA.producers_account_name).
Definition uncharged_in (l : accounts_map) (a : account_name) : Z :=
  if decide (a ∈ dom l) then uncharged a else 0.

Record chain_ok (s : accounts_map * world) : Prop := {
  ck_world : world_ok f loose s.2;
  ck_auth : AA.tables_wf (auth_database s.1 s.2) /\ AA.accounts_complete (auth_database s.1 s.2);
  ck_code : CC.code_wf (sha256 v) accepted s.1 (contracts (ledger s.2));
  ck_rest a : loose a = false -> 0 <= rest s a + uncharged_in s.1 a;
}.

(** As long as accounts can be counted, the state stays well formed and
    everything is billed. *)
Definition ram_kept (s s' : accounts_map * world) : Prop :=
  (size s.1 <= size s'.1)%nat /\
  (Z.of_nat (size s'.1) < 2 ^ 63 -> chain_ok s ->
   chain_ok s' /\ forall a, loose a = false -> rest s' a = rest s a).

#[export] Instance ram_kept_preorder : PreOrder ram_kept.
Proof.
  split; [intros s; split; [lia|done]|]. intros s1 s2 s3 [L1 R1] [L2 R2]. split; [lia|]. intros Hsz Hs.
  destruct (R1 ltac:(lia) Hs) as [Hs2 E2], (R2 Hsz Hs2) as [Hs3 E3]. split; [done|]. intros a Ha. by rewrite E3, E2.
Qed.

Lemma ram_kept_intro l (w w' : world) :
  (chain_ok (l, w) -> chain_ok (l, w') /\ forall a, loose a = false -> rest (l, w') a = rest (l, w) a) ->
  ram_kept (l, w) (l, w').
Proof. intros Hk. split; [done|]. auto. Qed.

Hypothesis libraries : libraries_ok.

Lemma auth_bytes_nonneg l w a : 0 <= auth_bytes l w a.
Proof. apply AA.charged_nonneg, libraries. Qed.

Lemma contract_bytes_nonneg l c a : CC.code_wf (sha256 v) accepted l c -> 0 <= CC.contract_bytes l c a.
Proof.
  intros Hwf. unfold CC.contract_bytes. pose proof (CC.code_bytes_range _ _ _ _ a Hwf).
  pose proof (CC.abi_bytes_range _ _ _ _ a Hwf). lia.
Qed.

Lemma uncharged_covered l (w : world) a : AA.accounts_complete (auth_database l w) ->
  uncharged_in l a <= auth_bytes l w a.
Proof.
  intros Hc. unfold uncharged_in. pose proof (auth_bytes_nonneg l w a) as Hn. destruct (decide _) as [Hin|_]; [|done].
  assert (2336 <= auth_bytes l w a); [|unfold uncharged; repeat destruct (decide _); lia].
  apply (AA.charged_account_min _ (lo_keys libraries) (auth_database l w)); [done|].
  cbn. rewrite lookup_fmap, fmap_is_Some. by apply elem_of_dom.
Qed.

Lemma uncharged_mono (l l' : accounts_map) a : dom l ⊆ dom l' -> uncharged_in l a <= uncharged_in l' a.
Proof.
  intros Hd. unfold uncharged_in, uncharged. destruct (decide (a ∈ dom l)) as [Hin|_].
  - assert (a ∈ dom l') by (by apply Hd). by rewrite (decide_True (P := a ∈ dom l')).
  - repeat destruct (decide _); lia.
Qed.

Lemma rest_surplus l w a : rest (l, w) a = surplus f w a - auth_bytes l w a - CC.contract_bytes l (contracts (ledger w)) a.
Proof. unfold rest, stored_bytes, surplus. cbn [fst snd]. lia. Qed.

(** The view of the permissions does not depend on tables and transactions. *)
Lemma auth_same_tables l l' (w w' : world) : AA.same_tables (permissions w) (permissions w') ->
  dom l' = dom l -> AA.same_tables (auth_database l w) (auth_database l' w').
Proof.
  intros [] Hd. split; try done. intros a. cbn. rewrite !lookup_fmap, !fmap_is_Some, <- !elem_of_dom. by rewrite Hd.
Qed.

(** A step that keeps the world, and permissions and contracts. *)
Lemma keeps_chain l (w w' : world) : keeps f loose w w' -> AA.same_tables (permissions w) (permissions w') ->
  contracts (ledger w') = contracts (ledger w) -> chain_ok (l, w) ->
  chain_ok (l, w') /\ forall a, loose a = false -> rest (l, w') a = rest (l, w) a.
Proof.
  intros Hk Hp Hc [Hw Ha Hcode Hr]. cbn in *. destruct (Hk Hw) as [Hw' Es].
  pose proof (auth_same_tables l l w w' Hp eq_refl) as Hst.
  assert (forall a, loose a = false -> rest (l, w') a = rest (l, w) a) as Er.
  { intros a Hl. rewrite !rest_surplus, Es, Hc by done. unfold auth_bytes. by rewrite (AA.same_tables_charged _ (lo_keys libraries) _ _ a Hst). }
  split; [|done]. split; cbn; [done|by eapply AA.same_tables_wf|by rewrite Hc|].
  intros a Hl. rewrite Er by done. by apply Hr.
Qed.

(** A step that changes the RAM of permissions, code and ABIs by [d], and
    leaves [e] unbilled. *)
Lemma deficit_chain l l' (w w' : world) (d e : account_name -> Z) : dom l ⊆ dom l' -> chain_ok (l, w) ->
  TI.charged (tables w) (tables w') d -> generated w' = generated w ->
  next_generated w' = next_generated w -> ram_corrections w' = ram_corrections w ->
  AA.tables_wf (auth_database l' w') /\ AA.accounts_complete (auth_database l' w') ->
  CC.code_wf (sha256 v) accepted l' (contracts (ledger w')) ->
  (forall a, loose a = false -> 0 <= rest (l, w) a - e a + uncharged_in l' a) ->
  (forall a, loose a = false -> d a + e a = auth_bytes l' w' a - auth_bytes l w a
     + CC.contract_bytes l' (contracts (ledger w')) a - CC.contract_bytes l (contracts (ledger w)) a) ->
  chain_ok (l', w') /\ forall a, loose a = false -> rest (l', w') a = rest (l, w) a - e a.
Proof.
  intros Hdom [Hw Ha Hcode Hr] Hch Eg En Ec Ha' Hcode' He Hd. cbn in *.
  destruct (charged_kept w (tables w') d Hch (wo_tables _ _ _ Hw)) as (Hwf & Ho & Hb).
  assert (forall a, loose a = false -> rest (l', w') a = rest (l, w) a - e a) as Er.
  { intros a Hl. unfold rest, stored_bytes. cbn [fst snd]. rewrite Eg, Ec, Ho. specialize (Hb a). specialize (Hd a Hl).
    unfold billed in *. lia. }
  assert (forall a, loose a = false -> 0 <= rest (l', w') a + uncharged_in l' a) as Hr'
    by (intros a Hl; rewrite Er by done; by apply He).
  split; [|done]. split; cbn; [|done|done|done].
  destruct Hw as [? ? ? ? ? ? ?]. split; rewrite ?Eg, ?En, ?Ec; try done.
  intros a Hl. pose proof (rest_surplus l' w' a). pose proof (uncharged_covered l' w' a (proj2 Ha')).
  pose proof (contract_bytes_nonneg _ _ a Hcode'). specialize (Hr' a Hl). lia.
Qed.

(** A step that charges it. *)
Lemma charge_chain l l' (w w' : world) (d : account_name -> Z) : dom l ⊆ dom l' -> chain_ok (l, w) ->
  TI.charged (tables w) (tables w') d -> generated w' = generated w ->
  next_generated w' = next_generated w -> ram_corrections w' = ram_corrections w ->
  AA.tables_wf (auth_database l' w') /\ AA.accounts_complete (auth_database l' w') ->
  CC.code_wf (sha256 v) accepted l' (contracts (ledger w')) ->
  (forall a, loose a = false -> d a = auth_bytes l' w' a - auth_bytes l w a
                   + CC.contract_bytes l' (contracts (ledger w')) a - CC.contract_bytes l (contracts (ledger w)) a) ->
  chain_ok (l', w') /\ forall a, loose a = false -> rest (l', w') a = rest (l, w) a.
Proof.
  intros Hdom Hk Hch Eg En Ec Ha' Hcode' Hd.
  destruct (deficit_chain l l' w w' d (fun _ => 0) Hdom Hk Hch Eg En Ec Ha' Hcode') as [Hk' Er].
  - intros a Hl. pose proof (uncharged_mono l l' a Hdom). pose proof (ck_rest _ Hk a Hl) as Hr. cbn in Hr. lia.
  - intros a Hl. rewrite <- Hd by done. lia.
  - split; [done|]. intros a Hl. rewrite Er by done. lia.
Qed.

(** ** Calls *)

Lemma table_call_kept x l (w : world) c s r : TableSearch.call_ok c ->
  CT.call_api x (f64_lt v) (f128_lt v) (f64_is_nan v) (f128_is_nan v) (tables w) c = Ok (r, s) ->
  memory v s = true -> ram_kept (l, w) (l, set_tables w s).
Proof.
  intros Hc H1 Hm. apply ram_kept_intro. intros Hk. apply keeps_chain; [|by split|done|done].
  eapply (table_keeps f loose (f64_lt v) (f128_lt v) (f64_is_nan v) (f128_is_nan v)); [apply (ck_world _ Hk)|].
  eapply TableSearch.step_call; [done|done|]. by apply libraries.
Qed.

(** Deferred transactions do not touch permissions and accounts. *)
Definition same_books (w w' : world) : Prop := permissions w' = permissions w /\ ledger w' = ledger w.

Lemma add_ram_same_books (w w' : world) a d : add_ram_usage w a d = Ok w' -> same_books w w'.
Proof. by intros (s & _ & [= <-])%bind_ok_inv. Qed.

Lemma create_same_books (w w' : world) tid s sid p u ex pub t :
  create w tid s sid p u ex pub t = Ok w' -> same_books w w'.
Proof. intros H1. unfold create in H1. do 2 apply bind_ok_inv in H1 as ([] & _ & H1). by injection H1 as <-. Qed.

Lemma same_books_trans (w w1 w2 : world) : same_books w w1 -> same_books w1 w2 -> same_books w w2.
Proof. unfold same_books. intros [-> ->] [-> ->]. done. Qed.

Lemma schedule_deferred_same_books n x (w w' : world) sid p t b :
  schedule_deferred_transaction f n x w sid p t b = Ok w' -> same_books w w'.
Proof.
  intros H1. unfold schedule_deferred_transaction in H1. do 2 apply bind_ok_inv in H1 as ([] & _ & H1).
  apply bind_ok_inv in H1 as (t1 & _ & H1). apply bind_ok_inv in H1 as (usage & _ & H1).
  apply bind_ok_inv in H1 as ([] & _ & H1). apply bind_ok_inv in H1 as (w1 & Hr & H1).
  apply bind_ok_inv in H1 as ([] & _ & H1). apply add_ram_same_books in H1.
  eapply same_books_trans; [|exact H1]. change (same_books (set_net w usage) w1). unfold replace_or_create in Hr.
  destruct (find_by_sender_id _ _ _) as [old|]; [|by apply create_same_books in Hr].
  do 2 apply bind_ok_inv in Hr as ([] & _ & Hr). apply bind_ok_inv in Hr as (w2 & H2 & Hr).
  apply create_same_books in Hr. eapply (same_books_trans _ w2); [|exact Hr].
  destruct (replace_deferred n); [by apply add_ram_same_books in H2|by injection H2 as <-].
Qed.

Lemma cancel_deferred_same_books (w w' : world) sid s b :
  cancel_deferred_transaction f w sid s = Ok (b, w') -> same_books w w'.
Proof.
  intros H1. unfold cancel_deferred_transaction in H1. destruct (find_by_sender_id w s sid) as [o|]; [|by injection H1 as _ <-].
  apply bind_ok_inv in H1 as (w1 & H1 & H2). injection H2 as _ <-. by apply add_ram_same_books in H1.
Qed.

Lemma keeps_books l (w w' : world) : keeps f loose w w' -> same_books w w' -> ram_kept (l, w) (l, w').
Proof.
  intros Hk [Hp Hl]. apply ram_kept_intro. apply keeps_chain; [done| |by rewrite Hl]. by rewrite Hp; split.
Qed.

Lemma call_kept n x l (w : world) c a w' : call_chain f v n x w c = Ok (a, w') -> ram_kept (l, w) (l, w').
Proof.
  intros H1. destruct c as [c Hc|sid p t b|sid]; cbn in H1.
  - apply bind_ok_inv in H1 as ([r s] & H1 & H2). apply bind_ok_inv in H2 as ([] & Hm & H2). apply EOS_ASSERT_ok in Hm.
    injection H2 as _ <-. by eapply table_call_kept.
  - apply bind_ok_inv in H1 as ([] & _ & H1). apply bind_ok_inv in H1 as (w1 & H1 & H2). injection H2 as _ <-.
    apply keeps_books; [eapply schedule_deferred_keeps; [apply libraries|exact H1]|by eapply schedule_deferred_same_books].
  - apply bind_ok_inv in H1 as ([] & _ & H1). apply bind_ok_inv in H1 as ([b w1] & H1 & H2). injection H2 as _ <-.
    apply keeps_books; [eapply cancel_deferred_keeps; [apply libraries|exact H1]|by eapply cancel_deferred_same_books].
Qed.

(** ** Native actions *)

Lemma auth_db_wf l (w : world) : chain_ok (l, w) -> AA.db_wf (auth_database l w).
Proof.
  intros [Hw [Ht Hc] _ _]. split; [done|done|]. cbn. apply (TI.wf_ram _ (proj1 (wo_tables _ _ _ Hw))).
Qed.

(** A handler of [AuthActions]; [l'] and [b] are the accounts and the books
    after it, and [e] is what it leaves unbilled of the contracts. *)
Lemma auth_chain l l' (w : world) (d : database) b (e : account_name -> Z) : dom l ⊆ dom l' -> chain_ok (l, w) ->
  AA.accounted (key_pack_size v) (auth_database l w) d -> AE.is_privileged <$> l' = AM.account_index d ->
  CC.code_wf (sha256 v) accepted l' (contracts b) ->
  (forall a, CC.contract_bytes l' (contracts b) a = CC.contract_bytes l (contracts (ledger w)) a + e a) ->
  (forall a, loose a = false -> 0 <= rest (l, w) a - e a + uncharged_in l' a) ->
  let s' := (l', set_ledger (store_auth w d) b) in
  chain_ok s' /\ forall a, loose a = false -> rest s' a = rest (l, w) a - e a.
Proof.
  intros Hdom Hk [[Ht Hc Hr] Hacc] Hl Hcode Hcb He. cbn zeta.
  assert (AA.same_tables d (auth_database l' (set_ledger (store_auth w d) b))) as Hst.
  { split; try done. intros a. cbn. by rewrite Hl. }
  apply (deficit_chain l l' w _ (fun a => AA.charged (key_pack_size v) d a - auth_bytes l w a)); try done.
  - split_and!; [cbn; by eauto|done|]. intros a. specialize (Hacc a). unfold AA.billed in Hacc. cbn in Hacc.
    unfold TI.billed, auth_bytes. cbn. lia.
  - by apply (AA.same_tables_wf _ _ Hst).
  - intros a _. cbn [ledger set_ledger]. rewrite Hcb. unfold auth_bytes.
    rewrite (AA.same_tables_charged _ (lo_keys libraries) _ _ a Hst). lia.
Qed.

Lemma rest_uncharged l l' (w : world) a : dom l ⊆ dom l' -> chain_ok (l, w) -> loose a = false ->
  0 <= rest (l, w) a - 0 + uncharged_in l' a.
Proof.
  intros Hd Hk Hl. pose proof (uncharged_mono l l' a Hd). pose proof (ck_rest _ Hk a Hl) as Hr. cbn in Hr. lia.
Qed.

(** The handlers that keep the accounts. *)
Lemma on_auth_kept h x l (w : world) l' w' :
  (forall d d' auths, AA.db_wf d -> h d auths = Ok d' -> AA.accounted (key_pack_size v) d d' /\
     AM.account_index d' = AM.account_index d) ->
  on_auth h x (l, w) = Ok (l', w') -> ram_kept (l, w) (l', w').
Proof.
  intros Hh H1. unfold on_auth in H1. apply bind_ok_inv in H1 as (d & H1 & [= <- <-]). split; [done|]. intros _ Hk.
  destruct (Hh _ _ _ (auth_db_wf _ _ Hk) H1) as [Ha He]. pose proof (ck_code _ Hk) as Hcode. cbn in Hcode.
  destruct (auth_chain l l w d (ledger w) (fun _ => 0) (reflexivity _) Hk Ha) as [Hk' Er];
    [by rewrite He|done|intros a; lia|intros a; by apply rest_uncharged|].
  split; [exact Hk'|]. intros a Hl. change (rest (l, set_ledger (store_auth w d) (ledger w)) a = rest (l, w) a).
  rewrite Er by done. lia.
Qed.

Lemma newaccount_kept n x l (w : world) l' w' : handle_newaccount v n x (l, w) = Ok (l', w') ->
  ram_kept (l, w) (l', w').
Proof.
  intros H1. unfold handle_newaccount in H1. apply bind_ok_inv in H1 as (a & Ha & H1).
  apply (lo_newaccount libraries) in Ha as [Ho Hac]. apply bind_ok_inv in H1 as ([l1 w1] & H1 & [= <- <-]).
  unfold on_auth in H1. apply bind_ok_inv in H1 as (d & H1 & [= <- <-]). cbn [fst snd] in *.
  destruct (AA.newaccount_accounts _ _ _ _ _ _ _ _ H1) as [Hnone Hacc]. cbn in Hnone. rewrite lookup_fmap in Hnone.
  apply fmap_None in Hnone. split; cbn [fst]; [rewrite map_size_insert_None by done; lia|]. intros _ Hk.
  assert (dom l ⊆ dom (<[AA.na_name a := CC.new_metadata]> l)) as Hd by (rewrite dom_insert_L; set_solver).
  destruct (CC.new_account_wf (sha256 v) accepted l (contracts (ledger w)) (AA.na_name a) CC.new_metadata [] (ck_code _ Hk) Hnone)
    as [Hcode Hcb]; [done|cbn; lia|].
  match goal with |- chain_ok (_, set_contracts _ ?c) /\ _ =>
    destruct (auth_chain l (<[AA.na_name a := CC.new_metadata]> l) w d
      (mk_books (accounts (ledger w)) c (global_action_sequence (ledger w)) (action_receipt_digests (ledger w)))
      (fun _ => 0) Hd Hk) as [Hk' Er] end.
  - eapply AA.newaccount_accounted; [apply libraries|by apply auth_db_wf|exact Ho|exact Hac|exact H1].
  - by rewrite fmap_insert, Hacc.
  - exact Hcode.
  - intros b. rewrite Hcb. unfold ResourceLimits.only_for. cbn. destruct (decide _); lia.
  - intros b. by apply rest_uncharged.
  - split; [exact Hk'|]. intros b Hl. etrans; [exact (Er b Hl)|lia].
Qed.

(** The handlers of [ContractCode]. *)
Lemma on_code_kept h l (w : world) l' w' :
  (forall s s', CC.code_wf (sha256 v) accepted (CC.metadata s) (CC.stored s) -> ResourceLimits.inv (CT.resources (CC.tables s)) ->
     Z.of_nat (size (CC.metadata s)) < 2 ^ 63 -> h s = Ok s' -> CC.handled (sha256 v) accepted s s') ->
  (forall s s', h s = Ok s' -> dom (CC.metadata s') = dom (CC.metadata s)) ->
  on_code h (l, w) = Ok (l', w') -> ram_kept (l, w) (l', w').
Proof.
  intros Hh Hd H1. unfold on_code in H1. apply bind_ok_inv in H1 as (c & H1 & [= <- <-]). cbn [fst snd] in *.
  pose proof (Hd _ _ H1) as Hdom. cbn in Hdom.
  assert (size (CC.metadata c) = size l) as Hsz by (by rewrite <- !(size_dom (D := gset account_name)), Hdom).
  split; cbn [fst]; [lia|]. intros Hlt Hk. rewrite Hsz in Hlt.
  destruct (Hh (CC.mk_code_state l (contracts (ledger w)) (tables w)) c (ck_code _ Hk)
    (TI.wf_ram _ (proj1 (wo_tables _ _ _ (ck_world _ Hk)))) Hlt H1) as [Hwf Hram _ _].
  assert (AA.same_tables (auth_database l w) (auth_database (CC.metadata c) (set_contracts (set_tables w (CC.tables c)) (CC.stored c)))) as Hst
    by (apply auth_same_tables; [by split|done]).
  cbn [CC.metadata CC.stored CC.tables] in Hram.
  apply (charge_chain l (CC.metadata c) w (set_contracts (set_tables w (CC.tables c)) (CC.stored c)) _ ltac:(by rewrite Hdom) Hk Hram); try done.
  - by apply (AA.same_tables_wf _ _ Hst), (ck_auth _ Hk).
  - intros a _. unfold auth_bytes. rewrite (AA.same_tables_charged _ (lo_keys libraries) _ _ a Hst). cbn. lia.
Qed.

Lemma setcode_dom validate block time x s act s' :
  CC.apply_eosio_setcode (sha256 v) validate block time x s act = Ok s' ->
  dom (CC.metadata s') = dom (CC.metadata s).
Proof.
  intros H1. unfold CC.apply_eosio_setcode in H1. do 4 apply bind_ok_inv in H1 as ([] & _ & H1).
  destruct (CC.metadata s !! CC.sc_account act) as [m|] eqn:Em; [|done]. apply bind_ok_inv in H1 as ([] & _ & H1).
  apply bind_ok_inv in H1 as ([cs old] & _ & H1). apply bind_ok_inv in H1 as (t & _ & [= <-]).
  by apply (CC.metadata_changed _ _ m (CC.set_metadata_code time m act _) Em).
Qed.

Lemma setabi_dom x s act s' : CC.apply_eosio_setabi x s act = Ok s' -> dom (CC.metadata s') = dom (CC.metadata s).
Proof.
  intros H1. unfold CC.apply_eosio_setabi in H1. apply bind_ok_inv in H1 as ([] & _ & H1).
  destruct (CC.abis (CC.stored s) !! _); [|done]. destruct (CC.metadata s !! CC.sa_account act) as [m|] eqn:Em; [|done].
  apply bind_ok_inv in H1 as (t & _ & [= <-]). by apply (CC.metadata_changed _ _ m (CC.set_metadata_abi m) Em).
Qed.

Lemma native_kept y n a h x l (w : world) l' w' : (a, h) ∈ apply_handlers f v y n ->
  h x (l, w) = Ok (l', w') -> ram_kept (l, w) (l', w').
Proof.
  intros Hh H1. unfold apply_handlers in Hh. repeat (apply elem_of_cons in Hh as [[= -> ->]|Hh]);
    [by eapply newaccount_kept|..|by apply elem_of_nil in Hh]; apply bind_ok_inv in H1 as (act & Hact & H1).
  - eapply on_code_kept; [..|exact H1]; [|intros s s'; apply setcode_dom]. intros s s' Hwf Hinv Hsz.
    eapply CC.setcode_handled; [apply libraries|apply libraries|done|done|done|exact (lo_setcode libraries _ _ Hact)|done].
  - eapply on_code_kept; [..|exact H1]; [|intros s s'; apply setabi_dom]. intros s s' Hwf Hinv Hsz.
    apply CC.setabi_handled; [done|done|exact (lo_setabi libraries _ _ Hact)].
  - eapply on_auth_kept; [|exact H1]. intros d d' auths Hd Hx. cbn beta in Hx.
    split; [eapply AA.updateauth_accounted; [apply libraries|done|exact (lo_updateauth libraries _ _ Hact)|exact Hx]|eapply AA.updateauth_accounts; exact Hx].
  - eapply on_auth_kept; [|exact H1]. intros d d' auths Hd Hx. cbn beta in Hx.
    split; [eapply AA.deleteauth_accounted; [apply libraries|done|exact Hx]|eapply AA.deleteauth_accounts; exact Hx].
  - eapply on_auth_kept; [|exact H1]. intros d d' auths Hd Hx. cbn beta in Hx.
    split; [by eapply AA.linkauth_accounted|eapply AA.linkauth_accounts; exact Hx].
  - eapply on_auth_kept; [|exact H1]. intros d d' auths Hd Hx. cbn beta in Hx.
    split; [by eapply AA.unlinkauth_accounted|eapply AA.unlinkauth_accounts; exact Hx].
  - apply bind_ok_inv in H1 as (w1 & H1 & [= <- <-]). apply keeps_books.
    + eapply canceldelay_keeps; [apply libraries|exact H1].
    + unfold apply_eosio_canceldelay in H1. apply bind_ok_inv in H1 as ([] & _ & H1).
      apply bind_ok_inv in H1 as ([b w2] & H1 & [= <-]). by eapply cancel_deferred_same_books.
Qed.

(** ** Transactions *)

Lemma account_kept l (w : world) a m m' : l !! a = Some m -> EI.same_contract m m' ->
  ram_kept (l, w) (<[a := m']> l, w).
Proof.
  intros Hm (E1 & E2 & E3 & _). split; cbn [fst]; [by rewrite map_size_insert_Some|]. intros _ Hk.
  destruct (CC.code_wf_metadata (sha256 v) accepted l (contracts (ledger w)) a m m' (ck_code _ Hk) Hm) as [Hwf Hb].
  { unfold CC.key_of. by rewrite E1, E2, E3. }
  assert (AA.same_tables (auth_database l w) (auth_database (<[a := m']> l) w)) as Hst.
  { apply auth_same_tables; [by split|]. rewrite dom_insert_L. apply elem_of_dom_2 in Hm. set_solver. }
  apply (charge_chain l _ w w (fun _ => 0)); try done.
  - rewrite dom_insert_L. set_solver.
  - apply TI.charged_refl, (TI.wf_ram _ (proj1 (wo_tables _ _ _ (ck_world _ Hk)))).
  - by apply (AA.same_tables_wf _ _ Hst), (ck_auth _ Hk).
  - intros b _. unfold auth_bytes, CC.contract_bytes. rewrite (AA.same_tables_charged _ (lo_keys libraries) _ _ b Hst), Hb. lia.
Qed.

Lemma chain_ram_respected y n pub :
  @EI.respected _ _ _ _ _ _ _ (chain_host f v n) (environment_of f v y n pub) ram_kept.
Proof.
  split.
  - intros x l w c a w' H1. exact (call_kept n x l w c a w' H1).
  - intros l w. apply ram_kept_intro. intros Hk. apply keeps_chain; [|by split|done|done].
    eapply (table_keeps f loose (f64_lt v) (f128_lt v) (f64_is_nan v) (f128_is_nan v)); [apply (ck_world _ Hk)|constructor].
  - intros l w. apply ram_kept_intro. intros Hk. pose proof (TI.wf_ram _ (proj1 (wo_tables _ _ _ (ck_world _ Hk)))) as Hinv.
    apply (charge_chain l l w _ (fun _ => 0) (reflexivity _) Hk); try done.
    + split_and!; [cbn; by eauto|done|]. intros a. cbn. unfold TI.billed. cbn. lia.
    + eapply AA.same_tables_wf; [|apply (ck_auth _ Hk)]. apply auth_same_tables; [by split|done].
    + apply (ck_code _ Hk).
    + intros a _. unfold auth_bytes.
      erewrite (AA.same_tables_charged _ (lo_keys libraries) (auth_database l w)); [cbn; lia|].
      apply auth_same_tables; [by split|done].
  - intros l w a m m'. apply account_kept.
  - intros a h x l w l' w' Hh%native_handler_in H1. by eapply native_kept.
Qed.

(** The accounts of the ledger with the state of the chain. *)
Definition state_of (w : world) : accounts_map * world := (accounts (ledger w), w).

Lemma end_transaction_kept (t : AE.transaction_state Bytes world) :
  ram_kept (EI.parts t) (state_of (end_transaction t)).
Proof.
  split; [done|]. intros _ Hk. apply keeps_chain; [|by split|done|done].
  intros Hw. split; [by apply world_ok_ledger|done].
Qed.

Lemma schedule_transaction_same_books n (w w' : world) :
  schedule_transaction f n w = Ok w' -> same_books w w'.
Proof.
  intros H1. unfold schedule_transaction in H1. apply bind_ok_inv in H1 as (w1 & H1 & H2).
  apply bind_ok_inv in H2 as (w2 & H2 & H3). unfold trx_add_ram_usage in H3. apply bind_ok_inv in H3 as (r & _ & [= <-]).
  eapply (same_books_trans _ w1); [|by apply create_same_books in H2].
  destruct (_ =? _); [by apply bind_ok_inv in H1 as (u & _ & [= <-])|by injection H1 as <-].
Qed.

Lemma keeps_state (w w' : world) : keeps f loose w w' -> same_books w w' -> ram_kept (state_of w) (state_of w').
Proof. intros Hk Hb. unfold state_of. rewrite (proj2 Hb). by apply keeps_books. Qed.

Lemma exec_kept y n cf pub (w w' : world) : exec f v y n cf pub w = Ok w' ->
  ram_kept (state_of w) (state_of w').
Proof.
  intros H1. unfold exec in H1. apply bind_ok_inv in H1 as (tx & H1 & H2).
  apply (EI.exec_transaction_respects _ _ (chain_ram_respected y n pub)) in H1.
  assert (ram_kept (state_of w) (state_of (end_transaction tx))) as Hn
    by (etrans; [exact H1|apply end_transaction_kept]).
  destruct (_ =? _); [by injection H2 as <-|]. etrans; [exact Hn|].
  apply keeps_state; [eapply schedule_transaction_keeps; [apply libraries|exact H2]|by eapply schedule_transaction_same_books].
Qed.

Lemma exec_onerror_kept y n s pub (w w' : world) : exec_onerror f v y n s pub w = Ok w' ->
  ram_kept (state_of w) (state_of w').
Proof.
  intros H1. unfold exec_onerror in H1. destruct (last _) as [a|]; [|done]. cbn in H1.
  apply bind_ok_inv in H1 as (tx & H1 & [= <-]).
  apply (EI.execute_action_respects _ _ (chain_ram_respected y n pub)) in H1.
  etrans; [exact H1|apply end_transaction_kept].
Qed.

Lemma remove_scheduled_kept (w w' : world) o : o ∈ generated w ->
  remove_scheduled_transaction f w o = Ok w' -> ram_kept (state_of w) (state_of w').
Proof.
  intros Ho H1. apply keeps_state; [eapply remove_scheduled_keeps; [apply libraries|exact Ho|exact H1]|].
  unfold remove_scheduled_transaction in H1. by apply bind_ok_inv in H1 as (r & _ & [= <-]).
Qed.

(** A change of the resource limits, of the times of permissions and of what
    is checked at the end of a transaction. *)
Lemma neutral_kept (w w' : world) r d u : tables w' = CT.set_ram (tables w) r d u ->
  (ResourceLimits.inv (CT.resources (tables w)) -> ResourceLimits.inv r) ->
  (forall a, ResourceLimits.billed r a = billed w a) ->
  AA.same_tables (permissions w) (permissions w') -> generated w' = generated w ->
  next_generated w' = next_generated w -> ram_corrections w' = ram_corrections w ->
  ledger w' = ledger w -> ram_kept (state_of w) (state_of w').
Proof.
  intros Et Hi Hb Hp Eg En Ec El. unfold state_of. rewrite El. apply ram_kept_intro. intros Hk.
  pose proof (auth_same_tables (accounts (ledger w)) (accounts (ledger w)) w w' Hp eq_refl) as Hst.
  apply (charge_chain _ _ w w' (fun _ => 0) (reflexivity _) Hk); try done.
  - rewrite Et. split_and!; [by eauto|cbn; apply Hi, (TI.wf_ram _ (proj1 (wo_tables _ _ _ (ck_world _ Hk))))|].
    intros a. unfold TI.billed. cbn. rewrite Hb. unfold billed, TI.billed. lia.
  - by apply (AA.same_tables_wf _ _ Hst), (ck_auth _ Hk).
  - rewrite El. apply (ck_code _ Hk).
  - intros a _. unfold auth_bytes. rewrite (AA.same_tables_charged _ (lo_keys libraries) _ _ a Hst), El. lia.
Qed.

(** A change of the permissions of the producers, which charges nobody. *)
Lemma producers_chain (w : world) (d : database) : chain_ok (state_of w) ->
  AA.db_wf d -> AM.account_index d = AM.account_index (auth_database (accounts (ledger w)) w) ->
  AM.resources d = CT.resources (tables w) ->
  (forall a, a <> AA.producers_account_name -> AA.charged (key_pack_size v) d a
     = auth_bytes (accounts (ledger w)) w a) ->
  chain_ok (state_of (store_auth w d)) /\
  forall a, loose a = false -> rest (state_of (store_auth w d)) a = rest (state_of w) a.
Proof.
  intros Hk [Ht Hc _] Ei Er Hch. set (l := accounts (ledger w)) in *.
  assert (AA.same_tables d (auth_database l (store_auth w d))) as Hst.
  { split; try done. intros a. cbn. by rewrite Ei. }
  apply (charge_chain l l w (store_auth w d) (fun _ => 0) (reflexivity _) Hk); try done.
  - split_and!; [cbn; by eauto|cbn|intros a; unfold TI.billed; cbn; rewrite Er; lia].
    rewrite Er. apply (TI.wf_ram _ (proj1 (wo_tables _ _ _ (ck_world _ Hk)))).
  - by apply (AA.same_tables_wf _ _ Hst).
  - apply (ck_code _ Hk).
  - intros a Hl. unfold auth_bytes at 1. rewrite (AA.same_tables_charged _ (lo_keys libraries) _ _ a Hst), Hch
      by (by apply bool_decide_eq_false in Hl). change (ledger (store_auth w d)) with (ledger w). lia.
Qed.

Lemma update_producers_kept producers (w w' : world) : AA.schedule_names producers ->
  update_producers_authority producers w = Ok w' -> ram_kept (state_of w) (state_of w').
Proof.
  intros Hs H1. unfold update_producers_authority in H1. apply bind_ok_inv in H1 as (d & H1 & [= <-]).
  split; [done|]. intros _ Hk. apply (AA.update_producers_updated _ (lo_keys libraries)) in H1 as [Hd Ei Er _ _ Hc];
    [|by apply auth_db_wf|done]. by apply producers_chain.
Qed.

End ram.
End ChainRam.
