(* ===== verification/ScheduledExecution.v ===== *)
(** * Retiring generated transactions: [push_scheduled_transaction] and
      [apply_onerror] of libraries/chain/controller.cpp

    Module [ScheduledExecution] has what the controller does with a generated
    transaction that a block retires: it is removed, and then expires, is
    executed, or fails; after an objective failure its sender can handle the
    error, and otherwise the CPU time is billed.  The undo session keeps the
    state of the node when the failure is subjective or an exception escapes.

    The actions are executed by [ChainHost]; the clock is an argument at every
    place where it is read.  Database sessions are on: they are off only for a
    node that replays irreversible blocks, where no transaction fails. *)

From S2P Require Import Prelude Names Merkle ProducerSchedule Authority AuthorityChecker.
From S2P Require Import Accumulators ResourceLimits AuthorizationManager AccessLists ChainConfig.
From S2P Require Import BlockHeaderState Transactions TransactionContext TableIndex ContractTables.
From S2P Require Import ActionExecution DeferredTransactions ChainHost.

Module ScheduledExecution.
Import DeferredTransactions.

(** [controller_impl::failure_is_subjective] *)
Definition failure_is_subjective (e : chain_exception) : bool :=
  match e with
  | subjective_block_production_exception | block_net_usage_exceeded
  | greylist_net_usage_exceeded | block_cpu_usage_exceeded | greylist_cpu_usage_exceeded
  | deadline_exception | leeway_deadline_exception | actor_whitelist_exception
  | actor_blacklist_exception | contract_whitelist_exception | contract_blacklist_exception
  | action_blacklist_exception | key_blacklist_exception | sig_variable_size_limit_exception
  | inline_action_too_big_nonprivileged => true
  | _ => false
  end.

Definition scheduled_failure_is_subjective (e : chain_exception) : bool :=
  match e with tx_cpu_usage_exceeded => true | _ => failure_is_subjective e end.

(** The exceptions that the handlers do not catch. *)
Definition is_rethrown (e : chain_exception) : bool :=
  match e with
  | disallowed_transaction_extensions_bad_block_exception
  | protocol_feature_bad_block_exception | bad_alloc => true
  | _ => false
  end.

Inductive status_enum := executed | soft_fail | hard_fail | delayed | expired.

Record transaction_receipt := mk_receipt {
  r_trx_id : Z;
  status : status_enum;
  cpu_usage_us : Z;
  net_usage_words : Z;
}.

(** What happens to a transaction: a block gets its receipt, also with the
    exception of a hard failure, or it stays for a later block. *)
Inductive outcome :=
  | Retired (r : transaction_receipt) (except : option chain_exception)
  | Failed (e : chain_exception).

Definition push_receipt (tid : Z) (s : status_enum) (cpu net_usage : Z)
  : result transaction_receipt :=
  let words := net_usage / 8 in
  EOS_ASSERT (words * 8 =? net_usage) transaction_exception;;
  mret (mk_receipt tid s (u32 cpu) (u32 words)).

(** The arguments of [push_scheduled_transaction], and the clock: the start of
    the execution, the times at which the timers start and the context is
    finalized, and the time that has been used when the execution or the error
    handler fails. *)
Record request := mk_request {
  block_deadline : Z;
  max_transaction_time : Z;
  billed_cpu_time_us : Z;
  explicit_billed_cpu_time : bool;
  start : Z;
  now_init : Z;
  now_finalize : Z;
  used_at_failure : Z;
  error_start : Z;
  now_error_init : Z;
  now_error_finalize : Z;
  used_at_error_failure : Z;
}.

Section scheduled.
Context {K Bytes : Type} `{Countable K}.
Abbreviation transaction := (TX.transaction Bytes).
Abbreviation world := (world K Bytes).
Abbreviation gto := (generated_transaction_object Bytes).
Abbreviation context := (@TC.context K Bytes).

(** [pack_onerror] packs an onerror action with the id and the transaction
    that failed. *)
Context (pack_onerror : Z -> transaction -> Bytes).
Context (f : library K Bytes) (v : ChainHost.natives K Bytes) (y : ChainHost.runtime Bytes).
Context (n : node K Bytes) (q : request).
Abbreviation g := (trx_control n).
Abbreviation cfg := (TC.configuration g).

(** ** The context and the database

    The context of a transaction and the world share the resource limits, the
    permissions, the NET usage and the accounts whose RAM is to be checked. *)

Definition database_of (w : world) : @AM.database K :=
  AM.set_resources (permissions w) (CT.resources (tables w)).

Definition world_of (c : context) (w : world) : world :=
  let s := tables w in
  mk_world (CT.set_ram s (TC.rl c) (CT.account_ram_deltas s)
              (list_to_set (TC.validate_ram_usage c)))
    (TC.db c) (generated w) (next_generated w) (ram_corrections w) (TC.net c) (ledger w).

Definition context_of (w : world) (c : context) : context :=
  TC.set_validate_ram (TC.set_db (TC.set_net c (net w)) (database_of w))
    (foldr FlatSet.insert [] (elements (CT.validate_ram_usage (tables w)))).

(** ** Executing *)

Definition enforces_lists (o : gto) : bool :=
  if bool_decide (sender o = no_name) then true
  else negb (AccessLists.sender_avoids_whitelist_blacklist_enforcement (TC.access g) (sender o)).

Definition scheduled_options (o : gto) : @TC.options Bytes :=
  TC.mk_options (packed_trx o) (start q) (enforces_lists o) 0 0 (explicit_billed_cpu_time q) false
    (max_transaction_time q).

(** The node with another transaction; [read_only] is [trx_context.is_read_only]. *)
Definition with_trx (t : transaction) (delay : Z) (enforce read_only : bool) : node K Bytes :=
  mk_node (trx_control n) (no_duplicate_deferred_id n) (restrict_action_to_self n)
    (replace_deferred n) (skip_auth_check n) (all_subjective_mitigations_disabled n)
    (head_block_id n) enforce read_only t delay.

Definition actors_of (t : transaction) : FlatSet.flat_set :=
  foldl (fun s a => FlatSet.insert a s) []
    (Authority.actor <$> flat_map AM.authorization (TX.actions t)).

(** The body of the [try] block: the context at the end and the world. *)
Definition execute_scheduled (o : gto) (w : world) : result (context * world) :=
  let t := packed_trx o in
  c ← TC.init_for_deferred_trx g
        (TC.new_context (scheduled_options o) (block_deadline q) (billed_cpu_time_us q)
           (database_of w) []) (published o) (now_init q);
  (if enforces_lists o && TC.is_producing_block g
   then AccessLists.check_actor_list (TC.access g) (actors_of t) else mret tt);;
  w ← ChainHost.exec f v y (with_trx t 0 (enforces_lists o) false) false (published o) (world_of c w);
  c ← TC.finalize g (context_of w c) (now_finalize q);
  mret (c, world_of c w).

(** ** Error handling *)

Definition default_subjective_cpu_leeway_us : Z := 31000.

Definition onerror_name : Name.name := Eval vm_compute in AM.N "onerror".

(** The transaction with the onerror action for the sender. *)
Definition error_transaction (o : gto) : transaction :=
  let a := AM.mk_action AM.system_account_name onerror_name
             [Authority.mk_level (sender o) AM.active_name] (pack_onerror (sender_id o) (packed_trx o)) in
  let t := TX.mk_transaction 0 0 0 0 0 0 [] [a] [] in
  if no_duplicate_deferred_id n then t
  else TX.set_reference_block (endian_reverse_u32 f)
         (TX.set_header t (u32 (Z.quot (TC.pending_block_time g + 999999) 1000000)) 0 0) (head_block_id n).

Definition error_options (o : gto) : @TC.options Bytes :=
  TC.mk_options (error_transaction o) (error_start q) (enforces_lists o)
    default_subjective_cpu_leeway_us 0 (explicit_billed_cpu_time q) false (max_transaction_time q).

(** [apply_onerror] up to the receipt. *)
Definition apply_onerror (o : gto) (w : world) : result (world * transaction_receipt) :=
  c ← TC.init_for_implicit_trx g
        (TC.new_context (error_options o) (block_deadline q) (billed_cpu_time_us q)
           (database_of w) []) 0 (now_error_init q);
  w ← ChainHost.exec_onerror f v y (with_trx (error_transaction o) 0 (enforces_lists o) false) (sender o)
        (published o) (world_of c w);
  c ← TC.finalize g (context_of w c) (now_error_finalize q);
  r ← push_receipt (trx_id o) soft_fail (TC.billed_cpu_time_us (TC.cpu c)) (TC.net_usage (TC.net c));
  mret (world_of c w, r).

(** [trx_context.update_billed_cpu_time( now )] *)
Definition cpu_time_used (used : Z) : Z :=
  u32 (if explicit_billed_cpu_time q then billed_cpu_time_us q
       else Z.max used (ChainConfig.min_transaction_cpu_usage cfg)).

(** [trx_context.bill_to_accounts] after a failure: they are known unless
    [init] refused the CPU time of the block; and
    [initial_objective_duration_limit]. *)
Definition limits_at_failure (o : gto) (m : ResourceLimits.manager) : FlatSet.flat_set * Z :=
  let t := packed_trx o in
  let '(duration, code, _) := TC.initial_duration_limit g t m (start q) block_cpu_usage_exceeded in
  let p := TC.mk_cpu duration duration false code (billed_cpu_time_us q) in
  let refused := explicit_billed_cpu_time q
                 && negb (is_ok (TC.validate_cpu_usage_to_bill g p (billed_cpu_time_us q) INT64_MAX false)) in
  (if refused then [] else TC.accounts_to_bill g t [], duration).

(** The hard failure: the CPU time is billed, limited to what the accounts can
    pay when the node produces the block. *)
Definition bill_failure (o : gto) (cpu : Z) (w : world) : result (world * transaction_receipt) :=
  let m := CT.resources (tables w) in
  let slot := TC.slot_of (TC.pending_block_time g) in
  let '(accounts, duration) := limits_at_failure o m in
  '(m, cpu) ← (if TC.is_producing_block g then
                 m ← ResourceLimits.update_account_usage m accounts slot;
                 pay ← TC.max_bandwidth_billed_accounts_can_pay g m accounts true;
                 let limited := u32 (Z.min (Z.min cpu (TC.account_cpu_limit pay)) duration) in
                 EOS_ASSERT (negb (explicit_billed_cpu_time q) || (cpu =? limited))
                   transaction_exception;;
                 mret (m, limited)
               else mret (m, cpu));
  m ← ResourceLimits.add_transaction_usage m accounts cpu 0 slot;
  r ← push_receipt (trx_id o) hard_fail cpu 0;
  let s := tables w in
  mret (set_tables w (CT.set_ram s m (CT.account_ram_deltas s) (CT.validate_ram_usage s)), r).

(** Subjectivity depends on whether the node produces the block. *)
Definition is_subjective (e : chain_exception) : bool :=
  if TC.is_producing_block g then scheduled_failure_is_subjective e else failure_is_subjective e.

(** After the failure [e] with the CPU time [cpu]; [w0] is the state that an
    undo of everything restores. *)
Definition retire_failed (o : gto) (e : chain_exception) (cpu : Z) (w0 w : world)
  : result (world * outcome) :=
  if is_subjective e then mret (w0, Failed e)
  else '(w, r) ← bill_failure o cpu w; mret (w, Retired r (Some e)).

Definition handle_failure (o : gto) (e : chain_exception) (w0 w : world) : result (world * outcome) :=
  if negb (bool_decide (sender o = no_name)) && negb (is_subjective e) then
    match apply_onerror o w with
    | Ok (w, r) => mret (w, Retired r None)
    | Throw e' =>
        if is_rethrown e' then Throw e'
        else retire_failed o e' (cpu_time_used (used_at_error_failure q)) w0 w
    end
  else retire_failed o e (cpu_time_used (used_at_failure q)) w0 w.

Definition push_scheduled (o : gto) (w0 : world) : result (world * outcome) :=
  EOS_ASSERT (TC.is_producing_block g || explicit_billed_cpu_time q) transaction_exception;;
  w ← remove_scheduled_transaction f w0 o;
  EOS_ASSERT (delay_until o <=? TC.pending_block_time g) transaction_exception;;
  if expiration o <? TC.pending_block_time g then
    r ← push_receipt (trx_id o) expired (billed_cpu_time_us q) 0;
    mret (w, Retired r None)
  else
    match ('(c, w) ← execute_scheduled o w;
           r ← push_receipt (trx_id o) executed (TC.billed_cpu_time_us (TC.cpu c))
                 (TC.net_usage (TC.net c));
           mret (w, r)) with
    | Ok (w, r) => mret (w, Retired r None)
    | Throw e => if is_rethrown e then Throw e else handle_failure o e w0 w
    end.

End scheduled.

(** [in_trx_requiring_checks = true]: no check of a generated transaction is
    skipped. *)
Definition requiring_checks {K Bytes : Type} `{Countable K} (n : node K Bytes) : node K Bytes :=
  let g := trx_control n in
  mk_node (TC.mk_controller (TC.pending_block_time g) false (TC.is_producing_block g)
             (TC.get_greylist_limit g) (TC.resource_greylist g) (TC.only_bill_first_authorizer g)
             (TC.configuration g) (TC.access g) (TC.block_summary g) (TC.auth_control g))
    (no_duplicate_deferred_id n) (restrict_action_to_self n) (replace_deferred n) false
    (all_subjective_mitigations_disabled n) (head_block_id n) (enforce_whiteblacklist n)
    (is_read_only n) (current_trx n) (current_delay n).

Definition push_scheduled_transaction {K Bytes : Type} `{Countable K}
    (pack_onerror : Z -> TX.transaction Bytes -> Bytes) (f : library K Bytes)
    (v : ChainHost.natives K Bytes) (y : ChainHost.runtime Bytes) (n : node K Bytes) (q : request)
    (tid : Z) (w : world K Bytes) : result (world K Bytes * outcome) :=
  match find_by_trx_id w tid with
  | Some o => push_scheduled pack_onerror f v y (requiring_checks n) q o w
  | None => Throw unknown_transaction_exception
  end.

End ScheduledExecution.
