(* ===== verification/ScheduledOutcome.v ===== *)
(** * What becomes of generated transactions

    Theorems about [ScheduledExecution]: a generated transaction that a block
    retires is gone, its RAM is refunded, no NET is billed for a failure, and
    its receipt says how it ended; a subjective failure changes nothing. *)

From S2P Require Import Prelude Names Merkle ProducerSchedule Authority AuthorityChecker.
From S2P Require Import Accumulators ResourceLimits AuthorizationManager AuthActions AccessLists ChainConfig.
From S2P Require Import BlockHeaderState Transactions TransactionContext TransactionBilling.
From S2P Require Import TableIndex ContractTables.
From S2P Require Import TableInvariants TableSearch ActionExecution ContractCode.
From S2P Require Import DeferredTransactions ChainHost DeferredRam ChainInvariants ScheduledExecution.

Module ScheduledOutcome.
Import DeferredTransactions DeferredRam ChainInvariants ScheduledExecution.
Module RL := ResourceLimits.

(** ** NET and CPU usage do not touch RAM *)

Lemma touch_account_billed slot m a m' : RL.touch_account slot m a = Ok m' ->
  forall b, RL.billed m' b = RL.billed m b.
Proof.
  unfold RL.touch_account, RL.get_row. intros H1 b. destruct (RL.usage m !! a) as [u|] eqn:E; [|done].
  apply bind_ok_inv in H1 as (u' & [= <-] & H1). apply bind_ok_inv in H1 as (net & _ & H1).
  apply bind_ok_inv in H1 as (cpu & _ & [= <-]). unfold RL.billed. cbn.
  destruct (decide (a = b)) as [<-|Hne]; [by rewrite lookup_insert_eq, E|by rewrite lookup_insert_ne].
Qed.

Lemma bill_account_billed cpu net slot m a m' : RL.bill_account cpu net slot m a = Ok m' ->
  forall b, RL.billed m' b = RL.billed m b.
Proof.
  unfold RL.bill_account, RL.get_row. intros H1 b. destruct (RL.usage m !! a) as [u|] eqn:E; [|done].
  apply bind_ok_inv in H1 as (u' & [= <-] & H1). inv_ok. unfold RL.billed. cbn.
  destruct (decide (a = b)) as [<-|Hne]; [by rewrite lookup_insert_eq, E|by rewrite lookup_insert_ne].
Qed.

Lemma foldM_billed (step : RL.manager -> Name.name -> result RL.manager) l m m' :
  (forall m a m', step m a = Ok m' -> forall b, RL.billed m' b = RL.billed m b) ->
  foldM step m l = Ok m' -> forall b, RL.billed m' b = RL.billed m b.
Proof.
  intros Hs. revert m. induction l as [|a l IH]; intros m H1 b; cbn [foldM] in H1; [by injection H1 as <-|].
  apply bind_ok_inv in H1 as (m1 & H1 & H2). by rewrite (IH _ H2 b), (Hs _ _ _ H1 b).
Qed.

(** ** Usage without NET *)

(** The NET of the block is as before, and that of an account has at most got
    older: nothing was added to it. *)
Definition no_net_billed (slot : Z) (m m' : RL.manager) : Prop :=
  RL.config m' = RL.config m /\
  RL.pending_net_usage (RL.state m') = RL.pending_net_usage (RL.state m) /\
  forall a u, RL.usage m !! a = Some u -> exists u', RL.usage m' !! a = Some u' /\
    rtc (fun x x' => Accumulator.add x 0 slot (RL.account_net_usage_average_window (RL.config m)) = Ok x')
      (RL.net_usage u) (RL.net_usage u').

(** Neither NET nor CPU has changed, of the block or of an account. *)
Definition nothing_used (m m' : RL.manager) : Prop :=
  RL.config m' = RL.config m /\ RL.state m' = RL.state m /\
  forall a u, RL.usage m !! a = Some u -> exists u', RL.usage m' !! a = Some u' /\
    RL.net_usage u' = RL.net_usage u /\ RL.cpu_usage u' = RL.cpu_usage u.

#[export] Instance no_net_billed_preorder slot : PreOrder (no_net_billed slot).
Proof.
  split; [intros m; split_and!; [done..|]; intros a u Hu; by exists u|].
  intros m1 m2 m3 (C1 & P1 & U1) (C2 & P2 & U2). split_and!; [congruence..|]. intros a u Hu.
  destruct (U1 a u Hu) as (u1 & Hu1 & R1), (U2 a u1 Hu1) as (u2 & Hu2 & R2). rewrite C1 in R2.
  exists u2. split; [done|]. by etrans.
Qed.

Lemma nothing_used_net slot m m' : nothing_used m m' -> no_net_billed slot m m'.
Proof.
  intros (C & E & U). split_and!; [done|by rewrite E|]. intros a u Hu.
  destruct (U a u Hu) as (u' & Hu' & En & _). exists u'. by rewrite En.
Qed.

Lemma row_aged slot m a u net cpu ram : RL.usage m !! a = Some u ->
  Accumulator.add (RL.net_usage u) 0 slot (RL.account_net_usage_average_window (RL.config m)) = Ok net ->
  no_net_billed slot m (RL.set_usage m (<[a := RL.mk_usage_object net cpu ram]> (RL.usage m))).
Proof.
  intros Hu Hn. split_and!; [done..|]. intros b x Hx. cbn. destruct (decide (a = b)) as [<-|Hne].
  - rewrite lookup_insert_eq. eexists. split; [done|]. replace x with u by congruence. by apply rtc_once.
  - rewrite lookup_insert_ne by done. by exists x.
Qed.

Lemma touch_account_net slot m a m' : RL.touch_account slot m a = Ok m' -> no_net_billed slot m m'.
Proof.
  unfold RL.touch_account, RL.get_row. intros H1. destruct (RL.usage m !! a) as [u|] eqn:E; [|done].
  apply bind_ok_inv in H1 as (u' & [= <-] & H1). apply bind_ok_inv in H1 as (net & Hn & H1).
  apply bind_ok_inv in H1 as (cpu & _ & [= <-]). by eapply row_aged.
Qed.

Lemma bill_account_net cpu slot m a m' : RL.bill_account cpu 0 slot m a = Ok m' -> no_net_billed slot m m'.
Proof.
  unfold RL.bill_account, RL.get_row. intros H1. destruct (RL.usage m !! a) as [u|] eqn:E; [|done].
  apply bind_ok_inv in H1 as (u' & [= <-] & H1). apply bind_ok_inv in H1 as (lim & _ & H1).
  apply bind_ok_inv in H1 as (net & Hn & H1). apply bind_ok_inv in H1 as (acc & _ & H1).
  do 2 apply bind_ok_inv in H1 as ([] & _ & H1). injection H1 as <-. by eapply row_aged.
Qed.

Lemma foldM_net slot (step : RL.manager -> Name.name -> result RL.manager) l m m' :
  (forall m a m', step m a = Ok m' -> no_net_billed slot m m') -> foldM step m l = Ok m' -> no_net_billed slot m m'.
Proof.
  intros Hs. revert m. induction l as [|a l IH]; intros m H1; cbn [foldM] in H1; [by injection H1 as <-|].
  apply bind_ok_inv in H1 as (m1 & H1 & H2). etrans; [by eapply Hs|by apply IH].
Qed.

Lemma add_transaction_usage_net m accounts cpu slot m' : is_u64 (RL.pending_net_usage (RL.state m)) ->
  RL.add_transaction_usage m accounts cpu 0 slot = Ok m' -> no_net_billed slot m m'.
Proof.
  intros Hu H1. unfold RL.add_transaction_usage in H1. apply bind_ok_inv in H1 as (m1 & H1 & H2).
  do 2 apply bind_ok_inv in H2 as ([] & _ & H2). injection H2 as <-.
  apply (foldM_net slot _ _ _ _ (bill_account_net cpu slot)) in H1 as (C & P & U).
  split_and!; [done| |done]. cbn. rewrite P, Z.add_0_r. by apply u64_small.
Qed.

Lemma ram_usage_nothing m a d m' : RL.add_pending_ram_usage m a d = Ok m' -> nothing_used m m'.
Proof.
  unfold RL.add_pending_ram_usage, RL.get_row. intros H1.
  destruct (d =? 0); [injection H1 as <-; split_and!; [done..|]; intros b x Hx; by exists x|].
  destruct (RL.usage m !! a) as [u|] eqn:E; [|done]. apply bind_ok_inv in H1 as (u' & [= <-] & H1).
  do 2 apply bind_ok_inv in H1 as ([] & _ & H1). injection H1 as <-. split_and!; [done..|]. intros b x Hx. cbn.
  destruct (decide (a = b)) as [<-|Hne].
  - rewrite lookup_insert_eq. eexists. split; [done|]. by replace x with u by congruence.
  - rewrite lookup_insert_ne by done. by exists x.
Qed.

Section outcome.
Context {K Bytes : Type} `{Countable K}.
Abbreviation transaction := (TX.transaction Bytes).
Abbreviation world := (world K Bytes).
Abbreviation gto := (generated_transaction_object Bytes).
Context (pack_onerror : Z -> transaction -> Bytes).
Context (f : library K Bytes) (v : ChainHost.natives K Bytes) (y : ChainHost.runtime Bytes).
Context (n : node K Bytes) (q : request) (loose : account_name -> bool).
Hypothesis pack_size_width : forall t, is_u32 (pack_size f t).
Abbreviation g := (trx_control n).
Abbreviation resources_of w := (CT.resources (tables w)).
Abbreviation slot := (TC.slot_of (TC.pending_block_time g)).

Lemma execute_scheduled_new o w c w' : execute_scheduled f v y n q o w = Ok (c, w') -> only_new w w'.
Proof.
  intros H1. unfold execute_scheduled in H1. apply bind_ok_inv in H1 as (c1 & _ & H1).
  apply bind_ok_inv in H1 as ([] & _ & H1). apply bind_ok_inv in H1 as (w1 & H1 & H2).
  apply bind_ok_inv in H2 as (c2 & _ & H2). apply exec_only_new in H1. by injection H2 as _ <-.
Qed.

Lemma apply_onerror_new o w w' r : apply_onerror pack_onerror f v y n q o w = Ok (w', r) ->
  only_new w w' /\ r_trx_id r = trx_id o /\ status r = soft_fail.
Proof.
  intros H1. unfold apply_onerror in H1. apply bind_ok_inv in H1 as (c1 & _ & H1).
  apply bind_ok_inv in H1 as (w1 & H1 & H2). apply bind_ok_inv in H2 as (c2 & _ & H2).
  apply bind_ok_inv in H2 as (r1 & Hr & [= <- <-]). apply exec_onerror_only_new in H1. split; [done|].
  unfold push_receipt in Hr. by apply bind_ok_inv in Hr as ([] & _ & [= <-]).
Qed.

Lemma bill_failure_ok o cpu w w' r : is_u64 (RL.pending_net_usage (RL.state (resources_of w))) ->
  bill_failure n q o cpu w = Ok (w', r) ->
  generated w' = generated w /\ ledger w' = ledger w /\ (forall a, billed w' a = billed w a) /\
  no_net_billed slot (resources_of w) (resources_of w') /\ r_trx_id r = trx_id o /\
  status r = hard_fail /\ net_usage_words r = 0.
Proof.
  intros Hu H1. unfold bill_failure in H1. destruct (limits_at_failure n q o _) as [accounts duration].
  apply bind_ok_inv in H1 as ([m1 cpu1] & H1 & H2). apply bind_ok_inv in H2 as (m2 & H2 & H3).
  apply bind_ok_inv in H3 as (r1 & Hr & [= <- <-]).
  unfold push_receipt in Hr. apply bind_ok_inv in Hr as ([] & _ & [= <-]).
  assert (no_net_billed slot (resources_of w) m1) as Hn1.
  { destruct (TC.is_producing_block g); [|by injection H1 as <- <-].
    apply bind_ok_inv in H1 as (m4 & H1 & H4). apply bind_ok_inv in H4 as (pay & _ & H4).
    apply bind_ok_inv in H4 as ([] & _ & [= <- <-]). by apply (foldM_net _ _ _ _ _ (touch_account_net _)) in H1. }
  assert (no_net_billed slot (resources_of w) m2) as Hn2.
  { etrans; [exact Hn1|]. eapply add_transaction_usage_net; [|exact H2]. destruct Hn1 as (_ & -> & _). exact Hu. }
  split_and!; try done; [|apply Hn2..]. intros a. unfold billed, TI.billed. cbn.
  unfold RL.add_transaction_usage in H2. apply bind_ok_inv in H2 as (m3 & H2 & H3).
  do 2 apply bind_ok_inv in H3 as ([] & _ & H3). injection H3 as <-.
  change (RL.billed (RL.set_state _ _) a) with (RL.billed m3 a).
  rewrite (foldM_billed _ _ _ _ (bill_account_billed _ _ _) H2 a).
  destruct (TC.is_producing_block g); [|by injection H1 as <- <-].
  apply bind_ok_inv in H1 as (m4 & H1 & H4). apply bind_ok_inv in H4 as (pay & _ & H4).
  apply bind_ok_inv in H4 as ([] & _ & [= <- <-]).
  by rewrite (foldM_billed _ _ _ _ (touch_account_billed _) H1 a).
Qed.

Lemma remove_scheduled_billed (w w1 : world) o : world_ok f loose w ->
  remove_scheduled_transaction f w o = Ok w1 ->
  generated w1 = generated (remove w o) /\ ledger w1 = ledger w /\
  nothing_used (resources_of w) (resources_of w1) /\
  forall a, billed w1 a = billed w a - gto_bytes f a o.
Proof.
  intros Hw H1. unfold remove_scheduled_transaction in H1. apply bind_ok_inv in H1 as (m & Hm & [= <-]).
  split; [done|]. split; [done|]. split; [cbn; by eapply ram_usage_nothing|]. intros a. unfold billed, TI.billed. cbn.
  destruct (refund_width f pack_size_width (packed_trx o)) as (Hr & Er & _). rewrite Er in Hm, Hr.
  rewrite (RL.add_pending_ram_billed _ _ _ _ (TI.wf_ram _ (proj1 (wo_tables _ _ _ Hw))) Hr Hm).
  unfold gto_bytes, RL.only_for. destruct (decide _); lia.
Qed.

(** How the transaction [o] ends in [w']. *)
Definition ends (o : gto) (w w' : world) (r : transaction_receipt) : Prop :=
  r_trx_id r = trx_id o /\
  (forall u, u ∈ generated w' -> u ∈ generated w /\ trx_id u <> trx_id o \/ next_generated w <= id u) /\
  (status r = expired <-> expiration o < TC.pending_block_time g) /\
  status r <> delayed /\ (status r = soft_fail -> sender o <> no_name) /\
  (status r = expired -> nothing_used (resources_of w) (resources_of w')) /\
  (status r = expired \/ status r = hard_fail ->
     generated w' = filter (fun u => id u <> id o) (generated w) /\ ledger w' = ledger w /\
     net_usage_words r = 0 /\ no_net_billed slot (resources_of w) (resources_of w') /\
     forall a, billed w' a = billed w a - RL.only_for (payer o) a (ram_bytes f (packed_trx o))).

(** What is left in the schedule, and what is new. *)
Lemma removed_rest (w w1 w' : world) o : world_ok f loose w -> o ∈ generated w ->
  remove_scheduled_transaction f w o = Ok w1 -> only_new w1 w' ->
  forall u, u ∈ generated w' -> u ∈ generated w /\ trx_id u <> trx_id o \/ next_generated w <= id u.
Proof.
  intros Hw Ho H1 [_ Hn] u Hu. unfold remove_scheduled_transaction in H1.
  apply bind_ok_inv in H1 as (m & _ & [= <-]). apply Hn in Hu as [Hu|Hu]; [left|by right].
  apply (removed_elem (set_tables w _)) in Hu as [Hu Hid]. split; [done|]. intros Et.
  apply Hid. pose proof (wo_trx_ids _ _ _ Hw) as Hnd.
  apply list_elem_of_lookup in Ho as [i Hi], Hu as [j Hj]. assert (j = i) as ->; [|cbn in Hj; congruence].
  eapply (NoDup_lookup _ _ _ (trx_id o) Hnd); rewrite list_lookup_fmap; [cbn in Hj; by rewrite Hj; cbn; rewrite Et|by rewrite Hi].
Qed.

Lemma ends_removed (o : gto) (w w1 : world) r : world_ok f loose w -> o ∈ generated w ->
  remove_scheduled_transaction f w o = Ok w1 -> r_trx_id r = trx_id o -> status r <> delayed ->
  status r <> soft_fail -> net_usage_words r = 0 ->
  (status r = expired <-> expiration o < TC.pending_block_time g) ->
  forall w', generated w' = generated w1 -> ledger w' = ledger w1 -> (forall a, billed w' a = billed w1 a) ->
  no_net_billed slot (resources_of w1) (resources_of w') ->
  (status r = expired -> resources_of w' = resources_of w1) -> ends o w w' r.
Proof.
  intros Hw Ho Hr Ht Hd Hs Hnet He w' Eg El Eb Hn Hx. destruct (remove_scheduled_billed w w1 o Hw Hr) as (Eg1 & El1 & Hn1 & Eb1).
  split; [done|]. split; [rewrite Eg; by apply (removed_rest w w1 w1 o Hw Ho Hr (reflexivity w1))|].
  split; [done|]. split; [done|]. split; [done|]. split; [intros E; by rewrite Hx|].
  intros _. split; [by rewrite Eg, Eg1|]. split; [by rewrite El, El1|]. split; [done|].
  split; [etrans; [by apply nothing_used_net|done]|]. intros a. by rewrite Eb, Eb1.
Qed.

Lemma ends_done (o : gto) (w w1 w' : world) r : world_ok f loose w -> o ∈ generated w ->
  remove_scheduled_transaction f w o = Ok w1 -> only_new w1 w' -> r_trx_id r = trx_id o ->
  status r = executed \/ status r = soft_fail /\ sender o <> no_name ->
  ~ expiration o < TC.pending_block_time g -> ends o w w' r.
Proof.
  intros Hw Ho Hr Hn Ht Hs He. split; [done|]. split; [by eapply removed_rest|].
  destruct Hs as [Hs|[Hs Hse]]; rewrite Hs; split_and!; try done; naive_solver.
Qed.

(** The result of pushing [o]. *)
Definition pushed (o : gto) (w w' : world) (out : outcome) : Prop :=
  match out with
  | Failed e => w' = w /\ is_subjective n e = true
  | Retired r except => ends o w w' r /\ (is_Some except <-> status r = hard_fail)
  end.

Lemma retire_failed_ok (o : gto) e cpu (w w1 w' : world) out : world_ok f loose w -> o ∈ generated w ->
  remove_scheduled_transaction f w o = Ok w1 -> ~ expiration o < TC.pending_block_time g ->
  retire_failed n q o e cpu w w1 = Ok (w', out) -> pushed o w w' out.
Proof.
  intros Hw Ho Hr He H1. unfold retire_failed in H1. destruct (is_subjective n e) eqn:Es.
  { by injection H1 as <- <-. }
  apply bind_ok_inv in H1 as ([w2 r] & H1 & [= <- <-]).
  destruct (remove_scheduled_billed w w1 o Hw Hr) as (_ & _ & (_ & Est & _) & _).
  destruct (bill_failure_ok o cpu w1 w2 r) as (Eg & El & Eb & Hn & Ht & Hs & Hnet); [|done|].
  { rewrite Est. by destruct (RL.inv_state _ (TI.wf_ram _ (proj1 (wo_tables _ _ _ Hw)))) as (_ & _ & ? & _). }
  split; [eapply (ends_removed o w w1); rewrite ?Hs; done|]. by rewrite Hs.
Qed.

Lemma handle_failure_ok (o : gto) e (w w1 w' : world) out : world_ok f loose w -> o ∈ generated w ->
  remove_scheduled_transaction f w o = Ok w1 -> ~ expiration o < TC.pending_block_time g ->
  handle_failure pack_onerror f v y n q o e w w1 = Ok (w', out) -> pushed o w w' out.
Proof.
  intros Hw Ho Hr He H1. unfold handle_failure in H1.
  destruct (negb _ && negb _) eqn:Eb; [|by eapply retire_failed_ok].
  destruct (apply_onerror _ _ _ _ _ _) as [[w2 r]|e'] eqn:Ea.
  - injection H1 as <- <-. destruct (apply_onerror_new _ _ _ _ Ea) as (Hn & Ht & Hs).
    split; [|by rewrite Hs; split; [intros []|]]. eapply ends_done; try done. right. split; [done|]. bool_to_prop. naive_solver.
  - destruct (is_rethrown e'); [done|]. by eapply retire_failed_ok.
Qed.

Lemma push_scheduled_pushed (o : gto) (w w' : world) (out : outcome) :
  world_ok f loose w -> o ∈ generated w -> push_scheduled pack_onerror f v y n q o w = Ok (w', out) ->
  delay_until o <= TC.pending_block_time g /\ pushed o w w' out.
Proof.
  intros Hw Ho H1.
  unfold push_scheduled in H1. apply bind_ok_inv in H1 as ([] & _ & H1). apply bind_ok_inv in H1 as (w1 & Hr & H1).
  apply bind_ok_inv in H1 as ([] & Hd & H1). apply EOS_ASSERT_ok in Hd. split; [lia|].
  destruct (_ <? _) eqn:Ex in H1; bool_to_prop.
  { apply bind_ok_inv in H1 as (r & H1 & [= <- <-]). unfold push_receipt in H1.
    apply bind_ok_inv in H1 as ([] & _ & [= <-]). split; [by eapply (ends_removed o w w1)|]. by split; [intros []|]. }
  assert (~ expiration o < TC.pending_block_time g) as He by lia.
  destruct (mbind _ _) as [[w2 r]|e] eqn:Ee in H1.
  - injection H1 as <- <-. apply bind_ok_inv in Ee as ([c w3] & Ee & H2).
    apply bind_ok_inv in H2 as (r1 & H2 & [= <- <-]). apply execute_scheduled_new in Ee.
    unfold push_receipt in H2. apply bind_ok_inv in H2 as ([] & _ & [= <-]).
    split; [eapply ends_done; try done; by left|]. by split; [intros []|].
  - destruct (is_rethrown e); [done|]. by eapply handle_failure_ok.
Qed.

End outcome.

(** C11: What a block does with a generated transaction.  When the controller
    retires the transaction [tid], it was scheduled and its delay is over; the
    receipt carries its id, and the object is gone: what is in the schedule
    afterwards was there before under another id, or is a new object, which
    the execution has sent.  It is expired exactly when its time had passed
    before the block; a soft failure is only of a transaction with a sender.
    When it expires or fails hard nothing else has changed in the
    schedule, accounts, code and action receipts are as before, no NET is
    billed, neither in the receipt nor to the block or to an account (whose NET
    usage at most decays to the time of the block), and its payer gets exactly
    its RAM back; when it expires no CPU is billed to the block or to an
    account either.  An exception is reported
    with the receipt of a hard failure and with no other.  When
    the controller reports a failure without a receipt, the failure is
    subjective, and the state is as before, for a later block.  The state
    satisfies [world_ok]: ids, transaction ids and sender ids of generated
    transactions are unique and the resource limits are well formed; genesis
    has it and every step of the chain keeps it ([ChainRam]).  Packed
    transactions have less than 2^32 bytes. *)
Theorem scheduled_retired_once {K Bytes : Type} `{Countable K} (pack_onerror : Z -> TX.transaction Bytes -> Bytes)
    (f : library K Bytes) (v : ChainHost.natives K Bytes) (y : ChainHost.runtime Bytes) (n : node K Bytes)
    (q : request) (loose : account_name -> bool) (w w' : DeferredTransactions.world K Bytes) (tid : Z) (out : outcome) :
  (forall t, is_u32 (pack_size f t)) -> world_ok f loose w ->
  push_scheduled_transaction pack_onerror f v y n q tid w = Ok (w', out) ->
  exists o, o ∈ generated w /\ trx_id o = tid /\ delay_until o <= TC.pending_block_time (trx_control n) /\
    pushed f n o w w' out.
Proof.
  intros Hp Hw H1. unfold push_scheduled_transaction in H1. destruct (find_by_trx_id w tid) as [o|] eqn:Ef; [|done].
  apply find_generated in Ef as [Ho Et]. exists o. split; [done|]. split; [done|].
  by apply (push_scheduled_pushed _ _ _ _ _ _ loose) in H1.
Qed.

(** ** A deferred transaction of alice's *)

(** The node two minutes after the transaction was sent. *)
Definition late_controller : @TC.controller Z _ _ :=
  let c := TransactionBilling.sample_controller in
  TC.mk_controller (TC.pending_block_time c + 120000000) (TC.skip_trx_checks c)
    (TC.is_producing_block c) (TC.get_greylist_limit c) (TC.resource_greylist c)
    (TC.only_bill_first_authorizer c) (TC.configuration c) (TC.access c) (TC.block_summary c)
    (TC.auth_control c).
Definition late_node : node Z unit :=
  mk_node late_controller true true false true true (Merkle.mk_digest 0 0 0 0) false false
    (sample_trx 9) 0.
Definition sample_natives : ChainHost.natives Z unit :=
  ChainHost.mk_natives TableSearch.sample_lt TableSearch.sample_lt TableSearch.sample_nan
    TableSearch.sample_nan (fun s => TableSearch.row_total s <? 2 ^ 32) (fun _ => 0) (fun _ _ => true)
    (fun _ => 34) ContractCode.sample_sha256 ContractCode.sample_valid
    (fun _ => Throw misc_exception) (fun _ => Throw misc_exception) (fun _ => Throw misc_exception).
Definition sample_runtime : ChainHost.runtime unit :=
  ChainHost.mk_runtime true true true true 4096 256 3 (fun _ _ _ => ActionExecution.Return)
    (fun _ => Merkle.mk_digest 0 0 0 1) (fun _ _ => Merkle.mk_digest 0 0 0 1)
    (fun r => Merkle.mk_digest 0 0 0 (ActionExecution.r_global_sequence r)) (fun _ => 20) (fun _ => 0).
Definition scheduled_world : world Z unit :=
  set_ledger sent_world
    (mk_books {[ResourceLimits.alice := ContractCode.new_metadata]} (ContractCode.mk_contracts ∅ ∅) 40 []).
Definition sample_request : request :=
  mk_request 9000000000000 1000000 500 true 1000 1000 2000 100 1000 1000 2000 100.
Definition sample_pushed : world Z unit * outcome :=
  match push_scheduled_transaction (fun _ _ => tt) sample_library sample_natives sample_runtime late_node
          sample_request (60 * 2 ^ 128) scheduled_world with
  | Ok r => r
  | Throw e => (scheduled_world, Failed e)
  end.

Lemma scheduled_world_ok : world_ok sample_library (fun _ => false) scheduled_world.
Proof.
  apply world_ok_ledger. exact (proj1 (steps_ok sample_library (fun _ => false) sample_sizes TableSearch.sample_lt
    TableSearch.sample_lt TableSearch.sample_nan TableSearch.sample_nan ResourceLimits.two_accounts_m
    AuthActions.db4 sample_net sent_world ResourceLimits.two_accounts_inv sent_reachable)).
Qed.

Lemma scheduled_retired_once_witness : exists r, sample_pushed.2 = Retired r None /\ status r = executed /\
  forall u, u ∈ generated sample_pushed.1 ->
    u ∈ generated scheduled_world /\ trx_id u <> 60 * 2 ^ 128 \/ next_generated scheduled_world <= id u.
Proof.
  assert (sample_pushed.2 = Retired (mk_receipt (60 * 2 ^ 128) executed 500 0) None) as Eo by (vm_compute; reflexivity).
  destruct (scheduled_retired_once (fun _ _ => tt) sample_library sample_natives sample_runtime late_node
    sample_request (fun _ => false) scheduled_world sample_pushed.1 (60 * 2 ^ 128) sample_pushed.2 sample_sizes scheduled_world_ok)
    as (o & Ho & <- & _ & Hp); [vm_compute; reflexivity|].
  eexists. split; [exact Eo|]. split; [done|]. rewrite Eo in Hp. by destruct Hp as [(_ & Hgone & _) _].
Defined.

End ScheduledOutcome.
