(* ===== verification/InputExecution.v ===== *)
(** * Input transactions: [push_transaction] of libraries/chain/controller.cpp

    Module [InputExecution] has the entry point for new transactions: those
    that users sign, those that the controller creates for itself, and those
    that only read.  The limits are set up, the signatures are checked against
    the permissions, the actions are executed or the transaction is delayed,
    its use of resources is billed, and a receipt is put into the pending block.
    The undo session keeps the state when an exception is caught, when the
    transaction only reads, and when a node that does not speculate builds a
    pending block.

    The clock is an argument at every place where it is read.  Keys are
    recovered from the signatures before the call. *)

From S2P Require Import Prelude Names Merkle ProducerSchedule Authority AuthorityChecker.
From S2P Require Import Accumulators ResourceLimits AuthorizationManager AccessLists ChainConfig.
From S2P Require Import BlockHeaderState Transactions TransactionContext TableIndex ContractTables.
From S2P Require Import ActionExecution DeferredTransactions ChainHost ScheduledExecution.

Module InputExecution.
Import DeferredTransactions ScheduledExecution.

Inductive trx_type := input | implicit | scheduled | read_only.
#[export] Instance trx_type_eq_dec : EqDecision trx_type.
Proof. solve_decision. Defined.

(** [transaction_trace::receipt] or [transaction_trace::except]. *)
Inductive trace := Receipt (r : transaction_receipt) | Except (e : chain_exception).

(** The settings of the node that only [push_transaction] reads. *)
Record settings := mk_settings {
  sig_cpu_bill_pct : Z;
  subjective_cpu_leeway : option Z;
  replay_head_time : option Z;
  (** [read_mode == db_read_mode::SPECULATIVE] *)
  speculative : bool;
}.

(** The arguments besides the transaction, and the clock. *)
Record input_request := mk_input_request {
  in_block_deadline : Z;
  in_max_transaction_time : Z;
  in_billed_cpu_time_us : Z;
  in_explicit_billed_cpu_time : bool;
  in_subjective_cpu_bill_us : Z;
  in_start : Z;
  in_now_init : Z;
  in_now_finalize : Z;
}.

Section input.
Context {K Bytes : Type} `{Countable K}.
Abbreviation transaction := (TX.transaction Bytes).
Abbreviation world := (world K Bytes).
Abbreviation context := (@TC.context K Bytes).

Record transaction_metadata := mk_meta {
  packed : transaction;
  unprunable_size : Z;
  prunable_size : Z;
  sig_cpu_usage : Z;
  recovered_keys : list K;
  type : trx_type;
}.

(** The state of the chain, the ids of input transactions with their
    expirations, and the receipts of the pending block. *)
Record pending_state := mk_pending {
  chain : world;
  recorded : list (Z * Z);
  trx_receipts : list transaction_receipt;
}.

Context (f : library K Bytes) (v : ChainHost.natives K Bytes) (y : ChainHost.runtime Bytes).
Context (n : node K Bytes) (s : settings) (q : input_request).
Abbreviation g := (trx_control n).

(** The time spent on the signatures is billed in part. *)
Definition billed_start (m : transaction_metadata) : Z :=
  if in_explicit_billed_cpu_time q then in_start q
  else
    let already_consumed_time := s64 (ResourceLimits.EOS_PERCENT (sig_cpu_usage m) (sig_cpu_bill_pct s)) in
    if in_start q <? already_consumed_time then 0 else in_start q - already_consumed_time.

Definition input_options (m : transaction_metadata) : @TC.options Bytes :=
  TC.mk_options (packed m) (billed_start m) (negb (bool_decide (type m = implicit)))
    (if TC.is_producing_block g
     then default default_subjective_cpu_leeway_us (subjective_cpu_leeway s)
     else default_subjective_cpu_leeway_us)
    (in_subjective_cpu_bill_us q) (in_explicit_billed_cpu_time q)
    (bool_decide (type m = read_only)) (in_max_transaction_time q).

Definition init_context (m : transaction_metadata) (p : pending_state) : result context :=
  let c := TC.new_context (input_options m) (in_block_deadline q) (in_billed_cpu_time_us q)
             (database_of (chain p)) (recorded p) in
  if decide (type m = implicit) then TC.init_for_implicit_trx g c 0 (in_now_init q)
  else
    let skip_recording :=
      match replay_head_time s with
      | Some t => TX.expiration (packed m) * 1000000 <=? t
      | None => false
      end in
    TC.init_for_input_trx g (endian_reverse_u32 f) (id_of f) c (unprunable_size m) (prunable_size m)
      skip_recording (in_now_init q).

(** The signatures must authorize the actions. *)
Definition check_signatures (m : transaction_metadata) (w : world) : result unit :=
  if negb (skip_auth_check n) && negb (bool_decide (type m = implicit)) then
    AM.check_authorization (as_updateauth f) (as_deleteauth f) (as_linkauth f) (as_unlinkauth f)
      (as_canceldelay f) (TC.auth_control g) (auth_view w) (TX.actions (packed m)) (recovered_keys m)
      ∅ (delay_of (packed m)) false (bool_decide (type m = read_only)) ∅
  else mret tt.

(** The node while the transaction executes. *)
Definition executing (m : transaction_metadata) : node K Bytes :=
  with_trx n (packed m) (delay_of (packed m)) (negb (bool_decide (type m = implicit)))
    (bool_decide (type m = read_only)).

Definition execute_input (m : transaction_metadata) (p : pending_state) : result (context * world) :=
  c ← init_context m p;
  let w := world_of c (chain p) in
  check_signatures m w;;
  w ← ChainHost.exec f v y (executing m) (TC.apply_context_free c) (TC.published c) w;
  c ← TC.finalize g (context_of w c) (in_now_finalize q);
  mret (c, world_of c w).

(** The receipt; that of an implicit transaction does not go into the block. *)
Definition record_receipt (m : transaction_metadata) (c : context) (l : list transaction_receipt)
  : result (transaction_receipt * list transaction_receipt) :=
  let cpu := TC.billed_cpu_time_us (TC.cpu c) in
  let usage := TC.net_usage (TC.net c) in
  if decide (type m = implicit) then mret (mk_receipt 0 executed (u32 cpu) (u32 (usage / 8)), l)
  else
    let status := if delay_of (packed m) =? 0 then executed else delayed in
    r ← push_receipt (id_of f (packed m)) status cpu usage;
    mret (r, l ++ [r]).

Definition apply_input (m : transaction_metadata) (p : pending_state)
  : result (transaction_receipt * pending_state) :=
  '(c, w) ← execute_input m p;
  '(r, l) ← record_receipt m c (trx_receipts p);
  mret (r, mk_pending w (TC.transactions c) l).

(** Whether the effects of a transaction that succeeds are undone. *)
Definition discards (m : transaction_metadata) : bool :=
  (negb (speculative s) && TC.is_producing_block g) || bool_decide (type m = read_only).

Definition push_transaction (m : transaction_metadata) (p : pending_state)
  : result (trace * pending_state) :=
  EOS_ASSERT (negb (in_block_deadline q =? 0)) transaction_exception;;
  match apply_input m p with
  | Ok (r, p') => mret (Receipt r, if discards m then p else p')
  | Throw e => if is_rethrown e then Throw e else mret (Except e, p)
  end.

End input.
Arguments transaction_metadata : clear implicits.
Arguments pending_state : clear implicits.
End InputExecution.
