(* ===== verification/BlockExecution.v ===== *)
(** * The transactions of a block: the loop of [apply_block] in
      libraries/chain/controller.cpp

    Module [BlockExecution] has what a node does with the transactions of a
    block that it has received: each is pushed with the CPU time of its receipt
    and without a deadline, and the receipt that results must be the one in the
    block.  The relation [produced] is the other side: the pushes of the node
    that produces the block, of which those that succeed leave a receipt.

    The keys of the transactions are recovered before the loop; the report of
    the times that it took is left out. *)

From S2P Require Import Prelude Names Merkle ProducerSchedule Authority AuthorityChecker.
From S2P Require Import Accumulators ResourceLimits AuthorizationManager AccessLists ChainConfig.
From S2P Require Import BlockHeaderState Transactions TransactionContext TableIndex ContractTables.
From S2P Require Import ActionExecution DeferredTransactions ChainHost ScheduledExecution InputExecution.

Module BlockExecution.
Import DeferredTransactions ScheduledExecution InputExecution.

#[export] Instance status_enum_eq_dec : EqDecision status_enum.
Proof. solve_decision. Defined.

(** [transaction_receipt_header] and its [operator ==] *)
Record receipt_header := mk_header {
  h_status : status_enum;
  h_cpu_usage_us : Z;
  h_net_usage_words : Z;
}.
#[export] Instance receipt_header_eq_dec : EqDecision receipt_header.
Proof. solve_decision. Defined.

Definition receipt_header_of (r : transaction_receipt) : receipt_header :=
  mk_header (status r) (cpu_usage_us r) (net_usage_words r).

(** The clock at the places where a push reads it. *)
Record clock := mk_clock {
  at_start : Z;
  at_init : Z;
  at_finalize : Z;
  used_when_failed : Z;
  at_error_start : Z;
  at_error_init : Z;
  at_error_finalize : Z;
  used_when_error_failed : Z;
}.

(** The arguments of the two pushes. *)
Definition input_call (cpu : Z) (k : clock) : input_request :=
  mk_input_request TC.time_point_maximum TC.microseconds_maximum cpu true 0 (at_start k) (at_init k) (at_finalize k).
Definition scheduled_call (cpu : Z) (k : clock) : request :=
  mk_request TC.time_point_maximum TC.microseconds_maximum cpu true (at_start k) (at_init k) (at_finalize k)
    (used_when_failed k) (at_error_start k) (at_error_init k) (at_error_finalize k) (used_when_error_failed k).

Section block.
Context {K Bytes : Type} `{Countable K}.
Abbreviation transaction_metadata := (transaction_metadata K Bytes).
Abbreviation pending_state := (pending_state K Bytes).

(** A receipt of a block has the transaction, with the metadata that the node
    has made for it, or the id of a generated transaction. *)
Inductive receipt_trx :=
  | by_id (trx : Z)
  | packed_transaction (m : transaction_metadata).

Record block_receipt := mk_block_receipt {
  receipt : receipt_header;
  br_trx : receipt_trx;
}.

Context (pack_onerror : Z -> TX.transaction Bytes -> Bytes).
Context (f : library K Bytes) (v : ChainHost.natives K Bytes) (y : ChainHost.runtime Bytes).
Context (n : node K Bytes) (s : settings).

(** The pending block after a generated transaction. *)
Definition scheduled_pending (p : pending_state) (w : world K Bytes) (out : outcome) : pending_state :=
  mk_pending w (recorded p)
    (match out with Retired r _ => trx_receipts p ++ [r] | Failed _ => trx_receipts p end).

(** [trace->except] and the pending block. *)
Definition push_receipt_trx (r : block_receipt) (k : clock) (p : pending_state)
  : result (option chain_exception * pending_state) :=
  let cpu := h_cpu_usage_us (receipt r) in
  match br_trx r with
  | packed_transaction m =>
      '(t, p) ← push_transaction f v y n s (input_call cpu k) m p;
      mret (match t with Receipt _ => None | Except e => Some e end, p)
  | by_id tid =>
      '(w, out) ← push_scheduled_transaction pack_onerror f v y n (scheduled_call cpu k) tid (chain p);
      mret (match out with Retired _ x => x | Failed e => Some e end, scheduled_pending p w out)
  end.

Definition transaction_can_fail (r : block_receipt) : bool :=
  bool_decide (h_status (receipt r) = hard_fail)
  && match br_trx r with by_id _ => true | packed_transaction _ => false end.

(** One round of the loop. *)
Definition apply_receipt (p : pending_state) (rk : block_receipt * clock) : result pending_state :=
  let '(r, k) := rk in
  let num_pending_receipts := length (trx_receipts p) in
  '(except, p) ← push_receipt_trx r k p;
  (match except with
   | Some e => if transaction_can_fail r then mret tt else Throw e
   | None => mret tt
   end);;
  EOS_ASSERT (0 <? length (trx_receipts p))%nat block_validate_exception;;
  EOS_ASSERT (length (trx_receipts p) =? num_pending_receipts + 1)%nat block_validate_exception;;
  EOS_ASSERT (match last (trx_receipts p) with
              | Some r' => bool_decide (receipt_header_of r' = receipt r)
              | None => false
              end) block_validate_exception;;
  mret p.

Definition apply_receipts (p : pending_state) (block : list (block_receipt * clock)) : result pending_state :=
  foldM apply_receipt p block.

(** ** Producing a block *)

(** A node that produces a block pushes transactions of its choice and measures
    their time.  [produced p block p'] is a sequence of pushes with the receipts
    that it leaves; [fits] is what is asked of the state before a push. *)
Inductive produced (fits : ResourceLimits.manager -> Prop) : pending_state -> list block_receipt -> pending_state -> Prop :=
  | produced_nothing p : produced fits p [] p
  | produced_input p p' p'' m q r block :
      type m = input -> discards n s m = false -> in_explicit_billed_cpu_time q = false ->
      fits (CT.resources (tables (chain p))) ->
      push_transaction f v y n s q m p = Ok (Receipt r, p') -> produced fits p' block p'' ->
      produced fits p (mk_block_receipt (receipt_header_of r) (packed_transaction m) :: block) p''
  | produced_scheduled p p'' tid w r x q block :
      explicit_billed_cpu_time q = false -> fits (CT.resources (tables (chain p))) ->
      push_scheduled_transaction pack_onerror f v y n q tid (chain p) = Ok (w, Retired r x) ->
      produced fits (scheduled_pending p w (Retired r x)) block p'' ->
      produced fits p (mk_block_receipt (receipt_header_of r) (by_id tid) :: block) p''
  | produced_except p p' p'' m q e block :
      push_transaction f v y n s q m p = Ok (Except e, p') -> produced fits p' block p'' ->
      produced fits p block p''
  | produced_failed p p'' tid w e q block :
      push_scheduled_transaction pack_onerror f v y n q tid (chain p) = Ok (w, Failed e) ->
      produced fits (scheduled_pending p w (Failed e)) block p'' -> produced fits p block p''.

End block.
Arguments receipt_trx : clear implicits.
Arguments block_receipt : clear implicits.
End BlockExecution.
