(* ===== verification/Agreement.v ===== *)
(** * Agreement of two computations

    A block producer and a node that validates the block run the same code
    with different settings.  Module [Agreement] relates two such runs: when
    the producer's run returns, the validator's returns a related value, and
    when the producer's run throws, the validator's throws the same exception,
    unless the exception is one that the producer keeps to itself: then the
    transaction is not put into the block.  The rules follow the structure of
    the monad. *)

From S2P Require Import Prelude ScheduledExecution.

Module Agreement.

Abbreviation subjective := ScheduledExecution.scheduled_failure_is_subjective.

Definition agree {A B} (R : A -> B -> Prop) (r1 : result A) (r2 : result B) : Prop :=
  match r1 with
  | Ok a => exists b, r2 = Ok b /\ R a b
  | Throw e => subjective e = true \/ r2 = Throw e
  end.

Lemma agree_ret {A B} (R : A -> B -> Prop) a b : R a b -> agree R (mret a) (mret b).
Proof. intros Hr. by exists b. Qed.

Lemma agree_throw {A B} (R : A -> B -> Prop) e : agree R (Throw e) (Throw e).
Proof. by right. Qed.

Lemma agree_subjective {A B} (R : A -> B -> Prop) e r : subjective e = true -> agree R (Throw e) r.
Proof. by left. Qed.

Lemma agree_bind {A B C D} (R : A -> B -> Prop) (Q : C -> D -> Prop) m1 m2 k1 k2 :
  agree R m1 m2 -> (forall a b, R a b -> agree Q (k1 a) (k2 b)) ->
  agree Q (m1 ≫= k1) (m2 ≫= k2).
Proof.
  intros Hm Hk. destruct m1 as [a|e]; cbn in Hm.
  - destruct Hm as (b & -> & Hr). apply (Hk a b Hr).
  - destruct Hm as [Hs| ->]; [by left|by right].
Qed.

Lemma agree_mono {A B} (R Q : A -> B -> Prop) m1 m2 : agree R m1 m2 -> (forall a b, R a b -> Q a b) -> agree Q m1 m2.
Proof. intros Hm Hq. destruct m1 as [a|e]; [|done]. destruct Hm as (b & -> & Hr). exists b. auto. Qed.

(** The same computation on both sides, with what is known of its result. *)
Lemma agree_same {A} (P : A -> Prop) m : (forall a, m = Ok a -> P a) -> agree (fun a b => a = b /\ P a) m m.
Proof. intros Hp. destruct m as [a|e]; [exists a; auto|by right]. Qed.

Lemma agree_with {A B} (R : A -> B -> Prop) (P : A -> Prop) m1 m2 : agree R m1 m2 -> (forall a, m1 = Ok a -> P a) ->
  agree (fun a b => R a b /\ P a) m1 m2.
Proof. intros Hm Hp. destruct m1 as [a|e]; [|done]. destruct Hm as (b & -> & Hr). exists b. auto. Qed.

Lemma agree_eq {A} (m : result A) : agree eq m m.
Proof. destruct m as [a|e]; [by exists a|by right]. Qed.

(** A condition of the producer that fails with a subjective exception and
    that the validator can weaken. *)
Lemma agree_assert_subjective (b c : bool) e : subjective e = true -> (b = true -> c = true) ->
  agree (@eq unit) (EOS_ASSERT b e) (EOS_ASSERT c e).
Proof. intros Hs Hc. destruct b; [rewrite Hc by done; by exists tt|by left]. Qed.

(** A check that only the producer makes. *)
Lemma agree_check {A} (m : result A) : (forall e, m = Throw e -> subjective e = true) ->
  agree (fun _ (_ : unit) => True) m (mret tt).
Proof. intros Hm. destruct m as [a|e]; [by exists tt|left; by apply Hm]. Qed.

Lemma agree_foldM {A B E} (R : A -> B -> Prop) (h1 : A -> E -> result A) (h2 : B -> E -> result B) l a b :
  (forall x a b, R a b -> agree R (h1 a x) (h2 b x)) -> R a b ->
  agree R (foldM h1 a l) (foldM h2 b l).
Proof.
  intros Hh. revert a b. induction l as [|x l IH]; intros a b Hr; cbn [foldM]; [by apply agree_ret|].
  eapply agree_bind; [by apply Hh|]. intros a' b' Hr'. by apply IH.
Qed.

(** What the two runs of a block's transaction give. *)
Lemma agree_ok {A B} (R : A -> B -> Prop) m1 m2 a : agree R m1 m2 -> m1 = Ok a -> exists b, m2 = Ok b /\ R a b.
Proof. by intros Hm ->. Qed.

Lemma agree_fail {A B} (R : A -> B -> Prop) m1 m2 e : agree R m1 m2 -> m1 = Throw e -> subjective e = false ->
  m2 = Throw e.
Proof. intros Hm -> Hs. destruct Hm as [Ht|?]; [by rewrite Ht in Hs|done]. Qed.

(** ** Failures

    A transaction that fails in the block of the producer must fail for the
    validator as well, but not necessarily in the same way: the CPU time of the
    receipt is not what the producer's failed run used. *)

(** An exception with which a validator retires a transaction. *)
Definition objective (e : chain_exception) : Prop :=
  ScheduledExecution.failure_is_subjective e = false /\ ScheduledExecution.is_rethrown e = false.

(** An exception of the producer after which no receipt is written. *)
Definition kept (e : chain_exception) : bool := subjective e || ScheduledExecution.is_rethrown e.

(** The validator does what the producer does, or fails. *)
Definition follows {A B} (R : A -> B -> Prop) (r1 : result A) (r2 : result B) : Prop :=
  (exists e, r2 = Throw e /\ objective e) \/
  match r1 with
  | Ok a => exists b, r2 = Ok b /\ R a b
  | Throw e => kept e = true
  end.

Lemma kept_objective e : kept e = false -> objective e.
Proof. intros [Hs Hr]%orb_false_iff. split; [|done]. revert Hs. by destruct e. Qed.

Lemma agree_follows {A B} (R : A -> B -> Prop) r1 r2 : agree R r1 r2 -> follows R r1 r2.
Proof.
  destruct r1 as [a|e]; [by right|]. intros Ha. destruct (kept e) eqn:E; [right; exact E|]. left. exists e.
  split; [|by apply kept_objective]. destruct Ha as [Hs|?]; [|done]. unfold kept in E. by rewrite Hs in E.
Qed.

Lemma follows_ret {A B} (R : A -> B -> Prop) a b : R a b -> follows R (mret a) (mret b).
Proof. intros Hr. right. by exists b. Qed.

Lemma follows_kept {A B} (R : A -> B -> Prop) e r : kept e = true -> follows R (Throw e) r.
Proof. by right. Qed.

Lemma follows_throw {A B} (R : A -> B -> Prop) r e : objective e -> follows R r (Throw e).
Proof. left. by exists e. Qed.

Lemma follows_bind {A B C D} (R : A -> B -> Prop) (Q : C -> D -> Prop) m1 m2 k1 k2 :
  follows R m1 m2 -> (forall a b, R a b -> follows Q (k1 a) (k2 b)) -> follows Q (m1 ≫= k1) (m2 ≫= k2).
Proof.
  intros [(e & -> & He)|Hm] Hk; [by apply follows_throw|]. destruct m1 as [a|e]; [|by apply follows_kept].
  destruct Hm as (b & -> & Hr). apply (Hk a b Hr).
Qed.

Lemma follows_fail {A B} (R : A -> B -> Prop) m1 m2 e : follows R m1 m2 -> m1 = Throw e -> kept e = false ->
  exists e', m2 = Throw e' /\ objective e'.
Proof. intros [?|Hm] -> He; [done|]. by rewrite Hm in He. Qed.

(** One step along the code: both sides compute the same value first. *)
Ltac agree_eq_step := eapply agree_bind; [apply agree_eq|]; intros ? ? <-.

Ltac follows_eq_step := eapply follows_bind; [apply agree_follows, agree_eq|]; intros ? ? <-.

(** Both sides take the same branch. *)
Ltac agree_if :=
  match goal with |- agree _ (if ?b then _ else _) (if ?b then _ else _) => destruct b end.
End Agreement.
