(* ===== verification/TableAgreement.v ===== *)
(** * Agreement on the tables of contracts

    [ContractTables] reads one setting that differs between a producer and a
    validator: whether RAM may be billed to others in a notification.  All
    operations agree, and none of them touches the totals and the parameters
    of the resource limits. *)

From S2P Require Import Prelude Names Authority Accumulators ResourceLimits TableIndex ContractTables Agreement.

Module TableAgreement.
Import Accumulator Agreement.
Module CT := ContractTables.
Module RL := ResourceLimits.
Abbreviation account_name := Name.name.

(** The share of an account in the whole window is a signed 64-bit number, even
    if the account is not greylisted. *)
Definition share_fits (weight total virtual_limit window : Z) : Prop :=
  weight < 0 \/ total = 0 \/ virtual_limit * window * weight < 2 ^ 63 * total.

Definition capacity_fits (total virtual_limit window : Z) : Prop :=
  0 <= total < 2 ^ 64 /\ 0 <= virtual_limit /\ 0 <= window /\ virtual_limit * window < 2 ^ 128.

(** The CPU time of the block is within its limit. *)
Definition block_budget (m : RL.manager) : Prop :=
  0 <= RL.pending_cpu_usage (RL.state m) <= RL.max (RL.cpu_limit_parameters (RL.config m)) /\
  RL.max (RL.cpu_limit_parameters (RL.config m)) < 2 ^ 63.

Record shares_fit (m : RL.manager) : Prop := {
  sf_budget : block_budget m;
  sf_cpu : capacity_fits (RL.total_cpu_weight (RL.state m)) (RL.virtual_cpu_limit (RL.state m))
             (RL.account_cpu_usage_average_window (RL.config m));
  sf_net : capacity_fits (RL.total_net_weight (RL.state m)) (RL.virtual_net_limit (RL.state m))
             (RL.account_net_usage_average_window (RL.config m));
  sf_rows k lim : RL.limits m !! k = Some lim ->
    share_fits (RL.cpu_weight lim) (RL.total_cpu_weight (RL.state m))
      (RL.virtual_cpu_limit (RL.state m)) (RL.account_cpu_usage_average_window (RL.config m)) /\
    share_fits (RL.net_weight lim) (RL.total_net_weight (RL.state m))
      (RL.virtual_net_limit (RL.state m)) (RL.account_net_usage_average_window (RL.config m));
}.

(** The measured CPU time of the accounts is far below its maximum. *)
Record usage_fits (m : RL.manager) : Prop := {
  uf_window : 0 < RL.account_cpu_usage_average_window (RL.config m) < 2 ^ 32;
  uf_rows a u : RL.usage m !! a = Some u -> wf (RL.cpu_usage u) /\
    value_ex (RL.cpu_usage u) < 2 ^ 63 /\ consumed (RL.cpu_usage u) < 2 ^ 63;
}.

(** The totals and the parameters of the resource limits stay what they are,
    and the shares of the accounts and their usage stay representable. *)
Definition fixed (m0 m : RL.manager) : Prop :=
  RL.state m = RL.state m0 /\ RL.config m = RL.config m0 /\ shares_fit m /\ usage_fits m.

Lemma fixed_refl m : shares_fit m -> usage_fits m -> fixed m m.
Proof. intros Hs Hu. split_and!; done. Qed.

Lemma same_limits_fixed m0 m m' : RL.state m' = RL.state m -> RL.config m' = RL.config m ->
  RL.limits m' = RL.limits m -> usage_fits m' -> fixed m0 m -> fixed m0 m'.
Proof.
  intros Es Ec El Hu (Hs & Hc & [H0 H1 H2 H3] & _). split_and!; [by rewrite Es|by rewrite Ec| |done].
  split; unfold block_budget; rewrite ?Es, ?Ec; [done..|by rewrite El].
Qed.

(** One row changes. *)
Lemma insert_usage_fits m a u : usage_fits m -> wf (RL.cpu_usage u) -> value_ex (RL.cpu_usage u) < 2 ^ 63 ->
  consumed (RL.cpu_usage u) < 2 ^ 63 -> usage_fits (RL.set_usage m (<[a := u]> (RL.usage m))).
Proof.
  intros [Hw Hr] H1 H2 H3. split; [done|]. intros b x. cbn [RL.usage RL.set_usage].
  rewrite lookup_insert_Some. intros [[_ <-]|[_ Hx]]; [done|by eapply Hr].
Qed.

Lemma add_pending_ram_fixed m0 m a d m' : RL.add_pending_ram_usage m a d = Ok m' -> fixed m0 m -> fixed m0 m'.
Proof.
  unfold RL.add_pending_ram_usage. intros H1 Hf. destruct (d =? 0); [by injection H1 as <-|].
  apply bind_ok_inv in H1 as (u & Hu%RL.get_row_ok & H1). do 2 apply bind_ok_inv in H1 as ([] & _ & H1). injection H1 as <-.
  eapply same_limits_fixed; [..|exact Hf]; try done. destruct Hf as (_ & _ & _ & Hf).
  destruct (uf_rows _ Hf _ _ Hu) as (? & ? & ?). by apply insert_usage_fits.
Qed.

(** The context of the validator allows what the producer's allows. *)
Definition relaxed (x1 x2 : CT.action_context) : Prop :=
  exists b, (CT.is_ram_billing_in_notify_allowed x1 = true -> b = true) /\
    x2 = CT.mk_action_context (CT.receiver x1) (CT.act_account x1) (CT.authorization x1)
           (CT.privileged x1) (CT.context_free x1) (CT.ram_restrictions x1) b.

Section tables.
Context (m0 : RL.manager).

(** The same state on both sides. *)
Definition same (s1 s2 : CT.state) : Prop := s1 = s2 /\ fixed m0 (CT.resources s1).
Definition same_at {A} (p1 p2 : A * CT.state) : Prop := p1.1 = p2.1 /\ same p1.2 p2.2.

Lemma add_ram_usage_same s1 s2 a d : same s1 s2 ->
  agree same (CT.add_ram_usage s1 a d) (CT.add_ram_usage s2 a d).
Proof.
  intros [<- Hf]. eapply agree_mono; [apply (agree_same (fun s => fixed m0 (CT.resources s)))|done].
  intros s H1. unfold CT.add_ram_usage in H1. apply bind_ok_inv in H1 as (r & H1 & [= <-]).
  by apply (add_pending_ram_fixed m0) in H1.
Qed.

Context (x1 x2 : CT.action_context) (Hx : relaxed x1 x2).

Lemma update_db_usage_agree s1 s2 p d : same s1 s2 ->
  agree same (CT.update_db_usage x1 s1 p d) (CT.update_db_usage x2 s2 p d).
Proof.
  destruct Hx as (b & Hb & ->). intros Hs. unfold CT.update_db_usage. cbn [CT.privileged CT.receiver CT.ram_restrictions CT.act_account].
  apply (agree_bind eq); [|intros [] [] _; by apply add_ram_usage_same].
  destruct (0 <? d); [|by apply agree_ret]. destruct (negb _); [|by apply agree_ret].
  eapply agree_bind; [apply agree_assert_subjective; [done|]|intros [] [] _; apply agree_eq].
  cbn. intros [Ha|Ha]%orb_true_iff; [by rewrite Hb|by rewrite Ha, orb_true_r].
Qed.

Lemma find_or_create_table_agree s1 s2 code scope table p : same s1 s2 ->
  agree same_at (CT.find_or_create_table x1 s1 code scope table p) (CT.find_or_create_table x2 s2 code scope table p).
Proof.
  intros Hs. pose proof Hs as [<- _]. unfold CT.find_or_create_table.
  destruct (CT.find_table s1 code scope table); [by apply agree_ret|].
  eapply agree_bind; [by apply update_db_usage_agree|]. intros s s' [<- Hf]. by apply agree_ret.
Qed.

Lemma remove_table_agree s1 s2 tid : same s1 s2 ->
  agree same (CT.remove_table x1 s1 tid) (CT.remove_table x2 s2 tid).
Proof.
  intros Hs. pose proof Hs as [<- _]. unfold CT.remove_table. agree_eq_step.
  eapply agree_bind; [by apply update_db_usage_agree|]. intros s s' [<- Hf]. by apply agree_ret.
Qed.

Lemma modify_count_same s1 s2 tid n : same s1 s2 ->
  agree same (CT.modify_count s1 tid n) (CT.modify_count s2 tid n).
Proof. intros [<- Hf]. unfold CT.modify_count. agree_eq_step. by apply agree_ret. Qed.

Lemma store_row_agree s1 s2 k tid p primary v b : same s1 s2 ->
  agree same_at (CT.store_row x1 s1 k tid p primary v b) (CT.store_row x2 s2 k tid p primary v b).
Proof.
  intros Hs. unfold CT.store_row. apply (agree_bind same_at).
  { destruct Hs as [<- Hf]. unfold CT.create_row. destruct (existsb _ _); [apply agree_throw|by apply agree_ret]. }
  intros [obj s] [? s'] [[= <-] Hs']. eapply agree_bind; [by apply modify_count_same|]. intros t t' Ht.
  eapply agree_bind; [by apply update_db_usage_agree|]. intros u u' [<- Hf].
  destruct (CT.cache_table_of u k tid) as [ei w] eqn:Ec. apply agree_ret.
  assert (CT.resources w = CT.resources u) as Ew.
  { unfold CT.cache_table_of in Ec. destruct (TableIndex.cache_table _ _). by injection Ec as _ <-. }
  unfold CT.add_object. destruct (TableIndex.add _ _). split; [done|]. split; [done|]. cbn. by rewrite Ew.
Qed.

Lemma remove_from_table_agree s1 s2 k it tid obj : same s1 s2 ->
  agree same (CT.remove_from_table x1 s1 k it tid obj) (CT.remove_from_table x2 s2 k it tid obj).
Proof.
  intros Hs. unfold CT.remove_from_table. eapply agree_bind; [by apply modify_count_same|]. intros s s' [<- Hf].
  agree_eq_step. eapply (agree_bind same).
  - destruct (_ =? 0); [by apply remove_table_agree|by apply agree_ret].
  - intros u u' [<- Hu]. agree_eq_step. by apply agree_ret.
Qed.

Lemma db_update_i64_agree s1 s2 it p buf : same s1 s2 ->
  agree same (CT.db_update_i64 x1 s1 it p buf) (CT.db_update_i64 x2 s2 it p buf).
Proof.
  intros Hs. pose proof Hs as [<- _]. unfold CT.db_update_i64. agree_eq_step. eapply agree_bind; [apply agree_eq|].
  intros [ti tb] ? <-. eapply (agree_bind eq); [destruct Hx as (b & _ & ->); apply agree_eq|]. intros [] [] _.
  eapply (agree_bind same); [|intros u u' [<- Hu]; by apply agree_ret].
  agree_if; [|agree_if; [by apply update_db_usage_agree|by apply agree_ret]].
  eapply agree_bind; [by apply update_db_usage_agree|]; intros u u' Hu; by apply update_db_usage_agree.
Qed.

(** Removing a row, of any kind of table. *)
Lemma remove_object_agree s1 s2 k it d : same s1 s2 ->
  agree same
    (obj ← CT.get_object s1 k it; '(tid, t) ← CT.get_table_of s1 k obj;
     EOS_ASSERT (bool_decide (TableIndex.code t = CT.receiver x1)) table_access_violation;;
     s ← CT.update_db_usage x1 s1 (TableIndex.payer obj) (d obj); CT.remove_from_table x1 s k it tid obj)
    (obj ← CT.get_object s2 k it; '(tid, t) ← CT.get_table_of s2 k obj;
     EOS_ASSERT (bool_decide (TableIndex.code t = CT.receiver x2)) table_access_violation;;
     s ← CT.update_db_usage x2 s2 (TableIndex.payer obj) (d obj); CT.remove_from_table x2 s k it tid obj).
Proof.
  intros Hs. pose proof Hs as [<- _]. agree_eq_step. eapply agree_bind; [apply agree_eq|].
  intros [ti tb] ? <-. eapply (agree_bind eq); [destruct Hx as (b & _ & ->); apply agree_eq|]. intros [] [] _.
  eapply agree_bind; [by apply update_db_usage_agree|]. intros u u' Hu. by apply remove_from_table_agree.
Qed.

Lemma update_agree s1 s2 k it p sec : same s1 s2 ->
  agree same (CT.update x1 k s1 it p sec) (CT.update x2 k s2 it p sec).
Proof.
  intros Hs. pose proof Hs as [<- _]. unfold CT.update. agree_eq_step. eapply agree_bind; [apply agree_eq|].
  intros [ti tb] ? <-. eapply (agree_bind eq); [destruct Hx as (b & _ & ->); apply agree_eq|]. intros [] [] _.
  eapply (agree_bind same); [|intros u u' [<- Hu]; by apply agree_ret].
  agree_if; [|by apply agree_ret].
  eapply agree_bind; [by apply update_db_usage_agree|]; intros u u' Hu; by apply update_db_usage_agree.
Qed.

(** Searches only fill the caches of iterators. *)
Definition reads (s : CT.state) (r : result (CT.answer * CT.state)) : Prop :=
  forall a s', r = Ok (a, s') -> CT.resources s' = CT.resources s.

Lemma cache_table_of_reads s k tid : CT.resources (CT.cache_table_of s k tid).2 = CT.resources s.
Proof. unfold CT.cache_table_of. by destruct (TableIndex.cache_table _ _). Qed.
Lemma add_object_reads s k obj : CT.resources (CT.add_object s k obj).2 = CT.resources s.
Proof. unfold CT.add_object. by destruct (TableIndex.add _ _). Qed.

Lemma next_in_reads s k idx it : reads s (CT.next_in s k idx it).
Proof.
  intros a s' H1. unfold CT.next_in in H1. destruct (_ <? _); [by injection H1 as _ <-|].
  apply bind_ok_inv in H1 as (obj & _ & H1). destruct (idx !! _) as [r|]; [|by apply bind_ok_inv in H1 as (ei & _ & [= _ <-])].
  destruct (_ =? _); [|by apply bind_ok_inv in H1 as (ei & _ & [= _ <-])].
  pose proof (add_object_reads s k r). destruct (CT.add_object s k r). by injection H1 as _ <-.
Qed.

Lemma step_back_reads s k idx i tid : reads s (CT.step_back s k idx i tid).
Proof.
  intros a s' H1. unfold CT.step_back in H1. destruct i as [|i]; [by injection H1 as _ <-|].
  destruct (idx !! i) as [r|]; [|done]. destruct (_ =? _); [|by injection H1 as _ <-].
  pose proof (add_object_reads s k r). destruct (CT.add_object s k r). by injection H1 as _ <-.
Qed.

Lemma previous_in_reads s k idx it : reads s (CT.previous_in s k idx it).
Proof.
  intros a s' H1. unfold CT.previous_in in H1. destruct (_ <? _).
  - apply bind_ok_inv in H1 as ([tid|] & _ & H1); [|done]. apply bind_ok_inv in H1 as (t & _ & H1).
    by eapply step_back_reads.
  - apply bind_ok_inv in H1 as (obj & _ & H1). by eapply step_back_reads.
Qed.

Lemma row_or_end_reads s k idx i tid p sec : reads s (CT.row_or_end s k idx i tid p sec).
Proof.
  intros a s' H1. unfold CT.row_or_end in H1. pose proof (cache_table_of_reads s k tid) as E.
  destruct (CT.cache_table_of s k tid) as [ei s1]. cbn in E. destruct (idx !! i) as [r|]; [|by injection H1 as _ <-].
  destruct (_ =? _); [|by injection H1 as _ <-].
  pose proof (add_object_reads s1 k r) as E2. destruct (CT.add_object s1 k r). injection H1 as _ <-. cbn in E2. by rewrite E2.
Qed.

Lemma find_in_reads s k idx before after tid p sec : reads s (CT.find_in s k idx before after tid p sec).
Proof.
  intros a s' H1. unfold CT.find_in in H1. pose proof (cache_table_of_reads s k tid) as E.
  destruct (CT.cache_table_of s k tid) as [ei s1]. cbn in E. destruct (idx !! _) as [r|]; [|by injection H1 as _ <-].
  destruct (after r); [by injection H1 as _ <-|].
  pose proof (add_object_reads s1 k r) as E2. destruct (CT.add_object s1 k r). injection H1 as _ <-. cbn in E2. by rewrite E2.
Qed.

Lemma with_table_reads s code scope table h : (forall tid, reads s (h tid)) -> reads s (CT.with_table s code scope table h).
Proof. intros Hh a s' H1. unfold CT.with_table in H1. destruct (CT.find_table _ _ _ _); [by eapply Hh|by injection H1 as _ <-]. Qed.

Lemma end_reads s k code scope table : reads s (CT.with_table s code scope table (fun tid =>
  let '(ei, s) := CT.cache_table_of s k tid in mret (CT.only_iterator ei, s))).
Proof.
  apply with_table_reads. intros tid a s' H1. pose proof (cache_table_of_reads s k tid) as E.
  destruct (CT.cache_table_of s k tid). by injection H1 as _ <-.
Qed.

Lemma returns_agree s1 s2 m1 m2 : same s1 s2 -> (s1 = s2 -> m1 = m2) -> reads s1 m1 ->
  agree same_at (CT.returns m1) (CT.returns m2).
Proof.
  intros [<- Hf] Em Hr. rewrite <- Em by done. unfold CT.returns.
  eapply agree_bind; [apply (agree_same (fun p => CT.resources p.2 = CT.resources s1))|].
  - intros [a s] E. by eapply Hr.
  - intros [a s] ? [<- E]. apply agree_ret. split; [done|]. split; [done|]. cbn in *. by rewrite E.
Qed.

Lemma returns_row_agree m1 m2 : agree (same_at (A := Z)) m1 m2 -> agree same_at (CT.returns_row m1) (CT.returns_row m2).
Proof.
  intros Hm. unfold CT.returns_row. eapply agree_bind; [exact Hm|]. intros [i s] [j s'] [[= <-] Hs]. by apply agree_ret.
Qed.
Lemma returns_state_agree m1 m2 : agree same m1 m2 -> agree same_at (CT.returns_state m1) (CT.returns_state m2).
Proof. intros Hm. unfold CT.returns_state. eapply agree_bind; [exact Hm|]. intros s s' Hs. by apply agree_ret. Qed.

Context (f64_lt f128_lt : Z -> Z -> bool) (f64_is_nan f128_is_nan : Z -> bool).

Lemma store_agree s1 s2 k scope table p primary sec : same s1 s2 ->
  agree same_at (CT.store x1 k s1 scope table p primary sec) (CT.store x2 k s2 scope table p primary sec).
Proof.
  intros Hs. unfold CT.store. agree_eq_step.
  eapply agree_bind; [replace (CT.receiver x2) with (CT.receiver x1) by (by destruct Hx as (b & _ & ->)); by apply find_or_create_table_agree|].
  intros [tid s] [? s'] [[= <-] Hs']. by apply store_row_agree.
Qed.

Lemma db_store_i64_agree s1 s2 scope table p primary buf : same s1 s2 ->
  agree same_at (CT.db_store_i64 x1 s1 scope table p primary buf) (CT.db_store_i64 x2 s2 scope table p primary buf).
Proof.
  intros Hs. unfold CT.db_store_i64.
  eapply agree_bind; [replace (CT.receiver x2) with (CT.receiver x1) by (by destruct Hx as (b & _ & ->)); by apply find_or_create_table_agree|].
  intros [tid s] [? s'] [[= <-] Hs']. cbn zeta beta iota. agree_eq_step. by apply store_row_agree.
Qed.

Lemma call_api_agree s1 s2 c : same s1 s2 ->
  agree same_at (CT.call_api x1 f64_lt f128_lt f64_is_nan f128_is_nan s1 c)
    (CT.call_api x2 f64_lt f128_lt f64_is_nan f128_is_nan s2 c).
Proof.
  intros Hs. unfold CT.call_api. eapply (agree_bind eq); [destruct Hx as (b & _ & ->); apply agree_eq|]. intros [] [] _.
  destruct c; repeat (agree_eq_step; []); repeat match goal with u : unit |- _ => destruct u end;
    try (apply (returns_agree s1 s2); [done|by intros <-|];
      first [apply next_in_reads|apply previous_in_reads|apply end_reads
            |apply with_table_reads; intros; first [apply find_in_reads|apply row_or_end_reads]]).
  - by apply returns_row_agree, db_store_i64_agree.
  - by apply returns_state_agree, db_update_i64_agree.
  - by apply returns_state_agree, (remove_object_agree s1 s2 TableIndex.keyval).
  - destruct Hs as [<- Hf]. eapply agree_bind; [apply agree_eq|]. intros [n b] ? <-. by apply agree_ret.
  - by apply returns_row_agree, store_agree.
  - by apply returns_state_agree, update_agree.
  - by apply returns_state_agree, remove_object_agree.
Qed.

(** The check of the RAM deltas does not read the setting. *)
Lemma check_ram_deltas_agree s1 s2 : same s1 s2 -> agree eq (CT.check_ram_deltas x1 s1) (CT.check_ram_deltas x2 s2).
Proof. intros [<- _]. destruct Hx as (b & _ & ->). apply agree_eq. Qed.

End tables.
End TableAgreement.
