(* ===== verification/ExecutionAgreement.v ===== *)
(** * Agreement on the execution of transactions

    One theorem schema about [ActionExecution]: when the calls of contracts
    and the native handlers of two hosts agree, the execution of a whole
    transaction agrees, although the producer checks its lists, limits the
    size of inline actions further and looks at what contracts send to
    themselves, which a validator does not do. *)

From S2P Require Import Prelude Names Merkle ProducerSchedule Authority AuthorityChecker.
From S2P Require Import ResourceLimits AuthorizationManager AccessLists TableIndex ContractTables.
From S2P Require Import ActionExecution Agreement TableAgreement.
Import ActionExecution Agreement TableAgreement.

Module ExecutionAgreement.

(** ** The lists of the producer *)

Lemma actor_list_subjective c l e : AccessLists.check_actor_list c l = Throw e -> subjective e = true.
Proof.
  unfold AccessLists.check_actor_list. repeat case_match; try done; intros [_ <-]%EOS_ASSERT_throw; done.
Qed.
Lemma contract_list_subjective c n e : AccessLists.check_contract_list c n = Throw e -> subjective e = true.
Proof.
  unfold AccessLists.check_contract_list. repeat case_match; try done; intros [_ <-]%EOS_ASSERT_throw; done.
Qed.
Lemma action_list_subjective c n a e : AccessLists.check_action_list c n a = Throw e -> subjective e = true.
Proof.
  unfold AccessLists.check_action_list. repeat case_match; try done; intros [_ <-]%EOS_ASSERT_throw; done.
Qed.

Section execution.
Context {K Bytes W Call Ans : Type} `{Countable K} (h1 h2 : Host K W Call Ans).
Abbreviation transaction_state := (transaction_state Bytes W).
Abbreviation accounts_map := (gmap name account_metadata).
Context (e1 e2 : environment K Bytes W Call Ans).
Context (R : W -> W -> Prop).
Abbreviation g1 := (control e1).
Abbreviation g2 := (control e2).

(** Results of native handlers and of calls. *)
Definition related {A} (p1 p2 : A * W) : Prop := p1.1 = p2.1 /\ R p1.2 p2.2.

(** The environment of the validator: the same chain, other settings. *)
Record validated : Prop := {
  va_skip : skip_trx_checks g2 = skip_trx_checks g1;
  va_skip_auth : skip_auth_check g2 = skip_auth_check g1;
  va_producing : is_producing_block g2 = false;
  va_read_only : is_read_only g2 = is_read_only g1;
  va_forward : forward_setcode g2 = forward_setcode g1;
  va_restrict : restrict_action_to_self g2 = restrict_action_to_self g1;
  va_return : action_return_value_activated g2 = action_return_value_activated g1;
  va_ram : ram_restrictions g2 = ram_restrictions g1;
  va_notify : is_ram_billing_in_notify_allowed g1 = true -> is_ram_billing_in_notify_allowed g2 = true;
  va_depth : max_inline_action_depth g2 = max_inline_action_depth g1;
  va_size : max_inline_action_size g2 = max_inline_action_size g1;
  va_value : max_action_return_value_size g2 = max_action_return_value_size g1;
  va_check db acts keys perms b1 b2 sat :
    AM.check_authorization (as_updateauth e2) (as_deleteauth e2) (as_linkauth e2) (as_unlinkauth e2)
      (as_canceldelay e2) (auth_control g2) db acts keys perms (provided_delay g2) b1 b2 sat
    = AM.check_authorization (as_updateauth e1) (as_deleteauth e1) (as_linkauth e1) (as_unlinkauth e1)
        (as_canceldelay e1) (auth_control g1) db acts keys perms (provided_delay g1) b1 b2 sat;
  va_wasm : wasm e2 = wasm e1;
  va_hash_action : hash_action e2 = hash_action e1;
  va_digest : generate_action_digest e2 = generate_action_digest e1;
  va_hash_receipt : hash_receipt e2 = hash_receipt e1;
  va_packed : packed_size e2 = packed_size e1;
  va_data : data_size e2 = data_size e1;
  va_native nm : match native e1 nm, native e2 nm with
                 | Some k1, Some k2 => forall x l w1 w2, R w1 w2 -> agree related (k1 x (l, w1)) (k2 x (l, w2))
                 | None, None => True
                 | _, _ => False
                 end;
  va_call x1 x2 w1 w2 c : relaxed x1 x2 -> R w1 w2 ->
    agree related (host_call (Host := h1) x1 w1 c) (host_call (Host := h2) x2 w2 c);
  va_context w1 w2 : R w1 w2 -> R (host_new_context (Host := h1) w1) (host_new_context (Host := h2) w2);
  va_finalize w1 w2 : R w1 w2 -> R (host_finalize_trace (Host := h1) w1) (host_finalize_trace (Host := h2) w2);
  va_deltas x1 x2 w1 w2 : relaxed x1 x2 -> R w1 w2 ->
    agree eq (host_check_ram (Host := h1) x1 w1) (host_check_ram (Host := h2) x2 w2);
  va_auth w1 w2 : R w1 w2 -> host_auth (Host := h2) w2 = host_auth (Host := h1) w1;
}.
Hypothesis V : validated.

(** The states of the transaction differ in the worlds only. *)
Definition matches (t1 t2 : transaction_state) : Prop := exists w, R (world t1) w /\ t2 = set_world t1 w.
Definition matches_at {A} (p1 p2 : A * transaction_state) : Prop := p1.1 = p2.1 /\ matches p1.2 p2.2.

Lemma view_relaxed x : relaxed (view e1 x) (view e2 x).
Proof.
  exists (is_ram_billing_in_notify_allowed g2). split; [apply V|]. unfold view. by rewrite (va_ram V).
Qed.

(** ** Scheduling *)

Lemma schedule_action_matches t1 t2 a r cf c n : matches t1 t2 ->
  matches_at (schedule_action t1 a r cf c n) (schedule_action t2 a r cf c n).
Proof. intros (w & Hr & ->). split; [done|]. by exists w. Qed.

Lemma get_action_trace_matches t1 t2 o : matches t1 t2 -> get_action_trace t2 o = get_action_trace t1 o.
Proof. by intros (w & _ & ->). Qed.
Lemma get_metadata_matches t1 t2 a : matches t1 t2 -> get_metadata t2 a = get_metadata t1 a.
Proof. by intros (w & _ & ->). Qed.
Lemma refresh_act_matches x t1 t2 : matches t1 t2 -> refresh_act x t2 = refresh_act x t1.
Proof. by intros (w & _ & ->). Qed.
Lemma account_exists_matches t1 t2 a : matches t1 t2 -> account_exists t2 a = account_exists t1 a.
Proof. by intros (w & _ & ->). Qed.

Lemma require_recipient_agree x t1 t2 r : matches t1 t2 ->
  agree matches_at (require_recipient x t1 r) (require_recipient x t2 r).
Proof.
  intros Ht. unfold require_recipient. destruct (has_recipient x r); [by apply agree_ret|].
  eapply (agree_bind matches_at).
  - unfold schedule_action_of. rewrite (get_action_trace_matches _ _ _ Ht). agree_eq_step.
    apply agree_ret. by apply schedule_action_matches.
  - intros [o u1] [o' u2] [[= <-] Hu]. cbn in Hu. rewrite (refresh_act_matches x _ _ Hu). agree_eq_step. by apply agree_ret.
Qed.

(** ** Inline actions *)

Lemma check_inline_size_agree x a : agree eq (check_inline_size e1 x a) (check_inline_size e2 x a).
Proof.
  unfold check_inline_size. rewrite (va_producing V), andb_false_r.
  eapply agree_mono; [apply agree_check|intros [] [] _; done]. destruct (_ && _); [|done].
  by intros e [_ <-]%EOS_ASSERT_throw.
Qed.

(** The producer remembers authorizations that an action to itself inherits. *)
Lemma check_inline_auth_agree x t1 t2 a en1 : matches t1 t2 ->
  agree (fun s1 s2 => s2.2 = ∅ /\ (inherits_authorizations e1 x a = false -> s1.2 = ∅))
    (foldM (@check_inline_auth K Bytes W Call Ans h1 x t1 en1 (inherits_authorizations e1 x a)) ([], ∅) (AM.authorization a))
    (foldM (@check_inline_auth K Bytes W Call Ans h2 x t2 false (inherits_authorizations e2 x a)) ([], ∅) (AM.authorization a)).
Proof.
  intros Ht. apply agree_foldM; [|done]. intros p s1 s2 [E2 E1]. unfold check_inline_auth.
  rewrite (account_exists_matches _ _ _ Ht). agree_eq_step.
  eapply (agree_bind eq); [destruct Ht as (w & Hr & ->); cbn; rewrite (va_auth V _ _ Hr); apply agree_eq|].
  intros o ? <-. agree_eq_step. apply agree_ret. cbn. unfold inherits_authorizations in *.
  rewrite (va_producing V), !andb_false_r. cbn. split; [done|]. intros Hi. rewrite Hi. cbn. by apply E1.
Qed.

Lemma check_inline_authorization_agree x t1 t2 a i1 : matches t1 t2 ->
  (inherits_authorizations e1 x a = false -> i1 = ∅) ->
  agree (@eq unit) (@check_inline_authorization K Bytes W Call Ans _ _ h1 e1 x t1 a i1)
    (@check_inline_authorization K Bytes W Call Ans _ _ h2 e2 x t2 a ∅).
Proof.
  intros (w & Hr & ->) Hi. unfold check_inline_authorization. rewrite (va_skip_auth V).
  destruct (_ && _); [|by apply agree_ret]. rewrite (va_restrict V), (va_producing V), (va_read_only V).
  rewrite (va_check V). cbn [world set_world]. rewrite (va_auth V _ _ Hr).
  destruct (restrict_action_to_self g1 || negb (bool_decide (AM.act_account a = ctx_receiver x))) eqn:Es.
  - rewrite Hi; [destruct (AM.check_authorization _ _ _ _ _ _ _ _ _ _ _ _ _ _); [by apply agree_ret|apply agree_throw]|].
    unfold inherits_authorizations. apply orb_true_iff in Es as [-> | Es]; [done|]. apply negb_true_iff in Es. by rewrite Es, andb_false_r.
  - assert (forall r : result unit, (match r with Ok _ => mret tt | Throw _ => mret tt end : result unit) = mret tt) as Hany by (by intros []).
    rewrite Hany. destruct (AM.check_authorization _ _ _ _ _ _ _ _ _ _ _ _ _ _); [by apply agree_ret|].
    destruct (is_producing_block g1); [by apply agree_subjective|by apply agree_ret].
Qed.

Lemma execute_inline_agree x t1 t2 a : matches t1 t2 ->
  agree matches_at (@execute_inline K Bytes W Call Ans _ _ h1 e1 x t1 a) (@execute_inline K Bytes W Call Ans _ _ h2 e2 x t2 a).
Proof.
  intros Ht. unfold execute_inline. rewrite (account_exists_matches _ _ _ Ht), (va_producing V), andb_false_r. agree_eq_step.
  eapply agree_bind; [by apply check_inline_auth_agree|]. intros [l1 i1] [l2 i2] [Ei Hi]. cbn in Ei, Hi. subst i2.
  eapply agree_bind; [apply agree_check|intros ? ? _].
  { destruct (_ && _); [|done]. intros e He. by eapply actor_list_subjective. }
  eapply agree_bind; [apply check_inline_size_agree|intros ? ? _].
  eapply agree_bind; [by apply check_inline_authorization_agree|intros ? ? _].
  pose proof (schedule_action_matches _ _ a (AM.act_account a) false (ctx_action_ordinal x) (first_receiver_action_ordinal x) Ht) as Hs.
  destruct (schedule_action t1 _ _ _ _ _) as [o u1], (schedule_action t2 _ _ _ _ _) as [o' u2]. destruct Hs as [[= <-] Hu]. cbn in Hu.
  rewrite (refresh_act_matches x _ _ Hu). agree_eq_step. by apply agree_ret.
Qed.

Lemma execute_context_free_inline_agree x t1 t2 a : matches t1 t2 ->
  agree matches_at (execute_context_free_inline e1 x t1 a) (execute_context_free_inline e2 x t2 a).
Proof.
  intros Ht. unfold execute_context_free_inline. rewrite (account_exists_matches _ _ _ Ht). do 2 agree_eq_step.
  eapply agree_bind; [apply check_inline_size_agree|intros ? ? _].
  pose proof (schedule_action_matches _ _ a (AM.act_account a) true (ctx_action_ordinal x) (first_receiver_action_ordinal x) Ht) as Hs.
  destruct (schedule_action t1 _ _ _ _ _) as [o u1], (schedule_action t2 _ _ _ _ _) as [o' u2]. destruct Hs as [[= <-] Hu]. cbn in Hu.
  rewrite (refresh_act_matches x _ _ Hu). agree_eq_step. by apply agree_ret.
Qed.

(** ** Contracts *)

Lemma run_agree p x t1 t2 : matches t1 t2 ->
  agree matches_at (@run K Bytes W Call Ans _ _ h1 e1 p x t1) (@run K Bytes W Call Ans _ _ h2 e2 p x t2).
Proof.
  revert x t1 t2. induction p as [| |c k IH|r k IH|a k IH|a k IH|k IH|n b k IH|v k IH]; intros x t1 t2 Ht; cbn [run].
  - by apply agree_ret.
  - apply agree_throw.
  - destruct Ht as (w & Hr & ->). eapply agree_bind; [apply (va_call V); [apply view_relaxed|exact Hr]|].
    intros [a u1] [a' u2] [[= <-] Hu]. apply IH. by exists u2.
  - agree_eq_step. eapply agree_bind; [by apply require_recipient_agree|]. intros [x1 u1] [x2 u2] [[= <-] Hu]. by apply IH.
  - agree_eq_step. eapply (agree_bind eq); [unfold check_packed_size; rewrite (va_packed V), (va_size V); apply agree_eq|intros ? ? _].
    eapply agree_bind; [by apply execute_inline_agree|]. intros [x1 u1] [x2 u2] [[= <-] Hu]. by apply IH.
  - agree_eq_step. eapply (agree_bind eq); [unfold check_packed_size; rewrite (va_packed V), (va_size V); apply agree_eq|intros ? ? _].
    eapply agree_bind; [by apply execute_context_free_inline_agree|]. intros [x1 u1] [x2 u2] [[= <-] Hu]. by apply IH.
  - agree_eq_step. eapply (agree_bind eq); [by destruct Ht as (w & Hr & ->); apply agree_eq|]. intros s ? <-. by apply IH.
  - do 2 agree_eq_step. eapply (agree_bind matches); [|intros u1 u2 Hu; by apply IH].
    unfold set_privileged. rewrite (get_metadata_matches _ _ _ Ht). agree_eq_step. apply agree_ret.
    destruct Ht as (w & Hr & ->). by exists w.
  - agree_eq_step. rewrite (va_data V), (va_value V). agree_eq_step. by apply IH.
Qed.

Lemma check_lists_agree x : agree eq (check_lists e1 x) (check_lists e2 x).
Proof.
  unfold check_lists. rewrite (va_producing V), andb_false_r.
  eapply agree_mono; [apply agree_check|intros [] [] _; done]. destruct (_ && _); [|done].
  intros e [He|([] & _ & He)]%bind_throw_inv; [by eapply contract_list_subjective|by eapply action_list_subjective].
Qed.

Lemma apply_native_agree x t1 t2 : matches t1 t2 -> agree matches (apply_native e1 x t1) (apply_native e2 x t2).
Proof.
  intros Ht. unfold apply_native, find_apply_handler. destruct (_ && _); [|by apply agree_ret].
  pose proof (va_native V (AM.act_name (ctx_act x))) as Hn. destruct (native e1 _) as [k1|], (native e2 _) as [k2|]; try done; [|by apply agree_ret].
  eapply agree_bind; [apply check_lists_agree|intros ? ? _]. destruct Ht as (w & Hr & ->).
  eapply agree_bind; [by apply Hn|]. intros [l u1] [l' u2] [[= <-] Hu]. apply agree_ret. by exists u2.
Qed.

Lemma apply_contract_agree x t1 t2 : matches t1 t2 ->
  agree matches_at (@apply_contract K Bytes W Call Ans _ _ h1 e1 x t1) (@apply_contract K Bytes W Call Ans _ _ h2 e2 x t2).
Proof.
  intros Ht. unfold apply_contract. rewrite (get_metadata_matches _ _ _ Ht), (va_forward V), (va_wasm V). agree_eq_step.
  destruct (code_hash _); [|by apply agree_ret]. agree_if; [|by apply agree_ret].
  eapply agree_bind; [apply check_lists_agree|intros ? ? _]. by apply run_agree.
Qed.

Lemma apply_receiver_agree x t1 t2 : matches t1 t2 ->
  agree matches_at (@apply_receiver K Bytes W Call Ans _ _ h1 e1 x t1) (@apply_receiver K Bytes W Call Ans _ _ h2 e2 x t2).
Proof.
  intros Ht. unfold apply_receiver. rewrite (get_metadata_matches _ _ _ Ht), (va_skip V). agree_eq_step.
  agree_if; [by apply agree_ret|]. eapply agree_bind; [by apply apply_native_agree|]. intros u1 u2 Hu.
  eapply agree_bind; [by apply apply_contract_agree|]. intros [x1 v1] [x2 v2] [[= <-] Hv]. cbn in Hv. pose proof Hv as (w & Hr & ->).
  eapply agree_bind; [apply (va_deltas V); [apply view_relaxed|exact Hr]|]. intros [] [] _. by apply agree_ret.
Qed.

(** ** Receipts *)

Lemma next_auth_sequences_agree l r t1 t2 : matches t1 t2 ->
  agree matches_at (foldM (next_auth_sequence (Bytes := Bytes)) (r, t1) l) (foldM next_auth_sequence (r, t2) l).
Proof.
  intros Ht. apply agree_foldM; [|done]. intros a [r1 u1] [r2 u2] [[= <-] Hu]. unfold next_auth_sequence. cbn in Hu.
  rewrite (get_metadata_matches _ _ _ Hu). agree_eq_step. apply agree_ret. split; [done|]. destruct Hu as (w & Hr & ->). by exists w.
Qed.

Lemma make_receipt_agree x t1 t2 : matches t1 t2 ->
  agree matches (@make_receipt K Bytes W Call Ans _ _ h1 e1 x t1) (@make_receipt K Bytes W Call Ans _ _ h2 e2 x t2).
Proof.
  intros Ht. unfold make_receipt. rewrite (va_return V), (va_digest V), (va_hash_action V), (va_hash_receipt V).
  rewrite (get_action_trace_matches _ _ _ Ht). agree_eq_step. destruct Ht as (w0 & Hr0 & ->). cbn [next_global_sequence].
  eapply (agree_bind matches_at).
  { unfold next_recv_sequence. eapply (agree_bind eq); [apply agree_eq|]. intros m ? <-.
    apply agree_ret. split; [done|]. by exists w0. }
  intros [rs u1] [rs' u2] [[= <-] Hu]. cbn in Hu. rewrite (get_metadata_matches _ _ _ Hu). agree_eq_step.
  eapply agree_bind; [by apply next_auth_sequences_agree|]. intros [s v1] [s' v2] [[= <-] Hv]. cbn in Hv. destruct Hv as (w & Hr & ->).
  apply agree_ret. exists (host_finalize_trace (Host := h2) w). split; [by apply (va_finalize V)|done].
Qed.

Lemma exec_one_agree x t1 t2 : matches t1 t2 ->
  agree matches_at (@exec_one K Bytes W Call Ans _ _ h1 e1 x t1) (@exec_one K Bytes W Call Ans _ _ h2 e2 x t2).
Proof.
  intros Ht. unfold exec_one. eapply agree_bind; [by apply apply_receiver_agree|]. intros [x1 u1] [x2 u2] [[= <-] Hu].
  eapply agree_bind; [by apply make_receipt_agree|]. intros v1 v2 Hv. by apply agree_ret.
Qed.

(** ** Actions and transactions *)

Lemma notify_loop_agree k i x t1 t2 : matches t1 t2 ->
  agree matches_at (@notify_loop K Bytes W Call Ans _ _ h1 e1 k i x t1) (@notify_loop K Bytes W Call Ans _ _ h2 e2 k i x t2).
Proof.
  revert i x t1 t2. induction k as [|k IH]; intros i x t1 t2 Ht; cbn [notify_loop];
    (destruct (notified x !! i) as [[r o]|]; [|by apply agree_ret]); [apply agree_throw|].
  eapply agree_bind; [by apply exec_one_agree|]. intros [x1 u1] [x2 u2] [[= <-] Hu]. by apply IH.
Qed.

Lemma exec_receivers_agree t1 t2 o : matches t1 t2 ->
  agree matches_at (@exec_receivers K Bytes W Call Ans _ _ h1 e1 t1 o) (@exec_receivers K Bytes W Call Ans _ _ h2 e2 t2 o).
Proof.
  intros Ht. unfold exec_receivers. eapply (agree_bind matches_at).
  - unfold new_apply_context. rewrite (get_action_trace_matches _ _ _ Ht). agree_eq_step. apply agree_ret.
    split; [done|]. destruct Ht as (w & Hr & ->). exists (host_new_context (Host := h2) w). split; [by apply (va_context V)|done].
  - intros [x1 u1] [x2 u2] [[= <-] Hu]. eapply agree_bind; [by apply exec_one_agree|]. intros [y1 v1] [y2 v2] [[= <-] Hv].
    pose proof Hv as (w & _ & Ev). cbn in Ev. rewrite Ev at 1. cbn [accounts set_world]. by apply notify_loop_agree.
Qed.

Lemma execute_action_agree levels t1 t2 o : matches t1 t2 ->
  agree matches (@execute_action K Bytes W Call Ans _ _ h1 e1 levels t1 o) (@execute_action K Bytes W Call Ans _ _ h2 e2 levels t2 o).
Proof.
  revert t1 t2 o. induction levels as [|levels IH]; intros t1 t2 o Ht; cbn [execute_action];
    (eapply agree_bind; [by apply exec_receivers_agree|]; intros [x u1] [x' u2] [[= <-] Hu]; cbn in Hu).
  - agree_eq_step. by apply agree_ret.
  - eapply (agree_bind matches); [apply agree_foldM; [intros; by apply IH|done]|].
    intros v1 v2 Hv. apply agree_foldM; [intros; by apply IH|done].
Qed.

Lemma schedule_originals_matches cf l t1 t2 : matches t1 t2 ->
  matches (foldl (schedule_original cf) t1 l) (foldl (schedule_original cf) t2 l).
Proof.
  revert t1 t2. induction l as [|a l IH]; intros t1 t2 Ht; [done|]. cbn [foldl]. apply IH.
  exact (proj2 (schedule_action_matches _ _ a (AM.act_account a) cf 0 0 Ht)).
Qed.

Lemma exec_transaction_agree cf cfas acts t1 t2 : matches t1 t2 ->
  agree matches (@exec_transaction K Bytes W Call Ans _ _ h1 e1 cf cfas acts t1)
    (@exec_transaction K Bytes W Call Ans _ _ h2 e2 cf cfas acts t2).
Proof.
  intros Ht. unfold exec_transaction. rewrite (va_depth V).
  assert (matches (foldl (schedule_original false) (if cf then foldl (schedule_original true) t1 cfas else t1) acts)
            (foldl (schedule_original false) (if cf then foldl (schedule_original true) t2 cfas else t2) acts)) as Hs.
  { apply schedule_originals_matches. destruct cf; [by apply schedule_originals_matches|done]. }
  set (u1 := foldl _ (if cf then _ else t1) acts) in *. set (u2 := foldl _ (if cf then _ else t2) acts) in *.
  replace (length (action_traces u2)) with (length (action_traces u1)) by (by destruct Hs as (w & _ & ->)).
  apply agree_foldM; [|done]. intros. by apply execute_action_agree.
Qed.

End execution.
End ExecutionAgreement.
