(* ===== verification/HandlerAgreement.v ===== *)
(** * Agreement on the native actions

    The handlers of [AuthActions] and [ContractCode] read one setting that
    differs between a producer and a validator: whether the keys of an
    authority are checked against the list of the node. *)

From S2P Require Import Prelude Names Merkle ProducerSchedule Authority AuthorityChecker.
From S2P Require Import ResourceLimits AuthorizationManager AuthActions TableIndex ContractTables.
From S2P Require Import ActionExecution ContractCode Agreement TableAgreement.

Module HandlerAgreement.
Import Agreement TableAgreement.
Module AM := AuthorizationManager.
Module AA := AuthActions.
Module CC := ContractCode.

Lemma initialize_account_fixed m0 m a m' : RL.initialize_account m a = Ok m' -> fixed m0 m -> fixed m0 m'.
Proof.
  unfold RL.initialize_account. intros H1 (Hs & Hc & [S0 S1 S2 S3] & Hu). apply bind_ok_inv in H1 as (l & Hl & H1).
  apply bind_ok_inv in H1 as (u & Hr & [= <-]). apply RL.create_row_ok in Hl as [_ ->]. apply RL.create_row_ok in Hr as [_ ->].
  split_and!; [done|done| |].
  2: { apply (insert_usage_fits (RL.set_limits m _)); [by destruct Hu; split|done..]. }
  split; [done..|]. intros k lim. cbn [RL.limits RL.set_usage RL.set_limits].
  rewrite lookup_insert_Some. intros [[_ <-]|[_ Hk]]; [split; by left|by eapply S3].
Qed.

Section auth.
Context {K : Type} `{Countable K}.
Abbreviation database := (@AM.database K).
Context (which : K -> Z) (key_lt : K -> K -> bool) (pack_size : K -> Z).
Context (m0 : RL.manager).

(** The validator does not check keys. *)
Definition unlisted (c1 c2 : @AM.control K _ _) : Prop :=
  exists l, c2 = AM.mk_control (AM.pending_block_time c1) (AM.max_transaction_delay c1)
    (AM.max_authority_depth c1) (AM.num_supported_key_types c1) (AM.fix_linkauth_restriction c1)
    (AM.only_link_to_existing_permission c1) false l.

Context (c1 c2 : @AM.control K _ _) (Hc : unlisted c1 c2).

Definition same_db (d1 d2 : database) : Prop := d1 = d2 /\ fixed m0 (AM.resources d1).

Lemma auth_ram_same d1 d2 a z : same_db d1 d2 -> agree same_db (AA.add_ram_usage d1 a z) (AA.add_ram_usage d2 a z).
Proof.
  intros [<- Hf]. eapply agree_mono; [apply (agree_same (fun d => fixed m0 (AM.resources d)))|done].
  intros d H1. unfold AA.add_ram_usage in H1. apply bind_ok_inv in H1 as (r & H1 & [= <-]).
  by apply (add_pending_ram_fixed m0) in H1.
Qed.

Lemma precondition_agree (d : database) a :
  agree eq (AA.validate_authority_precondition c1 d a) (AA.validate_authority_precondition c2 d a).
Proof.
  destruct Hc as [l ->]. unfold AA.validate_authority_precondition. agree_eq_step. cbn [AM.enforce_key_list].
  eapply agree_mono; [apply agree_check|intros [] [] _; done]. destruct (AM.enforce_key_list c1); [|done].
  induction (Authority.keys a) as [|k ks IH]; [done|]. cbn [foldM]. intros e [He|([] & _ & He)]%bind_throw_inv; [|by apply IH].
  unfold AA.check_key_list in He. destruct (bool_decide _); [done|]. by apply EOS_ASSERT_throw in He as [_ <-].
Qed.

(** What is created or changed does not depend on the list of keys. *)
Lemma create_permission_agree d1 d2 a n p x t : same_db d1 d2 ->
  agree (fun r1 r2 => r1.1 = r2.1 /\ same_db r1.2 r2.2)
    (AM.create_permission which c1 d1 a n p x t) (AM.create_permission which c2 d2 a n p x t).
Proof.
  intros [<- Hf]. destruct Hc as [l ->]. change (AM.create_permission which _ d1 a n p x t) with (AM.create_permission which c1 d1 a n p x t).
  eapply agree_mono; [apply (agree_same (fun r => fixed m0 (AM.resources r.2)))|by intros ? ? [<- ?]].
  intros [q d] H1. apply AA.create_permission_ok in H1 as (_ & _ & _ & _ & _ & _ & _ & t' & ->). done.
Qed.

Lemma account_permissions_agree d1 d2 n o a t : same_db d1 d2 ->
  agree same_db (AA.create_account_permissions which pack_size AA.add_ram_usage c1 d1 n o a t)
    (AA.create_account_permissions which pack_size AA.add_ram_usage c2 d2 n o a t).
Proof.
  intros Hd. unfold AA.create_account_permissions. eapply agree_bind; [by apply create_permission_agree|].
  intros [p u] [? u'] [[= <-] Hu]. eapply agree_bind; [by apply create_permission_agree|].
  intros [q v] [? v'] [[= <-] [Ev Hv]]. cbn in Ev, Hv. subst v'.
  eapply agree_bind; [apply (agree_same (fun r => fixed m0 r)); intros r Hr; by eapply initialize_account_fixed|].
  intros r ? [<- Hr]. by apply auth_ram_same.
Qed.

Lemma newaccount_agree d auths a : fixed m0 (AM.resources d) ->
  agree same_db (AA.apply_eosio_newaccount which key_lt pack_size c1 d auths a)
    (AA.apply_eosio_newaccount which key_lt pack_size c2 d auths a).
Proof.
  intros Hf. unfold AA.apply_eosio_newaccount. do 8 agree_eq_step.
  eapply agree_bind; [apply (agree_same (fun d => fixed m0 (AM.resources d)))|].
  { intros d' H1. unfold AA.create_account in H1. destruct (_ !! _); [done|]. by injection H1 as <-. }
  intros d' ? [<- Hd]. do 2 (eapply agree_bind; [apply precondition_agree|intros ? ? _]). by apply account_permissions_agree.
Qed.

Lemma updateauth_agree d auths u : fixed m0 (AM.resources d) ->
  agree same_db (AA.apply_eosio_updateauth which key_lt pack_size c1 d auths u)
    (AA.apply_eosio_updateauth which key_lt pack_size c2 d auths u).
Proof.
  intros Hf. unfold AA.apply_eosio_updateauth. agree_eq_step.
  eapply (agree_bind eq); [destruct Hc as [l ->]; apply agree_eq|intros ? ? _].
  eapply agree_bind; [apply precondition_agree|intros ? ? _]. do 2 agree_eq_step. case_match.
  - agree_eq_step. eapply (agree_bind (fun r1 r2 => r1.1 = r2.1 /\ same_db r1.2 r2.2)).
    + destruct Hc as [l ->]. eapply agree_mono; [apply (agree_same (fun r => fixed m0 (AM.resources r.2)))|by intros ? ? [<- ?]].
      intros [q e] H1. unfold AM.modify_permission in H1. apply bind_ok_inv in H1 as ([] & _ & H1). by injection H1 as _ <-.
    + intros [q v] [? v'] [[= <-] Hv]. by apply auth_ram_same.
  - eapply agree_bind; [by apply create_permission_agree|]. intros [q v] [? v'] [[= <-] Hv]. by apply auth_ram_same.
Qed.

Lemma deleteauth_agree d auths u : fixed m0 (AM.resources d) ->
  agree same_db (AA.apply_eosio_deleteauth pack_size d auths u) (AA.apply_eosio_deleteauth pack_size d auths u).
Proof.
  intros Hf. unfold AA.apply_eosio_deleteauth. do 5 agree_eq_step.
  eapply agree_bind; [apply (agree_same (fun d => fixed m0 (AM.resources d)))|intros d' ? [<- Hd]; by apply auth_ram_same].
  intros d' H1. unfold AM.remove_permission in H1. apply bind_ok_inv in H1 as ([] & _ & H1).
  destruct (_ !! _); [|done]. by injection H1 as <-.
Qed.

Lemma linkauth_agree d auths u : fixed m0 (AM.resources d) ->
  agree same_db (AA.apply_eosio_linkauth c1 d auths u) (AA.apply_eosio_linkauth c2 d auths u).
Proof.
  intros Hf. destruct Hc as [l ->]. unfold AA.apply_eosio_linkauth. cbn [AM.only_link_to_existing_permission]. do 5 agree_eq_step.
  case_match; [|by apply auth_ram_same]. agree_eq_step. by apply agree_ret.
Qed.

Lemma unlinkauth_agree d auths u : fixed m0 (AM.resources d) ->
  agree same_db (AA.apply_eosio_unlinkauth d auths u) (AA.apply_eosio_unlinkauth d auths u).
Proof.
  intros Hf. unfold AA.apply_eosio_unlinkauth. agree_eq_step. case_match; [|apply agree_throw].
  eapply agree_bind; [by apply auth_ram_same|]. intros d' ? [<- Hd]. by apply agree_ret.
Qed.

End auth.

(** ** Contract code *)

Section code.
Context (m0 : RL.manager) (sha256 : list Z -> Merkle.digest_type) (validate_code : list Z -> result unit).
Context (x1 x2 : CT.action_context) (Hx : relaxed x1 x2).

Definition same_code (s1 s2 : CC.code_state) : Prop := s1 = s2 /\ fixed m0 (CT.resources (CC.tables s1)).

Lemma charge_difference_same s a n o : fixed m0 (CT.resources s) ->
  agree (same m0) (CC.charge_difference s a n o) (CC.charge_difference s a n o).
Proof. intros Hf. unfold CC.charge_difference. agree_if; [by apply add_ram_usage_same|by apply agree_ret]. Qed.

Lemma setcode_agree bn t s a : fixed m0 (CT.resources (CC.tables s)) ->
  agree same_code (CC.apply_eosio_setcode sha256 validate_code bn t x1 s a)
    (CC.apply_eosio_setcode sha256 validate_code bn t x2 s a).
Proof.
  intros Hf. unfold CC.apply_eosio_setcode. eapply (agree_bind eq); [destruct Hx as (b & _ & ->); apply agree_eq|intros ? ? _].
  do 3 agree_eq_step. case_match; [|apply agree_throw]. agree_eq_step. eapply agree_bind; [apply agree_eq|]. intros [cs o] ? <-.
  eapply agree_bind; [by apply charge_difference_same|]. intros u ? [<- Hu]. by apply agree_ret.
Qed.

Lemma setabi_agree s a : fixed m0 (CT.resources (CC.tables s)) ->
  agree same_code (CC.apply_eosio_setabi x1 s a) (CC.apply_eosio_setabi x2 s a).
Proof.
  intros Hf. unfold CC.apply_eosio_setabi. eapply (agree_bind eq); [destruct Hx as (b & _ & ->); apply agree_eq|intros ? ? _].
  do 2 (case_match; [|apply agree_throw]). eapply agree_bind; [by apply charge_difference_same|].
  intros u ? [<- Hu]. by apply agree_ret.
Qed.

End code.
End HandlerAgreement.
