(* ===== verification/ChainAgreement.v ===== *)
(** * Agreement on the whole state of the chain

    The host calls and the native handlers of [ChainHost] agree between the
    node of a producer and that of a validator, and so does the execution of a
    transaction. *)

From S2P Require Import Prelude Names Merkle ProducerSchedule Authority AuthorityChecker.
From S2P Require Import Accumulators ResourceLimits AuthorizationManager AuthActions AccessLists.
From S2P Require Import ChainConfig BlockHeaderState Transactions TransactionContext TableIndex.
From S2P Require Import ContractTables ActionExecution TransactionExecution ContractCode.
From S2P Require Import DeferredTransactions ChainHost ScheduledExecution.
From S2P Require Import Agreement TableAgreement ExecutionAgreement HandlerAgreement.

Module ChainAgreement.
Import DeferredTransactions ChainHost Agreement TableAgreement ExecutionAgreement HandlerAgreement.

(** ** NET usage

    The limits of the validator are not lowered by a greylist; without one
    they are those of the producer. *)
Record eager_covers (u1 u2 : TC.net_state) : Prop := {
  nc_usage : TC.net_usage u2 = TC.net_usage u1;
  nc_eager : TC.eager_net_limit u1 <= TC.eager_net_limit u2;
  nc_greylist : TC.net_limit_due_to_greylist u2 = false;
  nc_exact : TC.net_limit_due_to_greylist u1 = false ->
    TC.eager_net_limit u2 = TC.eager_net_limit u1 /\ TC.net_limit_due_to_block u2 = TC.net_limit_due_to_block u1;
}.
Record net_covers (u1 u2 : TC.net_state) : Prop := {
  nc_covers : eager_covers u1 u2;
  nc_limit : TC.net_limit u2 = TC.net_limit u1;
}.

Section chain.
Context {K Bytes : Type} `{Countable K}.
Abbreviation transaction := (TX.transaction Bytes).
Abbreviation world := (world K Bytes).
Abbreviation accounts_map := (gmap account_name AE.account_metadata).

(** ** The validator's node *)

Record validator_control (g1 g2 : @TC.controller K _ _) : Prop := {
  vc_time : TC.pending_block_time g2 = TC.pending_block_time g1;
  vc_skip : TC.skip_trx_checks g1 = false /\ TC.skip_trx_checks g2 = false;
  vc_producer : TC.is_producing_block g1 = true;
  vc_producing : TC.is_producing_block g2 = false;
  vc_first : TC.only_bill_first_authorizer g2 = TC.only_bill_first_authorizer g1;
  vc_config : TC.configuration g2 = TC.configuration g1;
  vc_summary : TC.block_summary g2 = TC.block_summary g1;
  vc_auth : unlisted (TC.auth_control g1) (TC.auth_control g2);
}.

Lemma check_net_usage_agree g1 g2 u1 u2 : validator_control g1 g2 -> eager_covers u1 u2 ->
  agree eq (TC.check_net_usage g1 u1) (TC.check_net_usage g2 u2).
Proof.
  intros VC [Eu He Hg Hx]. unfold TC.check_net_usage. destruct (vc_skip _ _ VC) as [-> ->]. cbn. rewrite Eu, Hg.
  destruct (TC.eager_net_limit u1 <? TC.net_usage u1) eqn:E1; bool_to_prop.
  - destruct (TC.net_limit_due_to_block u1) eqn:Eb; [by apply agree_subjective|].
    destruct (TC.net_limit_due_to_greylist u1) eqn:Eg; [by apply agree_subjective|].
    destruct (Hx eq_refl) as [-> ->]. rewrite (proj2 (Z.ltb_lt _ _) E1). apply agree_throw.
  - replace (_ <? _) with false by lia. by apply agree_ret.
Qed.

Lemma add_net_usage_agree g1 g2 u1 u2 z : validator_control g1 g2 -> net_covers u1 u2 ->
  agree net_covers (TC.add_net_usage g1 u1 z) (TC.add_net_usage g2 u2 z).
Proof.
  intros VC [[Eu He Hg Hx] El]. unfold TC.add_net_usage. rewrite Eu, El.
  match goal with |- agree _ (_ ≫= fun _ => mret ?p) (_ ≫= fun _ => mret ?q) => assert (net_covers p q) as Hc by (by split) end.
  eapply agree_bind; [apply check_net_usage_agree; [done|apply Hc]|]. intros ? ? _. by apply agree_ret.
Qed.

(** ** References to accounts *)

Lemma validate_authorization_agree (d : @AM.database K) en l1 l2 p :
  agree (fun _ _ => True) (TC.validate_authorization d en l1 p) (TC.validate_authorization d false l2 p).
Proof. unfold TC.validate_authorization. do 3 agree_eq_step. by apply agree_ret. Qed.

Lemma validate_referenced_agree g1 g2 (d : @AM.database K) b (t : transaction) en : validator_control g1 g2 ->
  agree eq (TC.validate_referenced_accounts g1 d b t en) (TC.validate_referenced_accounts g2 d b t false).
Proof.
  intros VC. unfold TC.validate_referenced_accounts. destruct (vc_skip _ _ VC) as [-> ->]. agree_eq_step.
  eapply (agree_bind (fun s1 s2 => s1.1 = s2.1)).
  - apply agree_foldM; [|done]. intros act [o l1] [o' l2] [= <-]. unfold TC.validate_action. agree_eq_step.
    eapply (agree_bind (fun _ _ => True)); [apply agree_foldM; [intros; apply validate_authorization_agree|done]|].
    intros ? ? _. by apply agree_ret.
  - intros [o l1] [o' l2] [= <-]. agree_eq_step. eapply agree_mono; [apply agree_check|intros [] [] _; done].
    destruct en; [|done]. apply actor_list_subjective.
Qed.

Record validator_node (n1 n2 : node K Bytes) : Prop := {
  vn_control : validator_control (trx_control n1) (trx_control n2);
  vn_duplicate : no_duplicate_deferred_id n2 = no_duplicate_deferred_id n1;
  vn_restrict : restrict_action_to_self n2 = restrict_action_to_self n1;
  vn_replace : replace_deferred n2 = replace_deferred n1;
  vn_skip_auth : skip_auth_check n2 = skip_auth_check n1;
  vn_head : head_block_id n2 = head_block_id n1;
}.

(** The transaction that both execute. *)
Record same_transaction (n1 n2 : node K Bytes) : Prop := {
  st_read_only : is_read_only n2 = is_read_only n1;
  st_trx : current_trx n2 = current_trx n1;
  st_delay : current_delay n2 = current_delay n1;
}.

(** RAM may be billed in notifications, and only the block producer limits
    the size of inline actions further. *)
Definition validator_runtime (y1 y2 : runtime Bytes) : Prop :=
  exists k, y2 = mk_runtime (forward_setcode y1) (action_return_value_activated y1) (ram_restrictions y1)
    true k (max_action_return_value_size y1) (next_block_num y1) (wasm y1) (hash_action y1)
    (generate_action_digest y1) (hash_receipt y1) (packed_size y1) (data_size y1).

Context (f : library K Bytes) (v : natives K Bytes) (y1 y2 : runtime Bytes) (Hy : validator_runtime y1 y2).
Context (n1 n2 : node K Bytes) (Hn : validator_node n1 n2) (Hst : same_transaction n1 n2).
Context (m0 : ResourceLimits.manager).
Abbreviation g1 := (trx_control n1).
Abbreviation g2 := (trx_control n2).
Abbreviation VC := (vn_control _ _ Hn).

(** The worlds differ in the NET usage only. *)
Definition same_world (w1 w2 : world) : Prop :=
  fixed m0 (CT.resources (tables w1)) /\ exists u, net_covers (net w1) u /\ w2 = set_net w1 u.
Abbreviation same_world_at := (related (W := world) same_world).


(** ** Deferred transactions *)

Lemma add_ram_world w1 w2 a d : same_world w1 w2 -> agree same_world (add_ram_usage w1 a d) (add_ram_usage w2 a d).
Proof.
  intros (Hf & u & Hu & ->). unfold add_ram_usage. eapply agree_bind; [by apply (add_ram_usage_same m0 (tables w1) (tables w1))|].
  intros s ? [<- Hs]. apply agree_ret. split; [done|]. by exists u.
Qed.

Lemma find_sender_world w1 w2 s i : same_world w1 w2 -> find_by_sender_id w2 s i = find_by_sender_id w1 s i.
Proof. by intros (_ & u & _ & ->). Qed.
Lemma find_trx_world w1 w2 i : same_world w1 w2 -> find_by_trx_id w2 i = find_by_trx_id w1 i.
Proof. by intros (_ & u & _ & ->). Qed.

Lemma remove_world w1 w2 o : same_world w1 w2 -> same_world (remove w1 o) (remove w2 o).
Proof. intros (Hf & u & Hu & ->). split; [done|]. by exists u. Qed.

Lemma create_at_agree w1 w2 tid s sid p d t : same_world w1 w2 ->
  agree same_world (create_at n1 w1 tid s sid p d t) (create_at n2 w2 tid s sid p d t).
Proof.
  intros Hw. unfold create_at, create. rewrite (vc_time _ _ VC), (vc_config _ _ VC).
  rewrite (find_trx_world _ _ _ Hw), (find_sender_world _ _ _ _ Hw). do 2 agree_eq_step. apply agree_ret.
  destruct Hw as (Hf & u & Hu & ->). split; [done|]. by exists u.
Qed.

Lemma prepare_deferred_same r sid t : prepare_deferred f n2 r sid t = prepare_deferred f n1 r sid t.
Proof.
  unfold prepare_deferred, check_generation_context.
  by rewrite (vn_duplicate _ _ Hn), (st_trx _ _ Hst), (vc_time _ _ VC), (vn_head _ _ Hn).
Qed.

Context (x1 x2 : CT.action_context) (Hx : relaxed x1 x2).

Lemma replace_or_create_agree w1 w2 sid p t b : same_world w1 w2 ->
  agree same_world (replace_or_create f n1 x1 w1 sid p t b) (replace_or_create f n2 x2 w2 sid p t b).
Proof.
  intros Hw. unfold replace_or_create. replace (CT.receiver x2) with (CT.receiver x1) by (by destruct Hx as (c & _ & ->)).
  rewrite (find_sender_world _ _ _ _ Hw), (vn_replace _ _ Hn), (vc_producing _ _ VC).
  destruct (find_by_sender_id w1 _ _) as [old|]; [|by apply create_at_agree]. agree_eq_step.
  eapply agree_bind; [apply agree_assert_subjective; [done|intros _; by rewrite orb_true_r]|intros ? ? _].
  eapply (agree_bind same_world); [agree_if; [by apply add_ram_world|]|intros u1 u2 Hu; by apply create_at_agree, remove_world].
  apply agree_ret. destruct Hw as (Hf & u & Hu & ->). split; [done|]. by exists u.
Qed.

(** The control of the validator checks authorizations in the same way. *)
Lemma check_authorization_same db (acts : list (@AM.action Bytes)) keys perms delay b c sat :
  AM.check_authorization (as_updateauth f) (as_deleteauth f) (as_linkauth f) (as_unlinkauth f)
    (as_canceldelay f) (TC.auth_control g2) db acts keys perms delay b c sat
  = AM.check_authorization (as_updateauth f) (as_deleteauth f) (as_linkauth f) (as_unlinkauth f)
      (as_canceldelay f) (TC.auth_control g1) db acts keys perms delay b c sat.
Proof. by destruct (vc_auth _ _ VC) as [l ->]. Qed.

Lemma check_deferred_authorization_agree w1 w2 t : same_world w1 w2 ->
  agree eq (check_deferred_authorization f n1 x1 w1 t) (check_deferred_authorization f n2 x2 w2 t).
Proof.
  intros (_ & u & _ & ->). unfold check_deferred_authorization. change (auth_view (set_net w1 u)) with (auth_view w1).
  rewrite check_authorization_same, (vn_restrict _ _ Hn), (vc_producing _ _ VC).
  replace (CT.receiver x2) with (CT.receiver x1) by (by destruct Hx as (c & _ & ->)).
  destruct (AM.check_authorization _ _ _ _ _ _ _ _ _ _ _ _ _ _); [by apply agree_ret|].
  agree_if; [apply agree_throw|]. destruct (TC.is_producing_block g1); [by apply agree_subjective|by apply agree_ret].
Qed.

Lemma schedule_deferred_agree w1 w2 sid p t b : same_world w1 w2 ->
  agree same_world (schedule_deferred_transaction f n1 x1 w1 sid p t b) (schedule_deferred_transaction f n2 x2 w2 sid p t b).
Proof.
  intros Hw. unfold schedule_deferred_transaction. agree_eq_step. rewrite (vc_producing _ _ VC), andb_false_r, (st_read_only _ _ Hst).
  eapply agree_bind; [destruct Hw as (_ & u & _ & ->); apply (validate_referenced_agree _ _ _ _ _ _ VC)|intros ? ? _].
  replace (CT.receiver x2) with (CT.receiver x1) by (by destruct Hx as (c & _ & ->)).
  rewrite prepare_deferred_same, (vc_config _ _ VC), (vn_skip_auth _ _ Hn). agree_eq_step. rename a into t'.
  eapply agree_bind; [apply (add_net_usage_agree _ _ _ _ _ VC); by destruct Hw as (_ & u & Hu & ->)|]. intros u1 u2 Hu.
  assert (same_world (set_net w1 u1) (set_net w2 u2)) as Hw'.
  { destruct Hw as (Hf & u & _ & ->). split; [done|]. by exists u2. }
  replace (CT.privileged x2) with (CT.privileged x1) by (by destruct Hx as (c & _ & ->)).
  eapply (agree_bind (@eq unit)).
  { agree_if; [|by apply agree_ret]. eapply (agree_bind eq); [destruct Hx as (c & _ & ->); apply agree_eq|intros ? ? _].
    by apply check_deferred_authorization_agree. }
  intros ? ? _. eapply agree_bind; [by apply replace_or_create_agree|]. intros v1 v2 Hv.
  eapply agree_bind; [apply agree_assert_subjective; [done|]|intros ? ? _; by apply add_ram_world].
  destruct Hx as (c & Hc & ->). cbn. destruct (CT.ram_restrictions x1); [done|]. cbn.
  destruct (CT.is_ram_billing_in_notify_allowed x1); [by rewrite Hc|]. destruct c; [done|]. done.
Qed.

Lemma cancel_deferred_agree w1 w2 sid s : same_world w1 w2 ->
  agree same_world_at (cancel_deferred_transaction f w1 sid s) (cancel_deferred_transaction f w2 sid s).
Proof.
  intros Hw. unfold cancel_deferred_transaction. rewrite (find_sender_world _ _ _ _ Hw).
  destruct (find_by_sender_id w1 s sid) as [o|]; [|by apply agree_ret].
  eapply agree_bind; [by apply add_ram_world|]. intros u1 u2 Hu. apply agree_ret. split; [done|by apply remove_world].
Qed.

Lemma canceldelay_agree w1 w2 c : same_world w1 w2 ->
  agree same_world (apply_eosio_canceldelay f x1 w1 c) (apply_eosio_canceldelay f x2 w2 c).
Proof.
  intros Hw. unfold apply_eosio_canceldelay. eapply (agree_bind eq); [destruct Hx as (b & _ & ->); apply agree_eq|intros ? ? _].
  eapply agree_bind; [by apply cancel_deferred_agree|]. intros [b3 u1] [b4 u2] [_ Hu]. by apply agree_ret.
Qed.

(** ** The host *)

Lemma call_chain_agree w1 w2 c : same_world w1 w2 ->
  agree same_world_at (call_chain f v n1 x1 w1 c) (call_chain f v n2 x2 w2 c).
Proof.
  intros Hw. unfold call_chain. destruct c as [c Hcall|sid p t b|sid].
  - destruct Hw as (Hf & u & Hu & ->). cbn [tables set_net]. eapply agree_bind; [by apply (call_api_agree m0 x1 x2 Hx)|].
    intros [r s] [r' s'] [[= <-] Hs]. cbn in Hs. destruct Hs as [<- Hs]. agree_eq_step. apply agree_ret. split; [done|].
    split; [done|]. by exists u.
  - eapply (agree_bind eq); [destruct Hx as (c & _ & ->); apply agree_eq|intros ? ? _].
    eapply agree_bind; [by apply schedule_deferred_agree|]. intros u1 u2 Hu. by apply agree_ret.
  - eapply (agree_bind eq); [destruct Hx as (c & _ & ->); apply agree_eq|intros ? ? _].
    replace (CT.receiver x2) with (CT.receiver x1) by (by destruct Hx as (c & _ & ->)).
    eapply agree_bind; [by apply cancel_deferred_agree|]. intros [b3 u1] [b4 u2] [[= <-] Hu]. by apply agree_ret.
Qed.

End chain.

(** ** Native actions *)

Section native.
Context {K Bytes : Type} `{Countable K}.
Abbreviation world := (world K Bytes).
Abbreviation accounts_map := (gmap account_name AE.account_metadata).
Context (f : library K Bytes) (v : natives K Bytes) (y1 y2 : runtime Bytes) (Hy : validator_runtime y1 y2).
Context (n1 n2 : node K Bytes) (Hn : validator_node n1 n2) (Hst : same_transaction n1 n2).
Context (m0 : ResourceLimits.manager).
Abbreviation same_world := (same_world m0).
Abbreviation related_state := (related (A := accounts_map) same_world).

Lemma native_context_relaxed x : relaxed (native_context y1 x) (native_context y2 x).
Proof. destruct Hy as [k ->]. by exists true. Qed.

Lemma on_auth_agree h1 h2 x (l : accounts_map) (w1 w2 : world) : same_world w1 w2 ->
  (forall d auths, fixed m0 (AM.resources d) -> agree (same_db m0) (h1 d auths) (h2 d auths)) ->
  agree related_state (on_auth h1 x (l, w1)) (on_auth h2 x (l, w2)).
Proof.
  intros (Hf & u & Hu & ->) Hh. unfold on_auth. cbn [fst snd]. change (auth_database l (set_net w1 u)) with (auth_database l w1).
  eapply agree_bind; [by apply Hh|]. intros d ? [<- Hd]. apply agree_ret. split; [done|]. split; [done|]. by exists u.
Qed.

Lemma on_code_agree h1 h2 (l : accounts_map) (w1 w2 : world) : same_world w1 w2 ->
  (forall c, fixed m0 (CT.resources (CC.tables c)) -> agree (same_code m0) (h1 c) (h2 c)) ->
  agree related_state (on_code h1 (l, w1)) (on_code h2 (l, w2)).
Proof.
  intros (Hf & u & Hu & ->) Hh. unfold on_code. cbn [fst snd]. cbn [ledger tables set_net].
  eapply agree_bind; [by apply Hh|]. intros c ? [<- Hc]. apply agree_ret. split; [done|]. split; [done|]. by exists u.
Qed.

Lemma handlers_agree : Forall2 (fun e1 e2 => e1.1 = e2.1 /\
    forall x l w1 w2, same_world w1 w2 -> agree related_state (e1.2 x (l, w1)) (e2.2 x (l, w2)))
  (apply_handlers f v y1 n1) (apply_handlers f v y2 n2).
Proof.
  pose proof (vc_auth _ _ (vn_control _ _ Hn)) as Hc. pose proof (vc_time _ _ (vn_control _ _ Hn)) as Ht.
  unfold apply_handlers. repeat constructor; cbn [snd]; intros x l w1 w2 Hw.
  - unfold handle_newaccount. agree_eq_step. eapply agree_bind; [apply (on_auth_agree _ _ _ _ w1 w2 Hw)|].
    + intros d auths Hd. by apply newaccount_agree.
    + intros [l1 u1] [l2 u2] [[= <-] Hu]. cbn in Hu. apply agree_ret. destruct Hu as (Hf & u & Hu & ->). split; [done|]. split; [done|]. by exists u.
  - unfold handle_setcode. agree_eq_step. rewrite Ht. replace (next_block_num y2) with (next_block_num y1) by (by destruct Hy as [k ->]). apply (on_code_agree _ _ _ w1 w2 Hw).
    intros c Hcf. apply setcode_agree; [apply native_context_relaxed|done].
  - unfold handle_setabi. agree_eq_step. apply (on_code_agree _ _ _ w1 w2 Hw). intros c Hcf. apply setabi_agree; [apply native_context_relaxed|done].
  - unfold handle_updateauth. agree_eq_step. apply (on_auth_agree _ _ _ _ w1 w2 Hw). intros d auths Hd. by apply updateauth_agree.
  - unfold handle_deleteauth. agree_eq_step. apply (on_auth_agree _ _ _ _ w1 w2 Hw). intros d auths Hd. by apply deleteauth_agree.
  - unfold handle_linkauth. agree_eq_step. apply (on_auth_agree _ _ _ _ w1 w2 Hw). intros d auths Hd. by apply linkauth_agree.
  - unfold handle_unlinkauth. agree_eq_step. apply (on_auth_agree _ _ _ _ w1 w2 Hw). intros d auths Hd. by apply unlinkauth_agree.
  - unfold handle_canceldelay. agree_eq_step. eapply agree_bind; [apply (canceldelay_agree f m0 _ _ (native_context_relaxed x) w1 w2 _ Hw)|].
    intros u1 u2 Hu. by apply agree_ret.
Qed.

Lemma native_handler_agree nm : match native_handler f v y1 n1 nm, native_handler f v y2 n2 nm with
  | Some k1, Some k2 => forall x l w1 w2, same_world w1 w2 -> agree related_state (k1 x (l, w1)) (k2 x (l, w2))
  | None, None => True
  | _, _ => False
  end.
Proof.
  unfold native_handler. induction handlers_agree as [|[a1 k1] [a2 k2] l1 l2 [Ea Hk] _ IH]; [done|]. cbn in Ea, Hk. subst a2.
  cbn [list_find]. cbn [fst]. destruct (decide (a1 = nm)); [done|].
  revert IH. match goal with |- context [@list_find ?A ?P ?D l1] => destruct (@list_find A P D l1) as [[i1 [b1 j1]]|] end;
  match goal with |- context [@list_find ?A ?P ?D l2] => destruct (@list_find A P D l2) as [[i2 [b2 j2]]|] end; intros IH; exact IH.
Qed.

(** ** Execution *)

Lemma environment_validated published : validated (chain_host f v n1) (chain_host f v n2)
  (environment_of f v y1 n1 published) (environment_of f v y2 n2 published) same_world.
Proof.
  pose proof (vn_control _ _ Hn) as Hc.
  split; unfold environment_of, controller_of; cbn [AE.control AE.skip_trx_checks AE.skip_auth_check AE.is_producing_block
    AE.is_read_only AE.forward_setcode AE.restrict_action_to_self AE.action_return_value_activated AE.ram_restrictions
    AE.is_ram_billing_in_notify_allowed AE.max_inline_action_depth AE.max_inline_action_size AE.max_action_return_value_size
    AE.wasm AE.hash_action AE.generate_action_digest AE.hash_receipt AE.packed_size AE.data_size];
    try (by destruct Hy as [k ->]).
  - by destruct (vc_skip _ _ Hc) as [-> ->].
  - apply (vn_skip_auth _ _ Hn).
  - apply (vc_producing _ _ Hc).
  - apply (st_read_only _ _ Hst).
  - apply (vn_restrict _ _ Hn).
  - by rewrite (vc_config _ _ Hc).
  - by rewrite (vc_config _ _ Hc).
  - intros. cbn. rewrite (vc_time _ _ Hc). by apply check_authorization_same.
  - intros nm. cbn. apply native_handler_agree.
  - intros x1 x2 w1 w2 c Hx Hw. by apply call_chain_agree.
  - intros w1 w2 (Hf & u & Hu & ->). split; [done|]. by exists u.
  - intros w1 w2 (Hf & u & Hu & ->). split; [done|]. by exists u.
  - intros x1 x2 w1 w2 Hx (Hf & u & Hu & ->). by apply (check_ram_deltas_agree m0 x1 x2 Hx (tables w1) (tables w1)).
  - by intros w1 w2 (Hf & u & Hu & ->).
Qed.

Lemma begin_matches (w1 w2 : world) : same_world w1 w2 ->
  matches same_world (begin_transaction w1) (begin_transaction w2).
Proof. intros Hw. exists w2. split; [done|]. by destruct Hw as (_ & u & _ & ->). Qed.

Lemma end_matches (t1 t2 : AE.transaction_state Bytes world) : matches same_world t1 t2 ->
  same_world (end_transaction t1) (end_transaction t2).
Proof. intros (w & (Hf & u & Hu & ->) & ->). split; [done|]. by exists u. Qed.

Lemma exec_agree cf published (w1 w2 : world) : same_world w1 w2 ->
  agree same_world (exec f v y1 n1 cf published w1) (exec f v y2 n2 cf published w2).
Proof.
  intros Hw. unfold exec. rewrite (st_trx _ _ Hst), (st_delay _ _ Hst).
  eapply agree_bind; [apply exec_transaction_agree; [apply environment_validated|by apply begin_matches]|].
  intros t1 t2 Ht. apply end_matches in Ht. set (u1 := end_transaction t1) in *. set (u2 := end_transaction t2) in *.
  agree_if; [by apply agree_ret|]. unfold schedule_transaction. rewrite (st_trx _ _ Hst), (st_delay _ _ Hst), (vc_config _ _ (vn_control _ _ Hn)).
  eapply (agree_bind same_world).
  - agree_if; [|by apply agree_ret]. eapply agree_bind; [apply (add_net_usage_agree _ _ _ _ _ (vn_control _ _ Hn)); by destruct Ht as (_ & u & Hu & ->)|].
    intros a1 a2 Ha. apply agree_ret. destruct Ht as (Hf & u & _ & ->). split; [done|]. by exists a2.
  - intros a1 a2 Ha. eapply agree_bind; [by apply create_at_agree|]. intros b1 b2 (Hf & u & Hu & ->).
    unfold trx_add_ram_usage. cbn [tables set_net].
    eapply agree_bind; [apply (agree_same (fun r => fixed m0 r)); intros r Hr; by eapply add_pending_ram_fixed|].
    intros r ? [<- Hr]. apply agree_ret. split; [done|]. by exists u.
Qed.

Lemma exec_onerror_agree sender published (w1 w2 : world) : same_world w1 w2 ->
  agree same_world (exec_onerror f v y1 n1 sender published w1) (exec_onerror f v y2 n2 sender published w2).
Proof.
  intros Hw. unfold exec_onerror. rewrite (st_trx _ _ Hst), (vc_config _ _ (vn_control _ _ Hn)).
  destruct (last _) as [a|]; [|apply agree_throw].
  pose proof (schedule_action_matches _ _ _ a sender false 0 0 (begin_matches _ _ Hw)) as Hs.
  destruct (AE.schedule_action (begin_transaction w1) _ _ _ _ _) as [o t1], (AE.schedule_action (begin_transaction w2) _ _ _ _ _) as [o' t2].
  destruct Hs as [[= <-] Ht]. cbn in Ht. eapply agree_bind; [apply execute_action_agree; [apply environment_validated|exact Ht]|].
  intros u1 u2 Hu. apply agree_ret. by apply end_matches.
Qed.

End native.
End ChainAgreement.
