(* ===== verification/ContextAgreement.v ===== *)
(** * Agreement on the limits and the billing of a transaction

    The producer measures the CPU time and applies its greylist; the validator
    takes the CPU time from the receipt and applies the limits of the chain.
    A transaction that passes the checks of the producer passes those of the
    validator and is billed the same. *)

From S2P Require Import Prelude Names Merkle ProducerSchedule Authority AuthorityChecker.
From S2P Require Import Accumulators ResourceLimits AuthorizationManager AuthActions AccessLists.
From S2P Require Import ChainConfig BlockHeaderState Transactions TransactionContext TransactionBilling TableIndex.
From S2P Require Import ContractTables ActionExecution ContractCode DeferredTransactions ChainHost.
From S2P Require Import ScheduledExecution Agreement TableAgreement ExecutionAgreement.
From S2P Require Import HandlerAgreement ChainAgreement.

Module ContextAgreement.
Import Accumulator TransactionBilling DeferredTransactions ScheduledExecution Agreement TableAgreement ChainAgreement.

(** ** The limit of an account *)

Lemma max_use_bounds cap weight total : 0 <= cap -> 0 <= weight -> 0 < total -> total < 2 ^ 64 ->
  cap * weight < 2 ^ 63 * total -> 0 <= RL.max_use_in_window cap weight total < 2 ^ 63 /\
  RL.max_use_in_window cap weight total = cap * weight / total.
Proof.
  intros Hc Hw Ht Hl Hb. unfold RL.max_use_in_window. rewrite u128_small by nia. split; [|done].
  split; [apply Z.div_pos; nia|]. apply Z.div_lt_upper_bound; lia.
Qed.

(** What a greylist changes. *)
Record limits_more (r1 r2 : RL.account_resource_limit * bool) : Prop := {
  lm_listed : r2.2 = false;
  lm_more : RL.available r1.1 <= RL.available r2.1;
  lm_exact : r1.2 = false -> RL.available r1.1 = RL.available r2.1;
  lm_sign : RL.available r1.1 < 0 <-> RL.available r2.1 < 0;
}.

Lemma account_limit_agree acc weight total v pmax w gl : capacity_fits total v w ->
  share_fits weight total v w ->
  agree limits_more (RL.account_limit_ex acc weight total v pmax w gl None)
    (RL.account_limit_ex acc weight total v pmax w RL.maximum_elastic_resource_multiplier None).
Proof.
  intros (Ht & Hv & Hw & Hcap) Hs. unfold RL.account_limit_ex. destruct ((weight <? 0) || (total =? 0)) eqn:E; [by apply agree_ret|].
  bool_to_prop. replace (RL.maximum_elastic_resource_multiplier <? RL.maximum_elastic_resource_multiplier) with false by done.
  cbn [andb]. set (gl1 := u64 (pmax * gl)). pose proof (u64_range (pmax * gl)) as Hg1. fold gl1 in Hg1.
  destruct ((gl <? RL.maximum_elastic_resource_multiplier) && (gl1 <? v)) eqn:Eg; cycle 1.
  { (* no greylist *)
    eapply (agree_bind eq); [apply agree_eq|]. intros av ? <-. do 3 agree_eq_step. apply agree_ret. by split. }
  bool_to_prop. set (used := integer_divide_ceil _ _).
  assert (v * w * weight < 2 ^ 63 * total) as Hfit by (destruct Hs as [?|[?|?]]; lia).
  assert (0 <= w * gl1 <= w * v) as Hm by nia.
  destruct (max_use_bounds (w * v) weight total) as [B2 E2]; [nia|lia..|nia|].
  destruct (max_use_bounds (w * gl1) weight total) as [B1 E1]; [nia|lia..|nia|].
  rewrite !u128_small by lia. rewrite E1, E2. rewrite E1 in B1. rewrite E2 in B2.
  assert (w * gl1 * weight / total <= w * v * weight / total) as Hle by (apply Z.div_le_mono; nia).
  set (M1 := w * gl1 * weight / total) in *. set (M2 := w * v * weight / total) in *.
  assert (forall z, 0 <= z < 2 ^ 63 -> downgrade_cast_s64 z = Ok z) as Hcast by (intros z Hz; by apply RL.downgrade_cast_s64_ok).
  assert (forall M, 0 <= M < 2 ^ 63 -> 0 <= used ->
    (if M <=? used then mret 0 else downgrade_cast_s64 (M - used)) = Ok (Z.max 0 (M - used))) as Hav.
  { intros M HM Hu. destruct (M <=? used) eqn:EM; bool_to_prop; [by rewrite Z.max_l by lia|]. rewrite Hcast, Z.max_r by lia. done. }
  assert (0 <= used) as Hu.
  { subst used. unfold integer_divide_ceil. pose proof (u128_range (value_ex acc * w)) as Hr.
    pose proof (Z.div_pos (u128 (value_ex acc * w)) rate_limiting_precision ltac:(lia) ltac:(done)). destruct (_ <? _); lia. }
  rewrite (Hav M1), (Hav M2) by lia. cbn [mbind result_bind]. agree_eq_step. rewrite !Hcast by lia. cbn [mbind result_bind].
  apply agree_ret. split; cbn; lia.
Qed.

Lemma get_limits_fit m a lim : shares_fit m -> RL.get_account_limits m a = Ok lim -> exists k, RL.limits m !! k = Some lim.
Proof.
  intros _. unfold RL.get_account_limits. destruct (RL.limits m !! (true, a)) as [l|] eqn:E; [intros [= <-]; by eexists|].
  intros Hr%RL.get_row_ok. by eexists.
Qed.

(** The limit that a query returns. *)
Definition query_more (r1 r2 : Z * bool) : Prop :=
  r2.2 = false /\ r1.1 <= r2.1 /\ (r1.2 = false -> r1.1 = r2.1) /\ (r1.1 < 0 <-> r2.1 < 0).

Lemma cpu_limit_agree m a gl : shares_fit m ->
  agree query_more (RL.get_account_cpu_limit m a gl)
    (RL.get_account_cpu_limit m a RL.maximum_elastic_resource_multiplier).
Proof.
  intros Hm. unfold RL.get_account_cpu_limit, RL.get_account_cpu_limit_ex. eapply (agree_bind limits_more).
  - agree_eq_step. eapply agree_bind; [apply (agree_same (fun lim => exists k, RL.limits m !! k = Some lim));
      intros lim Hl; by eapply get_limits_fit|]. intros lim ? [<- [k Hk]].
    apply account_limit_agree; [apply Hm|]. by destruct (sf_rows _ Hm _ _ Hk).
  - intros [l1 b1] [l2 b2] [H1 H2 H3 H4]. by apply agree_ret.
Qed.

Lemma net_limit_agree m a gl : shares_fit m ->
  agree query_more (RL.get_account_net_limit m a gl)
    (RL.get_account_net_limit m a RL.maximum_elastic_resource_multiplier).
Proof.
  intros Hm. unfold RL.get_account_net_limit, RL.get_account_net_limit_ex. eapply (agree_bind limits_more).
  - agree_eq_step. eapply agree_bind; [apply (agree_same (fun lim => exists k, RL.limits m !! k = Some lim));
      intros lim Hl; by eapply get_limits_fit|]. intros lim ? [<- [k Hk]].
    apply account_limit_agree; [apply Hm|]. by destruct (sf_rows _ Hm _ _ Hk).
  - intros [l1 b1] [l2 b2] [H1 H2 H3 H4]. by apply agree_ret.
Qed.

(** ** What the billed accounts can pay *)

Record pays_more (p1 p2 : TC.payable) : Prop := {
  pm_net : 0 <= TC.account_net_limit p1 <= TC.account_net_limit p2;
  pm_cpu : 0 <= TC.account_cpu_limit p1 <= TC.account_cpu_limit p2;
  pm_bound : TC.account_net_limit p2 <= TC.large_number_no_overflow /\
             TC.account_cpu_limit p2 <= TC.large_number_no_overflow;
  pm_listed : TC.greylisted_net p2 = false /\ TC.greylisted_cpu p2 = false;
  pm_net_exact : TC.greylisted_net p1 = false -> TC.account_net_limit p1 = TC.account_net_limit p2;
}.

Section context.
Context {K Bytes : Type} `{Countable K}.
Context (g1 g2 : @TC.controller K _ _) (Hg : validator_control g1 g2).

Lemma can_pay_agree m l : shares_fit m ->
  agree pays_more (TC.max_bandwidth_billed_accounts_can_pay g1 m l false)
    (TC.max_bandwidth_billed_accounts_can_pay g2 m l false).
Proof.
  intros Hm. unfold TC.max_bandwidth_billed_accounts_can_pay. eapply (agree_bind pays_more).
  - apply agree_foldM; [|split; cbn; unfold TC.large_number_no_overflow, INT64_MAX; lia || done].
    intros a p1 p2 [Hn Hc Hb Hl He]. unfold TC.account_can_pay.
    replace (TC.account_greylist_limit g2 false a) with RL.maximum_elastic_resource_multiplier
      by (unfold TC.account_greylist_limit; by rewrite (vc_producing _ _ Hg)).
    eapply agree_bind; [by apply net_limit_agree|]. intros [z1 b1] [z2 b2] (E1 & Hz & Hx & Hs). cbn in E1, Hz, Hx, Hs.
    eapply agree_bind; [by apply cpu_limit_agree|]. intros [c1 d1] [c2 d2] (E2 & Hd & Hy & Ht). cbn in E2, Hd, Hy, Ht. subst b2 d2.
    apply agree_ret. destruct (0 <=? z1) eqn:F1, (0 <=? z2) eqn:F2; try lia; destruct (0 <=? c1) eqn:F3, (0 <=? c2) eqn:F4; try lia;
      bool_to_prop; destruct Hl as [Hl1 Hl2]; split; cbn; rewrite ?Hl1, ?Hl2; try lia; try done;
      intros Hb1; try (apply orb_false_iff in Hb1 as [Hb1 Hb2]; rewrite Hx, He by done); try rewrite He by done; done.
  - intros p1 p2 Hp. rewrite (vc_producer _ _ Hg), (vc_producing _ _ Hg). destruct (pm_listed _ _ Hp) as [-> ->]. cbn.
    by apply agree_ret.
Qed.

(** ** The objective limit on the CPU time *)

Definition objective_limit (t : TX.transaction Bytes) (m : RL.manager) : Z :=
  (TC.initial_duration_limit g1 t m 0 block_cpu_usage_exceeded).1.1.

Lemma objective_limit_any t m start code :
  (TC.initial_duration_limit g1 t m start code).1.1 = objective_limit t m.
Proof. unfold objective_limit, TC.initial_duration_limit. by destruct (_ <=? _), (_ && _). Qed.

Lemma objective_limit_small t m : objective_limit t m <= ChainConfig.max_transaction_cpu_usage (TC.configuration g1).
Proof.
  unfold objective_limit, TC.initial_duration_limit. destruct (_ <=? _) eqn:E1, (_ && _) eqn:E2; cbn; bool_to_prop; lia.
Qed.

Lemma duration_code (t : TX.transaction Bytes) m start : let code := (TC.initial_duration_limit g1 t m start block_cpu_usage_exceeded).1.2 in
  code = block_cpu_usage_exceeded \/ code = tx_cpu_usage_exceeded.
Proof. cbn zeta. unfold TC.initial_duration_limit. destruct (_ <=? _), (_ && _); cbn; auto. Qed.

Lemma duration_limit_same (t : TX.transaction Bytes) m start code :
  TC.initial_duration_limit g2 t m start code = TC.initial_duration_limit g1 t m start code.
Proof. unfold TC.initial_duration_limit. by rewrite (vc_config _ _ Hg). Qed.

Lemma net_limit_same (t : TX.transaction Bytes) m b : TC.initial_net_limit g2 t m b = TC.initial_net_limit g1 t m b.
Proof. unfold TC.initial_net_limit. by rewrite (vc_config _ _ Hg). Qed.

Lemma touch_fits acc slot w acc' : wf acc -> value_ex acc < 2 ^ 63 -> consumed acc < 2 ^ 63 -> is_u32 slot ->
  0 < w < 2 ^ 32 -> add acc 0 slot w = Ok acc' -> wf acc' /\ value_ex acc' < 2 ^ 63 /\ consumed acc' < 2 ^ 63.
Proof.
  intros Ha Hv Hc Hs Hw H1. pose proof Ha as (? & ? & ?). apply add_exact in H1 as (Hwf & _ & _ & Ev & Ec); [|done..].
  pose proof (decayed_bounds (value_ex acc) (last_ordinal acc) slot w ltac:(lia) ltac:(lia)) as Hd.
  replace (ceil_div (0 * rate_limiting_precision) w) with 0 in Ev by (unfold ceil_div; by rewrite Z.mul_0_l, Z.div_0_l by lia).
  pose proof (average_small (decayed (value_ex acc) (last_ordinal acc) slot w) ltac:(lia)) as Hav.
  split; [done|]. split; [lia|]. rewrite Ec. pose proof max_raw_value_eq. destruct (_ =? _); lia.
Qed.

Lemma update_account_usage_fixed m0 m l slot m' : is_u32 slot -> RL.update_account_usage m l slot = Ok m' -> fixed m0 m -> fixed m0 m'.
Proof.
  intros Hs H1 Hf. unfold RL.update_account_usage in H1. eapply (foldM_inv _ (fixed m0)); [|exact Hf|exact H1].
  intros a u u' _ Hu H2. unfold RL.touch_account in H2. apply bind_ok_inv in H2 as (x & Hx%RL.get_row_ok & H2).
  apply bind_ok_inv in H2 as (y & _ & H2). apply bind_ok_inv in H2 as (z & Hz & [= <-]).
  eapply same_limits_fixed; [..|exact Hu]; try done. destruct Hu as (_ & _ & _ & Hu).
  destruct (uf_rows _ Hu _ _ Hx) as (W & V & C). pose proof (uf_window _ Hu).
  apply touch_fits in Hz as (? & ? & ?); [|done..]. by apply insert_usage_fits.
Qed.

(** ** [init] *)

(** The two contexts of a transaction after their initialization, of which the
    validator's is told the CPU time [b]. *)
Record related_contexts (m0 : RL.manager) (b : Z) (c1 c2 : @TC.context K Bytes) : Prop := {
  rc_trx : TC.trx (TC.opts c2) = TC.trx (TC.opts c1);
  rc_measured : TC.explicit_billed_cpu_time (TC.opts c1) = false;
  rc_explicit : TC.explicit_billed_cpu_time (TC.opts c2) = true;
  rc_billed : TC.billed_cpu_time_us (TC.cpu c2) = b;
  rc_initialized : TC.is_initialized c2 = TC.is_initialized c1;
  rc_input : TC.is_input c2 = TC.is_input c1;
  rc_cfa : TC.apply_context_free c2 = TC.apply_context_free c1;
  rc_published : TC.published c2 = TC.published c1;
  rc_bill : TC.bill_to_accounts c2 = TC.bill_to_accounts c1;
  rc_ram : TC.validate_ram_usage c2 = TC.validate_ram_usage c1;
  rc_net : net_covers (TC.net c1) (TC.net c2);
  rc_limit : TC.objective_duration_limit (TC.cpu c2) = TC.objective_duration_limit (TC.cpu c1);
  rc_unlisted : TC.cpu_limit_due_to_greylist (TC.cpu c2) = false;
  rc_small : TC.objective_duration_limit (TC.cpu c1)
             <= ChainConfig.max_transaction_cpu_usage (TC.configuration g1);
  rc_within : b <= 0 \/ b <= TC.objective_duration_limit (TC.cpu c1);
  rc_db : TC.db c2 = TC.db c1;
  rc_fixed : fixed m0 (TC.rl c1);
  rc_transactions : TC.transactions c2 = TC.transactions c1;
}.

(** The parameters of the chain have their widths. *)
Record config_fits : Prop := {
  cf_leeway : is_u32 (ChainConfig.net_usage_leeway (TC.configuration g1));
  cf_cpu : is_u32 (ChainConfig.max_transaction_cpu_usage (TC.configuration g1));
  cf_min : 0 <= ChainConfig.min_transaction_cpu_usage (TC.configuration g1);
}.
Hypothesis Hcf : config_fits.

(** The exceptions of the limits on the CPU time are the producer's. *)
Lemma cpu_exception_subjective (p : TC.cpu_state) a : subjective (TC.cpu_limit_and_exception p a).2 = true.
Proof. unfold TC.cpu_limit_and_exception. repeat case_match; done. Qed.

Lemma validate_cpu_subjective g p b a e : TC.validate_account_cpu_usage (K := K) g p b a = Throw e -> subjective e = true.
Proof.
  unfold TC.validate_account_cpu_usage. destruct (_ && _); [|done]. pose proof (cpu_exception_subjective p a) as Hs.
  destruct (TC.cpu_limit_and_exception p a) as [l x]. by intros [_ <-]%EOS_ASSERT_throw.
Qed.

Lemma estimate_subjective g p b a e : TC.validate_account_cpu_usage_estimate (K := K) g p b a = Throw e -> subjective e = true.
Proof.
  unfold TC.validate_account_cpu_usage_estimate. destruct (_ && _); [|done]. pose proof (cpu_exception_subjective p a) as Hs.
  destruct (TC.cpu_limit_and_exception p a) as [l x]. by intros [_ <-]%EOS_ASSERT_throw.
Qed.

Definition deadline_code (x : chain_exception) : Prop :=
  x = deadline_exception \/ x = block_cpu_usage_exceeded \/ x = tx_cpu_usage_exceeded \/ x = leeway_deadline_exception.

Lemma checktime_subjective (c : @TC.context K Bytes) b e :
  deadline_code (TC.deadline_exception_code (TC.timer c)) -> TC.checktime c b = Throw e -> subjective e = true.
Proof.
  intros Hc. unfold TC.checktime. destruct (negb b); [done|]. destruct (_ || _) eqn:E; [by intros [= <-]|].
  apply orb_false_iff in E as [_ E]. bool_to_prop. destruct (decide _); [by intros [= <-]|].
  destruct (decide _); [destruct (TC.cpu_limit_due_to_greylist _); by intros [= <-]|].
  destruct (decide _); [by intros [= <-]|]. destruct Hc as [?|[?|[?|?]]]; done.
Qed.

Lemma limit_deadline_code (o : @TC.options Bytes) a bd d code : deadline_code code ->
  deadline_code (TC.limit_deadline o a bd d code).2.
Proof. intros Hc. unfold TC.limit_deadline, deadline_code in *. repeat case_match; cbn; simplify_eq; auto 10. Qed.

(** The time of the receipt is within the objective limit. *)
Lemma validate_explicit p b : TC.objective_duration_limit p <= ChainConfig.max_transaction_cpu_usage (TC.configuration g1) ->
  b <= 0 \/ b <= TC.objective_duration_limit p ->
  TC.validate_cpu_usage_to_bill g2 p b INT64_MAX false = Ok tt.
Proof.
  intros Hs Hb. pose proof (cf_cpu Hcf) as Hw. unfold TC.validate_cpu_usage_to_bill, TC.validate_account_cpu_usage.
  destruct (vc_skip _ _ Hg) as [_ ->]. cbn. destruct (0 <? b) eqn:E; [|done]. cbn. bool_to_prop.
  unfold TC.cpu_limit_and_exception. replace (INT64_MAX <=? TC.objective_duration_limit p) with false by (unfold INT64_MAX; lia).
  cbn. rewrite andb_false_r. destruct (bool_decide _); cbn; by replace (b <=? _) with true by lia.
Qed.

Lemma eager_limit_agree p1 p2 nl due : pays_more p1 p2 ->
  let e p := Z.min nl (u64 (s64 (TC.account_net_limit p + ChainConfig.net_usage_leeway (TC.configuration g1)))) in
  let r p := if e p <? nl then (e p, false) else (nl, due) in
  (r p1).1 <= (r p2).1 /\ (TC.greylisted_net p1 = false -> r p2 = r p1).
Proof.
  intros [Hn _ [Hb _] _ He] e r. pose proof (cf_leeway Hcf) as Hl. change TC.large_number_no_overflow with (2 ^ 62 - 1) in Hb.
  assert (forall p, 0 <= TC.account_net_limit p <= 2 ^ 62 -> e p = Z.min nl (TC.account_net_limit p + ChainConfig.net_usage_leeway (TC.configuration g1))) as Ee.
  { intros p Hp. subst e. cbn beta. by rewrite s64_small, u64_small by lia. }
  subst r. cbn beta. rewrite (Ee p1), (Ee p2) by lia. split.
  - destruct (_ <? nl) eqn:E1, (Z.min nl (TC.account_net_limit p2 + _) <? nl) eqn:E2; bool_to_prop; cbn; lia.
  - intros Hl1. by rewrite He.
Qed.

Lemma div8_mono a b : a <= b -> a / 8 * 8 <= b / 8 * 8.
Proof. intros Hab. pose proof (Z.div_le_mono a b 8). lia. Qed.

Lemma start_net_agree u1 u2 usage : net_covers u1 u2 ->
  agree net_covers (if 0 <? usage then TC.add_net_usage g1 u1 usage else mret u1)
    (if 0 <? usage then TC.add_net_usage g2 u2 usage else mret u2).
Proof. intros Hu. destruct (0 <? usage); [by apply add_net_usage_agree|by apply agree_ret]. Qed.

Lemma init_agree m0 (o1 o2 : @TC.options Bytes) dl b1 b2 d ts i cfa pub usage now1 now2 :
  TC.trx o2 = TC.trx o1 -> TC.explicit_billed_cpu_time o1 = false -> TC.explicit_billed_cpu_time o2 = true ->
  TC.timer_start_expired (s64 (TC.start o2 + TC.far_deadline)) now2 = false ->
  fixed m0 (AM.resources d) -> b2 <= 0 \/ b2 <= objective_limit (TC.trx o1) (AM.resources d) ->
  agree (related_contexts m0 b2)
    (TC.init g1 (TC.set_entry (TC.new_context o1 dl b1 d ts) i cfa pub) usage now1)
    (TC.init g2 (TC.set_entry (TC.new_context o2 TC.time_point_maximum b2 d ts) i cfa pub) usage now2).
Proof.
  intros Et Ex Ee Hnow Hf Hb. unfold TC.init.
  cbn [TC.opts TC.set_entry TC.new_context TC.is_initialized TC.timer TC.block_deadline TC.net TC.cpu TC.net_limit_due_to_block
       TC.billing_timer_exception_code TC.cpu_limit_due_to_greylist TC.billed_cpu_time_us TC.bill_to_accounts TC.net_limit_due_to_greylist
       TC.net_usage TC.is_input TC.apply_context_free TC.published TC.validate_ram_usage TC.pseudo_start TC.billed_time TC.paused_time
       TC.db TC.transactions negb orb].
  unfold TC.rl. cbn [TC.db TC.set_entry TC.new_context].
  rewrite Et, Ex, Ee, net_limit_same, duration_limit_same, (vc_time _ _ Hg), (vc_config _ _ Hg).
  replace (TC.time_point_maximum =? TC.time_point_maximum) with true by done.
  agree_eq_step. destruct (TC.initial_net_limit g1 _ _ _) as [nl due].
  pose proof (objective_limit_any (TC.trx o1) (AM.resources d) (TC.start o1) block_cpu_usage_exceeded) as L1.
  pose proof (objective_limit_any (TC.trx o1) (AM.resources d) (TC.start o2) block_cpu_usage_exceeded) as L2.
  pose proof (duration_code (TC.trx o1) (AM.resources d) (TC.start o1)) as Hcode.
  pose proof (objective_limit_small (TC.trx o1) (AM.resources d)) as Hsmall.
  destruct (TC.initial_duration_limit g1 _ _ (TC.start o1) _) as [[dur1 code1] dead1].
  destruct (TC.initial_duration_limit g1 _ _ (TC.start o2) _) as [[dur2 code2] dead2]. cbn in L1, L2, Hcode. subst dur1 dur2.
  set (lim := objective_limit (TC.trx o1) (AM.resources d)) in *.
  eapply (agree_bind (fun _ (_ : unit) => True)).
  { rewrite validate_explicit by done. by apply agree_check. }
  intros _ _ _. replace (TC.accounts_to_bill g2 (TC.trx o1) []) with (TC.accounts_to_bill g1 (TC.trx o1) [])
    by (unfold TC.accounts_to_bill; by rewrite (vc_first _ _ Hg)).
  eapply agree_bind; [apply (agree_same (fixed m0)); intros m Hm; by eapply update_account_usage_fixed; [apply (slot_range g1)|..]|].
  intros m ? [<- Hm]. eapply agree_bind; [apply can_pay_agree; apply Hm|]. intros p1 p2 Hp.
  destruct (eager_limit_agree p1 p2 nl due Hp) as [Hle Hex]. cbn beta zeta in Hle, Hex.
  destruct (if _ <? nl then _ else _) as [eager1 due1]; destruct (if _ <? nl then _ else _) as [eager2 due2]. cbn in Hle.
  pose proof (limit_deadline_code o1 (TC.account_cpu_limit p1)
    (if dl =? TC.time_point_maximum then s64 (TC.start o1 + TC.far_deadline) else dl) dead1 code1) as Hdl.
  destruct (TC.limit_deadline o1 _ _ _ _) as [end1 billing1]. destruct (TC.limit_deadline o2 _ _ _ _) as [end2 billing2].
  destruct (vc_skip _ _ Hg) as [S1 S2]. rewrite S1, S2. cbn [negb].
  eapply (agree_bind (fun _ (_ : unit) => True)).
  { apply agree_check. apply estimate_subjective. }
  intros _ _ _. eapply (agree_bind net_covers).
  { apply start_net_agree. destruct (pm_listed _ _ Hp) as [G2 _]. split; [|done]. split; cbn; try done; [by apply div8_mono|].
    intros Hl1. by injection (Hex Hl1) as -> ->. }
  intros u1 u2 Hu. eapply (agree_bind (fun _ (_ : unit) => True)).
  { unfold TC.checktime at 2. rewrite Hnow. apply agree_check. intros e He. eapply checktime_subjective; [|exact He].
    apply Hdl. unfold deadline_code. destruct Hcode; auto. }
  intros _ _ _. apply agree_ret. split; try done. apply (pm_listed _ _ Hp).
Qed.

(** ** The entry points *)

(** A producer that sees extensions keeps the transaction to itself. *)
Lemma extensions_agree b : agree (@eq unit) (EOS_ASSERT b (TC.disallow_transaction_extensions g1))
  (EOS_ASSERT b (TC.disallow_transaction_extensions g2)).
Proof.
  destruct b; [by apply agree_ret|]. apply agree_subjective. unfold TC.disallow_transaction_extensions.
  by rewrite (vc_producer _ _ Hg).
Qed.

Section entry.
Context (m0 : RL.manager) (o1 o2 : @TC.options Bytes) (dl b1 b2 : Z) (d : @AM.database K) (ts : list (Z * Z)).
Context (now1 now2 : Z).
Abbreviation ctx1 := (TC.new_context o1 dl b1 d ts).
Abbreviation ctx2 := (TC.new_context o2 TC.time_point_maximum b2 d ts).
Hypothesis Et : TC.trx o2 = TC.trx o1.
Hypothesis Hm : TC.explicit_billed_cpu_time o1 = false.
Hypothesis Hx : TC.explicit_billed_cpu_time o2 = true.
Hypothesis Hnow : TC.timer_start_expired (s64 (TC.start o2 + TC.far_deadline)) now2 = false.
Hypothesis Hf : fixed m0 (AM.resources d).
Hypothesis Hb : b2 <= 0 \/ b2 <= objective_limit (TC.trx o1) (AM.resources d).

Lemma init_for_implicit_agree usage : agree (related_contexts m0 b2)
  (TC.init_for_implicit_trx g1 ctx1 usage now1) (TC.init_for_implicit_trx g2 ctx2 usage now2).
Proof.
  unfold TC.init_for_implicit_trx. cbn [TC.opts TC.new_context]. rewrite Et. eapply agree_bind; [apply extensions_agree|].
  intros _ _ _. rewrite (vc_time _ _ Hg). by apply init_agree.
Qed.

Lemma init_for_deferred_agree p : agree (related_contexts m0 b2)
  (TC.init_for_deferred_trx g1 ctx1 p now1) (TC.init_for_deferred_trx g2 ctx2 p now2).
Proof.
  unfold TC.init_for_deferred_trx. cbn [TC.opts TC.new_context]. rewrite Et. eapply agree_bind; [apply extensions_agree|].
  intros _ _ _. by apply init_agree.
Qed.

Lemma set_transactions_related c1 c2 r : related_contexts m0 b2 c1 c2 ->
  related_contexts m0 b2 (TC.set_transactions c1 r) (TC.set_transactions c2 r).
Proof. intros []. by split. Qed.

Lemma init_for_input_agree e id unprunable prunable skip : TC.is_read_only o2 = TC.is_read_only o1 ->
  agree (related_contexts m0 b2) (TC.init_for_input_trx g1 e id ctx1 unprunable prunable skip now1)
    (TC.init_for_input_trx g2 e id ctx2 unprunable prunable skip now2).
Proof.
  intros Er. unfold TC.init_for_input_trx. cbn [TC.opts TC.new_context TC.db]. rewrite Et, Er.
  destruct (vc_skip _ _ Hg) as [S1 S2]. rewrite S1, S2.
  eapply agree_bind; [apply extensions_agree|]. intros _ _ _. eapply (agree_bind (@eq unit)).
  { unfold TC.validate_expiration, TC.validate_tapos. rewrite (vc_time _ _ Hg), (vc_config _ _ Hg), (vc_summary _ _ Hg).
    do 2 agree_eq_step. rewrite (vc_producing _ _ Hg), andb_false_r. by apply validate_referenced_agree. }
  intros _ _ _. eapply agree_bind.
  { unfold TC.initial_net_usage, TC.discounted_size_for_pruned_data. rewrite (vc_time _ _ Hg), (vc_config _ _ Hg). by apply init_agree. }
  intros c1 c2 Hc. destruct skip; [by apply agree_ret|]. rewrite (rc_transactions _ _ _ _ Hc). agree_eq_step.
  apply agree_ret. by apply set_transactions_related.
Qed.
End entry.

(** The limit of a context that the producer has initialized. *)
Definition limited_by (o : @TC.options Bytes) (d : @AM.database K) (c : @TC.context K Bytes) : Prop :=
  TC.objective_duration_limit (TC.cpu c) = objective_limit (TC.trx o) (AM.resources d) /\ TC.opts c = o /\
  TC.bill_to_accounts c = TC.accounts_to_bill g1 (TC.trx o) [].

Lemma init_limited o dl b d ts i cfa pub usage now c :
  TC.init g1 (TC.set_entry (TC.new_context o dl b d ts) i cfa pub) usage now = Ok c -> limited_by o d c.
Proof.
  unfold TC.init. intros H1. apply bind_ok_inv in H1 as ([] & _ & H1). cbn in H1.
  destruct (TC.initial_net_limit g1 _ _ _) as [nl due].
  pose proof (objective_limit_any (TC.trx o) (AM.resources d) (TC.start o) block_cpu_usage_exceeded) as L1.
  unfold TC.rl in H1. cbn [TC.db TC.set_entry TC.new_context] in H1.
  destruct (TC.initial_duration_limit g1 _ _ _ _) as [[dur code] dead].
  do 3 (apply bind_ok_inv in H1 as (? & _ & H1)). destruct (if _ <? nl then _ else _), (TC.limit_deadline _ _ _ _ _).
  destruct (if TC.explicit_billed_cpu_time _ then (_, deadline_exception) else _).
  do 3 (apply bind_ok_inv in H1 as (? & _ & H1)). by injection H1 as <-.
Qed.

Lemma init_for_implicit_limited o dl b d ts usage now c :
  TC.init_for_implicit_trx g1 (TC.new_context o dl b d ts) usage now = Ok c -> limited_by o d c.
Proof. unfold TC.init_for_implicit_trx. intros H1. apply bind_ok_inv in H1 as ([] & _ & H1). by eapply init_limited. Qed.

Lemma init_for_deferred_limited o dl b d ts p now c :
  TC.init_for_deferred_trx g1 (TC.new_context o dl b d ts) p now = Ok c -> limited_by o d c.
Proof. unfold TC.init_for_deferred_trx. intros H1. apply bind_ok_inv in H1 as ([] & _ & H1). by eapply init_limited. Qed.

Lemma init_for_input_limited o dl b d ts e id u p skip now c :
  TC.init_for_input_trx g1 e id (TC.new_context o dl b d ts) u p skip now = Ok c -> limited_by o d c.
Proof.
  unfold TC.init_for_input_trx. intros H1. apply bind_ok_inv in H1 as ([] & _ & H1). apply bind_ok_inv in H1 as ([] & _ & H1).
  apply bind_ok_inv in H1 as (c1 & H1%init_limited & H2). destruct skip; [by injection H2 as <-|].
  apply bind_ok_inv in H2 as (r & _ & [= <-]). exact H1.
Qed.

(** ** [finalize] *)

(** [finalize] up to the CPU time. *)
Definition final_limits (g : @TC.controller K _ _) (c : @TC.context K Bytes) : result (@AM.database K * TC.payable) :=
  EOS_ASSERT (TC.is_initialized c) transaction_exception;;
  d ← (if TC.is_input c then
         foldM (TC.touch_permission g) (TC.db c) (flat_map AM.authorization (TX.actions (TC.trx (TC.opts c))))
       else mret (TC.db c));
  foldM (fun _ a => RL.verify_account_ram_usage (AM.resources d) a) tt (TC.validate_ram_usage c);;
  pay ← TC.max_bandwidth_billed_accounts_can_pay g (AM.resources d) (TC.bill_to_accounts c) false;
  TC.check_net_usage g (TC.final_net (TC.net c) pay);;
  mret (d, pay).

Definition billed_cpu (c : @TC.context K Bytes) (pay : TC.payable) (billed : Z) : TC.cpu_state :=
  let p := TC.final_cpu (TC.cpu c) pay in
  TC.mk_cpu (TC.objective_duration_limit p) (TC.initial_objective_duration_limit p)
    (TC.cpu_limit_due_to_greylist p) (TC.billing_timer_exception_code p) billed.

Lemma finalize_checks_eq g c now : TC.finalize_checks g c now =
  ('(d, pay) ← final_limits g c;
   let p := billed_cpu c pay (TC.update_billed_cpu_time g c now) in
   TC.validate_cpu_usage_to_bill g p (TC.billed_cpu_time_us p) (TC.account_cpu_limit pay) true;;
   mret (TC.mk_context (TC.opts c) (TC.is_initialized c) (TC.is_input c) (TC.apply_context_free c) (TC.published c)
           (TC.bill_to_accounts c) (TC.validate_ram_usage c) (TC.final_net (TC.net c) pay) p (TC.timer c) d
           (TC.transactions c))).
Proof.
  unfold TC.finalize_checks, final_limits, billed_cpu. destruct (EOS_ASSERT _ _) as [[]|]; [|done]. cbn [mbind result_bind].
  destruct (if TC.is_input c then _ else _) as [d|]; [|done]. cbn [mbind result_bind].
  destruct (foldM _ tt _) as [[]|]; [|done]. cbn [mbind result_bind].
  destruct (TC.max_bandwidth_billed_accounts_can_pay _ _ _ _) as [pay|]; [|done]. cbn [mbind result_bind].
  by destruct (TC.check_net_usage _ _) as [[]|].
Qed.

Lemma touch_permission_same d a : TC.touch_permission g2 d a = TC.touch_permission g1 d a.
Proof. unfold TC.touch_permission, AM.update_permission_usage. by destruct (vc_auth _ _ Hg) as [l ->]. Qed.

Lemma final_net_covers u1 u2 p1 p2 : net_covers u1 u2 -> pays_more p1 p2 ->
  eager_covers (TC.final_net u1 p1) (TC.final_net u2 p2).
Proof.
  intros [[Eu He Hgl Hx] El] [Hn _ [Hb _] [Hl _] Hex]. change TC.large_number_no_overflow with (2 ^ 62 - 1) in Hb.
  unfold TC.final_net. rewrite (u64_small (TC.account_net_limit p1)), (u64_small (TC.account_net_limit p2)) by lia. rewrite El, Eu, Hgl, Hl.
  destruct (TC.account_net_limit p1 <=? TC.net_limit u1) eqn:E1, (TC.account_net_limit p2 <=? TC.net_limit u1) eqn:E2;
    bool_to_prop; split; cbn; try done; try lia;
    intros [F1 F2]%orb_false_iff; rewrite Hex in * by done; try lia; split; try done; by apply Hx.
Qed.

Lemma final_limits_agree m0 b c1 c2 : related_contexts m0 b c1 c2 ->
  agree (fun x1 x2 => x2.1 = x1.1 /\ fixed m0 (AM.resources x1.1) /\ pays_more x1.2 x2.2) (final_limits g1 c1) (final_limits g2 c2).
Proof.
  intros Hc. unfold final_limits. rewrite (rc_initialized _ _ _ _ Hc), (rc_input _ _ _ _ Hc), (rc_db _ _ _ _ Hc),
    (rc_trx _ _ _ _ Hc), (rc_ram _ _ _ _ Hc), (rc_bill _ _ _ _ Hc). agree_eq_step.
  eapply (agree_bind (fun d1 d2 => d1 = d2 /\ fixed m0 (AM.resources d1))).
  { destruct (TC.is_input c1); [|apply agree_ret; split; [done|apply (rc_fixed _ _ _ _ Hc)]].
    apply agree_foldM; [|split; [done|apply (rc_fixed _ _ _ _ Hc)]]. intros x d ? [<- Hd]. rewrite touch_permission_same.
    apply agree_same. intros d' Ht. by rewrite (TransactionBilling.touch_permission_resources _ _ _ _ Ht). }
  intros d ? [<- Hd]. agree_eq_step. eapply agree_bind; [apply can_pay_agree; apply Hd|]. intros p1 p2 Hp.
  eapply agree_bind; [apply check_net_usage_agree; [done|apply final_net_covers; [apply (rc_net _ _ _ _ Hc)|done]]|].
  intros _ _ _. by apply agree_ret.
Qed.

(** The CPU time that the producer bills is within the limits of the
    validator. *)
Lemma billed_within c1 p1 b : TC.validate_cpu_usage_to_bill g1 (billed_cpu c1 p1 b) b (TC.account_cpu_limit p1) true = Ok tt ->
  ChainConfig.min_transaction_cpu_usage (TC.configuration g1) <= b /\
  (0 < b -> b <= TC.objective_duration_limit (TC.cpu c1) /\ b <= TC.account_cpu_limit p1).
Proof.
  unfold TC.validate_cpu_usage_to_bill. destruct (vc_skip _ _ Hg) as [S1 _]. rewrite S1. cbn [negb]. intros Hv.
  apply bind_ok_inv in Hv as ([] & Hm & Hv). apply EOS_ASSERT_ok in Hm. split; [lia|]. intros Hb.
  apply TransactionBilling.validate_billed_ok in Hv; [|done..]. revert Hv. unfold billed_cpu, TC.final_cpu.
  destruct (TC.account_cpu_limit p1 <=? TC.objective_duration_limit (TC.cpu c1)) eqn:E; cbn; intros Hv; bool_to_prop; lia.
Qed.

Lemma validator_bills m0 c1 c2 p1 p2 b : related_contexts m0 b c1 c2 -> pays_more p1 p2 ->
  ChainConfig.min_transaction_cpu_usage (TC.configuration g1) <= b ->
  (0 < b -> b <= TC.objective_duration_limit (TC.cpu c1) /\ b <= TC.account_cpu_limit p1) ->
  TC.validate_cpu_usage_to_bill g2 (billed_cpu c2 p2 b) b (TC.account_cpu_limit p2) true = Ok tt.
Proof.
  intros Hc Hp Hm Hb. pose proof (pm_cpu _ _ Hp) as Hle. pose proof (rc_limit _ _ _ _ Hc) as El.
  unfold TC.validate_cpu_usage_to_bill, TC.validate_account_cpu_usage, TC.cpu_limit_and_exception.
  destruct (vc_skip _ _ Hg) as [_ ->]. rewrite (vc_config _ _ Hg), (proj2 (Z.leb_le _ _) Hm). cbn [negb EOS_ASSERT mbind result_bind].
  destruct (0 <? b) eqn:E; [|done]. bool_to_prop. destruct (Hb E) as [B1 B2]. unfold billed_cpu, TC.final_cpu. rewrite El.
  destruct (TC.account_cpu_limit p2 <=? TC.objective_duration_limit (TC.cpu c1)) eqn:E1; cbn; rewrite ?Z.leb_refl, ?E1; cbn; repeat case_match; simplify_eq; cbn; bool_to_prop;
    by rewrite (proj2 (Z.leb_le _ _)) by lia.
Qed.

(** What both have when the checks have passed. *)
Record settled (m0 : RL.manager) (c1 c2 : @TC.context K Bytes) : Prop := {
  sd_db : TC.db c2 = TC.db c1;
  sd_fixed : fixed m0 (TC.rl c1);
  sd_bill : TC.bill_to_accounts c2 = TC.bill_to_accounts c1;
  sd_ram : TC.validate_ram_usage c2 = TC.validate_ram_usage c1;
  sd_transactions : TC.transactions c2 = TC.transactions c1;
  sd_usage : TC.net_usage (TC.net c2) = TC.net_usage (TC.net c1);
  sd_billed : TC.billed_cpu_time_us (TC.cpu c2) = TC.billed_cpu_time_us (TC.cpu c1);
}.

Lemma measured_minimum c1 now : TC.explicit_billed_cpu_time (TC.opts c1) = false ->
  ChainConfig.min_transaction_cpu_usage (TC.configuration g1) <= TC.update_billed_cpu_time (Bytes := Bytes) g1 c1 now.
Proof. unfold TC.update_billed_cpu_time. intros ->. lia. Qed.

Lemma producer_refuses c1 p1 now e : TC.explicit_billed_cpu_time (TC.opts c1) = false ->
  let p := billed_cpu c1 p1 (TC.update_billed_cpu_time g1 c1 now) in
  TC.validate_cpu_usage_to_bill g1 p (TC.billed_cpu_time_us p) (TC.account_cpu_limit p1) true = Throw e -> subjective e = true.
Proof.
  intros Hx%(measured_minimum c1 now) p. subst p. cbn [TC.billed_cpu_time_us billed_cpu]. unfold TC.validate_cpu_usage_to_bill.
  destruct (negb _); [|done]. rewrite (proj2 (Z.leb_le _ _) Hx). cbn. apply validate_cpu_subjective.
Qed.

Lemma finalize_checks_agree m0 b c1 c2 now1 now2 : related_contexts m0 b c1 c2 ->
  TC.update_billed_cpu_time g1 c1 now1 = b ->
  agree (settled m0) (TC.finalize_checks g1 c1 now1) (TC.finalize_checks g2 c2 now2).
Proof.
  intros Hc Hb. rewrite !finalize_checks_eq. eapply agree_bind; [by eapply final_limits_agree|].
  intros [d p1] [? p2] (Ed & Hd & Hp). cbn in Ed, Hd, Hp. subst d0.
  assert (TC.update_billed_cpu_time g2 c2 now2 = b) as Hb2
    by (unfold TC.update_billed_cpu_time; rewrite (rc_explicit _ _ _ _ Hc); apply (rc_billed _ _ _ _ Hc)).
  cbn zeta. destruct (TC.validate_cpu_usage_to_bill g1 _ _ _ _) as [[]|e] eqn:E1.
  - rewrite Hb in E1. apply billed_within in E1 as [B1 B2]. rewrite Hb2. cbn [TC.billed_cpu_time_us billed_cpu].
    rewrite (validator_bills m0 c1 c2 p1 p2) by done. apply agree_ret. destruct Hc. split; try done. cbn.
    unfold TC.final_net. rewrite (nc_usage _ _ (nc_covers _ _ rc_net0)). by repeat case_match.
  - apply agree_subjective. eapply producer_refuses; [|exact E1]. apply (rc_measured _ _ _ _ Hc).
Qed.

Lemma bill_transaction_same m0 c1 c2 : settled m0 c1 c2 -> TC.bill_transaction g2 c2 = TC.bill_transaction g1 c1.
Proof. intros []. unfold TC.bill_transaction, TC.rl. by rewrite sd_db0, sd_bill0, sd_billed0, sd_usage0, (vc_time _ _ Hg). Qed.

Lemma bill_rest cpu net slot m l m' : foldM (RL.bill_account cpu net slot) m l = Ok m' ->
  RL.state m' = RL.state m /\ RL.config m' = RL.config m /\ RL.limits m' = RL.limits m.
Proof.
  intros H1. eapply (foldM_inv _ (fun u => RL.state u = RL.state m /\ RL.config u = RL.config m /\ RL.limits u = RL.limits m)); [|done|exact H1].
  intros a u u' _ Hu H2. unfold RL.bill_account in H2. do 6 (apply bind_ok_inv in H2 as (? & _ & H2)). by injection H2 as <-.
Qed.

Lemma add_usage_fits m l cpu net slot m' : RL.add_transaction_usage m l cpu net slot = Ok m' -> shares_fit m -> shares_fit m'.
Proof.
  intros H1 [[_ S0] S1 S2 S3]. unfold RL.add_transaction_usage in H1. apply bind_ok_inv in H1 as (m1 & (Es & Ec & El)%bill_rest & H2).
  cbn zeta in H2. apply bind_ok_inv in H2 as ([] & Hb%EOS_ASSERT_ok & H2). apply bind_ok_inv in H2 as ([] & _ & [= <-]).
  split; cbn in *; rewrite Es, ?Ec, ?El in *; [|exact S1|exact S2|exact S3].
  pose proof (u64_range (RL.pending_cpu_usage (RL.state m) + cpu)). unfold block_budget. cbn. rewrite Ec. bool_to_prop. lia.
Qed.

(** What is left when the transaction is billed. *)
Record completed (c1 c2 : @TC.context K Bytes) : Prop := {
  cp_db : TC.db c2 = TC.db c1;
  cp_fits : shares_fit (TC.rl c1);
  cp_ram : TC.validate_ram_usage c2 = TC.validate_ram_usage c1;
  cp_transactions : TC.transactions c2 = TC.transactions c1;
  cp_usage : TC.net_usage (TC.net c2) = TC.net_usage (TC.net c1);
  cp_billed : TC.billed_cpu_time_us (TC.cpu c2) = TC.billed_cpu_time_us (TC.cpu c1);
}.

Lemma finalize_agree m0 b c1 c2 now1 now2 : related_contexts m0 b c1 c2 -> TC.update_billed_cpu_time g1 c1 now1 = b ->
  agree completed (TC.finalize g1 c1 now1) (TC.finalize g2 c2 now2).
Proof.
  intros Hc Hb. unfold TC.finalize. eapply agree_bind; [by eapply finalize_checks_agree|]. intros r1 r2 Hr.
  rewrite (bill_transaction_same _ _ _ Hr). eapply agree_bind; [apply (agree_same shares_fit)|].
  - intros m Hm. eapply add_usage_fits; [exact Hm|]. apply (sd_fixed _ _ _ Hr).
  - intros m ? [<- Hm]. apply agree_ret. destruct Hr. split; cbn; try done. by rewrite sd_db0.
Qed.

(** The time that the producer bills. *)
Lemma finalize_billed (c r : @TC.context K Bytes) now : TC.finalize g1 c now = Ok r -> TC.objective_duration_limit (TC.cpu c)
    <= ChainConfig.max_transaction_cpu_usage (TC.configuration g1) ->
  let b := TC.billed_cpu_time_us (TC.cpu r) in
  b = TC.update_billed_cpu_time g1 c now /\ u32 b = b /\ (b <= 0 \/ b <= TC.objective_duration_limit (TC.cpu c)).
Proof.
  intros H1 Hl b. unfold TC.finalize in H1. apply bind_ok_inv in H1 as (r1 & H1 & H2). apply bind_ok_inv in H2 as (m & _ & [= <-]).
  apply TransactionBilling.finalize_checked in H1 as [pay Hk]. pose proof (ck_billed _ _ _ _ _ Hk) as Eb.
  destruct (vc_skip _ _ Hg) as [S1 _]. pose proof (ck_min _ _ _ _ _ Hk S1) as Bm. pose proof (ck_cpu _ _ _ _ _ Hk S1) as Bc.
  pose proof (cf_min Hcf). pose proof (cf_cpu Hcf). subst b. cbn. split; [done|].
  rewrite u32_small; [split; [done|]|]; destruct (decide (0 < TC.billed_cpu_time_us (TC.cpu r1))) as [Hp|]; try lia; apply Bc in Hp; lia.
Qed.

End context.
End ContextAgreement.
