(* ===== verification/InputAgreement.v ===== *)
(** * Agreement on input transactions

    A node that validates a block pushes its transactions with the CPU time of
    their receipts.  What the producer's [push_transaction] put into the block
    is accepted, with the same receipt and the same effects. *)

From S2P Require Import Prelude Names Merkle ProducerSchedule Authority AuthorityChecker.
From S2P Require Import Accumulators ResourceLimits AuthorizationManager AuthActions AccessLists.
From S2P Require Import ChainConfig BlockHeaderState Transactions TransactionContext TransactionBilling TableIndex.
From S2P Require Import ContractTables ActionExecution ContractCode DeferredTransactions ChainHost.
From S2P Require Import ScheduledExecution InputExecution Agreement TableAgreement ExecutionAgreement.
From S2P Require Import HandlerAgreement ChainAgreement ContextAgreement.

Module InputAgreement.
Import DeferredTransactions ScheduledExecution InputExecution Agreement TableAgreement ChainAgreement ContextAgreement.

Section input.
Context {K Bytes : Type} `{Countable K}.
Abbreviation world := (world K Bytes).
Abbreviation context := (@TC.context K Bytes).

(** ** Contexts and worlds *)

(** The NET usage of the last transaction is not part of the chain. *)
Definition same_chain (w1 w2 : world) : Prop := exists u, w2 = set_net w1 u.

Lemma database_of_same (w1 w2 : world) : same_chain w1 w2 -> database_of w2 = database_of w1.
Proof. by intros [u ->]. Qed.

Lemma world_of_related g m0 b (c1 c2 : context) w1 w2 : related_contexts g m0 b c1 c2 -> same_chain w1 w2 ->
  same_world m0 (world_of c1 w1) (world_of c2 w2).
Proof.
  intros Hc [u ->]. split; [apply (rc_fixed _ _ _ _ _ Hc)|]. exists (TC.net c2). split; [apply (rc_net _ _ _ _ _ Hc)|].
  unfold world_of, set_net, TC.rl. cbn. by rewrite (rc_ram _ _ _ _ _ Hc), (rc_db _ _ _ _ _ Hc).
Qed.

Lemma context_of_related g m0 b (c1 c2 : context) w1 w2 : related_contexts g m0 b c1 c2 -> same_world m0 w1 w2 ->
  related_contexts g m0 b (context_of w1 c1) (context_of w2 c2).
Proof. intros [] (Hf & u & Hu & ->). by split. Qed.

Lemma world_of_completed (c1 c2 : context) (w1 w2 : world) : completed c1 c2 -> same_chain w1 w2 ->
  same_chain (world_of c1 w1) (world_of c2 w2).
Proof.
  intros Hc [u ->]. exists (TC.net c2). unfold world_of, set_net, TC.rl. cbn.
  by rewrite (cp_ram _ _ Hc), (cp_db _ _ Hc).
Qed.

Lemma same_world_chain m0 (w1 w2 : world) : same_world m0 w1 w2 -> same_chain w1 w2.
Proof. intros (_ & u & _ & ->). by exists u. Qed.

Context (f : library K Bytes) (v : ChainHost.natives K Bytes) (y1 y2 : ChainHost.runtime Bytes) (Hy : validator_runtime y1 y2).
Context (n1 n2 : node K Bytes) (Hn : validator_node n1 n2) (Hcf : config_fits (trx_control n1)).
Abbreviation g1 := (trx_control n1).
Abbreviation g2 := (trx_control n2).
Abbreviation VC := (vn_control _ _ Hn).

Lemma with_trx_validator t d e1 e2 b : validator_node (with_trx n1 t d e1 b) (with_trx n2 t d e2 b).
Proof. by destruct Hn. Qed.

(** ** The end of a transaction *)

Definition finish (g : @TC.controller K _ _) (c : context) (run : result world) (now : Z) : result (context * world) :=
  w ← run; c ← TC.finalize g (context_of w c) now; mret (c, world_of c w).

Definition ends_alike (x1 x2 : context * world) : Prop := completed x1.1 x2.1 /\ same_chain x1.2 x2.2.

Lemma finish_agree m0 b (c1 c2 : context) run1 run2 now1 now2 : related_contexts g1 m0 b c1 c2 ->
  TC.update_billed_cpu_time g1 c1 now1 = b -> agree (same_world m0) run1 run2 ->
  agree ends_alike (finish g1 c1 run1 now1) (finish g2 c2 run2 now2).
Proof.
  intros Hc Hb Hr. unfold finish. eapply agree_bind; [exact Hr|]. intros w1 w2 Hw.
  eapply agree_bind; [eapply (finalize_agree _ _ VC); [by apply context_of_related|done]|].
  intros r1 r2 Hd. apply agree_ret. split; [done|]. apply world_of_completed; [done|by eapply same_world_chain].
Qed.

Lemma finish_billed (c : context) run now r w : finish g1 c run now = Ok (r, w) -> TC.objective_duration_limit (TC.cpu c)
    <= ChainConfig.max_transaction_cpu_usage (TC.configuration g1) ->
  let b := TC.billed_cpu_time_us (TC.cpu r) in
  b = TC.update_billed_cpu_time g1 c now /\ u32 b = b /\ (b <= 0 \/ b <= TC.objective_duration_limit (TC.cpu c)).
Proof.
  intros H1 Hl. unfold finish in H1. apply bind_ok_inv in H1 as (w1 & _ & H1). apply bind_ok_inv in H1 as (r1 & H1 & [= <- <-]).
  by apply (finalize_billed _ _ VC Hcf) in H1.
Qed.

(** ** [push_transaction] *)

(** The metadata of a transaction of a block: the time to recover its keys is
    the node's own. *)
Definition same_meta (m1 m2 : transaction_metadata K Bytes) : Prop :=
  exists z, m2 = mk_meta (packed m1) (unprunable_size m1) (prunable_size m1) z (recovered_keys m1) (type m1).

Definition same_pending (p1 p2 : pending_state K Bytes) : Prop :=
  same_chain (chain p1) (chain p2) /\ recorded p2 = recorded p1 /\ trx_receipts p2 = trx_receipts p1.

(** The clock of the validator at a transaction: its deadline is a year away. *)
Definition not_late (start now : Z) : Prop := TC.timer_start_expired (s64 (start + TC.far_deadline)) now = false.

Lemma init_context_agree s1 s2 q1 q2 m1 m2 p1 p2 : same_meta m1 m2 -> same_pending p1 p2 ->
  replay_head_time s2 = replay_head_time s1 -> in_explicit_billed_cpu_time q1 = false ->
  in_explicit_billed_cpu_time q2 = true -> in_block_deadline q2 = TC.time_point_maximum ->
  not_late (in_start q2) (in_now_init q2) -> shares_fit (CT.resources (tables (chain p1))) -> usage_fits (CT.resources (tables (chain p1))) ->
  in_billed_cpu_time_us q2 <= 0 \/ in_billed_cpu_time_us q2 <= objective_limit g1 (packed m1) (CT.resources (tables (chain p1))) ->
  agree (related_contexts g1 (CT.resources (tables (chain p1))) (in_billed_cpu_time_us q2))
    (init_context f n1 s1 q1 m1 p1) (init_context f n2 s2 q2 m2 p2).
Proof.
  intros [z ->] (Hch & Er & _) Eh X1 X2 Ed Hnow Hf Hu Hb. unfold init_context. cbn [type packed unprunable_size prunable_size].
  rewrite (database_of_same _ _ Hch), Er, Eh, Ed. destruct (decide (type m1 = implicit)).
  - apply (init_for_implicit_agree _ _ VC Hcf); cbn; try done; [unfold billed_start; by rewrite X2].
  - apply (init_for_input_agree _ _ VC Hcf); cbn; try done; [unfold billed_start; by rewrite X2].
Qed.

Lemma check_signatures_same m1 m2 (w1 w2 : world) : same_meta m1 m2 -> same_chain w1 w2 ->
  check_signatures f n2 m2 w2 = check_signatures f n1 m1 w1.
Proof.
  intros [z ->] [u ->]. unfold check_signatures. cbn [type packed recovered_keys]. rewrite (vn_skip_auth _ _ Hn).
  change (auth_view (set_net w1 u)) with (auth_view w1). by rewrite (check_authorization_same f n1 n2 Hn).
Qed.

Lemma executing_validator m1 m2 : same_meta m1 m2 -> validator_node (executing n1 m1) (executing n2 m2) /\
  same_transaction (executing n1 m1) (executing n2 m2).
Proof. intros [z ->]. split; [apply with_trx_validator|by split]. Qed.

(** What the two calls have in common: the validator's comes with the time of
    the receipt. *)
Record replays (s1 s2 : settings) (q1 q2 : input_request) : Prop := {
  rp_head : replay_head_time s2 = replay_head_time s1;
  rp_measured : in_explicit_billed_cpu_time q1 = false;
  rp_explicit : in_explicit_billed_cpu_time q2 = true;
  rp_deadline : in_block_deadline q2 = TC.time_point_maximum;
  rp_clock : not_late (in_start q2) (in_now_init q2);
}.

Lemma execute_input_replays s1 s2 q1 q2 m1 m2 p1 p2 r1 w1 : replays s1 s2 q1 q2 -> same_meta m1 m2 -> same_pending p1 p2 ->
  shares_fit (CT.resources (tables (chain p1))) -> usage_fits (CT.resources (tables (chain p1))) -> execute_input f v y1 n1 s1 q1 m1 p1 = Ok (r1, w1) ->
  in_billed_cpu_time_us q2 = u32 (TC.billed_cpu_time_us (TC.cpu r1)) ->
  exists r2 w2, execute_input f v y2 n2 s2 q2 m2 p2 = Ok (r2, w2) /\ ends_alike (r1, w1) (r2, w2).
Proof.
  intros [Eh X1 X2 Ed Hnow] Hm Hp Hf Hu H1 Hb. unfold execute_input in *. cbn zeta in *. apply bind_ok_inv in H1 as (c1 & Hi & H1).
  apply bind_ok_inv in H1 as ([] & Hs & H1).
  assert (limited_by g1 (input_options n1 s1 q1 m1) (database_of (chain p1)) c1) as [El _].
  { unfold init_context in Hi. destruct (decide _); [by eapply init_for_implicit_limited|by eapply init_for_input_limited]. }
  pose proof (objective_limit_small g1 (packed m1) (CT.resources (tables (chain p1)))) as Hsm. cbn in El.
  destruct (finish_billed _ _ _ _ _ H1 ltac:(by rewrite El)) as (B1 & B2 & B3). rewrite B2 in Hb. rewrite El, <-Hb in B3.
  destruct (agree_ok _ _ _ _ (init_context_agree _ _ _ _ _ _ _ _ Hm Hp Eh X1 X2 Ed Hnow Hf Hu B3) Hi) as (c2 & -> & Hc).
  pose proof (world_of_related _ _ _ _ _ _ _ Hc (proj1 Hp)) as Hw. cbn [mbind result_bind].
  rewrite (check_signatures_same m1 m2 _ _ Hm (same_world_chain _ _ _ Hw)), Hs. cbn [mbind result_bind].
  destruct (executing_validator _ _ Hm) as [Hv Hst]. rewrite (rc_cfa _ _ _ _ _ Hc), (rc_published _ _ _ _ _ Hc).
  epose proof (finish_agree _ _ _ _ _ _ (in_now_finalize q1) (in_now_finalize q2) Hc ltac:(by rewrite <-B1)
    (exec_agree f v y1 y2 Hy _ _ Hv Hst _ (TC.apply_context_free c1) (TC.published c1) _ _ Hw)) as Ha.
  destruct (agree_ok _ _ _ _ Ha H1) as ([r2 w2] & E2 & He). by exists r2, w2.
Qed.

Lemma completed_fits (r1 r2 : context) (w1 w2 : world) : ends_alike (r1, w1) (r2, w2) ->
  (exists w, w1 = world_of r1 w) -> shares_fit (CT.resources (tables w1)).
Proof. intros [Hr _] [w ->]. apply (cp_fits _ _ Hr). Qed.

Lemma record_receipt_same m1 m2 (r1 r2 : context) l : same_meta m1 m2 -> completed r1 r2 ->
  record_receipt f m2 r2 l = record_receipt f m1 r1 l.
Proof. intros [z ->] Hr. unfold record_receipt. cbn [type packed]. by rewrite (cp_billed _ _ Hr), (cp_usage _ _ Hr). Qed.

Lemma record_receipt_cpu m (c : context) l r l' : record_receipt f m c l = Ok (r, l') ->
  cpu_usage_us r = u32 (TC.billed_cpu_time_us (TC.cpu c)).
Proof.
  unfold record_receipt. destruct (decide _); [by intros [= <- <-]|]. intros H1. apply bind_ok_inv in H1 as (r0 & H1 & [= <- <-]).
  unfold push_receipt in H1. by apply bind_ok_inv in H1 as ([] & _ & [= <-]).
Qed.

Lemma push_transaction_replays s1 s2 q1 q2 m1 m2 p1 p2 r p1' : replays s1 s2 q1 q2 -> same_meta m1 m2 -> same_pending p1 p2 ->
  shares_fit (CT.resources (tables (chain p1))) -> usage_fits (CT.resources (tables (chain p1))) -> type m1 = input -> discards n1 s1 m1 = false ->
  push_transaction f v y1 n1 s1 q1 m1 p1 = Ok (Receipt r, p1') -> in_billed_cpu_time_us q2 = cpu_usage_us r ->
  exists p2', push_transaction f v y2 n2 s2 q2 m2 p2 = Ok (Receipt r, p2') /\ same_pending p1' p2' /\
    shares_fit (CT.resources (tables (chain p1'))).
Proof.
  intros Hq Hm Hp Hf Hu Hi Hd H1 Hb. unfold push_transaction in *. apply bind_ok_inv in H1 as ([] & _ & H1).
  rewrite (rp_deadline _ _ _ _ Hq). cbn [EOS_ASSERT negb mbind result_bind Z.eqb TC.time_point_maximum INT64_MAX].
  destruct (apply_input f v y1 n1 s1 q1 m1 p1) as [[r' p']|e] eqn:E1; [|by destruct (is_rethrown e)].
  injection H1 as -> <-. unfold apply_input in *. apply bind_ok_inv in E1 as ([c1 w1] & E1 & E2).
  apply bind_ok_inv in E2 as ([r0 l] & E2 & [= -> <-]). pose proof (record_receipt_cpu _ _ _ _ _ E2) as Ec. rewrite Ec in Hb.
  destruct (execute_input_replays _ _ _ _ _ _ _ _ _ _ Hq Hm Hp Hf Hu E1 Hb) as (c2 & w2 & -> & He). pose proof He as [Hr Hw]. cbn in Hr, Hw.
  destruct Hp as (Hch & Erec & El). cbn [mbind result_bind]. rewrite (record_receipt_same _ _ _ _ _ Hm Hr), El, E2. cbn [mbind result_bind mret result_ret].
  assert (discards n2 s2 m2 = false) as -> by (unfold discards; rewrite (vc_producing _ _ VC), andb_false_r; by destruct Hm as [z ->]; cbn; rewrite Hi).
  rewrite Hd. eexists. split; [done|]. split; [split_and!; [done|apply (cp_transactions _ _ Hr)|done]|].
  apply (completed_fits _ _ _ _ He). unfold execute_input in E1. apply bind_ok_inv in E1 as (? & _ & E1). apply bind_ok_inv in E1 as ([] & _ & E1).
  apply bind_ok_inv in E1 as (w & _ & E1). apply bind_ok_inv in E1 as (? & _ & [= <- <-]). by exists w.
Qed.
End input.
End InputAgreement.
