(* ===== verification/BillingAgreement.v ===== *)
(** * Agreement on the bill of a failed transaction

    Before it bills a failed transaction the producer brings the usage of the
    accounts up to date; the validator bills at once.  The accounts are left
    with the same usage.  And a bill that the producer's resource limits refuse
    is refused for another CPU time as well, unless the CPU time was the reason. *)

From S2P Require Import Prelude Names Accumulators ResourceLimits ScheduledExecution Agreement TableAgreement.

Module BillingAgreement.
Import Accumulator Agreement TableAgreement.

(** ** One accumulator *)

(** What [add] adds to the average. *)
Definition contribution (units w : Z) : Z := integer_divide_ceil (u128 (units * rate_limiting_precision)) w.

Lemma contribution_small units w : is_u32 units -> 0 < w -> 0 <= contribution units w < 2 ^ 53.
Proof.
  intros Hu Hw. unfold contribution, integer_divide_ceil. rewrite u128_small by (unfold rate_limiting_precision; lia).
  assert (0 <= units * rate_limiting_precision < 2 ^ 52) as Hx by (unfold rate_limiting_precision; lia).
  set (x := units * rate_limiting_precision) in *. pose proof (Z.div_pos x w ltac:(lia) Hw).
  assert (x / w <= x) by (apply Z.div_le_upper_bound; nia). destruct (_ <? _); lia.
Qed.

Lemma contribution_0 w : contribution 0 w = 0.
Proof. unfold contribution, integer_divide_ceil. cbn. by rewrite Zdiv_0_l, Zmod_0_l. Qed.

(** With room, [add] fails only when the decay does. *)
Lemma add_with_room acc units ordinal w : is_u32 units -> 0 < w -> value_ex acc < 2 ^ 63 -> consumed acc < 2 ^ 63 ->
  add acc units ordinal w =
    (a ← decay_to acc ordinal w;
     mret (mk_usage (last_ordinal a) (u64 (value_ex a + contribution units w)) (u64 (consumed a + units)))).
Proof.
  intros Hu Hw Hv Hc. pose proof (contribution_small units w Hu Hw) as Hx. unfold add, downgrade_cast_u64. fold (contribution units w).
  pose proof max_raw_value_eq. unfold UINT64_MAX.
  rewrite (proj2 (Z.leb_le units max_raw_value)), (proj2 (Z.leb_le units _)) by lia. cbn [EOS_ASSERT mbind result_bind].
  rewrite (proj2 (Z.leb_le 0 _)), (proj2 (Z.leb_le (contribution units w) (2 ^ 64 - 1))) by lia. cbn [andb EOS_ASSERT mbind result_bind mret result_ret].
  by rewrite (proj2 (Z.leb_le (contribution units w) _)) by lia.
Qed.

Lemma decay_last acc ordinal w a : decay_to acc ordinal w = Ok a -> last_ordinal a = ordinal.
Proof.
  unfold decay_to. destruct (_ =? _) eqn:E; [intros [= <-]; by bool_to_prop|]. intros H1.
  apply bind_ok_inv in H1 as ([] & _ & H1). by apply bind_ok_inv in H1 as (x & _ & [= <-]).
Qed.

Lemma add_inv acc units ordinal w a' : add acc units ordinal w = Ok a' -> exists a, decay_to acc ordinal w = Ok a /\
  a' = mk_usage ordinal (u64 (value_ex a + contribution units w)) (u64 (consumed a + units)).
Proof.
  unfold add. intros H1. do 2 (apply bind_ok_inv in H1 as ([] & _ & H1)). apply bind_ok_inv in H1 as (x & Hx & H1).
  unfold downgrade_cast_u64 in Hx. apply bind_ok_inv in Hx as ([] & _ & [= <-]). apply bind_ok_inv in H1 as ([] & _ & H1).
  apply bind_ok_inv in H1 as (a & Ha & [= <-]). exists a. by rewrite (decay_last _ _ _ _ Ha).
Qed.

Lemma u64_add_0 x y : u64 (u64 (x + 0) + y) = u64 (x + y).
Proof. unfold u64. by rewrite Z.add_0_r, Zplus_mod_idemp_l. Qed.

(** Bringing an accumulator up to date does not change what an addition gives. *)
Lemma touch_absorbed acc units ordinal w a1 a2 : is_u32 units -> 0 < w -> value_ex acc < 2 ^ 63 -> consumed acc < 2 ^ 63 ->
  add acc 0 ordinal w = Ok a1 -> add a1 units ordinal w = Ok a2 -> add acc units ordinal w = Ok a2.
Proof.
  intros Hu Hw Hv Hc (a & Ha & ->)%add_inv (b & Hb & ->)%add_inv. rewrite add_with_room, Ha by done. cbn [mbind result_bind].
  unfold decay_to in Hb. cbn [last_ordinal] in Hb. rewrite Z.eqb_refl in Hb. injection Hb as <-.
  rewrite (decay_last _ _ _ _ Ha). cbn [value_ex consumed].
  rewrite contribution_0.
  by rewrite !u64_add_0.
Qed.

Lemma touch_absorbed_0 acc ordinal w a1 a2 :
  add acc 0 ordinal w = Ok a1 -> add a1 0 ordinal w = Ok a2 -> add acc 0 ordinal w = Ok a2.
Proof.
  intros H1 H2. rewrite H1. f_equal. apply add_inv in H1 as (a & Ha & ->). apply add_inv in H2 as (b & Hb & ->).
  unfold decay_to in Hb. cbn [last_ordinal] in Hb. rewrite Z.eqb_refl in Hb. injection Hb as <-. cbn [value_ex consumed].
  rewrite contribution_0.
  by rewrite !u64_add_0, Z.add_0_r.
Qed.

(** ** The accounts *)

Section accounts.
Context (cpu slot : Z).
Abbreviation touch := (RL.touch_account slot).

(** The usage of [a] fits. *)
Definition row_fits (m : RL.manager) (a : account_name) : Prop := forall u, RL.usage m !! a = Some u ->
  value_ex (RL.cpu_usage u) < 2 ^ 63 /\ consumed (RL.cpu_usage u) < 2 ^ 63.

(** The bill of [a] reads its own row of the usage. *)
Definition billed_row (net : Z) (m : RL.manager) (a : account_name) (u : RL.resource_usage_object) : result RL.resource_usage_object :=
  let s := RL.state m in
  let c := RL.config m in
  lim ← RL.get_account_limits m a;
  net_acc ← add (RL.net_usage u) net slot (RL.account_net_usage_average_window c);
  cpu_acc ← add (RL.cpu_usage u) cpu slot (RL.account_cpu_usage_average_window c);
  (if (0 <=? RL.cpu_weight lim) && (0 <? RL.total_cpu_weight s) then
     let window_size := RL.account_cpu_usage_average_window c in
     let capacity := u128 (RL.virtual_cpu_limit s * window_size) in
     let cpu_used_in_window := u128 (value_ex cpu_acc * window_size) / rate_limiting_precision in
     EOS_ASSERT (cpu_used_in_window <=? RL.max_use_in_window capacity (RL.cpu_weight lim) (RL.total_cpu_weight s))
       tx_cpu_usage_exceeded
   else mret tt);;
  (if (0 <=? RL.net_weight lim) && (0 <? RL.total_net_weight s) then
     let window_size := RL.account_net_usage_average_window c in
     let capacity := u128 (RL.virtual_net_limit s * window_size) in
     let net_used_in_window := u128 (value_ex net_acc * window_size) / rate_limiting_precision in
     EOS_ASSERT (net_used_in_window <=? RL.max_use_in_window capacity (RL.net_weight lim) (RL.total_net_weight s))
       tx_net_usage_exceeded
   else mret tt);;
  mret (RL.mk_usage_object net_acc cpu_acc (RL.ram_usage u)).

Lemma bill_row net m a : RL.bill_account cpu net slot m a =
  (u ← RL.get_row (RL.usage m) a; u' ← billed_row net m a u; mret (RL.set_usage m (<[a := u']> (RL.usage m)))).
Proof.
  unfold RL.bill_account, billed_row. destruct (RL.get_row _ a) as [u|]; [|done]. cbn [mbind result_bind].
  destruct (RL.get_account_limits m a) as [lim|]; [|done]. cbn [mbind result_bind].
  destruct (add (RL.net_usage u) _ _ _) as [x|]; [|done]. cbn [mbind result_bind].
  destruct (add (RL.cpu_usage u) _ _ _) as [z|]; [|done]. cbn [mbind result_bind].
  destruct (if (0 <=? RL.cpu_weight lim) && _ then _ else _) as [[]|]; [|done]. cbn [mbind result_bind].
  by destruct (if (0 <=? RL.net_weight lim) && _ then _ else _) as [[]|].
Qed.

Lemma touch_row m a : touch m a =
  (u ← RL.get_row (RL.usage m) a;
   net ← add (RL.net_usage u) 0 slot (RL.account_net_usage_average_window (RL.config m));
   c ← add (RL.cpu_usage u) 0 slot (RL.account_cpu_usage_average_window (RL.config m));
   mret (RL.set_usage m (<[a := RL.mk_usage_object net c (RL.ram_usage u)]> (RL.usage m)))).
Proof. done. Qed.

Lemma billed_row_same net m m' a u : RL.state m' = RL.state m -> RL.config m' = RL.config m -> RL.limits m' = RL.limits m ->
  billed_row net m' a u = billed_row net m a u.
Proof. intros Es Ec El. unfold billed_row, RL.get_account_limits. by rewrite Es, Ec, El. Qed.

Hypothesis Hcpu : is_u32 cpu.
Abbreviation bill := (RL.bill_account cpu 0 slot).

(** Billing [a] after bringing its usage up to date. *)
Lemma touch_then_bill m a m1 k : 0 < RL.account_cpu_usage_average_window (RL.config m) -> row_fits m a ->
  touch m a = Ok m1 -> bill m1 a = Ok k -> bill m a = Ok k.
Proof.
  intros Hw Hr H1 H2. rewrite touch_row in H1. apply bind_ok_inv in H1 as (u & Hu%RL.get_row_ok & H1).
  apply bind_ok_inv in H1 as (x & Hx & H1). apply bind_ok_inv in H1 as (z & Hz & [= <-]).
  rewrite bill_row in *. cbn [RL.usage RL.set_usage] in H2. apply bind_ok_inv in H2 as (u1 & Hu1%RL.get_row_ok & H2).
  rewrite lookup_insert_eq in Hu1. injection Hu1 as <-. apply bind_ok_inv in H2 as (u2 & H2 & [= <-]).
  rewrite (proj2 (RL.get_row_ok _ _ _) Hu). cbn [mbind result_bind]. rewrite (billed_row_same _ m) in H2 by done.
  destruct (Hr _ Hu) as [V C].
  assert (billed_row 0 m a u = Ok u2) as ->; [|by cbn; rewrite insert_insert_eq].
  unfold billed_row in *. cbn [RL.net_usage RL.cpu_usage RL.ram_usage] in H2. apply bind_ok_inv in H2 as (lim & -> & H2).
  apply bind_ok_inv in H2 as (x2 & Hx2 & H2). apply bind_ok_inv in H2 as (z2 & Hz2 & H2). cbn [mbind result_bind].
  rewrite (touch_absorbed_0 _ _ _ _ _ Hx Hx2). cbn [mbind result_bind].
  rewrite (touch_absorbed _ _ _ _ _ _ Hcpu Hw V C Hz Hz2). exact H2.
Qed.

(** Billing one account and bringing the usage of another up to date commute. *)
Lemma touch_bill_commute m a c m1 k : a <> c -> touch m c = Ok m1 -> bill m1 a = Ok k ->
  exists k', bill m a = Ok k' /\ touch k' c = Ok k.
Proof.
  intros Hac H1 H2. rewrite touch_row in H1. apply bind_ok_inv in H1 as (u & Hu%RL.get_row_ok & H1).
  apply bind_ok_inv in H1 as (x & Hx & H1). apply bind_ok_inv in H1 as (z & Hz & [= <-]).
  rewrite bill_row in H2. cbn [RL.usage RL.set_usage] in H2. apply bind_ok_inv in H2 as (u1 & Hu1%RL.get_row_ok & H2).
  rewrite lookup_insert_ne in Hu1 by done. apply bind_ok_inv in H2 as (u2 & H2 & [= <-]). rewrite (billed_row_same _ m) in H2 by done.
  exists (RL.set_usage m (<[a := u2]> (RL.usage m))). split.
  - by rewrite bill_row, (proj2 (RL.get_row_ok _ _ _) Hu1); cbn [mbind result_bind]; rewrite H2.
  - rewrite touch_row. cbn [RL.usage RL.set_usage]. rewrite (proj2 (RL.get_row_ok _ c u)) by (by rewrite lookup_insert_ne).
    cbn [mbind result_bind RL.config RL.set_usage]. rewrite Hx. cbn [mbind result_bind]. rewrite Hz. cbn.
    by rewrite insert_insert_ne.
Qed.

Lemma touches_bill_commute l m a m1 k : a ∉ l -> RL.update_account_usage m l slot = Ok m1 -> bill m1 a = Ok k ->
  exists k', bill m a = Ok k' /\ RL.update_account_usage k' l slot = Ok k.
Proof.
  revert m. unfold RL.update_account_usage. induction l as [|c l IH]; intros m Ha H1 H2; cbn [foldM] in *.
  { injection H1 as <-. by exists k. }
  apply bind_ok_inv in H1 as (m' & Hc & H1). apply not_elem_of_cons in Ha as [Hac Ha].
  destruct (IH m' Ha H1 H2) as (k1 & Hk1 & Hk). destruct (touch_bill_commute _ _ _ _ _ Hac Hc Hk1) as (k' & Hk' & Ht).
  exists k'. split; [done|]. by rewrite Ht.
Qed.

Lemma bill_frame m a k c : bill m a = Ok k -> c <> a -> RL.usage k !! c = RL.usage m !! c.
Proof.
  rewrite bill_row. intros H1 Hc. apply bind_ok_inv in H1 as (u & _ & H1). apply bind_ok_inv in H1 as (u' & _ & [= <-]).
  cbn. by rewrite lookup_insert_ne.
Qed.

(** The usage of the accounts after the bill does not depend on whether it was
    brought up to date before. *)
Lemma update_then_bill l m m1 k : NoDup l -> 0 < RL.account_cpu_usage_average_window (RL.config m) ->
  (forall a, a ∈ l -> row_fits m a) -> RL.update_account_usage m l slot = Ok m1 -> foldM bill m1 l = Ok k ->
  foldM bill m l = Ok k.
Proof.
  intros Hl. revert m m1. induction Hl as [|a l Ha Hl IH]; intros m m1 Hw Hr H1 H2; [by injection H1 as <-|].
  unfold RL.update_account_usage in H1. cbn [foldM] in *. apply bind_ok_inv in H1 as (m' & Ht & H1). apply bind_ok_inv in H2 as (k1 & Hk & H2).
  destruct (touches_bill_commute _ _ _ _ _ Ha H1 Hk) as (k' & Hk' & Hu).
  assert (bill m a = Ok k') as Hb by (apply (touch_then_bill _ _ _ _ Hw (Hr a ltac:(left)) Ht Hk')).
  rewrite Hb. cbn [mbind result_bind]. apply (IH k' k1); [|intros c Hc u|done|done].
  - rewrite bill_row in Hb. apply bind_ok_inv in Hb as (? & _ & Hb). by apply bind_ok_inv in Hb as (? & _ & [= <-]).
  - rewrite (bill_frame _ _ _ c Hb) by set_solver. apply (Hr c). by right.
Qed.

Lemma update_then_add l m m1 k : NoDup l -> usage_fits m -> RL.update_account_usage m l slot = Ok m1 ->
  RL.add_transaction_usage m1 l cpu 0 slot = Ok k -> RL.add_transaction_usage m l cpu 0 slot = Ok k.
Proof.
  intros Hl Hu H1 H2. unfold RL.add_transaction_usage in *. apply bind_ok_inv in H2 as (k1 & Hk & H2).
  pose proof (uf_window _ Hu). rewrite (update_then_bill l m m1 k1); [exact H2|done|lia| |done|done].
  intros a _ u Hx. by destruct (uf_rows _ Hu _ _ Hx) as (_ & ? & ?).
Qed.

End accounts.

(** ** Bills that are refused *)

Section refused.
Context (cpu1 cpu2 net slot : Z) (Hc1 : is_u32 cpu1) (Hc2 : is_u32 cpu2).

(** The two states in which the accounts [l] are still to be billed. *)
Definition alike (l : list account_name) (m1 m2 : RL.manager) : Prop :=
  RL.state m2 = RL.state m1 /\ RL.config m2 = RL.config m1 /\ RL.limits m2 = RL.limits m1 /\
  (forall a, a ∈ l -> RL.usage m2 !! a = RL.usage m1 !! a /\ row_fits m1 a).

Lemma billed_row_follows m a u : 0 < RL.account_cpu_usage_average_window (RL.config m) ->
  value_ex (RL.cpu_usage u) < 2 ^ 63 -> consumed (RL.cpu_usage u) < 2 ^ 63 ->
  follows (fun _ _ => True) (billed_row cpu1 slot net m a u) (billed_row cpu2 slot net m a u).
Proof.
  intros Hw Hv Hc. unfold billed_row. do 2 follows_eq_step. rewrite !add_with_room by done.
  eapply (follows_bind (fun _ _ => True)).
  { follows_eq_step. by apply follows_ret. }
  intros z1 z2 _. eapply (follows_bind (fun _ _ => True)).
  { destruct (_ && _); [|by apply follows_ret]. cbn zeta. destruct (_ <=? _); [|by apply follows_kept].
    destruct (_ <=? _); [by apply follows_ret|by apply follows_throw]. }
  intros _ _ _. follows_eq_step. by apply follows_ret.
Qed.

Lemma bills_follow l m1 m2 : NoDup l -> 0 < RL.account_cpu_usage_average_window (RL.config m1) -> alike l m1 m2 ->
  follows (fun k1 k2 => alike [] k1 k2 /\ RL.state k1 = RL.state m1 /\ RL.config k1 = RL.config m1)
    (foldM (RL.bill_account cpu1 net slot) m1 l) (foldM (RL.bill_account cpu2 net slot) m2 l).
Proof.
  intros Hl. revert m1 m2. induction Hl as [|a l Ha Hl IH]; intros m1 m2 Hw Hm; [by apply follows_ret|].
  destruct Hm as (Es & Ec & El & Hu). cbn [foldM]. eapply (follows_bind (fun k1 k2 => alike l k1 k2 /\ RL.state k1 = RL.state m1 /\ RL.config k1 = RL.config m1)).
  - destruct (Hu a ltac:(left)) as [Ea Hr]. rewrite !bill_row. unfold RL.get_row. rewrite Ea.
    destruct (RL.usage m1 !! a) as [u|] eqn:Eu; [|apply agree_follows, agree_throw]. cbn [mbind result_bind].
    destruct (Hr u Eu) as [V C]. rewrite (billed_row_same _ _ _ m1 m2) by done.
    eapply follows_bind; [by apply billed_row_follows|]. intros u1 u2 _. apply follows_ret. split; [|done].
    split_and!; [done..|]. intros c Hc. assert (a <> c) by set_solver. unfold row_fits. cbn. rewrite !lookup_insert_ne by done.
    apply Hu. by right.
  - intros k1 k2 (Hk & Ek & Ec'). rewrite <-Ek, <-Ec'. apply IH; [by rewrite Ec'|done].
Qed.

(** A bill that the producer refuses for another reason than the CPU time is
    refused by the validator. *)
Lemma add_usage_follows l m : NoDup l -> usage_fits m ->
  u64 (RL.pending_cpu_usage (RL.state m) + cpu1) <= RL.max (RL.cpu_limit_parameters (RL.config m)) ->
  follows (fun _ _ => True) (RL.add_transaction_usage m l cpu1 net slot) (RL.add_transaction_usage m l cpu2 net slot).
Proof.
  intros Hl Hu Hb. unfold RL.add_transaction_usage. pose proof (uf_window _ Hu).
  eapply follows_bind; [apply bills_follow; [done|lia|]|].
  { split_and!; [done..|]. intros a _. split; [done|]. intros u Hx. by destruct (uf_rows _ Hu _ _ Hx) as (_ & ? & ?). }
  intros k1 k2 ((Es & Ec & _) & E1 & E2). rewrite Es, Ec, E1, E2. cbn zeta. cbn [RL.pending_cpu_usage RL.pending_net_usage RL.add_pending].
  eapply (follows_bind (fun _ _ => True)).
  { rewrite (proj2 (Z.leb_le _ _) Hb). destruct (_ <=? _); [by apply follows_ret|by apply follows_throw]. }
  intros _ _ _. follows_eq_step. by apply follows_ret.
Qed.
End refused.

End BillingAgreement.
