(* ===== verification/ScheduledAgreement.v ===== *)
(** * Agreement on generated transactions

    A node that validates a block retires its generated transactions with the
    CPU time of their receipts.  Whatever happened to a transaction in the
    block of the producer (it expired, was executed, failed and its sender
    handled the error, or failed and was billed) happens to it again, with the
    same receipt and the same effects. *)

From S2P Require Import Prelude Names Merkle ProducerSchedule Authority AuthorityChecker.
From S2P Require Import Accumulators ResourceLimits AuthorizationManager AuthActions AccessLists.
From S2P Require Import ChainConfig BlockHeaderState Transactions TransactionContext TransactionBilling TableIndex.
From S2P Require Import ContractTables ActionExecution ContractCode DeferredTransactions ChainHost.
From S2P Require Import ScheduledExecution InputExecution Agreement TableAgreement ExecutionAgreement.
From S2P Require Import HandlerAgreement ChainAgreement ContextAgreement InputAgreement BillingAgreement.

Module ScheduledAgreement.
Import Accumulator DeferredTransactions ScheduledExecution Agreement TableAgreement ChainAgreement ContextAgreement.
Import ExecutionAgreement InputAgreement BillingAgreement.

Lemma block_limit m : block_budget m -> s64 (RL.get_block_cpu_limit m)
  = RL.max (RL.cpu_limit_parameters (RL.config m)) - RL.pending_cpu_usage (RL.state m).
Proof. intros [Hp Hm]. unfold RL.get_block_cpu_limit. rewrite u64_small, s64_small by lia. done. Qed.

Section scheduled.
Context {K Bytes : Type} `{Countable K}.
Abbreviation world := (world K Bytes).
Abbreviation context := (@TC.context K Bytes).
Abbreviation gto := (generated_transaction_object Bytes).
Abbreviation transaction := (TX.transaction Bytes).

Lemma objective_limit_block (g : @TC.controller K _ _) (t : transaction) m : objective_limit g t m <= s64 (RL.get_block_cpu_limit m).
Proof. unfold objective_limit, TC.initial_duration_limit. destruct (_ <=? _) eqn:E1, (_ && _) eqn:E2; cbn; bool_to_prop; lia. Qed.

Section failing.
Context (g1 g2 : @TC.controller K _ _) (Hg : validator_control g1 g2) (Hcf : config_fits g1).

(** The validator refuses a time within the objective limit only with
    exceptions that retire the transaction. *)
Lemma validator_refuses m0 b (c1 c2 : context) p1 p2 e : related_contexts g1 m0 b c1 c2 -> pays_more p1 p2 ->
  TC.validate_cpu_usage_to_bill g2 (billed_cpu c2 p2 b) b (TC.account_cpu_limit p2) true = Throw e -> objective e.
Proof.
  intros Hc Hp. unfold TC.validate_cpu_usage_to_bill. destruct (vc_skip _ _ Hg) as [_ S2]. rewrite S2. cbn [negb].
  intros [Hm|([] & _ & Hv)]%bind_throw_inv; [by apply EOS_ASSERT_throw in Hm as [_ <-]|]. revert Hv.
  unfold TC.validate_account_cpu_usage. destruct (_ && _) eqn:Eb; [|done]. bool_to_prop.
  unfold TC.cpu_limit_and_exception, billed_cpu, TC.final_cpu. pose proof (rc_within _ _ _ _ _ Hc) as Hw. rewrite <-(rc_limit _ _ _ _ _ Hc) in Hw.
  destruct (pm_listed _ _ Hp) as [_ Hl]. rewrite (rc_unlisted _ _ _ _ _ Hc), Hl.
  destruct (TC.account_cpu_limit p2 <=? TC.objective_duration_limit (TC.cpu c2)) eqn:E1; cbn; rewrite ?Z.leb_refl, ?E1; cbn.
  - by intros [_ <-]%EOS_ASSERT_throw.
  - destruct (bool_decide _); intros [Hx <-]%EOS_ASSERT_throw; [|done]. lia.
Qed.

Record checked_alike (m0 : RL.manager) (b : Z) (r1 r2 : context) : Prop := {
  ca_rl : TC.rl r2 = TC.rl r1;
  ca_fixed : fixed m0 (TC.rl r1);
  ca_bill : TC.bill_to_accounts r2 = TC.bill_to_accounts r1;
  ca_usage : TC.net_usage (TC.net r2) = TC.net_usage (TC.net r1);
  ca_billed : TC.billed_cpu_time_us (TC.cpu r2) = b;
  ca_time : 0 <= TC.billed_cpu_time_us (TC.cpu r1);
  ca_duration : TC.billed_cpu_time_us (TC.cpu r1) <= 0 \/
    TC.billed_cpu_time_us (TC.cpu r1) <= ChainConfig.max_transaction_cpu_usage (TC.configuration g1) /\
    TC.billed_cpu_time_us (TC.cpu r1) <= s64 (RL.get_block_cpu_limit m0);
}.

Lemma finalize_checks_follow m0 b (c1 c2 : context) now1 now2 : related_contexts g1 m0 b c1 c2 ->
  TC.objective_duration_limit (TC.cpu c1) <= s64 (RL.get_block_cpu_limit m0) ->
  follows (fun r1 r2 => checked_alike m0 b r1 r2 /\ TC.bill_to_accounts r1 = TC.bill_to_accounts c1)
    (TC.finalize_checks g1 c1 now1) (TC.finalize_checks g2 c2 now2).
Proof.
  intros Hc Hl. rewrite !finalize_checks_eq. eapply follows_bind; [by eapply agree_follows, final_limits_agree|].
  intros [d p1] [d2 p2] (Ed & Hd & Hp). cbn in Ed, Hd, Hp. subst d2. cbn zeta. cbn [TC.billed_cpu_time_us billed_cpu].
  assert (TC.update_billed_cpu_time g2 c2 now2 = b) as ->
    by (unfold TC.update_billed_cpu_time; rewrite (rc_explicit _ _ _ _ _ Hc); apply (rc_billed _ _ _ _ _ Hc)).
  destruct (TC.validate_cpu_usage_to_bill g1 _ _ _ _) as [[]|e] eqn:E1; cycle 1.
  { apply follows_kept. unfold kept. by rewrite (producer_refuses _ _ _ _ _ (rc_measured _ _ _ _ _ Hc) E1). }
  apply (billed_within _ _ Hg) in E1 as [B1 B2]. pose proof (cf_min _ Hcf). pose proof (rc_small _ _ _ _ _ Hc).
  destruct (TC.validate_cpu_usage_to_bill g2 _ _ _ _) as [[]|e] eqn:E2; [|eapply follows_throw, validator_refuses; [exact Hc|exact Hp|exact E2]].
  apply follows_ret. split; [|done]. split; cbn; try done.
  - apply (rc_bill _ _ _ _ _ Hc).
  - unfold TC.final_net. rewrite (nc_usage _ _ (nc_covers _ _ (rc_net _ _ _ _ _ Hc))). by repeat case_match.
  - lia.
  - destruct (decide (0 < TC.update_billed_cpu_time g1 c1 now1)) as [Hpos|]; [|lia]. right. apply B2 in Hpos. lia.
Qed.

Lemma finalize_follows m0 b (c1 c2 : context) now1 now2 : related_contexts g1 m0 b c1 c2 -> is_u32 b ->
  NoDup (TC.bill_to_accounts c1) -> block_budget m0 -> TC.objective_duration_limit (TC.cpu c1) <= s64 (RL.get_block_cpu_limit m0) ->
  follows (fun _ _ => True) (TC.finalize g1 c1 now1) (TC.finalize g2 c2 now2).
Proof.
  intros Hc Hb Hd Hbud Hl. unfold TC.finalize. eapply follows_bind; [by eapply finalize_checks_follow|].
  intros r1 r2 [[Er (Es & Ec & _ & Hu) Ebill Eu Eb Hpos Hdur] Ea]. rewrite (block_limit _ Hbud) in Hdur. pose proof (cf_cpu _ Hcf) as Hmax.
  eapply follows_bind; [|intros ? ? _; by apply follows_ret]. unfold TC.bill_transaction.
  rewrite Er, Ebill, Eu, Eb, (vc_time _ _ Hg). rewrite (u64_small b) by lia. destruct Hbud as [Hpend Hcap].
  rewrite (u64_small (TC.billed_cpu_time_us (TC.cpu r1))) by lia.
  apply add_usage_follows; [lia|lia|by rewrite Ea|done|]. rewrite Es, Ec, u64_small by lia. lia.
Qed.

(** ** A time above the limit of the transaction *)

(** The limit of a transaction that sets none. *)
Definition plain_limit (m : RL.manager) : Z :=
  Z.min (ChainConfig.max_transaction_cpu_usage (TC.configuration g1)) (s64 (RL.get_block_cpu_limit m)).

Lemma objective_limit_plain (t : transaction) m : objective_limit g1 t m <= plain_limit m.
Proof. pose proof (objective_limit_block g1 t m). pose proof (objective_limit_small g1 t m). unfold plain_limit. lia. Qed.

Lemma objective_limit_unset (t : transaction) m : TX.max_cpu_usage_ms t = 0 -> objective_limit g1 t m = plain_limit m.
Proof.
  intros Ht. unfold objective_limit, TC.initial_duration_limit, plain_limit. rewrite Ht. cbn [Z.ltb Z.compare andb].
  destruct (_ <=? _) eqn:E; cbn; bool_to_prop; lia.
Qed.

Lemma init_refuses (o : @TC.options Bytes) b d ts i cfa pub usage now : TC.explicit_billed_cpu_time o = true ->
  let m := AM.resources d in
  0 < b -> objective_limit g1 (TC.trx o) m < b <= plain_limit m ->
  TC.init g2 (TC.set_entry (TC.new_context o TC.time_point_maximum b d ts) i cfa pub) usage now = Throw tx_cpu_usage_exceeded.
Proof.
  intros Ex m Hb Hlim. unfold TC.init. cbn [TC.opts TC.set_entry TC.new_context TC.is_initialized TC.timer TC.cpu TC.net
    TC.billing_timer_exception_code TC.billed_cpu_time_us TC.cpu_limit_due_to_greylist negb EOS_ASSERT mbind result_bind].
  unfold TC.rl. cbn [TC.db TC.set_entry TC.new_context]. rewrite Ex, (duration_limit_same _ _ Hg), (net_limit_same _ _ Hg).
  destruct (TC.initial_net_limit g1 _ _ _) as [nl due]. fold m.
  pose proof (objective_limit_any g1 (TC.trx o) m (TC.start o) block_cpu_usage_exceeded) as El. pose proof (cf_cpu _ Hcf) as Hw.
  assert ((TC.initial_duration_limit g1 (TC.trx o) m (TC.start o) block_cpu_usage_exceeded).1.2 = tx_cpu_usage_exceeded) as Ec.
  { rewrite <-El in Hlim. unfold plain_limit, TC.initial_duration_limit in *. destruct (_ <=? _) eqn:E1, (_ && _) eqn:E2; cbn in *; try done. bool_to_prop. lia. }
  destruct (TC.initial_duration_limit g1 _ _ _ _) as [[dur code] dead]. cbn in El, Ec. subst dur code. unfold plain_limit in Hlim.
  unfold TC.validate_cpu_usage_to_bill, TC.validate_account_cpu_usage, TC.cpu_limit_and_exception.
  destruct (vc_skip _ _ Hg) as [_ ->]. cbn [negb mbind result_bind TC.objective_duration_limit TC.billing_timer_exception_code TC.billed_cpu_time_us TC.cpu_limit_due_to_greylist].
  rewrite (proj2 (Z.ltb_lt 0 b) Hb). rewrite (proj2 (Z.leb_gt INT64_MAX _)) by (unfold INT64_MAX; lia). rewrite bool_decide_eq_false_2 by done.
  cbn [negb andb orb]. by rewrite (proj2 (Z.leb_gt b _)) by lia.
Qed.

End failing.

(** ** Executing a generated transaction *)

Section nodes.
Context (pack_onerror : Z -> transaction -> Bytes).
Context (f : library K Bytes) (v : ChainHost.natives K Bytes) (y1 y2 : ChainHost.runtime Bytes) (Hy : validator_runtime y1 y2).
Context (n1 n2 : node K Bytes) (Hn : validator_node n1 n2) (Hcf : config_fits (trx_control n1)).
Context (q1 q2 : request) (w1 w2 : world) (Hw : same_chain w1 w2).
Abbreviation g1 := (trx_control n1).
Abbreviation g2 := (trx_control n2).
Abbreviation VC := (vn_control _ _ Hn).
Abbreviation m := (CT.resources (tables w1)).
Abbreviation b := (billed_cpu_time_us q2).

(** The two calls: the validator's comes with the time of the receipt. *)
Record retires : Prop := {
  rt_measured : explicit_billed_cpu_time q1 = false;
  rt_explicit : explicit_billed_cpu_time q2 = true;
  rt_deadline : block_deadline q2 = TC.time_point_maximum;
  rt_clock : not_late (start q2) (now_init q2);
  rt_error_clock : not_late (error_start q2) (now_error_init q2);
}.
Hypothesis Hq : retires.
Hypothesis Hs : shares_fit m.
Hypothesis Hu : usage_fits m.
Abbreviation Hbud := (sf_budget _ Hs).

Lemma finish_follows (c1 c2 : context) run1 run2 now1 now2 : related_contexts g1 m b c1 c2 -> is_u32 b ->
  NoDup (TC.bill_to_accounts c1) -> TC.objective_duration_limit (TC.cpu c1) <= s64 (RL.get_block_cpu_limit m) ->
  agree (same_world m) run1 run2 -> follows (fun _ _ => True) (finish g1 c1 run1 now1) (finish g2 c2 run2 now2).
Proof.
  intros Hc Hb Hd Hl Hr. unfold finish. eapply follows_bind; [by apply agree_follows|]. intros x1 x2 Hx.
  eapply follows_bind; [eapply (finalize_follows _ _ VC Hcf); [by apply context_of_related|done|done|exact Hbud|done]|].
  intros r1 r2 _. by apply follows_ret.
Qed.

(** The producer's lists do not bind the validator. *)
Lemma actors_agree (o : gto) : agree (fun _ (_ : unit) => True)
  (if enforces_lists n1 o && TC.is_producing_block g1
   then AccessLists.check_actor_list (TC.access g1) (actors_of (packed_trx o)) else mret tt)
  (if enforces_lists n2 o && TC.is_producing_block g2
   then AccessLists.check_actor_list (TC.access g2) (actors_of (packed_trx o)) else mret tt).
Proof.
  rewrite (vc_producing _ _ VC), andb_false_r. apply agree_check. destruct (_ && _); [|done]. apply actor_list_subjective.
Qed.

(** [execute_scheduled], with the time of the receipt within the limit. *)
Lemma scheduled_init_agree (o : gto) : b <= 0 \/ b <= objective_limit g1 (packed_trx o) m ->
  agree (related_contexts g1 m b)
    (TC.init_for_deferred_trx g1 (TC.new_context (scheduled_options n1 q1 o) (block_deadline q1) (billed_cpu_time_us q1)
       (database_of w1) []) (published o) (now_init q1))
    (TC.init_for_deferred_trx g2 (TC.new_context (scheduled_options n2 q2 o) (block_deadline q2) b
       (database_of w2) []) (published o) (now_init q2)).
Proof.
  intros Hb. rewrite (database_of_same _ _ Hw), (rt_deadline Hq).
  apply (init_for_deferred_agree _ _ VC Hcf); cbn; try done; apply Hq.
Qed.

Lemma scheduled_run_agree (o : gto) (c1 c2 : context) : related_contexts g1 m b c1 c2 ->
  agree (same_world m)
    (ChainHost.exec f v y1 (with_trx n1 (packed_trx o) 0 (enforces_lists n1 o) false) false (published o) (world_of c1 w1))
    (ChainHost.exec f v y2 (with_trx n2 (packed_trx o) 0 (enforces_lists n2 o) false) false (published o) (world_of c2 w2)).
Proof.
  intros Hc. apply exec_agree; [done|by apply with_trx_validator|by split|]. by apply (world_of_related _ _ _ _ _ _ _ Hc).
Qed.

Lemma execute_scheduled_replays (o : gto) r1 w1' : execute_scheduled f v y1 n1 q1 o w1 = Ok (r1, w1') ->
  b = u32 (TC.billed_cpu_time_us (TC.cpu r1)) ->
  exists r2 w2', execute_scheduled f v y2 n2 q2 o w2 = Ok (r2, w2') /\ ends_alike (r1, w1') (r2, w2').
Proof.
  intros H1 Hb. unfold execute_scheduled in *. cbn zeta in *. apply bind_ok_inv in H1 as (c1 & Hi & H1).
  apply bind_ok_inv in H1 as ([] & Ha & H1). pose proof Hi as [El _]%init_for_deferred_limited. cbn in El.
  pose proof (objective_limit_small g1 (packed_trx o) m) as Hsm.
  destruct (finish_billed _ _ Hn Hcf _ _ _ _ _ H1 ltac:(by rewrite El)) as (B1 & B2 & B3). rewrite B2 in Hb. rewrite El, <-Hb in B3.
  destruct (agree_ok _ _ _ _ (scheduled_init_agree o B3) Hi) as (c2 & -> & Hc). cbn [mbind result_bind].
  destruct (agree_ok _ _ _ _ (actors_agree o) Ha) as ([] & -> & _). cbn [mbind result_bind].
  epose proof (finish_agree _ _ Hn _ _ _ _ _ _ (now_finalize q1) (now_finalize q2) Hc ltac:(by rewrite <-B1) (scheduled_run_agree o _ _ Hc)) as Hf.
  destruct (agree_ok _ _ _ _ Hf H1) as ([r2 w2'] & E2 & He). by exists r2, w2'.
Qed.
(** The context of a transaction that the producer has started. *)
Lemma limited_bounds (t : @TC.options Bytes) (c : context) : limited_by g1 t (database_of w1) c ->
  NoDup (TC.bill_to_accounts c) /\ TC.objective_duration_limit (TC.cpu c) <= s64 (RL.get_block_cpu_limit m).
Proof.
  intros (El & _ & Eb). rewrite Eb, El. split; [|apply objective_limit_block].
  apply FlatSet.wf_NoDup, TransactionBilling.accounts_to_bill_wf. constructor.
Qed.

Lemma execute_scheduled_fails (o : gto) e : is_u32 b -> b <= 0 \/ b <= plain_limit g1 m ->
  execute_scheduled f v y1 n1 q1 o w1 = Throw e -> kept e = false ->
  exists e', execute_scheduled f v y2 n2 q2 o w2 = Throw e' /\ objective e'.
Proof.
  intros Hb Hl H1 He. destruct (decide (b <= 0 \/ b <= objective_limit g1 (packed_trx o) m)) as [Hin|Hout].
  - eapply follows_fail; [|exact H1|exact He]. unfold execute_scheduled. eapply follows_bind.
    { apply agree_follows, agree_with; [by apply scheduled_init_agree|]. intros c. apply init_for_deferred_limited. }
    intros c1 c2 [Hc [Hd Hlim]%limited_bounds]. eapply follows_bind; [apply agree_follows, actors_agree|]. intros _ _ _.
    by apply (finish_follows c1 c2), scheduled_run_agree.
  - exists tx_cpu_usage_exceeded. split; [|done]. unfold execute_scheduled, TC.init_for_deferred_trx in *.
    cbn [TC.opts TC.new_context TC.trx scheduled_options] in *.
    destruct ((TX.expiration (packed_trx o) =? 0) || (length (TX.transaction_extensions (packed_trx o)) =? 0)%nat) eqn:Ex; cycle 1.
    { exfalso. cbn in H1. injection H1 as <-. revert He. unfold TC.disallow_transaction_extensions. by rewrite (vc_producer _ _ VC). }
    cbn [EOS_ASSERT mbind result_bind]. rewrite (rt_deadline Hq), (database_of_same _ _ Hw).
    rewrite (init_refuses _ _ VC Hcf); [done|apply Hq|lia|]. cbn. lia.
Qed.
(** ** Handling an error *)

Lemma error_transaction_same (o : gto) : error_transaction pack_onerror f n2 o = error_transaction pack_onerror f n1 o.
Proof. unfold error_transaction. by rewrite (vn_duplicate _ _ Hn), (vc_time _ _ VC), (vn_head _ _ Hn). Qed.

Lemma error_transaction_limit (o : gto) : objective_limit g1 (error_transaction pack_onerror f n1 o) m = plain_limit g1 m.
Proof. apply objective_limit_unset. unfold error_transaction. by destruct (no_duplicate_deferred_id n1). Qed.

(** [apply_onerror] before the receipt. *)
Definition error_run (y : ChainHost.runtime Bytes) (n : node K Bytes) (q : request) (o : gto) (w : world) : result (context * world) :=
  c ← TC.init_for_implicit_trx (trx_control n)
        (TC.new_context (error_options pack_onerror f n q o) (block_deadline q) (billed_cpu_time_us q) (database_of w) [])
        0 (now_error_init q);
  finish (trx_control n) c
    (ChainHost.exec_onerror f v y (with_trx n (error_transaction pack_onerror f n o) 0 (enforces_lists n o) false) (sender o)
       (published o) (world_of c w)) (now_error_finalize q).

Lemma apply_onerror_eq y n q (o : gto) w : apply_onerror pack_onerror f v y n q o w =
  ('(c, w) ← error_run y n q o w;
   r ← push_receipt (trx_id o) soft_fail (TC.billed_cpu_time_us (TC.cpu c)) (TC.net_usage (TC.net c));
   mret (w, r)).
Proof.
  unfold apply_onerror, error_run, finish. destruct (TC.init_for_implicit_trx _ _ _ _) as [c|]; [|done]. cbn [mbind result_bind].
  destruct (ChainHost.exec_onerror _ _ _ _ _ _ _) as [w'|]; [|done]. cbn [mbind result_bind].
  by destruct (TC.finalize _ _ _) as [c'|].
Qed.

Lemma error_init_agree (o : gto) : b <= 0 \/ b <= plain_limit g1 m ->
  agree (related_contexts g1 m b)
    (TC.init_for_implicit_trx g1 (TC.new_context (error_options pack_onerror f n1 q1 o) (block_deadline q1)
       (billed_cpu_time_us q1) (database_of w1) []) 0 (now_error_init q1))
    (TC.init_for_implicit_trx g2 (TC.new_context (error_options pack_onerror f n2 q2 o) (block_deadline q2) b
       (database_of w2) []) 0 (now_error_init q2)).
Proof.
  intros Hb. rewrite (database_of_same _ _ Hw), (rt_deadline Hq). apply (init_for_implicit_agree _ _ VC Hcf); cbn; try done; try apply Hq.
  - apply error_transaction_same.
  - by rewrite error_transaction_limit.
Qed.

Lemma error_exec_agree (o : gto) (c1 c2 : context) : related_contexts g1 m b c1 c2 ->
  agree (same_world m)
    (ChainHost.exec_onerror f v y1 (with_trx n1 (error_transaction pack_onerror f n1 o) 0 (enforces_lists n1 o) false)
       (sender o) (published o) (world_of c1 w1))
    (ChainHost.exec_onerror f v y2 (with_trx n2 (error_transaction pack_onerror f n2 o) 0 (enforces_lists n2 o) false)
       (sender o) (published o) (world_of c2 w2)).
Proof.
  intros Hc. rewrite error_transaction_same. apply exec_onerror_agree; [done|by apply with_trx_validator|by split|].
  by apply (world_of_related _ _ _ _ _ _ _ Hc).
Qed.

Lemma error_run_replays (o : gto) r1 w1' : error_run y1 n1 q1 o w1 = Ok (r1, w1') ->
  b = u32 (TC.billed_cpu_time_us (TC.cpu r1)) ->
  exists r2 w2', error_run y2 n2 q2 o w2 = Ok (r2, w2') /\ ends_alike (r1, w1') (r2, w2').
Proof.
  intros H1 Hb. unfold error_run in *. apply bind_ok_inv in H1 as (c1 & Hi & H1). pose proof Hi as [El _]%init_for_implicit_limited. cbn in El.
  rewrite error_transaction_limit in El. assert (plain_limit g1 m <= ChainConfig.max_transaction_cpu_usage (TC.configuration g1)) as Hsm
    by (unfold plain_limit; lia).
  destruct (finish_billed _ _ Hn Hcf _ _ _ _ _ H1 ltac:(by rewrite El)) as (B1 & B2 & B3). rewrite B2 in Hb. rewrite El, <-Hb in B3.
  destruct (agree_ok _ _ _ _ (error_init_agree o B3) Hi) as (c2 & -> & Hc). cbn [mbind result_bind].
  epose proof (finish_agree _ _ Hn _ _ _ _ _ _ (now_error_finalize q1) (now_error_finalize q2) Hc ltac:(by rewrite <-B1) (error_exec_agree o _ _ Hc)) as Hf.
  destruct (agree_ok _ _ _ _ Hf H1) as ([r2 w2'] & E2 & He). by exists r2, w2'.
Qed.

Lemma error_run_fails (o : gto) e : is_u32 b -> b <= 0 \/ b <= plain_limit g1 m -> error_run y1 n1 q1 o w1 = Throw e ->
  kept e = false -> exists e', error_run y2 n2 q2 o w2 = Throw e' /\ objective e'.
Proof.
  intros Hb Hl H1 He. eapply follows_fail; [|exact H1|exact He]. unfold error_run. eapply follows_bind.
  { apply agree_follows, agree_with; [by apply error_init_agree|]. intros c. apply init_for_implicit_limited. }
  intros c1 c2 [Hc [Hd Hlim]%limited_bounds]. by apply (finish_follows c1 c2), error_exec_agree.
Qed.

(** ** Receipts *)

Lemma finish_words g (c : context) run now r w tid st cpu : finish g c run now = Ok (r, w) ->
  push_receipt tid st cpu (TC.net_usage (TC.net r)) = Ok (mk_receipt tid st (u32 cpu) (u32 (TC.net_usage (TC.net r) / 8))).
Proof.
  unfold finish. intros H1. apply bind_ok_inv in H1 as (x & _ & H1). apply bind_ok_inv in H1 as (r' & H1 & [= <- <-]).
  unfold TC.finalize in H1. apply bind_ok_inv in H1 as (r0 & [pay Hk]%TransactionBilling.finalize_checked & H1).
  apply bind_ok_inv in H1 as (m' & _ & [= <-]). unfold push_receipt. cbn. rewrite (TransactionBilling.ck_words _ _ _ _ _ Hk).
  by rewrite Z.div_mul, Z.eqb_refl.
Qed.
(** ** The bill of a failure *)

Lemma can_pay_nonneg g mm l force pay : TC.max_bandwidth_billed_accounts_can_pay (K := K) g mm l force = Ok pay ->
  0 <= TC.account_cpu_limit pay.
Proof.
  unfold TC.max_bandwidth_billed_accounts_can_pay. intros H1. apply bind_ok_inv in H1 as (p & H1 & H2).
  apply bind_ok_inv in H2 as ([] & _ & [= ->]). eapply (foldM_inv _ (fun p => 0 <= TC.account_cpu_limit p)); [| |exact H1];
    [|cbn; by vm_compute].
  intros a x x' _ Hx H3. unfold TC.account_can_pay in H3. apply bind_ok_inv in H3 as ([] & _ & H3).
  apply bind_ok_inv in H3 as ([] & _ & [= <-]). repeat case_match; bool_to_prop; cbn; lia.
Qed.

Lemma objective_limit_nonneg (t : transaction) : 0 <= objective_limit g1 t m.
Proof.
  pose proof (block_limit _ Hbud) as Eb. destruct Hbud as [Hp _]. pose proof (cf_cpu _ Hcf) as Hm.
  unfold objective_limit, TC.initial_duration_limit. rewrite Eb. destruct (_ <=? _) eqn:E1, (_ && _) eqn:E2; cbn; bool_to_prop; lia.
Qed.

Abbreviation slot := (TC.slot_of (TC.pending_block_time g1)).
Abbreviation payers o := (TC.accounts_to_bill g1 (packed_trx o) []).
Abbreviation with_resources w r := (let s := tables w in
  set_tables w (CT.set_ram s r (CT.account_ram_deltas s) (CT.validate_ram_usage s))).

Lemma bill_failure_inv (o : gto) cpu w1' r : is_u32 cpu -> bill_failure n1 q1 o cpu w1 = Ok (w1', r) -> b = cpu_usage_us r ->
  is_u32 b /\ b <= objective_limit g1 (packed_trx o) m /\ r = mk_receipt (trx_id o) hard_fail b 0 /\
  exists m1 m2, RL.update_account_usage m (payers o) slot = Ok m1 /\
    RL.add_transaction_usage m1 (payers o) b 0 slot = Ok m2 /\ w1' = with_resources w1 m2.
Proof.
  intros Hcpu H1 Hb. unfold bill_failure, limits_at_failure in H1.
  pose proof (objective_limit_any g1 (packed_trx o) m (start q1) block_cpu_usage_exceeded) as El.
  destruct (TC.initial_duration_limit g1 _ _ _ _) as [[dur code] dead]. cbn in El. subst dur. rewrite (rt_measured Hq) in H1. cbn [andb negb orb EOS_ASSERT] in H1.
  rewrite (vc_producer _ _ VC) in H1. apply bind_ok_inv in H1 as ([m1 z] & H1 & H2).
  apply bind_ok_inv in H1 as (m1' & Hup & H1). apply bind_ok_inv in H1 as (pay & Hpay%can_pay_nonneg & H1). cbn in H1. injection H1 as -> <-.
  pose proof (objective_limit_nonneg (packed_trx o)) as Hpos.
  rewrite (u32_small (Z.min _ _)) in H2 by lia. set (z := Z.min (Z.min cpu (TC.account_cpu_limit pay)) (objective_limit g1 (packed_trx o) m)) in *.
  apply bind_ok_inv in H2 as (m2 & Hadd & H2). apply bind_ok_inv in H2 as (r' & Hr & [= <- <-]).
  unfold push_receipt in Hr. apply bind_ok_inv in Hr as ([] & _ & [= <-]). cbn in Hb. rewrite u32_small in Hb by lia. subst z.
  split; [lia|]. split; [lia|]. split; [by rewrite u32_small, Hb by lia|]. exists m1, m2. by rewrite Hb.
Qed.
Lemma validator_payers (o : gto) : is_u32 b -> b <= objective_limit g1 (packed_trx o) m ->
  (limits_at_failure n2 q2 o (CT.resources (tables w2))).1 = payers o.
Proof.
  intros Hb Hl. unfold limits_at_failure. replace (CT.resources (tables w2)) with m by (by destruct Hw as [u ->]).
  rewrite (duration_limit_same _ _ VC). pose proof (objective_limit_any g1 (packed_trx o) m (start q2) block_cpu_usage_exceeded) as El.
  pose proof (objective_limit_small g1 (packed_trx o) m) as Hsm.
  destruct (TC.initial_duration_limit g1 _ _ _ _) as [[dur code] dead]. cbn in El. subst dur.
  rewrite (validate_explicit _ _ VC Hcf) by (cbn; lia). cbn [is_ok negb]. rewrite andb_false_r. cbn.
  unfold TC.accounts_to_bill. by rewrite (vc_first _ _ VC).
Qed.

Lemma bill_failure_replays (o : gto) cpu w1' r : is_u32 cpu -> bill_failure n1 q1 o cpu w1 = Ok (w1', r) -> b = cpu_usage_us r ->
  exists w2', bill_failure n2 q2 o b w2 = Ok (w2', r) /\ same_chain w1' w2' /\ shares_fit (CT.resources (tables w1')).
Proof.
  intros Hcpu H1 Hb. apply bill_failure_inv in H1 as (Hx & Hl & -> & m1 & m2 & Hup & Hadd & ->); [|done..].
  pose proof (validator_payers o Hx Hl) as Hp. unfold bill_failure.
  destruct (limits_at_failure n2 q2 o _) as [l dur]. cbn in Hp. subst l. rewrite (vc_producing _ _ VC), (vc_time _ _ VC). cbn [mbind result_bind mret result_ret].
  replace (CT.resources (tables w2)) with m by (by destruct Hw as [u ->]).
  rewrite (update_then_add _ _ Hx (payers o) m m1 m2); [|by apply FlatSet.wf_NoDup, TransactionBilling.accounts_to_bill_wf; constructor|done..].
  cbn [mbind result_bind]. unfold push_receipt. cbn. rewrite u32_small by done. eexists. split; [done|].
  split; [destruct Hw as [u ->]; by exists u|]. eapply add_usage_fits; [exact Hadd|].
  assert (fixed m m1) as (_ & _ & ? & _); [|done]. eapply update_account_usage_fixed; [apply (TransactionBilling.slot_range g1)|exact Hup|by apply fixed_refl].
Qed.

(** ** The failure of a transaction *)

Lemma retire_failed_retired (n : node K Bytes) q (o : gto) e cpu (w0 w w' : world) r x : retire_failed n q o e cpu w0 w = Ok (w', Retired r x) ->
  is_subjective n e = false /\ x = Some e /\ bill_failure n q o cpu w = Ok (w', r).
Proof.
  unfold retire_failed. destruct (is_subjective n e); [done|]. intros H1.
  by apply bind_ok_inv in H1 as ([w2' r'] & H1 & [= <- <- <-]).
Qed.

Lemma retire_failed_replays (o : gto) e1 e2 used1 used2 w01 w02 w1' r x : 
  retire_failed n1 q1 o e1 (cpu_time_used n1 q1 used1) w01 w1 = Ok (w1', Retired r x) -> objective e2 -> b = cpu_usage_us r ->
  exists w2', retire_failed n2 q2 o e2 (cpu_time_used n2 q2 used2) w02 w2 = Ok (w2', Retired r (Some e2)) /\
    same_chain w1' w2' /\ shares_fit (CT.resources (tables w1')) /\ status r = hard_fail.
Proof.
  intros (_ & _ & H1)%retire_failed_retired [He _] Hb. assert (is_u32 (cpu_time_used n1 q1 used1)) as Hu1 by apply u32_range.
  pose proof (bill_failure_inv _ _ _ _ Hu1 H1 Hb) as (Hx & _ & Er & _).
  destruct (bill_failure_replays _ _ _ _ Hu1 H1 Hb) as (w2' & H2 & Hc & Hf). exists w2'. unfold retire_failed, is_subjective.
  rewrite (vc_producing _ _ VC), He. unfold cpu_time_used. rewrite (rt_explicit Hq), u32_small, H2 by done. by rewrite Er in *.
Qed.
Lemma error_run_words y (n : node K Bytes) q (o : gto) (w : world) c w' tid st cpu : error_run y n q o w = Ok (c, w') ->
  push_receipt tid st cpu (TC.net_usage (TC.net c)) = Ok (mk_receipt tid st (u32 cpu) (u32 (TC.net_usage (TC.net c) / 8))).
Proof. unfold error_run. intros H1. apply bind_ok_inv in H1 as (c0 & _ & H1). by eapply finish_words. Qed.

Lemma error_run_bounds (o : gto) c1 w1' : error_run y1 n1 q1 o w1 = Ok (c1, w1') ->
  let z := u32 (TC.billed_cpu_time_us (TC.cpu c1)) in is_u32 z /\ (z <= 0 \/ z <= plain_limit g1 m).
Proof.
  intros H1. unfold error_run in H1. apply bind_ok_inv in H1 as (c0 & Hi & H1). pose proof Hi as [El _]%init_for_implicit_limited. cbn in El.
  rewrite error_transaction_limit in El. destruct (finish_billed _ _ Hn Hcf _ _ _ _ _ H1) as (B1 & B2 & B3);
    [rewrite El; unfold plain_limit; lia|]. rewrite El in B3. cbn zeta. split; [apply u32_range|]. by rewrite B2.
Qed.

(** The result of [apply_onerror] is that of [error_run]. *)
Lemma apply_onerror_ok y (n : node K Bytes) q (o : gto) (w w' : world) r : apply_onerror pack_onerror f v y n q o w = Ok (w', r) <->
  exists c, error_run y n q o w = Ok (c, w') /\
    r = mk_receipt (trx_id o) soft_fail (u32 (TC.billed_cpu_time_us (TC.cpu c))) (u32 (TC.net_usage (TC.net c) / 8)).
Proof.
  rewrite apply_onerror_eq. split.
  - intros H1. apply bind_ok_inv in H1 as ([c w2'] & H1 & H2). rewrite (error_run_words _ _ _ _ _ _ _ _ _ _ H1) in H2.
    injection H2 as <- <-. by exists c.
  - intros (c & H1 & ->). rewrite H1. cbn [mbind result_bind]. by rewrite (error_run_words _ _ _ _ _ _ _ _ _ _ H1).
Qed.

Lemma apply_onerror_throw y (n : node K Bytes) q (o : gto) (w : world) e : apply_onerror pack_onerror f v y n q o w = Throw e <->
  error_run y n q o w = Throw e.
Proof.
  rewrite apply_onerror_eq. split; [|by intros ->]. intros [H1|([c w'] & H1 & H2)]%bind_throw_inv; [done|].
  by rewrite (error_run_words _ _ _ _ _ _ _ _ _ _ H1) in H2.
Qed.

(** What a failure that the producer retires is like. *)
Lemma handle_failure_bounds (o : gto) e w0 w1' r x : handle_failure pack_onerror f v y1 n1 q1 o e w0 w1 = Ok (w1', Retired r x) ->
  b = cpu_usage_us r -> subjective e = false /\ is_u32 b /\ (b <= 0 \/ b <= plain_limit g1 m).
Proof.
  intros H1 Hb. assert (forall e' used, retire_failed n1 q1 o e' (cpu_time_used n1 q1 used) w0 w1 = Ok (w1', Retired r x) ->
    subjective e' = false /\ is_u32 b /\ (b <= 0 \/ b <= plain_limit g1 m)) as Hr.
  { intros e' used (Hsub & _ & H2)%retire_failed_retired. unfold is_subjective in Hsub. rewrite (vc_producer _ _ VC) in Hsub.
    pose proof (bill_failure_inv _ _ _ _ (u32_range _) H2 Hb) as (Hx & Hl & _). pose proof (objective_limit_plain g1 (packed_trx o) m).
    split_and!; [done|lia..]. }
  unfold handle_failure in H1. destruct (negb _ && negb _) eqn:Eb; [|by eapply Hr]. apply andb_true_iff in Eb as [_ Hse%negb_true_iff].
  unfold is_subjective in Hse. rewrite (vc_producer _ _ VC) in Hse.
  destruct (apply_onerror _ _ _ _ _ _) as [[w2' r']|e'] eqn:Ea.
  - injection H1 as -> -> _. apply apply_onerror_ok in Ea as (c & Ea & ->). cbn in Hb. rewrite Hb. split; [done|]. by eapply error_run_bounds.
  - destruct (is_rethrown e'); [done|]. split; [done|]. by eapply Hr.
Qed.
(** The transaction is retired in the same way by both. *)
Definition retired_alike (w1' : world) (r : transaction_receipt) (res : result (world * outcome)) : Prop :=
  exists w2' x, res = Ok (w2', Retired r x) /\ same_chain w1' w2' /\ shares_fit (CT.resources (tables w1')) /\
    (x = None \/ status r = hard_fail).

Lemma handle_failure_replays (o : gto) e1 e2 w01 w02 w1' r x :
  handle_failure pack_onerror f v y1 n1 q1 o e1 w01 w1 = Ok (w1', Retired r x) -> b = cpu_usage_us r -> objective e2 ->
  retired_alike w1' r (handle_failure pack_onerror f v y2 n2 q2 o e2 w02 w2).
Proof.
  intros H1 Hb He. destruct (handle_failure_bounds _ _ _ _ _ _ H1 Hb) as (Hse & Hx & Hl). unfold handle_failure in *.
  assert (is_subjective n1 e1 = false) as E1 by (unfold is_subjective; by rewrite (vc_producer _ _ VC)).
  assert (is_subjective n2 e2 = false) as E2 by (unfold is_subjective; by rewrite (vc_producing _ _ VC), (proj1 He)).
  rewrite E1 in H1. rewrite E2. cbn [negb] in *. rewrite andb_true_r in *. destruct (negb _); cycle 1.
  { destruct (retire_failed_replays _ _ e2 _ (used_at_failure q2) _ w02 _ _ _ H1 He Hb) as (w2' & H2 & Hc & Hf & Hst). exists w2', (Some e2). auto. }
  destruct (apply_onerror pack_onerror f v y1 n1 q1 o w1) as [[w1'' r']|e'] eqn:Ea.
  - injection H1 as -> -> <-. apply apply_onerror_ok in Ea as (c1 & Ea & ->). cbn in Hb.
    destruct (error_run_replays _ _ _ Ea Hb) as (c2 & w2' & Hr & [Hd Hc]). cbn in Hd, Hc. exists w2', None.
    assert (apply_onerror pack_onerror f v y2 n2 q2 o w2 = Ok (w2', mk_receipt (trx_id o) soft_fail
      (u32 (TC.billed_cpu_time_us (TC.cpu c1))) (u32 (TC.net_usage (TC.net c1) / 8)))) as ->.
    { apply apply_onerror_ok. exists c2. by rewrite (cp_billed _ _ Hd), (cp_usage _ _ Hd). }
    split_and!; [done|done| |by left]. unfold error_run, finish in Ea. apply bind_ok_inv in Ea as (? & _ & Ea).
    apply bind_ok_inv in Ea as (? & _ & Ea). apply bind_ok_inv in Ea as (? & _ & [= <- <-]). apply (cp_fits _ _ Hd).
  - destruct (is_rethrown e') eqn:Er; [done|]. apply apply_onerror_throw in Ea.
    pose proof H1 as (Hs' & _ & _)%retire_failed_retired. unfold is_subjective in Hs'. rewrite (vc_producer _ _ VC) in Hs'.
    destruct (error_run_fails _ _ Hx Hl Ea) as (e'' & Ht & Ho); [unfold kept; by rewrite Hs', Er|].
    rewrite (proj2 (apply_onerror_throw y2 n2 q2 o w2 e'') Ht), (proj2 Ho).
    destruct (retire_failed_replays _ _ e'' _ (used_at_error_failure q2) _ w02 _ _ _ H1 Ho Hb) as (w2' & H2 & Hc & Hf & Hst). exists w2', (Some e''). auto.
Qed.

Lemma execute_scheduled_words (n : node K Bytes) y q (o : gto) (w : world) c w' tid st cpu : execute_scheduled f v y n q o w = Ok (c, w') ->
  push_receipt tid st cpu (TC.net_usage (TC.net c)) = Ok (mk_receipt tid st (u32 cpu) (u32 (TC.net_usage (TC.net c) / 8))).
Proof.
  unfold execute_scheduled. intros H1. apply bind_ok_inv in H1 as (c0 & _ & H1). apply bind_ok_inv in H1 as ([] & _ & H1).
  by eapply finish_words.
Qed.

(** After the transaction was removed. *)
Lemma retire_replays (o : gto) w01 w02 w1' r x :
  match ('(c, w) ← execute_scheduled f v y1 n1 q1 o w1;
         r ← push_receipt (trx_id o) executed (TC.billed_cpu_time_us (TC.cpu c)) (TC.net_usage (TC.net c));
         mret (w, r)) with
  | Ok (w, r) => mret (w, Retired r None)
  | Throw e => if is_rethrown e then Throw e else handle_failure pack_onerror f v y1 n1 q1 o e w01 w1
  end = Ok (w1', Retired r x) -> b = cpu_usage_us r ->
  retired_alike w1' r
    match ('(c, w) ← execute_scheduled f v y2 n2 q2 o w2;
           r ← push_receipt (trx_id o) executed (TC.billed_cpu_time_us (TC.cpu c)) (TC.net_usage (TC.net c));
           mret (w, r)) with
    | Ok (w, r) => mret (w, Retired r None)
    | Throw e => if is_rethrown e then Throw e else handle_failure pack_onerror f v y2 n2 q2 o e w02 w2
    end.
Proof.
  destruct (execute_scheduled f v y1 n1 q1 o w1) as [[c1 w1'']|e] eqn:E1; cbn [mbind result_bind].
  - rewrite (execute_scheduled_words _ _ _ _ _ _ _ _ _ _ E1). cbn [mbind result_bind mret result_ret]. intros [= -> <- <-] Hb. cbn in Hb.
    destruct (execute_scheduled_replays _ _ _ E1 Hb) as (c2 & w2' & Hr & [Hd Hc]). cbn in Hd, Hc. exists w2', None.
    rewrite Hr. cbn [mbind result_bind]. rewrite (execute_scheduled_words _ _ _ _ _ _ _ _ _ _ Hr). cbn [mbind result_bind mret result_ret].
    rewrite (cp_billed _ _ Hd), (cp_usage _ _ Hd). split_and!; [done|done| |by left].
    unfold execute_scheduled in E1. apply bind_ok_inv in E1 as (? & _ & E1). apply bind_ok_inv in E1 as ([] & _ & E1).
    apply bind_ok_inv in E1 as (? & _ & E1). apply bind_ok_inv in E1 as (? & _ & [= <- <-]). apply (cp_fits _ _ Hd).
  - destruct (is_rethrown e) eqn:Er; [done|]. intros H1 Hb. destruct (handle_failure_bounds _ _ _ _ _ _ H1 Hb) as (Hse & Hx & Hl).
    destruct (execute_scheduled_fails _ _ Hx Hl E1) as (e2 & -> & Ho); [unfold kept; by rewrite Hse, Er|].
    cbn [mbind result_bind]. rewrite (proj2 Ho). by eapply handle_failure_replays.
Qed.
End nodes.

(** ** [push_scheduled_transaction] *)

Lemma requiring_checks_validator (n1 n2 : node K Bytes) : validator_node n1 n2 ->
  validator_node (requiring_checks n1) (requiring_checks n2).
Proof. intros [[] ]. by split; [split|..]. Qed.

Lemma remove_scheduled_replays (f : library K Bytes) (w1 w2 : world) (o : gto) w1' : same_chain w1 w2 ->
  remove_scheduled_transaction f w1 o = Ok w1' -> shares_fit (CT.resources (tables w1)) -> usage_fits (CT.resources (tables w1)) ->
  exists w2', remove_scheduled_transaction f w2 o = Ok w2' /\ same_chain w1' w2' /\
    shares_fit (CT.resources (tables w1')) /\ usage_fits (CT.resources (tables w1')).
Proof.
  intros [u ->] H1 Hs Hu. unfold remove_scheduled_transaction in *. cbn [tables set_net]. apply bind_ok_inv in H1 as (r & Hr & [= <-]).
  rewrite Hr. cbn [mbind result_bind]. eexists. split; [done|]. split; [by exists u|].
  apply (add_pending_ram_fixed (CT.resources (tables w1))) in Hr as (_ & _ & ? & ?); [done|by apply fixed_refl].
Qed.

(** A generated transaction that the producer retires is retired by the
    validator. *)
Lemma push_scheduled_replays pack_onerror (f : library K Bytes) v (y1 y2 : ChainHost.runtime Bytes) (n1 n2 : node K Bytes) q1 q2
    tid (w1 w2 : world) w1' r x :
  validator_runtime y1 y2 -> validator_node n1 n2 -> config_fits (trx_control n1) -> retires q1 q2 -> same_chain w1 w2 ->
  shares_fit (CT.resources (tables w1)) -> usage_fits (CT.resources (tables w1)) ->
  push_scheduled_transaction pack_onerror f v y1 n1 q1 tid w1 = Ok (w1', Retired r x) ->
  billed_cpu_time_us q2 = cpu_usage_us r ->
  retired_alike w1' r (push_scheduled_transaction pack_onerror f v y2 n2 q2 tid w2).
Proof.
  intros Hy Hn%requiring_checks_validator Hcf Hq Hc Hs Hu H1 Hb. unfold push_scheduled_transaction in *.
  replace (find_by_trx_id w2 tid) with (find_by_trx_id w1 tid) by (by destruct Hc as [u ->]).
  destruct (find_by_trx_id w1 tid) as [o|]; [|done]. unfold push_scheduled in *. apply bind_ok_inv in H1 as ([] & _ & H1).
  rewrite (rt_explicit _ _ Hq), orb_true_r. cbn [EOS_ASSERT mbind result_bind]. apply bind_ok_inv in H1 as (u1 & Hr & H1).
  destruct (remove_scheduled_replays _ _ _ _ _ Hc Hr Hs Hu) as (u2 & -> & Hcu & Hsu & Huu). cbn [mbind result_bind].
  rewrite (vc_time _ _ (vn_control _ _ Hn)). apply bind_ok_inv in H1 as ([] & -> & H1). cbn [mbind result_bind].
  destruct (expiration o <? _); [|].
  2: { eapply (retire_replays pack_onerror f v y1 y2 Hy _ _ Hn); try done; by destruct Hcf; split. }
 
  apply bind_ok_inv in H1 as (r' & Hp & [= -> <- <-]). unfold push_receipt in *. cbn in *. injection Hp as <-. cbn in Hb.
  exists u2, None. rewrite Hb. split_and!; [|done|done|by left]. by rewrite (u32_small (u32 _)) by apply u32_range.
Qed.

End scheduled.
End ScheduledAgreement.
