(* ===== verification/ChainAccounting.v ===== *)
(** * Every byte of RAM is billed

    The theorem that joins the components: from genesis on, through
    transactions with arbitrary contracts, scheduled transactions however they
    end, the activation of replace_deferred, the updates of the permissions of
    the producers and changes of the resource limits, every account other than
    that of the producers is billed exactly what is stored for it. *)

From S2P Require Import Prelude Names Merkle ProducerSchedule Authority AuthorityChecker.
From S2P Require Import Accumulators ResourceLimits AuthorizationManager AuthActions AccessLists.
From S2P Require Import ChainConfig BlockHeaderState Transactions TransactionContext TransactionBilling TableIndex.
From S2P Require Import ContractTables TableInvariants TableSearch ActionExecution ActionOrder.
From S2P Require Import TransactionExecution ExecutionInvariants ContractCode DeferredTransactions.
From S2P Require Import ChainHost DeferredRam ChainInvariants ChainRam ScheduledExecution.
From S2P Require Import ScheduledOutcome InputExecution SystemAbi.

Module ChainAccounting.
Import DeferredTransactions ChainHost DeferredRam ChainRam ScheduledExecution InputExecution.
Module RL := ResourceLimits.

Section accounting.
Context {K Bytes : Type} `{Countable K}.
Abbreviation transaction := (TX.transaction Bytes).
Abbreviation world := (world K Bytes).
Abbreviation gto := (generated_transaction_object Bytes).
Abbreviation database := (@AM.database K).
Context (f : library K Bytes) (v : natives K Bytes).
Hypothesis libraries : libraries_ok f v.
Abbreviation ram_kept := (ram_kept f v).

(** ** Limits and billing of transactions are neutral *)

Record neutral (d d' : database) : Prop := {
  ne_tables : AA.same_tables d d';
  ne_inv : RL.inv (AM.resources d) -> RL.inv (AM.resources d');
  ne_billed a : RL.billed (AM.resources d') a = RL.billed (AM.resources d) a;
}.

Lemma same_tables_refl (d : database) : AA.same_tables d d.
Proof. by split. Qed.

Lemma set_resources_neutral (d : database) r : (RL.inv (AM.resources d) -> RL.inv r) ->
  (forall a, RL.billed r a = RL.billed (AM.resources d) a) -> neutral d (AM.set_resources d r).
Proof. intros Hi Hb. split; [by split|done|done]. Qed.

Lemma update_account_usage_neutral m accounts slot m' : is_u32 slot ->
  RL.update_account_usage m accounts slot = Ok m' ->
  (RL.inv m -> RL.inv m') /\ forall a, RL.billed m' a = RL.billed m a.
Proof.
  intros Hs H1. unfold RL.update_account_usage in H1. split.
  - intros Hm. eapply (foldM_inv _ RL.inv); [|exact Hm|exact H1]. intros x b b' _ Hb. by apply RL.touch_account_inv.
  - eapply ScheduledOutcome.foldM_billed; [|exact H1]. intros m1 a m2. apply ScheduledOutcome.touch_account_billed.
Qed.

Lemma add_transaction_usage_neutral m accounts cpu net slot m' : is_u64 cpu -> is_u64 net -> is_u32 slot ->
  RL.add_transaction_usage m accounts cpu net slot = Ok m' ->
  (RL.inv m -> RL.inv m') /\ forall a, RL.billed m' a = RL.billed m a.
Proof.
  intros Hc Hn Hs H1. split; [intros Hm; eapply RL.add_transaction_usage_inv; [..|exact H1]; done|].
  unfold RL.add_transaction_usage in H1. apply bind_ok_inv in H1 as (m1 & H1 & H2).
  do 2 apply bind_ok_inv in H2 as ([] & _ & H2). injection H2 as <-. intros a.
  change (RL.billed (RL.set_state m1 _) a) with (RL.billed m1 a).
  by apply (ScheduledOutcome.foldM_billed _ _ _ _ (ScheduledOutcome.bill_account_billed _ _ _) H1).
Qed.

Lemma slot_of_u32 t : is_u32 (TC.slot_of t).
Proof. apply u32_range. Qed.

Lemma init_neutral (g : @TC.controller K _ _) (c c' : @TC.context K Bytes) u now :
  TC.init g c u now = Ok c' -> neutral (TC.db c) (TC.db c').
Proof.
  intros H1. unfold TC.init in H1. apply bind_ok_inv in H1 as ([] & _ & H1).
  destruct (TC.initial_net_limit _ _ _ _) as [nl due]. destruct (TC.initial_duration_limit _ _ _ _ _) as [[dur code] dl].
  apply bind_ok_inv in H1 as ([] & _ & H1). apply bind_ok_inv in H1 as (m & Hm & H1).
  apply bind_ok_inv in H1 as (pay & _ & H1). destruct (_ <? nl); cbn zeta beta iota in H1;
  destruct (TC.limit_deadline _ _ _ _ _) as [dl2 code2]; destruct (TC.explicit_billed_cpu_time _);
    apply bind_ok_inv in H1 as ([] & _ & H1); apply bind_ok_inv in H1 as (nn & _ & H1);
    apply bind_ok_inv in H1 as ([] & _ & H1); injection H1 as <-;
    (apply set_resources_neutral; apply (update_account_usage_neutral _ _ _ _ (slot_of_u32 _) Hm)).
Qed.

Lemma touch_permissions_neutral (g : @TC.controller K _ _) l (d d' : database) :
  foldM (TC.touch_permission g) d l = Ok d' -> AA.same_tables d d' /\ AM.resources d' = AM.resources d.
Proof.
  revert d. induction l as [|a l IH]; intros d H1; cbn [foldM] in H1; [injection H1 as <-; split; [by split|done]|].
  apply bind_ok_inv in H1 as (d1 & H1 & H2). destruct (IH _ H2) as [[E1 E2 E3 E4 E5 E6] Er].
  unfold TC.touch_permission in H1. apply bind_ok_inv in H1 as (p & _ & H1). unfold AM.update_permission_usage in H1.
  destruct (AM.permission_usage_index d !! AM.usage_id p) as [t|] eqn:Eu; [|done]. injection H1 as <-.
  split; [|done]. split; try done. intros u. rewrite E4. cbn. rewrite lookup_insert_is_Some'. split; [|auto].
  intros [<-|?]; [by exists t|done].
Qed.

Lemma finalize_neutral (g : @TC.controller K _ _) (c c' : @TC.context K Bytes) now :
  TC.finalize g c now = Ok c' -> neutral (TC.db c) (TC.db c').
Proof.
  intros H1. unfold TC.finalize in H1. apply bind_ok_inv in H1 as (c1 & H1 & H2).
  apply bind_ok_inv in H2 as (m & Hm & [= <-]). unfold TC.finalize_checks in H1.
  apply bind_ok_inv in H1 as ([] & _ & H1). apply bind_ok_inv in H1 as (d & Hd & H1).
  apply bind_ok_inv in H1 as ([] & _ & H1). apply bind_ok_inv in H1 as (pay & _ & H1).
  do 2 apply bind_ok_inv in H1 as ([] & _ & H1). injection H1 as <-.
  assert (AA.same_tables (TC.db c) d /\ AM.resources d = AM.resources (TC.db c)) as [Hst Er].
  { destruct (TC.is_input c); [by eapply touch_permissions_neutral|]. injection Hd as <-. split; [by split|done]. }
  unfold TC.bill_transaction in Hm. cbn in Hm.
  apply add_transaction_usage_neutral in Hm as [Hi Hb]; [|apply u64_range| |apply slot_of_u32].
  - unfold TC.rl in Hi, Hb. cbn in Hi, Hb. rewrite Er in Hi, Hb. destruct Hst. by split.
  - assert (forall z, is_u64 (u64 z / 8 * 8)) as Hu by (intros z; pose proof (u64_range z) as Hz; pose proof (Z.mul_div_le (u64 z) 8); pose proof (Z.div_pos (u64 z) 8); lia).
    unfold TC.final_net. destruct (_ <=? _); apply Hu.
Qed.

(** ** Scheduled transactions *)

Lemma world_of_kept (w : world) (c : @TC.context K Bytes) : neutral (database_of w) (TC.db c) ->
  ram_kept (state_of w) (state_of (world_of c w)).
Proof.
  intros [[E1 E2 E3 E4 E5 E6] Hi Hb]. eapply neutral_kept; try done.
Qed.

Lemma execute_scheduled_kept y n q o (w w' : world) c :
  execute_scheduled f v y n q o w = Ok (c, w') -> ram_kept (state_of w) (state_of w').
Proof.
  intros H1. unfold execute_scheduled in H1. apply bind_ok_inv in H1 as (c1 & Hc & H1).
  apply bind_ok_inv in H1 as ([] & _ & H1). apply bind_ok_inv in H1 as (w1 & H1 & H2).
  apply bind_ok_inv in H2 as (c2 & Hf & [= <- <-]). unfold TC.init_for_deferred_trx in Hc.
  apply bind_ok_inv in Hc as ([] & _ & Hc). apply init_neutral in Hc. apply finalize_neutral in Hf.
  etrans; [by apply world_of_kept|]. etrans; [by eapply exec_kept|]. by apply world_of_kept.
Qed.

Lemma apply_onerror_kept pack y n q o (w w' : world) r :
  apply_onerror pack f v y n q o w = Ok (w', r) -> ram_kept (state_of w) (state_of w').
Proof.
  intros H1. unfold apply_onerror in H1. apply bind_ok_inv in H1 as (c1 & Hc & H1).
  apply bind_ok_inv in H1 as (w1 & H1 & H2). apply bind_ok_inv in H2 as (c2 & Hf & H2).
  apply bind_ok_inv in H2 as (r1 & _ & [= <- <-]). unfold TC.init_for_implicit_trx in Hc.
  apply bind_ok_inv in Hc as ([] & _ & Hc). apply init_neutral in Hc. apply finalize_neutral in Hf.
  etrans; [by apply world_of_kept|]. etrans; [by eapply exec_onerror_kept|]. by apply world_of_kept.
Qed.

Lemma bill_failure_kept n q o cpu (w w' : world) r : is_u32 cpu -> bill_failure n q o cpu w = Ok (w', r) ->
  ram_kept (state_of w) (state_of w').
Proof.
  intros Hcpu H1. unfold bill_failure in H1. destruct (limits_at_failure n q o _) as [accounts duration].
  apply bind_ok_inv in H1 as ([m1 cpu1] & H1 & H2). apply bind_ok_inv in H2 as (m2 & H2 & H3).
  apply bind_ok_inv in H3 as (r1 & _ & [= <- <-]).
  assert ((RL.inv (CT.resources (tables w)) -> RL.inv m1) /\
    (forall a, RL.billed m1 a = RL.billed (CT.resources (tables w)) a) /\ is_u32 cpu1) as (Hi1 & Hb1 & Hc1).
  { destruct (TC.is_producing_block _); [|by injection H1 as <- <-].
    apply bind_ok_inv in H1 as (m & Hm & H1). apply bind_ok_inv in H1 as (pay & _ & H1).
    apply bind_ok_inv in H1 as ([] & _ & H1). injection H1 as <- <-.
    apply update_account_usage_neutral in Hm as [? ?]; [|apply slot_of_u32]. split_and!; [done|done|apply u32_range..]. }
  apply add_transaction_usage_neutral in H2 as [Hi2 Hb2]; [|lia|lia|apply slot_of_u32].
  eapply neutral_kept; try done; [auto|]. intros a. by rewrite Hb2, Hb1.
Qed.

Lemma push_scheduled_kept pack y n q tid (w w' : world) out :
  push_scheduled_transaction pack f v y n q tid w = Ok (w', out) -> ram_kept (state_of w) (state_of w').
Proof.
  intros H1. unfold push_scheduled_transaction in H1. destruct (find_by_trx_id w tid) as [o|] eqn:Ef; [|done].
  apply find_generated in Ef as [Ho _]. generalize (requiring_checks n), H1. clear n H1. intros n H1. unfold push_scheduled in H1. apply bind_ok_inv in H1 as ([] & _ & H1).
  apply bind_ok_inv in H1 as (w1 & Hr & H1). apply bind_ok_inv in H1 as ([] & _ & H1).
  apply (remove_scheduled_kept f v libraries w w1 o Ho) in Hr.
  assert (forall e cpu w2 out2, is_u32 cpu -> retire_failed n q o e cpu w w1 = Ok (w2, out2) ->
    ram_kept (state_of w) (state_of w2)) as Hretire.
  { intros e cpu w2 out2 Hcpu H2. unfold retire_failed in H2. destruct (is_subjective n e); [by injection H2 as <- _|].
    apply bind_ok_inv in H2 as ([w3 r] & H2 & H3). injection H3 as <- _. etrans; [exact Hr|by eapply bill_failure_kept]. }
  destruct (_ <? _) in H1; [apply bind_ok_inv in H1 as (r & _ & H1); by injection H1 as <- _|].
  destruct (mbind _ _) as [[w2 r]|e] eqn:Ee in H1.
  - injection H1 as <- _. apply bind_ok_inv in Ee as ([c w3] & Ee & H2). apply bind_ok_inv in H2 as (r1 & _ & H2).
    injection H2 as <- _. etrans; [exact Hr|by eapply execute_scheduled_kept].
  - destruct (is_rethrown e); [done|]. unfold handle_failure in H1.
    destruct (negb _ && negb _); [|eapply Hretire; [apply u32_range|exact H1]].
    destruct (apply_onerror _ _ _ _ _ _ _ _) as [[w2 r]|e'] eqn:Ea.
    + injection H1 as <- _. etrans; [exact Hr|by eapply apply_onerror_kept].
    + destruct (is_rethrown e'); [done|]. eapply Hretire; [apply u32_range|exact H1].
Qed.

(** ** Input transactions *)

Lemma init_for_input_neutral (g : @TC.controller K _ _) er tid (c c' : @TC.context K Bytes) u p b now :
  TC.init_for_input_trx g er tid c u p b now = Ok c' -> neutral (TC.db c) (TC.db c').
Proof.
  intros H1. unfold TC.init_for_input_trx in H1. do 2 apply bind_ok_inv in H1 as ([] & _ & H1).
  apply bind_ok_inv in H1 as (c1 & H1 & H2). apply init_neutral in H1.
  destruct b; [by injection H2 as <-|]. by apply bind_ok_inv in H2 as (r & _ & [= <-]).
Qed.

Lemma push_transaction_kept y n s q m (p p' : pending_state K Bytes) t :
  push_transaction f v y n s q m p = Ok (t, p') -> ram_kept (state_of (chain p)) (state_of (chain p')).
Proof.
  intros H1. unfold push_transaction in H1. apply bind_ok_inv in H1 as ([] & _ & H1).
  destruct (apply_input _ _ _ _ _ _ _ _) as [[r p1]|e] eqn:Ea; [|destruct (is_rethrown e); [done|by injection H1 as _ <-]].
  injection H1 as _ <-. destruct (discards _ _ _); [done|]. unfold apply_input in Ea.
  apply bind_ok_inv in Ea as ([c w] & He & Ea). apply bind_ok_inv in Ea as ([r1 l] & _ & Ea). injection Ea as _ <-. cbn [chain].
  unfold execute_input in He. apply bind_ok_inv in He as (c1 & Hc & He). apply bind_ok_inv in He as ([] & _ & He).
  apply bind_ok_inv in He as (w1 & He & Hf). apply bind_ok_inv in Hf as (c2 & Hf & [= <- <-]).
  assert (neutral (database_of (chain p)) (TC.db c1)) as Hn.
  { unfold init_context in Hc. destruct (decide _); [|by apply init_for_input_neutral in Hc].
    unfold TC.init_for_implicit_trx in Hc. apply bind_ok_inv in Hc as ([] & _ & Hc). by apply init_neutral in Hc. }
  apply finalize_neutral in Hf. etrans; [by apply world_of_kept|]. etrans; [by eapply exec_kept|]. by apply world_of_kept.
Qed.

(** ** Genesis *)

Lemma empty_world_ok u : let w := empty_world u : world in
  chain_ok f v (state_of w) /\ forall a, rest f v (state_of w) a = 0.
Proof.
  intros w. destruct (no_generated_ok f loose RL.initialize_database AM.initialize_database u RL.initial_inv) as [Hw Hs].
  change (no_generated RL.initialize_database AM.initialize_database u) with w in Hw, Hs.
  assert (AA.same_tables AM.initialize_database (auth_database ∅ w)) as Hst by (by split).
  assert (forall a, rest f v (∅, w) a = 0) as Er.
  { intros a. rewrite rest_surplus, Hs. unfold auth_bytes.
    rewrite (AA.same_tables_charged _ (lo_keys _ _ libraries) _ _ a Hst), AA.initial_charged by apply libraries.
    unfold CC.contract_bytes, CC.code_bytes, CC.code_of, CC.abi_bytes, RL.billed. cbn. by rewrite !lookup_empty. }
  split; [|exact Er]. split; cbn [fst snd state_of].
  - exact Hw.
  - eapply AA.same_tables_wf; [exact Hst|]. by destruct (AA.initial_db_wf (K := K)).
  - apply (CC.so_code _ _ _ (CC.no_accounts_ok (sha256 v) (accepted v) (tables w) RL.initial_inv)).
  - intros a _. etrans; [|apply Z.eq_le_incl; symmetry; exact (f_equal2 Z.add (Er a) eq_refl)].
    unfold uncharged_in. by rewrite decide_False by set_solver.
Qed.

(** What genesis leaves unbilled of a native account. *)
Definition unbilled_abi (a : account_name) : Z :=
  if decide (a = AM.system_account_name) then 2132 else 0.

Lemma native_account_chain c t (w w' : world) a o ac b : chain_ok f v (state_of w) ->
  Name.empty a = false -> AA.storable o -> AA.storable ac ->
  create_native_account v c t w a o ac b = Ok w' ->
  chain_ok f v (state_of w') /\ (a ∉ dom (accounts (ledger w))) /\
  dom (accounts (ledger w')) = ({[a]} ∪ dom (accounts (ledger w))) /\
  forall x, loose x = false ->
    rest f v (state_of w') x = rest f v (state_of w) x - RL.only_for a x (unbilled_abi a).
Proof.
  intros Hk Hne Ho Hac H1. unfold create_native_account in H1. apply bind_ok_inv in H1 as (d & H1 & [= <-]).
  set (l := accounts (ledger w)) in *. destruct (AA.native_account_accounts _ _ _ _ _ _ _ _ _ _ H1) as [Hnone Hacc].
  cbn in Hnone. rewrite lookup_fmap in Hnone. apply fmap_None in Hnone. assert (a ∉ dom l) as Hnin by (by apply not_elem_of_dom).
  set (m := AE.set_is_privileged CC.new_metadata b). set (abi := if bool_decide _ then _ else _).
  assert (Z.of_nat (length abi) = unbilled_abi a) as Eabi.
  { unfold abi, unbilled_abi. case_bool_decide; [rewrite decide_True, SystemAbi.eosio_abi_bin_size by done|rewrite decide_False by done]; done. }
  assert (dom l ⊆ dom (<[a := m]> l)) as Hd by (rewrite dom_insert_L; set_solver).
  destruct (CC.new_account_wf (sha256 v) (accepted v) l (contracts (ledger w)) a m abi (ck_code _ _ _ Hk) Hnone) as [Hcode Hcb];
    [done|rewrite Eabi; unfold unbilled_abi; destruct (decide _); lia|].
  match goal with |- chain_ok _ _ (state_of (set_ledger _ ?bk)) /\ _ =>
    destruct (auth_chain f v libraries l (<[a := m]> l) w d bk (fun x => RL.only_for a x (unbilled_abi a)) Hd Hk) as [Hk' Er] end.
  - eapply AA.native_account_accounted; [apply libraries|by apply (auth_db_wf f v)|exact Hne|exact Ho|exact Hac|exact H1].
  - by rewrite fmap_insert, Hacc.
  - exact Hcode.
  - intros x. rewrite <- Eabi. exact (Hcb x).
  - intros x Hl. pose proof (ck_rest _ _ _ Hk x Hl) as Hr. cbn [state_of fst] in Hr. fold l in Hr. unfold state_of in Hr. fold l in Hr.
    pose proof (uncharged_mono l (<[a := m]> l) x Hd) as Hm. unfold RL.only_for. destruct (decide (x = a)) as [->|Hx]; [|lia].
    unfold uncharged_in in Hr. rewrite decide_False in Hr by done. unfold uncharged_in.
    rewrite decide_True by set_solver. unfold uncharged, unbilled_abi. repeat destruct (decide _); lia.
  - split; [exact Hk'|]. split; [done|]. split; [cbn; by rewrite dom_insert_L|exact Er].
Qed.

Lemma native_authorities_storable : AA.storable (empty_authority (K := K)) /\
  forall k : K, AA.storable (Authority.authority_of_key k 0).
Proof.
  split_and!; intros; (split_and!; [split_and!; [cbn; lia|repeat constructor; cbn; lia|cbn; lia]|cbn; lia|repeat constructor]).
Qed.

Lemma producer_permissions_chain c t (w w' : world) : chain_ok f v (state_of w) ->
  create_producer_permissions v c t w = Ok w' ->
  chain_ok f v (state_of w') /\
  forall a, loose a = false -> rest f v (state_of w') a = rest f v (state_of w) a.
Proof.
  intros Hk H1. unfold create_producer_permissions in H1. apply bind_ok_inv in H1 as (d & H1 & [= <-]).
  apply (AA.producer_permissions_accounted _ _ (lo_keys _ _ libraries)) in H1 as (Hd & Ei & Er & _ & _ & Hc);
    [|by apply (auth_db_wf f v)]. apply (producers_chain f v libraries); try done.
  intros a Ha. rewrite Hc. unfold RL.only_for. rewrite decide_False by done. unfold auth_bytes. lia.
Qed.

Lemma genesis_chain c t key u (w : world) : initialize_chain v c t key u = Ok w ->
  chain_ok f v (state_of w) /\ forall a, loose a = false -> rest f v (state_of w) a = - uncharged a.
Proof.
  intros H1. unfold initialize_chain in H1. destruct (empty_world_ok u) as [Hk0 Er0].
  destruct native_authorities_storable as (He & Hkey). pose proof (AA.active_producers_storable (K := K)) as Hp.
  apply bind_ok_inv in H1 as (w1 & H1 & H2).
  apply native_account_chain in H1 as (Hk1 & _ & Hd1 & Er1); [|done|done|apply Hkey..].
  apply bind_ok_inv in H2 as (w2 & H2 & H3).
  apply native_account_chain in H2 as (Hk2 & _ & Hd2 & Er2); [|done..].
  apply bind_ok_inv in H3 as (w3 & H3 & H4).
  apply native_account_chain in H3 as (Hk3 & _ & Hd3 & Er3); [|done..].
  apply producer_permissions_chain in H4 as [Hk Er4]; [|done].
  split; [done|]. intros a Hl. rewrite Er4, Er3, Er2, Er1, Er0 by done.
  unfold RL.only_for, unbilled_abi, uncharged. repeat destruct (decide _); subst; done || lia.
Qed.

(** ** The chain *)

(** What happens to the state of the chain: input transactions of any kind,
    scheduled transactions, the activation of replace_deferred, the update of
    the permissions of the producers at the start of a block, and the changes
    of the resource limits at the end of a block and by privileged contracts,
    which leave the RAM usage as it is. *)
Inductive chain_step : world -> world -> Prop :=
  | cs_input y n s q m (p p' : pending_state K Bytes) t :
      push_transaction f v y n s q m p = Ok (t, p') -> chain_step (chain p) (chain p')
  | cs_scheduled pack y n q tid w w' out :
      push_scheduled_transaction pack f v y n q tid w = Ok (w', out) -> chain_step w w'
  | cs_activate w w' : (forall a, billed w a < 2 ^ 63) ->
      activate_replace_deferred w = Ok w' -> chain_step w w'
  | cs_producers producers w w' : AA.schedule_names producers ->
      update_producers_authority producers w = Ok w' -> chain_step w w'
  | cs_limits w r : (RL.inv (CT.resources (tables w)) -> RL.inv r) ->
      (forall a, RL.billed r a = RL.billed (CT.resources (tables w)) a) ->
      chain_step w (set_tables w (CT.set_ram (tables w) r (CT.account_ram_deltas (tables w))
                                    (CT.validate_ram_usage (tables w)))).

Lemma chain_step_kept (w w' : world) : chain_step w w' -> ram_kept (state_of w) (state_of w').
Proof.
  intros [y n s q m p p' t H1|pack y n q tid w1 w1' out H1|w1 w1' Hb H1|producers w1 w1' Hs H1|w1 r Hi Hb].
  - by eapply push_transaction_kept.
  - by eapply push_scheduled_kept.
  - apply (keeps_state f v libraries).
    + intros Hw. by apply (step_keeps f loose (lo_pack _ _ libraries) (fun _ _ => true) (fun _ _ => true) (fun _ => true) (fun _ => true)), Hw; constructor.
    + unfold activate_replace_deferred in H1. by apply bind_ok_inv in H1 as (r & _ & [= <-]).
  - by eapply update_producers_kept.
  - by eapply neutral_kept.
Qed.

Lemma chain_steps_kept (w w' : world) : rtc chain_step w w' -> ram_kept (state_of w) (state_of w').
Proof. induction 1 as [|w1 w2 w3 H1 _ IH]; [done|]. etrans; [by apply chain_step_kept|exact IH]. Qed.

End accounting.

(** The libraries, restricted to histories in which only the [codes] are set. *)
Definition setting_only {K Bytes : Type} (codes : list (list Z)) (v : natives K Bytes) : natives K Bytes :=
  mk_natives (f64_lt v) (f128_lt v) (f64_is_nan v) (f128_is_nan v) (memory v) (which v) (key_lt v)
    (key_pack_size v) (sha256 v)
    (fun c => if decide (c ∈ codes) then validate_code v c else Throw misc_exception)
    (as_newaccount v) (as_setcode v) (as_setabi v).

(** The hash tells the sizes of the codes, and is not zero. *)
Definition hashes_apart (sha256 : list Z -> Merkle.digest_type) (codes : list (list Z)) : Prop :=
  (forall a b, a ∈ codes -> b ∈ codes -> sha256 a = sha256 b -> length a = length b) /\
  forall a, a ∈ codes -> sha256 a <> CC.no_hash.

(** What the other libraries promise: packed sizes are 32-bit numbers, unpacked
    values have the widths of their types, and the memory of the database cannot
    hold 2^32 rows of a table. *)
Record widths_ok {K Bytes : Type} (f : library K Bytes) (v : natives K Bytes) : Prop := {
  wi_pack t : is_u32 (pack_size f t);
  wi_memory s : memory v s = true -> TI.capacity s;
  wi_keys k : 0 <= key_pack_size v k < 2 ^ 32;
  wi_setcode b a : as_setcode v b = Ok a -> is_u32 (Z.of_nat (length (CC.sc_code a)));
  wi_setabi b a : as_setabi v b = Ok a -> is_u32 (Z.of_nat (length (CC.sa_abi a)));
  wi_newaccount b a : as_newaccount v b = Ok a ->
    Authority.authority_widths (AA.na_owner a) /\ Authority.authority_widths (AA.na_active a);
  wi_updateauth b a : as_updateauth f b = Ok a -> Authority.authority_widths (AM.ua_auth a);
}.

Lemma setting_only_ok {K Bytes : Type} (f : library K Bytes) (v : natives K Bytes) codes :
  widths_ok f v -> hashes_apart (sha256 v) codes -> libraries_ok f (setting_only codes v).
Proof.
  intros [] [Hs Hz].
  assert (forall c, accepted (setting_only codes v) c -> c ∈ codes) as Hin
    by (intros c Hc; unfold accepted in Hc; cbn in Hc; by destruct (decide _)).
  split; try done; cbn.
  - intros a b Ha Hb. apply Hs; by apply Hin.
  - intros a Ha _. apply Hz. by apply Hin.
Qed.

(** C5: every byte of RAM is billed.  From genesis on, through input
    transactions (with contracts that use the table and deferred-transaction
    intrinsics and send inline actions, and with the native actions), scheduled
    transactions however they end, the activation of replace_deferred, the
    updates of the producers' permissions when blocks start, and changes of the
    resource limits, every account other than that of the producers is billed
    exactly the bytes of its rows and tables, of the
    generated transactions that it pays for with their correction, of its
    permissions and links, and of its code and ABI; except for the ABI of
    the system account, which nobody is billed for.  Nothing is said of the
    account [eosio.prods], whose permissions the node rewrites without billing.
    Of the code hash it is only assumed that, of the [codes] that are set in the
    history, no two of different sizes have the same hash and none has the hash
    0; the histories are those in which setcode with any other code is refused
    ([setting_only]).  The bounds are those of the types: packed sizes are 32-bit numbers, a
    table has less than 2^32 rows, there are less than 2^63 accounts,
    schedules have at most 125 producers with non-empty names, and no
    account is billed 2^63 bytes when replace_deferred is activated. *)
Theorem chain_ram_accounted {K Bytes : Type} `{Countable K} (f : library K Bytes) (v : natives K Bytes)
    (codes : list (list Z)) c t key u (w0 w : world K Bytes) :
  widths_ok f v -> hashes_apart (sha256 v) codes ->
  initialize_chain v c t key u = Ok w0 -> rtc (chain_step f (setting_only codes v)) w0 w ->
  Z.of_nat (size (accounts (ledger w))) < 2 ^ 63 ->
  forall a, a <> AA.producers_account_name ->
    billed w a = stored_bytes f v (accounts (ledger w)) w a - uncharged a.
Proof.
  intros Hv Hc H0 Hs Hsz a Ha. pose proof (setting_only_ok f v codes Hv Hc) as Hl.
  destruct (genesis_chain f _ Hl _ _ _ _ _ H0) as [Hk Er].
  assert (loose a = false) as Hla by (by apply bool_decide_eq_false).
  destruct (proj2 (chain_steps_kept f _ Hl _ _ Hs) Hsz Hk) as [_ E]. specialize (E a Hla). rewrite Er in E by done.
  unfold rest, state_of in E. cbn [fst snd] in E.
  change (stored_bytes f (setting_only codes v)) with (stored_bytes f v) in E. lia.
Qed.

(** ** A chain with one transaction, which creates an account *)

Definition alice_account : @AA.newaccount Z :=
  AA.mk_newaccount AM.system_account_name RL.alice (Authority.authority_of_key 5 0)
    (Authority.authority_of_key 6 0).
Definition account_natives : natives Z unit :=
  let v := ScheduledOutcome.sample_natives in
  mk_natives (f64_lt v) (f128_lt v) (f64_is_nan v) (f128_is_nan v) (memory v) (which v) (key_lt v)
    (key_pack_size v) (sha256 v) (validate_code v) (fun _ => mret alice_account) (as_setcode v)
    (as_setabi v).
Definition genesis_key : Z := 3.
Definition genesis_world : world Z unit :=
  the_world (initialize_chain account_natives AM.ex_control 0 genesis_key sample_net).

(** The owner of the genesis key signs. *)
Definition newaccount_trx : @InputExecution.transaction_metadata Z unit :=
  mk_meta
    (TX.mk_transaction 946684900 0 0 0 0 0 []
       [AM.mk_action AM.system_account_name newaccount_name
          [Authority.mk_level AM.system_account_name AM.active_name] tt] [])
    100 20 50 [genesis_key] input.
Definition checking_node : node Z unit :=
  mk_node TransactionBilling.sample_controller true true true false true (Merkle.mk_digest 0 0 0 0)
    true false (packed newaccount_trx) 0.
Definition newaccount_pushed : result (trace * pending_state Z unit) :=
  push_transaction sample_library account_natives ScheduledOutcome.sample_runtime checking_node
    (mk_settings 5000 None None true) (mk_input_request 9000000000000 1000000 0 false 0 1000 1000 2000)
    newaccount_trx (mk_pending genesis_world [] []).
Definition alice_world : world Z unit :=
  match newaccount_pushed with Ok (_, p) => chain p | Throw _ => genesis_world end.

Lemma account_widths_ok : widths_ok sample_library account_natives.
Proof.
  split; try done.
  - intros t. apply sample_sizes.
  - intros s Hs. apply TableSearch.capacity_small. cbn in Hs. by bool_to_prop.
  - intros b a [= <-]. split; (split; [cbn; lia|repeat constructor; cbn; lia..]).
Qed.

(** One code may be set. *)
Definition account_codes : list (list Z) := [[0; 97; 115]].
Lemma account_hashes : hashes_apart (sha256 account_natives) account_codes.
Proof.
  split; [|intros a _; apply ContractCode.sample_sha256_nonzero].
  by intros a b ->%list_elem_of_singleton ->%list_elem_of_singleton.
Qed.

(** Then alice and the system account become the producers. *)
Definition alice_producer : world Z unit :=
  the_world (update_producers_authority [RL.alice; AM.system_account_name] alice_world).

Definition newaccount_set : result (trace * pending_state Z unit) :=
  push_transaction sample_library (setting_only account_codes account_natives) ScheduledOutcome.sample_runtime checking_node
    (mk_settings 5000 None None true) (mk_input_request 9000000000000 1000000 0 false 0 1000 1000 2000)
    newaccount_trx (mk_pending genesis_world [] []).

Lemma first_step {K Bytes : Type} `{Countable K} (f : library K Bytes) (v : natives K Bytes) y n s q m
    (w : world K Bytes) ids l t p :
  push_transaction f v y n s q m (mk_pending w ids l) = Ok (t, p) -> chain_step f v w (chain p).
Proof. apply (cs_input f v). Qed.

Definition pushed_world {K Bytes : Type} (r : result (trace * pending_state K Bytes)) (w : world K Bytes) : world K Bytes :=
  match r with Ok (_, p) => chain p | Throw _ => w end.

Lemma first_pushed {K Bytes : Type} `{Countable K} (f : library K Bytes) (v : natives K Bytes) y n s q m
    (w w' : world K Bytes) ids l r :
  push_transaction f v y n s q m (mk_pending w ids l) = r -> is_ok r = true -> pushed_world r w = w' ->
  chain_step f v w w'.
Proof. intros Hr Ho <-. destruct r as [[t p]|]; [|done]. by eapply first_step. Qed.

Lemma alice_reached : rtc (chain_step sample_library (setting_only account_codes account_natives)) genesis_world alice_producer.
Proof.
  apply (rtc_l _ _ alice_world).
  - apply (first_pushed _ _ ScheduledOutcome.sample_runtime checking_node (mk_settings 5000 None None true)
      (mk_input_request 9000000000000 1000000 0 false 0 1000 1000 2000) newaccount_trx _ _ [] [] newaccount_set); [reflexivity|vm_compute; reflexivity..].
  - apply rtc_once, (cs_producers _ _ [RL.alice; AM.system_account_name]);
      [split; [cbn; lia|repeat constructor]|vm_compute; reflexivity].
Qed.
Lemma alice_size : Z.of_nat (size (accounts (ledger alice_producer))) < 2 ^ 63.
Proof. apply (bool_decide_unpack _). vm_compute. exact I. Qed.

Lemma chain_ram_accounted_witness : billed alice_producer RL.alice = 2724 /\
  billed alice_producer RL.alice
  = stored_bytes sample_library account_natives (accounts (ledger alice_producer)) alice_producer RL.alice.
Proof.
  split; [vm_compute; reflexivity|].
  assert (initialize_chain account_natives AM.ex_control 0 genesis_key sample_net = Ok genesis_world) as H0
    by (vm_compute; reflexivity).
  pose proof (chain_ram_accounted sample_library account_natives account_codes AM.ex_control 0 genesis_key sample_net
    genesis_world alice_producer account_widths_ok account_hashes H0 alice_reached alice_size RL.alice) as E.
  change (uncharged RL.alice) with 0 in E. rewrite Z.sub_0_r in E. apply E. discriminate.
Defined.

End ChainAccounting.
