(* ===== verification/ChainReceipts.v ===== *)
(** * The receipts of the transactions of the chain

    Module [ChainReceipts] shows that the native actions keep the sequence
    numbers of the accounts, so that the receipts of any transaction, with
    contracts and native actions, are numbered without gaps. *)

From S2P Require Import Prelude Names Merkle ProducerSchedule Authority AuthorityChecker.
From S2P Require Import Accumulators ResourceLimits AuthorizationManager AuthActions AccessLists.
From S2P Require Import ChainConfig BlockHeaderState Transactions TransactionContext TransactionBilling TableIndex.
From S2P Require Import ContractTables TableInvariants TableSearch ActionExecution ActionOrder.
From S2P Require Import TransactionExecution ContractCode DeferredTransactions.
From S2P Require Import ChainHost DeferredRam ChainInvariants InputExecution ScheduledOutcome ChainAccounting.

Module ChainReceipts.
Import DeferredTransactions ChainHost ChainInvariants.

Section receipts.
Context {K Bytes : Type} `{Countable K}.
Abbreviation world := (world K Bytes).
Context (f : library K Bytes) (v : natives K Bytes) (y : runtime Bytes) (n : node K Bytes).

Lemma setcode_sequences validate block time x s act s' :
  CC.apply_eosio_setcode (sha256 v) validate block time x s act = Ok s' ->
  ActionOrder.same_sequences (CC.metadata s) (CC.metadata s').
Proof.
  intros H1. unfold CC.apply_eosio_setcode in H1. do 4 apply bind_ok_inv in H1 as ([] & _ & H1).
  destruct (CC.metadata s !! CC.sc_account act) as [m|] eqn:Em; [|done]. apply bind_ok_inv in H1 as ([] & _ & H1).
  apply bind_ok_inv in H1 as ([cs old] & _ & H1). apply bind_ok_inv in H1 as (t & _ & [= <-]).
  by apply (CC.metadata_changed _ _ m (CC.set_metadata_code time m act _) Em).
Qed.

Lemma setabi_sequences x s act s' : CC.apply_eosio_setabi x s act = Ok s' ->
  ActionOrder.same_sequences (CC.metadata s) (CC.metadata s').
Proof.
  intros H1. unfold CC.apply_eosio_setabi in H1. apply bind_ok_inv in H1 as ([] & _ & H1).
  destruct (CC.abis (CC.stored s) !! _); [|done]. destruct (CC.metadata s !! CC.sa_account act) as [m|] eqn:Em; [|done].
  apply bind_ok_inv in H1 as (t & _ & [= <-]). by apply (CC.metadata_changed _ _ m (CC.set_metadata_abi m) Em).
Qed.

(** The account of newaccount is new. *)
Lemma newaccount_sequences x l (w : world) l' w' : handle_newaccount v n x (l, w) = Ok (l', w') ->
  ActionOrder.same_sequences l l'.
Proof.
  intros H1. unfold handle_newaccount in H1. apply bind_ok_inv in H1 as (a & _ & H1).
  apply bind_ok_inv in H1 as ([l1 w1] & H1 & H2). unfold on_auth in H1. apply bind_ok_inv in H1 as (d & H1 & H3).
  injection H3 as <- <-. injection H2 as <- <-. cbn [fst snd] in *.
  apply AA.newaccount_accounts in H1 as [Hnone _]. cbn in Hnone. rewrite lookup_fmap in Hnone. apply fmap_None in Hnone.
  intros b m Hb. exists m. rewrite lookup_insert_ne by congruence. done.
Qed.

(** The handlers that the controller registers keep the sequence numbers. *)
Lemma handlers_keep_sequences pub : ActionOrder.native_keeps_sequences (environment_of f v y n pub).
Proof.
  intros a h x l w l' w' Hh%native_handler_in H1. unfold apply_handlers in Hh.
  repeat (apply elem_of_cons in Hh as [[= -> ->]|Hh]); [by eapply newaccount_sequences|..|by apply elem_of_nil in Hh];
    apply bind_ok_inv in H1 as (act & _ & H1).
  1-2: unfold on_code in H1; apply bind_ok_inv in H1 as (c & H1 & H2); injection H2 as <- <-.
  - by apply setcode_sequences in H1.
  - by apply setabi_sequences in H1.
  - apply bind_ok_inv in H1 as (d & _ & H1). injection H1 as <- <-. apply ActionOrder.same_sequences_refl.
  - apply bind_ok_inv in H1 as (d & _ & H1). injection H1 as <- <-. apply ActionOrder.same_sequences_refl.
  - apply bind_ok_inv in H1 as (d & _ & H1). injection H1 as <- <-. apply ActionOrder.same_sequences_refl.
  - apply bind_ok_inv in H1 as (d & _ & H1). injection H1 as <- <-. apply ActionOrder.same_sequences_refl.
  - apply bind_ok_inv in H1 as (d & _ & H1). injection H1 as <- <-. apply ActionOrder.same_sequences_refl.
Qed.

End receipts.

(** C21: Receipts are numbered in the order in which they are made.  When a
    transaction with any contracts and with the native actions of the chain has
    been executed, with less than 2^32 action traces, its receipts, in the order
    of their digests, are the receipts
    of its traces, one of each; their global sequence numbers go on from
    the one before the transaction, without gaps; and the sequence numbers of
    every account have grown by the number of actions that it received and
    authorized (all modulo 2^64). *)
Theorem receipts_in_order {K Bytes : Type} `{Countable K} (f : library K Bytes) (v : natives K Bytes)
    (y : runtime Bytes) (n : node K Bytes) (published : Z) (cf : bool) (cfas acts : list (@AM.action Bytes))
    (w : world K Bytes) (t' : AE.transaction_state Bytes (world K Bytes)) :
  let e := environment_of f v y n published in
  @AE.exec_transaction _ _ _ _ _ _ _ (chain_host f v n) e cf cfas acts (begin_transaction w) = Ok t' ->
  Z.of_nat (length (AE.action_traces t')) < 2 ^ 32 ->
  exists rs, Some <$> rs ≡ₚ AE.receipt <$> AE.action_traces t' /\
    AE.executed_action_receipt_digests t' = AE.hash_receipt e <$> rs /\
    AE.r_global_sequence <$> rs
      = (fun i : nat => u64 (global_action_sequence (ledger w) + Z.of_nat i)) <$> seq 1 (length rs) /\
    u64 (AE.global_action_sequence t') = u64 (global_action_sequence (ledger w) + Z.of_nat (length rs)) /\
    forall a m, accounts (ledger w) !! a = Some m -> exists m', AE.accounts t' !! a = Some m' /\
      u64 (AE.recv_sequence m') = u64 (AE.recv_sequence m
        + sum_with (fun tr => ActionOrder.receives a (AE.receiver tr)) (AE.action_traces t')) /\
      u64 (AE.auth_sequence m') = u64 (AE.auth_sequence m
        + sum_with (fun tr => ActionOrder.auths_of a (AE.act tr)) (AE.action_traces t')).
Proof.
  intros e H1 Hs.
  exact (TransactionExecution.receipts_numbered e cf cfas acts (begin_transaction w) t'
    (handlers_keep_sequences f v y n published) eq_refl H1 Hs).
Qed.

(** ** The transaction that creates an account *)

Definition created : result (AE.transaction_state unit (world Z unit)) :=
  @AE.exec_transaction _ _ _ _ _ _ _ (chain_host DeferredRam.sample_library ChainAccounting.account_natives ChainAccounting.checking_node)
    (environment_of DeferredRam.sample_library ChainAccounting.account_natives ScheduledOutcome.sample_runtime ChainAccounting.checking_node 0)
    false [] (TX.actions (InputExecution.packed ChainAccounting.newaccount_trx)) (begin_transaction ChainAccounting.genesis_world).
Definition created_state : AE.transaction_state unit (world Z unit) :=
  match created with Ok t => t | Throw _ => begin_transaction ChainAccounting.genesis_world end.

Lemma receipts_in_order_witness : exists m,
  AE.accounts created_state !! AM.system_account_name = Some m /\ u64 (AE.recv_sequence m) = 1 /\
  u64 (AE.auth_sequence m) = 1.
Proof.
  destruct (receipts_in_order DeferredRam.sample_library ChainAccounting.account_natives ScheduledOutcome.sample_runtime
    ChainAccounting.checking_node 0 false [] (TX.actions (InputExecution.packed ChainAccounting.newaccount_trx))
    ChainAccounting.genesis_world created_state) as (rs & _ & _ & _ & _ & Ha);
    [vm_compute; reflexivity|apply (bool_decide_unpack _); vm_compute; exact I|].
  destruct (Ha AM.system_account_name (AE.set_is_privileged CC.new_metadata true)) as (m & Hm & E1 & E2);
    [vm_compute; reflexivity|].
  exists m. split; [exact Hm|]. split; [rewrite E1; vm_compute; reflexivity|rewrite E2; vm_compute; reflexivity].
Defined.

End ChainReceipts.
