(* ===== verification/BlockReplay.v ===== *)
(** * The receipts of a produced block are accepted

    The theorem of this file puts the agreement of the two pushes together: the
    receipts of the block that a producer makes of its transactions pass the
    loop of [apply_block] over the receipts on a node that validates it in full,
    and the two nodes have the same state and the same receipts afterwards. *)

From S2P Require Import Prelude Names Merkle ProducerSchedule Authority AuthorityChecker.
From S2P Require Import Accumulators ResourceLimits AuthorizationManager AuthActions AccessLists.
From S2P Require Import ChainConfig BlockHeaderState Transactions TransactionContext TransactionBilling TableIndex.
From S2P Require Import ContractTables ActionExecution ContractCode DeferredTransactions ChainHost.
From S2P Require Import ScheduledExecution InputExecution BlockExecution Agreement TableAgreement ExecutionAgreement.
From S2P Require Import HandlerAgreement ChainAgreement ContextAgreement InputAgreement BillingAgreement ScheduledAgreement.
From S2P Require Import DeferredRam ScheduledOutcome ChainAccounting.

Module BlockReplay.
Import DeferredTransactions ScheduledExecution InputExecution BlockExecution.
Import Agreement TableAgreement ChainAgreement ContextAgreement InputAgreement ScheduledAgreement ChainAccounting.

Section replay.
Context {K Bytes : Type} `{Countable K}.

(** A receipt as the producer wrote it and as the validator reads it. *)
Definition same_receipt (r1 r2 : block_receipt K Bytes) : Prop :=
  receipt r2 = receipt r1 /\
  match br_trx r1, br_trx r2 with
  | by_id t1, by_id t2 => t1 = t2
  | packed_transaction m1, packed_transaction m2 => same_meta m1 m2
  | _, _ => False
  end.

(** The validator starts each execution less than a year before its clock. *)
Definition in_time (k : clock) : Prop := not_late (at_start k) (at_init k) /\ not_late (at_error_start k) (at_error_init k).

(** The checks of the receipt. *)
Lemma receipt_checks (l : list transaction_receipt) (r : transaction_receipt) (b : block_receipt K Bytes) :
  receipt b = receipt_header_of r ->
  (0 <? length (l ++ [r]))%nat = true /\ (length (l ++ [r]) =? length l + 1)%nat = true /\
  (match last (l ++ [r]) with Some r' => bool_decide (receipt_header_of r' = receipt b) | None => false end) = true.
Proof.
  intros Hb. rewrite length_app. cbn [length]. split_and!; [apply Nat.ltb_lt; lia|apply Nat.eqb_eq; lia|].
  rewrite last_snoc. by apply bool_decide_eq_true_2.
Qed.

Context (pack_onerror : Z -> TX.transaction Bytes -> Bytes).
Context (f : library K Bytes) (v : ChainHost.natives K Bytes) (y1 y2 : ChainHost.runtime Bytes) (Hy : validator_runtime y1 y2).
Context (n1 n2 : node K Bytes) (Hn : validator_node n1 n2) (Hcf : config_fits (trx_control n1)).
Context (s1 s2 : settings) (Hrh : replay_head_time s2 = replay_head_time s1).

Lemma push_transaction_recorded y n s q m (p p' : pending_state K Bytes) r : type m = input -> discards n s m = false ->
  push_transaction f v y n s q m p = Ok (Receipt r, p') -> trx_receipts p' = trx_receipts p ++ [r].
Proof.
  intros Hi Hd H1. unfold push_transaction in H1. apply bind_ok_inv in H1 as ([] & _ & H1).
  destruct (apply_input f v y n s q m p) as [[r' p'']|e] eqn:E1; [|by destruct (is_rethrown e)]. rewrite Hd in H1. injection H1 as -> ->.
  unfold apply_input in E1. apply bind_ok_inv in E1 as ([c w] & _ & E1). apply bind_ok_inv in E1 as ([r0 l] & E1 & [= -> <-]).
  unfold record_receipt in E1. rewrite decide_False in E1 by (by rewrite Hi). by apply bind_ok_inv in E1 as (r1 & _ & [= -> <-]).
Qed.

(** One round of the loop for each kind of receipt. *)
Lemma apply_receipt_ok (p2 p2' : pending_state K Bytes) b k r x : receipt b = receipt_header_of r ->
  push_receipt_trx pack_onerror f v y2 n2 s2 b k p2 = Ok (x, p2') -> trx_receipts p2' = trx_receipts p2 ++ [r] ->
  x = None \/ status r = hard_fail /\ match br_trx b with by_id _ => True | packed_transaction _ => False end ->
  apply_receipt pack_onerror f v y2 n2 s2 p2 (b, k) = Ok p2'.
Proof.
  intros Hb H2 Hr Hx. unfold apply_receipt. rewrite H2. cbn [mbind result_bind]. rewrite Hr.
  destruct (receipt_checks (trx_receipts p2) r b Hb) as (-> & -> & ->). cbn [EOS_ASSERT mbind result_bind].
  assert ((match x with Some e => if transaction_can_fail b then mret tt else Throw e | None => mret tt end) = @Ok unit tt) as ->; [|done].
  destruct x as [e|]; [|done]. destruct Hx as [?|[Hst Ht]]; [done|]. unfold transaction_can_fail. rewrite Hb. cbn. rewrite Hst. by destruct (br_trx b).
Qed.

Lemma input_receipt_replays (p1 p2 p1' : pending_state K Bytes) m1 m2 q r k : same_meta m1 m2 -> in_time k ->
  same_pending p1 p2 -> shares_fit (CT.resources (tables (chain p1))) -> usage_fits (CT.resources (tables (chain p1))) ->
  type m1 = input -> discards n1 s1 m1 = false -> in_explicit_billed_cpu_time q = false ->
  push_transaction f v y1 n1 s1 q m1 p1 = Ok (Receipt r, p1') ->
  exists p2', apply_receipt pack_onerror f v y2 n2 s2 p2 (mk_block_receipt (receipt_header_of r) (packed_transaction m2), k) = Ok p2' /\
    same_pending p1' p2' /\ shares_fit (CT.resources (tables (chain p1'))).
Proof.
  intros Hm [Hk _] Hp Hs Hu Hi Hd Hq H1.
  destruct (push_transaction_replays f v y1 y2 Hy n1 n2 Hn Hcf s1 s2 q (input_call (cpu_usage_us r) k) m1 m2 p1 p2 r p1')
    as (p2' & H2 & Hp' & Hf); [by split|done..|]. exists p2'. split; [|done].
  eapply apply_receipt_ok; [done| | |by left].
  - unfold push_receipt_trx. cbn [br_trx receipt h_cpu_usage_us receipt_header_of]. by rewrite H2.
  - destruct Hp as (_ & _ & ->), Hp' as (_ & _ & ->). by eapply push_transaction_recorded.
Qed.

Lemma scheduled_receipt_replays (p1 p2 : pending_state K Bytes) tid w q r x k : in_time k -> same_pending p1 p2 ->
  shares_fit (CT.resources (tables (chain p1))) -> usage_fits (CT.resources (tables (chain p1))) -> explicit_billed_cpu_time q = false ->
  push_scheduled_transaction pack_onerror f v y1 n1 q tid (chain p1) = Ok (w, Retired r x) ->
  exists p2', apply_receipt pack_onerror f v y2 n2 s2 p2 (mk_block_receipt (receipt_header_of r) (by_id tid), k) = Ok p2' /\
    same_pending (scheduled_pending p1 w (Retired r x)) p2' /\ shares_fit (CT.resources (tables w)).
Proof.
  intros [Hk Hek] (Hc & Er & El) Hs Hu Hq H1.
  destruct (push_scheduled_replays pack_onerror f v y1 y2 n1 n2 q (scheduled_call (cpu_usage_us r) k) tid _ _ _ _ _ Hy Hn Hcf
    ltac:(by split) Hc Hs Hu H1 eq_refl) as (w2 & x2 & H2 & Hc' & Hf & Hx).
  exists (scheduled_pending p2 w2 (Retired r x2)). split; [|split; [|done]].
  - eapply apply_receipt_ok; [done| |done|].
    + unfold push_receipt_trx. cbn [br_trx receipt h_cpu_usage_us receipt_header_of]. by rewrite H2.
    + destruct Hx as [->|Hx]; [by left|by right].
  - split_and!; [done|done|]. cbn. by rewrite El.
Qed.

(** A push that leaves no receipt leaves no trace. *)
Lemma except_unchanged y n s q m (p p' : pending_state K Bytes) e : push_transaction f v y n s q m p = Ok (Except e, p') -> p' = p.
Proof.
  unfold push_transaction. intros H1. apply bind_ok_inv in H1 as ([] & _ & H1).
  destruct (apply_input f v y n s q m p) as [[r' p'']|e']; [done|]. destruct (is_rethrown e'); [done|]. by injection H1 as <- <-.
Qed.

Lemma failed_unchanged y n q tid (w w' : world K Bytes) e :
  push_scheduled_transaction pack_onerror f v y n q tid w = Ok (w', Failed e) -> w' = w.
Proof.
  unfold push_scheduled_transaction. destruct (find_by_trx_id w tid) as [o|]; [|done]. unfold push_scheduled. intros H1.
  apply bind_ok_inv in H1 as ([] & _ & H1). apply bind_ok_inv in H1 as (w1 & _ & H1). apply bind_ok_inv in H1 as ([] & _ & H1).
  destruct (_ <? _); [by apply bind_ok_inv in H1 as (r & _ & H1)|].
  assert (forall e' cpu, retire_failed (requiring_checks n) q o e' cpu w w1 = Ok (w', Failed e) -> w' = w) as Hr.
  { intros e' cpu. unfold retire_failed. destruct (is_subjective _ e'); [by intros [= <- _]|].
    intros H2. by apply bind_ok_inv in H2 as ([w2 r] & _ & H2). }
  destruct (mbind _ _) as [[w2 r]|e'] in H1; [done|]. destruct (is_rethrown e'); [done|].
  unfold handle_failure in H1. destruct (_ && _); [|by eapply Hr].
  destruct (apply_onerror _ _ _ _ _ _) as [[w2 r]|e'']; [done|]. destruct (is_rethrown e''); [done|]. by eapply Hr.
Qed.

End replay.

(** C2: The receipts of a block that a producer makes pass the loop of
    [apply_block] over the receipts on a node that validates the block in full.
    A producer pushes input and generated transactions and measures their CPU
    time, under its own whitelists and blacklists, greylist, deadlines and
    limits on inline actions; the pushes that succeed put receipts into the
    block.  For every such sequence of pushes the loop of the validator throws
    nowhere: every transaction is executed, delayed, expires or fails softly or
    hard as its receipt says, no check of the loop on the receipts fails, and
    the node has the same state (tables, permissions, accounts and their
    resources, generated transactions, recorded ids, action receipts) and the
    same receipts as the producer.  The other parts of [apply_block] (the start
    and the end of the block, the comparison of the block ids) are not part of
    the statement.

    What is assumed of the two nodes.  Both check transactions:
    [skip_trx_checks] is false on both, so light validation and blocks of
    trusted producers are left out; the producer's [is_producing_block] is true
    and the validator's false; both have the same head block, block time,
    chain configuration, block summary, activated protocol features, value of
    [skip_auth_check] and, where they replay, head time ([validator_node],
    [validator_runtime]); the validator enforces no lists of actors and allows
    RAM to be billed in notifications.  A contract does the same on both, through
    the intrinsics for tables, inline actions and deferred transactions.  The
    nodes have the same state before the transactions, the validator has the
    receipts and transactions of the block, and its clock at the initialisation
    of each execution is not past the deadline, a year after the start
    ([in_time]).

    What is assumed of the numbers.  The parameters of the chain have their
    widths ([config_fits]); before the block the CPU time pending in it is within
    the block's limit, and the elastic limits and the shares of the accounts in
    them are representable ([shares_fit]); before each push that leaves a
    receipt, the averages of the CPU usage of the accounts are well formed and
    below 2^63 ([usage_fits], the condition of [produced]). *)
Theorem produced_transactions_accepted {K Bytes : Type} `{Countable K} (pack_onerror : Z -> TX.transaction Bytes -> Bytes)
    (f : library K Bytes) (v : ChainHost.natives K Bytes) (y1 y2 : ChainHost.runtime Bytes) (n1 n2 : node K Bytes)
    (s1 s2 : settings) (p1 p1' p2 : pending_state K Bytes) (made : list (block_receipt K Bytes))
    (block : list (block_receipt K Bytes * clock)) :
  validator_runtime y1 y2 -> validator_node n1 n2 -> config_fits (trx_control n1) ->
  replay_head_time s2 = replay_head_time s1 ->
  shares_fit (CT.resources (tables (chain p1))) -> same_pending p1 p2 ->
  produced pack_onerror f v y1 n1 s1 usage_fits p1 made p1' ->
  Forall2 same_receipt made block.*1 -> Forall in_time block.*2 ->
  exists p2', apply_receipts pack_onerror f v y2 n2 s2 p2 block = Ok p2' /\ same_pending p1' p2'.
Proof.
  intros Hy Hn Hcf Hrh Hs Hp Hmade. revert p2 block Hs Hp.
  induction Hmade as [p1|p1 pm p1' m q r made Hi Hd Hq Hu H1 _ IH|p1 p1' tid w r x q made Hq Hu H1 _ IH
    |p1 pm p1' m q e made H1 _ IH|p1 p1' tid w e q made H1 _ IH]; intros p2 block Hs Hp Hb Hk.
  - apply Forall2_nil_inv_l in Hb. apply fmap_nil_inv in Hb as ->. by exists p2.
  - destruct block as [|[b k] block]; [by apply Forall2_cons_nil_inv in Hb|]. apply Forall2_cons in Hb as [[Er Ht] Hb]. apply Forall_cons in Hk as [Hk1 Hk].
    destruct b as [h [t|m2]]; cbn in Er, Ht; [done|]. subst h.
    destruct (input_receipt_replays pack_onerror f v y1 y2 Hy n1 n2 Hn Hcf s1 s2 Hrh p1 p2 pm m m2 q r k) as (pm2 & E2 & Hp2 & Hs2); try done.
    unfold apply_receipts. cbn [foldM]. rewrite E2. by apply IH.
  - destruct block as [|[b k] block]; [by apply Forall2_cons_nil_inv in Hb|]. apply Forall2_cons in Hb as [[Er Ht] Hb]. apply Forall_cons in Hk as [Hk1 Hk].
    destruct b as [h [t|m2]]; cbn in Er, Ht; [|done]. subst h t.
    destruct (scheduled_receipt_replays pack_onerror f v y1 y2 Hy n1 n2 Hn Hcf s2 p1 p2 tid w q r x k) as (pm2 & E2 & Hp2 & Hs2); try done.
    unfold apply_receipts. cbn [foldM]. rewrite E2. by apply IH.
  - apply except_unchanged in H1 as ->. by apply IH.
  - apply failed_unchanged in H1 as ->. apply IH; try done.
Qed.
(** ** A block with two transactions *)

(** An input transaction creates alice's account, and a generated transaction
    that waits in the schedule tries to create it again: it fails and is billed. *)
Definition again : generated_transaction_object unit :=
  mk_gto 0 77 no_name 0 AM.system_account_name 0 946684900000000 0 (packed newaccount_trx).
Definition waiting_world : world Z unit := set_generated genesis_world [again] 1.
Definition start_pending : pending_state Z unit := mk_pending waiting_world [] [].

Definition validating_controller : @TC.controller Z _ _ :=
  let g := TransactionBilling.sample_controller in
  TC.mk_controller (TC.pending_block_time g) false false 1000 [] true (TC.configuration g)
    (AccessLists.mk_lists [] [] [] [] ∅ []) (TC.block_summary g) (TC.auth_control g).
Definition validating_node : node Z unit :=
  mk_node validating_controller true true true false true (Merkle.mk_digest 0 0 0 0) true false
    (packed newaccount_trx) 0.
Definition node_settings : settings := mk_settings 5000 None None true.

Definition first_push : result (trace * pending_state Z unit) :=
  push_transaction DeferredRam.sample_library account_natives ScheduledOutcome.sample_runtime checking_node node_settings
    (mk_input_request 9000000000000 1000000 0 false 0 1000 1000 2000) newaccount_trx start_pending.
Definition after_first : pending_state Z unit :=
  match first_push with Ok (_, p) => p | Throw _ => start_pending end.
Definition second_push : result (world Z unit * outcome) :=
  push_scheduled_transaction (fun _ _ => tt) DeferredRam.sample_library account_natives ScheduledOutcome.sample_runtime checking_node
    (mk_request 9000000000000 1000000 0 false 3000 3000 4000 700 3000 3000 4000 700) 77 (chain after_first).
Definition after_second : world Z unit := match second_push with Ok (w, _) => w | Throw _ => waiting_world end.
Definition first_receipt : transaction_receipt := mk_receipt 0 executed 1025 15.
Definition second_receipt : transaction_receipt := mk_receipt 77 hard_fail 700 0.
Definition validator_clock : clock := mk_clock 5000 5000 6000 50 5000 5000 6000 50.
Definition two_receipts : list (block_receipt Z unit * clock) :=
  [(mk_block_receipt (receipt_header_of first_receipt) (packed_transaction newaccount_trx), validator_clock);
   (mk_block_receipt (receipt_header_of second_receipt) (by_id 77), validator_clock)].

(** The conditions on the resource limits, for finite tables. *)
Lemma usage_fits_check m : 0 < RL.account_cpu_usage_average_window (RL.config m) < 2 ^ 32 ->
  map_Forall (fun _ u => Accumulator.wf (RL.cpu_usage u) /\ Accumulator.value_ex (RL.cpu_usage u) < 2 ^ 63 /\
    Accumulator.consumed (RL.cpu_usage u) < 2 ^ 63) (RL.usage m) ->
  usage_fits m.
Proof. intros Hw Hm. split; [done|]. intros a u Hu. exact (Hm a u Hu). Qed.

Lemma produced_pair {K Bytes : Type} `{Countable K} pack (f : library K Bytes) v y n s fits (p p' : pending_state K Bytes) m q r tid w q2 r2 x :
  type m = input -> discards n s m = false -> in_explicit_billed_cpu_time q = false -> explicit_billed_cpu_time q2 = false ->
  fits (CT.resources (tables (chain p))) -> fits (CT.resources (tables (chain p'))) ->
  push_transaction f v y n s q m p = Ok (Receipt r, p') ->
  push_scheduled_transaction pack f v y n q2 tid (chain p') = Ok (w, Retired r2 x) ->
  produced pack f v y n s fits p [mk_block_receipt (receipt_header_of r) (packed_transaction m);
    mk_block_receipt (receipt_header_of r2) (by_id tid)] (scheduled_pending p' w (Retired r2 x)).
Proof.
  intros. eapply produced_input; [done..|eassumption|]. eapply produced_scheduled; [done..|eassumption|]. apply produced_nothing.
Qed.

Lemma same_pending_refl {K Bytes : Type} `{Countable K} (p : pending_state K Bytes) : same_pending p p.
Proof. split; [exists (net (chain p)); by destruct (chain p)|done]. Qed.

Lemma start_usage : usage_fits (CT.resources (tables (chain start_pending))).
Proof. apply usage_fits_check; [vm_compute; by split|]. apply (bool_decide_unpack _). vm_compute. exact I. Qed.
Lemma middle_usage : usage_fits (CT.resources (tables (chain after_first))).
Proof. apply usage_fits_check; [vm_compute; by split|]. apply (bool_decide_unpack _). vm_compute. exact I. Qed.
Lemma start_shares : shares_fit (CT.resources (tables (chain start_pending))).
Proof.
  split; vm_compute; intuition discriminate.
Qed.

Lemma two_produced : produced (fun _ _ => tt) DeferredRam.sample_library account_natives ScheduledOutcome.sample_runtime checking_node
  node_settings usage_fits start_pending two_receipts.*1
  (scheduled_pending after_first after_second (Retired second_receipt (Some account_name_exists_exception))).
Proof.
  apply produced_pair with (q := mk_input_request 9000000000000 1000000 0 false 0 1000 1000 2000)
    (q2 := mk_request 9000000000000 1000000 0 false 3000 3000 4000 700 3000 3000 4000 700).
  1-4: reflexivity. 1: exact start_usage. 1: exact middle_usage. all: vm_compute; reflexivity.
Qed.

Lemma produced_transactions_accepted_witness : exists p2,
  apply_receipts (fun _ _ => tt) DeferredRam.sample_library account_natives ScheduledOutcome.sample_runtime validating_node
    node_settings start_pending two_receipts = Ok p2 /\
  same_pending (scheduled_pending after_first after_second (Retired second_receipt (Some account_name_exists_exception))) p2.
Proof.
  refine (produced_transactions_accepted (fun _ _ => tt) DeferredRam.sample_library account_natives ScheduledOutcome.sample_runtime
    ScheduledOutcome.sample_runtime checking_node validating_node node_settings node_settings start_pending _ start_pending
    two_receipts.*1 two_receipts _ _ _ eq_refl start_shares _ two_produced _ _).
  - by exists 4096.
  - split; [|done..]. split; try done. by exists ∅.
  - split; vm_compute; intuition discriminate.
  - apply same_pending_refl.
  - repeat constructor. by exists 50.
  - repeat constructor.
Defined.

End BlockReplay.
